(* ===== verification/_CoqProject ===== *)
-Q . S2P
Prelude.v
RaftTypes.v
RaftStorage.v
RaftConfig.v
RaftState.v
RaftWorker.v
RaftNode.v
RaftWrites.v
RaftLog.v
RaftOps.v
RaftStatic.v
RaftCluster.v
RaftFindings.v
Worklist.v
Bytes.v
Slices.v
CrdtCodec.v
CrdtDag.v
CrdtOrder.v
CrdtSync.v
CrdtReplica.v
CrdtConverge.v
Blake2b.v
V2Wire.v
V2Identity.v
StateTree.v
StateTreeNode.v
StateTreeMap.v
StateTreeRefine.v
StateTreeProps.v
Causal.v
CausalProps.v
CausalTheorems.v
Smt.v
SmtSound.v
SmtLedger.v
SmtProps.v
Overlay.v
Committed.v
CommittedTree.v
CommittedRows.v
CommittedProof.v
CommittedProps.v
Handles.v
HandleBytes.v
HandleIndex.v
HandleMap.v
HandleVec.v
HandleProps.v
Parser.v
EffectLog.v
EffectProps.v
Redb.v
RaftRedb.v
RaftRedbLog.v
RaftRedbCommit.v
RaftRedbProps.v
Strategy.v
StrategyRaft.v
StrategyProps.v
CrdtStrategy.v
CrdtRows.v
CrdtCommits.v
CrdtPull.v
CrdtStrategyProps.v
CrdtFields.v
CrdtFieldLaws.v
CrdtList.v
CrdtListLaws.v
CrdtFieldProps.v
Frames.v
FrameLaws.v
Network.v
NetworkLaws.v
NetworkTrace.v
NetworkRate.v
NetworkJoin.v
RaftTransport.v
NetworkProps.v
