(* ===== verification/Prelude.v ===== *)
(** * VOS: a verification library

    VOS runs actors on a Merkle-committed store and replicates them.  The library
    models the parts of the repository on which agreement, durability and
    authenticity rest, as executable definitions that follow the Rust sources under
    [src/], and proves what those parts promise to each other.

    ** The program's parts and how they meet

    - _Consensus_ ([support/vos-raft]): a Raft worker that is a loop over messages,
      timers and RPC outcomes, above a storage trait.  RaftTypes.v (configuration,
      entries, RPCs, the entropy source), RaftStorage.v (the trait as the class [Storage], with its
      contract [StorageLaws] and the in-memory backend), RaftConfig.v (quorums),
      RaftState.v and RaftWorker.v (every handler of [worker.rs], [worker_step] for the
      loop).
    - _Its durable backend_ ([vos/src/raft/log.rs], [redb_storage.rs]): Redb.v is the
      interface of the redb database, RaftRedb.v the log, the meta row, their caches
      and the storage backend over it.
    - _Merkle-CRDT replication_ ([support/merkle-crdt]): CrdtCodec.v (the byte codec),
      CrdtDag.v (nodes, identifiers, stores), CrdtOrder.v (Kahn's algorithm), CrdtSync.v
      (the clock and its traversals), CrdtReplica.v ([MerkleCrdt]).
    - _Commit strategies_ ([vos/src/commit.rs], [vos/src/raft/strategy.rs], and
      [sync_with_peer] of [vos/src/node.rs]): how the host makes a dispatch durable.
      Strategy.v has the local and the Raft strategy, CrdtStrategy.v the CRDT one.
      They store what EffectLog.v ([vos/src/effect_log.rs]) records and replays.
    - _Replicated fields_ ([vos/src/crdt.rs]): CrdtFields.v has the identifiers, the
      slice an actor's operations are recorded in, and the registers, maps, sets, lists,
      texts and counters that actors keep as CRDT state, with their merges.
    - _The network_ ([vos/src/network]): Frames.v is the wire format and the stream
      framing ([wire.rs], [codec.rs]), Network.v the network thread ([mod.rs]): commands,
      swarm events and blocking tasks are inputs of [net_step], requests, responses and
      calls of handlers its effects.  The host's service and the Raft handlers are
      classes over a world they change; RaftTransport.v ([vos/src/raft/vos_transport.rs],
      [worker.rs]) is the transport the Raft worker sends through and the handler that
      posts inbound RPCs to the workers of RaftWorker.v.  A lock's section is atomic;
      authenticating an RPC (one step, in which the handler's members are read) and
      calling its handler are two steps, as the task may be delayed between them.  A
      join ([handle_raft_join] of [vos/src/node.rs], [handle_join] of
      [vos/src/raft/worker.rs]) is six, between which anything may happen: the registry's
      row, the binding of the caller, the group's route with its barrier, the quiescence
      of its private input, the worker's members, and the proposal.
    - _Actor storage_ ([vos/src/actors/storage.rs], [storage/committed.rs]): Overlay.v
      (the rows of a dispatch and their commit), Handles.v (values, maps, sets, vectors
      over pages of keys), Committed.v (the committed map).  Smt.v ([vos/src/zk/state.rs])
      is the sparse Merkle tree whose roots the committed map keeps and whose
      multiproofs a task verifies.
    - _The v2 protocol_ ([vos/src/v2]): V2Wire.v (the strict codec of [wire.rs] and the
      key wire of [storage.rs]), V2Identity.v ([identity.rs]), StateTree.v
      ([state_tree.rs]), Causal.v ([causal.rs] over the change wire of [contracts.rs]).
    - _Hashing_ ([vos/src/crypto/blake2b.rs]): Blake2b.v.

    Prelude.v (this file), Worklist.v, Bytes.v, Slices.v and Parser.v hold what
    several components share: results, ordered views of maps, graph traversals,
    machine integers as bytes, and the standard library's searches and sorts.

    ** How the code is represented

    A Rust function on [&mut self] is a function that returns the new state next to
    its result, on the error paths too; where many calls thread a state there is a
    small monad ([dispatch], [decoder], [parser], [reader], [tx], [tree_m], [op]).  [Result] is
    [result], a panic or a loop out of fuel is [None].  Integers are [N] or [Z] with
    every wrap, saturation and checked operation of the source written out, and the
    unchecked additions of the release build wrapping ([⊞], [⊟]); lengths of buffers
    and offsets into them ([usize]) are taken below their width.  Bytes are
    [Byte.byte]; [BTreeMap] and [HashMap] are [gmap], iterated in key order by
    [sorted_keys] where the source's order shows.  A handler runs to completion before
    the next event, as in the worker's loop and under the strategies' locks; threads,
    crashes and networks are step relations over the handlers (RaftCluster.v,
    CrdtPull.v).

    Code outside [src/] is a class with its documented behaviour as laws, and each
    class has an instance the witnesses run on: [Redb]/[RedbLaws] (transactions are
    atomic, reads see a snapshot; every call may fail, [RedbReliable] says that none
    does; a log index never reaches 2^64), [Hasher]/[HasherLaws] (a digest is readable
    from its bytes), [RowCodec]/[RowCodecLaws] (rkyv round trips), [StorageLaws],
    [StoreLaws] and [StateTreeStoreLaws] (the traits' documentation).  Hashes are
    never assumed injective: theorems either assume that the values in use do not
    collide ([CollisionFree], [Grounded]) or conclude "or two different preimages of
    one digest are exhibited".

    ** What the theorems show

    - RaftNode.v, RaftWrites.v, RaftLog.v, RaftOps.v: one replica.
      The worker's invariant through every event and storage failure; that an event
      writes at most four batches, of six kinds ([dbatch]); the shape of the log, as
      long as indices have room ([index_room]); commit indices that need a quorum, safe
      compaction, snapshots streamed byte for byte.  RaftStatic.v and RaftCluster.v: the
      cluster.  One vote per term across crashes, one leader per term for a fixed
      membership without pre-vote, in runs in which no term wraps ([no_term_wrap]); with
      pre-vote, a run with two leaders.  RaftFindings.v: runs against the documentation.
    - RaftRedbLog.v, RaftRedbCommit.v, RaftRedbProps.v: the redb backend refines the in-memory one, batch by batch and
      read by read, failures included.
    - CrdtConverge.v: replicas that pull each other converge; synchronising is atomic;
      traversals end.
    - StrategyRaft.v, StrategyProps.v: the local strategy is durable,
      the Raft strategy replays what it committed, a cluster member applies what the
      worker committed; two runs in which it does not.  CrdtRows.v, CrdtCommits.v,
      CrdtPull.v, CrdtStrategyProps.v: replay returns
      exactly the events whose history is stored, commits extend it, no interleaving
      of agent and synchronisation loses history, pulls complete; and four runs in
      which events are not replayed.  EffectProps.v: recording and replaying, and the
      log codec.
    - CrdtFieldLaws.v (states as the sets of operations seen, and the contract
      [ReplicatedLaws] of a field type), CrdtList.v, CrdtListLaws.v,
      CrdtFieldProps.v: every field type converges, each shows what the operations seen
      determine, lists and texts edit as sequences and keep their order, and a slice
      reports the operations it performed.
    - FrameLaws.v, NetworkLaws.v, NetworkTrace.v (what led to the effects of a run),
      NetworkRate.v (what a run serves a peer in an interval), NetworkJoin.v (the history
      of a join, and the barrier), NetworkProps.v: the decoder accepts exactly what the
      encoder writes; a Raft RPC reaches a handler only from the authenticated voter of
      its slot and as the request that was sent; a join enrols its caller, and the joins
      of a group with a route exclude each other; requests are answered, at most once
      and in the shape asked for; what one peer can make a node do is bounded.
    - HandleBytes.v, HandleIndex.v, HandleMap.v, HandleVec.v, HandleProps.v: the storage
      handles refine maps, sets and lists over any sequence of dispatches.
      CommittedTree.v, CommittedRows.v, CommittedProof.v,
      CommittedProps.v: the committed map refines a map, its rows are canonical, its
      witnesses are accepted.  SmtSound.v, SmtLedger.v,
      SmtProps.v: multiproofs are sound and complete against the full tree.
    - StateTreeNode.v, StateTreeMap.v, StateTreeRefine.v,
      StateTreeProps.v: the service state tree refines a map with a history-independent
      root and authentic answers.  CausalProps.v, CausalTheorems.v: loaded frontiers
      are complete and validated.  Blake2b.v: streaming through the host call is RFC
      7693, which [Module Rfc] writes down on its own.  V2Wire.v and V2Identity.v: wires decode exactly their encodings, and
      identifiers hash unambiguous bytes.


    ** Fuel

    Loops that are not structural take fuel, and a theorem shows that it is enough:
    graph traversals need the starting points plus the stored edges plus one
    ([worklist_total]); Kahn's loops the nodes plus one; the state tree 257 levels
    ([tree_fuel]); a causal load the heads plus the stored dependencies; the committed
    map's walk its depth plus one and its extraction twice the depth per key; its
    iterator twice the entries plus two; the order of a CRDT list its siblings and
    elements plus one; a storage map's bisection the slots plus one
    and its next-key search the directory plus one.  For a pull from a peer, whose
    history is not bounded beforehand, there is a fuel after which the result no
    longer changes.

    ** Not modelled

    - [vos/src/node.rs] (except [sync_with_peer], and [handle_raft_join] with the routes
      and the barrier it uses), [runtime.rs], [extension.rs],
      [jobs.rs]: threads, sockets, timers and PVM instances around the modelled parts.
    - [vos/src/v2]: the contracts beyond those named above, the accumulate, root, scheduler and
      store services that run on them, packages and continuations.
    - [vos/src/raft/worker.rs]: spawning the worker's thread, and the handle's calls that
      only post a message and wait for its reply.  [vos/src/raft/v2.rs]: the adapter to
      the v2 services.
    - [vos/src/network]: [build_swarm], which configures libp2p, and the handle's methods
      and [ops.rs], which only post commands; poisoned locks.
    - [vos/src/actors] other than storage: contexts, metadata, dispatch glue and hostcalls,
      written against the PVM's memory and rkyv.
    - [vos/src/registry.rs], [effects.rs], [refine_payload.rs], [attestation.rs], [zk.rs]:
      registries and payload plumbing, not reached yet.
    - [support/merkle-crdt/src/store_redb.rs]: calls into redb; [StoreLaws] is its contract.
    - [zkpvm], [clerk-witness]: a STARK prover over the stwo library, which is not part
      of the sources.
    - [vos/vos-macros]: a procedural macro, whose output is generated code.
    - [actors], [services], [extensions], [vosx], [support/vos-shell],
      [support/vrf], [support/jar-revision-check]: applications, tools, terminal and process
      I/O on top of the modelled parts. *)

From Stdlib.Strings Require Byte.
From stdpp Require Export base sorting relations option numbers gmap list.

(** ** Results

    Fallible Rust code returns [Result<A, E>]. *)

Inductive result (E A : Type) : Type :=
| Ok (a : A)
| Err (e : E).
Arguments Ok {E A} a.
Arguments Err {E A} e.

Abbreviation bytes := (list Byte.byte).

#[export] Instance byte_eq_dec : EqDecision Byte.byte := Byte.byte_eq_dec.

(** ** Machine-width constants *)

Definition u64_modulus : N := 18446744073709551616.
Definition u64_max : N := 18446744073709551615.
Definition u32_max : N := 4294967295.

Definition saturating_add (max a b : N) : N := N.min (a + b) max.
Definition wrapping_mul64 (a b : N) : N := (a * b) `mod` u64_modulus.

(** [a + b] and [a - b] on [u64] where the source does not check them: a release
    build wraps around. *)
Definition wrapping_add64 (a b : N) : N := (a + b) `mod` u64_modulus.
Definition wrapping_sub64 (a b : N) : N := (if b <=? a then a - b else a + u64_modulus - b)%N.
Infix "⊞" := wrapping_add64 (at level 50, left associativity) : N_scope.
Infix "⊟" := wrapping_sub64 (at level 50, left associativity) : N_scope.

Lemma wrapping_add64_small a b : (a + b ≤ u64_max → a ⊞ b = a + b)%N.
Proof. unfold wrapping_add64, u64_max, u64_modulus. intros H. apply N.mod_small. lia. Qed.

Lemma wrapping_sub64_small a b : (b ≤ a → a ⊟ b = a - b)%N.
Proof. unfold wrapping_sub64. intros H%N.leb_le. by rewrite H. Qed.

(** ** Key-ordered views of finite maps

    [BTreeMap] iterates in key order: [sorted_keys] and [sorted_values] are
    that iteration order over a [gmap]. *)

#[export] Instance N_le_total_order : TotalOrder N.le.
Proof. split; [apply _|]. intros x y. unfold strict. lia. Qed.

(** The keys of a [BTreeSet] or [BTreeMap]: a total order. *)
Class RustOrd (K : Type) := {
  ord_eq_dec :: EqDecision K;
  ord_countable :: Countable K;
  ord_le : relation K;
  ord_le_dec :: RelDecision ord_le;
  ord_le_total :: TotalOrder ord_le;
}.

Section btree.
Context {K : Type} `{Countable K}.
Context (R : relation K) `{!RelDecision R} `{!TotalOrder R}.

Definition sorted_keys {A} (m : gmap K A) : list K :=
  merge_sort R (map_to_list m).*1.

Definition sorted_elements (s : gset K) : list K := merge_sort R (elements s).

Definition last_key {A} (m : gmap K A) : option K := last (sorted_keys m).

Lemma sorted_keys_perm {A} (m : gmap K A) :
  sorted_keys m ≡ₚ (map_to_list m).*1.
Proof. apply merge_sort_Permutation. Qed.

Lemma elem_of_sorted_keys {A} (m : gmap K A) k :
  k ∈ sorted_keys m ↔ is_Some (m !! k).
Proof.
  rewrite sorted_keys_perm, list_elem_of_fmap. split.
  - intros ([k' a] & -> & Hin%elem_of_map_to_list). simpl. eauto.
  - intros [a Ha]. exists (k, a). by rewrite elem_of_map_to_list.
Qed.

Lemma NoDup_sorted_keys {A} (m : gmap K A) : NoDup (sorted_keys m).
Proof. rewrite sorted_keys_perm. apply NoDup_fst_map_to_list. Qed.

Lemma StronglySorted_sorted_keys {A} (m : gmap K A) :
  StronglySorted R (sorted_keys m).
Proof. apply (StronglySorted_merge_sort R). Qed.

Lemma StronglySorted_last (l : list K) k :
  StronglySorted R l → last l = Some k → ∀ j, j ∈ l → R j k.
Proof.
  induction 1 as [|x l Hs IH Hall]; [done|].
  destruct l as [|y l].
  - intros [= ->] j ->%list_elem_of_singleton. reflexivity.
  - intros Hlast j [->|Hj]%elem_of_cons; [|by apply IH].
    rewrite Forall_forall in Hall. apply Hall. by apply last_Some_elem_of.
Qed.

(** The greatest key of a map, characterised without its iteration order. *)
Lemma last_key_Some {A} (m : gmap K A) k :
  last_key m = Some k ↔ is_Some (m !! k) ∧ ∀ j, is_Some (m !! j) → R j k.
Proof.
  unfold last_key. split.
  - intros Hlast. split.
    + by apply elem_of_sorted_keys, last_Some_elem_of.
    + intros j Hj. eapply StronglySorted_last; eauto using StronglySorted_sorted_keys.
      by apply elem_of_sorted_keys.
  - intros [Hk Hmax].
    destruct (last (sorted_keys m)) as [k'|] eqn:Hlast.
    + f_equal. apply (anti_symm R).
      * apply Hmax, elem_of_sorted_keys, last_Some_elem_of, Hlast.
      * eapply StronglySorted_last; eauto using StronglySorted_sorted_keys.
        by apply elem_of_sorted_keys.
    + apply last_None in Hlast. apply elem_of_sorted_keys in Hk.
      rewrite Hlast in Hk. by apply elem_of_nil in Hk.
Qed.

Lemma last_key_None {A} (m : gmap K A) : last_key m = None ↔ m = ∅.
Proof.
  unfold last_key. rewrite last_None. split.
  - intros Hnil. apply map_eq. intros k. rewrite lookup_empty.
    destruct (m !! k) eqn:Hk; [|done].
    assert (k ∈ sorted_keys m) as Hin by (apply elem_of_sorted_keys; eauto).
    rewrite Hnil in Hin. by apply elem_of_nil in Hin.
  - intros ->. unfold sorted_keys. rewrite map_to_list_empty. done.
Qed.

Lemma sorted_elements_perm (s : gset K) : sorted_elements s ≡ₚ elements s.
Proof. apply merge_sort_Permutation. Qed.

Lemma elem_of_sorted_elements (s : gset K) k : k ∈ sorted_elements s ↔ k ∈ s.
Proof. by rewrite sorted_elements_perm, elem_of_elements. Qed.
End btree.

(** ** Counting

    [iter().filter(p).count()]. *)

Fixpoint count_if {A} (p : A → bool) (l : list A) : nat :=
  match l with
  | [] => 0
  | x :: l => (if p x then 1 else 0) + count_if p l
  end.

Lemma count_if_app {A} (p : A → bool) l1 l2 :
  count_if p (l1 ++ l2) = count_if p l1 + count_if p l2.
Proof. induction l1; simpl; lia. Qed.

Lemma count_if_map {A B} (f : A → B) (p : B → bool) l :
  count_if p (f <$> l) = count_if (λ x, p (f x)) l.
Proof. induction l as [|x l IH]; csimpl; [done|]. by rewrite IH. Qed.

Lemma count_if_le_length {A} (p : A → bool) l : count_if p l ≤ length l.
Proof. induction l as [|x l]; simpl; [lia|]. destruct (p x); lia. Qed.

Lemma count_if_perm {A} (p : A → bool) l1 l2 :
  l1 ≡ₚ l2 → count_if p l1 = count_if p l2.
Proof. induction 1; simpl; lia. Qed.

Lemma count_if_all {A} (p : A → bool) l :
  (∀ x, x ∈ l → p x = true) → count_if p l = length l.
Proof.
  induction l as [|x l IH]; simpl; intros Hall; [done|].
  rewrite Hall by left. rewrite IH; [done|]. intros. apply Hall. by right.
Qed.

Lemma count_if_none {A} (p : A → bool) l :
  (∀ x, x ∈ l → p x = false) → count_if p l = 0.
Proof.
  induction l as [|x l IH]; simpl; intros Hall; [done|].
  rewrite Hall by left. rewrite IH; [done|]. intros. apply Hall. by right.
Qed.

Lemma count_if_mono {A} (p q : A → bool) l :
  (∀ x, x ∈ l → p x = true → q x = true) → count_if p l ≤ count_if q l.
Proof.
  induction l as [|x l IH]; simpl; intros Himp; [lia|].
  assert (count_if p l ≤ count_if q l) by (apply IH; intros; apply Himp; [by right|done]).
  destruct (p x) eqn:Hp; [|lia]. rewrite (Himp x); [lia|left|done].
Qed.

(** Two predicates that together cover more than the whole list share a member. *)
Lemma count_if_overlap {A} (p q : A → bool) l :
  length l < count_if p l + count_if q l →
  ∃ x, x ∈ l ∧ p x = true ∧ q x = true.
Proof.
  induction l as [|x l IH]; simpl; [lia|]. intros Hlt.
  destruct (p x) eqn:Hp, (q x) eqn:Hq;
    try (destruct IH as (y & ? & ? & ?); [lia|]; exists y; split_and!; [by right|done..]).
  exists x. split_and!; [left|done..].
Qed.

(** Position [i] of a list sorted in descending order: at least [i + 1] members
    reach its value, and no greater value is reached by [i + 1] members. *)
Lemma StronglySorted_ge_reach (l : list N) i f :
  StronglySorted (flip N.le) l → l !! i = Some f →
  i < count_if (N.leb f) l.
Proof.
  intros Hs. revert i. induction Hs as [|x l Hs IH Hall]; intros i Hi; [done|].
  destruct i as [|i]; simpl in *.
  - injection Hi as ->. rewrite N.leb_refl. lia.
  - rewrite Forall_forall in Hall.
    assert (f ≤ x)%N as Hle by (eapply Hall, list_elem_of_lookup_2; eauto).
    apply N.leb_le in Hle. rewrite Hle. specialize (IH i Hi). lia.
Qed.

Lemma StronglySorted_ge_max (l : list N) i f g :
  StronglySorted (flip N.le) l → l !! i = Some f →
  i < count_if (N.leb g) l → (g ≤ f)%N.
Proof.
  intros Hs. revert i. induction Hs as [|x l Hs IH Hall]; intros i Hi Hc; [done|].
  destruct i as [|i]; simpl in *.
  - injection Hi as ->. destruct (N.leb_spec g f); [done|].
    rewrite count_if_none in Hc; [lia|]. intros y Hy.
    rewrite Forall_forall in Hall. apply Hall in Hy. apply N.leb_gt. unfold flip in Hy. lia.
  - apply (IH i Hi). destruct (N.leb g x); lia.
Qed.

(** ** Lists *)

Lemma filter_ext_in {A} (P1 P2 : A → Prop) `{!∀ x, Decision (P1 x), !∀ x, Decision (P2 x)} (l : list A) :
  (∀ x, x ∈ l → P1 x ↔ P2 x) → filter P1 l = filter P2 l.
Proof.
  induction l as [|x l IH]; intros Hiff; [done|]. rewrite !filter_cons.
  rewrite IH by (intros; apply Hiff; by right).
  rewrite (decide_ext (P1 x) (P2 x)); [done|]. apply Hiff. left.
Qed.

(** A non-empty finite set has a member of greatest rank. *)
Lemma max_rank_exists {K} `{Countable K} (rank : K → nat) (X : gset K) :
  X ≠ ∅ → ∃ x, x ∈ X ∧ ∀ y, y ∈ X → rank y ≤ rank x.
Proof.
  induction X as [|x X Hx IH] using set_ind_L; [done|]. intros _.
  destruct (decide (X = ∅)) as [->|Hne].
  { exists x. split; [set_solver|]. intros y. rewrite (right_id_L ∅ (∪)).
    by intros ->%elem_of_singleton. }
  destruct (IH Hne) as (z & Hz & Hmax).
  destruct (decide (rank z ≤ rank x)); [exists x|exists z];
    (split; [set_solver|]; intros y [->%elem_of_singleton|Hy]%elem_of_union;
     [|specialize (Hmax y Hy)]; lia).
Qed.

Lemma NoDup_all_equal {A} (l : list A) x :
  NoDup l → x ∈ l → (∀ y, y ∈ l → y = x) → l = [x].
Proof.
  intros Hnd Hx Hall. destruct l as [|a [|b l]]; [by apply elem_of_nil in Hx| |].
  - f_equal. apply Hall. left.
  - apply NoDup_cons in Hnd as [Ha _]. destruct Ha.
    rewrite (Hall a), (Hall b); [left|right; left|left].
Qed.

Lemma list_filter_all {A} (P : A → Prop) `{!∀ x, Decision (P x)} (l : list A) :
  Forall P l → filter P l = l.
Proof.
  induction 1 as [|x l Hx Hall IH]; [done|]. by rewrite filter_cons, decide_True, IH.
Qed.

Lemma list_filter_none {A} (P : A → Prop) `{!∀ x, Decision (P x)} (l : list A) :
  (∀ x, x ∈ l → ¬ P x) → filter P l = [].
Proof.
  induction l as [|x l IH]; intros Hno; [done|].
  rewrite filter_cons, decide_False by (apply Hno; left).
  apply IH. intros y Hy. apply Hno. by right.
Qed.

Lemma StronglySorted_filter {A} (R : relation A) (Q : A → Prop) `{!∀ x, Decision (Q x)}
    (l : list A) : StronglySorted R l → StronglySorted R (filter Q l).
Proof.
  induction 1 as [|x l Hs IH Hall]; [constructor|]. rewrite filter_cons.
  case_decide; [|done]. constructor; [done|]. apply Forall_forall.
  intros y [_ Hy]%list_elem_of_filter. by eapply Forall_forall in Hall.
Qed.

Lemma StronglySorted_lookup {A} (R : relation A) (l : list A) i j x y :
  StronglySorted R l → i < j → l !! i = Some x → l !! j = Some y → R x y.
Proof.
  intros Hs Hij Hi Hj. rewrite <- (take_drop j l) in Hs.
  eapply StronglySorted_app_1_elem_of; [done|..].
  - eapply list_elem_of_lookup_2. by rewrite lookup_take_lt.
  - eapply (list_elem_of_lookup_2 _ 0). by rewrite lookup_drop, Nat.add_0_r.
Qed.
