(* ===== verification/RaftTypes.v ===== *)
(** * vos-raft: data model

    The pure data of the consensus core: node identities and configuration
    ([support/vos-raft/src/config.rs]), log entries ([log_entry.rs]), the
    durable scalars ([meta.rs]), the role enumeration ([role.rs]) and the RPC
    request and response structs ([rpc.rs]).

    Indices, terms, byte counts and millisecond counts are [u64]/[usize] in the
    source and [N] here; every place where the source saturates or wraps is
    written out.  A record field carries a short prefix because Rocq projections
    share one name space ([ae_] for [AppendEntriesReq], [rv_] for
    [RequestVoteReq], and so on). *)

From S2P Require Import Prelude.

Local Open Scope N_scope.

(** [trait NodeId: Copy + Eq + Ord + Hash]: equality and a map key, plus the
    byte slices that [<N as Hash>::hash] feeds to a hasher. *)
Class NodeId (NID : Type) := {
  node_eq_dec :: EqDecision NID;
  node_countable :: Countable NID;
  node_hash_bytes : NID → list Byte.byte;
}.

(** ** Roles *)

Inductive Role := Follower | PreCandidate | Candidate | Leader.

#[export] Instance Role_eq_dec : EqDecision Role.
Proof. solve_decision. Defined.

Definition as_u8 (r : Role) : N :=
  match r with
  | Follower => 0
  | Candidate => 1
  | Leader => 2
  | PreCandidate => 3
  end.

Definition from_u8 (v : N) : Role :=
  match v with
  | 1 => Candidate
  | 2 => Leader
  | 3 => PreCandidate
  | _ => Follower
  end%N.

(** ** Log entries *)

Inductive EntryKind (NID : Type) :=
| Data (payload : bytes)
| ConfigChange (joint_old : option (list NID)) (members : list NID).
Arguments Data {NID} payload.
Arguments ConfigChange {NID} joint_old members.

Record LogEntry (NID : Type) := mkEntry {
  e_index : N;
  e_term : N;
  e_kind : EntryKind NID;
}.
Arguments mkEntry {NID} _ _ _.
Arguments e_index {NID} _.
Arguments e_term {NID} _.
Arguments e_kind {NID} _.

Definition entry_data {NID} (index term : N) (payload : bytes) : LogEntry NID :=
  mkEntry index term (Data payload).

Definition entry_config_change {NID} (index term : N)
    (joint_old : option (list NID)) (members : list NID) : LogEntry NID :=
  mkEntry index term (ConfigChange joint_old members).

Definition entry_payload {NID} (e : LogEntry NID) : option bytes :=
  match e_kind e with
  | Data payload => Some payload
  | _ => None
  end.

#[export] Instance EntryKind_eq_dec {NID} `{!EqDecision NID} : EqDecision (EntryKind NID).
Proof. solve_decision. Defined.

#[export] Instance LogEntry_eq_dec {NID} `{!EqDecision NID} : EqDecision (LogEntry NID).
Proof. solve_decision. Defined.

(** ** Durable scalars *)

Record Meta (NID : Type) := mkMeta {
  current_term : N;
  voted_for : option NID;
  commit_index : N;
  m_snap_last_index : N;
  m_snap_last_term : N;
}.
Arguments mkMeta {NID} _ _ _ _ _.
Arguments current_term {NID} _.
Arguments voted_for {NID} _.
Arguments commit_index {NID} _.
Arguments m_snap_last_index {NID} _.
Arguments m_snap_last_term {NID} _.

Definition meta_default {NID} : Meta NID := mkMeta 0 None 0 0 0.

Definition meta_set_term {NID} (t : N) (v : option NID) (m : Meta NID) : Meta NID :=
  mkMeta t v (commit_index m) (m_snap_last_index m) (m_snap_last_term m).
Definition meta_set_voted_for {NID} (v : option NID) (m : Meta NID) : Meta NID :=
  mkMeta (current_term m) v (commit_index m) (m_snap_last_index m) (m_snap_last_term m).
Definition meta_set_commit {NID} (c : N) (m : Meta NID) : Meta NID :=
  mkMeta (current_term m) (voted_for m) c (m_snap_last_index m) (m_snap_last_term m).
Definition meta_set_snap {NID} (i t : N) (m : Meta NID) : Meta NID :=
  mkMeta (current_term m) (voted_for m) (commit_index m) i t.

(** ** Configuration *)

Record Config (NID : Type) := mkConfig {
  cfg_me : NID;
  cfg_members : list NID;
  election_timeout_lo : N;
  election_timeout_hi : N;
  heartbeat_interval_ms : N;
  compact_hysteresis : N;
  pre_vote : bool;
  install_snapshot_chunk_bytes : N;
  max_pending_reads : N;
  max_snapshot_bytes : N;
  pre_candidate_misses_before_revert : N;
}.
Arguments mkConfig {NID} _ _ _ _ _ _ _ _ _ _ _.
Arguments cfg_me {NID} _.
Arguments cfg_members {NID} _.
Arguments election_timeout_lo {NID} _.
Arguments election_timeout_hi {NID} _.
Arguments heartbeat_interval_ms {NID} _.
Arguments compact_hysteresis {NID} _.
Arguments pre_vote {NID} _.
Arguments install_snapshot_chunk_bytes {NID} _.
Arguments max_pending_reads {NID} _.
Arguments max_snapshot_bytes {NID} _.
Arguments pre_candidate_misses_before_revert {NID} _.

(** [Config::new]; the routing key [replication_id] is opaque to the worker and
    not modelled. *)
Definition config_new {NID} (me : NID) (members : list NID) : Config NID :=
  mkConfig me members 150 300 50 16 true (32 * 1024) 1024 (512 * 1024 * 1024) 3.

Definition config_quorum {NID} (c : Config NID) : N :=
  N.of_nat (length (cfg_members c)) `div` 2 + 1.

(** ** RPC messages *)

Record AppendEntriesReq (NID : Type) := mkAppendReq {
  ae_leader : NID;
  ae_term : N;
  ae_prev_log_index : N;
  ae_prev_log_term : N;
  ae_leader_commit : N;
  ae_entries : list (LogEntry NID);
}.
Arguments mkAppendReq {NID} _ _ _ _ _ _.
Arguments ae_leader {NID} _.
Arguments ae_term {NID} _.
Arguments ae_prev_log_index {NID} _.
Arguments ae_prev_log_term {NID} _.
Arguments ae_leader_commit {NID} _.
Arguments ae_entries {NID} _.

Record AppendEntriesResp := mkAppendResp {
  aer_term : N;
  aer_success : bool;
  aer_match_index : N;
}.

Record RequestVoteReq (NID : Type) := mkVoteReq {
  rv_candidate : NID;
  rv_term : N;
  rv_last_log_index : N;
  rv_last_log_term : N;
}.
Arguments mkVoteReq {NID} _ _ _ _.
Arguments rv_candidate {NID} _.
Arguments rv_term {NID} _.
Arguments rv_last_log_index {NID} _.
Arguments rv_last_log_term {NID} _.

Record RequestVoteResp := mkVoteResp {
  rvr_term : N;
  rvr_vote_granted : bool;
}.

Record PreVoteReq (NID : Type) := mkPreVoteReq {
  pv_candidate : NID;
  pv_next_term : N;
  pv_last_log_index : N;
  pv_last_log_term : N;
}.
Arguments mkPreVoteReq {NID} _ _ _ _.
Arguments pv_candidate {NID} _.
Arguments pv_next_term {NID} _.
Arguments pv_last_log_index {NID} _.
Arguments pv_last_log_term {NID} _.

Record PreVoteResp := mkPreVoteResp {
  pvr_term : N;
  pvr_vote_granted : bool;
}.

Record InstallSnapshotReq (NID : Type) := mkInstallReq {
  is_leader : NID;
  is_term : N;
  is_last_included_index : N;
  is_last_included_term : N;
  is_offset : N;
  is_done : bool;
  is_data : bytes;
  is_members : list NID;
  is_joint_old : option (list NID);
  is_active_config_index : option N;
}.
Arguments mkInstallReq {NID} _ _ _ _ _ _ _ _ _ _.
Arguments is_leader {NID} _.
Arguments is_term {NID} _.
Arguments is_last_included_index {NID} _.
Arguments is_last_included_term {NID} _.
Arguments is_offset {NID} _.
Arguments is_done {NID} _.
Arguments is_data {NID} _.
Arguments is_members {NID} _.
Arguments is_joint_old {NID} _.
Arguments is_active_config_index {NID} _.

Record InstallSnapshotResp := mkInstallResp {
  isr_term : N;
  isr_bytes_received : N;
}.

(** The 16-bit node prefix that the VOS host uses as its [NodeId]; [Hash] for
    [u16] writes its two bytes in native (little-endian) order. *)
Definition u16_bytes (n : N) : list Byte.byte :=
  let byte_of (v : N) := default Byte.x00 (Byte.of_N (v `mod` 256)) in
  [byte_of n; byte_of (n `div` 256)].

#[export] Instance u16_NodeId : NodeId N := {| node_hash_bytes := u16_bytes |}.

(** The role mirror is lossless: what the worker publishes through its atomic
    decodes to the role it is in. *)
Lemma role_round_trip (r : Role) : from_u8 (as_u8 r) = r.
Proof. by destruct r. Qed.

(** * vos-raft: the default entropy source

    [StdRng] of [support/vos-raft/src/clock.rs]: a xorshift64* generator seeded
    from the system clock and the process id, both of which are arguments here.
    A xorshift state of zero is absorbing, so the generator must never reach
    it. *)

Definition golden64 : N := 0x9E3779B97F4A7C15.

(** [StdRng::from_entropy], with the reading of the clock ([None] before the
    epoch) and the process id. *)
Definition rng_from_entropy (nanos : option N) (pid : N) : N :=
  let nanos := default 0xDEADBEEFCAFEBABE ((λ n, n `mod` u64_modulus) <$> nanos) in
  let seed := N.lxor (wrapping_mul64 nanos golden64) pid in
  if seed =? 0 then 0x1234567890ABCDEF else seed.

(** [StdRng::next_u64]: the next state and the output. *)
Definition rng_next (state : N) : N * N :=
  let x := state in
  let x := N.lxor x (N.shiftr x 12) in
  let x := N.lxor x (N.shiftl x 25 `mod` u64_modulus) in
  let x := N.lxor x (N.shiftr x 27) in
  (x, wrapping_mul64 x 0x2545F4914F6CDD1D).

(** ** Bits *)

Lemma lt_pow2_bits a n : a < 2 ^ n ↔ ∀ i, n ≤ i → N.testbit a i = false.
Proof.
  split.
  - intros Ha i Hi. destruct (decide (a = 0)) as [->|Hne]; [apply N.bits_0|].
    apply N.bits_above_log2. apply N.log2_lt_pow2; [lia|].
    eapply N.lt_le_trans; [exact Ha|]. apply N.pow_le_mono_r; lia.
  - intros Hb. assert (a = a `mod` 2 ^ n) as ->.
    { apply N.bits_inj. intros i. destruct (decide (n ≤ i)).
      - rewrite Hb, N.mod_pow2_bits_high; [done|lia|done].
      - rewrite N.mod_pow2_bits_low; [done|lia]. }
    apply N.mod_lt. by apply N.pow_nonzero.
Qed.

Lemma lxor_lt_pow2 a b n : a < 2 ^ n → b < 2 ^ n → N.lxor a b < 2 ^ n.
Proof.
  rewrite !lt_pow2_bits. intros Ha Hb i Hi. by rewrite N.lxor_spec, Ha, Hb.
Qed.

Lemma shiftr_lt_pow2 a k n : a < 2 ^ n → N.shiftr a k < 2 ^ n.
Proof.
  rewrite !lt_pow2_bits. intros Ha i Hi. rewrite N.shiftr_spec' . apply Ha. lia.
Qed.

(** A word equal to itself shifted is zero. *)
Lemma shiftr_fixpoint a k : 0 < k → a = N.shiftr a k → a = 0.
Proof.
  intros Hk Ha. destruct (decide (a = 0)) as [|Hne]; [done|].
  rewrite N.shiftr_div_pow2 in Ha.
  assert (a / 2 ^ k < a); [|lia]. apply N.div_lt; [lia|]. apply N.pow_gt_1; lia.
Qed.

Lemma shiftl_fixpoint a k n : 0 < k → a < 2 ^ n → a = N.shiftl a k `mod` 2 ^ n → a = 0.
Proof.
  intros Hk Ha Heq. apply N.bits_inj_0. intros i.
  induction i as [i IH] using (well_founded_induction N.lt_wf_0).
  destruct (decide (n ≤ i)) as [Hi|Hi]; [by apply (proj1 (lt_pow2_bits a n))|].
  rewrite Heq, N.mod_pow2_bits_low by lia.
  destruct (decide (i < k)); [by apply N.shiftl_spec_low|].
  rewrite N.shiftl_spec_high' by lia. apply IH. lia.
Qed.

Lemma xorshift_pos a b : a ≠ b → 0 < N.lxor a b.
Proof. intros Hne. assert (N.lxor a b ≠ 0); [|lia]. by rewrite N.lxor_eq_0_iff. Qed.

(** The generator never reaches the absorbing state zero, and its state and
    output stay 64-bit words. *)
Theorem rng_next_never_zero x :
  0 < x < u64_modulus →
  0 < (rng_next x).1 < u64_modulus ∧ (rng_next x).2 < u64_modulus.
Proof.
  change u64_modulus with (2 ^ 64). unfold rng_next. cbn [fst snd].
  intros [Hpos Hlt].
  assert (0 < N.lxor x (N.shiftr x 12) < 2 ^ 64) as [Hp1 Hl1].
  { split; [|by apply lxor_lt_pow2; [|apply shiftr_lt_pow2]].
    apply xorshift_pos. intros Heq. apply shiftr_fixpoint in Heq; lia. }
  set (x1 := N.lxor x (N.shiftr x 12)) in *. clearbody x1.
  assert (0 < N.lxor x1 (N.shiftl x1 25 `mod` u64_modulus) < 2 ^ 64) as [Hp2 Hl2].
  { split; [|apply lxor_lt_pow2; [done|by apply N.mod_lt]].
    apply xorshift_pos. intros Heq.
    apply (shiftl_fixpoint x1 25 64) in Heq; lia. }
  set (x2 := N.lxor x1 _) in *. clearbody x2.
  split; [split|].
  - apply xorshift_pos. intros Heq. apply shiftr_fixpoint in Heq; lia.
  - by apply lxor_lt_pow2; [|apply shiftr_lt_pow2].
  - unfold wrapping_mul64. by apply N.mod_lt.
Qed.

Lemma rng_next_never_zero_witness :
  0 < (rng_next (rng_from_entropy None 7)).1 < u64_modulus ∧
  (rng_next (rng_from_entropy None 7)).2 < u64_modulus.
Proof. apply rng_next_never_zero. vm_compute. split; reflexivity. Defined.
