(* ===== verification/RaftStorage.v ===== *)
(** * vos-raft: the storage interface and its in-memory backend

    [support/vos-raft/src/storage.rs].  [Storage] is the trait as a class of
    operations; [StorageLaws] states what the worker relies on: the backend
    refines [MemStorage], reads that succeed return what the abstract store
    holds, a successful [commit_batch] is the abstract [commit_batch], and a
    failed one leaves the abstract store unchanged (the atomicity contract of
    [WriteBatch]).  [MemStorage] implements the interface, and so does a store
    with a fault schedule that fails chosen writes. *)

From S2P Require Import Prelude RaftTypes.

Local Open Scope N_scope.

Record ActiveConfigRecord (NID : Type) := mkActiveRecord {
  acr_log_index : option N;
  acr_current : list NID;
  acr_joint_old : option (list NID);
}.
Arguments mkActiveRecord {NID} _ _ _.
Arguments acr_log_index {NID} _.
Arguments acr_current {NID} _.
Arguments acr_joint_old {NID} _.

Record WriteBatch (NID : Type) := mkBatch {
  wb_truncate_after : option N;
  wb_compact_to : option (N * N);
  wb_appends : list (LogEntry NID);
  wb_state : option bytes;
  wb_meta : option (Meta NID);
  wb_active_config : option (ActiveConfigRecord NID);
}.
Arguments mkBatch {NID} _ _ _ _ _ _.
Arguments wb_truncate_after {NID} _.
Arguments wb_compact_to {NID} _.
Arguments wb_appends {NID} _.
Arguments wb_state {NID} _.
Arguments wb_meta {NID} _.
Arguments wb_active_config {NID} _.

(** The two shorthands of [..Default::default()] the worker writes most. *)
Definition batch_meta {NID} (m : Meta NID) : WriteBatch NID :=
  mkBatch None None [] None (Some m) None.
Definition batch_append {NID} (e : LogEntry NID) : WriteBatch NID :=
  mkBatch None None [e] None None None.

(** ** The [Storage] trait *)

Class Storage (NID S E : Type) := {
  last_index : S → N;
  last_term : S → N;
  snap_last_index : S → N;
  snap_last_term : S → N;
  term_at : S → N → result E (option N);
  entries : S → N → N → result E (list (LogEntry NID));
  read_state : S → result E bytes;
  applied_index : S → result E (option N);
  load_meta : S → result E (Meta NID);
  active_config : S → result E (option (ActiveConfigRecord NID));
  commit_batch : S → WriteBatch NID → S * result E unit;
}.

(** ** [MemStorage] *)

Record MemStorage (NID : Type) := mkMem {
  mem_log : gmap N (LogEntry NID);
  mem_state : bytes;
  mem_meta : Meta NID;
  mem_applied_index_ : option N;
  mem_active_config_ : option (ActiveConfigRecord NID);
}.
Arguments mkMem {NID} _ _ _ _ _.
Arguments mem_log {NID} _.
Arguments mem_state {NID} _.
Arguments mem_meta {NID} _.
Arguments mem_applied_index_ {NID} _.
Arguments mem_active_config_ {NID} _.

Section MemStorage.
Context {NID : Type}.
Implicit Types (m : MemStorage NID) (b : WriteBatch NID) (e : LogEntry NID).

Definition mem_new : MemStorage NID := mkMem ∅ [] meta_default None None.

Definition with_applied_index (i : N) (m : MemStorage NID) : MemStorage NID :=
  mkMem (mem_log m) (mem_state m) (mem_meta m) (Some i) (mem_active_config_ m).

Definition mem_snap_last_index (m : MemStorage NID) : N := m_snap_last_index (mem_meta m).
Definition mem_snap_last_term (m : MemStorage NID) : N := m_snap_last_term (mem_meta m).

(** [log.keys().next_back()], or the snapshot pointer of an empty log. *)
Definition mem_last_index (m : MemStorage NID) : N :=
  default (mem_snap_last_index m) (last_key N.le (mem_log m)).

Definition mem_last_term (m : MemStorage NID) : N :=
  default (mem_snap_last_term m)
    (k ← last_key N.le (mem_log m); e_term <$> mem_log m !! k).

Definition mem_term_at (m : MemStorage NID) (index : N) : option N :=
  if index =? 0 then Some 0
  else if index <? mem_snap_last_index m then None
  else if (index =? mem_snap_last_index m) && (0 <? mem_snap_last_index m)
  then Some (mem_snap_last_term m)
  else e_term <$> mem_log m !! index.

(** Entries with keys in [lo..=hi], in key order. *)
Definition log_range (l : gmap N (LogEntry NID)) (lo hi : N) : list (LogEntry NID) :=
  omap (λ k, if (lo <=? k) && (k <=? hi) then l !! k else None) (sorted_keys N.le l).

(** [None] is the panic of [BTreeMap::range] on a range whose start exceeds
    its end, which a fully compacted request runs into. *)
Definition mem_entries (m : MemStorage NID) (start stop : N)
    : option (list (LogEntry NID)) :=
  if stop <? start then Some []
  else
    let effective_start := N.max start (mem_snap_last_index m ⊞ 1) in
    if stop <? effective_start then None
    else Some (log_range (mem_log m) effective_start stop).

Definition mem_truncate (after : N) (l : gmap N (LogEntry NID)) : gmap N (LogEntry NID) :=
  filter (λ '(k, _), k ≤ after) l.
Definition mem_compact (idx : N) (l : gmap N (LogEntry NID)) : gmap N (LogEntry NID) :=
  filter (λ '(k, _), idx < k) l.
Definition mem_append (l : gmap N (LogEntry NID)) (es : list (LogEntry NID))
    : gmap N (LogEntry NID) :=
  foldl (λ l e, <[e_index e := e]> l) l es.

(** Truncate, compact, append, state, meta, active configuration, in that
    order. *)
Definition mem_commit_batch (m : MemStorage NID) (b : WriteBatch NID) : MemStorage NID :=
  let log0 := match wb_truncate_after b with
              | Some after => mem_truncate after (mem_log m)
              | None => mem_log m
              end in
  let '(log1, meta1) :=
    match wb_compact_to b with
    | Some (idx, term) => (mem_compact idx log0, meta_set_snap idx term (mem_meta m))
    | None => (log0, mem_meta m)
    end in
  let log2 := mem_append log1 (wb_appends b) in
  let '(state, applied) :=
    match wb_state b with
    | Some state =>
        (state, match wb_compact_to b with
                | Some (index, _) => Some index
                | None => mem_applied_index_ m
                end)
    | None => (mem_state m, mem_applied_index_ m)
    end in
  let meta2 := default meta1 (wb_meta b) in
  let cfg := match wb_active_config b with
             | Some c => Some c
             | None => mem_active_config_ m
             end in
  mkMem log2 state meta2 applied cfg.

(** The log a batch appends to: what truncation and compaction leave. *)
Definition batch_base (b : WriteBatch NID) (l : gmap N (LogEntry NID)) : gmap N (LogEntry NID) :=
  let l := match wb_truncate_after b with Some after => mem_truncate after l | None => l end in
  match wb_compact_to b with Some (idx, _) => mem_compact idx l | None => l end.

Lemma mem_commit_log m b :
  mem_log (mem_commit_batch m b) = mem_append (batch_base b (mem_log m)) (wb_appends b).
Proof.
  unfold mem_commit_batch, batch_base.
  by destruct (wb_compact_to b) as [[]|], (wb_state b).
Qed.

Lemma mem_commit_meta m b :
  mem_meta (mem_commit_batch m b) =
  default (match wb_compact_to b with
           | Some (idx, term) => meta_set_snap idx term (mem_meta m)
           | None => mem_meta m
           end) (wb_meta b).
Proof. unfold mem_commit_batch. by destruct (wb_compact_to b) as [[]|], (wb_state b). Qed.

Lemma mem_commit_active m b :
  mem_active_config_ (mem_commit_batch m b) =
  match wb_active_config b with Some c => Some c | None => mem_active_config_ m end.
Proof. unfold mem_commit_batch. by destruct (wb_compact_to b) as [[]|], (wb_state b). Qed.
End MemStorage.

(** The only way an in-memory operation fails to return: the range panic of
    [mem_entries].  Rust aborts the worker there; here the read
    fails, which the worker takes as a storage error. *)
Inductive MemFault := RangePanic.

#[export] Instance MemStorage_Storage {NID} : Storage NID (MemStorage NID) MemFault := {|
  last_index := mem_last_index;
  last_term := mem_last_term;
  snap_last_index := mem_snap_last_index;
  snap_last_term := mem_snap_last_term;
  term_at := λ m i, Ok (mem_term_at m i);
  entries := λ m a b, match mem_entries m a b with Some l => Ok l | None => Err RangePanic end;
  read_state := λ m, Ok (mem_state m);
  applied_index := λ m, Ok (mem_applied_index_ m);
  load_meta := λ m, Ok (mem_meta m);
  active_config := λ m, Ok (mem_active_config_ m);
  commit_batch := λ m b, (mem_commit_batch m b, Ok ());
|}.

(** ** What the worker relies on *)

Class StorageLaws (NID S E : Type) `{!Storage NID S E} := {
  abs : S → MemStorage NID;
  last_index_abs s : last_index s = mem_last_index (abs s);
  last_term_abs s : last_term s = mem_last_term (abs s);
  snap_last_index_abs s : snap_last_index s = mem_snap_last_index (abs s);
  snap_last_term_abs s : snap_last_term s = mem_snap_last_term (abs s);
  term_at_abs s i t : term_at s i = Ok t → t = mem_term_at (abs s) i;
  entries_abs s a b l : entries s a b = Ok l → mem_entries (abs s) a b = Some l;
  read_state_abs s x : read_state s = Ok x → x = mem_state (abs s);
  applied_index_abs s x : applied_index s = Ok x → x = mem_applied_index_ (abs s);
  load_meta_abs s x : load_meta s = Ok x → x = mem_meta (abs s);
  active_config_abs s x : active_config s = Ok x → x = mem_active_config_ (abs s);
  commit_batch_ok s b s' :
    commit_batch s b = (s', Ok ()) → abs s' = mem_commit_batch (abs s) b;
  commit_batch_err s b s' x :
    commit_batch s b = (s', Err x) → abs s' = abs s;
}.

#[export] Instance MemStorage_laws {NID} : StorageLaws NID (MemStorage NID) MemFault.
Proof.
  refine {| abs := λ m : MemStorage NID, m |}; try done; simpl; try congruence.
  intros s a b l. destruct (mem_entries s a b); congruence.
Defined.

(** ** A backend with transient write failures

    [ft_faults] is the schedule: a [true] at its head makes the next write fail
    without effect. *)
Record FaultyStorage (NID : Type) := mkFaulty {
  ft_store : MemStorage NID;
  ft_faults : list bool;
}.
Arguments mkFaulty {NID} _ _.
Arguments ft_store {NID} _.
Arguments ft_faults {NID} _.

Inductive StoreFault := WriteFailed | ReadPanicked.

Definition faulty_commit_batch {NID} (s : FaultyStorage NID) (b : WriteBatch NID)
    : FaultyStorage NID * result StoreFault unit :=
  match ft_faults s with
  | true :: fs => (mkFaulty (ft_store s) fs, Err WriteFailed)
  | false :: fs => (mkFaulty (mem_commit_batch (ft_store s) b) fs, Ok ())
  | [] => (mkFaulty (mem_commit_batch (ft_store s) b) [], Ok ())
  end.

#[export] Instance FaultyStorage_Storage {NID} :
    Storage NID (FaultyStorage NID) StoreFault := {|
  last_index := λ s, mem_last_index (ft_store s);
  last_term := λ s, mem_last_term (ft_store s);
  snap_last_index := λ s, mem_snap_last_index (ft_store s);
  snap_last_term := λ s, mem_snap_last_term (ft_store s);
  term_at := λ s i, Ok (mem_term_at (ft_store s) i);
  entries := λ s a b,
    match mem_entries (ft_store s) a b with Some l => Ok l | None => Err ReadPanicked end;
  read_state := λ s, Ok (mem_state (ft_store s));
  applied_index := λ s, Ok (mem_applied_index_ (ft_store s));
  load_meta := λ s, Ok (mem_meta (ft_store s));
  active_config := λ s, Ok (mem_active_config_ (ft_store s));
  commit_batch := faulty_commit_batch;
|}.

#[export] Instance FaultyStorage_laws {NID} :
  StorageLaws NID (FaultyStorage NID) StoreFault.
Proof.
  refine {| abs := ft_store |}; try done; simpl; try congruence.
  - intros s a b l. destruct (mem_entries _ a b); congruence.
  - intros s b s'. unfold faulty_commit_batch.
    destruct (ft_faults s) as [|[] ?]; by intros [= <-].
  - intros s b s' x. unfold faulty_commit_batch.
    destruct (ft_faults s) as [|[] ?]; by intros [= <- ?].
Defined.
