(* ===== verification/RaftConfig.v ===== *)
(** * vos-raft: quorums of the active configuration

    [ActiveConfig] of [support/vos-raft/src/worker.rs]: the member set in force
    and, during a joint-consensus phase, the set it replaces.  Elections, commit
    advancement and read barriers all go through [quorum_holds] and
    [majority_floor]. *)

From S2P Require Import Prelude RaftTypes.

Local Open Scope N_scope.

Record ActiveConfig (NID : Type) := mkActive {
  ac_current : list NID;
  ac_joint_old : option (list NID);
}.
Arguments mkActive {NID} _ _.
Arguments ac_current {NID} _.
Arguments ac_joint_old {NID} _.

Section ActiveConfig.
Context {NID : Type} `{!EqDecision NID}.
Implicit Types (c : ActiveConfig NID) (p q : NID → bool).

Definition steady (members : list NID) : ActiveConfig NID := mkActive members None.

Definition is_joint (c : ActiveConfig NID) : bool :=
  match ac_joint_old c with Some _ => true | None => false end.

Definition majority_of (members : list NID) : nat := (length members / 2 + 1)%nat.

Definition quorum_current (c : ActiveConfig NID) : nat := majority_of (ac_current c).

Definition quorum_old (c : ActiveConfig NID) : nat :=
  match ac_joint_old c with Some old => majority_of old | None => 0%nat end.

(** [current] followed by the members of [joint_old] not seen before. *)
Definition all_members (c : ActiveConfig NID) : list NID :=
  match ac_joint_old c with
  | Some old => foldl (λ seen m, if decide (m ∈ seen) then seen else seen ++ [m]) (ac_current c) old
  | None => ac_current c
  end.

Definition quorum_holds (c : ActiveConfig NID) (pred : NID → bool) : bool :=
  if (count_if pred (ac_current c) <? quorum_current c)%nat then false
  else
    match ac_joint_old c with
    | Some old => if (count_if pred old <? quorum_old c)%nat then false else true
    | None => true
    end.

Definition sorted_scores (score : NID → N) (members : list NID) : list N :=
  merge_sort (flip N.le) (score <$> members).

Definition majority_floor (c : ActiveConfig NID) (score : NID → N) : option N :=
  let current_scores := sorted_scores score (ac_current c) in
  let q_cur := quorum_current c in
  if (q_cur =? 0)%nat || (length current_scores <? q_cur)%nat then None
  else
    floor ← current_scores !! (q_cur - 1)%nat;
    match ac_joint_old c with
    | Some old =>
        let old_scores := sorted_scores score old in
        let q_old := quorum_old c in
        if (q_old =? 0)%nat || (length old_scores <? q_old)%nat then None
        else old_floor ← old_scores !! (q_old - 1)%nat; Some (N.min floor old_floor)
    | None => Some floor
    end.

(** ** Membership sets *)

(** The voter sets a decision under [c] needs a majority of. *)
Definition voter_sets (c : ActiveConfig NID) : list (list NID) :=
  ac_current c :: match ac_joint_old c with Some old => [old] | None => [] end.

Lemma elem_of_all_members c m :
  m ∈ all_members c ↔ ∃ s, s ∈ voter_sets c ∧ m ∈ s.
Proof.
  assert (∀ old seen, m ∈ foldl (λ seen m, if decide (m ∈ seen) then seen else seen ++ [m]) seen old
                      ↔ m ∈ seen ∨ m ∈ old) as Hfold.
  { induction old as [|x old IH]; intros seen; simpl; [set_solver|].
    rewrite IH. case_decide; set_solver. }
  unfold all_members, voter_sets. destruct (ac_joint_old c) as [old|].
  - rewrite Hfold. set_solver.
  - set_solver.
Qed.

Lemma forall_voter_sets c (P : list NID → Prop) :
  (∀ s, s ∈ voter_sets c → P s) ↔
  P (ac_current c) ∧ match ac_joint_old c with Some old => P old | None => True end.
Proof.
  rewrite <- Forall_forall. unfold voter_sets. rewrite Forall_cons.
  destruct (ac_joint_old c); [by rewrite Forall_singleton|by rewrite Forall_nil].
Qed.

(** [quorum_holds] is a majority of every voter set. *)
Lemma quorum_holds_spec c p :
  quorum_holds c p = true ↔ ∀ s, s ∈ voter_sets c → (majority_of s ≤ count_if p s)%nat.
Proof.
  rewrite forall_voter_sets. unfold quorum_holds, quorum_current, quorum_old.
  destruct (Nat.ltb_spec (count_if p (ac_current c)) (majority_of (ac_current c))) as [Hlt|Hle].
  { split; [done|]. lia. }
  destruct (ac_joint_old c) as [old|]; [|done].
  destruct (Nat.ltb_spec (count_if p old) (majority_of old)); [|done].
  split; [done|]. lia.
Qed.

Lemma quorum_holds_mono c p q :
  (∀ m, m ∈ all_members c → p m = true → q m = true) →
  quorum_holds c p = true → quorum_holds c q = true.
Proof.
  rewrite !quorum_holds_spec. intros Hpq Hp s Hs. specialize (Hp s Hs).
  assert (count_if p s ≤ count_if q s)%nat; [|lia].
  apply count_if_mono. intros m Hm. apply Hpq, elem_of_all_members. eauto.
Qed.

Lemma majority_overlap (s : list NID) p q :
  (majority_of s ≤ count_if p s)%nat → (majority_of s ≤ count_if q s)%nat →
  ∃ m, m ∈ s ∧ p m = true ∧ q m = true.
Proof.
  unfold majority_of. intros Hp Hq. apply count_if_overlap.
  pose proof (Nat.div_mod_eq (length s) 2). pose proof (Nat.mod_upper_bound (length s) 2). lia.
Qed.

(** Two configurations that share a voter set cannot decide disjointly: this
    covers two decisions under one configuration, and each of the two adjacent
    pairs of the membership change [C_old], [C_old,new], [C_new]. *)
Lemma quorum_intersection c1 c2 s p q :
  s ∈ voter_sets c1 → s ∈ voter_sets c2 →
  quorum_holds c1 p = true → quorum_holds c2 q = true →
  ∃ m, m ∈ s ∧ p m = true ∧ q m = true.
Proof.
  rewrite !quorum_holds_spec. intros H1 H2 Hp Hq. apply majority_overlap; auto.
Qed.

(** ** The majority floor *)

Lemma sorted_scores_count score s g :
  count_if (N.leb g) (sorted_scores score s) = count_if (λ m, g <=? score m) s.
Proof.
  unfold sorted_scores.
  rewrite (count_if_perm _ _ _ (merge_sort_Permutation _ _)). apply count_if_map.
Qed.

Lemma sorted_scores_sorted score s :
  StronglySorted (flip N.le) (sorted_scores score s).
Proof.
  assert (Total (flip N.le)) by (intros a b; unfold flip; lia).
  apply (StronglySorted_merge_sort (flip N.le)).
Qed.

(** The floor of one set: the score at the majority position. *)
Lemma set_floor_spec score s f :
  sorted_scores score s !! (majority_of s - 1)%nat = Some f →
  (majority_of s ≤ count_if (λ m, (f <=? score m)%N) s)%nat ∧
  ∀ g, (majority_of s ≤ count_if (λ m, (g <=? score m)%N) s)%nat → g ≤ f.
Proof.
  intros Hf. pose proof (sorted_scores_sorted score s) as Hs.
  assert (1 ≤ majority_of s)%nat by (unfold majority_of; lia).
  setoid_rewrite <- (sorted_scores_count score s). split.
  - pose proof (StronglySorted_ge_reach _ _ _ Hs Hf). lia.
  - intros g Hg. apply (StronglySorted_ge_max _ _ _ _ Hs Hf). lia.
Qed.

Lemma majority_floor_None c score :
  majority_floor c score = None ↔ [] ∈ voter_sets c.
Proof.
  assert (∀ s : list NID, ((majority_of s =? 0)%nat ||
    (length (sorted_scores score s) <? majority_of s)%nat = true) ↔ s = []) as Hempty.
  { intros s. unfold sorted_scores.
    rewrite (Permutation_length (merge_sort_Permutation _ _)), length_fmap.
    unfold majority_of. rewrite orb_true_iff, Nat.eqb_eq, Nat.ltb_lt.
    pose proof (Nat.div_mod_eq (length s) 2). pose proof (Nat.mod_upper_bound (length s) 2).
    split; [|by intros ->; right; simpl; lia].
    intros Hs. apply nil_length_inv. lia. }
  assert (∀ s : list NID, s ≠ [] → is_Some (sorted_scores score s !! (majority_of s - 1)%nat)) as Hsome.
  { intros s Hs. apply lookup_lt_is_Some. unfold sorted_scores.
    rewrite (Permutation_length (merge_sort_Permutation _ _)), length_fmap.
    destruct s as [|x s]; [done|]. unfold majority_of. simpl length.
    pose proof (Nat.div_mod_eq (S (length s)) 2). lia. }
  unfold majority_floor, voter_sets, quorum_current, quorum_old.
  destruct (decide (ac_current c = [])) as [Hc|Hc].
  - rewrite (proj2 (Hempty (ac_current c)) Hc). rewrite Hc. set_solver.
  - destruct ((majority_of (ac_current c) =? 0)%nat || _) eqn:E.
    { by apply Hempty in E. }
    destruct (Hsome _ Hc) as [f ->]. simpl.
    destruct (ac_joint_old c) as [old|]; [|set_solver].
    destruct (decide (old = [])) as [->|Ho].
    + rewrite (proj2 (Hempty []) eq_refl). set_solver.
    + destruct ((majority_of old =? 0)%nat || _) eqn:E'.
      { by apply Hempty in E'. }
      destruct (Hsome _ Ho) as [g ->]. simpl. set_solver.
Qed.

(** [majority_floor] is the greatest score that a quorum of every voter set
    reaches. *)
Lemma majority_floor_greatest c score f :
  majority_floor c score = Some f →
  quorum_holds c (λ m, f <=? score m) = true ∧
  ∀ g, quorum_holds c (λ m, g <=? score m) = true → g ≤ f.
Proof.
  unfold majority_floor. setoid_rewrite quorum_holds_spec.
  setoid_rewrite forall_voter_sets. unfold quorum_current, quorum_old.
  destruct (_ || _); [done|].
  destruct (sorted_scores score (ac_current c) !! _) as [fc|] eqn:Hc; [|done]. simpl.
  apply set_floor_spec in Hc as [Hc1 Hc2].
  destruct (ac_joint_old c) as [old|].
  - destruct (_ || _); [done|].
    destruct (sorted_scores score old !! _) as [fo|] eqn:Ho; [|done]. simpl.
    apply set_floor_spec in Ho as [Ho1 Ho2]. intros [= <-]. split_and!.
    + etrans; [apply Hc1|]. apply count_if_mono. intros m _ Hm%N.leb_le. apply N.leb_le. lia.
    + etrans; [apply Ho1|]. apply count_if_mono. intros m _ Hm%N.leb_le. apply N.leb_le. lia.
    + intros g [? ?]. apply N.min_glb; auto.
  - intros [= <-]. split; [done|]. intros g [? _]. auto.
Qed.

(** A membership change is safe at each of its two steps: any decision of the
    old configuration and any decision of the joint one share a voter of the old
    configuration, and any decision of the joint one and any of the new one
    share a voter of the new configuration. *)
Theorem membership_change_quorums_overlap (old new : list NID) p q :
  (quorum_holds (steady old) p = true → quorum_holds (mkActive new (Some old)) q = true →
    ∃ m, m ∈ old ∧ p m = true ∧ q m = true) ∧
  (quorum_holds (mkActive new (Some old)) p = true → quorum_holds (steady new) q = true →
    ∃ m, m ∈ new ∧ p m = true ∧ q m = true).
Proof.
  split; apply quorum_intersection; unfold voter_sets; simpl; set_solver.
Qed.

(** The majority floor, computed by sorting the match indices, is the greatest
    index that a quorum of every voter set has reached; it is undefined exactly
    when some voter set is empty. *)
Theorem majority_floor_characterised c score f :
  majority_floor c score = Some f ↔
  [] ∉ voter_sets c ∧ quorum_holds c (λ m, f <=? score m) = true ∧
  ∀ g, quorum_holds c (λ m, g <=? score m) = true → g ≤ f.
Proof.
  split.
  - intros Hf. split; [|by apply majority_floor_greatest].
    rewrite <- (majority_floor_None c score). congruence.
  - intros (Hne & Hq & Hmax). destruct (majority_floor c score) as [f'|] eqn:Hf.
    + destruct (majority_floor_greatest c score f' Hf) as [Hq' Hmax']. f_equal.
      apply N.le_antisymm; auto.
    + by apply majority_floor_None in Hf.
Qed.
End ActiveConfig.
