(* ===== verification/RaftState.v ===== *)
(** * vos-raft: the worker's state

    The private structures of [support/vos-raft/src/worker.rs].  A replica is a
    [WorkerState]; the effects of a handler on its surroundings are recorded in
    it: [ws_apply_sink] lists what [ApplySink::notify] was called with,
    [ws_read_replies] lists what was sent on the reply channels of read-index
    requests (a channel is a number), [ws_role_atomic] is the shared mirror of
    the role and [ws_status] the published snapshot.  [Clock::now] and
    [Rng::next_u64] are streams with a read position, so that every call in a
    handler is a separate reading.  The [with_] functions are field updates. *)

From S2P Require Import Prelude RaftTypes RaftStorage RaftConfig.

Local Open Scope N_scope.

(** ** Errors of the client operations *)

Inductive ProposeError := ProposeNotLeader | ProposeStorage.
Inductive ReadIndexError := ReadNotLeader | LeaderStepped | Backpressure | TimedOut.
Inductive ChangeMembershipError :=
  ChangeNotLeader | InProgress | EmptyConfig | ChangeStorage.

#[export] Instance ReadIndexError_eq_dec : EqDecision ReadIndexError.
Proof. solve_decision. Defined.

(** ** Leader and follower bookkeeping *)

Record SnapshotSendState := mkSend {
  ss_last_included_index : N;
  ss_last_included_term : N;
  ss_offset : N;
}.

Record LeaderState (NID : Type) `{!NodeId NID} := mkLeader {
  next_index : gmap NID N;
  match_index : gmap NID N;
  snapshot_send : gmap NID SnapshotSendState;
}.
Arguments mkLeader {NID _} _ _ _.
Arguments next_index {NID _} _.
Arguments match_index {NID _} _.
Arguments snapshot_send {NID _} _.

Definition with_next_index {NID} `{!NodeId NID} (x : gmap NID N) (l : LeaderState NID) : LeaderState NID :=
  mkLeader x (match_index l) (snapshot_send l).
Definition with_match_index {NID} `{!NodeId NID} (x : gmap NID N) (l : LeaderState NID) : LeaderState NID :=
  mkLeader (next_index l) x (snapshot_send l).
Definition with_snapshot_send {NID} `{!NodeId NID} (x : gmap NID SnapshotSendState)
    (l : LeaderState NID) : LeaderState NID :=
  mkLeader (next_index l) (match_index l) x.

Record IncomingSnapshot (NID : Type) := mkIncoming {
  in_leader : NID;
  in_term : N;
  in_last_included_index : N;
  in_last_included_term : N;
  in_buffer : bytes;
}.
Arguments mkIncoming {NID} _ _ _ _ _.
Arguments in_leader {NID} _.
Arguments in_term {NID} _.
Arguments in_last_included_index {NID} _.
Arguments in_last_included_term {NID} _.
Arguments in_buffer {NID} _.

Record PendingReadIndex := mkPendingRead {
  pr_required_index : N;
  pr_deadline : option N;
  pr_reply : N;
}.

(** ** The diagnostic snapshot *)

Record WorkerSnapshot (NID : Type) := mkSnapshot {
  sn_role : Role;
  sn_current_term : N;
  sn_voted_for : option NID;
  sn_last_log_index : N;
  sn_commit_index : N;
  sn_snap_last_index : N;
  sn_members : list NID;
  sn_joint_old : option (list NID);
  sn_active_config_index : option N;
  sn_leader_hint : option NID;
}.
Arguments mkSnapshot {NID} _ _ _ _ _ _ _ _ _ _.
Arguments sn_role {NID} _.
Arguments sn_current_term {NID} _.
Arguments sn_voted_for {NID} _.
Arguments sn_last_log_index {NID} _.
Arguments sn_commit_index {NID} _.
Arguments sn_snap_last_index {NID} _.
Arguments sn_members {NID} _.
Arguments sn_joint_old {NID} _.
Arguments sn_active_config_index {NID} _.
Arguments sn_leader_hint {NID} _.

Record PublishedWorkerStatus (NID : Type) := mkStatus {
  pub_snapshot : WorkerSnapshot NID;
  pub_valid_until : N;
}.
Arguments mkStatus {NID} _ _.
Arguments pub_snapshot {NID} _.
Arguments pub_valid_until {NID} _.

(** ** The worker *)

Record WorkerState (NID S : Type) `{!NodeId NID} := mkWorker {
  ws_storage : S;
  ws_cfg : Config NID;
  ws_role : Role;
  ws_meta : Meta NID;
  ws_election_deadline : N;
  ws_last_heartbeat_received : option N;
  ws_votes_received : gset NID;
  ws_leader : option (LeaderState NID);
  ws_pending_read_index : list PendingReadIndex;
  ws_incoming_snapshot : option (IncomingSnapshot NID);
  ws_effective_cfg : ActiveConfig NID;
  ws_pending_joint_entry : option N;
  ws_active_config_index : option N;
  ws_current_term_first_index : option N;
  ws_seen_leader : option NID;
  ws_pre_candidate_misses : N;
  ws_apply_sink : list N;
  ws_role_atomic : N;
  ws_status : option (PublishedWorkerStatus NID);
  ws_clock : nat → N;
  ws_clock_reads : nat;
  ws_rng : nat → N;
  ws_rng_draws : nat;
  ws_read_replies : list (N * result ReadIndexError N);
}.
Arguments mkWorker {NID S _} _ _ _ _ _ _ _ _ _ _ _ _ _ _ _ _ _ _ _ _ _ _ _ _.
Arguments ws_storage {NID S _} _.
Arguments ws_cfg {NID S _} _.
Arguments ws_role {NID S _} _.
Arguments ws_meta {NID S _} _.
Arguments ws_election_deadline {NID S _} _.
Arguments ws_last_heartbeat_received {NID S _} _.
Arguments ws_votes_received {NID S _} _.
Arguments ws_leader {NID S _} _.
Arguments ws_pending_read_index {NID S _} _.
Arguments ws_incoming_snapshot {NID S _} _.
Arguments ws_effective_cfg {NID S _} _.
Arguments ws_pending_joint_entry {NID S _} _.
Arguments ws_active_config_index {NID S _} _.
Arguments ws_current_term_first_index {NID S _} _.
Arguments ws_seen_leader {NID S _} _.
Arguments ws_pre_candidate_misses {NID S _} _.
Arguments ws_apply_sink {NID S _} _.
Arguments ws_role_atomic {NID S _} _.
Arguments ws_status {NID S _} _.
Arguments ws_clock {NID S _} _.
Arguments ws_clock_reads {NID S _} _.
Arguments ws_rng {NID S _} _.
Arguments ws_rng_draws {NID S _} _.
Arguments ws_read_replies {NID S _} _.

Definition with_storage {NID S} `{!NodeId NID} (x : S) (st : WorkerState NID S) : WorkerState NID S :=
  mkWorker x (ws_cfg st) (ws_role st) (ws_meta st) (ws_election_deadline st)
    (ws_last_heartbeat_received st) (ws_votes_received st) (ws_leader st)
    (ws_pending_read_index st) (ws_incoming_snapshot st) (ws_effective_cfg st)
    (ws_pending_joint_entry st) (ws_active_config_index st) (ws_current_term_first_index st)
    (ws_seen_leader st) (ws_pre_candidate_misses st) (ws_apply_sink st) (ws_role_atomic st)
    (ws_status st) (ws_clock st) (ws_clock_reads st) (ws_rng st) (ws_rng_draws st)
    (ws_read_replies st).
Definition with_cfg {NID S} `{!NodeId NID} (x : Config NID) (st : WorkerState NID S) : WorkerState NID S :=
  mkWorker (ws_storage st) x (ws_role st) (ws_meta st) (ws_election_deadline st)
    (ws_last_heartbeat_received st) (ws_votes_received st) (ws_leader st)
    (ws_pending_read_index st) (ws_incoming_snapshot st) (ws_effective_cfg st)
    (ws_pending_joint_entry st) (ws_active_config_index st) (ws_current_term_first_index st)
    (ws_seen_leader st) (ws_pre_candidate_misses st) (ws_apply_sink st) (ws_role_atomic st)
    (ws_status st) (ws_clock st) (ws_clock_reads st) (ws_rng st) (ws_rng_draws st)
    (ws_read_replies st).
Definition with_role {NID S} `{!NodeId NID} (x : Role) (st : WorkerState NID S) : WorkerState NID S :=
  mkWorker (ws_storage st) (ws_cfg st) x (ws_meta st) (ws_election_deadline st)
    (ws_last_heartbeat_received st) (ws_votes_received st) (ws_leader st)
    (ws_pending_read_index st) (ws_incoming_snapshot st) (ws_effective_cfg st)
    (ws_pending_joint_entry st) (ws_active_config_index st) (ws_current_term_first_index st)
    (ws_seen_leader st) (ws_pre_candidate_misses st) (ws_apply_sink st) (ws_role_atomic st)
    (ws_status st) (ws_clock st) (ws_clock_reads st) (ws_rng st) (ws_rng_draws st)
    (ws_read_replies st).
Definition with_meta {NID S} `{!NodeId NID} (x : Meta NID) (st : WorkerState NID S) : WorkerState NID S :=
  mkWorker (ws_storage st) (ws_cfg st) (ws_role st) x (ws_election_deadline st)
    (ws_last_heartbeat_received st) (ws_votes_received st) (ws_leader st)
    (ws_pending_read_index st) (ws_incoming_snapshot st) (ws_effective_cfg st)
    (ws_pending_joint_entry st) (ws_active_config_index st) (ws_current_term_first_index st)
    (ws_seen_leader st) (ws_pre_candidate_misses st) (ws_apply_sink st) (ws_role_atomic st)
    (ws_status st) (ws_clock st) (ws_clock_reads st) (ws_rng st) (ws_rng_draws st)
    (ws_read_replies st).
Definition with_election_deadline {NID S} `{!NodeId NID} (x : N) (st : WorkerState NID S) : WorkerState NID S :=
  mkWorker (ws_storage st) (ws_cfg st) (ws_role st) (ws_meta st) x
    (ws_last_heartbeat_received st) (ws_votes_received st) (ws_leader st)
    (ws_pending_read_index st) (ws_incoming_snapshot st) (ws_effective_cfg st)
    (ws_pending_joint_entry st) (ws_active_config_index st) (ws_current_term_first_index st)
    (ws_seen_leader st) (ws_pre_candidate_misses st) (ws_apply_sink st) (ws_role_atomic st)
    (ws_status st) (ws_clock st) (ws_clock_reads st) (ws_rng st) (ws_rng_draws st)
    (ws_read_replies st).
Definition with_last_heartbeat_received {NID S} `{!NodeId NID} (x : option N) (st : WorkerState NID S) : WorkerState NID S :=
  mkWorker (ws_storage st) (ws_cfg st) (ws_role st) (ws_meta st) (ws_election_deadline st) x
    (ws_votes_received st) (ws_leader st) (ws_pending_read_index st) (ws_incoming_snapshot st)
    (ws_effective_cfg st) (ws_pending_joint_entry st) (ws_active_config_index st)
    (ws_current_term_first_index st) (ws_seen_leader st) (ws_pre_candidate_misses st)
    (ws_apply_sink st) (ws_role_atomic st) (ws_status st) (ws_clock st) (ws_clock_reads st)
    (ws_rng st) (ws_rng_draws st) (ws_read_replies st).
Definition with_votes_received {NID S} `{!NodeId NID} (x : gset NID) (st : WorkerState NID S) : WorkerState NID S :=
  mkWorker (ws_storage st) (ws_cfg st) (ws_role st) (ws_meta st) (ws_election_deadline st)
    (ws_last_heartbeat_received st) x (ws_leader st) (ws_pending_read_index st)
    (ws_incoming_snapshot st) (ws_effective_cfg st) (ws_pending_joint_entry st)
    (ws_active_config_index st) (ws_current_term_first_index st) (ws_seen_leader st)
    (ws_pre_candidate_misses st) (ws_apply_sink st) (ws_role_atomic st) (ws_status st)
    (ws_clock st) (ws_clock_reads st) (ws_rng st) (ws_rng_draws st) (ws_read_replies st).
Definition with_leader {NID S} `{!NodeId NID} (x : option (LeaderState NID)) (st : WorkerState NID S) : WorkerState NID S :=
  mkWorker (ws_storage st) (ws_cfg st) (ws_role st) (ws_meta st) (ws_election_deadline st)
    (ws_last_heartbeat_received st) (ws_votes_received st) x (ws_pending_read_index st)
    (ws_incoming_snapshot st) (ws_effective_cfg st) (ws_pending_joint_entry st)
    (ws_active_config_index st) (ws_current_term_first_index st) (ws_seen_leader st)
    (ws_pre_candidate_misses st) (ws_apply_sink st) (ws_role_atomic st) (ws_status st)
    (ws_clock st) (ws_clock_reads st) (ws_rng st) (ws_rng_draws st) (ws_read_replies st).
Definition with_pending_read_index {NID S} `{!NodeId NID} (x : list PendingReadIndex) (st : WorkerState NID S) : WorkerState NID S :=
  mkWorker (ws_storage st) (ws_cfg st) (ws_role st) (ws_meta st) (ws_election_deadline st)
    (ws_last_heartbeat_received st) (ws_votes_received st) (ws_leader st) x
    (ws_incoming_snapshot st) (ws_effective_cfg st) (ws_pending_joint_entry st)
    (ws_active_config_index st) (ws_current_term_first_index st) (ws_seen_leader st)
    (ws_pre_candidate_misses st) (ws_apply_sink st) (ws_role_atomic st) (ws_status st)
    (ws_clock st) (ws_clock_reads st) (ws_rng st) (ws_rng_draws st) (ws_read_replies st).
Definition with_incoming_snapshot {NID S} `{!NodeId NID} (x : option (IncomingSnapshot NID)) (st : WorkerState NID S) : WorkerState NID S :=
  mkWorker (ws_storage st) (ws_cfg st) (ws_role st) (ws_meta st) (ws_election_deadline st)
    (ws_last_heartbeat_received st) (ws_votes_received st) (ws_leader st)
    (ws_pending_read_index st) x (ws_effective_cfg st) (ws_pending_joint_entry st)
    (ws_active_config_index st) (ws_current_term_first_index st) (ws_seen_leader st)
    (ws_pre_candidate_misses st) (ws_apply_sink st) (ws_role_atomic st) (ws_status st)
    (ws_clock st) (ws_clock_reads st) (ws_rng st) (ws_rng_draws st) (ws_read_replies st).
Definition with_effective_cfg {NID S} `{!NodeId NID} (x : ActiveConfig NID) (st : WorkerState NID S) : WorkerState NID S :=
  mkWorker (ws_storage st) (ws_cfg st) (ws_role st) (ws_meta st) (ws_election_deadline st)
    (ws_last_heartbeat_received st) (ws_votes_received st) (ws_leader st)
    (ws_pending_read_index st) (ws_incoming_snapshot st) x (ws_pending_joint_entry st)
    (ws_active_config_index st) (ws_current_term_first_index st) (ws_seen_leader st)
    (ws_pre_candidate_misses st) (ws_apply_sink st) (ws_role_atomic st) (ws_status st)
    (ws_clock st) (ws_clock_reads st) (ws_rng st) (ws_rng_draws st) (ws_read_replies st).
Definition with_pending_joint_entry {NID S} `{!NodeId NID} (x : option N) (st : WorkerState NID S) : WorkerState NID S :=
  mkWorker (ws_storage st) (ws_cfg st) (ws_role st) (ws_meta st) (ws_election_deadline st)
    (ws_last_heartbeat_received st) (ws_votes_received st) (ws_leader st)
    (ws_pending_read_index st) (ws_incoming_snapshot st) (ws_effective_cfg st) x
    (ws_active_config_index st) (ws_current_term_first_index st) (ws_seen_leader st)
    (ws_pre_candidate_misses st) (ws_apply_sink st) (ws_role_atomic st) (ws_status st)
    (ws_clock st) (ws_clock_reads st) (ws_rng st) (ws_rng_draws st) (ws_read_replies st).
Definition with_active_config_index {NID S} `{!NodeId NID} (x : option N) (st : WorkerState NID S) : WorkerState NID S :=
  mkWorker (ws_storage st) (ws_cfg st) (ws_role st) (ws_meta st) (ws_election_deadline st)
    (ws_last_heartbeat_received st) (ws_votes_received st) (ws_leader st)
    (ws_pending_read_index st) (ws_incoming_snapshot st) (ws_effective_cfg st)
    (ws_pending_joint_entry st) x (ws_current_term_first_index st) (ws_seen_leader st)
    (ws_pre_candidate_misses st) (ws_apply_sink st) (ws_role_atomic st) (ws_status st)
    (ws_clock st) (ws_clock_reads st) (ws_rng st) (ws_rng_draws st) (ws_read_replies st).
Definition with_current_term_first_index {NID S} `{!NodeId NID} (x : option N) (st : WorkerState NID S) : WorkerState NID S :=
  mkWorker (ws_storage st) (ws_cfg st) (ws_role st) (ws_meta st) (ws_election_deadline st)
    (ws_last_heartbeat_received st) (ws_votes_received st) (ws_leader st)
    (ws_pending_read_index st) (ws_incoming_snapshot st) (ws_effective_cfg st)
    (ws_pending_joint_entry st) (ws_active_config_index st) x (ws_seen_leader st)
    (ws_pre_candidate_misses st) (ws_apply_sink st) (ws_role_atomic st) (ws_status st)
    (ws_clock st) (ws_clock_reads st) (ws_rng st) (ws_rng_draws st) (ws_read_replies st).
Definition with_seen_leader {NID S} `{!NodeId NID} (x : option NID) (st : WorkerState NID S) : WorkerState NID S :=
  mkWorker (ws_storage st) (ws_cfg st) (ws_role st) (ws_meta st) (ws_election_deadline st)
    (ws_last_heartbeat_received st) (ws_votes_received st) (ws_leader st)
    (ws_pending_read_index st) (ws_incoming_snapshot st) (ws_effective_cfg st)
    (ws_pending_joint_entry st) (ws_active_config_index st) (ws_current_term_first_index st) x
    (ws_pre_candidate_misses st) (ws_apply_sink st) (ws_role_atomic st) (ws_status st)
    (ws_clock st) (ws_clock_reads st) (ws_rng st) (ws_rng_draws st) (ws_read_replies st).
Definition with_pre_candidate_misses {NID S} `{!NodeId NID} (x : N) (st : WorkerState NID S) : WorkerState NID S :=
  mkWorker (ws_storage st) (ws_cfg st) (ws_role st) (ws_meta st) (ws_election_deadline st)
    (ws_last_heartbeat_received st) (ws_votes_received st) (ws_leader st)
    (ws_pending_read_index st) (ws_incoming_snapshot st) (ws_effective_cfg st)
    (ws_pending_joint_entry st) (ws_active_config_index st) (ws_current_term_first_index st)
    (ws_seen_leader st) x (ws_apply_sink st) (ws_role_atomic st) (ws_status st) (ws_clock st)
    (ws_clock_reads st) (ws_rng st) (ws_rng_draws st) (ws_read_replies st).
Definition with_apply_sink {NID S} `{!NodeId NID} (x : list N) (st : WorkerState NID S) : WorkerState NID S :=
  mkWorker (ws_storage st) (ws_cfg st) (ws_role st) (ws_meta st) (ws_election_deadline st)
    (ws_last_heartbeat_received st) (ws_votes_received st) (ws_leader st)
    (ws_pending_read_index st) (ws_incoming_snapshot st) (ws_effective_cfg st)
    (ws_pending_joint_entry st) (ws_active_config_index st) (ws_current_term_first_index st)
    (ws_seen_leader st) (ws_pre_candidate_misses st) x (ws_role_atomic st) (ws_status st)
    (ws_clock st) (ws_clock_reads st) (ws_rng st) (ws_rng_draws st) (ws_read_replies st).
Definition with_role_atomic {NID S} `{!NodeId NID} (x : N) (st : WorkerState NID S) : WorkerState NID S :=
  mkWorker (ws_storage st) (ws_cfg st) (ws_role st) (ws_meta st) (ws_election_deadline st)
    (ws_last_heartbeat_received st) (ws_votes_received st) (ws_leader st)
    (ws_pending_read_index st) (ws_incoming_snapshot st) (ws_effective_cfg st)
    (ws_pending_joint_entry st) (ws_active_config_index st) (ws_current_term_first_index st)
    (ws_seen_leader st) (ws_pre_candidate_misses st) (ws_apply_sink st) x (ws_status st)
    (ws_clock st) (ws_clock_reads st) (ws_rng st) (ws_rng_draws st) (ws_read_replies st).
Definition with_status {NID S} `{!NodeId NID} (x : option (PublishedWorkerStatus NID)) (st : WorkerState NID S) : WorkerState NID S :=
  mkWorker (ws_storage st) (ws_cfg st) (ws_role st) (ws_meta st) (ws_election_deadline st)
    (ws_last_heartbeat_received st) (ws_votes_received st) (ws_leader st)
    (ws_pending_read_index st) (ws_incoming_snapshot st) (ws_effective_cfg st)
    (ws_pending_joint_entry st) (ws_active_config_index st) (ws_current_term_first_index st)
    (ws_seen_leader st) (ws_pre_candidate_misses st) (ws_apply_sink st) (ws_role_atomic st) x
    (ws_clock st) (ws_clock_reads st) (ws_rng st) (ws_rng_draws st) (ws_read_replies st).
Definition with_clock {NID S} `{!NodeId NID} (x : nat → N) (st : WorkerState NID S) : WorkerState NID S :=
  mkWorker (ws_storage st) (ws_cfg st) (ws_role st) (ws_meta st) (ws_election_deadline st)
    (ws_last_heartbeat_received st) (ws_votes_received st) (ws_leader st)
    (ws_pending_read_index st) (ws_incoming_snapshot st) (ws_effective_cfg st)
    (ws_pending_joint_entry st) (ws_active_config_index st) (ws_current_term_first_index st)
    (ws_seen_leader st) (ws_pre_candidate_misses st) (ws_apply_sink st) (ws_role_atomic st)
    (ws_status st) x (ws_clock_reads st) (ws_rng st) (ws_rng_draws st) (ws_read_replies st).
Definition with_clock_reads {NID S} `{!NodeId NID} (x : nat) (st : WorkerState NID S) : WorkerState NID S :=
  mkWorker (ws_storage st) (ws_cfg st) (ws_role st) (ws_meta st) (ws_election_deadline st)
    (ws_last_heartbeat_received st) (ws_votes_received st) (ws_leader st)
    (ws_pending_read_index st) (ws_incoming_snapshot st) (ws_effective_cfg st)
    (ws_pending_joint_entry st) (ws_active_config_index st) (ws_current_term_first_index st)
    (ws_seen_leader st) (ws_pre_candidate_misses st) (ws_apply_sink st) (ws_role_atomic st)
    (ws_status st) (ws_clock st) x (ws_rng st) (ws_rng_draws st) (ws_read_replies st).
Definition with_rng {NID S} `{!NodeId NID} (x : nat → N) (st : WorkerState NID S) : WorkerState NID S :=
  mkWorker (ws_storage st) (ws_cfg st) (ws_role st) (ws_meta st) (ws_election_deadline st)
    (ws_last_heartbeat_received st) (ws_votes_received st) (ws_leader st)
    (ws_pending_read_index st) (ws_incoming_snapshot st) (ws_effective_cfg st)
    (ws_pending_joint_entry st) (ws_active_config_index st) (ws_current_term_first_index st)
    (ws_seen_leader st) (ws_pre_candidate_misses st) (ws_apply_sink st) (ws_role_atomic st)
    (ws_status st) (ws_clock st) (ws_clock_reads st) x (ws_rng_draws st) (ws_read_replies st).
Definition with_rng_draws {NID S} `{!NodeId NID} (x : nat) (st : WorkerState NID S) : WorkerState NID S :=
  mkWorker (ws_storage st) (ws_cfg st) (ws_role st) (ws_meta st) (ws_election_deadline st)
    (ws_last_heartbeat_received st) (ws_votes_received st) (ws_leader st)
    (ws_pending_read_index st) (ws_incoming_snapshot st) (ws_effective_cfg st)
    (ws_pending_joint_entry st) (ws_active_config_index st) (ws_current_term_first_index st)
    (ws_seen_leader st) (ws_pre_candidate_misses st) (ws_apply_sink st) (ws_role_atomic st)
    (ws_status st) (ws_clock st) (ws_clock_reads st) (ws_rng st) x (ws_read_replies st).
Definition with_read_replies {NID S} `{!NodeId NID} (x : list (N * result ReadIndexError N)) (st : WorkerState NID S) : WorkerState NID S :=
  mkWorker (ws_storage st) (ws_cfg st) (ws_role st) (ws_meta st) (ws_election_deadline st)
    (ws_last_heartbeat_received st) (ws_votes_received st) (ws_leader st)
    (ws_pending_read_index st) (ws_incoming_snapshot st) (ws_effective_cfg st)
    (ws_pending_joint_entry st) (ws_active_config_index st) (ws_current_term_first_index st)
    (ws_seen_leader st) (ws_pre_candidate_misses st) (ws_apply_sink st) (ws_role_atomic st)
    (ws_status st) (ws_clock st) (ws_clock_reads st) (ws_rng st) (ws_rng_draws st) x.

(** ** Messages into and out of the worker *)

(** An outbound RPC future parked in [pending]: the peer, the request, and what
    the future's closure keeps for the response handler. *)
Inductive OutRpc (NID : Type) :=
| OutAppend (peer : NID) (req : AppendEntriesReq NID)
| OutVote (peer : NID) (req : RequestVoteReq NID)
| OutPreVote (peer : NID) (next_term : N) (req : PreVoteReq NID)
| OutInstall (peer : NID) (req : InstallSnapshotReq NID)
    (last_included_index last_included_term chunk_end_offset : N) (was_final : bool).
Arguments OutAppend {NID} _ _.
Arguments OutVote {NID} _ _.
Arguments OutPreVote {NID} _ _ _.
Arguments OutInstall {NID} _ _ _ _ _ _.

Inductive RpcOutcome (NID : Type) :=
| OcAppend (from : NID) (result : option AppendEntriesResp)
| OcVote (from : NID) (result : option RequestVoteResp)
| OcPreVote (from : NID) (next_term : N) (result : option PreVoteResp)
| OcInstall (from : NID) (result : option InstallSnapshotResp)
    (last_included_index last_included_term chunk_end_offset : N) (was_final : bool).
Arguments OcAppend {NID} _ _.
Arguments OcVote {NID} _ _.
Arguments OcPreVote {NID} _ _ _.
Arguments OcInstall {NID} _ _ _ _ _ _.

(** [RaftMsg]; a read-index request carries its reply channel, the other reply
    channels are the return value of [handle_msg]. *)
Inductive RaftMsg (NID : Type) :=
| MsgAppendEntries (from : NID) (req : AppendEntriesReq NID)
| MsgRequestVote (from : NID) (req : RequestVoteReq NID)
| MsgPreVote (from : NID) (req : PreVoteReq NID)
| MsgInstallSnapshot (from : NID) (req : InstallSnapshotReq NID)
| MsgPropose (payload : bytes)
| MsgReadIndex (timeout : option N) (reply : N)
| MsgChangeMembership (new_members : list NID)
| MsgQueryState
| MsgShutdown.
Arguments MsgAppendEntries {NID} _ _.
Arguments MsgRequestVote {NID} _ _.
Arguments MsgPreVote {NID} _ _.
Arguments MsgInstallSnapshot {NID} _ _.
Arguments MsgPropose {NID} _.
Arguments MsgReadIndex {NID} _ _.
Arguments MsgChangeMembership {NID} _.
Arguments MsgQueryState {NID}.
Arguments MsgShutdown {NID}.

(** What a handler sends back; [None] is a dropped reply channel. *)
Inductive RaftReply (NID : Type) :=
| RepAppend (resp : AppendEntriesResp)
| RepVote (resp : RequestVoteResp)
| RepPreVote (resp : PreVoteResp)
| RepInstall (resp : InstallSnapshotResp)
| RepPropose (r : result ProposeError N)
| RepChange (r : result ChangeMembershipError N)
| RepState (s : WorkerSnapshot NID).
Arguments RepAppend {NID} _.
Arguments RepVote {NID} _.
Arguments RepPreVote {NID} _.
Arguments RepInstall {NID} _.
Arguments RepPropose {NID} _.
Arguments RepChange {NID} _.
Arguments RepState {NID} _.
