(* ===== verification/RaftWorker.v ===== *)
(** * vos-raft: the worker's handlers

    Every handler, transition and helper of [support/vos-raft/src/worker.rs], in
    explicit state passing.  A Rust function [async fn f(state: &mut
    WorkerState, ..) -> Result<A, S::Error>] is [f : WS → .. → WS * result E A]:
    the state is returned on the error paths too, because Rust keeps the
    mutations made before [?] returns.  Functions that push outbound RPC futures
    also thread [pending].  A handler runs to completion before the next event
    is taken from the [select!] loop, so one call is one atomic step. *)

From S2P Require Import Prelude RaftTypes RaftStorage RaftConfig RaftState.

Local Open Scope N_scope.

Section Worker.
Context {NID S E : Type} `{!NodeId NID} `{!Storage NID S E}.

Abbreviation WS := (WorkerState NID S).
Abbreviation Pending := (list (OutRpc NID)).
Implicit Types (st : WorkerState NID S).

(** ** Primitive steps *)

(** [clock.now()]: the next reading of the clock. *)
Definition clock_now st : N * WS :=
  (ws_clock st (ws_clock_reads st), with_clock_reads (Datatypes.S (ws_clock_reads st)) st).

(** [rng.next_u64()]. *)
Definition next_u64 st : N * WS :=
  (ws_rng st (ws_rng_draws st) `mod` u64_modulus, with_rng_draws (Datatypes.S (ws_rng_draws st)) st).

(** [storage.commit_batch(batch).await]. *)
Definition commit (b : WriteBatch NID) st : WS * result E unit :=
  let '(s', r) := commit_batch (ws_storage st) b in (with_storage s' st, r).

(** [publish_role]/[set_role]: the role and its atomic mirror. *)
Definition publish_role st : WS := with_role_atomic (as_u8 (ws_role st)) st.
Definition set_role (r : Role) st : WS := publish_role (with_role r st).

Definition snapshot st : WorkerSnapshot NID :=
  mkSnapshot (ws_role st) (current_term (ws_meta st)) (voted_for (ws_meta st))
    (last_index (ws_storage st)) (commit_index (ws_meta st)) (snap_last_index (ws_storage st))
    (ac_current (ws_effective_cfg st)) (ac_joint_old (ws_effective_cfg st))
    (ws_active_config_index st) (ws_seen_leader st).

(** [status_valid_for] of [run_worker_with_status]; [*] saturates. *)
Definition status_valid_for (c : Config NID) : N :=
  N.max (N.max (election_timeout_hi c) (N.min (heartbeat_interval_ms c * 3) u64_max)) 1.

(** [publish_status], at wall-clock time [wall]. *)
Definition publish_status (wall : N) st : WS :=
  with_status (Some (mkStatus (snapshot st) (wall + status_valid_for (ws_cfg st)))) st.

(** [WorkerHandle::cached_snapshot] on the published status. *)
Definition cached_snapshot (wall : N) st : option (WorkerSnapshot NID) :=
  p ← ws_status st; if wall <? pub_valid_until p then Some (pub_snapshot p) else None.

Definition fire_apply_notification st : WS :=
  with_apply_sink (ws_apply_sink st ++ [commit_index (ws_meta st)]) st.

(** The FNV-style hasher local to [reset_election_timer]. *)
Definition fnv_write (h : N) (bs : bytes) : N :=
  foldl (λ h b, N.lxor (wrapping_mul64 h 1099511628211) (Byte.to_N b)) h bs.
Definition me_seed (me : NID) : N := fnv_write 14695981039346656037 (node_hash_bytes me).

Definition election_timeout (c : Config NID) (r term : N) : N :=
  let lo := election_timeout_lo c in
  let span := N.max (election_timeout_hi c - lo) 1 in
  let jitter := N.lxor (N.lxor r (me_seed (cfg_me c))) term `mod` span in
  lo + jitter.

Definition reset_election_timer st : WS :=
  let '(r, st) := next_u64 st in
  let timeout := election_timeout (ws_cfg st) r (current_term (ws_meta st)) in
  let '(now, st) := clock_now st in
  with_election_deadline (now + timeout) st.

(** ** Quorum views *)

Definition member_match_score st (m : NID) : N :=
  if decide (m = cfg_me (ws_cfg st)) then last_index (ws_storage st)
  else default 0 (l ← ws_leader st; match_index l !! m).

Definition match_index_majority_floor st : option N :=
  _ ← ws_leader st; majority_floor (ws_effective_cfg st) (member_match_score st).

(** [state.quorum_holds(|m| votes.contains(&m))]. *)
Definition votes_quorum st : bool :=
  quorum_holds (ws_effective_cfg st) (λ m, bool_decide (m ∈ ws_votes_received st)).

Definition is_solo_cluster st : bool :=
  let only_me_in (s : list NID) := forallb (λ m, bool_decide (m = cfg_me (ws_cfg st))) s in
  only_me_in (ac_current (ws_effective_cfg st)) &&
  match ac_joint_old (ws_effective_cfg st) with Some old => only_me_in old | None => true end.

(** ** Recovering the configuration *)

Record ConfigRecovery := mkRecovery {
  rec_active : ActiveConfig NID;
  rec_pending_joint : option N;
  rec_active_config_index : option N;
}.

(** The last [ConfigChange] of a slice, scanning from its end. *)
Fixpoint last_config_change (es : list (LogEntry NID)) : option (N * option (list NID) * list NID) :=
  match es with
  | [] => None
  | e :: es =>
      match last_config_change es with
      | Some r => Some r
      | None =>
          match e_kind e with
          | ConfigChange joint_old members => Some (e_index e, joint_old, members)
          | Data _ => None
          end
      end
  end.

Definition recover_active_config (s : S) (c : Config NID) (consult_persisted : bool)
    : result E ConfigRecovery :=
  let last := last_index s in
  let snap := snap_last_index s in
  let fallback :=
    Ok (mkRecovery (steady (cfg_members c)) None (Some 0)) in
  let persisted :=
    if consult_persisted then
      match active_config s with
      | Err e => Err e
      | Ok (Some record) =>
          Ok (mkRecovery (mkActive (acr_current record) (acr_joint_old record)) None
                (acr_log_index record))
      | Ok None => fallback
      end
    else fallback in
  if snap <? last then
    match entries s (snap ⊞ 1) last with
    | Err e => Err e
    | Ok es =>
        match last_config_change es with
        | Some (idx, joint_old, members) =>
            let active := mkActive members joint_old in
            Ok (mkRecovery active (if is_joint active then Some idx else None) (Some idx))
        | None => persisted
        end
    end
  else persisted.

(** The worker as [run_worker_with_status] builds it before its loop: durable
    state from the storage, everything else fresh.  The clock and the rng go on
    from where they are. *)
Definition init_worker (s : S) (c : Config NID) (clock : nat → N) (clock_reads : nat)
    (rng : nat → N) (rng_draws : nat) (wall : N) : result E WS :=
  match load_meta s with
  | Err e => Err e
  | Ok m =>
      match recover_active_config s c true with
      | Err e => Err e
      | Ok recovery =>
          let now := clock clock_reads in
          let st := mkWorker s c Follower m now None ∅ None [] None
                      (rec_active recovery) (rec_pending_joint recovery)
                      (rec_active_config_index recovery) None None 0 [] 0 None
                      clock (Datatypes.S clock_reads) rng rng_draws [] in
          let st := reset_election_timer st in
          let st := publish_role st in
          Ok (publish_status wall st)
      end
  end.

(** ** Read barriers *)

Definition reply_read (p : PendingReadIndex) (r : result ReadIndexError N) st : WS :=
  with_read_replies (ws_read_replies st ++ [(pr_reply p, r)]) st.

Definition deadline_passed (now : N) (p : PendingReadIndex) : bool :=
  match pr_deadline p with Some d => d <=? now | None => false end.

Definition drain_pending_reads_on_step_down st : WS :=
  foldl (λ st p, reply_read p (Err LeaderStepped) st)
    (with_pending_read_index [] st) (ws_pending_read_index st).

Definition expire_pending_reads (now : N) st : WS :=
  foldl (λ st p,
           if deadline_passed now p then reply_read p (Err TimedOut) st
           else with_pending_read_index (ws_pending_read_index st ++ [p]) st)
    (with_pending_read_index [] st) (ws_pending_read_index st).

Definition try_resolve_pending_reads st : WS :=
  match ws_pending_read_index st with
  | [] => st
  | pendings =>
      match match_index_majority_floor st with
      | None => st
      | Some mf =>
          let '(now, st) := clock_now st in
          foldl (λ st p,
                   if deadline_passed now p then reply_read p (Err TimedOut) st
                   else if pr_required_index p <=? mf
                   then reply_read p (Ok (pr_required_index p)) st
                   else with_pending_read_index (ws_pending_read_index st ++ [p]) st)
            (with_pending_read_index [] st) pendings
      end
  end.

(** ** Role transitions *)

Definition step_down st : WS :=
  let st := set_role Follower st in
  let st := with_votes_received ∅ st in
  let st := with_leader None st in
  let st := with_current_term_first_index None st in
  let st := with_pre_candidate_misses 0 st in
  let st := with_incoming_snapshot None st in
  let st := drain_pending_reads_on_step_down st in
  reset_election_timer st.

Definition persist_term_bump (new_term : N) st : WS * result E unit :=
  let next := meta_set_term new_term None (ws_meta st) in
  let '(st, r) := commit (batch_meta next) st in
  match r with
  | Err e => (st, Err e)
  | Ok _ => (with_meta next st, Ok ())
  end.

Definition or_insert {A} (k : NID) (v : A) (m : gmap NID A) : gmap NID A :=
  match m !! k with Some _ => m | None => <[k := v]> m end.
Definition retain_members {A} (members : list NID) (m : gmap NID A) : gmap NID A :=
  filter (λ '(k, _), k ∈ members) m.

Definition leader_fresh (members : list NID) (me : NID) (last_log_index : N) : LeaderState NID :=
  let peers := filter (λ p, p ≠ me) members in
  mkLeader (list_to_map ((λ p, (p, last_log_index ⊞ 1)) <$> peers))
    (list_to_map ((λ p, (p, 0)) <$> peers)) ∅.

Definition rebuild_leader_tracking st : WS :=
  let last := last_index (ws_storage st) in
  let me := cfg_me (ws_cfg st) in
  match ws_leader st with
  | None => st
  | Some l =>
      let members := all_members (ws_effective_cfg st) in
      let l := foldl (λ l m,
                        if decide (m = me) then l
                        else with_match_index (or_insert m 0 (match_index l))
                               (with_next_index (or_insert m (last ⊞ 1) (next_index l)) l))
                 l members in
      with_leader (Some (mkLeader (retain_members members (next_index l))
                           (retain_members members (match_index l))
                           (retain_members members (snapshot_send l)))) st
  end.

(** ** Commit advancement *)

Definition auto_finalize_joint_config st : WS * result E unit :=
  if negb (bool_decide (ws_role st = Leader)) || negb (is_joint (ws_effective_cfg st))
  then (st, Ok ())
  else
    match ws_pending_joint_entry st with
    | None => (st, Ok ())
    | Some joint_idx =>
        if commit_index (ws_meta st) <? joint_idx then (st, Ok ())
        else
          let term := current_term (ws_meta st) in
          let new_index := last_index (ws_storage st) ⊞ 1 in
          let final_members := ac_current (ws_effective_cfg st) in
          let entry := mkEntry new_index term (ConfigChange None final_members) in
          let '(st, r) :=
            commit (mkBatch None None [entry] None None
                      (Some (mkActiveRecord (Some new_index) final_members None))) st in
          match r with
          | Err e => (st, Err e)
          | Ok _ =>
              let me_was_voter := bool_decide (cfg_me (ws_cfg st) ∈ final_members) in
              let st := with_effective_cfg (steady final_members) st in
              let st := with_pending_joint_entry None st in
              let st := with_active_config_index (Some new_index) st in
              let st := rebuild_leader_tracking st in
              (if me_was_voter then st else step_down st, Ok ())
          end
    end.

Definition try_advance_commit_index st : WS * result E unit :=
  match match_index_majority_floor st with
  | None => (st, Ok ())
  | Some majority_floor =>
      if majority_floor <=? commit_index (ws_meta st) then (st, Ok ())
      else
        match term_at (ws_storage st) majority_floor with
        | Err e => (st, Err e)
        | Ok entry_term =>
            if bool_decide (entry_term ≠ Some (current_term (ws_meta st))) then (st, Ok ())
            else
              let prev_commit := commit_index (ws_meta st) in
              let st := with_meta (meta_set_commit majority_floor (ws_meta st)) st in
              let '(st, r) := commit (batch_meta (ws_meta st)) st in
              match r with
              | Err e => (with_meta (meta_set_commit prev_commit (ws_meta st)) st, Err e)
              | Ok _ => auto_finalize_joint_config (fire_apply_notification st)
              end
        end
  end.

(** ** Becoming leader *)

Definition become_leader_no_heartbeat st : WS * result E unit :=
  let last := last_index (ws_storage st) in
  let term := current_term (ws_meta st) in
  let new_index := last ⊞ 1 in
  let no_op := entry_data new_index term [] in
  let '(st, r) := commit (batch_append no_op) st in
  match r with
  | Err e => (st, Err e)
  | Ok _ =>
      let st := set_role Leader st in
      let st := with_votes_received ∅ st in
      let members := all_members (ws_effective_cfg st) in
      let st := with_leader (Some (leader_fresh members (cfg_me (ws_cfg st)) last)) st in
      let st := with_seen_leader (Some (cfg_me (ws_cfg st))) st in
      let st := with_current_term_first_index (Some new_index) st in
      let '(st, _) := try_advance_commit_index st in
      (st, Ok ())
  end.

(** ** Elections *)

Definition start_election (pending : Pending) st : WS * Pending * result E unit :=
  let me := cfg_me (ws_cfg st) in
  if bool_decide (me ∉ all_members (ws_effective_cfg st))
  then (reset_election_timer st, pending, Ok ())
  else
    let st := set_role Candidate st in
    let prev_term := current_term (ws_meta st) in
    let prev_voted_for := voted_for (ws_meta st) in
    let st := with_meta (meta_set_term (prev_term ⊞ 1) (Some me) (ws_meta st)) st in
    let '(st, r) := commit (batch_meta (ws_meta st)) st in
    match r with
    | Err e =>
        let st := with_meta (meta_set_term prev_term prev_voted_for (ws_meta st)) st in
        (set_role Follower st, pending, Err e)
    | Ok _ =>
        let st := with_votes_received {[ me ]} st in
        let term := current_term (ws_meta st) in
        let last_log_index := last_index (ws_storage st) in
        let last_log_term := last_term (ws_storage st) in
        let peers := filter (λ p, p ≠ me) (all_members (ws_effective_cfg st)) in
        let pending :=
          pending ++ ((λ peer, OutVote peer (mkVoteReq me term last_log_index last_log_term))
                        <$> peers) in
        if votes_quorum st then
          let '(st, r) := become_leader_no_heartbeat st in
          match r with
          | Err e => (st, pending, Err e)
          | Ok _ =>
              let '(now, st) := clock_now st in
              (with_election_deadline now st, pending, Ok ())
          end
        else (reset_election_timer st, pending, Ok ())
    end.

Definition start_pre_election (pending : Pending) st : WS * Pending * result E unit :=
  let me := cfg_me (ws_cfg st) in
  if bool_decide (me ∉ all_members (ws_effective_cfg st))
  then (reset_election_timer st, pending, Ok ())
  else if is_solo_cluster st then start_election pending st
  else
    let st := set_role PreCandidate st in
    let st := with_votes_received {[ me ]} st in
    let next_term := current_term (ws_meta st) ⊞ 1 in
    let last_log_index := last_index (ws_storage st) in
    let last_log_term := last_term (ws_storage st) in
    let peers := filter (λ p, p ≠ me) (all_members (ws_effective_cfg st)) in
    let pending :=
      pending ++ ((λ peer, OutPreVote peer next_term
                             (mkPreVoteReq me next_term last_log_index last_log_term)) <$> peers) in
    (reset_election_timer st, pending, Ok ()).

(** ** Compaction and heartbeats *)

Definition try_compact st : WS * result E unit :=
  match ws_leader st with
  | None => (st, Ok ())
  | Some _ =>
      match match_index_majority_floor st with
      | None => (st, Ok ())
      | Some majority_floor =>
          let committed_floor := N.min majority_floor (commit_index (ws_meta st)) in
          match applied_index (ws_storage st) with
          | Err e => (st, Err e)
          | Ok applied =>
              let applied_floor := default committed_floor applied in
              let floor := N.min committed_floor applied_floor in
              let snap := snap_last_index (ws_storage st) in
              if (floor <=? snap) || (floor - snap <? compact_hysteresis (ws_cfg st))
              then (st, Ok ())
              else
                match term_at (ws_storage st) floor with
                | Err e => (st, Err e)
                | Ok None => (st, Ok ())
                | Ok (Some term_at_floor) =>
                    let prev_snap_index := m_snap_last_index (ws_meta st) in
                    let prev_snap_term := m_snap_last_term (ws_meta st) in
                    let st := with_meta (meta_set_snap floor term_at_floor (ws_meta st)) st in
                    let '(st, r) :=
                      commit (mkBatch None (Some (floor, term_at_floor)) [] None
                                (Some (ws_meta st)) None) st in
                    match r with
                    | Err e =>
                        (with_meta (meta_set_snap prev_snap_index prev_snap_term (ws_meta st)) st,
                         Err e)
                    | Ok _ => (st, Ok ())
                    end
                end
          end
      end
  end.

(** The chunk of the snapshot row that one heartbeat sends. *)
Record Chunk := mkChunk {
  ck_data : bytes;
  ck_end_offset : N;
  ck_was_final : bool;
}.

Definition snapshot_chunk (snapshot : bytes) (chunk_bytes resume_offset : N) : Chunk :=
  let total_len := N.of_nat (length snapshot) in
  let chunk_max := N.max chunk_bytes 1 in
  let start := N.min resume_offset total_len in
  let stop := N.min (start + chunk_max) total_len in
  mkChunk (take (N.to_nat (stop - start)) (drop (N.to_nat start) snapshot))
    stop (total_len <=? stop).

(** The snapshot branch of the heartbeat loop. *)
Definition send_install_chunk (peer : NID) (pending : Pending) st : WS * Pending :=
  let term := current_term (ws_meta st) in
  let me := cfg_me (ws_cfg st) in
  let snap_idx := snap_last_index (ws_storage st) in
  let snap_term := snap_last_term (ws_storage st) in
  let resume_offset :=
    match l ← ws_leader st; snapshot_send l !! peer with
    | Some s =>
        if (ss_last_included_index s =? snap_idx) && (ss_last_included_term s =? snap_term)
        then ss_offset s else 0
    | None => 0
    end in
  let snapshot := match read_state (ws_storage st) with Ok b => b | Err _ => [] end in
  let chunk := snapshot_chunk snapshot (install_snapshot_chunk_bytes (ws_cfg st)) resume_offset in
  let st :=
    match ws_leader st with
    | Some l =>
        with_leader (Some (with_snapshot_send
          (<[peer := mkSend snap_idx snap_term resume_offset]> (snapshot_send l)) l)) st
    | None => st
    end in
  let '(members, joint_old, active_idx) :=
    if ck_was_final chunk &&
       match ws_active_config_index st with Some index => index <=? snap_idx | None => false end
    then (ac_current (ws_effective_cfg st), ac_joint_old (ws_effective_cfg st),
          ws_active_config_index st)
    else ([], None, None) in
  let req := mkInstallReq me term snap_idx snap_term resume_offset (ck_was_final chunk)
               (ck_data chunk) members joint_old active_idx in
  (st, pending ++ [OutInstall peer req snap_idx snap_term (ck_end_offset chunk)
                     (ck_was_final chunk)]).

(** One peer of the heartbeat loop; [leader] is the clone taken before it. *)
Definition send_heartbeat_to (leader : LeaderState NID) (peer : NID) (pending : Pending) st
    : WS * Pending * result E unit :=
  let leader_last_index := last_index (ws_storage st) in
  let snap_idx := snap_last_index (ws_storage st) in
  let next_idx := default 1 (next_index leader !! peer) in
  if (next_idx <=? snap_idx) && (0 <? snap_idx)
  then let '(st, pending) := send_install_chunk peer pending st in (st, pending, Ok ())
  else
    let prev_log_index := next_idx - 1 in
    match term_at (ws_storage st) prev_log_index with
    | Err e => (st, pending, Err e)
    | Ok t =>
        let prev_log_term := default 0 t in
        match (if next_idx <=? leader_last_index
               then entries (ws_storage st) next_idx leader_last_index
               else Ok []) with
        | Err e => (st, pending, Err e)
        | Ok es =>
            let req := mkAppendReq (cfg_me (ws_cfg st)) (current_term (ws_meta st))
                         prev_log_index prev_log_term (commit_index (ws_meta st)) es in
            (st, pending ++ [OutAppend peer req], Ok ())
        end
    end.

Fixpoint send_heartbeats_loop (leader : LeaderState NID) (peers : list NID)
    (pending : Pending) st : WS * Pending * result E unit :=
  match peers with
  | [] => (st, pending, Ok ())
  | peer :: peers =>
      if decide (peer = cfg_me (ws_cfg st))
      then send_heartbeats_loop leader peers pending st
      else
        let '(st, pending, r) := send_heartbeat_to leader peer pending st in
        match r with
        | Err e => (st, pending, Err e)
        | Ok _ => send_heartbeats_loop leader peers pending st
        end
  end.

Definition send_heartbeats (pending : Pending) st : WS * Pending * result E unit :=
  match ws_leader st with
  | None => (st, pending, Ok ())
  | Some leader =>
      let '(st, pending, r) :=
        send_heartbeats_loop leader (all_members (ws_effective_cfg st)) pending st in
      match r with
      | Err e => (st, pending, Err e)
      | Ok _ =>
          let '(st, _) := try_compact st in
          let '(now, st) := clock_now st in
          (with_election_deadline (now + heartbeat_interval_ms (ws_cfg st)) st, pending, Ok ())
      end
  end.

(** ** Inbound RPC handlers *)

(** Stepping down to follower for a current leader, shared by the AppendEntries
    and InstallSnapshot handlers. *)
Definition follow_leader (leader : NID) st : WS :=
  let was_leader := bool_decide (ws_role st = Leader) in
  let st := set_role Follower st in
  let st := with_votes_received ∅ st in
  let st := with_leader None st in
  let st := with_current_term_first_index None st in
  let st := if was_leader then drain_pending_reads_on_step_down st else st in
  let st := reset_election_timer st in
  let '(now, st) := clock_now st in
  let st := with_last_heartbeat_received (Some now) st in
  with_seen_leader (Some leader) st.

(** The scan of [req.entries] against the local log, starting at index [idx]:
    the first conflicting index and how many entries are already present. *)
Fixpoint scan_entries (s : S) (idx : N) (es : list (LogEntry NID))
    : result E (option N * nat) :=
  match es with
  | [] => Ok (None, 0%nat)
  | e :: es =>
      match term_at s idx with
      | Err x => Err x
      | Ok (Some t) =>
          if t =? e_term e then
            match scan_entries s (idx ⊞ 1) es with
            | Err x => Err x
            | Ok (conflict, present) => Ok (conflict, Datatypes.S present)
            end
          else Ok (Some idx, 0%nat)
      | Ok None => Ok (None, 0%nat)
      end
  end.

(** [LogEntry { index: req.prev_log_index + 1 + i, term, kind }]. *)
Fixpoint reindex (idx : N) (es : list (LogEntry NID)) : list (LogEntry NID) :=
  match es with
  | [] => []
  | e :: es => mkEntry idx (e_term e) (e_kind e) :: reindex (idx ⊞ 1) es
  end.

Definition is_config_change (e : LogEntry NID) : bool :=
  match e_kind e with ConfigChange _ _ => true | Data _ => false end.

Definition record_of (idx : N) (joint_old : option (list NID)) (members : list NID)
    : ActiveConfigRecord NID * (ActiveConfig NID * option N * option N) :=
  let active := mkActive members joint_old in
  (mkActiveRecord (Some idx) members joint_old,
   (active, Some idx, if is_joint active then Some idx else None)).

(** The membership view the append leaves in force: what goes into the batch and
    into the in-memory view, [None] when nothing changes. *)
Definition append_active_view st (req : AppendEntriesReq NID) (truncate_after : option N)
    (appends : list (LogEntry NID))
    : result E (option (ActiveConfigRecord NID * (ActiveConfig NID * option N * option N))) :=
  let appended_a_config := existsb is_config_change appends in
  let truncate_invalidated_cfg :=
    match truncate_after, ws_active_config_index st with
    | Some ta, Some idx => ta <? idx
    | _, _ => false
    end in
  if appended_a_config then
    match last_config_change (reindex (ae_prev_log_index req ⊞ 1) (ae_entries req)) with
    | Some (idx, joint_old, members) => Ok (Some (record_of idx joint_old members))
    | None => Ok None
    end
  else if truncate_invalidated_cfg then
    let snap := snap_last_index (ws_storage st) in
    let scan_end := default 0 truncate_after in
    match (if snap <? scan_end then entries (ws_storage st) (snap ⊞ 1) scan_end else Ok []) with
    | Err e => Err e
    | Ok surviving =>
        match last_config_change surviving with
        | Some (idx, joint_old, members) => Ok (Some (record_of idx joint_old members))
        | None =>
            let fallback := steady (cfg_members (ws_cfg st)) in
            Ok (Some (mkActiveRecord (Some 0) (ac_current fallback) None,
                      (fallback, Some 0, None)))
        end
    end
  else Ok None.

(** The part of the AppendEntries handler that runs once the caller follows the
    leader: the consistency check, the scan, and the one batch.  [meta_snapshot]
    is restored whenever a storage call fails. *)
Definition append_to_log (req : AppendEntriesReq NID) (meta_snapshot : Meta NID) st
    : WS * result E AppendEntriesResp :=
  match term_at (ws_storage st) (ae_prev_log_index req) with
  | Err e => (with_meta meta_snapshot st, Err e)
  | Ok our_prev_term =>
      if bool_decide (our_prev_term ≠ Some (ae_prev_log_term req)) then
        let '(st, r) := commit (batch_meta (ws_meta st)) st in
        match r with
        | Err e => (with_meta meta_snapshot st, Err e)
        | Ok _ => (st, Ok (mkAppendResp (current_term (ws_meta st)) false 0))
        end
      else
        match scan_entries (ws_storage st) (ae_prev_log_index req ⊞ 1) (ae_entries req) with
        | Err e => (with_meta meta_snapshot st, Err e)
        | Ok (conflict_at, already_present) =>
            let truncate_after := (λ idx, idx ⊟ 1) <$> conflict_at in
            let appends :=
              drop already_present (reindex (ae_prev_log_index req ⊞ 1) (ae_entries req)) in
            let last_new_index := ae_prev_log_index req ⊞ N.of_nat (length (ae_entries req)) in
            let new_commit := N.min (ae_leader_commit req) last_new_index in
            let commit_advanced :=
              (commit_index (ws_meta st) <? ae_leader_commit req) &&
              (commit_index (ws_meta st) <? new_commit) in
            let st :=
              if commit_advanced then with_meta (meta_set_commit new_commit (ws_meta st)) st
              else st in
            match append_active_view st req truncate_after appends with
            | Err e => (with_meta meta_snapshot st, Err e)
            | Ok view =>
                let '(st, r) :=
                  commit (mkBatch truncate_after None appends None (Some (ws_meta st))
                            (fst <$> view)) st in
                match r with
                | Err e => (with_meta meta_snapshot st, Err e)
                | Ok _ =>
                    let st := if commit_advanced then fire_apply_notification st else st in
                    let st :=
                      match view with
                      | Some (_, (active, idx, pending)) =>
                          rebuild_leader_tracking
                            (with_pending_joint_entry pending
                              (with_active_config_index idx (with_effective_cfg active st)))
                      | None => st
                      end in
                    (st, Ok (mkAppendResp (current_term (ws_meta st)) true last_new_index))
                end
            end
        end
  end.

Definition handle_append_entries (from : NID) (req : AppendEntriesReq NID) st
    : WS * result E AppendEntriesResp :=
  if ae_term req <? current_term (ws_meta st)
  then (st, Ok (mkAppendResp (current_term (ws_meta st)) false 0))
  else
    let meta_snapshot := ws_meta st in
    let st :=
      if current_term (ws_meta st) <? ae_term req
      then with_seen_leader None (with_meta (meta_set_term (ae_term req) None (ws_meta st)) st)
      else st in
    let st := follow_leader (ae_leader req) st in
    append_to_log req meta_snapshot st.

(** The log-recency test of RequestVote and PreVote. *)
Definition up_to_date (s : S) (last_log_index last_log_term : N) : bool :=
  (last_term s <? last_log_term) ||
  ((last_log_term =? last_term s) && (last_index s <=? last_log_index)).

Definition handle_request_vote (from : NID) (req : RequestVoteReq NID) st
    : WS * result E RequestVoteResp :=
  if rv_term req <? current_term (ws_meta st)
  then (st, Ok (mkVoteResp (current_term (ws_meta st)) false))
  else
    let meta_snapshot := ws_meta st in
    let bump := current_term (ws_meta st) <? rv_term req in
    let st :=
      if bump then
        step_down (with_seen_leader None
          (with_meta (meta_set_term (rv_term req) None (ws_meta st)) st))
      else st in
    let candidate_up_to_date :=
      up_to_date (ws_storage st) (rv_last_log_index req) (rv_last_log_term req) in
    let already_voted_otherwise :=
      match voted_for (ws_meta st) with
      | Some v => bool_decide (v ≠ rv_candidate req)
      | None => false
      end in
    let granted := negb already_voted_otherwise && candidate_up_to_date in
    let st :=
      if granted then
        reset_election_timer
          (with_meta (meta_set_voted_for (Some (rv_candidate req)) (ws_meta st)) st)
      else st in
    let meta_changed := bump || granted in
    if meta_changed then
      let '(st, r) := commit (batch_meta (ws_meta st)) st in
      match r with
      | Err e => (with_meta meta_snapshot st, Err e)
      | Ok _ => (st, Ok (mkVoteResp (current_term (ws_meta st)) granted))
      end
    else (st, Ok (mkVoteResp (current_term (ws_meta st)) granted)).

(** The handler reads the clock, hence the returned state. *)
Definition handle_request_prevote (from : NID) (req : PreVoteReq NID) st : WS * PreVoteResp :=
  if pv_next_term req <=? current_term (ws_meta st)
  then (st, mkPreVoteResp (current_term (ws_meta st)) false)
  else
    let '(now, st) := clock_now st in
    let leader_recent :=
      match ws_last_heartbeat_received st with
      | Some last_hb => now <? last_hb + election_timeout_lo (ws_cfg st)
      | None => false
      end in
    if leader_recent then (st, mkPreVoteResp (current_term (ws_meta st)) false)
    else
      (st, mkPreVoteResp (current_term (ws_meta st))
             (up_to_date (ws_storage st) (pv_last_log_index req) (pv_last_log_term req))).

(** The assembly buffer for a chunk: the matching one, or a fresh one. *)
Definition incoming_for (from : NID) (req : InstallSnapshotReq NID) st : IncomingSnapshot NID :=
  let fresh := mkIncoming from (is_term req) (is_last_included_index req)
                 (is_last_included_term req) [] in
  match ws_incoming_snapshot st with
  | Some s =>
      if bool_decide (in_leader s = from) && (in_term s =? is_term req) &&
         (in_last_included_index s =? is_last_included_index req) &&
         (in_last_included_term s =? is_last_included_term req)
      then s else fresh
  | None => fresh
  end.

(** The membership claim of a final chunk: [None] is a refused claim, [Some
    None] an omitted one, [Some (Some i)] a claim established at index [i]. *)
Definition supplied_config_index (req : InstallSnapshotReq NID) : option (option N) :=
  match is_members req, is_active_config_index req with
  | _ :: _, Some index =>
      if index <=? is_last_included_index req then Some (Some index) else None
  | [], None => match is_joint_old req with None => Some None | Some _ => None end
  | _, _ => None
  end.

(** Committing an assembled snapshot ([done = true]). *)
Definition install_assembled (req : InstallSnapshotReq NID) (snapshot : bytes) (new_len : N) st
    : WS * result E InstallSnapshotResp :=
  let meta_snapshot := ws_meta st in
  match supplied_config_index req with
  | None => (st, Ok (mkInstallResp (current_term (ws_meta st)) 0))
  | Some supplied =>
      let st := with_meta (meta_set_commit
                  (N.max (commit_index (ws_meta st)) (is_last_included_index req))
                  (meta_set_snap (is_last_included_index req) (is_last_included_term req)
                     (ws_meta st))) st in
      let kept_index :=
        match ws_active_config_index st with
        | Some index => if index <=? commit_index meta_snapshot then Some index else None
        | None => None
        end in
      let new_effective_cfg :=
        match is_members req with
        | [] => None
        | members => Some (mkActive members (is_joint_old req))
        end in
      let record :=
        match new_effective_cfg with
        | Some c => mkActiveRecord supplied (ac_current c) (ac_joint_old c)
        | None => mkActiveRecord kept_index (ac_current (ws_effective_cfg st))
                    (ac_joint_old (ws_effective_cfg st))
        end in
      let '(st, r) :=
        commit (mkBatch None (Some (is_last_included_index req, is_last_included_term req)) []
                  (Some snapshot) (Some (ws_meta st)) (Some record)) st in
      match r with
      | Err e => (with_meta meta_snapshot st, Err e)
      | Ok _ =>
          let st :=
            match new_effective_cfg with
            | Some c =>
                rebuild_leader_tracking
                  (with_pending_joint_entry None
                    (with_active_config_index supplied (with_effective_cfg c st)))
            | None =>
                let st := with_active_config_index kept_index st in
                match ws_pending_joint_entry st with
                | Some idx =>
                    if idx <=? is_last_included_index req
                    then with_pending_joint_entry None st else st
                | None => st
                end
            end in
          let st := fire_apply_notification st in
          (st, Ok (mkInstallResp (current_term (ws_meta st)) new_len))
      end
  end.

(** A chunk of a newer term is persisted before anything else. *)
Definition install_adopt_term (req : InstallSnapshotReq NID) st : WS * result E unit :=
  if current_term (ws_meta st) <? is_term req then
    let '(st, r) := persist_term_bump (is_term req) st in
    match r with
    | Err e => (st, Err e)
    | Ok _ => (with_incoming_snapshot None (with_seen_leader None st), Ok ())
    end
  else (st, Ok ()).

(** The part of the InstallSnapshot handler that runs once the caller follows
    the leader: stale snapshots, the assembly buffer, and the final commit. *)
Definition receive_chunk (from : NID) (req : InstallSnapshotReq NID) st
    : WS * result E InstallSnapshotResp :=
  let term := current_term (ws_meta st) in
  if is_last_included_index req <=? snap_last_index (ws_storage st) then
    (with_incoming_snapshot None st,
     Ok (mkInstallResp term
           (saturating_add u64_max (is_offset req) (N.of_nat (length (is_data req))))))
  else
    let buf := incoming_for from req st in
    let current_len := N.of_nat (length (in_buffer buf)) in
    let st := with_incoming_snapshot (Some buf) st in
    if current_len <? is_offset req then (st, Ok (mkInstallResp term current_len))
    else if (is_offset req =? current_len) &&
            (max_snapshot_bytes (ws_cfg st) <?
               saturating_add u64_max current_len (N.of_nat (length (is_data req))))
    then (with_incoming_snapshot None st, Ok (mkInstallResp term 0))
    else
      let buffer :=
        if is_offset req =? current_len then in_buffer buf ++ is_data req
        else in_buffer buf in
      let new_len := N.of_nat (length buffer) in
      let st := with_incoming_snapshot
                  (Some (mkIncoming (in_leader buf) (in_term buf)
                           (in_last_included_index buf) (in_last_included_term buf)
                           buffer)) st in
      if negb (is_done req) then (st, Ok (mkInstallResp term new_len))
      else install_assembled req buffer new_len (with_incoming_snapshot None st).

Definition handle_install_snapshot (from : NID) (req : InstallSnapshotReq NID) st
    : WS * result E InstallSnapshotResp :=
  if is_term req <? current_term (ws_meta st)
  then (st, Ok (mkInstallResp (current_term (ws_meta st)) 0))
  else
    let '(st, r) := install_adopt_term req st in
    match r with
    | Err e => (st, Err e)
    | Ok _ => receive_chunk from req (follow_leader (is_leader req) st)
    end.

(** ** Outbound RPC response handlers *)

(** A higher term in any response: persist it and step down. *)
Definition adopt_higher_term (term : N) st : WS * result E unit :=
  let '(st, r) := persist_term_bump term st in
  match r with
  | Err e => (st, Err e)
  | Ok _ => (step_down st, Ok ())
  end.

Definition handle_append_response (from : NID) (resp : AppendEntriesResp) st
    : WS * result E unit :=
  if current_term (ws_meta st) <? aer_term resp then adopt_higher_term (aer_term resp) st
  else if negb (bool_decide (ws_role st = Leader)) ||
          negb (aer_term resp =? current_term (ws_meta st))
  then (st, Ok ())
  else
    match ws_leader st with
    | None => (st, Ok ())
    | Some l =>
        if aer_success resp then
          let prev_match := default 0 (match_index l !! from) in
          let new_match := N.max (aer_match_index resp) prev_match in
          let st := with_leader (Some (mkLeader (<[from := new_match ⊞ 1]> (next_index l))
                                         (<[from := new_match]> (match_index l))
                                         (snapshot_send l))) st in
          let '(st, r) := try_advance_commit_index st in
          match r with
          | Err e => (st, Err e)
          | Ok _ => (try_resolve_pending_reads st, Ok ())
          end
        else
          let cur := default 1 (next_index l !! from) in
          let new_next := N.max (cur - 1) 1 in
          (with_leader (Some (with_next_index (<[from := new_next]> (next_index l)) l)) st, Ok ())
    end.

Definition handle_install_snapshot_response (from : NID) (resp : InstallSnapshotResp)
    (last_included_index last_included_term chunk_end_offset : N) (was_final : bool) st
    : WS * result E unit :=
  if current_term (ws_meta st) <? isr_term resp then adopt_higher_term (isr_term resp) st
  else if negb (bool_decide (ws_role st = Leader)) ||
          negb (isr_term resp =? current_term (ws_meta st))
  then (st, Ok ())
  else
    match ws_leader st with
    | None => (st, Ok ())
    | Some l =>
        let cursor := N.min (isr_bytes_received resp) chunk_end_offset in
        let entry := default (mkSend last_included_index last_included_term 0)
                       (snapshot_send l !! from) in
        let sends :=
          if (ss_last_included_index entry =? last_included_index) &&
             (ss_last_included_term entry =? last_included_term)
          then <[from := mkSend (ss_last_included_index entry) (ss_last_included_term entry)
                           cursor]> (snapshot_send l)
          else delete from (snapshot_send l) in
        let l := with_snapshot_send sends l in
        let l :=
          if was_final && (chunk_end_offset <=? isr_bytes_received resp) then
            let prev_match := default 0 (match_index l !! from) in
            mkLeader (<[from := last_included_index ⊞ 1]> (next_index l))
              (if prev_match <? last_included_index
               then <[from := last_included_index]> (match_index l) else match_index l)
              (delete from (snapshot_send l))
          else l in
        (with_leader (Some l) st, Ok ())
    end.

Definition handle_vote_response (from : NID) (resp : RequestVoteResp) st
    : WS * result E unit :=
  if current_term (ws_meta st) <? rvr_term resp then adopt_higher_term (rvr_term resp) st
  else if negb (bool_decide (ws_role st = Candidate)) ||
          negb (rvr_term resp =? current_term (ws_meta st))
  then (st, Ok ())
  else if rvr_vote_granted resp then
    if bool_decide (from ∉ all_members (ws_effective_cfg st)) then (st, Ok ())
    else
      let st := with_votes_received ({[ from ]} ∪ ws_votes_received st) st in
      if votes_quorum st then
        let '(st, r) := become_leader_no_heartbeat st in
        match r with
        | Err e => (st, Err e)
        | Ok _ => let '(now, st) := clock_now st in (with_election_deadline now st, Ok ())
        end
      else (st, Ok ())
  else (st, Ok ()).

Definition handle_prevote_response (from : NID) (next_term : N) (resp : PreVoteResp) st
    : WS * result E unit :=
  if current_term (ws_meta st) <? pvr_term resp then adopt_higher_term (pvr_term resp) st
  else if negb (bool_decide (ws_role st = PreCandidate)) ||
          negb (next_term =? current_term (ws_meta st) ⊞ 1)
  then (st, Ok ())
  else if pvr_vote_granted resp then
    if bool_decide (from ∉ all_members (ws_effective_cfg st)) then (st, Ok ())
    else
      let st := with_votes_received ({[ from ]} ∪ ws_votes_received st) st in
      if votes_quorum st then
        let st := set_role Candidate st in
        let st := with_pre_candidate_misses 0 st in
        let '(now, st) := clock_now st in
        (with_election_deadline now st, Ok ())
      else (st, Ok ())
  else (st, Ok ()).

(** ** Client operations *)

Definition handle_propose (payload : bytes) st : WS * result ProposeError N :=
  if negb (bool_decide (ws_role st = Leader)) then (st, Err ProposeNotLeader)
  else
    let term := current_term (ws_meta st) in
    let new_index := last_index (ws_storage st) ⊞ 1 in
    let '(st, r) := commit (batch_append (entry_data new_index term payload)) st in
    match r with
    | Err _ => (st, Err ProposeStorage)
    | Ok _ => let '(st, _) := try_advance_commit_index st in (st, Ok new_index)
    end.

Definition handle_change_membership (new_members : list NID) st
    : WS * result ChangeMembershipError N :=
  if negb (bool_decide (ws_role st = Leader)) then (st, Err ChangeNotLeader)
  else if is_joint (ws_effective_cfg st) then (st, Err InProgress)
  else
    match new_members with
    | [] => (st, Err EmptyConfig)
    | _ =>
        let term := current_term (ws_meta st) in
        let new_index := last_index (ws_storage st) ⊞ 1 in
        let old_members := ac_current (ws_effective_cfg st) in
        let entry := mkEntry new_index term (ConfigChange (Some old_members) new_members) in
        let '(st, r) :=
          commit (mkBatch None None [entry] None None
                    (Some (mkActiveRecord (Some new_index) new_members (Some old_members)))) st in
        match r with
        | Err _ => (st, Err ChangeStorage)
        | Ok _ =>
            let st := with_effective_cfg (mkActive new_members (Some old_members)) st in
            let st := with_pending_joint_entry (Some new_index) st in
            let st := with_active_config_index (Some new_index) st in
            let st := rebuild_leader_tracking st in
            let '(st, _) := try_advance_commit_index st in
            (st, Ok new_index)
        end
    end.

Definition handle_read_index (timeout : option N) (reply : N) (pending : Pending) st
    : WS * Pending :=
  let answer r := with_read_replies (ws_read_replies st ++ [(reply, r)]) st in
  if negb (bool_decide (ws_role st = Leader)) then (answer (Err ReadNotLeader), pending)
  else if is_solo_cluster st then (answer (Ok (commit_index (ws_meta st))), pending)
  else if max_pending_reads (ws_cfg st) <=? N.of_nat (length (ws_pending_read_index st))
  then (answer (Err Backpressure), pending)
  else
    let r := match ws_current_term_first_index st with
             | Some noop_idx => N.max (commit_index (ws_meta st)) noop_idx
             | None => commit_index (ws_meta st)
             end in
    let '(deadline, st) :=
      match timeout with
      | Some t => let '(now, st) := clock_now st in (Some (now + t), st)
      | None => (None, st)
      end in
    let st := with_pending_read_index
                (ws_pending_read_index st ++ [mkPendingRead r deadline reply]) st in
    let '(st, pending, _) := send_heartbeats pending st in
    (st, pending).

(** ** The event loop *)

(** A handler that returns [Err] drops its reply channel. *)
Definition reply_of {A} (f : A → RaftReply NID) (r : result E A) : option (RaftReply NID) :=
  match r with Ok a => Some (f a) | Err _ => None end.

Definition handle_msg (pending : Pending) (msg : RaftMsg NID) st
    : WS * Pending * option (RaftReply NID) :=
  match msg with
  | MsgAppendEntries from req =>
      let '(st, r) := handle_append_entries from req st in (st, pending, reply_of RepAppend r)
  | MsgRequestVote from req =>
      let '(st, r) := handle_request_vote from req st in (st, pending, reply_of RepVote r)
  | MsgPreVote from req =>
      let '(st, resp) := handle_request_prevote from req st in
      (st, pending, Some (RepPreVote resp))
  | MsgInstallSnapshot from req =>
      let '(st, r) := handle_install_snapshot from req st in (st, pending, reply_of RepInstall r)
  | MsgPropose payload =>
      let '(st, r) := handle_propose payload st in (st, pending, Some (RepPropose r))
  | MsgReadIndex timeout reply =>
      let '(st, pending) := handle_read_index timeout reply pending st in (st, pending, None)
  | MsgChangeMembership new_members =>
      let '(st, r) := handle_change_membership new_members st in
      (st, pending, Some (RepChange r))
  | MsgQueryState => (st, pending, Some (RepState (snapshot st)))
  | MsgShutdown => (st, pending, None)
  end.

Definition on_timer (pending : Pending) st : WS * Pending :=
  match ws_role st with
  | Follower =>
      let '(st, pending, _) :=
        if pre_vote (ws_cfg st) then start_pre_election pending st
        else start_election pending st in
      (st, pending)
  | PreCandidate =>
      let st := with_pre_candidate_misses
                  (saturating_add u32_max (ws_pre_candidate_misses st) 1) st in
      let cap := pre_candidate_misses_before_revert (ws_cfg st) in
      if (0 <? cap) && (cap <=? ws_pre_candidate_misses st) then
        let st := set_role Follower st in
        let st := with_votes_received ∅ st in
        let st := with_pre_candidate_misses 0 st in
        (reset_election_timer st, pending)
      else let '(st, pending, _) := start_pre_election pending st in (st, pending)
  | Candidate => let '(st, pending, _) := start_election pending st in (st, pending)
  | Leader => let '(st, pending, _) := send_heartbeats pending st in (st, pending)
  end.

Definition on_worker_timer (pending : Pending) st : WS * Pending :=
  let '(now, st) := clock_now st in
  let st := expire_pending_reads now st in
  if ws_election_deadline st <=? now then on_timer pending st else (st, pending).

Definition handle_rpc_outcome (outcome : RpcOutcome NID) st : WS :=
  match outcome with
  | OcAppend from (Some resp) => fst (handle_append_response from resp st)
  | OcVote from (Some resp) => fst (handle_vote_response from resp st)
  | OcPreVote from next_term (Some resp) => fst (handle_prevote_response from next_term resp st)
  | OcInstall from (Some resp) idx term chunk_end was_final =>
      fst (handle_install_snapshot_response from resp idx term chunk_end was_final st)
  | _ => st
  end.

(** One iteration of the [select!] loop: an inbox message, the timer, or the
    completion of an outbound RPC; then [publish_status]. *)
Inductive WorkerEvent :=
| EvMsg (msg : RaftMsg NID)
| EvTimer
| EvOutcome (outcome : RpcOutcome NID).

Definition worker_step (wall : N) (ev : WorkerEvent) (pending : Pending) st
    : WS * Pending * option (RaftReply NID) :=
  let '(st, pending, reply) :=
    match ev with
    | EvMsg msg => handle_msg pending msg st
    | EvTimer => let '(st, pending) := on_worker_timer pending st in (st, pending, None)
    | EvOutcome outcome => (handle_rpc_outcome outcome st, pending, None)
    end in
  (publish_status wall st, pending, reply).

(** ** The handle's view of a dropped reply

    [WorkerHandle::handle_inbound_append] and its siblings answer for a worker
    that dropped the reply channel. *)
Definition inbound_append (req : AppendEntriesReq NID) (r : option (RaftReply NID))
    : AppendEntriesResp :=
  match r with Some (RepAppend resp) => resp | _ => mkAppendResp (ae_term req) false 0 end.
Definition inbound_vote (req : RequestVoteReq NID) (r : option (RaftReply NID))
    : RequestVoteResp :=
  match r with Some (RepVote resp) => resp | _ => mkVoteResp (rv_term req) false end.
Definition inbound_prevote (req : PreVoteReq NID) (r : option (RaftReply NID))
    : PreVoteResp :=
  match r with Some (RepPreVote resp) => resp | _ => mkPreVoteResp (pv_next_term req) false end.
Definition inbound_install (req : InstallSnapshotReq NID) (r : option (RaftReply NID))
    : InstallSnapshotResp :=
  match r with Some (RepInstall resp) => resp | _ => mkInstallResp (is_term req) 0 end.
End Worker.

(** Proofs rewrite with lemmas about these; [simpl] leaves them folded. *)
#[global] Arguments reset_election_timer : simpl never.
#[global] Arguments drain_pending_reads_on_step_down : simpl never.
#[global] Arguments step_down : simpl never.
#[global] Arguments follow_leader : simpl never.
#[global] Arguments rebuild_leader_tracking : simpl never.
#[global] Arguments try_advance_commit_index : simpl never.
#[global] Arguments auto_finalize_joint_config : simpl never.
