(* ===== verification/RaftNode.v ===== *)
(** * vos-raft: one replica

    What a single worker maintains whatever it receives and whenever its storage
    fails: the in-memory scalars agree with the durable ones, terms and commit
    index never regress, a vote is never changed within its term, and the
    leader-only structures exist exactly while the replica leads.  [step_ok]
    collects this for one event, together with how the role may change; the
    cluster file builds on it. *)

From S2P Require Import Prelude RaftTypes RaftStorage RaftConfig RaftState RaftWorker.

Local Open Scope N_scope.

Create HintDb quiet.

Section Node.
Context {NID S E : Type} `{!NodeId NID} `{!Storage NID S E} `{!StorageLaws NID S E}.
Implicit Types (st : WorkerState NID S).

(** ** Helpers as field updates

    Each helper rewrites to the fields it touches, so that projections of a
    handler's result compute. *)

Lemma reset_election_timer_eq st :
  ∃ d c r, reset_election_timer st =
    with_election_deadline d (with_clock_reads c (with_rng_draws r st)).
Proof. eexists _, _, _. reflexivity. Qed.

Lemma foldl_reply_eq (f : PendingReadIndex → result ReadIndexError N) ps st :
  ∃ rr, foldl (λ st p, reply_read p (f p) st) st ps = with_read_replies rr st.
Proof.
  revert st. induction ps as [|p ps IH]; intros st; simpl.
  - exists (ws_read_replies st). by destruct st.
  - destruct (IH (reply_read p (f p) st)) as [rr ->]. exists rr. by destruct st.
Qed.

Lemma drain_eq st :
  ∃ rr, drain_pending_reads_on_step_down st =
    with_read_replies rr (with_pending_read_index [] st).
Proof. apply foldl_reply_eq. Qed.

(** A filtering pass over the pending reads: replies to some, keeps the rest. *)
Lemma foldl_filter_reads_eq (keep : PendingReadIndex → bool)
    (f : PendingReadIndex → result ReadIndexError N) ps st acc :
  ∃ rr, foldl (λ st p, if keep p
                       then with_pending_read_index (ws_pending_read_index st ++ [p]) st
                       else reply_read p (f p) st)
          (with_pending_read_index acc st) ps =
    with_read_replies rr (with_pending_read_index (acc ++ filter keep ps) st).
Proof.
  revert st acc. induction ps as [|p ps IH]; intros st acc; simpl.
  - exists (ws_read_replies st). rewrite app_nil_r. by destruct st.
  - destruct (keep p) eqn:Hp.
    + destruct (IH st (acc ++ [p])) as [rr Hrr]. exists rr.
      rewrite filter_cons_True by (by rewrite Hp).
      rewrite <- (assoc_L (++)) in Hrr.
      etransitivity; [|exact Hrr]. reflexivity.
    + rewrite filter_cons_False by (rewrite Hp; intros []).
      destruct (IH (reply_read p (f p) st) acc) as [rr Hrr]. exists rr.
      transitivity (with_read_replies rr (with_pending_read_index (acc ++ filter keep ps)
                      (reply_read p (f p) st))); [|by destruct st].
      rewrite <- Hrr. by destruct st.
Qed.

Lemma expire_pending_reads_eq now st :
  ∃ rr, expire_pending_reads now st =
    with_read_replies rr
      (with_pending_read_index
         (filter (λ p, negb (deadline_passed now p)) (ws_pending_read_index st)) st).
Proof.
  unfold expire_pending_reads.
  destruct (foldl_filter_reads_eq (λ p, negb (deadline_passed now p)) (λ _, Err TimedOut)
              (ws_pending_read_index st) st []) as [rr Hrr].
  exists rr. etransitivity; [|exact Hrr]. clear Hrr.
  generalize (with_pending_read_index [] st).
  induction (ws_pending_read_index st) as [|p ps IH]; intros st'; simpl; [done|].
  destruct (deadline_passed now p); apply IH.
Qed.

Lemma try_resolve_pending_reads_eq st :
  ∃ c rr ps, try_resolve_pending_reads st =
    with_read_replies rr (with_pending_read_index ps (with_clock_reads c st)) ∧
    sublist ps (ws_pending_read_index st).
Proof.
  assert (st = with_read_replies (ws_read_replies st)
            (with_pending_read_index (ws_pending_read_index st)
               (with_clock_reads (ws_clock_reads st) st))) as Hid by (by destruct st).
  unfold try_resolve_pending_reads.
  destruct (ws_pending_read_index st) as [|p ps] eqn:Hps.
  { eexists _, _, _. split; [exact Hid|reflexivity]. }
  destruct (match_index_majority_floor st) as [mf|].
  2:{ eexists _, _, _. split; [exact Hid|reflexivity]. }
  unfold clock_now. rewrite <- Hps.
  set (now := ws_clock st (ws_clock_reads st)).
  set (st1 := with_clock_reads (Datatypes.S (ws_clock_reads st)) st).
  destruct (foldl_filter_reads_eq
    (λ p, negb (deadline_passed now p) && negb (pr_required_index p <=? mf))
    (λ p, if deadline_passed now p then Err TimedOut else Ok (pr_required_index p))
    (ws_pending_read_index st) st1 []) as [rr Hrr].
  exists (Datatypes.S (ws_clock_reads st)), rr,
    (filter (λ p, negb (deadline_passed now p) && negb (pr_required_index p <=? mf))
       (ws_pending_read_index st)).
  split; [|apply sublist_filter]. etransitivity; [|exact Hrr]. clear.
  generalize (with_pending_read_index [] st1).
  induction (ws_pending_read_index st) as [|p ps IH]; intros st'; simpl; [done|].
  destruct (deadline_passed now p); [|destruct (pr_required_index p <=? mf)]; apply IH.
Qed.

Lemma rebuild_leader_tracking_eq st :
  ∃ l, rebuild_leader_tracking st = with_leader l st ∧ (is_Some l ↔ is_Some (ws_leader st)).
Proof.
  unfold rebuild_leader_tracking. destruct (ws_leader st) eqn:Hl.
  - eexists (Some _). split; [reflexivity|]. split; eauto.
  - exists None. split; [by destruct st; simpl in *; subst|done].
Qed.

(** ** Writes *)

Lemma commit_Ok b st st' :
  commit b st = (st', Ok ()) →
  ∃ s', st' = with_storage s' st ∧ abs s' = mem_commit_batch (abs (ws_storage st)) b.
Proof.
  unfold commit. destruct (commit_batch (ws_storage st) b) as [s' [[]|e]] eqn:Hc; [|done].
  intros [= <-]. exists s'. split; [done|]. by apply commit_batch_ok.
Qed.

Lemma commit_Err b st st' e :
  commit b st = (st', Err e) →
  ∃ s', st' = with_storage s' st ∧ abs s' = abs (ws_storage st).
Proof.
  unfold commit. destruct (commit_batch (ws_storage st) b) as [s' [[]|e']] eqn:Hc; [done|].
  intros [= <- ?]. exists s'. split; [done|]. by eapply commit_batch_err.
Qed.

(** ** Leaving a role *)

Lemma step_down_eq st :
  ∃ d c r rr, step_down st =
    with_election_deadline d (with_clock_reads c (with_rng_draws r
      (with_read_replies rr (with_pending_read_index [] (with_incoming_snapshot None
        (with_pre_candidate_misses 0 (with_current_term_first_index None (with_leader None
          (with_votes_received ∅ (set_role Follower st)))))))))).
Proof.
  unfold step_down. destruct (drain_eq (with_incoming_snapshot None
        (with_pre_candidate_misses 0 (with_current_term_first_index None (with_leader None
          (with_votes_received ∅ (set_role Follower st))))))) as [rr ->].
  match goal with |- context [reset_election_timer ?x] =>
    destruct (reset_election_timer_eq x) as (d & c & r & ->) end.
  by exists d, c, r, rr.
Qed.

Lemma follow_leader_eq l st :
  ∃ d c r rr hb, follow_leader l st =
    with_seen_leader (Some l) (with_last_heartbeat_received hb
      (with_election_deadline d (with_clock_reads c (with_rng_draws r
        (with_read_replies rr (with_pending_read_index
          (if bool_decide (ws_role st = Leader) then [] else ws_pending_read_index st)
            (with_current_term_first_index None (with_leader None
              (with_votes_received ∅ (set_role Follower st)))))))))).
Proof.
  unfold follow_leader. set (st1 := with_current_term_first_index None _).
  assert (∃ rr, (if bool_decide (ws_role st = Leader)
                 then drain_pending_reads_on_step_down st1 else st1) =
            with_read_replies rr (with_pending_read_index
              (if bool_decide (ws_role st = Leader) then [] else ws_pending_read_index st) st1))
    as [rr ->].
  { case_bool_decide; [apply drain_eq|]. by exists (ws_read_replies st1). }
  match goal with |- context [reset_election_timer ?x] =>
    destruct (reset_election_timer_eq x) as (d & c & r & ->) end.
  by eexists d, _, r, rr, _.
Qed.

(** ** The invariant of a replica *)

Record node_inv st : Prop := {
  ni_meta : mem_meta (abs (ws_storage st)) = ws_meta st;
  ni_role_atomic : ws_role_atomic st = as_u8 (ws_role st);
  ni_leader : is_Some (ws_leader st) ↔ ws_role st = Leader;
  ni_first : is_Some (ws_current_term_first_index st) ↔ ws_role st = Leader;
  ni_hint : ws_role st = Leader → ws_seen_leader st = Some (cfg_me (ws_cfg st));
  ni_reads : ws_role st ≠ Leader → ws_pending_read_index st = [];
  ni_reads_bound : N.of_nat (length (ws_pending_read_index st)) ≤ max_pending_reads (ws_cfg st);
  ni_buffer b : ws_incoming_snapshot st = Some b → max_snapshot_bytes (ws_cfg st) < u64_max →
    N.of_nat (length (in_buffer b)) ≤ max_snapshot_bytes (ws_cfg st);
  ni_joint : is_Some (ws_pending_joint_entry st) → is_joint (ws_effective_cfg st) = true;
}.

(** A step that leaves term and vote alone, and the role too unless it steps
    down. *)
Record quiet st st' : Prop := {
  q_cfg : ws_cfg st' = ws_cfg st;
  q_term : current_term (ws_meta st') = current_term (ws_meta st);
  q_vote : voted_for (ws_meta st') = voted_for (ws_meta st);
  q_commit : commit_index (ws_meta st) ≤ commit_index (ws_meta st');
  q_inv : node_inv st → node_inv st';
  q_role : ws_role st' = ws_role st ∧ ws_votes_received st' = ws_votes_received st ∨
           ws_role st' = Follower;
}.

#[export] Instance quiet_preorder : PreOrder quiet.
Proof.
  split.
  - intros st. split; auto; lia.
  - intros st1 st2 st3 [] []. split; try congruence; try lia; try tauto.
    destruct q_role0 as [[??]|?], q_role1 as [[??]|?]; (left; split; congruence) || (right; congruence).
Qed.

(** Proves [quiet] between a state and field updates of it. *)
Local Ltac quiet_fields :=
  split; simpl; try done; try lia; try (intros []; split; simpl in *; (done || tauto || idtac));
  try (left; done); try (right; done).

Lemma quiet_clock_reads c st : quiet st (with_clock_reads c st).
Proof. quiet_fields. Qed.
Lemma quiet_election_deadline d st : quiet st (with_election_deadline d st).
Proof. quiet_fields. Qed.
Lemma quiet_apply_sink l st : quiet st (with_apply_sink l st).
Proof. quiet_fields. Qed.
Lemma quiet_status x st : quiet st (with_status x st).
Proof. quiet_fields. Qed.
Lemma quiet_misses n st : quiet st (with_pre_candidate_misses n st).
Proof. quiet_fields. Qed.
Lemma quiet_read_replies l st : quiet st (with_read_replies l st).
Proof. quiet_fields. Qed.
Lemma quiet_active_config_index i st : quiet st (with_active_config_index i st).
Proof. quiet_fields. Qed.
Lemma quiet_no_incoming st : quiet st (with_incoming_snapshot None st).
Proof. quiet_fields. Qed.
Lemma quiet_no_joint_entry st : quiet st (with_pending_joint_entry None st).
Proof. quiet_fields. Qed.

Lemma quiet_reset_election_timer st : quiet st (reset_election_timer st).
Proof. destruct (reset_election_timer_eq st) as (d & c & r & ->). quiet_fields. Qed.

Lemma quiet_leader l st :
  is_Some l → is_Some (ws_leader st) → quiet st (with_leader l st).
Proof. intros Hl Hs. quiet_fields. Qed.

Lemma quiet_active active idx pending st :
  (is_Some pending → is_joint active = true) →
  quiet st (with_pending_joint_entry pending
             (with_active_config_index idx (with_effective_cfg active st))).
Proof. intros ?. quiet_fields. Qed.

Lemma quiet_reads ps st :
  sublist ps (ws_pending_read_index st) → quiet st (with_pending_read_index ps st).
Proof.
  intros Hps. quiet_fields.
  - intros Hr. apply ni_reads0 in Hr. rewrite Hr in Hps. by apply sublist_nil_r in Hps.
  - apply sublist_length in Hps. lia.
Qed.

Lemma quiet_step_down st : quiet st (step_down st).
Proof.
  destruct (step_down_eq st) as (d & c & r & rr & ->). quiet_fields; try (by split; intros []).
  lia.
Qed.

Lemma quiet_rebuild st : quiet st (rebuild_leader_tracking st).
Proof.
  destruct (rebuild_leader_tracking_eq st) as (l & -> & Hl). quiet_fields.
Qed.

Lemma quiet_expire now st : quiet st (expire_pending_reads now st).
Proof.
  destruct (expire_pending_reads_eq now st) as (rr & ->).
  etransitivity; [|apply quiet_read_replies]. apply quiet_reads, sublist_filter.
Qed.

Lemma quiet_try_resolve st : quiet st (try_resolve_pending_reads st).
Proof.
  destruct (try_resolve_pending_reads_eq st) as (c & rr & ps & -> & Hps).
  etransitivity; [|apply quiet_read_replies]. etransitivity; [|by apply quiet_reads].
  apply quiet_clock_reads.
Qed.

(** A failed write, and a write that leaves the scalars alone. *)
Lemma quiet_commit_err b st st' e : commit b st = (st', Err e) → quiet st st'.
Proof.
  intros Hc. apply commit_Err in Hc as (s' & -> & Habs). quiet_fields. congruence.
Qed.

Lemma quiet_commit b st st' r :
  commit b st = (st', r) →
  wb_meta b = None → wb_compact_to b = None → quiet st st'.
Proof.
  intros Hc Hm Hk. destruct r as [[]|e]; [|by eapply quiet_commit_err].
  apply commit_Ok in Hc as (s' & -> & Habs). quiet_fields.
  rewrite Habs. unfold mem_commit_batch. rewrite Hm, Hk. by destruct (wb_state b).
Qed.

(** A write of new scalars, with the in-memory copy updated first: either both
    take effect, or the caller restores the copy. *)
Lemma quiet_commit_meta m b st st' :
  commit b (with_meta m st) = (st', Ok ()) → wb_meta b = Some m →
  current_term m = current_term (ws_meta st) → voted_for m = voted_for (ws_meta st) →
  commit_index (ws_meta st) ≤ commit_index m → quiet st st'.
Proof.
  intros Hc Hm ???. apply commit_Ok in Hc as (s' & -> & Habs). quiet_fields.
  rewrite Habs. unfold mem_commit_batch. rewrite Hm.
  by destruct (wb_compact_to b) as [[]|], (wb_state b).
Qed.

Lemma quiet_commit_rollback m m' b st st' e :
  commit b (with_meta m st) = (st', Err e) → m' = ws_meta st → quiet st (with_meta m' st').
Proof.
  intros Hc ->. apply commit_Err in Hc as (s' & -> & Habs). quiet_fields. simpl in *. congruence.
Qed.

#[local] Hint Resolve quiet_clock_reads quiet_election_deadline quiet_apply_sink quiet_status
  quiet_misses quiet_read_replies quiet_active_config_index quiet_no_incoming
  quiet_no_joint_entry quiet_reset_election_timer quiet_step_down quiet_rebuild quiet_expire
  quiet_try_resolve quiet_commit quiet_commit_meta quiet_commit_rollback : quiet.
Local Ltac quiet_chain := repeat (etransitivity; [|solve [eauto with quiet]]); try reflexivity; try eassumption.

(** ** Quiet operations *)

Lemma quiet_auto_finalize st : quiet st (auto_finalize_joint_config st).1.
Proof.
  unfold auto_finalize_joint_config. case_match; [done|].
  destruct (ws_pending_joint_entry st) as [idx|]; [|done]. case_match; [done|].
  destruct (commit _ st) as [st1 [[]|e]] eqn:Hc; simpl; [|by eapply quiet_commit].
  assert (quiet st (rebuild_leader_tracking (with_active_config_index
    (Some (last_index (ws_storage st) ⊞ 1)) (with_pending_joint_entry None
      (with_effective_cfg (steady (ac_current (ws_effective_cfg st))) st1))))).
  { etransitivity; [by eapply quiet_commit|]. etransitivity; [|apply quiet_rebuild].
    refine (quiet_active (steady _) (Some _) None st1 _). by intros []. }
  case_match; quiet_chain.
Qed.

Lemma quiet_try_advance st : quiet st (try_advance_commit_index st).1.
Proof.
  unfold try_advance_commit_index. destruct (match_index_majority_floor st) as [mf|]; [|done].
  destruct (N.leb_spec mf (commit_index (ws_meta st))) as [|Hlt]; [done|].
  destruct (term_at _ mf); [|done]. case_match; [done|].
  destruct (commit _ _) as [st1 [[]|e]] eqn:Hc; simpl.
  - etransitivity; [|apply quiet_auto_finalize]. etransitivity; [|apply quiet_apply_sink].
    eapply quiet_commit_meta; [exact Hc|done..|simpl; lia].
  - eapply quiet_commit_rollback; [exact Hc|].
    apply commit_Err in Hc as (s' & -> & _). simpl. by destruct (ws_meta st).
Qed.

Lemma quiet_try_compact st : quiet st (try_compact st).1.
Proof.
  unfold try_compact. destruct (ws_leader st); [|done].
  destruct (match_index_majority_floor st); [|done].
  destruct (applied_index _); [|done]. case_match; [done|].
  destruct (term_at _ _) as [[t|]|]; [|done..].
  destruct (commit _ _) as [st1 [[]|e]] eqn:Hc; simpl.
  - eapply quiet_commit_meta; [exact Hc|done..].
  - eapply quiet_commit_rollback; [exact Hc|].
    apply commit_Err in Hc as (s' & -> & _). simpl. by destruct (ws_meta st).
Qed.

Lemma quiet_send_install_chunk peer pending st :
  quiet st (send_install_chunk peer pending st).1.
Proof.
  unfold send_install_chunk. destruct (ws_leader st) as [l|] eqn:Hl;
    simpl; repeat case_match; simpl; try done; apply quiet_leader; rewrite ?Hl; eauto.
Qed.

Lemma quiet_send_heartbeat_to l peer pending st :
  quiet st (send_heartbeat_to l peer pending st).1.1.
Proof.
  unfold send_heartbeat_to. case_match.
  - pose proof (quiet_send_install_chunk peer pending st). by case_match.
  - destruct (term_at _ _); [|done]. by case_match.
Qed.

Lemma quiet_send_heartbeats_loop l peers pending st :
  quiet st (send_heartbeats_loop l peers pending st).1.1.
Proof.
  revert pending st. induction peers as [|p peers IH]; intros pending st; simpl; [done|].
  destruct (decide _); [apply IH|].
  pose proof (quiet_send_heartbeat_to l p pending st).
  destruct (send_heartbeat_to l p pending st) as [[st1 pending1] [[]|e]]; simpl in *; [|done].
  etransitivity; [eassumption|apply IH].
Qed.

Lemma quiet_send_heartbeats pending st : quiet st (send_heartbeats pending st).1.1.
Proof.
  unfold send_heartbeats. destruct (ws_leader st) as [l|]; [|done].
  pose proof (quiet_send_heartbeats_loop l (all_members (ws_effective_cfg st)) pending st).
  destruct (send_heartbeats_loop _ _ _ _) as [[st1 pending1] [[]|e]]; simpl in *; [|done].
  pose proof (quiet_try_compact st1). destruct (try_compact st1) as [st2 r]; simpl in *.
  quiet_chain.
Qed.

(** ** Steps that may change term, vote or role *)

(** How one event may move the role.  [grant from t] says that the event is a
    vote granted by [from] at term [t]. *)
Inductive role_trans (grant : NID → N → Prop) st st' : Prop :=
| rt_same :
    ws_role st' = ws_role st → current_term (ws_meta st') = current_term (ws_meta st) →
    ws_votes_received st' = ws_votes_received st → role_trans grant st st'
| rt_follower : ws_role st' = Follower → role_trans grant st st'
| rt_pre_candidate :
    ws_role st' = PreCandidate → pre_vote (ws_cfg st) = true ∨ ws_role st = PreCandidate →
    role_trans grant st st'
| rt_promoted :
    ws_role st = PreCandidate → ws_role st' = Candidate → role_trans grant st st'
| rt_candidate :
    ws_role st' = Candidate → ws_votes_received st' = {[ cfg_me (ws_cfg st) ]} →
    voted_for (ws_meta st') = Some (cfg_me (ws_cfg st)) → role_trans grant st st'
| rt_vote from :
    grant from (current_term (ws_meta st')) → ws_role st = Candidate →
    ws_role st' = Candidate → current_term (ws_meta st') = current_term (ws_meta st) →
    ws_votes_received st' = {[ from ]} ∪ ws_votes_received st → role_trans grant st st'
| rt_elected (V : gset NID) :
    ws_role st' = Leader →
    quorum_holds (ws_effective_cfg st) (λ m, bool_decide (m ∈ V)) = true →
    (V = {[ cfg_me (ws_cfg st) ]} ∧ voted_for (ws_meta st') = Some (cfg_me (ws_cfg st)) ∨
     ∃ from, grant from (current_term (ws_meta st')) ∧ ws_role st = Candidate ∧
       current_term (ws_meta st') = current_term (ws_meta st) ∧
       V = {[ from ]} ∪ ws_votes_received st) →
    role_trans grant st st'.

(** What one event guarantees, whatever it is.  A candidacy in the last term of
    [u64] wraps around to term 0, so that the term grows only below it. *)
Record step_ok (grant : NID → N → Prop) st st' : Prop := {
  so_cfg : ws_cfg st' = ws_cfg st;
  so_term : current_term (ws_meta st) < u64_max → current_term (ws_meta st) ≤ current_term (ws_meta st');
  so_vote v : current_term (ws_meta st) < u64_max → current_term (ws_meta st') = current_term (ws_meta st) →
    voted_for (ws_meta st) = Some v → voted_for (ws_meta st') = Some v;
  so_commit : commit_index (ws_meta st) ≤ commit_index (ws_meta st');
  so_inv : node_inv st → node_inv st';
  so_role : role_trans grant st st';
}.

Lemma step_ok_quiet_r G st1 st2 st3 : step_ok G st1 st2 → quiet st2 st3 → step_ok G st1 st3.
Proof.
  intros [Hc Ht Hv Hm Hi Hr] [Hc' Ht' Hv' Hm' Hi' [[Hr' Hs']|Hr']].
  - split; [congruence|rewrite Ht'; exact Ht|intros; rewrite Hv'; apply Hv; congruence|lia|tauto|].
    destruct Hr.
    + apply rt_same; congruence.
    + apply rt_follower; congruence.
    + apply rt_pre_candidate; [congruence|done].
    + apply rt_promoted; congruence.
    + apply rt_candidate; congruence.
    + eapply (rt_vote _ _ _ from); congruence.
    + eapply (rt_elected _ _ _ V); [congruence|done|]. rewrite Hv', Ht'. done.
  - split; [congruence|rewrite Ht'; exact Ht|intros; rewrite Hv'; apply Hv; congruence|lia|tauto|].
    by apply rt_follower.
Qed.

(** Steps before the transition that leave everything it looks at alone. *)
Lemma step_ok_frame_l G st1 st2 st3 :
  ws_cfg st2 = ws_cfg st1 → ws_meta st2 = ws_meta st1 → ws_role st2 = ws_role st1 →
  ws_votes_received st2 = ws_votes_received st1 →
  ws_effective_cfg st2 = ws_effective_cfg st1 → (node_inv st1 → node_inv st2) →
  step_ok G st2 st3 → step_ok G st1 st3.
Proof.
  intros Hc Hm Hr Hv He Hi [Hc' Ht Hv' Hm' Hi' Hr']. rewrite Hm in *. rewrite Hc in *.
  split; auto. destruct Hr'; rewrite ?Hm, ?Hr, ?Hv, ?He, ?Hc in *.
  - by apply rt_same.
  - by apply rt_follower.
  - by apply rt_pre_candidate.
  - by apply rt_promoted.
  - by apply rt_candidate.
  - by apply (rt_vote _ _ _ from).
  - by apply (rt_elected _ _ _ V).
Qed.

Lemma quiet_step_ok G st st' : quiet st st' → step_ok G st st'.
Proof.
  intros Hq. eapply step_ok_quiet_r; [|exact Hq].
  split; auto; try lia. by apply rt_same.
Qed.

(** Proves [step_ok] between a state and field updates of it. *)
Local Ltac step_fields :=
  split; simpl; try done; try lia; try (intros; lia);
  try (intros []; split; simpl in *;
       (done || tauto || lia || (by split; intros []) || (by split; eauto) ||
        (by split; [intros; exfalso; intuition congruence|]) ||
        match goal with
        | H : abs ?s = mem_commit_batch _ _ |- mem_meta (abs ?s) = _ => by rewrite H
        | _ => idtac
        end)).

Lemma step_ok_adopt_higher_term G t st :
  current_term (ws_meta st) < t → step_ok G st (adopt_higher_term t st).1.
Proof.
  intros Ht. unfold adopt_higher_term, persist_term_bump.
  destruct (commit _ st) as [st1 [[]|e]] eqn:Hc; simpl.
  2:{ apply quiet_step_ok. by eapply quiet_commit_err. }
  apply commit_Ok in Hc as (s' & -> & Habs).
  destruct (step_down_eq (with_meta (meta_set_term t None (ws_meta st)) (with_storage s' st)))
    as (d & c & r & rr & ->).
  step_fields. by apply rt_follower.
Qed.

Lemma step_ok_append_response G from resp st :
  step_ok G st (handle_append_response from resp st).1.
Proof.
  unfold handle_append_response. destruct (N.ltb_spec (current_term (ws_meta st)) (aer_term resp)).
  { by apply step_ok_adopt_higher_term. }
  apply quiet_step_ok. case_match; [done|].
  destruct (ws_leader st) as [l|] eqn:Hl; [|done].
  destruct (aer_success resp); [|apply quiet_leader; rewrite ?Hl; eauto].
  match goal with |- context [try_advance_commit_index ?x] => set (st1 := x) end.
  assert (quiet st st1) by (apply quiet_leader; rewrite ?Hl; eauto).
  pose proof (quiet_try_advance st1).
  destruct (try_advance_commit_index st1) as [st2 [[]|e]]; simpl in *; quiet_chain.
Qed.

Lemma step_ok_install_response G from resp i t off fin st :
  step_ok G st (handle_install_snapshot_response from resp i t off fin st).1.
Proof.
  unfold handle_install_snapshot_response.
  destruct (N.ltb_spec (current_term (ws_meta st)) (isr_term resp)).
  { by apply step_ok_adopt_higher_term. }
  apply quiet_step_ok. case_match; [done|].
  destruct (ws_leader st) as [l|] eqn:Hl; [|done]. apply quiet_leader; rewrite ?Hl; eauto.
Qed.

(** Winning an election, up to quiet steps. *)
Definition elected st (s' : S) (l : LeaderState NID) (i : N) : WorkerState NID S :=
  with_current_term_first_index (Some i) (with_seen_leader (Some (cfg_me (ws_cfg st)))
    (with_leader (Some l) (with_votes_received ∅ (set_role Leader (with_storage s' st))))).

Lemma become_leader_cases st st' r :
  become_leader_no_heartbeat st = (st', r) →
  (∃ e, r = Err e) ∧ quiet st st' ∨
  r = Ok () ∧ ∃ s' l i, mem_meta (abs s') = mem_meta (abs (ws_storage st)) ∧
    quiet (elected st s' l i) st'.
Proof.
  unfold become_leader_no_heartbeat.
  destruct (commit _ st) as [st1 [[]|e]] eqn:Hc.
  2:{ intros [= <- <-]. left. split; [eauto|]. by eapply quiet_commit_err. }
  apply commit_Ok in Hc as (s' & -> & Habs).
  match goal with |- context [try_advance_commit_index ?x] => pose proof (quiet_try_advance x) end.
  case_match. intros [= <- <-]. right. split; [done|].
  eexists s', _, _. split; [|eassumption]. by rewrite Habs.
Qed.

Lemma elected_inv st s' l i :
  node_inv st → mem_meta (abs s') = mem_meta (abs (ws_storage st)) →
  node_inv (elected st s' l i).
Proof. intros [] Hs. split; simpl; try done; try congruence; eauto. Qed.

(** From any state that a candidate reaches, up to the moment it wins. *)
Lemma step_ok_elected G st st1 s' l i V :
  step_ok G st st1 → mem_meta (abs s') = mem_meta (abs (ws_storage st1)) →
  quorum_holds (ws_effective_cfg st) (λ m, bool_decide (m ∈ V)) = true →
  (V = {[ cfg_me (ws_cfg st) ]} ∧ voted_for (ws_meta st1) = Some (cfg_me (ws_cfg st)) ∨
   ∃ from, G from (current_term (ws_meta st1)) ∧ ws_role st = Candidate ∧
     current_term (ws_meta st1) = current_term (ws_meta st) ∧
     V = {[ from ]} ∪ ws_votes_received st) →
  step_ok G st (elected st1 s' l i).
Proof.
  intros [] Hs HV Hcase. split; simpl; try done.
  - intros Hi. by apply elected_inv; [apply so_inv0|].
  - by apply (rt_elected _ _ _ V).
Qed.

Lemma step_ok_start_election G pending st :
  ws_role st ≠ Leader → step_ok G st (start_election pending st).1.1.
Proof.
  intros Hr. unfold start_election. case_match.
  { apply quiet_step_ok, quiet_reset_election_timer. }
  destruct (commit _ _) as [st1 [[]|e]] eqn:Hc.
  2:{ apply commit_Err in Hc as (s' & -> & Habs). simpl. step_fields.
      - simpl in *. rewrite Habs. by destruct (ws_meta st).
      - by apply rt_follower. }
  apply commit_Ok in Hc as (s' & -> & Habs). simpl in Habs.
  set (st2 := with_votes_received _ _).
  assert (step_ok G st st2) as Hok.
  { step_fields; [intros Ht; rewrite wrapping_add64_small by lia; lia| |by apply rt_candidate].
    intros v Ht. rewrite wrapping_add64_small by lia. lia. }
  destruct (votes_quorum st2) eqn:Hq; cbv zeta.
  2:{ eapply step_ok_quiet_r; [exact Hok|apply quiet_reset_election_timer]. }
  destruct (become_leader_no_heartbeat st2) as [st3 r] eqn:Hb.
  apply become_leader_cases in Hb as [[[e ->] Hq']|(-> & s2 & l & i & Hs & Hq')]; simpl.
  { by eapply step_ok_quiet_r. }
  eapply step_ok_quiet_r; [|by quiet_chain].
  eapply step_ok_elected; [exact Hok|exact Hs|exact Hq|]. by left.
Qed.

Lemma step_ok_start_pre_election G pending st :
  ws_role st ≠ Leader → pre_vote (ws_cfg st) = true ∨ ws_role st = PreCandidate →
  step_ok G st (start_pre_election pending st).1.1.
Proof.
  intros Hr Hp. unfold start_pre_election. case_match.
  { apply quiet_step_ok, quiet_reset_election_timer. }
  case_match; [by apply step_ok_start_election|].
  eapply step_ok_quiet_r; [|apply quiet_reset_election_timer].
  step_fields. by apply rt_pre_candidate.
Qed.

Lemma step_ok_vote_response G from resp st :
  (rvr_vote_granted resp = true → G from (rvr_term resp)) →
  step_ok G st (handle_vote_response from resp st).1.
Proof.
  intros HG. unfold handle_vote_response.
  destruct (N.ltb_spec (current_term (ws_meta st)) (rvr_term resp)).
  { by apply step_ok_adopt_higher_term. }
  destruct (bool_decide_reflect (ws_role st = Candidate)) as [Hrole|]; simpl.
  2:{ by apply quiet_step_ok. }
  destruct (N.eqb_spec (rvr_term resp) (current_term (ws_meta st))) as [Ht|]; simpl.
  2:{ by apply quiet_step_ok. }
  destruct (rvr_vote_granted resp); [|by apply quiet_step_ok].
  case_match; [by apply quiet_step_ok|]. specialize (HG eq_refl). rewrite Ht in HG.
  set (st2 := with_votes_received _ _).
  assert (step_ok G st st2) as Hok.
  { step_fields. by apply (rt_vote _ _ _ from). }
  destruct (votes_quorum st2) eqn:Hq; [|done].
  destruct (become_leader_no_heartbeat st2) as [st3 r] eqn:Hb.
  apply become_leader_cases in Hb as [[[e ->] Hq']|(-> & s2 & l & i & Hs & Hq')]; simpl.
  { by eapply step_ok_quiet_r. }
  eapply step_ok_quiet_r; [|by quiet_chain].
  eapply step_ok_elected; [exact Hok|exact Hs|exact Hq|]. right. by exists from.
Qed.

Lemma step_ok_prevote_response G from t resp st :
  step_ok G st (handle_prevote_response from t resp st).1.
Proof.
  unfold handle_prevote_response.
  destruct (N.ltb_spec (current_term (ws_meta st)) (pvr_term resp)).
  { by apply step_ok_adopt_higher_term. }
  destruct (bool_decide_reflect (ws_role st = PreCandidate)) as [Hrole|]; simpl.
  2:{ by apply quiet_step_ok. }
  assert (ws_role st ≠ Leader) by congruence. case_match; [by apply quiet_step_ok|].
  destruct (pvr_vote_granted resp); [|by apply quiet_step_ok].
  case_match; [by apply quiet_step_ok|].
  case_match; simpl.
  - step_fields; by apply rt_promoted.
  - step_fields. apply rt_pre_candidate; simpl; auto.
Qed.

Lemma step_ok_propose G payload st : step_ok G st (handle_propose payload st).1.
Proof.
  apply quiet_step_ok. unfold handle_propose. case_match; [done|].
  destruct (commit _ st) as [st1 [[]|e]] eqn:Hc; simpl; [|by eapply quiet_commit_err].
  pose proof (quiet_try_advance st1). destruct (try_advance_commit_index st1); simpl in *.
  by etransitivity; [eapply quiet_commit|].
Qed.

Lemma step_ok_change_membership G members st :
  step_ok G st (handle_change_membership members st).1.
Proof.
  apply quiet_step_ok. unfold handle_change_membership. case_match; [done|].
  case_match; [done|]. destruct members as [|m ms]; [done|].
  destruct (commit _ st) as [st1 [[]|e]] eqn:Hc; simpl; [|by eapply quiet_commit_err].
  match goal with |- context [try_advance_commit_index ?x] =>
    pose proof (quiet_try_advance x); destruct (try_advance_commit_index x); simpl in * end.
  etransitivity; [by eapply quiet_commit|]. etransitivity; [|eassumption].
  etransitivity; [|apply quiet_rebuild].
  by refine (quiet_active (mkActive _ _) (Some _) (Some _) st1 _).
Qed.

Lemma step_ok_read_index G timeout reply pending st :
  step_ok G st (handle_read_index timeout reply pending st).1.
Proof.
  apply quiet_step_ok. unfold handle_read_index.
  destruct (bool_decide_reflect (ws_role st = Leader)) as [Hr|]; simpl;
    [|apply quiet_read_replies].
  case_match; [apply quiet_read_replies|].
  destruct (N.leb_spec (max_pending_reads (ws_cfg st))
              (N.of_nat (length (ws_pending_read_index st)))); [apply quiet_read_replies|].
  destruct timeout; simpl;
    (match goal with |- context [send_heartbeats ?p ?x] =>
      pose proof (quiet_send_heartbeats p x); destruct (send_heartbeats p x) as [[]]; simpl in * end;
     etransitivity; [|eassumption]; quiet_fields; rewrite length_app; simpl; lia).
Qed.

Lemma step_ok_request_prevote G from req st :
  step_ok G st (handle_request_prevote from req st).1.
Proof.
  apply quiet_step_ok. unfold handle_request_prevote. case_match; [done|].
  simpl. repeat case_match; simpl; quiet_chain.
Qed.

Lemma step_ok_request_vote G from req st :
  step_ok G st (handle_request_vote from req st).1.
Proof.
  unfold handle_request_vote.
  destruct (N.ltb_spec (rv_term req) (current_term (ws_meta st))); [by apply quiet_step_ok|].
  destruct (N.ltb_spec (current_term (ws_meta st)) (rv_term req)) as [Hlt|Hge].
  - match goal with |- context [step_down ?x] =>
      destruct (step_down_eq x) as (d & c & r & rr & ->) end.
    simpl. set (granted := up_to_date _ _ _). destruct granted; simpl.
    + match goal with |- context [reset_election_timer ?x] =>
        destruct (reset_election_timer_eq x) as (d1 & c1 & r1 & ->) end.
      destruct (commit _ _) as [st1 [[]|e]] eqn:Hc; simpl.
      * apply commit_Ok in Hc as (s' & -> & Habs). step_fields. by apply rt_follower.
      * apply commit_Err in Hc as (s' & -> & Habs). step_fields; [congruence|by apply rt_follower].
    + destruct (commit _ _) as [st1 [[]|e]] eqn:Hc; simpl.
      * apply commit_Ok in Hc as (s' & -> & Habs). step_fields. by apply rt_follower.
      * apply commit_Err in Hc as (s' & -> & Habs). step_fields; [congruence|by apply rt_follower].
  - simpl. destruct (negb _ && _) eqn:Hg; simpl; [|by apply quiet_step_ok].
    match goal with |- context [reset_election_timer ?x] =>
      destruct (reset_election_timer_eq x) as (d1 & c1 & r1 & ->) end.
    destruct (commit _ _) as [st1 [[]|e]] eqn:Hc; simpl.
    + apply commit_Ok in Hc as (s' & -> & Habs). step_fields; [|by apply rt_same].
      intros v _ _ Hv. rewrite Hv in Hg. simpl in Hg. by case_bool_decide; simplify_eq.
    + apply commit_Err in Hc as (s' & -> & Habs). step_fields; [congruence|by apply rt_same].
Qed.

(** Following a leader with the scalars [m'] written. *)
Lemma step_ok_followed G l h m s' m' st :
  (node_inv st → mem_meta (abs s') = m') →
  current_term (ws_meta st) ≤ current_term m' →
  (current_term m' = current_term (ws_meta st) → voted_for m' = voted_for (ws_meta st)) →
  commit_index (ws_meta st) ≤ commit_index m' →
  step_ok G st (with_storage s' (with_meta m'
    (follow_leader l (with_seen_leader h (with_meta m st))))).
Proof.
  intros Hs Ht Hv Hc.
  destruct (follow_leader_eq l (with_seen_leader h (with_meta m st)))
    as (d & c & r & rr & hb & ->).
  split; simpl; try done; try (by apply rt_follower).
  2:{ intros Hi. specialize (Hs Hi). destruct Hi. split; simpl; try done; try (by split; intros []).
      - intros _. case_bool_decide; auto.
      - case_bool_decide; simpl; lia. }
  intros v _ Heq Hv'. rewrite Hv; congruence.
Qed.

Lemma with_meta_id st : with_meta (ws_meta st) st = st.
Proof. by destruct st. Qed.
Lemma with_storage_id st : with_storage (ws_storage st) st = st.
Proof. by destruct st. Qed.
Lemma with_meta_meta m m' st : with_meta m (with_meta m' st) = with_meta m st.
Proof. by destruct st. Qed.
Lemma with_meta_storage_meta m m' s' st :
  with_meta m (with_storage s' (with_meta m' st)) = with_storage s' (with_meta m st).
Proof. by destruct st. Qed.
(** The view an append leaves in force is joint whenever it has a pending
    entry. *)
Lemma append_active_view_joint st req ta es rec active idx pending :
  append_active_view st req ta es = Ok (Some (rec, (active, idx, pending))) →
  is_Some pending → is_joint active = true.
Proof.
  unfold append_active_view, record_of. intros Hv [i ->].
  repeat (case_match; simplify_eq); auto.
Qed.

(** A state that follows leader [l], with scalars [m], over the storage [st] had. *)
Definition following (l : NID) (h : option NID) (m0 m : Meta NID) st : WorkerState NID S :=
  with_meta m (follow_leader l (with_seen_leader h (with_meta m0 st))).

Lemma following_eq l h m0 m st :
  ws_storage (following l h m0 m st) = ws_storage st ∧ ws_meta (following l h m0 m st) = m ∧
  ws_cfg (following l h m0 m st) = ws_cfg st ∧
  ws_effective_cfg (following l h m0 m st) = ws_effective_cfg st ∧
  ws_active_config_index (following l h m0 m st) = ws_active_config_index st ∧
  ws_incoming_snapshot (following l h m0 m st) = ws_incoming_snapshot st.
Proof.
  unfold following.
  destruct (follow_leader_eq l (with_seen_leader h (with_meta m0 st)))
    as (d & c & r & rr & hb & ->). done.
Qed.

Lemma step_ok_following_err G l h m0 m b e st st' :
  commit b (following l h m0 m st) = (st', Err e) → step_ok G st (with_meta (ws_meta st) st').
Proof.
  intros Hc. apply commit_Err in Hc as (s' & -> & Habs).
  unfold following. rewrite with_meta_storage_meta. apply step_ok_followed; [|done..].
  intros Hi. rewrite Habs, (proj1 (following_eq l h m0 m st)). apply Hi.
Qed.

Lemma follow_as_following l h m0 st :
  follow_leader l (with_seen_leader h (with_meta m0 st)) = following l h m0 m0 st.
Proof.
  unfold following. destruct (follow_leader_eq l (with_seen_leader h (with_meta m0 st)))
    as (d & c & r & rr & hb & ->). done.
Qed.

Lemma following_set_meta l h m0 m m' st :
  with_meta m' (following l h m0 m st) = following l h m0 m' st.
Proof. apply with_meta_meta. Qed.

Lemma step_ok_following_restore G l h m0 m st :
  step_ok G st (with_meta (ws_meta st) (following l h m0 m st)).
Proof.
  rewrite following_set_meta, <- (with_storage_id (following l h m0 (ws_meta st) st)).
  unfold following at 2. apply step_ok_followed; [|done..]. intros Hi. rewrite (proj1 (following_eq _ _ _ _ _)).
  apply Hi.
Qed.

Lemma step_ok_following_ok G l h m0 m b st st' :
  commit b (following l h m0 m st) = (st', Ok ()) → wb_meta b = Some m →
  current_term (ws_meta st) ≤ current_term m →
  (current_term m = current_term (ws_meta st) → voted_for m = voted_for (ws_meta st)) →
  commit_index (ws_meta st) ≤ commit_index m → step_ok G st st'.
Proof.
  intros Hc Hm Ht Hv Hci. apply commit_Ok in Hc as (s' & -> & Habs).
  unfold following. apply step_ok_followed; [|done..]. intros _. rewrite Habs. unfold mem_commit_batch.
  rewrite Hm. by destruct (wb_compact_to b) as [[]|], (wb_state b).
Qed.

(** The scalars after adopting an equal or higher term [t]. *)
Definition adopted (t : N) (m : Meta NID) : Meta NID :=
  if current_term m <? t then meta_set_term t None m else m.

Lemma adopted_spec t m :
  current_term m ≤ t →
  current_term (adopted t m) = t ∧ commit_index (adopted t m) = commit_index m ∧
  (current_term m = t → adopted t m = m).
Proof.
  intros Ht. unfold adopted. destruct (N.ltb_spec (current_term m) t); simpl;
    repeat split; intros; try lia.
Qed.

Lemma step_ok_append_entries G from req st :
  step_ok G st (handle_append_entries from req st).1.
Proof.
  unfold handle_append_entries, append_to_log.
  destruct (N.ltb_spec (ae_term req) (current_term (ws_meta st))) as [|Hle];
    [by apply quiet_step_ok|].
  assert (∃ h, (if current_term (ws_meta st) <? ae_term req
            then with_seen_leader None (with_meta (meta_set_term (ae_term req) None (ws_meta st)) st)
            else st) = with_seen_leader h (with_meta (adopted (ae_term req) (ws_meta st)) st))
    as [h ->].
  { unfold adopted. case_match; [by exists None|]. exists (ws_seen_leader st). by destruct st. }
  destruct (adopted_spec (ae_term req) (ws_meta st) Hle) as (Ht & Hci & Hsame).
  set (m := adopted _ _) in *. cbv zeta. rewrite follow_as_following.
  destruct (following_eq (ae_leader req) h m m st) as (Hs & Hm & _). rewrite Hs, Hm.
  assert (current_term m = current_term (ws_meta st) → voted_for m = voted_for (ws_meta st)).
  { intros. rewrite Hsame; congruence. }
  destruct (term_at _ _) as [pt|]; [|apply step_ok_following_restore].
  case_match.
  { destruct (commit _ _) as [st1 [[]|e]] eqn:Hc; simpl.
    - eapply step_ok_following_ok; [exact Hc|done|lia|done|lia].
    - by eapply step_ok_following_err. }
  destruct (scan_entries _ _ _) as [[ca ap]|]; [|apply step_ok_following_restore].
  set (adv := _ && _). set (nc := N.min _ _).
  assert (∃ m', (if adv then with_meta (meta_set_commit nc m) (following (ae_leader req) h m m st)
                 else following (ae_leader req) h m m st) = following (ae_leader req) h m m' st ∧
            current_term m' = current_term m ∧ voted_for m' = voted_for m ∧
            commit_index m ≤ commit_index m') as (m' & -> & Ht' & Hv' & Hc').
  { destruct adv eqn:Hadv; [|by exists m]. exists (meta_set_commit nc m).
    apply andb_prop in Hadv as [_ Hlt%N.ltb_lt]. split; [apply following_set_meta|]. simpl. split_and!; auto. lia. }
  destruct (following_eq (ae_leader req) h m m' st) as (Hs' & Hm' & _).
  destruct (append_active_view _ _ _ _) as [view|] eqn:Hview; [|apply step_ok_following_restore].
  rewrite Hm'. destruct (commit _ _) as [st1 [[]|e]] eqn:Hc; simpl; [|by eapply step_ok_following_err].
  assert (step_ok G st st1).
  { eapply step_ok_following_ok; [exact Hc|done|lia|rewrite Ht', Hv'; auto|lia]. }
  eapply step_ok_quiet_r; [eassumption|].
  assert (quiet st1 (if adv then fire_apply_notification st1 else st1))
    by (destruct adv; [apply quiet_apply_sink|done]).
  destruct view as [[rec [[active idx] pend]]|]; [|done].
  etransitivity; [eassumption|]. etransitivity; [|apply quiet_rebuild].
  apply quiet_active. by eapply append_active_view_joint.
Qed.

Lemma quiet_install_assembled req buf len st : quiet st (install_assembled req buf len st).1.
Proof.
  unfold install_assembled. destruct (supplied_config_index req) as [sup|]; [|done].
  destruct (commit _ _) as [st1 [[]|e]] eqn:Hc; simpl.
  2:{ eapply quiet_commit_rollback; [exact Hc|done]. }
  eapply quiet_commit_meta in Hc; [|done..|simpl; lia].
  etransitivity; [exact Hc|]. etransitivity; [|apply quiet_apply_sink].
  destruct (is_members req) as [|m ms].
  - clear Hc. destruct (ws_pending_joint_entry _); [case_match|]; quiet_chain.
  - etransitivity; [|apply quiet_rebuild]. apply quiet_active. by intros [].
Qed.

Lemma saturating_add_le mx a b c :
  saturating_add mx a b ≤ c → c < mx → a + b ≤ c.
Proof. unfold saturating_add. lia. Qed.

Lemma incoming_for_buffer from req st :
  node_inv st → max_snapshot_bytes (ws_cfg st) < u64_max →
  N.of_nat (length (in_buffer (incoming_for from req st))) ≤ max_snapshot_bytes (ws_cfg st).
Proof.
  intros Hi Hlt. unfold incoming_for.
  destruct (ws_incoming_snapshot st) as [b|] eqn:Hb; [case_match|]; simpl; try lia.
  by apply Hi.
Qed.

Lemma quiet_incoming b st :
  (node_inv st → max_snapshot_bytes (ws_cfg st) < u64_max →
   N.of_nat (length (in_buffer b)) ≤ max_snapshot_bytes (ws_cfg st)) →
  quiet st (with_incoming_snapshot (Some b) st).
Proof.
  intros Hb. split; simpl; try done; try lia; [|by left].
  intros Hi. specialize (Hb Hi). destruct Hi. split; simpl; try done.
  intros ? [= <-]. auto.
Qed.

Lemma with_incoming_incoming b b' st :
  with_incoming_snapshot b (with_incoming_snapshot b' st) = with_incoming_snapshot b st.
Proof. by destruct st. Qed.

Lemma install_adopt_term_cases G req st :
  current_term (ws_meta st) ≤ is_term req →
  (∃ e st1, install_adopt_term req st = (st1, Err e) ∧ quiet st st1) ∨
  ∃ st1, install_adopt_term req st = (st1, Ok ()) ∧
    step_ok G st (follow_leader (is_leader req) st1).
Proof.
  intros Hle. unfold install_adopt_term.
  destruct (N.ltb_spec (current_term (ws_meta st)) (is_term req)) as [Hlt|].
  - unfold persist_term_bump. destruct (commit _ st) as [st1 [[]|e]] eqn:Hc.
    2:{ left. eexists _, _. split; [done|]. by eapply quiet_commit_err. }
    right. eexists. split; [done|]. apply commit_Ok in Hc as (s' & -> & Habs).
    match goal with |- context [follow_leader ?l ?x] =>
      destruct (follow_leader_eq l x) as (d & c & r & rr & hb & ->) end.
    step_fields; [..|by apply rt_follower]; case_bool_decide; simpl; auto; lia.
  - right. exists st. split; [done|].
    destruct (follow_leader_eq (is_leader req) st) as (d & c & r & rr & hb & ->).
    step_fields; [..|by apply rt_follower]; case_bool_decide; simpl; auto; lia.
Qed.

Lemma quiet_receive_chunk from req st : quiet st (receive_chunk from req st).1.
Proof.
  unfold receive_chunk. case_match; [apply quiet_no_incoming|].
  pose proof (incoming_for_buffer from req st) as Hbuf. set (buf := incoming_for _ _ _) in *.
  case_match; [by apply quiet_incoming|]. case_match.
  { simpl. rewrite with_incoming_incoming. apply quiet_no_incoming. }
  match goal with |- context [if is_offset req =? ?x then ?a else in_buffer buf] =>
    set (buffer := if is_offset req =? x then a else in_buffer buf) end.
  rewrite with_incoming_incoming.
  assert (node_inv st → max_snapshot_bytes (ws_cfg st) < u64_max →
          N.of_nat (length buffer) ≤ max_snapshot_bytes (ws_cfg st)).
  { intros Hi Hmax. specialize (Hbuf Hi Hmax). subst buffer.
    destruct (is_offset req =? _); [|done]. simpl in *. rewrite length_app.
    apply N.ltb_ge in H1. apply saturating_add_le in H1; [lia|done]. }
  case_match; [by apply quiet_incoming|].
  rewrite with_incoming_incoming. etransitivity; [apply quiet_no_incoming|].
  apply quiet_install_assembled.
Qed.

Lemma step_ok_install_snapshot G from req st :
  step_ok G st (handle_install_snapshot from req st).1.
Proof.
  unfold handle_install_snapshot.
  destruct (N.ltb_spec (is_term req) (current_term (ws_meta st))) as [|Hle];
    [by apply quiet_step_ok|].
  destruct (install_adopt_term_cases G req st Hle) as [(e & st1 & -> & ?)|(st1 & -> & Hok)].
  { by apply quiet_step_ok. }
  eapply step_ok_quiet_r; [exact Hok|apply quiet_receive_chunk].
Qed.

(** ** Every event *)

(** The event is a vote granted by [from] at term [t]. *)
Definition event_grants (ev : WorkerEvent) (from : NID) (t : N) : Prop :=
  ev = EvOutcome (OcVote from (Some (mkVoteResp t true))).

Lemma step_ok_handle_msg G pending msg st : step_ok G st (handle_msg pending msg st).1.1.
Proof.
  destruct msg as [from req|from req|from req|from req|payload|timeout reply|members| |]; simpl.
  - pose proof (step_ok_append_entries G from req st). by destruct (handle_append_entries _ _ _).
  - pose proof (step_ok_request_vote G from req st). by destruct (handle_request_vote _ _ _).
  - pose proof (step_ok_request_prevote G from req st).
    by destruct (handle_request_prevote _ _ _).
  - pose proof (step_ok_install_snapshot G from req st).
    by destruct (handle_install_snapshot _ _ _).
  - pose proof (step_ok_propose G payload st). by destruct (handle_propose _ _).
  - pose proof (step_ok_read_index G timeout reply pending st).
    by destruct (handle_read_index _ _ _ _).
  - pose proof (step_ok_change_membership G members st).
    by destruct (handle_change_membership _ _).
  - by apply quiet_step_ok.
  - by apply quiet_step_ok.
Qed.

Lemma step_ok_on_timer G pending st : step_ok G st (on_timer pending st).1.
Proof.
  unfold on_timer. destruct (ws_role st) eqn:Hr.
  - destruct (pre_vote (ws_cfg st)) eqn:Hp.
    + pose proof (step_ok_start_pre_election G pending st).
      destruct (start_pre_election pending st) as [[]]; simpl in *. rewrite Hr in *. auto.
    + pose proof (step_ok_start_election G pending st).
      destruct (start_election pending st) as [[]]; simpl in *. rewrite Hr in *. auto.
  - case_match; simpl.
    + eapply step_ok_quiet_r; [|apply quiet_reset_election_timer].
      assert (ws_role st ≠ Leader) by congruence. step_fields. by apply rt_follower.
    + match goal with |- context [start_pre_election pending ?x] =>
        pose proof (step_ok_start_pre_election G pending x);
        eapply (step_ok_frame_l G st x); [done..|apply quiet_misses|];
        destruct (start_pre_election pending x) as [[]]; simpl in * end.
      rewrite Hr in *. auto.
  - pose proof (step_ok_start_election G pending st).
    destruct (start_election pending st) as [[]]; simpl in *. rewrite Hr in *. auto.
  - apply quiet_step_ok. pose proof (quiet_send_heartbeats pending st).
    by destruct (send_heartbeats pending st) as [[]].
Qed.

Lemma step_ok_on_worker_timer G pending st : step_ok G st (on_worker_timer pending st).1.
Proof.
  unfold on_worker_timer, clock_now.
  match goal with |- context [expire_pending_reads ?n ?x] =>
    destruct (expire_pending_reads_eq n x) as (rr & Hx);
    pose proof (quiet_expire n x) as Hq; rewrite Hx in *; clear Hx end.
  set (st1 := with_read_replies _ _) in *.
  eapply (step_ok_frame_l G st st1); [done..| |].
  - intros Hi. apply Hq. by apply (quiet_clock_reads _ st).
  - case_match; [apply step_ok_on_timer|by apply quiet_step_ok].
Qed.

Lemma step_ok_rpc_outcome outcome st :
  step_ok (event_grants (EvOutcome outcome)) st (handle_rpc_outcome outcome st).
Proof.
  destruct outcome as [from [resp|]|from [resp|]|from t [resp|]|from [resp|] i t off fin];
    simpl; try by apply quiet_step_ok.
  - apply step_ok_append_response.
  - apply step_ok_vote_response. destruct resp as [t []]; [done|]. by intros [=].
  - apply step_ok_prevote_response.
  - apply step_ok_install_response.
Qed.

Lemma worker_step_ok wall ev pending st :
  step_ok (event_grants ev) st (worker_step wall ev pending st).1.1.
Proof.
  unfold worker_step. destruct ev as [msg| |outcome].
  - pose proof (step_ok_handle_msg (event_grants (EvMsg msg)) pending msg st).
    destruct (handle_msg pending msg st) as [[]]. by eapply step_ok_quiet_r; [|apply quiet_status].
  - pose proof (step_ok_on_worker_timer (event_grants EvTimer) pending st).
    destruct (on_worker_timer pending st) as []. by eapply step_ok_quiet_r; [|apply quiet_status].
  - by eapply step_ok_quiet_r; [apply step_ok_rpc_outcome|apply quiet_status].
Qed.

(** A granted vote is the recorded vote of the current term. *)
Lemma request_vote_granted from req st st' t :
  handle_request_vote from req st = (st', Ok (mkVoteResp t true)) →
  current_term (ws_meta st') = t ∧ voted_for (ws_meta st') = Some (rv_candidate req).
Proof.
  unfold handle_request_vote. destruct (rv_term req <? _); [by intros [=]|].
  match goal with |- context [up_to_date (ws_storage ?x) _ _] => set (st1 := x); clearbody st1 end.
  set (granted := negb _ && _). clearbody granted. set (bump := _ <? _). clearbody bump.
  destruct granted; simpl.
  - rewrite orb_true_r.
    match goal with |- context [reset_election_timer ?x] =>
      destruct (reset_election_timer_eq x) as (? & ? & ? & ->) end.
    destruct (commit _ _) as [st2 [[]|e]] eqn:Hc; [|by intros [=]].
    apply commit_Ok in Hc as (s' & -> & _). simpl. by intros [= <- <-].
  - rewrite orb_false_r. destruct bump; [|by intros [=]].
    destruct (commit _ _) as [st2 [[]|e]]; by intros [=].
Qed.

(** ** Starting up *)

Lemma init_worker_inv s c clock reads rng draws wall st :
  init_worker s c clock reads rng draws wall = Ok st →
  node_inv st ∧ ws_storage st = s ∧ ws_cfg st = c ∧ ws_role st = Follower ∧
  ws_votes_received st = ∅ ∧ ws_meta st = mem_meta (abs s).
Proof.
  unfold init_worker. destruct (load_meta s) as [m|] eqn:Hm; [|done].
  apply load_meta_abs in Hm as ->.
  destruct (recover_active_config s c true) as [rec|] eqn:Hrec; [|done].
  match goal with |- context [reset_election_timer ?x] =>
    destruct (reset_election_timer_eq x) as (d & c' & r & ->) end.
  intros [= <-]. split; [|done]. split; simpl; try done; try (by split; intros []); try lia.
  intros [i Hi]. unfold recover_active_config in Hrec.
  repeat (case_match; simplify_eq/=); auto.
Qed.
End Node.

Section Invariant.
Context {NID S E : Type} `{!NodeId NID} `{!Storage NID S E} `{!StorageLaws NID S E}.

(** What every event preserves, failed writes included: the in-memory scalars
    equal the durable ones, the published role byte is the role, leader-only
    state and the leader hint exist exactly while leading, only a leader has
    read barriers waiting and at most [max_pending_reads] of them, the snapshot
    assembly buffer stays within [max_snapshot_bytes], and a pending joint entry
    means a joint configuration. *)
Theorem worker_keeps_invariant wall ev pending (st : WorkerState NID S) :
  node_inv st → node_inv (worker_step wall ev pending st).1.1.
Proof. apply (worker_step_ok wall ev pending st). Qed.
End Invariant.

(** ** Concrete replicas

    A replica of [u16] members over in-memory storage, as it is right after
    start-up, for evaluating the definitions. *)
Definition sample_worker (s : MemStorage N) (c : Config N) : WorkerState N (MemStorage N) :=
  mkWorker s c Follower (mem_meta s) 0 None ∅ None [] None (steady (cfg_members c)) None (Some 0)
    None None 0 [] 0 None (λ k, 1000 * N.of_nat k) 0%nat N.of_nat 0%nat [].

Lemma sample_worker_inv s c : node_inv (sample_worker s c).
Proof. split; simpl; try done; try (by split; intros []); try lia. Qed.

(** The same replica leading its term. *)
Definition sample_leader (s : MemStorage N) (c : Config N) : WorkerState N (MemStorage N) :=
  elected (sample_worker s c) s (leader_fresh (cfg_members c) (cfg_me c) (mem_last_index s))
    (mem_last_index s).

Lemma sample_leader_inv s c : node_inv (sample_leader s c).
Proof. apply elected_inv; [apply sample_worker_inv|done]. Qed.

Lemma worker_keeps_invariant_witness :
  node_inv (worker_step 0 EvTimer [] (sample_worker mem_new (config_new 1 [1; 2; 3]))).1.1.
Proof. apply worker_keeps_invariant. apply sample_worker_inv. Defined.
