(* ===== verification/RaftWrites.v ===== *)
(** * vos-raft: what a replica writes

    Every event makes the worker issue a short sequence of atomic batches.
    [dbatch] lists the kinds of batch there are, with the conditions under which
    the worker issues them on given durable contents; [worker_step_writes] shows
    that one event is a sequence of at most four of them, failed writes included
    (they leave the contents alone).  Invariants of the log then
    need one case per kind of batch instead of one per handler. *)

From S2P Require Import Prelude RaftTypes RaftStorage RaftConfig RaftState RaftWorker RaftNode.

Local Open Scope N_scope.

Section Writes.
Context {NID S E : Type} `{!NodeId NID} `{!Storage NID S E} `{!StorageLaws NID S E}.
Implicit Types (st : WorkerState NID S) (d : MemStorage NID).

(** [scan_entries] on the durable contents. *)
Fixpoint mem_scan d (idx : N) (es : list (LogEntry NID)) : option N * nat :=
  match es with
  | [] => (None, 0%nat)
  | e :: es =>
      match mem_term_at d idx with
      | Some t =>
          if t =? e_term e
          then let '(conflict, present) := mem_scan d (idx ⊞ 1) es in
               (conflict, Datatypes.S present)
          else (Some idx, 0%nat)
      | None => (None, 0%nat)
      end
  end.

Definition same_snap (m m' : Meta NID) : Prop :=
  m_snap_last_index m' = m_snap_last_index m ∧ m_snap_last_term m' = m_snap_last_term m.

(** Events that a leader's batches may belong to: not the RPCs of another
    leader. *)
Definition leader_event (ev : WorkerEvent (NID := NID)) : Prop :=
  match ev with
  | EvMsg (MsgAppendEntries _ _) | EvMsg (MsgInstallSnapshot _ _) => False
  | _ => True
  end.

(** The batches of a worker handling [ev]. *)
Inductive dbatch (ev : WorkerEvent) d : WriteBatch NID → Prop :=
| dw_scalars m :
    (* term and vote *)
    same_snap (mem_meta d) m → commit_index m = commit_index (mem_meta d) →
    (current_term (mem_meta d) < u64_max → current_term (mem_meta d) ≤ current_term m) →
    dbatch ev d (batch_meta m)
| dw_commit c :
    (* a leader advances the commit index to an entry of its own term *)
    leader_event ev →
    commit_index (mem_meta d) < c → mem_term_at d c = Some (current_term (mem_meta d)) →
    dbatch ev d (batch_meta (meta_set_commit c (mem_meta d)))
| dw_lead_append k rec :
    (* a leader appends one entry *)
    leader_event ev →
    dbatch ev d (mkBatch None None
      [mkEntry (mem_last_index d ⊞ 1) (current_term (mem_meta d)) k] None None rec)
| dw_compact floor t :
    (* a leader drops a prefix *)
    leader_event ev →
    mem_snap_last_index d < floor → floor ≤ commit_index (mem_meta d) →
    floor ≤ default floor (mem_applied_index_ d) → mem_term_at d floor = Some t →
    dbatch ev d (mkBatch None (Some (floor, t)) [] None
      (Some (meta_set_snap floor t (mem_meta d))) None)
| dw_append from req m rec conflict present :
    (* a follower grafts the entries of an AppendEntries *)
    ev = EvMsg (MsgAppendEntries from req) → same_snap (mem_meta d) m →
    current_term (mem_meta d) ≤ current_term m →
    mem_term_at d (ae_prev_log_index req) = Some (ae_prev_log_term req) →
    mem_scan d (ae_prev_log_index req ⊞ 1) (ae_entries req) = (conflict, present) →
    (commit_index m = commit_index (mem_meta d) ∨
     commit_index (mem_meta d) < commit_index m ∧
     commit_index m = N.min (ae_leader_commit req)
                        (ae_prev_log_index req ⊞ N.of_nat (length (ae_entries req)))) →
    dbatch ev d (mkBatch ((λ idx, idx ⊟ 1) <$> conflict) None
      (drop present (reindex (ae_prev_log_index req ⊞ 1) (ae_entries req))) None (Some m) rec)
| dw_install from req m buf rec :
    (* a follower installs an assembled snapshot *)
    ev = EvMsg (MsgInstallSnapshot from req) →
    mem_snap_last_index d < is_last_included_index req →
    m_snap_last_index m = is_last_included_index req →
    m_snap_last_term m = is_last_included_term req →
    commit_index m = N.max (commit_index (mem_meta d)) (is_last_included_index req) →
    current_term m = current_term (mem_meta d) →
    dbatch ev d (mkBatch None
      (Some (is_last_included_index req, is_last_included_term req)) [] (Some buf) (Some m) rec).

(** A call of [commit_batch] with one of them, and what it does when it works. *)
Definition scommit (ev : WorkerEvent) (s s' : S) : Prop :=
  ∃ b, dbatch ev (abs s) b ∧ s' = (commit_batch s b).1.
Definition dwrite (ev : WorkerEvent) d d' : Prop :=
  ∃ b, dbatch ev d b ∧ d' = mem_commit_batch d b.

(** The storage moves by at most [n] such calls. *)
Definition writes (n : nat) (ev : WorkerEvent) st st' : Prop :=
  bsteps (scommit ev) n (ws_storage st) (ws_storage st').

(** In-memory scalars equal to the durable ones. *)
Definition coherent st : Prop := mem_meta (abs (ws_storage st)) = ws_meta st.

#[export] Instance writes_reflexive n ev : Reflexive (writes n ev).
Proof. intros st. apply bsteps_refl. Qed.

Lemma writes_trans n m k ev st1 st2 st3 :
  writes n ev st1 st2 → writes m ev st2 st3 → (n + m ≤ k)%nat → writes k ev st1 st3.
Proof.
  unfold writes. intros H1 H2 Hk. eapply bsteps_weaken; [exact Hk|]. by eapply bsteps_trans.
Qed.

Lemma writes_weaken n k ev st st' : writes n ev st st' → (n ≤ k)%nat → writes k ev st st'.
Proof. unfold writes. intros H1 Hk. by eapply bsteps_weaken. Qed.

Lemma writes_same n ev st st' : ws_storage st' = ws_storage st → writes n ev st st'.
Proof. unfold writes. intros ->. apply bsteps_refl. Qed.

Lemma writes_commit n ev b st st' r :
  commit b st = (st', r) →
  dbatch ev (abs (ws_storage st)) b → writes (Datatypes.S n) ev st st'.
Proof.
  intros Hc Hw. eapply (bsteps_weaken 1); [lia|]. apply bsteps_once. exists b. split; [done|].
  unfold commit in Hc. destruct (commit_batch _ b). by simplify_eq/=.
Qed.

(** On the durable contents, calls that fail do nothing. *)
Lemma scommits_dwrites n ev s s' :
  bsteps (scommit ev) n s s' → bsteps (dwrite ev) n (abs s) (abs s').
Proof.
  induction 1 as [|n s s1 s2 (b & Hb & ->) Hrest IH]; [apply bsteps_refl|].
  destruct (commit_batch s b) as [s1 [[]|e]] eqn:Hc; simpl in *.
  - eapply bsteps_l; [|exact IH]. exists b. split; [done|]. by apply commit_batch_ok.
  - rewrite (commit_batch_err _ _ _ _ Hc) in IH. eapply bsteps_weaken; [|exact IH]. lia.
Qed.

Ltac wtrans n m := eapply (writes_trans n m); [| |lia].

(** The scan of the handler is the scan of the contents. *)
Lemma scan_entries_mem s idx es r :
  scan_entries s idx es = Ok r → r = mem_scan (abs s) idx es.
Proof.
  revert idx r. induction es as [|e es IH]; intros idx r; simpl; [by intros [= <-]|].
  destruct (term_at s idx) as [t|] eqn:Ht; [|done]. apply term_at_abs in Ht. rewrite <- Ht.
  destruct t as [t|]; [|by intros [= <-]]. destruct (t =? e_term e); [|by intros [= <-]].
  destruct (scan_entries s (idx ⊞ 1) es) as [[c p]|] eqn:Hs; [|done].
  intros [= <-]. by rewrite <- (IH _ _ Hs).
Qed.

(** ** Leader-side operations *)

Lemma writes_auto_finalize ev st :
  leader_event ev → coherent st → writes 1 ev st (auto_finalize_joint_config st).1.
Proof.
  intros Hev Hco. unfold auto_finalize_joint_config. case_match; [done|].
  destruct (ws_pending_joint_entry st); [|done]. case_match; [done|].
  destruct (commit _ st) as [st1 [[]|e]] eqn:Hc; simpl.
  - wtrans 1%nat 0%nat; [eapply writes_commit; [exact Hc|]|].
    + rewrite <- Hco, last_index_abs. by apply dw_lead_append.
    + apply writes_same. destruct (rebuild_leader_tracking_eq (with_active_config_index
        (Some (last_index (ws_storage st) ⊞ 1)) (with_pending_joint_entry None
          (with_effective_cfg (steady (ac_current (ws_effective_cfg st))) st1)))) as (l & -> & _).
      case_match; [done|].
      match goal with |- context [step_down ?x] =>
        by destruct (step_down_eq x) as (? & ? & ? & ? & ->) end.
  - eapply writes_commit; [exact Hc|]. rewrite <- Hco, last_index_abs. by apply dw_lead_append.
Qed.

Lemma writes_try_advance ev st : leader_event ev → coherent st → writes 2 ev st (try_advance_commit_index st).1.
Proof.
  intros Hev Hco. unfold try_advance_commit_index.
  destruct (match_index_majority_floor st) as [mf|]; [|done].
  destruct (N.leb_spec mf (commit_index (ws_meta st))) as [|Hlt]; [done|].
  destruct (term_at _ mf) as [t|] eqn:Ht; [|done]. apply term_at_abs in Ht.
  case_bool_decide as Ht'; [done|].
  assert (t = Some (current_term (ws_meta st))) as -> by (by destruct (decide (t = Some (current_term (ws_meta st))))).
  assert (dbatch ev (abs (ws_storage st))
    (batch_meta (meta_set_commit mf (ws_meta st)))) as Hw.
  { rewrite <- Hco in *. by apply dw_commit. }
  destruct (commit _ _) as [st1 [[]|e]] eqn:Hc; simpl.
  - wtrans 1%nat 1%nat; [eapply (writes_commit _ ev _ _ _ _ Hc Hw)|].
    apply commit_Ok in Hc as (s' & -> & Habs).
    wtrans 0%nat 1%nat; [|apply writes_auto_finalize]; [by apply writes_same|done|].
    unfold coherent. simpl. by rewrite Habs.
  - wtrans 1%nat 0%nat; [eapply (writes_commit _ ev _ _ _ _ Hc Hw)|by apply writes_same].
Qed.

Lemma writes_become_leader ev st : leader_event ev → coherent st → writes 3 ev st (become_leader_no_heartbeat st).1.
Proof.
  intros Hev Hco. unfold become_leader_no_heartbeat.
  assert (dbatch ev (abs (ws_storage st))
    (batch_append (entry_data (last_index (ws_storage st) ⊞ 1) (current_term (ws_meta st)) [])))
    as Hw.
  { rewrite <- Hco, last_index_abs. by apply dw_lead_append. }
  destruct (commit _ st) as [st1 [[]|e]] eqn:Hc; simpl; [|by eapply writes_commit].
  wtrans 1%nat 2%nat; [by eapply writes_commit|]. apply commit_Ok in Hc as (s' & -> & Habs).
  match goal with |- context [try_advance_commit_index ?x] =>
    pose proof (writes_try_advance ev x Hev); destruct (try_advance_commit_index x); simpl in * end.
  apply H. unfold coherent. simpl. by rewrite Habs.
Qed.

Lemma writes_try_compact n ev st : leader_event ev → coherent st → writes (Datatypes.S n) ev st (try_compact st).1.
Proof.
  intros Hev Hco. unfold try_compact. destruct (ws_leader st); [|done].
  destruct (match_index_majority_floor st) as [mf|]; [|done].
  destruct (applied_index _) as [ap|] eqn:Hap; [|done]. apply applied_index_abs in Hap.
  set (floor := N.min _ _).
  assert (floor ≤ commit_index (ws_meta st)) as Hfc by (unfold floor; lia).
  assert (floor ≤ default floor ap) as Hfa by (destruct ap; unfold floor; simpl; lia).
  clearbody floor. subst ap. destruct (N.leb_spec floor (snap_last_index (ws_storage st))); [done|]. simpl.
  case_match; [done|]. destruct (term_at _ _) as [[t|]|] eqn:Ht; [|done..].
  apply term_at_abs in Ht.
  assert (dbatch ev (abs (ws_storage st))
    (mkBatch None (Some (floor, t)) [] None (Some (meta_set_snap floor t (ws_meta st))) None)) as Hw.
  { rewrite <- Hco in *. rewrite snap_last_index_abs in *. by apply dw_compact. }
  destruct (commit _ _) as [st1 [[]|e]] eqn:Hc; simpl.
  - eapply (writes_commit _ ev _ _ _ _ Hc Hw).
  - wtrans 1%nat 0%nat; [eapply (writes_commit _ ev _ _ _ _ Hc Hw)|by apply writes_same].
Qed.

Lemma heartbeat_loop_same l peers pending st :
  ws_storage (send_heartbeats_loop l peers pending st).1.1 = ws_storage st ∧
  ws_meta (send_heartbeats_loop l peers pending st).1.1 = ws_meta st.
Proof.
  revert pending st. induction peers as [|p peers IH]; intros pending st; simpl; [done|].
  destruct (decide _); [apply IH|].
  assert (ws_storage (send_heartbeat_to l p pending st).1.1 = ws_storage st ∧
          ws_meta (send_heartbeat_to l p pending st).1.1 = ws_meta st) as [Hs Hm].
  { unfold send_heartbeat_to. case_match.
    - unfold send_install_chunk. destruct (ws_leader st); simpl;
        by match goal with |- context [if ?c then _ else ([], None, None)] => destruct c end.
    - destruct (term_at _ _); [|done]. by case_match. }
  destruct (send_heartbeat_to l p pending st) as [[st1 pending1] [[]|e]]; simpl in *; [|done].
  destruct (IH pending1 st1) as [-> ->]. done.
Qed.

Lemma writes_send_heartbeats n ev pending st :
  leader_event ev → coherent st → writes (Datatypes.S n) ev st (send_heartbeats pending st).1.1.
Proof.
  intros Hev Hco. unfold send_heartbeats. destruct (ws_leader st) as [l|]; [|done].
  destruct (heartbeat_loop_same l (all_members (ws_effective_cfg st)) pending st) as [Hs Hm].
  destruct (send_heartbeats_loop _ _ _ _) as [[st1 pending1] [[]|e]]; simpl in *;
    [|by apply writes_same].
  assert (coherent st1) as Hco1 by (unfold coherent; by rewrite Hs, Hm).
  wtrans 0%nat (Datatypes.S n); [by apply (writes_same _ ev st st1)|].
  pose proof (writes_try_compact n ev st1 Hev Hco1). by destruct (try_compact st1).
Qed.

(** ** Handlers *)

Lemma writes_adopt_higher_term n ev t st :
  coherent st → current_term (ws_meta st) < t → writes (Datatypes.S n) ev st (adopt_higher_term t st).1.
Proof.
  intros Hco Ht. unfold adopt_higher_term, persist_term_bump.
  assert (dbatch ev (abs (ws_storage st))
    (batch_meta (meta_set_term t None (ws_meta st)))) as Hw.
  { rewrite <- Hco in *. apply dw_scalars; [done..|simpl; lia]. }
  destruct (commit _ st) as [st1 [[]|e]] eqn:Hc; simpl; [|by eapply writes_commit].
  wtrans (Datatypes.S n) 0%nat; [by eapply writes_commit|]. apply writes_same.
  match goal with |- context [step_down ?x] =>
    by destruct (step_down_eq x) as (? & ? & ? & ? & ->) end.
Qed.

Lemma writes_start_election ev pending st :
  leader_event ev → coherent st → writes 4 ev st (start_election pending st).1.1.
Proof.
  intros Hev Hco. unfold start_election. case_match.
  { apply writes_same. by destruct (reset_election_timer_eq st) as (? & ? & ? & ->). }
  assert (dbatch ev (abs (ws_storage st))
    (batch_meta (meta_set_term (current_term (ws_meta st) ⊞ 1) (Some (cfg_me (ws_cfg st)))
      (ws_meta st)))) as Hw.
  { rewrite <- Hco. apply dw_scalars; [done..|]. intros Ht. simpl.
    rewrite wrapping_add64_small; lia. }
  destruct (commit _ _) as [st1 [[]|e]] eqn:Hc.
  2:{ wtrans 1%nat 0%nat; [eapply (writes_commit _ ev _ _ _ _ Hc Hw)|by apply writes_same]. }
  wtrans 1%nat 3%nat; [eapply (writes_commit _ ev _ _ _ _ Hc Hw)|].
  apply commit_Ok in Hc as (s' & -> & Habs). simpl in Habs.
  set (st2 := with_votes_received _ _).
  assert (coherent st2) as Hco2 by (unfold coherent; simpl; by rewrite Habs).
  wtrans 0%nat 3%nat; [by apply (writes_same _ ev _ st2)|].
  destruct (votes_quorum st2); cbv zeta.
  - pose proof (writes_become_leader ev st2 Hev Hco2) as Hb.
    destruct (become_leader_no_heartbeat st2) as [st3 [[]|e]]; simpl in *; done.
  - apply writes_same. by destruct (reset_election_timer_eq st2) as (? & ? & ? & ->).
Qed.

Lemma writes_rpc_outcome ev outcome st :
  leader_event ev → coherent st → writes 4 ev st (handle_rpc_outcome outcome st).
Proof.
  intros Hev Hco. pose proof writes_adopt_higher_term as Hadopt.
  destruct outcome as [from [resp|]|from [resp|]|from t [resp|]|from [resp|] i t off fin];
    simpl; try done.
  - unfold handle_append_response.
    destruct (N.ltb_spec (current_term (ws_meta st)) (aer_term resp)); [auto|].
    case_match; [done|]. destruct (ws_leader st); [|done].
    case_match; [|by apply writes_same].
    match goal with |- context [try_advance_commit_index ?x] =>
      pose proof (writes_try_advance ev x Hev Hco) as Hw;
      destruct (try_advance_commit_index x) as [st1 [[]|]]; simpl in * end; [|eapply writes_weaken; [eassumption|lia]].
    wtrans 2%nat 0%nat; [exact Hw|]. apply writes_same.
    by destruct (try_resolve_pending_reads_eq st1) as (? & ? & ? & -> & _).
  - unfold handle_vote_response.
    destruct (N.ltb_spec (current_term (ws_meta st)) (rvr_term resp)); [auto|].
    case_match; [done|]. case_match; [|done]. case_match; [done|].
    case_match; [|by apply writes_same].
    match goal with |- context [become_leader_no_heartbeat ?x] =>
      pose proof (writes_become_leader ev x Hev Hco) as Hw;
      destruct (become_leader_no_heartbeat x) as [? [[]|]]; simpl in * end; (eapply writes_weaken; [eassumption|lia]).
  - unfold handle_prevote_response.
    destruct (N.ltb_spec (current_term (ws_meta st)) (pvr_term resp)); [auto|].
    repeat (case_match; try by apply writes_same).
  - unfold handle_install_snapshot_response.
    destruct (N.ltb_spec (current_term (ws_meta st)) (isr_term resp)); [auto|].
    case_match; [done|]. destruct (ws_leader st); [|done]. by apply writes_same.
Qed.

Lemma writes_request_vote n ev from req st :
  coherent st → writes (Datatypes.S n) ev st (handle_request_vote from req st).1.
Proof.
  intros Hco. unfold handle_request_vote.
  destruct (N.ltb_spec (rv_term req) (current_term (ws_meta st))) as [|Hge]; [done|].
  match goal with |- context [up_to_date (ws_storage ?x) _ _] => set (st1 := x) end.
  assert (ws_storage st1 = ws_storage st ∧ same_snap (ws_meta st) (ws_meta st1) ∧
    commit_index (ws_meta st1) = commit_index (ws_meta st) ∧
    current_term (ws_meta st) ≤ current_term (ws_meta st1)) as (Hs & Hsn & Hci & Ht).
  { subst st1. case_match eqn:Hb; [|done]. apply N.ltb_lt in Hb.
    match goal with |- context [step_down ?x] =>
      destruct (step_down_eq x) as (? & ? & ? & ? & ->) end. simpl. repeat split; lia. }
  clearbody st1. set (granted := negb _ && _). clearbody granted.
  match goal with |- context [if granted then ?x else st1] =>
    set (st2 := if granted then x else st1) end.
  assert (ws_storage st2 = ws_storage st1 ∧ same_snap (ws_meta st1) (ws_meta st2) ∧
    commit_index (ws_meta st2) = commit_index (ws_meta st1) ∧
    current_term (ws_meta st2) = current_term (ws_meta st1)) as (Hs2 & Hsn2 & Hci2 & Ht2).
  { subst st2. destruct granted; [|done].
    match goal with |- context [reset_election_timer ?x] =>
      destruct (reset_election_timer_eq x) as (? & ? & ? & ->) end. done. }
  clearbody st2. case_match; [|apply writes_same; simpl; congruence].
  wtrans 0%nat (Datatypes.S n); [apply (writes_same _ ev st st2); congruence|].
  assert (dbatch ev (abs (ws_storage st2))
    (batch_meta (ws_meta st2))) as Hw.
  { unfold same_snap in *. apply dw_scalars; rewrite Hs2, Hs, Hco; unfold same_snap; intuition lia. }
  destruct (commit _ _) as [st3 [[]|e]] eqn:Hc; simpl;
    (wtrans (Datatypes.S n) 0%nat; [by eapply writes_commit|]); by apply writes_same.
Qed.

Lemma writes_rebuild n ev st st' : writes n ev st st' → writes n ev st (rebuild_leader_tracking st').
Proof. by destruct (rebuild_leader_tracking_eq st') as (? & -> & _). Qed.

(** Scalars that differ from the durable ones by term and vote at most. *)
Definition ahead st : Prop :=
  same_snap (mem_meta (abs (ws_storage st))) (ws_meta st) ∧
  commit_index (ws_meta st) = commit_index (mem_meta (abs (ws_storage st))) ∧
  current_term (mem_meta (abs (ws_storage st))) ≤ current_term (ws_meta st).

Lemma writes_append_to_log n from req ms st :
  ahead st → writes (Datatypes.S n) (EvMsg (MsgAppendEntries from req)) st (append_to_log req ms st).1.
Proof.
  intros (Hsn & Hci & Ht). unfold append_to_log.
  destruct (term_at _ _) as [pt|] eqn:Hpt; [|by apply writes_same].
  apply term_at_abs in Hpt. case_bool_decide as Hprev.
  { destruct (commit _ _) as [st1 r] eqn:Hc. eapply writes_commit in Hc; [|by apply dw_scalars].
    destruct r; simpl; [done|]. wtrans (Datatypes.S n) 0%nat; [exact Hc|by apply writes_same]. }
  assert (pt = Some (ae_prev_log_term req)) as ->
    by (by destruct (decide (pt = Some (ae_prev_log_term req)))).
  destruct (scan_entries _ _ _) as [[ca ap]|] eqn:Hscan; [|by apply writes_same].
  apply scan_entries_mem in Hscan. symmetry in Hscan, Hpt.
  set (adv := _ && _). set (nc := N.min _ _).
  match goal with |- context [append_active_view ?x _ _ _] => set (st2 := x) end.
  assert (ws_storage st2 = ws_storage st ∧ same_snap (ws_meta st) (ws_meta st2) ∧
    current_term (ws_meta st2) = current_term (ws_meta st) ∧
    (commit_index (ws_meta st2) = commit_index (ws_meta st) ∨
     commit_index (ws_meta st) < commit_index (ws_meta st2) ∧ commit_index (ws_meta st2) = nc))
    as (Hs2 & Hsn2 & Ht2 & Hci2).
  { subst st2. destruct adv eqn:Hadv; [|by split_and!; auto].
    apply andb_prop in Hadv as [_ Hadv%N.ltb_lt]. simpl. repeat split; auto. }
  clearbody st2 adv. wtrans 0%nat (Datatypes.S n); [by apply (writes_same _ _ st st2)|].
  destruct (append_active_view _ _ _ _) as [view|]; [|by apply writes_same].
  destruct (commit _ _) as [st3 r] eqn:Hc.
  eapply (writes_commit n (EvMsg (MsgAppendEntries from req))) in Hc.
  2:{ unfold same_snap in *. rewrite <- Hs2 in *.
      eapply dw_append; try done; unfold same_snap; intuition (congruence || lia). }
  destruct r; simpl.
  - destruct view as [[rec [[active idx] pend]]|]; [apply writes_rebuild|];
      (wtrans (Datatypes.S n) 0%nat; [exact Hc|]); destruct adv; by apply writes_same.
  - wtrans (Datatypes.S n) 0%nat; [exact Hc|by apply writes_same].
Qed.

Lemma writes_append_entries n from req st :
  coherent st → writes (Datatypes.S n) (EvMsg (MsgAppendEntries from req)) st (handle_append_entries from req st).1.
Proof.
  intros Hco. unfold handle_append_entries.
  destruct (N.ltb_spec (ae_term req) (current_term (ws_meta st))) as [|Hle]; [done|].
  match goal with |- context [follow_leader ?l ?x] =>
    destruct (follow_leader_eq l x) as (d & c & r & rr & hb & Hf);
    assert (ws_storage (follow_leader l x) = ws_storage st ∧
      ws_meta (follow_leader l x) = adopted (ae_term req) (ws_meta st)) as [Hs Hm]
      by (rewrite Hf; unfold adopted; by case_match);
    clear Hf; set (st1 := follow_leader l x) in * end.
  clearbody st1. wtrans 0%nat (Datatypes.S n); [by apply (writes_same _ _ st st1)|].
  apply writes_append_to_log. unfold ahead. rewrite Hs, Hm, Hco. unfold adopted, same_snap.
  case_match; simpl; repeat split; lia.
Qed.

Lemma writes_install_assembled n from req buf len st :
  coherent st → mem_snap_last_index (abs (ws_storage st)) < is_last_included_index req →
  writes (Datatypes.S n) (EvMsg (MsgInstallSnapshot from req)) st (install_assembled req buf len st).1.
Proof.
  intros Hco Hlt. unfold install_assembled.
  destruct (supplied_config_index req) as [sup|]; [|done].
  destruct (commit _ _) as [st1 r] eqn:Hc.
  eapply (writes_commit n (EvMsg (MsgInstallSnapshot from req))) in Hc.
  2:{ simpl. rewrite <- Hco. by apply (dw_install _ _ from). }
  destruct r; simpl; [|wtrans (Datatypes.S n) 0%nat; [exact Hc|by apply writes_same]].
  destruct (is_members req) as [|m ms]; (wtrans (Datatypes.S n) 0%nat; [exact Hc|]).
  - apply writes_same. simpl. by repeat case_match.
  - apply writes_same. match goal with |- context [rebuild_leader_tracking ?x] =>
      by destruct (rebuild_leader_tracking_eq x) as (? & -> & _) end.
Qed.

Lemma writes_receive_chunk n from req st :
  coherent st → writes (Datatypes.S n) (EvMsg (MsgInstallSnapshot from req)) st (receive_chunk from req st).1.
Proof.
  intros Hco. unfold receive_chunk.
  destruct (N.leb_spec (is_last_included_index req) (snap_last_index (ws_storage st)));
    [by apply writes_same|].
  do 2 (case_match; [by apply writes_same|]). destruct (negb (is_done req)); [by apply writes_same|].
  wtrans 0%nat (Datatypes.S n); [|apply writes_install_assembled]; [by apply writes_same|done|].
  simpl. by rewrite <- snap_last_index_abs.
Qed.

Lemma follow_leader_same l st :
  ws_storage (follow_leader l st) = ws_storage st ∧ ws_meta (follow_leader l st) = ws_meta st.
Proof. by destruct (follow_leader_eq l st) as (? & ? & ? & ? & ? & ->). Qed.

Lemma writes_install_adopt_term n ev req st :
  coherent st → writes (Datatypes.S n) ev st (install_adopt_term req st).1 ∧ coherent (install_adopt_term req st).1.
Proof.
  intros Hco. unfold install_adopt_term, persist_term_bump.
  destruct (N.ltb_spec (current_term (ws_meta st)) (is_term req)); [|done].
  destruct (commit _ st) as [st1 r] eqn:Hc. pose proof Hc as Hc'.
  eapply writes_commit in Hc; [|rewrite <- Hco in *; apply dw_scalars; [done..|simpl; lia]].
  destruct r as [[]|e]; simpl; split; try exact Hc.
  - apply commit_Ok in Hc' as (s' & -> & Habs). unfold coherent. simpl. by rewrite Habs.
  - apply commit_Err in Hc' as (s' & -> & Habs). unfold coherent. simpl. by rewrite Habs.
Qed.

Lemma writes_install_snapshot from req st :
  coherent st →
  writes 2 (EvMsg (MsgInstallSnapshot from req)) st (handle_install_snapshot from req st).1.
Proof.
  intros Hco. unfold handle_install_snapshot. case_match; [done|].
  pose proof (writes_install_adopt_term 0 (EvMsg (MsgInstallSnapshot from req)) req st Hco) as [Hw Hco1].
  destruct (install_adopt_term req st) as [st1 [[]|e]]; [|eapply writes_weaken; [eassumption|lia]].
  wtrans 1%nat 1%nat; [exact Hw|]. destruct (follow_leader_same (is_leader req) st1) as [Hs Hm].
  wtrans 0%nat 1%nat; [by apply (writes_same _ _ st1 (follow_leader (is_leader req) st1))|].
  apply writes_receive_chunk. unfold coherent. rewrite Hs, Hm. exact Hco1.
Qed.

(** ** Every event *)

Lemma writes_propose ev payload st : leader_event ev → coherent st → writes 3 ev st (handle_propose payload st).1.
Proof.
  intros Hev Hco. unfold handle_propose. destruct (negb _); [done|].
  destruct (commit _ st) as [st1 r] eqn:Hc. pose proof Hc as Hc'.
  eapply (writes_commit 0 ev) in Hc; [|rewrite last_index_abs, <- Hco; by apply dw_lead_append].
  destruct r as [[]|e]; simpl; [|eapply writes_weaken; [eassumption|lia]].
  apply commit_Ok in Hc' as (s' & -> & Habs). wtrans 1%nat 2%nat; [exact Hc|].
  match goal with |- context [try_advance_commit_index ?x] =>
    pose proof (writes_try_advance ev x Hev) as Hw; destruct (try_advance_commit_index x) end.
  apply Hw. unfold coherent. simpl. by rewrite Habs.
Qed.

Lemma writes_change_membership ev members st :
  leader_event ev → coherent st → writes 3 ev st (handle_change_membership members st).1.
Proof.
  intros Hev Hco. unfold handle_change_membership. destruct (negb _); [done|].
  destruct (is_joint _); [done|]. destruct members as [|m ms]; [done|].
  destruct (commit _ st) as [st1 r] eqn:Hc. pose proof Hc as Hc'.
  eapply (writes_commit 0 ev) in Hc; [|rewrite last_index_abs, <- Hco; by apply dw_lead_append].
  destruct r as [[]|e]; simpl; [|eapply writes_weaken; [eassumption|lia]].
  apply commit_Ok in Hc' as (s' & -> & Habs). wtrans 1%nat 2%nat; [exact Hc|].
  match goal with |- context [rebuild_leader_tracking ?x] =>
    destruct (rebuild_leader_tracking_eq x) as (l & -> & _) end.
  match goal with |- context [try_advance_commit_index ?x] =>
    pose proof (writes_try_advance ev x Hev) as Hw; destruct (try_advance_commit_index x) end.
  apply Hw. unfold coherent. simpl. by rewrite Habs.
Qed.

Lemma writes_read_index n ev timeout reply pending st :
  leader_event ev → coherent st → writes (Datatypes.S n) ev st (handle_read_index timeout reply pending st).1.
Proof.
  intros Hev Hco. unfold handle_read_index. do 3 (case_match; [by apply writes_same|]).
  destruct timeout; simpl;
    match goal with |- context [send_heartbeats ?p ?x] =>
      pose proof (writes_send_heartbeats n ev p x Hev Hco) as Hw;
      destruct (send_heartbeats p x) as [[]] end; done.
Qed.

Lemma writes_handle_msg pending msg st :
  coherent st → writes 4 (EvMsg msg) st (handle_msg pending msg st).1.1.
Proof.
  intros Hco.
  destruct msg as [from req|from req|from req|from req|payload|timeout reply|members| |];
    unfold handle_msg; try done.
  - pose proof (writes_append_entries 3 from req st Hco). by destruct (handle_append_entries _ _ _).
  - pose proof (writes_request_vote 3 (EvMsg (MsgRequestVote from req)) from req st Hco).
    by destruct (handle_request_vote _ _ _).
  - unfold handle_request_prevote, clock_now. repeat case_match; simplify_eq; by apply writes_same.
  - pose proof (writes_install_snapshot from req st Hco).
    destruct (handle_install_snapshot _ _ _). eapply writes_weaken; [eassumption|lia].
  - pose proof (writes_propose (EvMsg (MsgPropose payload)) payload st I Hco).
    destruct (handle_propose _ _). eapply writes_weaken; [eassumption|lia].
  - pose proof (writes_read_index 3 (EvMsg (MsgReadIndex timeout reply)) timeout reply pending st I Hco).
    by destruct (handle_read_index _ _ _ _).
  - pose proof (writes_change_membership (EvMsg (MsgChangeMembership members)) members st I Hco).
    destruct (handle_change_membership _ _). eapply writes_weaken; [eassumption|lia].
Qed.

Lemma writes_on_timer ev pending st : leader_event ev → coherent st → writes 4 ev st (on_timer pending st).1.
Proof.
  intros Hev Hco.
  assert (∀ st, coherent st → writes 4 ev st (start_pre_election pending st).1.1) as Hpre.
  { intros st0 Hco0. unfold start_pre_election. case_match; [|case_match].
    - apply writes_same. by destruct (reset_election_timer_eq st0) as (? & ? & ? & ->).
    - by apply writes_start_election.
    - apply writes_same. match goal with |- context [reset_election_timer ?x] =>
        by destruct (reset_election_timer_eq x) as (? & ? & ? & ->) end. }
  unfold on_timer. destruct (ws_role st).
  - destruct (pre_vote (ws_cfg st)).
    + specialize (Hpre st Hco). by destruct (start_pre_election pending st) as [[]].
    + pose proof (writes_start_election ev pending st Hev Hco).
      by destruct (start_election pending st) as [[]].
  - destruct (_ && _).
    + apply writes_same. match goal with |- context [reset_election_timer ?x] =>
        by destruct (reset_election_timer_eq x) as (? & ? & ? & ->) end.
    + match goal with |- context [start_pre_election pending ?x] =>
        specialize (Hpre x Hco); destruct (start_pre_election pending x) as [[]]; done end.
  - pose proof (writes_start_election ev pending st Hev Hco).
    by destruct (start_election pending st) as [[]].
  - pose proof (writes_send_heartbeats 3 ev pending st Hev Hco).
    by destruct (send_heartbeats pending st) as [[]].
Qed.

(** One event is a sequence of the batches of [dwrite]. *)
Lemma worker_step_writes wall ev pending st :
  coherent st → writes 4 ev st (worker_step wall ev pending st).1.1.
Proof.
  intros Hco. unfold worker_step. destruct ev as [msg| |outcome].
  - pose proof (writes_handle_msg pending msg st Hco). by destruct (handle_msg pending msg st) as [[]].
  - unfold on_worker_timer, clock_now.
    match goal with |- context [expire_pending_reads ?n ?x] =>
      destruct (expire_pending_reads_eq n x) as (rr & ->) end.
    match goal with |- context [on_timer pending ?x] =>
      pose proof (writes_on_timer EvTimer pending x I Hco) as Hw end.
    destruct (_ <=? _); [|by apply writes_same]. destruct (on_timer _ _); done.
  - by apply (writes_rpc_outcome (EvOutcome outcome) outcome st).
Qed.
End Writes.
