(* ===== verification/RaftLog.v ===== *)
(** * vos-raft: the replicated log of one replica

    The shape of the durable log: contiguous between the snapshot pointer and
    the last index, each entry stored under its own index, with the snapshot
    never past the commit index.  Every event keeps it, as long as AppendEntries
    requests do not reach below the local snapshot; the functional behaviour of
    AppendEntries on both of its outcomes; and what a leader may do to its own
    log. *)

From S2P Require Import Prelude RaftTypes RaftStorage RaftConfig RaftState RaftWorker RaftNode RaftWrites.

Local Open Scope N_scope.

Section Log.
Context {NID : Type}.
Implicit Types (d : MemStorage NID) (l : gmap N (LogEntry NID)).

(** The log holds exactly the indices after the snapshot, up to [n]. *)
Definition covers d (n : N) : Prop :=
  mem_snap_last_index d ≤ n ∧
  ∀ k, is_Some (mem_log d !! k) ↔ mem_snap_last_index d < k ≤ n.

Record log_wf d : Prop := {
  lw_covers : covers d (mem_last_index d);
  lw_index k e : mem_log d !! k = Some e → e_index e = k;
}.

Lemma covers_last d n : covers d n → mem_last_index d = n.
Proof.
  intros [Hle Hk]. unfold mem_last_index.
  destruct (last_key N.le (mem_log d)) as [k|] eqn:Hlast; simpl.
  - apply (last_key_Some N.le) in Hlast as [Hin Hmax]. apply Hk in Hin.
    assert (n ≤ k); [|lia]. apply Hmax, Hk. lia.
  - apply (last_key_None N.le) in Hlast. rewrite Hlast in Hk.
    destruct (decide (mem_snap_last_index d = n)) as [|Hne]; [done|].
    destruct (proj2 (Hk n)) as [e He]; [lia|]. by rewrite lookup_empty in He.
Qed.

Lemma log_wf_intro d n :
  covers d n → (∀ k e, mem_log d !! k = Some e → e_index e = k) → log_wf d.
Proof. intros Hc Hi. split; [|done]. by rewrite (covers_last d n Hc). Qed.

(** ** Appending consecutive entries *)

Definition consecutive (idx : N) (es : list (LogEntry NID)) : Prop :=
  ∀ i e, es !! i = Some e → e_index e = idx + N.of_nat i.

Lemma lookup_mem_append l idx es k :
  consecutive idx es →
  mem_append l es !! k =
  if decide (idx ≤ k < idx + N.of_nat (length es)) then es !! N.to_nat (k - idx) else l !! k.
Proof.
  unfold mem_append. revert l idx. induction es as [|e es IH]; intros l idx Hes; simpl.
  { rewrite decide_False by lia. done. }
  pose proof (Hes 0%nat e eq_refl) as He. rewrite N.add_0_r in He.
  rewrite (IH _ (idx + 1)).
  2:{ intros i e' Hi. rewrite (Hes (Datatypes.S i) e' Hi). lia. }
  destruct (decide (k = idx)) as [->|Hne].
  - rewrite decide_False by lia. rewrite decide_True by lia. rewrite He, N.sub_diag. simpl.
    by rewrite lookup_insert_eq.
  - destruct (decide (idx + 1 ≤ k < idx + 1 + N.of_nat (length es))).
    + rewrite decide_True by lia.
      by replace (N.to_nat (k - idx)) with (Datatypes.S (N.to_nat (k - (idx + 1)))) by lia.
    + rewrite decide_False by lia. rewrite He. by rewrite lookup_insert_ne.
Qed.

Lemma reindex_length idx es : length (reindex (NID := NID) idx es) = length es.
Proof. revert idx. induction es as [|e es IH]; intros idx; simpl; [done|]. by rewrite IH. Qed.

Lemma lookup_reindex idx es i :
  idx + N.of_nat (length es) ≤ u64_max →
  reindex (NID := NID) idx es !! i =
  (λ e, mkEntry (idx + N.of_nat i) (e_term e) (e_kind e)) <$> es !! i.
Proof.
  revert idx i. induction es as [|e es IH]; intros idx [|i]; simpl; intros Hr; [done..| |].
  - by rewrite N.add_0_r.
  - rewrite wrapping_add64_small by lia. rewrite IH by lia.
    destruct (es !! i); simpl; [|done]. do 2 f_equal. lia.
Qed.

Lemma consecutive_drop_reindex idx es n :
  idx + N.of_nat (length es) ≤ u64_max →
  consecutive (idx + N.of_nat n) (drop n (reindex idx es)).
Proof.
  intros Hr i e. rewrite lookup_drop, lookup_reindex by done.
  intros (e' & _ & ->)%fmap_Some. simpl. lia.
Qed.

(** ** The scan *)

(** The scan stops at the first index that is absent or has another term; before
    it, the terms agree. *)
Lemma mem_scan_spec d idx es conflict present :
  idx + N.of_nat (length es) ≤ u64_max →
  mem_scan d idx es = (conflict, present) →
  (present ≤ length es)%nat ∧
  (∀ i e, (i < present)%nat → es !! i = Some e → mem_term_at d (idx + N.of_nat i) = Some (e_term e)) ∧
  match conflict with
  | Some c => c = idx + N.of_nat present ∧ (present < length es)%nat ∧ is_Some (mem_term_at d c)
  | None => present = length es ∨ mem_term_at d (idx + N.of_nat present) = None
  end.
Proof.
  revert idx conflict present. induction es as [|e es IH]; intros idx conflict present Hr; simpl.
  { intros [= <- <-]. split_and!; [lia|lia|by left]. }
  simpl in Hr. rewrite wrapping_add64_small by lia.
  destruct (mem_term_at d idx) as [t|] eqn:Ht.
  2:{ intros [= <- <-]. split_and!; [lia|lia|]. right. by rewrite N.add_0_r. }
  destruct (N.eqb_spec t (e_term e)) as [Heq|Hne].
  2:{ intros [= <- <-]. split_and!; [lia|lia|by rewrite N.add_0_r|lia|eauto]. }
  destruct (mem_scan d (idx + 1) es) as [c p] eqn:Hs. intros [= <- <-].
  destruct (IH (idx + 1) _ _ ltac:(lia) Hs) as (Hlen & Hagree & Hc). split_and!; [lia| |].
  - intros [|i] e' Hi; simpl.
    + intros [= <-]. rewrite N.add_0_r. congruence.
    + intros He'. rewrite <- (Hagree i e') by (lia || done). f_equal. lia.
  - destruct c as [c|]; [destruct Hc as (-> & ? & ?); split_and!; [lia|lia|done]|].
    destruct Hc as [->|Hnone]; [by left|right]. rewrite <- Hnone. f_equal. lia.
Qed.

(** Above the snapshot, terms are those of the stored entries. *)
Lemma mem_term_at_above d k :
  mem_snap_last_index d < k → mem_term_at d k = e_term <$> mem_log d !! k.
Proof.
  intros Hk. unfold mem_term_at.
  destruct (N.eqb_spec k 0); [lia|]. destruct (N.ltb_spec k (mem_snap_last_index d)); [lia|].
  by destruct (N.eqb_spec k (mem_snap_last_index d)); [lia|].
Qed.

Lemma log_wf_term_at d k :
  log_wf d → mem_snap_last_index d < k →
  is_Some (mem_term_at d k) ↔ k ≤ mem_last_index d.
Proof.
  intros [[_ Hc] _] Hk. rewrite mem_term_at_above by done. rewrite fmap_is_Some, Hc. lia.
Qed.

(** ** Each kind of batch keeps the log well formed *)

Lemma log_wf_ext d d' :
  mem_log d' = mem_log d → mem_snap_last_index d' = mem_snap_last_index d → log_wf d → log_wf d'.
Proof.
  intros Hl Hs [Hc Hi]. apply (log_wf_intro d' (mem_last_index d)).
  - unfold covers. by rewrite Hl, Hs.
  - by rewrite Hl.
Qed.

(** Dropping a prefix up to [idx], which becomes the snapshot pointer. *)
Lemma log_wf_compact d d' idx :
  log_wf d → mem_snap_last_index d ≤ idx → mem_snap_last_index d' = idx →
  mem_log d' = mem_compact idx (mem_log d) →
  log_wf d' ∧ mem_last_index d' = N.max (mem_last_index d) idx.
Proof.
  intros [[Hle Hc] Hi] Hidx Hs Hl.
  assert (covers d' (N.max (mem_last_index d) idx)) as Hcov.
  { split; rewrite Hs; [lia|]. intros k. rewrite Hl. unfold mem_compact. split.
    - intros [e [He Hk]%map_lookup_filter_Some]. split; [done|].
      assert (mem_snap_last_index d < k ≤ mem_last_index d) by (apply Hc; eauto). lia.
    - intros Hk. destruct (proj2 (Hc k)) as [e He]; [lia|]. exists e.
      apply map_lookup_filter_Some. split; [done|lia]. }
  split; [|by apply covers_last]. apply (log_wf_intro _ _ Hcov).
  intros k e. rewrite Hl. intros [He _]%map_lookup_filter_Some. by apply Hi.
Qed.

(** Replacing everything after [base] by consecutive entries. *)
Lemma log_wf_append d d' base es :
  log_wf d → mem_snap_last_index d' = mem_snap_last_index d →
  mem_snap_last_index d ≤ base ≤ mem_last_index d → consecutive (base + 1) es →
  mem_log d' = mem_append (mem_truncate base (mem_log d)) es →
  log_wf d' ∧ mem_last_index d' = base + N.of_nat (length es).
Proof.
  intros [[Hle Hc] Hi] Hs Hb Hes Hl.
  assert (∀ k, mem_log d' !! k = if decide (base + 1 ≤ k < base + 1 + N.of_nat (length es))
    then es !! N.to_nat (k - (base + 1)) else mem_truncate base (mem_log d) !! k) as Hk.
  { intros k. rewrite Hl. by apply lookup_mem_append. }
  assert (covers d' (base + N.of_nat (length es))) as Hcov.
  { split; rewrite Hs; [lia|]. intros k. rewrite Hk. unfold mem_truncate.
    case_decide; [rewrite lookup_lt_is_Some; lia|]. split.
    - intros [e [He ?]%map_lookup_filter_Some].
      assert (mem_snap_last_index d < k ≤ mem_last_index d) by (apply Hc; eauto). lia.
    - intros ?. destruct (proj2 (Hc k)) as [e He]; [lia|]. exists e.
      apply map_lookup_filter_Some. split; [done|lia]. }
  split; [|by apply covers_last]. apply (log_wf_intro _ _ Hcov). intros k e. rewrite Hk.
  case_decide; [intros He%Hes; lia|]. unfold mem_truncate.
  intros [He _]%map_lookup_filter_Some. by apply Hi.
Qed.

(** Appending after the last index is a special case. *)
Lemma mem_truncate_last d : log_wf d → mem_truncate (mem_last_index d) (mem_log d) = mem_log d.
Proof.
  intros [[_ Hc] _]. unfold mem_truncate. apply map_filter_id. intros k e He.
  assert (mem_snap_last_index d < k ≤ mem_last_index d) by (apply Hc; eauto). lia.
Qed.

Lemma log_wf_term_at_le d k t :
  log_wf d → mem_snap_last_index d ≤ k → mem_term_at d k = Some t → k ≤ mem_last_index d.
Proof.
  intros Hwf Hk Ht. destruct (decide (k = mem_snap_last_index d)) as [->|Hne].
  - by destruct Hwf as [[? _] _].
  - apply log_wf_term_at; [done|lia|eauto].
Qed.

(** *** What AppendEntries makes of the log

    The entries up to the first mismatch stay, the rest of the request follows
    them, and what was there is dropped only on a conflict. *)
Record grafted d d' (prev : N) (es : list (LogEntry NID)) (present : nat) : Prop := {
  gr_wf : log_wf d';
  gr_kept k : k ≤ prev + N.of_nat present → mem_log d' !! k = mem_log d !! k;
  gr_new i e : (present ≤ i)%nat → es !! i = Some e →
    mem_log d' !! (prev + 1 + N.of_nat i) =
      Some (mkEntry (prev + 1 + N.of_nat i) (e_term e) (e_kind e));
  gr_last : mem_last_index d' = prev + N.of_nat (length es) ∨
    mem_log d' = mem_log d ∧ mem_last_index d' = mem_last_index d ∧
    prev + N.of_nat (length es) ≤ mem_last_index d;
}.

(** The common part: a suffix of the request appended after [prev + present]. *)
Lemma graft_suffix d d' prev es present :
  log_wf d → mem_snap_last_index d' = mem_snap_last_index d →
  mem_snap_last_index d ≤ prev → prev + N.of_nat present ≤ mem_last_index d →
  (present ≤ length es)%nat → prev + 1 + N.of_nat (length es) ≤ u64_max →
  mem_log d' = mem_append (mem_truncate (prev + N.of_nat present) (mem_log d))
                 (drop present (reindex (prev + 1) es)) →
  grafted d d' prev es present.
Proof.
  intros Hwf Hs Hsnap Hle Hlen Hr Hl.
  assert (consecutive (prev + N.of_nat present + 1) (drop present (reindex (prev + 1) es))) as Hcons.
  { replace (prev + N.of_nat present + 1) with (prev + 1 + N.of_nat present) by lia.
    by apply consecutive_drop_reindex. }
  destruct (log_wf_append d d' _ _ Hwf Hs (conj (N.le_trans _ _ _ Hsnap (N.le_add_r _ _)) Hle)
    Hcons Hl) as [Hwf' Hlast].
  rewrite length_drop, reindex_length in Hlast. split; [done|..].
  - intros k Hk. rewrite Hl, (lookup_mem_append _ _ _ _ Hcons). rewrite decide_False by lia.
    unfold mem_truncate. destruct (mem_log d !! k) as [e|] eqn:He.
    + apply map_lookup_filter_Some. split; [done|lia].
    + apply map_lookup_filter_None. by left.
  - intros j e Hj He. rewrite Hl, (lookup_mem_append _ _ _ _ Hcons).
    assert (j < length es)%nat by (by eapply lookup_lt_Some).
    rewrite decide_True by (rewrite length_drop, reindex_length; lia).
    rewrite lookup_drop, lookup_reindex by done.
    replace (present + N.to_nat (prev + 1 + N.of_nat j - (prev + N.of_nat present + 1)))%nat
      with j by lia.
    by rewrite He.
  - left. rewrite Hlast. lia.
Qed.

Lemma graft_spec d prev pt es conflict present m rec :
  log_wf d → mem_snap_last_index d ≤ prev → mem_term_at d prev = Some pt →
  prev + N.of_nat (length es) < u64_max →
  mem_scan d (prev ⊞ 1) es = (conflict, present) → same_snap (mem_meta d) m →
  grafted d (mem_commit_batch d (mkBatch ((λ idx, idx ⊟ 1) <$> conflict) None
    (drop present (reindex (prev ⊞ 1) es)) None (Some m) rec)) prev es present.
Proof.
  intros Hwf Hsnap Hprev Hr. rewrite wrapping_add64_small by lia. intros Hscan [Hs _].
  apply (log_wf_term_at_le _ _ _ Hwf Hsnap) in Hprev as Hple.
  destruct (mem_scan_spec d (prev + 1) es conflict present) as (Hlen & Hagree & Hc); [lia|done|].
  assert (prev + N.of_nat present ≤ mem_last_index d) as Hle.
  { destruct present as [|p]; [lia|]. destruct (lookup_lt_is_Some_2 es p) as [e He]; [lia|].
    specialize (Hagree p e ltac:(lia) He).
    apply (log_wf_term_at_le _ _ _ Hwf) in Hagree; lia. }
  destruct conflict as [c|].
  - destruct Hc as (-> & Hlt & Hc). apply graft_suffix; try done; [lia|].
    rewrite mem_commit_log. unfold batch_base. simpl.
    rewrite wrapping_sub64_small by lia. do 2 f_equal. lia.
  - destruct (decide (present = length es)) as [->|Hne].
    + assert (drop (length es) (reindex (prev + 1) es) = []) as Hnil
        by (apply drop_ge; by rewrite reindex_length).
      set (d' := mem_commit_batch _ _).
      assert (mem_log d' = mem_log d) as Hl.
      { subst d'. rewrite mem_commit_log. unfold batch_base. simpl. by rewrite Hnil. }
      split; [by apply (log_wf_ext d)|by intros; rewrite Hl| |].
      2:{ right. split_and!; [done| |done]. unfold mem_last_index, mem_snap_last_index in *.
          rewrite Hl. simpl. by rewrite Hs. }
      intros i e Hi He%lookup_lt_Some. lia.
    + destruct Hc as [?|Hnone]; [done|]. apply graft_suffix; try done; [lia|].
      rewrite mem_commit_log. unfold batch_base. simpl. f_equal.
      assert (prev + N.of_nat present = mem_last_index d) as ->.
      { assert (¬ (prev + 1 + N.of_nat present ≤ mem_last_index d)); [|lia].
        rewrite <- (log_wf_term_at d _ Hwf) by lia. rewrite Hnone. by intros []. }
      by rewrite mem_truncate_last.
Qed.

(** ** The log invariant *)

Record log_inv d : Prop := {
  li_wf : log_wf d;
  li_commit : mem_snap_last_index d ≤ commit_index (mem_meta d);
}.

(** An AppendEntries that does not reach below the local snapshot. *)
Definition above_snapshot (ev : WorkerEvent (NID := NID)) d : Prop :=
  match ev with
  | EvMsg (MsgAppendEntries _ req) => mem_snap_last_index d ≤ ae_prev_log_index req
  | _ => True
  end.

(** Room for the indices of the next [k] batches below [u64::MAX], where the
    code's [+ 1] wraps. *)
Definition index_room (k : nat) (ev : WorkerEvent (NID := NID)) d : Prop :=
  match ev with
  | EvMsg (MsgAppendEntries _ req) =>
      ae_prev_log_index req + N.of_nat (length (ae_entries req)) < u64_max
  | EvMsg (MsgInstallSnapshot _ _) => True
  | _ => mem_last_index d + N.of_nat k ≤ u64_max
  end.

Lemma index_room_step k ev d d' :
  (leader_event ev → mem_last_index d' ≤ mem_last_index d + 1) →
  index_room (Datatypes.S k) ev d → index_room k ev d'.
Proof. destruct ev as [[]| |]; simpl; try done; intros H; specialize (H I); lia. Qed.

Lemma index_room_last k ev d :
  leader_event ev → index_room (Datatypes.S k) ev d → mem_last_index d < u64_max.
Proof. destruct ev as [[]| |]; simpl; try done; lia. Qed.

Lemma last_index_ext d d' :
  mem_log d' = mem_log d → mem_snap_last_index d' = mem_snap_last_index d →
  mem_last_index d' = mem_last_index d.
Proof. unfold mem_last_index. by intros -> ->. Qed.

(** What a batch does to the shape of the log and to its end. *)
Lemma dbatch_log_inv k ev d b :
  let d' := mem_commit_batch d b in
  dbatch ev d b → log_inv d → above_snapshot ev d → index_room (Datatypes.S k) ev d →
  log_inv d' ∧ above_snapshot ev d' ∧ (leader_event ev → mem_last_index d' ≤ mem_last_index d + 1).
Proof.
  intros d' Hb [Hwf Hci] Hab Hroom. subst d'.
  destruct Hb as [m [Hs _] Hc _|c Hev Hlt Ht|k0 rec Hev|floor t Hev Hlt Hle _ Ht
    |from req m rec conflict present -> Hs _ Hprev Hscan Hc|from req m buf rec -> Hlt Hs _ Hc _].
  - split_and!.
    + split; [by apply (log_wf_ext d)|]. simpl in *. unfold mem_snap_last_index in *. simpl. lia.
    + destruct ev as [[]| |]; simpl in *; try done. unfold mem_snap_last_index in *. simpl. lia.
    + intros _. rewrite (last_index_ext d); [lia|done|done].
  - split_and!; [|by destruct ev as [[]| |]|].
    + split; [by apply (log_wf_ext d)|]. simpl. unfold mem_snap_last_index in *. simpl. lia.
    + intros _. rewrite (last_index_ext d); [lia|done|done].
  - apply (index_room_last _ _ _ Hev) in Hroom.
    edestruct (log_wf_append d (mem_commit_batch d (mkBatch None None
      [mkEntry (mem_last_index d ⊞ 1) (current_term (mem_meta d)) k0] None None rec))
      (mem_last_index d)) as [Hwf' Hlast]; [done|done| | |by rewrite mem_truncate_last, mem_commit_log|].
    + destruct Hwf as [[? _] _]. lia.
    + intros [|i] e; simpl; [|done]. intros [= <-]. simpl. rewrite wrapping_add64_small; lia.
    + split_and!; [done|by destruct ev as [[]| |]|]. intros _. rewrite Hlast. done.
  - edestruct (log_wf_compact d (mem_commit_batch d (mkBatch None (Some (floor, t)) [] None
      (Some (meta_set_snap floor t (mem_meta d))) None)) floor) as [Hwf' Hlast];
      [done|lia|done|by rewrite mem_commit_log|].
    split_and!; [done|by destruct ev as [[]| |]|]. intros _. rewrite Hlast.
    apply (log_wf_term_at_le _ _ _ Hwf) in Ht; lia.
  - simpl in Hab, Hroom.
    pose proof (graft_spec d _ _ _ _ _ m rec Hwf Hab Hprev Hroom Hscan Hs) as [Hwf' _ _ _].
    destruct Hs as [Hs _].
    split_and!; [split; [done|]| |done]; simpl; unfold mem_snap_last_index in *; simpl; lia.
  - split_and!; [|done|done]. split; [|unfold mem_snap_last_index; simpl; lia].
    eapply (log_wf_compact d _ (is_last_included_index req)); [done|lia|done|].
    by rewrite mem_commit_log.
Qed.

Lemma writes_log_inv k ev d d' :
  bsteps (dwrite ev) k d d' → log_inv d → above_snapshot ev d → index_room k ev d → log_inv d'.
Proof.
  induction 1 as [|k d d1 d' (b & Hb & ->) Hrest IH]; [done|]. intros Hi Ha Hr.
  destruct (dbatch_log_inv _ _ _ _ Hb Hi Ha Hr) as (? & ? & ?).
  apply IH; [done..|]. by eapply index_room_step.
Qed.
End Log.

Section Replica.
Context {NID S E : Type} `{!NodeId NID} `{!Storage NID S E} `{!StorageLaws NID S E}.
Implicit Types (st : WorkerState NID S).

(** ** AppendEntries *)

(** The scalars and the log are written together or not at all, and a success
    reply means that the request's entries are in the log. *)
Lemma append_to_log_cases req ms st st' resp :
  append_to_log req ms st = (st', Ok resp) →
  (aer_success resp = false ∧ mem_log (abs (ws_storage st')) = mem_log (abs (ws_storage st)) ∧
   mem_term_at (abs (ws_storage st)) (ae_prev_log_index req) ≠ Some (ae_prev_log_term req)) ∨
  (aer_success resp = true ∧
   mem_term_at (abs (ws_storage st)) (ae_prev_log_index req) = Some (ae_prev_log_term req) ∧
   aer_match_index resp = ae_prev_log_index req ⊞ N.of_nat (length (ae_entries req)) ∧
   ∃ conflict present m rec,
     mem_scan (abs (ws_storage st)) (ae_prev_log_index req ⊞ 1) (ae_entries req) =
       (conflict, present) ∧
     same_snap (ws_meta st) m ∧
     abs (ws_storage st') = mem_commit_batch (abs (ws_storage st))
       (mkBatch ((λ idx, idx ⊟ 1) <$> conflict) None
          (drop present (reindex (ae_prev_log_index req ⊞ 1) (ae_entries req)))
          None (Some m) rec)).
Proof.
  unfold append_to_log.
  destruct (term_at _ _) as [pt|] eqn:Hpt; [|done]. apply term_at_abs in Hpt.
  case_bool_decide as Hprev.
  { destruct (commit _ _) as [st1 [[]|e]] eqn:Hc; [|done]. intros [= <- <-]. left.
    apply commit_Ok in Hc as (s' & -> & Habs). simpl. rewrite Habs.
    split_and!; [done..|]. congruence. }
  assert (pt = Some (ae_prev_log_term req)) as ->
    by (by destruct (decide (pt = Some (ae_prev_log_term req)))).
  destruct (scan_entries _ _ _) as [[ca ap]|] eqn:Hscan; [|done].
  apply scan_entries_mem in Hscan. set (adv := _ && _). set (nc := N.min _ _).
  match goal with |- context [append_active_view ?x _ _ _] => set (st2 := x) end.
  assert (ws_storage st2 = ws_storage st ∧ same_snap (ws_meta st) (ws_meta st2)) as [Hs2 Hsn].
  { subst st2. by destruct adv. }
  clearbody st2 adv. destruct (append_active_view _ _ _ _) as [view|]; [|done].
  destruct (commit _ _) as [st3 [[]|e]] eqn:Hc; [|done]. intros [= <- <-]. right.
  apply commit_Ok in Hc as (s' & -> & Habs). rewrite Hs2 in Habs. split_and!; [done..|].
  eexists ca, ap, _, _. split_and!; [done|exact Hsn|].
  transitivity (abs s'); [|exact Habs].
  destruct view as [[rec [[active idx] pend]]|]; [|by destruct adv].
  match goal with |- context [rebuild_leader_tracking ?x] =>
    destruct (rebuild_leader_tracking_eq x) as (? & -> & _) end. by destruct adv.
Qed.

Lemma handle_append_entries_ok from req st st' resp :
  handle_append_entries from req st = (st', Ok resp) →
  (ae_term req < current_term (ws_meta st) ∧ st' = st ∧ aer_success resp = false) ∨
  current_term (ws_meta st) ≤ ae_term req ∧
  ∃ st1, append_to_log req (ws_meta st) st1 = (st', Ok resp) ∧ ws_storage st1 = ws_storage st ∧
    same_snap (ws_meta st) (ws_meta st1).
Proof.
  unfold handle_append_entries.
  destruct (N.ltb_spec (ae_term req) (current_term (ws_meta st))).
  { intros [= <- <-]. by left. }
  intros Ha. right. split; [done|]. eexists. split; [exact Ha|].
  match goal with |- context [follow_leader ?l ?x] =>
    destruct (follow_leader_same l x) as [-> ->] end.
  by case_match.
Qed.

(** A success reply: the log now holds the request's entries after [prev]. *)
Lemma append_success_grafts from req st st' resp :
  coherent st → log_wf (abs (ws_storage st)) →
  mem_snap_last_index (abs (ws_storage st)) ≤ ae_prev_log_index req →
  ae_prev_log_index req + N.of_nat (length (ae_entries req)) < u64_max →
  handle_append_entries from req st = (st', Ok resp) → aer_success resp = true →
  aer_match_index resp = ae_prev_log_index req + N.of_nat (length (ae_entries req)) ∧
  ∃ present,
    grafted (abs (ws_storage st)) (abs (ws_storage st')) (ae_prev_log_index req)
      (ae_entries req) present ∧
    ∀ i e, (i < present)%nat → ae_entries req !! i = Some e →
      mem_term_at (abs (ws_storage st)) (ae_prev_log_index req + 1 + N.of_nat i) = Some (e_term e).
Proof.
  intros Hco Hwf Hsnap Hr [(_ & _ & ?)|(_ & st1 & Ha & Hs & Hsn)]%handle_append_entries_ok Hsucc;
    [congruence|].
  apply append_to_log_cases in Ha as [[? _]|(_ & Hprev & Hmatch & conflict & present & m & rec &
    Hscan & Hm & Habs)]; [congruence|].
  rewrite Hs in *. rewrite wrapping_add64_small in Hmatch by lia. split; [done|].
  exists present. rewrite Habs. split.
  - eapply graft_spec; try done. rewrite Hco. unfold same_snap in *. intuition congruence.
  - rewrite wrapping_add64_small in Hscan by lia.
    eapply mem_scan_spec; [|exact Hscan]. lia.
Qed.

(** Terms of the request, at their indices. *)
Lemma grafted_terms (d d' : MemStorage NID) prev es present :
  grafted d d' prev es present → mem_snap_last_index d ≤ prev →
  (∀ i e, (i < present)%nat → es !! i = Some e →
    mem_term_at d (prev + 1 + N.of_nat i) = Some (e_term e)) →
  ∀ i e, es !! i = Some e →
    ∃ e', mem_log d' !! (prev + 1 + N.of_nat i) = Some e' ∧ e_term e' = e_term e.
Proof.
  intros [_ Hkept Hnew _] Hsnap Hagree i e He. destruct (decide (i < present)%nat) as [Hi|Hi].
  - pose proof (Hagree i e Hi He) as Ht. rewrite mem_term_at_above in Ht by lia.
    apply fmap_Some in Ht as (e' & He' & ->). exists e'. split; [|done]. rewrite Hkept by lia. done.
  - eexists. split; [apply Hnew; [lia|done]|done].
Qed.

(** ** A leader's own log *)

Definition keeps_entries (d d' : MemStorage NID) : Prop :=
  mem_snap_last_index d ≤ mem_snap_last_index d' ∧
  ∀ k e, mem_log d !! k = Some e → mem_snap_last_index d' < k → mem_log d' !! k = Some e.

Lemma dbatch_keeps_entries k ev (d : MemStorage NID) b :
  leader_event ev → dbatch ev d b → log_wf d → index_room (Datatypes.S k) ev d →
  keeps_entries d (mem_commit_batch d b).
Proof.
  intros Hev Hb Hwf Hroom%index_room_last; [|done].
  destruct Hb as [m [Hs _] _ _|c _ _ _|k0 rec _|floor t _ Hlt _ _ _
    |from req m rec conflict present -> _ _ _ _ _|from req m buf rec -> _ _ _ _ _];
    try done.
  - unfold keeps_entries, mem_snap_last_index in *. simpl. split; [lia|done].
  - split; [done|]. intros j e He _. rewrite mem_commit_log. unfold batch_base, mem_append. simpl.
    rewrite lookup_insert_ne; [done|]. rewrite wrapping_add64_small by lia. intros <-.
    assert (mem_snap_last_index d < mem_last_index d + 1 ≤ mem_last_index d)
      by (apply Hwf; eauto). lia.
  - split; [unfold mem_snap_last_index in *; simpl; lia|]. intros j e He Hj.
    rewrite mem_commit_log. unfold batch_base, mem_compact, mem_append. simpl.
    by apply map_lookup_filter_Some.
Qed.

Lemma writes_keep_entries k ev (d d' : MemStorage NID) :
  leader_event ev → bsteps (dwrite ev) k d d' → log_inv d → index_room k ev d →
  keeps_entries d d'.
Proof.
  intros Hev. induction 1 as [|k d d1 d' (b & Hb & ->) Hrest IH]; [by split|]. intros Hi Hr.
  destruct (dbatch_keeps_entries _ _ _ _ Hev Hb (li_wf _ Hi) Hr) as [Hs1 Hk1].
  destruct (dbatch_log_inv k _ _ _ Hb Hi) as (Hi' & _ & Hlast); [by destruct ev as [[]| |]|done|].
  destruct (IH Hi') as [Hs2 Hk2]; [by eapply index_room_step|].
  split; [lia|]. intros j e He Hj. apply Hk2; [|done]. apply Hk1; [done|lia].
Qed.

Lemma append_to_log_role req ms st : ws_role (append_to_log req ms st).1 = ws_role st.
Proof.
  unfold append_to_log. destruct (term_at _ _); [|done]. case_match.
  { destruct (commit _ _) as [st1 [[]|e]] eqn:Hc;
      [apply commit_Ok in Hc as (? & -> & _)|apply commit_Err in Hc as (? & -> & _)]; done. }
  destruct (scan_entries _ _ _) as [[ca ap]|]; [|done].
  set (adv := _ && _). match goal with |- context [append_active_view ?x _ _ _] => set (st2 := x) end.
  assert (ws_role st2 = ws_role st) as Hr by (subst st2; by destruct adv).
  clearbody st2 adv. destruct (append_active_view _ _ _ _) as [view|]; [|done].
  destruct (commit _ _) as [st1 [[]|e]] eqn:Hc.
  - apply commit_Ok in Hc as (s' & -> & _). rewrite <- Hr.
    destruct view as [[rec [[active idx] pend]]|]; [|by destruct adv].
    match goal with |- context [rebuild_leader_tracking ?x] =>
      destruct (rebuild_leader_tracking_eq x) as (? & -> & _) end. by destruct adv.
  - apply commit_Err in Hc as (s' & -> & _). done.
Qed.

Lemma receive_chunk_role from req st : ws_role (receive_chunk from req st).1 = ws_role st.
Proof.
  unfold receive_chunk. do 3 (case_match; [done|]). destruct (negb (is_done req)); [done|].
  unfold install_assembled. destruct (supplied_config_index req); [|done].
  destruct (commit _ _) as [st1 [[]|e]] eqn:Hc.
  - apply commit_Ok in Hc as (s' & -> & _). destruct (is_members req).
    + simpl. by repeat case_match.
    + match goal with |- context [rebuild_leader_tracking ?x] =>
        destruct (rebuild_leader_tracking_eq x) as (? & -> & _) end. done.
  - apply commit_Err in Hc as (s' & -> & _). done.
Qed.

Lemma follow_leader_role l st : ws_role (follow_leader l st) = Follower.
Proof. by destruct (follow_leader_eq l st) as (? & ? & ? & ? & ? & ->). Qed.

(** A leader that stays one changed nothing on another leader's RPC. *)
Lemma foreign_rpc_no_write wall ev pending st :
  ws_role (worker_step wall ev pending st).1.1 = Leader → ¬ leader_event ev →
  abs (ws_storage (worker_step wall ev pending st).1.1) = abs (ws_storage st).
Proof.
  intros Hr Hev. destruct ev as [[from req| | |from req| | | | |]| |]; try (by destruct Hev);
    unfold worker_step, handle_msg in *.
  - unfold handle_append_entries in *. destruct (ae_term req <? _); [done|].
    match goal with |- context [append_to_log ?r ?m ?x] =>
      pose proof (append_to_log_role r m x) as Hrole; rewrite follow_leader_role in Hrole;
      destruct (append_to_log r m x); simpl in * end. congruence.
  - unfold handle_install_snapshot in *. destruct (is_term req <? _); [done|].
    assert (∀ st1 e, install_adopt_term req st = (st1, Err e) →
      abs (ws_storage st1) = abs (ws_storage st)) as Herr.
    { intros st1 e. unfold install_adopt_term, persist_term_bump.
      destruct (_ <? _); [|done]. destruct (commit _ _) as [st2 [[]|e']] eqn:Hc; [done|].
      intros [= <- <-]. by apply commit_Err in Hc as (s' & -> & ?). }
    destruct (install_adopt_term req st) as [st1 [[]|e]]; [|exact (Herr _ _ eq_refl)].
    match goal with |- context [receive_chunk ?r ?m ?x] =>
      pose proof (receive_chunk_role r m x) as Hrole; rewrite follow_leader_role in Hrole;
      destruct (receive_chunk r m x); simpl in * end. congruence.
Qed.

Lemma leader_event_dec (ev : WorkerEvent (NID := NID)) : leader_event ev ∨ ¬ leader_event ev.
Proof. destruct ev as [[]| |]; simpl; auto. Qed.

Lemma append_to_log_err req ms st st' e :
  append_to_log req ms st = (st', Err e) → abs (ws_storage st') = abs (ws_storage st).
Proof.
  unfold append_to_log. destruct (term_at _ _); [|by intros [= <- _]].
  case_match.
  { destruct (commit _ _) as [st1 [[]|e']] eqn:Hc; [done|]. intros [= <- _].
    by apply commit_Err in Hc as (s' & -> & ?). }
  destruct (scan_entries _ _ _) as [[ca ap]|]; [|by intros [= <- _]].
  set (adv := _ && _). match goal with |- context [append_active_view ?x _ _ _] => set (st2 := x) end.
  assert (ws_storage st2 = ws_storage st) as Hs by (subst st2; by destruct adv).
  clearbody st2 adv. destruct (append_active_view _ _ _ _) as [view|].
  - destruct (commit _ _) as [st1 [[]|e']] eqn:Hc; [done|]. intros [= <- _].
    apply commit_Err in Hc as (s' & -> & Habs). simpl. congruence.
  - intros [= <- _]. simpl. congruence.
Qed.

(** ** The properties *)

(** C7: The durable log stays contiguous from the snapshot pointer to the last
    index, with every entry under its own index and the snapshot at or below the
    commit index, over every event and whichever writes fail, when the event is
    not an AppendEntries whose [prev_log_index] lies below the local snapshot and
    its indices stay below [u64::MAX]: those of the request, or the last index
    and the four batches that an event writes at most. *)
Theorem log_stays_well_formed wall ev pending st :
  node_inv st → log_inv (abs (ws_storage st)) → above_snapshot ev (abs (ws_storage st)) →
  index_room 4 ev (abs (ws_storage st)) →
  log_inv (abs (ws_storage (worker_step wall ev pending st).1.1)).
Proof.
  intros Hi Hl Ha Hr. eapply (writes_log_inv 4 ev); [|exact Hl|exact Ha|exact Hr].
  apply scommits_dwrites, worker_step_writes, Hi.
Qed.

(** A success reply to AppendEntries reports the last index of the request,
    and the log then holds, at each index of the request, an entry of the
    request's term, after an unchanged prefix up to [prev_log_index], when the
    request does not reach below the local snapshot and its indices stay below
    [u64::MAX]. *)
Theorem append_entries_success from req st st' resp :
  node_inv st → log_wf (abs (ws_storage st)) →
  mem_snap_last_index (abs (ws_storage st)) ≤ ae_prev_log_index req →
  ae_prev_log_index req + N.of_nat (length (ae_entries req)) < u64_max →
  handle_append_entries from req st = (st', Ok resp) → aer_success resp = true →
  let d := abs (ws_storage st) in
  let d' := abs (ws_storage st') in
  let prev := ae_prev_log_index req in
  aer_match_index resp = prev + N.of_nat (length (ae_entries req)) ∧
  mem_term_at d prev = Some (ae_prev_log_term req) ∧
  log_wf d' ∧ prev + N.of_nat (length (ae_entries req)) ≤ mem_last_index d' ∧
  (∀ k, k ≤ prev → mem_log d' !! k = mem_log d !! k) ∧
  (∀ i e, ae_entries req !! i = Some e →
    ∃ e', mem_log d' !! (prev + 1 + N.of_nat i) = Some e' ∧ e_term e' = e_term e).
Proof.
  intros Hi Hwf Hsnap Hr Ha Hs.
  destruct (append_success_grafts from req st st' resp (ni_meta st Hi) Hwf Hsnap Hr Ha Hs)
    as (Hm & present & Hg & Hagree).
  split_and!; [done| |apply Hg| |intros; apply Hg; lia|by eapply grafted_terms].
  - apply handle_append_entries_ok in Ha as [(_ & _ & ?)|(_ & st1 & Ha & Hst & _)]; [congruence|].
    apply append_to_log_cases in Ha as [[? _]|(_ & Hprev & _)]; [congruence|]. by rewrite <- Hst.
  - destruct (gr_last _ _ _ _ _ Hg) as [->|(_ & -> & Hle)]; [lia|done].
Qed.

(** AppendEntries that is refused, or that fails in storage, leaves the log
    as it was; it is refused for a stale term or when the log has no entry of
    [prev_log_term] at [prev_log_index], and otherwise succeeds. *)
Theorem append_entries_refused from req st :
  let d := abs (ws_storage st) in
  match handle_append_entries from req st with
  | (st', Err _) => abs (ws_storage st') = d
  | (st', Ok resp) =>
      if aer_success resp
      then current_term (ws_meta st) ≤ ae_term req ∧
           mem_term_at d (ae_prev_log_index req) = Some (ae_prev_log_term req)
      else mem_log (abs (ws_storage st')) = mem_log d ∧
           (ae_term req < current_term (ws_meta st) ∨
            mem_term_at d (ae_prev_log_index req) ≠ Some (ae_prev_log_term req))
  end.
Proof.
  cbv zeta. destruct (handle_append_entries from req st) as [st' [resp|e]] eqn:Ha.
  - apply handle_append_entries_ok in Ha as [(Hlt & -> & ->)|(Hle & st1 & Ha & Hs & _)]; [by auto|].
    apply append_to_log_cases in Ha as [(-> & Hl & Hp)|(-> & Hp & _)]; rewrite Hs in *; by auto.
  - unfold handle_append_entries in Ha. destruct (_ <? _); [done|].
    apply append_to_log_err in Ha. rewrite Ha.
    match goal with |- context [follow_leader ?l ?x] =>
      destruct (follow_leader_same l x) as [-> _] end. by case_match.
Qed.

(** Leader Append-Only.  An event that leaves a replica leading has not
    changed or removed any entry of its log, apart from the compacted prefix, when
    the last index is at least four below [u64::MAX]. *)
Theorem leader_append_only wall ev pending st :
  let st' := (worker_step wall ev pending st).1.1 in
  node_inv st → log_inv (abs (ws_storage st)) →
  mem_last_index (abs (ws_storage st)) + 4 ≤ u64_max → ws_role st' = Leader →
  ∀ k e, mem_log (abs (ws_storage st)) !! k = Some e →
    mem_snap_last_index (abs (ws_storage st')) < k →
    mem_log (abs (ws_storage st')) !! k = Some e.
Proof.
  cbv zeta. intros Hi Hl Hroom Hr. destruct (leader_event_dec ev) as [Hev|Hev].
  - eapply (writes_keep_entries 4); [exact Hev| |exact Hl|by destruct ev as [[]| |]].
    apply scommits_dwrites, worker_step_writes, Hi.
  - by rewrite (foreign_rpc_no_write wall ev pending st Hr Hev).
Qed.
End Replica.

(** ** Concrete logs *)

(** Three entries of terms 1, 1 and 1, committed up to 1, in term 1. *)
Definition sample_entries : list (LogEntry N) :=
  [entry_data 1 1 []; entry_data 2 1 [Byte.x01]; entry_data 3 1 [Byte.x02]].
Definition sample_store : MemStorage N :=
  mem_commit_batch mem_new
    (mkBatch None None sample_entries None (Some (mkMeta 1 None 1 0 0)) None).

Lemma sample_store_wf : log_wf sample_store.
Proof.
  eapply (log_wf_append mem_new sample_store 0 sample_entries); [|done|done| |done].
  - apply (log_wf_intro _ 0); [|done]. split; [done|]. intros k. simpl. rewrite lookup_empty.
    split; [by intros []|lia].
  - intros [|[|[|i]]] e He; simplify_eq/=; done.
Qed.

Lemma sample_store_inv : log_inv sample_store.
Proof. split; [apply sample_store_wf|done]. Qed.

(** Replica 1 of three, over those entries. *)
Definition sample_follower : WorkerState N (MemStorage N) :=
  sample_worker sample_store (config_new 1 [1; 2; 3]).

(** A leader of term 2 replaces the entry at index 3. *)
Definition sample_append : AppendEntriesReq N :=
  mkAppendReq 2 2 1 1 2 [entry_data 2 1 [Byte.x01]; entry_data 3 2 [Byte.x03]].

Lemma log_stays_well_formed_witness :
  log_inv (abs (ws_storage
    (worker_step 0 (EvMsg (MsgAppendEntries 2 sample_append)) [] sample_follower).1.1)).
Proof.
  apply (log_stays_well_formed 0 (EvMsg (MsgAppendEntries 2 sample_append)) [] sample_follower).
  - apply sample_worker_inv.
  - apply sample_store_inv.
  - vm_compute. discriminate.
  - vm_compute. reflexivity.
Defined.

Lemma append_entries_success_witness :
  ∃ st' resp, handle_append_entries 2 sample_append sample_follower = (st', Ok resp) ∧
    aer_match_index resp = 3 ∧
    ∃ e', mem_log (abs (ws_storage st')) !! 3 = Some e' ∧ e_term e' = 2.
Proof.
  destruct (handle_append_entries 2 sample_append sample_follower) as [st' [resp|x]] eqn:Ha.
  2:{ exfalso. revert Ha. vm_compute. discriminate. }
  assert (aer_success resp = true) as Hs.
  { revert Ha. vm_compute. intros [= _ <-]. reflexivity. }
  destruct (append_entries_success 2 sample_append sample_follower st' resp
    (sample_worker_inv _ _) sample_store_wf ltac:(vm_compute; discriminate)
    ltac:(vm_compute; reflexivity) Ha Hs)
    as (Hm & _ & _ & _ & _ & Hall).
  exists st', resp. split; [reflexivity|]. split; [exact Hm|].
  exact (Hall 1%nat (entry_data 3 2 [Byte.x03]) eq_refl).
Defined.

(** A single-member cluster elects itself on its first timeout. *)
Lemma leader_append_only_witness :
  mem_log (abs (ws_storage
    (worker_step 0 EvTimer [] (sample_worker sample_store (config_new 1 [1]))).1.1)) !! 2 =
  Some (entry_data 2 1 [Byte.x01]).
Proof.
  apply (leader_append_only 0 EvTimer [] (sample_worker sample_store (config_new 1 [1]))).
  - apply sample_worker_inv.
  - apply sample_store_inv.
  - vm_compute. discriminate.
  - vm_compute. reflexivity.
  - vm_compute. reflexivity.
  - vm_compute. reflexivity.
Defined.
