(* ===== verification/RaftOps.v ===== *)
(** * vos-raft: operation by operation

    What single operations of the worker do, on every branch: advancing the
    commit index, compacting, answering a pre-vote, registering and resolving
    read barriers, and drawing an election timeout. *)

From S2P Require Import Prelude RaftTypes RaftStorage RaftConfig RaftState RaftWorker RaftNode RaftWrites RaftLog.

Local Open Scope N_scope.

Section Ops.
Context {NID S E : Type} `{!NodeId NID} `{!Storage NID S E} `{!StorageLaws NID S E}.
Implicit Types (st : WorkerState NID S).

(** ** Commit and compaction *)

Lemma auto_finalize_commit st :
  commit_index (ws_meta (auto_finalize_joint_config st).1) = commit_index (ws_meta st).
Proof.
  unfold auto_finalize_joint_config. case_match; [done|].
  destruct (ws_pending_joint_entry st); [|done]. case_match; [done|].
  destruct (commit _ st) as [st1 [[]|e]] eqn:Hc;
    [apply commit_Ok in Hc as (s' & -> & _)|by apply commit_Err in Hc as (s' & -> & _)].
  match goal with |- context [rebuild_leader_tracking ?x] =>
    destruct (rebuild_leader_tracking_eq x) as (? & -> & _) end.
  simpl. case_match; [done|].
  match goal with |- context [step_down ?x] =>
    by destruct (step_down_eq x) as (? & ? & ? & ? & ->) end.
Qed.

Lemma quorum_needs_voters (c : ActiveConfig NID) p : quorum_holds c p = true → [] ∉ voter_sets c.
Proof.
  rewrite quorum_holds_spec. intros Hq Hin. specialize (Hq [] Hin). unfold majority_of in Hq. simpl in Hq. lia.
Qed.

(** C36: The commit index of a leader moves only to an index that a quorum of
    the active configuration holds (of both configurations in a joint phase),
    whose entry is of the leader's own term, and it moves to the greatest such
    index a quorum holds; unless storage fails, it does move there whenever that
    index is above it and its entry is of the leader's term. *)
Theorem commit_index_needs_quorum st :
  let '(st', r) := try_advance_commit_index st in
  let held g := quorum_holds (ws_effective_cfg st) (λ m, g <=? member_match_score st m) = true in
  let greatest g := held g ∧ ∀ g', held g' → g' ≤ g in
  (commit_index (ws_meta st') = commit_index (ws_meta st) ∨
   commit_index (ws_meta st) < commit_index (ws_meta st') ∧ greatest (commit_index (ws_meta st')) ∧
   mem_term_at (abs (ws_storage st)) (commit_index (ws_meta st')) = Some (current_term (ws_meta st))) ∧
  (∀ g, r = Ok () → is_Some (ws_leader st) → greatest g → commit_index (ws_meta st) < g →
     mem_term_at (abs (ws_storage st)) g = Some (current_term (ws_meta st)) → commit_index (ws_meta st') = g).
Proof.
  destruct (try_advance_commit_index st) as [st' r] eqn:Hadv. cbv zeta.
  assert (Hfloor : ∀ g, is_Some (ws_leader st) →
    quorum_holds (ws_effective_cfg st) (λ m, g <=? member_match_score st m) = true ∧
    (∀ g', quorum_holds (ws_effective_cfg st) (λ m, g' <=? member_match_score st m) = true → g' ≤ g) →
    match_index_majority_floor st = Some g).
  { intros g [l Hl] [Hg Hmax]. unfold match_index_majority_floor. rewrite Hl. simpl. apply majority_floor_characterised.
    split; [exact (quorum_needs_voters _ _ Hg)|done]. }
  revert Hadv. unfold try_advance_commit_index.
  destruct (match_index_majority_floor st) as [mf|] eqn:Hmf.
  2: { intros [= <- <-]. split; [by left|]. intros g _ Hl Hg. pose proof (Hfloor g Hl Hg). congruence. }
  destruct (N.leb_spec mf (commit_index (ws_meta st))) as [Hle|Hlt].
  { intros [= <- <-]. split; [by left|]. intros g _ Hl Hg. apply (Hfloor g Hl) in Hg. simplify_eq. lia. }
  destruct (term_at _ mf) as [t|] eqn:Ht; [|by intros [= <- <-]; split; [left|]]. apply term_at_abs in Ht.
  case_bool_decide as Ht'.
  { intros [= <- <-]. split; [by left|]. intros g _ Hl Hg. apply (Hfloor g Hl) in Hg. simplify_eq. congruence. }
  destruct (commit _ _) as [st1 [[]|e]] eqn:Hc.
  2: { apply commit_Err in Hc as (s' & -> & _). intros [= <- <-]. split; [by left|done]. }
  apply commit_Ok in Hc as (s' & -> & _). intros Hfin.
  pose proof (auto_finalize_commit (fire_apply_notification (with_storage s' (with_meta (meta_set_commit mf (ws_meta st)) st)))) as Hci.
  rewrite Hfin in Hci. simpl in Hci. rewrite Hci. split.
  - right. unfold match_index_majority_floor in Hmf. destruct (ws_leader st); [|done]. simpl in Hmf.
    split; [done|]. split; [by apply majority_floor_greatest|]. congruence.
  - intros g _ Hl Hg. apply (Hfloor g Hl) in Hg. by simplify_eq.
Qed.

(** Compaction drops only what is committed, applied locally, and held by a
    quorum, and it does not happen within the hysteresis of the last one. *)
Theorem compaction_is_safe st :
  node_inv st →
  let d := abs (ws_storage st) in
  let d' := abs (ws_storage (try_compact st).1) in
  d' = d ∨
  mem_snap_last_index d + compact_hysteresis (ws_cfg st) ≤ mem_snap_last_index d' ∧
  mem_snap_last_index d' ≤ commit_index (mem_meta d) ∧
  (∀ a, mem_applied_index_ d = Some a → mem_snap_last_index d' ≤ a) ∧
  quorum_holds (ws_effective_cfg st)
    (λ m, mem_snap_last_index d' <=? member_match_score st m) = true ∧
  mem_term_at d (mem_snap_last_index d') = Some (mem_snap_last_term d') ∧
  mem_log d' = mem_compact (mem_snap_last_index d') (mem_log d).
Proof.
  intros Hi d. cbv zeta. unfold try_compact. destruct (ws_leader st) eqn:Hl; [|by left].
  destruct (match_index_majority_floor st) as [mf|] eqn:Hmf; [|by left].
  destruct (applied_index _) as [ap|] eqn:Hap; [|by left]. apply applied_index_abs in Hap.
  rewrite snap_last_index_abs. set (floor := N.min _ _).
  assert (floor ≤ commit_index (ws_meta st)) as Hfc by (unfold floor; lia).
  assert (floor ≤ mf) as Hfm by (unfold floor; lia).
  assert (∀ a, ap = Some a → floor ≤ a) as Hfa by (intros a ->; unfold floor; simpl; lia).
  clearbody floor. subst ap.
  destruct (N.leb_spec floor (mem_snap_last_index (abs (ws_storage st)))); [by left|]. simpl.
  destruct (N.ltb_spec (floor - mem_snap_last_index (abs (ws_storage st)))
              (compact_hysteresis (ws_cfg st))); [by left|].
  destruct (term_at _ _) as [[t|]|] eqn:Ht; [|by left..]. apply term_at_abs in Ht.
  destruct (commit _ _) as [st1 [[]|e]] eqn:Hc.
  2:{ apply commit_Err in Hc as (s' & -> & Habs). left. exact Habs. }
  apply commit_Ok in Hc as (s' & -> & Habs). right. simpl in *. rewrite Habs.
  match goal with |- context [mem_commit_batch ?a ?b] => set (d' := mem_commit_batch a b) end.
  assert (mem_snap_last_index d' = floor) as -> by done.
  assert (mem_snap_last_term d' = t) as -> by done.
  split_and!; [unfold d; lia| |done| |by symmetry|by subst d'; rewrite mem_commit_log].
  - unfold d. by rewrite (ni_meta st Hi).
  - unfold match_index_majority_floor in Hmf. rewrite Hl in Hmf. simpl in Hmf.
    destruct (majority_floor_greatest _ _ _ Hmf) as [Hq _].
    eapply quorum_holds_mono; [|exact Hq]. intros m _. rewrite !N.leb_le. lia.
Qed.

(** ** Pre-vote *)

(** Answering a pre-vote changes nothing but the clock reading: no term, vote,
    role, timer or log.  It is granted exactly to a newer term with a log at
    least as recent, when no leader was heard of within the minimum election
    timeout. *)
Theorem prevote_is_read_only from req st :
  let '(st', resp) := handle_request_prevote from req st in
  (∃ k, st' = with_clock_reads k st) ∧ pvr_term resp = current_term (ws_meta st) ∧
  (pvr_vote_granted resp = true ↔
    current_term (ws_meta st) < pv_next_term req ∧
    (∀ hb, ws_last_heartbeat_received st = Some hb →
      hb + election_timeout_lo (ws_cfg st) ≤ ws_clock st (ws_clock_reads st)) ∧
    up_to_date (ws_storage st) (pv_last_log_index req) (pv_last_log_term req) = true).
Proof.
  unfold handle_request_prevote, clock_now. simpl.
  destruct (N.leb_spec (pv_next_term req) (current_term (ws_meta st))).
  { simpl. split_and!; [|done|split; [done|lia]]. exists (ws_clock_reads st). by destruct st. }
  destruct (ws_last_heartbeat_received st) as [hb|];
    [destruct (N.ltb_spec (ws_clock st (ws_clock_reads st)) (hb + election_timeout_lo (ws_cfg st)))|];
    simpl; (split_and!; [by eexists|done|]).
  - split; [done|]. intros (_ & Hhb & _). specialize (Hhb hb eq_refl). lia.
  - split; [|by intros (_ & _ & ?)]. intros Hup. split_and!; [done| |done]. by intros ? [= <-].
  - split; [|by intros (_ & _ & ?)]. intros Hup. by split_and!.
Qed.

(** ** Election timeouts *)

(** Every election timeout lies in the configured window (at least one
    millisecond wide), whatever the random source, the replica's identity and
    the term. *)
Theorem election_timeout_in_window st :
  let lo := election_timeout_lo (ws_cfg st) in
  let hi := election_timeout_hi (ws_cfg st) in
  let now := ws_clock st (ws_clock_reads st) in
  now + lo ≤ ws_election_deadline (reset_election_timer st) < now + N.max hi (lo + 1).
Proof.
  cbv zeta. unfold reset_election_timer, next_u64, clock_now. simpl. unfold election_timeout.
  set (x := N.lxor _ _). set (span := N.max _ 1).
  assert (span ≠ 0 ∧ election_timeout_lo (ws_cfg st) + span ≤
    N.max (election_timeout_hi (ws_cfg st)) (election_timeout_lo (ws_cfg st) + 1))
    as [Hnz Hspan] by (unfold span; lia).
  pose proof (N.mod_lt x span Hnz). generalize dependent (x `mod` span). intros y Hy.
  clearbody span. lia.
Qed.

(** ** Read barriers *)

Lemma heartbeat_loop_reads l peers pending st :
  ws_pending_read_index (send_heartbeats_loop l peers pending st).1.1 = ws_pending_read_index st.
Proof.
  revert pending st. induction peers as [|p peers IH]; intros pending st; simpl; [done|].
  destruct (decide _); [apply IH|].
  assert (ws_pending_read_index (send_heartbeat_to l p pending st).1.1 = ws_pending_read_index st)
    as Hs.
  { unfold send_heartbeat_to. case_match.
    - unfold send_install_chunk. destruct (ws_leader st); simpl;
        by match goal with |- context [if ?c then _ else ([], None, None)] => destruct c end.
    - destruct (term_at _ _); [|done]. by case_match. }
  destruct (send_heartbeat_to l p pending st) as [[st1 pending1] [[]|e]]; simpl in *; [|done].
  by rewrite IH.
Qed.

Lemma try_compact_reads st :
  ws_pending_read_index (try_compact st).1 = ws_pending_read_index st.
Proof.
  unfold try_compact. destruct (ws_leader st); [|done].
  destruct (match_index_majority_floor st); [|done].
  destruct (applied_index _); [|done]. case_match; [done|].
  destruct (term_at _ _) as [[t|]|]; [|done..].
  destruct (commit _ _) as [st1 [[]|e]] eqn:Hc;
    [by apply commit_Ok in Hc as (? & -> & _)|by apply commit_Err in Hc as (? & -> & _)].
Qed.

Lemma send_heartbeats_reads pending st :
  ws_pending_read_index (send_heartbeats pending st).1.1 = ws_pending_read_index st.
Proof.
  unfold send_heartbeats. destruct (ws_leader st) as [l|]; [|done].
  pose proof (heartbeat_loop_reads l (all_members (ws_effective_cfg st)) pending st) as Hl.
  destruct (send_heartbeats_loop _ _ _ _) as [[st1 pending1] [[]|e]]; simpl in *; [|done].
  pose proof (try_compact_reads st1). destruct (try_compact st1); simpl in *. congruence.
Qed.

(** A read barrier on a leader of several members waits for an index that
    covers everything committed and the leader's own no-op, unless the queue is
    full, in which case it is refused; on any other replica it is refused. *)
Theorem read_index_registers timeout reply pending st :
  node_inv st →
  let st' := (handle_read_index timeout reply pending st).1 in
  (ws_role st ≠ Leader → ws_read_replies st' = ws_read_replies st ++ [(reply, Err ReadNotLeader)]) ∧
  (ws_role st = Leader → is_solo_cluster st = false →
    max_pending_reads (ws_cfg st) ≤ N.of_nat (length (ws_pending_read_index st)) →
    ws_read_replies st' = ws_read_replies st ++ [(reply, Err Backpressure)]) ∧
  (ws_role st = Leader → is_solo_cluster st = false →
    N.of_nat (length (ws_pending_read_index st)) < max_pending_reads (ws_cfg st) →
    ∃ p first, ws_current_term_first_index st = Some first ∧
      ws_pending_read_index st' = ws_pending_read_index st ++ [p] ∧ pr_reply p = reply ∧
      commit_index (ws_meta st) ≤ pr_required_index p ∧ first ≤ pr_required_index p).
Proof.
  intros Hi. cbv zeta. unfold handle_read_index. split_and!.
  - intros Hr. by rewrite bool_decide_eq_false_2.
  - intros Hr Hs Hfull. rewrite bool_decide_eq_true_2, Hs by done. simpl.
    by destruct (N.leb_spec (max_pending_reads (ws_cfg st))
                   (N.of_nat (length (ws_pending_read_index st)))); [|lia].
  - intros Hr Hs Hroom. rewrite bool_decide_eq_true_2, Hs by done. simpl.
    destruct (N.leb_spec (max_pending_reads (ws_cfg st))
                (N.of_nat (length (ws_pending_read_index st)))); [lia|].
    destruct (proj2 (ni_first st Hi) Hr) as [first Hf]. rewrite Hf.
    destruct timeout as [t|]; simpl;
      match goal with |- context [send_heartbeats ?p ?x] =>
        pose proof (send_heartbeats_reads p x) as Hreads;
        destruct (send_heartbeats p x) as [[]] end; simpl in *; rewrite Hreads;
      (eexists (mkPendingRead _ _ _), first; split_and!; [done|reflexivity|done|simpl; lia|simpl; lia]).
Qed.
End Ops.

(** ** Witnesses *)

Definition eager_compaction (c : Config N) : Config N :=
  mkConfig (cfg_me c) (cfg_members c) (election_timeout_lo c) (election_timeout_hi c)
    (heartbeat_interval_ms c) 1 (pre_vote c) (install_snapshot_chunk_bytes c)
    (max_pending_reads c) (max_snapshot_bytes c) (pre_candidate_misses_before_revert c).

(** A single-member leader with index 1 committed compacts up to it. *)
Lemma compaction_is_safe_witness :
  let st := sample_leader sample_store (eager_compaction (config_new 1 [1])) in
  let d' := abs (ws_storage (try_compact st).1) in
  mem_snap_last_index d' = 1 ∧ mem_log d' = mem_compact 1 (mem_log (abs (ws_storage st))).
Proof.
  destruct (compaction_is_safe (sample_leader sample_store (eager_compaction (config_new 1 [1])))
    (sample_leader_inv _ _)) as [Hsame|(_ & _ & _ & _ & _ & Hlog)].
  - exfalso. apply (f_equal mem_snap_last_index) in Hsame. revert Hsame. vm_compute. discriminate.
  - assert (mem_snap_last_index (abs (ws_storage (try_compact
      (sample_leader sample_store (eager_compaction (config_new 1 [1])))).1)) = 1) as Hsnap
      by (vm_compute; reflexivity).
    rewrite Hsnap in Hlog. split; [exact Hsnap|exact Hlog].
Defined.

Lemma read_index_registers_witness :
  let st := sample_leader sample_store (config_new 1 [1; 2; 3]) in
  ∃ p first, ws_current_term_first_index st = Some first ∧
    ws_pending_read_index (handle_read_index None 7 [] st).1 = [p] ∧ pr_reply p = 7 ∧
    1 ≤ pr_required_index p ∧ first ≤ pr_required_index p.
Proof.
  apply (read_index_registers None 7 [] (sample_leader sample_store (config_new 1 [1; 2; 3])));
    [apply sample_leader_inv|vm_compute; reflexivity..].
Defined.

(** * vos-raft: streaming a snapshot

    The leader cuts its snapshot into chunks ([snapshot_chunk]) and the follower
    assembles them ([handle_install_snapshot]).  [stream] is the exchange over a
    link that delivers, the cursor moving as the leader moves it from the
    follower's acknowledgements.  It ends, and installs the bytes it started
    from. *)

Section Stream.
Context {NID : Type} `{!NodeId NID}.
Implicit Types (st : WorkerState NID (MemStorage NID)).

(** The request that carries a chunk, as [send_install_chunk] builds it for a
    snapshot without a membership claim. *)
Definition chunk_req (leader : NID) (term idx idx_term offset : N) (c : Chunk)
    : InstallSnapshotReq NID :=
  mkInstallReq leader term idx idx_term offset (ck_was_final c) (ck_data c) [] None None.

Fixpoint stream (fuel : nat) (from : NID) (term idx idx_term : N) (snapshot : bytes)
    (chunk_bytes offset : N) st : option (WorkerState NID (MemStorage NID)) :=
  match fuel with
  | O => None
  | Datatypes.S fuel =>
      let c := snapshot_chunk snapshot chunk_bytes offset in
      match handle_install_snapshot from (chunk_req from term idx idx_term offset c) st with
      | (st', Ok resp) =>
          if ck_was_final c && (ck_end_offset c <=? isr_bytes_received resp) then Some st'
          else stream fuel from term idx idx_term snapshot chunk_bytes
                 (N.min (isr_bytes_received resp) (ck_end_offset c)) st'
      | (_, Err _) => None
      end
  end.

(** ** Chunks *)

Lemma snapshot_chunk_spec snapshot cb o :
  o ≤ N.of_nat (length snapshot) →
  let c := snapshot_chunk snapshot cb o in
  take (N.to_nat o) snapshot ++ ck_data c = take (N.to_nat (ck_end_offset c)) snapshot ∧
  ck_end_offset c ≤ N.of_nat (length snapshot) ∧
  N.of_nat (length (ck_data c)) = ck_end_offset c - o ∧ o ≤ ck_end_offset c ∧
  ck_was_final c = bool_decide (ck_end_offset c = N.of_nat (length snapshot)) ∧
  (ck_was_final c = false → o < ck_end_offset c).
Proof.
  intros Ho. unfold snapshot_chunk. simpl.
  rewrite (N.min_l o) by done. set (stop := N.min _ _).
  assert (o ≤ stop ≤ N.of_nat (length snapshot)) as [Hos Hsl] by (unfold stop; lia).
  assert (stop = N.of_nat (length snapshot) ∨ o < stop) as Hprog by (unfold stop; lia).
  clearbody stop. split_and!; try done.
  - rewrite take_take_drop. f_equal. lia.
  - rewrite length_take, length_drop. lia.
  - destruct (N.leb_spec (N.of_nat (length snapshot)) stop);
      [rewrite bool_decide_eq_true_2; [done|lia]|rewrite bool_decide_eq_false_2; [done|lia]].
  - destruct (N.leb_spec (N.of_nat (length snapshot)) stop); [done|]. intros _. lia.
Qed.

(** ** One chunk at the follower *)

(** The follower has assembled [buf] of the snapshot [(idx, idx_term)] that
    [from] streams in its current term. *)
Record assembling (from : NID) (term idx idx_term : N) (buf : bytes) st : Prop := {
  as_term : current_term (ws_meta st) = term;
  as_snap : mem_snap_last_index (ws_storage st) < idx;
  as_buffer : ws_incoming_snapshot st = Some (mkIncoming from term idx idx_term buf) ∨
    buf = [] ∧ ws_incoming_snapshot st = None;
}.

Lemma assembling_incoming from term idx idx_term buf o c st :
  assembling from term idx idx_term buf st →
  incoming_for from (chunk_req from term idx idx_term o c) st =
    mkIncoming from term idx idx_term buf.
Proof.
  intros [_ _ Hb]. unfold incoming_for. destruct Hb as [->|[-> ->]]; simpl; [|done].
  by rewrite bool_decide_eq_true_2, !N.eqb_refl.
Qed.

(** Following the leader leaves the assembly alone. *)
Lemma assembling_follow from term idx idx_term buf st :
  assembling from term idx idx_term buf st →
  assembling from term idx idx_term buf (follow_leader from st) ∧
  ws_cfg (follow_leader from st) = ws_cfg st ∧
  ws_storage (follow_leader from st) = ws_storage st.
Proof.
  intros []. destruct (follow_leader_eq from st) as (? & ? & ? & ? & ? & ->). done.
Qed.

(** Committing an assembled snapshot without a membership claim. *)
Lemma install_assembled_plain req buf len st :
  is_members req = [] → is_joint_old req = None → is_active_config_index req = None →
  let r := install_assembled req buf len st in
  r.2 = Ok (mkInstallResp (current_term (ws_meta st)) len) ∧ ws_cfg r.1 = ws_cfg st ∧
  mem_state (ws_storage r.1) = buf ∧
  mem_snap_last_index (ws_storage r.1) = is_last_included_index req ∧
  mem_snap_last_term (ws_storage r.1) = is_last_included_term req ∧
  ws_incoming_snapshot r.1 = ws_incoming_snapshot st ∧
  commit_index (ws_meta r.1) = N.max (commit_index (ws_meta st)) (is_last_included_index req).
Proof.
  intros Hm Hj Ha. unfold install_assembled, supplied_config_index. rewrite Hm, Hj, Ha.
  destruct (commit _ _) as [st1 r] eqn:Hc. unfold commit in Hc. simpl in Hc.
  injection Hc as <- <-.
  destruct (ws_pending_joint_entry st) as [j|] eqn:Hp; simpl; rewrite Hp; [case_match|];
    split_and!; done.
Qed.

Lemma receive_chunk_step from term idx idx_term buf c st :
  assembling from term idx idx_term buf st →
  N.of_nat (length buf) + N.of_nat (length (ck_data c)) ≤ max_snapshot_bytes (ws_cfg st) →
  max_snapshot_bytes (ws_cfg st) < u64_max →
  let o := N.of_nat (length buf) in
  let r := receive_chunk from (chunk_req from term idx idx_term o c) st in
  r.2 = Ok (mkInstallResp term (o + N.of_nat (length (ck_data c)))) ∧
  ws_cfg r.1 = ws_cfg st ∧
  (ck_was_final c = false → assembling from term idx idx_term (buf ++ ck_data c) r.1) ∧
  (ck_was_final c = true →
    mem_state (ws_storage r.1) = buf ++ ck_data c ∧
    mem_snap_last_index (ws_storage r.1) = idx ∧ mem_snap_last_term (ws_storage r.1) = idx_term ∧
    ws_incoming_snapshot r.1 = None ∧ idx ≤ commit_index (ws_meta r.1)).
Proof.
  intros Ha Hmax Hu. cbv zeta. set (req := chunk_req _ _ _ _ _ _).
  pose proof (as_snap _ _ _ _ _ _ Ha) as Hs. pose proof (as_term _ _ _ _ _ _ Ha) as Ht.
  assert (saturating_add u64_max (N.of_nat (length buf)) (N.of_nat (length (ck_data c))) ≤
    max_snapshot_bytes (ws_cfg st)) as Hsat by (unfold saturating_add; lia).
  assert (receive_chunk from req st =
    let st1 := with_incoming_snapshot (Some (mkIncoming from term idx idx_term (buf ++ ck_data c))) st in
    if ck_was_final c
    then install_assembled req (buf ++ ck_data c) (N.of_nat (length (buf ++ ck_data c)))
           (with_incoming_snapshot None st)
    else (st1, Ok (mkInstallResp term (N.of_nat (length (buf ++ ck_data c)))))) as ->.
  { unfold receive_chunk, req. rewrite (assembling_incoming _ _ _ _ _ _ _ _ Ha), Ht.
    change (snap_last_index (ws_storage st)) with (mem_snap_last_index (ws_storage st)). simpl.
    destruct (N.leb_spec idx (mem_snap_last_index (ws_storage st))); [lia|].
    rewrite N.ltb_irrefl, N.eqb_refl. simpl.
    destruct (N.ltb_spec (max_snapshot_bytes (ws_cfg st))
      (saturating_add u64_max (N.of_nat (length buf)) (N.of_nat (length (ck_data c))))); [lia|].
    rewrite !with_incoming_incoming. by destruct (ck_was_final c). }
  cbv zeta. rewrite length_app, Nat2N.inj_add. destruct (ck_was_final c).
  - destruct (install_assembled_plain req (buf ++ ck_data c)
      (N.of_nat (length buf) + N.of_nat (length (ck_data c))) (with_incoming_snapshot None st)
      eq_refl eq_refl eq_refl) as (-> & -> & -> & -> & -> & -> & ->).
    simpl. rewrite Ht. split_and!; try done. intros _. split_and!; try done. lia.
  - simpl. split_and!; try done. intros _. split; [done|done|by left].
Qed.

(** ** The whole stream *)

Lemma stream_installs fuel from term idx idx_term snapshot cb o st :
  assembling from term idx idx_term (take (N.to_nat o) snapshot) st →
  o ≤ N.of_nat (length snapshot) → N.of_nat (length snapshot) ≤ max_snapshot_bytes (ws_cfg st) →
  max_snapshot_bytes (ws_cfg st) < u64_max →
  (length snapshot - N.to_nat o < fuel)%nat →
  ∃ st', stream fuel from term idx idx_term snapshot cb o st = Some st' ∧
    mem_state (ws_storage st') = snapshot ∧
    mem_snap_last_index (ws_storage st') = idx ∧ mem_snap_last_term (ws_storage st') = idx_term ∧
    ws_incoming_snapshot st' = None ∧ idx ≤ commit_index (ws_meta st').
Proof.
  revert o st. induction fuel as [|fuel IH]; intros o st Ha Ho Hmax Hu Hfuel; [lia|].
  cbn [stream]. destruct (snapshot_chunk_spec snapshot cb o Ho) as (Hdata & Hend & Hlen & Hoe & Hfin & Hprog).
  set (c := snapshot_chunk snapshot cb o) in *. clearbody c.
  unfold handle_install_snapshot, install_adopt_term. simpl is_term.
  rewrite (as_term _ _ _ _ _ _ Ha), N.ltb_irrefl.
  destruct (assembling_follow _ _ _ _ _ _ Ha) as (Ha' & Hcfg & Hst).
  simpl is_leader. set (st1 := follow_leader from st) in *. clearbody st1.
  assert (N.of_nat (length (take (N.to_nat o) snapshot)) = o) as Hlo
    by (rewrite length_take; lia).
  destruct (receive_chunk_step from term idx idx_term _ c st1 Ha') as (Hresp & Hcfg' & Hmore & Hdone).
  { rewrite Hcfg, Hlo. lia. }
  { by rewrite Hcfg. }
  rewrite Hlo in *. destruct (receive_chunk _ _ _) as [st2 r]. simpl in *. subst r. simpl isr_bytes_received.
  replace (o + N.of_nat (length (ck_data c))) with (ck_end_offset c) by lia.
  destruct (ck_was_final c) eqn:Hf.
  - rewrite andb_true_l, N.leb_refl. exists st2. split; [done|].
    destruct (Hdone eq_refl) as (Hstate & ?). split; [|done]. rewrite Hstate, Hdata.
    symmetry in Hfin. apply bool_decide_eq_true in Hfin. rewrite Hfin, Nat2N.id. apply firstn_all.
  - rewrite andb_false_l, N.min_id. apply IH; [|lia|congruence|congruence|].
    + rewrite <- Hdata. auto.
    + specialize (Hprog eq_refl). lia.
Qed.

(** A snapshot streamed in chunks of any size, over a link that delivers, ends
    after at most one exchange per byte plus one, and installs exactly the
    leader's bytes at the leader's index and term. *)
Theorem snapshot_stream_round_trip from term idx idx_term snapshot cb st :
  current_term (ws_meta st) = term → mem_snap_last_index (ws_storage st) < idx →
  ws_incoming_snapshot st = None →
  N.of_nat (length snapshot) ≤ max_snapshot_bytes (ws_cfg st) →
  max_snapshot_bytes (ws_cfg st) < u64_max →
  ∃ st', stream (Datatypes.S (length snapshot)) from term idx idx_term snapshot cb 0 st = Some st' ∧
    mem_state (ws_storage st') = snapshot ∧
    mem_snap_last_index (ws_storage st') = idx ∧ mem_snap_last_term (ws_storage st') = idx_term ∧
    ws_incoming_snapshot st' = None ∧ idx ≤ commit_index (ws_meta st').
Proof.
  intros Ht Hs Hinc Hmax Hu. apply stream_installs; try done; [|lia|lia].
  split; [done|done|]. right. done.
Qed.
End Stream.

(** Five bytes in chunks of two. *)
Lemma snapshot_stream_round_trip_witness :
  let st := sample_worker mem_new (config_new 1 [1; 2; 3]) in
  let snapshot := [Byte.x01; Byte.x02; Byte.x03; Byte.x04; Byte.x05] in
  ∃ st', stream 6 2 0 7 0 snapshot 2 0 st = Some st' ∧ mem_state (ws_storage st') = snapshot ∧
    mem_snap_last_index (ws_storage st') = 7.
Proof.
  destruct (snapshot_stream_round_trip 2 0 7 0 [Byte.x01; Byte.x02; Byte.x03; Byte.x04; Byte.x05] 2
    (sample_worker mem_new (config_new 1 [1; 2; 3]))) as (st' & Hst & Hstate & Hidx & _);
    try (vm_compute; reflexivity); try (vm_compute; discriminate).
  exists st'. split; [exact Hst|]. split; [exact Hstate|exact Hidx].
Defined.

(** *** The only voter of its group, elected and with its first entry not committed *)

Definition elected_voter : WorkerState N (MemStorage N) :=
  let st := (worker_step 0 EvTimer [] (sample_worker mem_new (config_new 1 [1]))).1.1 in
  with_meta (meta_set_commit 0 (ws_meta st)) st.

Lemma commit_index_needs_quorum_witness :
  commit_index (ws_meta (try_advance_commit_index elected_voter).1) = 1 ∧
  mem_term_at (abs (ws_storage elected_voter)) 1 = Some 1.
Proof.
  assert (commit_index (ws_meta (try_advance_commit_index elected_voter).1) = 1) as E by (vm_compute; reflexivity).
  pose proof (commit_index_needs_quorum elected_voter) as H. destruct (try_advance_commit_index elected_voter) as [st' r].
  cbn [fst] in E |- *. destruct H as [H _]. rewrite E in H. split; [exact E|]. destruct H as [H|(_ & _ & H)]; [vm_compute in H; discriminate H|exact H].
Defined.
