(* ===== verification/RaftStatic.v ===== *)
(** * vos-raft: replicas of a fixed membership

    As long as nobody asks for a membership change, a replica's view of the
    membership is the configured one, its log holds no configuration entry, and
    neither does anything it sends.  [static_worker_step] shows it for every
    event; the cluster file uses it to reason about elections among a fixed set
    of voters. *)

From S2P Require Import Prelude RaftTypes RaftStorage RaftConfig RaftState RaftWorker RaftNode.

Local Open Scope N_scope.

Section Static.
Context {NID S E : Type} `{!NodeId NID} `{!Storage NID S E} `{!StorageLaws NID S E}.
Context (M : list NID).
Implicit Types (st : WorkerState NID S).

Definition plain (e : LogEntry NID) : Prop := is_config_change e = false.

Record static_store (m : MemStorage NID) : Prop := {
  ss_log : map_Forall (λ _, plain) (mem_log m);
  ss_active r : mem_active_config_ m = Some r → acr_current r = M ∧ acr_joint_old r = None;
}.

Record static st : Prop := {
  sm_members : cfg_members (ws_cfg st) = M;
  sm_effective : ws_effective_cfg st = steady M;
  sm_joint : ws_pending_joint_entry st = None;
  sm_store : static_store (abs (ws_storage st));
}.

Definition static_install (req : InstallSnapshotReq NID) : Prop :=
  (is_members req = [] ∨ is_members req = M) ∧ is_joint_old req = None.

Definition static_msg (msg : RaftMsg NID) : Prop :=
  match msg with
  | MsgAppendEntries _ req => Forall plain (ae_entries req)
  | MsgInstallSnapshot _ req => static_install req
  | MsgChangeMembership _ => False
  | _ => True
  end.

Definition static_event (ev : WorkerEvent) : Prop :=
  match ev with EvMsg msg => static_msg msg | _ => True end.

(** What a replica [me] of the cluster sends. *)
Definition static_out (me : NID) (o : OutRpc NID) : Prop :=
  match o with
  | OutAppend _ req => Forall plain (ae_entries req)
  | OutVote _ req => rv_candidate req = me
  | OutPreVote _ _ _ => True
  | OutInstall _ req _ _ _ _ => static_install req
  end.

Definition static_batch (b : WriteBatch NID) : Prop :=
  Forall plain (wb_appends b) ∧
  ∀ r, wb_active_config b = Some r → acr_current r = M ∧ acr_joint_old r = None.

(** ** Writes *)

Lemma filter_plain (Q : N * LogEntry NID → Prop) `{!∀ x, Decision (Q x)}
    (l : gmap N (LogEntry NID)) :
  map_Forall (λ _, plain) l → map_Forall (λ _, plain) (filter Q l).
Proof. intros Hl k x [Hx _]%map_lookup_filter_Some. by apply (Hl k). Qed.

Lemma mem_append_plain l es :
  map_Forall (λ _, plain) l → Forall plain es → map_Forall (λ _, plain) (mem_append l es).
Proof.
  unfold mem_append. revert l. induction es as [|e es IH]; intros l Hl Hes; simpl; [done|].
  apply Forall_cons in Hes as [??]. apply IH; [|done]. by apply map_Forall_insert_2.
Qed.

Lemma static_mem_commit m b :
  static_store m → static_batch b → static_store (mem_commit_batch m b).
Proof.
  intros [Hl Ha] [Happ Hact]. split.
  - rewrite mem_commit_log. apply mem_append_plain; [|done]. unfold batch_base.
    assert (map_Forall (λ _, plain)
      (match wb_truncate_after b with
       | Some after => mem_truncate after (mem_log m) | None => mem_log m end)).
    { case_match; [by apply filter_plain|done]. }
    destruct (wb_compact_to b) as [[]|]; [by apply filter_plain|done].
  - intros r. rewrite mem_commit_active. destruct (wb_active_config b); auto.
Qed.

Lemma static_commit b st st' r :
  commit b st = (st', r) → static_batch b → static st → static st'.
Proof.
  intros Hc Hb [? ? ? Hs]. destruct r as [[]|e].
  - apply commit_Ok in Hc as (s' & -> & Habs). split; simpl; auto.
    rewrite Habs. by apply static_mem_commit.
  - apply commit_Err in Hc as (s' & -> & Habs). split; simpl; auto. by rewrite Habs.
Qed.

Lemma static_batch_meta m : static_batch (batch_meta m).
Proof. split; [apply Forall_nil_2|done]. Qed.
Lemma static_batch_data i t p : static_batch (batch_append (entry_data i t p)).
Proof. split; [by apply Forall_singleton|done]. Qed.
Lemma static_batch_compact x y m : static_batch (mkBatch x y [] None m None).
Proof. split; [apply Forall_nil_2|done]. Qed.

(** ** Operations

    A state that agrees on the fields [static] looks at is static. *)
Local Ltac static_fields := intros []; split; simpl; done.

Lemma static_reset_election_timer st : static st → static (reset_election_timer st).
Proof. destruct (reset_election_timer_eq st) as (? & ? & ? & ->). static_fields. Qed.
Lemma static_step_down st : static st → static (step_down st).
Proof. destruct (step_down_eq st) as (? & ? & ? & ? & ->). static_fields. Qed.
Lemma static_follow_leader l st : static st → static (follow_leader l st).
Proof. destruct (follow_leader_eq l st) as (? & ? & ? & ? & ? & ->). static_fields. Qed.
Lemma static_rebuild st : static st → static (rebuild_leader_tracking st).
Proof. destruct (rebuild_leader_tracking_eq st) as (? & -> & _). static_fields. Qed.
Lemma static_expire now st : static st → static (expire_pending_reads now st).
Proof. destruct (expire_pending_reads_eq now st) as (? & ->). static_fields. Qed.
Lemma static_try_resolve st : static st → static (try_resolve_pending_reads st).
Proof. destruct (try_resolve_pending_reads_eq st) as (? & ? & ? & -> & _). static_fields. Qed.
Lemma static_with_meta m st : static st → static (with_meta m st).
Proof. static_fields. Qed.
Lemma static_with_leader l st : static st → static (with_leader l st).
Proof. static_fields. Qed.
Lemma static_with_votes v st : static st → static (with_votes_received v st).
Proof. static_fields. Qed.

Lemma static_auto_finalize st : static st → static (auto_finalize_joint_config st).1.
Proof.
  intros Hs. unfold auto_finalize_joint_config. rewrite (sm_effective st Hs). simpl.
  by rewrite orb_true_r.
Qed.

Lemma static_try_advance st : static st → static (try_advance_commit_index st).1.
Proof.
  intros Hs. unfold try_advance_commit_index.
  destruct (match_index_majority_floor st); [|done]. case_match; [done|].
  destruct (term_at _ _); [|done]. case_match; [done|].
  destruct (commit _ _) as [st1 r] eqn:Hc.
  apply static_commit in Hc; [|apply static_batch_meta|by apply static_with_meta].
  destruct r; simpl; [|by apply static_with_meta].
  apply static_auto_finalize. by destruct Hc.
Qed.

Lemma static_become_leader st : static st → static (become_leader_no_heartbeat st).1.
Proof.
  intros Hs. unfold become_leader_no_heartbeat. destruct (commit _ _) as [st1 r] eqn:Hc.
  apply static_commit in Hc; [|apply static_batch_data|done].
  destruct r; simpl; [|done].
  match goal with |- context [try_advance_commit_index ?x] =>
    pose proof (static_try_advance x); destruct (try_advance_commit_index x); simpl in * end.
  apply H. by destruct Hc.
Qed.

Lemma static_adopt_higher_term t st : static st → static (adopt_higher_term t st).1.
Proof.
  intros Hs. unfold adopt_higher_term, persist_term_bump. destruct (commit _ _) as [st1 r] eqn:Hc.
  apply static_commit in Hc; [|apply static_batch_meta|done].
  destruct r; simpl; [|done]. by apply static_step_down, static_with_meta.
Qed.

Lemma static_start_election pending st :
  static st → Forall (static_out (cfg_me (ws_cfg st))) pending →
  static (start_election pending st).1.1 ∧
  Forall (static_out (cfg_me (ws_cfg st))) (start_election pending st).1.2.
Proof.
  intros Hs Hp. unfold start_election. case_match.
  { split; [by apply static_reset_election_timer|done]. }
  destruct (commit _ _) as [st1 r] eqn:Hc.
  apply static_commit in Hc; [|apply static_batch_meta|by destruct Hs].
  destruct r as [[]|e]; simpl; [|by destruct Hc].
  match goal with |- context [pending ++ ?o] => assert (Forall (static_out (cfg_me (ws_cfg st))) o) end.
  { apply Forall_fmap, Forall_true. done. }
  case_match.
  - match goal with |- context [become_leader_no_heartbeat ?x] =>
      pose proof (static_become_leader x (static_with_votes _ _ Hc)) as Hb;
      destruct (become_leader_no_heartbeat x) as [? []]; simpl in * end.
    + split; [by destruct Hb|by apply Forall_app].
    + split; [done|by apply Forall_app].
  - split; [by apply static_reset_election_timer, static_with_votes|by apply Forall_app].
Qed.

Lemma static_start_pre_election pending st :
  static st → Forall (static_out (cfg_me (ws_cfg st))) pending →
  static (start_pre_election pending st).1.1 ∧
  Forall (static_out (cfg_me (ws_cfg st))) (start_pre_election pending st).1.2.
Proof.
  intros Hs Hp. unfold start_pre_election. case_match.
  { split; [by apply static_reset_election_timer|done]. }
  case_match; [by apply static_start_election|]. split.
  - apply static_reset_election_timer. by destruct Hs.
  - apply Forall_app; split; [done|]. apply Forall_fmap, Forall_true. done.
Qed.

(** ** Reading the log *)

Lemma log_range_plain (l : gmap N (LogEntry NID)) a b :
  map_Forall (λ _, plain) l → Forall plain (log_range l a b).
Proof.
  intros Hl. apply Forall_forall. intros e [k [_ Hk]]%list_elem_of_omap.
  case_match; [by apply (Hl k)|done].
Qed.

Lemma entries_plain s a b l :
  static_store (abs s) → entries s a b = Ok l → Forall plain l.
Proof.
  intros Hs Hl%entries_abs. unfold mem_entries in Hl.
  case_match; [by simplify_eq; apply Forall_nil_2|].
  case_match; [done|]. simplify_eq. apply log_range_plain, Hs.
Qed.

Lemma last_config_change_plain es : Forall plain es → last_config_change es = None.
Proof.
  induction 1 as [|[i t k] es He Hes IH]; simpl; [done|]. rewrite IH. by destruct k.
Qed.

Lemma reindex_plain i es : Forall plain es → Forall plain (reindex i es).
Proof. intros Hes. revert i. induction Hes; intros i; constructor; auto. Qed.

(** ** Heartbeats *)

Lemma static_try_compact st : static st → static (try_compact st).1.
Proof.
  intros Hs. unfold try_compact. destruct (ws_leader st); [|done].
  destruct (match_index_majority_floor st); [|done].
  destruct (applied_index _); [|done]. case_match; [done|].
  destruct (term_at _ _) as [[t|]|]; [|done..].
  destruct (commit _ _) as [st1 r] eqn:Hc.
  apply static_commit in Hc; [|apply static_batch_compact|by apply static_with_meta].
  destruct r; simpl; [done|by apply static_with_meta].
Qed.

Lemma static_send_install_chunk me peer pending st :
  static st → Forall (static_out me) pending →
  static (send_install_chunk peer pending st).1 ∧
  Forall (static_out me) (send_install_chunk peer pending st).2.
Proof.
  intros Hs Hp. unfold send_install_chunk. pose proof (sm_effective st Hs) as He.
  destruct (ws_leader st); simpl;
    match goal with |- context [if ?c then _ else ([], None, None)] => destruct c end;
    simpl; (split; [by try apply static_with_leader|]); apply Forall_app; (split; [done|]);
    apply Forall_singleton; rewrite ?He; split; simpl; auto.
Qed.

Lemma static_send_heartbeat_to me l peer pending st :
  static st → Forall (static_out me) pending →
  static (send_heartbeat_to l peer pending st).1.1 ∧
  Forall (static_out me) (send_heartbeat_to l peer pending st).1.2.
Proof.
  intros Hs Hp. unfold send_heartbeat_to. case_match.
  { pose proof (static_send_install_chunk me peer pending st Hs Hp). by case_match. }
  destruct (term_at _ _); [|done]. case_match eqn:Hes; [|done]. simpl. split; [done|].
  apply Forall_app; split; [done|]. apply Forall_singleton. simpl.
  case_match; [eapply entries_plain; [apply Hs|done]|]. simplify_eq. apply Forall_nil_2.
Qed.

Lemma static_send_heartbeats me pending st :
  static st → Forall (static_out me) pending →
  static (send_heartbeats pending st).1.1 ∧
  Forall (static_out me) (send_heartbeats pending st).1.2.
Proof.
  intros Hs Hp. unfold send_heartbeats. destruct (ws_leader st) as [l|]; [|done].
  assert (static (send_heartbeats_loop l (all_members (ws_effective_cfg st)) pending st).1.1 ∧
    Forall (static_out me)
      (send_heartbeats_loop l (all_members (ws_effective_cfg st)) pending st).1.2) as Hloop.
  { generalize (all_members (ws_effective_cfg st)) as peers. intros peers.
    revert pending st Hs Hp. induction peers as [|p peers IH]; intros pending st Hs Hp; simpl; [done|].
    destruct (decide _); [by apply IH|].
    pose proof (static_send_heartbeat_to me l p pending st Hs Hp) as [??].
    destruct (send_heartbeat_to l p pending st) as [[st1 pending1] [[]|e]]; simpl in *; auto. }
  destruct (send_heartbeats_loop _ _ _ _) as [[st1 pending1] [[]|e]]; simpl in *; [|done].
  destruct Hloop as [Hs1 Hp1]. pose proof (static_try_compact st1 Hs1) as Hs2.
  destruct (try_compact st1) as [st2 r]; simpl in *. split; [by destruct Hs2|done].
Qed.

(** ** Inbound RPCs *)

Lemma existsb_plain es : Forall plain es → existsb is_config_change es = false.
Proof. induction 1 as [|e es He Hes IH]; simpl; [done|]. by rewrite He. Qed.

Lemma append_active_view_static st req ta es view :
  static st → Forall plain (ae_entries req) → Forall plain es →
  append_active_view st req ta es = Ok view →
  view = None ∨ view = Some (mkActiveRecord (Some 0) M None, (steady M, Some 0, None)).
Proof.
  intros Hs Hreq Hes. unfold append_active_view. rewrite existsb_plain by done.
  case_match; [|intros; simplify_eq; auto].
  destruct (if snap_last_index (ws_storage st) <? _ then _ else _) as [l|] eqn:Hl; [|done].
  rewrite (last_config_change_plain l).
  - rewrite (sm_members st Hs). intros; simplify_eq; auto.
  - case_match; [eapply entries_plain; [apply Hs|done]|]. simplify_eq. apply Forall_nil_2.
Qed.

Lemma static_append_to_log req m st :
  static st → Forall plain (ae_entries req) → static (append_to_log req m st).1.
Proof.
  intros Hs Hreq. unfold append_to_log.
  destruct (term_at _ _) as [pt|]; [|by apply static_with_meta].
  case_match.
  { destruct (commit _ _) as [st2 r] eqn:Hc.
    apply static_commit in Hc; [|apply static_batch_meta|done].
    destruct r; simpl; [done|by apply static_with_meta]. }
  destruct (scan_entries _ _ _) as [[ca ap]|]; [|by apply static_with_meta].
  set (adv := _ && _). set (nc := N.min _ _).
  match goal with |- context [append_active_view ?x _ _ _] =>
    assert (static x) as Hs2 by (destruct adv; by destruct Hs); set (st2 := x) in * end.
  clearbody st2. pose proof (reindex_plain (ae_prev_log_index req ⊞ 1) _ Hreq) as Hre.
  apply (Forall_drop _ ap) in Hre.
  destruct (append_active_view _ _ _ _) as [view|] eqn:Hview; [|by apply static_with_meta].
  apply append_active_view_static in Hview; [|done..].
  destruct (commit _ _) as [st3 r] eqn:Hc. apply static_commit in Hc; [|split; [done|]|done].
  2:{ destruct Hview as [->| ->]; simpl; [done|]. by intros ? [= <-]. }
  destruct r; simpl; [|by apply static_with_meta].
  destruct Hview as [->| ->].
  - destruct adv; [by destruct Hc|done].
  - apply static_rebuild. destruct adv; by destruct Hc.
Qed.

Lemma static_append_entries from req st :
  static st → Forall plain (ae_entries req) → static (handle_append_entries from req st).1.
Proof.
  intros Hs Hreq. unfold handle_append_entries. case_match; [done|].
  apply static_append_to_log; [|done]. apply static_follow_leader. case_match; by destruct Hs.
Qed.

Lemma static_install_assembled req buf len st :
  static st → static_install req → static (install_assembled req buf len st).1.
Proof.
  intros Hs [Hm Hj]. unfold install_assembled.
  destruct (supplied_config_index req) as [sup|]; [|done].
  destruct (commit _ _) as [st1 r] eqn:Hc. apply static_commit in Hc; [| |by destruct Hs].
  2:{ split; [apply Forall_nil_2|]. simpl. rewrite (sm_effective st Hs), Hj.
      intros ? [= <-]. destruct (is_members req); simpl; [done|]. by destruct Hm as [|<-]. }
  destruct r; simpl; [|by apply static_with_meta].
  assert (static (match is_members req with
    | [] => with_active_config_index (match ws_active_config_index st with
        | Some index => if index <=? commit_index (ws_meta st) then Some index else None
        | None => None end) st1
    | members => rebuild_leader_tracking (with_pending_joint_entry None
        (with_active_config_index sup (with_effective_cfg (mkActive members None) st1)))
    end)) as Hs2.
  { destruct (is_members req) as [|m ms]; [by destruct Hc|]. apply static_rebuild.
    destruct Hm as [|Hm]; [done|]. rewrite Hm. by destruct Hc. }
  rewrite Hj. destruct (is_members req) as [|m ms]; [|by destruct Hs2].
  simpl in *. rewrite (sm_joint _ Hc). by destruct Hs2.
Qed.

Lemma static_receive_chunk from req st :
  static st → static_install req → static (receive_chunk from req st).1.
Proof.
  intros Hs Hreq. unfold receive_chunk.
  do 3 (case_match; [by destruct Hs|]). destruct (negb (is_done req)); [by destruct Hs|].
  apply static_install_assembled; [by destruct Hs|done].
Qed.

Lemma static_install_snapshot from req st :
  static st → static_install req → static (handle_install_snapshot from req st).1.
Proof.
  intros Hs Hreq. unfold handle_install_snapshot. case_match; [done|].
  unfold install_adopt_term, persist_term_bump.
  destruct (current_term (ws_meta st) <? is_term req).
  - destruct (commit _ _) as [st1 r] eqn:Hc.
    apply static_commit in Hc; [|apply static_batch_meta|done].
    destruct r; [|done]. apply static_receive_chunk; [|done].
    apply static_follow_leader. by destruct Hc.
  - by apply static_receive_chunk; [apply static_follow_leader|].
Qed.

Lemma static_request_vote from req st : static st → static (handle_request_vote from req st).1.
Proof.
  intros Hs. unfold handle_request_vote. case_match; [done|].
  match goal with |- context [up_to_date (ws_storage ?x) _ _] =>
    assert (static x) as Hs1
      by (case_match; [apply static_step_down; by destruct Hs|done]); set (st1 := x) in * end.
  clearbody st1. set (granted := negb _ && _).
  match goal with |- context [if granted then ?x else st1] =>
    assert (static (if granted then x else st1)) as Hs2
      by (destruct granted; [apply static_reset_election_timer; by destruct Hs1|done]);
    set (st2 := if granted then x else st1) in * end.
  clearbody st2. case_match; [|done]. destruct (commit _ _) as [st3 r] eqn:Hc.
  apply static_commit in Hc; [|apply static_batch_meta|done].
  destruct r; simpl; [done|by apply static_with_meta].
Qed.

(** ** Responses and clients *)

Lemma static_rpc_outcome outcome st : static st → static (handle_rpc_outcome outcome st).
Proof.
  intros Hs. pose proof (static_adopt_higher_term) as Ht.
  destruct outcome as [from [resp|]|from [resp|]|from t [resp|]|from [resp|] i t off fin];
    simpl; try done.
  - unfold handle_append_response. case_match; [auto|]. case_match; [done|].
    destruct (ws_leader st); [|done]. case_match; [|by apply static_with_leader].
    match goal with |- context [try_advance_commit_index ?x] =>
      pose proof (static_try_advance x (static_with_leader _ _ Hs));
      destruct (try_advance_commit_index x) as [? [[]|]]; simpl in * end; [|done].
    by apply static_try_resolve.
  - unfold handle_vote_response. case_match; [auto|]. case_match; [done|]. case_match; [|done].
    case_match; [done|]. case_match; [|by apply static_with_votes].
    match goal with |- context [become_leader_no_heartbeat ?x] =>
      pose proof (static_become_leader x (static_with_votes _ _ Hs)) as Hb;
      destruct (become_leader_no_heartbeat x) as [? [[]|]]; simpl in * end; by destruct Hb.
  - unfold handle_prevote_response. case_match; [auto|]. repeat (case_match; try by destruct Hs).
  - unfold handle_install_snapshot_response. case_match; [auto|]. case_match; [done|].
    destruct (ws_leader st); [|done]. by apply static_with_leader.
Qed.

Lemma static_propose payload st : static st → static (handle_propose payload st).1.
Proof.
  intros Hs. unfold handle_propose. destruct (negb _); [done|].
  destruct (commit _ _) as [st1 r] eqn:Hc.
  apply static_commit in Hc; [|apply static_batch_data|done].
  destruct r; [|done]. pose proof (static_try_advance st1 Hc).
  by destruct (try_advance_commit_index st1).
Qed.

Lemma static_read_index me timeout reply pending st :
  static st → Forall (static_out me) pending →
  static (handle_read_index timeout reply pending st).1 ∧
  Forall (static_out me) (handle_read_index timeout reply pending st).2.
Proof.
  intros Hs Hp. unfold handle_read_index.
  do 3 (case_match; [split; [by destruct Hs|done]|]).
  destruct timeout; simpl;
    match goal with |- context [send_heartbeats ?p ?x] =>
      pose proof (static_send_heartbeats me p x) as Hh;
      destruct (send_heartbeats p x) as [[]]; simpl in * end;
    apply Hh; by destruct Hs.
Qed.

Lemma static_handle_msg me pending msg st :
  static st → static_msg msg → Forall (static_out me) pending →
  static (handle_msg pending msg st).1.1 ∧ Forall (static_out me) (handle_msg pending msg st).1.2.
Proof.
  intros Hs Hm Hp.
  destruct msg as [from req|from req|from req|from req|payload|timeout reply|members| |];
    simpl in *; try done.
  - pose proof (static_append_entries from req st Hs Hm). by case_match.
  - pose proof (static_request_vote from req st Hs). by case_match.
  - unfold handle_request_prevote. simpl. by repeat (case_match; simplify_eq/=); destruct Hs.
  - pose proof (static_install_snapshot from req st Hs Hm). by case_match.
  - pose proof (static_propose payload st Hs). by case_match.
  - pose proof (static_read_index me timeout reply pending st Hs Hp). by case_match.
Qed.

Lemma static_on_timer pending st :
  static st → Forall (static_out (cfg_me (ws_cfg st))) pending →
  static (on_timer pending st).1 ∧ Forall (static_out (cfg_me (ws_cfg st))) (on_timer pending st).2.
Proof.
  intros Hs Hp. unfold on_timer. destruct (ws_role st).
  - destruct (pre_vote (ws_cfg st)).
    + pose proof (static_start_pre_election pending st Hs Hp). by repeat case_match.
    + pose proof (static_start_election pending st Hs Hp). by repeat case_match.
  - destruct (_ && _).
    + split; [apply static_reset_election_timer; by destruct Hs|done].
    + match goal with |- context [start_pre_election pending ?x] =>
        pose proof (static_start_pre_election pending x) as H;
        destruct (start_pre_election pending x) as [[]]; simpl in * end.
      apply H; [by destruct Hs|done].
  - pose proof (static_start_election pending st Hs Hp). by repeat case_match.
  - pose proof (static_send_heartbeats (cfg_me (ws_cfg st)) pending st Hs Hp).
    by repeat case_match.
Qed.

Lemma static_worker_step wall ev st :
  static st → static_event ev →
  static (worker_step wall ev [] st).1.1 ∧
  Forall (static_out (cfg_me (ws_cfg st))) (worker_step wall ev [] st).1.2.
Proof.
  intros Hs Hev. set (me := cfg_me (ws_cfg st)). unfold worker_step.
  pose proof (Forall_nil_2 (static_out me)) as Hp. destruct ev as [msg| |outcome]; simpl in Hev.
  - pose proof (static_handle_msg me [] msg st Hs Hev Hp) as [Hs' ?].
    destruct (handle_msg [] msg st) as [[]]; simpl in *. split; [by destruct Hs'|done].
  - unfold on_worker_timer, clock_now.
    match goal with |- context [expire_pending_reads ?n ?x] =>
      assert (static (expire_pending_reads n x)) as Hs1
        by (apply static_expire; by destruct Hs);
      assert (cfg_me (ws_cfg (expire_pending_reads n x)) = me) as Hme
        by (by destruct (expire_pending_reads_eq n x) as [? ->]);
      set (st1 := expire_pending_reads n x) in * end.
    clearbody st1. destruct (_ <=? _); [|split; [by destruct Hs1|done]].
    pose proof (static_on_timer [] st1 Hs1 (Forall_nil_2 _)) as [Hs2 Hp2].
    rewrite Hme in Hp2. destruct (on_timer [] st1); simpl in *. split; [by destruct Hs2|done].
  - pose proof (static_rpc_outcome outcome st Hs) as Hs'. simpl. split; [by destruct Hs'|done].
Qed.

Lemma static_recover s c persisted rec :
  static_store (abs s) → cfg_members c = M → recover_active_config s c persisted = Ok rec →
  rec_active rec = steady M ∧ rec_pending_joint rec = None.
Proof.
  intros Hs HM. unfold recover_active_config. rewrite HM.
  assert ((if persisted then
      match active_config s with
      | Ok (Some record) => Ok (mkRecovery (mkActive (acr_current record) (acr_joint_old record))
          None (acr_log_index record))
      | Ok None => Ok (mkRecovery (steady M) None (Some 0))
      | Err e => Err e
      end
    else Ok (mkRecovery (steady M) None (Some 0))) = Ok rec →
    rec_active rec = steady M ∧ rec_pending_joint rec = None) as Hp.
  { destruct persisted; [|by intros [= <-]].
    destruct (active_config s) as [[r|]|] eqn:Ha; [..|done]; intros [= <-]; [|done].
    apply active_config_abs in Ha. symmetry in Ha.
    destruct (ss_active _ Hs r Ha) as [Hc Hj]. simpl. by rewrite Hc, Hj. }
  destruct (_ <? _); [|done]. destruct (entries s _ _) as [es|] eqn:He; [|done].
  rewrite last_config_change_plain; [done|]. by eapply entries_plain.
Qed.

Lemma static_init s c clock reads rng draws wall st :
  static_store (abs s) → cfg_members c = M →
  init_worker s c clock reads rng draws wall = Ok st → static st.
Proof.
  intros Hs HM. unfold init_worker. destruct (load_meta s) as [m|]; [|done].
  destruct (recover_active_config s c true) as [rec|] eqn:Hrec; [|done].
  apply static_recover in Hrec as [Ha Hj]; [|done..].
  match goal with |- context [reset_election_timer ?x] =>
    destruct (reset_election_timer_eq x) as (? & ? & ? & ->) end.
  intros [= <-]. by split.
Qed.
End Static.
