(* ===== verification/RaftCluster.v ===== *)
(** * vos-raft: a cluster of replicas

    Replicas running [worker_step] over a network that may lose, duplicate,
    delay and reorder RPCs and their replies, and machines that may crash and
    restart from their storage at any point.  A crash between two writes of one
    handler is covered by a storage failure at the second write followed by a
    crash: the durable state is the same.

    [election_safety_static] is Raft's Election Safety for a fixed membership
    without the pre-vote phase.  [pre_vote_split_brain] is a run, with the
    pre-vote phase on, in which two replicas lead in the same term. *)

From S2P Require Import Prelude RaftTypes RaftStorage RaftConfig RaftState RaftWorker RaftNode RaftStatic.

Local Open Scope N_scope.

(** A replica is running, or down with its storage. *)
Inductive NodeStatus (NID S : Type) `{!NodeId NID} :=
| Up (st : WorkerState NID S)
| Down (s : S) (c : Config NID) (clock : nat → N) (clock_reads : nat)
    (rng : nat → N) (rng_draws : nat).
Arguments Up {NID S _} _.
Arguments Down {NID S _} _ _ _ _ _ _.

(** What travels: a request, or what [from]'s send future resolves to.  Nothing
    is ever removed, so a packet may arrive any number of times, or never. *)
Inductive Packet (NID : Type) :=
| PktReq (from : NID) (rpc : OutRpc NID)
| PktOutcome (to : NID) (outcome : RpcOutcome NID).
Arguments PktReq {NID} _ _.
Arguments PktOutcome {NID} _ _.

(** [cl_votes] and [cl_leaders] record what has been observed so far: that a
    replica's vote in a term went to a candidate, and that a replica led a
    term.  They are history, nothing reads them. *)
Record Cluster (NID S : Type) `{!NodeId NID} := mkCluster {
  cl_nodes : gmap NID (NodeStatus NID S);
  cl_net : list (Packet NID);
  cl_votes : list (NID * N * NID);
  cl_leaders : list (NID * N);
}.
Arguments mkCluster {NID S _} _ _ _ _.
Arguments cl_nodes {NID S _} _.
Arguments cl_net {NID S _} _.
Arguments cl_votes {NID S _} _.
Arguments cl_leaders {NID S _} _.

(** The events of a cluster; [wall] is the time the status is published at. *)
Inductive ClusterEvent (NID : Type) :=
| CeTimer (n : NID) (wall : N)
| CeClient (n : NID) (msg : RaftMsg NID) (wall : N)
| CeDeliver (pkt : nat) (wall : N)
| CeLose (pkt : nat)
| CeCrash (n : NID)
| CeRestart (n : NID) (wall : N).
Arguments CeTimer {NID} _ _.
Arguments CeClient {NID} _ _ _.
Arguments CeDeliver {NID} _ _.
Arguments CeLose {NID} _.
Arguments CeCrash {NID} _.
Arguments CeRestart {NID} _ _.

Section Cluster.
Context {NID S E : Type} `{!NodeId NID} `{!Storage NID S E}.
Implicit Types (st : WorkerState NID S) (c : Cluster NID S).

(** The peer an RPC goes to, and the message it arrives as. *)
Definition rpc_peer (rpc : OutRpc NID) : NID :=
  match rpc with
  | OutAppend peer _ => peer
  | OutVote peer _ => peer
  | OutPreVote peer _ _ => peer
  | OutInstall peer _ _ _ _ _ => peer
  end.

Definition rpc_msg (from : NID) (rpc : OutRpc NID) : RaftMsg NID :=
  match rpc with
  | OutAppend _ req => MsgAppendEntries from req
  | OutVote _ req => MsgRequestVote from req
  | OutPreVote _ _ req => MsgPreVote from req
  | OutInstall _ req _ _ _ _ => MsgInstallSnapshot from req
  end.

(** What the sender's future resolves to: [inbound_*] of the peer's reply. *)
Definition rpc_outcome (rpc : OutRpc NID) (reply : option (RaftReply NID)) : RpcOutcome NID :=
  match rpc with
  | OutAppend peer req => OcAppend peer (Some (inbound_append req reply))
  | OutVote peer req => OcVote peer (Some (inbound_vote req reply))
  | OutPreVote peer next_term req =>
      OcPreVote peer next_term (Some (inbound_prevote req reply))
  | OutInstall peer req idx term chunk_end was_final =>
      OcInstall peer (Some (inbound_install req reply)) idx term chunk_end was_final
  end.

Definition rpc_failed (rpc : OutRpc NID) : RpcOutcome NID :=
  match rpc with
  | OutAppend peer _ => OcAppend peer None
  | OutVote peer _ => OcVote peer None
  | OutPreVote peer next_term _ => OcPreVote peer next_term None
  | OutInstall peer _ idx term chunk_end was_final => OcInstall peer None idx term chunk_end was_final
  end.

(** The observations a running replica offers. *)
Definition observe_votes (n : NID) st : list (NID * N * NID) :=
  match voted_for (ws_meta st) with
  | Some v => [(n, current_term (ws_meta st), v)]
  | None => []
  end.
Definition observe_leader (n : NID) st : list (NID * N) :=
  match ws_role st with Leader => [(n, current_term (ws_meta st))] | _ => [] end.

Definition put_node (n : NID) st (sent : list (Packet NID)) c : Cluster NID S :=
  mkCluster (<[n := Up st]> (cl_nodes c)) (cl_net c ++ sent)
    (observe_votes n st ++ cl_votes c) (observe_leader n st ++ cl_leaders c).

(** One worker event at [n]; [answer] turns the reply into packets. *)
Definition node_event (n : NID) (ev : WorkerEvent) (wall : N)
    (answer : option (RaftReply NID) → list (Packet NID)) c : Cluster NID S :=
  match cl_nodes c !! n with
  | Some (Up st) =>
      let '(st', out, reply) := worker_step wall ev [] st in
      put_node n st' ((PktReq n <$> out) ++ answer reply) c
  | _ => c
  end.

(** A client may send anything but the RPCs of the protocol. *)
Definition client_msg (msg : RaftMsg NID) : bool :=
  match msg with
  | MsgPropose _ | MsgReadIndex _ _ | MsgChangeMembership _ | MsgQueryState | MsgShutdown => true
  | _ => false
  end.

Definition exec (ev : ClusterEvent NID) c : Cluster NID S :=
  match ev with
  | CeTimer n wall => node_event n EvTimer wall (λ _, []) c
  | CeClient n msg wall =>
      if client_msg msg then node_event n (EvMsg msg) wall (λ _, []) c else c
  | CeDeliver i wall =>
      match cl_net c !! i with
      | Some (PktReq from rpc) =>
          let answer r := [PktOutcome from (rpc_outcome rpc r)] in
          match cl_nodes c !! rpc_peer rpc with
          | Some (Up _) => node_event (rpc_peer rpc) (EvMsg (rpc_msg from rpc)) wall answer c
          | Some (Down _ _ _ _ _ _) =>
              (* a stopped worker whose handle still answers *)
              mkCluster (cl_nodes c) (cl_net c ++ answer None) (cl_votes c) (cl_leaders c)
          | None => c
          end
      | Some (PktOutcome to outcome) => node_event to (EvOutcome outcome) wall (λ _, []) c
      | None => c
      end
  | CeLose i =>
      match cl_net c !! i with
      | Some (PktReq from rpc) =>
          mkCluster (cl_nodes c) (cl_net c ++ [PktOutcome from (rpc_failed rpc)])
            (cl_votes c) (cl_leaders c)
      | _ => c
      end
  | CeCrash n =>
      match cl_nodes c !! n with
      | Some (Up st) =>
          mkCluster (<[n := Down (ws_storage st) (ws_cfg st) (ws_clock st) (ws_clock_reads st)
                                (ws_rng st) (ws_rng_draws st)]> (cl_nodes c))
            (cl_net c) (cl_votes c) (cl_leaders c)
      | _ => c
      end
  | CeRestart n wall =>
      match cl_nodes c !! n with
      | Some (Down s cfg clock reads rng draws) =>
          match init_worker s cfg clock reads rng draws wall with
          | Ok st => put_node n st [] c
          | Err _ => c
          end
      | _ => c
      end
  end.

Definition run (evs : list (ClusterEvent NID)) c : Cluster NID S := foldl (λ c ev, exec ev c) c evs.
End Cluster.

(** ** Votes and terms, whatever happens *)

Section Votes.
Context {NID S E : Type} `{!NodeId NID} `{!Storage NID S E} `{!StorageLaws NID S E}.
Implicit Types (st : WorkerState NID S) (c : Cluster NID S).

(** The durable scalars of a replica, running or not. *)
Definition durable (x : NodeStatus NID S) : Meta NID :=
  match x with
  | Up st => ws_meta st
  | Down s _ _ _ _ _ => mem_meta (abs s)
  end.

(** Durable scalars only move forward: terms and commit index grow, and the vote
    of a term stays. *)
Record meta_le (m m' : Meta NID) : Prop := {
  ml_term : current_term m ≤ current_term m';
  ml_vote v : current_term m' = current_term m → voted_for m = Some v → voted_for m' = Some v;
  ml_commit : commit_index m ≤ commit_index m';
}.

#[export] Instance meta_le_preorder : PreOrder meta_le.
Proof.
  split; [by intros m; split; auto; lia|].
  intros m1 m2 m3 [] []. split; [lia| |lia]. intros v Ht Hv.
  assert (current_term m2 = current_term m1) by lia. apply ml_vote1; [lia|]. auto.
Qed.

Lemma step_ok_meta_le G st st' :
  current_term (ws_meta st) < u64_max → step_ok G st st' → meta_le (ws_meta st) (ws_meta st').
Proof. intros Ht []. split; auto. Qed.

(** No replica is at the term [u64::MAX], whose increment wraps to zero; and none
    is at it when an event of the run is executed. *)
Definition terms_below c : bool :=
  bool_decide (map_Forall (λ _ x, current_term (durable x) < u64_max) (cl_nodes c)).

Fixpoint no_term_wrap (evs : list (ClusterEvent NID)) c : bool :=
  match evs with
  | [] => true
  | ev :: evs => terms_below c && no_term_wrap evs (exec ev c)
  end.

Lemma terms_below_lookup c n x :
  terms_below c = true → cl_nodes c !! n = Some x → current_term (durable x) < u64_max.
Proof. intros H%bool_decide_eq_true_1. apply H. Qed.

Lemma no_term_wrap_app evs evs' c :
  no_term_wrap (evs ++ evs') c = true →
  no_term_wrap evs c = true ∧ no_term_wrap evs' (run evs c) = true.
Proof.
  unfold run. revert c. induction evs as [|ev evs IH]; intros c; simpl; [done|].
  intros [-> Hw]%andb_prop. by apply IH.
Qed.

Record votes_inv c : Prop := {
  vi_up n st : cl_nodes c !! n = Some (Up st) → node_inv st;
  vi_durable n t v : (n, t, v) ∈ cl_votes c →
    ∃ x, cl_nodes c !! n = Some x ∧
      (t < current_term (durable x) ∨
       t = current_term (durable x) ∧ voted_for (durable x) = Some v);
  vi_unique n t v1 v2 : (n, t, v1) ∈ cl_votes c → (n, t, v2) ∈ cl_votes c → v1 = v2;
}.

(** Replicas are there before and after, with scalars that moved forward. *)
Definition forward c c' : Prop :=
  ∀ n x, cl_nodes c !! n = Some x →
    ∃ x', cl_nodes c' !! n = Some x' ∧ meta_le (durable x) (durable x').

#[export] Instance forward_preorder : PreOrder forward.
Proof.
  split; [by intros c n x Hx; exists x|].
  intros c1 c2 c3 H12 H23 n x (y & Hy & Hle)%H12. destruct (H23 n y Hy) as (z & Hz & Hle').
  exists z. split; [done|]. by etransitivity.
Qed.

(** What a new observation adds. *)
Lemma elem_of_observed n st sent c m t v :
  (m, t, v) ∈ cl_votes (put_node n st sent c) ↔
  (m, t, v) ∈ cl_votes c ∨
  m = n ∧ t = current_term (ws_meta st) ∧ voted_for (ws_meta st) = Some v.
Proof.
  simpl. unfold observe_votes. rewrite elem_of_app.
  destruct (voted_for (ws_meta st)) as [v'|]; [rewrite list_elem_of_singleton|]; [naive_solver|].
  rewrite elem_of_nil. naive_solver.
Qed.

Lemma put_node_votes n x st sent c :
  votes_inv c → cl_nodes c !! n = Some x → meta_le (durable x) (ws_meta st) → node_inv st →
  votes_inv (put_node n st sent c) ∧ forward c (put_node n st sent c).
Proof.
  intros Hc Hx [Ht Hvote Hci] Hi.
  assert (∀ t v, (n, t, v) ∈ cl_votes c → t < current_term (ws_meta st) ∨
            t = current_term (ws_meta st) ∧ voted_for (ws_meta st) = Some v) as Hold.
  { intros t v (x' & Hx' & Hcase)%(vi_durable c Hc). simplify_eq.
    destruct Hcase as [|[-> Hv]]; [left; lia|].
    destruct (decide (current_term (durable x) = current_term (ws_meta st))); [right|left; lia].
    split; [done|]. by apply Hvote. }
  split; [split|].
  - intros m y. simpl. rewrite lookup_insert. case_decide; [by intros [= <-]|]. by apply Hc.
  - intros m t v [Hv|(-> & -> & Hv)]%elem_of_observed; simpl.
    + destruct (decide (m = n)) as [->|Hne].
      * exists (Up st). rewrite lookup_insert_eq. split; [done|]. by apply Hold.
      * rewrite lookup_insert_ne by done. by apply Hc.
    + exists (Up st). rewrite lookup_insert_eq. split; [done|]. by right.
  - intros m t v1 v2 [H1|(-> & -> & H1)]%elem_of_observed [H2|(? & ? & H2)]%elem_of_observed; subst.
    + by eapply (vi_unique c Hc).
    + apply Hold in H1 as [|[_ ?]]; [lia|congruence].
    + apply Hold in H2 as [|[_ ?]]; [lia|congruence].
    + congruence.
  - intros m y Hy. simpl. rewrite lookup_insert. case_decide; [|by exists y].
    simplify_eq. by exists (Up st).
Qed.

Lemma node_event_votes n ev wall answer c :
  votes_inv c → terms_below c = true → votes_inv (node_event n ev wall answer c) ∧ forward c (node_event n ev wall answer c).
Proof.
  intros Hc Hb. unfold node_event. destruct (cl_nodes c !! n) as [[st|]|] eqn:Hn; [|done..].
  pose proof (worker_step_ok wall ev [] st) as Hok.
  pose proof (terms_below_lookup c n _ Hb Hn) as Ht.
  destruct (worker_step wall ev [] st) as [[st' out] reply]; simpl in *.
  eapply put_node_votes; [done|exact Hn|by eapply step_ok_meta_le|].
  apply Hok. by eapply vi_up.
Qed.

Lemma crash_votes n st c :
  votes_inv c → cl_nodes c !! n = Some (Up st) →
  let c' := mkCluster
    (<[n := Down (ws_storage st) (ws_cfg st) (ws_clock st) (ws_clock_reads st)
              (ws_rng st) (ws_rng_draws st)]> (cl_nodes c))
    (cl_net c) (cl_votes c) (cl_leaders c) in
  votes_inv c' ∧ forward c c'.
Proof.
  intros Hc Hn c'. pose proof (ni_meta st (vi_up c Hc n st Hn)) as Hm.
  assert (forward c c') as Hf.
  { intros m x Hx. simpl. rewrite lookup_insert. case_decide; [|by exists x].
    simplify_eq. eexists. split; [done|]. simpl. by rewrite Hm. }
  split; [|done]. split; simpl.
  - intros m y. rewrite lookup_insert. case_decide; [done|]. by apply Hc.
  - intros m t v (x & Hx & Hcase)%(vi_durable c Hc).
    destruct (decide (m = n)) as [->|]; [|rewrite lookup_insert_ne by done; eauto].
    rewrite lookup_insert_eq. eexists. split; [done|]. simplify_eq. simpl in *. by rewrite Hm.
  - apply Hc.
Qed.

Lemma exec_votes ev c :
  votes_inv c → terms_below c = true → votes_inv (exec ev c) ∧ forward c (exec ev c).
Proof.
  intros Hc Hb.
  assert (∀ net, votes_inv (mkCluster (cl_nodes c) net (cl_votes c) (cl_leaders c)) ∧
                 forward c (mkCluster (cl_nodes c) net (cl_votes c) (cl_leaders c))) as Hnet.
  { intros net. destruct Hc. split; [by split|]. by intros n x Hx; exists x. }
  destruct ev as [n wall|n msg wall|i wall|i|n|n wall]; simpl.
  - by apply node_event_votes.
  - case_match; [by apply node_event_votes|done].
  - destruct (cl_net c !! i) as [[from rpc|to outcome]|]; [|by apply node_event_votes|done].
    destruct (cl_nodes c !! rpc_peer rpc) as [[st|]|]; [by apply node_event_votes|auto|done].
  - destruct (cl_net c !! i) as [[from rpc|to outcome]|]; auto; done.
  - destruct (cl_nodes c !! n) as [[st|]|] eqn:Hn; [by apply crash_votes|done..].
  - destruct (cl_nodes c !! n) as [[st|s cfg clock reads rng draws]|] eqn:Hn; [done| |done].
    destruct (init_worker _ _ _ _ _ _ _) as [st|] eqn:Hw; [|done].
    apply init_worker_inv in Hw as (Hi & _ & _ & _ & _ & Hm).
    eapply put_node_votes; [done|exact Hn|by rewrite Hm|done].
Qed.

Lemma run_votes evs c :
  votes_inv c → no_term_wrap evs c = true → votes_inv (run evs c) ∧ forward c (run evs c).
Proof.
  unfold run. revert c.
  induction evs as [|ev evs IH]; intros c Hc; simpl; [done|]. intros [Hb Hw]%andb_prop.
  destruct (exec_votes ev c Hc Hb) as [Hc' Hf]. destruct (IH _ Hc' Hw) as [Hc'' Hf'].
  split; [done|]. by etransitivity.
Qed.

(** A cluster at boot: every replica down with some storage, nothing observed. *)
Definition all_down c : Prop :=
  cl_votes c = [] ∧ cl_leaders c = [] ∧ ∀ n st, cl_nodes c !! n ≠ Some (Up st).

Lemma all_down_votes c : all_down c → votes_inv c.
Proof.
  intros (Hv & _ & Hd). split; rewrite ?Hv; [|set_solver..]. intros n st Hn. by apply Hd in Hn.
Qed.
End Votes.

(** ** Election Safety for a fixed membership *)

Section ElectionSafety.
Context {NID S E : Type} `{!NodeId NID} `{!Storage NID S E} `{!StorageLaws NID S E}.
Context (M : list NID).
Implicit Types (st : WorkerState NID S) (c : Cluster NID S).

Definition majority (V : gset NID) : Prop :=
  quorum_holds (steady M) (λ m, bool_decide (m ∈ V)) = true.

Record up_inv c (n : NID) st : Prop := {
  ui_me : cfg_me (ws_cfg st) = n;
  ui_pre_vote : pre_vote (ws_cfg st) = false;
  ui_static : static M st;
  ui_role : ws_role st ≠ PreCandidate;
  ui_candidate v : ws_role st = Candidate → v ∈ ws_votes_received st →
    (v, current_term (ws_meta st), n) ∈ cl_votes c;
  ui_leader : ws_role st = Leader → (n, current_term (ws_meta st)) ∈ cl_leaders c;
}.

Definition status_inv c (n : NID) (x : NodeStatus NID S) : Prop :=
  match x with
  | Up st => up_inv c n st
  | Down s cfg _ _ _ _ =>
      cfg_me cfg = n ∧ cfg_members cfg = M ∧ pre_vote cfg = false ∧ static_store M (abs s)
  end.

Definition packet_inv c (p : Packet NID) : Prop :=
  match p with
  | PktReq from rpc => static_out M from rpc
  | PktOutcome to outcome =>
      ∀ from t, outcome = OcVote from (Some (mkVoteResp t true)) → (from, t, to) ∈ cl_votes c
  end.

Record cluster_inv c : Prop := {
  ci_votes : votes_inv c;
  ci_nodes n x : cl_nodes c !! n = Some x → status_inv c n x;
  ci_net p : p ∈ cl_net c → packet_inv c p;
  ci_leaders n t : (n, t) ∈ cl_leaders c →
    ∃ V, majority V ∧ ∀ v, v ∈ V → (v, t, n) ∈ cl_votes c;
}.

(** A cluster that starts: every replica is down with some storage of the fixed
    membership, nothing is in flight. *)
Definition starts c : Prop :=
  cl_net c = [] ∧ cl_votes c = [] ∧ cl_leaders c = [] ∧
  ∀ n x, cl_nodes c !! n = Some x →
    ∃ s cfg clock reads rng draws, x = Down s cfg clock reads rng draws ∧
      cfg_me cfg = n ∧ cfg_members cfg = M ∧ pre_vote cfg = false ∧ static_store M (abs s).

Lemma starts_inv c : starts c → cluster_inv c.
Proof.
  intros (Hn & Hv & Hl & Hx). split; rewrite ?Hn, ?Hv, ?Hl; [| |set_solver..].
  { apply all_down_votes. split_and!; [done..|].
    intros n st (? & ? & ? & ? & ? & ? & ? & _)%Hx. done. }
  intros n x (s & cfg & clock & reads & rng & draws & -> & H)%Hx. done.
Qed.

(** Two majorities of recorded votes name one leader. *)
Lemma one_leader c n1 n2 t :
  cluster_inv c → (n1, t) ∈ cl_leaders c → (n2, t) ∈ cl_leaders c → n1 = n2.
Proof.
  intros Hc (V1 & Hq1 & HV1)%(ci_leaders c Hc) (V2 & Hq2 & HV2)%(ci_leaders c Hc).
  destruct (quorum_intersection (steady M) (steady M) M _ _
    ltac:(by left) ltac:(by left) Hq1 Hq2) as (m & _ & H1 & H2).
  apply bool_decide_eq_true in H1, H2.
  eapply (vi_unique c (ci_votes c Hc)); [by apply HV1|by apply HV2].
Qed.

(** History only grows. *)
Lemma status_inv_mono c c' n x :
  cl_votes c ⊆ cl_votes c' → cl_leaders c ⊆ cl_leaders c' →
  status_inv c n x → status_inv c' n x.
Proof.
  intros Hv Hl. destruct x as [st|]; simpl; [|done]. intros []. split; auto.
Qed.

Lemma packet_inv_mono c c' p : cl_votes c ⊆ cl_votes c' → packet_inv c p → packet_inv c' p.
Proof. intros Hv. destruct p; simpl; [done|]. intros H from t Ho. by apply Hv, H. Qed.

(** Installing the next state of a replica whose durable scalars only moved
    forward. *)
Lemma put_node_inv n x st sent c :
  cluster_inv c → cl_nodes c !! n = Some x → meta_le (durable x) (ws_meta st) → node_inv st →
  up_inv (put_node n st sent c) n st →
  (∀ p, p ∈ sent → packet_inv (put_node n st sent c) p) →
  (ws_role st = Leader → ∃ V, majority V ∧
    ∀ v, v ∈ V → (v, current_term (ws_meta st), n) ∈ cl_votes (put_node n st sent c)) →
  cluster_inv (put_node n st sent c).
Proof.
  intros Hc Hx Hle Hi Hup Hsent Hlead.
  assert (cl_votes c ⊆ cl_votes (put_node n st sent c)) by (simpl; set_solver).
  assert (cl_leaders c ⊆ cl_leaders (put_node n st sent c)) by (simpl; set_solver).
  split.
  - by eapply put_node_votes; [apply Hc|..].
  - intros m y. simpl. rewrite lookup_insert. case_decide; [subst; intros [= <-]; exact Hup|].
    intros Hy. eapply status_inv_mono; [done|done|]. by apply Hc.
  - intros p. simpl. intros [Hp|Hp]%elem_of_app; [|by apply Hsent].
    eapply packet_inv_mono; [done|]. by apply Hc.
  - intros m t. simpl. intros [Hm|Hm]%elem_of_app.
    + unfold observe_leader in Hm. destruct (ws_role st); [set_solver..|].
      apply list_elem_of_singleton in Hm as [= -> ->]. auto.
    + apply (ci_leaders c Hc) in Hm as (V & HV & Hall). exists V. split; [done|]. auto.
Qed.

(** A step of a running replica keeps its own part of the invariant, and a
    leader it makes has a majority behind it. *)
Lemma step_up_inv ev n st st' sent c :
  cluster_inv c → cl_nodes c !! n = Some (Up st) →
  (∀ from t, event_grants ev from t → (from, t, n) ∈ cl_votes c) →
  step_ok (event_grants ev) st st' → static M st' →
  up_inv (put_node n st' sent c) n st' ∧
  (ws_role st' = Leader → ∃ V, majority V ∧
    ∀ v, v ∈ V → (v, current_term (ws_meta st'), n) ∈ cl_votes (put_node n st' sent c)).
Proof.
  intros Hc Hn Hgrant Hok Hst'. pose proof (ci_nodes c Hc n _ Hn) as Hup. simpl in Hup.
  assert (cl_votes c ⊆ cl_votes (put_node n st' sent c)) as Hsub by (simpl; set_solver).
  assert (∀ v, voted_for (ws_meta st') = Some v →
    (n, current_term (ws_meta st'), v) ∈ cl_votes (put_node n st' sent c)) as Hvote.
  { intros v Hv. simpl. unfold observe_votes. rewrite Hv. set_solver. }
  destruct Hup as [<- Hpv Hs Hr Hcand Hlead].
  destruct Hok as [Hcfg _ _ _ Hinv Hrole].
  split; [split|].
  - congruence.
  - congruence.
  - done.
  - destruct Hrole as [| |? [?|?]| | | |]; congruence.
  - intros v Hrv Hv. destruct Hrole as [Hr' Ht' Hv'|?|?|?|? Hv' ?|from ? ? ? Ht' Hv'|]; try congruence.
    + apply Hsub. rewrite Ht'. apply Hcand; congruence.
    + rewrite Hv' in Hv. apply elem_of_singleton in Hv as ->. auto.
    + rewrite Hv' in Hv. apply elem_of_union in Hv as [->%elem_of_singleton|Hv]; apply Hsub; [auto|].
      rewrite Ht'. by apply Hcand.
  - intros Hl. simpl. unfold observe_leader. rewrite Hl. set_solver.
  - intros Hl. destruct Hrole as [Hr' Ht' Hv'|?|?|?|? ? ?|?|V ? HV Hcase]; try congruence.
    + rewrite Ht'. assert (ws_role st = Leader) as HL by congruence.
      destruct (ci_leaders c Hc _ _ (Hlead HL)) as (V & HV & Hall). exists V. split; [done|]. auto.
    + exists V. rewrite (sm_effective M st Hs) in HV. split; [done|]. intros v Hv.
      destruct Hcase as [[-> ?]|(from & ? & ? & Ht' & ->)].
      * apply elem_of_singleton in Hv as ->. auto.
      * apply elem_of_union in Hv as [->%elem_of_singleton|Hv]; apply Hsub; [auto|].
        rewrite Ht'. by apply Hcand.
Qed.

Lemma node_event_inv n ev wall answer c :
  cluster_inv c → terms_below c = true → static_event M ev →
  (∀ from t, event_grants ev from t → (from, t, n) ∈ cl_votes c) →
  (∀ st st' out reply sent p, cl_nodes c !! n = Some (Up st) →
    worker_step wall ev [] st = (st', out, reply) → p ∈ answer reply →
    packet_inv (put_node n st' sent c) p) →
  cluster_inv (node_event n ev wall answer c).
Proof.
  intros Hc Hb Hev Hgrant Hans. unfold node_event.
  destruct (cl_nodes c !! n) as [[st|]|] eqn:Hn; [|done..].
  pose proof (ci_nodes c Hc n _ Hn) as [Hme _ Hs _ _ _].
  pose proof (terms_below_lookup c n _ Hb Hn) as Ht.
  pose proof (worker_step_ok wall ev [] st) as Hok.
  destruct (static_worker_step M wall ev st Hs Hev) as [Hs' Hout].
  destruct (worker_step wall ev [] st) as [[st' out] reply] eqn:Hstep. simpl in *.
  destruct (step_up_inv ev n st st' ((PktReq n <$> out) ++ answer reply) c) as [Hup Hlead]; try done.
  eapply put_node_inv; [done|exact Hn|by eapply step_ok_meta_le| |done| |done].
  { apply Hok. by eapply vi_up; [apply Hc|]. }
  intros p [(o & -> & Ho)%list_elem_of_fmap|Hp]%elem_of_app; [|by eapply Hans].
  simpl. rewrite Hme in Hout. by eapply Forall_forall in Hout.
Qed.

(** The reply to a vote request that grants it is backed by the recorded vote. *)
Lemma granted_reply_recorded wall from rpc st st' out reply sent c :
  static_out M from rpc →
  worker_step wall (EvMsg (rpc_msg from rpc)) [] st = (st', out, reply) →
  packet_inv (put_node (rpc_peer rpc) st' sent c) (PktOutcome from (rpc_outcome rpc reply)).
Proof.
  intros Hrpc Hstep voter t Ho. destruct rpc as [|peer req| |]; try done.
  injection Ho as <- Ho. unfold inbound_vote in Ho. unfold worker_step in Hstep. simpl in Hstep.
  destruct (handle_request_vote from req st) as [st1 r] eqn:Hh.
  destruct r as [resp|e]; simplify_eq/=.
  apply request_vote_granted in Hh as [Ht Hv].
  unfold observe_votes. simpl. rewrite Hv, Ht. set_solver.
Qed.

(** Packets added to the network without a step of any replica. *)
Lemma net_inv p c :
  cluster_inv c → packet_inv c p →
  cluster_inv (mkCluster (cl_nodes c) (cl_net c ++ [p]) (cl_votes c) (cl_leaders c)).
Proof.
  intros [Hv Hn Hp Hl] Hnew. split; simpl; try done.
  - by destruct Hv.
  - intros n x Hx. by eapply status_inv_mono; [..|by apply Hn].
  - intros q [Hq| ->%list_elem_of_singleton]%elem_of_app;
      (eapply packet_inv_mono; [|by eauto]); done.
Qed.

Lemma crash_inv n st c :
  cluster_inv c → cl_nodes c !! n = Some (Up st) →
  cluster_inv (mkCluster
    (<[n := Down (ws_storage st) (ws_cfg st) (ws_clock st) (ws_clock_reads st)
              (ws_rng st) (ws_rng_draws st)]> (cl_nodes c))
    (cl_net c) (cl_votes c) (cl_leaders c)).
Proof.
  intros Hc Hn. pose proof (ci_nodes c Hc n _ Hn) as Hup. split; simpl.
  - by apply crash_votes; [apply Hc|].
  - intros m x. rewrite lookup_insert. case_decide; [subst; intros [= <-]|].
    + destruct Hup. split_and!; try done; apply ui_static0.
    + intros Hx. eapply status_inv_mono; [..|by apply Hc]; done.
  - intros p Hp. eapply packet_inv_mono; [|by apply Hc]. done.
  - apply Hc.
Qed.

Lemma restart_inv n s cfg clock reads rng draws wall st c :
  cluster_inv c → cl_nodes c !! n = Some (Down s cfg clock reads rng draws) →
  init_worker s cfg clock reads rng draws wall = Ok st → cluster_inv (put_node n st [] c).
Proof.
  intros Hc Hn Hst. pose proof (ci_nodes c Hc n _ Hn) as (Hme & HM & Hpv & Hs).
  pose proof (static_init M _ _ _ _ _ _ _ _ Hs HM Hst) as Hstat.
  apply init_worker_inv in Hst as (Hi & _ & Hcfg & Hr & Hv & Hm).
  eapply put_node_inv; [done|exact Hn|by rewrite Hm|done| |set_solver|congruence].
  split; try congruence; done.
Qed.

(** Membership changes are the only requests the result excludes. *)
Definition keeps_membership (ev : ClusterEvent NID) : Prop :=
  match ev with CeClient _ (MsgChangeMembership _) _ => False | _ => True end.

Lemma exec_inv ev c :
  keeps_membership ev → terms_below c = true → cluster_inv c → cluster_inv (exec ev c).
Proof.
  intros Hk Hb Hc. destruct ev as [n wall|n msg wall|i wall|i|n|n wall]; simpl.
  - apply node_event_inv; try done; set_solver.
  - destruct (client_msg msg) eqn:Hcm; [|done]. apply node_event_inv; try done; [|set_solver].
    by destruct msg.
  - destruct (cl_net c !! i) as [[from rpc|to outcome]|] eqn:Hi; [| |done].
    + apply list_elem_of_lookup_2, (ci_net c Hc) in Hi. simpl in Hi.
      destruct (cl_nodes c !! rpc_peer rpc) as [[st|]|] eqn:Hn; [| |done].
      * apply node_event_inv; try done; [by destruct rpc|].
        intros st0 st' out reply sent p _ Hstep ->%list_elem_of_singleton.
        by eapply granted_reply_recorded.
      * apply net_inv; [done|]. intros f t Ho. by destruct rpc.
    + apply list_elem_of_lookup_2, (ci_net c Hc) in Hi. simpl in Hi.
      apply node_event_inv; try done; [|set_solver]. intros from t [= ->]. by apply Hi.
  - destruct (cl_net c !! i) as [[from rpc|to outcome]|] eqn:Hi; [|done..].
    apply net_inv; [done|]. intros f t Ho. by destruct rpc.
  - destruct (cl_nodes c !! n) as [[st|]|] eqn:Hn; [|done..]. by apply crash_inv.
  - destruct (cl_nodes c !! n) as [[st|]|] eqn:Hn; [done| |done].
    destruct (init_worker _ _ _ _ _ _ _) eqn:Hw; [|done]. by eapply restart_inv.
Qed.

Lemma run_inv evs c :
  Forall keeps_membership evs → no_term_wrap evs c = true → cluster_inv c →
  cluster_inv (run evs c).
Proof.
  unfold run. intros Hevs. revert c.
  induction Hevs as [|ev evs Hev Hevs IH]; intros c; simpl; [done|].
  intros [Hb Hw]%andb_prop Hc. by apply IH, exec_inv.
Qed.
End ElectionSafety.

(** ** The properties *)

Section Properties.
Context {NID S E : Type} `{!NodeId NID} `{!Storage NID S E} `{!StorageLaws NID S E}.

(** C1: Election Safety.  In a cluster of a fixed membership with the pre-vote
    phase off, at most one replica ever leads a term, whatever the network
    loses, duplicates or reorders, whichever writes fail, and whenever replicas
    crash and restart, as long as no replica acts at the term [u64::MAX], whose
    increment wraps to zero. *)
Theorem election_safety_static (M : list NID) (c : Cluster NID S) evs n1 n2 t :
  starts M c → Forall keeps_membership evs → no_term_wrap evs c = true →
  (n1, t) ∈ cl_leaders (run evs c) → (n2, t) ∈ cl_leaders (run evs c) → n1 = n2.
Proof.
  intros Hc Hevs Hw. apply (one_leader M). apply run_inv; [done..|]. by apply starts_inv.
Qed.

(** C4: A replica never votes for two candidates in one term, across crashes and
    failed writes, in any configuration and with membership changes, as long as
    no replica acts at the term [u64::MAX], whose increment wraps to zero. *)
Theorem vote_once_per_term (c : Cluster NID S) evs n t v1 v2 :
  all_down c → no_term_wrap evs c = true →
  (n, t, v1) ∈ cl_votes (run evs c) → (n, t, v2) ∈ cl_votes (run evs c) → v1 = v2.
Proof. intros Hc Hw. apply vi_unique, run_votes, Hw. by apply all_down_votes. Qed.

(** The durable term and commit index of a replica never move backwards, and
    its vote of a term is never changed, over any further run of the cluster,
    restarts included, as long as no term wraps. *)
Theorem durable_state_moves_forward (c : Cluster NID S) evs evs' n x :
  all_down c → no_term_wrap (evs ++ evs') c = true → cl_nodes (run evs c) !! n = Some x →
  ∃ x', cl_nodes (run (evs ++ evs') c) !! n = Some x' ∧ meta_le (durable x) (durable x').
Proof.
  intros Hc [Hw Hw']%no_term_wrap_app. unfold run. rewrite foldl_app. intros Hx.
  apply (run_votes evs' (run evs c)); [|done..]. apply run_votes, Hw. by apply all_down_votes.
Qed.
End Properties.

(** ** Concrete runs *)

(** A cluster of [u16] replicas over empty in-memory storage, all down, with
    the default configuration modified by [f].  Each replica's clock advances
    one second per reading, so every timer that is due has expired. *)
Definition boot (members : list N) (f : Config N → Config N) : Cluster N (MemStorage N) :=
  mkCluster
    (list_to_map ((λ n, (n, Down mem_new (f (config_new n members))
                             (λ k, 1000 * N.of_nat k) 0%nat N.of_nat 0%nat)) <$> members))
    [] [] [].

Definition without_pre_vote (c : Config N) : Config N :=
  mkConfig (cfg_me c) (cfg_members c) (election_timeout_lo c) (election_timeout_hi c)
    (heartbeat_interval_ms c) (compact_hysteresis c) false (install_snapshot_chunk_bytes c)
    (max_pending_reads c) (max_snapshot_bytes c) (pre_candidate_misses_before_revert c).

Lemma boot_node members f n x :
  NoDup members → cl_nodes (boot members f) !! n = Some x →
  x = Down mem_new (f (config_new n members)) (λ k, 1000 * N.of_nat k) 0%nat N.of_nat 0%nat.
Proof.
  intros Hnd Hx%elem_of_list_to_map_2. apply list_elem_of_fmap in Hx as (m & [= -> ->] & _). done.
Qed.

Lemma boot_all_down members f : NoDup members → all_down (boot members f).
Proof. intros Hnd. split_and!; [done..|]. intros n st Hn. by apply boot_node in Hn. Qed.

Lemma boot_starts members : NoDup members → starts members (boot members without_pre_vote).
Proof.
  intros Hnd. split_and!; [done..|]. intros n x ->%boot_node; [|done].
  eexists _, _, _, _, _, _. split_and!; done.
Qed.

(** Three replicas; replica 1 wins term 1. *)
Definition plain_election : list (ClusterEvent N) :=
  [CeRestart 1 0; CeRestart 2 0; CeRestart 3 0; CeTimer 1 0; CeDeliver 0 0; CeDeliver 2 0;
   CeCrash 2; CeRestart 2 0].

Lemma election_safety_static_witness :
  (1, 1) ∈ cl_leaders (run plain_election (boot [1; 2; 3] without_pre_vote)) ∧
  ∀ n, (n, 1) ∈ cl_leaders (run plain_election (boot [1; 2; 3] without_pre_vote)) → n = 1.
Proof.
  assert ((1, 1) ∈ cl_leaders (run plain_election (boot [1; 2; 3] without_pre_vote))) as H1.
  { vm_compute. left. }
  split; [exact H1|]. intros n Hn.
  apply (election_safety_static [1; 2; 3] (boot [1; 2; 3] without_pre_vote) plain_election n 1 1).
  - apply boot_starts. by apply (bool_decide_eq_true_1 (NoDup [1; 2; 3])).
  - by repeat constructor.
  - vm_compute. reflexivity.
  - exact Hn.
  - exact H1.
Defined.

Lemma vote_once_per_term_witness :
  (2, 1, 1) ∈ cl_votes (run plain_election (boot [1; 2; 3] without_pre_vote)) ∧
  ∀ v, (2, 1, v) ∈ cl_votes (run plain_election (boot [1; 2; 3] without_pre_vote)) → v = 1.
Proof.
  assert ((2, 1, 1) ∈ cl_votes (run plain_election (boot [1; 2; 3] without_pre_vote))) as H1.
  { apply (bool_decide_eq_true_1 _). vm_compute. reflexivity. }
  split; [exact H1|]. intros v Hv.
  apply (vote_once_per_term (boot [1; 2; 3] without_pre_vote) plain_election 2 1 v 1).
  - apply boot_all_down. by apply (bool_decide_eq_true_1 (NoDup [1; 2; 3])).
  - vm_compute. reflexivity.
  - exact Hv.
  - exact H1.
Defined.

Lemma durable_state_moves_forward_witness :
  is_Some (cl_nodes (run plain_election (boot [1; 2; 3] without_pre_vote)) !! 2) ∧
  ∀ x, cl_nodes (run plain_election (boot [1; 2; 3] without_pre_vote)) !! 2 = Some x →
  ∃ x', cl_nodes (run (plain_election ++ [CeCrash 2]) (boot [1; 2; 3] without_pre_vote)) !! 2 =
          Some x' ∧ meta_le (durable x) (durable x').
Proof.
  split; [apply (bool_decide_eq_true_1 _); vm_compute; reflexivity|].
  intros x Hx. apply (durable_state_moves_forward (boot [1; 2; 3] without_pre_vote));
    [|vm_compute; reflexivity|exact Hx].
  apply boot_all_down. by apply (bool_decide_eq_true_1 (NoDup [1; 2; 3])).
Defined.

(** *** A split brain with the pre-vote phase

    Five replicas with the default configuration.  Replicas 1 and 3 both run in
    term 1; replica 2 votes for 1, replicas 4 and 5 vote for 3, which leads term
    1, and 1 follows it.  Replica 1 then loses contact, collects pre-votes of 4
    and 5, and is promoted to [Candidate] without leaving term 1.  The delayed
    vote of replica 2, granted at term 1, now completes a quorum of pre-votes
    and one vote, so that 1 leads term 1 as well.  Both leaders commit an entry
    at index 2. *)
Definition split_brain : list (ClusterEvent N) :=
  ((λ n, CeRestart n 0) <$> [1; 2; 3; 4; 5]) ++
  [ (* pre-votes of 1 and 3 for term 1 *)
    CeTimer 1 0; CeTimer 3 0; CeDeliver 0 0; CeDeliver 2 0; CeDeliver 6 0; CeDeliver 7 0;
    CeDeliver 8 0; CeDeliver 9 0; CeDeliver 10 0; CeDeliver 11 0;
    (* both run; 3 wins; the vote of 2 for 1 is packet 20 and stays on its way *)
    CeTimer 1 0; CeTimer 3 0; CeDeliver 12 0; CeDeliver 18 0; CeDeliver 19 0;
    CeDeliver 21 0; CeDeliver 22 0;
    (* 1 and 5 follow 3 *)
    CeTimer 3 0; CeDeliver 23 0; CeDeliver 26 0;
    (* the pre-votes of 4 and 5 for term 2, then the vote of term 1 *)
    CeTimer 1 0; CeDeliver 31 0; CeDeliver 32 0; CeDeliver 33 0; CeDeliver 34 0; CeDeliver 20 0;
    (* 3 commits a proposal through 2 and 4 *)
    CeClient 3 (MsgPropose [Byte.x01]) 0; CeTimer 3 0; CeDeliver 36 0; CeDeliver 37 0;
    CeDeliver 39 0; CeDeliver 40 0;
    (* 1 commits its no-op through 4 and 5 *)
    CeTimer 1 0; CeDeliver 43 0; CeDeliver 44 0; CeDeliver 45 0; CeDeliver 46 0 ].

(** The role, term, commit index and log entry at [i] of a running replica. *)
Definition inspect (c : Cluster N (MemStorage N)) (n i : N)
    : option (Role * N * N * option (LogEntry N)) :=
  match cl_nodes c !! n with
  | Some (Up st) => Some (ws_role st, current_term (ws_meta st), commit_index (ws_meta st),
                          mem_log (ws_storage st) !! i)
  | _ => None
  end.

(** With the pre-vote phase on, as it is by default, two replicas of a
    five-member cluster can lead the same term and commit different entries at
    the same index: the promotion to [Candidate] keeps the term, and the grants
    of the pre-vote round count as votes. *)
Theorem pre_vote_split_brain :
  let c := run split_brain (boot [1; 2; 3; 4; 5] id) in
  inspect c 1 2 = Some (Leader, 1, 2, Some (mkEntry 2 1 (Data []))) ∧
  inspect c 3 2 = Some (Leader, 1, 2, Some (mkEntry 2 1 (Data [Byte.x01]))).
Proof. vm_compute. split; reflexivity. Qed.
