(* ===== verification/RaftFindings.v ===== *)
(** * vos-raft: where the worker departs from its documentation

    Runs and lemmas that exhibit behaviour the comments of
    [support/vos-raft/src] rule out: a read barrier resolved by an old
    acknowledgement, an AppendEntries accepted below the local snapshot, a
    membership lost when an uncommitted change is truncated, a pre-vote phase
    that never ends in an election, a term raised by a stopped peer, a leader
    hint that outlives its term, and a removed leader that leaves at once. *)

From S2P Require Import Prelude RaftTypes RaftStorage RaftConfig RaftState RaftWorker RaftNode RaftWrites RaftLog.
From S2P Require Import RaftStatic RaftCluster.

Local Open Scope N_scope.

(** ** Read barriers *)

(** Three replicas without the pre-vote phase.  Replica 1 leads term 1 and
    commits index 1; the acknowledgement of replica 3 (packet 6) stays on its
    way.  Replica 2 then wins term 2 with the vote of 3 and commits index 2.
    Only now a client asks 1 for a read index, and packet 6 arrives. *)
Definition stale_read_setup : list (ClusterEvent N) :=
  [CeRestart 1 0; CeRestart 2 0; CeRestart 3 0;
   CeTimer 1 0; CeDeliver 0 0; CeDeliver 2 0;
   CeTimer 1 0; CeDeliver 3 0; CeDeliver 4 0; CeDeliver 5 0;
   CeTimer 2 0; CeDeliver 8 0; CeDeliver 9 0;
   CeTimer 2 0; CeDeliver 11 0; CeDeliver 12 0].
Definition stale_read_request : list (ClusterEvent N) :=
  [CeClient 1 (MsgReadIndex None 7) 0; CeDeliver 6 0].

Definition commit_of (c : Cluster N (MemStorage N)) (n : N) : option N :=
  match cl_nodes c !! n with Some (Up st) => Some (commit_index (ws_meta st)) | _ => None end.
Definition reads_of (c : Cluster N (MemStorage N)) (n : N) : list (N * result ReadIndexError N) :=
  match cl_nodes c !! n with Some (Up st) => ws_read_replies st | _ => [] end.

(** A read index can be answered by a deposed leader: index 2 is committed
    before the request is made, and yet one acknowledgement sent before the
    request resolves it with index 1.  The resolution test looks at indices a
    quorum had already acknowledged, not at acknowledgements of the heartbeat
    round the request started. *)
Theorem read_index_resolved_by_old_ack :
  let before := run stale_read_setup (boot [1; 2; 3] without_pre_vote) in
  let after := run stale_read_request before in
  commit_of before 2 = Some 2 ∧ reads_of before 1 = [] ∧ reads_of after 1 = [(7, Ok 1)].
Proof. vm_compute. split_and!; reflexivity. Qed.

(** ** AppendEntries below the snapshot *)

(** Replica 1 has compacted up to index 2 and holds uncommitted entries 3 and 4
    of term 1.  The leader of term 2 has three entries, the last of term 2, and
    sends all of them. *)
Definition compacted_store : MemStorage N :=
  mkMem (<[3 := entry_data 3 1 []]> (<[4 := entry_data 4 1 []]> ∅)) []
    (mkMeta 1 None 2 2 1) None None.
Definition full_log_append : AppendEntriesReq N :=
  mkAppendReq 2 2 0 0 3 [entry_data 1 1 []; entry_data 2 1 []; entry_data 3 2 [Byte.x01]].
Definition after_full_append : WorkerState N (MemStorage N) * result MemFault AppendEntriesResp :=
  handle_append_entries 2 full_log_append (sample_worker compacted_store (config_new 1 [1; 2; 3])).

(** An AppendEntries from index 0 to a replica with a snapshot is not checked
    against the log it has: it reports index 3 as replicated and even commits
    it, but keeps the stale entry 4 of term 1 behind the new entry 3 of term 2,
    so that the replica takes its log for one ending in term 1, and votes for a
    candidate that lacks the committed entry. *)
Theorem append_below_snapshot_keeps_stale_tail :
  after_full_append.2 = Ok (mkAppendResp 2 true 3) ∧
  let d := ws_storage after_full_append.1 in
  commit_index (mem_meta d) = 3 ∧
  mem_log d !! 3 = Some (entry_data 3 2 [Byte.x01]) ∧
  mem_log d !! 4 = Some (entry_data 4 1 []) ∧
  mem_last_term d = 1 ∧
  (handle_request_vote 3 (mkVoteReq 3 3 4 1) after_full_append.1).2 = Ok (mkVoteResp 3 true).
Proof. vm_compute. split_and!; reflexivity. Qed.

(** ** Membership after a truncation *)

(** Replica 1 was configured with members 1, 2, 3.  A snapshot up to index 3
    gives it the committed membership 1 to 5.  The leader of term 2 appends the
    start of a further change at index 4; the leader of term 3 overwrites it. *)
Definition joined_by_snapshot : WorkerState N (MemStorage N) :=
  (handle_install_snapshot 2
     (mkInstallReq 2 1 3 1 0 true [] [1; 2; 3; 4; 5] None (Some 2))
     (sample_worker mem_new (config_new 1 [1; 2; 3]))).1.
Definition change_appended : WorkerState N (MemStorage N) :=
  (handle_append_entries 2
     (mkAppendReq 2 2 3 1 3 [entry_config_change 4 2 (Some [1; 2; 3; 4; 5]) [1; 2; 3; 4; 5; 6]])
     joined_by_snapshot).1.
Definition change_overwritten : WorkerState N (MemStorage N) :=
  (handle_append_entries 3 (mkAppendReq 3 3 3 1 3 [entry_data 4 3 []]) change_appended).1.

(** When an uncommitted membership change is truncated and the change before
    it has been compacted, the replica falls back to its boot-time member list
    instead of the committed membership, in memory and durably. *)
Theorem truncated_change_loses_membership :
  ws_effective_cfg joined_by_snapshot = steady [1; 2; 3; 4; 5] ∧
  ws_effective_cfg change_appended = mkActive [1; 2; 3; 4; 5; 6] (Some [1; 2; 3; 4; 5]) ∧
  ws_effective_cfg change_overwritten = steady [1; 2; 3] ∧
  mem_active_config_ (ws_storage change_overwritten) = Some (mkActiveRecord (Some 0) [1; 2; 3] None).
Proof. vm_compute. split_and!; reflexivity. Qed.

Section General.
Context {NID S E : Type} `{!NodeId NID} `{!Storage NID S E} `{!StorageLaws NID S E}.
Implicit Types (st : WorkerState NID S).

(** ** A pre-vote phase without an end *)

(** The default body of [Transport::send_prevote]. *)
Definition default_send_prevote : PreVoteResp := mkPreVoteResp 0 false.

(** What such a transport lets a replica without a leader see: its timer, and
    the default replies to its own pre-vote requests. *)
Definition default_transport_event (ev : WorkerEvent (NID := NID)) : Prop :=
  ev = EvTimer ∨ ∃ peer t, ev = EvOutcome (OcPreVote peer t (Some default_send_prevote)).

Definition run_worker (evs : list WorkerEvent) st : WorkerState NID S :=
  foldl (λ st ev, (worker_step 0 ev [] st).1.1) st evs.

Record waiting (t : N) st : Prop := {
  wt_pre_vote : pre_vote (ws_cfg st) = true;
  wt_solo : is_solo_cluster st = false;
  wt_role : ws_role st = Follower ∨ ws_role st = PreCandidate;
  wt_term : current_term (ws_meta st) = t;
}.

Lemma waiting_start_pre_election t pending st :
  waiting t st → waiting t (start_pre_election pending st).1.1.
Proof.
  intros [Hp Hs Hr Ht]. unfold start_pre_election. case_match.
  - destruct (reset_election_timer_eq st) as (? & ? & ? & ->). by split.
  - rewrite Hs. match goal with |- context [reset_election_timer ?x] =>
      destruct (reset_election_timer_eq x) as (? & ? & ? & ->) end. split; simpl; auto.
Qed.

Lemma waiting_on_timer t pending st : waiting t st → waiting t (on_timer pending st).1.
Proof.
  intros Hw. unfold on_timer. destruct (wt_role t st Hw) as [-> | ->].
  - rewrite (wt_pre_vote t st Hw). pose proof (waiting_start_pre_election t pending st Hw).
    by destruct (start_pre_election pending st) as [[]].
  - destruct (_ && _).
    + match goal with |- context [reset_election_timer ?x] =>
        destruct (reset_election_timer_eq x) as (? & ? & ? & ->) end.
      destruct Hw. split; simpl; auto.
    + match goal with |- context [start_pre_election pending ?x] =>
        pose proof (waiting_start_pre_election t pending x) as H;
        destruct (start_pre_election pending x) as [[]] end.
      apply H. by destruct Hw.
Qed.

Lemma waiting_step t ev st :
  waiting t st → default_transport_event ev → waiting t (worker_step 0 ev [] st).1.1.
Proof.
  intros Hw [->|(peer & t' & ->)]; unfold worker_step.
  - unfold on_worker_timer, clock_now.
    match goal with |- context [expire_pending_reads ?n ?x] =>
      destruct (expire_pending_reads_eq n x) as (rr & ->) end.
    match goal with |- context [on_timer [] ?x] =>
      pose proof (waiting_on_timer t [] x) as H end.
    destruct (_ <=? _); [|by destruct Hw]. destruct (on_timer _ _) as [st1 out].
    destruct H as [? ? ? ?]; [by destruct Hw|]. by split.
  - simpl. unfold handle_prevote_response, default_send_prevote. simpl.
    destruct (N.ltb_spec (current_term (ws_meta st)) 0); [lia|].
    case_match; by destruct Hw.
Qed.

(** With a transport that keeps the default [send_prevote], a cluster of more
    than one member with the pre-vote phase on never starts a real election:
    whatever the timers do, a replica stays a follower or pre-candidate of its
    term.  The trait documents a fall back to a real election after a
    timeout. *)
Theorem default_send_prevote_never_elects t evs st :
  pre_vote (ws_cfg st) = true → is_solo_cluster st = false → ws_role st = Follower →
  current_term (ws_meta st) = t → Forall default_transport_event evs →
  ws_role (run_worker evs st) ≠ Candidate ∧ ws_role (run_worker evs st) ≠ Leader ∧
  current_term (ws_meta (run_worker evs st)) = t.
Proof.
  intros Hp Hs Hr Ht Hevs. assert (waiting t st) as Hw by (by split; auto). clear Hp Hs Hr Ht.
  unfold run_worker. revert st Hw. induction Hevs as [|ev evs Hev _ IH]; intros st Hw; simpl.
  - destruct Hw as [_ _ [->| ->] ?]; done.
  - apply IH. by apply waiting_step.
Qed.

(** ** A term raised by a stopped peer *)

(** The reply that [handle_inbound_prevote] makes up for a stopped worker
    carries the candidate's own next term, so the pre-candidate it reaches
    adopts that term, which the pre-vote phase exists to avoid. *)
Theorem stopped_peer_raises_term from (req : PreVoteReq NID) st st' :
  pv_next_term req = current_term (ws_meta st) + 1 →
  handle_prevote_response from (pv_next_term req) (inbound_prevote req None) st = (st', Ok ()) →
  current_term (ws_meta st') = current_term (ws_meta st) + 1 ∧ ws_role st' = Follower.
Proof.
  intros Hn. unfold handle_prevote_response, adopt_higher_term, persist_term_bump. simpl.
  rewrite Hn. destruct (N.ltb_spec (current_term (ws_meta st)) (current_term (ws_meta st) + 1)); [|lia].
  destruct (commit _ st) as [st1 [[]|e]] eqn:Hc; [|done].
  apply commit_Ok in Hc as (s' & -> & _). intros [= <-].
  match goal with |- context [step_down ?x] =>
    destruct (step_down_eq x) as (? & ? & ? & ? & ->) end. done.
Qed.

(** ** A leader hint that outlives its term *)

(** A reply with a higher term makes the replica adopt that term while the
    cached leader of the old term stays, although the cache is documented to be
    cleared whenever the term advances. *)
Theorem leader_hint_survives_term_change from resp st st' :
  current_term (ws_meta st) < aer_term resp →
  handle_append_response from resp st = (st', Ok ()) →
  current_term (ws_meta st') = aer_term resp ∧ ws_seen_leader st' = ws_seen_leader st.
Proof.
  intros Hlt. unfold handle_append_response, adopt_higher_term, persist_term_bump.
  destruct (N.ltb_spec (current_term (ws_meta st)) (aer_term resp)); [|lia].
  destruct (commit _ st) as [st1 [[]|e]] eqn:Hc; [|done].
  apply commit_Ok in Hc as (s' & -> & _). intros [= <-].
  match goal with |- context [step_down ?x] =>
    destruct (step_down_eq x) as (? & ? & ? & ? & ->) end. done.
Qed.

(** ** A removed leader leaves at once *)

(** A leader that finalises a membership change removing itself steps down in
    the same step that appends the final entry: the entry is not committed and
    has been sent to nobody. *)
Theorem removed_leader_leaves_uncommitted idx st st' :
  commit_index (ws_meta st) ≤ mem_last_index (abs (ws_storage st)) →
  ws_role st = Leader → is_joint (ws_effective_cfg st) = true →
  mem_last_index (abs (ws_storage st)) < u64_max →
  ws_pending_joint_entry st = Some idx → idx ≤ commit_index (ws_meta st) →
  cfg_me (ws_cfg st) ∉ ac_current (ws_effective_cfg st) →
  auto_finalize_joint_config st = (st', Ok ()) →
  ws_role st' = Follower ∧ ws_leader st' = None ∧
  ∃ e, mem_log (abs (ws_storage st')) !! e_index e = Some e ∧
    e_kind e = ConfigChange None (ac_current (ws_effective_cfg st)) ∧
    commit_index (ws_meta st') < e_index e.
Proof.
  intros Hci Hr Hj Hlast Hp Hidx Hme. unfold auto_finalize_joint_config.
  rewrite Hr, Hj, Hp. simpl. destruct (N.ltb_spec (commit_index (ws_meta st)) idx); [lia|].
  destruct (commit _ st) as [st1 [[]|e]] eqn:Hc; [|done].
  apply commit_Ok in Hc as (s' & -> & Habs). rewrite last_index_abs in *.
  rewrite bool_decide_eq_false_2 by done. intros [= <-].
  match goal with |- context [rebuild_leader_tracking ?x] =>
    destruct (rebuild_leader_tracking_eq x) as (? & -> & _) end.
  match goal with |- context [step_down ?x] =>
    destruct (step_down_eq x) as (? & ? & ? & ? & ->) end.
  split_and!; [done..|]. simpl. eexists. rewrite Habs, mem_commit_log.
  split_and!; [apply lookup_insert_eq|done|].
  simpl. rewrite wrapping_add64_small; lia.
Qed.
End General.

(** ** Witnesses *)

Definition lone_follower : WorkerState N (MemStorage N) :=
  sample_worker mem_new (config_new 1 [1; 2; 3]).

Lemma default_send_prevote_never_elects_witness :
  let evs := [EvTimer; EvOutcome (OcPreVote 2 1 (Some default_send_prevote)); EvTimer; EvTimer] in
  ws_role (run_worker evs lone_follower) ≠ Candidate ∧
  ws_role (run_worker evs lone_follower) ≠ Leader ∧
  current_term (ws_meta (run_worker evs lone_follower)) = 0.
Proof.
  apply default_send_prevote_never_elects; [reflexivity..|].
  repeat apply Forall_cons_2; try apply Forall_nil_2; try (left; reflexivity).
  right. eexists _, _. reflexivity.
Defined.

(** The pre-candidate a first timeout makes. *)
Definition lone_pre_candidate : WorkerState N (MemStorage N) :=
  (worker_step 0 EvTimer [] lone_follower).1.1.

Lemma stopped_peer_raises_term_witness :
  let st' := (handle_prevote_response 2 1 (inbound_prevote (mkPreVoteReq 1 1 0 0) None)
                lone_pre_candidate).1 in
  ws_role lone_pre_candidate = PreCandidate ∧
  current_term (ws_meta st') = 0 + 1 ∧ ws_role st' = Follower.
Proof.
  split; [vm_compute; reflexivity|].
  apply (stopped_peer_raises_term 2 (mkPreVoteReq 1 1 0 0) lone_pre_candidate).
  - vm_compute. reflexivity.
  - vm_compute. reflexivity.
Defined.

Lemma leader_hint_survives_term_change_witness :
  let st := with_seen_leader (Some 2) lone_follower in
  let st' := (handle_append_response 3 (mkAppendResp 5 false 0) st).1 in
  current_term (ws_meta st') = 5 ∧ ws_seen_leader st' = Some 2.
Proof.
  apply (leader_hint_survives_term_change 3 (mkAppendResp 5 false 0)
    (with_seen_leader (Some 2) lone_follower)); vm_compute; reflexivity.
Defined.

(** Replica 1 leads a joint change from 1, 2, 3 to 2, 3 whose first entry, at
    index 1, is committed. *)
Definition leaving_leader : WorkerState N (MemStorage N) :=
  with_role Leader (with_pending_joint_entry (Some 1)
    (with_effective_cfg (mkActive [2; 3] (Some [1; 2; 3]))
      (sample_worker sample_store (config_new 1 [1; 2; 3])))).

Lemma removed_leader_leaves_uncommitted_witness :
  let st' := (auto_finalize_joint_config leaving_leader).1 in
  ws_role st' = Follower ∧ ws_leader st' = None ∧
  ∃ e, mem_log (abs (ws_storage st')) !! e_index e = Some e ∧
    e_kind e = ConfigChange None [2; 3] ∧ commit_index (ws_meta st') < e_index e.
Proof.
  apply (removed_leader_leaves_uncommitted 1 leaving_leader);
    try (vm_compute; reflexivity); try (vm_compute; discriminate).
  apply (bool_decide_eq_true_1 _). vm_compute. reflexivity.
Defined.
