(* ===== verification/Worklist.v ===== *)
(** * Worklist loops

    Graph traversals of the sources are loops over a stack or queue of
    identifiers with a set of those already visited: [worklist].  A traversal is
    the body it runs on an identifier visited for the first time, and
    [worklist_explores] reduces its correctness to the body's: the loop visits
    exactly what can be reached.  The loop takes fuel and is [None] without it;
    [worklist_total] bounds the fuel by the number of edges. *)

From S2P Require Import Prelude.

(** A loop body goes on with new loop variables or returns from the function. *)
Inductive flow (A R : Type) := Continue (a : A) | Return (r : R).
Arguments Continue {A R} _.
Arguments Return {A R} _.

Section worklist.
Context {C Acc R : Type} `{Countable C}.

(** [while let Some(c) = work.pop() { if !visited.insert(c) { continue; } body }],
    where [body] sees [c], the visited set with [c] in it, and the rest of the
    work. *)
Fixpoint worklist (body : C → gset C → list C → Acc → flow (list C * Acc) R)
    (fuel : nat) (work : list C) (visited : gset C) (acc : Acc)
    : option (flow (gset C * Acc) R) :=
  match fuel with
  | O => None
  | S fuel =>
      match work with
      | [] => Some (Continue (visited, acc))
      | c :: work =>
          if decide (c ∈ visited) then worklist body fuel work visited acc else
          match body c ({[c]} ∪ visited) work acc with
          | Continue (work, acc) => worklist body fuel work ({[c]} ∪ visited) acc
          | Return r => Some (Return r)
          end
      end
  end.

Implicit Types (body : C → gset C → list C → Acc → flow (list C * Acc) R).

(** An invariant of the loop. *)
Lemma worklist_ind body (I : gset C → list C → Acc → Prop) (Q : R → Prop) fuel work visited acc r :
  (∀ vis c w a, I vis (c :: w) a → c ∈ vis → I vis w a) →
  (∀ vis c w a w' a', I vis (c :: w) a → c ∉ vis →
     body c ({[c]} ∪ vis) w a = Continue (w', a') → I ({[c]} ∪ vis) w' a') →
  (∀ vis c w a x, I vis (c :: w) a → c ∉ vis → body c ({[c]} ∪ vis) w a = Return x → Q x) →
  I visited work acc →
  worklist body fuel work visited acc = Some r →
  match r with Continue (vis, a) => I vis [] a | Return x => Q x end.
Proof.
  intros Hskip Hstep Hret. revert work visited acc.
  induction fuel as [|fuel IH]; intros work visited acc HI; simpl; [done|].
  destruct work as [|c work]; [by intros [= <-]|].
  destruct (decide (c ∈ visited)); [apply IH; by eapply Hskip|].
  destruct (body c _ work acc) as [[w a]|x] eqn:Hb; [apply IH; by eapply Hstep|].
  intros [= <-]. by eapply Hret.
Qed.

(** The sum of a cost over a set. *)
Definition cost_sum (cost : C → nat) (X : gset C) : nat := sum_list_with cost (elements X).

Lemma cost_sum_remove cost (X : gset C) c :
  c ∈ X → cost_sum cost X = cost c + cost_sum cost (X ∖ {[c]}).
Proof.
  intros Hc. unfold cost_sum.
  replace X with ({[c]} ∪ X ∖ {[c]}) at 1
    by (symmetry; apply union_difference_L; set_solver).
  rewrite elements_union_singleton by set_solver. done.
Qed.

(** A loop in which visiting [c] adds at most [cost c] to the work, and which goes
    on only inside a finite set, ends. *)
Lemma worklist_total body (cost : C → nat) (X : gset C) fuel work visited acc :
  (∀ c vis w a w' a', body c vis w a = Continue (w', a') →
     c ∈ X ∧ length w' ≤ length w + cost c) →
  length work + cost_sum cost (X ∖ visited) < fuel →
  ∃ r, worklist body fuel work visited acc = Some r.
Proof.
  intros Hbody. revert work visited acc.
  induction fuel as [|fuel IH]; intros work visited acc Hfuel; simpl; [lia|].
  destruct work as [|c work]; [eauto|]. simpl in Hfuel.
  destruct (decide (c ∈ visited)) as [|Hc]; [apply IH; lia|].
  destruct (body c _ work acc) as [[w a]|x] eqn:Hb; [|eauto].
  apply Hbody in Hb as [HX Hlen]. apply IH.
  rewrite (cost_sum_remove cost (X ∖ visited) c) in Hfuel by set_solver.
  replace (X ∖ ({[c]} ∪ visited)) with ((X ∖ visited) ∖ {[c]}) by set_solver. lia.
Qed.

(** More fuel does not change the result. *)
Lemma worklist_more body fuel fuel' work visited acc r :
  worklist body fuel work visited acc = Some r → fuel ≤ fuel' → worklist body fuel' work visited acc = Some r.
Proof.
  revert fuel' work visited acc. induction fuel as [|fuel IH]; intros [|fuel'] work visited acc Hw Hle; [done|done|lia|].
  simpl in *. destruct work as [|c work]; [done|]. destruct (decide (c ∈ visited)); [apply IH; [done|lia]|].
  destruct (body c _ work acc) as [[w a]|x]; [apply IH; [done|lia]|done].
Qed.

(** The same for a loop whose work stays inside a finite set. *)
Lemma worklist_total_within body (cost : C → nat) (X : gset C) fuel work visited acc :
  (∀ c vis w a w' a', c ∈ X → body c vis w a = Continue (w', a') →
     length w' ≤ length w + cost c ∧ ∀ x, x ∈ w' → x ∈ w ∨ x ∈ X) →
  (∀ x, x ∈ work → x ∈ X) →
  length work + cost_sum cost (X ∖ visited) < fuel →
  ∃ r, worklist body fuel work visited acc = Some r.
Proof.
  intros Hbody. revert work visited acc.
  induction fuel as [|fuel IH]; intros work visited acc HX Hfuel; simpl; [lia|].
  destruct work as [|c work]; [eauto|]. simpl in Hfuel.
  assert (∀ x, x ∈ work → x ∈ X) as Hwork by (intros x Hx; apply HX; by right).
  destruct (decide (c ∈ visited)) as [|Hc]; [apply IH; [done|lia]|].
  destruct (body c _ work acc) as [[w a]|x] eqn:Hb; [|eauto].
  assert (c ∈ X) as HcX by (apply HX; left). destruct (Hbody _ _ _ _ _ _ HcX Hb) as [Hlen Hin]. apply IH.
  - intros x [Hx|Hx]%Hin; auto.
  - rewrite (cost_sum_remove cost (X ∖ visited) c) in Hfuel by set_solver.
    replace (X ∖ ({[c]} ∪ visited)) with ((X ∖ visited) ∖ {[c]}) by set_solver. lia.
Qed.

(** What can be reached from a set of starting points, where [expand c] are the
    successors of [c]. *)
Inductive reach (expand : C → option (gset C)) (R0 : gset C) : C → Prop :=
| reach_root c : c ∈ R0 → reach expand R0 c
| reach_next c kids x : reach expand R0 c → expand c = Some kids → x ∈ kids → reach expand R0 x.

(** A body that pushes the successors of [c] it has not visited makes the loop
    visit exactly what can be reached. *)
Definition explores body (expand : C → option (gset C)) : Prop :=
  ∀ c vis w a w' a', c ∈ vis → body c vis w a = Continue (w', a') →
    ∃ kids, expand c = Some kids ∧
      (∀ x, x ∈ w' → x ∈ w ∨ x ∈ kids) ∧ (∀ x, x ∈ w → x ∈ w') ∧
      (∀ x, x ∈ kids → x ∈ vis ∨ x ∈ w').

Lemma worklist_explores body expand (J : gset C → Acc → Prop) (Q : R → Prop) fuel work acc r :
  explores body expand →
  (∀ vis c w a w' a', J vis a → reach expand (list_to_set work) c → c ∉ vis →
     body c ({[c]} ∪ vis) w a = Continue (w', a') → J ({[c]} ∪ vis) a') →
  (∀ vis c w a x, J vis a → (∀ y, y ∈ vis → reach expand (list_to_set work) y) →
     reach expand (list_to_set work) c → c ∉ vis →
     body c ({[c]} ∪ vis) w a = Return x → Q x) →
  J ∅ acc →
  worklist body fuel work ∅ acc = Some r →
  match r with
  | Continue (vis, a) =>
      J vis a ∧ (∀ c, c ∈ vis ↔ reach expand (list_to_set work) c) ∧
      (∀ c, c ∈ vis → is_Some (expand c))
  | Return x => Q x
  end.
Proof.
  intros Hex HJ HQ HJ0 Hw. set (R0 := list_to_set work) in *.
  set (I (vis : gset C) (w : list C) (a : Acc) := J vis a ∧ (∀ c, c ∈ vis → reach expand R0 c) ∧
    (∀ c, c ∈ w → reach expand R0 c) ∧ (∀ c, c ∈ R0 → c ∈ vis ∨ c ∈ w) ∧
    (∀ c, c ∈ vis → ∃ kids, expand c = Some kids ∧ ∀ x, x ∈ kids → x ∈ vis ∨ x ∈ w)).
  eapply (worklist_ind body I Q) in Hw; unfold I in *.
  - destruct r as [[vis a]|x]; [|done]. destruct Hw as (HJv & Hv & _ & HR & Hcl).
    split_and!; [done| |intros c Hc; destruct (Hcl c Hc) as (kids & Hk & _); eauto].
    intros c. split; [apply Hv|]. induction 1 as [c Hc|c kids x _ IH He Hx].
    + destruct (HR c Hc) as [|?%elem_of_nil]; done.
    + destruct (Hcl c IH) as (kids' & Hk & Hall). simplify_eq.
      destruct (Hall x Hx) as [|?%elem_of_nil]; done.
  - intros vis c w a (?&?& Hrw & HR & Hcl) Hc. split_and!; [done|done|set_solver|set_solver|].
    intros y Hy. destruct (Hcl y Hy) as (kids & ? & ?). exists kids. set_solver.
  - intros vis c w a w' a' (HJv & Hv & Hrw & HR & Hcl) Hc Hb.
    assert (reach expand R0 c) as Hrc by (apply Hrw; left).
    destruct (Hex c ({[c]} ∪ vis) w a w' a') as (kids & He & H1 & H2 & H3); [set_solver|done|].
    split_and!; [by eapply HJ|set_solver| |set_solver|].
    + intros x [?|?]%H1; [set_solver|]. by eapply reach_next.
    + intros y [->%elem_of_singleton|Hy]%elem_of_union; [exists kids; set_solver|].
      destruct (Hcl y Hy) as (ks & ? & ?). exists ks. set_solver.
  - intros vis c w a x (HJv & Hv & Hrw & _) Hc Hb. eapply HQ; eauto. apply Hrw. left.
  - split_and!; [done|set_solver| |set_solver|set_solver].
    intros c Hc. apply reach_root. unfold R0. by apply elem_of_list_to_set.
Qed.
End worklist.


(** Two loops whose bodies stay related as long as they visit the same
    identifiers end the same way. *)
Section worklist_sim.
Context {C Acc1 Acc2 R : Type} `{Countable C}.
Context (body1 : C → gset C → list C → Acc1 → flow (list C * Acc1) R).
Context (body2 : C → gset C → list C → Acc2 → flow (list C * Acc2) R).
Context (I : gset C → Acc1 → Acc2 → Prop).

Definition flow_related {W} (J : Acc1 → Acc2 → Prop) (r1 : flow (W * Acc1) R) (r2 : flow (W * Acc2) R)
    : Prop :=
  match r1, r2 with
  | Continue (w1, a1), Continue (w2, a2) => w1 = w2 ∧ J a1 a2
  | Return x1, Return x2 => x1 = x2
  | _, _ => False
  end.

Lemma worklist_sim fuel work visited a1 a2 :
  (∀ c vis w a1 a2, c ∉ vis → I vis a1 a2 →
     flow_related (I ({[c]} ∪ vis)) (body1 c ({[c]} ∪ vis) w a1) (body2 c ({[c]} ∪ vis) w a2)) →
  I visited a1 a2 →
  match worklist body1 fuel work visited a1, worklist body2 fuel work visited a2 with
  | None, None => True
  | Some r1, Some r2 => ∃ vis, flow_related (I vis) r1 r2
  | _, _ => False
  end.
Proof.
  intros Hbody. revert work visited a1 a2.
  induction fuel as [|fuel IH]; intros work visited a1 a2 HI; cbn [worklist]; [done|].
  destruct work as [|c work]; [by exists visited|].
  destruct (decide (c ∈ visited)) as [|Hc]; [by apply IH|].
  specialize (Hbody c visited work a1 a2 Hc HI).
  destruct (body1 c _ work a1) as [[w1 x1]|r1], (body2 c _ work a2) as [[w2 x2]|r2]; cbn in Hbody; try done.
  - destruct Hbody as [<- HI']. by apply IH.
  - subst r2. by exists ∅.
Qed.
End worklist_sim.
