(* ===== verification/Bytes.v ===== *)
(** * Bytes of machine integers and strings

    What the Rust sources use of the language's own library to lay values out as
    bytes: [to_le_bytes] and [from_le_bytes] of a [w]-byte unsigned integer,
    [checked_add] of [usize] (64 bits wide), and the UTF-8 check behind
    [String::from_utf8].  A byte is [Byte.byte]; a slice or vector of bytes is
    [bytes]. *)

From Stdlib.Strings Require Byte.
From S2P Require Import Prelude.

Local Open Scope N_scope.

(** [checked_add] of [usize]. *)
Definition checked_add (a b : N) : option N :=
  if a + b <=? u64_max then Some (a + b) else None.

(** ** Bytes of integers *)

Definition byte_of (n : N) : Byte.byte := default Byte.x00 (Byte.of_N (n `mod` 256)).

(** [to_le_bytes] of an unsigned integer of [w] bytes. *)
Fixpoint to_le_bytes (w : nat) (v : N) : bytes :=
  match w with
  | O => []
  | S w => byte_of v :: to_le_bytes w (v / 256)
  end.

Fixpoint from_le_bytes (b : bytes) : N :=
  match b with
  | [] => 0
  | x :: b => Byte.to_N x + 256 * from_le_bytes b
  end.

Definition int_modulus (w : nat) : N := 256 ^ N.of_nat w.

(** ** Strings *)

Definition in_range (lo hi : N) (b : Byte.byte) : bool :=
  (lo <=? Byte.to_N b) && (Byte.to_N b <=? hi).

(** [core::str::from_utf8] accepts the bytes: the well-formed sequences of the
    Unicode standard (no overlong forms, no surrogates, at most U+10FFFF). *)
Fixpoint utf8_valid (bs : bytes) : bool :=
  match bs with
  | [] => true
  | b0 :: r0 =>
      if in_range 0 0x7F b0 then utf8_valid r0 else
      match r0 with
      | [] => false
      | b1 :: r1 =>
          if in_range 0xC2 0xDF b0 && in_range 0x80 0xBF b1 then utf8_valid r1 else
          match r1 with
          | [] => false
          | b2 :: r2 =>
              if ((in_range 0xE0 0xE0 b0 && in_range 0xA0 0xBF b1)
                  || (in_range 0xE1 0xEC b0 && in_range 0x80 0xBF b1)
                  || (in_range 0xED 0xED b0 && in_range 0x80 0x9F b1)
                  || (in_range 0xEE 0xEF b0 && in_range 0x80 0xBF b1))
                 && in_range 0x80 0xBF b2
              then utf8_valid r2 else
              match r2 with
              | [] => false
              | b3 :: r3 =>
                  if ((in_range 0xF0 0xF0 b0 && in_range 0x90 0xBF b1)
                      || (in_range 0xF1 0xF3 b0 && in_range 0x80 0xBF b1)
                      || (in_range 0xF4 0xF4 b0 && in_range 0x80 0x8F b1))
                     && in_range 0x80 0xBF b2 && in_range 0x80 0xBF b3
                  then utf8_valid r3 else false
              end
          end
      end
  end.

Definition blen (b : bytes) : N := N.of_nat (length b).

(** ** Lemmas *)

Lemma blen_app b1 b2 : blen (b1 ++ b2) = blen b1 + blen b2.
Proof. unfold blen. rewrite length_app. lia. Qed.

Lemma byte_of_to_N n : n < 256 → Byte.to_N (byte_of n) = n.
Proof.
  intros Hn. unfold byte_of. rewrite N.mod_small by done.
  destruct (Byte.of_N n) as [b|] eqn:Hb; simpl; [by apply Byte.to_of_N|].
  apply Byte.of_N_None_iff in Hb. lia.
Qed.

Lemma byte_of_mod n : byte_of (n `mod` 256) = byte_of n.
Proof. unfold byte_of. by rewrite N.Div0.mod_mod. Qed.

Lemma length_to_le_bytes w v : length (to_le_bytes w v) = w.
Proof. revert v. induction w; intros; simpl; auto. Qed.

Lemma int_modulus_S w : int_modulus (Datatypes.S w) = 256 * int_modulus w.
Proof. unfold int_modulus. rewrite Nat2N.inj_succ, N.pow_succ_r'. done. Qed.

Lemma from_to_le_bytes w v : v < int_modulus w → from_le_bytes (to_le_bytes w v) = v.
Proof.
  revert v. induction w as [|w IH]; intros v Hv; simpl.
  - unfold int_modulus in Hv. simpl in Hv. lia.
  - rewrite int_modulus_S in Hv. rewrite IH by (apply N.Div0.div_lt_upper_bound; lia).
    rewrite <- byte_of_mod, byte_of_to_N by (by apply N.mod_lt).
    rewrite (N.div_mod v 256) at 3; lia.
Qed.

Lemma byte_to_N_inj a b : Byte.to_N a = Byte.to_N b → a = b.
Proof.
  intros Heq. pose proof (Byte.of_to_N a) as Ha. rewrite Heq, Byte.of_to_N in Ha. congruence.
Qed.

#[export] Instance byte_inhabited : Inhabited Byte.byte := populate Byte.x00.

#[export] Program Instance byte_countable : Countable Byte.byte :=
  inj_countable' Byte.to_N byte_of _.
Next Obligation.
  intros b. apply byte_to_N_inj. apply byte_of_to_N. by destruct b.
Qed.

Lemma byte_of_of_N b : byte_of (Byte.to_N b) = b.
Proof. apply byte_to_N_inj. apply byte_of_to_N. by destruct b. Qed.

Lemma byte_to_N_lt b : Byte.to_N b < 256.
Proof. by destruct b. Qed.

Lemma from_le_bytes_lt b : from_le_bytes b < int_modulus (length b).
Proof.
  induction b as [|x b IH]; [done|]. cbn [from_le_bytes length].
  rewrite int_modulus_S. pose proof (byte_to_N_lt x). lia.
Qed.

(** The bytes of an integer are determined by it: [to_le_bytes] is the only
    encoding [from_le_bytes] accepts. *)
Lemma to_from_le_bytes b : to_le_bytes (length b) (from_le_bytes b) = b.
Proof.
  induction b as [|x b IH]; [done|]. cbn [from_le_bytes length to_le_bytes].
  pose proof (byte_to_N_lt x) as Hx.
  rewrite <- byte_of_mod. rewrite (N.mul_comm 256), N.Div0.mod_add, N.mod_small by done.
  rewrite byte_of_of_N, N.div_add, N.div_small by done. by rewrite N.add_0_l, IH.
Qed.

Arguments to_le_bytes : simpl never.
Arguments from_le_bytes : simpl never.

(** ** The derived order of byte strings

    [Ord] of [[u8; N]] and [Vec<u8>]: lexicographic. *)

Fixpoint bytes_leb (a b : bytes) : bool :=
  match a, b with
  | [], _ => true
  | _ :: _, [] => false
  | x :: a, y :: b =>
      (Byte.to_N x <? Byte.to_N y) || ((Byte.to_N x =? Byte.to_N y) && bytes_leb a b)
  end.

Definition bytes_le (a b : bytes) : Prop := bytes_leb a b = true.

Lemma bytes_le_cons x y a b :
  bytes_le (x :: a) (y :: b) ↔ Byte.to_N x < Byte.to_N y ∨ (x = y ∧ bytes_le a b).
Proof.
  unfold bytes_le. cbn [bytes_leb]. rewrite orb_true_iff, andb_true_iff, N.ltb_lt, N.eqb_eq.
  split; intros [?|[Hx ?]]; auto; [apply byte_to_N_inj in Hx as ->|subst]; auto.
Qed.

Lemma bytes_le_refl a : bytes_le a a.
Proof. induction a; [done|]. apply bytes_le_cons. auto. Qed.

Lemma bytes_le_trans a b c : bytes_le a b → bytes_le b c → bytes_le a c.
Proof.
  revert b c. induction a as [|x a IH]; intros [|y b] [|z c]; try done.
  rewrite !bytes_le_cons. intros [H1|[-> H1]] [H2|[-> H2]]; [left; lia|auto|auto|eauto].
Qed.

Lemma bytes_le_antisymm a b : bytes_le a b → bytes_le b a → a = b.
Proof.
  revert b. induction a as [|x a IH]; intros [|y b]; try done.
  rewrite !bytes_le_cons. intros [H1|[-> H1]] [H2|[H2 H3]]; try lia; [subst; lia|].
  f_equal. auto.
Qed.

Lemma bytes_le_total a b : bytes_le a b ∨ bytes_le b a.
Proof.
  revert b. induction a as [|x a IH]; intros [|y b]; [by left|by left|by right|].
  rewrite !bytes_le_cons. destruct (N.lt_trichotomy (Byte.to_N x) (Byte.to_N y)) as [|[Hx|]]; auto.
  apply byte_to_N_inj in Hx as ->. destruct (IH b); auto.
Qed.

#[export] Instance bytes_le_dec : RelDecision bytes_le.
Proof. intros a b. unfold bytes_le. apply _. Defined.

#[export] Instance bytes_le_order : TotalOrder bytes_le.
Proof.
  split; [split; [split|]|].
  - exact bytes_le_refl.
  - intros a b c. apply bytes_le_trans.
  - intros a b. apply bytes_le_antisymm.
  - intros a b. destruct (decide (a = b)) as [->|Hne]; [by right; left|].
    assert (∀ x y, bytes_le x y → x ≠ y → strict bytes_le x y) as Hstrict.
    { intros x y Hxy Hn. split; [done|]. intros Hyx. by apply Hn, bytes_le_antisymm. }
    destruct (bytes_le_total a b); [left|right; right]; by apply Hstrict.
Qed.

#[export] Instance bytes_ord : RustOrd bytes := {| ord_le := bytes_le |}.

(** ** Big-endian integers and slices *)

Definition to_be_bytes (w : nat) (v : N) : bytes := reverse (to_le_bytes w v).
Definition from_be_bytes (b : bytes) : N := from_le_bytes (reverse b).

(** [bytes[at..at + n]]: out of range panics. *)
Definition slice_at (b : bytes) (at_ n : nat) : option bytes :=
  if (at_ + n <=? length b)%nat then Some (take n (drop at_ b)) else None.

Lemma length_to_be_bytes w v : length (to_be_bytes w v) = w.
Proof. unfold to_be_bytes. by rewrite length_reverse, length_to_le_bytes. Qed.

Lemma from_to_be_bytes w v : (v < int_modulus w)%N → from_be_bytes (to_be_bytes w v) = v.
Proof. intros Hv. unfold from_be_bytes, to_be_bytes. rewrite reverse_involutive. by apply from_to_le_bytes. Qed.

Lemma slice_at_app x y z : slice_at (x ++ y ++ z) (length x) (length y) = Some y.
Proof.
  unfold slice_at. rewrite !length_app, (proj2 (Nat.leb_le _ _)) by lia.
  by rewrite drop_app_length, take_app_length.
Qed.

Lemma slice_at_app' x y z n m : n = length x → m = length y → slice_at (x ++ y ++ z) n m = Some y.
Proof. intros -> ->. apply slice_at_app. Qed.

(** * Bit strings of byte strings

    The trees of the sources branch on the bits of a key, most significant bit of
    the first byte first.  [bits] is that bit string; [bits_lt] is its
    lexicographic order, which is the order of the bytes ([bytes_lt_bits]), so that
    a slice sorted by key splits at every bit into those with a 0 and those with a
    1. *)

Lemma byte_testbit_high b k : 8 ≤ k → N.testbit (Byte.to_N b) k = false.
Proof.
  intros Hk. pose proof (byte_to_N_lt b) as Hb.
  destruct (N.eq_dec (Byte.to_N b) 0) as [->|Hb0]; [apply N.bits_0|].
  apply N.bits_above_log2. assert (N.log2 (Byte.to_N b) < 8); [|lia].
  apply N.log2_lt_pow2; simpl; lia.
Qed.

Lemma byte_ext a b :
  (∀ k, (k < 8)%nat → N.testbit (Byte.to_N a) (7 - N.of_nat k) = N.testbit (Byte.to_N b) (7 - N.of_nat k)) →
  a = b.
Proof.
  intros Heq. apply byte_to_N_inj, N.bits_inj. intros k. destruct (N.lt_ge_cases k 8) as [Hk|Hk].
  - specialize (Heq (7 - N.to_nat k)%nat). replace (7 - N.of_nat (7 - N.to_nat k)) with k in Heq by lia.
    apply Heq. lia.
  - by rewrite !byte_testbit_high.
Qed.

(** The low [n] bits of [x], most significant first. *)
Fixpoint low_bits (n : nat) (x : N) : list bool :=
  match n with
  | O => []
  | S n => N.testbit x (N.of_nat n) :: low_bits n x
  end.

Fixpoint bits (b : bytes) : list bool :=
  match b with
  | [] => []
  | x :: b => low_bits 8 (Byte.to_N x) ++ bits b
  end.

Fixpoint bits_lt (a b : list bool) : Prop :=
  match a, b with
  | x :: a, y :: b => (x = false ∧ y = true) ∨ (x = y ∧ bits_lt a b)
  | _, _ => False
  end.

Lemma length_low_bits n x : length (low_bits n x) = n.
Proof. induction n as [|n IH]; [done|]. simpl. by rewrite IH. Qed.

Lemma length_bits b : length (bits b) = (8 * length b)%nat.
Proof. induction b as [|x b IH]; [done|]. cbn [bits]. rewrite length_app, length_low_bits, IH. simpl. lia. Qed.

Lemma lookup_low_bits n x i :
  (i < n)%nat → low_bits n x !! i = Some (N.testbit x (N.of_nat (n - 1 - i))).
Proof.
  revert i. induction n as [|n IH]; intros i Hi; [lia|]. destruct i as [|i]; simpl.
  - do 2 f_equal. lia.
  - rewrite IH by lia. do 3 f_equal. lia.
Qed.

(** Reading one bit of a key. *)
Lemma lookup_bits b i :
  (i < 8 * length b)%nat →
  bits b !! i = Some (N.testbit (Byte.to_N (b !!! (i / 8)%nat)) (7 - N.of_nat (i `mod` 8))).
Proof.
  revert i. induction b as [|x b IH]; intros i Hi; [simpl in Hi; lia|]. cbn [bits length] in *.
  destruct (decide (i < 8)%nat) as [Hlt|Hge].
  - rewrite lookup_app_l, lookup_low_bits by (rewrite ?length_low_bits; lia).
    rewrite Nat.div_small, Nat.mod_small by lia. simpl. do 2 f_equal. lia.
  - rewrite lookup_app_r, length_low_bits, IH by (rewrite ?length_low_bits; lia).
    replace (i / 8)%nat with (S ((i - 8) / 8))%nat
      by (replace i with (i - 8 + 1 * 8)%nat at 2 by lia; rewrite Nat.div_add; lia).
    replace (i `mod` 8)%nat with ((i - 8) `mod` 8)%nat
      by (replace i with (i - 8 + 1 * 8)%nat at 2 by lia; by rewrite Nat.Div0.mod_add). done.
Qed.

Lemma bits_inj a b : bits a = bits b → a = b.
Proof.
  revert b. induction a as [|x a IH]; intros [|y b] Heq; [done|discriminate Heq..|].
  cbn [bits] in Heq. apply app_inj_1 in Heq as [Hxy Hab]; [|by rewrite !length_low_bits].
  f_equal; [|by apply IH]. apply byte_ext. intros k Hk.
  apply (f_equal (lookup k)) in Hxy. rewrite !lookup_low_bits in Hxy by done.
  replace (7 - N.of_nat k) with (N.of_nat (8 - 1 - k)) by lia. by injection Hxy.
Qed.

(** ** Order *)

Lemma bits_lt_app_l p a b : bits_lt (p ++ a) (p ++ b) ↔ bits_lt a b.
Proof.
  induction p as [|x p IH]; [done|]. simpl. rewrite IH. split; [|by right].
  intros [[-> [=]]|[_ H]]; done.
Qed.

Lemma bits_lt_app_r a b p q : bits_lt a b → bits_lt (a ++ p) (b ++ q).
Proof.
  revert b. induction a as [|x a IH]; intros [|y b] H; [done..|]. simpl in *.
  destruct H as [H|[-> H]]; [by left|right; auto].
Qed.

Lemma low_bits_lt n x y :
  x < 2 ^ N.of_nat n → y < 2 ^ N.of_nat n → x < y → bits_lt (low_bits n x) (low_bits n y).
Proof.
  revert x y. induction n as [|n IH]; intros x y Hx Hy Hlt; [simpl in *; lia|].
  rewrite Nat2N.inj_succ, N.pow_succ_r' in Hx, Hy. cbn [low_bits bits_lt].
  set (w := 2 ^ N.of_nat n) in *. assert (0 < w) as Hw by (apply N.neq_0_lt_0, N.pow_nonzero; lia).
  assert (∀ z, z < 2 * w → N.testbit z (N.of_nat n) = (w <=? z)) as Hbit.
  { intros z Hz. destruct (N.leb_spec w z) as [Hle|Hle].
    - apply N.testbit_true. fold w. replace (z / w) with 1; [done|].
      apply (N.div_unique z w 1 (z - w)); lia.
    - apply N.testbit_false. fold w. by rewrite N.div_small. }
  assert (∀ z, w ≤ z < 2 * w → low_bits n z = low_bits n (z - w)) as Hlow.
  { intros z Hz. apply list_eq_same_length with n; [by rewrite length_low_bits..|].
    intros i a b Hi. rewrite !lookup_low_bits by done. intros [= <-] [= <-].
    replace z with (z - w + 2 ^ N.of_nat n) at 1 by (fold w; lia).
    rewrite <- (N.mod_pow2_bits_low (z - w + 2 ^ N.of_nat n) (N.of_nat n)) by lia.
    rewrite <- (N.mod_pow2_bits_low (z - w) (N.of_nat n)) by lia.
    f_equal. fold w. replace (z - w + w) with (z - w + 1 * w) by lia. by rewrite N.Div0.mod_add. }
  rewrite !Hbit by done. destruct (N.leb_spec w x), (N.leb_spec w y).
  - right. split; [done|]. rewrite (Hlow x), (Hlow y) by lia. apply IH; lia.
  - lia.
  - by left.
  - right. split; [done|]. apply IH; lia.
Qed.

(** Keys of one width are ordered as their bits are. *)
Lemma bytes_lt_bits a b :
  length a = length b → strict bytes_le a b → bits_lt (bits a) (bits b).
Proof.
  revert b. induction a as [|x a IH]; intros [|y b] Hlen [Hle Hne]; simplify_eq/=; [done|].
  change (bits_lt (low_bits 8 (Byte.to_N x) ++ bits a) (low_bits 8 (Byte.to_N y) ++ bits b)).
  apply bytes_le_cons in Hle as [Hlt|[-> Hle]].
  - apply bits_lt_app_r, low_bits_lt; [apply byte_to_N_lt..|done].
  - apply bits_lt_app_l, IH; [done|]. split; [done|]. intros Hba. apply Hne. apply bytes_le_cons. by right.
Qed.

(** ** Prefixes

    The first [level] bits of a key, the rest cleared, in [w] bytes. *)

(** [!(0xff >> n)], on a byte. *)
Definition high_mask (n : N) : N := 255 - N.shiftr 255 n.

Definition mask_prefix (w : nat) (key : bytes) (level : nat) : bytes :=
  let full := (level / 8)%nat in
  let out := take full key ++ replicate (w - full) Byte.x00 in
  if decide (level `mod` 8 = 0)%nat then out
  else <[full := byte_of (N.land (Byte.to_N (key !!! full)) (high_mask (N.of_nat (level `mod` 8))))]> out.

Lemma high_mask_bit n k :
  (n < 8)%nat → (k < 8)%nat →
  N.testbit (high_mask (N.of_nat n)) (7 - N.of_nat k) = (k <? n)%nat.
Proof. intros Hn Hk. do 8 (destruct n as [|n]; [do 8 (destruct k as [|k]; [done|]); lia|]). lia. Qed.

Lemma length_mask_prefix w key level :
  length key = w → (level ≤ 8 * w)%nat → length (mask_prefix w key level) = w.
Proof.
  intros Hk Hl. unfold mask_prefix.
  assert (level / 8 ≤ w)%nat by (apply Nat.Div0.div_le_upper_bound; lia).
  assert (length (take (level / 8) key ++ replicate (w - level / 8) Byte.x00) = w) as Hlen.
  { rewrite length_app, length_take, length_replicate. lia. }
  case_decide; [done|]. by rewrite length_insert.
Qed.

Lemma mask_prefix_byte w key level j :
  length key = w → (level ≤ 8 * w)%nat → (j < w)%nat →
  mask_prefix w key level !!! j =
    if decide (j < level / 8)%nat then key !!! j
    else if decide (j = level / 8)%nat
    then byte_of (N.land (Byte.to_N (key !!! j)) (high_mask (N.of_nat (level `mod` 8))))
    else Byte.x00.
Proof.
  intros Hk Hl Hj. unfold mask_prefix. set (full := (level / 8)%nat).
  assert (full ≤ w)%nat by (apply Nat.Div0.div_le_upper_bound; lia).
  assert (length (take full key) = full) as Htl by (rewrite length_take; lia).
  assert (∀ i, (full ≤ i)%nat → (take full key ++ replicate (w - full) Byte.x00) !!! i = Byte.x00) as Hz.
  { intros i Hi. rewrite lookup_total_app_r by lia. rewrite list_lookup_total_alt.
    destruct (replicate (w - full) Byte.x00 !! (i - length (take full key))%nat) eqn:Hr; [|done].
    by apply lookup_replicate in Hr as [-> _]. }
  destruct (decide (j < full)%nat) as [Hlt|Hge].
  - case_decide; rewrite ?list_lookup_total_insert_ne by lia;
      rewrite lookup_total_app_l by lia; by rewrite lookup_total_take_lt by lia.
  - destruct (decide (j = full)) as [->|Hne].
    + case_decide as Hm.
      * rewrite Hz by done. rewrite Hm. change (high_mask (N.of_nat 0)) with 0. by rewrite N.land_0_r.
      * apply list_lookup_total_insert_eq. rewrite length_app, Htl, length_replicate. lia.
    + case_decide; rewrite ?list_lookup_total_insert_ne by done; apply Hz; lia.
Qed.

(** Bit by bit. *)
Lemma mask_prefix_testbit w key level i :
  length key = w → (level ≤ 8 * w)%nat → (i < 8 * w)%nat →
  N.testbit (Byte.to_N (mask_prefix w key level !!! (i / 8)%nat)) (7 - N.of_nat (i `mod` 8)) =
  (i <? level)%nat && N.testbit (Byte.to_N (key !!! (i / 8)%nat)) (7 - N.of_nat (i `mod` 8)).
Proof.
  intros Hk Hl Hi. pose proof (Nat.div_mod_eq i 8) as Hid. pose proof (Nat.div_mod_eq level 8) as Hld.
  pose proof (Nat.mod_upper_bound i 8) as Him. pose proof (Nat.mod_upper_bound level 8) as Hlm.
  rewrite mask_prefix_byte by (done || (apply Nat.Div0.div_lt_upper_bound; lia)).
  destruct (decide (i / 8 < level / 8)%nat) as [Hlt|Hge]; [by destruct (Nat.ltb_spec i level); [|lia]|].
  destruct (decide (i / 8 = level / 8)%nat) as [Heq|Hne].
  - rewrite byte_of_to_N by (eapply N.le_lt_trans; [apply N.land_le_l|apply byte_to_N_lt]).
    rewrite N.land_spec, high_mask_bit by lia. rewrite andb_comm. f_equal.
    destruct (Nat.ltb_spec (i `mod` 8) (level `mod` 8)), (Nat.ltb_spec i level); lia || done.
  - rewrite N.bits_0. by destruct (Nat.ltb_spec i level); [lia|].
Qed.
