(* ===== verification/Slices.v ===== *)
(** * Rust slices

    What the sources use of the standard library's sorted slices:
    [binary_search_by] and [partition_point], as the library implements them, and
    [sort_unstable] followed by [dedup].  [binary_search_by_spec] and
    [partition_point_app] state their documented contracts on ordered slices; on
    any other slice the functions still return what the loop returns. *)

From S2P Require Import Prelude Bytes.

(** The loop of [binary_search_by]: [size] elements from [base] on are left.  The
    fuel is the length of the slice. *)
Fixpoint search_loop (fuel : nat) (f : nat → comparison) (base size : nat) : nat :=
  match fuel with
  | O => base
  | S fuel =>
      if (size <=? 1)%nat then base
      else
        let half := (size / 2)%nat in
        let mid := (base + half)%nat in
        search_loop fuel f (match f mid with Gt => base | _ => mid end) (size - half)
  end.

(** [Ok] is [inl], [Err] is [inr]. *)
Definition binary_search_by {A} (f : A → comparison) (l : list A) : nat + nat :=
  match l with
  | [] => inr 0%nat
  | _ =>
      let at_index i := match l !! i with Some x => f x | None => Gt end in
      let base := search_loop (length l) at_index 0 (length l) in
      match at_index base with
      | Eq => inl base
      | Lt => inr (S base)
      | Gt => inr base
      end
  end.

Definition partition_point {A} (p : A → bool) (l : list A) : nat :=
  match binary_search_by (λ x, if p x then Lt else Gt) l with inl i | inr i => i end.

(** [sort_unstable] then [dedup]: equal elements are identical, so an unstable
    sort has one result. *)
Fixpoint dedup {A} `{EqDecision A} (l : list A) : list A :=
  match l with
  | x :: (y :: _) as r => if decide (x = y) then dedup r else x :: dedup r
  | _ => l
  end.

Definition sort_dedup {A} (R : relation A) `{!RelDecision R, EqDecision A} (l : list A) : list A :=
  dedup (merge_sort R l).

(** ** Binary search *)

(** Everything up to the result may compare below, everything after it compares
    above. *)
Lemma search_loop_spec fuel f base size n :
  (size ≤ fuel)%nat → (0 < size)%nat → (base + size ≤ n)%nat →
  (∀ i j, (i ≤ j < n)%nat → f i = Gt → f j = Gt) →
  (∀ i, (base + size ≤ i < n)%nat → f i = Gt) →
  (base = 0%nat ∨ f base ≠ Gt) →
  let r := search_loop fuel f base size in
  (r < n)%nat ∧ (r = 0%nat ∨ f r ≠ Gt) ∧ (∀ i, (r < i < n)%nat → f i = Gt).
Proof.
  revert base size. induction fuel as [|fuel IH]; intros base size Hf Hpos Hn Hmono Hhi Hlo; [lia|].
  cbn [search_loop]. destruct (Nat.leb_spec size 1) as [Hs|Hs].
  { split_and!; [lia|done|]. intros i Hi. apply Hhi. lia. }
  assert (0 < size / 2 < size)%nat as [Hh1 Hh2].
  { split; [apply Nat.div_str_pos; lia|apply Nat.div_lt; lia]. }
  pose proof (Nat.Div0.mul_div_le size 2) as Hh3.
  destruct (f (base + size / 2)%nat) eqn:Hmid.
  3: { apply IH; [lia..|done| |done]. intros i Hi. apply (Hmono (base + size / 2)%nat); [lia|done]. }
  all: apply IH; [lia..|done| |right; congruence]; intros i Hi; apply Hhi; lia.
Qed.

(** A slice ordered as [f] sees it: first what compares below, then what
    matches, then what compares above. *)
Definition ordered_by {A} (f : A → comparison) (l : list A) : Prop :=
  ∀ i j x y, (i ≤ j)%nat → l !! i = Some x → l !! j = Some y →
    (f x = Gt → f y = Gt) ∧ (f x = Eq → f y ≠ Lt).

Lemma binary_search_by_spec {A} (f : A → comparison) l :
  ordered_by f l →
  match binary_search_by f l with
  | inl i => ∃ x, l !! i = Some x ∧ f x = Eq
  | inr i => (i ≤ length l)%nat ∧ Forall (λ x, f x = Lt) (take i l) ∧ Forall (λ x, f x = Gt) (drop i l)
  end.
Proof.
  intros Hord. unfold binary_search_by. destruct l as [|x0 l0]; [simpl; split_and!; [lia|constructor..]|].
  set (l := x0 :: l0) in *. set (g := λ i, match l !! i with Some x => f x | None => Gt end).
  assert (∀ i j, (i ≤ j < length l)%nat → g i = Gt → g j = Gt) as Hmono.
  { intros i j Hij. unfold g.
    destruct (lookup_lt_is_Some_2 l i) as [x Hx]; [lia|]. destruct (lookup_lt_is_Some_2 l j) as [y Hy]; [lia|].
    rewrite Hx, Hy. apply (Hord i j); [lia|done..]. }
  destruct (search_loop_spec (length l) g 0 (length l) (length l)) as (Hr & Hlo & Hhi);
    [lia|simpl; lia|lia|done|intros; lia|by left|].
  set (r := search_loop (length l) g 0 (length l)) in *.
  destruct (lookup_lt_is_Some_2 l r Hr) as [x Hx].
  assert (∀ i y, l !! i = Some y → (r < i)%nat → f y = Gt) as Habove.
  { intros i y Hy Hi. pose proof (Hhi i) as H. unfold g in H. rewrite Hy in H. apply H.
    split; [done|by eapply lookup_lt_Some]. }
  change (match l !! r with Some x => f x | None => Gt end) with (g r).
  destruct (g r) eqn:Hg; unfold g in Hg; rewrite Hx in Hg.
  - by exists x.
  - split_and!; [lia| |].
    + apply Forall_lookup. intros i y. rewrite lookup_take_Some. intros [Hy Hi].
      destruct (Hord i r y x) as [H1 H2]; [lia|done..|].
      destruct (f y); [by destruct H2|done|rewrite Hg in H1; discriminate H1; done].
    + apply Forall_lookup. intros i y. rewrite lookup_drop. intros Hy. eapply Habove; [done|lia].
  - assert (r = 0%nat) as Hr0.
    { by destruct Hlo. }
    split_and!; [lia|rewrite Hr0; constructor|]. rewrite Hr0, drop_0.
    apply Forall_lookup. intros [|i] y Hy.
    + rewrite Hr0 in Hx. congruence.
    + eapply Habove; [done|lia].
Qed.

(** A match is found when there is one. *)
Lemma binary_search_by_found {A} (f : A → comparison) l i x :
  ordered_by f l → l !! i = Some x → f x = Eq → ∃ j, binary_search_by f l = inl j.
Proof.
  intros Hord Hx Hf. pose proof (binary_search_by_spec f l Hord) as H.
  destruct (binary_search_by f l) as [j|j]; [by exists j|]. destruct H as (Hj & Hlt & Hgt).
  rewrite Forall_lookup in Hlt, Hgt. destruct (decide (i < j)%nat).
  - specialize (Hlt i x). rewrite lookup_take_lt in Hlt by done. specialize (Hlt Hx). congruence.
  - specialize (Hgt (i - j)%nat x). rewrite lookup_drop in Hgt.
    replace (j + (i - j))%nat with i in Hgt by lia. specialize (Hgt Hx). congruence.
Qed.

(** [partition_point] on a slice split by its predicate. *)
(** The position is one of the slice, whatever the predicate. *)
Lemma search_loop_lt fuel f base size :
  (0 < size)%nat → (search_loop fuel f base size < base + size)%nat.
Proof.
  revert base size. induction fuel as [|fuel IH]; intros base size Hsize; cbn [search_loop]; [lia|].
  destruct (Nat.leb_spec size 1); [lia|]. pose proof (Nat.div_mod_eq size 2). pose proof (Nat.mod_upper_bound size 2).
  eapply Nat.lt_le_trans; [apply IH; lia|]. destruct (f _); lia.
Qed.

Lemma partition_point_le {A} (p : A → bool) l : (partition_point p l ≤ length l)%nat.
Proof.
  unfold partition_point, binary_search_by. destruct l as [|a l]; [done|].
  set (f := λ i, match (a :: l) !! i with Some x => if p x then Lt else Gt | None => Gt end).
  pose proof (search_loop_lt (length (a :: l)) f 0 (length (a :: l))) as H.
  specialize (H ltac:(simpl; lia)). fold f in H |- *. destruct (match _ !! _ with Some _ => _ | None => _ end); simpl in *; lia.
Qed.

Lemma partition_point_app {A} (p : A → bool) l1 l2 :
  Forall (λ x, p x = true) l1 → Forall (λ x, p x = false) l2 →
  partition_point p (l1 ++ l2) = length l1.
Proof.
  intros H1 H2. unfold partition_point. set (f := λ x, if p x then Lt else Gt).
  rewrite Forall_lookup in H1, H2.
  assert (∀ i x, (l1 ++ l2) !! i = Some x → f x = if (i <? length l1)%nat then Lt else Gt) as Hf.
  { intros i x. unfold f. destruct (Nat.ltb_spec i (length l1)) as [Hi|Hi].
    - rewrite lookup_app_l by done. intros Hx. by rewrite (H1 i x Hx).
    - rewrite lookup_app_r by done. intros Hx. by rewrite (H2 _ x Hx). }
  pose proof (binary_search_by_spec f (l1 ++ l2)) as H.
  destruct (binary_search_by f (l1 ++ l2)) as [i|i].
  - destruct H as (x & Hx & Hfx).
    { intros i' j x y Hij Hx Hy. rewrite (Hf i' x Hx), (Hf j y Hy).
      destruct (Nat.ltb_spec i' (length l1)), (Nat.ltb_spec j (length l1)); split; congruence || lia. }
    rewrite (Hf i x Hx) in Hfx. by destruct (i <? length l1)%nat.
  - destruct H as (Hi & Hlt & Hgt).
    { intros i' j x y Hij Hx Hy. rewrite (Hf i' x Hx), (Hf j y Hy).
      destruct (Nat.ltb_spec i' (length l1)), (Nat.ltb_spec j (length l1)); split; congruence || lia. }
    rewrite Forall_lookup in Hlt, Hgt. rewrite length_app in Hi.
    destruct (Nat.lt_trichotomy i (length l1)) as [Hlti|[->|Hgti]]; [|done|].
    + destruct (lookup_lt_is_Some_2 (l1 ++ l2) i) as [x Hx]; [rewrite length_app; lia|].
      specialize (Hgt 0%nat x). rewrite lookup_drop, Nat.add_0_r in Hgt. specialize (Hgt Hx).
      rewrite (Hf i x Hx) in Hgt. by destruct (Nat.ltb_spec i (length l1)); [|lia].
    + destruct (lookup_lt_is_Some_2 (l1 ++ l2) (length l1)) as [x Hx]; [rewrite length_app; lia|].
      specialize (Hlt (length l1) x). rewrite lookup_take_lt in Hlt by done. specialize (Hlt Hx).
      rewrite (Hf _ x Hx), Nat.ltb_irrefl in Hlt. done.
Qed.

(** ** Sorting *)

Section sort_dedup.
Context {A : Type} (R : relation A) `{!RelDecision R, EqDecision A, !TotalOrder R}.
Implicit Types (l : list A).

Lemma elem_of_dedup l x : x ∈ dedup l ↔ x ∈ l.
Proof.
  induction l as [|y [|z l] IH]; [done..|]. cbn [dedup]. cbn [dedup] in IH. case_decide as Hyz.
  - subst. rewrite IH, !elem_of_cons. tauto.
  - rewrite elem_of_cons, IH, !elem_of_cons. tauto.
Qed.

Lemma dedup_strict l : StronglySorted R l → StronglySorted (strict R) (dedup l).
Proof.
  induction l as [|y [|z l] IH]; intros Hs; [constructor|repeat constructor|].
  apply StronglySorted_inv in Hs as [Hs Hy]. specialize (IH Hs).
  change (dedup (y :: z :: l)) with (if decide (y = z) then dedup (z :: l) else y :: dedup (z :: l)).
  case_decide as Hyz; [done|]. constructor; [done|].
  apply Forall_forall. intros x Hx. rewrite elem_of_dedup in Hx.
  rewrite Forall_forall in Hy. pose proof (Hy x Hx) as Hyx. split; [done|].
  intros Hxy. apply Hyz. apply (anti_symm R); [by apply Hy; left|].
  apply elem_of_cons in Hx as [->|Hx]; [done|].
  apply StronglySorted_inv in Hs as [_ Hz]. rewrite Forall_forall in Hz.
  transitivity x; [|done]. by apply Hz.
Qed.

Lemma sort_dedup_strict l : StronglySorted (strict R) (sort_dedup R l).
Proof. apply dedup_strict, StronglySorted_merge_sort; apply _. Qed.

Lemma elem_of_sort_dedup l x : x ∈ sort_dedup R l ↔ x ∈ l.
Proof. unfold sort_dedup. by rewrite elem_of_dedup, merge_sort_Permutation. Qed.

Lemma length_sort_dedup l : (length (sort_dedup R l) ≤ length l)%nat.
Proof.
  unfold sort_dedup. rewrite <- (Permutation_length (merge_sort_Permutation R l)).
  induction (merge_sort R l) as [|x [|y r] IH]; [done..|]. cbn [dedup]. cbn [dedup length] in *. case_decide; simpl in *; lia.
Qed.
End sort_dedup.

(** ** Searching by a projection *)

Lemma binary_search_by_fmap {A B} (g : A → B) (f : B → comparison) l :
  binary_search_by f (g <$> l) = binary_search_by (λ x, f (g x)) l.
Proof.
  destruct (decide (l = [])) as [->|Hne]; [done|].
  assert (∀ i, match (g <$> l) !! i with Some x => f x | None => Gt end =
    match l !! i with Some x => f (g x) | None => Gt end) as Hat.
  { intros i. rewrite list_lookup_fmap. by destruct (l !! i). }
  assert (∀ fuel f1 f2 base size, (∀ i, f1 i = f2 i) →
    search_loop fuel f1 base size = search_loop fuel f2 base size) as Hloop.
  { clear. induction fuel as [|fuel IH]; intros f1 f2 base size Heq; [done|]. simpl.
    rewrite Heq. case_match; [done|]. by apply IH. }
  pose proof (Hloop (length l) _ _ 0 (length l) Hat) as Hbase.
  unfold binary_search_by. destruct l as [|x l]; [done|]. cbn [fmap list_fmap] in *.
  rewrite length_cons, length_fmap. rewrite length_cons in Hbase. rewrite Hbase. by rewrite Hat.
Qed.

Lemma partition_point_fmap {A B} (g : A → B) (p : B → bool) l :
  partition_point p (g <$> l) = partition_point (λ x, p (g x)) l.
Proof. unfold partition_point. by rewrite binary_search_by_fmap. Qed.

(** ** Strictly sorted slices *)

Lemma StronglySorted_impl_in {A} (R1 R2 : relation A) l :
  (∀ x y, x ∈ l → y ∈ l → R1 x y → R2 x y) → StronglySorted R1 l → StronglySorted R2 l.
Proof.
  intros Himp Hs. induction Hs as [|x l Hs IH Hx]; constructor.
  - apply IH. intros y z Hy Hz. apply Himp; by right.
  - rewrite Forall_forall in *. intros y Hy. apply Himp; [left|by right|by apply Hx].
Qed.

Lemma StronglySorted_strict {A} (R : relation A) `{!AntiSymm eq R} l :
  NoDup l → StronglySorted R l → StronglySorted (strict R) l.
Proof.
  intros Hnd Hs. induction Hs as [|x l Hs IH Hx]; [constructor|].
  apply NoDup_cons in Hnd as [Hin Hnd]. constructor; [by apply IH|].
  rewrite Forall_forall in *. intros y Hy. split; [by apply Hx|]. intros Hyx.
  assert (x = y) as -> by (apply (anti_symm R); [by apply Hx|done]). done.
Qed.

Lemma StronglySorted_of_strict {A} (R : relation A) l : StronglySorted (strict R) l → StronglySorted R l.
Proof. apply StronglySorted_impl_in. by intros x y _ _ [H _]. Qed.

Lemma NoDup_of_strict {A} (R : relation A) `{!Reflexive R} l : StronglySorted (strict R) l → NoDup l.
Proof.
  intros Hs. induction Hs as [|x l Hs IH Hx]; constructor; [|done].
  intros Hin. rewrite Forall_forall in Hx. by destruct (Hx x Hin) as [? []].
Qed.

(** Sorted keys are determined by the key set. *)
Lemma sorted_keys_unique {A} (m : gmap bytes A) ks :
  StronglySorted (strict bytes_le) ks → (∀ k, k ∈ ks ↔ is_Some (m !! k)) → sorted_keys bytes_le m = ks.
Proof.
  intros Hs Hk. apply (StronglySorted_unique bytes_le);
    [apply (StronglySorted_sorted_keys bytes_le)|by apply StronglySorted_of_strict|].
  apply NoDup_Permutation; [apply NoDup_sorted_keys|by eapply (NoDup_of_strict bytes_le)|].
  intros k. by rewrite elem_of_sorted_keys, Hk.
Qed.

Lemma sorted_keys_strict {A} (m : gmap bytes A) : StronglySorted (strict bytes_le) (sorted_keys bytes_le m).
Proof.
  apply StronglySorted_strict; [apply _|apply NoDup_sorted_keys|apply (StronglySorted_sorted_keys bytes_le)].
Qed.
