(* ===== verification/CrdtCodec.v ===== *)
(** * merkle-crdt: the deterministic byte codec

    [Encode] and [Decode] of [support/merkle-crdt/src/encode.rs], the format that
    content identifiers are computed from and that nodes are stored in.
    [encode_to v buf] is the buffer after the call; [decode_from buf pos] returns
    the value and the position after it.  [usize] is 64 bits wide.  Integers of
    [w] bytes are [uint w] and [sint w]; a [String] is its bytes; [Vec<T>] is
    [list T]; [BTreeSet] and [BTreeMap] are [gset] and [gmap] iterated in the
    order of the [Ord] instance, which is the class [RustOrd].

    [round_trips] is what one value promises inside a larger buffer, and is what
    composes: the class [Codec] collects it for every
    implementation. *)

From Stdlib.Strings Require Byte.
From S2P Require Import Prelude Bytes.

Local Open Scope N_scope.

Definition MAX_DECODE_ITEMS : N := 1000000.

Record uint (w : nat) := Uint { uint_val : N }.
Arguments Uint {w} _.
Arguments uint_val {w} _.

Record sint (w : nat) := Sint { sint_val : Z }.
Arguments Sint {w} _.
Arguments sint_val {w} _.

(** Two's complement. *)
Definition sint_to_bytes (w : nat) (z : Z) : bytes :=
  to_le_bytes w (Z.to_N (z `mod` Z.of_N (int_modulus w))).
Definition sint_from_bytes (w : nat) (b : bytes) : Z :=
  let u := from_le_bytes b in
  if 2 * u <? int_modulus w then Z.of_N u else (Z.of_N u - Z.of_N (int_modulus w))%Z.

(** [[u8; N]]. *)
Record byte_array (n : nat) := ByteArray { array_bytes : bytes }.
Arguments ByteArray {n} _.
Arguments array_bytes {n} _.

(** ** Strings *)

Record rstring := RString { str_bytes : bytes }.

(** ** Encoding *)

Class Encode (A : Type) := encode_to : A → bytes → bytes.
Definition encode `{Encode A} (v : A) : bytes := encode_to v [].

Definition len_prefix (n : nat) : bytes := to_le_bytes 8 (N.of_nat n `mod` u64_modulus).

(** [impl Encode for [u8]]. *)
Definition encode_slice (b : bytes) (buf : bytes) : bytes :=
  buf ++ len_prefix (length b) ++ b.

Definition encode_items `{Encode A} (items : list A) (buf : bytes) : bytes :=
  foldl (λ buf item, encode_to item buf) buf items.

#[export] Instance encode_unit : Encode unit := λ _ buf, buf.
#[export] Instance encode_bool : Encode bool :=
  λ b buf, buf ++ [byte_of (if b then 1 else 0)].
#[export] Instance encode_uint w : Encode (uint w) :=
  λ v buf, buf ++ to_le_bytes w (uint_val v).
#[export] Instance encode_sint w : Encode (sint w) :=
  λ v buf, buf ++ sint_to_bytes w (sint_val v).
#[export] Instance encode_array n : Encode (byte_array n) :=
  λ v buf, buf ++ array_bytes v.
#[export] Instance encode_string : Encode rstring :=
  λ v buf, encode_slice (str_bytes v) buf.
#[export] Instance encode_vec `{Encode A} : Encode (list A) :=
  λ v buf, encode_items v (buf ++ len_prefix (length v)).
#[export] Instance encode_set `{RustOrd A, Encode A} : Encode (gset A) :=
  λ v buf, encode_items (sorted_elements ord_le v) (buf ++ len_prefix (size v)).
#[export] Instance encode_option `{Encode A} : Encode (option A) :=
  λ v buf, match v with
           | None => buf ++ [byte_of 0]
           | Some x => encode_to x (buf ++ [byte_of 1])
           end.
#[export] Instance encode_pair `{Encode A, Encode B} : Encode (A * B) :=
  λ v buf, encode_to v.2 (encode_to v.1 buf).

(** [impl Encode for BTreeMap]: there is no [Decode] for it. *)
#[export] Instance encode_map `{RustOrd K, Encode K, Encode V} : Encode (gmap K V) :=
  λ m buf,
    foldl (λ buf k, match m !! k with
                    | Some v => encode_to v (encode_to k buf)
                    | None => buf
                    end)
      (buf ++ len_prefix (size m)) (sorted_keys ord_le m).

(** ** Decoding *)

Class Decode (A : Type) := decode_from : bytes → N → option (A * N).

Definition decode `{Decode A} (buf : bytes) : option A :=
  '(value, pos) ← decode_from buf 0;
  if pos =? blen buf then Some value else None.

(** [fn take]: [buf.get(pos..end)] is [None] past the end of the buffer. *)
Definition take_bytes (buf : bytes) (pos n : N) : option (bytes * N) :=
  end_ ← checked_add pos n;
  if end_ <=? blen buf
  then Some (take (N.to_nat n) (drop (N.to_nat pos) buf), end_)
  else None.

Definition read_u64 (buf : bytes) (pos : N) : option (N * N) :=
  '(b, pos) ← take_bytes buf pos 8; Some (from_le_bytes b, pos).

Definition read_len (buf : bytes) (pos : N) : option (N * N) :=
  '(v, pos) ← read_u64 buf pos;
  if v <=? u64_max then Some (v, pos) else None.

Definition read_count (buf : bytes) (pos : N) : option (N * N) :=
  '(count, pos) ← read_len buf pos;
  if count <=? MAX_DECODE_ITEMS then Some (count, pos) else None.

#[export] Instance decode_unit : Decode unit := λ _ pos, Some (tt, pos).
#[export] Instance decode_bool : Decode bool :=
  λ buf pos,
    '(b, pos) ← take_bytes buf pos 1;
    x ← head b;
    Some (negb (Byte.to_N x =? 0), pos).
#[export] Instance decode_uint w : Decode (uint w) :=
  λ buf pos, '(b, pos) ← take_bytes buf pos (N.of_nat w); Some (Uint (from_le_bytes b), pos).
#[export] Instance decode_sint w : Decode (sint w) :=
  λ buf pos, '(b, pos) ← take_bytes buf pos (N.of_nat w); Some (Sint (sint_from_bytes w b), pos).
#[export] Instance decode_array n : Decode (byte_array n) :=
  λ buf pos, '(b, pos) ← take_bytes buf pos (N.of_nat n); Some (ByteArray b, pos).
#[export] Instance decode_string : Decode rstring :=
  λ buf pos,
    '(len, pos) ← read_len buf pos;
    '(b, pos) ← take_bytes buf pos len;
    if utf8_valid b then Some (RString b, pos) else None.

(** [for _ in 0..count { v.push(T::decode_from(buf, pos)?) }]. *)
Fixpoint decode_items `{Decode A} (count : nat) (buf : bytes) (pos : N) (v : list A)
    : option (list A * N) :=
  match count with
  | O => Some (v, pos)
  | S count => '(x, pos) ← decode_from buf pos; decode_items count buf pos (v ++ [x])
  end.

#[export] Instance decode_vec `{Decode A} : Decode (list A) :=
  λ buf pos, '(count, pos) ← read_count buf pos; decode_items (N.to_nat count) buf pos [].

(** The same loop for a set, refusing an item already present. *)
Fixpoint decode_set_items `{RustOrd A, Decode A} (count : nat) (buf : bytes) (pos : N)
    (s : gset A) : option (gset A * N) :=
  match count with
  | O => Some (s, pos)
  | S count =>
      '(x, pos) ← decode_from buf pos;
      if decide (x ∈ s) then None else decode_set_items count buf pos ({[x]} ∪ s)
  end.

#[export] Instance decode_set `{RustOrd A, Decode A} : Decode (gset A) :=
  λ buf pos, '(count, pos) ← read_count buf pos; decode_set_items (N.to_nat count) buf pos ∅.
#[export] Instance decode_option `{Decode A} : Decode (option A) :=
  λ buf pos,
    '(b, pos) ← take_bytes buf pos 1;
    x ← head b;
    if Byte.to_N x =? 0 then Some (None, pos)
    else '(v, pos) ← decode_from buf pos; Some (Some v, pos).
#[export] Instance decode_pair `{Decode A, Decode B} : Decode (A * B) :=
  λ buf pos,
    '(a, pos) ← decode_from buf pos;
    '(b, pos) ← decode_from buf pos;
    Some ((a, b), pos).

(** ** What a codec promises *)

Definition encode_appends (A : Type) `{Encode A} : Prop :=
  ∀ (v : A) buf, encode_to v buf = buf ++ encode v.

(** Decoding at the position where a value was written returns it, whatever is
    around it, and moves the position behind it. *)
Definition round_trips {A : Type} `{Encode A, Decode A} (valid : A → Prop) : Prop :=
  ∀ v pre post, valid v → blen (pre ++ encode v ++ post) ≤ u64_max →
    decode_from (pre ++ encode v ++ post) (blen pre) = Some (v, blen pre + blen (encode v)).

(** Decoding moves forward and never past the end of the buffer. *)
Definition stays_in_buffer (A : Type) `{Decode A} : Prop :=
  ∀ buf pos (v : A) pos', decode_from buf pos = Some (v, pos') →
    pos ≤ pos' ∧ (pos ≤ blen buf → pos' ≤ blen buf).

Class Codec (A : Type) `{Encode A, Decode A} := {
  codec_valid : A → Prop;
  codec_appends : encode_appends A;
  codec_round_trips : round_trips codec_valid;
  codec_in_buffer : stays_in_buffer A;
}.

(** ** Lemmas on bytes *)

Lemma from_to_sint_bytes w z :
  (- Z.of_N (int_modulus w) ≤ 2 * z < Z.of_N (int_modulus w))%Z →
  sint_from_bytes w (sint_to_bytes w z) = z.
Proof.
  intros Hz. unfold sint_from_bytes, sint_to_bytes.
  assert (0 < Z.of_N (int_modulus w))%Z as Hm by lia.
  pose proof (Z.mod_pos_bound z _ Hm) as Hb.
  rewrite from_to_le_bytes by lia. rewrite Z2N.id by lia.
  destruct (Z.neg_nonneg_cases z) as [Hneg|Hpos].
  - assert (z `mod` Z.of_N (int_modulus w) = z + Z.of_N (int_modulus w))%Z as Heq.
    { symmetry. apply (Z.mod_unique_pos _ _ (-1)); lia. }
    rewrite Heq. destruct (N.ltb_spec (2 * Z.to_N (z + Z.of_N (int_modulus w))) (int_modulus w)); lia.
  - rewrite (Z.mod_small z) by lia.
    destruct (N.ltb_spec (2 * Z.to_N z) (int_modulus w)); lia.
Qed.


Lemma len_prefix_small n :
  N.of_nat n ≤ u64_max → len_prefix n = to_le_bytes 8 (N.of_nat n).
Proof.
  unfold len_prefix, u64_max, u64_modulus. intros. by rewrite N.mod_small by lia.
Qed.

Lemma blen_len_prefix n : blen (len_prefix n) = 8.
Proof. unfold blen, len_prefix. by rewrite length_to_le_bytes. Qed.

(** ** Reading what was written *)

Lemma take_bytes_app pre b post n :
  blen (pre ++ b ++ post) ≤ u64_max → n = blen b →
  take_bytes (pre ++ b ++ post) (blen pre) n = Some (b, blen pre + blen b).
Proof.
  intros Hfit ->. rewrite !blen_app in Hfit. unfold take_bytes, checked_add.
  destruct (N.leb_spec (blen pre + blen b) u64_max); [simpl|lia].
  rewrite !blen_app.
  destruct (N.leb_spec (blen pre + blen b) (blen pre + (blen b + blen post))); [|lia].
  unfold blen. rewrite !Nat2N.id, drop_app_length, take_app_length. done.
Qed.

Lemma take_bytes_in_buffer buf pos n b pos' :
  take_bytes buf pos n = Some (b, pos') →
  pos' = pos + n ∧ pos' ≤ blen buf ∧ blen b = n.
Proof.
  unfold take_bytes, checked_add. intros H.
  destruct (N.leb_spec (pos + n) u64_max); [simpl in H|done].
  destruct (N.leb_spec (pos + n) (blen buf)) as [Hle|]; [|done].
  injection H as <- <-. split_and!; [done|done|].
  unfold blen in *. rewrite length_take, length_drop. lia.
Qed.

Lemma read_u64_app pre v post :
  blen (pre ++ to_le_bytes 8 v ++ post) ≤ u64_max → v ≤ u64_max →
  read_u64 (pre ++ to_le_bytes 8 v ++ post) (blen pre) = Some (v, blen pre + 8).
Proof.
  intros Hfit Hv. unfold read_u64.
  rewrite take_bytes_app by (unfold blen; rewrite ?length_to_le_bytes; done). simpl.
  rewrite from_to_le_bytes; [|unfold int_modulus, u64_max in *; change (N.of_nat 8) with 8; lia].
  unfold blen. by rewrite length_to_le_bytes.
Qed.

Lemma read_len_app pre n post :
  blen (pre ++ len_prefix n ++ post) ≤ u64_max → N.of_nat n ≤ u64_max →
  read_len (pre ++ len_prefix n ++ post) (blen pre) = Some (N.of_nat n, blen pre + 8).
Proof.
  intros Hfit Hn. rewrite len_prefix_small in * by done.
  unfold read_len. rewrite read_u64_app by done. simpl.
  destruct (N.leb_spec (N.of_nat n) u64_max); [done|lia].
Qed.

Lemma read_count_app pre n post :
  blen (pre ++ len_prefix n ++ post) ≤ u64_max → N.of_nat n ≤ MAX_DECODE_ITEMS →
  read_count (pre ++ len_prefix n ++ post) (blen pre) = Some (N.of_nat n, blen pre + 8).
Proof.
  intros Hfit Hn. unfold read_count.
  rewrite read_len_app by (unfold MAX_DECODE_ITEMS, u64_max in *; lia). simpl.
  destruct (N.leb_spec (N.of_nat n) MAX_DECODE_ITEMS); [done|lia].
Qed.

Lemma read_u64_in_buffer buf pos v pos' :
  read_u64 buf pos = Some (v, pos') → pos' = pos + 8 ∧ pos' ≤ blen buf.
Proof.
  unfold read_u64. destruct (take_bytes buf pos 8) as [[b p]|] eqn:Ht; [|done].
  simpl. intros [= <- <-]. by apply take_bytes_in_buffer in Ht as (? & ? & _).
Qed.

Lemma read_len_in_buffer buf pos v pos' :
  read_len buf pos = Some (v, pos') → pos' = pos + 8 ∧ pos' ≤ blen buf.
Proof.
  unfold read_len. destruct (read_u64 buf pos) as [[x p]|] eqn:Hr; [|done].
  simpl. case_match; [|done]. intros [= <- <-]. by eapply read_u64_in_buffer.
Qed.

Lemma read_count_in_buffer buf pos v pos' :
  read_count buf pos = Some (v, pos') →
  pos' = pos + 8 ∧ pos' ≤ blen buf ∧ v ≤ MAX_DECODE_ITEMS.
Proof.
  unfold read_count. destruct (read_len buf pos) as [[x p]|] eqn:Hr; [|done].
  simpl. destruct (N.leb_spec x MAX_DECODE_ITEMS); [|done]. intros [= <- <-].
  apply read_len_in_buffer in Hr as [-> ?]. done.
Qed.

Arguments take_bytes : simpl never.
Arguments read_u64 : simpl never.
Arguments read_len : simpl never.
Arguments read_count : simpl never.
Arguments len_prefix : simpl never.

(** Performs the binds of the option monad, and nothing else. *)
Ltac option_step := cbn [mbind option_bind fst snd].

(** ** Sequences of items *)

Section items.
Context {A : Type} `{Encode A, Decode A} (valid : A → Prop).
Hypothesis Happ : encode_appends A.
Hypothesis Hrt : round_trips valid.
Hypothesis Hin : stays_in_buffer A.

Lemma encode_items_app (l : list A) buf :
  encode_items l buf = buf ++ (l ≫= encode).
Proof.
  unfold encode_items. revert buf.
  induction l as [|x l IH]; intros buf; csimpl; [by rewrite app_nil_r|].
  by rewrite IH, Happ, (assoc_L (++)).
Qed.

Lemma decode_items_app (l : list A) pre post acc :
  Forall valid l → blen (pre ++ (l ≫= encode) ++ post) ≤ u64_max →
  decode_items (length l) (pre ++ (l ≫= encode) ++ post) (blen pre) acc =
  Some (acc ++ l, blen pre + blen (l ≫= encode)).
Proof.
  intros Hv. revert pre acc. induction Hv as [|x l Hx Hv IH]; intros pre acc; csimpl.
  { intros _. rewrite app_nil_r. unfold blen. simpl. by rewrite N.add_0_r. }
  intros Hfit. rewrite <- (assoc_L (++)) in *. rewrite Hrt by done. simpl.
  rewrite (assoc_L (++)) in Hfit |- *. rewrite <- blen_app, IH by done.
  rewrite <- (assoc_L (++)). simpl. by rewrite !blen_app, N.add_assoc.
Qed.

Lemma decode_items_in_buffer n buf pos (l l' : list A) pos' :
  decode_items n buf pos l = Some (l', pos') →
  pos ≤ pos' ∧ (pos ≤ blen buf → pos' ≤ blen buf) ∧ length l' = (length l + n)%nat.
Proof.
  revert pos l. induction n as [|n IH]; intros pos l; simpl.
  - intros [= <- <-]. split_and!; [lia|done|lia].
  - destruct (decode_from buf pos) as [[x p]|] eqn:Hd; [simpl|done].
    intros (? & ? & Hlen)%IH. apply Hin in Hd as [? ?].
    rewrite length_app in Hlen. simpl in Hlen. split_and!; [lia|auto|lia].
Qed.

Context `{!RustOrd A}.

Lemma decode_set_items_app (l : list A) pre post s :
  Forall valid l → NoDup l → (∀ x, x ∈ l → x ∉ s) →
  blen (pre ++ (l ≫= encode) ++ post) ≤ u64_max →
  decode_set_items (length l) (pre ++ (l ≫= encode) ++ post) (blen pre) s =
  Some (list_to_set l ∪ s, blen pre + blen (l ≫= encode)).
Proof.
  clear Happ Hin.
  intros Hv. revert pre s. induction Hv as [|x l Hx Hv IH]; intros pre s Hnd Hs; csimpl.
  { intros _. unfold blen. simpl. by rewrite N.add_0_r, (left_id_L ∅ (∪)). }
  apply NoDup_cons in Hnd as [Hxl Hnd]. intros Hfit.
  rewrite <- (assoc_L (++)) in *. rewrite Hrt by done. simpl.
  rewrite decide_False by (apply Hs; left).
  rewrite (assoc_L (++)) in Hfit |- *. rewrite <- blen_app, IH; [|done| |done].
  - rewrite !blen_app, N.add_assoc. do 2 f_equal. set_solver.
  - intros y Hy. specialize (Hs y). set_solver.
Qed.

Lemma decode_set_items_in_buffer n buf pos (s s' : gset A) pos' :
  decode_set_items n buf pos s = Some (s', pos') →
  pos ≤ pos' ∧ (pos ≤ blen buf → pos' ≤ blen buf) ∧ size s' = (size s + n)%nat.
Proof.
  clear Happ Hrt.
  revert pos s. induction n as [|n IH]; intros pos s; simpl.
  - intros [= <- <-]. split_and!; [lia|done|lia].
  - destruct (decode_from buf pos) as [[x p]|] eqn:Hd; [simpl|done].
    destruct (decide (x ∈ s)); [done|].
    intros (? & ? & Hlen)%IH. apply Hin in Hd as [? ?].
    rewrite size_union, size_singleton in Hlen by set_solver. split_and!; [lia|auto|lia].
Qed.
End items.

(** ** The implementations *)

(** Values of [n] bytes: integers and arrays. *)
Section fixed_width.
Context {A : Type} (n : nat) (to : A → bytes) (from : bytes → A).

Definition fixed_encode : Encode A := λ v buf, buf ++ to v.
Definition fixed_decode : Decode A :=
  λ buf pos, '(b, pos) ← take_bytes buf pos (N.of_nat n); Some (from b, pos).

Lemma fixed_round_trips (valid : A → Prop) :
  (∀ v, valid v → length (to v) = n ∧ from (to v) = v) →
  @round_trips A fixed_encode fixed_decode valid.
Proof.
  intros Hto v pre post [Hlen Hft]%Hto Hfit. unfold decode_from, fixed_decode.
  rewrite take_bytes_app; [|done|].
  - simpl. change (encode v) with (to v). by rewrite Hft.
  - unfold blen, encode, encode_to, fixed_encode. simpl. by rewrite Hlen.
Qed.

Lemma fixed_in_buffer : @stays_in_buffer A fixed_decode.
Proof.
  intros buf pos v pos'. unfold decode_from, fixed_decode.
  destruct (take_bytes buf pos _) as [[b p]|] eqn:Ht; [simpl|done].
  apply take_bytes_in_buffer in Ht as (-> & ? & ?). intros [= _ <-]. lia.
Qed.
End fixed_width.

#[export] Program Instance codec_unit : Codec unit := {| codec_valid _ := True |}.
Next Obligation. intros [] buf. by rewrite app_nil_r. Qed.
Next Obligation. intros [] pre post _ _. by rewrite N.add_0_r. Qed.
Next Obligation. intros buf pos [] pos' [= <-]. done. Qed.

#[export] Program Instance codec_bool : Codec bool := {| codec_valid _ := True |}.
Next Obligation. intros b buf. done. Qed.
Next Obligation.
  intros b pre post _ Hfit. unfold decode_from, decode_bool.
  rewrite take_bytes_app by done. by destruct b.
Qed.
Next Obligation.
  intros buf pos v pos'. unfold decode_from, decode_bool.
  destruct (take_bytes buf pos 1) as [[b p]|] eqn:Ht; [simpl|done].
  apply take_bytes_in_buffer in Ht as (-> & ? & ?).
  destruct (head b); [|done]. intros [= _ <-]. lia.
Qed.

#[export] Program Instance codec_uint w : Codec (uint w) :=
  {| codec_valid v := uint_val v < int_modulus w |}.
Next Obligation. intros w v buf. done. Qed.
Next Obligation.
  intros w. apply (fixed_round_trips w (λ v : uint w, to_le_bytes w (uint_val v))
    (λ b, Uint (from_le_bytes b))).
  intros [v] Hv. split; [apply length_to_le_bytes|]. f_equal. by apply from_to_le_bytes.
Qed.
Next Obligation. intros w. apply (fixed_in_buffer w (λ b, Uint (w := w) (from_le_bytes b))). Qed.

#[export] Program Instance codec_sint w : Codec (sint w) :=
  {| codec_valid v :=
       (- Z.of_N (int_modulus w) ≤ 2 * sint_val v < Z.of_N (int_modulus w))%Z |}.
Next Obligation. intros w v buf. done. Qed.
Next Obligation.
  intros w. apply (fixed_round_trips w (λ v : sint w, sint_to_bytes w (sint_val v))
    (λ b, Sint (sint_from_bytes w b))).
  intros [v] Hv. split; [apply length_to_le_bytes|]. f_equal. by apply from_to_sint_bytes.
Qed.
Next Obligation. intros w. apply (fixed_in_buffer w (λ b, Sint (w := w) (sint_from_bytes w b))). Qed.

#[export] Program Instance codec_array n : Codec (byte_array n) :=
  {| codec_valid v := length (array_bytes v) = n |}.
Next Obligation. intros n v buf. done. Qed.
Next Obligation.
  intros n. apply (fixed_round_trips n (λ v : byte_array n, array_bytes v) ByteArray).
  by intros [b] Hb.
Qed.
Next Obligation. intros n. apply (fixed_in_buffer n (ByteArray (n := n))). Qed.

Lemma encode_slice_app b buf : encode_slice b buf = buf ++ encode_slice b [].
Proof. done. Qed.

#[export] Program Instance codec_string : Codec rstring :=
  {| codec_valid v := utf8_valid (str_bytes v) = true |}.
Next Obligation. intros v buf. apply encode_slice_app. Qed.
Next Obligation.
  intros [b] pre post Hv Hfit. simpl in Hv. unfold decode_from, decode_string.
  change (encode (RString b)) with (len_prefix (length b) ++ b) in *.
  rewrite <- (assoc_L (++)) in Hfit |- *. pose proof Hfit as Hfit'.
  rewrite !blen_app, blen_len_prefix in Hfit'.
  rewrite read_len_app by (try done; unfold blen in *; lia). option_step.
  rewrite (assoc_L (++)) in Hfit |- *. change (N.of_nat (length b)) with (blen b).
  rewrite <- (blen_len_prefix (length b)), <- blen_app.
  rewrite take_bytes_app by done. option_step. rewrite Hv. by rewrite !blen_app, N.add_assoc.
Qed.
Next Obligation.
  intros buf pos v pos'. unfold decode_from, decode_string.
  destruct (read_len buf pos) as [[len p]|] eqn:Hr; [simpl|done].
  apply read_len_in_buffer in Hr as [-> ?].
  destruct (take_bytes buf _ len) as [[b p]|] eqn:Ht; [simpl|done].
  apply take_bytes_in_buffer in Ht as (-> & ? & ?).
  case_match; [|done]. intros [= _ <-]. lia.
Qed.

Section composite.
Context {A B : Type} `{Encode A, Decode A} `{Encode B, Decode B}.
Context (validA : A → Prop) (validB : B → Prop).
Hypothesis HappA : encode_appends A.
Hypothesis HrtA : round_trips validA.
Hypothesis HinA : stays_in_buffer A.
Hypothesis HappB : encode_appends B.
Hypothesis HrtB : round_trips validB.
Hypothesis HinB : stays_in_buffer B.

Definition vec_valid (l : list A) : Prop :=
  Forall validA l ∧ N.of_nat (length l) ≤ MAX_DECODE_ITEMS.

Lemma encode_vec_eq (l : list A) : encode l = len_prefix (length l) ++ (l ≫= encode).
Proof. unfold encode at 1, encode_to, encode_vec. by rewrite encode_items_app. Qed.

Lemma vec_appends : encode_appends (list A).
Proof.
  intros l buf. rewrite encode_vec_eq. unfold encode_to, encode_vec.
  by rewrite encode_items_app, (assoc_L (++)).
Qed.

Lemma vec_round_trips : round_trips vec_valid.
Proof.
  intros l pre post [Hv Hlen] Hfit. rewrite encode_vec_eq in *.
  rewrite <- (assoc_L (++)) in *. unfold decode_from, decode_vec.
  rewrite read_count_app by done. option_step. rewrite Nat2N.id.
  rewrite (assoc_L (++)) in Hfit |- *. rewrite <- (blen_len_prefix (length l)), <- blen_app.
  rewrite (decode_items_app validA) by done. by rewrite !blen_app, N.add_assoc.
Qed.

Lemma vec_in_buffer : stays_in_buffer (list A).
Proof.
  intros buf pos v pos'. unfold decode_from, decode_vec.
  destruct (read_count buf pos) as [[n p]|] eqn:Hr; [simpl|done].
  apply read_count_in_buffer in Hr as (-> & ? & ?).
  intros (? & ? & ?)%decode_items_in_buffer; [|done]. split; [lia|auto].
Qed.

Definition option_valid (v : option A) : Prop :=
  match v with Some x => validA x | None => True end.

Lemma encode_Some_eq (x : A) : encode (Some x) = [byte_of 1] ++ encode x.
Proof. unfold encode at 1, encode_to, encode_option. apply HappA. Qed.

Lemma option_appends : encode_appends (option A).
Proof.
  intros [x|] buf; [|done]. rewrite encode_Some_eq. unfold encode_to, encode_option.
  by rewrite HappA, <- (assoc_L (++)).
Qed.

Lemma option_round_trips : round_trips option_valid.
Proof.
  intros [x|] pre post Hv Hfit; simpl in Hv; unfold decode_from, decode_option.
  - rewrite encode_Some_eq in *. rewrite <- (assoc_L (++)) in *.
    rewrite take_bytes_app by done. option_step.
    change (head [byte_of 1]) with (Some (byte_of 1)). option_step.
    change (Byte.to_N (byte_of 1) =? 0) with false. cbv iota.
    rewrite (assoc_L (++)) in Hfit |- *. rewrite <- blen_app, HrtA by done.
    option_step. by rewrite !blen_app, N.add_assoc.
  - change (encode None) with [byte_of 0] in *. by rewrite take_bytes_app.
Qed.

Lemma option_in_buffer : stays_in_buffer (option A).
Proof.
  intros buf pos v pos'. unfold decode_from, decode_option.
  destruct (take_bytes buf pos 1) as [[b p]|] eqn:Ht; [simpl|done].
  apply take_bytes_in_buffer in Ht as (-> & ? & ?).
  destruct (head b); [simpl|done]. case_match; [intros [= _ <-]; lia|].
  destruct (decode_from buf _) as [[x p]|] eqn:Hd; [simpl|done].
  apply HinA in Hd as [? ?]. intros [= _ <-]. split; [lia|auto].
Qed.

Definition pair_valid (v : A * B) : Prop := validA v.1 ∧ validB v.2.

Lemma encode_pair_eq (v : A * B) : encode v = encode v.1 ++ encode v.2.
Proof. unfold encode at 1, encode_to, encode_pair. by rewrite HappB. Qed.

Lemma pair_appends : encode_appends (A * B).
Proof.
  intros v buf. rewrite encode_pair_eq. unfold encode_to, encode_pair.
  by rewrite HappB, HappA, (assoc_L (++)).
Qed.

Lemma pair_round_trips : round_trips pair_valid.
Proof.
  intros [a b] pre post [Ha Hb] Hfit. rewrite encode_pair_eq in *. simpl in *.
  rewrite <- (assoc_L (++)) in *. unfold decode_from, decode_pair.
  rewrite HrtA by done. option_step.
  rewrite (assoc_L (++)) in Hfit |- *. rewrite <- blen_app, HrtB by done.
  option_step. by rewrite !blen_app, N.add_assoc.
Qed.

Lemma pair_in_buffer : stays_in_buffer (A * B).
Proof.
  intros buf pos v pos'. unfold decode_from, decode_pair.
  destruct (decode_from buf pos) as [[a p]|] eqn:Ha; [simpl|done].
  destruct (decode_from buf p) as [[b q]|] eqn:Hb; [simpl|done].
  apply HinA in Ha as [? ?]. apply HinB in Hb as [? ?]. intros [= _ <-]. split; [lia|auto].
Qed.

Context `{!RustOrd A}.

Definition set_valid (s : gset A) : Prop :=
  set_Forall validA s ∧ N.of_nat (size s) ≤ MAX_DECODE_ITEMS.

Lemma length_sorted_elements (s : gset A) : length (sorted_elements ord_le s) = size s.
Proof. by rewrite sorted_elements_perm. Qed.

Lemma encode_set_eq (s : gset A) :
  encode s = len_prefix (size s) ++ (sorted_elements ord_le s ≫= encode).
Proof. unfold encode at 1, encode_to, encode_set. by rewrite encode_items_app. Qed.

Lemma set_appends : encode_appends (gset A).
Proof.
  intros s buf. rewrite encode_set_eq. unfold encode_to, encode_set.
  by rewrite encode_items_app, (assoc_L (++)).
Qed.

Lemma set_round_trips : round_trips set_valid.
Proof.
  clear HinA HappB HrtB HinB.
  intros s pre post [Hv Hlen] Hfit. rewrite encode_set_eq in *.
  rewrite <- (assoc_L (++)) in *. unfold decode_from, decode_set.
  rewrite read_count_app by done. option_step. rewrite Nat2N.id.
  rewrite (assoc_L (++)) in Hfit |- *. rewrite <- (blen_len_prefix (size s)), <- blen_app.
  pose proof (decode_set_items_app validA HrtA (sorted_elements ord_le s)
    (pre ++ len_prefix (size s)) post ∅) as Hd.
  rewrite length_sorted_elements in Hd. rewrite Hd.
  - rewrite !blen_app, N.add_assoc. do 2 f_equal.
    apply set_eq. intros x. rewrite elem_of_union, elem_of_list_to_set, elem_of_sorted_elements.
    set_solver.
  - apply Forall_forall. intros x. rewrite elem_of_sorted_elements. apply Hv.
  - rewrite sorted_elements_perm. apply NoDup_elements.
  - set_solver.
  - done.
Qed.

Lemma set_in_buffer : stays_in_buffer (gset A).
Proof.
  intros buf pos v pos'. unfold decode_from, decode_set.
  destruct (read_count buf pos) as [[n p]|] eqn:Hr; [simpl|done].
  apply read_count_in_buffer in Hr as (-> & ? & ?).
  intros (? & ? & ?)%decode_set_items_in_buffer; [|done]. split; [lia|auto].
Qed.
End composite.

#[export] Instance codec_vec `{Encode A, Decode A, !Codec A} : Codec (list A) :=
  {| codec_valid := vec_valid codec_valid;
     codec_appends := vec_appends codec_appends;
     codec_round_trips := vec_round_trips _ codec_appends codec_round_trips;
     codec_in_buffer := vec_in_buffer codec_in_buffer |}.
#[export] Instance codec_option `{Encode A, Decode A, !Codec A} : Codec (option A) :=
  {| codec_valid := option_valid codec_valid;
     codec_appends := option_appends codec_appends;
     codec_round_trips := option_round_trips _ codec_appends codec_round_trips;
     codec_in_buffer := option_in_buffer codec_in_buffer |}.
#[export] Instance codec_pair `{Encode A, Decode A, !Codec A} `{Encode B, Decode B, !Codec B} :
    Codec (A * B) :=
  {| codec_valid := pair_valid codec_valid codec_valid;
     codec_appends := pair_appends codec_appends codec_appends;
     codec_round_trips := pair_round_trips _ _ codec_round_trips codec_appends codec_round_trips;
     codec_in_buffer := pair_in_buffer codec_in_buffer codec_in_buffer |}.
#[export] Instance codec_set `{Encode A, Decode A, !Codec A, !RustOrd A} : Codec (gset A) :=
  {| codec_valid := set_valid codec_valid;
     codec_appends := set_appends codec_appends;
     codec_round_trips := set_round_trips _ codec_appends codec_round_trips;
     codec_in_buffer := set_in_buffer codec_in_buffer |}.

(** The convenience [Decode::decode] on a whole buffer. *)
Lemma decode_encode `{Encode A, Decode A} (valid : A → Prop) v :
  round_trips valid → valid v → blen (encode v) ≤ u64_max → decode (encode v) = Some v.
Proof.
  intros Hrt Hv Hfit. unfold decode. specialize (Hrt v [] []).
  simpl in Hrt. rewrite app_nil_r in Hrt. change (blen []) with 0 in Hrt.
  rewrite Hrt by done. option_step. by rewrite N.add_0_l, N.eqb_refl.
Qed.

(** What [Encode] writes, [Decode] reads back, inside any buffer and without
    touching its surroundings: for the unit, booleans, integers of every width
    within their range, byte arrays and valid UTF-8 strings, and, whenever it
    holds for the items, for vectors and sets of at most a million items,
    options and tuples. *)
Theorem codec_round_trip :
  round_trips (λ _ : unit, True) ∧
  round_trips (λ _ : bool, True) ∧
  (∀ w, round_trips (λ v : uint w, uint_val v < 256 ^ N.of_nat w)) ∧
  (∀ w, round_trips (λ v : sint w,
     - 256 ^ Z.of_nat w ≤ 2 * sint_val v < 256 ^ Z.of_nat w)%Z) ∧
  (∀ n, round_trips (λ v : byte_array n, length (array_bytes v) = n)) ∧
  round_trips (λ v, utf8_valid (str_bytes v) = true) ∧
  (∀ A `{Encode A, Decode A} valid, encode_appends A → round_trips valid →
     round_trips (λ l : list A, Forall valid l ∧ N.of_nat (length l) ≤ 1000000) ∧
     round_trips (λ o : option A, ∀ x, o = Some x → valid x) ∧
     (∀ `{!RustOrd A}, round_trips (λ s : gset A,
        (∀ x, x ∈ s → valid x) ∧ N.of_nat (size s) ≤ 1000000))) ∧
  (∀ A B `{Encode A, Decode A, Encode B, Decode B} validA validB,
     encode_appends B → round_trips validA → round_trips validB →
     round_trips (λ p : A * B, validA p.1 ∧ validB p.2)).
Proof.
  split_and!.
  - apply (@codec_round_trips _ _ _ codec_unit).
  - apply (@codec_round_trips _ _ _ codec_bool).
  - intros w. apply (@codec_round_trips _ _ _ (codec_uint w)).
  - intros w v pre post Hv. apply (@codec_round_trips _ _ _ (codec_sint w)). unfold codec_valid, codec_sint, int_modulus.
    by rewrite N2Z.inj_pow, nat_N_Z.
  - intros n. apply (@codec_round_trips _ _ _ (codec_array n)).
  - apply (@codec_round_trips _ _ _ codec_string).
  - intros A ?? valid Happ Hrt. split_and!.
    + apply (vec_round_trips valid Happ Hrt).
    + intros o pre post Ho. apply (option_round_trips valid Happ Hrt).
      destruct o; simpl; auto.
    + intros ?. apply (set_round_trips valid Happ Hrt).
  - intros A B ???? validA validB Happ HrtA HrtB. apply (pair_round_trips validA validB HrtA Happ HrtB).
Qed.

(** Decoding hostile bytes stays inside the buffer: when it succeeds, the
    position has moved past the length prefix and is within the buffer; a decoded
    vector or set has at most a million items, and a decoded string is valid
    UTF-8 of exactly the announced length. *)
Theorem decode_within_bounds {A} `{Encode A, Decode A, !Codec A, !RustOrd A} buf pos :
  (∀ (v : list A) pos', decode_from buf pos = Some (v, pos') →
     pos + 8 ≤ pos' ≤ blen buf ∧ N.of_nat (length v) ≤ 1000000) ∧
  (∀ (v : gset A) pos', decode_from buf pos = Some (v, pos') →
     pos + 8 ≤ pos' ≤ blen buf ∧ N.of_nat (size v) ≤ 1000000) ∧
  (∀ (v : rstring) pos', decode_from buf pos = Some (v, pos') →
     pos' = pos + 8 + blen (str_bytes v) ∧ pos' ≤ blen buf ∧ utf8_valid (str_bytes v) = true).
Proof.
  split_and!; intros v pos'; unfold decode_from.
  - unfold decode_vec. destruct (read_count buf pos) as [[n p]|] eqn:Hr; [simpl|done].
    apply read_count_in_buffer in Hr as (-> & ? & ?).
    intros (? & ? & ->)%decode_items_in_buffer; [|apply codec_in_buffer].
    simpl. unfold MAX_DECODE_ITEMS in *. split_and!; [lia|auto|lia].
  - unfold decode_set. destruct (read_count buf pos) as [[n p]|] eqn:Hr; [simpl|done].
    apply read_count_in_buffer in Hr as (-> & ? & ?).
    intros (? & ? & ->)%decode_set_items_in_buffer; [|apply codec_in_buffer].
    rewrite size_empty. unfold MAX_DECODE_ITEMS in *. split_and!; [lia|auto|lia].
  - unfold decode_string. destruct (read_len buf pos) as [[n p]|] eqn:Hr; [simpl|done].
    apply read_len_in_buffer in Hr as (-> & ?).
    destruct (take_bytes buf _ n) as [[b p]|] eqn:Ht; [simpl|done].
    apply take_bytes_in_buffer in Ht as (-> & ? & <-).
    destruct (utf8_valid b) eqn:Hu; [|done]. by intros [= <- <-].
Qed.
