(* ===== verification/CrdtDag.v ===== *)
(** * merkle-crdt: nodes and stores

    [support/merkle-crdt/src/hasher.rs], [cid.rs], [node.rs], [store.rs] and the
    error type of [lib.rs].  The hash function is code of the application: the
    class [Hasher] holds its digests and operations, [HasherLaws] that a digest
    has a fixed size, at most [isize::MAX], and can be read back from its bytes.  [Store] is the storage
    trait and [StoreLaws] what its documentation promises about a backend, in
    terms of the map the backend stands for; [MemStore] implements it. *)

From S2P Require Import Prelude Bytes CrdtCodec.

Local Open Scope N_scope.

(** [trait Hasher]: [D] is [Output], [hash_size] its [size_of]. *)
Class Hasher (D : Type) := {
  output_ord :: RustOrd D;
  output_decode :: Decode D;
  as_ref : D → bytes;
  hash_size : nat;
  hash : bytes → D;
}.

Class HasherLaws (D : Type) `{!Hasher D} := {
  hash_size_pos : (0 < hash_size)%nat;
  hash_size_fits : N.of_nat hash_size < 2 ^ 63;
  as_ref_size d : length (as_ref d) = hash_size;
  output_round_trips d pre post :
    blen (pre ++ as_ref d ++ post) ≤ u64_max →
    decode_from (pre ++ as_ref d ++ post) (blen pre) = Some (d, blen pre + blen (as_ref d));
}.

(** [struct Cid<H>(H::Output)]. *)
Abbreviation Cid D := (D) (only parsing).

Record DagNode (D P : Type) `{!Hasher D} := mkNode {
  payload : P;
  children : gset (Cid D);
}.
Arguments mkNode {D P _} _ _.
Arguments payload {D P _} _.
Arguments children {D P _} _.

Section Node.
Context {D P : Type} `{!Hasher D}.
Implicit Types (n : DagNode D P).

Definition leaf (p : P) : DagNode D P := mkNode p ∅.

(** [BTreeSet] iterates in order. *)
Definition children_list n : list (Cid D) := sorted_elements ord_le (children n).

Definition to_bytes `{Encode P} n : bytes :=
  let buf := [] in
  let payload_bytes := encode (payload n) in
  let buf := buf ++ len_prefix (length payload_bytes) in
  let buf := buf ++ payload_bytes in
  let buf := buf ++ len_prefix (size (children n)) in
  foldl (λ buf child, buf ++ as_ref child) buf (children_list n).

Definition cid `{Encode P} n : Cid D := hash (to_bytes n).

(** The loop of [from_bytes] over the children. *)
Fixpoint read_children (count : nat) (bytes_ : bytes) (pos : N) (s : gset (Cid D))
    : option (gset (Cid D) * N) :=
  match count with
  | O => Some (s, pos)
  | Datatypes.S count =>
      if blen bytes_ <? pos + N.of_nat hash_size then None else
      '(h, pos) ← decode_from bytes_ pos;
      read_children count bytes_ pos ({[h]} ∪ s)
  end.

Definition from_bytes `{Decode P} (bytes_ : bytes) : option (DagNode D P) :=
  '(b, pos) ← take_bytes bytes_ 0 8;
  let payload_len := from_le_bytes b in
  payload_end ← checked_add pos payload_len;
  if blen bytes_ <? payload_end then None else
  let payload_bytes := take (N.to_nat payload_len) (drop (N.to_nat pos) bytes_) in
  '(p, payload_pos) ← decode_from payload_bytes 0;
  if negb (payload_pos =? blen payload_bytes) then None else
  let pos := payload_end in
  if blen bytes_ <? pos + 8 then None else
  let count := from_le_bytes (take 8 (drop (N.to_nat pos) bytes_)) in
  let pos := pos + 8 in
  '(cs, pos) ← read_children (N.to_nat count) bytes_ pos ∅;
  if negb (pos =? blen bytes_) || negb (N.of_nat (size cs) =? count) then None else
  Some (mkNode p cs).
End Node.

(** ** Stores *)

Class Store (D P S E : Type) `{!Hasher D} := {
  get : S → Cid D → result E (option (DagNode D P));
  put : S → Cid D → DagNode D P → S * result E unit;
  put_batch : S → list (Cid D * DagNode D P) → S * result E unit;
  contains : S → Cid D → result E bool;
}.

(** The default [put_batch]: one [put] after the other, stopping at a failure. *)
Fixpoint put_batch_default {D P S E} `{!Hasher D}
    (put : S → Cid D → DagNode D P → S * result E unit)
    (s : S) (nodes : list (Cid D * DagNode D P)) : S * result E unit :=
  match nodes with
  | [] => (s, Ok tt)
  | (c, n) :: nodes =>
      match put s c n with
      | (s, Ok _) => put_batch_default put s nodes
      | (s, Err e) => (s, Err e)
      end
  end.

Definition put_all {D P} `{!Hasher D} (m : gmap (Cid D) (DagNode D P))
    (nodes : list (Cid D * DagNode D P)) : gmap (Cid D) (DagNode D P) :=
  foldl (λ m '(c, n), <[c := n]> m) m nodes.

(** What the trait's documentation promises, over the map [abs s]: reads return
    what is stored, a write stores, and a failed batch leaves a prefix of it
    (nothing, for a transactional backend). *)
Class StoreLaws (D P S E : Type) `{!Hasher D, !Store D P S E} := {
  abs : S → gmap (Cid D) (DagNode D P);
  get_abs s c r : get s c = Ok r → r = abs s !! c;
  contains_abs s c b : contains s c = Ok b → b = bool_decide (is_Some (abs s !! c));
  put_Ok s c n s' u : put s c n = (s', Ok u) → abs s' = <[c := n]> (abs s);
  put_Err s c n s' e : put s c n = (s', Err e) → abs s' = abs s;
  put_batch_Ok s l s' u : put_batch s l = (s', Ok u) → abs s' = put_all (abs s) l;
  put_batch_Err s l s' e :
    put_batch s l = (s', Err e) → ∃ k, abs s' = put_all (abs s) (take k l);
}.

(** [MemStore]: its error type is [Infallible]. *)
Abbreviation MemStore D P :=
  (@gmap D (@ord_eq_dec D (@output_ord D _)) (@ord_countable D (@output_ord D _)) (DagNode D P)).

#[export] Instance MemStore_Store {D P} `{!Hasher D} : Store D P (MemStore D P) Empty_set := {|
  get s c := Ok (s !! c);
  put s c n := (<[c := n]> s, Ok tt);
  put_batch := put_batch_default (λ s c n, (<[c := n]> s, Ok tt));
  contains s c := Ok (bool_decide (is_Some (s !! c)));
|}.

(** A backend with the default [put_batch] keeps the batch laws. *)
Section default_batch.
Context {D P S E : Type} `{!Hasher D}.
Context (abs0 : S → gmap (Cid D) (DagNode D P)).
Context (put0 : S → Cid D → DagNode D P → S * result E unit).
Hypothesis Hok : ∀ s c n s' u, put0 s c n = (s', Ok u) → abs0 s' = <[c := n]> (abs0 s).
Hypothesis Herr : ∀ s c n s' e, put0 s c n = (s', Err e) → abs0 s' = abs0 s.

Lemma put_batch_default_prefix l s s' r :
  put_batch_default put0 s l = (s', r) →
  ∃ k, abs0 s' = put_all (abs0 s) (take k l) ∧ ((∃ u, r = Ok u) → take k l = l).
Proof.
  revert s. induction l as [|[c n] l IH]; intros s; simpl.
  - intros [= <- <-]. by exists 0%nat.
  - destruct (put0 s c n) as [s1 [u|e]] eqn:Hp.
    + intros (k & Hk & Hall)%IH. exists (Datatypes.S k). apply Hok in Hp. simpl.
      rewrite Hk, Hp. split; [done|]. intros Hu. by rewrite Hall.
    + intros [= <- <-]. apply Herr in Hp. exists 0%nat. split; [done|]. by intros [u ?].
Qed.
End default_batch.

#[export] Program Instance MemStore_Laws {D P} `{!Hasher D} :
    StoreLaws D P (MemStore D P) Empty_set := {| abs s := s |}.
Next Obligation. by intros D P ? s c r [= <-]. Qed.
Next Obligation. by intros D P ? s c b [= <-]. Qed.
Next Obligation. by intros D P ? s c n s' u [= <-]. Qed.
Next Obligation. done. Qed.
Next Obligation.
  intros D P ? s l s' u H.
  eapply (put_batch_default_prefix (λ s : MemStore D P, s)) in H as (k & Hk & Hall);
    [|by intros ????? [= <-]|done].
  rewrite Hall in Hk by eauto. done.
Qed.
Next Obligation. intros D P ? s l s' []. Qed.

(** [enum Error] of the crate. *)
Inductive Error (E : Type) := StoreError (e : E) | MissingNode | InvalidCid | InvalidAuthor.
Arguments StoreError {E} _.
Arguments MissingNode {E}.
Arguments InvalidCid {E}.
Arguments InvalidAuthor {E}.

(** ** Nodes as bytes *)

Section NodeBytes.
Context {D P : Type} `{!Hasher D, !HasherLaws D} `{Encode P, Decode P}.
Implicit Types (n : DagNode D P).

Lemma foldl_append {A} (f : A → bytes) l buf :
  foldl (λ buf x, buf ++ f x) buf l = buf ++ (l ≫= f).
Proof.
  revert buf. induction l as [|x l IH]; intros buf; csimpl; [by rewrite app_nil_r|].
  by rewrite IH, (assoc_L (++)).
Qed.

Lemma to_bytes_eq n :
  to_bytes n = len_prefix (length (encode (payload n))) ++ encode (payload n) ++
               len_prefix (size (children n)) ++ (children_list n ≫= as_ref).
Proof.
  unfold to_bytes. cbv zeta. rewrite foldl_append, <- !(assoc_L (++)). done.
Qed.

Lemma read_children_app l pre post s :
  blen (pre ++ (l ≫= as_ref) ++ post) ≤ u64_max →
  read_children (length l) (pre ++ (l ≫= as_ref) ++ post) (blen pre) s =
  Some (list_to_set l ∪ s, blen pre + blen (l ≫= as_ref)).
Proof.
  revert pre s. induction l as [|x l IH]; intros pre s; csimpl.
  { intros _. unfold blen. simpl. by rewrite N.add_0_r, (left_id_L ∅ (∪)). }
  rewrite <- (assoc_L (++)). intros Hfit.
  destruct (N.ltb_spec (blen (pre ++ as_ref x ++ (l ≫= as_ref) ++ post))
    (blen pre + N.of_nat hash_size)) as [Hlt|_].
  { rewrite !blen_app in Hlt. unfold blen in Hlt. rewrite as_ref_size in Hlt. lia. }
  rewrite output_round_trips by done. option_step.
  rewrite (assoc_L (++)) in Hfit |- *. rewrite <- blen_app, IH by done.
  rewrite !blen_app, N.add_assoc. do 2 f_equal. set_solver.
Qed.

Lemma list_to_set_children n : list_to_set (children_list n) = children n.
Proof.
  apply set_eq. intros x. unfold children_list.
  by rewrite elem_of_list_to_set, elem_of_sorted_elements.
Qed.

Lemma length_children_list n : length (children_list n) = size (children n).
Proof. unfold children_list. by rewrite sorted_elements_perm. Qed.

Lemma from_bytes_prefix k :
  N.of_nat k ≤ u64_max → from_le_bytes (len_prefix k) = N.of_nat k.
Proof.
  intros Hk. rewrite len_prefix_small by done. apply from_to_le_bytes.
  unfold int_modulus, u64_max in *. change (N.of_nat 8) with 8. lia.
Qed.

(** Reading a length prefix in place. *)
Lemma read_prefix pre k post :
  N.of_nat k ≤ u64_max →
  from_le_bytes (take 8 (drop (N.to_nat (blen pre)) (pre ++ len_prefix k ++ post))) = N.of_nat k.
Proof.
  intros Hk. unfold blen. rewrite Nat2N.id, drop_app_length.
  rewrite take_app_length' by (unfold len_prefix; by rewrite length_to_le_bytes).
  by apply from_bytes_prefix.
Qed.

Lemma length_digests l : (length l ≤ length (l ≫= as_ref))%nat.
Proof.
  induction l as [|x l IH]; csimpl; [lia|].
  rewrite length_app, as_ref_size. pose proof hash_size_pos. lia.
Qed.

Lemma take_prefix k post :
  blen (len_prefix k ++ post) ≤ u64_max →
  take_bytes (len_prefix k ++ post) 0 8 = Some (len_prefix k, 8).
Proof.
  intros Hfit. pose proof (take_bytes_app [] (len_prefix k) post 8 Hfit) as Ht.
  rewrite blen_len_prefix in Ht. by apply Ht.
Qed.

(** The payload's decoder sees the payload's bytes and nothing else. *)
Lemma from_to_bytes_payload n :
  decode_from (encode (payload n)) 0 = Some (payload n, blen (encode (payload n))) →
  blen (to_bytes n) ≤ u64_max → from_bytes (to_bytes n) = Some n.
Proof.
  intros Hrt. rewrite to_bytes_eq. set (pb := encode (payload n)).
  set (cb := children_list n ≫= as_ref). intros Hfit.
  pose proof Hfit as Hsum. rewrite !blen_app, !blen_len_prefix in Hsum.
  pose proof (length_digests (children_list n)) as Hcb. fold cb in Hcb.
  rewrite length_children_list in Hcb.
  assert (N.of_nat (length pb) ≤ u64_max) as Hpb by (unfold blen in Hsum; lia).
  assert (N.of_nat (size (children n)) ≤ u64_max) as Hsz by (unfold blen in Hsum; lia).
  unfold from_bytes.
  rewrite take_prefix by done. option_step. rewrite from_bytes_prefix by done.
  change (N.of_nat (length pb)) with (blen pb).
  unfold checked_add. destruct (N.leb_spec (8 + blen pb) u64_max); [option_step|lia].
  rewrite !blen_app, !blen_len_prefix.
  destruct (N.ltb_spec (8 + (blen pb + (8 + blen cb))) (8 + blen pb)); [lia|].
  destruct (N.ltb_spec (8 + (blen pb + (8 + blen cb))) (8 + blen pb + 8)); [lia|].
  replace (take (N.to_nat (blen pb)) _) with pb.
  2: { unfold blen at 1. rewrite Nat2N.id. rewrite drop_app_length'.
       - by rewrite take_app_length.
       - unfold len_prefix. by rewrite length_to_le_bytes. }
  fold pb in Hrt. rewrite Hrt. option_step. rewrite N.eqb_refl. cbv [negb].
  replace (8 + blen pb) with (blen (len_prefix (length pb) ++ pb))
    by (by rewrite blen_app, blen_len_prefix).
  rewrite (assoc_L (++) (len_prefix (length pb))), read_prefix by done.
  rewrite Nat2N.id. rewrite (assoc_L (++)), (assoc_L (++)) in Hfit.
  replace (blen (len_prefix (length pb) ++ pb) + 8)
    with (blen ((len_prefix (length pb) ++ pb) ++ len_prefix (size (children n))))
    by (by rewrite (blen_app _ (len_prefix (size (children n)))), blen_len_prefix).
  rewrite (assoc_L (++) (len_prefix (length pb) ++ pb)). 
  pose proof (read_children_app (children_list n)
    ((len_prefix (length pb) ++ pb) ++ len_prefix (size (children n))) [] ∅) as Hr.
  rewrite app_nil_r, length_children_list in Hr. fold cb in Hr. rewrite Hr by done. option_step.
  rewrite list_to_set_children, (right_id_L ∅ (∪)), !blen_app, !blen_len_prefix, N.eqb_refl.
  rewrite <- !N.add_assoc, N.eqb_refl. by destruct n.
Qed.

Lemma from_to_bytes (valid : P → Prop) n :
  round_trips valid → valid (payload n) → blen (to_bytes n) ≤ u64_max → from_bytes (to_bytes n) = Some n.
Proof.
  intros Hrt Hv Hfit. apply from_to_bytes_payload; [|done].
  specialize (Hrt (payload n) [] [] Hv). simpl in Hrt. rewrite app_nil_r in Hrt. apply Hrt.
  rewrite to_bytes_eq, !blen_app in Hfit. lia.
Qed.
End NodeBytes.

(** ** A one-byte checksum as a hasher *)

Definition byte_le (a b : Byte.byte) : Prop := Byte.to_N a ≤ Byte.to_N b.

#[export] Program Instance byte_ord : RustOrd Byte.byte := {| ord_le := byte_le |}.
Next Obligation. intros a b. unfold byte_le. apply _. Defined.
Next Obligation.
  split; [split; [split|]|]; unfold byte_le, Reflexive, Transitive, strict, Trichotomy.
  - reflexivity.
  - intros x y z. lia.
  - intros x y ??. apply byte_to_N_inj. lia.
  - intros x y. destruct (N.lt_trichotomy (Byte.to_N x) (Byte.to_N y)) as [|[|]].
    + left. lia.
    + right; left. by apply byte_to_N_inj.
    + right; right. lia.
Qed.

Definition checksum (b : bytes) : Byte.byte :=
  byte_of (foldl (λ acc x, (31 * acc + Byte.to_N x) `mod` 256) 7 b).

#[export] Instance checksum_hasher : Hasher Byte.byte := {|
  output_decode buf pos := '(b, pos) ← take_bytes buf pos 1; x ← head b; Some (x, pos);
  as_ref d := [d];
  hash_size := 1;
  hash := checksum;
|}.

#[export] Instance checksum_laws : HasherLaws Byte.byte.
Proof.
  split; [simpl; lia|done|done|]. intros d pre post Hfit.
  unfold decode_from, output_decode, checksum_hasher. by rewrite take_bytes_app.
Qed.

Lemma decode_as_ref {D} `{!Hasher D, !HasherLaws D} (d : D) : decode_from (as_ref d) 0 = Some (d, blen (as_ref d)).
Proof.
  pose proof (output_round_trips d [] []) as Hr. cbn in Hr. rewrite app_nil_r in Hr. apply Hr.
  pose proof hash_size_fits. unfold blen, u64_max. rewrite as_ref_size. lia.
Qed.

Lemma as_ref_inj {D} `{!Hasher D, !HasherLaws D} (a b : D) : as_ref a = as_ref b → a = b.
Proof. intros Hab. pose proof (decode_as_ref a) as Ha. rewrite Hab, decode_as_ref in Ha. congruence. Qed.

(** A node survives its byte form: [from_bytes] inverts [to_bytes] for every
    payload type whose codec round trips, so that two different nodes never have
    the same bytes (what the content identifier is computed from). *)
Theorem node_bytes_round_trip {D P} `{!Hasher D, !HasherLaws D} `{Encode P, Decode P}
    (valid : P → Prop) (n : DagNode D P) :
  round_trips valid → valid (payload n) → blen (to_bytes n) ≤ u64_max →
  from_bytes (to_bytes n) = Some n ∧
  ∀ m, valid (payload m) → to_bytes m = to_bytes n → m = n.
Proof.
  intros Hrt Hv Hfit. pose proof (from_to_bytes valid n Hrt Hv Hfit) as Hn. split; [done|].
  intros m Hvm Heq. rewrite <- Heq in Hfit.
  pose proof (from_to_bytes valid m Hrt Hvm Hfit) as Hm. rewrite Heq in Hm. congruence.
Qed.

Lemma node_bytes_round_trip_witness :
  let n := mkNode (RString [Byte.x61; Byte.x62]) {[Byte.x01; Byte.x02]} in
  from_bytes (to_bytes n) = Some n ∧
  to_bytes n = [Byte.x0a; Byte.x00; Byte.x00; Byte.x00; Byte.x00; Byte.x00; Byte.x00; Byte.x00;
                Byte.x02; Byte.x00; Byte.x00; Byte.x00; Byte.x00; Byte.x00; Byte.x00; Byte.x00;
                Byte.x61; Byte.x62;
                Byte.x02; Byte.x00; Byte.x00; Byte.x00; Byte.x00; Byte.x00; Byte.x00; Byte.x00;
                Byte.x01; Byte.x02].
Proof.
  intros n. split.
  - apply (node_bytes_round_trip (λ v, utf8_valid (str_bytes v) = true) n).
    + apply (@codec_round_trips _ _ _ codec_string).
    + reflexivity.
    + vm_compute. discriminate.
  - vm_compute. reflexivity.
Defined.
