(* ===== verification/CrdtOrder.v ===== *)
(** * merkle-crdt: the causal order of a set of nodes

    [topological_sort] of [support/merkle-crdt/src/sync.rs]: Kahn's algorithm over
    the nodes of a [BTreeMap], oldest first.  A node counts its children inside
    the map; when the count reaches zero it is released into a FIFO queue.
    [None] is a panic: an underflow of a counter or the [unwrap] of a node that
    is no longer in the map.  It never happens, whatever the map, and on an
    acyclic map the result is a rearrangement of the whole map in which children
    come before their parents ([topological_sort_spec]). *)

From S2P Require Import Prelude Bytes CrdtCodec CrdtDag.

Section Kahn.
Context {D P : Type} `{!Hasher D}.
Abbreviation Node := (DagNode D P).
Abbreviation Nodes := (gmap D Node).
Implicit Types (N : Nodes) (deg : gmap D nat) (queue : list D) (result : list (D * Node)).

(** Iterating a [BTreeMap]: pairs in key order. *)
Definition btree_iter N : list (D * Node) :=
  omap (λ c, pair c <$> N !! c) (sorted_keys ord_le N).

(** The body of the loop that fills [parents_of] for one node. *)
Definition add_parent (cid_set : gset D) (c : D) (parents_of : gmap D (list D)) (child : D) :=
  if decide (child ∈ cid_set)
  then <[child := default [] (parents_of !! child) ++ [c]]> parents_of
  else parents_of.

Definition degree_step (cid_set : gset D) (acc : gmap D nat * gmap D (list D))
    (entry : D * Node) : gmap D nat * gmap D (list D) :=
  let '(out_degree, parents_of) := acc in
  let '(c, n) := entry in
  let out := count_if (λ child, bool_decide (child ∈ cid_set)) (children_list n) in
  (<[c := out]> out_degree, foldl (add_parent cid_set c) parents_of (children_list n)).

(** [*deg -= 1; if *deg == 0 { queue.push_back(parent) }]. *)
Definition release (acc : option (gmap D nat * list D)) (parent : D)
    : option (gmap D nat * list D) :=
  '(deg, queue) ← acc;
  match deg !! parent with
  | None => Some (deg, queue)
  | Some O => None
  | Some (Datatypes.S d) =>
      Some (<[parent := d]> deg, if decide (d = 0) then queue ++ [parent] else queue)
  end.

Fixpoint kahn (fuel : nat) (parents_of : gmap D (list D)) queue deg N result
    : option (list (D * Node)) :=
  match fuel with
  | O => None
  | Datatypes.S fuel =>
      match queue with
      | [] => Some result
      | c :: queue =>
          '(deg, queue) ← foldl release (Some (deg, queue)) (default [] (parents_of !! c));
          n ← N !! c;
          kahn fuel parents_of queue deg (delete c N) (result ++ [(c, n)])
      end
  end.

Definition topological_sort N : option (list (D * Node)) :=
  let cid_set := dom N in
  let '(out_degree, parents_of) := foldl (degree_step cid_set) (∅, ∅) (btree_iter N) in
  let queue := filter (λ c, out_degree !! c = Some 0) (sorted_keys ord_le out_degree) in
  kahn (Datatypes.S (size N)) parents_of queue out_degree N [].

Lemma kahn_cons fuel parents_of c queue deg N result :
  kahn (Datatypes.S fuel) parents_of (c :: queue) deg N result =
  '(deg, queue) ← foldl release (Some (deg, queue)) (default [] (parents_of !! c));
  n ← N !! c;
  kahn fuel parents_of queue deg (delete c N) (result ++ [(c, n)]).
Proof. done. Qed.

(** ** The counters and the reverse edges *)

Lemma fst_btree_iter N : (btree_iter N).*1 = sorted_keys ord_le N.
Proof.
  unfold btree_iter.
  assert (∀ c, c ∈ sorted_keys ord_le N → is_Some (N !! c)) as Hall
    by (intros c; by rewrite elem_of_sorted_keys).
  induction (sorted_keys ord_le N) as [|c l IH]; csimpl; [done|].
  destruct (Hall c) as [n ->]; [left|]. csimpl. rewrite IH; [done|].
  intros c' Hc'. apply Hall. by right.
Qed.

Lemma elem_of_btree_iter N c n : (c, n) ∈ btree_iter N ↔ N !! c = Some n.
Proof.
  unfold btree_iter. rewrite list_elem_of_omap. split.
  - intros (c' & _ & Hc'). destruct (N !! c') eqn:Hl; [|done].
    simpl in Hc'. injection Hc' as -> ->. done.
  - intros Hc. exists c. rewrite elem_of_sorted_keys, Hc. eauto.
Qed.

Lemma NoDup_btree_iter N : NoDup (btree_iter N).*1.
Proof. rewrite fst_btree_iter. apply NoDup_sorted_keys. Qed.

Lemma NoDup_children_list (n : Node) : NoDup (children_list n).
Proof. unfold children_list. rewrite sorted_elements_perm. apply NoDup_elements. Qed.

Lemma elem_of_children_list (n : Node) c : c ∈ children_list n ↔ c ∈ children n.
Proof. apply elem_of_sorted_elements. Qed.

Lemma count_if_size (s : gset D) l :
  NoDup l → count_if (λ x, bool_decide (x ∈ s)) l = size (list_to_set l ∩ s).
Proof.
  induction 1 as [|x l Hx Hnd IH]; csimpl; [by rewrite (left_absorb_L ∅ (∩)), size_empty|].
  rewrite (comm_L (∩)), (intersection_union_l_L s), IH. rewrite (comm_L (∩) s (list_to_set l)).
  destruct (decide (x ∈ s)) as [Hin|Hin].
  - rewrite bool_decide_eq_true_2 by done.
    replace (s ∩ {[x]}) with ({[x]} : gset D) by set_solver.
    rewrite (size_union ({[x]} : gset D) (list_to_set l ∩ s)), size_singleton; [done|].
    intros y ->%elem_of_singleton [Hy%elem_of_list_to_set _]%elem_of_intersection. done.
  - rewrite bool_decide_eq_false_2 by done.
    replace (s ∩ {[x]}) with (∅ : gset D) by set_solver. by rewrite (left_id_L ∅ (∪)).
Qed.

Lemma add_parents_lookup cid_set c l parents_of x :
  NoDup l →
  default [] (foldl (add_parent cid_set c) parents_of l !! x) =
  default [] (parents_of !! x) ++ (if decide (x ∈ l ∧ x ∈ cid_set) then [c] else []).
Proof.
  intros Hnd. revert parents_of. induction Hnd as [|y l Hy Hnd IH]; intros po; cbn [foldl].
  - rewrite decide_False by (intros [?%elem_of_nil _]; done). by rewrite app_nil_r.
  - rewrite IH. unfold add_parent. destruct (decide (y ∈ cid_set)) as [Hys|Hys].
    + destruct (decide (x = y)) as [->|Hne].
      * rewrite lookup_insert_eq. cbn [default from_option id].
        rewrite decide_False by naive_solver. rewrite decide_True by (split; [left|done]).
        by rewrite app_nil_r.
      * rewrite lookup_insert_ne by done. f_equal. apply decide_ext. set_solver.
    + f_equal. apply decide_ext. set_solver.
Qed.

Lemma degree_fold cid_set l deg po :
  NoDup l.*1 →
  let acc := foldl (degree_step cid_set) (deg, po) l in
  (∀ c n, (c, n) ∈ l → acc.1 !! c = Some (size (children n ∩ cid_set))) ∧
  (∀ c, c ∉ l.*1 → acc.1 !! c = deg !! c) ∧
  (∀ x, default [] (acc.2 !! x) = default [] (po !! x) ++
     (filter (λ e : D * Node, x ∈ children e.2 ∧ x ∈ cid_set) l).*1).
Proof.
  revert deg po. induction l as [|[c n] l IH]; intros deg po; csimpl.
  { intros _. split_and!; [by intros ???%elem_of_nil|done|]. intros x. by rewrite app_nil_r. }
  intros [Hc Hnd]%NoDup_cons.
  specialize (IH (<[c := count_if (λ x, bool_decide (x ∈ cid_set)) (children_list n)]> deg)
    (foldl (add_parent cid_set c) po (children_list n)) Hnd) as (H1 & H2 & H3).
  split_and!.
  - intros c' n' [[= -> ->]|Hin]%elem_of_cons; [|by apply H1].
    rewrite H2, lookup_insert_eq by done. f_equal.
    rewrite count_if_size by apply NoDup_children_list. by rewrite list_to_set_children.
  - intros c' Hc'. rewrite H2 by set_solver. rewrite lookup_insert_ne by set_solver. done.
  - intros x. rewrite H3, add_parents_lookup by apply NoDup_children_list.
    rewrite <- (assoc_L (++)). f_equal. rewrite filter_cons. simpl.
    destruct (decide (x ∈ children_list n ∧ x ∈ cid_set)) as [Hx|Hx];
      rewrite elem_of_children_list in Hx.
    + by rewrite decide_True.
    + by rewrite decide_False.
Qed.

Lemma degrees_spec N :
  let acc := foldl (degree_step (dom N)) (∅, ∅) (btree_iter N) in
  (∀ c, acc.1 !! c = (λ n, size (children n ∩ dom N)) <$> N !! c) ∧
  (∀ x, default [] (acc.2 !! x) =
     (filter (λ e : D * Node, x ∈ children e.2 ∧ x ∈ dom N) (btree_iter N)).*1).
Proof.
  destruct (degree_fold (dom N) (btree_iter N) ∅ ∅ (NoDup_btree_iter N)) as (H1 & H2 & H3).
  split; [|intros x; rewrite H3; by rewrite lookup_empty].
  intros c. destruct (N !! c) as [n|] eqn:Hc; simpl.
  - apply H1. by apply elem_of_btree_iter.
  - rewrite H2; [apply lookup_empty|]. rewrite fst_btree_iter, elem_of_sorted_keys, Hc.
    by intros [? ?].
Qed.

Lemma release_fold ps deg queue :
  NoDup ps → (∀ p, p ∈ ps → ∃ d, deg !! p = Some (Datatypes.S d)) →
  ∃ deg', foldl release (Some (deg, queue)) ps =
            Some (deg', queue ++ filter (λ p, deg !! p = Some 1) ps) ∧
    ∀ c, deg' !! c = if decide (c ∈ ps) then pred <$> deg !! c else deg !! c.
Proof.
  intros Hnd. revert deg queue. induction Hnd as [|p ps Hp Hnd IH]; intros deg queue Hpos.
  { exists deg. split; [by rewrite app_nil_r|]. intros c. rewrite decide_False; [done|].
    by intros ?%elem_of_nil. }
  destruct (Hpos p) as [d Hd]; [left|]. cbn [foldl]. unfold release at 2. option_step.
  rewrite Hd.
  destruct (IH (<[p := d]> deg) (if decide (d = 0) then queue ++ [p] else queue))
    as (deg' & -> & Hdeg').
  { intros q Hq. rewrite lookup_insert_ne by set_solver. apply Hpos. by right. }
  exists deg'. split.
  - rewrite filter_cons. do 2 f_equal.
    replace (filter (λ q, <[p := d]> deg !! q = Some 1) ps)
      with (filter (λ q, deg !! q = Some 1) ps).
    2: { apply filter_ext_in. intros q Hq.
         rewrite lookup_insert_ne by set_solver. done. }
    destruct (decide (d = 0)) as [->|Hne].
    + rewrite decide_True by done. by rewrite <- (assoc_L (++)).
    + by rewrite decide_False by (rewrite Hd; congruence).
  - intros c. rewrite Hdeg'. destruct (decide (c = p)) as [->|Hne].
    + rewrite decide_False by done. rewrite decide_True by left.
      by rewrite lookup_insert_eq, Hd.
    + rewrite lookup_insert_ne by done.
      destruct (decide (c ∈ ps)); [rewrite decide_True by (by right)|rewrite decide_False by set_solver]; done.
Qed.

(** Every child inside [N] of an entry comes before the entry. *)
Definition causal N (l : list (D * Node)) : Prop :=
  ∀ l1 c n l2, l = l1 ++ (c, n) :: l2 → ∀ x, x ∈ children n → x ∈ dom N → x ∈ l1.*1.

(** The children of [n] inside [N] that are not in the result yet. *)
Definition waiting N (done : list D) (n : Node) : gset D :=
  (children n ∩ dom N) ∖ list_to_set done.

Record kahn_inv N queue deg (N' : Nodes) result : Prop := {
  ki_nodup : NoDup (result.*1 ++ queue);
  ki_result c n : (c, n) ∈ result → N !! c = Some n;
  ki_rest c : N' !! c = if decide (c ∈ result.*1) then None else N !! c;
  ki_deg c : deg !! c = (λ n, size (waiting N result.*1 n)) <$> N !! c;
  ki_zero c : c ∈ result.*1 ++ queue ↔ deg !! c = Some 0;
  ki_causal : causal N result;
}.

Definition parents_ok N (parents_of : gmap D (list D)) : Prop :=
  ∀ x, NoDup (default [] (parents_of !! x)) ∧
    ∀ p, p ∈ default [] (parents_of !! x) ↔
         ∃ n, N !! p = Some n ∧ x ∈ children n ∧ x ∈ dom N.

Lemma elem_of_waiting N l (n : Node) x :
  x ∈ waiting N l n ↔ x ∈ children n ∧ x ∈ dom N ∧ x ∉ l.
Proof.
  unfold waiting. rewrite elem_of_difference, elem_of_intersection, elem_of_list_to_set. tauto.
Qed.

Lemma waiting_nil N l (n : Node) x :
  size (waiting N l n) = 0 → x ∈ children n → x ∈ dom N → x ∈ l.
Proof.
  intros Hsz Hx HN. destruct (decide (x ∈ l)) as [|Hl]; [done|].
  apply size_empty_inv in Hsz. specialize (Hsz x). rewrite elem_of_waiting in Hsz. set_solver.
Qed.

Lemma waiting_snoc N l (n : Node) c :
  waiting N (l ++ [c]) n = waiting N l n ∖ {[c]}.
Proof. apply set_eq. intros x. rewrite elem_of_difference, !elem_of_waiting. set_solver. Qed.

Lemma kahn_inv_init N parents_of deg :
  foldl (degree_step (dom N)) (∅, ∅) (btree_iter N) = (deg, parents_of) →
  parents_ok N parents_of ∧
  kahn_inv N (filter (λ c, deg !! c = Some 0) (sorted_keys ord_le deg)) deg N [].
Proof.
  intros Hfold. pose proof (degrees_spec N) as [Hdeg Hpar]. rewrite Hfold in Hdeg, Hpar.
  simpl in Hdeg, Hpar. split.
  - intros x. rewrite Hpar. split.
    + eapply (sublist_NoDup _ (btree_iter N).*1); [apply NoDup_btree_iter|].
      apply fmap_sublist, sublist_filter.
    + intros p. rewrite list_elem_of_fmap. split.
      * intros ([p' n] & -> & [[Hx HN] Hin%elem_of_btree_iter]%list_elem_of_filter). eauto.
      * intros (n & Hp & Hx & HN). exists (p, n). split; [done|].
        apply list_elem_of_filter. by rewrite elem_of_btree_iter.
  - split; simpl.
    + apply NoDup_filter, NoDup_sorted_keys.
    + by intros c n ?%elem_of_nil.
    + done.
    + intros c. rewrite Hdeg. destruct (N !! c) as [n|]; [|done]. simpl. do 2 f_equal.
      apply set_eq. intros x. rewrite elem_of_waiting, elem_of_intersection. set_solver.
    + intros c. rewrite list_elem_of_filter, elem_of_sorted_keys. split; [by intros [? _]|].
      intros ->. eauto.
    + intros [|??] c n l2; done.
Qed.

Section step.
Context (N : Nodes) (parents_of : gmap D (list D)) (Hpar : parents_ok N parents_of).
Context (c : D) (queue : list D) (deg : gmap D nat) (N' : Nodes) (result : list (D * Node)).
Hypothesis Hinv : kahn_inv N (c :: queue) deg N' result.

Lemma kahn_head :
  ∃ n, N !! c = Some n ∧ N' !! c = Some n ∧ c ∉ result.*1 ∧ size (waiting N result.*1 n) = 0.
Proof.
  destruct Hinv as [Hnd Hres Hrest Hdeg Hz Hc].
  assert (c ∉ result.*1) as Hcr.
  { intros Hin. apply NoDup_app in Hnd as (_ & Hdis & _). apply (Hdis c Hin). left. }
  assert (deg !! c = Some 0) as Hc0 by (apply Hz, elem_of_app; right; left).
  rewrite Hdeg in Hc0. destruct (N !! c) as [n|] eqn:HNc; [|done]. exists n.
  injection Hc0 as Hsz. split_and!; [done| |done|done].
  by rewrite Hrest, decide_False.
Qed.

Lemma kahn_parents_waiting p :
  p ∈ default [] (parents_of !! c) → ∃ d, deg !! p = Some (Datatypes.S d).
Proof.
  destruct kahn_head as (n & HNc & _ & Hcr & _). intros Hp.
  apply (proj2 (Hpar c)) in Hp as (np & HNp & Hch & Hdom).
  rewrite (ki_deg _ _ _ _ _ Hinv), HNp. simpl.
  destruct (size (waiting N result.*1 np)) as [|d] eqn:Hsz; [|eauto].
  by eapply waiting_nil in Hsz.
Qed.

(** The counters after the parents of [c] have been notified. *)
Lemma kahn_counters (deg' : gmap D nat) n x :
  N !! c = Some n → c ∉ result.*1 →
  (∀ y, deg' !! y = if decide (y ∈ default [] (parents_of !! c))
                    then pred <$> deg !! y else deg !! y) →
  deg' !! x = (λ m, size (waiting N (result.*1 ++ [c]) m)) <$> N !! x.
Proof.
  intros HNc Hcr Hdeg'. rewrite Hdeg', (ki_deg _ _ _ _ _ Hinv).
  destruct (N !! x) as [m|] eqn:HNx; simpl; [|by case_decide].
  rewrite waiting_snoc. destruct (decide (x ∈ default [] (parents_of !! c))) as [Hp|Hp].
  - apply (proj2 (Hpar c)) in Hp as (m' & Hm' & Hch & Hdom). simplify_eq.
    rewrite size_difference, size_singleton, Nat.sub_1_r; [done|].
    apply singleton_subseteq_l, elem_of_waiting. done.
  - do 2 f_equal. apply set_eq. intros y. rewrite elem_of_difference, elem_of_waiting.
    split; [|tauto]. intros (Hy & HN & Hl). split; [done|].
    intros ->%elem_of_singleton. apply Hp, (proj2 (Hpar c)). eauto.
Qed.

Lemma kahn_step :
  ∃ deg' queue' n,
    foldl release (Some (deg, queue)) (default [] (parents_of !! c)) = Some (deg', queue') ∧
    queue' = queue ++ filter (λ p, deg !! p = Some 1) (default [] (parents_of !! c)) ∧
    N' !! c = Some n ∧ kahn_inv N queue' deg' (delete c N') (result ++ [(c, n)]).
Proof.
  destruct kahn_head as (n & HNc & HN'c & Hcr & Hsz).
  destruct (Hpar c) as [Hps Hin].
  destruct (release_fold _ deg queue Hps kahn_parents_waiting) as (deg' & Hrel & Hdeg').
  eexists deg', _, n. split_and!; [exact Hrel|done|done|].
  assert (∀ x, deg' !! x = (λ m, size (waiting N (result.*1 ++ [c]) m)) <$> N !! x) as Hd
    by (intros; by eapply kahn_counters).
  destruct Hinv as [Hnd Hres Hrest Hdeg Hz Hcau].
  split.
  - rewrite fmap_app, <- (assoc_L (++)). simpl. rewrite app_comm_cons, (assoc_L (++)).
    apply NoDup_app. split_and!; [done| |by apply NoDup_filter].
    intros x Hx [H1 _]%list_elem_of_filter. apply Hz in Hx. congruence.
  - intros x m [?|[[= -> ->]|?%elem_of_nil]%elem_of_cons]%elem_of_app; [eauto|done|done].
  - intros x. rewrite fmap_app. simpl. destruct (decide (x = c)) as [->|Hne].
    + rewrite lookup_delete_eq, decide_True; [done|]. apply elem_of_app. right. left.
    + rewrite lookup_delete_ne, Hrest by done. apply decide_ext. set_solver.
  - intros x. rewrite fmap_app. apply Hd.
  - intros x. rewrite fmap_app, <- (assoc_L (++)). simpl. rewrite app_comm_cons, (assoc_L (++)).
    rewrite elem_of_app, list_elem_of_filter, Hz, Hdeg'.
    destruct (decide (x ∈ _)) as [Hx|Hx]; [|naive_solver].
    destruct (kahn_parents_waiting x Hx) as [d Hd']. rewrite Hd'. simpl. naive_solver.
  - intros l1 x m l2 Heq y Hy HN. destruct l2 as [|e l2 _] using rev_ind.
    + apply app_inj_tail in Heq as [<- [= <- <-]]. by eapply waiting_nil.
    + rewrite app_comm_cons, (assoc_L (++)) in Heq. apply app_inj_tail in Heq as [-> _].
      by eapply Hcau.
Qed.
End step.

Lemma kahn_length N queue deg N' result :
  kahn_inv N queue deg N' result → length result + length queue ≤ size N.
Proof.
  intros [Hnd Hres Hrest Hdeg Hz Hcau].
  rewrite <- (length_fmap fst result), <- length_app, <- (size_dom N).
  rewrite <- (size_list_to_set (C := gset D)) by done. apply subseteq_size.
  intros x [Hx|Hx]%elem_of_list_to_set%elem_of_app.
  - apply list_elem_of_fmap in Hx as ([x' n] & -> & ?%Hres). by apply elem_of_dom.
  - assert (deg !! x = Some 0) as H0 by (apply Hz, elem_of_app; by right).
    rewrite Hdeg in H0. apply elem_of_dom. destruct (N !! x); [eauto|done].
Qed.

Lemma kahn_total N parents_of fuel queue deg N' result :
  parents_ok N parents_of → kahn_inv N queue deg N' result →
  size N < fuel + length result →
  ∃ l deg' N'', kahn fuel parents_of queue deg N' result = Some l ∧ kahn_inv N [] deg' N'' l.
Proof.
  intros Hpar. revert queue deg N' result.
  induction fuel as [|fuel IH]; intros queue deg N' result Hinv Hfuel.
  { pose proof (kahn_length _ _ _ _ _ Hinv). lia. }
  destruct queue as [|c queue]; [simpl; eauto|].
  destruct (kahn_step N parents_of Hpar c queue deg N' result Hinv)
    as (deg' & queue' & n & Hrel & _ & HN' & Hinv').
  simpl. rewrite Hrel. option_step. rewrite HN'. option_step. apply IH; [done|].
  rewrite length_app. simpl. lia.
Qed.

(** ** The result *)

(** No chain of children inside the map comes back to its start: the children of
    a node rank below it. *)
Definition acyclic N : Prop :=
  ∃ rank : D → nat, ∀ c n x,
    N !! c = Some n → x ∈ children n → x ∈ dom N → rank x < rank c.

Lemma kahn_complete N deg N' result :
  acyclic N → kahn_inv N [] deg N' result → ∀ c, c ∈ dom N → c ∈ result.*1.
Proof.
  intros [rank Hrank] Hinv c. remember (rank c) as r eqn:Hr. revert c Hr.
  induction (lt_wf r) as [r _ IH]. intros c -> [n Hn]%elem_of_dom.
  destruct (decide (c ∈ result.*1)) as [|Hc]; [done|].
  destruct (decide (waiting N result.*1 n = ∅)) as [He|(x & Hx)%set_choose_L].
  - rewrite <- (app_nil_r result.*1). apply (ki_zero _ _ _ _ _ Hinv).
    by rewrite (ki_deg _ _ _ _ _ Hinv), Hn; simpl; rewrite He, size_empty.
  - apply elem_of_waiting in Hx as (Hx & HN & Hl). destruct Hl. eapply IH; eauto.
Qed.

Lemma topological_sort_inv N :
  ∃ l deg N', topological_sort N = Some l ∧ kahn_inv N [] deg N' l.
Proof.
  unfold topological_sort.
  destruct (foldl (degree_step (dom N)) (∅, ∅) (btree_iter N)) as [deg po] eqn:Hfold.
  apply kahn_inv_init in Hfold as [Hpar Hinv].
  eapply kahn_total; eauto. simpl. lia.
Qed.

Lemma kahn_permutation N deg N' l :
  acyclic N → kahn_inv N [] deg N' l → l ≡ₚ map_to_list N.
Proof.
  intros Hac Hinv. pose proof (kahn_complete _ _ _ _ Hac Hinv) as Hall.
  destruct Hinv as [Hnd Hres _ _ _ _]. rewrite app_nil_r in Hnd.
  apply NoDup_Permutation; [by eapply NoDup_fmap_1|apply NoDup_map_to_list|].
  intros [c n]. rewrite elem_of_map_to_list. split; [apply Hres|]. intros Hc.
  assert (c ∈ l.*1) as ([c' n'] & -> & Hin)%list_elem_of_fmap by (apply Hall, elem_of_dom; eauto).
  simpl in Hc. pose proof (Hres _ _ Hin). by simplify_eq.
Qed.

Lemma kahn_closed N queue deg N' result z m x :
  kahn_inv N queue deg N' result → z ∈ result.*1 → N !! z = Some m →
  x ∈ children m → x ∈ dom N → x ∈ result.*1.
Proof.
  intros Hinv ([z' m'] & -> & Hin)%list_elem_of_fmap Hz Hx HN. simpl in Hz.
  pose proof (ki_result _ _ _ _ _ Hinv _ _ Hin). simplify_eq.
  apply list_elem_of_split in Hin as (l1 & l2 & Heq).
  pose proof (ki_causal _ _ _ _ _ Hinv _ _ _ _ Heq x Hx HN) as Hl1.
  rewrite Heq, fmap_app. apply elem_of_app. by left.
Qed.

(** ** A new node on top of everything *)

(** The keys of a part of a map, in order. *)
Lemma sorted_keys_filter {A B} (Q : D → Prop) `{!∀ x, Decision (Q x)} (m : gmap D A) (m1 : gmap D B) :
  (∀ x, is_Some (m !! x) ↔ Q x ∧ is_Some (m1 !! x)) →
  sorted_keys ord_le m = filter Q (sorted_keys ord_le m1).
Proof.
  intros Hm. apply (StronglySorted_unique ord_le).
  - apply (StronglySorted_sorted_keys ord_le).
  - apply StronglySorted_filter, (StronglySorted_sorted_keys ord_le).
  - apply NoDup_Permutation; [apply NoDup_sorted_keys|apply NoDup_filter, NoDup_sorted_keys|].
    intros x. by rewrite list_elem_of_filter, !elem_of_sorted_keys, Hm.
Qed.

Lemma sorted_keys_remove {A B} (m : gmap D A) (m1 : gmap D B) c :
  (∀ x, is_Some (m !! x) ↔ x ≠ c ∧ is_Some (m1 !! x)) →
  sorted_keys ord_le m = filter (λ x, x ≠ c) (sorted_keys ord_le m1).
Proof. apply sorted_keys_filter. Qed.

Lemma btree_iter_filter (Q : D → Prop) `{!∀ x, Decision (Q x)} N N1 :
  (∀ c n, N !! c = Some n ↔ Q c ∧ N1 !! c = Some n) →
  btree_iter N = filter (λ e, Q e.1) (btree_iter N1).
Proof.
  intros HN. unfold btree_iter. rewrite (sorted_keys_filter Q N N1) by (intros x; unfold is_Some; naive_solver).
  induction (sorted_keys ord_le N1) as [|x l IH]; [done|].
  rewrite filter_cons. csimpl. destruct (decide (Q x)) as [HQ|HQ]; csimpl.
  - replace (N !! x) with (N1 !! x) by (apply option_eq; intros n; rewrite HN; tauto).
    destruct (N1 !! x); csimpl; [|done]. by rewrite filter_cons, decide_True, IH.
  - destruct (N1 !! x); csimpl; [|done]. by rewrite filter_cons, decide_False.
Qed.

Lemma is_Some_insert_ne {A} (m : gmap D A) c a x :
  m !! c = None → is_Some (m !! x) ↔ x ≠ c ∧ is_Some (<[c := a]> m !! x).
Proof.
  intros Hc. destruct (decide (x = c)) as [->|Hne].
  - rewrite Hc. split; [by intros []|tauto].
  - rewrite lookup_insert_ne by done. tauto.
Qed.

Lemma btree_iter_insert N c n :
  N !! c = None →
  btree_iter N = filter (λ e, e.1 ≠ c) (btree_iter (<[c := n]> N)).
Proof.
  intros Hc. rewrite (btree_iter_filter (λ x, x ≠ c) N (<[c := n]> N)); [done|]. intros x m.
  destruct (decide (x = c)) as [->|Hne]; [rewrite Hc|rewrite lookup_insert_ne by done]; naive_solver.
Qed.

Section on_top.
Context (N : Nodes) (c : D) (n : Node).
Abbreviation N1 := (<[c := n]> N).
Hypothesis Hfresh : N !! c = None.
Hypothesis Hkids : children n ⊆ dom N.
Hypothesis Hcover : ∀ x, x ∈ dom N →
  x ∈ children n ∨ ∃ y m, N !! y = Some m ∧ x ∈ children m.
Hypothesis Hnotchild : ∀ y m, N !! y = Some m → c ∉ children m.
Hypothesis Hacyclic : acyclic N.

Lemma c_notin_dom : c ∉ dom N.
Proof. by rewrite not_elem_of_dom. Qed.

Lemma c_not_own_child : c ∉ children n.
Proof. intros Hc. by apply c_notin_dom, Hkids. Qed.

Lemma parents_insert (po po1 : gmap D (list D)) :
  (∀ x, default [] (po !! x) =
     (filter (λ e : D * Node, x ∈ children e.2 ∧ x ∈ dom N) (btree_iter N)).*1) →
  (∀ x, default [] (po1 !! x) =
     (filter (λ e : D * Node, x ∈ children e.2 ∧ x ∈ dom N1) (btree_iter N1)).*1) →
  ∀ x, default [] (po !! x) = filter (λ p, p ≠ c) (default [] (po1 !! x)).
Proof.
  intros Hpo Hpo1 x. rewrite Hpo, Hpo1, (btree_iter_insert N c n) by done.
  clear Hpo Hpo1. assert (∀ y m, (y, m) ∈ btree_iter N1 → y ≠ c → N !! y = Some m) as Hin.
  { intros y m Hym%elem_of_btree_iter Hne. by rewrite lookup_insert_ne in Hym. }
  induction (btree_iter N1) as [|[y m] l IH]; [done|].
  assert (∀ y m, (y, m) ∈ l → y ≠ c → N !! y = Some m) as Hin'
    by (intros; apply Hin; [by right|done]). specialize (IH Hin').
  rewrite !(filter_cons _ (y, m)). cbn [fst snd]. destruct (decide (y = c)) as [->|Hne].
  - rewrite (decide_False (P := c ≠ c)) by tauto. rewrite IH.
    destruct (decide (x ∈ children m ∧ _)); [|reflexivity].
    rewrite fmap_cons, filter_cons. cbn [fst]. by rewrite (decide_False (P := c ≠ c)) by tauto.
  - rewrite (decide_True (P := y ≠ c)) by done. rewrite (filter_cons _ (y, m)). cbn [fst snd].
    assert (N !! y = Some m) as Hy by (apply Hin; [left|done]).
    assert (x ∈ children m ∧ x ∈ dom N ↔ x ∈ children m ∧ x ∈ dom N1) as Hiff.
    { rewrite dom_insert. split; [set_solver|]. intros [Hx [->%elem_of_singleton|]%elem_of_union];
        [|done]. by eapply Hnotchild in Hx. }
    rewrite (decide_ext _ _ _ _ Hiff). destruct (decide (x ∈ children m ∧ _)); [|exact IH].
    rewrite !fmap_cons, filter_cons. cbn [fst]. rewrite (decide_True (P := y ≠ c)) by done.
    by rewrite IH.
Qed.

(** The counters of the two runs agree, the new node apart. *)
Lemma counters_insert queue queue1 deg deg1 N' N1' result x :
  kahn_inv N queue deg N' result → kahn_inv N1 queue1 deg1 N1' result →
  x ≠ c → deg1 !! x = deg !! x.
Proof.
  intros H0 H1 Hne. rewrite (ki_deg _ _ _ _ _ H0), (ki_deg _ _ _ _ _ H1).
  rewrite lookup_insert_ne by done. destruct (N !! x) as [m|] eqn:Hx; [simpl|done].
  do 2 f_equal. apply set_eq. intros y. rewrite !elem_of_waiting, dom_insert.
  split; [|set_solver]. intros (Hy & [->%elem_of_singleton|]%elem_of_union & ?); [|done].
  by eapply Hnotchild in Hy.
Qed.

(** When only [y] keeps the new node waiting, nothing but [y] is left. *)
Lemma last_one y queue deg N' result :
  kahn_inv N (y :: queue) deg N' result →
  (∀ x, x ∈ children n → x ≠ y → x ∈ result.*1) →
  ∀ x, x ∈ dom N → x ∈ result.*1 ∨ x = y.
Proof.
  intros Hinv Hlast. destruct Hacyclic as [rank Hrank]. intros x0 Hx0.
  set (L := dom N ∖ (list_to_set result.*1 ∪ {[y]})).
  destruct (decide (L = ∅)) as [He|Hne].
  { assert (x0 ∉ L) as Hx by (rewrite He; apply not_elem_of_empty). unfold L in Hx.
    rewrite elem_of_difference, elem_of_union, elem_of_list_to_set, elem_of_singleton in Hx.
    destruct (decide (x0 ∈ result.*1)); [by left|]. destruct (decide (x0 = y)); tauto. }
  exfalso. destruct (max_rank_exists rank L Hne) as (x & HxL & Hmin).
  pose proof HxL as HxL'. unfold L in HxL'.
  rewrite elem_of_difference, elem_of_union, elem_of_list_to_set, elem_of_singleton in HxL'.
  destruct HxL' as [Hx Hnot].
  destruct (Hcover x Hx) as [Hch|(z & m & Hz & Hch)]; [naive_solver|].
  assert (z ∉ result.*1) as Hzr by (intros Hzr; apply Hnot; left; by eapply kahn_closed).
  assert (z ≠ y) as Hzy.
  { intros ->. destruct (kahn_head N y queue deg N' result Hinv) as (m' & Hm' & _ & _ & Hsz).
    simplify_eq. apply Hnot. left. by eapply waiting_nil. }
  assert (z ∈ L) as HzL.
  { unfold L. rewrite elem_of_difference, elem_of_union, elem_of_list_to_set, elem_of_singleton.
    split; [apply elem_of_dom; eauto|tauto]. }
  pose proof (Hrank z m x Hz Hch Hx) as Hlt. specialize (Hmin z HzL). lia.
Qed.

(** How the queues of the two runs relate: the same until everything but the new
    node is done. *)
Inductive queues_match : list D → list D → Prop :=
| qm_same queue : c ∉ queue → queues_match queue queue
| qm_last : queues_match [] [c].

Section runs.
Context (po po1 : gmap D (list D)).
Hypothesis Hpar : parents_ok N po.
Hypothesis Hpar1 : parents_ok N1 po1.
Hypothesis Hpo : ∀ x, default [] (po !! x) = filter (λ p, p ≠ c) (default [] (po1 !! x)).

Lemma no_parents : default [] (po1 !! c) = [].
Proof.
  destruct (default [] (po1 !! c)) as [|p l] eqn:Hl; [done|].
  destruct (proj1 (proj2 (Hpar1 c) p)) as (m & Hp & Hc & _); [rewrite Hl; left|].
  destruct (decide (p = c)) as [->|Hne].
  - rewrite lookup_insert_eq in Hp. injection Hp as <-. by destruct c_not_own_child.
  - rewrite lookup_insert_ne in Hp by done. by eapply Hnotchild in Hc.
Qed.

(** Once only [y] keeps the new node waiting, the new node is all that follows. *)
Lemma only_new_parent y queue deg deg1 N' N1' result :
  kahn_inv N (y :: queue) deg N' result → kahn_inv N1 (y :: queue) deg1 N1' result →
  c ∈ default [] (po1 !! y) → deg1 !! c = Some 1 →
  queue = [] ∧ default [] (po1 !! y) = [c].
Proof.
  intros Hinv Hinv1 Hcp Hdc.
  destruct (kahn_head N y queue deg N' result Hinv) as (ny & Hny & _ & Hyr & _).
  assert (∀ x, x ∈ children n → x ≠ y → x ∈ result.*1) as Hlast.
  { pose proof Hcp as Hcp'. apply (proj2 (Hpar1 y)) in Hcp' as (m & Hm & Hy & _).
    rewrite lookup_insert_eq in Hm. injection Hm as <-.
    rewrite (ki_deg _ _ _ _ _ Hinv1), lookup_insert_eq in Hdc. injection Hdc as Hsz.
    intros x Hx Hne. destruct (decide (x ∈ result.*1)) as [|Hxr]; [done|].
    destruct Hne. apply (size_singleton_inv _ x y Hsz); apply elem_of_waiting;
      (split_and!; [done|rewrite dom_insert; set_solver|done]). }
  pose proof (last_one y queue deg N' result Hinv Hlast) as Hall. split.
  - destruct queue as [|q queue]; [done|].
    pose proof (ki_nodup _ _ _ _ _ Hinv) as Hnd.
    assert (deg !! q = Some 0) as Hq
      by (apply (ki_zero _ _ _ _ _ Hinv), elem_of_app; right; right; left).
    rewrite (ki_deg _ _ _ _ _ Hinv) in Hq. destruct (N !! q) eqn:HNq; [|done].
    apply NoDup_app in Hnd as (_ & Hdis & [Hyq _]%NoDup_cons).
    destruct (Hall q) as [Hqr| ->]; [apply elem_of_dom; eauto| |].
    + by destruct (Hdis q Hqr); right; left.
    + by destruct Hyq; left.
  - apply NoDup_all_equal; [apply Hpar1|done|]. intros p Hp.
    apply (proj2 (Hpar1 y)) in Hp as (m & Hp & Hy & _).
    destruct (decide (p = c)) as [|Hne]; [done|]. rewrite lookup_insert_ne in Hp by done.
    destruct (Hall p) as [Hpr| ->]; [apply elem_of_dom; eauto| |].
    + destruct Hyr. eapply (kahn_closed N); [exact Hinv|done|done|done|].
      apply elem_of_dom. eauto.
    + destruct Hacyclic as [rank Hrank]. simplify_eq.
      assert (rank y < rank y); [|lia]. eapply Hrank; eauto. apply elem_of_dom. eauto.
Qed.

Lemma queues_match_step y queue deg deg1 N' N1' result :
  kahn_inv N (y :: queue) deg N' result → kahn_inv N1 (y :: queue) deg1 N1' result →
  c ∉ y :: queue →
  queues_match
    (queue ++ filter (λ p, deg !! p = Some 1) (default [] (po !! y)))
    (queue ++ filter (λ p, deg1 !! p = Some 1) (default [] (po1 !! y))).
Proof.
  intros Hinv Hinv1 Hc.
  assert (filter (λ p, deg !! p = Some 1) (default [] (po !! y)) =
          filter (λ p, p ≠ c) (filter (λ p, deg1 !! p = Some 1) (default [] (po1 !! y)))) as Hf.
  { rewrite Hpo, !list_filter_filter. apply filter_ext_in. intros p _.
    pose proof (counters_insert _ _ _ _ _ _ _ p Hinv Hinv1) as Heq.
    split; intros [? ?]; (split; [|]); try done; [by rewrite Heq|by rewrite <- Heq]. }
  rewrite Hf. clear Hf.
  destruct (decide (c ∈ filter (λ p, deg1 !! p = Some 1) (default [] (po1 !! y)))) as [Hin|Hin].
  - apply list_elem_of_filter in Hin as [Hdc Hcp].
    destruct (only_new_parent y queue deg deg1 N' N1' result) as [-> ->]; try done.
    rewrite !filter_cons, decide_True by done. rewrite filter_cons, decide_False by tauto.
    apply qm_last.
  - rewrite list_filter_all.
    + apply qm_same. rewrite elem_of_app. intros [?|?]; [|done]. by destruct Hc; right.
    + apply Forall_forall. intros p Hp ->. done.
Qed.

Lemma runs_match fuel queue queue1 deg deg1 N' N1' result l :
  kahn_inv N queue deg N' result → kahn_inv N1 queue1 deg1 N1' result →
  queues_match queue queue1 → kahn fuel po queue deg N' result = Some l →
  kahn (Datatypes.S fuel) po1 queue1 deg1 N1' result = Some (l ++ [(c, n)]).
Proof.
  revert queue queue1 deg deg1 N' N1' result.
  induction fuel as [|fuel IH]; intros queue queue1 deg deg1 N' N1' result Hinv Hinv1 Hq; [done|].
  destruct Hq as [[|y queue] Hc|].
  - (* both queues empty: the new node would have been released *)
    exfalso. pose proof (kahn_complete N deg N' result Hacyclic Hinv) as Hall.
    assert (deg1 !! c = Some 0) as Hzero.
    { rewrite (ki_deg _ _ _ _ _ Hinv1), lookup_insert_eq. simpl. f_equal.
      apply size_empty_iff. intros x. rewrite elem_of_waiting. set_solver. }
    apply (ki_zero _ _ _ _ _ Hinv1) in Hzero. rewrite app_nil_r in Hzero.
    apply list_elem_of_fmap in Hzero as ([c' m] & Heq & Hm%(ki_result _ _ _ _ _ Hinv)).
    simpl in Heq. congruence.
  - destruct (kahn_step N po Hpar y queue deg N' result Hinv)
      as (deg' & queue' & m & Hrel & Hq' & Hm & Hinv').
    destruct (kahn_step N1 po1 Hpar1 y queue deg1 N1' result Hinv1)
      as (deg1' & queue1' & m1 & Hrel1 & Hq1' & Hm1 & Hinv1').
    assert (m1 = m) as ->.
    { rewrite (ki_rest _ _ _ _ _ Hinv) in Hm. rewrite (ki_rest _ _ _ _ _ Hinv1) in Hm1.
      case_decide; [done|]. rewrite lookup_insert_ne in Hm1; [congruence|].
      intros <-. apply Hc. left. }
    subst queue' queue1'. rewrite !kahn_cons.
    rewrite Hrel, Hrel1. option_step. rewrite Hm, Hm1. option_step.
    apply (IH _ _ _ _ _ _ _ Hinv' Hinv1'). by eapply queues_match_step.
  - intros [= <-].
    destruct (kahn_step N1 po1 Hpar1 c [] deg1 N1' result Hinv1)
      as (deg1' & queue1' & m1 & Hrel1 & Hq1' & Hm1 & Hinv1').
    assert (m1 = n) as ->.
    { rewrite (ki_rest _ _ _ _ _ Hinv1) in Hm1. case_decide; [done|].
      rewrite lookup_insert_eq in Hm1. congruence. }
    rewrite no_parents in Hrel1, Hq1'. rewrite kahn_cons, no_parents, Hrel1. option_step.
    rewrite Hm1. option_step. by rewrite Hq1'.
Qed.
End runs.

(** Without old nodes the new one has no children, and only then. *)
Lemma no_children_no_nodes : children n = ∅ → N = ∅.
Proof.
  intros He. apply dom_empty_inv_L. destruct (decide (dom N = ∅)) as [|Hne]; [done|].
  destruct Hacyclic as [rank Hrank].
  destruct (max_rank_exists rank (dom N) Hne) as (x & Hx & Hmax).
  destruct (Hcover x Hx) as [Hch|(y & m & Hy & Hch)]; [set_solver|].
  pose proof (Hrank y m x Hy Hch Hx). assert (y ∈ dom N) as Hyd by (apply elem_of_dom; eauto).
  specialize (Hmax y Hyd). lia.
Qed.

Lemma queues_match_init deg deg1 :
  (∀ x, deg !! x = (λ n, size (children n ∩ dom N)) <$> N !! x) →
  (∀ x, deg1 !! x = (λ n, size (children n ∩ dom N1)) <$> N1 !! x) →
  queues_match (filter (λ x, deg !! x = Some 0) (sorted_keys ord_le deg))
               (filter (λ x, deg1 !! x = Some 0) (sorted_keys ord_le deg1)).
Proof.
  intros Hd Hd1.
  assert (∀ x, x ≠ c → deg1 !! x = deg !! x) as Heq.
  { intros x Hne. rewrite Hd, Hd1, lookup_insert_ne by done.
    destruct (N !! x) as [m|] eqn:Hx; [simpl|done]. do 2 f_equal. rewrite dom_insert_L.
    pose proof (Hnotchild x m Hx). set_solver. }
  assert (deg !! c = None) as Hdc by (by rewrite Hd, Hfresh).
  assert (deg1 !! c = Some (size (children n))) as Hdc1.
  { rewrite Hd1, lookup_insert_eq. simpl. do 2 f_equal. rewrite dom_insert_L. set_solver. }
  rewrite (sorted_keys_remove deg deg1 c).
  2: { intros x. destruct (decide (x = c)) as [->|Hne]; [|rewrite Heq by done; tauto].
       rewrite Hdc. split; [by intros []|tauto]. }
  destruct (decide (children n = ∅)) as [He|Hne].
  - rewrite (NoDup_all_equal (filter (λ x, deg1 !! x = Some 0) _) c).
    + replace (filter _ (filter _ _)) with ([] : list D); [apply qm_last|].
      symmetry. apply list_filter_none. intros x Hx. rewrite Hd, no_children_no_nodes, lookup_empty by done. done.
    + apply NoDup_filter, NoDup_sorted_keys.
    + apply list_elem_of_filter. rewrite elem_of_sorted_keys, Hdc1, He, size_empty. eauto.
    + intros x [Hx _]%list_elem_of_filter. destruct (decide (x = c)) as [|Hxc]; [done|].
      rewrite Heq, Hd, no_children_no_nodes, lookup_empty in Hx by done. done.
  - rewrite list_filter_filter.
    replace (filter (λ x, deg1 !! x = Some 0) (sorted_keys ord_le deg1))
      with (filter (λ x, deg !! x = Some 0 ∧ x ≠ c) (sorted_keys ord_le deg1)).
    + apply qm_same. intros [[_ ?] _]%list_elem_of_filter. done.
    + apply filter_ext_in. intros x _. split.
      * intros [? ?]. by rewrite Heq.
      * intros Hx. assert (x ≠ c) as Hxc; [|by rewrite <- Heq].
        intros ->. rewrite Hdc1 in Hx. injection Hx as Hx%size_empty_inv. by apply Hne, leibniz_equiv.
Qed.

(** The order of the old nodes does not change, and the new node comes last. *)
Lemma topological_sort_snoc l :
  topological_sort N = Some l → topological_sort N1 = Some (l ++ [(c, n)]).
Proof.
  unfold topological_sort.
  destruct (foldl (degree_step (dom N)) (∅, ∅) (btree_iter N)) as [deg po] eqn:Hf.
  destruct (foldl (degree_step (dom N1)) (∅, ∅) (btree_iter N1)) as [deg1 po1] eqn:Hf1.
  pose proof (degrees_spec N) as [Hd Hp]. pose proof (degrees_spec N1) as [Hd1 Hp1].
  rewrite Hf in Hd, Hp. rewrite Hf1 in Hd1, Hp1. simpl in Hd, Hp, Hd1, Hp1.
  apply kahn_inv_init in Hf as [Hpar Hinv]. apply kahn_inv_init in Hf1 as [Hpar1 Hinv1].
  rewrite map_size_insert_None by done. intros Hk.
  eapply runs_match; [exact Hpar|exact Hpar1|by apply parents_insert|exact Hinv|exact Hinv1| |exact Hk].
  by apply queues_match_init.
Qed.
End on_top.

(** [topological_sort] never panics.  Whatever map it is given, it returns each
    node at most once, unchanged, and never before a child that is also in the
    map; on a map without cycles it returns all of it. *)
Theorem topological_sort_spec N :
  ∃ l, topological_sort N = Some l ∧ NoDup l.*1 ∧
    (∀ c n, (c, n) ∈ l → N !! c = Some n) ∧ causal N l ∧
    (acyclic N → l ≡ₚ map_to_list N).
Proof.
  destruct (topological_sort_inv N) as (l & deg & N' & Hl & Hinv).
  exists l. split_and!; [done| |apply Hinv|apply Hinv|by intros; eapply kahn_permutation].
  rewrite <- (app_nil_r l.*1). apply Hinv.
Qed.
End Kahn.
