(* ===== verification/CrdtSync.v ===== *)
(** * merkle-crdt: the Merkle-Clock and its traversals

    [support/merkle-crdt/src/clock.rs] and [fetch_missing] of [sync.rs].  Each
    traversal is a loop over a stack or queue of identifiers with a set of those
    already visited, the [worklist] of Worklist.v, and is given by the body it runs
    on an identifier visited for the first time.  The loops take fuel and return
    [None] when it runs out; [worklist_total] bounds the fuel they need by the
    number of edges stored.

    Content addressing rests on the hash function: [CollisionFree] says, of the
    nodes that ever occur, that two with the same identifier are equal and that
    identifiers do not form cycles.  It gives every identifier one history
    ([ancestor]), whatever store it is read from. *)

From S2P Require Import Prelude Worklist Bytes CrdtCodec CrdtDag CrdtOrder.

(** ** The clock *)

Record MerkleClock (D : Type) `{!Hasher D} := mkClock { roots : gset D }.
Arguments mkClock {D _} _.
Arguments roots {D _} _.

Section Clock.
Context {D P S E : Type} `{!Hasher D} `{Encode P} `{!Store D P S E}.
Abbreviation Node := (DagNode D P).
Implicit Types (k : MerkleClock D) (s : S).

Definition clock_new : MerkleClock D := mkClock ∅.

(** A failed write leaves the clock as it is. *)
Definition record k (p : P) s : MerkleClock D * S * result (Error E) D :=
  let n := mkNode p (roots k) in
  let c := cid n in
  match put s c n with
  | (s, Ok _) => (mkClock {[c]}, s, Ok c)
  | (s, Err e) => (k, s, Err (StoreError e))
  end.

Definition add_roots k (rs : list D) : MerkleClock D := mkClock (roots k ∪ list_to_set rs).

(** [store.get(&cid)?.ok_or(MissingNode)?] and the check of the identifier. *)
Definition get_verified s (c : D) : result (Error E) Node :=
  match get s c with
  | Err e => Err (StoreError e)
  | Ok None => Err MissingNode
  | Ok (Some n) => if decide (cid n = c) then Ok n else Err InvalidCid
  end.

(** A [Vec] used as a stack is popped from its end. *)
Definition stack_of (rs : gset D) : list D := reverse (sorted_elements ord_le rs).

(** The loop over the children of a node in [compact_roots]: it returns from the
    function as soon as all candidates but one are subsumed. *)
Fixpoint compact_children (candidates : gset D) (target_count : nat) (visited : gset D)
    (kids : list D) (stack : list D) (subsumed : gset D) : flow (list D * gset D) (gset D) :=
  match kids with
  | [] => Continue (stack, subsumed)
  | child :: kids =>
      let inserted := bool_decide (child ∈ candidates ∧ child ∉ subsumed) in
      let subsumed := if inserted then {[child]} ∪ subsumed else subsumed in
      if inserted && (target_count - 1 <=? size subsumed) then Return (candidates ∖ subsumed) else
      let stack := if decide (child ∈ visited) then stack else child :: stack in
      compact_children candidates target_count visited kids stack subsumed
  end.

Definition compact_body s (candidates : gset D) (c : D) (visited : gset D) (stack : list D)
    (subsumed : gset D) : flow (list D * gset D) (result (Error E) (gset D)) :=
  match get_verified s c with
  | Err e => Return (Err e)
  | Ok n =>
      match compact_children candidates (size candidates) visited (children_list n) stack subsumed with
      | Continue next => Continue next
      | Return rs => Return (Ok rs)
      end
  end.

Definition compact_roots (fuel : nat) k s : option (result (Error E) (MerkleClock D)) :=
  if size (roots k) <=? 1 then Some (Ok k) else
  let candidates := roots k in
  match worklist (compact_body s candidates) fuel (stack_of candidates) ∅ ∅ with
  | None => None
  | Some (Return (Err e)) => Some (Err e)
  | Some (Return (Ok rs)) => Some (Ok (mkClock rs))
  | Some (Continue (_, subsumed)) => Some (Ok (mkClock (candidates ∖ subsumed)))
  end.

(** [merge]: the clock is replaced only if compaction succeeds. *)
Definition merge (fuel : nat) k (remote_roots : gset D) s
    : option (MerkleClock D * result (Error E) unit) :=
  match compact_roots fuel (mkClock (roots k ∪ remote_roots)) s with
  | None => None
  | Some (Ok staged) => Some (staged, Ok tt)
  | Some (Err e) => Some (k, Err e)
  end.

(** [walk]: an entry without a node is entered, one with a node is visited.  The
    visitor's calls are the list of what it was called with. *)
Fixpoint walk_loop (fuel : nat) s (stack : list (D * option Node)) (visited : gset D)
    (calls : list (D * Node)) : option (result (Error E) (list (D * Node))) :=
  match fuel with
  | O => None
  | Datatypes.S fuel =>
      match stack with
      | [] => Some (Ok calls)
      | (c, Some n) :: stack => walk_loop fuel s stack visited (calls ++ [(c, n)])
      | (c, None) :: stack =>
          if decide (c ∈ visited) then walk_loop fuel s stack visited calls else
          let visited := {[c]} ∪ visited in
          match get_verified s c with
          | Err e => Some (Err e)
          | Ok n =>
              let stack := (c, Some n) :: stack in
              let stack := foldl (λ stack child,
                  if decide (child ∈ visited) then stack else (child, None) :: stack)
                stack (reverse (children_list n)) in
              walk_loop fuel s stack visited calls
          end
      end
  end.

Definition walk (fuel : nat) (root : D) s : option (result (Error E) (list (D * Node))) :=
  walk_loop fuel s [(root, None)] ∅ [].
End Clock.

(** ** Anti-entropy *)

Inductive SyncError (L R : Type) :=
| SyncLocal (e : L) | SyncRemote (e : R) | SyncMissingNode | SyncInvalidCid | SyncInvalidAuthor.
Arguments SyncLocal {L R} _.
Arguments SyncRemote {L R} _.
Arguments SyncMissingNode {L R}.
Arguments SyncInvalidCid {L R}.
Arguments SyncInvalidAuthor {L R}.

Section Fetch.
Context {D P SL EL SR ER : Type} `{!Hasher D} `{Encode P}.
Context `{!Store D P SL EL} `{!Store D P SR ER}.
Abbreviation Node := (DagNode D P).

(** The queue is popped at its front and extended at its back. *)
Definition fetch_body (local : SL) (remote : SR) (c : D) (_ : gset D) (queue : list D)
    (missing : gmap D Node)
    : flow (list D * gmap D Node) (SyncError EL ER) :=
  match contains (P := P) local c with
  | Err e => Return (SyncLocal e)
  | Ok true => Continue (queue, missing)
  | Ok false =>
      match get remote c with
      | Err e => Return (SyncRemote e)
      | Ok None => Return SyncMissingNode
      | Ok (Some n) =>
          if decide (cid n = c)
          then Continue (queue ++ children_list n, <[c := n]> missing)
          else Return SyncInvalidCid
      end
  end.

(** [None] also stands for a panic of [topological_sort]. *)
Definition fetch_missing (fuel : nat) (root : D) (local : SL) (remote : SR)
    : option (result (SyncError EL ER) (list (D * Node))) :=
  match worklist (fetch_body local remote) fuel [root] ∅ ∅ with
  | None => None
  | Some (Return e) => Some (Err e)
  | Some (Continue (_, missing)) =>
      if decide (missing = ∅) then Some (Ok []) else
      match topological_sort missing with
      | Some l => Some (Ok l)
      | None => None
      end
  end.
End Fetch.

(** ** Histories *)

(** The nodes that ever occur ([genuine]): the identifier determines the node, and
    a node's children were there before it. *)
Class CollisionFree {D P : Type} `{!Hasher D, Encode P} (genuine : DagNode D P → Prop) := {
  cf_inj n m : genuine n → genuine m → cid n = cid m → n = m;
  cf_rank : D → nat;
  cf_rank_lt n x : genuine n → x ∈ children n → cf_rank x < cf_rank (cid n);
}.

Section History.
Context {D P : Type} `{!Hasher D, Encode P}.
Abbreviation Node := (DagNode D P).
Context (genuine : Node → Prop) `{!CollisionFree genuine}.
Implicit Types (σ : gmap D Node) (R : gset D).

(** [x] is a child of the node called [c]. *)
Definition child_of (x c : D) : Prop :=
  ∃ n, genuine n ∧ cid n = c ∧ x ∈ children n.

(** The history of a set of roots: the roots and everything below them. *)
Inductive ancestor R : D → Prop :=
| anc_root c : c ∈ R → ancestor R c
| anc_child c x : ancestor R c → child_of x c → ancestor R x.

(** Strictly below some root. *)
Definition below R (x : D) : Prop := ∃ c, ancestor R c ∧ child_of x c.

Lemma child_of_rank x c : child_of x c → cf_rank x < cf_rank c.
Proof. intros (n & Hg & <- & Hx). by apply cf_rank_lt. Qed.

Lemma ancestor_rank R c : ancestor R c → ∃ r, r ∈ R ∧ ancestor {[r]} c ∧ cf_rank c ≤ cf_rank r.
Proof.
  induction 1 as [c Hc|c x Hc (r & Hr & Hrc & Hle) Hx].
  - exists c. split_and!; [done|apply anc_root; set_solver|done].
  - exists r. split_and!; [done|by eapply anc_child|]. apply child_of_rank in Hx. lia.
Qed.

Lemma below_rank R x : below R x → ∃ r, r ∈ R ∧ ancestor {[r]} x ∧ cf_rank x < cf_rank r.
Proof.
  intros (c & (r & Hr & Hrc & Hle)%ancestor_rank & Hx). exists r.
  split_and!; [done|by eapply anc_child|]. apply child_of_rank in Hx. lia.
Qed.

Lemma ancestor_trans R R' c :
  (∀ r, r ∈ R → ancestor R' r) → ancestor R c → ancestor R' c.
Proof. intros HR. induction 1; [auto|by eapply anc_child]. Qed.

Lemma ancestor_mono R R' c : R ⊆ R' → ancestor R c → ancestor R' c.
Proof. intros HR. apply ancestor_trans. intros r Hr. apply anc_root. set_solver. Qed.

Lemma ancestor_union R R' c : ancestor (R ∪ R') c ↔ ancestor R c ∨ ancestor R' c.
Proof.
  split; [|intros [H1|H1]; revert H1; apply ancestor_mono; set_solver].
  induction 1 as [c [?|?]%elem_of_union|c x _ [?|?] Hx];
    [left; by apply anc_root|right; by apply anc_root|left|right]; by eapply anc_child.
Qed.

Lemma root_or_below R x : ancestor R x → x ∈ R ∨ below R x.
Proof. destruct 1 as [c Hc|c x Hc Hx]; [by left|right]. by exists c. Qed.

(** The heads of a history are what is not below anything in it. *)
Definition heads R : Prop := ∀ x, x ∈ R → ¬ below R x.

Lemma heads_unique R R' :
  heads R → heads R' → (∀ c, ancestor R c ↔ ancestor R' c) → R = R'.
Proof.
  intros HR HR' Heq. apply set_eq. intros x. split; intros Hx.
  - destruct (root_or_below R' x) as [|(c & Hc & Hxc)]; [by apply Heq, anc_root|done|].
    destruct (HR x Hx). exists c. by rewrite Heq.
  - destruct (root_or_below R x) as [|(c & Hc & Hxc)]; [by apply Heq, anc_root|done|].
    destruct (HR' x Hx). exists c. by rewrite <- Heq.
Qed.

(** ** Histories in a store *)

(** What a store holds under its own identifier. *)
Definition verified σ (c : D) : option Node :=
  n ← σ !! c; if decide (cid n = c) then Some n else None.

Definition kids σ (c : D) : option (gset D) := children <$> verified σ c.

Definition genuine_store σ : Prop := ∀ c n, verified σ c = Some n → genuine n.

Lemma verified_Some σ c n : verified σ c = Some n ↔ σ !! c = Some n ∧ cid n = c.
Proof.
  unfold verified. destruct (σ !! c) as [m|]; simpl; [|naive_solver].
  case_decide; naive_solver.
Qed.

Lemma genuine_child σ c n x :
  genuine_store σ → verified σ c = Some n → x ∈ children n → child_of x c.
Proof.
  intros Hg Hv Hx. exists n. split_and!; [by eapply Hg| |done].
  by apply verified_Some in Hv as [_ ?].
Qed.

Lemma reach_ancestor σ R c :
  genuine_store σ → reach (kids σ) R c → ancestor R c.
Proof.
  intros Hg. induction 1 as [c Hc|c ks x _ IH Hk Hx]; [by apply anc_root|].
  unfold kids in Hk. destruct (verified σ c) as [n|] eqn:Hv; [|done].
  injection Hk as <-. eapply anc_child; [done|]. by eapply genuine_child.
Qed.

Lemma genuine_child_inv σ c n x :
  genuine_store σ → verified σ c = Some n → child_of x c → x ∈ children n.
Proof.
  intros Hg Hv (m & Hm & Hc & Hx). pose proof Hv as [_ Hn]%verified_Some.
  replace n with m; [done|]. apply cf_inj; [done|by eapply Hg|congruence].
Qed.

Lemma ancestor_reach σ R c :
  genuine_store σ → (∀ x, reach (kids σ) R x → is_Some (kids σ x)) →
  ancestor R c → reach (kids σ) R c.
Proof.
  intros Hg Hall. induction 1 as [c Hc|c x _ IH Hx]; [by apply reach_root|].
  destruct (Hall c IH) as [ks Hk]. eapply reach_next; [done|done|].
  unfold kids in Hk. destruct (verified σ c) as [n|] eqn:Hv; [|done].
  injection Hk as <-. by eapply genuine_child_inv.
Qed.

(** The nodes of a history, as a map. *)
Definition history R σ : Prop :=
  (∀ c n, σ !! c = Some n ↔ ancestor R c ∧ genuine n ∧ cid n = c) ∧
  ∀ c, ancestor R c → is_Some (σ !! c).

Lemma history_unique R R' σ σ' :
  (∀ c, ancestor R c ↔ ancestor R' c) → history R σ → history R' σ' → σ = σ'.
Proof.
  intros Heq [H1 _] [H2 _]. apply map_eq. intros c. apply option_eq. intros n.
  by rewrite H1, H2, Heq.
Qed.

Lemma history_acyclic R σ : history R σ → acyclic σ.
Proof.
  intros [H1 _]. exists cf_rank. intros c n x (_ & Hg & <-)%H1 Hx _. by apply cf_rank_lt.
Qed.
End History.

(** ** The clock against histories *)

Section ClockSpec.
Context {D P S E : Type} `{!Hasher D} `{Encode P} `{!Store D P S E} `{!StoreLaws D P S E}.
Abbreviation Node := (DagNode D P).
Context (genuine : Node → Prop) `{!CollisionFree genuine}.
Implicit Types (k : MerkleClock D) (s : S).

Lemma get_verified_Ok s c n : get_verified s c = Ok n → verified (abs s) c = Some n.
Proof.
  unfold get_verified. destruct (get s c) as [[m|]|e] eqn:Hg; try done.
  apply get_abs in Hg. case_decide; [|done]. intros [= <-]. by apply verified_Some.
Qed.

Lemma elem_of_stack_of R x : x ∈ stack_of R ↔ x ∈ R.
Proof. unfold stack_of. by rewrite elem_of_reverse, elem_of_sorted_elements. Qed.

Lemma list_to_set_stack_of R : list_to_set (stack_of R) = R.
Proof. apply set_eq. intros x. by rewrite elem_of_list_to_set, elem_of_stack_of. Qed.

Lemma length_stack_of R : length (stack_of R) = size R.
Proof. unfold stack_of. rewrite length_reverse. by rewrite sorted_elements_perm. Qed.

Lemma compact_children_Continue cand t vis ks stack sub stack' sub' :
  compact_children cand t vis ks stack sub = Continue (stack', sub') →
  (∀ x, x ∈ stack' ↔ x ∈ stack ∨ x ∈ ks ∧ x ∉ vis) ∧
  (∀ x, x ∈ sub' ↔ x ∈ sub ∨ x ∈ ks ∧ x ∈ cand) ∧
  length stack' ≤ length stack + length ks.
Proof.
  revert stack sub. induction ks as [|x ks IH]; intros stack sub; simpl.
  { intros [= <- <-]. set_solver by lia. }
  set (sub1 := if bool_decide (x ∈ cand ∧ x ∉ sub) then {[x]} ∪ sub else sub).
  assert (∀ y, y ∈ sub1 ↔ y ∈ sub ∨ y = x ∧ y ∈ cand) as Hsub.
  { intros y. unfold sub1. case_bool_decide as Hin; [set_solver|].
    destruct (decide (x ∈ sub)); naive_solver. }
  clearbody sub1. destruct (_ && _); [done|]. intros (H1 & H2 & H3)%IH. split_and!.
  - intros y. rewrite H1. destruct (decide (x ∈ vis)); set_solver.
  - intros y. rewrite H2, Hsub. set_solver.
  - destruct (decide (x ∈ vis)); simpl in *; lia.
Qed.

Lemma compact_children_Return cand t vis ks stack sub rs :
  compact_children cand t vis ks stack sub = Return rs →
  ∃ sub', rs = cand ∖ sub' ∧ t - 1 ≤ size sub' ∧
    ∀ x, x ∈ sub' → x ∈ sub ∨ x ∈ ks ∧ x ∈ cand.
Proof.
  revert stack sub. induction ks as [|x ks IH]; intros stack sub; simpl; [done|].
  set (sub1 := if bool_decide (x ∈ cand ∧ x ∉ sub) then {[x]} ∪ sub else sub).
  assert (∀ y, y ∈ sub1 → y ∈ sub ∨ y = x ∧ y ∈ cand) as Hsub.
  { intros y. unfold sub1. case_bool_decide; set_solver. }
  clearbody sub1. destruct (_ && _) eqn:Hb.
  - intros [= <-]. exists sub1. apply andb_prop in Hb as [_ Hle%Nat.leb_le].
    split_and!; [done|done|]. intros y Hy%Hsub. set_solver.
  - intros (sub' & -> & Hle & Hs)%IH. exists sub'. split_and!; [done|done|].
    intros y [Hy%Hsub|Hy]%Hs; set_solver.
Qed.

Lemma compact_body_explores s cand : explores (compact_body s cand) (kids (abs s)).
Proof.
  intros c vis stack sub stack' sub' Hc. unfold compact_body.
  destruct (get_verified s c) as [n|e] eqn:Hg; [|done].
  apply get_verified_Ok in Hg. destruct (compact_children _ _ _ _ _ _) as [[st su]|] eqn:Hcc; [|done].
  intros [= <- <-]. apply compact_children_Continue in Hcc as (H1 & _ & _).
  exists (children n). unfold kids. rewrite Hg. split; [done|]. split_and!.
  - intros x [?|[?%elem_of_children_list _]]%H1; auto.
  - intros x Hx. apply H1. by left.
  - intros x Hx. destruct (decide (x ∈ vis)); [by left|right].
    apply H1. right. by rewrite elem_of_children_list.
Qed.

Lemma kids_child σ c ks x :
  genuine_store genuine σ → kids σ c = Some ks → x ∈ ks → child_of genuine x c.
Proof.
  intros Hg. unfold kids. destruct (verified σ c) as [n|] eqn:Hv; [|done].
  intros [= <-]. by eapply genuine_child.
Qed.

Lemma kids_child_inv σ c ks x :
  genuine_store genuine σ → kids σ c = Some ks → child_of genuine x c → x ∈ ks.
Proof.
  intros Hg. unfold kids. destruct (verified σ c) as [n|] eqn:Hv; [|done].
  intros [= <-]. by eapply genuine_child_inv.
Qed.

(** What the loop of [compact_roots] finds: all candidates below another when it
    runs to its end, all but one when it stops early. *)
Lemma compact_loop_spec fuel (R : gset D) s r :
  genuine_store genuine (abs s) →
  worklist (compact_body s R) fuel (stack_of R) ∅ ∅ = Some r →
  match r with
  | Continue (_, sub) => ∀ x, x ∈ sub ↔ x ∈ R ∧ below genuine R x
  | Return (Ok rs) => ∃ sub, rs = R ∖ sub ∧ size R - 1 ≤ size sub ∧
                        ∀ x, x ∈ sub → x ∈ R ∧ below genuine R x
  | Return (Err _) => True
  end.
Proof.
  intros Hg Hw.
  set (seen (vis : gset D) x := ∃ c ks, c ∈ vis ∧ kids (abs s) c = Some ks ∧ x ∈ ks).
  eapply (worklist_explores _ _ (λ vis sub, ∀ x, x ∈ sub ↔ x ∈ R ∧ seen vis x)
    (λ res, match res with
            | Ok rs => ∃ sub, rs = R ∖ sub ∧ size R - 1 ≤ size sub ∧
                         ∀ x, x ∈ sub → x ∈ R ∧ below genuine R x
            | Err _ => True
            end)) in Hw; [| apply compact_body_explores| | |unfold seen; set_solver].
  - rewrite list_to_set_stack_of in Hw. destruct r as [[vis sub]|res]; [|by destruct res].
    destruct Hw as (HJ & Hvis & Hall). intros x. rewrite HJ.
    split; intros [Hx Hb]; (split; [done|]).
    + destruct Hb as (c & ks & Hc & Hk & Hxk). exists c. split; [|by eapply kids_child].
      by apply (reach_ancestor _ (abs s)), Hvis.
    + destruct Hb as (c & Hc & Hxc). assert (c ∈ vis) as Hcv.
      { apply Hvis. apply (ancestor_reach genuine); [done| |done].
        intros y Hy. by apply Hall, Hvis. }
      destruct (Hall c Hcv) as [ks Hk]. exists c, ks. split_and!; [done|done|].
      by eapply kids_child_inv.
  - intros vis c w sub w' sub' HJ _ Hc. unfold compact_body.
    destruct (get_verified s c) as [n|] eqn:Hv; [|done]. apply get_verified_Ok in Hv.
    assert (kids (abs s) c = Some (children n)) as Hk by (unfold kids; by rewrite Hv).
    destruct (compact_children _ _ _ _ _ _) as [[st su]|] eqn:Hcc; [|done].
    intros [= <- <-]. apply compact_children_Continue in Hcc as (_ & H2 & _).
    intros x. rewrite H2, HJ, elem_of_children_list. unfold seen. set_solver.
  - rewrite list_to_set_stack_of. intros vis c w sub res HJ Hvr Hrc _. unfold compact_body.
    destruct (get_verified s c) as [n|] eqn:Hv; [|by intros [= <-]]. apply get_verified_Ok in Hv.
    destruct (compact_children _ _ _ _ _ _) as [[st su]|rs] eqn:Hcc; [done|].
    intros [= <-]. apply compact_children_Return in Hcc as (sub' & -> & Hle & Hs).
    exists sub'. split_and!; [done|done|]. intros x [Hx|[Hx HxR]]%Hs.
    + apply HJ in Hx as [HxR (c' & ks & Hc' & Hk & Hxk)]. split; [done|]. exists c'.
      split; [by apply (reach_ancestor _ (abs s)), Hvr|by eapply kids_child].
    + split; [done|]. exists c. split; [by apply (reach_ancestor _ (abs s))|].
      apply elem_of_children_list in Hx. by eapply genuine_child.
Qed.

(** The candidate of greatest rank is below nothing. *)
Lemma top_root (R : gset D) : R ≠ ∅ → ∃ r, r ∈ R ∧ ¬ below genuine R r.
Proof.
  intros Hne. destruct (max_rank_exists cf_rank R Hne) as (r & Hr & Hmax).
  exists r. split; [done|]. intros (r' & Hr' & _ & Hlt)%(below_rank genuine).
  specialize (Hmax r' Hr'). lia.
Qed.

Lemma below_mono R R' x : R ⊆ R' → below genuine R x → below genuine R' x.
Proof.
  intros HR (c & Hc & Hx). exists c. split; [|done]. revert Hc. by apply ancestor_mono.
Qed.

(** The members of a set that are not subsumed, when at most one is left. *)
Lemma last_candidate (R sub : gset D) x y :
  sub ⊆ R → size R - 1 ≤ size sub → x ∈ R ∖ sub → y ∈ R ∖ sub → x = y.
Proof.
  intros Hs Hle Hx Hy. pose proof (size_difference R sub Hs) as Hsz.
  assert (size (R ∖ sub) ≠ 0) as Hne.
  { intros Hz%size_empty_inv. set_solver. }
  apply (size_singleton_inv (R ∖ sub)); [lia|done|done].
Qed.

Lemma compact_roots_spec fuel k s k' :
  genuine_store genuine (abs s) → compact_roots fuel k s = Some (Ok k') →
  roots k' ⊆ roots k ∧
  ∀ x, x ∈ roots k → (x ∈ roots k' ∧ ¬ below genuine (roots k) x) ∨
                     (x ∉ roots k' ∧ below genuine (roots k) x).
Proof.
  intros Hg. unfold compact_roots. destruct (Nat.leb_spec (size (roots k)) 1) as [Hle|_].
  { intros [= <-]. split; [done|]. intros x Hx. left. split; [done|]. intros (r & Hr & _ & Hlt)%(below_rank genuine).
    assert (x = r) as ->; [|lia]. apply (size_singleton_inv (roots k)); [|done|done].
    assert (size (roots k) ≠ 0); [|lia]. intros Hz%size_empty_inv. set_solver. }
  destruct (worklist _ _ _ _ _) as [res|] eqn:Hw; [|done].
  apply compact_loop_spec in Hw; [|done]. destruct res as [[vis sub]|[rs|e]]; [| |done].
  - intros [= <-]. split; [simpl; set_solver|]. intros x Hx. simpl. destruct (decide (x ∈ sub)) as [Hin|Hin].
    + right. split; [set_solver|]. by apply Hw.
    + left. split; [set_solver|]. intros Hb. by apply Hin, Hw.
  - intros [= <-]. destruct Hw as (sub & -> & Hle & Hs). split; [simpl; set_solver|].
    intros x Hx. simpl.
    destruct (decide (x ∈ sub)) as [Hin|Hin]; [right; split; [set_solver|]; by apply Hs|].
    left. split; [set_solver|].
    destruct (top_root (roots k)) as (r & Hr & Hnb); [set_solver|].
    rewrite (last_candidate (roots k) sub x r); [done|set_solver|done|set_solver|].
    apply elem_of_difference. split; [done|]. by intros [_ ?]%Hs.
Qed.

Lemma compact_roots_heads fuel k s k' :
  genuine_store genuine (abs s) → compact_roots fuel k s = Some (Ok k') →
  heads genuine (roots k').
Proof.
  intros Hg Hk. destruct (compact_roots_spec fuel k s k' Hg Hk) as [Hsub Hx].
  intros x Hin Hb. destruct (Hx x) as [[_ Hnb]|[? _]]; [set_solver| |done].
  apply Hnb. revert Hb. by apply below_mono.
Qed.

(** Compaction does not change the history: what it drops is below what it keeps. *)
Lemma compact_roots_ancestor fuel k s k' c :
  genuine_store genuine (abs s) → compact_roots fuel k s = Some (Ok k') →
  ancestor genuine (roots k') c ↔ ancestor genuine (roots k) c.
Proof.
  intros Hg Hk. destruct (compact_roots_spec fuel k s k' Hg Hk) as [Hsub Hx].
  split; [by apply ancestor_mono|]. apply ancestor_trans.
  destruct (decide (roots k = ∅)) as [->|Hne]; [set_solver|].
  destruct (max_rank_exists cf_rank (roots k) Hne) as (top & _ & Hmax).
  intros r. remember (cf_rank top - cf_rank r) as d eqn:Hd. revert r Hd.
  induction (lt_wf d) as [d _ IH]. intros r -> Hr.
  destruct (Hx r Hr) as [[? _]|[_ (r' & Hr' & Hb & Hlt)%(below_rank genuine)]]; [by apply anc_root|].
  apply (ancestor_trans genuine {[r']}); [|done].
  intros ? ->%elem_of_singleton. pose proof (Hmax r' Hr'). pose proof (Hmax r Hr).
  eapply IH; [|done|done]. lia.
Qed.
End ClockSpec.

(** ** Fetching *)

Section FetchSpec.
Context {D P SL EL SR ER : Type} `{!Hasher D} `{Encode P}.
Context `{!Store D P SL EL, !StoreLaws D P SL EL} `{!Store D P SR ER, !StoreLaws D P SR ER}.
Abbreviation Node := (DagNode D P).
Implicit Types (σ : gmap D Node) (l : list (D * Node)).

(** Every stored node is stored under its identifier, and its children are
    stored too. *)
Definition closed σ : Prop :=
  ∀ c n, σ !! c = Some n → cid n = c ∧ children n ⊆ dom σ.

Lemma closed_empty : closed (∅ : gmap D Node).
Proof. intros c n. by rewrite lookup_empty. Qed.

Lemma closed_insert σ c n :
  closed σ → cid n = c → children n ⊆ dom σ → closed (<[c := n]> σ).
Proof.
  intros Hcl Hc Hn c' n'. rewrite dom_insert. intros [[<- <-]|[_ Hl]]%lookup_insert_Some.
  - set_solver.
  - destruct (Hcl c' n' Hl). set_solver.
Qed.

Lemma put_all_app σ l1 l2 : put_all σ (l1 ++ l2) = put_all (put_all σ l1) l2.
Proof. apply foldl_app. Qed.

Lemma put_all_lookup σ l c :
  NoDup l.*1 →
  put_all σ l !! c = match (list_to_map l : gmap D Node) !! c with Some n => Some n | None => σ !! c end.
Proof.
  revert σ. induction l as [|[c' n] l IH]; intros σ; csimpl; [by rewrite lookup_empty|].
  intros [Hc' Hnd]%NoDup_cons. rewrite IH by done.
  destruct (decide (c = c')) as [->|Hne].
  - rewrite !lookup_insert_eq. by rewrite not_elem_of_list_to_map_1.
  - by rewrite !lookup_insert_ne.
Qed.

Lemma dom_put_all σ l x : x ∈ dom (put_all σ l) ↔ x ∈ dom σ ∨ x ∈ l.*1.
Proof.
  revert σ. induction l as [|[c n] l IH]; intros σ; csimpl; [set_solver|].
  rewrite IH, dom_insert. set_solver.
Qed.

(** Storing a causally ordered list keeps the store closed at every moment: what
    was stored before a failure has its whole history. *)
Lemma put_all_closed σ N l i :
  closed σ → causal N l → (∀ c n, (c, n) ∈ l → cid n = c) →
  (∀ c n x, (c, n) ∈ l → x ∈ children n → x ∈ dom σ ∨ x ∈ dom N) →
  closed (put_all σ (take i l)).
Proof.
  intros Hcl Hcau Hcid Hch. induction i as [|i IH]; [done|].
  destruct (l !! i) as [[c n]|] eqn:Hi.
  - rewrite (take_S_r l i (c, n) Hi), put_all_app. simpl.
    assert ((c, n) ∈ l) as Hin by by eapply list_elem_of_lookup_2.
    apply closed_insert; [done|by apply Hcid|]. intros x Hx. apply dom_put_all.
    destruct (Hch c n x Hin Hx) as [|HN]; [by left|right].
    apply (Hcau (take i l) c n (drop (S i) l)); [|done|done].
    by rewrite take_drop_middle.
  - apply lookup_ge_None in Hi. rewrite take_ge in * by lia. done.
Qed.

(** What [fetch_missing] collects: a local node ends the search. *)
Definition fetch_expand (local remote : gmap D Node) (c : D) : option (gset D) :=
  match local !! c with Some _ => Some ∅ | None => kids remote c end.

Definition fetched (local remote : gmap D Node) (root : D) (missing : gmap D Node) : Prop :=
  (∀ c n, missing !! c = Some n ↔
     reach (fetch_expand local remote) {[root]} c ∧ local !! c = None ∧
     verified remote c = Some n) ∧
  (∀ c, reach (fetch_expand local remote) {[root]} c → local !! c = None → is_Some (missing !! c)).

Lemma fetch_body_explores (local : SL) (remote : SR) :
  explores (fetch_body local remote) (fetch_expand (abs local) (abs remote)).
Proof.
  intros c vis q m q' m' Hc. unfold fetch_body, fetch_expand.
  destruct (contains local c) as [[]|e] eqn:Hct; [| |done]; apply contains_abs in Hct.
  - symmetry in Hct. apply bool_decide_eq_true_1 in Hct as [n Hn]. rewrite Hn.
    intros [= <- <-]. exists ∅. set_solver.
  - symmetry in Hct. apply bool_decide_eq_false_1, eq_None_not_Some in Hct. rewrite Hct.
    destruct (get remote c) as [[n|]|e] eqn:Hg; [|done|done]. apply get_abs in Hg.
    case_decide as Hcid; [|done]. intros [= <- <-]. exists (children n).
    unfold kids. rewrite (proj2 (verified_Some (abs remote) c n)) by done.
    split; [done|]. split_and!; intros x; rewrite ?elem_of_app, ?elem_of_children_list; tauto.
Qed.

Lemma fetch_missing_spec fuel root (local : SL) (remote : SR) l :
  fetch_missing fuel root local remote = Some (Ok l) →
  ∃ missing, fetched (abs local) (abs remote) root missing ∧ topological_sort missing = Some l.
Proof.
  unfold fetch_missing. destruct (worklist _ _ _ _ _) as [r|] eqn:Hw; [|done].
  eapply (worklist_explores _ _ (λ vis m, ∀ c n, m !! c = Some n ↔
      c ∈ vis ∧ abs local !! c = None ∧ verified (abs remote) c = Some n) (λ _, True)) in Hw;
    [|apply fetch_body_explores| |done|by intros; rewrite lookup_empty; set_solver].
  - destruct r as [[vis missing]|e]; [|done]. destruct Hw as (HJ & Hvis & Hall).
    replace (list_to_set [root]) with ({[root]} : gset D) in Hvis by set_solver.
    intros Hres. exists missing. split; [split|].
    + intros c n. by rewrite HJ, Hvis.
    + intros c Hc Hl. destruct (Hall c) as [ks Hk]; [by apply Hvis|].
      unfold fetch_expand in Hk. rewrite Hl in Hk. unfold kids in Hk.
      destruct (verified (abs remote) c) as [n|] eqn:Hv; [|done]. exists n.
      apply HJ. by rewrite Hvis.
    + case_decide as He; [|destruct (topological_sort missing); by simplify_eq].
      subst missing. by injection Hres as <-.
  - intros vis c q m q' m' HJ _ Hc. unfold fetch_body.
    destruct (contains local c) as [[]|e] eqn:Hct; [| |done]; apply contains_abs in Hct; symmetry in Hct.
    + apply bool_decide_eq_true_1 in Hct as [n Hn]. intros [= <- <-] c' n'. rewrite HJ.
      set_solver.
    + apply bool_decide_eq_false_1, eq_None_not_Some in Hct.
      destruct (get remote c) as [[n|]|e] eqn:Hg; [|done|done]. apply get_abs in Hg.
      case_decide as Hcid; [|done]. intros [= <- <-] c' n'.
      pose proof (proj2 (verified_Some (abs remote) c n) (conj (eq_sym Hg) Hcid)) as Hv.
      destruct (decide (c' = c)) as [->|Hne].
      * rewrite lookup_insert_eq, Hv. set_solver.
      * rewrite lookup_insert_ne, HJ by done. set_solver.
Qed.
End FetchSpec.

(** ** Termination *)

Section Termination.
Context {D P : Type} `{!Hasher D} `{Encode P}.
Abbreviation Node := (DagNode D P).
Implicit Types (σ : gmap D Node).

(** The edges that start at [c]. *)
Definition degree σ (c : D) : nat :=
  match verified σ c with Some n => size (children n) | None => 0 end.

(** The edges stored. *)
Definition edges σ : nat := cost_sum (degree σ) (dom σ).

Lemma verified_dom σ c n : verified σ c = Some n → c ∈ dom σ.
Proof. intros [Hl _]%verified_Some. apply elem_of_dom. eauto. Qed.

Lemma degree_verified σ c n : verified σ c = Some n → degree σ c = size (children n).
Proof. unfold degree. by intros ->. Qed.

Lemma cost_sum_zero (cost : D → nat) (X Y : gset D) :
  (∀ c, c ∈ Y → c ∉ X → cost c = 0) → X ⊆ Y → cost_sum cost Y = cost_sum cost X.
Proof.
  intros Hz HXY. rewrite (union_difference_L X Y HXY).
  assert (∀ c, c ∈ Y ∖ X → cost c = 0) as Hz' by set_solver. clear Hz HXY.
  assert (X ## Y ∖ X) as Hd by set_solver. revert Hd Hz'. generalize (Y ∖ X). intros Z.
  unfold cost_sum. induction Z as [|z Z Hz IH] using set_ind_L; intros Hd Hz'.
  { by rewrite (right_id_L ∅ (∪)). }
  replace (X ∪ ({[z]} ∪ Z)) with ({[z]} ∪ (X ∪ Z)) by set_solver.
  rewrite elements_union_singleton by set_solver. simpl.
  rewrite Hz' by set_solver. apply IH; set_solver.
Qed.

Context {S E : Type} `{!Store D P S E, !StoreLaws D P S E}.

(** [compact_roots] ends. *)
Lemma compact_roots_total fuel (k : MerkleClock D) (s : S) :
  size (roots k) + edges (abs s) < fuel → ∃ r, compact_roots fuel k s = Some r.
Proof.
  intros Hfuel. unfold compact_roots. destruct (_ <=? _); [eauto|].
  destruct (worklist_total (compact_body s (roots k)) (degree (abs s)) (dom (abs s)) fuel
    (stack_of (roots k)) ∅ ∅) as [r ->].
  - intros c vis w a w' a'. unfold compact_body.
    destruct (get_verified s c) as [n|] eqn:Hv; [|done]. apply get_verified_Ok in Hv.
    destruct (compact_children _ _ _ _ _ _) as [[st su]|] eqn:Hcc; [|done].
    intros [= <- <-]. apply compact_children_Continue in Hcc as (_ & _ & Hlen).
    rewrite length_children_list in Hlen. rewrite (degree_verified _ _ _ Hv).
    split; [by eapply verified_dom|done].
  - rewrite length_stack_of, difference_empty_L. done.
  - destruct r as [[vis sub]|[rs|e]]; eauto.
Qed.

(** [fetch_missing] ends, whatever the remote replica holds. *)
Lemma fetch_missing_total {SR ER : Type} `{!Store D P SR ER, !StoreLaws D P SR ER}
    fuel root (local : S) (remote : SR) :
  1 + edges (abs remote) < fuel → ∃ r, fetch_missing fuel root local remote = Some r.
Proof.
  intros Hfuel. unfold fetch_missing.
  destruct (worklist_total (fetch_body local remote) (degree (abs remote))
    (dom (abs local) ∪ dom (abs remote)) fuel [root] ∅ ∅) as [r ->].
  - intros c vis q m q' m'. unfold fetch_body.
    destruct (contains local c) as [[]|e] eqn:Hct; [| |done]; apply contains_abs in Hct; symmetry in Hct.
    + apply bool_decide_eq_true_1 in Hct. intros [= <- <-]. split; [|lia].
      apply elem_of_union. left. by apply elem_of_dom.
    + destruct (get remote c) as [[n|]|e] eqn:Hg; [|done|done]. apply get_abs in Hg.
      case_decide as Hcid; [|done]. intros [= <- <-].
      pose proof (proj2 (verified_Some (abs remote) c n) (conj (eq_sym Hg) Hcid)) as Hv.
      rewrite length_app, length_children_list, (degree_verified _ _ _ Hv). split; [|lia].
      apply elem_of_union. right. by eapply verified_dom.
  - rewrite difference_empty_L. unfold edges in Hfuel.
    rewrite (cost_sum_zero (degree (abs remote)) (dom (abs remote))); [done| |set_solver].
    intros c _ Hc. unfold degree. destruct (verified (abs remote) c) eqn:Hv; [|done].
    by apply verified_dom in Hv.
  - destruct r as [[vis missing]|e]; [|eauto]. case_decide; [eauto|].
    destruct (topological_sort_inv missing) as (l & ? & ? & -> & _). eauto.
Qed.
End Termination.

(** ** Walking in causal order *)

Section Walk.
Context {D P S E : Type} `{!Hasher D} `{Encode P} `{!Store D P S E, !StoreLaws D P S E}.
Abbreviation Node := (DagNode D P).
Context (genuine : Node → Prop) `{!CollisionFree genuine}.
Context (s : S) (root : D) (Hgen : genuine_store genuine (abs s)).
Implicit Types (stack : list (D * option Node)) (calls : list (D * Node)).

(** A child of an entry of [calls] comes before it. *)
Definition children_first calls : Prop :=
  ∀ l1 c n l2, calls = l1 ++ (c, n) :: l2 → children n ⊆ list_to_set l1.*1.

Definition exiting stack (c : D) : Prop := ∃ n, (c, Some n) ∈ stack.

Record walk_inv stack (visited : gset D) calls : Prop := {
  wi_visited c : c ∈ visited ↔ c ∈ calls.*1 ∨ exiting stack c;
  wi_calls c n : (c, n) ∈ calls → verified (abs s) c = Some n;
  wi_exits c n : (c, Some n) ∈ stack → verified (abs s) c = Some n;
  wi_nodup : NoDup calls.*1;
  wi_once st1 c n st2 : stack = st1 ++ (c, Some n) :: st2 → c ∉ calls.*1 ∧ ¬ exiting st2 c;
  wi_order : children_first calls;
  wi_above st1 c n st2 x : stack = st1 ++ (c, Some n) :: st2 → x ∈ children n →
    x ∈ calls.*1 ∨ x ∈ st1.*1;
  wi_rank st1 c n st2 x : stack = st1 ++ (c, Some n) :: st2 → x ∈ st1.*1 →
    cf_rank x < cf_rank c;
  wi_from c : c ∈ stack.*1 → ancestor genuine {[root]} c;
  wi_done c : c ∈ calls.*1 → ancestor genuine {[root]} c;
  wi_root : root ∈ calls.*1 ∨ root ∈ stack.*1;
}.

(** The entries pushed on entering a node. *)
Definition pushed (visited : gset D) (kids_ : list D) : list (D * option Node) :=
  (λ x, (x, None)) <$> reverse (filter (λ x, x ∉ visited) kids_).

Lemma push_children (visited : gset D) kids_ stack :
  foldl (λ stack child, if decide (child ∈ visited) then stack else (child, None) :: stack)
    stack kids_ = pushed visited kids_ ++ stack.
Proof.
  revert stack. unfold pushed. induction kids_ as [|x l IH]; intros stack; [done|].
  cbn [foldl]. rewrite IH, filter_cons. destruct (decide (x ∈ visited)) as [Hx|Hx].
  - by rewrite decide_False by tauto.
  - rewrite decide_True by done. rewrite reverse_cons, fmap_app, <- (assoc_L (++)). done.
Qed.

Lemma elem_of_pushed visited kids_ x :
  x ∈ (pushed visited kids_).*1 ↔ x ∈ kids_ ∧ x ∉ visited.
Proof.
  unfold pushed. rewrite <- list_fmap_compose. unfold compose. simpl. rewrite list_fmap_id.
  rewrite elem_of_reverse, list_elem_of_filter. tauto.
Qed.

Lemma pushed_no_exit visited kids_ c (n : Node) : (c, Some n) ∉ pushed visited kids_.
Proof. unfold pushed. rewrite list_elem_of_fmap. by intros (x & ? & _). Qed.

(** An exit marker on the stack after pushing is on the old part of it. *)
Lemma pushed_split visited kids_ stack st1 c (n : Node) st2 :
  pushed visited kids_ ++ stack = st1 ++ (c, Some n) :: st2 →
  ∃ st1', st1 = pushed visited kids_ ++ st1' ∧ stack = st1' ++ (c, Some n) :: st2.
Proof.
  intros Heq. apply app_eq_app in Heq as (l & [[Hp Hs]|[-> ->]]); [|eauto].
  destruct l as [|[c' o] l].
  - simpl in Hs. subst. rewrite app_nil_r in Hp. exists []. by rewrite app_nil_r.
  - simplify_eq/=. exfalso. apply (pushed_no_exit visited kids_ c' n). rewrite Hp.
    apply elem_of_app. right. left.
Qed.

Lemma exiting_cons_None c stack x : exiting ((c, None) :: stack) x ↔ exiting stack x.
Proof.
  unfold exiting. split; intros [n Hn]; exists n; [|by right].
  by apply elem_of_cons in Hn as [?|?].
Qed.

(** What lies on top of the stack is not waiting to be visited below. *)
Lemma walk_top_not_exiting c stack visited calls :
  walk_inv ((c, None) :: stack) visited calls → ¬ exiting stack c.
Proof.
  intros Hinv [n Hn]. apply list_elem_of_split in Hn as (st1 & st2 & ->).
  assert (cf_rank c < cf_rank c); [|lia].
  apply (wi_rank _ _ _ Hinv ((c, None) :: st1) c n st2); [done|]. left.
Qed.

Lemma walk_skip c stack visited calls :
  walk_inv ((c, None) :: stack) visited calls → c ∈ visited → walk_inv stack visited calls.
Proof.
  intros Hinv Hc. assert (c ∈ calls.*1) as Hdone.
  { apply (wi_visited _ _ _ Hinv) in Hc as [?|Hex%exiting_cons_None]; [done|].
    by destruct (walk_top_not_exiting _ _ _ _ Hinv). }
  split; try apply Hinv.
  - intros x. by rewrite (wi_visited _ _ _ Hinv), exiting_cons_None.
  - intros x n Hx. apply (wi_exits _ _ _ Hinv). by right.
  - intros st1 x n st2 ->. by apply (wi_once _ _ _ Hinv ((c, None) :: st1) x n st2).
  - intros st1 x n st2 y -> Hy.
    destruct (wi_above _ _ _ Hinv ((c, None) :: st1) x n st2 y) as [|Hin]; [done|done|by left|].
    apply elem_of_cons in Hin as [->|]; [by left|by right].
  - intros st1 x n st2 y -> Hy. apply (wi_rank _ _ _ Hinv ((c, None) :: st1) x n st2); [done|].
    by right.
  - intros x Hx. apply (wi_from _ _ _ Hinv). by right.
  - destruct (wi_root _ _ _ Hinv) as [|[Heq|]%elem_of_cons]; [by left| |by right].
    left. simpl in Heq. by subst.
Qed.

Lemma walk_exit c n stack visited calls :
  walk_inv ((c, Some n) :: stack) visited calls → walk_inv stack visited (calls ++ [(c, n)]).
Proof.
  intros Hinv. pose proof (wi_exits _ _ _ Hinv c n ltac:(left)) as Hv.
  destruct (wi_once _ _ _ Hinv [] c n stack eq_refl) as [Hcc Hcs].
  assert (∀ x, x ∈ (calls ++ [(c, n)]).*1 ↔ x ∈ calls.*1 ∨ x = c) as Hin.
  { intros x. rewrite fmap_app, elem_of_app. simpl. by rewrite list_elem_of_singleton. }
  split.
  - intros x. rewrite (wi_visited _ _ _ Hinv), Hin. unfold exiting. split.
    + intros [?|[m [Heq|?]%elem_of_cons]]; [by do 2 left| |right; eauto]. left; right. congruence.
    + intros [[?| ->]|[m Hm]]; [by left|right; exists n; left|right; exists m; by right].
  - intros x m [?|Hx%list_elem_of_singleton]%elem_of_app; [by apply Hinv|]. by simplify_eq.
  - intros x m Hx. apply (wi_exits _ _ _ Hinv). by right.
  - rewrite fmap_app. apply NoDup_app. split_and!; [apply Hinv| |apply NoDup_singleton].
    simpl. intros x Hx ->%list_elem_of_singleton. done.
  - intros st1 x m st2 ->.
    destruct (wi_once _ _ _ Hinv ((c, Some n) :: st1) x m st2 eq_refl) as [H1 H2].
    split; [|done]. rewrite Hin. intros [?| ->]; [done|]. apply Hcs. exists m.
    apply elem_of_app. right. left.
  - intros l1 x m l2 Heq. destruct l2 as [|e l2 _] using rev_ind.
    + apply app_inj_tail in Heq as [<- [= <- <-]]. intros y Hy. apply elem_of_list_to_set.
      destruct (wi_above _ _ _ Hinv [] c n stack y eq_refl Hy) as [|?%elem_of_nil]; done.
    + rewrite app_comm_cons, (assoc_L (++)) in Heq. apply app_inj_tail in Heq as [-> _].
      by eapply (wi_order _ _ _ Hinv).
  - intros st1 x m st2 y -> Hy. rewrite Hin.
    destruct (wi_above _ _ _ Hinv ((c, Some n) :: st1) x m st2 y eq_refl Hy)
      as [|[->|?]%elem_of_cons]; [by do 2 left|by left; right|by right].
  - intros st1 x m st2 y -> Hy.
    apply (wi_rank _ _ _ Hinv ((c, Some n) :: st1) x m st2); [done|]. by right.
  - intros x Hx. apply (wi_from _ _ _ Hinv). by right.
  - intros x [?| ->]%Hin; [by apply (wi_done _ _ _ Hinv)|]. apply (wi_from _ _ _ Hinv). left.
  - rewrite Hin. destruct (wi_root _ _ _ Hinv) as [|[Heq|]%elem_of_cons];
      [by do 2 left|by left; right|by right].
Qed.

Section enter.
Context (c : D) (n : Node) (l : list D) (stack : list (D * option Node)) (visited : gset D).
Context (calls : list (D * Node)).
Hypothesis Hinv : walk_inv ((c, None) :: stack) visited calls.
Hypothesis Hfresh : c ∉ visited.
Hypothesis Hver : verified (abs s) c = Some n.
Hypothesis Hl : ∀ x, x ∈ l ↔ x ∈ children n.
Let stack' := pushed ({[c]} ∪ visited) l ++ (c, Some n) :: stack.

Lemma enter_child x : x ∈ children n → child_of genuine x c.
Proof. by eapply genuine_child. Qed.

(** A marker on the new stack is the one of [c] or one that was there before. *)
Lemma enter_split st1 d m st2 :
  stack' = st1 ++ (d, Some m) :: st2 →
  (d = c ∧ m = n ∧ st1 = pushed ({[c]} ∪ visited) l ∧ st2 = stack) ∨
  ∃ st0, st1 = pushed ({[c]} ∪ visited) l ++ (c, Some n) :: st0 ∧
         stack = st0 ++ (d, Some m) :: st2.
Proof.
  intros (st1' & -> & Heq)%pushed_split. destruct st1' as [|e st0]; simplify_eq/=.
  - left. by rewrite app_nil_r.
  - right. eauto.
Qed.

Lemma enter_exiting x : exiting stack' x ↔ x = c ∨ exiting stack x.
Proof.
  unfold exiting, stack'. split.
  - intros [m [?%pushed_no_exit|[?|?]%elem_of_cons]%elem_of_app]; [done| |right; eauto].
    left. congruence.
  - intros [->|[m Hm]]; [exists n|exists m]; apply elem_of_app; right; [left|by right].
Qed.

Lemma enter_seen_child x :
  x ∈ children n → x ∈ {[c]} ∪ visited → x ∈ calls.*1.
Proof.
  intros Hx%enter_child%(child_of_rank genuine) [->%elem_of_singleton|Hv]%elem_of_union; [lia|].
  apply (wi_visited _ _ _ Hinv) in Hv as [?|[m Hm]%exiting_cons_None]; [done|].
  apply list_elem_of_split in Hm as (st1 & st2 & ->).
  assert (cf_rank c < cf_rank x); [|lia].
  apply (wi_rank _ _ _ Hinv ((c, None) :: st1) x m st2); [done|]. left.
Qed.

Lemma walk_enter : walk_inv stack' ({[c]} ∪ visited) calls.
Proof.
  assert (c ∉ calls.*1) as Hcc by (intros Hc; apply Hfresh, (wi_visited _ _ _ Hinv); by left).
  assert (∀ x, x ∈ stack'.*1 ↔ x ∈ children n ∧ x ∉ {[c]} ∪ visited ∨ x = c ∨ x ∈ stack.*1) as Hin.
  { intros x. unfold stack'. rewrite fmap_app, elem_of_app, elem_of_pushed, Hl. simpl.
    by rewrite elem_of_cons. }
  split; try apply Hinv.
  - intros x. rewrite enter_exiting, elem_of_union, elem_of_singleton, (wi_visited _ _ _ Hinv),
      exiting_cons_None. tauto.
  - intros x m [?%pushed_no_exit|[?|?]%elem_of_cons]%elem_of_app; [done|by simplify_eq|].
    apply (wi_exits _ _ _ Hinv). by right.
  - intros st1 d m st2 [(-> & -> & -> & ->)|(st0 & -> & ->)]%enter_split.
    + split; [done|]. by eapply walk_top_not_exiting.
    + by apply (wi_once _ _ _ Hinv ((c, None) :: st0) d m st2).
  - intros st1 d m st2 x [(-> & -> & -> & ->)|(st0 & -> & ->)]%enter_split Hx.
    + destruct (decide (x ∈ {[c]} ∪ visited)); [left; by apply enter_seen_child|right].
      by rewrite elem_of_pushed, Hl.
    + destruct (wi_above _ _ _ Hinv ((c, None) :: st0) d m st2 x eq_refl Hx) as [|Hx']; [by left|].
      right. rewrite fmap_app, elem_of_app. right. done.
  - intros st1 d m st2 x [(-> & -> & -> & ->)|(st0 & -> & ->)]%enter_split.
    + rewrite elem_of_pushed, Hl. intros [Hx _]. by apply (child_of_rank genuine), enter_child.
    + rewrite fmap_app, elem_of_app, elem_of_pushed, Hl.
      pose proof (wi_rank _ _ _ Hinv ((c, None) :: st0) d m st2) as Hr.
      intros [[Hx%enter_child%(child_of_rank genuine) _]|Hx]; [|by apply Hr].
      specialize (Hr c eq_refl ltac:(left)). lia.
  - intros x [[Hx _]|Hx]%Hin.
    + eapply anc_child; [|by apply enter_child]. apply (wi_from _ _ _ Hinv). left.
    + apply (wi_from _ _ _ Hinv). simpl. by rewrite elem_of_cons.
  - rewrite Hin. destruct (wi_root _ _ _ Hinv) as [?|[Heq|?]%elem_of_cons]; [by left|right|right]; auto.
Qed.
End enter.

Lemma walk_loop_inv fuel stack visited calls r :
  walk_inv stack visited calls → walk_loop fuel s stack visited calls = Some (Ok r) →
  ∃ visited', walk_inv [] visited' r.
Proof.
  revert stack visited calls. induction fuel as [|fuel IH]; intros stack visited calls Hinv; simpl; [done|].
  destruct stack as [|[c [n|]] stack].
  - intros [= <-]. eauto.
  - apply IH. by apply walk_exit.
  - destruct (decide (c ∈ visited)) as [|Hc]; [apply IH; by eapply walk_skip|].
    destruct (get_verified s c) as [n|e] eqn:Hv; [|done]. apply get_verified_Ok in Hv.
    rewrite push_children. apply IH, walk_enter; [done|done|done|].
    intros x. by rewrite elem_of_reverse, elem_of_children_list.
Qed.

Lemma walk_init : walk_inv [(root, None)] ∅ [].
Proof.
  assert (∀ st1 c (n : Node) st2, [(root, None)] ≠ st1 ++ (c, Some n) :: st2) as Hno.
  { intros [|? [|]]; simpl; congruence. }
  split; simpl.
  - intros c. rewrite exiting_cons_None. unfold exiting.
    split; [set_solver|intros [?%elem_of_nil|[n ?%elem_of_nil]]; done].
  - by intros c n ?%elem_of_nil.
  - by intros c n [?|?%elem_of_nil]%elem_of_cons.
  - constructor.
  - by intros ???? ?%Hno.
  - by intros [|??] ?? ?.
  - by intros ????? ?%Hno.
  - by intros ????? ?%Hno.
  - intros c ->%list_elem_of_singleton. apply anc_root. set_solver.
  - by intros c ?%elem_of_nil.
  - right. left.
Qed.

(** The whole history of the root, each node once, children first. *)
Lemma walk_spec fuel r :
  walk fuel root s = Some (Ok r) →
  NoDup r.*1 ∧ children_first r ∧
  (∀ c n, (c, n) ∈ r → verified (abs s) c = Some n) ∧
  ∀ c, c ∈ r.*1 ↔ ancestor genuine {[root]} c.
Proof.
  intros Hw. eapply walk_loop_inv in Hw as [vis Hinv].
  - split_and!; try apply Hinv. intros c. split; [apply Hinv|].
    induction 1 as [c ->%elem_of_singleton|c x _ IH Hx].
    + by destruct (wi_root _ _ _ Hinv) as [|?%elem_of_nil].
    + apply list_elem_of_fmap in IH as ([c' n] & -> & Hin). simpl in *.
      pose proof (wi_calls _ _ _ Hinv c' n Hin) as Hv.
      apply list_elem_of_split in Hin as (l1 & l2 & Heq).
      pose proof (wi_order _ _ _ Hinv _ _ _ _ Heq x) as Ho.
      rewrite Heq, fmap_app, elem_of_app. left. apply (elem_of_list_to_set (C := gset D)), Ho.
      by eapply genuine_child_inv.
  - apply walk_init.
Qed.
End Walk.

Section WalkTermination.
Context {D P S E : Type} `{!Hasher D} `{Encode P} `{!Store D P S E, !StoreLaws D P S E}.
Implicit Types (s : S).

Lemma length_pushed (visited : gset D) (l : list D) :
  length (pushed (P := P) visited l) ≤ length l.
Proof. unfold pushed. rewrite length_fmap, length_reverse. apply length_filter. Qed.

Lemma walk_loop_total fuel s stack (visited : gset D) calls :
  length stack + cost_sum (λ c, 1 + degree (abs s) c) (dom (abs s) ∖ visited) < fuel →
  ∃ r, walk_loop fuel s stack visited calls = Some r.
Proof.
  revert stack visited calls. induction fuel as [|fuel IH]; intros stack visited calls Hf; [lia|].
  cbn [walk_loop]. destruct stack as [|[c [n|]] stack]; [eauto|apply IH; cbn [length] in Hf; lia|].
  cbn [length] in Hf. destruct (decide (c ∈ visited)) as [|Hc]; [apply IH; lia|].
  destruct (get_verified s c) as [n|e] eqn:Hv; [|eauto]. apply get_verified_Ok in Hv.
  rewrite push_children. apply IH. rewrite length_app. cbn [length].
  pose proof (length_pushed ({[c]} ∪ visited) (reverse (children_list n))) as Hlen.
  rewrite length_reverse, length_children_list in Hlen.
  rewrite (cost_sum_remove _ (dom (abs s) ∖ visited) c) in Hf
    by (apply elem_of_difference; split; [by eapply verified_dom|done]).
  rewrite (degree_verified _ _ _ Hv) in Hf.
  replace (dom (abs s) ∖ ({[c]} ∪ visited)) with (dom (abs s) ∖ visited ∖ {[c]}) by set_solver.
  lia.
Qed.

Lemma cost_sum_plus (f g : D → nat) (X : gset D) :
  cost_sum (λ c, f c + g c) X = cost_sum f X + cost_sum g X.
Proof. unfold cost_sum. induction (elements X) as [|x l IH]; simpl; [done|]. rewrite IH. lia. Qed.

Lemma cost_sum_one (X : gset D) : cost_sum (λ _, 1) X = size X.
Proof. unfold cost_sum, size, set_size. simpl. induction (elements X); simpl; auto. Qed.

Lemma walk_total fuel root s :
  1 + size (abs s) + edges (abs s) < fuel → ∃ r, walk (P := P) fuel root s = Some r.
Proof.
  intros Hf. apply walk_loop_total. rewrite difference_empty_L, cost_sum_plus, cost_sum_one.
  rewrite size_dom. cbn [length]. fold (edges (abs s)). lia.
Qed.
End WalkTermination.
