(* ===== verification/CrdtReplica.v ===== *)
(** * merkle-crdt: replicas

    [MerkleCrdt] of [support/merkle-crdt/src/crdt.rs]: a Merkle-Clock, a store and
    the state materialised from the clock's history.  Operations return the
    replica as it is afterwards together with their result, because a failed
    synchronisation may leave staged nodes in the store.  Outer [option]: fuel,
    as in the clock.

    [replica_ok] is what a replica maintains: it holds the whole history of its
    roots, its roots are the heads of that history, and its state is the
    history's operations applied in causal order. *)

From S2P Require Import Prelude Worklist Bytes CrdtCodec CrdtDag CrdtOrder CrdtSync.

(** [trait Payload]. *)
Class Payload (P : Type) := {
  State : Type;
  state_default : State;
  apply_op : State → P → State;
}.
Arguments State P {_}.

(** [trait NodeValidator]. *)
Class NodeValidator (D P V : Type) `{!Hasher D} := validate : V → D → DagNode D P → bool.

Inductive AcceptAll := acceptAll.
#[export] Instance AcceptAll_validator {D P} `{!Hasher D} : NodeValidator D P AcceptAll :=
  λ _ _ _, true.

Record MerkleCrdt (D P S : Type) `{!Hasher D, !Payload P} := mkCrdt {
  clock : MerkleClock D;
  store : S;
  state : State P;
}.
Arguments mkCrdt {D P S _ _} _ _ _.
Arguments clock {D P S _ _} _.
Arguments store {D P S _ _} _.
Arguments state {D P S _ _} _.

Section Replica.
Context {D P S E : Type} `{!Hasher D} `{Encode P, !Payload P} `{!Store D P S E}.
Abbreviation Node := (DagNode D P).
Abbreviation Crdt := (MerkleCrdt D P S).
Implicit Types (r : Crdt) (s : S).

Definition crdt_new s : Crdt := mkCrdt clock_new s state_default.

Definition apply r (op : P) : Crdt * result (Error E) D :=
  let staged_state := apply_op (state r) op in
  match record (clock r) op (store r) with
  | (k, s, Ok c) => (mkCrdt k s staged_state, Ok c)
  | (k, s, Err e) => (mkCrdt k s (state r), Err e)
  end.

Definition apply_nodes (l : list (D * Node)) : State P :=
  foldl (λ st e, apply_op st (payload e.2)) state_default l.

Definition materialize_body s (c : D) (visited : gset D) (stack : list D) (nodes : gmap D Node)
    : flow (list D * gmap D Node) (Error E) :=
  match get_verified s c with
  | Err e => Return e
  | Ok n =>
      Continue (foldl (λ stack child, if decide (child ∈ visited) then stack else child :: stack)
                  stack (children_list n),
                <[c := n]> nodes)
  end.

Definition materialize (fuel : nat) (k : MerkleClock D) s : option (result (Error E) (State P)) :=
  match worklist (materialize_body s) fuel (stack_of (roots k)) ∅ ∅ with
  | None => None
  | Some (Return e) => Some (Err e)
  | Some (Continue (_, nodes)) =>
      match topological_sort nodes with
      | None => None
      | Some l => Some (Ok (apply_nodes l))
      end
  end.

Definition ancestry_body `{!NodeValidator D P V} s (validator : V) (c : D) (_ : gset D)
    (stack : list D) (_ : unit) : flow (list D * unit) (result (Error E) bool) :=
  match get_verified s c with
  | Err e => Return (Err e)
  | Ok n =>
      if negb (validate validator c n) then Return (Ok false)
      else Continue (foldl (λ stack child, child :: stack) stack (children_list n), tt)
  end.

Definition ancestry_is_valid `{!NodeValidator D P V} (fuel : nat) (k : MerkleClock D) s
    (validator : V) : option (result (Error E) bool) :=
  match worklist (ancestry_body s validator) fuel (stack_of (roots k)) ∅ tt with
  | None => None
  | Some (Return r) => Some r
  | Some (Continue _) => Some (Ok true)
  end.

Definition rebuild_state (fuel : nat) r : option (Crdt * result (Error E) unit) :=
  match materialize fuel (clock r) (store r) with
  | None => None
  | Some (Err e) => Some (r, Err e)
  | Some (Ok staged) => Some (mkCrdt (clock r) (store r) staged, Ok tt)
  end.

Definition from_roots_validated `{!NodeValidator D P V} (fuel : nat) s (rs : list D)
    (validator : V) : option (result (Error E) Crdt) :=
  let k := add_roots clock_new rs in
  match compact_roots fuel k s with
  | None => None
  | Some (Err e) => Some (Err e)
  | Some (Ok k) =>
      match ancestry_is_valid fuel k s validator with
      | None => None
      | Some (Err e) => Some (Err e)
      | Some (Ok false) => Some (Err InvalidAuthor)
      | Some (Ok true) =>
          match materialize fuel k s with
          | None => None
          | Some (Err e) => Some (Err e)
          | Some (Ok st) => Some (Ok (mkCrdt k s st))
          end
      end
  end.

Definition from_roots (fuel : nat) s (rs : list D) : option (result (Error E) Crdt) :=
  from_roots_validated fuel s rs acceptAll.

Definition map_local_error {ER} (e : Error E) : SyncError E ER :=
  match e with
  | StoreError e => SyncLocal e
  | MissingNode => SyncMissingNode
  | InvalidCid => SyncInvalidCid
  | InvalidAuthor => SyncInvalidAuthor
  end.

(** The part of [sync_validated] after the missing nodes are stored: the staged
    clock and state replace the replica's only when every check has passed. *)
Definition activate `{!NodeValidator D P V} {ER} (fuel : nat) (remote_root : D) r (validator : V)
    : option (Crdt * result (SyncError E ER) unit) :=
  match compact_roots fuel (add_roots (clock r) [remote_root]) (store r) with
  | None => None
  | Some (Err e) => Some (r, Err (map_local_error e))
  | Some (Ok staged_clock) =>
      match ancestry_is_valid fuel staged_clock (store r) validator with
      | None => None
      | Some (Err e) => Some (r, Err (map_local_error e))
      | Some (Ok false) => Some (r, Err SyncInvalidAuthor)
      | Some (Ok true) =>
          match materialize fuel staged_clock (store r) with
          | None => None
          | Some (Err e) => Some (r, Err (map_local_error e))
          | Some (Ok staged_state) => Some (mkCrdt staged_clock (store r) staged_state, Ok tt)
          end
      end
  end.

Definition sync_validated `{!NodeValidator D P V} {SR ER} `{!Store D P SR ER} (fuel : nat) r
    (remote_root : D) (remote : SR) (validator : V)
    : option (Crdt * result (SyncError E ER) unit) :=
  match fetch_missing fuel remote_root (store r) remote with
  | None => None
  | Some (Err e) => Some (r, Err e)
  | Some (Ok missing) =>
      if existsb (λ e, negb (validate validator e.1 e.2)) missing
      then Some (r, Err SyncInvalidAuthor) else
      match put_batch (store r) missing with
      | (s, Err e) => Some (mkCrdt (clock r) s (state r), Err (SyncLocal e))
      | (s, Ok _) => activate fuel remote_root (mkCrdt (clock r) s (state r)) validator
      end
  end.

Definition sync {SR ER} `{!Store D P SR ER} (fuel : nat) r (remote_root : D) (remote : SR)
    : option (Crdt * result (SyncError E ER) unit) :=
  sync_validated fuel r remote_root remote acceptAll.
End Replica.

(** ** Materialisation against histories *)

Section Materialize.
Context {D P S E : Type} `{!Hasher D} `{Encode P, !Payload P} `{!Store D P S E, !StoreLaws D P S E}.
Abbreviation Node := (DagNode D P).
Context (genuine : Node → Prop) `{!CollisionFree genuine}.
Implicit Types (k : MerkleClock D) (s : S) (N : gmap D Node).

Lemma push_unvisited (visited : gset D) l stack :
  foldl (λ stack child, if decide (child ∈ visited) then stack else child :: stack) stack l =
  reverse (filter (λ x, x ∉ visited) l) ++ stack.
Proof.
  revert stack. induction l as [|x l IH]; intros stack; [done|].
  cbn [foldl]. rewrite IH, filter_cons. destruct (decide (x ∈ visited)) as [Hx|Hx].
  - by rewrite decide_False by tauto.
  - rewrite decide_True by done. by rewrite reverse_cons, <- (assoc_L (++)).
Qed.

Lemma push_all (l stack : list D) :
  foldl (λ stack child, child :: stack) stack l = reverse l ++ stack.
Proof.
  revert stack. induction l as [|x l IH]; intros stack; [done|].
  cbn [foldl]. by rewrite IH, reverse_cons, <- (assoc_L (++)).
Qed.

Lemma kids_verified (σ : gmap D Node) c n : verified σ c = Some n → kids σ c = Some (children n).
Proof. unfold kids. by intros ->. Qed.

Lemma materialize_body_explores s : explores (materialize_body s) (kids (abs s)).
Proof.
  intros c vis w N w' N' Hc. unfold materialize_body.
  destruct (get_verified s c) as [n|e] eqn:Hv; [|done]. apply get_verified_Ok in Hv.
  rewrite push_unvisited. intros [= <- <-]. exists (children n).
  split; [by apply kids_verified|]. split_and!; intros x;
    rewrite ?elem_of_app, elem_of_reverse, list_elem_of_filter, elem_of_children_list; [tauto|tauto|].
  destruct (decide (x ∈ vis)); tauto.
Qed.

Lemma ancestry_body_explores {V} `{!NodeValidator D P V} s (v : V) :
  explores (ancestry_body s v) (kids (abs s)).
Proof.
  intros c vis w [] w' [] Hc. unfold ancestry_body.
  destruct (get_verified s c) as [n|e] eqn:Hv; [|done]. apply get_verified_Ok in Hv.
  destruct (negb _); [done|]. rewrite push_all. intros [= <-]. exists (children n).
  split; [by apply kids_verified|].
  split_and!; intros x; rewrite ?elem_of_app, elem_of_reverse, elem_of_children_list; tauto.
Qed.

(** A traversal that went through has seen the whole history. *)
Lemma reached_history s k (vis : gset D) :
  genuine_store genuine (abs s) →
  (∀ c, c ∈ vis ↔ reach (kids (abs s)) (roots k) c) →
  (∀ c, c ∈ vis → is_Some (kids (abs s) c)) →
  ∀ c, c ∈ vis ↔ ancestor genuine (roots k) c.
Proof.
  intros Hg Hvis Hall c. rewrite Hvis. split; [by apply reach_ancestor|].
  intros Hc. apply (ancestor_reach genuine); [done| |done]. intros x Hx. by apply Hall, Hvis.
Qed.

Lemma materialize_spec fuel k s st :
  genuine_store genuine (abs s) → materialize fuel k s = Some (Ok st) →
  ∃ N l, history genuine (roots k) N ∧ topological_sort N = Some l ∧ st = apply_nodes l.
Proof.
  intros Hg. unfold materialize. destruct (worklist _ _ _ _ _) as [r|] eqn:Hw; [|done].
  eapply (worklist_explores _ _ (λ vis N, ∀ c n, N !! c = Some n ↔
      c ∈ vis ∧ verified (abs s) c = Some n) (λ _, True)) in Hw;
    [|apply materialize_body_explores| |done|by intros; rewrite lookup_empty; set_solver].
  - rewrite list_to_set_stack_of in Hw. destruct r as [[vis N]|e]; [|done].
    destruct Hw as (HJ & Hvis & Hall). destruct (topological_sort N) as [l|] eqn:Hl; [|done].
    intros [= <-]. exists N, l. split; [|done].
    pose proof (reached_history s k vis Hg Hvis Hall) as Hh.
    assert (∀ c, c ∈ vis → ∃ n, verified (abs s) c = Some n) as Hver.
    { intros c Hc. destruct (Hall c Hc) as [ks Hk]. unfold kids in Hk.
      destruct (verified (abs s) c); [eauto|done]. }
    split.
    + intros c n. rewrite HJ, Hh. split; intros [Hc Hn].
      * pose proof Hn as [_ ?]%verified_Some. split_and!; [done|by eapply Hg|done].
      * split; [done|]. apply Hh in Hc. destruct (Hver c Hc) as [m Hm]. rewrite Hm. f_equal.
        destruct Hn as [Hgn Hcn]. pose proof Hm as [_ ?]%verified_Some.
        apply cf_inj; [by eapply Hg|done|congruence].
    + intros c Hc. apply Hh in Hc as Hv. destruct (Hver c Hv) as [n Hn]. exists n. by apply HJ.
  - intros vis c w N w' N' HJ _ Hc. unfold materialize_body.
    destruct (get_verified s c) as [n|e] eqn:Hv; [|done]. apply get_verified_Ok in Hv.
    intros [= _ <-] c' n'. destruct (decide (c' = c)) as [->|Hne].
    + rewrite lookup_insert_eq, Hv. set_solver.
    + rewrite lookup_insert_ne, HJ by done. set_solver.
Qed.

Lemma ancestry_is_valid_spec {V} `{!NodeValidator D P V} fuel k s (v : V) :
  genuine_store genuine (abs s) → ancestry_is_valid fuel k s v = Some (Ok true) →
  ∀ c, ancestor genuine (roots k) c →
    ∃ n, verified (abs s) c = Some n ∧ validate v c n = true.
Proof.
  intros Hg. unfold ancestry_is_valid. destruct (worklist _ _ _ _ _) as [r|] eqn:Hw; [|done].
  eapply (worklist_explores _ _ (λ vis _, ∀ c, c ∈ vis →
      ∃ n, verified (abs s) c = Some n ∧ validate v c n = true) (λ r, r ≠ Ok true)) in Hw;
    [|apply ancestry_body_explores| | |set_solver].
  - rewrite list_to_set_stack_of in Hw. destruct r as [[vis []]|res]; [|congruence].
    destruct Hw as (HJ & Hvis & Hall). intros _ c Hc. apply HJ.
    by apply (reached_history s k vis Hg Hvis Hall).
  - intros vis c w [] w' [] HJ _ Hc. unfold ancestry_body.
    destruct (get_verified s c) as [n|e] eqn:Hv; [|done]. apply get_verified_Ok in Hv.
    destruct (validate v c n) eqn:Hval; [simpl|done]. intros _ x.
    intros [->%elem_of_singleton|Hx]%elem_of_union; [eauto|by apply HJ].
  - intros vis c w [] res _ _ _ _. unfold ancestry_body.
    destruct (get_verified s c) as [n|e]; [|by intros [= <-]].
    destruct (negb _); [by intros [= <-]|done].
Qed.

Lemma materialize_total fuel k s :
  size (roots k) + edges (abs s) < fuel → ∃ r, materialize fuel k s = Some r.
Proof.
  intros Hfuel. unfold materialize.
  destruct (worklist_total (materialize_body s) (degree (abs s)) (dom (abs s)) fuel
    (stack_of (roots k)) ∅ ∅) as [r ->].
  - intros c vis w a w' a'. unfold materialize_body.
    destruct (get_verified s c) as [n|] eqn:Hv; [|done]. apply get_verified_Ok in Hv.
    rewrite push_unvisited. intros [= <- <-]. split; [by eapply verified_dom|].
    rewrite length_app, length_reverse, (degree_verified _ _ _ Hv), <- length_children_list.
    pose proof (length_filter (λ x, x ∉ vis) (children_list n)). lia.
  - by rewrite length_stack_of, difference_empty_L.
  - destruct r as [[vis N]|e]; [|eauto].
    destruct (topological_sort_inv N) as (l & dg & Nr & -> & _). eauto.
Qed.

Lemma ancestry_is_valid_total {V} `{!NodeValidator D P V} fuel k s (v : V) :
  size (roots k) + edges (abs s) < fuel → ∃ r, ancestry_is_valid fuel k s v = Some r.
Proof.
  intros Hfuel. unfold ancestry_is_valid.
  destruct (worklist_total (ancestry_body s v) (degree (abs s)) (dom (abs s)) fuel
    (stack_of (roots k)) ∅ tt) as [r ->].
  - intros c vis w [] w' []. unfold ancestry_body.
    destruct (get_verified s c) as [n|] eqn:Hv; [|done]. apply get_verified_Ok in Hv.
    destruct (negb _); [done|]. rewrite push_all. intros [= <-]. split; [by eapply verified_dom|].
    rewrite length_app, length_reverse, (degree_verified _ _ _ Hv), <- length_children_list. lia.
  - by rewrite length_stack_of, difference_empty_L.
  - destruct r as [[vis []]|res]; eauto.
Qed.
End Materialize.

(** ** What a replica maintains *)

Section Invariant.
Context {D P S E : Type} `{!Hasher D} `{Encode P, !Payload P} `{!Store D P S E, !StoreLaws D P S E}.
Abbreviation Node := (DagNode D P).
Context (genuine : Node → Prop) `{!CollisionFree genuine}.
Implicit Types (r : MerkleCrdt D P S) (s : S) (σ N : gmap D Node).

(** The state of a history: its operations in causal order. *)
Definition state_of (R : gset D) (st : State P) : Prop :=
  ∃ N l, history genuine R N ∧ topological_sort N = Some l ∧ st = apply_nodes l.

Record replica_ok r : Prop := {
  ro_genuine : genuine_store genuine (abs (store r));
  ro_closed : closed (abs (store r));
  ro_stored : roots (clock r) ⊆ dom (abs (store r));
  ro_heads : heads genuine (roots (clock r));
  ro_state : state_of (roots (clock r)) (state r);
}.

Lemma state_of_unique R R' st st' :
  (∀ c, ancestor genuine R c ↔ ancestor genuine R' c) →
  state_of R st → state_of R' st' → st = st'.
Proof.
  intros Heq (N & l & HN & Hl & ->) (N' & l' & HN' & Hl' & ->).
  assert (N = N') as -> by by eapply history_unique. congruence.
Qed.

Lemma ancestor_empty c : ¬ ancestor genuine ∅ c.
Proof. induction 1; set_solver. Qed.

Lemma crdt_new_ok s : abs s = ∅ → replica_ok (crdt_new s).
Proof.
  intros Hs. split; simpl; rewrite ?Hs.
  - intros c n [Hl _]%verified_Some. by rewrite lookup_empty in Hl.
  - apply closed_empty.
  - set_solver.
  - intros x. set_solver.
  - exists ∅, []. split; [|done]. split; [|by intros c ?%ancestor_empty].
    intros c n. rewrite lookup_empty. split; [done|]. by intros [?%ancestor_empty _].
Qed.

Lemma closed_verified σ c n : closed σ → verified σ c = Some n ↔ σ !! c = Some n.
Proof. intros Hcl. rewrite verified_Some. split; [tauto|]. intros Hl. by destruct (Hcl c n Hl). Qed.

(** A closed store that holds the roots holds their history. *)
Lemma closed_history σ R c :
  closed σ → genuine_store genuine σ → R ⊆ dom σ → ancestor genuine R c → c ∈ dom σ.
Proof.
  intros Hcl Hg HR. induction 1 as [c Hc|c x _ IH Hx]; [by apply HR|].
  apply elem_of_dom in IH as [n Hn]. destruct (Hcl c n Hn) as [_ Hch]. apply Hch.
  eapply genuine_child_inv; eauto. by apply closed_verified.
Qed.

(** ** Recording an operation *)

Section on_top.
Context (R : gset D) (n : Node) (N : gmap D Node) (l : list (D * Node)).
Hypothesis Hn : genuine n.
Hypothesis Hkids : children n = R.
Hypothesis HN : history genuine R N.
Hypothesis Hl : topological_sort N = Some l.

Lemma child_of_new x : child_of genuine x (cid n) ↔ x ∈ R.
Proof.
  split; [|intros Hx; exists n; by rewrite Hkids].
  intros (m & Hm & Hc & Hx). by rewrite <- (cf_inj m n Hm Hn Hc) in Hkids; subst.
Qed.

Lemma ancestor_new c : ancestor genuine {[cid n]} c ↔ c = cid n ∨ ancestor genuine R c.
Proof.
  split.
  - induction 1 as [c ->%elem_of_singleton|c x _ [->|IH] Hx]; [by left|right|right].
    + by apply anc_root, child_of_new.
    + by eapply anc_child.
  - intros [->|Hc]; [by apply anc_root, elem_of_singleton|]. revert Hc. apply ancestor_trans.
    intros x Hx. eapply anc_child; [by apply anc_root, elem_of_singleton|]. by apply child_of_new.
Qed.

Lemma rank_below_new c : ancestor genuine R c → cf_rank c < cf_rank (cid n).
Proof.
  intros (x & Hx & _ & Hle)%(ancestor_rank genuine).
  apply child_of_new, (child_of_rank genuine) in Hx. lia.
Qed.

Lemma new_not_ancestor : ¬ ancestor genuine R (cid n).
Proof. intros Hc%rank_below_new. lia. Qed.

Lemma history_new : history genuine {[cid n]} (<[cid n := n]> N).
Proof.
  destruct HN as [H1 H2]. split.
  - intros c m. rewrite ancestor_new. destruct (decide (c = cid n)) as [->|Hne].
    + rewrite lookup_insert_eq. split; [intros [= <-]; auto|].
      intros (_ & Hm & Hc). f_equal. by apply cf_inj.
    + rewrite lookup_insert_ne, H1 by done. split; [naive_solver|].
      intros ([?|?] & ? & ?); [done|naive_solver].
  - intros c [->|Hc]%ancestor_new; [by rewrite lookup_insert_eq|].
    apply lookup_insert_is_Some'. right. by apply H2.
Qed.

Lemma sort_new : topological_sort (<[cid n := n]> N) = Some (l ++ [(cid n, n)]).
Proof.
  destruct HN as [H1 H2]. apply topological_sort_snoc; [| | | | |done].
  - destruct (N !! cid n) as [m|] eqn:Hm; [|done]. apply H1 in Hm as [Hm _].
    by apply new_not_ancestor in Hm.
  - rewrite Hkids. intros x Hx. apply elem_of_dom, H2. by apply anc_root.
  - intros x [m Hm]%elem_of_dom. apply H1 in Hm as [Hx _]. rewrite Hkids.
    destruct (root_or_below _ R x Hx) as [|(c & Hc & Hxc)]; [by left|right].
    destruct (H2 c Hc) as [m' Hm']. exists c, m'. split; [done|].
    apply H1 in Hm' as (_ & Hg' & Hc'). destruct Hxc as (m'' & Hg'' & Hc'' & Hx'').
    by rewrite (cf_inj m' m'' Hg' Hg'') by congruence.
  - intros y m (Hy & Hg & <-)%H1 Hch.
    apply rank_below_new in Hy. pose proof (cf_rank_lt m (cid n) Hg Hch). lia.
  - by eapply history_acyclic.
Qed.

Lemma state_new st : st = apply_nodes l → state_of {[cid n]} (apply_op st (payload n)).
Proof.
  intros ->. eexists _, _. split; [apply history_new|]. split; [apply sort_new|].
  unfold apply_nodes. by rewrite foldl_snoc.
Qed.

Lemma heads_new : heads genuine {[cid n]}.
Proof.
  intros x ->%elem_of_singleton (c & [->|Hc]%ancestor_new & Hx).
  - apply (child_of_rank genuine) in Hx. lia.
  - apply rank_below_new in Hc. apply (child_of_rank genuine) in Hx. lia.
Qed.
End on_top.

(** The node that [apply] adds. *)
Definition next_node r (op : P) : Node := mkNode op (roots (clock r)).

Lemma genuine_store_insert σ n :
  genuine_store genuine σ → genuine n → genuine_store genuine (<[cid n := n]> σ).
Proof.
  intros Hg Hn c m [[[<- <-]|[_ Hl]]%lookup_insert_Some Hc]%verified_Some; [done|].
  eapply Hg. by apply verified_Some.
Qed.

Lemma apply_Ok r op r' c :
  replica_ok r → genuine (next_node r op) → apply r op = (r', Ok c) →
  replica_ok r' ∧ c = cid (next_node r op) ∧ roots (clock r') = {[c]} ∧
  state r' = apply_op (state r) op.
Proof.
  intros [Hg Hcl Hst Hh (N & l & HN & Hl & Hs)] Hn. unfold apply, record.
  fold (next_node r op). destruct (put (store r) _ _) as [s [u|e]] eqn:Hp; [|done].
  intros [= <- <-]. apply put_Ok in Hp. split; [|done]. split; simpl; rewrite ?Hp.
  - by apply genuine_store_insert.
  - by apply closed_insert.
  - rewrite dom_insert. set_solver.
  - by eapply heads_new.
  - by eapply (state_new (roots (clock r)) (next_node r op)).
Qed.

Lemma apply_Err r op r' e :
  apply r op = (r', Err e) →
  clock r' = clock r ∧ state r' = state r ∧ abs (store r') = abs (store r).
Proof.
  unfold apply, record. destruct (put (store r) _ _) as [s [u|e']] eqn:Hp; [done|].
  intros [= <- <-]. by apply put_Err in Hp.
Qed.

(** ** Synchronising *)

Context {V : Type} `{!NodeValidator D P V}.

Lemma activate_Ok {ER} fuel root r (v : V) r' :
  genuine_store genuine (abs (store r)) →
  activate (ER := ER) fuel root r v = Some (r', Ok tt) →
  store r' = store r ∧ heads genuine (roots (clock r')) ∧
  state_of (roots (clock r')) (state r') ∧
  roots (clock r') ⊆ roots (clock r) ∪ {[root]} ∧
  (∀ c, ancestor genuine (roots (clock r')) c ↔
        ancestor genuine (roots (clock r)) c ∨ ancestor genuine {[root]} c) ∧
  (∀ c, ancestor genuine (roots (clock r')) c →
        ∃ n, verified (abs (store r)) c = Some n ∧ validate v c n = true).
Proof.
  intros Hg. unfold activate.
  destruct (compact_roots _ _ _) as [[k|e]|] eqn:Hk; [|done|done].
  destruct (ancestry_is_valid _ _ _ _) as [[[]|e]|] eqn:Ha; [|done|done|done].
  destruct (materialize _ _ _) as [[st|e]|] eqn:Hm; [|done|done].
  intros [= <-]. simpl. split; [done|]. split_and!.
  - by eapply compact_roots_heads.
  - by eapply materialize_spec.
  - apply (compact_roots_spec genuine) in Hk as [Hsub _]; [|done]. set_solver.
  - intros c. rewrite (compact_roots_ancestor genuine _ _ _ _ c Hg Hk), <- ancestor_union.
    simpl. by rewrite (right_id_L ∅ (∪)).
  - by eapply ancestry_is_valid_spec.
Qed.

Lemma activate_Err {ER} fuel root r (v : V) r' e :
  activate (ER := ER) fuel root r v = Some (r', Err e) → r' = r.
Proof.
  unfold activate. destruct (compact_roots _ _ _) as [[k|?]|]; [|by intros [= <-]|done].
  destruct (ancestry_is_valid _ _ _ _) as [[[]|?]|]; [|by intros [= <-]|by intros [= <-]|done].
  destruct (materialize _ _ _) as [[st|?]|]; [done|by intros [= <-]|done].
Qed.

Context {SR ER : Type} `{!Store D P SR ER, !StoreLaws D P SR ER}.

Lemma fetched_entry (local remote : gmap D Node) root missing l c n :
  fetched local remote root missing → topological_sort missing = Some l → (c, n) ∈ l →
  local !! c = None ∧ verified remote c = Some n ∧
  ∀ x, x ∈ children n → x ∈ dom local ∨ x ∈ dom missing.
Proof.
  intros [H1 H2] Hl Hin. destruct (topological_sort_inv missing) as (l' & dg & Nr & Hl' & Hinv).
  rewrite Hl in Hl'. injection Hl' as <-.
  apply (ki_result _ _ _ _ _ Hinv), H1 in Hin as (Hr & Hloc & Hv). split_and!; [done|done|].
  intros x Hx. destruct (local !! x) as [m|] eqn:Hlx; [left; apply elem_of_dom; eauto|right].
  apply elem_of_dom, H2; [|done]. eapply reach_next; [done| |done].
  unfold fetch_expand. rewrite Hloc. by apply kids_verified.
Qed.

(** Storing the fetched nodes, all of them or a part: the store stays closed, and
    keeps what it had. *)
Lemma staged_ok fuel root s (remote : SR) l i :
  closed (abs s) → genuine_store genuine (abs s) → genuine_store genuine (abs remote) →
  fetch_missing fuel root s remote = Some (Ok l) →
  let σ' := put_all (abs s) (take i l) in
  closed σ' ∧ genuine_store genuine σ' ∧ abs s ⊆ σ' ∧
  (∀ c n, σ' !! c = Some n → abs s !! c = Some n ∨ abs remote !! c = Some n).
Proof.
  intros Hcl Hg Hgr (missing & Hf & Hl)%fetch_missing_spec σ'.
  destruct (topological_sort_inv missing) as (l' & dg & Nr & Hl' & Hinv).
  rewrite Hl in Hl'. injection Hl' as <-.
  assert (∀ c n, (c, n) ∈ take i l → (c, n) ∈ l) as Htake
    by (intros c n; apply (subseteq_take i l)).
  assert (∀ c n, (c, n) ∈ l → abs s !! c = None ∧ verified (abs remote) c = Some n) as Hent
    by (intros c n Hin; by eapply fetched_entry in Hin as (? & ? & _)).
  assert (NoDup (take i l).*1) as Hnd.
  { pose proof (ki_nodup _ _ _ _ _ Hinv) as Hnd. rewrite app_nil_r in Hnd.
    rewrite fmap_take. by eapply sublist_NoDup, sublist_take. }
  assert (∀ c n, σ' !! c = Some n → abs s !! c = Some n ∨ (c, n) ∈ take i l) as Hlook.
  { intros c n. unfold σ'. rewrite put_all_lookup by done.
    destruct (list_to_map (take i l) !! c) as [m|] eqn:Hm; [|by left].
    intros [= <-]. right. by apply elem_of_list_to_map_2. }
  split_and!.
  - eapply put_all_closed; [done|apply Hinv| |].
    + intros c n [_ Hv]%Hent. by apply verified_Some in Hv as [_ ?].
    + intros c n x Hin Hx. eapply fetched_entry in Hin as (_ & _ & Hch); eauto.
  - intros c n [[Hs|Hin]%Hlook Hc]%verified_Some.
    + eapply Hg. by apply verified_Some.
    + apply Htake, Hent in Hin as [_ Hv]. by eapply Hgr.
  - apply map_subseteq_spec. intros c n Hc. unfold σ'. rewrite put_all_lookup by done.
    destruct (list_to_map (take i l) !! c) as [m|] eqn:Hm; [|done].
    apply elem_of_list_to_map_2, Htake, Hent in Hm as [Hno _]. congruence.
  - intros c n [?|Hin]%Hlook; [by left|right].
    apply Htake, Hent in Hin as [_ Hv]. by apply verified_Some in Hv as [? _].
Qed.

(** With all of them stored, the root is there. *)
Lemma staged_root fuel root s (remote : SR) l :
  genuine_store genuine (abs remote) → fetch_missing fuel root s remote = Some (Ok l) →
  root ∈ dom (put_all (abs s) l).
Proof.
  intros Hgr (missing & Hf & Hl)%fetch_missing_spec. apply dom_put_all.
  destruct (abs s !! root) as [m|] eqn:Hr; [left; apply elem_of_dom; eauto|right].
  destruct (topological_sort_inv missing) as (l' & dg & Nr & Hl' & Hinv).
  rewrite Hl in Hl'. injection Hl' as <-. destruct Hf as [H1 H2].
  eapply kahn_complete; [|done|].
  - exists cf_rank. intros c n x (_ & _ & Hv)%H1 Hx _. pose proof Hv as [_ <-]%verified_Some.
    apply cf_rank_lt; [by eapply Hgr|done].
  - apply elem_of_dom, H2; [|done]. apply reach_root. by apply elem_of_singleton.
Qed.

Lemma sync_spec fuel root r (remote : SR) (v : V) r' res :
  replica_ok r → genuine_store genuine (abs remote) →
  sync_validated fuel r root remote v = Some (r', res) →
  replica_ok r' ∧ abs (store r) ⊆ abs (store r') ∧
  (∀ c n, abs (store r') !! c = Some n →
          abs (store r) !! c = Some n ∨ abs remote !! c = Some n) ∧
  match res with
  | Ok _ =>
      (∀ c, ancestor genuine (roots (clock r')) c ↔
            ancestor genuine (roots (clock r)) c ∨ ancestor genuine {[root]} c) ∧
      (∀ c, ancestor genuine (roots (clock r')) c →
            ∃ n, verified (abs (store r')) c = Some n ∧ validate v c n = true)
  | Err _ => clock r' = clock r ∧ state r' = state r
  end.
Proof.
  intros Hok Hgr. pose proof Hok as [Hg Hcl Hst Hh Hs]. unfold sync_validated.
  destruct (fetch_missing _ _ _ _) as [[l|e]|] eqn:Hf; [| |done].
  2: { intros [= <- <-]. split_and!; auto. }
  destruct (existsb _ l); [intros [= <- <-]; split_and!; auto|].
  pose proof (staged_ok fuel root (store r) remote l) as Hstage.
  destruct (put_batch (store r) l) as [s [u|e]] eqn:Hp.
  - apply put_batch_Ok in Hp.
    destruct (Hstage (length l) Hcl Hg Hgr Hf) as (Hcl' & Hg' & Hsub & Hup).
    rewrite take_ge in Hcl', Hg', Hsub, Hup by done.
    pose proof (staged_root _ _ _ _ _ Hgr Hf) as Hroot.
    rewrite <- Hp in Hcl', Hg', Hsub, Hup, Hroot.
    assert (roots (clock r) ⊆ dom (abs s)) as Hst'
      by (etrans; [exact Hst|]; by apply subseteq_dom).
    destruct res as [[]|e]; intros Ha.
    + apply activate_Ok in Ha as (Heq & Hh' & Hs' & Hrs & Hanc & Hval); [|done]. simpl in *.
      rewrite Heq. split_and!; [|done|done|done|done].
      split; rewrite ?Heq; [done|done|set_solver|done|done].
    + apply activate_Err in Ha as ->. simpl. split_and!; [|done|done|done|done]. by split.
  - intros [= <- <-]. apply put_batch_Err in Hp as [i Hp]. simpl.
    destruct (Hstage i Hcl Hg Hgr Hf) as (Hcl' & Hg' & Hsub & Hup).
    rewrite <- Hp in Hcl', Hg', Hsub, Hup.
    split_and!; [|done|done|done|done]. split; simpl; [done|done| |done|done].
    etrans; [exact Hst|]. by apply subseteq_dom.
Qed.
End Invariant.

(** ** Convergence *)

(** [for root in roots { replica.sync(&root, remote).unwrap(); }], as in the crate's
    example; [None] when a synchronisation fails. *)
Fixpoint sync_all {D P S E SR ER} `{!Hasher D} `{Encode P, !Payload P} `{!Store D P S E}
    `{!Store D P SR ER} (fuel : nat) (r : MerkleCrdt D P S) (rs : list D) (remote : SR)
    : option (MerkleCrdt D P S) :=
  match rs with
  | [] => Some r
  | c :: rs =>
      match sync fuel r c remote with
      | Some (r, Ok _) => sync_all fuel r rs remote
      | _ => None
      end
  end.

Section Converge.
Context {D P S E : Type} `{!Hasher D} `{Encode P, !Payload P} `{!Store D P S E, !StoreLaws D P S E}.
Context {SR ER : Type} `{!Store D P SR ER, !StoreLaws D P SR ER}.
Abbreviation Node := (DagNode D P).
Context (genuine : Node → Prop) `{!CollisionFree genuine}.

Lemma sync_all_spec fuel (r : MerkleCrdt D P S) rs (remote : SR) r' :
  replica_ok genuine r → genuine_store genuine (abs remote) →
  sync_all fuel r rs remote = Some r' →
  replica_ok genuine r' ∧
  ∀ c, ancestor genuine (roots (clock r')) c ↔
       ancestor genuine (roots (clock r)) c ∨ ancestor genuine (list_to_set rs) c.
Proof.
  intros Hok Hgr. revert r Hok. induction rs as [|x rs IH]; intros r Hok; simpl.
  - intros [= <-]. split; [done|]. intros c. split; [tauto|].
    intros [?|?%ancestor_empty]; done.
  - destruct (sync fuel r x remote) as [[r1 [u|e]]|] eqn:Hs; [|done|done].
    apply (sync_spec genuine) in Hs as (Hok1 & _ & _ & Hanc & _); [|done|done].
    intros (Hok' & Hanc')%(IH r1 Hok1). split; [done|]. intros c.
    rewrite Hanc', Hanc, ancestor_union. tauto.
Qed.

Lemma same_history_same_replica (r1 : MerkleCrdt D P S) (r2 : MerkleCrdt D P SR) :
  replica_ok genuine r1 → replica_ok genuine r2 →
  (∀ c, ancestor genuine (roots (clock r1)) c ↔ ancestor genuine (roots (clock r2)) c) →
  roots (clock r1) = roots (clock r2) ∧ state r1 = state r2.
Proof.
  intros H1 H2 Heq. split.
  - eapply heads_unique; [apply H1|apply H2|done].
  - eapply state_of_unique; [done|apply H1|apply H2].
Qed.
End Converge.
