(* ===== verification/CrdtConverge.v ===== *)
(** * merkle-crdt: replicas converge

    Synchronising in-memory replicas succeeds, and replicas that have each
    other's nodes agree.  The fuel [capacity] counts the nodes and edges stored:
    every traversal visits a node once and an edge at most once. *)

From S2P Require Import Prelude Worklist Bytes CrdtCodec CrdtDag CrdtOrder CrdtSync CrdtReplica.

(** ** Traversals of a closed in-memory store succeed *)

Section Success.
Context {D P : Type} `{!Hasher D} `{Encode P, !Payload P}.
Abbreviation Node := (DagNode D P).
Implicit Types (σ : MemStore D P) (R : gset D).

Lemma get_verified_mem σ c n : σ !! c = Some n → cid n = c → get_verified σ c = Ok n.
Proof. intros Hl Hc. unfold get_verified. simpl. rewrite Hl. by rewrite decide_True. Qed.

Lemma closed_reach σ R c :
  closed σ → R ⊆ dom σ → reach (kids σ) R c → ∃ n, get_verified σ c = Ok n.
Proof.
  intros Hcl HR Hc. assert (c ∈ dom σ) as [n Hn]%elem_of_dom.
  { induction Hc as [c Hc|c ks x _ IH Hk Hx]; [by apply HR|].
    apply elem_of_dom in IH as [n Hn]. destruct (Hcl c n Hn) as [Hcid Hch].
    unfold kids in Hk. rewrite (proj2 (verified_Some σ c n)) in Hk by done.
    injection Hk as <-. by apply Hch. }
  exists n. apply get_verified_mem; [done|]. by destruct (Hcl c n Hn).
Qed.

(** A traversal whose body fails only when a node cannot be read does not fail. *)
Lemma closed_worklist {Acc Res} σ R fuel (acc : Acc) r
    (body : D → gset D → list D → Acc → flow (list D * Acc) Res) (good : Res → Prop) :
  closed σ → R ⊆ dom σ → explores body (kids σ) →
  (∀ c vis w a x n, get_verified σ c = Ok n → body c vis w a = Return x → good x) →
  worklist body fuel (stack_of R) ∅ acc = Some r →
  match r with Continue _ => True | Return x => good x end.
Proof.
  intros Hcl HR Hex Hgood Hw.
  eapply (worklist_explores _ _ (λ _ _, True) good) in Hw; [|done|done| |done].
  - destruct r as [[vis a]|x]; [done|]. exact Hw.
  - rewrite list_to_set_stack_of. intros vis c w a x _ _ Hc _ Hb.
    destruct (closed_reach σ R c Hcl HR Hc) as [n Hn]. by eapply Hgood.
Qed.

Lemma compact_roots_success fuel (k : MerkleClock D) σ :
  closed σ → roots k ⊆ dom σ → size (roots k) + edges σ < fuel →
  ∃ k', compact_roots fuel k σ = Some (Ok k').
Proof.
  intros Hcl HR Hfuel. assert (∃ r, compact_roots fuel k σ = Some r) as [r Hr] by (by apply compact_roots_total).
  rewrite Hr. unfold compact_roots in Hr. destruct (_ <=? _); [injection Hr as <-; eauto|].
  destruct (worklist _ _ _ _ _) as [res|] eqn:Hw; [|done].
  eapply (closed_worklist σ (roots k) fuel ∅ res (compact_body σ (roots k))
    (λ x, ∃ rs, x = Ok rs)) in Hw;
    [|done|done|exact (compact_body_explores (P := P) (E := Empty_set) σ (roots k))|].
  - destruct res as [[vis sub]|[rs|e]]; [injection Hr as <-; eauto..|by destruct Hw].
  - intros c vis w a x n Hg. unfold compact_body. rewrite Hg.
    destruct (compact_children _ _ _ _ _ _); [done|]. intros [= <-]. eauto.
Qed.

Lemma ancestry_success fuel (k : MerkleClock D) σ :
  closed σ → roots k ⊆ dom σ → size (roots k) + edges σ < fuel →
  ancestry_is_valid fuel k σ acceptAll = Some (Ok true).
Proof.
  intros Hcl HR Hfuel. assert (∃ r, ancestry_is_valid fuel k σ acceptAll = Some r) as [r Hr]
    by (by apply ancestry_is_valid_total).
  rewrite Hr. unfold ancestry_is_valid in Hr.
  destruct (worklist _ _ _ _ _) as [res|] eqn:Hw; [|done].
  eapply (closed_worklist σ (roots k) fuel tt res (ancestry_body σ acceptAll) (λ _, False)) in Hw;
    [|done|done|exact (ancestry_body_explores (P := P) (E := Empty_set) σ acceptAll)|].
  - destruct res as [[vis []]|x]; [by injection Hr as <-|done].
  - intros c vis w a x n Hg. unfold ancestry_body. by rewrite Hg.
Qed.

Lemma materialize_success fuel (k : MerkleClock D) σ :
  closed σ → roots k ⊆ dom σ → size (roots k) + edges σ < fuel →
  ∃ st, materialize fuel k σ = Some (Ok st).
Proof.
  intros Hcl HR Hfuel. assert (∃ r, materialize fuel k σ = Some r) as [r Hr] by (by apply materialize_total).
  rewrite Hr. unfold materialize in Hr.
  destruct (worklist _ _ _ _ _) as [res|] eqn:Hw; [|done].
  eapply (closed_worklist σ (roots k) fuel ∅ res (materialize_body σ) (λ _, False)) in Hw;
    [|done|done|exact (materialize_body_explores (P := P) (E := Empty_set) σ)|].
  - destruct res as [[vis N]|x]; [|done]. destruct (topological_sort N); [|done].
    injection Hr as <-. eauto.
  - intros c vis w a x n Hg. unfold materialize_body. by rewrite Hg.
Qed.

Lemma fetch_reach (local remote : MemStore D P) root c :
  closed remote → root ∈ dom remote →
  reach (fetch_expand local remote) {[root]} c → local !! c = None →
  ∃ n, remote !! c = Some n ∧ cid n = c.
Proof.
  intros Hcl Hroot Hc _. assert (c ∈ dom remote) as [n Hn]%elem_of_dom.
  { induction Hc as [c ->%elem_of_singleton|c ks x _ IH Hk Hx]; [done|].
    apply elem_of_dom in IH as [n Hn]. destruct (Hcl c n Hn) as [Hcid Hch].
    unfold fetch_expand in Hk. destruct (local !! c); [set_solver|]. unfold kids in Hk.
    rewrite (proj2 (verified_Some remote c n)) in Hk by done.
    injection Hk as <-. by apply Hch. }
  exists n. split; [done|]. by destruct (Hcl c n Hn).
Qed.

Lemma fetch_success fuel root (local remote : MemStore D P) :
  closed remote → root ∈ dom remote → 1 + edges remote < fuel →
  ∃ l, fetch_missing fuel root local remote = Some (Ok l).
Proof.
  intros Hcl Hroot Hfuel.
  assert (∃ r, fetch_missing fuel root local remote = Some r) as [r Hr]
    by (by apply fetch_missing_total).
  rewrite Hr. unfold fetch_missing in Hr.
  destruct (worklist _ _ _ _ _) as [res|] eqn:Hw; [|done].
  eapply (worklist_explores (fetch_body local remote) (fetch_expand local remote)
    (λ _ _, True) (λ _, False)) in Hw;
    [|exact (fetch_body_explores (P := P) (EL := Empty_set) (ER := Empty_set) local remote)
     |done| |done].
  - destruct res as [[vis missing]|e]; [|done]. case_decide; [injection Hr as <-; eauto|].
    destruct (topological_sort missing); [|done]. injection Hr as <-. eauto.
  - intros vis c w a x _ _ Hc _. unfold fetch_body. simpl.
    case_bool_decide as Hl; [done|]. apply eq_None_not_Some in Hl.
    replace (list_to_set [root]) with ({[root]} : gset D) in Hc by set_solver.
    destruct (fetch_reach local remote root c Hcl Hroot Hc Hl) as (n & Hn & Hcid).
    rewrite Hn. by rewrite decide_True.
Qed.

Lemma put_batch_mem σ l : put_batch σ l = (put_all σ l, Ok (E := Empty_set) tt).
Proof.
  simpl. revert σ. induction l as [|[c n] l IH]; intros σ; [done|]. simpl. by rewrite IH.
Qed.

(** ** Bounds *)

Lemma cost_sum_mono (f g : D → nat) (X Y : gset D) :
  X ⊆ Y → (∀ c, c ∈ X → f c ≤ g c) → cost_sum f X ≤ cost_sum g Y.
Proof.
  revert Y. induction X as [|x X Hx IH] using set_ind_L; intros Y HXY Hle; [apply le_0_n|].
  rewrite (cost_sum_remove g Y x), (cost_sum_remove f ({[x]} ∪ X) x) by set_solver.
  replace (({[x]} ∪ X) ∖ {[x]}) with X by set_solver.
  specialize (IH (Y ∖ {[x]}) ltac:(set_solver) ltac:(set_solver)).
  specialize (Hle x ltac:(set_solver)). lia.
Qed.

Lemma edges_mono σ σ' : σ ⊆ σ' → edges σ ≤ edges σ'.
Proof.
  intros Hsub. apply cost_sum_mono; [by apply subseteq_dom|]. intros c _. unfold degree.
  destruct (verified σ c) as [n|] eqn:Hv; [|lia].
  apply verified_Some in Hv as [Hl Hc].
  by rewrite (proj2 (verified_Some σ' c n) (conj (lookup_weaken _ _ _ _ Hl Hsub) Hc)).
Qed.

(** Enough fuel for every traversal of a store, from any of its identifiers. *)
Definition capacity σ : nat := 2 + size σ + edges σ.

Lemma capacity_mono σ σ' : σ ⊆ σ' → capacity σ ≤ capacity σ'.
Proof.
  intros Hsub. unfold capacity. pose proof (edges_mono σ σ' Hsub).
  pose proof (map_subseteq_size σ σ' Hsub). lia.
Qed.

Lemma capacity_roots σ σ' R fuel :
  R ⊆ dom σ → σ ⊆ σ' → capacity σ' ≤ fuel → size R + edges σ < fuel.
Proof.
  intros HR Hsub Hfuel. pose proof (capacity_mono σ σ' Hsub) as Hle.
  apply subseteq_size in HR. rewrite size_dom in HR. unfold capacity in *. lia.
Qed.
End Success.

(** ** Synchronising in-memory replicas succeeds *)

Section Sync.
Context {D P : Type} `{!Hasher D} `{Encode P, !Payload P}.
Abbreviation Node := (DagNode D P).
Abbreviation Crdt := (MerkleCrdt D P (MemStore D P)).
Context (genuine : Node → Prop) `{!CollisionFree genuine}.
Implicit Types (r : Crdt) (σ : MemStore D P).

Lemma accept_all_accepts (l : list (D * Node)) :
  existsb (λ e, negb (validate acceptAll e.1 e.2)) l = false.
Proof. by induction l. Qed.

Lemma sync_success fuel r root (remote U : MemStore D P) :
  replica_ok genuine r → closed remote → genuine_store genuine remote → root ∈ dom remote →
  store r ⊆ U → remote ⊆ U → capacity U ≤ fuel →
  ∃ r', sync fuel r root remote = Some (r', Ok tt).
Proof.
  intros Hok Hcl Hg Hroot HsU HrU Hfuel. unfold sync, sync_validated.
  assert (1 + edges remote < fuel) as Hf
    by (pose proof (edges_mono remote U HrU); unfold capacity in Hfuel; lia).
  destruct (fetch_success fuel root (store r) remote Hcl Hroot Hf) as [l Hl]. rewrite Hl.
  rewrite accept_all_accepts.
  rewrite put_batch_mem.
  destruct (staged_ok genuine fuel root (store r) remote l (length l))
    as (Hcl' & Hg' & Hsub & Hup); [apply Hok|apply Hok|exact Hg|exact Hl|].
  assert (root ∈ dom (put_all (store r) l)) as Hrt
    by exact (staged_root genuine fuel root (store r) remote l Hg Hl).
  rewrite take_ge in Hcl', Hg', Hsub, Hup by done. simpl in Hcl', Hg', Hsub, Hup, Hrt.
  set (σ := put_all (store r) l) in *.
  assert (σ ⊆ U) as HσU.
  { apply map_subseteq_spec. intros c n [Hc|Hc]%Hup; by eapply lookup_weaken. }
  assert (roots (clock r) ⊆ dom σ) as Hst
    by (etrans; [apply (ro_stored _ _ Hok)|by apply subseteq_dom]).
  unfold activate. simpl.
  assert (roots (add_roots (clock r) [root]) ⊆ dom σ) as Hst1 by (simpl; set_solver).
  destruct (compact_roots_success fuel (add_roots (clock r) [root]) σ) as [k Hk];
    [done|done|by eapply capacity_roots|]. rewrite Hk.
  apply (compact_roots_spec genuine) in Hk as [Hks _]; [|done].
  assert (roots k ⊆ dom σ) as Hkd by set_solver.
  rewrite ancestry_success; [|done|done|by eapply capacity_roots].
  destruct (materialize_success fuel k σ) as [st ->]; [done|done|by eapply capacity_roots|]. eauto.
Qed.

Lemma sync_all_success fuel r rs (remote U : MemStore D P) :
  replica_ok genuine r → closed remote → genuine_store genuine remote →
  (∀ x, x ∈ rs → x ∈ dom remote) →
  store r ⊆ U → remote ⊆ U → capacity U ≤ fuel →
  ∃ r', sync_all fuel r rs remote = Some r' ∧ store r' ⊆ U.
Proof.
  intros Hok Hcl Hg Hrs HsU HrU Hfuel. revert r Hok HsU.
  induction rs as [|x rs IH]; intros r Hok HsU; simpl; [eauto|].
  destruct (sync_success fuel r x remote U) as [r1 Hr1]; try done; [apply Hrs; left|].
  rewrite Hr1. apply (sync_spec genuine) in Hr1 as (Hok1 & _ & Hup & _); [|done|done].
  apply IH; [intros; apply Hrs; by right|done|].
  apply map_subseteq_spec. intros c n [Hc|Hc]%Hup; by eapply lookup_weaken.
Qed.

(** Stores of genuine nodes agree where they overlap. *)
Lemma stores_agree σ1 σ2 :
  closed σ1 → closed σ2 → genuine_store genuine σ1 → genuine_store genuine σ2 →
  σ2 ⊆ σ1 ∪ σ2.
Proof.
  intros Hc1 Hc2 Hg1 Hg2. apply map_subseteq_spec. intros c n Hn.
  apply lookup_union_Some_raw. destruct (σ1 !! c) as [m|] eqn:Hm; [left|by right].
  f_equal. apply cf_inj.
  - eapply Hg1. by apply closed_verified.
  - eapply Hg2. by apply closed_verified.
  - destruct (Hc1 c m Hm), (Hc2 c n Hn). congruence.
Qed.

(** Two replicas that pull from each other, as in the crate's example. *)
Lemma mutual_sync fuel r1 r2 :
  replica_ok genuine r1 → replica_ok genuine r2 →
  capacity (store r1 ∪ store r2) ≤ fuel →
  ∃ r1' r2',
    sync_all fuel r1 (elements (roots (clock r2))) (store r2) = Some r1' ∧
    sync_all fuel r2 (elements (roots (clock r1'))) (store r1') = Some r2' ∧
    roots (clock r1') = roots (clock r2') ∧ state r1' = state r2'.
Proof.
  intros H1 H2 Hfuel.
  assert (store r2 ⊆ store r1 ∪ store r2) as Hsub2
    by (apply stores_agree; [apply H1|apply H2|apply H1|apply H2]).
  assert (store r1 ⊆ store r1 ∪ store r2) as Hsub1 by apply map_union_subseteq_l.
  destruct (sync_all_success fuel r1 (elements (roots (clock r2))) (store r2)
    (store r1 ∪ store r2)) as (r1' & Hr1' & HsU);
    [done|apply H2|apply H2| |done|done|done|].
  { intros x Hx%elem_of_elements. by apply (ro_stored _ _ H2). }
  destruct (sync_all_spec genuine _ _ _ _ _ H1 (ro_genuine _ _ H2) Hr1') as [H1' Hanc1].
  destruct (sync_all_success fuel r2 (elements (roots (clock r1'))) (store r1')
    (store r1 ∪ store r2)) as (r2' & Hr2' & _);
    [done|apply H1'|apply H1'| |done|done|done|].
  { intros x Hx%elem_of_elements. by apply (ro_stored _ _ H1'). }
  destruct (sync_all_spec genuine _ _ _ _ _ H2 (ro_genuine _ _ H1') Hr2') as [H2' Hanc2].
  exists r1', r2'. split; [done|]. split; [done|].
  apply (same_history_same_replica genuine); [done|done|].
  intros c. rewrite Hanc2, (list_to_set_elements_L (roots (clock r1'))), Hanc1,
    list_to_set_elements_L. tauto.
Qed.
End Sync.

(** ** Recovering a replica from its store *)

Section Recover.
Context {D P : Type} `{!Hasher D} `{Encode P, !Payload P}.
Abbreviation Crdt := (MerkleCrdt D P (MemStore D P)).
Context (genuine : DagNode D P → Prop) `{!CollisionFree genuine}.
Implicit Types (r : Crdt).

Lemma compact_heads fuel (k k' : MerkleClock D) (σ : MemStore D P) :
  genuine_store genuine σ → heads genuine (roots k) →
  compact_roots fuel k σ = Some (Ok k') → k' = k.
Proof.
  intros Hg Hh Hk. apply (compact_roots_spec genuine) in Hk as [Hsub Hx]; [|done].
  destruct k as [R], k' as [R']. simpl in *. f_equal. apply set_eq. intros x.
  split; [apply Hsub|]. intros Hin. destruct (Hx x Hin) as [[? _]|[_ Hb]]; [done|].
  by destruct (Hh x Hin).
Qed.

Lemma recover fuel r :
  replica_ok genuine r → capacity (store r) ≤ fuel →
  from_roots fuel (store r) (elements (roots (clock r))) = Some (Ok r).
Proof.
  intros Hok Hfuel. destruct Hok as [Hg Hcl Hst Hh Hs]. simpl in *.
  unfold from_roots, from_roots_validated.
  replace (add_roots clock_new (elements (roots (clock r)))) with (clock r).
  2: { destruct (clock r) as [R]. unfold add_roots. simpl. f_equal.
       by rewrite list_to_set_elements_L, (left_id_L ∅ (∪)). }
  assert (size (roots (clock r)) + edges (store r) < fuel) as Hf
    by (by eapply capacity_roots).
  destruct (compact_roots_success fuel (clock r) (store r)) as [k Hk]; [done|done|done|].
  rewrite Hk. apply compact_heads in Hk as ->; [|done|done].
  rewrite ancestry_success by done.
  destruct (materialize_success fuel (clock r) (store r)) as [st Hm]; [done|done|done|].
  rewrite Hm. apply (materialize_spec genuine) in Hm; [|done].
  rewrite (state_of_unique genuine _ _ _ _ (λ _, iff_refl _) Hm Hs). by destruct r.
Qed.
End Recover.

(** ** A small history

    One-byte payloads appended to a list, so that the order of application shows.
    [node_a] and [node_b] are concurrent, [node_c] follows both. *)

#[export] Instance log_payload : Payload (uint 1) := {|
  State := list N;
  state_default := [];
  apply_op st op := st ++ [uint_val op];
|}.

Abbreviation SampleNode := (DagNode Byte.byte (uint 1)).
Abbreviation SampleCrdt := (MerkleCrdt Byte.byte (uint 1) (MemStore Byte.byte (uint 1))).

Definition node_a : SampleNode := leaf (Uint 1).
Definition node_b : SampleNode := leaf (Uint 2).
Definition node_c : SampleNode := mkNode (Uint 3) {[cid node_a; cid node_b]}.

Lemma cid_a : cid node_a = Byte.xdb.
Proof. vm_compute. reflexivity. Qed.
Lemma cid_b : cid node_b = Byte.xdc.
Proof. vm_compute. reflexivity. Qed.
Lemma cid_c : cid node_c = Byte.x3c.
Proof. vm_compute. reflexivity. Qed.

Definition sample_genuine (n : SampleNode) : Prop := n = node_a ∨ n = node_b ∨ n = node_c.

#[export] Program Instance sample_collision_free : CollisionFree sample_genuine := {|
  cf_rank d := if decide (d = cid node_c) then 1 else 0;
|}.
Next Obligation.
  intros n m [->|[->| ->]] [->|[->| ->]];
    match goal with
    | |- _ → ?x = ?x => reflexivity
    | _ => rewrite ?cid_a, ?cid_b, ?cid_c; discriminate
    end.
Qed.
Next Obligation.
  intros n x [->|[->| ->]] Hx; [set_solver|set_solver|].
  rewrite (decide_True (P := cid node_c = cid node_c)) by done.
  change (x ∈ ({[cid node_a]} ∪ {[cid node_b]} : gset Byte.byte)) in Hx.
  apply elem_of_union in Hx as [->%elem_of_singleton| ->%elem_of_singleton];
    (rewrite decide_False; [lia|]; rewrite ?cid_a, ?cid_b, ?cid_c; discriminate).
Qed.

Definition replica_a : SampleCrdt := (apply (crdt_new ∅) (Uint 1)).1.
Definition replica_b : SampleCrdt := (apply (crdt_new ∅) (Uint 2)).1.

Lemma replica_a_ok : replica_ok sample_genuine replica_a.
Proof.
  apply (apply_Ok sample_genuine (crdt_new ∅) (Uint 1) replica_a (cid node_a));
    [by apply crdt_new_ok|by left|reflexivity].
Qed.

Lemma replica_b_ok : replica_ok sample_genuine replica_b.
Proof.
  apply (apply_Ok sample_genuine (crdt_new ∅) (Uint 2) replica_b (cid node_b));
    [by apply crdt_new_ok|by right; left|reflexivity].
Qed.

(** ** The properties *)

Section Properties.
Context {D P : Type} `{!Hasher D} `{Encode P, !Payload P}.

(** C2: Two replicas that pull from each other converge.  When each has pulled all
    roots of the other, as in the crate's example, every synchronisation has
    succeeded and both have the same roots and the same state; fuel proportional
    to the nodes and edges stored is enough. *)
Theorem replicas_converge (genuine : DagNode D P → Prop) `{!CollisionFree genuine} fuel
    (r1 r2 : MerkleCrdt D P (MemStore D P)) :
  replica_ok genuine r1 → replica_ok genuine r2 →
  capacity (store r1 ∪ store r2) ≤ fuel →
  ∃ r1' r2',
    sync_all fuel r1 (elements (roots (clock r2))) (store r2) = Some r1' ∧
    sync_all fuel r2 (elements (roots (clock r1'))) (store r1') = Some r2' ∧
    roots (clock r1') = roots (clock r2') ∧ state r1' = state r2'.
Proof. exact (mutual_sync genuine fuel r1 r2). Qed.

(** A replica can be recovered from its store and its roots: [from_roots]
    returns exactly the replica, its state included. *)
Theorem recover_round_trip (genuine : DagNode D P → Prop) `{!CollisionFree genuine} fuel
    (r : MerkleCrdt D P (MemStore D P)) :
  replica_ok genuine r → capacity (store r) ≤ fuel →
  from_roots fuel (store r) (elements (roots (clock r))) = Some (Ok r).
Proof. exact (recover genuine fuel r). Qed.

Context {S E : Type} `{!Store D P S E, !StoreLaws D P S E}.

(** Recording an operation keeps the replica's invariant, and the state it
    computes by applying the one operation is the state that rebuilding the whole
    history would give; a failed write changes neither clock nor state. *)
Theorem apply_matches_rebuild (genuine : DagNode D P → Prop) `{!CollisionFree genuine}
    (r r' : MerkleCrdt D P S) op res :
  replica_ok genuine r → genuine (next_node r op) → apply r op = (r', res) →
  match res with
  | Ok c => replica_ok genuine r' ∧ roots (clock r') = {[c]} ∧
            state r' = apply_op (state r) op ∧
            ∀ fuel st, materialize fuel (clock r') (store r') = Some (Ok st) → st = state r'
  | Err _ => clock r' = clock r ∧ state r' = state r ∧ abs (store r') = abs (store r)
  end.
Proof.
  intros Hok Hn Ha. destruct res as [c|e]; [|by eapply apply_Err].
  destruct (apply_Ok genuine r op r' c Hok Hn Ha) as (Hok' & _ & Hr & Hs).
  split_and!; [done|done|done|]. intros fuel st Hm.
  apply (materialize_spec genuine) in Hm; [|apply Hok'].
  eapply state_of_unique; [done|exact Hm|apply Hok'].
Qed.

(** Replicas with the same history have the same roots and the same state,
    whatever their stores and in whatever order they learned of it. *)
Theorem history_determines_replica (genuine : DagNode D P → Prop) `{!CollisionFree genuine}
    {S' E'} `{!Store D P S' E', !StoreLaws D P S' E'}
    (r1 : MerkleCrdt D P S) (r2 : MerkleCrdt D P S') :
  replica_ok genuine r1 → replica_ok genuine r2 →
  (∀ c, ancestor genuine (roots (clock r1)) c ↔ ancestor genuine (roots (clock r2)) c) →
  roots (clock r1) = roots (clock r2) ∧ state r1 = state r2.
Proof. exact (same_history_same_replica genuine r1 r2). Qed.

(** Synchronising keeps the replica's invariant whatever happens: on success
    the history is the union of both, all of it accepted by the validator; on any
    failure, storage included, roots and state are as before and the store is
    still closed under children, so that a retry can finish the work. *)
Theorem sync_is_atomic (genuine : DagNode D P → Prop) `{!CollisionFree genuine}
    {SR ER} `{!Store D P SR ER, !StoreLaws D P SR ER} {V} `{!NodeValidator D P V}
    fuel root (r r' : MerkleCrdt D P S) (remote : SR) (v : V) res :
  replica_ok genuine r → genuine_store genuine (abs remote) →
  sync_validated fuel r root remote v = Some (r', res) →
  replica_ok genuine r' ∧ abs (store r) ⊆ abs (store r') ∧
  match res with
  | Ok _ =>
      (∀ c, ancestor genuine (roots (clock r')) c ↔
            ancestor genuine (roots (clock r)) c ∨ ancestor genuine {[root]} c) ∧
      (∀ c, ancestor genuine (roots (clock r')) c →
            ∃ n, verified (abs (store r')) c = Some n ∧ validate v c n = true)
  | Err _ => clock r' = clock r ∧ state r' = state r
  end.
Proof.
  intros Hok Hg Hs. destruct (sync_spec genuine _ _ _ _ _ _ _ Hok Hg Hs) as (? & ? & _ & ?). done.
Qed.

(** Compaction keeps exactly the roots that are below no other root, also
    when it stops early, and does not change the history. *)
Theorem compact_roots_correct (genuine : DagNode D P → Prop) `{!CollisionFree genuine} fuel
    (k k' : MerkleClock D) (s : S) :
  genuine_store genuine (abs s) → compact_roots fuel k s = Some (Ok k') →
  (∀ x, x ∈ roots k' ↔ x ∈ roots k ∧ ¬ below genuine (roots k) x) ∧
  (∀ c, ancestor genuine (roots k') c ↔ ancestor genuine (roots k) c).
Proof.
  intros Hg Hk. split; [|intros; by eapply compact_roots_ancestor].
  destruct (compact_roots_spec genuine _ _ _ _ Hg Hk) as [Hsub Hx]. intros x. split.
  - intros Hin. destruct (Hx x (Hsub x Hin)) as [[? ?]|[? _]]; [split; auto|done].
  - intros [Hin Hb]. by destruct (Hx x Hin) as [[? _]|[_ ?]].
Qed.

(** [walk] calls the visitor once on every node of the root's history, with
    the node the store holds, and on every child before its parents. *)
Theorem walk_visits_history (genuine : DagNode D P → Prop) `{!CollisionFree genuine} fuel
    (root : D) (s : S) calls :
  genuine_store genuine (abs s) → walk fuel root s = Some (Ok calls) →
  NoDup calls.*1 ∧ children_first calls ∧
  (∀ c n, (c, n) ∈ calls → verified (abs s) c = Some n) ∧
  ∀ c, c ∈ calls.*1 ↔ ancestor genuine {[root]} c.
Proof. intros Hg. exact (walk_spec genuine s root Hg fuel calls). Qed.

(** C34: Every traversal terminates on any store, corrupt or cyclic ones included,
    within fuel linear in the nodes and edges stored. *)
Theorem traversals_terminate {SR ER} `{!Store D P SR ER, !StoreLaws D P SR ER}
    {V} `{!NodeValidator D P V} fuel (k : MerkleClock D) (root : D) (s : S) (remote : SR) (v : V) :
  1 + size (roots k) + size (abs s) + edges (abs s) + edges (abs remote) < fuel →
  (∃ x, compact_roots fuel k s = Some x) ∧ (∃ x, materialize fuel k s = Some x) ∧
  (∃ x, ancestry_is_valid fuel k s v = Some x) ∧ (∃ x, walk fuel root s = Some x) ∧
  (∃ x, fetch_missing fuel root s remote = Some x).
Proof.
  intros Hf. split_and!; [apply compact_roots_total|apply materialize_total|
    apply ancestry_is_valid_total|apply walk_total|apply fetch_missing_total]; lia.
Qed.
End Properties.

(** ** Witnesses *)

Definition replica_ab : SampleCrdt :=
  default replica_a (fst <$> sync_validated 50 replica_a (cid node_b) (store replica_b) acceptAll).
Definition replica_ba : SampleCrdt :=
  default replica_b (fst <$> sync_validated 50 replica_b (cid node_a) (store replica_a) acceptAll).

(** The outcome of a synchronisation, computed. *)
Definition synced (x : option (SampleCrdt * result (SyncError Empty_set Empty_set) unit)) : bool :=
  match x with Some (_, Ok _) => true | _ => false end.

Lemma synced_Some x r : synced x = true → x = Some (default r (fst <$> x), Ok tt).
Proof. by destruct x as [[r' [[]|e]]|]. Qed.

Lemma sync_ab :
  sync_validated 50 replica_a (cid node_b) (store replica_b) acceptAll = Some (replica_ab, Ok tt).
Proof. apply synced_Some. vm_compute. reflexivity. Qed.
Lemma sync_ba :
  sync_validated 50 replica_b (cid node_a) (store replica_a) acceptAll = Some (replica_ba, Ok tt).
Proof. apply synced_Some. vm_compute. reflexivity. Qed.

Lemma replica_a_roots : roots (clock replica_a) = {[cid node_a]}.
Proof. apply (bool_decide_eq_true_1 _). vm_compute. reflexivity. Qed.
Lemma replica_b_roots : roots (clock replica_b) = {[cid node_b]}.
Proof. apply (bool_decide_eq_true_1 _). vm_compute. reflexivity. Qed.

Lemma replica_ab_ok :
  replica_ok sample_genuine replica_ab ∧
  ∀ c, ancestor sample_genuine (roots (clock replica_ab)) c ↔
       ancestor sample_genuine {[cid node_a]} c ∨ ancestor sample_genuine {[cid node_b]} c.
Proof.
  destruct (sync_spec sample_genuine _ _ _ _ _ _ _ replica_a_ok
    (ro_genuine _ _ replica_b_ok) sync_ab) as (Hok & _ & _ & Hanc & _).
  split; [exact Hok|]. intros c. rewrite Hanc, replica_a_roots. reflexivity.
Qed.

Lemma replica_ba_ok :
  replica_ok sample_genuine replica_ba ∧
  ∀ c, ancestor sample_genuine (roots (clock replica_ba)) c ↔
       ancestor sample_genuine {[cid node_b]} c ∨ ancestor sample_genuine {[cid node_a]} c.
Proof.
  destruct (sync_spec sample_genuine _ _ _ _ _ _ _ replica_b_ok
    (ro_genuine _ _ replica_a_ok) sync_ba) as (Hok & _ & _ & Hanc & _).
  split; [exact Hok|]. intros c. rewrite Hanc, replica_b_roots. reflexivity.
Qed.

Definition replica_abc : SampleCrdt := (apply replica_ab (Uint 3)).1.

Lemma next_node_ab : next_node replica_ab (Uint 3) = node_c.
Proof.
  assert (roots (clock replica_ab) = {[cid node_a; cid node_b]}) as Hr
    by (apply (bool_decide_eq_true_1 _); vm_compute; reflexivity).
  unfold next_node. rewrite Hr. reflexivity.
Qed.

Lemma apply_ab : apply replica_ab (Uint 3) = (replica_abc, Ok (cid (next_node replica_ab (Uint 3)))).
Proof. reflexivity. Qed.

Lemma replicas_converge_witness :
  ∃ r1' r2',
    sync_all 50 replica_a (elements (roots (clock replica_b))) (store replica_b) = Some r1' ∧
    sync_all 50 replica_b (elements (roots (clock r1'))) (store r1') = Some r2' ∧
    roots (clock r1') = roots (clock r2') ∧ state r1' = state r2'.
Proof.
  apply (replicas_converge sample_genuine 50 replica_a replica_b replica_a_ok replica_b_ok).
  apply Nat.leb_le. vm_compute. reflexivity.
Defined.

Lemma recover_round_trip_witness :
  from_roots 50 (store replica_ab) (elements (roots (clock replica_ab))) = Some (Ok replica_ab) ∧
  state replica_ab = [1; 2]%N.
Proof.
  split; [|vm_compute; reflexivity].
  apply (recover_round_trip sample_genuine 50 replica_ab (proj1 replica_ab_ok)).
  apply Nat.leb_le. vm_compute. reflexivity.
Defined.

Lemma apply_matches_rebuild_witness :
  replica_ok sample_genuine replica_abc ∧ state replica_abc = [1; 2; 3]%N.
Proof.
  split; [|vm_compute; reflexivity].
  apply (apply_matches_rebuild sample_genuine replica_ab replica_abc (Uint 3)
    (Ok (cid (next_node replica_ab (Uint 3)))) (proj1 replica_ab_ok)).
  - rewrite next_node_ab. right. right. reflexivity.
  - apply apply_ab.
Defined.

Lemma history_determines_replica_witness :
  roots (clock replica_ab) = roots (clock replica_ba) ∧ state replica_ab = state replica_ba.
Proof.
  apply (history_determines_replica sample_genuine replica_ab replica_ba
    (proj1 replica_ab_ok) (proj1 replica_ba_ok)).
  intros c. rewrite (proj2 replica_ab_ok c), (proj2 replica_ba_ok c). tauto.
Defined.

Lemma sync_is_atomic_witness :
  replica_ok sample_genuine replica_ab ∧ state replica_ab = [1; 2]%N.
Proof.
  split; [|vm_compute; reflexivity].
  exact (proj1 (sync_is_atomic sample_genuine 50 (cid node_b) replica_a replica_ab
    (store replica_b) acceptAll (Ok tt) replica_a_ok (ro_genuine _ _ replica_b_ok) sync_ab)).
Defined.

Definition store_abc : MemStore Byte.byte (uint 1) :=
  <[cid node_c := node_c]> (<[cid node_b := node_b]> (<[cid node_a := node_a]> ∅)).

Lemma store_abc_genuine : genuine_store sample_genuine store_abc.
Proof.
  apply genuine_store_insert; [|by right; right].
  apply genuine_store_insert; [|by right; left].
  apply genuine_store_insert; [|by left].
  intros c n [Hl _]%verified_Some. by rewrite lookup_empty in Hl.
Qed.

Definition all_roots : MerkleClock Byte.byte :=
  mkClock {[cid node_a; cid node_b; cid node_c]}.

Definition compacted : MerkleClock Byte.byte :=
  match compact_roots 50 all_roots store_abc with Some (Ok k) => k | _ => all_roots end.

Lemma compacts_to : compact_roots 50 all_roots store_abc = Some (Ok compacted).
Proof.
  unfold compacted.
  assert (match compact_roots 50 all_roots store_abc with Some (Ok _) => true | _ => false end = true)
    as Hok by (vm_compute; reflexivity).
  by destruct (compact_roots 50 all_roots store_abc) as [[k|e]|].
Qed.

Lemma compact_roots_correct_witness :
  (∀ x, x ∈ roots compacted ↔ x ∈ roots all_roots ∧ ¬ below sample_genuine (roots all_roots) x) ∧
  roots compacted = {[cid node_c]}.
Proof.
  split; [|apply (bool_decide_eq_true_1 _); vm_compute; reflexivity].
  pose proof (compact_roots_correct sample_genuine 50 all_roots compacted store_abc) as Hc.
  exact (proj1 (Hc store_abc_genuine compacts_to)).
Defined.

Definition walked : list (Byte.byte * SampleNode) :=
  match walk 50 (cid node_c) store_abc with Some (Ok calls) => calls | _ => [] end.

Lemma walks_to : walk 50 (cid node_c) store_abc = Some (Ok walked).
Proof.
  unfold walked.
  assert (match walk (P := uint 1) 50 (cid node_c) store_abc with Some (Ok _) => true | _ => false end
    = true) as Hok by (vm_compute; reflexivity).
  by destruct (walk 50 (cid node_c) store_abc) as [[calls|e]|].
Qed.

Lemma walk_visits_history_witness :
  walked.*1 = [cid node_a; cid node_b; cid node_c] ∧ children_first walked.
Proof.
  split; [vm_compute; reflexivity|].
  pose proof (walk_visits_history sample_genuine 50 (cid node_c) store_abc walked) as Hw.
  exact (proj1 (proj2 (Hw store_abc_genuine walks_to))).
Defined.

Lemma traversals_terminate_witness :
  ∃ x, fetch_missing 50 (cid node_c) (store replica_a) store_abc = Some x.
Proof.
  apply (traversals_terminate 50 (clock replica_a) (cid node_c) (store replica_a) store_abc
    acceptAll). apply Nat.ltb_lt. vm_compute. reflexivity.
Defined.
