(* ===== verification/Blake2b.v ===== *)
(** * vos: the blake2b precompile

    [vos/src/crypto/blake2b.rs].  A guest actor hashes by driving the host one
    128-byte block at a time ([hash_via_ecall], [ecall_compress]); the host
    answers each block with [host_compress_block] over [compress_inner].  Words
    are [N] below [2^64]; arrays of words are lists, indexed by the constants of
    the source, all in range.  [Stream] is the state the closure [feed] threads:
    the chaining value, the block buffer with its stale bytes, its fill and the
    byte counter.

    [Module Rfc] is RFC 7693 written down without the definitions of the code: the
    initial vector as square roots of primes, the working state as four rows of
    four words that a round mixes by columns and, after rotating the rows, by
    diagonals, rotation as arithmetic, chaining values as words.
    [compress_inner_rfc] proves the code's compression function equal to it.
    [ref] is the code's compression chained over a whole message, and [pending]
    the streaming invariant: what the state still has to hash is the buffered
    prefix followed by what is fed next. *)

From Stdlib.Strings Require Byte.
From S2P Require Import Prelude Bytes.

Local Open Scope N_scope.

(** ** Machine words *)

Definition rotate_right64 (x n : N) : N :=
  N.lor (N.shiftr x n) ((N.shiftl x (64 - n)) `mod` u64_modulus).
Definition not64 (x : N) : N := N.lxor x u64_max.

(** ** The compression function *)

Definition BLAKE2B_IV : list N :=
  [0x6A09E667F3BCC908; 0xBB67AE8584CAA73B; 0x3C6EF372FE94F82B; 0xA54FF53A5F1D36F1;
   0x510E527FADE682D1; 0x9B05688C2B3E6C1F; 0x1F83D9ABFB41BD6B; 0x5BE0CD19137E2179].

Definition SIGMA : list (list nat) :=
  [[0; 1; 2; 3; 4; 5; 6; 7; 8; 9; 10; 11; 12; 13; 14; 15];
   [14; 10; 4; 8; 9; 15; 13; 6; 1; 12; 0; 2; 11; 7; 5; 3];
   [11; 8; 12; 0; 5; 2; 15; 13; 10; 14; 3; 6; 7; 1; 9; 4];
   [7; 9; 3; 1; 13; 12; 11; 14; 2; 6; 5; 10; 4; 0; 15; 8];
   [9; 0; 5; 7; 2; 4; 10; 15; 14; 1; 11; 12; 6; 8; 3; 13];
   [2; 12; 6; 10; 0; 11; 8; 3; 4; 13; 7; 5; 15; 14; 1; 9];
   [12; 5; 1; 15; 14; 13; 4; 10; 0; 7; 6; 3; 9; 2; 8; 11];
   [13; 11; 7; 14; 12; 1; 3; 9; 5; 0; 15; 4; 8; 6; 2; 10];
   [6; 15; 14; 9; 11; 3; 0; 8; 12; 2; 13; 7; 1; 4; 10; 5];
   [10; 2; 8; 4; 7; 6; 1; 5; 15; 11; 9; 14; 3; 12; 13; 0];
   [0; 1; 2; 3; 4; 5; 6; 7; 8; 9; 10; 11; 12; 13; 14; 15];
   [14; 10; 4; 8; 9; 15; 13; 6; 1; 12; 0; 2; 11; 7; 5; 3]]%nat.

(** [fn g]: the quarter round, on the array [v] in place. *)
Definition g (v : list N) (a b c d : nat) (mx my : N) : list N :=
  let v := <[a := wrapping_add64 (wrapping_add64 (v !!! a) (v !!! b)) mx]> v in
  let v := <[d := rotate_right64 (N.lxor (v !!! d) (v !!! a)) 32]> v in
  let v := <[c := wrapping_add64 (v !!! c) (v !!! d)]> v in
  let v := <[b := rotate_right64 (N.lxor (v !!! b) (v !!! c)) 24]> v in
  let v := <[a := wrapping_add64 (wrapping_add64 (v !!! a) (v !!! b)) my]> v in
  let v := <[d := rotate_right64 (N.lxor (v !!! d) (v !!! a)) 16]> v in
  let v := <[c := wrapping_add64 (v !!! c) (v !!! d)]> v in
  <[b := rotate_right64 (N.lxor (v !!! b) (v !!! c)) 63]> v.

Definition round (m : list N) (v : list N) (s : list nat) : list N :=
  let mi i := m !!! (s !!! i) in
  let v := g v 0 4 8 12 (mi 0%nat) (mi 1%nat) in
  let v := g v 1 5 9 13 (mi 2%nat) (mi 3%nat) in
  let v := g v 2 6 10 14 (mi 4%nat) (mi 5%nat) in
  let v := g v 3 7 11 15 (mi 6%nat) (mi 7%nat) in
  let v := g v 0 5 10 15 (mi 8%nat) (mi 9%nat) in
  let v := g v 1 6 11 12 (mi 10%nat) (mi 11%nat) in
  let v := g v 2 7 8 13 (mi 12%nat) (mi 13%nat) in
  g v 3 4 9 14 (mi 14%nat) (mi 15%nat).

(** [t] is a [u128]: its low and high halves enter separately. *)
Definition init_v (h : list N) (t : N) (f : bool) : list N :=
  let v := h ++ BLAKE2B_IV in
  let v := <[12%nat := N.lxor (v !!! 12%nat) (t `mod` u64_modulus)]> v in
  let v := <[13%nat := N.lxor (v !!! 13%nat) (t / u64_modulus)]> v in
  if f then <[14%nat := not64 (v !!! 14%nat)]> v else v.

Definition compress_inner (h m : list N) (t : N) (f : bool) : list N :=
  let v := foldl (round m) (init_v h t f) SIGMA in
  (λ i, N.lxor (N.lxor (h !!! i) (v !!! i)) (v !!! (i + 8)%nat)) <$> seq 0 8.

(** Little-endian words of a byte array of [n] words, and back. *)
Definition words (n : nat) (b : bytes) : list N :=
  (λ i, from_le_bytes (take 8 (drop (i * 8) b))) <$> seq 0 n.
Definition unwords (ws : list N) : bytes := ws ≫= to_le_bytes 8.

Definition host_compress_block (h m : bytes) (t : N) (f : bool) : bytes :=
  unwords (compress_inner (words 8 h) (words 16 m) t f).

(** ** Hashing through the host, block by block *)

(** Only the low half of the counter crosses the boundary. *)
Definition ecall_compress (h m : bytes) (t : N) (f : bool) : bytes :=
  host_compress_block h m (t `mod` u64_modulus) f.

Record Stream := mkStream {
  st_h : bytes;
  st_buf : bytes;
  st_len : nat;
  st_t : N;
}.

(** [param_lo]: digest length, no key, fanout and depth 1. *)
Definition param_lo (n : N) : N := N.lor 0x01010000 n.

Definition init_h (n : N) : bytes :=
  unwords (<[0%nat := N.lxor (BLAKE2B_IV !!! 0%nat) (param_lo n)]> BLAKE2B_IV).

Definition zeros (n : nat) : bytes := replicate n Byte.x00.

Definition stream_new (n : N) : Stream := mkStream (init_h n) (zeros 128) 0 0.

(** A full buffer is compressed only when more bytes follow. *)
Definition flush (st : Stream) : Stream :=
  if bool_decide (st_len st = 128%nat)
  then mkStream (ecall_compress (st_h st) (st_buf st) (st_t st + 128) false)
         (st_buf st) 0 (st_t st + 128)
  else st.

(** [buf[buf_len..buf_len + n].copy_from_slice(..)]. *)
Definition fill (st : Stream) (chunk : bytes) : Stream :=
  mkStream (st_h st)
    (take (st_len st) (st_buf st) ++ chunk ++ drop (st_len st + length chunk) (st_buf st))
    (st_len st + length chunk) (st_t st).

(** The [while i < bytes.len()] loop; every turn consumes a byte, so the length
    of the input bounds the turns. *)
Fixpoint feed_loop (fuel : nat) (input : bytes) (st : Stream) : Stream :=
  match fuel, input with
  | S fuel, _ :: _ =>
      let st := flush st in
      let n := (128 - st_len st) `min` length input in
      feed_loop fuel (drop n input) (fill st (take n input))
  | _, _ => st
  end%nat.

Definition feed (input : bytes) (st : Stream) : Stream := feed_loop (length input) input st.

Definition finish (st : Stream) : bytes :=
  let buf := take (st_len st) (st_buf st) ++ zeros (128 - st_len st) in
  ecall_compress (st_h st) buf (st_t st + N.of_nat (st_len st)) true.

Definition hash_via_ecall (n : nat) (domain : bytes) (parts : list bytes) : bytes :=
  let st := feed domain (stream_new (N.of_nat n)) in
  let st := foldl (λ st p, feed p st) st parts in
  take n (finish st).

(** [assert!(OUT_LEN >= 1 && OUT_LEN <= 64)]: [None] is the panic. *)
Definition blake2b_hash (n : nat) (domain : bytes) (parts : list bytes) : option bytes :=
  if ((1 <=? n) && (n <=? 64))%nat then Some (hash_via_ecall n domain parts) else None.

(** The compression function chained over a whole message: cut into blocks, the
    last zero-padded and flagged final. *)
Fixpoint ref_from (fuel : nat) (h : bytes) (t : N) (msg : bytes) : bytes :=
  match fuel with
  | S fuel =>
      if (length msg <=? 128)%nat
      then host_compress_block h (msg ++ zeros (128 - length msg)) (t + blen msg) true
      else ref_from fuel (host_compress_block h (take 128 msg) (t + 128) false)
             (t + 128) (drop 128 msg)
  | O => []
  end.

(** ** The reference: RFC 7693 *)

Module Rfc.

(** Section 2.6: the first 64 bits of the fractional parts of the square roots of
    the first eight primes. *)
Definition IV : list N := (λ p, N.sqrt (p * 2 ^ 128) `mod` 2 ^ 64) <$> [2; 3; 5; 7; 11; 13; 17; 19].

(** Section 2.7: the message schedule; round [i] uses row [i mod 10]. *)
Definition schedule : list (list nat) :=
  [[ 0;  1;  2;  3;  4;  5;  6;  7;  8;  9; 10; 11; 12; 13; 14; 15];
   [14; 10;  4;  8;  9; 15; 13;  6;  1; 12;  0;  2; 11;  7;  5;  3];
   [11;  8; 12;  0;  5;  2; 15; 13; 10; 14;  3;  6;  7;  1;  9;  4];
   [ 7;  9;  3;  1; 13; 12; 11; 14;  2;  6;  5; 10;  4;  0; 15;  8];
   [ 9;  0;  5;  7;  2;  4; 10; 15; 14;  1; 11; 12;  6;  8;  3; 13];
   [ 2; 12;  6; 10;  0; 11;  8;  3;  4; 13;  7;  5; 15; 14;  1;  9];
   [12;  5;  1; 15; 14; 13;  4; 10;  0;  7;  6;  3;  9;  2;  8; 11];
   [13; 11;  7; 14; 12;  1;  3;  9;  5;  0; 15;  4;  8;  6;  2; 10];
   [ 6; 15; 14;  9; 11;  3;  0;  8; 12;  2; 13;  7;  1;  4; 10;  5];
   [10;  2;  8;  4;  7;  6;  1;  5; 15; 11;  9; 14;  3; 12; 13;  0]]%nat.

Definition add (x y : N) : N := (x + y) `mod` 2 ^ 64.
(** Section 2.3: [x >>> r]. *)
Definition ror (r x : N) : N := x / 2 ^ r + (x `mod` 2 ^ r) * 2 ^ (64 - r).

Notation vadd := (zip_with add).
Notation vxor := (zip_with N.lxor).

(** Four rows of four words. *)
Notation rows := (list N * list N * list N * list N)%type.

(** Section 3.1: the mixing function, on the four columns at once. *)
Definition mix (v : rows) (x y : list N) : rows :=
  let '(a, b, c, d) := v in
  let a := vadd (vadd a b) x in
  let d := ror 32 <$> vxor d a in
  let c := vadd c d in
  let b := ror 24 <$> vxor b c in
  let a := vadd (vadd a b) y in
  let d := ror 16 <$> vxor d a in
  let c := vadd c d in
  let b := ror 63 <$> vxor b c in
  (a, b, c, d).

Fixpoint evens {A} (l : list A) : list A :=
  match l with
  | x :: _ :: l => x :: evens l
  | _ => l
  end.

Definition odds {A} (l : list A) : list A := evens (tail l).

(** Row [k] turned left by [k] places: diagonals become columns. *)
Definition diagonals (v : rows) : rows :=
  let '(a, b, c, d) := v in (a, rotate 1 b, rotate 2 c, rotate 3 d).
Definition undiagonals (v : rows) : rows :=
  let '(a, b, c, d) := v in (a, rotate 3 b, rotate 2 c, rotate 1 d).

Definition mix_round (m : list N) (v : rows) (s : list nat) : rows :=
  let w := (λ i, m !!! i) <$> s in
  let v := mix v (evens (take 8 w)) (odds (take 8 w)) in
  undiagonals (mix (diagonals v) (evens (drop 8 w)) (odds (drop 8 w))).

(** Section 3.2: the compression function. *)
Definition F (h m : list N) (t : N) (f : bool) : list N :=
  let v := (take 4 h, drop 4 h, take 4 IV,
            vxor (drop 4 IV) [t `mod` 2 ^ 64; t / 2 ^ 64; if f then 2 ^ 64 - 1 else 0; 0]) in
  let '(a, b, c, d) := foldl (λ v i, mix_round m v (schedule !!! (i `mod` 10)%nat)) v (seq 0 12) in
  vxor (vxor h (a ++ b)) (c ++ d).

Definition block_words (b : bytes) : list N :=
  (λ i, from_le_bytes (take 8 (drop (8 * i) b))) <$> seq 0 16.

(** Section 3.3: every block but the last, then the last, padded with zeros. *)
Fixpoint chain (fuel : nat) (h : list N) (t : N) (msg : bytes) : list N :=
  match fuel with
  | S fuel =>
      if (length msg <=? 128)%nat
      then F h (block_words (msg ++ replicate (128 - length msg) Byte.x00)) (t + blen msg) true
      else chain fuel (F h (block_words (take 128 msg)) (t + 128) false) (t + 128) (drop 128 msg)
  | O => []
  end.

(** The unkeyed hash of [nn] bytes. *)
Definition blake2b (nn : nat) (msg : bytes) : bytes :=
  let h := vxor IV [2 ^ 24 + 2 ^ 16 + N.of_nat nn; 0; 0; 0; 0; 0; 0; 0] in
  take nn (concat (to_le_bytes 8 <$> chain (S (length msg)) h 0 msg)).

End Rfc.

(** ** Word bounds *)

Definition word_ok (x : N) : Prop := x < u64_modulus.

Create HintDb word.

Lemma word_ok_bits x : word_ok x ↔ ∀ i, 64 ≤ i → N.testbit x i = false.
Proof.
  unfold word_ok. change u64_modulus with (2 ^ 64). split.
  - intros Hx i Hi. destruct (N.eq_dec x 0) as [->|Hx0]; [apply N.bits_0|].
    apply N.bits_above_log2. assert (N.log2 x < 64); [|lia].
    apply N.log2_lt_pow2; lia.
  - intros Hb. destruct (N.eq_dec x 0) as [->|Hx0]; [done|].
    apply N.log2_lt_pow2; [lia|]. destruct (N.lt_ge_cases (N.log2 x) 64) as [|Hge]; [done|].
    pose proof (N.bit_log2 x Hx0) as Hl. by rewrite Hb in Hl.
Qed.

Lemma word_ok_mod x : word_ok (x `mod` u64_modulus).
Proof. by apply N.mod_lt. Qed.

Lemma word_ok_lxor x y : word_ok x → word_ok y → word_ok (N.lxor x y).
Proof.
  rewrite !word_ok_bits. intros Hx Hy i Hi. by rewrite N.lxor_spec, Hx, Hy.
Qed.

Lemma word_ok_rotate x n : word_ok x → word_ok (rotate_right64 x n).
Proof.
  intros Hx. pose proof (word_ok_mod (N.shiftl x (64 - n))) as Hm.
  unfold rotate_right64. rewrite !word_ok_bits in *. intros i Hi.
  rewrite N.lor_spec, N.shiftr_spec' by lia. rewrite Hx, Hm by lia. done.
Qed.

Lemma word_ok_lookup (v : list N) i : Forall word_ok v → word_ok (v !!! i).
Proof.
  intros Hv. destruct (decide (i < length v)%nat) as [Hi|Hi].
  - eapply Forall_lookup_total_1; done.
  - rewrite list_lookup_total_alt, lookup_ge_None_2 by lia. done.
Qed.

Lemma word_ok_insert (v : list N) i x :
  Forall word_ok v → word_ok x → Forall word_ok (<[i := x]> v).
Proof. intros. by apply Forall_insert. Qed.

Lemma word_ok_add x y : word_ok (wrapping_add64 x y).
Proof. apply word_ok_mod. Qed.

#[export] Hint Resolve word_ok_mod word_ok_lxor word_ok_rotate word_ok_lookup word_ok_insert
  word_ok_add : word.

(** Names the value of the next [let] and what holds of it. *)
Ltac let_words :=
  match goal with
  | |- Forall word_ok (let v := ?x in @?k v) =>
      let H := fresh "Hw" in
      assert (Forall word_ok x) as H by auto 8 with word;
      change (Forall word_ok (k x)); revert H; generalize x; intros ? H; cbv beta
  end.

Lemma g_words v a b c d mx my : Forall word_ok v → Forall word_ok (g v a b c d mx my).
Proof. intros Hv. cbv beta delta [g]. repeat let_words. auto 8 with word. Qed.
#[export] Hint Resolve g_words : word.

Lemma round_words m v s : Forall word_ok v → Forall word_ok (round m v s).
Proof. intros Hv. cbv beta delta [round]. cbv zeta. auto 20 with word. Qed.

Lemma length_g v a b c d mx my : length (g v a b c d mx my) = length v.
Proof. unfold g. by rewrite !length_insert. Qed.

Lemma length_round m v s : length (round m v s) = length v.
Proof. unfold round. by rewrite !length_g. Qed.

Lemma BLAKE2B_IV_words : Forall word_ok BLAKE2B_IV.
Proof. by apply (bool_decide_unpack _); vm_compute. Qed.

Lemma init_v_words h t f :
  Forall word_ok h → t < u64_modulus * u64_modulus → Forall word_ok (init_v h t f).
Proof.
  intros Hh Ht. pose proof BLAKE2B_IV_words.
  assert (word_ok (t / u64_modulus)) by (apply N.Div0.div_lt_upper_bound; lia).
  assert (Forall word_ok (h ++ BLAKE2B_IV)) by by apply Forall_app.
  assert (word_ok u64_max) by done.
  unfold init_v, not64. destruct f; auto 20 with word.
Qed.

(** The sixteen working words and the eight words of the result stay below
    [2^64], so that [to_le_bytes] loses nothing. *)
Lemma compress_inner_words h m t f :
  Forall word_ok h → t < u64_modulus * u64_modulus →
  Forall word_ok (compress_inner h m t f) ∧ length (compress_inner h m t f) = 8%nat.
Proof.
  intros Hh Ht. split; [|unfold compress_inner; by rewrite length_fmap, length_seq].
  pose proof (init_v_words h t f Hh Ht) as Hv. unfold compress_inner.
  revert Hv. generalize (init_v h t f). induction SIGMA as [|s ss IH]; intros v Hv; csimpl.
  - repeat constructor; auto with word.
  - apply IH. by apply round_words.
Qed.

Lemma unwords_cons w ws : unwords (w :: ws) = to_le_bytes 8 w ++ unwords ws.
Proof. reflexivity. Qed.

Lemma unwords_concat ws : unwords ws = concat (to_le_bytes 8 <$> ws).
Proof. induction ws as [|w ws IH]; [done|]. by rewrite unwords_cons, IH. Qed.

Lemma length_unwords ws : length (unwords ws) = (8 * length ws)%nat.
Proof.
  induction ws as [|w ws IH]; [done|].
  rewrite unwords_cons, length_app, IH, length_to_le_bytes. simpl. lia.
Qed.

Lemma length_host_compress_block h m t f : length (host_compress_block h m t f) = 64%nat.
Proof.
  unfold host_compress_block, compress_inner. by rewrite length_unwords, length_fmap, length_seq.
Qed.

(** Reading words back from the bytes they were written to. *)
Lemma words_unwords ws : Forall word_ok ws → words (length ws) (unwords ws) = ws.
Proof.
  intros Hws. unfold words. apply list_eq. intros i. rewrite list_lookup_fmap.
  destruct (decide (i < length ws)%nat) as [Hi|Hi].
  - rewrite lookup_seq_lt by done. simpl. destruct (lookup_lt_is_Some_2 ws i Hi) as [w Hw].
    rewrite Hw. f_equal. revert i Hi Hw. induction Hws as [|x ws Hx Hws IH]; intros [|i] Hi Hw; try done.
    + injection Hw as ->. rewrite unwords_cons, drop_0.
      rewrite take_app_length' by by rewrite length_to_le_bytes. apply from_to_le_bytes. exact Hx.
    + simpl in Hw. rewrite unwords_cons.
      rewrite drop_app_ge by (rewrite length_to_le_bytes; lia). rewrite length_to_le_bytes.
      replace (S i * 8 - 8)%nat with (i * 8)%nat by lia. apply IH; [|done].
      simpl in Hi. lia.
  - rewrite (lookup_ge_None_2 ws) by lia. by rewrite lookup_seq_ge by lia.
Qed.

(** ** Streaming *)

Definition ref (h : bytes) (t : N) (msg : bytes) : bytes := ref_from (S (length msg)) h t msg.

Lemma ref_from_fuel fuel1 fuel2 h t msg :
  (length msg < fuel1)%nat → (length msg < fuel2)%nat →
  ref_from fuel1 h t msg = ref_from fuel2 h t msg.
Proof.
  revert fuel2 h t msg. induction fuel1 as [|fuel1 IH]; intros [|fuel2] h t msg H1 H2; try lia.
  cbn [ref_from]. destruct (Nat.leb_spec (length msg) 128); [done|].
  apply IH; rewrite length_drop; lia.
Qed.

Lemma ref_block h t msg :
  (128 < length msg)%nat →
  ref h t msg = ref (host_compress_block h (take 128 msg) (t + 128) false) (t + 128) (drop 128 msg).
Proof.
  intros Hlen. unfold ref at 1. cbn [ref_from].
  destruct (Nat.leb_spec (length msg) 128); [lia|].
  apply ref_from_fuel; rewrite length_drop; lia.
Qed.

Lemma ref_last h t msg :
  (length msg ≤ 128)%nat →
  ref h t msg = host_compress_block h (msg ++ zeros (128 - length msg)) (t + blen msg) true.
Proof.
  intros Hlen. unfold ref. cbn [ref_from]. by destruct (Nat.leb_spec (length msg) 128); [|lia].
Qed.

Definition buffered (st : Stream) : bytes := take (st_len st) (st_buf st).

Record stream_ok (st : Stream) : Prop := {
  sok_buf : length (st_buf st) = 128%nat;
  sok_len : (st_len st ≤ 128)%nat;
}.

(** Room left in the 64-bit counter for [n] more bytes. *)
Definition room (st : Stream) (n : nat) : Prop := st_t st + N.of_nat (st_len st + n) < u64_modulus.

(** What is left to hash once [rest] has been fed. *)
Definition pending (st : Stream) (rest : bytes) : bytes :=
  ref (st_h st) (st_t st) (buffered st ++ rest).

Lemma length_buffered st : stream_ok st → length (buffered st) = st_len st.
Proof. intros [Hb Hl]. unfold buffered. rewrite length_take. lia. Qed.

Lemma flush_spec st rest n :
  stream_ok st → rest ≠ [] → room st n →
  stream_ok (flush st) ∧ (st_len (flush st) < 128)%nat ∧
  st_t (flush st) + N.of_nat (st_len (flush st)) = st_t st + N.of_nat (st_len st) ∧
  pending (flush st) rest = pending st rest.
Proof.
  intros Hok Hrest Hroom. pose proof (length_buffered st Hok) as Hbl. destruct Hok as [Hb Hl].
  unfold flush. case_bool_decide as H128.
  - assert (0 < length rest)%nat by (destruct rest; [done|simpl; lia]).
    unfold room in *. cbn [st_t st_len]. split_and!; [by constructor; simpl; lia|lia|lia|].
    unfold pending at 2. rewrite ref_block by (rewrite length_app; lia).
    rewrite take_app_length', drop_app_length' by lia.
    unfold pending, buffered, ecall_compress. cbn [st_h st_t st_len st_buf].
    rewrite take_0, N.mod_small, (take_ge (st_buf st)) by lia. done.
  - split_and!; [by constructor|lia|done|done].
Qed.

Lemma fill_spec st chunk rest :
  stream_ok st → (st_len st + length chunk ≤ 128)%nat →
  stream_ok (fill st chunk) ∧ pending (fill st chunk) rest = pending st (chunk ++ rest).
Proof.
  intros [Hb Hl] Hc. split.
  - constructor; unfold fill; cbn [st_buf st_len]; [|done].
    rewrite !length_app, length_take, length_drop. lia.
  - unfold pending, buffered, fill. cbn [st_h st_t st_len st_buf]. f_equal.
    rewrite take_app_ge by (rewrite length_take; lia). rewrite length_take.
    replace (st_len st + length chunk - st_len st `min` length (st_buf st))%nat
      with (length chunk) by lia.
    by rewrite take_app_length, <- (assoc_L (++)).
Qed.

Lemma feed_loop_spec fuel input st rest :
  (length input ≤ fuel)%nat → stream_ok st → room st (length input) →
  stream_ok (feed_loop fuel input st) ∧
  (st_t (feed_loop fuel input st) + N.of_nat (st_len (feed_loop fuel input st))
   = st_t st + N.of_nat (st_len st + length input)) ∧
  pending (feed_loop fuel input st) rest = pending st (input ++ rest).
Proof.
  revert input st. induction fuel as [|fuel IH]; intros input st Hf Hok Hroom.
  { destruct input; [|simpl in Hf; lia]. cbn [feed_loop]. split_and!; [done|simpl; lia|done]. }
  destruct input as [|x input]; [cbn [feed_loop]; split_and!; [done|simpl; lia|done]|].
  remember (x :: input) as l eqn:Hl. assert (0 < length l)%nat as Hpos by (subst; simpl; lia).
  destruct (flush_spec st (l ++ rest) (length l) Hok) as (Hok1 & Hlt & Ht1 & Hp1); [by subst|done|].
  set (n := ((128 - st_len (flush st)) `min` length l)%nat).
  replace (feed_loop (S fuel) l st) with
    (feed_loop fuel (drop n l) (fill (flush st) (take n l))) by by subst.
  assert (length (take n l) = n) as Hn by (rewrite length_take; lia).
  assert (length (drop n l) = length l - n)%nat as Hd by by rewrite length_drop.
  destruct (fill_spec (flush st) (take n l) (drop n l ++ rest)) as [Hok2 Hp2]; [done|lia|].
  destruct (IH (drop n l) (fill (flush st) (take n l))) as (Hok3 & Ht3 & Hp3);
    [lia|done|unfold room, fill in *; cbn [st_t st_len]; lia|].
  split_and!; [done| |].
  - rewrite Ht3. unfold fill. cbn [st_t st_len]. lia.
  - rewrite Hp3, Hp2, <- Hp1, (assoc_L (++)), take_drop. done.
Qed.

Lemma feed_spec input st rest :
  stream_ok st → room st (length input) →
  stream_ok (feed input st) ∧
  (st_t (feed input st) + N.of_nat (st_len (feed input st))
   = st_t st + N.of_nat (st_len st + length input)) ∧
  pending (feed input st) rest = pending st (input ++ rest).
Proof. apply feed_loop_spec. lia. Qed.

Lemma feed_parts_spec parts st rest :
  stream_ok st → room st (length (concat parts)) →
  let st' := foldl (λ st p, feed p st) st parts in
  stream_ok st' ∧
  (st_t st' + N.of_nat (st_len st')
   = st_t st + N.of_nat (st_len st + length (concat parts))) ∧
  pending st' rest = pending st (concat parts ++ rest).
Proof.
  revert st. induction parts as [|p parts IH]; intros st Hok Hroom.
  { simpl. split_and!; [done|lia|done]. }
  cbn [concat] in *. rewrite length_app in *. cbn [foldl].
  destruct (feed_spec p st (concat parts ++ rest) Hok) as (Hok1 & Ht1 & Hp1); [unfold room in *; lia|].
  destruct (IH (feed p st) Hok1) as (Hok2 & Ht2 & Hp2); [unfold room in *; lia|].
  split_and!; [done|lia|]. by rewrite Hp2, Hp1, (assoc_L (++)).
Qed.

Lemma finish_spec st : stream_ok st → room st 0 → finish st = pending st [].
Proof.
  intros Hok Hroom. pose proof (length_buffered st Hok) as Hbl. destruct Hok as [Hb Hl].
  unfold pending. rewrite app_nil_r, ref_last by lia.
  unfold finish, ecall_compress, room in *. rewrite N.mod_small by lia.
  fold (buffered st). unfold blen. by rewrite Hbl.
Qed.

Lemma stream_new_ok n : stream_ok (stream_new n).
Proof. constructor; simpl; lia. Qed.

(** Below 2^64 bytes the guest's digest is the compression chained over the
    concatenated input, however it is cut into parts. *)
Lemma hash_via_ecall_ref n domain parts :
  blen (domain ++ concat parts) < u64_modulus →
  hash_via_ecall n domain parts = take n (ref (init_h (N.of_nat n)) 0 (domain ++ concat parts)).
Proof.
  intros Hlen. unfold blen in Hlen. rewrite length_app in Hlen.
  pose proof (stream_new_ok (N.of_nat n)) as Hnew.
  destruct (feed_spec domain (stream_new (N.of_nat n)) (concat parts) Hnew)
    as (Hok1 & Ht1 & Hp1); [unfold room; simpl; lia|]. simpl in Ht1.
  destruct (feed_parts_spec parts (feed domain (stream_new (N.of_nat n))) [] Hok1)
    as (Hok2 & Ht2 & Hp2); [unfold room; lia|].
  unfold hash_via_ecall. f_equal.
  rewrite finish_spec by (done || (unfold room; lia)). rewrite Hp2, app_nil_r, Hp1. done.
Qed.

(** ** The compression function is the reference's *)

(** The two halves of a rotated word do not overlap. *)
Lemma rotate_right64_rfc r x : 0 < r < 64 → word_ok x → rotate_right64 x r = Rfc.ror r x.
Proof.
  intros Hr Hx. unfold rotate_right64, Rfc.ror, word_ok in *. change u64_modulus with (2 ^ 64) in *.
  rewrite N.shiftr_div_pow2, N.shiftl_mul_pow2.
  assert (2 ^ 64 = 2 ^ r * 2 ^ (64 - r)) as E by (rewrite <- N.pow_add_r; f_equal; lia).
  rewrite E, N.Div0.mul_mod_distr_r. set (hi := x / 2 ^ r). set (lo := x `mod` 2 ^ r).
  assert (hi < 2 ^ (64 - r)) as Hhi by (apply N.Div0.div_lt_upper_bound; lia).
  assert (N.land hi (lo * 2 ^ (64 - r)) = 0) as Hland.
  { apply N.bits_inj_0. intros i. rewrite N.land_spec. destruct (N.lt_ge_cases i (64 - r)) as [Hi|Hi].
    - by rewrite N.mul_pow2_bits_low, andb_false_r.
    - destruct (N.eq_dec hi 0) as [->|Hh]; [by rewrite N.bits_0|]. rewrite N.bits_above_log2; [done|].
      apply N.log2_lt_pow2 in Hhi; lia. }
  rewrite <- N.lxor_lor by done. symmetry. by apply N.add_nocarry_lxor.
Qed.

(** One column of [Rfc.mix]. *)
Definition quarter (q : N * N * N * N) (x y : N) : N * N * N * N :=
  let '(a, b, c, d) := q in
  let a := Rfc.add (Rfc.add a b) x in
  let d := Rfc.ror 32 (N.lxor d a) in
  let c := Rfc.add c d in
  let b := Rfc.ror 24 (N.lxor b c) in
  let a := Rfc.add (Rfc.add a b) y in
  let d := Rfc.ror 16 (N.lxor d a) in
  let c := Rfc.add c d in
  let b := Rfc.ror 63 (N.lxor b c) in
  (a, b, c, d).

Definition put (v : list N) (a b c d : nat) (q : N * N * N * N) : list N :=
  let '(xa, xb, xc, xd) := q in <[b := xb]> (<[c := xc]> (<[d := xd]> (<[a := xa]> v))).

(** The code's [g] replaces the four words it names by their mixture. *)
Lemma g_quarter v a b c d x y :
  Forall word_ok v → NoDup [a; b; c; d] → Forall (λ i, i < length v)%nat [a; b; c; d] →
  g v a b c d x y = put v a b c d (quarter (v !!! a, v !!! b, v !!! c, v !!! d) x y).
Proof.
  intros Hv Hd Hl. rewrite !NoDup_cons, !Forall_cons in *.
  assert (a ≠ b ∧ a ≠ c ∧ a ≠ d ∧ b ≠ c ∧ b ≠ d ∧ c ≠ d) as (?&?&?&?&?&?) by set_solver. clear Hd. destruct Hl as (?&?&?&?&_).
  unfold g, quarter, put. cbv zeta.
  repeat first [rewrite list_lookup_total_insert_eq by (rewrite ?length_insert; done) | rewrite list_lookup_total_insert_ne by done].
  rewrite (rotate_right64_rfc 63), (rotate_right64_rfc 16), (rotate_right64_rfc 24), (rotate_right64_rfc 32)
    by (lia || auto 20 with word).
  rewrite (list_insert_insert_ne _ a b), (list_insert_insert_ne _ d b), (list_insert_insert_ne _ c b), list_insert_insert_eq by done.
  rewrite (list_insert_insert_ne _ a c), (list_insert_insert_ne _ d c), list_insert_insert_eq by done.
  rewrite (list_insert_insert_ne _ a d), !list_insert_insert_eq by done. reflexivity.
Qed.

(** Names the words of a list of known length. *)
Ltac name_words l :=
  match goal with
  | H : length l = O |- _ => apply nil_length_inv in H; subst l
  | H : length l = S ?n |- _ =>
      let w := fresh "w" in let l' := fresh "l" in
      destruct l as [|w l']; [discriminate H|]; injection H as H; name_words l'
  end.

(** The rows one after the other: the code's array. *)
Definition flat (v : list N * list N * list N * list N) : list N :=
  let '(a, b, c, d) := v in a ++ b ++ c ++ d.

Definition rows_ok (v : list N * list N * list N * list N) : Prop :=
  Forall (λ l, length l = 4%nat) [v.1.1.1; v.1.1.2; v.1.2; v.2] ∧ Forall word_ok (flat v).

(** The sixteen words of a state, by name. *)
Ltac rows_of v :=
  match goal with
  | H : rows_ok v |- _ =>
      let a := fresh "a" in let b := fresh "b" in let c := fresh "c" in let d := fresh "d" in let Hl := fresh "Hl" in
      destruct v as [[[a b] c] d]; destruct H as [Hl ?]; cbn [fst snd] in Hl;
      rewrite !Forall_cons in Hl; destruct Hl as (?&?&?&?&_);
      name_words a; name_words b; name_words c; name_words d
  end.

(** Calls of [g] at constant indices of a named state are its quarters. *)
Ltac quarters :=
  rewrite !g_quarter by (auto with word || (apply (bool_decide_unpack _); vm_compute; exact I) ||
    (rewrite ?length_g; repeat constructor; cbn; lia));
  reflexivity.

(** Mixing the columns is the first four calls of [g] in a round, *)
Lemma mix_columns v x0 x1 x2 x3 y0 y1 y2 y3 :
  rows_ok v →
  g (g (g (g (flat v) 0 4 8 12 x0 y0) 1 5 9 13 x1 y1) 2 6 10 14 x2 y2) 3 7 11 15 x3 y3 =
  flat (Rfc.mix v [x0; x1; x2; x3] [y0; y1; y2; y3]).
Proof.
  intros Hv. rows_of v. quarters.
Qed.

(** and mixing the diagonals the other four. *)
Lemma mix_diagonals v x0 x1 x2 x3 y0 y1 y2 y3 :
  rows_ok v →
  g (g (g (g (flat v) 0 5 10 15 x0 y0) 1 6 11 12 x1 y1) 2 7 8 13 x2 y2) 3 4 9 14 x3 y3 =
  flat (Rfc.undiagonals (Rfc.mix (Rfc.diagonals v) [x0; x1; x2; x3] [y0; y1; y2; y3])).
Proof.
  intros Hv. rows_of v. quarters.
Qed.

Lemma mix_rows_ok v x0 x1 x2 x3 y0 y1 y2 y3 :
  rows_ok v → rows_ok (Rfc.mix v [x0; x1; x2; x3] [y0; y1; y2; y3]).
Proof.
  intros Hv. split; [rows_of v; repeat constructor|]. rewrite <- mix_columns by done. destruct Hv. auto with word.
Qed.

Lemma mix_diagonals_rows_ok v x0 x1 x2 x3 y0 y1 y2 y3 :
  rows_ok v → rows_ok (Rfc.undiagonals (Rfc.mix (Rfc.diagonals v) [x0; x1; x2; x3] [y0; y1; y2; y3])).
Proof.
  intros Hv. split; [rows_of v; repeat constructor|]. rewrite <- mix_diagonals by done. destruct Hv. auto with word.
Qed.

Lemma round_rfc m v s :
  length s = 16%nat → rows_ok v → round m (flat v) s = flat (Rfc.mix_round m v s) ∧ rows_ok (Rfc.mix_round m v s).
Proof.
  intros Hs Hv. name_words s. unfold round, Rfc.mix_round. cbv zeta. unfold Rfc.odds. cbn [fmap list_fmap take drop Rfc.evens tail].
  rewrite mix_columns by done. split; [|by apply mix_diagonals_rows_ok, mix_rows_ok].
  by rewrite mix_diagonals by by apply mix_rows_ok.
Qed.

Lemma rounds_rfc m ss v :
  Forall (λ s, length s = 16%nat) ss → rows_ok v → foldl (round m) (flat v) ss = flat (foldl (Rfc.mix_round m) v ss) ∧
    rows_ok (foldl (Rfc.mix_round m) v ss).
Proof.
  intros Hss. revert v. induction Hss as [|s ss Hs Hss IH]; intros v Hv; [done|]. cbn [foldl].
  destruct (round_rfc m v s Hs Hv) as [-> Hv']. by apply IH.
Qed.

Lemma IV_rfc : BLAKE2B_IV = Rfc.IV.
Proof. vm_compute. reflexivity. Qed.

(** The code repeats the first two rows of the schedule for the last two rounds. *)
Lemma schedule_rfc : SIGMA = (λ i, Rfc.schedule !!! (i `mod` 10)%nat) <$> seq 0 12.
Proof. reflexivity. Qed.

Lemma rounds_schedule m v :
  foldl (Rfc.mix_round m) v SIGMA = foldl (λ v i, Rfc.mix_round m v (Rfc.schedule !!! (i `mod` 10)%nat)) v (seq 0 12).
Proof.
  rewrite schedule_rfc. generalize (seq 0 12). intros l. revert v.
  induction l as [|i l IH]; intros v; [done|]. apply IH.
Qed.

Lemma init_v_rfc h t f :
  length h = 8%nat →
  init_v h t f = flat (take 4 h, drop 4 h, take 4 Rfc.IV,
    zip_with N.lxor (drop 4 Rfc.IV) [t `mod` 2 ^ 64; t / 2 ^ 64; if f then 2 ^ 64 - 1 else 0; 0]).
Proof. intros Hl. name_words h. rewrite <- IV_rfc. destruct f; reflexivity. Qed.

(** The code's compression function is that of the RFC. *)
Lemma compress_inner_rfc h m t f :
  length h = 8%nat → Forall word_ok h → t < u64_modulus * u64_modulus → compress_inner h m t f = Rfc.F h m t f.
Proof.
  intros Hl Hw Ht. pose proof (init_v_words h t f Hw Ht) as Hv. unfold compress_inner, Rfc.F.
  rewrite init_v_rfc in * by done. set (v := (_, _, _, _)) in *.
  assert (rows_ok v) as Hok by (split; [unfold v; name_words h; repeat constructor|done]). clearbody v.
  destruct (rounds_rfc m SIGMA v) as [-> Hok']; [by repeat constructor|done|].
  rewrite <- (rounds_schedule m v). clear Hv. revert Hok'. generalize (foldl (Rfc.mix_round m) v SIGMA). intros r Hr.
  name_words h. rows_of r. reflexivity.
Qed.

Lemma F_words h m t f :
  length h = 8%nat → Forall word_ok h → t < u64_modulus * u64_modulus →
  Forall word_ok (Rfc.F h m t f) ∧ length (Rfc.F h m t f) = 8%nat.
Proof. intros. rewrite <- compress_inner_rfc by done. by apply compress_inner_words. Qed.

Lemma host_compress_block_rfc h b t f :
  length h = 8%nat → Forall word_ok h → t < u64_modulus * u64_modulus →
  host_compress_block (unwords h) b t f = unwords (Rfc.F h (Rfc.block_words b) t f).
Proof.
  intros Hl Hw Ht. unfold host_compress_block. rewrite <- Hl at 1. rewrite words_unwords, compress_inner_rfc by done.
  reflexivity.
Qed.

Lemma ref_from_rfc fuel h t msg :
  length h = 8%nat → Forall word_ok h → t + blen msg < u64_modulus * u64_modulus → (length msg < fuel)%nat →
  ref_from fuel (unwords h) t msg = unwords (Rfc.chain fuel h t msg).
Proof.
  revert h t msg. induction fuel as [|fuel IH]; intros h t msg Hl Hw Ht Hf; [lia|]. cbn [ref_from Rfc.chain]. unfold blen in *.
  destruct (Nat.leb_spec (length msg) 128); rewrite host_compress_block_rfc by (done || lia); [done|].
  destruct (F_words h (Rfc.block_words (take 128 msg)) (t + 128) false) as [Hw' Hl']; [done|done|lia|].
  apply IH; [done|done| |]; rewrite length_drop; lia.
Qed.

Lemma init_h_rfc n :
  (n ≤ 64)%nat → let h := zip_with N.lxor Rfc.IV [2 ^ 24 + 2 ^ 16 + N.of_nat n; 0; 0; 0; 0; 0; 0; 0] in
  init_h (N.of_nat n) = unwords h ∧ Forall word_ok h ∧ length h = 8%nat.
Proof.
  intros Hn. cbv zeta. rewrite <- IV_rfc. do 65 (destruct n as [|n]; [split_and!; [done|by apply (bool_decide_unpack _)|done]|]). lia.
Qed.

Lemma hash_via_ecall_rfc n domain parts :
  (n ≤ 64)%nat → blen (domain ++ concat parts) < u64_modulus →
  hash_via_ecall n domain parts = Rfc.blake2b n (domain ++ concat parts).
Proof.
  intros Hn Hlen. destruct (init_h_rfc n) as (Hi & Hw & Hl); [done|]. rewrite hash_via_ecall_ref by done.
  unfold ref, Rfc.blake2b. rewrite Hi, (ref_from_rfc _ _ _ _ Hl Hw); [by rewrite unwords_concat| |lia].
  unfold u64_modulus in *. lia.
Qed.

(** *** Lengths of the reference, for any message *)

Definition rows_four (v : list N * list N * list N * list N) : Prop :=
  Forall (λ l, length l = 4%nat) [v.1.1.1; v.1.1.2; v.1.2; v.2].

Lemma mix_round_four m v s : length s = 16%nat → rows_four v → rows_four (Rfc.mix_round m v s).
Proof.
  intros Hs Hv. destruct v as [[[a b] c] d]. unfold rows_four in *. rewrite !Forall_cons in Hv. destruct Hv as (?&?&?&?&_).
  cbn [fst snd] in *. name_words a. name_words b. name_words c. name_words d. name_words s. repeat constructor.
Qed.

Lemma length_F h m t f : length h = 8%nat → length (Rfc.F h m t f) = 8%nat.
Proof.
  intros Hl. unfold Rfc.F. set (v := (_, _, _, _)). rewrite <- (rounds_schedule m v).
  assert (rows_four (foldl (Rfc.mix_round m) v SIGMA)) as Hr.
  { assert (Forall (λ s, length s = 16%nat) SIGMA) as Hss by by repeat constructor.
    assert (rows_four v) as Hv by (unfold v; name_words h; repeat constructor). clearbody v. revert v Hv.
    induction Hss as [|s ss Hs Hss IH]; intros v Hv; [done|]. apply IH. by apply mix_round_four. }
  destruct (foldl _ _ _) as [[[a b] c] d]. unfold rows_four in Hr. rewrite !Forall_cons in Hr. destruct Hr as (?&?&?&?&_).
  cbn [fst snd] in *. rewrite !length_zip_with, !length_app. lia.
Qed.

Lemma length_chain fuel h t msg : length h = 8%nat → (length msg < fuel)%nat → length (Rfc.chain fuel h t msg) = 8%nat.
Proof.
  revert h t msg. induction fuel as [|fuel IH]; intros h t msg Hl Hf; [lia|]. cbn [Rfc.chain].
  destruct (Nat.leb_spec (length msg) 128); [by apply length_F|].
  apply IH; [by apply length_F|rewrite length_drop; lia].
Qed.

Lemma length_blake2b n msg : (n ≤ 64)%nat → length (Rfc.blake2b n msg) = n.
Proof.
  intros Hn. unfold Rfc.blake2b. rewrite <- unwords_concat, length_take, length_unwords, length_chain by (done || lia). lia.
Qed.

Lemma length_hash_via_ecall n domain parts :
  (n ≤ 64)%nat → length (hash_via_ecall n domain parts) = n.
Proof.
  intros Hn. unfold hash_via_ecall, finish, ecall_compress.
  rewrite length_take, length_host_compress_block. lia.
Qed.

(** The worked example of RFC 7693, appendix A: BLAKE2b-512 of [abc], by the
    reference and by the code, cut in three. *)
Example blake2b_abc :
  let digest := 0xba80a53f981c4d0d6a2797b69f12f6e94c212f14685ac4b74b12bb6fdbffa2d17d87c5392aab792dc252d5de4533cc9518d38aa8dbf1925ab92386edd4009923 in
  from_le_bytes (rev (Rfc.blake2b 64 [Byte.x61; Byte.x62; Byte.x63])) = digest ∧
  from_le_bytes (rev (hash_via_ecall 64 [Byte.x61] [[Byte.x62]; [Byte.x63]])) = digest.
Proof. vm_compute. done. Qed.

(** C31: a guest that hashes through the per-block host call gets, for every
    digest length the assertion admits and every input below 2^64 bytes, the
    RFC 7693 digest of the domain followed by the concatenated parts, of the
    requested length; any other digest length panics. *)
Theorem blake2b_hash_spec n domain parts :
  blen (domain ++ concat parts) < u64_modulus →
  blake2b_hash n domain parts =
    (if ((1 <=? n) && (n <=? 64))%nat then Some (Rfc.blake2b n (domain ++ concat parts)) else None) ∧
  ∀ d, blake2b_hash n domain parts = Some d → length d = n.
Proof.
  intros Hlen. unfold blake2b_hash. destruct (Nat.leb_spec 1 n), (Nat.leb_spec n 64); simpl; try done.
  split; [by rewrite hash_via_ecall_rfc|]. intros d [= <-]. by apply length_hash_via_ecall.
Qed.

Lemma blake2b_hash_spec_witness :
  blake2b_hash 32 [Byte.x61] [zeros 130; [Byte.x62]] =
    Some (Rfc.blake2b 32 ([Byte.x61] ++ concat [zeros 130; [Byte.x62]])).
Proof. exact (proj1 (blake2b_hash_spec 32 [Byte.x61] [zeros 130; [Byte.x62]] eq_refl)). Defined.
