(* ===== verification/V2Wire.v ===== *)
(** * vos v2: the strict wire codec

    [vos/src/v2/wire.rs]: the [Encoder] and [Decoder] behind every
    consensus-visible wire, the trait [V2Wire] (a magic, the ABI version, a body
    and no trailing bytes), and the first wire that uses them, [StateKeyV2] of
    [vos/src/v2/storage.rs].

    An encoder method is the bytes it appends.  A decoder method is a function of
    the decoder, in the monad [decoder] of a position and an error.  A fixed
    array [[u8; 32]] is its bytes, 32 of them where [id_ok] says so; a [String]
    is its bytes, valid UTF-8.

    [exact d P] says everything about a decoder: it accepts exactly the byte
    strings [w] with [P w x], consuming [w] and returning [x].  [exact_bind]
    composes it, and [decode_wire_exact] lifts it from a body to [decode]: a wire is
    accepted iff it is the encoding of a valid value. *)

From Stdlib.Strings Require Byte.
From stdpp Require Import strings.
From S2P Require Import Prelude Bytes.

Local Open Scope N_scope.

(** A byte string literal. *)
Notation "'b#' s" := (String.list_byte_of_string s%string) (at level 5, s at level 0).

Definition MAX_BYTES : N := 64 * 1024 * 1024.
Definition MAX_ITEMS : N := 1000000.
Definition ABI_VERSION : N := 15.

Inductive DecodeError :=
| Truncated
| InvalidTag
| InvalidVersion
| InvalidUtf8
| LimitExceeded
| TrailingBytes
| NonCanonical.

#[export] Instance DecodeError_eq_dec : EqDecision DecodeError.
Proof. solve_decision. Defined.

(** ** Encoder *)

Definition enc_u8 (v : N) : bytes := to_le_bytes 1 v.
Definition enc_bool (v : bool) : bytes := enc_u8 (if v then 1 else 0).
Definition enc_u16 (v : N) : bytes := to_le_bytes 2 v.
Definition enc_u32 (v : N) : bytes := to_le_bytes 4 v.
Definition enc_u64 (v : N) : bytes := to_le_bytes 8 v.
Definition enc_fixed (v : bytes) : bytes := v.

(** [value.len() as u32] keeps the low four bytes of the length. *)
Definition enc_bytes (v : bytes) : bytes := enc_u32 (blen v) ++ v.
Definition enc_string (v : bytes) : bytes := enc_bytes v.
Definition enc_option {A} (encode : A → bytes) (v : option A) : bytes :=
  match v with
  | Some v => enc_bool true ++ encode v
  | None => enc_bool false
  end.
Definition enc_list {A} (encode : A → bytes) (vs : list A) : bytes :=
  enc_u32 (N.of_nat (length vs)) ++ (vs ≫= encode).

(** ** Decoder *)

Record Decoder := mkDecoder { d_bytes : bytes; d_pos : N }.

Definition decoder (A : Type) : Type := Decoder → result DecodeError (A * Decoder).

#[export] Instance decoder_ret : MRet decoder := λ A x D, Ok (x, D).
#[export] Instance decoder_bind : MBind decoder := λ A B k d D,
  match d D with
  | Ok (x, D') => k x D'
  | Err e => Err e
  end.

Definition throw {A} (e : DecodeError) : decoder A := λ _, Err e.

Definition exhausted (D : Decoder) : bool := d_pos D =? blen (d_bytes D).

(** [checked_add], then [get(self.pos..end)]. *)
Definition dec_take (len : N) : decoder bytes := λ D,
  match checked_add (d_pos D) len with
  | None => Err LimitExceeded
  | Some end_ =>
      if end_ <=? blen (d_bytes D)
      then Ok (take (N.to_nat len) (drop (N.to_nat (d_pos D)) (d_bytes D)),
               mkDecoder (d_bytes D) end_)
      else Err Truncated
  end.

Definition dec_uint (w : nat) : decoder N :=
  b ← dec_take (N.of_nat w); mret (from_le_bytes b).
Definition dec_u8 : decoder N := dec_uint 1.
Definition dec_u16 : decoder N := dec_uint 2.
Definition dec_u32 : decoder N := dec_uint 4.
Definition dec_u64 : decoder N := dec_uint 8.

Definition dec_bool : decoder bool :=
  v ← dec_u8;
  match v with
  | 0 => mret false
  | 1 => mret true
  | _ => throw NonCanonical
  end.

Definition dec_fixed : decoder bytes := dec_take 32.

Definition dec_bytes : decoder bytes :=
  len ← dec_u32;
  if MAX_BYTES <? len then throw LimitExceeded else dec_take len.

Definition dec_string : decoder bytes :=
  b ← dec_bytes; if utf8_valid b then mret b else throw InvalidUtf8.

Definition dec_option {A} (decode : decoder A) : decoder (option A) :=
  present ← dec_bool;
  if (present : bool) then x ← decode; mret (Some x) else mret None.

Fixpoint dec_items {A} (decode : decoder A) (n : nat) : decoder (list A) :=
  match n with
  | O => mret []
  | S n => x ← decode; xs ← dec_items decode n; mret (x :: xs)
  end.

Definition dec_list {A} (decode : decoder A) : decoder (list A) :=
  len ← dec_u32;
  if MAX_ITEMS <? len then throw LimitExceeded else dec_items decode (N.to_nat len).

(** ** Wires *)

Class V2Wire (A : Type) := {
  MAGIC : bytes;
  encode_body : A → bytes;
  decode_body : decoder A;
}.

Definition encode `{V2Wire A} (v : A) : bytes :=
  MAGIC ++ enc_u16 ABI_VERSION ++ encode_body v.

Definition decode_wire `{V2Wire A} : decoder A :=
  magic ← dec_take 4;
  if bool_decide (magic = MAGIC) then
    version ← dec_u16;
    if version =? ABI_VERSION then decode_body else throw InvalidVersion
  else throw InvalidTag.

Definition decode `{V2Wire A} (b : bytes) : result DecodeError A :=
  match decode_wire (mkDecoder b 0) with
  | Ok (v, D) => if exhausted D then Ok v else Err TrailingBytes
  | Err e => Err e
  end.

(** ** What a decoder accepts *)

(** [D'] is [D] advanced over the bytes [w]. *)
Definition consumes (D : Decoder) (w : bytes) (D' : Decoder) : Prop :=
  ∃ pre post, D = mkDecoder (pre ++ w ++ post) (blen pre) ∧
              D' = mkDecoder (pre ++ w ++ post) (blen pre + blen w).

Definition fits (D : Decoder) : Prop := blen (d_bytes D) ≤ u64_max.
Definition inside (D : Decoder) : Prop := d_pos D ≤ blen (d_bytes D).

Record exact {A} (d : decoder A) (P : bytes → A → Prop) : Prop := {
  exact_reads : ∀ w x D D', P w x → fits D → consumes D w D' → d D = Ok (x, D');
  exact_only : ∀ D x D', d D = Ok (x, D') → inside D → ∃ w, P w x ∧ consumes D w D';
}.

Lemma consumes_inside D w D' : consumes D w D' → inside D ∧ inside D' ∧ d_bytes D' = d_bytes D.
Proof.
  intros (pre & post & -> & ->). unfold inside. cbn [d_bytes d_pos].
  rewrite !blen_app. split_and!; lia || done.
Qed.

Lemma consumes_nil D : inside D → consumes D [] D.
Proof.
  destruct D as [b p]. unfold inside, blen. cbn. intros Hp.
  exists (take (N.to_nat p) b), (drop (N.to_nat p) b). cbn [app].
  rewrite take_drop. unfold blen. rewrite length_take. simpl. split; f_equal; lia.
Qed.

Lemma consumes_nil_inv D D' : consumes D [] D' → D' = D.
Proof. intros (pre & post & -> & ->). unfold blen. simpl. by rewrite N.add_0_r. Qed.

Lemma consumes_app D w1 w2 D' :
  consumes D (w1 ++ w2) D' ↔ ∃ D1, consumes D w1 D1 ∧ consumes D1 w2 D'.
Proof.
  split.
  - intros (pre & post & -> & ->).
    exists (mkDecoder (pre ++ (w1 ++ w2) ++ post) (blen pre + blen w1)). split.
    + exists pre, (w2 ++ post). by rewrite <- !(assoc_L (++)).
    + exists (pre ++ w1), post. rewrite <- !(assoc_L (++)), !blen_app. split; f_equal; lia.
  - intros (D1 & (pre & post & -> & ->) & (pre2 & post2 & Heq & ->)).
    injection Heq as Hb Hp. rewrite <- blen_app in Hp.
    assert (pre2 = pre ++ w1 ∧ post = w2 ++ post2) as [-> ->].
    { rewrite (assoc_L (++)) in Hb. apply app_inj_1 in Hb; [naive_solver|].
      unfold blen in Hp. lia. }
    exists pre, post2. rewrite <- !(assoc_L (++)), !blen_app. split; f_equal; lia.
Qed.

Lemma consumes_functional D w1 D1 w2 D2 :
  consumes D w1 D1 → consumes D w2 D2 → blen w1 = blen w2 → w1 = w2 ∧ D1 = D2.
Proof.
  intros (pre1 & post1 & -> & ->) (pre2 & post2 & Heq & ->) Hl. injection Heq as Hb Hp.
  unfold blen in *. apply app_inj_1 in Hb as [-> Hb]; [|lia].
  apply app_inj_1 in Hb as [-> ->]; [done|lia].
Qed.

Lemma exact_ret {A} (x : A) : exact (mret x) (λ w y, w = [] ∧ y = x).
Proof.
  split.
  - intros w y D D' [-> ->] _ Hc. by rewrite (consumes_nil_inv _ _ Hc).
  - intros D y D' [= <- <-] Hin. exists []. split; [done|by apply consumes_nil].
Qed.

Lemma exact_throw {A} e : exact (throw (A := A) e) (λ _ _, False).
Proof. split; done. Qed.

Lemma exact_bind {A B} (d : decoder A) (k : A → decoder B) P Q :
  exact d P → (∀ x, exact (k x) (Q x)) →
  exact (d ≫= k) (λ w y, ∃ w1 w2 x, w = w1 ++ w2 ∧ P w1 x ∧ Q x w2 y).
Proof.
  intros Hd Hk. split.
  - intros w y D D' (w1 & w2 & x & -> & HP & HQ) Hfit (D1 & Hc1 & Hc2)%consumes_app.
    unfold mbind, decoder_bind. rewrite (exact_reads d P Hd w1 x D D1) by done.
    apply (exact_reads (k x) (Q x) (Hk x) w2); [done| |done].
    unfold fits. by rewrite (proj2 (proj2 (consumes_inside _ _ _ Hc1))).
  - intros D y D' Hrun Hin. unfold mbind, decoder_bind in Hrun.
    destruct (d D) as [[x D1]|e] eqn:Hd1; [|done].
    destruct (exact_only d P Hd D x D1 Hd1 Hin) as (w1 & HP & Hc1).
    destruct (consumes_inside _ _ _ Hc1) as (_ & Hin1 & _).
    destruct (exact_only (k x) (Q x) (Hk x) D1 y D' Hrun Hin1) as (w2 & HQ & Hc2).
    exists (w1 ++ w2). split; [naive_solver|]. apply consumes_app. naive_solver.
Qed.

Lemma exact_iff {A} (d : decoder A) P Q :
  exact d P → (∀ w x, P w x ↔ Q w x) → exact d Q.
Proof. intros [Hr Ho] HPQ. split; [intros; eapply Hr; [by apply HPQ|..]; done|].
  intros D x D' Hd Hin. destruct (Ho D x D' Hd Hin) as (w & HP & Hc). exists w.
  split; [by apply HPQ|done].
Qed.

Lemma exact_if {A} (b : bool) (d1 d2 : decoder A) P1 P2 :
  exact d1 P1 → exact d2 P2 →
  exact (if b then d1 else d2) (λ w x, if b then P1 w x else P2 w x).
Proof. by destruct b. Qed.

(** ** The primitives *)

Lemma dec_take_exact n : exact (dec_take n) (λ w x, x = w ∧ blen w = n).
Proof.
  split.
  - intros w x D D' [-> Hn] Hfit (pre & post & -> & ->). unfold fits in Hfit. cbn in Hfit.
    rewrite !blen_app in Hfit. unfold dec_take, checked_add. cbn [d_bytes d_pos].
    destruct (N.leb_spec (blen pre + n) u64_max); [|lia].
    rewrite !blen_app. destruct (N.leb_spec (blen pre + n) (blen pre + (blen w + blen post))); [|lia].
    subst n. unfold blen. by rewrite !Nat2N.id, drop_app_length, take_app_length.
  - intros [b p] x D' Hd Hin. unfold inside in Hin. cbn in Hin.
    unfold dec_take, checked_add in Hd. cbn [d_bytes d_pos] in Hd.
    destruct (N.leb_spec (p + n) u64_max); [|done].
    destruct (N.leb_spec (p + n) (blen b)) as [Hle|]; [|done].
    injection Hd as <- <-. set (w := take (N.to_nat n) (drop (N.to_nat p) b)).
    assert (blen w = n) as Hw.
    { unfold w, blen in *. rewrite length_take, length_drop. lia. }
    exists w. split; [done|].
    exists (take (N.to_nat p) b), (drop (N.to_nat (p + n)) b).
    replace (N.to_nat (p + n)) with (N.to_nat p + N.to_nat n)%nat by lia.
    unfold w at 1 2. rewrite <- drop_drop, !take_drop.
    assert (blen (take (N.to_nat p) b) = p) as -> by (unfold blen in *; rewrite length_take; lia).
    by rewrite Hw.
Qed.

Lemma exact_le_bytes w b x :
  b = to_le_bytes w x ∧ x < int_modulus w ↔ (blen b = N.of_nat w ∧ x = from_le_bytes b).
Proof.
  unfold blen. split.
  - intros [-> Hx]. rewrite length_to_le_bytes. split; [done|]. by rewrite from_to_le_bytes.
  - intros [Hl ->]. apply Nat2N.inj in Hl. rewrite <- Hl. split; [by rewrite to_from_le_bytes|].
    apply from_le_bytes_lt.
Qed.

Lemma dec_uint_exact w : exact (dec_uint w) (λ b x, b = to_le_bytes w x ∧ x < int_modulus w).
Proof.
  eapply exact_iff.
  - unfold dec_uint. eapply exact_bind; [apply dec_take_exact|intros b; apply exact_ret].
  - intros b x. rewrite exact_le_bytes. simpl. split.
    + intros (w1 & w2 & y & -> & [-> Hl] & -> & ->). by rewrite app_nil_r.
    + intros [Hl ->]. exists b, [], b. by rewrite app_nil_r.
Qed.

(** The shape [exact_bind] leaves when both parts are determined by the value. *)
Lemma bound_iff {A B} (w : bytes) (y : B) (P : bytes → A → Prop) (Q : A → bytes → B → Prop) :
  (∃ w1 w2 x, w = w1 ++ w2 ∧ P w1 x ∧ Q x w2 y) ↔
  ∃ x w1 w2, P w1 x ∧ Q x w2 y ∧ w = w1 ++ w2.
Proof. naive_solver. Qed.

Lemma dec_u8_exact : exact dec_u8 (λ b x, b = enc_u8 x ∧ x < 256).
Proof. apply dec_uint_exact. Qed.
Lemma dec_u16_exact : exact dec_u16 (λ b x, b = enc_u16 x ∧ x < 65536).
Proof. apply dec_uint_exact. Qed.
Lemma dec_u32_exact : exact dec_u32 (λ b x, b = enc_u32 x ∧ x < 4294967296).
Proof. apply dec_uint_exact. Qed.
Lemma dec_u64_exact : exact dec_u64 (λ b x, b = enc_u64 x ∧ x < u64_modulus).
Proof. apply dec_uint_exact. Qed.

Lemma dec_bool_exact : exact dec_bool (λ b x, b = enc_bool x).
Proof.
  eapply exact_iff.
  - unfold dec_bool. eapply exact_bind; [apply dec_u8_exact|].
    instantiate (1 := λ v w x, (v = 0 ∧ w = [] ∧ x = false) ∨ (v = 1 ∧ w = [] ∧ x = true)).
    intros v. destruct v as [|[| |]];
      (eapply exact_iff; [apply exact_ret || apply exact_throw|naive_solver]).
  - intros w x. rewrite bound_iff. split.
    + intros (v & w1 & w2 & [-> _] & [(-> & -> & ->)|(-> & -> & ->)] & ->); by rewrite app_nil_r.
    + intros ->. exists (if x then 1 else 0), (enc_bool x), []. rewrite app_nil_r.
      destruct x; naive_solver.
Qed.

Definition id_ok (b : bytes) : Prop := length b = 32%nat.

Lemma dec_fixed_exact : exact dec_fixed (λ w x, w = enc_fixed x ∧ id_ok x).
Proof.
  eapply exact_iff; [apply dec_take_exact|]. intros w x. unfold enc_fixed, id_ok, blen.
  split; [intros [-> ?]; split; [done|lia]|intros [-> ?]; split; [done|lia]].
Qed.

Definition bytes_ok (b : bytes) : Prop := blen b ≤ MAX_BYTES.

Lemma dec_bytes_exact : exact dec_bytes (λ w x, w = enc_bytes x ∧ bytes_ok x).
Proof.
  eapply exact_iff.
  - unfold dec_bytes. eapply exact_bind; [apply dec_u32_exact|].
    intros len. apply exact_if; [apply exact_throw|apply dec_take_exact].
  - intros w x. rewrite bound_iff. unfold bytes_ok. split.
    + intros (len & w1 & w2 & [-> _] & Hk & ->). destruct (N.ltb_spec MAX_BYTES len); [done|].
      destruct Hk as [-> <-]. done.
    + intros [-> Hx]. exists (blen x), (enc_u32 (blen x)), x.
      destruct (N.ltb_spec MAX_BYTES (blen x)); [lia|]. unfold MAX_BYTES in *. split_and!; try done. lia.
Qed.

Definition string_ok (b : bytes) : Prop := bytes_ok b ∧ utf8_valid b = true.

Lemma dec_string_exact : exact dec_string (λ w x, w = enc_string x ∧ string_ok x).
Proof.
  eapply exact_iff.
  - unfold dec_string. eapply exact_bind; [apply dec_bytes_exact|].
    intros b. apply exact_if; [apply exact_ret|apply exact_throw].
  - intros w x. rewrite bound_iff. unfold string_ok. split.
    + intros (b & w1 & w2 & [-> Hb] & Hk & ->). destruct (utf8_valid b) eqn:Hu; [|done].
      destruct Hk as [-> ->]. by rewrite app_nil_r.
    + intros (-> & Hx & Hu). exists x, (enc_bytes x), []. rewrite Hu, app_nil_r. done.
Qed.

(** Values written one after the other. *)
Section combinators.
Context {A : Type} (d : decoder A) (enc : A → bytes) (ok : A → Prop).
Hypothesis Hd : exact d (λ w x, w = enc x ∧ ok x).

Lemma dec_option_exact :
  exact (dec_option d) (λ w x, w = enc_option enc x ∧ ∀ y, x = Some y → ok y).
Proof.
  eapply exact_iff.
  - unfold dec_option. eapply exact_bind; [apply dec_bool_exact|]. intros present.
    apply exact_if; [|apply exact_ret].
    eapply exact_bind; [apply Hd|]. intros x. apply exact_ret.
  - intros w x. rewrite bound_iff. split.
    + intros (b & w1 & w2 & -> & Hk & ->). destruct b.
      * destruct Hk as (v1 & v2 & y & -> & [-> Hy] & -> & ->).
        rewrite app_nil_r. naive_solver.
      * destruct Hk as [-> ->]. by rewrite app_nil_r.
    + intros [-> Hx]. destruct x as [y|].
      * exists true, (enc_bool true), (enc y). split_and!; [done| |done].
        exists (enc y), [], y. rewrite app_nil_r. naive_solver.
      * exists false, (enc_bool false), []. by rewrite app_nil_r.
Qed.

Lemma dec_items_exact n :
  exact (dec_items d n) (λ w xs, w = xs ≫= enc ∧ length xs = n ∧ Forall ok xs).
Proof.
  induction n as [|n IH]; cbn [dec_items].
  - eapply exact_iff; [apply exact_ret|]. intros w xs. split; [by intros [-> ->]|].
    intros (-> & Hl & _). by destruct xs.
  - eapply exact_iff.
    { eapply exact_bind; [apply Hd|]. intros x. eapply exact_bind; [apply IH|].
      intros xs. apply exact_ret. }
    intros w xs. rewrite bound_iff. split.
    + intros (x & w1 & w2 & [-> Hx] & Hk & ->).
      destruct Hk as (v1 & v2 & l & -> & (-> & <- & Hl) & -> & ->).
      rewrite app_nil_r. split_and!; [done|done|by constructor].
    + intros (-> & Hl & Hok). destruct xs as [|x xs]; [done|].
      apply Forall_cons in Hok as [Hx Hxs]. injection Hl as Hl.
      exists x, (enc x), (xs ≫= enc). split_and!; [done..| |done].
      exists (xs ≫= enc), [], xs. rewrite app_nil_r. done.
Qed.

Lemma dec_list_exact :
  exact (dec_list d)
    (λ w xs, w = enc_list enc xs ∧ N.of_nat (length xs) ≤ MAX_ITEMS ∧ Forall ok xs).
Proof.
  eapply exact_iff.
  - unfold dec_list. eapply exact_bind; [apply dec_u32_exact|]. intros len.
    apply exact_if; [apply exact_throw|apply dec_items_exact].
  - intros w xs. rewrite bound_iff. split.
    + intros (len & w1 & w2 & [-> _] & Hk & ->). destruct (N.ltb_spec MAX_ITEMS len); [done|].
      destruct Hk as (-> & Hl & Hok). unfold enc_list. rewrite Hl, N2Nat.id. done.
    + intros (-> & Hl & Hok). exists (N.of_nat (length xs)), (enc_u32 (N.of_nat (length xs))), (xs ≫= enc).
      destruct (N.ltb_spec MAX_ITEMS (N.of_nat (length xs))); [lia|].
      rewrite Nat2N.id. unfold MAX_ITEMS in *. split_and!; try done. lia.
Qed.
End combinators.

(** The last read of a body, wrapped in a constructor. *)
Lemma exact_map {A B} (d : decoder A) (f : A → B) enc ok :
  exact d (λ w x, w = enc x ∧ ok x) →
  exact (x ← d; mret (f x)) (λ w y, ∃ x, w = enc x ∧ ok x ∧ y = f x).
Proof.
  intros Hd. eapply exact_iff.
  - eapply exact_bind; [apply Hd|]. intros x. apply exact_ret.
  - intros w y. rewrite bound_iff. split.
    + intros (x & w1 & w2 & [-> Hx] & [-> ->] & ->). rewrite app_nil_r. naive_solver.
    + intros (x & -> & Hx & ->). exists x, (enc x), []. by rewrite app_nil_r.
Qed.

(** ** What a wire promises *)

Class WireLaws (A : Type) `{V2Wire A} := {
  wire_ok : A → Prop;
  magic_len : blen MAGIC = 4;
  body_exact : exact decode_body (λ w x, w = encode_body x ∧ wire_ok x);
}.

Section wire.
Context {A : Type} `{WireLaws A}.

Lemma decode_wire_exact : exact decode_wire (λ w x, w = encode x ∧ wire_ok x).
Proof.
  eapply exact_iff.
  - unfold decode_wire. eapply exact_bind; [apply dec_take_exact|]. intros magic.
    apply exact_if; [|apply exact_throw].
    eapply exact_bind; [apply dec_u16_exact|]. intros version.
    apply exact_if; [apply body_exact|apply exact_throw].
  - intros w x. rewrite bound_iff. split.
    + intros (m & w1 & w2 & [-> _] & Hk & ->). case_bool_decide as Hm; [subst w1|done].
      destruct Hk as (v1 & v2 & ver & -> & [-> _] & Hk).
      destruct (N.eqb_spec ver ABI_VERSION); [subst ver|done]. destruct Hk as [-> Hx]. done.
    + intros [-> Hx]. exists MAGIC, MAGIC, (enc_u16 ABI_VERSION ++ encode_body x).
      split_and!; [done|apply magic_len| |done]. rewrite bool_decide_true by done.
      exists (enc_u16 ABI_VERSION), (encode_body x), ABI_VERSION. split_and!; done.
Qed.

(** A byte string decodes iff it is the encoding of a valid value. *)
Lemma decode_exact (b : bytes) (v : A) :
  blen b ≤ u64_max → decode b = Ok v ↔ b = encode v ∧ wire_ok v.
Proof.
  intros Hb. unfold decode. split.
  - destruct (decode_wire (mkDecoder b 0)) as [[x D']|] eqn:Hd; [|done].
    destruct (exact_only _ _ decode_wire_exact _ _ _ Hd) as (w & [-> Hx] & pre & post & Heq & ->);
      [unfold inside; simpl; lia|].
    injection Heq as -> Hpre. assert (pre = []) as -> by (destruct pre; [done|unfold blen in Hpre; simpl in Hpre; lia]).
    unfold exhausted. cbn [d_bytes d_pos app]. rewrite blen_app.
    destruct (N.eqb_spec (blen [] + blen (encode x)) (blen (encode x) + blen post)) as [Hl|]; [|done].
    intros [= <-]. assert (post = []) as -> by (destruct post; [done|unfold blen in Hl; simpl in Hl; lia]).
    by rewrite app_nil_r.
  - intros [-> Hv].
    rewrite (exact_reads _ _ decode_wire_exact (encode v) v _ (mkDecoder (encode v) (blen (encode v)))).
    + unfold exhausted. cbn. by rewrite N.eqb_refl.
    + done.
    + done.
    + exists [], []. by rewrite app_nil_r.
Qed.

Lemma wire_decode_encode (v : A) : blen (encode v) ≤ u64_max → wire_ok v → decode (encode v) = Ok v.
Proof. intros. by apply decode_exact. Qed.

Lemma encode_inj (v1 v2 : A) :
  blen (encode v1) ≤ u64_max → wire_ok v1 → wire_ok v2 → encode v1 = encode v2 → v1 = v2.
Proof.
  intros Hl H1 H2 Heq. pose proof (wire_decode_encode v1 Hl H1) as Hd.
  rewrite Heq in Hd, Hl. rewrite wire_decode_encode in Hd by done. congruence.
Qed.
End wire.

(** ** State keys *)

(** [ActorId], [CallId], [InvocationId], [Hash]: newtypes of [[u8; 32]]. *)
Abbreviation Hash := bytes (only parsing).
Abbreviation ActorId := bytes (only parsing).
Abbreviation CallId := bytes (only parsing).
Abbreviation InvocationId := bytes (only parsing).

Inductive StateKeyV2 :=
| ActorDirectory
| ExternalActorDirectory
| RoleAuthority
| ActorDescriptor (actor : ActorId)
| MethodPolicy (actor : ActorId) (method : bytes)
| ActorRow (actor : ActorId) (key : bytes)
| Continuation (actor : ActorId)
| Inbox (call : CallId)
| Outbox (call : CallId)
| Workflow (invocation : InvocationId)
| CrdtMaterialization (actor : ActorId)
| PendingAuthorizedInbox (actor : ActorId).

#[export] Instance StateKeyV2_eq_dec : EqDecision StateKeyV2.
Proof. solve_decision. Defined.

Definition key_encode_body (k : StateKeyV2) : bytes :=
  match k with
  | ActorDirectory => enc_u8 9
  | ExternalActorDirectory => enc_u8 10
  | RoleAuthority => enc_u8 11
  | ActorDescriptor actor => enc_u8 0 ++ enc_fixed actor
  | MethodPolicy actor method => enc_u8 1 ++ enc_fixed actor ++ enc_string method
  | ActorRow actor key => enc_u8 2 ++ enc_fixed actor ++ enc_bytes key
  | Continuation actor => enc_u8 3 ++ enc_fixed actor
  | Inbox call => enc_u8 4 ++ enc_fixed call
  | Outbox call => enc_u8 5 ++ enc_fixed call
  | Workflow invocation => enc_u8 6 ++ enc_fixed invocation
  | CrdtMaterialization actor => enc_u8 7 ++ enc_fixed actor
  | PendingAuthorizedInbox actor => enc_u8 8 ++ enc_fixed actor
  end.

Definition key_decode_tag (tag : N) : decoder StateKeyV2 :=
  match tag with
  | 0 => actor ← dec_fixed; mret (ActorDescriptor actor)
  | 1 =>
      actor ← dec_fixed;
      method ← dec_string;
      if bool_decide (method = []) then throw NonCanonical else mret (MethodPolicy actor method)
  | 2 =>
      actor ← dec_fixed;
      key ← dec_bytes;
      if bool_decide (key = []) then throw NonCanonical else mret (ActorRow actor key)
  | 3 => actor ← dec_fixed; mret (Continuation actor)
  | 4 => call ← dec_fixed; mret (Inbox call)
  | 5 => call ← dec_fixed; mret (Outbox call)
  | 6 => invocation ← dec_fixed; mret (Workflow invocation)
  | 7 => actor ← dec_fixed; mret (CrdtMaterialization actor)
  | 8 => actor ← dec_fixed; mret (PendingAuthorizedInbox actor)
  | 9 => mret ActorDirectory
  | 10 => mret ExternalActorDirectory
  | 11 => mret RoleAuthority
  | _ => throw InvalidTag
  end.

#[export] Instance StateKeyV2_wire : V2Wire StateKeyV2 := {|
  MAGIC := b# "VSK2";
  encode_body := key_encode_body;
  decode_body := tag ← dec_u8; key_decode_tag tag;
|}.

(** The keys a wire can carry: the rest encode to bytes that do not decode. *)
Definition key_ok (k : StateKeyV2) : Prop :=
  match k with
  | ActorDirectory | ExternalActorDirectory | RoleAuthority => True
  | MethodPolicy actor method => id_ok actor ∧ string_ok method ∧ method ≠ []
  | ActorRow actor key => id_ok actor ∧ bytes_ok key ∧ key ≠ []
  | ActorDescriptor id | Continuation id | Inbox id | Outbox id | Workflow id
  | CrdtMaterialization id | PendingAuthorizedInbox id => id_ok id
  end.

#[export] Instance key_ok_dec k : Decision (key_ok k).
Proof. destruct k; unfold key_ok, string_ok, bytes_ok, id_ok; apply _. Defined.

Definition key_tag (k : StateKeyV2) : N :=
  match k with
  | ActorDescriptor _ => 0 | MethodPolicy _ _ => 1 | ActorRow _ _ => 2 | Continuation _ => 3
  | Inbox _ => 4 | Outbox _ => 5 | Workflow _ => 6 | CrdtMaterialization _ => 7
  | PendingAuthorizedInbox _ => 8 | ActorDirectory => 9 | ExternalActorDirectory => 10
  | RoleAuthority => 11
  end.

(** The bytes after the tag. *)
Definition key_fields (k : StateKeyV2) : bytes :=
  match k with
  | ActorDirectory | ExternalActorDirectory | RoleAuthority => []
  | MethodPolicy actor method => enc_fixed actor ++ enc_string method
  | ActorRow actor key => enc_fixed actor ++ enc_bytes key
  | ActorDescriptor id | Continuation id | Inbox id | Outbox id | Workflow id
  | CrdtMaterialization id | PendingAuthorizedInbox id => enc_fixed id
  end.

Lemma key_encode_body_fields k : key_encode_body k = enc_u8 (key_tag k) ++ key_fields k.
Proof. destruct k; cbn [key_encode_body key_tag key_fields]; by rewrite ?app_nil_r. Qed.

Lemma dec_pair_exact {B} (d : decoder bytes) enc ok (f : bytes → bytes → B) :
  exact d (λ w x, w = enc x ∧ ok x) →
  exact (a ← dec_fixed; x ← d; if bool_decide (x = []) then throw NonCanonical else mret (f a x))
    (λ w y, ∃ a x, w = enc_fixed a ++ enc x ∧ id_ok a ∧ ok x ∧ x ≠ [] ∧ y = f a x).
Proof.
  intros Hd. eapply exact_iff.
  - eapply exact_bind; [apply dec_fixed_exact|]. intros a.
    eapply exact_bind; [apply Hd|]. intros x. apply exact_if; [apply exact_throw|apply exact_ret].
  - intros w y. rewrite bound_iff. split.
    + intros (a & w1 & w2 & [-> Ha] & (v1 & v2 & x & -> & [-> Hx] & Hk) & ->).
      case_bool_decide; [done|]. destruct Hk as [-> ->]. rewrite app_nil_r. naive_solver.
    + intros (a & x & -> & Ha & Hx & Hne & ->). exists a, (enc_fixed a), (enc x).
      split_and!; [done..| |done]. exists (enc x), [], x.
      rewrite bool_decide_false by done. by rewrite app_nil_r.
Qed.

Lemma key_decode_tag_exact tag :
  exact (key_decode_tag tag) (λ w k, key_tag k = tag ∧ w = key_fields k ∧ key_ok k).
Proof.
  assert (∀ tag, 11 < tag → key_decode_tag tag = throw InvalidTag) as Hbig.
  { clear tag. intros [|p] Hp; [lia|]. do 4 (destruct p as [p|p|]; try done; try lia). }
  destruct (N.lt_ge_cases 11 tag) as [Ht|Ht].
  { rewrite Hbig by done. eapply exact_iff; [apply exact_throw|].
    intros w k. split; [done|]. intros [<- _]. destruct k; simpl in Ht; lia. }
  assert (tag ∈ [0; 1; 2; 3; 4; 5; 6; 7; 8; 9; 10; 11]) as Hin.
  { clear Hbig. destruct tag as [|p]; [set_solver|].
    do 4 (destruct p as [p|p|]; try set_solver; try lia). }
  clear Ht Hbig. repeat (apply elem_of_cons in Hin as [->|Hin]); [..|by apply elem_of_nil in Hin];
    unfold key_decode_tag;
    (eapply exact_iff;
     [apply exact_ret || (apply exact_map, dec_fixed_exact) || (apply dec_pair_exact, dec_string_exact)
      || (apply dec_pair_exact, dec_bytes_exact)|]);
    intros w k; (split; [intros; destruct_and?; naive_solver|]);
    destruct k; cbn [key_tag key_fields key_ok]; intros; naive_solver.
Qed.

#[export] Program Instance StateKeyV2_laws : WireLaws StateKeyV2 := {| wire_ok := key_ok |}.
Next Obligation. done. Qed.
Next Obligation.
  eapply exact_iff.
  - cbn [decode_body StateKeyV2_wire]. eapply exact_bind; [apply dec_u8_exact|]. apply key_decode_tag_exact.
  - intros w k. cbn [encode_body StateKeyV2_wire]. rewrite key_encode_body_fields.
    split; [intros (w1 & w2 & t & -> & [-> _] & <- & -> & Hk); done|]. intros [-> Hk].
    exists (enc_u8 (key_tag k)), (key_fields k), (key_tag k). split_and!; try done.
    by destruct k.
Qed.
