(* ===== verification/V2Identity.v ===== *)
(** * vos v2: derived identities

    [vos/src/v2/identity.rs]: every identifier of the v2 protocol is a 32-byte
    digest of a domain string followed by its parts, without a separator between
    the domain and the parts or between the parts themselves.  Whether two
    different sources can ever hash the same bytes is therefore a property of the
    layouts: [hashed_inj] shows that they cannot, within one kind of identifier
    or across kinds. *)

From Stdlib.Strings Require Byte.
From stdpp Require Import strings.
From S2P Require Import Prelude Bytes Blake2b V2Wire.

Local Open Scope N_scope.

(** [Hash::ZERO]. *)
Definition ZERO : Hash := zeros 32.

Definition digest (domain : bytes) (parts : list bytes) : Hash :=
  hash_via_ecall 32 domain parts.

Definition of_pvm (pvm : bytes) : bytes := digest (b# "vos/program/v2") [pvm].
Definition of_authenticated_peer (peer_id : bytes) : bytes :=
  digest (b# "vos/subject/v2") [peer_id].
Definition owned_child (parent : ActorId) (name : bytes) : ActorId :=
  digest (b# "vos/owned-child/v2") [parent; name].
Definition of_public_key (public_key : bytes) : bytes :=
  digest (b# "vos/producer/v2") [public_key].

(** [usize as u64]: 64 bits wide on every supported target. *)
Definition len_u64 (b : bytes) : bytes := to_le_bytes 8 (blen b).

Definition derive (namespace nonce : bytes) : InvocationId :=
  digest (b# "vos/invocation/v2") [len_u64 namespace; namespace; len_u64 nonce; nonce].
Definition call_id (invocation : InvocationId) (await_ordinal : N) : CallId :=
  digest (b# "vos/call/v2") [invocation; to_le_bytes 8 await_ordinal].
Definition root_reply_id (invocation : InvocationId) : CallId := invocation.
Definition for_call (call : CallId) : InvocationId :=
  digest (b# "vos/call-invocation/v2") [call].
Definition operation (change actor : bytes) (dispatch_ordinal : N) (field : Hash)
    (operation_ordinal : N) : bytes :=
  digest (b# "vos/crdt-operation-id/v2")
    [change; actor; to_le_bytes 4 dispatch_ordinal; field; to_le_bytes 4 operation_ordinal].

(** ** The sources of identifiers *)

Inductive IdSource :=
| Program (pvm : bytes)
| Subject (peer : bytes)
| Child (parent name : bytes)
| Producer (key : bytes)
| Invocation (namespace nonce : bytes)
| Call (invocation : bytes) (ordinal : N)
| CallInvocation (call : bytes)
| Operation (change actor : bytes) (dispatch : N) (field : bytes) (ordinal : N).

(** What the Rust types guarantee of the arguments. *)
Definition source_ok (s : IdSource) : Prop :=
  match s with
  | Program b | Subject b | Producer b => blen b ≤ u64_max
  | Child parent name => id_ok parent ∧ blen name ≤ u64_max
  | Invocation namespace nonce => blen namespace ≤ u64_max ∧ blen nonce ≤ u64_max
  | Call invocation ordinal => id_ok invocation ∧ ordinal ≤ u64_max
  | CallInvocation call => id_ok call
  | Operation change actor dispatch field ordinal =>
      id_ok change ∧ id_ok actor ∧ dispatch ≤ u32_max ∧ id_ok field ∧ ordinal ≤ u32_max
  end.

Definition derive_id (s : IdSource) : bytes :=
  match s with
  | Program pvm => of_pvm pvm
  | Subject peer => of_authenticated_peer peer
  | Child parent name => owned_child parent name
  | Producer key => of_public_key key
  | Invocation namespace nonce => derive namespace nonce
  | Call invocation ordinal => call_id invocation ordinal
  | CallInvocation call => for_call call
  | Operation change actor dispatch field ordinal => operation change actor dispatch field ordinal
  end.

(** The bytes a source hashes. *)
Definition hashed (s : IdSource) : bytes :=
  match s with
  | Program pvm => b# "vos/program/v2" ++ pvm
  | Subject peer => b# "vos/subject/v2" ++ peer
  | Child parent name => b# "vos/owned-child/v2" ++ parent ++ name
  | Producer key => b# "vos/producer/v2" ++ key
  | Invocation namespace nonce =>
      b# "vos/invocation/v2" ++ len_u64 namespace ++ namespace ++ len_u64 nonce ++ nonce
  | Call invocation ordinal => b# "vos/call/v2" ++ invocation ++ to_le_bytes 8 ordinal
  | CallInvocation call => b# "vos/call-invocation/v2" ++ call
  | Operation change actor dispatch field ordinal =>
      b# "vos/crdt-operation-id/v2" ++
      change ++ actor ++ to_le_bytes 4 dispatch ++ field ++ to_le_bytes 4 ordinal
  end.

Lemma digest_ref domain parts :
  blen (domain ++ concat parts) < u64_modulus →
  digest domain parts = Rfc.blake2b 32 (domain ++ concat parts).
Proof. apply hash_via_ecall_rfc. lia. Qed.

Lemma length_digest domain parts : length (digest domain parts) = 32%nat.
Proof. apply length_hash_via_ecall. lia. Qed.

(** Digests are compared, never unfolded. *)
#[global] Opaque digest.

Lemma derive_id_hashed s :
  blen (hashed s) < u64_modulus → derive_id s = Rfc.blake2b 32 (hashed s).
Proof.
  destruct s; intros Hl; cbn [derive_id]; unfold of_pvm, of_authenticated_peer, owned_child,
    of_public_key, derive, call_id, for_call, operation;
    rewrite digest_ref; cbn [concat]; rewrite ?app_nil_r; done.
Qed.

(** Layouts of fixed width split where their widths say. *)
Lemma app_inj_len {A} (a1 a2 b1 b2 : list A) :
  length a1 = length a2 → a1 ++ b1 = a2 ++ b2 → a1 = a2 ∧ b1 = b2.
Proof. intros Hl. apply app_inj_1. done. Qed.

Lemma to_le_bytes_inj w x y :
  x < int_modulus w → y < int_modulus w → to_le_bytes w x = to_le_bytes w y → x = y.
Proof.
  intros Hx Hy Heq. by rewrite <- (from_to_le_bytes w x), <- (from_to_le_bytes w y), Heq.
Qed.

Lemma len_u64_inj b1 b2 r1 r2 :
  blen b1 ≤ u64_max → blen b2 ≤ u64_max →
  len_u64 b1 ++ b1 ++ r1 = len_u64 b2 ++ b2 ++ r2 → b1 = b2 ∧ r1 = r2.
Proof.
  intros H1 H2 Heq. apply app_inj_len in Heq as [Hl Heq];
    [|unfold len_u64; by rewrite !length_to_le_bytes].
  apply to_le_bytes_inj in Hl; [|unfold int_modulus, u64_max in *; simpl; lia..].
  apply app_inj_len in Heq as [-> ->]; [done|]. unfold blen in Hl. lia.
Qed.

Lemma hashed_inj s1 s2 : source_ok s1 → source_ok s2 → hashed s1 = hashed s2 → s1 = s2.
Proof.
  destruct s1, s2; cbn [hashed source_ok]; intros H1 H2 Heq;
    try (exfalso; clear -Heq; cbn in Heq; congruence);
    apply app_inv_head in Heq; destruct_and?; unfold id_ok in *.
  - by subst.
  - by subst.
  - apply app_inj_len in Heq as [-> ->]; [done|lia].
  - by subst.
  - apply len_u64_inj in Heq as [-> Heq]; [|done..].
    destruct (len_u64_inj nonce nonce0 [] []) as [-> _]; [done..|by rewrite !app_nil_r|done].
  - apply app_inj_len in Heq as [-> Heq]; [|lia].
    apply to_le_bytes_inj in Heq; [by subst|unfold int_modulus, u64_max in *; simpl; lia..].
  - by subst.
  - repeat (apply app_inj_len in Heq as [? Heq]; [|rewrite ?length_to_le_bytes; lia]).
    apply to_le_bytes_inj in Heq; [|unfold int_modulus, u32_max in *; simpl; lia..].
    match goal with H : to_le_bytes 4 _ = _ |- _ =>
      apply to_le_bytes_inj in H; [|unfold int_modulus, u32_max in *; simpl; lia..] end.
    by subst.
Qed.

(** every identifier is the RFC 7693 digest of [hashed] of its source, and no
    two different sources hash the same bytes: within a kind the layout of the
    parts is injective (variable-length parts are framed or last), and across
    kinds the domain strings keep the byte strings apart although no separator
    follows them. *)
Theorem derived_ids_bind_their_source s1 s2 :
  source_ok s1 → source_ok s2 → blen (hashed s1) ≤ u64_max →
  derive_id s1 = Rfc.blake2b 32 (hashed s1) ∧ (hashed s1 = hashed s2 ↔ s1 = s2).
Proof.
  intros H1 H2 Hl. split.
  - apply derive_id_hashed. unfold u64_max, u64_modulus in *. lia.
  - split; [by apply hashed_inj|by intros ->].
Qed.

Lemma derived_ids_bind_their_source_witness :
  let s1 := Invocation (b# "ab") (b# "c") in
  let s2 := Invocation (b# "a") (b# "bc") in
  derive_id s1 = Rfc.blake2b 32 (hashed s1) ∧ hashed s1 ≠ hashed s2.
Proof.
  destruct (derived_ids_bind_their_source (Invocation (b# "ab") (b# "c"))
    (Invocation (b# "a") (b# "bc"))) as [Hd Hi]; [done..|].
  split; [exact Hd|]. intros Heq. apply Hi in Heq. discriminate Heq.
Defined.
