(* ===== verification/StateTree.v ===== *)
(** * vos v2: the service state tree

    [vos/src/v2/state_tree.rs]: a binary Merkle-Patricia tree over the 256-bit
    digests of logical keys.  Nodes are immutable and stored under their own
    hash; the tree is a store and a root hash, [ServiceStateTreeV2].

    The store is the class [StateTreeStore], fallible as the trait is, with
    [StateTreeStoreLaws] what its documentation promises: a read that succeeds
    sees the earlier writes.  [update] threads the store in the monad [tree_m],
    whose [None] is a recursion that has run out of fuel, or the panic of an
    [expect] that is never reached; the tree is at most
    [TREE_DEPTH] branches deep, so [tree_fuel] is enough (StateTreeMap.v). *)

From Stdlib.Strings Require Byte.
From stdpp Require Import strings.
From S2P Require Import Prelude Bytes Blake2b V2Wire V2Identity.

Local Open Scope N_scope.

Definition SERVICE_STATE_LEAF_DOMAIN : bytes := b# "vos/service-state-leaf/v2".
Definition SERVICE_STATE_NODE_DOMAIN : bytes := b# "vos/service-state-node/v2".
Definition SERVICE_STATE_KEY_DOMAIN : bytes := b# "vos/service-state-key/v2".

Definition TREE_DEPTH : nat := 256.
Definition NODE_STORAGE_PREFIX : bytes := Byte.x00 :: b# "vos/v2/state-node/".

(** ** Hashing a key without building its wire *)

Definition key_length_part (k : StateKeyV2) : bytes :=
  match k with
  | MethodPolicy _ method => to_le_bytes 4 (blen method)
  | ActorRow _ key => to_le_bytes 4 (blen key)
  | _ => zeros 4
  end.

Definition key_parts (k : StateKeyV2) : list bytes :=
  match k with
  | ActorDescriptor actor | Continuation actor | CrdtMaterialization actor
  | PendingAuthorizedInbox actor => [actor]
  | Inbox call | Outbox call => [call]
  | Workflow invocation => [invocation]
  | MethodPolicy actor method => [actor; key_length_part k; method]
  | ActorRow actor key => [actor; key_length_part k; key]
  | ActorDirectory | ExternalActorDirectory | RoleAuthority => []
  end.

(** The array has twelve slots; [hash_state_key_parts_fit] shows that no caller
    fills more. *)
Definition hash_state_key_parts (prefix : list bytes) (key : StateKeyV2) (suffix : list bytes)
    : list bytes :=
  prefix ++ [b# "VSK2"; to_le_bytes 2 ABI_VERSION; [byte_of (key_tag key)]]
         ++ key_parts key ++ suffix.

Definition hash_state_key (domain : bytes) (prefix : list bytes) (key : StateKeyV2)
    (suffix : list bytes) : Hash :=
  digest domain (hash_state_key_parts prefix key suffix).

Definition state_position (key : StateKeyV2) : bytes :=
  hash_state_key SERVICE_STATE_KEY_DOMAIN [] key [].

(** ** Bits of a position *)

(** [position[bit / 8] & (1 << (7 - bit % 8)) != 0]. *)
Definition bit_at (position : bytes) (bit : nat) : bool :=
  negb (N.land (Byte.to_N (position !!! (bit / 8)%nat))
          (N.shiftl 1 (7 - N.of_nat bit `mod` 8)) =? 0).

Definition prefix_of (position : bytes) (level : nat) : bytes :=
  let full_bytes := (level / 8)%nat in
  let prefix := take full_bytes position ++ zeros (32 - full_bytes) in
  if bool_decide (level `mod` 8 = 0)%nat then prefix
  else <[full_bytes :=
           byte_of (N.land (Byte.to_N (position !!! full_bytes))
                      (high_mask (N.of_nat (level `mod` 8))))]> prefix.

Definition first_difference_before (position prefix : bytes) (before : nat) : option nat :=
  snd <$> list_find (λ bit, bit_at position bit ≠ bit_at prefix bit) (seq 0 before).

Definition first_differing_bit (l r : bytes) : option nat :=
  snd <$> list_find (λ bit, bit_at l bit ≠ bit_at r bit) (seq 0 TREE_DEPTH).

(** ** Nodes *)

Inductive StateNodeV2 :=
| Leaf (position : bytes) (logical_key : StateKeyV2) (value : bytes)
| Branch (bit : N) (prefix : bytes) (l r : Hash).

#[export] Instance StateNodeV2_eq_dec : EqDecision StateNodeV2.
Proof. solve_decision. Defined.

Definition node_encode_body (n : StateNodeV2) : bytes :=
  match n with
  | Leaf position logical_key value =>
      enc_u8 0 ++ enc_fixed position ++ enc_bytes (encode logical_key) ++ enc_bytes value
  | Branch bit prefix l r =>
      enc_u8 1 ++ enc_u16 bit ++ enc_fixed prefix ++ enc_fixed l ++ enc_fixed r
  end.

(** [StateKeyV2::decode(&d.bytes()?)?]. *)
Definition dec_key : decoder StateKeyV2 :=
  b ← dec_bytes;
  match decode b with
  | Ok key => mret key
  | Err e => throw e
  end.

Definition dec_leaf : decoder StateNodeV2 :=
  position ← dec_fixed;
  logical_key ← dec_key;
  value ← dec_bytes;
  if bool_decide (state_position logical_key ≠ position) then throw NonCanonical
  else mret (Leaf position logical_key value).

Definition branch_non_canonical (bit : N) (prefix l r : bytes) : bool :=
  (N.of_nat TREE_DEPTH <=? bit)
  || bool_decide (prefix_of prefix (N.to_nat bit) ≠ prefix)
  || bool_decide (l = ZERO) || bool_decide (r = ZERO) || bool_decide (l = r).

Definition dec_branch : decoder StateNodeV2 :=
  bit ← dec_u16;
  prefix ← dec_fixed;
  l ← dec_fixed;
  r ← dec_fixed;
  if branch_non_canonical bit prefix l r then throw NonCanonical
  else mret (Branch bit prefix l r).

Definition node_decode_tag (tag : N) : decoder StateNodeV2 :=
  match tag with
  | 0 => dec_leaf
  | 1 => dec_branch
  | _ => throw InvalidTag
  end.

#[export] Instance StateNodeV2_wire : V2Wire StateNodeV2 := {|
  MAGIC := b# "VSN2";
  encode_body := node_encode_body;
  decode_body := tag ← dec_u8; node_decode_tag tag;
|}.

Definition hash_node (n : StateNodeV2) : Hash :=
  match n with
  | Leaf position logical_key value =>
      hash_state_key SERVICE_STATE_LEAF_DOMAIN [position] logical_key
        [to_le_bytes 8 (blen value); value]
  | Branch bit prefix l r =>
      digest SERVICE_STATE_NODE_DOMAIN [to_le_bytes 2 bit; prefix; l; r]
  end.

Definition node_storage_key (hash : Hash) : bytes := NODE_STORAGE_PREFIX ++ hash.

(** ** The store *)

Class StateTreeStore (S E : Type) := {
  store_read : S → bytes → result E (option bytes);
  store_write : S → bytes → option bytes → result E unit * S;
}.

(** Reads observe earlier writes; after a failed write the transaction is
    discarded, so nothing is promised. *)
Class StateTreeStoreLaws (S E : Type) `{StateTreeStore S E} := {
  rows : S → bytes → option bytes;
  read_rows : ∀ s k v, store_read s k = Ok v → v = rows s k;
  write_rows : ∀ s k v s', store_write s k v = (Ok tt, s') →
    ∀ k', rows s' k' = if decide (k' = k) then v else rows s k';
}.

(** A store none of whose operations fail. *)
Class InfallibleStore (S E : Type) `{StateTreeStoreLaws S E} : Prop := {
  read_never_fails : ∀ s k, store_read s k = Ok (rows s k);
  write_never_fails : ∀ s k v, ∃ s', store_write s k v = (Ok tt, s');
}.

Inductive StateTreeError (E : Type) :=
| Storage (e : E)
| CorruptLeaf
| CorruptNode
| KeyCollision
| RootMismatch (expected actual : Hash).
Arguments Storage {E} e.
Arguments CorruptLeaf {E}.
Arguments CorruptNode {E}.
Arguments KeyCollision {E}.
Arguments RootMismatch {E} expected actual.

(** ** The tree *)

Section tree.
Context {S E : Type} `{StateTreeStore S E}.

Definition tree_result (A : Type) : Type := result (StateTreeError E) A.

(** A computation on the store; [None] when the recursion has no fuel left. *)
Definition tree_m (A : Type) : Type := S → option (tree_result A * S).

Definition tree_ret {A} (x : A) : tree_m A := λ s, Some (Ok x, s).
Definition tree_err {A} (e : StateTreeError E) : tree_m A := λ s, Some (Err e, s).
Definition tree_bind {A B} (m : tree_m A) (k : A → tree_m B) : tree_m B := λ s,
  match m s with
  | Some (Ok x, s') => k x s'
  | Some (Err e, s') => Some (Err e, s')
  | None => None
  end.

Record ServiceStateTreeV2 := mkTree { tree_store : S; tree_root : Hash }.

Definition empty_state_root : Hash := ZERO.

Definition read_node (s : S) (expected : Hash) : tree_result StateNodeV2 :=
  match store_read s (node_storage_key expected) with
  | Err e => Err (Storage e)
  | Ok None => Err (RootMismatch expected ZERO)
  | Ok (Some b) =>
      match decode b with
      | Err _ => Err CorruptNode
      | Ok node =>
          if bool_decide (hash_node node ≠ expected) then
            match node with
            | Leaf _ _ _ => Err CorruptLeaf
            | Branch _ _ _ _ => Err CorruptNode
            end
          else Ok node
      end
  end.

Definition read_node_m (expected : Hash) : tree_m StateNodeV2 := λ s,
  Some (read_node s expected, s).

Definition store_node (node : StateNodeV2) : tree_m Hash := λ s,
  let hash := hash_node node in
  let key := node_storage_key hash in
  match store_read s key with
  | Err e => Some (Err (Storage e), s)
  | Ok (Some existing) =>
      if bool_decide (existing ≠ encode node) then Some (Err CorruptNode, s) else Some (Ok hash, s)
  | Ok None =>
      match store_write s key (Some (encode node)) with
      | (Ok tt, s') => Some (Ok hash, s')
      | (Err e, s') => Some (Err (Storage e), s')
      end
  end.

Definition store_branch (bit : nat) (inserted_position : bytes) (existing inserted : Hash)
    : tree_m Hash :=
  let '(l, r) := if bit_at inserted_position bit then (existing, inserted)
                 else (inserted, existing) in
  store_node (Branch (N.of_nat bit `mod` 65536) (prefix_of inserted_position bit) l r).

(** The [while current != Hash::ZERO] loop. *)
Fixpoint get_loop (fuel : nat) (s : S) (position : bytes) (key : StateKeyV2) (current : Hash)
    : option (tree_result (option bytes)) :=
  match fuel with
  | O => None
  | Datatypes.S fuel =>
      if bool_decide (current = ZERO) then Some (Ok None) else
      match read_node s current with
      | Err e => Some (Err e)
      | Ok (Leaf stored_position logical_key value) =>
          if bool_decide (stored_position ≠ position) then Some (Ok None)
          else if bool_decide (logical_key ≠ key) then Some (Err KeyCollision)
          else Some (Ok (Some value))
      | Ok (Branch bit prefix l r) =>
          let bit := N.to_nat bit in
          if bool_decide (prefix_of position bit ≠ prefix) then Some (Ok None)
          else get_loop fuel s position key (if bit_at position bit then r else l)
      end
  end.

Definition get (fuel : nat) (t : ServiceStateTreeV2) (key : StateKeyV2)
    : option (tree_result (option bytes)) :=
  get_loop fuel (tree_store t) (state_position key) key (tree_root t).

Fixpoint update (fuel : nat) (current : Hash) (position : bytes) (key : StateKeyV2)
    (value : option bytes) : tree_m Hash :=
  match fuel with
  | O => λ _, None
  | Datatypes.S fuel =>
      if bool_decide (current = ZERO) then
        match value with
        | Some value => store_node (Leaf position key value)
        | None => tree_ret ZERO
        end
      else
      tree_bind (read_node_m current) (λ node,
      match node with
      | Leaf stored_position logical_key stored_value =>
          if bool_decide (stored_position = position) then
            if bool_decide (logical_key ≠ key) then tree_err KeyCollision
            else match value with
                 | Some value =>
                     if bool_decide (value = stored_value) then tree_ret current
                     else store_node (Leaf position key value)
                 | None => tree_ret ZERO
                 end
          else
            match value with
            | None => tree_ret current
            | Some value =>
                match first_differing_bit stored_position position with
                | None => λ _, None (* expect: distinct positions have a differing bit *)
                | Some bit =>
                    tree_bind (store_node (Leaf position key value))
                      (store_branch bit position current)
                end
            end
      | Branch bit prefix l r =>
          let bit := N.to_nat bit in
          match first_difference_before position prefix bit with
          | Some earlier =>
              match value with
              | None => tree_ret current
              | Some value =>
                  tree_bind (store_node (Leaf position key value))
                    (store_branch earlier position current)
              end
          | None =>
              let right_side := bit_at position bit in
              let child := if right_side then r else l in
              tree_bind (update fuel child position key value) (λ next_child,
              if bool_decide (next_child = child) then tree_ret current
              else if bool_decide (next_child = ZERO) then tree_ret (if right_side then l else r)
              else store_node
                     (if right_side then Branch (N.of_nat bit `mod` 65536) prefix l next_child
                      else Branch (N.of_nat bit `mod` 65536) prefix next_child r))
          end
      end)
  end.

(** [apply]: the root moves only when the update succeeds. *)
Definition apply (fuel : nat) (t : ServiceStateTreeV2) (key : StateKeyV2) (value : option bytes)
    : option (tree_result Hash * ServiceStateTreeV2) :=
  match update fuel (tree_root t) (state_position key) key value (tree_store t) with
  | Some (Ok next, s') => Some (Ok next, mkTree s' next)
  | Some (Err e, s') => Some (Err e, mkTree s' (tree_root t))
  | None => None
  end.
End tree.
Arguments ServiceStateTreeV2 : clear implicits.

Definition tree_fuel : nat := TREE_DEPTH + 1.
