(* ===== verification/StateTreeNode.v ===== *)
(** * The state tree: bits of positions

    [bit_at], [prefix_of], [first_differing_bit] and [first_difference_before]
    work on bytes with masks; here they are related to the bit string of a
    position.  A position is determined by its 256 bits ([position_ext]), two
    prefixes of a level agree iff the positions agree on every earlier bit
    ([prefix_of_eq]), and the searches return the first bit that differs. *)

From Stdlib.Strings Require Byte.
From stdpp Require Import strings.
From S2P Require Import Prelude Bytes Blake2b V2Wire V2Identity StateTree.

Local Open Scope N_scope.

Lemma bit_at_testbit p i :
  bit_at p i = N.testbit (Byte.to_N (p !!! (i / 8)%nat)) (7 - N.of_nat (i `mod` 8)).
Proof.
  unfold bit_at. rewrite Nat2N.inj_mod. change (N.of_nat 8) with 8.
  generalize (7 - N.of_nat i `mod` 8) as k, (Byte.to_N (p !!! (i / 8)%nat)) as x. intros k x.
  rewrite N.shiftl_1_l. destruct (N.testbit x k) eqn:Hb.
  - destruct (N.eqb_spec (N.land x (2 ^ k)) 0) as [Hz|]; [|done].
    assert (N.testbit (N.land x (2 ^ k)) k = true) as Ht
      by by rewrite N.land_spec, Hb, N.pow2_bits_true.
    by rewrite Hz, N.bits_0 in Ht.
  - destruct (N.eqb_spec (N.land x (2 ^ k)) 0) as [|Hz]; [done|]. exfalso. apply Hz.
    apply N.bits_inj_0. intros j. rewrite N.land_spec. destruct (N.eq_dec j k) as [->|Hj].
    + by rewrite Hb.
    + rewrite N.pow2_bits_false by done. by rewrite andb_false_r.
Qed.

Definition agree (p q : bytes) (n : nat) : Prop := ∀ i, (i < n)%nat → bit_at p i = bit_at q i.

Lemma position_ext p q : id_ok p → id_ok q → agree p q TREE_DEPTH → p = q.
Proof.
  unfold id_ok. intros Hp Hq Heq. apply list_eq_same_length with 32%nat; [done..|].
  intros j x y Hj Hx Hy. apply byte_ext. intros k Hk.
  specialize (Heq (j * 8 + k)%nat). unfold TREE_DEPTH in Heq. rewrite !bit_at_testbit in Heq.
  rewrite Nat.div_add_l, Nat.div_small, Nat.add_0_r in Heq by lia.
  rewrite (Nat.add_comm (j * 8)), Nat.Div0.mod_add, Nat.mod_small in Heq by lia.
  rewrite (list_lookup_total_correct p j x), (list_lookup_total_correct q j y) in Heq by done.
  apply Heq. lia.
Qed.

Lemma prefix_of_mask p level : prefix_of p level = mask_prefix 32 p level.
Proof. unfold prefix_of, mask_prefix, zeros. case_bool_decide; [by rewrite decide_True|by rewrite decide_False]. Qed.

Lemma length_prefix_of p level : id_ok p → (level ≤ TREE_DEPTH)%nat → id_ok (prefix_of p level).
Proof. intros Hp Hl. rewrite prefix_of_mask. by apply length_mask_prefix. Qed.

Lemma bit_at_prefix_of p level i :
  id_ok p → (level ≤ TREE_DEPTH)%nat → (i < TREE_DEPTH)%nat →
  bit_at (prefix_of p level) i = (i <? level)%nat && bit_at p i.
Proof. intros Hp Hl Hi. rewrite !bit_at_testbit, prefix_of_mask. by apply mask_prefix_testbit. Qed.

Lemma prefix_of_eq p q level :
  id_ok p → id_ok q → (level ≤ TREE_DEPTH)%nat → prefix_of p level = prefix_of q level ↔ agree p q level.
Proof.
  intros Hp Hq Hl. split.
  - intros Heq i Hi. assert (i < TREE_DEPTH)%nat by lia.
    pose proof (bit_at_prefix_of p level i Hp Hl) as H1.
    rewrite Heq, bit_at_prefix_of in H1 by done.
    destruct (Nat.ltb_spec i level); [|lia]. simpl in H1. symmetry. auto.
  - intros Hag. apply position_ext; [by apply length_prefix_of..|].
    intros i Hi. rewrite !bit_at_prefix_of by done.
    destruct (Nat.ltb_spec i level); [by rewrite Hag|done].
Qed.

Lemma agree_prefix_of p level : id_ok p → (level ≤ TREE_DEPTH)%nat → agree p (prefix_of p level) level.
Proof.
  intros Hp Hl i Hi. rewrite bit_at_prefix_of by (done || lia). by destruct (Nat.ltb_spec i level); [|lia].
Qed.

Lemma prefix_of_idemp p level :
  id_ok p → (level ≤ TREE_DEPTH)%nat → prefix_of (prefix_of p level) level = prefix_of p level.
Proof.
  intros Hp Hl. apply prefix_of_eq; [by apply length_prefix_of|done..|].
  intros i Hi. symmetry. by apply agree_prefix_of.
Qed.

(** A prefix is the prefix of every position that agrees with it. *)
Lemma prefix_of_agree p prefix level :
  id_ok p → id_ok prefix → (level ≤ TREE_DEPTH)%nat → prefix_of prefix level = prefix →
  prefix_of p level = prefix ↔ agree p prefix level.
Proof.
  intros Hp Hpre Hl Hcan. split.
  - intros Heq. apply prefix_of_eq; [done..|]. by rewrite Hcan.
  - intros Hag. apply prefix_of_eq in Hag; [|done..]. by rewrite Hag.
Qed.

Lemma agree_sym p q n : agree p q n → agree q p n.
Proof. intros H i Hi. symmetry. auto. Qed.
Lemma agree_trans p q r n : agree p q n → agree q r n → agree p r n.
Proof. intros H1 H2 i Hi. rewrite H1, H2; auto. Qed.
Lemma agree_le p q n m : (m ≤ n)%nat → agree p q n → agree p q m.
Proof. intros Hm H i Hi. apply H. lia. Qed.
Lemma agree_refl p n : agree p p n.
Proof. done. Qed.

(** ** The searches *)

Lemma find_bit_Some p q n b :
  snd <$> list_find (λ bit, bit_at p bit ≠ bit_at q bit) (seq 0 n) = Some b ↔
  (b < n)%nat ∧ bit_at p b ≠ bit_at q b ∧ agree p q b.
Proof.
  rewrite fmap_Some. split.
  - intros ([i x] & (Hi & Hx & Hlt)%list_find_Some & ->). simpl.
    apply lookup_seq in Hi as [-> Hi]. simpl in *. split_and!; [done|done|].
    intros j Hj. destruct (decide (bit_at p j = bit_at q j)) as [|Hne]; [done|].
    exfalso. apply (Hlt j j); [apply lookup_seq; lia|done|done].
  - intros (Hb & Hne & Hag). exists (b, b). split; [|done]. apply list_find_Some.
    split_and!; [apply lookup_seq; lia|done|]. intros j y Hy Hj.
    apply lookup_seq in Hy as [-> _]. simpl. intros Hn. apply Hn, Hag, Hj.
Qed.

Lemma find_bit_None p q n :
  snd <$> list_find (λ bit, bit_at p bit ≠ bit_at q bit) (seq 0 n) = None ↔ agree p q n.
Proof.
  rewrite fmap_None, list_find_None, Forall_seq. split.
  - intros H i Hi. destruct (decide (bit_at p i = bit_at q i)) as [|Hne]; [done|].
    exfalso. apply (H i); [lia|done].
  - intros Hag j Hj Hne. apply Hne, Hag. lia.
Qed.

Lemma first_differing_bit_Some p q b :
  first_differing_bit p q = Some b ↔ (b < TREE_DEPTH)%nat ∧ bit_at p b ≠ bit_at q b ∧ agree p q b.
Proof. apply find_bit_Some. Qed.

Lemma first_differing_bit_None p q :
  id_ok p → id_ok q → first_differing_bit p q = None → p = q.
Proof. intros Hp Hq Hn. apply position_ext; [done..|]. by apply find_bit_None. Qed.

Lemma first_difference_before_Some p q n b :
  first_difference_before p q n = Some b ↔ (b < n)%nat ∧ bit_at p b ≠ bit_at q b ∧ agree p q b.
Proof. apply find_bit_Some. Qed.

Lemma first_difference_before_None p q n : first_difference_before p q n = None ↔ agree p q n.
Proof. apply find_bit_None. Qed.

(** * The state tree: node wires and node hashes

    [hash_state_key_wire]: hashing a key part by part hashes the bytes of its
    wire.  [StateNodeV2_laws]: a stored row decodes iff it is the encoding of a
    node that satisfies [node_ok], the checks of [decode_body].
    [node_hashed_inj]: the bytes two different nodes hash are different, so that
    equal node hashes are a collision of blake2b and of nothing else. *)

(** ** Keys hashed without their wire *)

Lemma key_parts_fields k : concat (key_parts k) = key_fields k.
Proof.
  destruct k; cbn [key_parts key_fields key_length_part concat];
    unfold enc_fixed, enc_string, enc_bytes, enc_u32; by rewrite ?app_nil_r.
Qed.

Lemma hash_state_key_wire prefix k suffix :
  concat (hash_state_key_parts prefix k suffix) = concat prefix ++ encode k ++ concat suffix.
Proof.
  unfold hash_state_key_parts. rewrite !concat_app, key_parts_fields.
  unfold encode. cbn [MAGIC encode_body StateKeyV2_wire]. rewrite key_encode_body_fields.
  by f_equal.
Qed.

(** Leaves pass one part before the key and two after it, positions none. *)
Lemma hash_state_key_parts_fit prefix k suffix :
  (length prefix + length suffix ≤ 3 → length (hash_state_key_parts prefix k suffix) ≤ 12)%nat.
Proof.
  intros Hl. unfold hash_state_key_parts. rewrite !length_app. destruct k; simpl; lia.
Qed.

Lemma length_state_position k : id_ok (state_position k).
Proof. unfold state_position, hash_state_key. apply length_digest. Qed.

Lemma length_hash_node n : id_ok (hash_node n).
Proof. destruct n; unfold hash_node, hash_state_key; apply length_digest. Qed.

(** ** What a node wire can carry *)

Definition node_ok (n : StateNodeV2) : Prop :=
  match n with
  | Leaf position key value =>
      position = state_position key ∧ key_ok key ∧ bytes_ok (encode key) ∧ bytes_ok value
  | Branch bit prefix l r =>
      (bit < 256) ∧ prefix_of prefix (N.to_nat bit) = prefix ∧
      id_ok prefix ∧ id_ok l ∧ id_ok r ∧ l ≠ ZERO ∧ r ≠ ZERO ∧ l ≠ r
  end.

#[export] Instance node_ok_dec n : Decision (node_ok n).
Proof. destruct n; unfold node_ok, bytes_ok, id_ok; apply _. Defined.

Lemma dec_key_exact :
  exact dec_key (λ w k, w = enc_bytes (encode k) ∧ key_ok k ∧ bytes_ok (encode k)).
Proof.
  eapply exact_iff.
  - unfold dec_key. eapply exact_bind; [apply dec_bytes_exact|]. intros b.
    instantiate (1 := λ b w k, w = [] ∧ decode b = Ok k). simpl.
    destruct (decode b) as [k|e]; (eapply exact_iff; [apply exact_ret || apply exact_throw|]);
      intros w k'; naive_solver.
  - assert (∀ b, bytes_ok b → blen b ≤ u64_max) as Hfit
      by (intros b Hb; unfold bytes_ok, MAX_BYTES, u64_max in *; lia).
    intros w k. split.
    + intros (w1 & w2 & b & -> & [-> Hb] & -> & Hd). apply decode_exact in Hd as [-> Hk]; [|auto].
      by rewrite app_nil_r.
    + intros (-> & Hk & Hl). exists (enc_bytes (encode k)), [], (encode k).
      rewrite app_nil_r. split_and!; try done. apply decode_exact; auto.
Qed.

Lemma dec_leaf_exact :
  exact dec_leaf (λ w n, ∃ p k v, n = Leaf p k v ∧ node_ok n ∧
    w = enc_fixed p ++ enc_bytes (encode k) ++ enc_bytes v).
Proof.
  eapply exact_iff.
  - unfold dec_leaf. eapply exact_bind; [apply dec_fixed_exact|]. intros p.
    eapply exact_bind; [apply dec_key_exact|]. intros k.
    eapply exact_bind; [apply dec_bytes_exact|]. intros v.
    apply exact_if; [apply exact_throw|apply exact_ret].
  - intros w n. split.
    + intros (w1 & w2 & p & -> & [-> Hp] & w3 & w4 & k & -> & (-> & Hk & Hl) &
              w5 & w6 & v & -> & [-> Hv] & Hn).
      case_bool_decide as Hpos; [done|]. destruct Hn as [-> ->].
      exists p, k, v. rewrite app_nil_r. unfold node_ok. naive_solver.
    + intros (p & k & v & -> & (-> & Hk & Hl & Hv) & ->).
      eexists _, _, _. split_and!; [done|done|apply length_state_position|].
      eexists _, _, _. split_and!; [done..|].
      exists (enc_bytes v), [], v. rewrite bool_decide_false by (intros Hne; by apply Hne).
      rewrite app_nil_r. done.
Qed.

Lemma branch_canonical bit prefix l r :
  branch_non_canonical bit prefix l r = false ↔
  (bit < 256) ∧ prefix_of prefix (N.to_nat bit) = prefix ∧ l ≠ ZERO ∧ r ≠ ZERO ∧ l ≠ r.
Proof.
  unfold branch_non_canonical. change (N.of_nat TREE_DEPTH) with 256.
  rewrite !orb_false_iff, !bool_decide_eq_false, N.leb_gt.
  split; [intros ((((?&Hp)&?)&?)&?); apply dec_stable in Hp; done|].
  intros (?&Hp&?&?&?). split_and!; try done. intros Hne. by apply Hne.
Qed.

Lemma dec_branch_exact :
  exact dec_branch (λ w n, ∃ b p l r, n = Branch b p l r ∧ node_ok n ∧
    w = enc_u16 b ++ enc_fixed p ++ enc_fixed l ++ enc_fixed r).
Proof.
  eapply exact_iff.
  - unfold dec_branch. eapply exact_bind; [apply dec_u16_exact|]. intros b.
    eapply exact_bind; [apply dec_fixed_exact|]. intros p.
    eapply exact_bind; [apply dec_fixed_exact|]. intros l.
    eapply exact_bind; [apply dec_fixed_exact|]. intros r.
    apply exact_if; [apply exact_throw|apply exact_ret].
  - intros w n. split.
    + intros (w1 & w2 & b & -> & [-> Hb] & w3 & w4 & p & -> & [-> Hp] & w5 & w6 & l & -> & [-> Hl] &
              w7 & w8 & r & -> & [-> Hr] & Hn).
      destruct (branch_non_canonical b p l r) eqn:Hc; [done|]. destruct Hn as [-> ->].
      apply branch_canonical in Hc. exists b, p, l, r. rewrite app_nil_r. unfold node_ok. naive_solver.
    + intros (b & p & l & r & -> & (Hb & Hpre & Hp & Hl & Hr & Hz) & ->).
      assert (branch_non_canonical b p l r = false) as Hc by (apply branch_canonical; naive_solver).
      eexists _, _, b. split_and!; [done|done|lia|].
      eexists _, _, p. split_and!; [done..|].
      eexists _, _, l. split_and!; [done..|].
      exists (enc_fixed r), [], r. rewrite Hc, app_nil_r. done.
Qed.

(** The bytes of a body after its tag. *)
Definition node_fields (n : StateNodeV2) : N * bytes :=
  match n with
  | Leaf p k v => (0, enc_fixed p ++ enc_bytes (encode k) ++ enc_bytes v)
  | Branch b p l r => (1, enc_u16 b ++ enc_fixed p ++ enc_fixed l ++ enc_fixed r)
  end.

Lemma node_decode_tag_exact tag :
  exact (node_decode_tag tag) (λ w n, node_ok n ∧ node_fields n = (tag, w)).
Proof.
  assert (∀ n, (node_fields n).1 ≤ 1) as Hle by (intros []; simpl; lia).
  assert (1 < tag → node_decode_tag tag = throw InvalidTag) as Hbig
    by (destruct tag as [|[| |]]; done || lia).
  destruct (N.lt_ge_cases 1 tag) as [Ht|Ht].
  { rewrite Hbig by done. eapply exact_iff; [apply exact_throw|]. intros w n. split; [done|].
    intros [_ Hf]. specialize (Hle n). rewrite Hf in Hle. simpl in Hle. lia. }
  assert (tag = 0 ∨ tag = 1) as [->| ->] by lia; cbn [node_decode_tag].
  - eapply exact_iff; [apply dec_leaf_exact|]. intros w n. split.
    + intros (p & k & v & -> & Hn & ->). done.
    + intros [Hn Hf]. destruct n as [p k v|]; [|done]. injection Hf as <-. by exists p, k, v.
  - eapply exact_iff; [apply dec_branch_exact|]. intros w n. split.
    + intros (b & p & l & r & -> & Hn & ->). done.
    + intros [Hn Hf]. destruct n as [|b p l r]; [done|]. injection Hf as <-. by exists b, p, l, r.
Qed.

#[export] Program Instance StateNodeV2_laws : WireLaws StateNodeV2 := {| wire_ok := node_ok |}.
Next Obligation. done. Qed.
Next Obligation.
  assert (∀ n, node_encode_body n = enc_u8 (node_fields n).1 ++ (node_fields n).2) as Hbody
    by by intros [].
  eapply exact_iff.
  - cbn [decode_body StateNodeV2_wire]. eapply exact_bind; [apply dec_u8_exact|].
    apply node_decode_tag_exact.
  - intros w n. cbn [encode_body StateNodeV2_wire]. rewrite Hbody. split.
    + intros (w1 & w2 & tag & -> & [-> _] & Hn & ->). done.
    + intros [-> Hn]. exists (enc_u8 (node_fields n).1), (node_fields n).2, (node_fields n).1.
      split_and!; [done|done|destruct n; simpl; lia|done|by destruct (node_fields n)].
Qed.

Lemma node_ok_fits n : node_ok n → (blen (encode n) ≤ u64_max)%N.
Proof.
  intros Hn. unfold encode. rewrite !blen_app, magic_len. cbn [encode_body StateNodeV2_wire].
  unfold u64_max. destruct n as [p k v|b p l r]; cbn [node_encode_body node_ok] in *.
  - destruct Hn as (-> & _ & Hk & Hv). pose proof (length_state_position k) as Hp.
    unfold bytes_ok, MAX_BYTES, id_ok, enc_bytes, enc_u32, enc_u16, enc_u8, enc_fixed in *.
    rewrite !blen_app. unfold blen in *. rewrite !length_to_le_bytes, Hp. lia.
  - destruct Hn as (_ & _ & Hp & Hl & Hr & _). unfold id_ok, enc_u16, enc_u8, enc_fixed in *.
    rewrite !blen_app. unfold blen. rewrite !length_to_le_bytes, Hp, Hl, Hr. lia.
Qed.

(** ** What a node hashes *)

Definition node_hashed (n : StateNodeV2) : bytes :=
  match n with
  | Leaf p k v => SERVICE_STATE_LEAF_DOMAIN ++ p ++ encode k ++ to_le_bytes 8 (blen v) ++ v
  | Branch b p l r => SERVICE_STATE_NODE_DOMAIN ++ to_le_bytes 2 b ++ p ++ l ++ r
  end.

Lemma hash_node_hashed n :
  blen (node_hashed n) < u64_modulus → hash_node n = Rfc.blake2b 32 (node_hashed n).
Proof.
  destruct n as [p k v|b p l r]; cbn [node_hashed hash_node]; intros Hl.
  - unfold hash_state_key. rewrite digest_ref, hash_state_key_wire; cbn [concat];
      rewrite ?hash_state_key_wire; cbn [concat]; rewrite !app_nil_r; done.
  - rewrite digest_ref; cbn [concat]; rewrite ?app_nil_r; done.
Qed.

Lemma state_position_hashed k :
  blen (SERVICE_STATE_KEY_DOMAIN ++ encode k) < u64_modulus →
  state_position k = Rfc.blake2b 32 (SERVICE_STATE_KEY_DOMAIN ++ encode k).
Proof.
  intros Hl. unfold state_position, hash_state_key.
  rewrite digest_ref; rewrite hash_state_key_wire; cbn [concat app]; by rewrite app_nil_r.
Qed.

(** A key wire followed by anything determines the key: the decoder reads it. *)
Lemma encode_key_prefix k1 k2 r1 r2 :
  key_ok k1 → key_ok k2 → blen (encode k1 ++ r1) ≤ u64_max →
  encode k1 ++ r1 = encode k2 ++ r2 → k1 = k2 ∧ r1 = r2.
Proof.
  intros H1 H2 Hl Heq.
  assert (∀ k r, encode k ++ r = encode k1 ++ r1 → key_ok k →
    decode_wire (mkDecoder (encode k1 ++ r1) 0) = Ok (k, mkDecoder (encode k1 ++ r1) (blen (encode k)))) as Hd.
  { intros k r Hk Hok. apply (exact_reads _ _ decode_wire_exact (encode k)); [done|done|].
    exists [], r. by rewrite <- Hk. }
  pose proof (Hd k1 r1 eq_refl H1) as Hd1. rewrite (Hd k2 r2 (eq_sym Heq) H2) in Hd1.
  injection Hd1 as -> _. split; [done|]. by apply app_inv_head in Heq.
Qed.

Lemma node_hashed_inj n1 n2 :
  node_ok n1 → node_ok n2 → blen (node_hashed n1) ≤ u64_max →
  node_hashed n1 = node_hashed n2 → n1 = n2.
Proof.
  intros H1 H2 Hl Heq.
  destruct n1 as [p1 k1 v1|b1 p1 l1 r1], n2 as [p2 k2 v2|b2 p2 l2 r2];
    cbn [node_hashed] in Heq, Hl;
    try (exfalso; clear -Heq; cbn in Heq; congruence);
    apply app_inv_head in Heq; cbn [node_ok] in H1, H2; unfold id_ok in *; destruct_and!.
  - subst p1 p2. apply app_inj_len in Heq as [Hp Heq];
      [|by rewrite !length_state_position].
    apply encode_key_prefix in Heq as [-> Heq]; [|done..|].
    + apply app_inj_len in Heq as [_ ->]; [done|by rewrite !length_to_le_bytes].
    + clear -Hl. rewrite !blen_app in *. lia.
  - apply app_inj_len in Heq as [Hb Heq]; [|by rewrite !length_to_le_bytes].
    apply to_le_bytes_inj in Hb; [|unfold int_modulus; simpl; lia..].
    do 2 (apply app_inj_len in Heq as [-> Heq]; [|lia]). by subst.
Qed.
