(* ===== verification/StateTreeMap.v ===== *)
(** * The state tree refines a finite map

    [ptree] is the tree a root hash stands for, [canon m] the tree built by
    inserting the rows of [m] one by one, and [state_root m] its root hash: the
    reference the incremental tree is compared with.

    - [tupd_elements], [tupd_wf]: updating a well-formed tree updates its rows
      and keeps it well formed; [ptree_ext]: a well-formed tree is determined by
      its rows, so the root does not depend on the history.
    - [height_le]: 257 levels at most, hence [tree_fuel].

    Hashes and positions are assumed free of collisions on the nodes [G] and the
    keys [K] in use, and on nothing else. *)

From Stdlib.Strings Require Byte.
From S2P Require Import Prelude Bytes Blake2b V2Wire V2Identity StateTree StateTreeNode.

Local Open Scope nat_scope.

(** Positions and hashes are compared, never computed, in these proofs. *)
#[local] Opaque state_position hash_node prefix_of encode.

(** ** Keys as map keys *)

Definition key_triple (k : StateKeyV2) : N * bytes * bytes :=
  match k with
  | ActorDirectory | ExternalActorDirectory | RoleAuthority => (key_tag k, [], [])
  | MethodPolicy actor method => (key_tag k, actor, method)
  | ActorRow actor key => (key_tag k, actor, key)
  | ActorDescriptor id | Continuation id | Inbox id | Outbox id | Workflow id
  | CrdtMaterialization id | PendingAuthorizedInbox id => (key_tag k, id, [])
  end.

Definition key_of_triple (t : N * bytes * bytes) : StateKeyV2 :=
  let '(tag, id, rest) := t in
  match tag with
  | 0 => ActorDescriptor id | 1 => MethodPolicy id rest | 2 => ActorRow id rest
  | 3 => Continuation id | 4 => Inbox id | 5 => Outbox id | 6 => Workflow id
  | 7 => CrdtMaterialization id | 8 => PendingAuthorizedInbox id
  | 9 => ActorDirectory | 10 => ExternalActorDirectory | _ => RoleAuthority
  end%N.

#[export] Instance StateKeyV2_countable : Countable StateKeyV2.
Proof. refine (inj_countable' key_triple key_of_triple _). by intros []. Defined.

(** ** Trees *)

Inductive ptree :=
| PLeaf (key : StateKeyV2) (value : bytes)
| PBranch (bit : nat) (prefix : bytes) (l r : ptree).

#[export] Instance ptree_eq_dec : EqDecision ptree.
Proof. solve_decision. Defined.

Fixpoint thash (t : ptree) : Hash :=
  match t with
  | PLeaf k v => hash_node (Leaf (state_position k) k v)
  | PBranch b p l r => hash_node (Branch (N.of_nat b) p (thash l) (thash r))
  end.

Definition tnode (t : ptree) : StateNodeV2 :=
  match t with
  | PLeaf k v => Leaf (state_position k) k v
  | PBranch b p l r => Branch (N.of_nat b) p (thash l) (thash r)
  end.

Fixpoint nodes (t : ptree) : list StateNodeV2 :=
  tnode t :: match t with PLeaf _ _ => [] | PBranch _ _ l r => nodes l ++ nodes r end.

Fixpoint elements_of (t : ptree) : list (StateKeyV2 * bytes) :=
  match t with
  | PLeaf k v => [(k, v)]
  | PBranch _ _ l r => elements_of l ++ elements_of r
  end.

Fixpoint height (t : ptree) : nat :=
  match t with
  | PLeaf _ _ => 1
  | PBranch _ _ l r => 1 + (height l `max` height r)
  end.

(** The empty tree has the root [ZERO]. *)
Definition ohash (ot : option ptree) : Hash := from_option thash ZERO ot.
Definition onodes (ot : option ptree) : list StateNodeV2 := from_option nodes [] ot.
Definition oelements (ot : option ptree) : list (StateKeyV2 * bytes) := from_option elements_of [] ot.

(** Every row below a branch has the branch's prefix and its side's bit. *)
Definition side (b : nat) (p : bytes) (d : bool) (t : ptree) : Prop :=
  ∀ k v, (k, v) ∈ elements_of t → agree (state_position k) p b ∧ bit_at (state_position k) b = d.

Fixpoint wf (t : ptree) : Prop :=
  match t with
  | PLeaf k v => node_ok (Leaf (state_position k) k v)
  | PBranch b p l r =>
      b < TREE_DEPTH ∧ id_ok p ∧ prefix_of p b = p ∧
      side b p false l ∧ side b p true r ∧ wf l ∧ wf r
  end.

(** ** The update of a tree *)

Definition join (b : nat) (k : StateKeyV2) (v : bytes) (t : ptree) : ptree :=
  if bit_at (state_position k) b
  then PBranch b (prefix_of (state_position k) b) t (PLeaf k v)
  else PBranch b (prefix_of (state_position k) b) (PLeaf k v) t.

Fixpoint tupd (t : ptree) (k : StateKeyV2) (value : option bytes) : option ptree :=
  match t with
  | PLeaf k0 v0 =>
      if bool_decide (state_position k0 = state_position k) then PLeaf k <$> value
      else match value, first_differing_bit (state_position k0) (state_position k) with
           | Some v, Some b => Some (join b k v t)
           | _, _ => Some t
           end
  | PBranch b p l r =>
      match first_difference_before (state_position k) p b with
      | Some e => match value with Some v => Some (join e k v t) | None => Some t end
      | None =>
          if bit_at (state_position k) b
          then match tupd r k value with Some r' => Some (PBranch b p l r') | None => Some l end
          else match tupd l k value with Some l' => Some (PBranch b p l' r) | None => Some r end
      end
  end.

Definition tapply (ot : option ptree) (k : StateKeyV2) (value : option bytes) : option ptree :=
  match ot with
  | None => PLeaf k <$> value
  | Some t => tupd t k value
  end.

(** The reference: rebuild the tree from the rows of a map. *)
Definition canon (m : gmap StateKeyV2 bytes) : option ptree :=
  foldr (λ kv ot, tapply ot kv.1 (Some kv.2)) None (map_to_list m).

Definition state_root (m : gmap StateKeyV2 bytes) : Hash := ohash (canon m).

(** ** Facts on trees *)

Lemma thash_tnode t : thash t = hash_node (tnode t).
Proof. by destruct t. Qed.

Lemma elements_of_nonempty t : ∃ kv, kv ∈ elements_of t.
Proof.
  induction t as [k v|b p l [kv Hl] r _]; [by exists (k, v); left|].
  exists kv. simpl. apply elem_of_app. by left.
Qed.

Lemma side_disjoint b p q t1 t2 kv :
  side b p false t1 → side b q true t2 → kv ∈ elements_of t1 → kv ∈ elements_of t2 → False.
Proof. destruct kv as [k v]. intros H1 H2 [_ Hf]%H1 [_ Ht]%H2. congruence. Qed.

(** Two rows of a branch that differ at its bit. *)
Lemma branch_split b p l r :
  wf (PBranch b p l r) → ∃ kv1 kv2,
    kv1 ∈ elements_of (PBranch b p l r) ∧ kv2 ∈ elements_of (PBranch b p l r) ∧
    bit_at (state_position kv1.1) b = false ∧ bit_at (state_position kv2.1) b = true.
Proof.
  intros (_ & _ & _ & Hl & Hr & _). destruct (elements_of_nonempty l) as [[k1 v1] H1].
  destruct (elements_of_nonempty r) as [[k2 v2] H2]. exists (k1, v1), (k2, v2).
  cbn [elements_of]. rewrite !elem_of_app. split_and!; auto; [by eapply Hl|by eapply Hr].
Qed.

Lemma branch_agree b p l r k v :
  wf (PBranch b p l r) → (k, v) ∈ elements_of (PBranch b p l r) → agree (state_position k) p b.
Proof.
  intros (_ & _ & _ & Hl & Hr & _). cbn [elements_of]. rewrite elem_of_app.
  intros [H|H]; [by apply Hl in H as [? _]|by apply Hr in H as [? _]].
Qed.

Lemma wf_elements t k v : wf t → (k, v) ∈ elements_of t → node_ok (Leaf (state_position k) k v).
Proof.
  induction t as [k0 v0|b p l IHl r IHr]; cbn [wf elements_of].
  - intros Hwf Hin. apply list_elem_of_singleton in Hin. by injection Hin as -> ->.
  - intros (_ & _ & _ & _ & _ & Hl & Hr) [H|H]%elem_of_app; auto.
Qed.

Lemma wf_functional t k v1 v2 :
  wf t → (k, v1) ∈ elements_of t → (k, v2) ∈ elements_of t → v1 = v2.
Proof.
  induction t as [k0 v0|b p l IHl r IHr]; cbn [wf elements_of].
  - intros _ H1%list_elem_of_singleton H2%list_elem_of_singleton. congruence.
  - intros (_ & _ & _ & Hl & Hr & Hwl & Hwr) [H1|H1]%elem_of_app [H2|H2]%elem_of_app; auto;
      exfalso; [apply Hl in H1 as [_ H1]; apply Hr in H2 as [_ H2]|
               apply Hr in H1 as [_ H1]; apply Hl in H2 as [_ H2]]; congruence.
Qed.

(** ** A tree is determined by its rows *)

Lemma branch_bit_le b1 p1 l1 r1 b2 p2 l2 r2 :
  wf (PBranch b1 p1 l1 r1) → wf (PBranch b2 p2 l2 r2) →
  (∀ kv, kv ∈ elements_of (PBranch b1 p1 l1 r1) → kv ∈ elements_of (PBranch b2 p2 l2 r2)) →
  b2 ≤ b1.
Proof.
  intros H1 H2 Hsub. destruct (branch_split _ _ _ _ H1) as ([k1 v1] & [k2 v2] & He1 & He2 & Hf & Ht).
  destruct (decide (b2 ≤ b1)) as [|Hlt]; [done|].
  pose proof (branch_agree _ _ _ _ _ _ H2 (Hsub _ He1) b1) as Ha1.
  pose proof (branch_agree _ _ _ _ _ _ H2 (Hsub _ He2) b1) as Ha2.
  simpl in *. rewrite Hf in Ha1. rewrite Ht in Ha2. rewrite <- Ha2 in Ha1 by lia.
  discriminate Ha1. lia.
Qed.

Lemma leaf_not_branch k v b p l r :
  wf (PBranch b p l r) → (∀ kv, kv ∈ [(k, v)] ↔ kv ∈ elements_of (PBranch b p l r)) → False.
Proof.
  intros Hwf Heq. destruct (branch_split _ _ _ _ Hwf) as (kv1 & kv2 & H1 & H2 & Hf & Ht).
  apply Heq, list_elem_of_singleton in H1 as ->. apply Heq, list_elem_of_singleton in H2 as ->.
  congruence.
Qed.

Lemma side_elements b p l1 r1 l2 r2 d kv :
  side b p false l1 → side b p true r1 → side b p false l2 → side b p true r2 →
  (∀ kv, kv ∈ elements_of l1 ++ elements_of r1 ↔ kv ∈ elements_of l2 ++ elements_of r2) →
  kv ∈ elements_of (if d : bool then r1 else l1) → kv ∈ elements_of (if d then r2 else l2).
Proof.
  intros Hl1 Hr1 Hl2 Hr2 Heq Hin.
  assert (kv ∈ elements_of l1 ++ elements_of r1) as H1 by (apply elem_of_app; destruct d; auto).
  apply Heq, elem_of_app in H1 as [H1|H1]; destruct d; [|done|done|]; exfalso.
  - by eapply side_disjoint; [apply Hl2|apply Hr1|..].
  - by eapply side_disjoint; [apply Hl1|apply Hr2|..].
Qed.

Lemma ptree_ext t1 t2 :
  wf t1 → wf t2 → (∀ kv, kv ∈ elements_of t1 ↔ kv ∈ elements_of t2) → t1 = t2.
Proof.
  revert t2. induction t1 as [k1 v1|b1 p1 l1 IHl r1 IHr]; intros [k2 v2|b2 p2 l2 r2] H1 H2 Heq.
  - assert ((k1, v1) ∈ [(k2, v2)]) as H%list_elem_of_singleton by (apply Heq; left). congruence.
  - exfalso. by eapply leaf_not_branch.
  - exfalso. eapply leaf_not_branch; [apply H1|]. intros kv. symmetry. apply Heq.
  - assert (b1 = b2) as <-.
    { apply Nat.le_antisymm; [eapply (branch_bit_le b2)|eapply (branch_bit_le b1)]; eauto;
        intros kv; apply Heq. }
    destruct (elements_of_nonempty (PBranch b1 p1 l1 r1)) as [[k v] Hkv].
    pose proof (branch_agree _ _ _ _ _ _ H1 Hkv) as Ha1.
    pose proof (branch_agree _ _ _ _ _ _ H2 (proj1 (Heq _) Hkv)) as Ha2.
    destruct H1 as (Hb & Hp1 & Hc1 & Hl1 & Hr1 & Hwl1 & Hwr1).
    destruct H2 as (_ & Hp2 & Hc2 & Hl2 & Hr2 & Hwl2 & Hwr2).
    assert (p1 = p2) as <-.
    { rewrite <- Hc1, <- Hc2. apply prefix_of_eq; [done..|lia|].
      eapply agree_trans; [apply agree_sym, Ha1|done]. }
    cbn [elements_of] in Heq. assert (∀ kv, kv ∈ elements_of l2 ++ elements_of r2 ↔
      kv ∈ elements_of l1 ++ elements_of r1) as Heq' by (intros; symmetry; apply Heq).
    f_equal; [apply IHl|apply IHr]; try done; intros kv; split; intros Hin.
    + by apply (side_elements b1 p1 l1 r1 l2 r2 false).
    + by apply (side_elements b1 p1 l2 r2 l1 r1 false).
    + by apply (side_elements b1 p1 l1 r1 l2 r2 true).
    + by apply (side_elements b1 p1 l2 r2 l1 r1 true).
Qed.

(** ** Height *)

Definition root_bit (t : ptree) : nat :=
  match t with PLeaf _ _ => TREE_DEPTH | PBranch b _ _ _ => b end.

Lemma child_bit b p d t : b < TREE_DEPTH → side b p d t → wf t → b < root_bit t.
Proof.
  intros Hb Hside Hwf. destruct t as [|b' p' l r]; [done|]. cbn [root_bit].
  destruct (branch_split _ _ _ _ Hwf) as ([k1 v1] & [k2 v2] & H1 & H2 & Hf & Ht). simpl in Hf, Ht.
  apply Hside in H1 as [Ha1 Hd1]. apply Hside in H2 as [Ha2 Hd2].
  destruct (Nat.lt_trichotomy b b') as [|[<-|Hlt]]; [done|congruence|].
  specialize (Ha1 b' Hlt). specialize (Ha2 b' Hlt). congruence.
Qed.

Lemma height_root_bit t : wf t → height t + root_bit t ≤ tree_fuel.
Proof.
  induction t as [k v|b p l IHl r IHr]; cbn [height root_bit]; [unfold tree_fuel; lia|].
  intros (Hb & _ & _ & Hsl & Hsr & Hwl & Hwr).
  pose proof (child_bit _ _ _ _ Hb Hsl Hwl). pose proof (child_bit _ _ _ _ Hb Hsr Hwr).
  specialize (IHl Hwl). specialize (IHr Hwr). lia.
Qed.

Lemma height_le t : wf t → height t ≤ tree_fuel.
Proof. intros Hwf%height_root_bit. lia. Qed.

Lemma height_pos t : 0 < height t.
Proof. destruct t; simpl; lia. Qed.

(** ** The rows of an updated tree *)

Lemma join_elements b k v t kv :
  kv ∈ elements_of (join b k v t) ↔ kv = (k, v) ∨ kv ∈ elements_of t.
Proof.
  unfold join. case_match; cbn [elements_of]; rewrite elem_of_app, list_elem_of_singleton; tauto.
Qed.

Lemma join_wf b k v t :
  b < TREE_DEPTH → wf t → node_ok (Leaf (state_position k) k v) →
  (∀ k' v', (k', v') ∈ elements_of t → agree (state_position k') (state_position k) b ∧
     bit_at (state_position k') b ≠ bit_at (state_position k) b) →
  wf (join b k v t).
Proof.
  intros Hb Hwf Hok Hdiff. pose proof (length_state_position k) as Hp.
  assert (id_ok (prefix_of (state_position k) b)) by (apply length_prefix_of; [done|lia]).
  assert (prefix_of (prefix_of (state_position k) b) b = prefix_of (state_position k) b)
    by (apply prefix_of_idemp; [done|lia]).
  assert (agree (state_position k) (prefix_of (state_position k) b) b) as Hag
    by (apply agree_prefix_of; [done|lia]).
  assert (side b (prefix_of (state_position k) b) (negb (bit_at (state_position k) b)) t) as Hs.
  { intros k' v' [Ha Hne]%Hdiff. split; [by eapply agree_trans|].
    by destruct (bit_at (state_position k') b), (bit_at (state_position k) b). }
  assert (side b (prefix_of (state_position k) b) (bit_at (state_position k) b) (PLeaf k v)) as Hl.
  { intros k' v' Hin%list_elem_of_singleton. by injection Hin as -> ->. }
  unfold join. destruct (bit_at (state_position k) b); cbn [wf]; done.
Qed.

(** [k] shares its position with no other key of the tree. *)
Definition no_clash (k : StateKeyV2) (t : ptree) : Prop :=
  ∀ k' v', (k', v') ∈ elements_of t → state_position k' = state_position k → k' = k.

Lemma no_clash_branch k b p l r :
  no_clash k (PBranch b p l r) → no_clash k l ∧ no_clash k r.
Proof.
  intros H. split; intros k' v' Hin; apply (H k' v'); cbn [elements_of]; apply elem_of_app; auto.
Qed.

Lemma side_absent b p d t k v :
  side b p d t → bit_at (state_position k) b ≠ d → (k, v) ∉ elements_of t.
Proof. intros Hs Hne [_ Hd]%Hs. congruence. Qed.

Lemma leaf_split k0 k :
  state_position k0 ≠ state_position k →
  ∃ b, first_differing_bit (state_position k0) (state_position k) = Some b.
Proof.
  intros Hne. destruct (first_differing_bit _ _) as [b|] eqn:Hf; [by exists b|].
  apply first_differing_bit_None in Hf; [done|apply length_state_position..].
Qed.

(** What [tupd] is to do to the rows. *)
Definition upd_rows (P : StateKeyV2 → bytes → Prop) (k : StateKeyV2) (value : option bytes)
    (k' : StateKeyV2) (v' : bytes) : Prop :=
  (k' = k ∧ value = Some v') ∨ (k' ≠ k ∧ P k' v').

Lemma absent_upd_rows (P : StateKeyV2 → bytes → Prop) k value k' v' (R : Prop) :
  (∀ v, ¬ P k v) → (R ↔ (k' = k ∧ value = Some v') ∨ P k' v') → R ↔ upd_rows P k value k' v'.
Proof. intros Habs HR. rewrite HR. unfold upd_rows. destruct (decide (k' = k)) as [->|]; naive_solver. Qed.

(** The rows of [join], and of a tree left alone. *)
Lemma insert_rows (value : option bytes) k k' v' (t : ptree) e :
  (k', v') ∈ oelements (match value with Some v => Some (join e k v t) | None => Some t end) ↔
  (k' = k ∧ value = Some v') ∨ (k', v') ∈ elements_of t.
Proof.
  destruct value as [v|]; cbn [oelements from_option]; [rewrite join_elements|];
    generalize ((k', v') ∈ elements_of t); intros P; naive_solver.
Qed.

(** The rows of a branch one of whose sides is updated and the other lacks [k]. *)
Lemma side_rows (P Q Q' : StateKeyV2 → bytes → Prop) k value k' v' :
  (∀ v, ¬ P k v) → (Q' k' v' ↔ upd_rows Q k value k' v') →
  P k' v' ∨ Q' k' v' ↔ upd_rows (λ k v, P k v ∨ Q k v) k value k' v'.
Proof.
  intros Habs ->. unfold upd_rows. destruct (decide (k' = k)) as [->|]; naive_solver.
Qed.

Lemma tupd_elements t k value k' v' :
  wf t → no_clash k t →
  (k', v') ∈ oelements (tupd t k value) ↔ upd_rows (λ k v, (k, v) ∈ elements_of t) k value k' v'.
Proof.
  induction t as [k0 v0|b p l IHl r IHr]; cbn [tupd]; intros Hwf Hclash.
  - case_bool_decide as Hpos.
    + assert (k0 = k) as -> by (eapply Hclash; [left|done]).
      unfold upd_rows. clear. destruct value; simpl; rewrite ?elem_of_nil, ?list_elem_of_singleton; naive_solver.
    + apply absent_upd_rows; [intros v [= -> _]%list_elem_of_singleton; done|].
      destruct (leaf_split _ _ Hpos) as [b ->]. apply insert_rows.
  - destruct (first_difference_before (state_position k) p b) as [e|] eqn:Hfd.
    + apply first_difference_before_Some in Hfd as (He & Hne & _).
      apply absent_upd_rows; [|apply insert_rows].
      intros v Hin. apply Hne. by apply (branch_agree _ _ _ _ _ _ Hwf Hin).
    + destruct Hwf as (_ & _ & _ & Hsl & Hsr & Hwl & Hwr). apply no_clash_branch in Hclash as [Hcl Hcr].
      specialize (IHl Hwl Hcl). specialize (IHr Hwr Hcr).
      destruct (bit_at (state_position k) b) eqn:Hbit.
      * apply (side_rows (λ k v, (k, v) ∈ elements_of l) _
          (λ k' v', (k', v') ∈ oelements (tupd r k value))) in IHr;
          [|intros v; eapply side_absent; [done|congruence]].
        unfold upd_rows in *. cbn [elements_of]. rewrite elem_of_app, <- IHr. clear.
        destruct (tupd r k value); cbn [oelements from_option elements_of];
          by rewrite ?elem_of_app, ?elem_of_nil, ?(right_id False or).
      * apply (side_rows (λ k v, (k, v) ∈ elements_of r) _
          (λ k' v', (k', v') ∈ oelements (tupd l k value))) in IHl;
          [|intros v; eapply side_absent; [done|congruence]].
        unfold upd_rows in *. cbn [elements_of]. rewrite elem_of_app, (comm or (_ ∈ elements_of l)), <- IHl.
        clear. destruct (tupd l k value); cbn [oelements from_option elements_of];
          rewrite ?elem_of_app, ?elem_of_nil, ?(right_id False or); [apply or_comm|done].
Qed.

Lemma branch_side_wf b p l r d c :
  wf (PBranch b p l r) → side b p d c → wf c →
  wf (if d : bool then PBranch b p l c else PBranch b p c r).
Proof. intros (? & ? & ? & ? & ? & ? & ?) Hs Hc. destruct d; cbn [wf]; done. Qed.

(** An update below a branch stays on its side. *)
Lemma tupd_side b p t k value t' :
  wf t → no_clash k t → side b p (bit_at (state_position k) b) t → agree (state_position k) p b →
  tupd t k value = Some t' → side b p (bit_at (state_position k) b) t'.
Proof.
  intros Hwf Hclash Hs Ha Ht k' v' Hin.
  assert ((k', v') ∈ oelements (tupd t k value)) as Hin' by by rewrite Ht.
  apply tupd_elements in Hin' as [[-> _]|[_ Hin']]; [done|by eapply Hs|done..].
Qed.

Lemma tupd_wf t k value t' :
  wf t → no_clash k t → (∀ v, value = Some v → node_ok (Leaf (state_position k) k v)) →
  tupd t k value = Some t' → wf t'.
Proof.
  revert t'. induction t as [k0 v0|b p l IHl r IHr]; intros t' Hwf Hclash Hval; cbn [tupd].
  - case_bool_decide as Hpos.
    + destruct value as [v|]; [|done]. intros [= <-]. cbn [wf]. by apply Hval.
    + destruct value as [v|]; [|by intros [= <-]]. destruct (leaf_split _ _ Hpos) as [b Hb].
      rewrite Hb. intros [= <-]. apply first_differing_bit_Some in Hb as (Hlt & Hne & Hag).
      apply join_wf; [done|done|by apply Hval|].
      intros k' v' Hin%list_elem_of_singleton. by injection Hin as -> ->.
  - destruct (first_difference_before (state_position k) p b) as [e|] eqn:Hfd.
    + destruct value as [v|]; [|by intros [= <-]]. intros [= <-].
      apply first_difference_before_Some in Hfd as (He & Hne & Hag).
      apply join_wf; [destruct Hwf; lia|done|by apply Hval|]. intros k' v' Hin.
      pose proof (branch_agree _ _ _ _ _ _ Hwf Hin) as Ha. split.
      * eapply agree_trans; [by eapply agree_le; [apply Nat.lt_le_incl, He|]|by apply agree_sym].
      * rewrite (Ha e He). congruence.
    + apply first_difference_before_None in Hfd. pose proof Hwf as (_ & _ & _ & Hsl & Hsr & Hwl & Hwr).
      apply no_clash_branch in Hclash as [Hcl Hcr]. destruct (bit_at (state_position k) b) eqn:Hbit.
      * destruct (tupd r k value) as [r'|] eqn:Hr; intros [= <-]; [|done].
        apply (branch_side_wf b p l r true); [done| |by eapply IHr].
        rewrite <- Hbit. by eapply (tupd_side b p r); rewrite ?Hbit.
      * destruct (tupd l k value) as [l'|] eqn:Hl; intros [= <-]; [|done].
        apply (branch_side_wf b p l r false); [done| |by eapply IHl].
        rewrite <- Hbit. by eapply (tupd_side b p l); rewrite ?Hbit.
Qed.

(** ** Node validity and hash injectivity on the nodes in use *)

Lemma Leaf_inj p1 k1 v1 p2 k2 v2 : Leaf p1 k1 v1 = Leaf p2 k2 v2 → k1 = k2 ∧ v1 = v2.
Proof. by intros [= _ -> ->]. Qed.

Lemma Branch_inj b1 p1 l1 r1 b2 p2 l2 r2 :
  Branch b1 p1 l1 r1 = Branch b2 p2 l2 r2 → b1 = b2 ∧ p1 = p2 ∧ l1 = l2 ∧ r1 = r2.
Proof. by intros [= -> -> -> ->]. Qed.

(** No collision among the nodes [G] and the keys [K]. *)
Record collision_free (G : StateNodeV2 → Prop) (K : StateKeyV2 → Prop) : Prop := {
  cf_hash : ∀ n1 n2, G n1 → G n2 → hash_node n1 = hash_node n2 → n1 = n2;
  cf_zero : ∀ n, G n → hash_node n ≠ ZERO;
  cf_position : ∀ k1 k2, K k1 → K k2 → state_position k1 = state_position k2 → k1 = k2;
}.

Section genuine.
Context (G : StateNodeV2 → Prop) (K : StateKeyV2 → Prop) (Hcf : collision_free G K).

Definition genuine (t : ptree) : Prop := ∀ n, n ∈ nodes t → G n.
Definition ogenuine (ot : option ptree) : Prop := ∀ n, n ∈ onodes ot → G n.
Definition keyed (t : ptree) : Prop := ∀ k v, (k, v) ∈ elements_of t → K k.

Lemma tnode_nodes t : tnode t ∈ nodes t.
Proof. destruct t; left. Qed.

Lemma genuine_branch b p l r :
  genuine (PBranch b p l r) → G (tnode (PBranch b p l r)) ∧ genuine l ∧ genuine r.
Proof.
  intros H. split_and!; [apply H, tnode_nodes|..]; intros n Hn; apply H; cbn [nodes]; right;
    apply elem_of_app; auto.
Qed.

Lemma thash_nonzero t : genuine t → thash t ≠ ZERO.
Proof. intros H. rewrite thash_tnode. apply (cf_zero _ _ Hcf), H, tnode_nodes. Qed.

Lemma thash_inj t1 t2 : genuine t1 → genuine t2 → thash t1 = thash t2 → t1 = t2.
Proof.
  revert t2. induction t1 as [k1 v1|b1 p1 l1 IHl r1 IHr]; intros t2 H1 H2 Heq.
  all: rewrite !thash_tnode in Heq;
    apply (cf_hash _ _ Hcf) in Heq; [|by apply H1, tnode_nodes|by apply H2, tnode_nodes];
    destruct t2 as [k2 v2|b2 p2 l2 r2]; cbn [tnode] in Heq; try done.
  - by apply Leaf_inj in Heq as [-> ->].
  - apply Branch_inj in Heq as (Hb & -> & Hl & Hr). apply Nat2N.inj in Hb as ->.
    apply genuine_branch in H1 as (_ & Hl1 & Hr1). apply genuine_branch in H2 as (_ & Hl2 & Hr2).
    by rewrite (IHl l2), (IHr r2).
Qed.

Lemma ohash_inj ot1 ot2 : ogenuine ot1 → ogenuine ot2 → ohash ot1 = ohash ot2 → ot1 = ot2.
Proof.
  destruct ot1 as [t1|], ot2 as [t2|]; cbn [ohash from_option]; intros H1 H2 Heq; try done.
  - f_equal. by apply thash_inj.
  - by destruct (thash_nonzero t1 H1).
  - by destruct (thash_nonzero t2 H2).
Qed.

Lemma tnode_ok t : wf t → genuine t → node_ok (tnode t).
Proof.
  destruct t as [k v|b p l r]; [done|]. intros Hwf Hg. pose proof Hwf as (Hb & Hp & Hc & Hsl & Hsr & _).
  apply genuine_branch in Hg as (_ & Hl & Hr). unfold TREE_DEPTH in Hb. cbn [tnode node_ok].
  rewrite Nat2N.id. split_and!; try done; [lia|..]; rewrite ?thash_tnode; try apply length_hash_node;
    rewrite <- ?thash_tnode; try by apply thash_nonzero.
  intros Heq%thash_inj; [|done..]. subst r. destruct (elements_of_nonempty l) as [kv Hin].
  by eapply side_disjoint; [apply Hsl|apply Hsr|..].
Qed.

Lemma keyed_no_clash t k : keyed t → K k → no_clash k t.
Proof. intros Hk HK k' v' Hin Heq. apply (cf_position _ _ Hcf); eauto. Qed.

(** ** Trees of maps *)

Definition owf (ot : option ptree) : Prop := ∀ t, ot = Some t → wf t.
Definition okeyed (ot : option ptree) : Prop := ∀ k v, (k, v) ∈ oelements ot → K k.
Definition row_ok (k : StateKeyV2) (v : bytes) : Prop := K k ∧ node_ok (Leaf (state_position k) k v).
Definition rows_ok (m : gmap StateKeyV2 bytes) : Prop := ∀ k v, m !! k = Some v → row_ok k v.
Definition value_ok (k : StateKeyV2) (value : option bytes) : Prop :=
  K k ∧ ∀ v, value = Some v → node_ok (Leaf (state_position k) k v).

Lemma optree_ext ot1 ot2 :
  owf ot1 → owf ot2 → (∀ k v, (k, v) ∈ oelements ot1 ↔ (k, v) ∈ oelements ot2) → ot1 = ot2.
Proof.
  intros H1 H2 Heq. destruct ot1 as [t1|], ot2 as [t2|]; cbn [oelements from_option] in Heq; [|..|done].
  - f_equal. apply ptree_ext; [by apply H1|by apply H2|]. intros [k v]. apply Heq.
  - destruct (elements_of_nonempty t1) as [[k v] Hin]. by apply Heq, elem_of_nil in Hin.
  - destruct (elements_of_nonempty t2) as [[k v] Hin]. by apply Heq, elem_of_nil in Hin.
Qed.

Lemma tapply_spec ot k value :
  owf ot → okeyed ot → value_ok k value →
  owf (tapply ot k value) ∧ okeyed (tapply ot k value) ∧
  ∀ k' v', (k', v') ∈ oelements (tapply ot k value) ↔
           upd_rows (λ k v, (k, v) ∈ oelements ot) k value k' v'.
Proof.
  intros Hwf Hkeyed [HK Hval].
  assert (∀ k' v', (k', v') ∈ oelements (tapply ot k value) ↔
    upd_rows (λ k v, (k, v) ∈ oelements ot) k value k' v') as Hel.
  { intros k' v'. destruct ot as [t|].
    - apply tupd_elements; [by apply Hwf|]. by apply keyed_no_clash.
    - unfold upd_rows. destruct value as [v|]; cbn; rewrite ?list_elem_of_singleton, ?elem_of_nil; naive_solver. }
  split_and!; [|intros k' v' Hin; apply Hel in Hin as [[-> _]|[_ Hin]]; [done|by eapply Hkeyed]|done].
  destruct ot as [t|]; cbn [tapply].
  - intros t' Ht. eapply tupd_wf; [by apply Hwf|by apply keyed_no_clash|exact Hval|exact Ht].
  - intros t' Ht. destruct value as [v|]; [|done]. injection Ht as <-. by apply Hval.
Qed.

Lemma canon_list_spec (l : list (StateKeyV2 * bytes)) :
  NoDup l.*1 → (∀ k v, (k, v) ∈ l → row_ok k v) →
  let ot := foldr (λ kv ot, tapply ot kv.1 (Some kv.2)) None l in
  owf ot ∧ okeyed ot ∧ ∀ k v, (k, v) ∈ oelements ot ↔ (k, v) ∈ l.
Proof.
  induction l as [|[k0 v0] l IH]; intros Hnd Hok; [split_and!; [done|intros k v Hin; by apply elem_of_nil in Hin|done]|].
  cbn [foldr fst snd]. rewrite fmap_cons in Hnd. apply NoDup_cons in Hnd as [Hnin Hnd].
  destruct IH as (Hwf & Hkeyed & Hel); [done|intros; apply Hok; by right|].
  destruct (tapply_spec _ k0 (Some v0) Hwf Hkeyed) as (Hwf' & Hkeyed' & Hel').
  { destruct (Hok k0 v0) as [HK Hn]; [left|]. split; [done|]. by intros v [= <-]. }
  split_and!; [done..|]. intros k v. rewrite Hel'. unfold upd_rows. rewrite Hel, elem_of_cons.
  assert ((k, v) ∈ l → k ≠ k0).
  { intros Hin ->. apply Hnin. apply list_elem_of_fmap. by exists (k0, v). }
  naive_solver.
Qed.

Lemma canon_spec m :
  rows_ok m →
  owf (canon m) ∧ okeyed (canon m) ∧ ∀ k v, (k, v) ∈ oelements (canon m) ↔ m !! k = Some v.
Proof.
  intros Hok. destruct (canon_list_spec (map_to_list m)) as (Hwf & Hkeyed & Hel).
  - apply NoDup_fst_map_to_list.
  - intros k v Hin. by apply Hok, elem_of_map_to_list.
  - split_and!; [done..|]. intros k v. by rewrite Hel, elem_of_map_to_list.
Qed.

Definition map_update (k : StateKeyV2) (value : option bytes) (m : gmap StateKeyV2 bytes)
    : gmap StateKeyV2 bytes :=
  match value with Some v => <[k := v]> m | None => delete k m end.

Lemma lookup_map_update k value m k' v' :
  map_update k value m !! k' = Some v' ↔ upd_rows (λ k v, m !! k = Some v) k value k' v'.
Proof.
  unfold map_update, upd_rows. destruct value as [v|].
  - rewrite lookup_insert_Some. naive_solver.
  - rewrite lookup_delete_Some. naive_solver.
Qed.

Lemma rows_ok_update m k value : rows_ok m → value_ok k value → rows_ok (map_update k value m).
Proof.
  intros Hm [HK Hval] k' v' [[-> Hv]|[_ Hm']]%lookup_map_update; [|by apply Hm].
  split; [done|by apply Hval].
Qed.

(** Updating the tree of a map gives the tree of the updated map. *)
Lemma canon_update m k value :
  rows_ok m → value_ok k value → tapply (canon m) k value = canon (map_update k value m).
Proof.
  intros Hm Hval. destruct (canon_spec m Hm) as (Hwf & Hkeyed & Hel).
  destruct (canon_spec _ (rows_ok_update m k value Hm Hval)) as (Hwf' & _ & Hel').
  destruct (tapply_spec _ k value Hwf Hkeyed Hval) as (Hwft & _ & Helt).
  apply optree_ext; [done..|]. intros k' v'. rewrite Helt, Hel', lookup_map_update.
  unfold upd_rows. by rewrite Hel.
Qed.

(** The tree of a map determines the map. *)
Lemma canon_inj m1 m2 : rows_ok m1 → rows_ok m2 → canon m1 = canon m2 → m1 = m2.
Proof.
  intros H1 H2 Heq. destruct (canon_spec m1 H1) as (_ & _ & Hel1).
  destruct (canon_spec m2 H2) as (_ & _ & Hel2). apply map_eq. intros k.
  apply option_eq. intros v. by rewrite <- Hel1, <- Hel2, Heq.
Qed.
End genuine.
