(* ===== verification/StateTreeRefine.v ===== *)
(** * The stored state tree implements the map

    [represents] ties a stored tree to the map it stands for.  [update_spec]: the
    store-level [update] computes the updated tree, node by node, unless the store
    itself fails, and never touches an existing row.  [get_loop_spec] and
    [apply_represents] are the refinement: lookups answer as the map does, updates
    move to the root the updated map has, for every store that keeps its
    documented promise, failing only where the store fails. *)

From Stdlib.Strings Require Byte.
From S2P Require Import Prelude Bytes Blake2b V2Wire V2Identity StateTree StateTreeNode StateTreeMap.

Local Open Scope nat_scope.

#[local] Opaque state_position hash_node prefix_of encode node_hashed ZERO bit_at
  first_differing_bit first_difference_before.

Section refine.
Context {S E : Type} `{StateTreeStoreLaws S E}.
Context (G : StateNodeV2 → Prop) (K : StateKeyV2 → Prop) (Hcf : collision_free G K).

(** The store itself reported [e]. *)
Definition storage_failed (e : E) : Prop :=
  (∃ s k, store_read s k = Err e) ∨ (∃ s k v s', store_write s k v = (Err e, s')).

(** [m] runs to [Q], or stops because the store failed. *)
Definition runs {A} (m : tree_m (S := S) (E := E) A) (s : S) (Q : A → S → Prop) : Prop :=
  ∃ res s', m s = Some (res, s') ∧
    match res with
    | Ok x => Q x s'
    | Err err => ∃ e, err = Storage e ∧ storage_failed e
    end.

Lemma runs_ret {A} (x : A) s (Q : A → S → Prop) : Q x s → runs (tree_ret x) s Q.
Proof. intros HQ. by exists (Ok x), s. Qed.

Lemma runs_mono {A} (m : tree_m A) s (Q R : A → S → Prop) :
  runs m s Q → (∀ x s', Q x s' → R x s') → runs m s R.
Proof. intros (res & s' & Hm & HQ) HR. exists res, s'. split; [done|]. destruct res; auto. Qed.

Lemma runs_bind {A B} (m : tree_m A) (k : A → tree_m B) s (Q : A → S → Prop) (R : B → S → Prop) :
  runs m s Q → (∀ x s', Q x s' → runs (k x) s' R) → runs (tree_bind m k) s R.
Proof.
  intros (res & s' & Hm & HQ) Hk. unfold runs, tree_bind. rewrite Hm. destruct res as [x|err].
  - apply Hk, HQ.
  - by exists (Err err), s'.
Qed.

(** Every stored node is a node in use, under its own hash. *)
Definition sound (s : S) : Prop :=
  ∀ h b, rows s (node_storage_key h) = Some b → ∃ n, G n ∧ hash_node n = h ∧ b = encode n.

Definition stored (s : S) (n : StateNodeV2) : Prop :=
  rows s (node_storage_key (hash_node n)) = Some (encode n).

Definition holds (s : S) (t : ptree) : Prop := ∀ n, n ∈ nodes t → stored s n.
Definition oholds (s : S) (ot : option ptree) : Prop := ∀ n, n ∈ onodes ot → stored s n.

(** Rows are only added: every older root stays readable. *)
Definition extends (s s' : S) : Prop := ∀ k b, rows s k = Some b → rows s' k = Some b.

Lemma extends_refl s : extends s s.
Proof. by intros k b. Qed.
Lemma extends_trans s1 s2 s3 : extends s1 s2 → extends s2 s3 → extends s1 s3.
Proof. intros H1 H2 k b Hk. auto. Qed.
Lemma holds_extends s s' t : extends s s' → holds s t → holds s' t.
Proof. intros He Hh n Hn. apply He, Hh, Hn. Qed.

Lemma holds_branch s b p l r :
  holds s (PBranch b p l r) ↔ stored s (tnode (PBranch b p l r)) ∧ holds s l ∧ holds s r.
Proof.
  unfold holds. cbn [nodes]. split.
  - intros Hh. split_and!; [apply Hh; left|..]; intros n Hn; apply Hh; right; apply elem_of_app; auto.
  - intros (H1 & H2 & H3) n [->|[Hn|Hn]%elem_of_app]%elem_of_cons; auto.
Qed.

Lemma node_storage_key_inj h1 h2 : node_storage_key h1 = node_storage_key h2 → h1 = h2.
Proof. unfold node_storage_key. apply app_inv_head. Qed.

(** ** Reading and storing one node *)

Lemma read_node_stored s n :
  stored s n → node_ok n →
  read_node s (hash_node n) = Ok n ∨ ∃ e, read_node s (hash_node n) = Err (Storage e) ∧ storage_failed e.
Proof.
  intros Hs Hok. unfold read_node.
  destruct (store_read s (node_storage_key (hash_node n))) as [v|e] eqn:Hr.
  - left. apply read_rows in Hr. rewrite Hs in Hr. subst v.
    rewrite wire_decode_encode by (by apply node_ok_fits || done).
    by rewrite bool_decide_false by (intros Hne; by apply Hne).
  - right. exists e. split; [done|]. left. eauto.
Qed.

Lemma runs_read s n (Q : StateNodeV2 → S → Prop) :
  stored s n → node_ok n → Q n s → runs (read_node_m (hash_node n)) s Q.
Proof.
  intros Hs Hok HQ. unfold runs, read_node_m.
  destruct (read_node_stored s n Hs Hok) as [->|(e & -> & He)]; [by eauto|].
  eexists _, s. split; [done|]. simpl. eauto.
Qed.

Lemma runs_store s n :
  sound s → G n →
  runs (store_node n) s (λ h s', h = hash_node n ∧ sound s' ∧ extends s s' ∧ stored s' n).
Proof.
  intros Hs Hn. unfold runs, store_node.
  destruct (store_read s (node_storage_key (hash_node n))) as [[existing|]|e] eqn:Hr.
  - apply read_rows in Hr. symmetry in Hr. destruct (Hs _ _ Hr) as (n' & Hn' & Hh & ->).
    apply (cf_hash _ _ Hcf) in Hh; [subst n'|done..].
    rewrite bool_decide_false by (intros Hne; by apply Hne).
    eexists _, s. split; [done|]. split_and!; [done|done|apply extends_refl|done].
  - apply read_rows in Hr. destruct (store_write s _ _) as [[[]|e] s'] eqn:Hw.
    + pose proof (write_rows _ _ _ _ Hw) as Hrows. eexists _, s'. split; [done|]. split_and!; [done|..].
      * intros h b Hb. rewrite Hrows in Hb. destruct (decide _) as [->%node_storage_key_inj|]; [|by apply Hs].
        injection Hb as <-. by exists n.
      * intros k b Hb. rewrite Hrows. destruct (decide _) as [->|]; [congruence|done].
      * unfold stored. rewrite Hrows. by destruct (decide _).
    + eexists _, s'. split; [done|]. exists e. split; [done|]. right. eauto.
  - eexists _, s. split; [done|]. exists e. split; [done|]. left. eauto.
Qed.

(** What an update of [s] to the tree [t'] leaves behind. *)
Definition reaches (s : S) (t' : ptree) (h : Hash) (s' : S) : Prop :=
  h = thash t' ∧ sound s' ∧ extends s s' ∧ holds s' t'.

Lemma runs_store_leaf s k v :
  sound s → G (Leaf (state_position k) k v) →
  runs (store_node (Leaf (state_position k) k v)) s (reaches s (PLeaf k v)).
Proof.
  intros Hs Hg. eapply runs_mono; [by apply runs_store|].
  intros h s' (-> & Hs' & He & Hst). split_and!; [done..|].
  intros n Hn. by apply list_elem_of_singleton in Hn as ->.
Qed.

Lemma runs_store_branch s b p l r :
  sound s → holds s l → holds s r → G (tnode (PBranch b p l r)) →
  runs (store_node (Branch (N.of_nat b) p (thash l) (thash r))) s (reaches s (PBranch b p l r)).
Proof.
  intros Hs Hl Hr Hg. eapply runs_mono; [by apply runs_store|].
  intros h s' (-> & Hs' & He & Hst). split_and!; [done..|]. apply holds_branch.
  split_and!; [done|by eapply holds_extends..].
Qed.

Lemma u16_bit b : b < TREE_DEPTH → (N.of_nat b `mod` 65536)%N = N.of_nat b.
Proof. unfold TREE_DEPTH. intros. apply N.mod_small. lia. Qed.

Lemma reaches_trans s s1 t t' h h' s' : reaches s t h s1 → reaches s1 t' h' s' → reaches s t' h' s'.
Proof.
  intros (_ & _ & He1 & _) (-> & Hs' & He2 & Hh). split_and!; [done..|by eapply extends_trans|done].
Qed.

Lemma runs_join s t b k v :
  sound s → holds s t → b < TREE_DEPTH → genuine G (join b k v t) →
  runs (tree_bind (store_node (Leaf (state_position k) k v))
          (store_branch b (state_position k) (thash t))) s (reaches s (join b k v t)).
Proof.
  intros Hs Hh Hb Hg. unfold join in *. unfold store_branch. rewrite u16_bit by done.
  destruct (bit_at (state_position k) b) eqn:Hbit;
    apply genuine_branch in Hg as (Hgb & Hgl & Hgr);
    (eapply runs_bind; [apply runs_store_leaf; [done|first [by apply Hgr; left|by apply Hgl; left]]|]);
    intros h s1 Hr; pose proof Hr as (-> & Hs1 & He1 & Hl1);
    (eapply runs_mono; [apply runs_store_branch; [done|..|exact Hgb]|]);
    try done; try (by eapply holds_extends);
    intros h' s' Hr'; by eapply reaches_trans.
Qed.

(** ** The update *)

Definition oreaches (s : S) (ot' : option ptree) (h : Hash) (s' : S) : Prop :=
  h = ohash ot' ∧ sound s' ∧ extends s s' ∧ oholds s' ot'.

Lemma oreaches_refl s ot : sound s → oholds s ot → oreaches s ot (ohash ot) s.
Proof. intros Hs Hh. split_and!; [done|done|apply extends_refl|done]. Qed.

Lemma oholds_None s : oholds s None.
Proof. intros n Hn. by apply elem_of_nil in Hn. Qed.

Lemma update_leaf fuel s k0 v0 k value :
  let t := PLeaf k0 v0 in
  wf t → genuine G t → no_clash k t → sound s → holds s t → 0 < fuel →
  ogenuine G (tupd t k value) →
  runs (update fuel (thash t) (state_position k) k value) s (oreaches s (tupd t k value)).
Proof.
  intros t Hwf Hg Hclash Hs Hh Hf Hg'. subst t. destruct fuel as [|fuel]; [lia|]. cbn [update].
  rewrite bool_decide_false by by eapply thash_nonzero.
  rewrite thash_tnode. eapply runs_bind.
  { apply (runs_read _ _ (λ n s1, n = tnode (PLeaf k0 v0) ∧ s1 = s)); [apply Hh, tnode_nodes|by eapply tnode_ok|done]. }
  intros n s1 [-> ->]. cbn [tnode]. cbn [tupd] in Hg' |- *.
  destruct (decide (state_position k0 = state_position k)) as [Hpos|Hpos].
  - assert (k0 = k) as -> by (eapply Hclash; [left|done]).
    rewrite bool_decide_true in Hg' by done. rewrite !bool_decide_true by done.
    rewrite bool_decide_false by (intros Hne; by apply Hne).
    destruct value as [v|]; [|by apply runs_ret, (oreaches_refl s None), oholds_None].
    case_bool_decide as Hv; [subst v0; by apply runs_ret, (oreaches_refl s (Some (PLeaf k v)))|].
    apply runs_store_leaf; [done|]. apply Hg'. left.
  - rewrite !bool_decide_false by done. rewrite bool_decide_false in Hg' by done.
    destruct value as [v|]; [|by apply runs_ret, (oreaches_refl s (Some (PLeaf k0 v0)))].
    destruct (leaf_split _ _ Hpos) as [b Hb]. rewrite Hb in *.
    apply first_differing_bit_Some in Hb as (Hlt & _). apply (runs_join s (PLeaf k0 v0)); done.
Qed.

(** The two ways a branch takes back its updated child. *)
Definition with_child (b : nat) (p : bytes) (l r : ptree) (d : bool) (oc : option ptree) : option ptree :=
  match oc with
  | Some c => Some (if d then PBranch b p l c else PBranch b p c r)
  | None => Some (if d then l else r)
  end.

Lemma tupd_branch b p l r k value :
  agree (state_position k) p b →
  tupd (PBranch b p l r) k value =
  with_child b p l r (bit_at (state_position k) b)
    (tupd (if bit_at (state_position k) b then r else l) k value).
Proof.
  intros Ha. cbn [tupd]. rewrite (proj2 (first_difference_before_None _ _ _) Ha).
  destruct (bit_at _ _); unfold with_child; by destruct (tupd _ k value).
Qed.

Lemma with_child_genuine b p l r d oc :
  genuine G (PBranch b p l r) → ogenuine G (with_child b p l r d oc) → ogenuine G oc.
Proof.
  intros Hg Hg'. destruct oc as [c|]; [|intros n Hn; by apply elem_of_nil in Hn].
  destruct d; apply genuine_branch in Hg' as (_ & ? & ?); done.
Qed.

Lemma runs_with_child s b p l r d oc h s1 :
  let t := PBranch b p l r in
  b < TREE_DEPTH → genuine G t → holds s t → ogenuine G (with_child b p l r d oc) →
  oreaches s oc h s1 →
  runs (if bool_decide (h = (if d : bool then thash r else thash l)) then tree_ret (thash t)
        else if bool_decide (h = ZERO) then tree_ret (if d then thash l else thash r)
        else store_node
               (if d then Branch (N.of_nat b `mod` 65536) p (thash l) h
                else Branch (N.of_nat b `mod` 65536) p h (thash r))) s1
    (oreaches s (with_child b p l r d oc)).
Proof.
  intros t Hb Hg Hh Hg' (-> & Hs1 & He1 & Hh1). rewrite u16_bit by done.
  pose proof (genuine_branch _ _ _ _ _ Hg) as (_ & Hgl & Hgr).
  assert (holds s1 t) as Ht by by eapply holds_extends.
  pose proof (proj1 (holds_branch s1 b p l r) Ht) as (_ & Hl1 & Hr1).
  assert (∀ ot, oholds s1 ot → oreaches s ot (ohash ot) s1) as Hsame by by intros ot Hot.
  destruct oc as [c|]; cbn [ohash from_option].
  - assert (genuine G c) as Hgc by (eapply (with_child_genuine b p l r d (Some c)); done).
    case_bool_decide as Hc.
    + assert (c = if d then r else l) as -> by (eapply thash_inj; [done|done|by destruct d|by destruct d]).
      apply runs_ret. destruct d; by apply (Hsame (Some t)).
    + rewrite bool_decide_false by by eapply thash_nonzero.
      assert (∀ t' h' s', reaches s1 t' h' s' → oreaches s (Some t') h' s') as Hweak.
      { intros t' h' s' (-> & Hs' & He' & Hh'). split_and!; [done|done|by eapply extends_trans|done]. }
      destruct d; cbn [with_child] in *; apply genuine_branch in Hg' as (Hgb & _);
        (eapply runs_mono; [by apply runs_store_branch|apply Hweak]).
  - rewrite bool_decide_false.
    + rewrite bool_decide_true by done. apply runs_ret.
      destruct d; cbn [with_child]; [apply (Hsame (Some l))|apply (Hsame (Some r))]; done.
    + intros Heq. symmetry in Heq. destruct d; [by eapply (thash_nonzero _ _ Hcf r)|by eapply (thash_nonzero _ _ Hcf l)].
Qed.

Lemma update_spec t fuel s k value :
  wf t → genuine G t → no_clash k t → sound s → holds s t → height t ≤ fuel →
  ogenuine G (tupd t k value) →
  runs (update fuel (thash t) (state_position k) k value) s (oreaches s (tupd t k value)).
Proof.
  revert fuel s. induction t as [k0 v0|b p l IHl r IHr]; intros fuel s Hwf Hg Hclash Hs Hh Hf Hg'.
  { by apply update_leaf. }
  destruct fuel as [|fuel]; [cbn [height] in Hf; lia|]. cbn [height] in Hf.
  pose proof Hwf as (Hb & _ & _ & _ & _ & Hwl & Hwr).
  pose proof (genuine_branch _ _ _ _ _ Hg) as (_ & Hgl & Hgr).
  pose proof (proj1 (holds_branch s b p l r) Hh) as (_ & Hhl & Hhr).
  apply no_clash_branch in Hclash as [Hcl Hcr].
  set (t := PBranch b p l r) in *. cbn [update].
  rewrite bool_decide_false by by eapply thash_nonzero.
  rewrite (thash_tnode t) at 1. eapply runs_bind.
  { apply (runs_read _ _ (λ n s1, n = tnode t ∧ s1 = s)); [apply Hh, tnode_nodes|by eapply tnode_ok|done]. }
  intros n s1 [-> ->]. unfold t at 1. cbn [tnode]. rewrite !Nat2N.id.
  destruct (first_difference_before (state_position k) p b) as [e|] eqn:Hfd.
  - unfold t in Hg' |- *. cbn [tupd] in Hg' |- *. rewrite Hfd in Hg' |- *. fold t in Hg' |- *.
    destruct value as [v|]; [|by apply runs_ret, (oreaches_refl s (Some t))].
    apply first_difference_before_Some in Hfd as (He & _). apply (runs_join s t); try done. lia.
  - apply first_difference_before_None in Hfd. unfold t in Hg'. rewrite tupd_branch in Hg' by done.
    unfold t. rewrite tupd_branch by done.
    eapply runs_bind; [|intros h s1; apply (runs_with_child s b p l r); [done..]].
    pose proof (with_child_genuine _ _ _ _ _ _ Hg Hg') as Hgc.
    destruct (bit_at (state_position k) b); [apply IHr|apply IHl]; try done; lia.
Qed.

(** ** The lookup *)

(** A result that satisfies [Q], unless the store failed. *)
Definition answers {A} (res : tree_result (E := E) A) (Q : A → Prop) : Prop :=
  match res with
  | Ok x => Q x
  | Err err => ∃ e, err = Storage e ∧ storage_failed e
  end.

Lemma get_loop_spec t fuel s k :
  wf t → genuine G t → no_clash k t → holds s t → height t ≤ fuel →
  ∃ res, get_loop fuel s (state_position k) k (thash t) = Some res ∧
         answers res (λ ov, ∀ v, ov = Some v ↔ (k, v) ∈ elements_of t).
Proof.
  revert fuel. induction t as [k0 v0|b p l IHl r IHr]; intros fuel Hwf Hg Hclash Hh Hf;
    (destruct fuel as [|fuel]; [cbn [height] in Hf; lia|]); cbn [height] in Hf; cbn [get_loop];
    rewrite bool_decide_false by (by eapply thash_nonzero); rewrite thash_tnode;
    (destruct (read_node_stored s _ (Hh _ (tnode_nodes _)) (tnode_ok G K Hcf _ Hwf Hg)) as [->|(e & -> & He)];
     [cbn [tnode]|by eexists; split; [done|simpl; eauto]]).
  - destruct (decide (state_position k0 = state_position k)) as [Hpos|Hpos].
    + assert (k0 = k) as -> by (eapply Hclash; [left|done]).
      rewrite !bool_decide_false by (intros Hne; by apply Hne). eexists. split; [done|]. simpl.
      intros v. rewrite list_elem_of_singleton. clear. naive_solver.
    + rewrite bool_decide_true by done. eexists. split; [done|]. simpl. intros v.
      rewrite list_elem_of_singleton. assert (k ≠ k0) as Hk by congruence. clear -Hk. naive_solver.
  - rewrite !Nat2N.id. pose proof Hwf as (Hb & Hp & Hc & Hsl & Hsr & Hwl & Hwr).
    pose proof (prefix_of_agree (state_position k) p b (length_state_position k) Hp) as Hpre.
    destruct (decide (prefix_of (state_position k) b = p)) as [Heq|Hne].
    + rewrite bool_decide_false by (intros Hne; by apply Hne).
      pose proof (genuine_branch _ _ _ _ _ Hg) as (_ & Hgl & Hgr).
      pose proof (proj1 (holds_branch s b p l r) Hh) as (_ & Hhl & Hhr).
      apply no_clash_branch in Hclash as [Hcl Hcr]. cbn [elements_of].
      destruct (bit_at (state_position k) b) eqn:Hbit.
      * assert (∀ v, (k, v) ∉ elements_of l) as Habs by (intros v; eapply side_absent; [done|congruence]).
        destruct (IHr fuel) as (res & -> & Hres); [done..|lia|]. exists res. split; [done|].
        destruct res as [ov|]; [|done]. intros v. rewrite elem_of_app, (Hres v). naive_solver.
      * assert (∀ v, (k, v) ∉ elements_of r) as Habs by (intros v; eapply side_absent; [done|congruence]).
        destruct (IHl fuel) as (res & -> & Hres); [done..|lia|]. exists res. split; [done|].
        destruct res as [ov|]; [|done]. intros v. rewrite elem_of_app, (Hres v). naive_solver.
    + rewrite bool_decide_true by done. eexists. split; [done|]. intros v. split; [done|].
      intros Hin. exfalso. apply Hne, Hpre; [lia|done|]. by eapply branch_agree.
Qed.

(** ** The tree and its map *)

Record represents (t : ServiceStateTreeV2 S) (m : gmap StateKeyV2 bytes) : Prop := {
  rep_root : tree_root t = state_root m;
  rep_rows : rows_ok K m;
  rep_genuine : ogenuine G (canon m);
  rep_sound : sound (tree_store t);
  rep_holds : oholds (tree_store t) (canon m);
}.

Lemma represents_empty s : sound s → represents (mkTree s empty_state_root) ∅.
Proof.
  intros Hs. assert (canon ∅ = None) as Hc by by unfold canon; rewrite map_to_list_empty.
  constructor; cbn [tree_root tree_store]; rewrite ?Hc; try done.
  - intros n Hn. by apply elem_of_nil in Hn.
  - apply oholds_None.
Qed.

Lemma get_represents t m k :
  represents t m → K k →
  ∃ res, get tree_fuel t k = Some res ∧ answers res (λ ov, ov = m !! k).
Proof.
  intros [Hroot Hrows Hg Hs Hh] HK. unfold get. rewrite Hroot. unfold state_root.
  destruct (canon_spec G K Hcf m Hrows) as (Hwf & Hkeyed & Hel).
  destruct (canon m) as [pt|] eqn:Hc; cbn [ohash from_option].
  - destruct (get_loop_spec pt tree_fuel (tree_store t) k) as (res & Hget & Hres);
      [by apply Hwf|done|by eapply keyed_no_clash|done|by apply height_le, Hwf|].
    exists res. split; [done|]. destruct res as [ov|]; [|done]. simpl. apply option_eq.
    intros v. by rewrite (Hres v), <- Hel.
  - exists (Ok None). split; [done|]. simpl. destruct (m !! k) as [v|] eqn:Hk; [|done].
    apply Hel in Hk. by apply elem_of_nil in Hk.
Qed.

Lemma apply_represents t m k value :
  represents t m → value_ok K k value → ogenuine G (canon (map_update k value m)) →
  ∃ res t', apply tree_fuel t k value = Some (res, t') ∧
    match res with
    | Ok root => tree_root t' = root ∧ represents t' (map_update k value m) ∧
                 extends (tree_store t) (tree_store t')
    | Err err => tree_root t' = tree_root t ∧ ∃ e, err = Storage e ∧ storage_failed e
    end.
Proof.
  intros [Hroot Hrows Hg Hs Hh] Hval Hg'. destruct (canon_spec G K Hcf m Hrows) as (Hwf & Hkeyed & _).
  assert (runs (update tree_fuel (tree_root t) (state_position k) k value) (tree_store t)
            (oreaches (tree_store t) (canon (map_update k value m)))) as (res & s' & Hu & Hres).
  { rewrite <- (canon_update G K Hcf) in Hg' |- * by done. rewrite Hroot. unfold state_root.
    destruct (canon m) as [pt|]; cbn [ohash from_option tapply] in *.
    - apply update_spec; try done; [by apply Hwf|eapply keyed_no_clash; [done..|apply Hval]|by apply height_le, Hwf].
    - unfold tree_fuel, TREE_DEPTH. cbn [update Nat.add]. rewrite bool_decide_true by done.
      destruct value as [v|]; [|by apply runs_ret, (oreaches_refl _ None), oholds_None].
      apply runs_store_leaf; [done|]. apply Hg'. left. }
  unfold apply. rewrite Hu. destruct res as [root|err]; eexists _, _; (split; [done|]); [|done].
  destruct Hres as (Hr & Hs' & He & Hh'). split_and!; [done| |done].
  constructor; try done. by eapply rows_ok_update.
Qed.

Lemma state_root_inj m1 m2 :
  rows_ok K m1 → rows_ok K m2 → ogenuine G (canon m1) → ogenuine G (canon m2) →
  state_root m1 = state_root m2 → m1 = m2.
Proof.
  intros H1 H2 Hg1 Hg2 Heq. eapply canon_inj; [done..|]. by eapply ohash_inj.
Qed.

(** An older root stays readable after an update. *)
Lemma represents_extends t s' m :
  represents t m → sound s' → extends (tree_store t) s' → represents (mkTree s' (tree_root t)) m.
Proof.
  intros [Hroot Hrows Hg Hs Hh] Hs' He. constructor; try done.
  intros n Hn. apply He, Hh, Hn.
Qed.
End refine.
