(* ===== verification/StateTreeProps.v ===== *)
(** * The state tree: properties

    The theorems a user of the service state tree relies on, stated over the
    stored tree: refinement of a map by [get] and [apply], independence of the
    root from the history, binding of the root to the rows, authenticity of
    answers from an untrusted store, and the exactness of the node wire.  The
    witnesses run the tree over an in-memory store with the real digest. *)

From Stdlib.Strings Require Byte.
From stdpp Require Import strings.
From S2P Require Import Prelude Bytes Blake2b V2Wire V2Identity StateTree StateTreeNode StateTreeMap StateTreeRefine.

Local Open Scope nat_scope.

(** ** A transaction of several rows *)

(** [tree_apply] in a loop, leaving at the first error. *)
Fixpoint apply_all {S E} `{StateTreeStore S E} (t : ServiceStateTreeV2 S)
    (ops : list (StateKeyV2 * option bytes))
    : option (tree_result (E := E) unit * ServiceStateTreeV2 S) :=
  match ops with
  | [] => Some (Ok tt, t)
  | (k, value) :: ops =>
      match apply tree_fuel t k value with
      | Some (Ok _, t') => apply_all t' ops
      | Some (Err e, t') => Some (Err e, t')
      | None => None
      end
  end.

Definition map_updates (m : gmap StateKeyV2 bytes) (ops : list (StateKeyV2 * option bytes))
    : gmap StateKeyV2 bytes :=
  foldl (λ m op, map_update op.1 op.2 m) m ops.

(** Every tree the transaction passes through is made of nodes in use. *)
Fixpoint ops_ok (G : StateNodeV2 → Prop) (K : StateKeyV2 → Prop) (m : gmap StateKeyV2 bytes)
    (ops : list (StateKeyV2 * option bytes)) : Prop :=
  match ops with
  | [] => True
  | (k, value) :: ops =>
      value_ok K k value ∧ ogenuine G (canon (map_update k value m)) ∧
      ops_ok G K (map_update k value m) ops
  end.

(** ** An in-memory store *)

Abbreviation MemRows := (gmap bytes bytes).

#[export] Instance MemRows_store : StateTreeStore MemRows unit := {|
  store_read s k := Ok (s !! k);
  store_write s k v := (Ok tt, match v with Some v => <[k := v]> s | None => delete k s end);
|}.

#[export] Program Instance MemRows_laws : StateTreeStoreLaws MemRows unit :=
  {| rows := λ s k, s !! k |}.
Next Obligation. intros s k v. by intros [= <-]. Qed.
Next Obligation.
  intros s k v s' [= <-] k'. destruct v, (decide (k' = k)) as [->|];
    by rewrite ?lookup_insert_eq, ?lookup_insert_ne, ?lookup_delete_eq, ?lookup_delete_ne by done.
Qed.

#[export] Instance MemRows_infallible : InfallibleStore MemRows unit.
Proof. split; [done|]. intros s k v. by eexists. Qed.

(** ** Lemmas *)

Section props.
Context {S E : Type} `{InfallibleStore S E}.
Context (G : StateNodeV2 → Prop) (K : StateKeyV2 → Prop) (Hcf : collision_free G K).

Lemma never_fails (e : E) : ¬ storage_failed (S := S) e.
Proof.
  intros [(s & k & Hr)|(s & k & v & s' & Hw)].
  - by rewrite read_never_fails in Hr.
  - destruct (write_never_fails s k v) as [s'' Hw']. congruence.
Qed.

Lemma apply_all_represents t m ops :
  represents G K t m → ops_ok G K m ops →
  ∃ t', apply_all t ops = Some (Ok tt, t') ∧ represents G K t' (map_updates m ops).
Proof.
  revert t m. induction ops as [|[k value] ops IH]; intros t m Hrep Hops; [by exists t|].
  destruct Hops as (Hval & Hg & Hops). cbn [apply_all].
  destruct (apply_represents G K Hcf t m k value Hrep Hval Hg) as ([root|err] & t1 & -> & Hres).
  - destruct Hres as (_ & Hrep' & _). apply (IH t1 _ Hrep' Hops).
  - destruct Hres as (_ & e & _ & He). by apply never_fails in He.
Qed.
End props.

(** ** Reading an untrusted store *)

Section authentic.
Context {S E : Type} `{StateTreeStore S E}.

Lemma read_node_authentic (s : S) h n : read_node s h = Ok n → hash_node n = h.
Proof.
  unfold read_node. destruct (store_read _ _) as [[b|]|]; [|done..].
  destruct (decode b) as [n'|]; [|done]. case_bool_decide as Hh; [by destruct n'|].
  intros [= <-]. done.
Qed.

Lemma read_node_valid (s : S) h n :
  (∀ k b, store_read s k = Ok (Some b) → (blen b ≤ u64_max)%N) → read_node s h = Ok n → node_ok n.
Proof.
  intros Hlen. unfold read_node. destruct (store_read _ _) as [[b|]|] eqn:Hr; [|done..].
  destruct (decode b) as [n'|] eqn:Hd; [|done]. case_bool_decide; [by destruct n'|].
  intros [= <-]. apply decode_exact in Hd as [_ Hok]; [done|by eapply Hlen].
Qed.

(** Two nodes read under one hash, from either store. *)
Definition clash (s1 s2 : S) : Prop :=
  ∃ h n1 n2, read_node s1 h = Ok n1 ∧ read_node s2 h = Ok n2 ∧ n1 ≠ n2.

Lemma get_loop_agree f1 f2 (s1 s2 : S) p k h a b :
  get_loop f1 s1 p k h = Some (Ok a) → get_loop f2 s2 p k h = Some (Ok b) → a = b ∨ clash s1 s2.
Proof.
  revert f2 h. induction f1 as [|f1 IH]; intros [|f2] h; cbn [get_loop]; try done.
  case_bool_decide; [naive_solver|].
  destruct (read_node s1 h) as [n1|] eqn:H1; [|done]. destruct (read_node s2 h) as [n2|] eqn:H2; [|done].
  destruct (decide (n1 = n2)) as [<-|Hne]; [|intros; right; exists h, n1, n2; done].
  destruct n1 as [q k' v|bit q l r].
  - case_bool_decide; [naive_solver|]. case_bool_decide; naive_solver.
  - case_bool_decide; [naive_solver|]. apply IH.
Qed.
End authentic.

(** ** Sample rows *)

Lemma collision_free_list (Gl : list StateNodeV2) (Kl : list StateKeyV2) :
  (let hs := hash_node <$> Gl in
   bool_decide (NoDup hs ∧ ZERO ∉ hs) && bool_decide (NoDup (state_position <$> Kl))) = true →
  collision_free (.∈ Gl) (.∈ Kl).
Proof.
  intros [[Hh Hz]%bool_decide_eq_true_1 Hp%bool_decide_eq_true_1]%andb_prop. split.
  - intros n1 n2 [i1 H1]%list_elem_of_lookup [i2 H2]%list_elem_of_lookup Heq.
    assert (i1 = i2) as ->; [|congruence].
    eapply (NoDup_lookup _ _ _ (hash_node n1) Hh); rewrite list_lookup_fmap, ?H1, ?H2; simpl; congruence.
  - intros n Hn Heq. apply Hz. rewrite <- Heq. by apply list_elem_of_fmap_2.
  - intros k1 k2 [i1 H1]%list_elem_of_lookup [i2 H2]%list_elem_of_lookup Heq.
    assert (i1 = i2) as ->; [|congruence].
    eapply (NoDup_lookup _ _ _ (state_position k1) Hp); rewrite list_lookup_fmap, ?H1, ?H2; simpl; congruence.
Qed.

(** The nodes of every tree along a run. *)
Fixpoint run_nodes (m : gmap StateKeyV2 bytes) (ops : list (StateKeyV2 * option bytes))
    : list StateNodeV2 :=
  match ops with
  | [] => []
  | (k, value) :: ops => onodes (canon (map_update k value m)) ++ run_nodes (map_update k value m) ops
  end.

Lemma ops_ok_run_nodes (G : StateNodeV2 → Prop) (K : StateKeyV2 → Prop) m ops :
  (∀ n, n ∈ run_nodes m ops → G n) → Forall (λ op, value_ok K op.1 op.2) ops → ops_ok G K m ops.
Proof.
  revert m. induction ops as [|[k value] ops IH]; intros m HG Hval; [done|].
  apply Forall_cons in Hval as [Hk Hval]. cbn [run_nodes] in HG. split_and!; [done|..].
  - intros n Hn. apply HG, elem_of_app. by left.
  - apply IH; [|done]. intros n Hn. apply HG, elem_of_app. by right.
Qed.

Definition sample_keys : list StateKeyV2 := [ActorDirectory; RoleAuthority].

(** Two histories of one map: one inserts two rows, the other starts with the
    second row, deletes and replaces it, and then inserts the first. *)
Definition sample_ops1 : list (StateKeyV2 * option bytes) :=
  [(ActorDirectory, Some (b# "dir")); (RoleAuthority, Some (b# "role"))].
Definition sample_ops2 : list (StateKeyV2 * option bytes) :=
  [(RoleAuthority, Some []); (RoleAuthority, None);
   (RoleAuthority, Some (b# "role")); (ActorDirectory, Some (b# "dir"))].

Definition sample_nodes : list StateNodeV2 :=
  remove_dups (run_nodes ∅ sample_ops1 ++ run_nodes ∅ sample_ops2).

Lemma sample_collision_free : collision_free (.∈ sample_nodes) (.∈ sample_keys).
Proof.
  apply collision_free_list. vm_compute. reflexivity.
Qed.

Lemma sample_value_ok k value :
  k ∈ sample_keys ∧ bytes_ok (default [] value) → value_ok (.∈ sample_keys) k value.
Proof.
  intros [Hk Hv]. split; [done|]. intros v' ->. cbn [node_ok].
  assert (Forall (λ k, key_ok k ∧ bytes_ok (encode k)) sample_keys) as Hall
    by (apply (bool_decide_eq_true_1 _); vm_compute; reflexivity).
  apply (proj1 (Forall_forall _ _) Hall) in Hk as [? ?]. done.
Qed.

Lemma sample_ops_ok ops :
  ops = sample_ops1 ∨ ops = sample_ops2 → ops_ok (.∈ sample_nodes) (.∈ sample_keys) ∅ ops.
Proof.
  intros Hops. apply ops_ok_run_nodes.
  - intros n Hn. apply elem_of_remove_dups, elem_of_app. destruct Hops as [->| ->]; [left|right]; exact Hn.
  - assert (Forall (λ op, op.1 ∈ sample_keys ∧ bytes_ok (default [] op.2)) (sample_ops1 ++ sample_ops2)) as Hall
      by (unfold bytes_ok; apply (bool_decide_eq_true_1 _); vm_compute; reflexivity).
    apply Forall_app in Hall as [H1 H2].
    destruct Hops as [->| ->]; (eapply Forall_impl; [eassumption|]); intros [k value]; apply sample_value_ok.
Qed.

Lemma MemRows_sound_empty G : sound (S := MemRows) (E := unit) G ∅.
Proof. intros h b Hb. change ((∅ : MemRows) !! node_storage_key h = Some b) in Hb. by rewrite lookup_empty in Hb. Qed.

Lemma sample_empty : represents (.∈ sample_nodes) (.∈ sample_keys) (mkTree (∅ : MemRows) ZERO) ∅.
Proof. apply (represents_empty (S := MemRows)), MemRows_sound_empty. Qed.

Definition sample_map : gmap StateKeyV2 bytes := map_updates ∅ (take 1 sample_ops1).

(** A stored tree that stands for [sample_map]. *)
Lemma sample_represents : ∃ t : ServiceStateTreeV2 MemRows,
  represents (.∈ sample_nodes) (.∈ sample_keys) t sample_map.
Proof.
  destruct (sample_ops_ok sample_ops1 (or_introl eq_refl)) as (Hv & Hg & _).
  destruct (apply_all_represents _ _ sample_collision_free _ _ (take 1 sample_ops1) sample_empty)
    as (t & _ & Ht); [exact (conj Hv (conj Hg I))|by exists t].
Qed.

Lemma sample_map_ok ops :
  ops_ok (.∈ sample_nodes) (.∈ sample_keys) ∅ ops →
  rows_ok (.∈ sample_keys) (map_updates ∅ ops) ∧ ogenuine (.∈ sample_nodes) (canon (map_updates ∅ ops)).
Proof.
  intros Ho. destruct (apply_all_represents _ _ sample_collision_free _ _ ops sample_empty Ho)
    as (t & _ & Ht). split; [apply (rep_rows _ _ _ _ Ht)|apply (rep_genuine _ _ _ _ Ht)].
Qed.

(** ** Properties *)

(** C15: updating one row of a stored tree that stands for the map [m] moves its
    root to the root of the updated map, as a rebuild from scratch would compute
    it, adds rows to the store without changing one that is there, and returns
    with the fuel of the tree's maximal depth; when the store fails, that error
    is returned, no other, and the root stays. *)
Theorem state_tree_apply_refines {S E : Type} `{StateTreeStoreLaws S E} G K t m k value :
  collision_free G K → represents G K t m → value_ok K k value →
  ogenuine G (canon (map_update k value m)) →
  ∃ res t', apply tree_fuel t k value = Some (res, t') ∧
    match res with
    | Ok root => root = state_root (map_update k value m) ∧ tree_root t' = root ∧
                 represents G K t' (map_update k value m) ∧
                 extends (tree_store t) (tree_store t')
    | Err err => tree_root t' = tree_root t ∧ ∃ e, err = Storage e ∧ storage_failed (S := S) e
    end.
Proof.
  intros Hcf Hrep Hval Hg. destruct (apply_represents G K Hcf t m k value Hrep Hval Hg)
    as (res & t' & Ha & Hres). exists res, t'. split; [done|]. destruct res as [root|]; [|done].
  destruct Hres as (<- & Hrep' & He). split_and!; [|done..]. by rewrite (rep_root _ _ _ _ Hrep').
Qed.

Lemma state_tree_apply_refines_witness :
  ∃ root t', apply tree_fuel (mkTree (∅ : MemRows) ZERO) ActorDirectory (Some (b# "dir")) = Some (Ok root, t') ∧
    root = state_root (map_update ActorDirectory (Some (b# "dir")) ∅).
Proof.
  destruct (sample_ops_ok sample_ops1 (or_introl eq_refl)) as (Hval & Hg & _).
  pose proof (state_tree_apply_refines (S := MemRows) (E := unit) _ _ (mkTree ∅ ZERO) ∅
    ActorDirectory (Some (b# "dir")) sample_collision_free sample_empty Hval Hg) as Hc.
  destruct Hc as ([root|err] & t' & Ha & Hres).
  - exists root, t'. split; [exact Ha|exact (proj1 Hres)].
  - destruct Hres as (_ & e & _ & He). exfalso. exact (never_fails e He).
Defined.

(** a lookup in a stored tree that stands for [m] answers [m !! k] for every
    key in use, present or absent, unless the store fails. *)
Theorem state_tree_get_refines {S E : Type} `{StateTreeStoreLaws S E} G K t m k :
  collision_free G K → represents G K t m → K k →
  ∃ res, get tree_fuel t k = Some res ∧
    match res with
    | Ok ov => ov = m !! k
    | Err err => ∃ e, err = Storage e ∧ storage_failed (S := S) e
    end.
Proof. intros Hcf Hrep HK. exact (get_represents G K Hcf t m k Hrep HK). Qed.

Lemma state_tree_get_refines_witness :
  ∃ t : ServiceStateTreeV2 MemRows,
    get tree_fuel t ActorDirectory = Some (Ok (Some (b# "dir"))) ∧
    get tree_fuel t RoleAuthority = Some (Ok None).
Proof.
  destruct sample_represents as [t Ht]. exists t.
  assert (∀ k, k ∈ sample_keys → get (E := unit) tree_fuel t k = Some (Ok (sample_map !! k))) as Hget.
  { intros k Hk. pose proof (state_tree_get_refines (S := MemRows) (E := unit) _ _ t sample_map k
      sample_collision_free Ht Hk) as ([ov|err] & -> & Hres); [by rewrite Hres|].
    destruct Hres as (e & _ & He). exfalso. exact (never_fails e He). }
  split; rewrite Hget by (apply (bool_decide_eq_true_1 _); vm_compute; reflexivity);
    vm_compute; reflexivity.
Defined.

(** C27: the root depends on the rows only, not on the history that led to them:
    over any stores that do not fail, two transactions of inserts, replacements
    and deletions from the empty tree that describe the same map both succeed
    and end with the same root, that of the map. *)
Theorem state_root_history_independent {S E : Type} `{InfallibleStore S E} G K (s1 s2 : S) ops1 ops2 :
  collision_free G K → sound G s1 → sound G s2 → ops_ok G K ∅ ops1 → ops_ok G K ∅ ops2 →
  map_updates ∅ ops1 = map_updates ∅ ops2 →
  ∃ t1 t2, apply_all (mkTree s1 empty_state_root) ops1 = Some (Ok tt, t1) ∧
           apply_all (mkTree s2 empty_state_root) ops2 = Some (Ok tt, t2) ∧
           tree_root t1 = state_root (map_updates ∅ ops1) ∧ tree_root t2 = tree_root t1.
Proof.
  intros Hcf Hs1 Hs2 Ho1 Ho2 Heq.
  destruct (apply_all_represents G K Hcf _ _ ops1 (represents_empty G K s1 Hs1) Ho1) as (t1 & Ha1 & Hr1).
  destruct (apply_all_represents G K Hcf _ _ ops2 (represents_empty G K s2 Hs2) Ho2) as (t2 & Ha2 & Hr2).
  exists t1, t2. split_and!; [done..|by rewrite (rep_root _ _ _ _ Hr1)|].
  by rewrite (rep_root _ _ _ _ Hr1), (rep_root _ _ _ _ Hr2), Heq.
Qed.

Lemma state_root_history_independent_witness :
  ∃ t1 t2 : ServiceStateTreeV2 MemRows,
    apply_all (E := unit) (mkTree ∅ ZERO) sample_ops1 = Some (Ok tt, t1) ∧
    apply_all (E := unit) (mkTree ∅ ZERO) sample_ops2 = Some (Ok tt, t2) ∧ tree_root t2 = tree_root t1.
Proof.
  pose proof (MemRows_sound_empty (.∈ sample_nodes)) as Hs.
  assert (map_updates ∅ sample_ops1 = map_updates ∅ sample_ops2) as Heq
    by (apply (bool_decide_eq_true_1 _); vm_compute; reflexivity).
  pose proof (state_root_history_independent (S := MemRows) (E := unit) _ _ ∅ ∅ sample_ops1 sample_ops2
    sample_collision_free Hs Hs (sample_ops_ok _ (or_introl eq_refl))
    (sample_ops_ok _ (or_intror eq_refl)) Heq) as (t1 & t2 & H1 & H2 & _ & H3).
  exists t1, t2. exact (conj H1 (conj H2 H3)).
Defined.

(** the root binds the rows: two maps of rows in use with the same root are
    the same map. *)
Theorem state_root_binds_rows G K m1 m2 :
  collision_free G K → rows_ok K m1 → rows_ok K m2 →
  ogenuine G (canon m1) → ogenuine G (canon m2) →
  state_root m1 = state_root m2 → m1 = m2.
Proof. intros Hcf H1 H2 Hg1 Hg2. by eapply state_root_inj. Qed.

Lemma state_root_binds_rows_witness :
  state_root (map_updates ∅ sample_ops1) ≠ state_root (map_updates ∅ (take 1 sample_ops1)).
Proof.
  pose proof (sample_ops_ok sample_ops1 (or_introl eq_refl)) as Hops.
  destruct (sample_map_ok sample_ops1 Hops) as [Hr1 Hg1].
  destruct (sample_map_ok (take 1 sample_ops1)) as [Hr2 Hg2].
  { destruct Hops as (Hv & Hg & _). exact (conj Hv (conj Hg I)). }
  intros Heq. pose proof (state_root_binds_rows _ _ _ _ sample_collision_free Hr1 Hr2 Hg1 Hg2 Heq) as Hm.
  apply (f_equal (λ m : gmap StateKeyV2 bytes, m !! RoleAuthority)) in Hm. vm_compute in Hm. discriminate Hm.
Defined.

(** C28: answers are authenticated by the root alone.  Whatever two stores hold,
    if under one root both answer a key, then they give the same answer, or the
    two stores hold, under one node hash, two valid nodes whose hashed byte
    strings are different: a blake2b collision. *)
Theorem state_tree_get_authentic {S E : Type} `{StateTreeStore S E} f1 f2
    (t1 t2 : ServiceStateTreeV2 S) k a b :
  (∀ key row, store_read (tree_store t1) key = Ok (Some row) → (blen row ≤ u64_max)%N) →
  (∀ key row, store_read (tree_store t2) key = Ok (Some row) → (blen row ≤ u64_max)%N) →
  tree_root t1 = tree_root t2 →
  get f1 t1 k = Some (Ok a) → get f2 t2 k = Some (Ok b) →
  a = b ∨
  ∃ h n1 n2, read_node (tree_store t1) h = Ok n1 ∧ read_node (tree_store t2) h = Ok n2 ∧
    hash_node n1 = h ∧ hash_node n2 = h ∧
    ((blen (node_hashed n1) ≤ u64_max)%N → node_hashed n1 ≠ node_hashed n2).
Proof.
  intros Hlen1 Hlen2 Hroot Hg1 Hg2. unfold get in *. rewrite <- Hroot in Hg2.
  destruct (get_loop_agree _ _ _ _ _ _ _ _ _ Hg1 Hg2) as [|(h & n1 & n2 & Hr1 & Hr2 & Hn)]; [by left|].
  right. exists h, n1, n2. split_and!; [done..|by eapply read_node_authentic|by eapply read_node_authentic|].
  intros Hl Heq. apply Hn, node_hashed_inj; [exact (read_node_valid _ h n1 Hlen1 Hr1)|
    exact (read_node_valid _ h n2 Hlen2 Hr2)|done|done].
Qed.

(** A tree of one row, alone and beside a row that is no node. *)
Definition sample_leaf : StateNodeV2 :=
  Leaf (state_position ActorDirectory) ActorDirectory (b# "dir").
Definition honest_rows : MemRows :=
  {[ node_storage_key (hash_node sample_leaf) := encode sample_leaf ]}.
Definition littered_rows : MemRows := <[ b# "junk" := b# "junk" ]> honest_rows.

Lemma small_rows (s : MemRows) :
  bool_decide (map_Forall (λ _ row, (blen row ≤ u64_max)%N) s) = true →
  ∀ key row, store_read (E := unit) s key = Ok (Some row) → (blen row ≤ u64_max)%N.
Proof. intros Hs%bool_decide_eq_true_1 key row [= Hrow]. exact (Hs key row Hrow). Qed.

Lemma state_tree_get_authentic_witness :
  let t1 := mkTree honest_rows (hash_node sample_leaf) in
  let t2 := mkTree littered_rows (hash_node sample_leaf) in
  Some (b# "dir") = Some (b# "dir") ∨
  ∃ h n1 n2, read_node (E := unit) (tree_store t1) h = Ok n1 ∧
    read_node (E := unit) (tree_store t2) h = Ok n2 ∧ hash_node n1 = h ∧ hash_node n2 = h ∧
    ((blen (node_hashed n1) ≤ u64_max)%N → node_hashed n1 ≠ node_hashed n2).
Proof.
  intros t1 t2.
  apply (state_tree_get_authentic (S := MemRows) (E := unit) tree_fuel tree_fuel t1 t2 ActorDirectory).
  - apply small_rows. vm_compute. reflexivity.
  - apply small_rows. vm_compute. reflexivity.
  - exact (eq_refl (hash_node sample_leaf)).
  - vm_compute. reflexivity.
  - vm_compute. reflexivity.
Defined.

(** a stored row is accepted by the node decoder iff it is the encoding of a
    node that passes every check of the format: decoding inverts encoding, and
    no second byte string decodes to the same node. *)
Theorem state_node_wire_exact (b : bytes) (n : StateNodeV2) :
  (blen b ≤ u64_max)%N → decode b = Ok n ↔ b = encode n ∧ node_ok n.
Proof. exact (decode_exact b n). Qed.

Lemma state_node_wire_exact_witness : decode (encode sample_leaf) = Ok sample_leaf.
Proof.
  apply state_node_wire_exact; [apply (bool_decide_eq_true_1 _); vm_compute; reflexivity|].
  split; [reflexivity|]. apply (bool_decide_eq_true_1 _). vm_compute. reflexivity.
Defined.
