(* ===== verification/Causal.v ===== *)
(** * vos v2: causal frontiers of CRDT changes

    [vos/src/v2/causal.rs]: fetching and validating the complete ancestry of a
    set of heads ([load_causal_frontier]), and the queries on the validated
    frontier.  A change is known to this code by its dependencies, its declared
    height and its actor materializations; the other fields of [CrdtChangeV2] are
    the parameter [Rest], and its wire is any [V2Wire] instance.

    The traversals are [worklist] loops: [pending] is the stack, top first, and
    [nodes.contains_key] is the visited set.  [None] is a loop out of fuel. *)

From stdpp Require Import strings.
From S2P Require Import Prelude Worklist Bytes Slices Blake2b V2Wire V2Identity.

Local Open Scope N_scope.

Record BlobRefV2 := mkBlobRef { blob_hash : Hash; blob_len : N }.

#[export] Instance BlobRefV2_eq_dec : EqDecision BlobRefV2.
Proof. solve_decision. Defined.

Record CrdtMaterializationV2 := mkMaterialization { mat_actor : ActorId; mat_state : BlobRefV2 }.

#[export] Instance CrdtMaterializationV2_eq_dec : EqDecision CrdtMaterializationV2.
Proof. solve_decision. Defined.

(** [rest]: the operations, workflow operations, awaited reply and exported
    blobs. *)
Record CrdtChangeV2 (Rest : Type) := mkChange {
  change_id : bytes;
  work_hash : Hash;
  causal_dependencies : list Hash;
  causal_height : N;
  materializations : list CrdtMaterializationV2;
  rest : Rest;
}.
Arguments mkChange {Rest} _ _ _ _ _ _.
Arguments change_id {Rest} _.
Arguments work_hash {Rest} _.
Arguments causal_dependencies {Rest} _.
Arguments causal_height {Rest} _.
Arguments materializations {Rest} _.
Arguments rest {Rest} _.

#[export] Instance CrdtChangeV2_eq_dec `{EqDecision Rest} : EqDecision (CrdtChangeV2 Rest).
Proof. solve_decision. Defined.

Inductive CausalFrontierError (E : Type) :=
| FrontierStorage (e : E)
| FrontierMissing (h : Hash)
| FrontierCorrupt.
Arguments FrontierStorage {E} e.
Arguments FrontierMissing {E} h.
Arguments FrontierCorrupt {E}.

Inductive CausalSelectionError := SelectionCorrupt.

(** [if let Some(existing) = slot && existing != value]. *)
Definition conflicts {A} `{EqDecision A} (slot : option A) (value : A) : bool :=
  match slot with
  | Some existing => bool_decide (existing ≠ value)
  | None => false
  end.

Section Causal.
Context {Rest E : Type} `{EqDecision Rest} `{!V2Wire (CrdtChangeV2 Rest)}.
Abbreviation Change := (CrdtChangeV2 Rest).
Abbreviation Nodes := (gmap Hash (CrdtChangeV2 Rest)).

Definition change_cid (c : Change) : Hash := digest (b# "vos/crdt-dag-node/v2") [encode c].

Record CausalFrontierV2 := mkFrontier {
  heads : list Hash;
  frontier_nodes : Nodes;
  max_head_height : N;
}.

(** [.max().unwrap_or(0)] of heights. *)
Definition max_height (hs : list N) : N := foldr N.max 0 hs.

(** [heights.filter_map(|h| nodes.get(h)).map(|c| c.causal_height)]. *)
Definition heights_of (nodes : Nodes) (hs : list Hash) : list N :=
  omap (λ h, causal_height <$> nodes !! h) hs.

(** ** Loading *)

(** A reader that may change state: [FnMut]. *)
Definition reader (St : Type) : Type := St → Hash → result (CausalFrontierError E) Change * St.

Definition load_body {St} (read_node : reader St) (c : Hash) (_ : gset Hash) (pending : list Hash)
    (acc : Nodes * St) : flow (list Hash * (Nodes * St)) (CausalFrontierError E) :=
  let '(nodes, st) := acc in
  match read_node st c with
  | (Err e, _) => Return e
  | (Ok change, st) =>
      if bool_decide (change_cid change ≠ c) then Return FrontierCorrupt
      else Continue (reverse (causal_dependencies change) ++ pending, (<[c := change]> nodes, st))
  end.

Definition expected_height (nodes : Nodes) (change : Change) : option N :=
  checked_add (max_height (heights_of nodes (causal_dependencies change))) 1.

(** The loop over [nodes.values()]: every failure is the same error. *)
Definition heights_valid (nodes : Nodes) : bool :=
  bool_decide (map_Forall (λ _ change, expected_height nodes change = Some (causal_height change)) nodes).

Definition load_causal_frontier_changes {St} (fuel : nat) (hs : list Hash) (read_node : reader St)
    (st : St) : option (result (CausalFrontierError E) CausalFrontierV2) :=
  match worklist (load_body read_node) fuel (reverse hs) ∅ (∅, st) with
  | None => None
  | Some (Return e) => Some (Err e)
  | Some (Continue (_, (nodes, _))) =>
      if heights_valid nodes
      then Some (Ok (mkFrontier hs nodes (max_height (heights_of nodes hs))))
      else Some (Err FrontierCorrupt)
  end.

(** [read_node(cid)? .ok_or(Missing)?], then the wire. *)
Definition read_stored (read : Hash → result E (option bytes)) (c : Hash)
    : result (CausalFrontierError E) Change :=
  match read c with
  | Err e => Err (FrontierStorage e)
  | Ok None => Err (FrontierMissing c)
  | Ok (Some b) =>
      match decode b with
      | Ok change => Ok change
      | Err _ => Err FrontierCorrupt
      end
  end.

Definition load_causal_frontier (fuel : nat) (hs : list Hash) (read : Hash → result E (option bytes))
    : option (result (CausalFrontierError E) CausalFrontierV2) :=
  load_causal_frontier_changes fuel hs (λ (_ : unit) c, (read_stored read c, tt)) tt.

(** [supplied.binary_search_by_key(&cid, ..)] of a vector sorted by distinct
    identifiers, and [supplied.remove(index).1]. *)
Definition take_supplied (supplied : list (Hash * Change)) (c : Hash)
    : option (Change * list (Hash * Change)) :=
  match list_find (λ kv, kv.1 = c) supplied with
  | Some (i, (_, change)) => Some (change, delete i supplied)
  | None => None
  end.

Definition load_causal_frontier_with_owned_supplied (fuel : nat) (hs : list Hash)
    (supplied : list (Hash * Change)) (read : Hash → result E (option bytes))
    : option (result (CausalFrontierError E) CausalFrontierV2) :=
  load_causal_frontier_changes fuel hs
    (λ supplied c, match take_supplied supplied c with
                   | Some (change, supplied) => (Ok change, supplied)
                   | None => (read_stored read c, supplied)
                   end) supplied.

(** ** Queries *)

Definition dependencies_of (nodes : Nodes) : list Hash :=
  (map_to_list nodes).*2 ≫= causal_dependencies.

(** [dependencies] is sorted and without duplicates, so that [binary_search] is
    membership. *)
Definition canonical_heads (f : CausalFrontierV2) : list Hash :=
  filter (λ h, h ∉ dependencies_of (frontier_nodes f)) (heads f).

Definition causal_le (a b : Hash * Change) : Prop :=
  causal_height a.2 < causal_height b.2 ∨
  (causal_height a.2 = causal_height b.2 ∧ bytes_le a.1 b.1).

#[export] Instance causal_le_dec : RelDecision causal_le.
Proof. intros a b. unfold causal_le. apply _. Defined.

(** [sort_by_key(|(cid, node)| (node.causal_height, *cid))]. *)
Definition nodes_in_causal_order (f : CausalFrontierV2) : list (Hash * Change) :=
  merge_sort causal_le (map_to_list (frontier_nodes f)).

Definition at_heads_body (nodes : Nodes) (c : Hash) (_ : gset Hash) (pending : list Hash) (acc : Nodes)
    : flow (list Hash * Nodes) unit :=
  match nodes !! c with
  | None => Return tt
  | Some change => Continue (reverse (causal_dependencies change) ++ pending, <[c := change]> acc)
  end.

Definition at_heads (fuel : nat) (f : CausalFrontierV2) (hs : list Hash)
    : option (option CausalFrontierV2) :=
  match worklist (at_heads_body (frontier_nodes f)) fuel (reverse hs) ∅ ∅ with
  | None => None
  | Some (Return _) => Some None
  | Some (Continue (_, nodes)) => Some (Some (mkFrontier hs nodes (max_height (heights_of nodes hs))))
  end.

Definition with_change (f : CausalFrontierV2) (current_heads : list Hash) (c : Hash) (change : Change)
    : option CausalFrontierV2 :=
  parents ← mapM (λ d, causal_height <$> frontier_nodes f !! d) (causal_dependencies change);
  expected ← checked_add (max_height parents) 1;
  if bool_decide (causal_height change ≠ expected) then None else
  if conflicts (frontier_nodes f !! c) change then None else
  let nodes := <[c := change]> (frontier_nodes f) in
  let hs := canonical_heads (mkFrontier (sort_dedup bytes_le (current_heads ++ [c])) nodes (max_head_height f)) in
  Some (mkFrontier hs nodes (max_height (heights_of nodes hs))).

Definition ancestor_body (nodes : Nodes) (ancestor : Hash) (c : Hash) (_ : gset Hash)
    (pending : list Hash) (_ : unit) : flow (list Hash * unit) bool :=
  match nodes !! c with
  | None => Return false
  | Some change =>
      if bool_decide (ancestor ∈ causal_dependencies change) then Return true
      else Continue (reverse (causal_dependencies change) ++ pending, tt)
  end.

Definition contains_ancestor (fuel : nat) (f : CausalFrontierV2) (descendant ancestor : Hash)
    : option bool :=
  if bool_decide (descendant = ancestor) then Some true else
  match worklist (ancestor_body (frontier_nodes f) ancestor) fuel [descendant] ∅ tt with
  | None => None
  | Some (Return b) => Some b
  | Some (Continue _) => Some false
  end.

Definition actor_materialization (actor : ActorId) (change : Change) : option BlobRefV2 :=
  (λ im, mat_state im.2) <$> list_find (λ m, mat_actor m = actor) (materializations change).

Definition select_body (nodes : Nodes) (actor : ActorId) (initial_state : BlobRefV2) (c : Hash)
    (_ : gset Hash) (pending : list Hash) (frontier : gmap Hash BlobRefV2)
    : flow (list Hash * gmap Hash BlobRefV2) CausalSelectionError :=
  match nodes !! c with
  | None => Return SelectionCorrupt
  | Some change =>
      match actor_materialization actor change with
      | Some state =>
          if conflicts (frontier !! blob_hash state) state
          then Return SelectionCorrupt
          else Continue (pending, <[blob_hash state := state]> frontier)
      | None =>
          if bool_decide (causal_dependencies change = [])
          then Continue (pending, <[blob_hash initial_state := initial_state]> frontier)
          else Continue (reverse (causal_dependencies change) ++ pending, frontier)
      end
  end.

(** [frontier.into_values()]: in the order of the keys. *)
Definition map_values (frontier : gmap Hash BlobRefV2) : list BlobRefV2 :=
  omap (λ h, frontier !! h) (sorted_keys bytes_le frontier).

Definition actor_materializations (fuel : nat) (f : CausalFrontierV2) (actor : ActorId)
    (initial_state : BlobRefV2) : option (result CausalSelectionError (list BlobRefV2)) :=
  if bool_decide (heads f = []) then Some (Ok [initial_state]) else
  match worklist (select_body (frontier_nodes f) actor initial_state) fuel (reverse (heads f)) ∅ ∅ with
  | None => None
  | Some (Return e) => Some (Err e)
  | Some (Continue (_, frontier)) =>
      if bool_decide (frontier = ∅) then Some (Err SelectionCorrupt)
      else Some (Ok (map_values frontier))
  end.
End Causal.
Arguments CausalFrontierV2 : clear implicits.
