(* ===== verification/CausalProps.v ===== *)
(** * vos v2: what a causal frontier promises

    [frontier_ok]: every node is stored under its own identifier, every
    dependency is present, every height is one more than the greatest height
    below it, and the nodes are exactly the ancestry of the heads.  Loading
    establishes it ([load_pure_spec]) within fuel linear in the edges, and the queries
    are characterised on it: ancestry by [contains_ancestor] and [at_heads],
    maximal heads by [canonical_heads], a topological order by
    [nodes_in_causal_order], and the nearest states by
    [actor_materializations]. *)

From stdpp Require Import strings.
From S2P Require Import Prelude Worklist Bytes Slices Blake2b V2Wire V2Identity Causal.

Local Open Scope N_scope.

Section Frontier.
Context {Rest E : Type} `{EqDecision Rest} `{!V2Wire (CrdtChangeV2 Rest)}.
Abbreviation Change := (CrdtChangeV2 Rest).
Abbreviation Nodes := (gmap Hash (CrdtChangeV2 Rest)).
Implicit Types (nodes : Nodes) (f : CausalFrontierV2 Rest).

(** ** Ancestry *)

(** [c] depends directly on [d]. *)
Definition dep nodes (c d : Hash) : Prop :=
  ∃ change, nodes !! c = Some change ∧ d ∈ causal_dependencies change.

Definition deps_of nodes (c : Hash) : option (gset Hash) :=
  (λ change, list_to_set (causal_dependencies change)) <$> nodes !! c.

Definition complete nodes : Prop := ∀ c d, dep nodes c d → is_Some (nodes !! d).

Definition heights_ok nodes : Prop :=
  map_Forall (λ _ change, expected_height nodes change = Some (causal_height change)) nodes.

Record nodes_ok nodes : Prop := {
  nok_cid : ∀ c change, nodes !! c = Some change → change_cid change = c;
  nok_complete : complete nodes;
  nok_heights : heights_ok nodes;
}.

Record frontier_ok f : Prop := {
  fok_nodes : nodes_ok (frontier_nodes f);
  fok_ancestry : ∀ c, is_Some (frontier_nodes f !! c) ↔
    reach (deps_of (frontier_nodes f)) (list_to_set (heads f)) c;
  fok_max : max_head_height f = max_height (heights_of (frontier_nodes f) (heads f));
}.

Lemma deps_of_Some nodes c kids d :
  deps_of nodes c = Some kids → d ∈ kids → dep nodes c d.
Proof.
  unfold deps_of. rewrite fmap_Some. intros (ch & Hch & ->) Hd%elem_of_list_to_set. by exists ch.
Qed.

Lemma reach_dep nodes R0 c d : reach (deps_of nodes) R0 c → dep nodes c d → reach (deps_of nodes) R0 d.
Proof.
  intros Hr (ch & Hch & Hd). eapply reach_next; [done| |by apply elem_of_list_to_set].
  unfold deps_of. by rewrite Hch.
Qed.

Lemma reach_rtc nodes R0 c :
  reach (deps_of nodes) R0 c ↔ ∃ h, h ∈ R0 ∧ rtc (dep nodes) h c.
Proof.
  split.
  - induction 1 as [c Hc|c kids x _ (h & Hh & Hr) He Hx]; [by exists c|].
    exists h. split; [done|]. eapply rtc_r; [done|]. by eapply deps_of_Some.
  - intros (h & Hh & Hr). apply (reach_root (deps_of nodes) R0) in Hh. revert Hh.
    induction Hr as [|h d c Hd _ IH]; [done|]. intros Hh. apply IH. by eapply reach_dep.
Qed.

(** ** Heights *)

Lemma max_height_ge hs h : h ∈ hs → h ≤ max_height hs.
Proof.
  induction hs as [|x hs IH]; [by intros ?%elem_of_nil|].
  intros [->|Hin]%elem_of_cons; cbn; [lia|]. specialize (IH Hin). unfold max_height in IH. lia.
Qed.

Lemma max_height_le hs m : (∀ h, h ∈ hs → h ≤ m) → max_height hs ≤ m.
Proof.
  induction hs as [|x hs IH]; intros Hall; cbn; [lia|].
  assert (x ≤ m) by (apply Hall; left). assert (max_height hs ≤ m); [|unfold max_height in *; lia].
  apply IH. intros h Hh. apply Hall. by right.
Qed.

Lemma elem_of_heights_of nodes hs x :
  x ∈ heights_of nodes hs ↔ ∃ h change, h ∈ hs ∧ nodes !! h = Some change ∧ causal_height change = x.
Proof.
  unfold heights_of. rewrite list_elem_of_omap. split.
  - intros (h & Hh & (ch & Hch & ->)%fmap_Some). eauto.
  - intros (h & ch & Hh & Hch & <-). exists h. split; [done|]. by rewrite Hch.
Qed.

Lemma heights_of_ext nodes1 nodes2 hs :
  (∀ h, h ∈ hs → nodes1 !! h = nodes2 !! h) → heights_of nodes1 hs = heights_of nodes2 hs.
Proof.
  assert (∀ nodes h hs, heights_of nodes (h :: hs) =
    from_option (λ c, causal_height c :: heights_of nodes hs) (heights_of nodes hs) (nodes !! h)) as Hcons
    by (intros nodes h l; unfold heights_of; cbn [omap list_omap];
        destruct (nodes !! h); reflexivity).
  induction hs as [|h hs IH]; intros Heq; [done|]. rewrite !Hcons, (Heq h) by left.
  rewrite IH; [done|]. intros h' Hh'. apply Heq. by right.
Qed.

(** Heights increase along dependencies, so there is no cycle. *)
Lemma dep_height nodes c d ch_c ch_d :
  heights_ok nodes → nodes !! c = Some ch_c → nodes !! d = Some ch_d →
  d ∈ causal_dependencies ch_c → causal_height ch_d < causal_height ch_c.
Proof.
  intros Hok Hc Hd Hin. specialize (Hok c ch_c Hc). unfold expected_height, checked_add in Hok.
  destruct (N.leb_spec (max_height (heights_of nodes (causal_dependencies ch_c)) + 1) u64_max); [|done].
  injection Hok as Hh.
  assert (causal_height ch_d ≤ max_height (heights_of nodes (causal_dependencies ch_c))); [|lia].
  apply max_height_ge, elem_of_heights_of. eauto.
Qed.

Definition height_at nodes (c : Hash) : N := from_option causal_height 0 (nodes !! c).

Lemma dep_height_at nodes c d :
  nodes_ok nodes → dep nodes c d → height_at nodes d < height_at nodes c.
Proof.
  intros [_ Hc Hh] Hd. destruct (Hc c d Hd) as [chd Hchd]. destruct Hd as (ch & Hch & Hin).
  unfold height_at. rewrite Hch, Hchd. by eapply dep_height.
Qed.

Lemma rtc_height nodes c d :
  nodes_ok nodes → rtc (dep nodes) c d → c = d ∨ height_at nodes d < height_at nodes c.
Proof.
  intros Hok. induction 1 as [|c d e Hd _ IH]; [by left|]. right.
  pose proof (dep_height_at nodes c d Hok Hd). destruct IH as [<-|]; lia.
Qed.

Lemma rtc_present nodes c d :
  complete nodes → is_Some (nodes !! c) → rtc (dep nodes) c d → is_Some (nodes !! d).
Proof. intros Hc Hs. induction 1 as [|c d e Hd _ IH]; [done|]. apply IH. by eapply Hc. Qed.

(** ** Loading *)

(** What a pure reader makes available. *)
Definition valid_read (ans : Hash → result (CausalFrontierError E) Change) (c : Hash) : option Change :=
  match ans c with
  | Ok change => if bool_decide (change_cid change = c) then Some change else None
  | Err _ => None
  end.

Definition read_deps ans (c : Hash) : option (gset Hash) :=
  (λ change, list_to_set (causal_dependencies change)) <$> valid_read ans c.

Definition load_pure (fuel : nat) (hs : list Hash)
    (ans : Hash → result (CausalFrontierError E) Change) :=
  load_causal_frontier_changes fuel hs (λ (_ : unit) c, (ans c, tt)) tt.

(** Why a load fails: an identifier below the heads could not be read, or is not
    that of what was read, or the heights of a complete ancestry are wrong. *)
Inductive load_error ans (hs : list Hash) : CausalFrontierError E → Prop :=
| error_read c e :
    reach (read_deps ans) (list_to_set hs) c → ans c = Err e → load_error ans hs e
| error_cid c change :
    reach (read_deps ans) (list_to_set hs) c → ans c = Ok change → change_cid change ≠ c →
    load_error ans hs FrontierCorrupt
| error_height nodes :
    (∀ c, nodes !! c = (if bool_decide (c ∈ dom nodes) then valid_read ans c else None)) →
    (∀ c, c ∈ dom nodes ↔ reach (read_deps ans) (list_to_set hs) c) →
    ¬ heights_ok nodes → load_error ans hs FrontierCorrupt.

Lemma load_body_explores ans :
  explores (load_body (St := unit) (λ _ c, (ans c, tt))) (read_deps ans).
Proof.
  intros c vis w [nodes st] w' a' _ Hb. unfold load_body in Hb.
  unfold read_deps, valid_read. destruct (ans c) as [ch|e]; [|done].
  case_bool_decide as Hcid; [done|]. injection Hb as <- <-.
  eexists. split; [by rewrite bool_decide_true by done|].
  split_and!; intros x; rewrite ?elem_of_app, ?elem_of_reverse, ?elem_of_list_to_set; tauto.
Qed.

Lemma valid_read_Some ans c change :
  valid_read ans c = Some change ↔ ans c = Ok change ∧ change_cid change = c.
Proof.
  unfold valid_read. destruct (ans c) as [ch|]; [|split; [done|by intros [? _]]].
  case_bool_decide as Hc; split; [by intros [= <-]|by intros [[= <-] _]|done|by intros [[= <-] ?]].
Qed.

(** The nodes a loop has collected once it has visited everything it can reach. *)
Lemma collected_ok ans hs nodes :
  (∀ c, nodes !! c = (if bool_decide (c ∈ dom nodes) then valid_read ans c else None)) →
  (∀ c, c ∈ dom nodes ↔ reach (read_deps ans) (list_to_set hs) c) →
  heights_ok nodes →
  frontier_ok (mkFrontier hs nodes (max_height (heights_of nodes hs))).
Proof.
  intros Hnodes Hdom Hh.
  assert (∀ c, c ∈ dom nodes → nodes !! c = valid_read ans c) as Hin.
  { intros c Hc. by rewrite Hnodes, bool_decide_true. }
  assert (∀ c, c ∈ dom nodes → deps_of nodes c = read_deps ans c) as Hdeps.
  { intros c Hc. unfold deps_of, read_deps. by rewrite Hin. }
  assert (∀ c, reach (deps_of nodes) (list_to_set hs) c ↔ c ∈ dom nodes) as Hreach.
  { intros c. split.
    - intros Hr. apply Hdom. induction Hr as [c Hc|c kids x _ IH He Hx]; [by apply reach_root|].
      eapply reach_next; [done| |done]. rewrite <- Hdeps; [done|by apply Hdom].
    - intros Hc. pose proof (proj1 (Hdom c) Hc) as Hr. clear Hc.
      induction Hr as [c Hc|c kids x Hr IH He Hx]; [by apply reach_root|].
      eapply reach_next; [done| |done]. rewrite Hdeps; [done|by apply Hdom]. }
  constructor; cbn [frontier_nodes heads max_head_height]; [|intros c; by rewrite Hreach, elem_of_dom|done].
  constructor; [| |done].
  - intros c change Hc. assert (c ∈ dom nodes) as Hd by by eapply elem_of_dom_2.
    rewrite Hin in Hc by done. by apply valid_read_Some in Hc as [_ ?].
  - intros c d Hd. apply elem_of_dom, Hreach. eapply reach_dep; [|done]. apply Hreach.
    destruct Hd as (ch & Hc & _). by eapply elem_of_dom_2.
Qed.

Lemma load_body_Continue ans c vis w (nodes : Nodes) w' a' :
  load_body (St := unit) (λ _ c, (ans c, tt)) c vis w (nodes, tt) = Continue (w', a') →
  ∃ change, valid_read ans c = Some change ∧ a' = (<[c := change]> nodes, tt) ∧
            w' = reverse (causal_dependencies change) ++ w.
Proof.
  unfold load_body, valid_read. destruct (ans c) as [ch|]; [|done].
  case_bool_decide as Hc; [done|]. intros [= <- <-]. exists ch.
  by rewrite bool_decide_true by done.
Qed.

Lemma load_body_Return ans hs c vis w (nodes : Nodes) e :
  reach (read_deps ans) (list_to_set hs) c →
  load_body (St := unit) (λ _ c, (ans c, tt)) c vis w (nodes, tt) = Return e → load_error ans hs e.
Proof.
  intros Hr. unfold load_body. destruct (ans c) as [ch|e'] eqn:Ha.
  - case_bool_decide; [|done]. intros [= <-]. by eapply error_cid.
  - intros [= <-]. by eapply error_read.
Qed.

Lemma list_to_set_reverse (hs : list Hash) : list_to_set (reverse hs) =@{gset Hash} list_to_set hs.
Proof. apply list_to_set_perm_L, reverse_Permutation. Qed.

Lemma load_pure_spec fuel hs ans res :
  load_pure fuel hs ans = Some res →
  match res with
  | Ok f => heads f = hs ∧ frontier_ok f ∧
            (∀ c change, frontier_nodes f !! c = Some change → ans c = Ok change)
  | Err e => load_error ans hs e
  end.
Proof.
  unfold load_pure, load_causal_frontier_changes.
  destruct (worklist _ fuel (reverse hs) ∅ (∅, tt)) as [r|] eqn:Hw; [|done].
  apply (worklist_explores _ (read_deps ans) (λ vis (a : Nodes * unit), dom a.1 = vis ∧ ∀ c,
    a.1 !! c = (if bool_decide (c ∈ dom a.1) then valid_read ans c else None)) (load_error ans hs)) in Hw;
    rewrite ?list_to_set_reverse in *; [|apply load_body_explores|..].
  - destruct r as [[vis [nodes []]]|e]; [|by intros [= <-]]. cbn [fst] in Hw.
    destruct Hw as ([<- Hnodes] & Hvis & _). unfold heights_valid.
    case_bool_decide as Hh; intros [= <-].
    + split_and!; [done|by apply (collected_ok ans)|]. intros c change Hc. cbn in Hc.
      rewrite Hnodes in Hc. case_bool_decide; [|done]. by apply valid_read_Some in Hc as [? _].
    + by eapply error_height.
  - intros vis c w [nodes []] w' a' [<- Hnodes] _ Hc Hb. cbn [fst] in *.
    apply load_body_Continue in Hb as (ch & Hch & -> & _). cbn [fst]. split; [by rewrite dom_insert_L|].
    intros c'. rewrite dom_insert_L. destruct (decide (c' = c)) as [->|Hne].
    + rewrite lookup_insert_eq, bool_decide_true by set_solver. done.
    + rewrite lookup_insert_ne by done. rewrite Hnodes.
      rewrite (bool_decide_ext (c' ∈ {[c]} ∪ dom nodes) (c' ∈ dom nodes)) by set_solver. done.
  - intros vis c w [nodes []] e _ _ Hr _ Hb. by eapply load_body_Return.
  - cbn. split; [done|]. intros c. rewrite lookup_empty. by case_bool_decide.
Qed.

Lemma load_stored_pure fuel hs (read : Hash → result E (option bytes)) :
  load_causal_frontier fuel hs read = load_pure fuel hs (read_stored read).
Proof. reflexivity. Qed.

(** ** Termination *)

Definition read_cost ans (c : Hash) : nat :=
  from_option (λ change, length (causal_dependencies change)) 0%nat (valid_read ans c).

(** A load ends when only finitely many identifiers can be read: once for every
    head and every dependency stored. *)
Lemma load_pure_total fuel hs ans (X : gset Hash) :
  (∀ c change, valid_read ans c = Some change → c ∈ X) →
  (length hs + cost_sum (read_cost ans) X < fuel)%nat →
  ∃ res, load_pure fuel hs ans = Some res.
Proof.
  intros HX Hfuel. unfold load_pure, load_causal_frontier_changes.
  destruct (worklist_total (load_body (St := unit) (λ _ c, (ans c, tt))) (read_cost ans) X fuel
    (reverse hs) ∅ (∅, tt)) as [r ->].
  - intros c vis w [nodes []] w' a' Hb. apply load_body_Continue in Hb as (ch & Hch & _ & ->).
    split; [by eapply HX|]. unfold read_cost. rewrite Hch. cbn [from_option].
    rewrite length_app, length_reverse. lia.
  - rewrite length_reverse, difference_empty_L. done.
  - destruct r as [[vis [nodes st]]|e]; [|eauto]. case_match; eauto.
Qed.

(** Traversals of the nodes at hand end within [1 + |start| + edges]. *)
Definition node_cost nodes (c : Hash) : nat :=
  from_option (λ change, length (causal_dependencies change)) 0%nat (nodes !! c).
Definition edges nodes : nat := cost_sum (node_cost nodes) (dom nodes).

(** ** Consuming supplied changes *)

Definition supplied_answer (supplied : list (Hash * Change)) (read : Hash → result E (option bytes))
    (c : Hash) : result (CausalFrontierError E) Change :=
  match (list_to_map supplied : Nodes) !! c with
  | Some change => Ok change
  | None => read_stored read c
  end.

Lemma take_supplied_spec (supplied : list (Hash * Change)) c :
  match take_supplied supplied c with
  | Some (change, remaining) =>
      (list_to_map supplied : Nodes) !! c = Some change ∧
      ∀ c', c' ≠ c → (list_to_map remaining : Nodes) !! c' = (list_to_map supplied : Nodes) !! c'
  | None => (list_to_map supplied : Nodes) !! c = None
  end.
Proof.
  unfold take_supplied. induction supplied as [|[k ch] l IH]; [done|]. cbn [list_find fst].
  destruct (decide (k = c)) as [->|Hne].
  - cbn. split; [by rewrite lookup_insert_eq|]. intros c' Hc'. by rewrite lookup_insert_ne.
  - destruct (list_find (λ kv, kv.1 = c) l) as [[i [k' ch']]|]; cbn in *;
      rewrite lookup_insert_ne by done; [|done].
    destruct IH as [Hc Hrest]. split; [done|]. intros c' Hc'.
    destruct (decide (c' = k)) as [->|]; [by rewrite !lookup_insert_eq|].
    rewrite !lookup_insert_ne by done. by apply Hrest.
Qed.

(** Moving supplied changes out of their vector is reading them. *)
Lemma load_supplied_pure fuel hs supplied read :
  load_causal_frontier_with_owned_supplied fuel hs supplied read =
  load_pure fuel hs (supplied_answer supplied read).
Proof.
  unfold load_causal_frontier_with_owned_supplied, load_pure, load_causal_frontier_changes.
  match goal with |- match worklist ?b1 _ _ _ ?a1 with _ => _ end =
      match worklist ?b2 _ _ _ ?a2 with _ => _ end =>
    pose proof (worklist_sim b1 b2 (λ vis (x : Nodes * list (Hash * Change)) (y : Nodes * unit), x.1 = y.1 ∧
      ∀ c, c ∉ vis → (list_to_map x.2 : Nodes) !! c = (list_to_map supplied : Nodes) !! c)
      fuel (reverse hs) ∅ a1 a2) as Hsim
  end.
  cbv beta in Hsim. unshelve epose proof (Hsim _ _) as Hr; clear Hsim.
  - intros c vis w [nodes l] [nodes' []] Hc [Hn Hl]. cbn [fst snd] in *. subst nodes'.
    unfold load_body, supplied_answer. rewrite <- (Hl c Hc).
    pose proof (take_supplied_spec l c) as Ht. destruct (take_supplied l c) as [[ch l']|].
    + destruct Ht as [-> Hl']. case_bool_decide; cbn; [done|]. split; [done|]. split; [done|].
      intros c' Hc'. rewrite Hl', Hl; [done|set_solver|set_solver].
    + rewrite Ht. destruct (read_stored read c); cbn; [|done].
      case_bool_decide; cbn; [done|]. split; [done|]. split; [done|]. intros c' Hc'. apply Hl. set_solver.
  - done.
  - destruct (worklist _ _ _ _ (∅, supplied)) as [[[v1 [n1 s1]]|e1]|],
      (worklist _ _ _ _ (∅, tt)) as [[[v2 [n2 []]]|e2]|]; cbn in Hr; try done.
    + destruct Hr as (vis & _ & -> & _). done.
    + by destruct Hr.
    + by destruct Hr.
    + by destruct Hr as [_ ->].
Qed.

(** ** Canonical heads *)

Lemma elem_of_dependencies_of nodes d : d ∈ dependencies_of nodes ↔ ∃ c, dep nodes c d.
Proof.
  unfold dependencies_of. rewrite list_elem_of_bind. split.
  - intros (ch & Hd & ([c ch'] & -> & Hin)%list_elem_of_fmap). apply elem_of_map_to_list in Hin.
    exists c, ch'. done.
  - intros (c & ch & Hc & Hd). exists ch. split; [done|]. apply list_elem_of_fmap.
    exists (c, ch). split; [done|]. by apply elem_of_map_to_list.
Qed.

Lemma elem_of_canonical_heads f h :
  h ∈ canonical_heads f ↔ h ∈ heads f ∧ ∀ c, ¬ dep (frontier_nodes f) c h.
Proof.
  unfold canonical_heads. rewrite list_elem_of_filter, elem_of_dependencies_of.
  split; [intros [Hn Hh]|intros [Hh Hn]]; split; try done.
  - intros c Hc. apply Hn. by exists c.
  - by intros [c Hc%Hn].
Qed.

(** A canonical head is a head no other head has among its ancestors. *)
Lemma canonical_heads_maximal f h :
  frontier_ok f →
  h ∈ canonical_heads f ↔
  h ∈ heads f ∧ ∀ h', h' ∈ heads f → rtc (dep (frontier_nodes f)) h' h → h' = h.
Proof.
  intros [Hok Hanc _]. rewrite elem_of_canonical_heads. split; intros [Hh Hmax]; split; try done.
  - intros h' _ Hr. apply rtc_inv_r in Hr as [->|(c & _ & Hd)]; [done|]. by apply Hmax in Hd.
  - intros c Hd. assert (is_Some (frontier_nodes f !! c)) as Hc by (destruct Hd as (ch & -> & _); done).
    apply Hanc, reach_rtc in Hc as (h' & Hh'%elem_of_list_to_set & Hr).
    assert (h' = h) as -> by (apply Hmax; [done|by eapply rtc_r]).
    pose proof (dep_height_at _ _ _ Hok Hd). destruct (rtc_height _ _ _ Hok Hr) as [<-|]; lia.
Qed.

Lemma height_at_bound nodes c : nodes_ok nodes → height_at nodes c ≤ u64_max.
Proof.
  intros [_ _ Hh]. unfold height_at. destruct (nodes !! c) as [ch|] eqn:Hc; cbn; [|unfold u64_max; lia].
  specialize (Hh c ch Hc). unfold expected_height, checked_add in Hh. case_match eqn:Hle; [|done].
  injection Hh as <-. by apply N.leb_le.
Qed.

(** Every node is at or below a canonical head. *)
Lemma canonical_heads_cover f c :
  frontier_ok f → is_Some (frontier_nodes f !! c) →
  ∃ h, h ∈ canonical_heads f ∧ rtc (dep (frontier_nodes f)) h c.
Proof.
  intros [Hok Hanc _]. set (nodes := frontier_nodes f) in *.
  assert (∀ k c, (N.to_nat (u64_max - height_at nodes c) < k)%nat → is_Some (nodes !! c) →
    ∃ h, h ∈ canonical_heads f ∧ rtc (dep nodes) h c) as Hind.
  { clear c. induction k as [|k IH]; intros c Hk Hc; [lia|].
    pose proof Hc as Hr. apply Hanc, reach_rtc in Hr as (h & Hh%elem_of_list_to_set & Hr).
    assert (is_Some (nodes !! h)) as Hsh by (apply Hanc, reach_root; by apply elem_of_list_to_set).
    destruct (decide (h ∈ canonical_heads f)) as [|Hn]; [by exists h|].
    assert (h ∈ dependencies_of nodes) as [x Hx]%elem_of_dependencies_of.
    { destruct (decide (h ∈ dependencies_of nodes)) as [|Hd]; [done|]. exfalso. apply Hn.
      unfold canonical_heads. by apply list_elem_of_filter. }
    destruct (IH x) as (h' & Hh' & Hr').
    - pose proof (dep_height_at _ _ _ Hok Hx). pose proof (height_at_bound nodes x Hok).
      destruct (rtc_height _ _ _ Hok Hr) as [->|]; lia.
    - destruct Hx as (ch & -> & _). done.
    - exists h'. split; [done|]. etrans; [done|]. eapply rtc_l; done. }
  intros Hc. eapply (Hind (S (N.to_nat (u64_max - height_at nodes c)))); [lia|done].
Qed.

(** ** Causal order *)

#[local] Instance causal_le_total : Total (causal_le (Rest := Rest)).
Proof.
  intros a b. unfold causal_le.
  destruct (N.lt_trichotomy (causal_height a.2) (causal_height b.2)) as [|[Heq|]]; auto.
  destruct (bytes_le_total a.1 b.1); auto.
Qed.

#[local] Instance causal_le_trans : Transitive (causal_le (Rest := Rest)).
Proof.
  intros a b c. unfold causal_le. intros [H1|[H1 H1']] [H2|[H2 H2']]; [left; lia..|].
  right. split; [lia|]. by eapply bytes_le_trans.
Qed.

Lemma nodes_in_causal_order_perm f : nodes_in_causal_order f ≡ₚ map_to_list (frontier_nodes f).
Proof. apply merge_sort_Permutation. Qed.

(** Every node comes after all of its dependencies. *)
Lemma causal_order_topological f i c ch d :
  nodes_ok (frontier_nodes f) → nodes_in_causal_order f !! i = Some (c, ch) →
  d ∈ causal_dependencies ch →
  ∃ j ch', (j < i)%nat ∧ nodes_in_causal_order f !! j = Some (d, ch').
Proof.
  intros Hok Hi Hd. pose proof (nodes_in_causal_order_perm f) as Hperm.
  assert (frontier_nodes f !! c = Some ch) as Hc.
  { apply elem_of_map_to_list. rewrite <- Hperm. by eapply list_elem_of_lookup_2. }
  destruct (nok_complete _ Hok c d) as [chd Hchd]; [by exists ch|].
  assert ((d, chd) ∈ nodes_in_causal_order f) as [j Hj]%list_elem_of_lookup
    by (rewrite Hperm; by apply elem_of_map_to_list).
  exists j, chd. split; [|done].
  pose proof (dep_height _ c d ch chd (nok_heights _ Hok) Hc Hchd Hd) as Hlt.
  destruct (Nat.lt_trichotomy j i) as [|[->|Hji]]; [done|simplify_eq; lia|].
  assert (StronglySorted causal_le (nodes_in_causal_order f)) as Hs
    by (apply (StronglySorted_merge_sort causal_le)).
  pose proof (StronglySorted_lookup _ _ i j (c, ch) (d, chd) Hs Hji Hi Hj) as Hle.
  unfold causal_le in Hle. cbn in Hle. lia.
Qed.

(** ** Queries by traversal *)

(** A body that pushes all dependencies of a node at hand. *)
Lemma pushes_explores {Acc R} (body : Hash → gset Hash → list Hash → Acc → flow (list Hash * Acc) R) nodes :
  (∀ c vis w a w' a', body c vis w a = Continue (w', a') →
     ∃ change, nodes !! c = Some change ∧ w' = reverse (causal_dependencies change) ++ w) →
  explores body (deps_of nodes).
Proof.
  intros Hbody c vis w a w' a' _ (ch & Hch & ->)%Hbody. eexists. unfold deps_of. rewrite Hch.
  split; [done|]. split_and!; intros x; rewrite ?elem_of_app, ?elem_of_reverse, ?elem_of_list_to_set; tauto.
Qed.

Lemma pushes_total {Acc R} (body : Hash → gset Hash → list Hash → Acc → flow (list Hash * Acc) R) nodes
    fuel work acc :
  (∀ c vis w a w' a', body c vis w a = Continue (w', a') →
     ∃ change, nodes !! c = Some change ∧ (length w' ≤ length w + length (causal_dependencies change))%nat) →
  (length work + edges nodes < fuel)%nat →
  ∃ r, worklist body fuel work ∅ acc = Some r.
Proof.
  intros Hbody Hfuel. apply (worklist_total body (node_cost nodes) (dom nodes)).
  - intros c vis w a w' a' (ch & Hch & Hlen)%Hbody. split; [by eapply elem_of_dom_2|].
    unfold node_cost. by rewrite Hch.
  - by rewrite difference_empty_L.
Qed.

Lemma ancestor_body_Continue nodes a c vis w u w' u' :
  ancestor_body nodes a c vis w u = Continue (w', u') →
  ∃ change, nodes !! c = Some change ∧ w' = reverse (causal_dependencies change) ++ w ∧
            a ∉ causal_dependencies change.
Proof.
  unfold ancestor_body. destruct (nodes !! c) as [ch|]; [|done].
  case_bool_decide as Ha; [done|]. intros [= <- <-]. by exists ch.
Qed.

Lemma contains_ancestor_spec fuel f d a :
  nodes_ok (frontier_nodes f) → is_Some (frontier_nodes f !! d) →
  (1 + edges (frontier_nodes f) < fuel)%nat →
  ∃ b, contains_ancestor fuel f d a = Some b ∧ (b = true ↔ rtc (dep (frontier_nodes f)) d a).
Proof.
  intros Hok Hd Hfuel. set (nodes := frontier_nodes f) in *. unfold contains_ancestor.
  case_bool_decide as Heq; [subst a; by exists true|].
  destruct (pushes_total (ancestor_body nodes a) nodes fuel [d] tt) as [r Hr]; [|done|].
  { intros c vis w u w' u' (ch & Hch & -> & _)%ancestor_body_Continue. exists ch.
    rewrite length_app, length_reverse. split; [done|lia]. }
  fold nodes. rewrite Hr.
  apply (worklist_explores _ (deps_of nodes) (λ vis _, ∀ c, c ∈ vis → ¬ dep nodes c a)
    (λ b, b = true ↔ rtc (dep nodes) d a)) in Hr.
  - destruct r as [[vis u]|b]; [|by exists b]. destruct Hr as (Hno & Hvis & _). exists false.
    split; [done|]. split; [done|]. intros Ha. apply rtc_inv_r in Ha as [->|(x & Hx & Hdep)]; [done|].
    destruct (Hno x); [|done]. apply Hvis, reach_rtc. exists d. split; [set_solver|done].
  - apply pushes_explores. intros c vis w u w' u' (ch & ? & ? & _)%ancestor_body_Continue. eauto.
  - intros vis c w u w' u' Hno _ _ (ch & Hch & _ & Hn)%ancestor_body_Continue x Hx.
    apply elem_of_union in Hx as [->%elem_of_singleton|Hx]; [|by apply Hno].
    intros (ch' & Hch' & Hin). simplify_eq.
  - intros vis c w u b _ _ Hrc _. apply reach_rtc in Hrc as (h & Hh & Hrc).
    assert (h = d) as -> by set_solver. unfold ancestor_body.
    destruct (nodes !! c) as [ch|] eqn:Hch.
    + case_bool_decide as Ha; [|done]. intros [= <-]. split; [|done]. intros _.
      eapply rtc_r; [done|]. by exists ch.
    + exfalso. destruct (rtc_present nodes d c (nok_complete _ Hok) Hd Hrc). congruence.
  - set_solver.
Qed.

(** ** The ancestry of a snapshot *)

Lemma at_heads_body_Continue nodes c vis w acc w' acc' :
  at_heads_body nodes c vis w acc = Continue (w', acc') →
  ∃ change, nodes !! c = Some change ∧ w' = reverse (causal_dependencies change) ++ w ∧
            acc' = <[c := change]> acc.
Proof.
  unfold at_heads_body. destruct (nodes !! c) as [ch|]; [|done]. intros [= <- <-]. by exists ch.
Qed.

(** Nodes that are closed under dependencies keep their heights. *)
Lemma restrict_ok nodes nodes' :
  nodes_ok nodes → nodes' ⊆ nodes → (∀ c d, is_Some (nodes' !! c) → dep nodes c d → is_Some (nodes' !! d)) →
  nodes_ok nodes'.
Proof.
  intros [Hcid Hcomp Hh] Hsub Hcl. constructor.
  - intros c ch Hc. eapply Hcid, lookup_weaken; done.
  - intros c d (ch & Hc & Hd). eapply Hcl; [by eexists|]. exists ch. split; [by eapply lookup_weaken|done].
  - intros c ch Hc. rewrite <- (Hh c ch) by by eapply lookup_weaken. unfold expected_height.
    rewrite (heights_of_ext nodes' nodes); [done|]. intros d Hd.
    destruct (Hcl c d) as [chd Hchd]; [by eexists|exists ch; split; [by eapply lookup_weaken|done]|].
    rewrite Hchd. symmetry. by eapply lookup_weaken.
Qed.

Lemma at_heads_spec fuel f hs :
  nodes_ok (frontier_nodes f) → (length hs + edges (frontier_nodes f) < fuel)%nat →
  (∀ h, h ∈ hs → is_Some (frontier_nodes f !! h)) →
  ∃ f', at_heads fuel f hs = Some (Some f') ∧ heads f' = hs ∧ frontier_ok f' ∧
        frontier_nodes f' ⊆ frontier_nodes f.
Proof.
  intros Hok Hfuel Hhs. set (nodes := frontier_nodes f) in *. unfold at_heads. fold nodes.
  destruct (pushes_total (at_heads_body nodes) nodes fuel (reverse hs) ∅) as [r Hr].
  { intros c vis w u w' u' (ch & Hch & -> & _)%at_heads_body_Continue. exists ch.
    rewrite length_app, length_reverse. split; [done|lia]. }
  { by rewrite length_reverse. }
  rewrite Hr.
  apply (worklist_explores _ (deps_of nodes) (λ vis acc, dom acc = vis ∧ acc ⊆ nodes) (λ _, False)) in Hr;
    rewrite ?list_to_set_reverse in *.
  - destruct r as [[vis nodes']|[]]; [|done]. destruct Hr as ([<- Hsub] & Hvis & _).
    eexists. split; [done|]. split; [done|]. split; [|done].
    assert (∀ c d, is_Some (nodes' !! c) → dep nodes c d → is_Some (nodes' !! d)) as Hcl.
    { intros c d Hc Hd. apply elem_of_dom, Hvis. eapply reach_dep; [|done]. by apply Hvis, elem_of_dom. }
    assert (∀ c, is_Some (nodes' !! c) → deps_of nodes' c = deps_of nodes c) as Hdeps.
    { intros c [ch Hc]. unfold deps_of. rewrite Hc. symmetry. by erewrite lookup_weaken. }
    constructor; cbn [frontier_nodes heads max_head_height]; [by eapply restrict_ok| |done].
    intros c. rewrite <- elem_of_dom, Hvis. split; intros Hr.
    + induction Hr as [c Hc|c kids x Hr IH He Hx]; [by apply reach_root|].
      eapply reach_next; [done| |done]. rewrite Hdeps; [done|]. by apply elem_of_dom, Hvis.
    + induction Hr as [c Hc|c kids x Hr IH He Hx]; [by apply reach_root|].
      eapply reach_next; [done| |done]. rewrite <- Hdeps; [done|]. by apply elem_of_dom, Hvis.
  - apply pushes_explores. intros c vis w u w' u' (ch & ? & ? & _)%at_heads_body_Continue. eauto.
  - intros vis c w acc w' acc' [<- Hsub] _ _ (ch & Hch & _ & ->)%at_heads_body_Continue.
    split; [by rewrite dom_insert_L|]. by apply insert_subseteq_l.
  - intros vis c w acc x _ _ Hrc _. apply reach_rtc in Hrc as (h & Hh%elem_of_list_to_set & Hrc).
    unfold at_heads_body. destruct (nodes !! c) eqn:Hc; [done|]. intros _.
    destruct (rtc_present nodes h c (nok_complete _ Hok) (Hhs h Hh) Hrc). congruence.
  - split; [set_solver|apply map_empty_subseteq].
Qed.

(** ** Extending a frontier *)

Lemma mapM_heights nodes ds hs :
  mapM (λ d, causal_height <$> nodes !! d) ds = Some hs →
  hs = heights_of nodes ds ∧ ∀ d, d ∈ ds → is_Some (nodes !! d).
Proof.
  unfold heights_of. revert hs. induction ds as [|d ds IH]; intros hs.
  - intros [= <-]. split; [done|]. by intros d ?%elem_of_nil.
  - cbn [mapM]. destruct (nodes !! d) as [ch|] eqn:Hd; [|done]. cbn [fmap option_fmap option_map mbind option_bind].
    destruct (mapM _ ds) as [l|] eqn:Hm; [|done]. intros [= <-]. destruct (IH l eq_refl) as [-> Hall].
    split; [cbn [omap list_omap]; by rewrite Hd|]. intros d' [->|Hin]%elem_of_cons; [by eexists|by apply Hall].
Qed.

(** A new node over nodes at hand, with the height they give it. *)
Lemma insert_nodes_ok nodes change :
  let c := change_cid change in
  nodes_ok nodes → (∀ d, d ∈ causal_dependencies change → is_Some (nodes !! d)) →
  expected_height nodes change = Some (causal_height change) →
  conflicts (nodes !! c) change = false →
  nodes_ok (<[c := change]> nodes).
Proof.
  intros c Hok Hds Hexp Hconf. destruct (nodes !! c) as [old|] eqn:Hc.
  { cbn in Hconf. apply bool_decide_eq_false in Hconf. apply dec_stable in Hconf as ->.
    by rewrite insert_id. }
  pose proof Hok as [Hcid Hcomp Hh].
  assert (∀ x ch d, nodes !! x = Some ch → d ∈ causal_dependencies ch → d ≠ c) as Hfresh.
  { intros x ch d Hx Hd ->. destruct (Hcomp x c) as [? ?]; [by exists ch|congruence]. }
  assert (∀ d, d ∈ causal_dependencies change → d ≠ c) as Hfresh'.
  { intros d Hd ->. destruct (Hds c Hd). congruence. }
  assert (∀ ds, (∀ d, d ∈ ds → d ≠ c) → heights_of (<[c := change]> nodes) ds = heights_of nodes ds) as Hext.
  { intros ds Hd. apply heights_of_ext. intros d Hin. rewrite lookup_insert_ne; [done|]. intros <-. by apply (Hd c). }
  constructor.
  - intros x ch. rewrite lookup_insert_Some. intros [[<- <-]|[_ Hx]]; [done|by apply Hcid].
  - intros x d (ch & Hx & Hd). rewrite lookup_insert_is_Some'. right.
    apply lookup_insert_Some in Hx as [[<- <-]|[_ Hx]]; [by apply Hds|]. eapply Hcomp. by exists ch.
  - intros x ch. rewrite lookup_insert_Some. unfold expected_height.
    intros [[<- <-]|[_ Hx]].
    + by rewrite Hext.
    + rewrite Hext by (intros d; by apply (Hfresh x)). by apply (Hh x).
Qed.

Lemma with_change_nodes f current change f' :
  let c := change_cid change in
  with_change f current c change = Some f' →
  (∀ d, d ∈ causal_dependencies change → is_Some (frontier_nodes f !! d)) ∧
  expected_height (frontier_nodes f) change = Some (causal_height change) ∧
  conflicts (frontier_nodes f !! c) change = false ∧
  frontier_nodes f' = <[c := change]> (frontier_nodes f) ∧
  heads f' = canonical_heads (mkFrontier (sort_dedup bytes_le (current ++ [c])) (frontier_nodes f') (max_head_height f)) ∧
  max_head_height f' = max_height (heights_of (frontier_nodes f') (heads f')).
Proof.
  intros c. unfold with_change. destruct (mapM _ _) as [parents|] eqn:Hm; [|done]. cbn [mbind option_bind].
  apply mapM_heights in Hm as [-> Hds]. unfold expected_height.
  destruct (checked_add _ 1) as [expected|] eqn:Hadd; [|done]. cbn [mbind option_bind].
  case_bool_decide as Hexp; [done|]. subst expected.
  destruct (conflicts (frontier_nodes f !! c) change) eqn:Hconf; [done|]. intros [= <-]. done.
Qed.

(** Keeping only the canonical heads keeps the frontier. *)
Lemma canonical_frontier_ok f m :
  frontier_ok f → m = max_height (heights_of (frontier_nodes f) (canonical_heads f)) →
  frontier_ok (mkFrontier (canonical_heads f) (frontier_nodes f) m).
Proof.
  intros Hf ->. constructor; cbn [frontier_nodes heads max_head_height]; [apply Hf| |done].
  intros c. rewrite reach_rtc. split.
  - intros (h & Hh & Hr)%canonical_heads_cover; [|done]. exists h. by rewrite elem_of_list_to_set.
  - intros (h & Hh%elem_of_list_to_set & Hr). apply elem_of_canonical_heads in Hh as [Hh _].
    apply (fok_ancestry f Hf), reach_rtc. exists h. by rewrite elem_of_list_to_set.
Qed.

Lemma dep_insert nodes c change x d :
  conflicts (nodes !! c) change = false → dep nodes x d → dep (<[c := change]> nodes) x d.
Proof.
  intros Hconf (ch & Hx & Hd). exists ch. split; [|done]. destruct (decide (x = c)) as [->|Hne].
  - rewrite lookup_insert_eq, <- Hx. rewrite Hx in Hconf |- *. cbn in Hconf.
    apply bool_decide_eq_false, dec_stable in Hconf as ->. done.
  - by rewrite lookup_insert_ne.
Qed.

Lemma with_change_spec f current change f' :
  frontier_ok f → (∀ h, h ∈ current → is_Some (frontier_nodes f !! h)) →
  (∀ h, h ∈ heads f → h ∈ current ∨ h ∈ causal_dependencies change) →
  with_change f current (change_cid change) change = Some f' →
  frontier_ok f' ∧ frontier_nodes f' = <[change_cid change := change]> (frontier_nodes f) ∧
  (∀ h, h ∈ heads f' ↔ (h ∈ current ∨ h = change_cid change) ∧ ∀ x, ¬ dep (frontier_nodes f') x h).
Proof.
  intros Hf Hcur Hheads Hw. apply with_change_nodes in Hw as (Hds & Hexp & Hconf & Hn & Hh & Hm).
  set (c := change_cid change) in *.
  assert (nodes_ok (frontier_nodes f')) as Hok
    by (rewrite Hn; apply insert_nodes_ok; [apply Hf|done..]).
  set (f0 := mkFrontier (sort_dedup bytes_le (current ++ [c])) (frontier_nodes f')
    (max_height (heights_of (frontier_nodes f') (sort_dedup bytes_le (current ++ [c]))))).
  assert (∀ h, h ∈ heads f0 ↔ h ∈ current ∨ h = c) as Hh0
    by (intros h; cbn; rewrite elem_of_sort_dedup, elem_of_app, list_elem_of_singleton; done).
  assert (∀ x, x ∈ dom (frontier_nodes f') ↔ x = c ∨ is_Some (frontier_nodes f !! x)) as Hdom
    by (intros x; rewrite Hn, dom_insert_L, elem_of_union, elem_of_singleton, elem_of_dom; done).
  assert (frontier_ok f0) as Hf0.
  { constructor; [done| |done]. intros x. rewrite <- elem_of_dom, reach_rtc.
    change (frontier_nodes f0) with (frontier_nodes f'). rewrite Hdom. split.
    - intros [->|Hx]; [exists c; rewrite elem_of_list_to_set, Hh0; split; [by right|done]|].
      apply (fok_ancestry f Hf), reach_rtc in Hx as (h & Hhd%elem_of_list_to_set & Hr).
      apply (rtc_subrel _ (dep (frontier_nodes f'))) in Hr;
        [|intros a b Hd; rewrite Hn; by apply dep_insert].
      destruct (Hheads h Hhd) as [Hin|Hin].
      + exists h. rewrite elem_of_list_to_set, Hh0. split; [by left|done].
      + exists c. rewrite elem_of_list_to_set, Hh0. split; [by right|]. eapply rtc_l; [|done].
        exists change. split; [rewrite Hn; apply lookup_insert_eq|done].
    - intros (h & Hhd%elem_of_list_to_set & Hr). rewrite Hh0 in Hhd.
      rewrite <- Hdom, elem_of_dom. eapply rtc_present; [apply Hok| |done].
      apply elem_of_dom, Hdom. destruct Hhd as [?%Hcur| ->]; auto. }
  assert (heads f' = canonical_heads f0) as Hh' by done.
  split_and!; [|done|].
  - destruct f' as [hs ns m]. cbn [heads frontier_nodes max_head_height] in *. subst hs m.
    exact (canonical_frontier_ok f0 _ Hf0 eq_refl).
  - intros h. rewrite Hh', elem_of_canonical_heads, Hh0. done.
Qed.

(** ** The nearest materializations *)

(** What a node contributes to an actor's states: its materialization, or the
    initial state at the start of history. *)
Definition contribution nodes (actor : ActorId) (initial : BlobRefV2) (c : Hash) : option BlobRefV2 :=
  change ← nodes !! c;
  match actor_materialization actor change with
  | Some state => Some state
  | None => if bool_decide (causal_dependencies change = []) then Some initial else None
  end.

(** The search goes on below the nodes that contribute nothing. *)
Definition open_deps nodes (actor : ActorId) (initial : BlobRefV2) (c : Hash) : option (gset Hash) :=
  change ← nodes !! c;
  match contribution nodes actor initial c with
  | Some _ => Some ∅
  | None => Some (list_to_set (causal_dependencies change))
  end.

Lemma select_body_cases nodes actor initial c vis w frontier w' frontier' :
  select_body nodes actor initial c vis w frontier = Continue (w', frontier') →
  ∃ change, nodes !! c = Some change ∧
    match contribution nodes actor initial c with
    | Some s => w' = w ∧ frontier' = <[blob_hash s := s]> frontier
    | None => w' = reverse (causal_dependencies change) ++ w ∧ frontier' = frontier
    end.
Proof.
  unfold select_body, contribution. destruct (nodes !! c) as [ch|]; [|done]. cbn [mbind option_bind].
  intros Hb. exists ch. split; [done|]. destruct (actor_materialization actor ch) as [s|].
  - destruct (conflicts _ _); [done|]. by injection Hb as <- <-.
  - case_bool_decide; by injection Hb as <- <-.
Qed.

Lemma select_body_explores nodes actor initial :
  explores (select_body nodes actor initial) (open_deps nodes actor initial).
Proof.
  intros c vis w fr w' fr' _ (ch & Hch & Hb)%select_body_cases. unfold open_deps. rewrite Hch.
  cbn [mbind option_bind]. destruct (contribution nodes actor initial c) as [s|];
    destruct Hb as [-> ->]; eexists; (split; [done|]);
    split_and!; intros x; rewrite ?elem_of_app, ?elem_of_reverse, ?elem_of_list_to_set; set_solver.
Qed.

Lemma open_reach nodes actor initial R0 c :
  reach (open_deps nodes actor initial) R0 c → reach (deps_of nodes) R0 c.
Proof.
  induction 1 as [c Hc|c kids x _ IH He Hx]; [by apply reach_root|].
  unfold open_deps in He. destruct (nodes !! c) as [ch|] eqn:Hch; [|done]. cbn in He.
  destruct (contribution nodes actor initial c); injection He as <-; [set_solver|].
  eapply reach_dep; [done|]. exists ch. split; [done|]. by apply elem_of_list_to_set in Hx.
Qed.

(** Below every node reached, some node contributes. *)
Lemma open_reach_contributes f actor initial c :
  frontier_ok f →
  reach (open_deps (frontier_nodes f) actor initial) (list_to_set (heads f)) c →
  ∃ c' s, reach (open_deps (frontier_nodes f) actor initial) (list_to_set (heads f)) c' ∧
          contribution (frontier_nodes f) actor initial c' = Some s.
Proof.
  intros [Hok Hanc _]. set (nodes := frontier_nodes f) in *.
  remember (N.to_nat (height_at nodes c)) as n eqn:Hn. revert c Hn.
  induction n as [n IH] using lt_wf_ind. intros c -> Hr.
  destruct (contribution nodes actor initial c) as [s|] eqn:Hcon; [by exists c, s|].
  assert (is_Some (nodes !! c)) as [ch Hch] by by eapply Hanc, open_reach.
  assert (∃ d, d ∈ causal_dependencies ch) as [d Hd].
  { unfold contribution in Hcon. rewrite Hch in Hcon. cbn in Hcon.
    destruct (actor_materialization actor ch); [done|]. case_bool_decide as Hnil; [done|].
    destruct (causal_dependencies ch) as [|d l]; [done|]. exists d. left. }
  assert (dep nodes c d) as Hdep by by exists ch.
  pose proof (dep_height_at nodes c d Hok Hdep) as Hlt.
  eapply (IH (N.to_nat (height_at nodes d))); [lia|done|].
  eapply reach_next; [done| |by apply elem_of_list_to_set]. unfold open_deps. rewrite Hch. cbn.
  by rewrite Hcon.
Qed.

Lemma elem_of_map_values (m : gmap Hash BlobRefV2) s : s ∈ map_values m ↔ ∃ h, m !! h = Some s.
Proof.
  unfold map_values. rewrite list_elem_of_omap. split; [intros (h & _ & Hh); eauto|].
  intros (h & Hh). exists h. split; [|done]. apply elem_of_sorted_keys. by eexists.
Qed.

(** The states selected: contributions of the nodes the open search reaches. *)
Definition selected f (actor : ActorId) (initial s : BlobRefV2) : Prop :=
  ∃ c, reach (open_deps (frontier_nodes f) actor initial) (list_to_set (heads f)) c ∧
       contribution (frontier_nodes f) actor initial c = Some s.

Lemma actor_materializations_spec fuel f actor initial :
  frontier_ok f → heads f ≠ [] → (length (heads f) + edges (frontier_nodes f) < fuel)%nat →
  (∀ s1 s2, selected f actor initial s1 → selected f actor initial s2 →
     blob_hash s1 = blob_hash s2 → s1 = s2) →
  ∃ states, actor_materializations fuel f actor initial = Some (Ok states) ∧
            ∀ s, s ∈ states ↔ selected f actor initial s.
Proof.
  intros Hf Hne Hfuel Hcons. pose proof Hf as [Hok Hanc _]. unfold actor_materializations.
  rewrite bool_decide_false by done. unfold selected in *. set (nodes := frontier_nodes f) in *.
  destruct (pushes_total (select_body nodes actor initial) nodes fuel (reverse (heads f)) ∅) as [r Hr].
  { intros c vis w fr w' fr' (ch & Hch & Hb)%select_body_cases. exists ch. split; [done|].
    destruct (contribution nodes actor initial c); destruct Hb as [-> _];
      rewrite ?length_app, ?length_reverse; lia. }
  { by rewrite length_reverse. }
  rewrite Hr. apply (worklist_explores _ (open_deps nodes actor initial)
    (λ vis fr, (∀ c, c ∈ vis → reach (open_deps nodes actor initial) (list_to_set (heads f)) c) ∧
       ∀ h s, fr !! h = Some s ↔ ∃ c, c ∈ vis ∧ contribution nodes actor initial c = Some s ∧ blob_hash s = h)
    (λ _, False)) in Hr; rewrite ?list_to_set_reverse in *; [|apply select_body_explores|..].
  - destruct r as [[vis fr]|[]]; [|done]. destruct Hr as ([_ Hfr] & Hvis & _).
    assert (∀ s, s ∈ map_values fr ↔ ∃ c, reach (open_deps nodes actor initial) (list_to_set (heads f)) c ∧
      contribution nodes actor initial c = Some s) as Hval.
    { intros s. rewrite elem_of_map_values. setoid_rewrite Hfr. setoid_rewrite Hvis. naive_solver. }
    rewrite bool_decide_false; [eexists; done|]. intros ->.
    destruct (heads f) as [|h hs] eqn:Hh; [done|]. rewrite <- Hh in *.
    destruct (open_reach_contributes f actor initial h Hf) as (c' & s & Hc' & Hs).
    { apply reach_root, elem_of_list_to_set. rewrite Hh. left. }
    assert (∃ h', (∅ : gmap Hash BlobRefV2) !! h' = Some s) as [h' Hh']
      by (apply elem_of_map_values, Hval; eauto).
    by rewrite lookup_empty in Hh'.
  - intros vis c w fr w' fr' [Hv Hfr] Hrc _ (ch & Hch & Hb)%select_body_cases. split; [set_solver|].
    destruct (contribution nodes actor initial c) as [s0|] eqn:Hcon; destruct Hb as [_ ->].
    + intros h s. rewrite lookup_insert_Some. split.
      * intros [[<- <-]|[_ (c' & Hc' & ?)%Hfr]]; [exists c; set_solver|]. exists c'. set_solver.
      * intros (c' & Hc' & Hs & <-). destruct (decide (blob_hash s0 = blob_hash s)) as [Heq|Hneq].
        -- left. split; [done|]. apply Hcons; [by exists c| |done]. exists c'. split; [|done].
           apply elem_of_union in Hc' as [->%elem_of_singleton|]; auto.
        -- right. split; [done|]. apply Hfr. exists c'. split; [|done].
           apply elem_of_union in Hc' as [->%elem_of_singleton|]; [simplify_eq|done].
    + intros h s. rewrite Hfr. split; intros (c' & Hc' & Hs & Hh'); exists c'; (split; [|done]).
      * set_solver.
      * apply elem_of_union in Hc' as [->%elem_of_singleton|]; [congruence|done].
  - intros vis c w fr e [Hv Hfr] _ Hrc _ Hb. unfold select_body in Hb.
    assert (is_Some (nodes !! c)) as [ch Hch] by by eapply Hanc, open_reach.
    rewrite Hch in Hb. destruct (actor_materialization actor ch) as [s|] eqn:Hm; [|by case_bool_decide].
    destruct (conflicts _ _) eqn:Hconf; [|done]. unfold conflicts in Hconf.
    destruct (fr !! blob_hash s) as [s'|] eqn:Hs'; [|done]. apply bool_decide_eq_true in Hconf.
    apply Hfr in Hs' as (c' & Hc' & Hs' & Hhash). apply Hconf, Hcons; [by exists c'; auto| |done].
    exists c. split; [done|]. unfold contribution. rewrite Hch. cbn. by rewrite Hm.
  - split; [set_solver|]. intros h s. rewrite lookup_empty. set_solver.
Qed.
End Frontier.
