(* ===== verification/CausalTheorems.v ===== *)
(** * vos v2: properties of causal frontiers

    The theorems of CausalProps.v as the callers of [causal.rs] use them, with
    witnesses over a two-change history: a wire for changes without payload, a
    root change and a second one above it. *)

From Stdlib.Strings Require Byte.
From stdpp Require Import strings.
From S2P Require Import Prelude Worklist Bytes Blake2b V2Wire V2Identity Causal CausalProps.

Local Open Scope N_scope.

(** ** Sample history *)

Definition enc_materialization (m : CrdtMaterializationV2) : bytes :=
  enc_fixed (mat_actor m) ++ enc_fixed (blob_hash (mat_state m)) ++ enc_u64 (blob_len (mat_state m)).

Definition dec_materialization : decoder CrdtMaterializationV2 :=
  actor ← dec_fixed; hash ← dec_fixed; len ← dec_u64;
  mret (mkMaterialization actor (mkBlobRef hash len)).

(** A wire for changes without operations, workflow, reply or blobs. *)
#[local] Instance bare_wire : V2Wire (CrdtChangeV2 unit) := {|
  MAGIC := b# "BARE";
  encode_body c :=
    enc_fixed (change_id c) ++ enc_fixed (work_hash c) ++ enc_list enc_fixed (causal_dependencies c)
    ++ enc_u64 (causal_height c) ++ enc_list enc_materialization (materializations c);
  decode_body :=
    id ← dec_fixed; work ← dec_fixed; deps ← dec_list dec_fixed; height ← dec_u64;
    mats ← dec_list dec_materialization;
    mret (mkChange id work deps height mats tt);
|}.

Definition sample_actor : ActorId := zeros 32.
Definition sample_initial : BlobRefV2 := mkBlobRef (zeros 32) 0.
Definition root_change : CrdtChangeV2 unit := mkChange (zeros 32) (zeros 32) [] 1 [] tt.
Definition root_cid : Hash := change_cid root_change.
Definition next_change : CrdtChangeV2 unit := mkChange (zeros 32) (zeros 32) [root_cid] 2 [] tt.
Definition next_cid : Hash := change_cid next_change.

Definition sample_store : gmap Hash bytes :=
  {[ root_cid := encode root_change; next_cid := encode next_change ]}.
Definition sample_read (c : Hash) : result unit (option bytes) := Ok (sample_store !! c).

(** Whatever a read of a map returns was stored in it. *)
Lemma read_stored_dom (rows : gmap Hash bytes) c (change : CrdtChangeV2 unit) :
  read_stored (λ k, Ok (rows !! k) : result unit (option bytes)) c = Ok change → c ∈ (dom rows : gset Hash).
Proof.
  unfold read_stored. destruct (rows !! c) eqn:Hc; [|done].
  intros _. by eapply elem_of_dom_2.
Qed.

Definition sample_frontier : CausalFrontierV2 unit :=
  mkFrontier [next_cid] {[ root_cid := root_change; next_cid := next_change ]} 2.

Lemma sample_load : load_causal_frontier 9 [next_cid] sample_read = Some (Ok sample_frontier).
Proof. vm_compute. reflexivity. Qed.

Lemma sample_frontier_ok : frontier_ok sample_frontier.
Proof.
  pose proof sample_load as Hl. rewrite load_stored_pure in Hl. apply load_pure_spec in Hl as (_ & Hf & _).
  exact Hf.
Qed.

(** ** Properties *)

Section Properties.
Context {Rest E : Type} `{EqDecision Rest} `{!V2Wire (CrdtChangeV2 Rest)}.
Implicit Types (f : CausalFrontierV2 Rest).

(** C30: loading a frontier ends, with fuel for one visit of every head and of
    every dependency stored, and returns either the complete ancestry of the
    heads, every node of it read from the store, stored under its own
    identifier, with all its dependencies and the height they give it, or an
    error that the store or a node below the heads really has. *)
Theorem load_causal_frontier_correct fuel hs (read : Hash → result E (option bytes)) (X : gset Hash) :
  (∀ c (change : CrdtChangeV2 Rest), read_stored read c = Ok change → c ∈ X) →
  (length hs + cost_sum (read_cost (E := E) (read_stored read)) X < fuel)%nat →
  ∃ res, load_causal_frontier fuel hs read = Some res ∧
    match res with
    | Ok f => heads f = hs ∧ frontier_ok f ∧
              ∀ c change, frontier_nodes f !! c = Some change → read_stored read c = Ok change
    | Err e => load_error (read_stored read) hs e
    end.
Proof.
  intros HX Hfuel. destruct (load_pure_total fuel hs (read_stored read) X) as [res Hres]; [|done|].
  { intros c change [Hc _]%valid_read_Some. by eapply HX. }
  exists res. split; [done|]. by apply (load_pure_spec fuel).
Qed.

(** consuming changes that arrive with a synchronisation envelope, each moved
    out of the vector as it is visited, gives the frontier that reading all of
    them would give. *)
Theorem load_supplied_is_load fuel hs supplied (read : Hash → result E (option bytes)) :
  load_causal_frontier_with_owned_supplied fuel hs supplied read =
  load_causal_frontier_changes fuel hs
    (λ (_ : unit) c, (supplied_answer (Rest := Rest) supplied read c, tt)) tt.
Proof. apply load_supplied_pure. Qed.

(** the canonical heads are exactly the heads that are no ancestor of another
    head, and every node of the frontier is at or below one of them: dropping
    the others loses no history and no concurrent branch. *)
Theorem canonical_heads_correct f :
  frontier_ok f →
  (∀ h, h ∈ canonical_heads f ↔ h ∈ heads f ∧
     ∀ h', h' ∈ heads f → rtc (dep (frontier_nodes f)) h' h → h' = h) ∧
  (∀ c, is_Some (frontier_nodes f !! c) →
     ∃ h, h ∈ canonical_heads f ∧ rtc (dep (frontier_nodes f)) h c).
Proof.
  intros Hf. split; intros; [by apply canonical_heads_maximal|by apply canonical_heads_cover].
Qed.

(** the causal order lists every node once and each after all of its
    dependencies. *)
Theorem causal_order_correct f :
  frontier_ok f →
  nodes_in_causal_order f ≡ₚ map_to_list (frontier_nodes f) ∧
  ∀ i c change d, nodes_in_causal_order f !! i = Some (c, change) → d ∈ causal_dependencies change →
    ∃ j change', (j < i)%nat ∧ nodes_in_causal_order f !! j = Some (d, change').
Proof.
  intros Hf. split; [apply nodes_in_causal_order_perm|].
  intros i c change d. apply causal_order_topological, Hf.
Qed.

(** the ancestry test of a validated frontier decides reachability along
    dependencies, and restricting the frontier to heads it contains gives their
    validated frontier, in fuel for the edges at hand. *)
Theorem ancestry_queries_correct fuel f :
  frontier_ok f → (1 + edges (frontier_nodes f) < fuel)%nat →
  (∀ d a, is_Some (frontier_nodes f !! d) →
     ∃ b, contains_ancestor fuel f d a = Some b ∧ (b = true ↔ rtc (dep (frontier_nodes f)) d a)) ∧
  (∀ h, is_Some (frontier_nodes f !! h) →
     ∃ f', at_heads fuel f [h] = Some (Some f') ∧ heads f' = [h] ∧ frontier_ok f' ∧
           frontier_nodes f' ⊆ frontier_nodes f).
Proof.
  intros Hf Hfuel. split.
  - intros d a Hd. by apply contains_ancestor_spec; [apply Hf|..].
  - intros h Hh. apply at_heads_spec; [apply Hf|done|]. intros h' ->%list_elem_of_singleton. done.
Qed.

(** staging an accepted change over a frontier that covers the current heads
    and the change's dependencies yields a validated frontier with the change in
    it, whose heads are the current heads and the change, less those that some
    node depends on. *)
Theorem with_change_correct f current change f' :
  frontier_ok f → (∀ h, h ∈ current → is_Some (frontier_nodes f !! h)) →
  (∀ h, h ∈ heads f → h ∈ current ∨ h ∈ causal_dependencies change) →
  with_change f current (change_cid change) change = Some f' →
  frontier_ok f' ∧ frontier_nodes f' = <[change_cid change := change]> (frontier_nodes f) ∧
  (∀ h, h ∈ heads f' ↔ (h ∈ current ∨ h = change_cid change) ∧ ∀ x, ¬ dep (frontier_nodes f') x h).
Proof. apply with_change_spec. Qed.

(** the states selected for an actor are those of the nearest materialization
    on every branch, the initial state where a branch has none: exactly the
    contributions of the nodes reached from the heads through nodes that
    contribute nothing.  Content references with the same hash are assumed to be
    the same reference. *)
Theorem actor_materializations_correct fuel f actor initial :
  frontier_ok f → heads f ≠ [] → (length (heads f) + edges (frontier_nodes f) < fuel)%nat →
  (∀ s1 s2, selected f actor initial s1 → selected f actor initial s2 →
     blob_hash s1 = blob_hash s2 → s1 = s2) →
  ∃ states, actor_materializations fuel f actor initial = Some (Ok states) ∧
            ∀ s, s ∈ states ↔ selected f actor initial s.
Proof. apply actor_materializations_spec. Qed.
End Properties.

(** ** Witnesses *)

Lemma load_causal_frontier_correct_witness :
  ∃ res, load_causal_frontier 9 [next_cid] sample_read = Some res ∧
    match res with
    | Ok f => heads f = [next_cid] ∧ frontier_ok f ∧
              ∀ c change, frontier_nodes f !! c = Some change → read_stored sample_read c = Ok change
    | Err e => load_error (read_stored sample_read) [next_cid] e
    end.
Proof.
  apply (load_causal_frontier_correct 9 [next_cid] sample_read (dom sample_store)).
  - exact (read_stored_dom sample_store).
  - apply (bool_decide_eq_true_1 _). vm_compute. reflexivity.
Defined.

Lemma canonical_heads_correct_witness :
  ∃ h, h ∈ canonical_heads sample_frontier ∧ rtc (dep (frontier_nodes sample_frontier)) h root_cid.
Proof.
  apply (proj2 (canonical_heads_correct sample_frontier sample_frontier_ok)).
  exists root_change. vm_compute. reflexivity.
Defined.

Lemma causal_order_correct_witness :
  ∃ j change', (j < 1)%nat ∧ nodes_in_causal_order sample_frontier !! j = Some (root_cid, change').
Proof.
  apply (proj2 (causal_order_correct sample_frontier sample_frontier_ok) 1%nat next_cid next_change).
  - vm_compute. reflexivity.
  - left.
Defined.

Lemma ancestry_queries_correct_witness :
  ∃ b, contains_ancestor 9 sample_frontier next_cid root_cid = Some b ∧
       (b = true ↔ rtc (dep (frontier_nodes sample_frontier)) next_cid root_cid).
Proof.
  assert (1 + edges (frontier_nodes sample_frontier) < 9)%nat as Hfuel
    by (apply (bool_decide_eq_true_1 _); vm_compute; reflexivity).
  apply (proj1 (ancestry_queries_correct 9 sample_frontier sample_frontier_ok Hfuel)).
  exists next_change. vm_compute. reflexivity.
Defined.

Lemma sample_selected s : selected sample_frontier sample_actor sample_initial s → s = sample_initial.
Proof.
  intros (c & _ & Hc). unfold contribution in Hc. cbn [frontier_nodes sample_frontier] in Hc.
  destruct (({[root_cid := root_change; next_cid := next_change]} : gmap _ _) !! c) as [ch|] eqn:Hch; [|done].
  assert (materializations ch = []) as Hm.
  { apply lookup_insert_Some in Hch as [[_ <-]|[_ Hch]]; [done|].
    by apply lookup_singleton_Some in Hch as [_ <-]. }
  unfold actor_materialization in Hc. cbn [mbind option_bind] in Hc. rewrite Hm in Hc. cbn in Hc.
  case_bool_decide; [by injection Hc as <-|done].
Qed.

Lemma actor_materializations_correct_witness :
  ∃ states, actor_materializations 9 sample_frontier sample_actor sample_initial = Some (Ok states) ∧
            ∀ s, s ∈ states ↔ selected sample_frontier sample_actor sample_initial s.
Proof.
  apply actor_materializations_correct.
  - exact sample_frontier_ok.
  - discriminate.
  - apply (bool_decide_eq_true_1 _). vm_compute. reflexivity.
  - intros s1 s2 H1%sample_selected H2%sample_selected _. congruence.
Defined.

Definition empty_frontier : CausalFrontierV2 unit := mkFrontier [] ∅ 0.

Lemma empty_frontier_ok : frontier_ok empty_frontier.
Proof.
  assert (load_causal_frontier 1 [] sample_read = Some (Ok empty_frontier)) as Hl by (vm_compute; reflexivity).
  rewrite load_stored_pure in Hl. apply load_pure_spec in Hl as (_ & Hf & _). exact Hf.
Qed.

Lemma with_change_correct_witness :
  ∃ f', with_change empty_frontier [] root_cid root_change = Some f' ∧ frontier_ok f'.
Proof.
  eexists. split; [vm_compute; reflexivity|].
  apply (with_change_correct empty_frontier [] root_change _ empty_frontier_ok).
  - intros h Hh. by apply elem_of_nil in Hh.
  - intros h Hh. by apply elem_of_nil in Hh.
  - vm_compute. reflexivity.
Defined.
