(* ===== verification/Smt.v ===== *)
(** * vos: sparse Merkle state commitments

    [vos/src/zk/state.rs]: a fixed-depth binary tree with a leaf for every key of
    [width] bytes, the multiproof over the keys a transition touches
    ([BatchProof]), and the view of a committed map that a task verifies from its
    witness ([WitnessedLedger]).

    A hash [[u8; 32]] is its bytes; [blake2b_hash::<32>] is [digest].  Recursive
    functions of the source split a slice at the bit of their level; here they are
    structural in [depth_from_leaf], which the source computes as
    [p.depth() - level].  [None] is a panic. *)

From Stdlib.Strings Require Byte.
From stdpp Require Import strings.
From S2P Require Import Prelude Bytes Slices Blake2b V2Wire V2Identity.

Local Open Scope N_scope.

Definition EMPTY_LEAF : Hash := zeros 32.
Definition VOS_LEAF_DOMAIN : bytes := b# "vos/smt/leaf/v1".
Definition VOS_NODE_DOMAIN : bytes := b# "vos/smt/node/v1".

Record SmtParams := mkParams {
  leaf_domain : bytes;
  node_domain : bytes;
  width : nat;
}.

Definition vos (w : nat) : SmtParams := mkParams VOS_LEAF_DOMAIN VOS_NODE_DOMAIN w.
Definition depth (p : SmtParams) : nat := width p * 8.

Definition leaf_hash (p : SmtParams) (content : bytes) : Hash := digest (leaf_domain p) [content].
Definition node_hash (p : SmtParams) (l r : Hash) : Hash := digest (node_domain p) [l; r].

Definition empty_chain (p : SmtParams) : list Hash :=
  foldl (λ chain d, let below := chain !!! (d - 1)%nat in chain ++ [node_hash p below below])
    [EMPTY_LEAF] (seq 1 (depth p)).

Definition composite_fold (state_hash : Hash) (roots : list Hash) : Hash :=
  foldl (node_hash (vos 32)) state_hash roots.

(** ** Bits of keys *)

(** [(key[byte_idx] >> bit_idx) & 1]. *)
Definition key_bit (key : bytes) (byte_idx bit_idx : nat) : N :=
  N.land (N.shiftr (Byte.to_N (key !!! byte_idx)) (N.of_nat bit_idx)) 1.

Definition bit_at (p : SmtParams) (key : bytes) (d : nat) : bool :=
  let bit_from_msb := (depth p - 1 - d)%nat in
  key_bit key (bit_from_msb / 8) (7 - bit_from_msb `mod` 8) =? 1.

Definition level_bit (key : bytes) (level : nat) : bool :=
  key_bit key (level / 8) (7 - level `mod` 8) =? 1.

(** The predicate of the [partition_point] calls. *)
Definition goes_left (level : nat) (key : bytes) : bool :=
  key_bit key (level / 8) (7 - level `mod` 8) =? 0.

(** [prefix_r[byte_idx] |= 1 << bit_idx]. *)
Definition set_bit (level : nat) (prefix : bytes) : bytes :=
  alter (λ x, byte_of (N.lor (Byte.to_N x) (N.shiftl 1 (N.of_nat (7 - level `mod` 8)))))
    (level / 8)%nat prefix.

(** ** Roots *)

Definition spine_hash (p : SmtParams) (chain : list Hash) (key : bytes) (h : Hash)
    (from to : nat) : Hash :=
  foldl (λ h d,
    let sibling := chain !!! d in
    if bit_at p key d then node_hash p sibling h else node_hash p h sibling)
    h (seq from (to - from)).

Definition leaves := list (bytes * Hash).

Fixpoint sparse_root_sorted (p : SmtParams) (sorted_leaves : leaves) (level : nat)
    (depth_from_leaf : nat) (chain : list Hash) {struct depth_from_leaf} : Hash :=
  match sorted_leaves with
  | [] => chain !!! depth_from_leaf
  | (_, h) :: _ =>
      match depth_from_leaf with
      | O => h
      | S d =>
          let split := partition_point (λ e, goes_left level e.1) sorted_leaves in
          let l := sparse_root_sorted p (take split sorted_leaves) (S level) d chain in
          let r := sparse_root_sorted p (drop split sorted_leaves) (S level) d chain in
          node_hash p l r
      end
  end.

Definition root_of_sorted (p : SmtParams) (sorted_leaves : leaves) : Hash :=
  sparse_root_sorted p sorted_leaves 0 (depth p) (empty_chain p).

(** ** Proofs of one key *)

Record SmtProof := mkSmtProof {
  proof_key : bytes;
  proof_leaf : Hash;
  siblings : list Hash;
}.

Definition verify (self : SmtProof) (p : SmtParams) (expected_root : Hash) : bool :=
  if bool_decide (length (siblings self) ≠ depth p) || bool_decide (length (proof_key self) ≠ width p)
  then false
  else
    let hash :=
      foldl (λ hash e,
        if bit_at p (proof_key self) (fst e) then node_hash p (snd e) hash
        else node_hash p hash (snd e))
        (proof_leaf self) (zip (seq 0 (length (siblings self))) (siblings self)) in
    bool_decide (hash = expected_root).

Definition is_inclusion (self : SmtProof) : bool := bool_decide (proof_leaf self ≠ EMPTY_LEAF).

(** ** Multiproofs *)

Record FrontierNode := mkFrontierNode {
  fn_level : N;
  fn_prefix : bytes;
  fn_hash : Hash;
}.

Record BatchProof := mkBatchProof { frontier : list FrontierNode }.

(** The derived order of [(level, prefix)]. *)
Definition bytes_compare (a b : bytes) : comparison :=
  if decide (a = b) then Eq else if decide (bytes_le a b) then Lt else Gt.
Definition cell_compare (a b : N * bytes) : comparison :=
  match a.1 ?= b.1 with Eq => bytes_compare a.2 b.2 | c => c end.
Definition cell (n : FrontierNode) : N * bytes := (fn_level n, fn_prefix n).
Definition cell_le (a b : FrontierNode) : Prop := cell_compare (cell a) (cell b) ≠ Gt.

#[export] Instance cell_le_dec : RelDecision cell_le.
Proof. intros a b. unfold cell_le. apply _. Defined.

Definition from_frontier (frontier : list FrontierNode) : BatchProof :=
  mkBatchProof (merge_sort cell_le frontier).

Definition frontier_get (self : BatchProof) (level : nat) (prefix : bytes) : option Hash :=
  match binary_search_by (λ n, cell_compare (cell n) (N.of_nat level, prefix)) (frontier self) with
  | inl i => fn_hash <$> frontier self !! i
  | inr _ => None
  end.

Fixpoint root_rec (self : BatchProof) (p : SmtParams) (touched : leaves) (prefix : bytes)
    (level : nat) (depth_from_leaf : nat) (chain : list Hash) {struct depth_from_leaf} : Hash :=
  match touched with
  | [] => default (chain !!! depth_from_leaf) (frontier_get self level prefix)
  | (_, h) :: _ =>
      match depth_from_leaf with
      | O => h
      | S d =>
          let split := partition_point (λ e, goes_left level e.1) touched in
          let l := root_rec self p (take split touched) prefix (S level) d chain in
          let r := root_rec self p (drop split touched) (set_bit level prefix) (S level) d chain in
          node_hash p l r
      end
  end.

(** [debug_assert!] is not compiled into release builds: an unsorted slice is
    folded as it is. *)
Definition batch_root (self : BatchProof) (p : SmtParams) (touched : leaves) : Hash :=
  root_rec self p touched (zeros (width p)) 0 (depth p) (empty_chain p).

Fixpoint build_frontier_rec (p : SmtParams) (touched : list bytes) (full : leaves) (prefix : bytes)
    (level : nat) (depth_from_leaf : nat) (chain : list Hash) (out : list FrontierNode)
    {struct depth_from_leaf} : list FrontierNode :=
  match touched with
  | [] =>
      match full with
      | [] => out
      | _ => out ++ [mkFrontierNode (N.of_nat level `mod` 65536) prefix
                       (sparse_root_sorted p full level depth_from_leaf chain)]
      end
  | _ =>
      match depth_from_leaf with
      | O => out
      | S d =>
          let t_split := partition_point (goes_left level) touched in
          let f_split := partition_point (λ e, goes_left level e.1) full in
          let out := build_frontier_rec p (take t_split touched) (take f_split full) prefix
                       (S level) d chain out in
          build_frontier_rec p (drop t_split touched) (drop f_split full) (set_bit level prefix)
            (S level) d chain out
      end
  end.

Definition build (p : SmtParams) (sorted_leaves : leaves) (touched_keys : list bytes) : BatchProof :=
  let keys := sort_dedup bytes_le touched_keys in
  from_frontier
    (build_frontier_rec p keys sorted_leaves (zeros (width p)) 0 (depth p) (empty_chain p) []).

(** ** The witnessed ledger *)

Record WitnessedLedger := mkLedger {
  wl_params : SmtParams;
  wl_proof : BatchProof;
  wl_leaves : gmap bytes (option bytes);
}.

Definition slot_hash (p : SmtParams) (v : option bytes) : Hash :=
  match v with Some content => leaf_hash p content | None => EMPTY_LEAF end.

(** [leaves.iter().map(..)]: in key order. *)
Definition touched_leaves (p : SmtParams) (m : gmap bytes (option bytes)) : leaves :=
  (λ k, (k, slot_hash p (m !!! k))) <$> sorted_keys bytes_le m.

Definition ledger_root (self : WitnessedLedger) : Hash :=
  batch_root (wl_proof self) (wl_params self) (touched_leaves (wl_params self) (wl_leaves self)).

(** [touched.into_iter().collect()]: a later pair replaces an earlier one. *)
Definition collect_leaves (touched : list (bytes * option bytes)) : gmap bytes (option bytes) :=
  foldl (λ m e, <[e.1 := e.2]> m) ∅ touched.

Definition ledger_new (params : SmtParams) (proof : BatchProof)
    (touched : list (bytes * option bytes)) (root_before : Hash) : option WitnessedLedger :=
  let m := collect_leaves touched in
  if forallb (λ k, bool_decide (length k = width params)) (sorted_keys bytes_le m) then
    let me := mkLedger params proof m in
    if bool_decide (ledger_root me = root_before) then Some me else None
  else None.

Definition ledger_get (self : WitnessedLedger) (key : bytes) : option (option bytes) :=
  wl_leaves self !! key.

Definition ledger_contains (self : WitnessedLedger) (key : bytes) : option bool :=
  (λ v : option bytes, bool_decide (is_Some v)) <$> ledger_get self key.

Definition ledger_set (self : WitnessedLedger) (key : bytes) (slot : option bytes)
    : option WitnessedLedger :=
  match wl_leaves self !! key with
  | Some _ => Some (mkLedger (wl_params self) (wl_proof self) (<[key := slot]> (wl_leaves self)))
  | None => None
  end.

Definition ledger_insert (self : WitnessedLedger) (key content : bytes) : option WitnessedLedger :=
  ledger_set self key (Some content).
Definition ledger_remove (self : WitnessedLedger) (key : bytes) : option WitnessedLedger :=
  ledger_set self key None.

Record LedgerWitness := mkWitness {
  lw_root_before : Hash;
  lw_proof : BatchProof;
  lw_touched : list (bytes * option bytes);
}.

Definition into_ledger (self : LedgerWitness) (params : SmtParams) : option WitnessedLedger :=
  ledger_new params (lw_proof self) (lw_touched self) (lw_root_before self).
