(* ===== verification/SmtSound.v ===== *)
(** * Sparse Merkle trees: slices against the full tree

    [smt p d f] is the tree of depth [d] in which the leaf under the bit string
    [k] is [f k]: the definition the slice recursions of [zk/state.rs] shortcut.
    [over level l f] puts the leaves of a slice over [f].  [sparse_root_smt]: the
    recursion over a sorted slice computes the full tree; [split_slice] is the
    step all the recursions share. *)

From Stdlib.Strings Require Byte.
From S2P Require Import Prelude Bytes Slices Blake2b V2Wire V2Identity Smt.

Local Open Scope nat_scope.

(** ** Bits of keys *)

Lemma key_bit_testbit key i :
  key_bit key (i / 8) (7 - i `mod` 8) =
  N.b2n (N.testbit (Byte.to_N (key !!! (i / 8))) (7 - N.of_nat (i `mod` 8))).
Proof.
  unfold key_bit. change 1%N with (N.ones 1). rewrite N.land_ones. change (2 ^ 1)%N with 2%N.
  rewrite <- N.bit0_mod, N.shiftr_spec' by lia. do 2 f_equal. lia.
Qed.

Lemma level_bit_lookup key i : i < 8 * length key → bits key !! i = Some (level_bit key i).
Proof.
  intros Hi. rewrite lookup_bits by done. unfold level_bit. rewrite key_bit_testbit. f_equal.
  by destruct (N.testbit _ _).
Qed.

Lemma goes_left_level_bit level key : goes_left level key = negb (level_bit key level).
Proof. unfold goes_left, level_bit. rewrite key_bit_testbit. by destruct (N.testbit _ _). Qed.

Lemma bit_at_level_bit p key d : bit_at p key d = level_bit key (depth p - 1 - d).
Proof. done. Qed.

Definition suffix (level : nat) (key : bytes) : list bool := drop level (bits key).

Lemma suffix_cons level key :
  level < 8 * length key → suffix level key = level_bit key level :: suffix (S level) key.
Proof. intros Hl. unfold suffix. by apply drop_S, level_bit_lookup. Qed.

Lemma suffix_end level key : level = 8 * length key → suffix level key = [].
Proof. intros ->. unfold suffix. apply drop_ge. rewrite length_bits. lia. Qed.

Lemma length_suffix level key : length (suffix level key) = 8 * length key - level.
Proof. unfold suffix. by rewrite length_drop, length_bits. Qed.

(** ** Slices *)

Section slices.
Context {A : Type} (key : A → bytes) (w : nat).
Implicit Types (l : list A).

(** A slice at a level: its keys have the tree's width and are ordered by the
    bits from that level on. *)
Record slice (level : nat) (l : list A) : Prop := {
  slice_width : Forall (λ e, length (key e) = w) l;
  slice_sorted : StronglySorted (λ a b, bits_lt (suffix level (key a)) (suffix level (key b))) l;
}.

Definition left_part (level : nat) l : list A := take (partition_point (λ e, goes_left level (key e)) l) l.
Definition right_part (level : nat) l : list A := drop (partition_point (λ e, goes_left level (key e)) l) l.

Lemma slice_keys l :
  Forall (λ e, length (key e) = w) l → StronglySorted (λ a b, strict bytes_le (key a) (key b)) l →
  slice 0 l.
Proof.
  intros Hw Hs. split; [done|]. rewrite Forall_forall in Hw. revert Hs. apply StronglySorted_impl_in.
  intros a b Ha Hb Hab. unfold suffix. rewrite !drop_0. apply bytes_lt_bits; [|done]. by rewrite !Hw.
Qed.

Lemma slice_tail level (same : bool) l :
  level < 8 * w → Forall (λ e, level_bit (key e) level = same) l → slice level l → slice (S level) l.
Proof.
  intros Hl Hb [Hw Hs]. split; [done|]. rewrite Forall_forall in Hb, Hw.
  revert Hs. apply StronglySorted_impl_in. intros x y Hx Hy.
  rewrite (suffix_cons level (key x)), (suffix_cons level (key y)) by (rewrite Hw; done).
  rewrite (Hb x Hx), (Hb y Hy). simpl. intros [[-> [=]]|[_ H]]; done.
Qed.

(** Splitting at the bit of a level. *)
Lemma split_slice level l :
  level < 8 * w → slice level l →
  l = left_part level l ++ right_part level l ∧
  Forall (λ e, level_bit (key e) level = false) (left_part level l) ∧
  Forall (λ e, level_bit (key e) level = true) (right_part level l) ∧
  slice (S level) (left_part level l) ∧ slice (S level) (right_part level l).
Proof.
  intros Hl [Hw Hs].
  assert (∃ l0 l1, l = l0 ++ l1 ∧ Forall (λ e, level_bit (key e) level = false) l0 ∧
    Forall (λ e, level_bit (key e) level = true) l1) as (l0 & l1 & Heq & H0 & H1).
  { clear -Hl Hw Hs. induction l as [|e l IH]; [by exists [], []|].
    apply Forall_cons in Hw as [He Hw]. apply StronglySorted_inv in Hs as [Hs Hall].
    destruct (level_bit (key e) level) eqn:Hb.
    - exists [], (e :: l). split_and!; [done|constructor|]. constructor; [done|].
      rewrite Forall_forall in *. intros x Hx. specialize (Hall x Hx).
      rewrite (suffix_cons level (key e)), (suffix_cons level (key x)), Hb in Hall
        by (rewrite ?He, ?Hw; done).
      simpl in Hall. destruct Hall as [[[=] _]|[H _]]. done.
    - destruct (IH Hw Hs) as (l0 & l1 & -> & H0 & H1). exists (e :: l0), l1. by split_and!; [|constructor|]. }
  assert (partition_point (λ e, goes_left level (key e)) l = length l0) as Hp.
  { rewrite Heq. apply partition_point_app; eapply Forall_impl; try done;
      intros x Hx; rewrite goes_left_level_bit; by rewrite Hx. }
  unfold left_part, right_part. rewrite Hp, Heq, take_app_length, drop_app_length.
  rewrite Heq in Hw, Hs. apply Forall_app in Hw as [Hw0 Hw1].
  split_and!; [done..| |]; eapply slice_tail; try done; split; try done;
    [by eapply StronglySorted_app_1_l|by eapply StronglySorted_app_1_r].
Qed.

(** At the leaves a slice has one element at most. *)
Lemma slice_end l : slice (8 * w) l → length l ≤ 1.
Proof.
  intros [Hw Hs]. destruct l as [|a [|b l]]; [simpl; lia..|].
  apply StronglySorted_inv in Hs as [_ Hs]. apply Forall_cons in Hs as [Hab _].
  apply Forall_cons in Hw as [Ha _]. rewrite suffix_end in Hab by (by rewrite Ha). done.
Qed.
End slices.

(** A slice is one by its keys. *)
Lemma slice_fmap {A B} (g : A → B) (key : B → bytes) w level l :
  slice key w level (g <$> l) ↔ slice (λ x, key (g x)) w level l.
Proof.
  assert (∀ (R : relation B), StronglySorted R (g <$> l) ↔ StronglySorted (λ a b, R (g a) (g b)) l) as HS.
  { intros R. induction l as [|x l IH]; [by split; constructor|].
    cbn [fmap list_fmap]. rewrite !StronglySorted_cons, <- IH, Forall_fmap. done. }
  specialize (HS (λ a b, bits_lt (suffix level (key a)) (suffix level (key b)))).
  split; intros [Hw Hs]; (split; [by rewrite Forall_fmap in *|by apply HS]).
Qed.

Lemma left_part_fmap {A B} (g : A → B) (key : B → bytes) level l :
  left_part key level (g <$> l) = g <$> left_part (λ x, key (g x)) level l.
Proof. unfold left_part. by rewrite partition_point_fmap, fmap_take. Qed.

Lemma right_part_fmap {A B} (g : A → B) (key : B → bytes) level l :
  right_part key level (g <$> l) = g <$> right_part (λ x, key (g x)) level l.
Proof. unfold right_part. by rewrite partition_point_fmap, fmap_drop. Qed.

Lemma slice_same_keys w level (l l' : leaves) :
  l'.*1 = l.*1 → slice fst w level l → slice fst w level l'.
Proof.
  intros Hk Hs. apply (slice_fmap fst id). rewrite Hk. by apply (slice_fmap fst id).
Qed.

Lemma parts_same_keys level (l l' : leaves) :
  l'.*1 = l.*1 →
  (left_part fst level l').*1 = (left_part fst level l).*1 ∧
  (right_part fst level l').*1 = (right_part fst level l).*1.
Proof.
  intros Hk. pose proof (left_part_fmap (@fst bytes Hash) id level) as H0.
  pose proof (right_part_fmap (@fst bytes Hash) id level) as H1.
  split; [etrans; [symmetry; apply H0|rewrite Hk; apply H0]|etrans; [symmetry; apply H1|rewrite Hk; apply H1]].
Qed.

(** ** The full tree *)

Fixpoint smt (p : SmtParams) (d : nat) (f : list bool → Hash) : Hash :=
  match d with
  | O => f []
  | S d => node_hash p (smt p d (λ k, f (false :: k))) (smt p d (λ k, f (true :: k)))
  end.

Lemma smt_ext p d f g : (∀ k, length k = d → f k = g k) → smt p d f = smt p d g.
Proof.
  revert f g. induction d as [|d IH]; intros f g Hfg; cbn [smt]; [by apply Hfg|].
  rewrite (IH (λ k, f (false :: k)) (λ k, g (false :: k))), (IH (λ k, f (true :: k)) (λ k, g (true :: k)));
    [done|intros k Hk; apply Hfg; simpl; lia..].
Qed.

#[export] Instance smt_proper p d : Proper (pointwise_relation _ eq ==> eq) (smt p d).
Proof. intros f g Hfg. apply smt_ext. intros k _. apply Hfg. Qed.

Definition no_leaves : list bool → Hash := λ _, EMPTY_LEAF.

Lemma length_node_hash p l r : length (node_hash p l r) = 32.
Proof. apply length_digest. Qed.

Lemma length_smt p d f : (∀ k, length k = d → length (f k) = 32) → length (smt p d f) = 32.
Proof. intros Hf. destruct d; [by apply Hf|]. apply length_node_hash. Qed.

(** The empty chain holds the roots of the empty trees. *)
Lemma empty_chain_spec p :
  length (empty_chain p) = S (depth p) ∧ ∀ d, d ≤ depth p → empty_chain p !!! d = smt p d no_leaves.
Proof.
  unfold empty_chain. generalize (depth p) as n. induction n as [|n IH].
  - split; [done|]. intros i Hi. by replace i with 0 by lia.
  - rewrite seq_S, foldl_app. cbn [foldl]. destruct IH as [Hlen Hc].
    set (c := foldl _ _ _) in *. split; [rewrite length_app, Hlen; simpl; lia|].
    intros i Hi. destruct (decide (i = S n)) as [->|Hne].
    + rewrite lookup_total_app_r by lia. rewrite Hlen, Nat.sub_diag.
      replace (1 + n - 1) with n by lia. rewrite Hc by lia. done.
    + rewrite lookup_total_app_l by lia. apply Hc. lia.
Qed.

Lemma empty_chain_lookup p d : d ≤ depth p → empty_chain p !!! d = smt p d no_leaves.
Proof. apply empty_chain_spec. Qed.

Lemma last_empty_chain p : last (empty_chain p) = Some (smt p (depth p) no_leaves).
Proof.
  destruct (empty_chain_spec p) as [Hlen Hc]. rewrite last_lookup, Hlen. cbn [pred].
  rewrite list_lookup_lookup_total_lt by lia. by rewrite Hc.
Qed.

(** Leaves laid over a tree. *)
Fixpoint over (level : nat) (l : leaves) (f : list bool → Hash) (k : list bool) : Hash :=
  match l with
  | [] => f k
  | e :: l => if decide (suffix level e.1 = k) then e.2 else over level l f k
  end.

Lemma over_app level l0 l1 f k : over level (l0 ++ l1) f k = over level l0 (over level l1 f) k.
Proof. induction l0 as [|e l0 IH]; [done|]. simpl. by case_decide. Qed.

Lemma over_same level w b l f k :
  level < 8 * w → Forall (λ e, length e.1 = w) l → Forall (λ e, level_bit e.1 level = b) l →
  over level l f (b :: k) = over (S level) l (λ k, f (b :: k)) k.
Proof.
  intros Hl. induction l as [|e l IH]; intros Hw Hb; [done|].
  apply Forall_cons in Hw as [He Hw]. apply Forall_cons in Hb as [Hbe Hb]. simpl.
  rewrite suffix_cons, Hbe, IH by (rewrite ?He; done).
  destruct (decide (suffix (S level) e.1 = k)) as [->|Hne]; [by rewrite decide_True|].
  rewrite decide_False by congruence. done.
Qed.

Lemma over_other level w b l f k :
  level < 8 * w → Forall (λ e, length e.1 = w) l → Forall (λ e, level_bit e.1 level = negb b) l →
  over level l f (b :: k) = f (b :: k).
Proof.
  intros Hl. induction l as [|e l IH]; intros Hw Hb; [done|].
  apply Forall_cons in Hw as [He Hw]. apply Forall_cons in Hb as [Hbe Hb]. simpl.
  rewrite suffix_cons, Hbe, IH by (rewrite ?He; done).
  rewrite decide_False; [done|]. by destruct b.
Qed.

(** The two halves of a slice are the two halves of its tree. *)
Lemma over_split p level l f (b : bool) :
  level < depth p → slice fst (width p) level l →
  ∀ k, over level l f (b :: k) =
    over (S level) (if b then right_part fst level l else left_part fst level l) (λ k, f (b :: k)) k.
Proof.
  unfold depth. rewrite Nat.mul_comm. intros Hl Hs k.
  destruct (split_slice fst (width p) level l Hl Hs) as (Heq & H0 & H1 & [Hw0 _] & [Hw1 _]).
  rewrite Heq at 1. rewrite over_app. destruct b.
  - rewrite (over_other _ (width p)) by done. by rewrite (over_same _ (width p)).
  - rewrite (over_same _ (width p)) by done.
    remember (left_part fst level l) as l0 eqn:E. clear -Hl H1 Hw1.
    induction l0 as [|e l0 IH]; simpl; [by rewrite (over_other _ (width p))|]. by case_decide.
Qed.

Lemma smt_over p level d l f :
  level + S d = depth p → slice fst (width p) level l →
  smt p (S d) (over level l f) =
  node_hash p (smt p d (over (S level) (left_part fst level l) (λ k, f (false :: k))))
              (smt p d (over (S level) (right_part fst level l) (λ k, f (true :: k)))).
Proof.
  intros Hd Hs. cbn [smt].
  rewrite (smt_ext p d _ _ (λ k _, over_split p level l f false ltac:(lia) Hs k)).
  by rewrite (smt_ext p d _ _ (λ k _, over_split p level l f true ltac:(lia) Hs k)).
Qed.

(** The recursion over a slice, when it does not stop early. *)
Lemma sparse_root_unfold p l level d chain :
  l ≠ [] →
  sparse_root_sorted p l level (S d) chain =
  node_hash p (sparse_root_sorted p (left_part fst level l) (S level) d chain)
              (sparse_root_sorted p (right_part fst level l) (S level) d chain).
Proof. by destruct l as [|[k h] l]. Qed.

Lemma sparse_root_smt p level d l :
  level + d = depth p → slice fst (width p) level l →
  sparse_root_sorted p l level d (empty_chain p) = smt p d (over level l no_leaves).
Proof.
  revert level l. induction d as [|d IH]; intros level l Hd Hs.
  - destruct l as [|[k h] l]; [apply empty_chain_lookup; lia|]. simpl.
    pose proof (slice_width _ _ _ _ Hs) as Hw. apply Forall_cons in Hw as [Hk _]. simpl in Hk.
    rewrite suffix_end; [done|]. unfold depth in Hd. lia.
  - destruct (decide (l = [])) as [->|Hne]; [apply (empty_chain_lookup p (S d)); lia|].
    rewrite sparse_root_unfold by done.
    destruct (split_slice fst (width p) level l) as (_ & _ & _ & Hs0 & Hs1);
      [unfold depth in Hd; lia|done|].
    rewrite !IH by (lia || done).
    by rewrite smt_over by (lia || done).
Qed.

(** * Sparse Merkle proofs are sound

    What a verifier learns from a root.  [root_pairs] lists the pairs of child
    hashes that folding a multiproof hashes, [smt_pair] holds of those of the full
    tree.  [root_rec_sound]: a multiproof, however it was made up, that folds to
    the root of a tree gives the tree's own leaves for the touched keys, and folds
    any replacement of them to the root of the updated tree, unless one of the
    pairs it hashes and a pair of the tree are different preimages of one digest.
    [verify_sound] is the same for the proof of one key. *)

(** The pairs of the full tree. *)
Inductive smt_pair (p : SmtParams) : nat → (list bool → Hash) → Hash * Hash → Prop :=
| pair_here d f : smt_pair p (S d) f (smt p d (λ k, f (false :: k)), smt p d (λ k, f (true :: k)))
| pair_below d f b x : smt_pair p d (λ k, f (b :: k)) x → smt_pair p (S d) f x.

(** The pairs hashed by [root_rec]. *)
Fixpoint root_pairs (self : BatchProof) (p : SmtParams) (touched : leaves) (prefix : bytes)
    (level d : nat) (chain : list Hash) : list (Hash * Hash) :=
  match touched, d with
  | [], _ | _, O => []
  | _, S d =>
      (root_rec self p (left_part fst level touched) prefix (S level) d chain,
       root_rec self p (right_part fst level touched) (set_bit level prefix) (S level) d chain)
      :: root_pairs self p (left_part fst level touched) prefix (S level) d chain
      ++ root_pairs self p (right_part fst level touched) (set_bit level prefix) (S level) d chain
  end.

(** Two different strings of child hashes with one digest. *)
Definition clash (p : SmtParams) (a b : Hash * Hash) : Prop :=
  a.1 ++ a.2 ≠ b.1 ++ b.2 ∧ node_hash p a.1 a.2 = node_hash p b.1 b.2.

Lemma clash_or_equal p l r l' r' :
  length l = 32 → length l' = 32 → node_hash p l r = node_hash p l' r' →
  clash p (l, r) (l', r') ∨ (l = l' ∧ r = r').
Proof.
  intros Hl Hl' Heq. destruct (decide (l ++ r = l' ++ r')) as [Happ|Hne]; [|by left].
  right. apply app_inj_1 in Happ; [done|]. by rewrite Hl, Hl'.
Qed.

(** The hashes of the source are 32-byte arrays. *)
Definition hashes_ok (l : leaves) : Prop := Forall (λ e, length e.2 = 32) l.
Definition proof_ok (self : BatchProof) : Prop := Forall (λ n, length (fn_hash n) = 32) (frontier self).

Lemma frontier_get_length self level prefix h :
  proof_ok self → frontier_get self level prefix = Some h → length h = 32.
Proof.
  intros Hok. unfold frontier_get. destruct (binary_search_by _ _) as [i|]; [|done].
  destruct (frontier self !! i) as [n|] eqn:Hn; [|done]. simpl. intros [= <-].
  unfold proof_ok in Hok. rewrite Forall_lookup in Hok. by eapply Hok.
Qed.

Lemma root_rec_unfold self p touched prefix level d chain :
  touched ≠ [] →
  root_rec self p touched prefix level (S d) chain =
  node_hash p (root_rec self p (left_part fst level touched) prefix (S level) d chain)
    (root_rec self p (right_part fst level touched) (set_bit level prefix) (S level) d chain).
Proof. by destruct touched as [|[k h] touched]. Qed.

Lemma length_root_rec self p touched prefix level d :
  proof_ok self → hashes_ok touched → d ≤ depth p →
  length (root_rec self p touched prefix level d (empty_chain p)) = 32.
Proof.
  intros Hp Ht Hd. destruct touched as [|[k h] touched].
  - destruct d; simpl; (destruct (frontier_get _ _ _) eqn:Hg; simpl;
      [by eapply frontier_get_length|rewrite empty_chain_lookup by lia; by apply length_smt]).
  - destruct d; [by apply Forall_cons in Ht as [Hh _]|].
    rewrite root_rec_unfold by done. apply length_node_hash.
Qed.

Lemma over_ext level l f g k : f k = g k → over level l f k = over level l g k.
Proof. intros Hfg. induction l as [|e l IH]; [done|]. simpl. by case_decide. Qed.

(** The folded root of [touched] binds the touched leaves of the tree [f] and can
    be moved to any replacement of them. *)
Definition binds (self : BatchProof) (p : SmtParams) (touched : leaves) (prefix : bytes)
    (level d : nat) (f : list bool → Hash) : Prop :=
  (∀ e, e ∈ touched → f (suffix level e.1) = e.2) ∧
  ∀ touched', touched'.*1 = touched.*1 →
    root_rec self p touched' prefix level d (empty_chain p) = smt p d (over level touched' f).

Definition found_clash (self : BatchProof) (p : SmtParams) (touched : leaves) (prefix : bytes)
    (level d : nat) (f : list bool → Hash) : Prop :=
  ∃ a b, a ∈ root_pairs self p touched prefix level d (empty_chain p) ∧ smt_pair p d f b ∧ clash p a b.

Lemma binds_none self p prefix level d f :
  root_rec self p [] prefix level d (empty_chain p) = smt p d f → binds self p [] prefix level d f.
Proof.
  intros Hr. split; [intros e He; by apply elem_of_nil in He|].
  intros touched' Hk. apply fmap_nil_inv in Hk as ->. done.
Qed.

Lemma binds_leaf self p touched prefix level f :
  level = depth p → slice fst (width p) level touched → touched ≠ [] →
  root_rec self p touched prefix level 0 (empty_chain p) = f [] → binds self p touched prefix level 0 f.
Proof.
  intros -> Hs Hne Hr. unfold depth in *. rewrite Nat.mul_comm in *.
  pose proof (slice_end _ _ _ Hs) as Hlen. destruct touched as [|[k h] [|? ?]]; simpl in Hlen; [done| |lia].
  destruct Hs as [Hw _]. apply Forall_cons in Hw as [Hk _]. simpl in Hr, Hk. split.
  - intros e ->%list_elem_of_singleton. simpl. by rewrite suffix_end by lia.
  - intros [|[k' h'] [|? ?]]; intros [= ->]; simpl; rewrite suffix_end by lia; done.
Qed.

Lemma binds_node self p touched prefix level d f :
  level + S d = depth p → slice fst (width p) level touched → touched ≠ [] →
  binds self p (left_part fst level touched) prefix (S level) d (λ k, f (false :: k)) →
  binds self p (right_part fst level touched) (set_bit level prefix) (S level) d (λ k, f (true :: k)) →
  binds self p touched prefix level (S d) f.
Proof.
  intros Hd Hs Hne [Hl0 Hr0] [Hl1 Hr1].
  destruct (split_slice fst (width p) level touched) as (Heq & H0 & H1 & [Hw0 _] & [Hw1 _]);
    [unfold depth in Hd; lia|done|]. split.
  - rewrite Heq. intros e [He|He]%elem_of_app.
    + rewrite Forall_forall in H0, Hw0. rewrite suffix_cons, (H0 e He) by (rewrite Hw0 by done; unfold depth in Hd; lia).
      by apply Hl0.
    + rewrite Forall_forall in H1, Hw1. rewrite suffix_cons, (H1 e He) by (rewrite Hw1 by done; unfold depth in Hd; lia).
      by apply Hl1.
  - intros touched' Hk. destruct (parts_same_keys level _ _ Hk) as [Hk0 Hk1].
    assert (touched' ≠ []) as Hne' by (intros ->; by destruct touched).
    pose proof (slice_same_keys _ _ _ _ Hk Hs) as Hs'.
    rewrite root_rec_unfold, smt_over by done. by rewrite (Hr0 _ Hk0), (Hr1 _ Hk1).
Qed.

Lemma root_rec_sound self p touched prefix level d f :
  level + d = depth p → slice fst (width p) level touched → proof_ok self → hashes_ok touched →
  (∀ k, length k = d → length (f k) = 32) →
  root_rec self p touched prefix level d (empty_chain p) = smt p d f →
  found_clash self p touched prefix level d f ∨ binds self p touched prefix level d f.
Proof.
  intros Hd Hs Hp. revert touched prefix level f Hd Hs.
  induction d as [|d IH]; intros touched prefix level f Hd Hs Ht Hf Hr;
    (destruct (decide (touched = [])) as [->|Hne]; [right; by apply binds_none|]).
  { right. apply binds_leaf; [lia|done..]. }
  destruct (split_slice fst (width p) level touched) as (Heq & _ & _ & Hs0 & Hs1);
    [unfold depth in Hd; lia|done|].
  assert (hashes_ok (left_part fst level touched) ∧ hashes_ok (right_part fst level touched)) as [Ht0 Ht1]
    by (apply Forall_app; by rewrite <- Heq).
  rewrite root_rec_unfold in Hr by done. cbn [smt] in Hr.
  assert (∀ b : bool, (∀ k, length k = d → length (f (b :: k)) = 32)) as Hfb
    by (intros b k Hk; apply Hf; simpl; lia).
  assert (∀ x, x ∈ (root_rec self p (left_part fst level touched) prefix (S level) d (empty_chain p),
       root_rec self p (right_part fst level touched) (set_bit level prefix) (S level) d (empty_chain p))
      :: root_pairs self p (left_part fst level touched) prefix (S level) d (empty_chain p)
      ++ root_pairs self p (right_part fst level touched) (set_bit level prefix) (S level) d (empty_chain p) →
    x ∈ root_pairs self p touched prefix level (S d) (empty_chain p)) as Hpairs
    by (intros x Hx; by destruct touched).
  assert (S level + d = depth p) as Hd' by lia.
  destruct (clash_or_equal _ _ _ _ _ (length_root_rec _ p _ prefix (S level) d Hp Ht0 ltac:(lia))
    (length_smt p d _ (Hfb false)) Hr) as [Hc|[Hr0 Hr1]].
  { left. eexists _, _. split_and!; [apply Hpairs; left|constructor|exact Hc]. }
  destruct (IH _ _ _ (λ k, f (false :: k)) Hd' Hs0 Ht0 (Hfb false) Hr0) as [(a & b & Ha & Hb & Hc)|Hb0].
  { left. exists a, b. split_and!; [apply Hpairs; right; apply elem_of_app; by left|by econstructor|done]. }
  destruct (IH _ _ _ (λ k, f (true :: k)) Hd' Hs1 Ht1 (Hfb true) Hr1) as [(a & b & Ha & Hb & Hc)|Hb1].
  { left. exists a, b. split_and!; [apply Hpairs; right; apply elem_of_app; by right|by econstructor|done]. }
  right. by apply binds_node.
Qed.

(** ** Proofs of one key *)

(** The fold of [verify], from the root down. *)
Fixpoint climb (p : SmtParams) (path : list bool) (sibs : list Hash) (leaf : Hash) : Hash :=
  match path, sibs with
  | b :: path, s :: sibs =>
      if b then node_hash p s (climb p path sibs leaf) else node_hash p (climb p path sibs leaf) s
  | _, _ => leaf
  end.

Fixpoint climb_pairs (p : SmtParams) (path : list bool) (sibs : list Hash) (leaf : Hash) : list (Hash * Hash) :=
  match path, sibs with
  | b :: path, s :: sibs =>
      (if b then (s, climb p path sibs leaf) else (climb p path sibs leaf, s)) :: climb_pairs p path sibs leaf
  | _, _ => []
  end.

Definition fold_siblings (p : SmtParams) (key : bytes) (leaf : Hash) (sibs : list Hash) : Hash :=
  foldl (λ hash e, if bit_at p key (fst e) then node_hash p (snd e) hash else node_hash p hash (snd e))
    leaf (zip (seq 0 (length sibs)) sibs).

Lemma fold_siblings_climb p key leaf sibs :
  length key = width p → length sibs ≤ depth p →
  fold_siblings p key leaf sibs = climb p (suffix (depth p - length sibs) key) (reverse sibs) leaf.
Proof.
  intros Hk. unfold fold_siblings. induction sibs as [|s sibs IH] using rev_ind; intros Hl.
  { simpl. by destruct (suffix _ _). }
  rewrite length_app in *. simpl in Hl. simpl (length [s]). rewrite Nat.add_1_r, seq_S, zip_with_app by by rewrite length_seq.
  rewrite foldl_app, IH, reverse_app by lia. cbn [zip_with foldl fst snd].
  rewrite bit_at_level_bit. rewrite (suffix_cons (depth p - S (length sibs))) by (unfold depth in *; lia).
  replace (S (depth p - S (length sibs))) with (depth p - length sibs) by lia.
  replace (depth p - 1 - (0 + length sibs)) with (depth p - S (length sibs)) by lia. done.
Qed.

Lemma length_climb p path sibs leaf :
  length leaf = 32 → length (climb p path sibs leaf) = 32.
Proof.
  intros Hl. destruct path as [|b path], sibs as [|s sibs]; [done..|]. simpl.
  destruct b; apply length_node_hash.
Qed.

Lemma climb_sound p path sibs leaf f :
  length sibs = length path → Forall (λ s, length s = 32) sibs → length leaf = 32 →
  (∀ k, length k = length path → length (f k) = 32) →
  climb p path sibs leaf = smt p (length path) f →
  leaf = f path ∨ ∃ a b, a ∈ climb_pairs p path sibs leaf ∧ smt_pair p (length path) f b ∧ clash p a b.
Proof.
  revert sibs f. induction path as [|b path IH]; intros [|s sibs] f Hlen Hs Hleaf Hf Hc; simplify_eq/=; [by left|].
  apply Forall_cons in Hs as [Hs0 Hs].
  assert (∀ b : bool, ∀ k, length k = length path → length (f (b :: k)) = 32) as Hfb
    by (intros b' k Hk; apply Hf; simpl; lia).
  assert (∃ a, a ∈ climb_pairs p (b :: path) (s :: sibs) leaf ∧
    (clash p a (smt p (length path) (λ k, f (false :: k)), smt p (length path) (λ k, f (true :: k))) ∨
     climb p path sibs leaf = smt p (length path) (λ k, f (b :: k)))) as (a & Ha & [Hcl|Heq]).
  { pose proof (length_climb p path sibs leaf Hleaf) as Hcl.
    pose proof (length_smt p (length path) _ (Hfb false)) as Hsf.
    destruct b; (eexists; split; [left|]).
    - destruct (clash_or_equal p _ _ _ _ Hs0 Hsf Hc) as [|[_ ?]]; [by left|by right].
    - destruct (clash_or_equal p _ _ _ _ Hcl Hsf Hc) as [|[? _]]; [by left|by right]. }
  { right. exists a, (smt p (length path) (λ k, f (false :: k)), smt p (length path) (λ k, f (true :: k))).
    split_and!; [done|constructor|done]. }
  destruct (IH sibs (λ k, f (b :: k)) ltac:(lia) Hs Hleaf (Hfb b) Heq) as [Hl|(a' & b' & Ha' & Hb' & Hc')]; [by left|].
  right. exists a', b'. split_and!; [by right|by econstructor|done].
Qed.

(** The siblings along a path of the full tree. *)
Fixpoint smt_siblings (p : SmtParams) (path : list bool) (f : list bool → Hash) : list Hash :=
  match path with
  | [] => []
  | b :: path => smt p (length path) (λ k, f (negb b :: k)) :: smt_siblings p path (λ k, f (b :: k))
  end.

Lemma length_smt_siblings p path f : length (smt_siblings p path f) = length path.
Proof. revert f. induction path as [|b path IH]; intros f; [done|]. simpl. by rewrite IH. Qed.

Lemma climb_complete p path f :
  climb p path (smt_siblings p path f) (f path) = smt p (length path) f.
Proof.
  revert f. induction path as [|b path IH]; intros f; [done|]. cbn [smt_siblings climb smt length].
  rewrite (IH (λ k, f (b :: k))). by destruct b.
Qed.
