(* ===== verification/SmtLedger.v ===== *)
(** * Sparse Merkle multiproofs are complete

    [build_rec_root]: the frontier that [build_frontier_rec] collects holds what
    [root_rec] looks up, so a multiproof built from the full tree folds any
    hashes of the touched keys to the root of the tree with those leaves.  A cell
    of the tree is a level and the bits above it; cells on different sides of a
    split have different prefixes ([below_disjoint]), which is why the search in
    the sorted frontier finds the node of the cell. *)

From Stdlib.Strings Require Byte.
From S2P Require Import Prelude Bytes Slices Blake2b V2Wire V2Identity Smt SmtSound.

Local Open Scope nat_scope.

(** ** The order of cells *)

Definition cell_lt (a b : N * bytes) : Prop := (a.1 < b.1)%N ∨ (a.1 = b.1 ∧ strict bytes_le a.2 b.2).

Lemma bytes_strict a b : bytes_le a b → a ≠ b → strict bytes_le a b.
Proof. intros Hle Hne. split; [done|]. intros Hge. apply Hne. by apply (anti_symm bytes_le). Qed.

Lemma cell_compare_spec a b :
  match cell_compare a b with Eq => a = b | Lt => cell_lt a b | Gt => cell_lt b a end.
Proof.
  destruct a as [n1 p1], b as [n2 p2]. unfold cell_compare, bytes_compare, cell_lt. simpl.
  destruct (N.compare_spec n1 n2) as [->|H|H]; [|by left..].
  case_decide as Heq; [by subst|]. case_decide as Hle; right; (split; [done|]).
  - by apply bytes_strict.
  - apply bytes_strict; [|done]. by destruct (bytes_le_total p1 p2).
Qed.

Lemma cell_lt_trans a b c : cell_lt a b → cell_lt b c → cell_lt a c.
Proof.
  unfold cell_lt. intros [H1|[H1 H1']] [H2|[H2 H2']]; try (left; lia).
  right. split; [lia|]. by trans b.2.
Qed.

Lemma cell_lt_irrefl a : ¬ cell_lt a a.
Proof. intros [H|[_ H]]; [lia|]. by apply (irreflexivity (strict bytes_le) a.2). Qed.

Lemma cell_compare_Lt a b : cell_compare a b = Lt ↔ cell_lt a b.
Proof.
  pose proof (cell_compare_spec a b) as H. destruct (cell_compare a b); split; intros H'; try done.
  - subst. by apply cell_lt_irrefl in H'.
  - destruct (cell_lt_irrefl a). by eapply cell_lt_trans.
Qed.

Lemma cell_compare_Eq a b : cell_compare a b = Eq ↔ a = b.
Proof.
  pose proof (cell_compare_spec a b) as H. destruct (cell_compare a b); split; intros H'; try done;
    subst; by apply cell_lt_irrefl in H.
Qed.

Lemma cell_le_alt a b : cell_le a b ↔ cell_lt (cell a) (cell b) ∨ cell a = cell b.
Proof.
  unfold cell_le. pose proof (cell_compare_spec (cell a) (cell b)) as H.
  destruct (cell_compare (cell a) (cell b)); split; try (by auto).
  intros [H'|H']; [destruct (cell_lt_irrefl (cell a)); by eapply cell_lt_trans|].
  rewrite H' in H. by apply cell_lt_irrefl in H.
Qed.

#[export] Instance cell_le_trans : Transitive cell_le.
Proof.
  intros a b c. rewrite !cell_le_alt. intros [H1|H1] [H2|H2]; try (rewrite H1 || rewrite <- H2); auto.
  left. by eapply cell_lt_trans.
Qed.

#[export] Instance cell_le_total : Total cell_le.
Proof.
  intros a b. rewrite !cell_le_alt. pose proof (cell_compare_spec (cell a) (cell b)) as H.
  destruct (cell_compare (cell a) (cell b)); auto.
Qed.

(** The sorted frontier answers for the cells it holds. *)
Lemma frontier_ordered F c :
  ordered_by (λ n, cell_compare (cell n) c) (merge_sort cell_le F).
Proof.
  intros i j x y Hij Hx Hy.
  assert (cell_le x y) as Hle.
  { destruct (decide (i = j)) as [->|Hne]; [simplify_eq; apply cell_le_alt; by right|].
    eapply (StronglySorted_lookup cell_le); [apply (StronglySorted_merge_sort cell_le)|..|done|done]. lia. }
  apply cell_le_alt in Hle. pose proof (cell_compare_spec (cell x) c) as Hxc.
  pose proof (cell_compare_spec (cell y) c) as Hyc.
  split; intros Hx'; rewrite Hx' in Hxc.
  2: {subst. destruct (cell_compare (cell y) (cell x)); [done| |done].
    destruct Hle as [Hle|Hle]; [destruct (cell_lt_irrefl (cell x)); by eapply cell_lt_trans|].
    rewrite Hle in Hyc. by apply cell_lt_irrefl in Hyc. }
  assert (cell_lt c (cell y)) as Hcy.
    by (destruct Hle as [Hle|<-]; [by eapply cell_lt_trans|done]).
  destruct (cell_compare (cell y) c); [subst; by apply cell_lt_irrefl in Hcy| |done].
  destruct (cell_lt_irrefl c). by eapply cell_lt_trans.
Qed.

Lemma frontier_get_Some F n :
  NoDup (cell <$> F) → n ∈ F →
  ∀ level, fn_level n = N.of_nat level → frontier_get (from_frontier F) level (fn_prefix n) = Some (fn_hash n).
Proof.
  intros Hnd Hn level Hlevel. unfold frontier_get, from_frontier. cbn [frontier].
  rewrite <- Hlevel. change (fn_level n, fn_prefix n) with (cell n).
  pose proof (frontier_ordered F (cell n)) as Hord.
  assert (n ∈ merge_sort cell_le F) as [i Hi]%list_elem_of_lookup by by rewrite merge_sort_Permutation.
  destruct (binary_search_by_found _ _ i n Hord Hi) as [j Hj]; [by apply cell_compare_Eq|].
  pose proof (binary_search_by_spec _ _ Hord) as H. rewrite Hj in *. destruct H as (x & Hx & Hc).
  apply cell_compare_Eq in Hc. rewrite Hx. simpl. f_equal.
  assert (NoDup (cell <$> merge_sort cell_le F)) as Hnd' by by rewrite merge_sort_Permutation.
  assert (j = i) as ->; [|congruence].
  eapply NoDup_lookup; [exact Hnd'|rewrite list_lookup_fmap, Hx; simpl; by rewrite Hc|].
  by rewrite list_lookup_fmap, Hi.
Qed.

Lemma frontier_get_None F level prefix :
  (∀ n, n ∈ F → cell n ≠ (N.of_nat level, prefix)) → frontier_get (from_frontier F) level prefix = None.
Proof.
  intros Hno. unfold frontier_get, from_frontier. cbn [frontier].
  pose proof (binary_search_by_spec _ _ (frontier_ordered F (N.of_nat level, prefix))) as H.
  destruct (binary_search_by _ _) as [i|]; [|done]. destruct H as (x & Hx & Hc).
  apply cell_compare_Eq in Hc. destruct (Hno x); [|done].
  apply list_elem_of_lookup_2 in Hx. by rewrite merge_sort_Permutation in Hx.
Qed.

(** ** Cells below a cell *)

Lemma length_set_bit level prefix : length (set_bit level prefix) = length prefix.
Proof. apply length_alter. Qed.

Lemma bits_set_bit level prefix :
  level < 8 * length prefix → bits (set_bit level prefix) = <[level := true]> (bits prefix).
Proof.
  intros Hl. apply list_eq_same_length with (8 * length prefix);
    [by rewrite length_insert, length_bits|by rewrite length_bits, length_set_bit|].
  intros i x y Hi. rewrite lookup_bits by (by rewrite length_set_bit). intros Hx Hy. apply (inj Some) in Hx as <-.
  unfold set_bit.
  set (f := λ x, byte_of (N.lor (Byte.to_N x) (N.shiftl 1 (N.of_nat (7 - level `mod` 8))))).
  destruct (lookup_lt_is_Some_2 prefix (i / 8)) as [b Hb];
    [apply Nat.Div0.div_lt_upper_bound; lia|].
  pose proof (Nat.div_mod_eq i 8) as Hid. pose proof (Nat.div_mod_eq level 8) as Hld.
  assert (bits prefix !! i = Some (N.testbit (Byte.to_N b) (7 - N.of_nat (i `mod` 8)))) as Hib
    by (rewrite lookup_bits by done; by rewrite (list_lookup_total_correct _ _ _ Hb)).
  destruct (decide (i / 8 = level / 8)) as [Heq|Hne].
  - rewrite Heq in *. rewrite (list_lookup_total_correct (alter f (level / 8) prefix) (level / 8) (f b))
      by (rewrite list_lookup_alter_eq, Hb; done).
    unfold f. rewrite byte_of_to_N.
    2: { rewrite N.shiftl_1_l. apply N.log2_lt_cancel. change (N.log2 256) with 8%N. rewrite N.log2_lor.
         apply N.max_lub_lt; [|rewrite N.log2_pow2; lia].
         destruct (N.eq_dec (Byte.to_N b) 0%N) as [->|]; [done|].
         apply N.log2_lt_pow2; [lia|apply byte_to_N_lt]. }
    rewrite N.lor_spec, N.shiftl_1_l, N.pow2_bits_eqb.
    pose proof (Nat.mod_upper_bound i 8). pose proof (Nat.mod_upper_bound level 8).
    destruct (decide (i = level)) as [->|Hil].
    + rewrite list_lookup_insert_eq in Hy by by rewrite length_bits. injection Hy as <-.
      apply orb_true_iff. right. apply N.eqb_eq. lia.
    + rewrite list_lookup_insert_ne, Hib in Hy by done. injection Hy as <-.
      rewrite (proj2 (N.eqb_neq _ _)) by lia. apply orb_false_r.
  - rewrite (list_lookup_total_correct (alter f (level / 8) prefix) (i / 8) b)
      by (by rewrite list_lookup_alter_ne by done).
    rewrite list_lookup_insert_ne, Hib in Hy by (intros ->; done). by injection Hy.
Qed.

(** The prefix of a cell: no bit set from its level on. *)
Record prefix_ok (p : SmtParams) (level : nat) (prefix : bytes) : Prop := {
  po_width : length prefix = width p;
  po_zero : ∀ i, level ≤ i → i < depth p → bits prefix !! i = Some false;
}.

Lemma prefix_ok_root p : prefix_ok p 0 (zeros (width p)).
Proof.
  split; [apply length_replicate|]. intros i _ Hi. unfold depth in Hi.
  assert (length (zeros (width p)) = width p) as Hlen by apply length_replicate.
  rewrite lookup_bits by lia. unfold zeros.
  rewrite (list_lookup_total_correct _ _ Byte.x00); [by rewrite N.bits_0|].
  apply lookup_replicate. split; [done|]. apply Nat.Div0.div_lt_upper_bound. lia.
Qed.

Lemma prefix_ok_left p level prefix : prefix_ok p level prefix → prefix_ok p (S level) prefix.
Proof. intros [Hw Hz]. split; [done|]. intros i Hi. apply Hz. lia. Qed.

Lemma prefix_ok_right p level prefix :
  level < depth p → prefix_ok p level prefix → prefix_ok p (S level) (set_bit level prefix).
Proof.
  unfold depth. intros Hl [Hw Hz]. split; [by rewrite length_set_bit|]. intros i Hi1 Hi2.
  rewrite bits_set_bit, list_lookup_insert_ne by lia. apply Hz; [lia|done].
Qed.

Definition below (level : nat) (prefix : bytes) (n : FrontierNode) : Prop :=
  level ≤ N.to_nat (fn_level n) ∧ take level (bits (fn_prefix n)) = take level (bits prefix).

Lemma below_left p level prefix n :
  level < depth p → prefix_ok p level prefix → below (S level) prefix n → below level prefix n.
Proof.
  intros Hl Hp [H1 H2]. split; [lia|]. apply (f_equal (take level)) in H2. rewrite !take_take in H2.
  by replace (level `min` S level) with level in H2 by lia.
Qed.

Lemma take_set_bit p level prefix :
  level < depth p → prefix_ok p level prefix →
  take level (bits (set_bit level prefix)) = take level (bits prefix).
Proof.
  unfold depth. intros Hl [Hw _]. rewrite bits_set_bit by lia. by apply take_insert_ge.
Qed.

Lemma below_right p level prefix n :
  level < depth p → prefix_ok p level prefix → below (S level) (set_bit level prefix) n → below level prefix n.
Proof.
  intros Hl Hp [H1 H2]. split; [lia|]. rewrite <- (take_set_bit p level prefix) by done.
  apply (f_equal (take level)) in H2. rewrite !take_take in H2.
  by replace (level `min` S level) with level in H2 by lia.
Qed.

(** The two sides of a split share no prefix. *)
Lemma below_disjoint p level prefix q :
  level < depth p → prefix_ok p level prefix →
  take (S level) (bits q) = take (S level) (bits prefix) →
  take (S level) (bits q) = take (S level) (bits (set_bit level prefix)) → False.
Proof.
  intros Hl Hp H1 H2. rewrite H1 in H2. apply (f_equal (lookup level)) in H2.
  rewrite !lookup_take_lt, (po_zero _ _ _ Hp), bits_set_bit, list_lookup_insert_eq in H2
    by (destruct Hp as [Hw _]; unfold depth in *; rewrite ?length_bits; lia). done.
Qed.

(** ** Building the frontier *)

Lemma build_unfold p t full prefix level d chain out :
  t ≠ [] →
  build_frontier_rec p t full prefix level (S d) chain out =
  build_frontier_rec p (right_part id level t) (right_part fst level full) (set_bit level prefix) (S level) d chain
    (build_frontier_rec p (left_part id level t) (left_part fst level full) prefix (S level) d chain out).
Proof. by destruct t as [|k t]. Qed.

Lemma build_out p t full prefix level d chain out :
  build_frontier_rec p t full prefix level d chain out =
  out ++ build_frontier_rec p t full prefix level d chain [].
Proof.
  revert t full prefix level out. induction d as [|d IH]; intros t full prefix level out;
    (destruct (decide (t = [])) as [->|Hne]; [destruct full; simpl; by rewrite ?app_nil_r|]).
  - destruct t; simpl; by rewrite ?app_nil_r.
  - rewrite !build_unfold by done. rewrite (IH _ _ _ _ (build_frontier_rec _ _ _ _ _ _ _ out)), (IH _ _ _ _ out).
    rewrite (IH (right_part _ _ _) _ _ _ (build_frontier_rec _ _ _ _ _ _ _ [])). by rewrite <- (assoc_L (++)).
Qed.

Lemma build_split p t full prefix level d chain :
  t ≠ [] →
  build_frontier_rec p t full prefix level (S d) chain [] =
  build_frontier_rec p (left_part id level t) (left_part fst level full) prefix (S level) d chain [] ++
  build_frontier_rec p (right_part id level t) (right_part fst level full) (set_bit level prefix) (S level) d chain [].
Proof. intros Hne. rewrite build_unfold by done. apply build_out. Qed.

Lemma build_here p full prefix level d chain :
  level + d = depth p → (N.of_nat (depth p) < 65536)%N → full ≠ [] →
  build_frontier_rec p [] full prefix level d chain [] =
  [mkFrontierNode (N.of_nat level) prefix (sparse_root_sorted p full level d chain)].
Proof.
  intros Hd Hlim Hne. destruct d, full as [|e full]; try done; simpl;
    rewrite N.mod_small by lia; done.
Qed.

Lemma build_below p t full prefix level d chain n :
  level + d = depth p → (N.of_nat (depth p) < 65536)%N → prefix_ok p level prefix →
  n ∈ build_frontier_rec p t full prefix level d chain [] → below level prefix n.
Proof.
  intros Hd Hlim. revert t full prefix level Hd.
  induction d as [|d IH]; intros t full prefix level Hd Hp Hn;
    (destruct (decide (t = [])) as [->|Hne];
      [destruct (decide (full = [])) as [->|Hf]; [by apply elem_of_nil in Hn|];
       rewrite build_here in Hn by done; apply list_elem_of_singleton in Hn as ->;
       split; simpl; [lia|done]|]).
  - destruct t; [done|]. by apply elem_of_nil in Hn.
  - rewrite build_split in Hn by done. apply elem_of_app in Hn as [Hn|Hn].
    + apply (below_left p); [lia|done|]. eapply IH; [lia|by apply prefix_ok_left|exact Hn].
    + apply (below_right p); [lia|done|]. eapply IH; [lia|by apply prefix_ok_right; [lia|]|exact Hn].
Qed.

Lemma build_cells p t full prefix level d chain :
  level + d = depth p → (N.of_nat (depth p) < 65536)%N → prefix_ok p level prefix →
  NoDup (cell <$> build_frontier_rec p t full prefix level d chain []).
Proof.
  intros Hd Hlim. revert t full prefix level Hd.
  induction d as [|d IH]; intros t full prefix level Hd Hp;
    (destruct (decide (t = [])) as [->|Hne];
      [destruct (decide (full = [])) as [->|Hf]; [constructor|];
       rewrite build_here by done; apply NoDup_singleton|]).
  - destruct t; [done|]. constructor.
  - rewrite build_split, fmap_app by done. apply NoDup_app. split_and!.
    + apply IH; [lia|by apply prefix_ok_left].
    + intros c (n1 & -> & H1)%list_elem_of_fmap (n2 & Hc & H2)%list_elem_of_fmap.
      apply build_below in H1 as [_ H1]; [|lia|done|by apply prefix_ok_left].
      apply build_below in H2 as [_ H2]; [|lia|done|by apply prefix_ok_right; [lia|]].
      unfold cell in Hc. injection Hc as _ Hpre. rewrite <- Hpre in H2.
      eapply (below_disjoint p level prefix); [lia|done..].
    + apply IH; [lia|by apply prefix_ok_right; [lia|]].
Qed.

(** The nodes of [F] below a cell are those collected there. *)
Definition covers (p : SmtParams) (F : list FrontierNode) (t : list bytes) (full : leaves)
    (prefix : bytes) (level d : nat) : Prop :=
  ∀ n, n ∈ F ∧ below level prefix n ↔ n ∈ build_frontier_rec p t full prefix level d (empty_chain p) [].

Lemma covers_split p F t full prefix level d :
  level + S d = depth p → (N.of_nat (depth p) < 65536)%N → prefix_ok p level prefix → t ≠ [] →
  covers p F t full prefix level (S d) →
  covers p F (left_part id level t) (left_part fst level full) prefix (S level) d ∧
  covers p F (right_part id level t) (right_part fst level full) (set_bit level prefix) (S level) d.
Proof.
  intros Hd Hlim Hp Hne Hc.
  assert (prefix_ok p (S level) prefix) as Hp0 by by apply prefix_ok_left.
  assert (prefix_ok p (S level) (set_bit level prefix)) as Hp1 by (apply prefix_ok_right; [lia|done]).
  assert (level < depth p) as Hl by lia. assert (S level + d = depth p) as Hd' by lia.
  split; intros n; specialize (Hc n); rewrite build_split, elem_of_app in Hc by done; split.
  - intros [Hn Hb]. destruct (proj1 Hc) as [|H]; [split; [done|by eapply below_left]|done|].
    apply build_below in H as [_ H]; [|done..]. destruct Hb as [_ Hb].
    exfalso. exact (below_disjoint p level prefix _ Hl Hp Hb H).
  - intros Hn. split; [apply Hc; by left|]. by eapply build_below.
  - intros [Hn Hb]. destruct (proj1 Hc) as [H|]; [split; [done|by eapply below_right]| |done].
    apply build_below in H as [_ H]; [|done..]. destruct Hb as [_ Hb].
    exfalso. exact (below_disjoint p level prefix _ Hl Hp H Hb).
  - intros Hn. split; [apply Hc; by right|]. by eapply build_below.
Qed.

(** A cell without touched keys: its hash comes from the frontier. *)
Lemma build_root_untouched p F full prefix level d :
  level + d = depth p → (N.of_nat (depth p) < 65536)%N → slice fst (width p) level full →
  NoDup (cell <$> F) → covers p F [] full prefix level d →
  root_rec (from_frontier F) p [] prefix level d (empty_chain p) = smt p d (over level full no_leaves).
Proof.
  intros Hd Hlim Hs Hnd Hc.
  transitivity (default (empty_chain p !!! d) (frontier_get (from_frontier F) level prefix)); [by destruct d|].
  destruct (decide (full = [])) as [->|Hne].
  - rewrite frontier_get_None; [apply empty_chain_lookup; lia|].
    intros n Hn Hcell. apply (not_elem_of_nil n).
    assert (n ∈ build_frontier_rec p [] [] prefix level d (empty_chain p) []) as H.
    { apply Hc. split; [done|]. injection Hcell as H1 H2. split; [rewrite H1; lia|by rewrite H2]. }
    by destruct d.
  - set (n := mkFrontierNode (N.of_nat level) prefix (sparse_root_sorted p full level d (empty_chain p))).
    rewrite (frontier_get_Some F n Hnd); [|apply Hc; rewrite build_here by done; by left|done].
    simpl. by apply sparse_root_smt.
Qed.

Lemma build_rec_root p F full touched prefix level d :
  level + d = depth p → (N.of_nat (depth p) < 65536)%N → prefix_ok p level prefix →
  slice fst (width p) level touched → slice fst (width p) level full →
  NoDup (cell <$> F) → covers p F touched.*1 full prefix level d →
  root_rec (from_frontier F) p touched prefix level d (empty_chain p) =
  smt p d (over level touched (over level full no_leaves)).
Proof.
  intros Hd Hlim Hp Hs Hf Hnd. revert full touched prefix level Hd Hp Hs Hf.
  induction d as [|d IH]; intros full touched prefix level Hd Hp Hs Hf Hc;
    (destruct (decide (touched = [])) as [->|Hne]; [by apply build_root_untouched|]).
  - destruct touched as [|[k h] touched]; [done|]. simpl.
    destruct Hs as [Hw _]. apply Forall_cons in Hw as [Hk _]. simpl in Hk.
    rewrite suffix_end; [done|]. unfold depth in Hd. lia.
  - destruct (split_slice fst (width p) level touched) as (_ & _ & _ & Hs0 & Hs1);
      [unfold depth in Hd; lia|done|].
    destruct (split_slice fst (width p) level full) as (_ & _ & _ & Hf0 & Hf1);
      [unfold depth in Hd; lia|done|].
    destruct (covers_split p F touched.*1 full prefix level d) as [Hc0 Hc1]; [done..| |done|].
    { intros Hnil. by apply fmap_nil_inv in Hnil. }
    rewrite (left_part_fmap fst id) in Hc0. rewrite (right_part_fmap fst id) in Hc1.
    rewrite root_rec_unfold, smt_over by done.
    assert (S level + d = depth p) as Hd' by lia. assert (level < depth p) as Hl by lia.
    rewrite (IH _ _ _ _ Hd' (prefix_ok_left _ _ _ Hp) Hs0 Hf0 Hc0).
    rewrite (IH _ _ _ _ Hd' (prefix_ok_right _ _ _ Hl Hp) Hs1 Hf1 Hc1).
    assert (∀ b : bool, ∀ l, smt p d (over (S level) l (λ k, over level full no_leaves (b :: k))) =
      smt p d (over (S level) l (over (S level)
        (if b then right_part fst level full else left_part fst level full) no_leaves))) as Hfull.
    { intros b l. apply smt_ext. intros k _. apply over_ext. apply (over_split p); [lia|done]. }
    by rewrite (Hfull false), (Hfull true).
Qed.

(** * Sparse Merkle trees of maps, and the witnessed ledger

    [map_root p m] is the root of a committed map, recomputed from its sorted
    leaves.  [follows]: a ledger that answers as a map and whose frontier folds
    every choice of touched leaves to the root of the map with those leaves keeps
    doing both through any sequence of writes.  SmtSound.v gives it for a ledger
    built from an untrusted witness, [build_rec_root] for one built from the map. *)

(** ** Trees of maps *)

(** Leaves given by a function on a list of keys. *)
Definition keyed (g : bytes → Hash) (ks : list bytes) : leaves := (λ k, (k, g k)) <$> ks.

Definition map_leaves (p : SmtParams) (m : gmap bytes bytes) : leaves :=
  keyed (λ k, leaf_hash p (m !!! k)) (sorted_keys bytes_le m).
Definition map_root (p : SmtParams) (m : gmap bytes bytes) : Hash := root_of_sorted p (map_leaves p m).
Definition map_tree (p : SmtParams) (m : gmap bytes bytes) : list bool → Hash :=
  over 0 (map_leaves p m) no_leaves.

Definition keys_ok {A} (p : SmtParams) (m : gmap bytes A) : Prop := map_Forall (λ k _, length k = width p) m.

Lemma keyed_fst g ks : (keyed g ks).*1 = ks.
Proof. unfold keyed. rewrite <- list_fmap_compose. by apply list_fmap_id. Qed.

Lemma touched_keyed p t : touched_leaves p t = keyed (λ k, slot_hash p (t !!! k)) (sorted_keys bytes_le t).
Proof. done. Qed.

Lemma over_keyed g ks f k :
  over 0 (keyed g ks) f (bits k) = if decide (k ∈ ks) then g k else f (bits k).
Proof.
  induction ks as [|k' ks IH]; [done|]. cbn [keyed fmap list_fmap over]. fold (keyed g ks).
  change (suffix 0 (k', g k').1) with (bits k'). rewrite IH. destruct (decide (k' = k)) as [->|Hne].
  - by rewrite !decide_True by (done || left).
  - rewrite decide_False by (by intros ?%bits_inj).
    destruct (decide (k ∈ ks)); [by rewrite decide_True by by right|].
    rewrite decide_False; [done|]. by intros [?|?]%elem_of_cons.
Qed.

Lemma over_keyed_other g ks f x : (∀ k, k ∈ ks → bits k ≠ x) → over 0 (keyed g ks) f x = f x.
Proof.
  induction ks as [|k ks IH]; intros Hno; [done|]. cbn [keyed fmap list_fmap over]. fold (keyed g ks).
  change (suffix 0 (k, g k).1) with (bits k). rewrite decide_False by (apply Hno; left).
  apply IH. intros k' Hk'. apply Hno. by right.
Qed.

Lemma keyed_slice {A} p g (m : gmap bytes A) :
  keys_ok p m → slice fst (width p) 0 (keyed g (sorted_keys bytes_le m)).
Proof.
  intros Hok. apply slice_keys.
  - apply Forall_forall. intros e (k & -> & [a Ha]%elem_of_sorted_keys)%list_elem_of_fmap. by apply (Hok k a).
  - eapply StronglySorted_fmap; [|apply sorted_keys_strict]. done.
Qed.

Lemma map_tree_lookup p m k : map_tree p m (bits k) = slot_hash p (m !! k).
Proof.
  unfold map_tree, map_leaves. rewrite over_keyed. case_decide as Hk.
  - apply elem_of_sorted_keys in Hk as [c Hc]. by rewrite lookup_total_alt, Hc.
  - rewrite elem_of_sorted_keys in Hk. by rewrite (proj2 (eq_None_not_Some _) Hk).
Qed.

Lemma map_root_smt p m : keys_ok p m → map_root p m = smt p (depth p) (map_tree p m).
Proof. intros Hok. apply sparse_root_smt; [done|]. by apply (keyed_slice p). Qed.

Lemma length_slot_hash p v : length (slot_hash p v) = 32.
Proof. destruct v; [apply length_digest|done]. Qed.

Lemma length_map_tree p m x : length (map_tree p m x) = 32.
Proof.
  unfold map_tree. assert (hashes_ok (map_leaves p m)) as Hok.
  { apply Forall_forall. intros e (k & -> & _)%list_elem_of_fmap. apply length_digest. }
  induction (map_leaves p m) as [|e l IH]; [done|]. apply Forall_cons in Hok as [He Hok]. simpl.
  case_decide; [done|]. by apply IH.
Qed.

(** [m] with the slots of [t]. *)
Definition overlay (t : gmap bytes (option bytes)) (m : gmap bytes bytes) : gmap bytes bytes :=
  merge (λ s v, match s with Some slot => slot | None => v end) t m.

Lemma lookup_overlay t m k : overlay t m !! k = match t !! k with Some slot => slot | None => m !! k end.
Proof. unfold overlay. rewrite lookup_merge. unfold diag_None. by destruct (t !! k), (m !! k). Qed.

Lemma over_touched p t m x :
  over 0 (touched_leaves p t) (map_tree p m) x = map_tree p (overlay t m) x.
Proof.
  destruct (decide (Exists (λ k, bits k = x) (sorted_keys bytes_le t ++ sorted_keys bytes_le m))) as [Hx|Hx].
  - apply Exists_exists in Hx as (k & _ & <-). rewrite map_tree_lookup, lookup_overlay.
    rewrite touched_keyed, over_keyed. case_decide as Hk.
    + apply elem_of_sorted_keys in Hk as [c Hc]. by rewrite lookup_total_alt, Hc.
    + rewrite elem_of_sorted_keys in Hk. rewrite (proj2 (eq_None_not_Some _) Hk). apply map_tree_lookup.
  - assert (∀ k, is_Some (t !! k) ∨ is_Some (m !! k) → bits k ≠ x) as Hno.
    { intros k Hk Heq. apply Hx, Exists_exists. exists k. split; [|done].
      by rewrite elem_of_app, !elem_of_sorted_keys. }
    rewrite touched_keyed. unfold map_tree, map_leaves. rewrite (over_keyed_other _ (sorted_keys _ t))
      by (intros k Hk%elem_of_sorted_keys; apply Hno; by left).
    rewrite !over_keyed_other; [done|..].
    + intros k Hk%elem_of_sorted_keys. rewrite lookup_overlay in Hk.
      apply Hno. destruct (t !! k); [by left|by right].
    + intros k Hk%elem_of_sorted_keys. apply Hno. by right.
Qed.

(** ** Ledgers *)

(** Writes of a transition: [Some] inserts, [None] removes. *)
Definition write := (bytes * option bytes)%type.

Fixpoint ledger_writes (l : WitnessedLedger) (ws : list write) : option WitnessedLedger :=
  match ws with
  | [] => Some l
  | (k, v) :: ws =>
      match (match v with Some c => ledger_insert l k c | None => ledger_remove l k end) with
      | Some l => ledger_writes l ws
      | None => None
      end
  end.

Definition map_writes (m : gmap bytes bytes) (ws : list write) : gmap bytes bytes :=
  foldl (λ m w, partial_alter (λ _, w.2) w.1 m) m ws.

Definition ledger_answers (l : WitnessedLedger) (m : gmap bytes bytes) : Prop :=
  ∀ k v, ledger_get l k = Some v → m !! k = v.

Record follows (l : WitnessedLedger) (m m0 : gmap bytes bytes) : Prop := {
  fo_keys : keys_ok (wl_params l) (wl_leaves l);
  fo_map : m = overlay (wl_leaves l) m0;
  fo_base : keys_ok (wl_params l) m0;
  fo_root : ∀ touched, touched.*1 = sorted_keys bytes_le (wl_leaves l) →
    batch_root (wl_proof l) (wl_params l) touched =
    smt (wl_params l) (depth (wl_params l)) (over 0 touched (map_tree (wl_params l) m0));
}.

Lemma touched_leaves_fst p t : (touched_leaves p t).*1 = sorted_keys bytes_le t.
Proof. rewrite touched_keyed. apply keyed_fst. Qed.

Lemma follows_root l m m0 :
  follows l m m0 → ledger_answers l m ∧ ledger_root l = map_root (wl_params l) m.
Proof.
  intros [Hk -> Hb Hr]. split; [intros k v Hkv; rewrite lookup_overlay; unfold ledger_get in Hkv; by rewrite Hkv|].
  unfold ledger_root. rewrite Hr by apply touched_leaves_fst. rewrite map_root_smt.
  - apply smt_ext. intros k _. apply over_touched.
  - intros k c. rewrite lookup_overlay. destruct (wl_leaves l !! k) as [v|] eqn:Hv.
    + intros ->. by apply (Hk k (Some c)).
    + apply Hb.
Qed.

Lemma follows_set l l' m m0 k v :
  follows l m m0 → ledger_set l k v = Some l' → follows l' (partial_alter (λ _, v) k m) m0.
Proof.
  intros [Hk -> Hb Hr] Hs. unfold ledger_set in Hs. destruct (wl_leaves l !! k) as [old|] eqn:Hold; [|done].
  injection Hs as <-. split; cbn [wl_params wl_leaves wl_proof].
  - by apply map_Forall_insert_2; [apply (Hk k old)|].
  - apply map_eq. intros k'. rewrite lookup_overlay. destruct (decide (k = k')) as [<-|Hne].
    + by rewrite lookup_partial_alter_eq, lookup_insert_eq.
    + by rewrite lookup_partial_alter_ne, lookup_insert_ne, lookup_overlay.
  - done.
  - intros touched Ht. apply Hr. rewrite Ht. apply sorted_keys_unique; [apply sorted_keys_strict|].
    intros k'. rewrite elem_of_sorted_keys. destruct (decide (k = k')) as [<-|Hne].
    + rewrite lookup_insert_eq, Hold. by split.
    + by rewrite lookup_insert_ne.
Qed.

Lemma ledger_set_params l l' k v :
  ledger_set l k v = Some l' →
  wl_params l' = wl_params l ∧ ∀ k', is_Some (ledger_get l' k') ↔ is_Some (ledger_get l k').
Proof.
  unfold ledger_set, ledger_get. destruct (wl_leaves l !! k) eqn:Hk; [|done]. intros [= <-]. split; [done|].
  intros k'. cbn [wl_leaves]. destruct (decide (k = k')) as [<-|Hne].
  - rewrite lookup_insert_eq, Hk. by split.
  - by rewrite lookup_insert_ne.
Qed.

(** A ledger keeps following through any writes, and stops only at a key that
    was not witnessed. *)
Lemma follows_writes ws l m m0 :
  follows l m m0 →
  match ledger_writes l ws with
  | Some l' => wl_params l' = wl_params l ∧ follows l' (map_writes m ws) m0
  | None => ∃ k v, (k, v) ∈ ws ∧ ledger_get l k = None
  end.
Proof.
  revert l m. induction ws as [|[k v] ws IH]; intros l m Hf; [by split|]. cbn [ledger_writes].
  replace (match v with Some c => ledger_insert l k c | None => ledger_remove l k end) with (ledger_set l k v)
    by by destruct v.
  destruct (ledger_set l k v) as [l1|] eqn:Hs.
  - destruct (ledger_set_params _ _ _ _ Hs) as [Hp Hdom].
    specialize (IH l1 _ (follows_set _ _ _ _ _ _ Hf Hs)).
    destruct (ledger_writes l1 ws) as [l'|].
    + destruct IH as [Hp' Hf']. split; [congruence|done].
    + destruct IH as (k' & v' & Hin & Hno). exists k', v'. split; [by right|].
      apply eq_None_not_Some. rewrite <- Hdom. by rewrite <- eq_None_not_Some.
  - exists k, v. split; [left|]. unfold ledger_set in Hs. unfold ledger_get. by destruct (wl_leaves l !! k).
Qed.

(** The witnessed slots of a list of keys. *)
Lemma lookup_collect (m : gmap bytes bytes) keys k :
  collect_leaves ((λ k, (k, m !! k)) <$> keys) !! k = if decide (k ∈ keys) then Some (m !! k) else None.
Proof.
  unfold collect_leaves. induction keys as [|k' keys IH] using rev_ind; [done|].
  rewrite fmap_app, foldl_app. cbn [fmap list_fmap foldl fst snd]. destruct (decide (k' = k)) as [->|Hne].
  - rewrite lookup_insert_eq, decide_True; [done|]. apply elem_of_app. right. by left.
  - rewrite lookup_insert_ne by done. rewrite IH. apply decide_ext.
    rewrite elem_of_app, list_elem_of_singleton. naive_solver.
Qed.

Lemma sorted_keys_collect (m : gmap bytes bytes) keys :
  sorted_keys bytes_le (collect_leaves ((λ k, (k, m !! k)) <$> keys)) = sort_dedup bytes_le keys.
Proof.
  apply sorted_keys_unique; [apply sort_dedup_strict; apply _|].
  intros k. rewrite elem_of_sort_dedup, lookup_collect. case_decide; by split; try (by intros []).
Qed.

(** The multiproof of a map folds any leaves of the touched keys. *)
Lemma build_batch_root p m keys touched :
  keys_ok p m → (N.of_nat (depth p) < 65536)%N → Forall (λ k, length k = width p) keys →
  touched.*1 = sort_dedup bytes_le keys →
  batch_root (build p (map_leaves p m) keys) p touched = smt p (depth p) (over 0 touched (map_tree p m)).
Proof.
  intros Hm Hlim Hkeys Ht. unfold batch_root, build. rewrite <- Ht.
  apply build_rec_root; [done|done|apply prefix_ok_root| |by apply (keyed_slice p)|
    apply build_cells; [done|done|apply prefix_ok_root]|].
  - rewrite Forall_forall in Hkeys. apply (slice_fmap fst id), slice_keys.
    + rewrite Ht. apply Forall_forall. intros k Hk%elem_of_sort_dedup. by apply Hkeys.
    + rewrite Ht. apply sort_dedup_strict. apply _.
  - intros n. split; [by intros [H _]|]. intros Hn. split; [done|]. split; [lia|done].
Qed.

(** Built proofs hold 32-byte hashes. *)
Lemma build_hashes_ok p t full prefix level d chain :
  hashes_ok full → Forall (λ n, length (fn_hash n) = 32) (build_frontier_rec p t full prefix level d chain []).
Proof.
  revert t full prefix level. induction d as [|d IH]; intros t full prefix level Hf;
    (destruct (decide (t = [])) as [->|Hne];
      [destruct full as [|[k h] full]; [constructor|]; repeat constructor; simpl;
       by (apply Forall_cons in Hf as [? _] || apply length_node_hash)|]).
  - destruct t; [done|constructor].
  - rewrite build_split by done. apply Forall_app. unfold hashes_ok in IH.
    split; apply IH; [by apply Forall_take|by apply Forall_drop].
Qed.

Lemma proof_ok_build p m keys : proof_ok (build p (map_leaves p m) keys).
Proof.
  unfold proof_ok, build, from_frontier. cbn [frontier]. rewrite merge_sort_Permutation.
  apply build_hashes_ok. apply Forall_forall. intros e (k & -> & _)%list_elem_of_fmap. apply length_digest.
Qed.
