(* ===== verification/SmtProps.v ===== *)
(** * Sparse Merkle commitments: properties

    What a task that runs against a witness, and the parent that ships it, rely
    on: a ledger built from an untrusted witness behaves as the committed map or
    exhibits two preimages of one digest, a witness built from the map is always
    accepted, and the proof of one key is accepted exactly for the committed
    leaf. *)

From Stdlib.Strings Require Byte.
From stdpp Require Import strings.
From S2P Require Import Prelude Bytes Slices Blake2b V2Wire V2Identity Smt SmtSound SmtLedger.

Local Open Scope nat_scope.

(** The pairs of child hashes a ledger hashes to recompute its root. *)
Definition ledger_pairs (l : WitnessedLedger) : list (Hash * Hash) :=
  root_pairs (wl_proof l) (wl_params l) (touched_leaves (wl_params l) (wl_leaves l))
    (zeros (width (wl_params l))) 0 (depth (wl_params l)) (empty_chain (wl_params l)).

(** A ledger that deceives about [m]: a slot that is not the map's but has its
    leaf hash, or a pair it hashes that clashes with a pair of the map's tree. *)
Definition ledger_forged (m : gmap bytes bytes) (l : WitnessedLedger) : Prop :=
  (∃ k v, ledger_get l k = Some v ∧ v ≠ m !! k ∧ slot_hash (wl_params l) v = slot_hash (wl_params l) (m !! k)) ∨
  (∃ a b, a ∈ ledger_pairs l ∧ smt_pair (wl_params l) (depth (wl_params l)) (map_tree (wl_params l) m) b ∧
     clash (wl_params l) a b).

(** What a ledger promises about the map it stands for. *)
Definition ledger_refines (m : gmap bytes bytes) (l : WitnessedLedger) : Prop :=
  ledger_answers l m ∧
  ∀ ws, match ledger_writes l ws with
        | Some l' => ledger_answers l' (map_writes m ws) ∧ ledger_root l' = map_root (wl_params l) (map_writes m ws)
        | None => ∃ k v, (k, v) ∈ ws ∧ ledger_get l k = None
        end.

Lemma follows_refines l m m0 : follows l m m0 → ledger_refines m l.
Proof.
  intros Hf. split; [by apply follows_root in Hf as []|]. intros ws.
  pose proof (follows_writes ws l m m0 Hf) as H. destruct (ledger_writes l ws) as [l'|]; [|done].
  destruct H as [Hp Hf']. apply follows_root in Hf' as [Ha Hr]. by rewrite Hr, Hp.
Qed.

Lemma ledger_new_Some p proof touched root l :
  ledger_new p proof touched root = Some l →
  l = mkLedger p proof (collect_leaves touched) ∧ keys_ok p (collect_leaves touched) ∧ ledger_root l = root.
Proof.
  unfold ledger_new. destruct (forallb _ _) eqn:Hk; [|done]. case_bool_decide as Hr; [|done].
  intros [= <-]. split_and!; [done| |done]. intros k v Hkv. rewrite forallb_forall in Hk.
  apply (bool_decide_eq_true_1 _). apply Hk, list_elem_of_In, elem_of_sorted_keys. by rewrite Hkv.
Qed.

Lemma overlay_agrees t m : (∀ k v, t !! k = Some v → v = m !! k) → overlay t m = m.
Proof.
  intros Hag. apply map_eq. intros k. rewrite lookup_overlay. destruct (t !! k) as [v|] eqn:Hv; [by apply Hag|done].
Qed.

(** A witness built from the map is accepted. *)
Lemma build_accepted p (m : gmap bytes bytes) keys :
  keys_ok p m → (N.of_nat (depth p) < 65536)%N → Forall (λ k, length k = width p) keys →
  ∃ l, ledger_new p (build p (map_leaves p m) keys) ((λ k, (k, m !! k)) <$> keys) (map_root p m) = Some l ∧
    (∀ k, is_Some (ledger_get l k) ↔ k ∈ keys) ∧ ledger_refines m l.
Proof.
  intros Hm Hlim Hkeys.
  set (t := collect_leaves ((λ k, (k, m !! k)) <$> keys)).
  set (l := mkLedger p (build p (map_leaves p m) keys) t).
  assert (follows l m m) as Hf.
  { split; cbn [l wl_params wl_leaves wl_proof].
    - intros k v Hkv. unfold t in Hkv. rewrite lookup_collect in Hkv. case_decide; [|done].
      rewrite Forall_forall in Hkeys. by apply Hkeys.
    - symmetry. apply overlay_agrees. intros k v. unfold t. rewrite lookup_collect. case_decide; by intros [= <-].
    - done.
    - intros touched. unfold t. rewrite sorted_keys_collect. by apply build_batch_root. }
  exists l. split_and!; [|intros k; cbn [l ledger_get wl_leaves]; unfold t|by eapply follows_refines].
  - unfold ledger_new. fold t. rewrite (proj2 (forallb_forall _ _)).
    + rewrite bool_decide_eq_true_2; [done|]. by apply follows_root in Hf as [_ Hr].
    + intros k [v Hv]%list_elem_of_In%elem_of_sorted_keys. apply bool_decide_eq_true_2.
      by apply (fo_keys _ _ _ Hf k v).
  - unfold ledger_get. cbn [l wl_leaves]. unfold t. rewrite lookup_collect. case_decide; by split; try (by intros []).
Qed.

(** A map of two-byte keys, and keys of it that are present and absent. *)
Definition sample_map : gmap bytes bytes :=
  {[ b# "ab" := b# "first"; b# "ac" := b# "second"; b# "zz" := b# "last" ]}.
Definition sample_keys : list bytes := [b# "zz"; b# "ab"; b# "xy"; b# "ab"].

(** C13: a ledger verified against the root of a committed map is that map.  For
    any witness and any frontier, once [WitnessedLedger::new] has accepted it
    against the root of [m], every slot it answers is the map's, and after any
    insertions and removals it answers as the updated map does and its root is the
    root recomputed from the updated map's leaves; an access stops only at a key
    that was not witnessed.  The alternative is explicit: the ledger holds two
    byte strings with one blake2b digest. *)
Theorem witnessed_ledger_sound p proof touched (m : gmap bytes bytes) l :
  keys_ok p m → proof_ok proof →
  ledger_new p proof touched (map_root p m) = Some l →
  ledger_forged m l ∨ ledger_refines m l.
Proof.
  intros Hm Hproof Hnew. apply ledger_new_Some in Hnew as (-> & Hk & Hr). set (t := collect_leaves touched) in *.
  unfold ledger_root in Hr. cbn [wl_params wl_proof wl_leaves] in Hr. rewrite map_root_smt in Hr by done.
  apply root_rec_sound in Hr as [Hc|[Hag Hroot]];
    [left; by right| |done|by apply (keyed_slice p)|done| |intros; apply length_map_tree].
  2: { apply Forall_forall. intros e (k & -> & _)%list_elem_of_fmap. apply length_slot_hash. }
  assert (∀ k v, t !! k = Some v → slot_hash p v = slot_hash p (m !! k)) as Hslots.
  { intros k v Hv. rewrite <- map_tree_lookup.
    assert ((k, slot_hash p v) ∈ touched_leaves p t) as He.
    { apply list_elem_of_fmap. exists k. split; [by rewrite lookup_total_alt, Hv|]. apply elem_of_sorted_keys. by rewrite Hv. }
    symmetry. exact (Hag _ He). }
  destruct (decide (map_Forall (λ k v, v = m !! k) t)) as [Hall|Hno].
  - right. apply (follows_refines _ m m). split; [done|by rewrite overlay_agrees|done|].
    intros touched' Ht. apply Hroot. by rewrite Ht, touched_leaves_fst.
  - left. left. apply map_not_Forall in Hno as (k & v & Hv & Hne); [|apply _].
    exists k, v. split_and!; [done|done|by apply Hslots].
Qed.

Lemma witnessed_ledger_sound_witness :
  ∃ l, ledger_new (vos 2) (build (vos 2) (map_leaves (vos 2) sample_map) sample_keys)
      ((λ k, (k, sample_map !! k)) <$> sample_keys) (map_root (vos 2) sample_map) = Some l ∧
    (ledger_forged sample_map l ∨ ledger_refines sample_map l).
Proof.
  assert (keys_ok (vos 2) sample_map) as Hm by (apply (bool_decide_eq_true_1 _); vm_compute; reflexivity).
  destruct (build_accepted (vos 2) sample_map sample_keys Hm) as (l & Hl & _).
  - vm_compute. reflexivity.
  - apply (bool_decide_eq_true_1 _). vm_compute. reflexivity.
  - exists l. split; [exact Hl|].
    exact (witnessed_ledger_sound _ _ _ _ _ Hm (proof_ok_build _ _ _) Hl).
Defined.

(** the witness a parent builds from the committed map is accepted.  For any
    keys of the tree's width, present or absent, the multiproof built over the
    map's leaves with the map's own contents verifies against the map's root, and
    the ledger it gives answers as the map and follows every write to the
    witnessed keys. *)
Theorem witnessed_ledger_complete p (m : gmap bytes bytes) keys :
  keys_ok p m → (N.of_nat (depth p) < 65536)%N → Forall (λ k, length k = width p) keys →
  ∃ l, into_ledger (mkWitness (map_root p m) (build p (map_leaves p m) keys) ((λ k, (k, m !! k)) <$> keys)) p = Some l ∧
    (∀ k, is_Some (ledger_get l k) ↔ k ∈ keys) ∧ ledger_refines m l.
Proof.
  intros Hm Hlim Hkeys. unfold into_ledger. cbn [lw_proof lw_touched lw_root_before].
  exact (build_accepted p m keys Hm Hlim Hkeys).
Qed.

Lemma witnessed_ledger_complete_witness :
  ∃ l, into_ledger (mkWitness (map_root (vos 2) sample_map) (build (vos 2) (map_leaves (vos 2) sample_map) sample_keys)
      ((λ k, (k, sample_map !! k)) <$> sample_keys)) (vos 2) = Some l ∧
    (∀ k, is_Some (ledger_get l k) ↔ k ∈ sample_keys) ∧ ledger_refines sample_map l.
Proof.
  apply witnessed_ledger_complete.
  - apply (bool_decide_eq_true_1 _). vm_compute. reflexivity.
  - vm_compute. reflexivity.
  - apply (bool_decide_eq_true_1 _). vm_compute. reflexivity.
Defined.

(** the proof of one key.  [SmtProof::verify] accepts, against the root of a
    committed map, the key's committed leaf with the siblings along its path, a
    removed key with [EMPTY_LEAF]; whatever it accepts has that leaf, unless a pair
    hashed by the proof clashes with a pair of the map's tree. *)
Theorem smt_proof_verify_exact p (m : gmap bytes bytes) key :
  keys_ok p m → length key = width p →
  (∃ sibs, verify (mkSmtProof key (slot_hash p (m !! key)) sibs) p (map_root p m) = true) ∧
  ∀ proof, proof_key proof = key → Forall (λ s, length s = 32) (siblings proof) → length (proof_leaf proof) = 32 →
    verify proof p (map_root p m) = true →
    proof_leaf proof = slot_hash p (m !! key) ∨
    ∃ a b, a ∈ climb_pairs p (bits key) (reverse (siblings proof)) (proof_leaf proof) ∧
      smt_pair p (depth p) (map_tree p m) b ∧ clash p a b.
Proof.
  intros Hm Hkey. assert (length (bits key) = depth p) as Hd by (rewrite length_bits; unfold depth; lia).
  assert (∀ leaf sibs, length sibs = depth p →
    fold_siblings p key leaf sibs = climb p (bits key) (reverse sibs) leaf) as Hfold.
  { intros leaf sibs Hs. rewrite fold_siblings_climb by lia. by rewrite Hs, Nat.sub_diag. }
  assert (∀ leaf sibs, verify (mkSmtProof key leaf sibs) p (map_root p m) = true ↔
    length sibs = depth p ∧ climb p (bits key) (reverse sibs) leaf = smt p (depth p) (map_tree p m)) as Hv.
  { intros leaf sibs. unfold verify. cbn [siblings proof_key proof_leaf]. fold (fold_siblings p key leaf sibs).
    rewrite <- map_root_smt by done. destruct (decide (length sibs = depth p)) as [Hs|Hs].
    - rewrite (bool_decide_eq_false_2 (length sibs ≠ depth p)) by tauto.
      rewrite (bool_decide_eq_false_2 (length key ≠ width p)) by tauto. simpl.
      rewrite bool_decide_eq_true, Hfold by done. tauto.
    - rewrite bool_decide_eq_true_2 by done. simpl. split; [done|tauto]. }
  split.
  - exists (reverse (smt_siblings p (bits key) (map_tree p m))). apply Hv.
    rewrite length_reverse, reverse_involutive, length_smt_siblings. split; [done|].
    rewrite <- map_tree_lookup, <- Hd. apply climb_complete.
  - intros [k leaf sibs]. cbn [proof_key siblings proof_leaf]. intros -> Hs Hl [Hlen Hc]%Hv.
    rewrite <- Hd in Hc. rewrite <- map_tree_lookup, <- Hd. apply climb_sound; [|..|done].
    + by rewrite length_reverse, Hlen.
    + by apply Forall_reverse.
    + done.
    + intros. apply length_map_tree.
Qed.

Lemma smt_proof_verify_exact_witness :
  ∃ sibs, verify (mkSmtProof (b# "ab") (leaf_hash (vos 2) (b# "first")) sibs) (vos 2) (map_root (vos 2) sample_map) = true.
Proof.
  apply (smt_proof_verify_exact (vos 2) sample_map (b# "ab")).
  - apply (bool_decide_eq_true_1 _). vm_compute. reflexivity.
  - reflexivity.
Defined.
