(* ===== verification/Overlay.v ===== *)
(** * vos: the dispatch overlay of actor storage

    [vos/src/actors/storage.rs], the state every storage handle shares during a
    dispatch: rows pending, rows read from the host, and the witnessed rows of a
    task.  [dispatch] is the monad of that state; [None] is a panic.  The host is
    the parameter [host]: the rows of the agent's keyspace, read through
    [hostcalls::read], which copies as much as fits and returns the full length.

    [rows_at s k] is what a dispatch sees under [k].  [overlay_load_ok] and
    [overlay_store_ok] are the interface of this file: outside tasks, and as long
    as rows stay below the size limit, a load returns what is seen and changes
    nothing, and a store changes one row; [overlay_mutate_ok] does the same for an
    update in place.  [core_row] and its accesses are the rows of a handle, with the
    assertion that their name fits; [RowCodec] is the value codec, rkyv behind
    [actors/codec.rs].  [commit_dispatch]: draining the
    dispatch and applying the effects leaves the host with what was seen. *)

From Stdlib.Strings Require Byte.
From S2P Require Import Prelude Bytes.

Local Open Scope nat_scope.

Definition MAX_VALUE_BYTES : nat := 64 * 1024.
Definition BUF_SIZE : nat := 8192.

Record DispatchState := mkDispatch {
  pending : gmap bytes (option bytes);
  cache : gmap bytes (option bytes);
  witness : option (gmap bytes (option bytes));
}.

Definition dispatch_new : DispatchState := mkDispatch ∅ ∅ None.

Definition dispatch (A : Type) : Type := DispatchState → option (A * DispatchState).

#[export] Instance dispatch_ret : MRet dispatch := λ _ a s, Some (a, s).
#[export] Instance dispatch_bind : MBind dispatch := λ _ _ f d s,
  match d s with Some (a, s) => f a s | None => None end.

Lemma bind_panic {A B} (d : dispatch A) (f : A → dispatch B) s : d s = None → (x ← d; f x) s = None.
Proof. intros Hd. unfold mbind, dispatch_bind. by rewrite Hd. Qed.

Lemma bind_run {A B} (d : dispatch A) (f : A → dispatch B) s a s' :
  d s = Some (a, s') → (x ← d; f x) s = f a s'.
Proof. intros Hd. unfold mbind, dispatch_bind. by rewrite Hd. Qed.

Definition panic {A} : dispatch A := λ _, None.
Definition get_state : dispatch DispatchState := λ s, Some (s, s).
Definition with_pending (f : gmap bytes (option bytes) → gmap bytes (option bytes)) : dispatch unit :=
  λ s, Some (tt, mkDispatch (f (pending s)) (cache s) (witness s)).
Definition with_cache (f : gmap bytes (option bytes) → gmap bytes (option bytes)) : dispatch unit :=
  λ s, Some (tt, mkDispatch (pending s) (f (cache s)) (witness s)).

Definition lift {A} (o : option A) : dispatch A := λ s, (λ a, (a, s)) <$> o.

Definition seed_witness_rows (rows : gmap bytes (option bytes)) : dispatch unit :=
  λ s, Some (tt, mkDispatch (pending s) (cache s) (Some rows)).

(** Drained in key order, one pair per touched key. *)
Definition end_dispatch : dispatch (list (bytes * option bytes)) := λ s,
  Some ((λ k, (k, pending s !!! k)) <$> sorted_keys bytes_le (pending s), dispatch_new).

Section overlay.
Context (host : bytes → option bytes).

(** [hostcalls::read]: [None] is [HOST_NONE]; otherwise the length of the row and
    what the buffer of [n] bytes holds of it. *)
Definition hostcall_read (key : bytes) (n : nat) : option (nat * bytes) :=
  (λ v, (length v, take n v)) <$> host key.

Definition backend_read (key : bytes) : dispatch (option bytes) :=
  match hostcall_read key BUF_SIZE with
  | None => mret None
  | Some (n, probe) =>
      if (n <=? BUF_SIZE) then mret (Some (take n probe))
      else if (n <=? MAX_VALUE_BYTES) then
        match hostcall_read key n with
        | Some (m, full) => if (m =? n) then mret (Some full) else panic
        | None => panic
        end
      else panic
  end.

Definition read_row (key : bytes) : dispatch (option bytes) :=
  s ← get_state;
  match witness s with
  | Some rows => match rows !! key with Some value => mret value | None => panic end
  | None => backend_read key
  end.

Definition overlay_load (key : bytes) : dispatch (option bytes) :=
  s ← get_state;
  match pending s !! key with
  | Some v => mret v
  | None =>
      match cache s !! key with
      | Some v => mret v
      | None =>
          value ← read_row key;
          with_cache (insert key value);;
          mret value
      end
  end.

Definition overlay_store (key : bytes) (value : option bytes) : dispatch unit :=
  match value with
  | Some v => if (length v <=? MAX_VALUE_BYTES) then with_pending (insert key value) else panic
  | None => with_pending (insert key value)
  end.

Definition read_raw (key : bytes) : dispatch (option bytes) := overlay_load key.
Definition store_raw (key value : bytes) : dispatch unit := overlay_store key (Some value).
Definition delete_raw (key : bytes) : dispatch bool :=
  existed ← overlay_load key;
  overlay_store key None;;
  mret (bool_decide (is_Some existed)).

(** Mutating a row in place: the row is queued, seeded from the cache or the host
    on first touch, then [f] runs on it; [f] gives [None] where it panics. *)
Definition overlay_mutate {R} (key : bytes) (f : option bytes → option (R * option bytes)) : dispatch R :=
  s ← get_state;
  seed ← match pending s !! key with
         | Some v => mret v
         | None => match cache s !! key with Some v => mret v | None => read_row key end
         end;
  '(out, slot) ← lift (f seed);
  match slot with
  | Some v => if (length v <=? MAX_VALUE_BYTES) then with_pending (insert key slot);; mret out else panic
  | None => with_pending (insert key slot);; mret out
  end.

(** ** Row names

    [Core::row]: an uninitialised handle has an empty prefix, and every access
    goes through the assertion. *)

Definition core_row (prefix : bytes) (tag : Byte.byte) (suffix : bytes) : bytes := prefix ++ tag :: suffix.

Definition core_load (prefix row : bytes) : dispatch (option bytes) :=
  if decide (prefix = []) then panic else overlay_load row.
Definition core_store (prefix row : bytes) (value : option bytes) : dispatch unit :=
  if decide (prefix = []) then panic else overlay_store row value.
Definition core_mutate {R} (prefix row : bytes) (f : option bytes → option (R * option bytes)) : dispatch R :=
  if decide (prefix = []) then panic else overlay_mutate row f.

(** ** What a dispatch sees *)

Definition rows_at (s : DispatchState) (key : bytes) : option bytes :=
  match pending s !! key with Some v => v | None => host key end.

(** Outside a task, with what was read still being what the host holds, and no
    queued row above the size limit. *)
Record dispatch_ok (s : DispatchState) : Prop := {
  do_live : witness s = None;
  do_cache : ∀ k v, cache s !! k = Some v → v = host k;
  do_pending : ∀ k v, pending s !! k = Some (Some v) → length v ≤ MAX_VALUE_BYTES;
}.

Definition host_ok : Prop := ∀ k v, host k = Some v → length v ≤ MAX_VALUE_BYTES.

Lemma dispatch_new_ok : dispatch_ok dispatch_new.
Proof. by split. Qed.

Lemma backend_read_ok key s : host_ok → backend_read key s = Some (host key, s).
Proof.
  intros Hh. unfold backend_read, hostcall_read. destruct (host key) as [v|] eqn:Hv; [|done]. simpl.
  destruct (Nat.leb_spec (length v) BUF_SIZE) as [Hle|Hgt].
  - rewrite take_take, Nat.min_l, firstn_all by done. done.
  - destruct (Nat.leb_spec (length v) MAX_VALUE_BYTES) as [_|Hbig]; [|by specialize (Hh _ _ Hv); lia].
    by rewrite Nat.eqb_refl, firstn_all.
Qed.

(** A load returns what is seen, and nothing seen changes. *)
Lemma overlay_load_ok key s :
  host_ok → dispatch_ok s →
  ∃ s', overlay_load key s = Some (rows_at s key, s') ∧ dispatch_ok s' ∧ rows_at s' = rows_at s.
Proof.
  intros Hh [Hw Hc Hpd]. unfold overlay_load, rows_at, mbind, dispatch_bind, get_state.
  destruct (pending s !! key) as [v|] eqn:Hp; [by exists s|].
  destruct (cache s !! key) as [v|] eqn:Hcv; [exists s; by rewrite (Hc key v)|].
  unfold read_row, mbind, dispatch_bind, get_state. rewrite Hw, backend_read_ok by done.
  eexists. split; [done|]. split; [|done]. split; [done| |done]. intros k v. cbn [cache].
  intros [[<- <-]|[_ Hk]]%lookup_insert_Some; [done|by apply Hc].
Qed.

Lemma overlay_store_ok key value s :
  dispatch_ok s → (∀ v, value = Some v → length v ≤ MAX_VALUE_BYTES) →
  ∃ s', overlay_store key value s = Some (tt, s') ∧ dispatch_ok s' ∧
    ∀ k, rows_at s' k = if decide (k = key) then value else rows_at s k.
Proof.
  intros [Hw Hc Hpd] Hv. unfold overlay_store. exists (mkDispatch (<[key := value]> (pending s)) (cache s) (witness s)).
  split_and!; [|split; [done|done|]|].
  - destruct value as [v|]; [|done]. by rewrite (proj2 (Nat.leb_le _ _) (Hv v eq_refl)).
  - intros k v. cbn [pending]. intros [[_ Heq]|[_ Hk]]%lookup_insert_Some; [by apply Hv|by eapply Hpd].
  - intros k. unfold rows_at. cbn [pending]. destruct (decide (k = key)) as [->|Hne].
    + by rewrite lookup_insert_eq.
    + by rewrite lookup_insert_ne.
Qed.

(** The row a mutation starts from. *)
Lemma overlay_seed key s :
  host_ok → dispatch_ok s →
  match pending s !! key with
  | Some v => mret v
  | None => match cache s !! key with Some v => mret v | None => read_row key end
  end s = Some (rows_at s key, s).
Proof.
  intros Hh [Hw Hc _]. unfold rows_at. destruct (pending s !! key); [done|].
  destruct (cache s !! key) as [v|] eqn:Hk; [by rewrite (Hc key v)|].
  unfold read_row. rewrite (bind_run get_state _ s s s) by done. rewrite Hw. by apply backend_read_ok.
Qed.

Lemma overlay_mutate_ok {R} key f s (out : R) slot :
  host_ok → dispatch_ok s → f (rows_at s key) = Some (out, slot) →
  (∀ v, slot = Some v → length v ≤ MAX_VALUE_BYTES) →
  ∃ s', overlay_mutate key f s = Some (out, s') ∧ dispatch_ok s' ∧
    ∀ k, rows_at s' k = if decide (k = key) then slot else rows_at s k.
Proof.
  intros Hh Hs Hf Hv. unfold overlay_mutate. rewrite (bind_run get_state _ s s s) by done.
  rewrite (bind_run _ _ _ _ _ (overlay_seed key s Hh Hs)).
  rewrite (bind_run (lift (f (rows_at s key))) _ s (out, slot) s) by (unfold lift; by rewrite Hf).
  destruct (overlay_store_ok key slot s Hs Hv) as (s' & Hst & Hs' & Hrow). exists s'. split; [|done].
  unfold overlay_store in Hst. destruct slot as [v|].
  - destruct (length v <=? MAX_VALUE_BYTES); [|done]. by rewrite (bind_run _ _ _ _ _ Hst).
  - by rewrite (bind_run _ _ _ _ _ Hst).
Qed.

(** A row left too large is the panic of the size assertion. *)
Lemma overlay_mutate_large {R} key f s (out : R) v :
  host_ok → dispatch_ok s → f (rows_at s key) = Some (out, Some v) → MAX_VALUE_BYTES < length v →
  overlay_mutate key f s = None.
Proof.
  intros Hh Hs Hf Hv. unfold overlay_mutate. rewrite (bind_run get_state _ s s s) by done.
  rewrite (bind_run _ _ _ _ _ (overlay_seed key s Hh Hs)).
  rewrite (bind_run (lift (f (rows_at s key))) _ s (out, Some v) s) by (unfold lift; by rewrite Hf).
  cbv iota beta. by rewrite (proj2 (Nat.leb_gt _ _)).
Qed.

Lemma overlay_store_large key v s : MAX_VALUE_BYTES < length v → overlay_store key (Some v) s = None.
Proof. intros Hv. unfold overlay_store. by rewrite (proj2 (Nat.leb_gt _ _)). Qed.

(** Rows stay below the size limit. *)
Lemma rows_at_small s k v : host_ok → dispatch_ok s → rows_at s k = Some v → length v ≤ MAX_VALUE_BYTES.
Proof.
  intros Hh Hs. unfold rows_at. destruct (pending s !! k) as [p|] eqn:Hp; [|apply Hh]. intros ->. by eapply do_pending.
Qed.

Section core.
Context (Hhost : host_ok) (prefix : bytes) (Hpre : prefix ≠ []).

Lemma core_load_ok row s :
  dispatch_ok s → ∃ s', core_load prefix row s = Some (rows_at s row, s') ∧ dispatch_ok s' ∧ rows_at s' = rows_at s.
Proof using Hhost Hpre. intros Hs. unfold core_load. rewrite decide_False by done. by apply overlay_load_ok. Qed.

Lemma core_store_ok row v s :
  dispatch_ok s → (∀ b, v = Some b → length b ≤ MAX_VALUE_BYTES) →
  ∃ s', core_store prefix row v s = Some (tt, s') ∧ dispatch_ok s' ∧
    ∀ k, rows_at s' k = if decide (k = row) then v else rows_at s k.
Proof using Hpre. intros Hs Hv. unfold core_store. rewrite decide_False by done. by apply overlay_store_ok. Qed.

Lemma core_mutate_ok {R} row f s (out : R) slot :
  dispatch_ok s → f (rows_at s row) = Some (out, slot) → (∀ v, slot = Some v → length v ≤ MAX_VALUE_BYTES) →
  ∃ s', core_mutate prefix row f s = Some (out, s') ∧ dispatch_ok s' ∧
    ∀ k, rows_at s' k = if decide (k = row) then slot else rows_at s k.
Proof using Hhost Hpre.
  intros Hs Hf Hv. unfold core_mutate. rewrite decide_False by done. by apply overlay_mutate_ok.
Qed.
End core.
End overlay.

(** ** The end of a dispatch *)

(** [mock::commit]: the host applies the drained effects. *)
Definition commit_rows (rows : gmap bytes bytes) (effects : list (bytes * option bytes)) : gmap bytes bytes :=
  foldl (λ rows e, match e.2 with Some v => <[e.1 := v]> rows | None => delete e.1 rows end) rows effects.

Lemma lookup_commit_rows rows (g : bytes → option bytes) ks k :
  commit_rows rows ((λ k, (k, g k)) <$> ks) !! k = if decide (k ∈ ks) then g k else rows !! k.
Proof.
  unfold commit_rows. induction ks as [|k' ks IH] using rev_ind; [done|].
  rewrite fmap_app, foldl_app. cbn [fmap list_fmap foldl fst snd].
  destruct (decide (k = k')) as [->|Hne].
  - rewrite decide_True by (apply elem_of_app; right; by left).
    destruct (g k'); [apply lookup_insert_eq|apply lookup_delete_eq].
  - transitivity (foldl (λ rows e, match e.2 with Some v => <[e.1 := v]> rows | None => delete e.1 rows end)
      rows ((λ k, (k, g k)) <$> ks) !! k).
    { destruct (g k'); [by apply lookup_insert_ne|by apply lookup_delete_ne]. }
    rewrite IH. apply decide_ext. rewrite elem_of_app, list_elem_of_singleton. naive_solver.
Qed.

Lemma commit_dispatch (rows : gmap bytes bytes) s effects s' :
  end_dispatch s = Some (effects, s') →
  s' = dispatch_new ∧ ∀ k, commit_rows rows effects !! k = rows_at (λ k, rows !! k) s k.
Proof.
  intros [= <- <-]. split; [done|]. intros k. rewrite (lookup_commit_rows rows (λ k, pending s !!! k)).
  unfold rows_at. case_decide as Hk.
  - apply (elem_of_sorted_keys bytes_le (pending s)) in Hk as [v Hv]. by rewrite Hv, (lookup_total_correct _ _ _ Hv).
  - rewrite (elem_of_sorted_keys bytes_le (pending s)) in Hk. by rewrite (proj2 (eq_None_not_Some _) Hk).
Qed.

(** What the next dispatch starts from. *)
Lemma commit_dispatch_ok (rows : gmap bytes bytes) s effects s' :
  host_ok (λ k, rows !! k) → dispatch_ok (λ k, rows !! k) s → end_dispatch s = Some (effects, s') →
  let host' := λ k, commit_rows rows effects !! k in
  host_ok host' ∧ dispatch_ok host' s' ∧ ∀ k, rows_at host' s' k = rows_at (λ k, rows !! k) s k.
Proof.
  intros Hh Hs Hend host'. destruct (commit_dispatch rows s effects s' Hend) as [-> Hrows].
  split_and!; [|apply dispatch_new_ok|intros k; apply Hrows]. intros k v. unfold host'. rewrite Hrows. by apply rows_at_small.
Qed.

(** ** Codec of rows

    rkyv's, behind [actors/codec.rs]. *)
Class RowCodec (V : Type) := {
  row_encode : V → bytes;
  try_decode : bytes → option V;
}.
Class RowCodecLaws (V : Type) `{RowCodec V} := {
  try_decode_encode v : try_decode (row_encode v) = Some v;
}.
