(* ===== verification/Committed.v ===== *)
(** * vos: the committed map

    [vos/src/actors/storage/committed.rs]: a map kept as storage rows whose content
    is bound by a sparse Merkle root.  Value rows hold the entries; node rows hold
    the branching points of the key set; the root row holds the count, the root
    hash and the top reference.  Mutations rewrite the branching points along one
    key.

    Keys are the bytes [FixedKey::write_to] gives, [cm_width] of them.  The codec
    of values is the class [RowCodec].  A method
    that mutates the handle returns it; only the cache of the empty chain changes.
    [None] is a panic.  The descent of [update_tree] and the walks take fuel. *)

From Stdlib.Strings Require Byte.
From stdpp Require Import strings.
From S2P Require Import Prelude Bytes Slices Blake2b V2Wire V2Identity Smt Overlay.

Local Open Scope nat_scope.

(** ** References *)

Inductive Ref :=
| REmpty
| RLeaf (key : bytes) (hash : Hash)
| RBranch (level : N) (prefix : bytes) (hash : Hash).

#[export] Instance Ref_eq_dec : EqDecision Ref.
Proof. solve_decision. Defined.

Definition encode_ref (r : Ref) : bytes :=
  match r with
  | REmpty => [Byte.x00]
  | RLeaf key hash => Byte.x01 :: key ++ hash
  | RBranch level prefix hash => Byte.x02 :: to_be_bytes 2 level ++ prefix ++ hash
  end.

Definition decode_ref (b : bytes) (w : nat) (at_ : nat) : option (Ref * nat) :=
  tag ← b !! at_;
  let at_ := S at_ in
  match tag with
  | Byte.x00 => Some (REmpty, at_)
  | Byte.x01 =>
      key ← slice_at b at_ w;
      hash ← slice_at b (at_ + w) 32;
      Some (RLeaf key hash, at_ + w + 32)
  | Byte.x02 =>
      level ← slice_at b at_ 2;
      prefix ← slice_at b (at_ + 2) w;
      hash ← slice_at b (at_ + 2 + w) 32;
      Some (RBranch (from_be_bytes level) prefix hash, at_ + 2 + w + 32)
  | _ => None
  end.

Definition ref_subtree_hash (p : SmtParams) (chain : list Hash) (r : Ref) (at_level : nat) : Hash :=
  match r with
  | REmpty => chain !!! (depth p - at_level)
  | RLeaf key hash => spine_hash p chain key hash 0 (depth p - at_level)
  | RBranch level prefix hash =>
      spine_hash p chain prefix hash (depth p - N.to_nat level) (depth p - at_level)
  end.

(** ** Bits *)

Definition leading_zeros8 (x : N) : nat := if (x =? 0)%N then 8 else 7 - N.to_nat (N.log2 x).

(** [None] is [unreachable!]. *)
Fixpoint first_diff_from (i : nat) (a b : bytes) : option nat :=
  match a, b with
  | x :: a, y :: b =>
      if decide (x = y) then first_diff_from (S i) a b
      else Some (i * 8 + leading_zeros8 (N.lxor (Byte.to_N x) (Byte.to_N y)))
  | _, _ => None
  end.
Definition first_diff_level (a b : bytes) : option nat := first_diff_from 0 a b.

Definition diverge_before (key prefix : bytes) (limit : nat) : option nat :=
  snd <$> list_find (λ l, level_bit key l ≠ level_bit prefix l) (seq 0 limit).

Definition prefix_of (key : bytes) (level : nat) : bytes :=
  let full := level / 8 in
  let out := take full key ++ zeros (length key - full) in
  if decide (level `mod` 8 = 0) then out
  else
    let mask := high_mask (N.of_nat (level `mod` 8)) in
    <[full := byte_of (N.land (Byte.to_N (key !!! full)) mask)]> out.

(** ** The handle *)

Record CommittedMap := mkCommitted {
  cm_prefix : bytes;
  cm_leaf_domain : bytes;
  cm_node_domain : bytes;
  cm_width : nat;
  cm_chain : option (list Hash);
}.

Definition cm_new (w : nat) (prefix : bytes) : CommittedMap :=
  mkCommitted prefix VOS_LEAF_DOMAIN VOS_NODE_DOMAIN w None.
Definition cm_new_with_domains (w : nat) (prefix leaf_dom node_dom : bytes) : CommittedMap :=
  mkCommitted prefix leaf_dom node_dom w None.

Definition cm_params (cm : CommittedMap) : SmtParams :=
  mkParams (cm_leaf_domain cm) (cm_node_domain cm) (cm_width cm).

Definition cm_set_chain (cm : CommittedMap) (chain : list Hash) : CommittedMap :=
  mkCommitted (cm_prefix cm) (cm_leaf_domain cm) (cm_node_domain cm) (cm_width cm) (Some chain).

Definition value_row (cm : CommittedMap) (kb : bytes) : bytes := core_row (cm_prefix cm) Byte.x76 kb.
Definition node_row (cm : CommittedMap) (level : N) (prefix : bytes) : bytes :=
  core_row (cm_prefix cm) Byte.x6e (to_be_bytes 2 level ++ prefix).
Definition root_row (cm : CommittedMap) : bytes := core_row (cm_prefix cm) Byte.x72 [].

Definition row_load (host : bytes → option bytes) (cm : CommittedMap) (row : bytes) : dispatch (option bytes) :=
  core_load host (cm_prefix cm) row.
Definition row_store (cm : CommittedMap) (row : bytes) (value : option bytes) : dispatch unit :=
  core_store (cm_prefix cm) row value.

Section committed.
Context (host : bytes → option bytes).
Implicit Types (cm : CommittedMap).

Definition read_node cm (level : N) (prefix : bytes) : dispatch (Ref * Ref) :=
  row ← row_load host cm (node_row cm level prefix);
  lift (b ← row;
        '(lref, at_) ← decode_ref b (cm_width cm) 0;
        '(rref, _) ← decode_ref b (cm_width cm) at_;
        Some (lref, rref)).

Definition write_node cm (level : N) (prefix : bytes) (lref rref : Ref) : dispatch unit :=
  row_store cm (node_row cm level prefix) (Some (encode_ref lref ++ encode_ref rref)).

Definition decode_root (w : nat) (b : bytes) : option (N * Hash * Ref) :=
  count ← slice_at b 0 8;
  hash ← slice_at b 8 32;
  '(top, _) ← decode_ref b w 40;
  Some (from_le_bytes count, hash, top).

Definition read_root cm : dispatch (N * option Hash * Ref) :=
  row ← row_load host cm (root_row cm);
  match row with
  | None => mret (0%N, None, REmpty)
  | Some b =>
      '(count, hash, top) ← lift (decode_root (cm_width cm) b);
      mret (count, Some hash, top)
  end.

Definition write_root cm (count : N) (hash : Hash) (top : Ref) : dispatch unit :=
  row_store cm (root_row cm) (Some (to_le_bytes 8 count ++ hash ++ encode_ref top)).

Definition cm_len cm : dispatch N := '(count, _, _) ← read_root cm; mret count.
Definition cm_is_empty cm : dispatch bool := count ← cm_len cm; mret (count =? 0)%N.

Definition cm_root cm : dispatch Hash :=
  '(_, hash, _) ← read_root cm;
  match hash with
  | Some hash => mret hash
  | None => lift (last (empty_chain (cm_params cm)))
  end.

(** ** Updating the tree *)

Record frame := mkFrame {
  f_level : N;
  f_prefix : bytes;
  f_left : Ref;
  f_right : Ref;
  f_side : bool;
}.

(** The node made of [ours] and [theirs] at level [d]. *)
Definition join_refs cm (chain : list Hash) (kb : bytes) (d : nat) (ours theirs : Ref) : dispatch Ref :=
  let p := cm_params cm in
  let prefix := prefix_of kb d in
  let '(l, r) := if level_bit kb d then (theirs, ours) else (ours, theirs) in
  let h := node_hash p (ref_subtree_hash p chain l (S d)) (ref_subtree_hash p chain r (S d)) in
  write_node cm (N.of_nat d `mod` 65536) prefix l r;;
  mret (RBranch (N.of_nat d `mod` 65536) prefix h).

(** Arithmetic on [count: u64] wraps. *)
Definition count_up (count : N) : N := ((count + 1) `mod` u64_modulus)%N.
Definition count_down (count : N) : N := ((count + (u64_modulus - 1)) `mod` u64_modulus)%N.

(** The [loop]: replacement, whether the key set changed, the count, the stack. *)
Fixpoint walk (fuel : nat) cm (chain : list Hash) (kb : bytes) (leaf : option Hash) (count : N)
    (cur : Ref) (stack : list frame) : dispatch (option Ref * bool * N * list frame) :=
  match fuel with
  | O => panic
  | S fuel =>
      match cur with
      | REmpty =>
          match leaf with
          | Some hash => mret (Some (RLeaf kb hash), true, count_up count, stack)
          | None => mret (Some REmpty, false, count, stack)
          end
      | RLeaf k2 h2 =>
          if decide (k2 = kb) then
            match leaf with
            | Some hash => mret (Some (RLeaf k2 hash), false, count, stack)
            | None => mret (None, true, count_down count, stack)
            end
          else
            hash ← lift leaf;
            d ← lift (first_diff_level kb k2);
            r ← join_refs cm chain kb d (RLeaf kb hash) (RLeaf k2 h2);
            mret (Some r, true, count_up count, stack)
      | RBranch level prefix hash =>
          match diverge_before kb prefix (N.to_nat level) with
          | Some d =>
              lhash ← lift leaf;
              r ← join_refs cm chain kb d (RLeaf kb lhash) (RBranch level prefix hash);
              mret (Some r, true, count_up count, stack)
          | None =>
              '(lref, rref) ← read_node cm level prefix;
              let side := level_bit kb (N.to_nat level) in
              walk fuel cm chain kb leaf count (if side then rref else lref)
                (mkFrame level prefix lref rref side :: stack)
          end
      end
  end.

(** The [while let] loop that rewrites the remaining nodes. *)
Fixpoint bubble cm (chain : list Hash) (child : Ref) (stack : list frame) : dispatch Ref :=
  match stack with
  | [] => mret child
  | f :: stack =>
      let p := cm_params cm in
      let '(lref, rref) := if f_side f then (f_left f, child) else (child, f_right f) in
      write_node cm (f_level f) (f_prefix f) lref rref;;
      let at_ := S (N.to_nat (f_level f)) in
      let h := node_hash p (ref_subtree_hash p chain lref at_) (ref_subtree_hash p chain rref at_) in
      bubble cm chain (RBranch (f_level f) (f_prefix f) h) stack
  end.

(** A removed leaf collapses its parent node. *)
Definition settle cm (chain : list Hash) (replacement : option Ref) (stack : list frame) : dispatch Ref :=
  match replacement with
  | Some r => bubble cm chain r stack
  | None =>
      match stack with
      | [] => bubble cm chain REmpty []
      | f :: stack =>
          row_store cm (node_row cm (f_level f) (f_prefix f)) None;;
          bubble cm chain (if f_side f then f_left f else f_right f) stack
      end
  end.

Definition update_tree (fuel : nat) cm (kb : bytes) (leaf : option Hash) : dispatch (bool * CommittedMap) :=
  let p := cm_params cm in
  let chain := default (empty_chain p) (cm_chain cm) in
  '(count, _, top) ← read_root cm;
  '(replacement, changed, count, stack) ← walk fuel cm chain kb leaf count top [];
  child ← settle cm chain replacement stack;
  let root_hash := ref_subtree_hash p chain child 0 in
  write_root cm count root_hash child;;
  mret (changed, cm_set_chain cm chain).

Definition insert_encoded (fuel : nat) cm (kb value_bytes leaf_content : bytes)
    : dispatch (bool * CommittedMap) :=
  let leaf := leaf_hash (cm_params cm) leaf_content in
  row_store cm (value_row cm kb) (Some value_bytes);;
  update_tree fuel cm kb (Some leaf).

Definition cm_remove (fuel : nat) cm (kb : bytes) : dispatch (bool * CommittedMap) :=
  row ← row_load host cm (value_row cm kb);
  match row with
  | None => mret (false, cm)
  | Some _ =>
      row_store cm (value_row cm kb) None;;
      update_tree fuel cm kb None
  end.

Section values.
Context {V : Type} `{RowCodec V}.

Definition cm_get cm (kb : bytes) : dispatch (option V) :=
  row ← row_load host cm (value_row cm kb);
  match row with
  | None => mret None
  | Some b => v ← lift (try_decode b); mret (Some v)
  end.

Definition cm_insert (fuel : nat) cm (kb : bytes) (value : V) : dispatch (bool * CommittedMap) :=
  insert_encoded fuel cm kb (row_encode value) (row_encode value).

Definition cm_insert_with_leaf (fuel : nat) cm (kb : bytes) (value : V) (leaf_content : bytes)
    : dispatch (bool * CommittedMap) :=
  insert_encoded fuel cm kb (row_encode value) leaf_content.

(** [CommittedMapIter]: a handle and a stack of references. *)
Definition cm_iter cm : dispatch (list Ref) := '(_, _, top) ← read_root cm; mret [top].

(** [CommittedMapIter::next]. *)
Fixpoint iter_next (fuel : nat) cm (stack : list Ref) : dispatch (option (bytes * V * list Ref)) :=
  match fuel with
  | O => panic
  | S fuel =>
      match stack with
      | [] => mret None
      | REmpty :: stack => iter_next fuel cm stack
      | RLeaf key _ :: stack =>
          row ← row_load host cm (value_row cm key);
          v ← lift (b ← row; try_decode b);
          mret (Some (key, v, stack))
      | RBranch level prefix _ :: stack =>
          '(lref, rref) ← read_node cm level prefix;
          iter_next fuel cm (lref :: rref :: stack)
      end
  end.
End values.

Definition cm_contains cm (kb : bytes) : dispatch bool :=
  row ← row_load host cm (value_row cm kb);
  mret (bool_decide (is_Some row)).

(** ** Extracting a multiproof *)

(** The two sides of a cell: the occupant goes down its own side, and a node is
    read at its own level. *)
Definition cell_sides cm (r : Ref) (level : nat) : dispatch (Ref * Ref) :=
  let down (key : bytes) := if level_bit key level then (REmpty, r) else (r, REmpty) in
  match r with
  | REmpty => panic
  | RLeaf key _ => mret (down key)
  | RBranch node_level node_prefix _ =>
      if (level <? N.to_nat node_level) then mret (down node_prefix)
      else read_node cm node_level node_prefix
  end.

Definition ref_is_empty (r : Ref) : bool := match r with REmpty => true | _ => false end.

(** An item of the worklist: reference, level, prefix, and the range of keys. *)
Definition cell_item : Type := Ref * nat * bytes * nat * nat.

Fixpoint collect_loop (fuel : nat) cm (p : SmtParams) (chain : list Hash) (touched : list bytes)
    (work : list cell_item) (out : list FrontierNode) : dispatch (list FrontierNode) :=
  match fuel with
  | O => panic
  | S fuel =>
      match work with
      | [] => mret out
      | (r, level, prefix, start, end_) :: work =>
          if (start =? end_) then
            collect_loop fuel cm p chain touched work
              (if ref_is_empty r then out
               else out ++ [mkFrontierNode (N.of_nat level `mod` 65536) prefix (ref_subtree_hash p chain r level)])
          else if ref_is_empty r || (depth p =? level) then
            collect_loop fuel cm p chain touched work out
          else
            '(left_ref, right_ref) ← cell_sides cm r level;
            let split := start + partition_point (goes_left level) (take (end_ - start) (drop start touched)) in
            collect_loop fuel cm p chain touched
              ((left_ref, S level, prefix, start, split)
               :: (right_ref, S level, set_bit level prefix, split, end_) :: work) out
      end
  end.

Definition collect_frontier (fuel : nat) cm (p : SmtParams) (chain : list Hash) (r : Ref)
    (touched : list bytes) : dispatch (list FrontierNode) :=
  collect_loop fuel cm p chain touched [(r, 0, zeros (width p), 0, length touched)] [].

Definition load_value cm (kb : bytes) : dispatch (bytes * option bytes) :=
  v ← row_load host cm (value_row cm kb); mret (kb, v).

Definition batch_proof (fuel : nat) cm (touched : list bytes)
    : dispatch (BatchProof * list (bytes * option bytes)) :=
  let p := cm_params cm in
  let chain := empty_chain p in
  let keys := sort_dedup bytes_le touched in
  values ← mapM (load_value cm) keys;
  '(_, _, top) ← read_root cm;
  frontier ← collect_frontier fuel cm p chain top keys;
  mret (from_frontier frontier, values).
End committed.
