(* ===== verification/CommittedTree.v ===== *)
(** * The committed map: branching trees

    [rtree] is the tree a reference stands for: the branching points of a set of
    keys.  [wf]: a node at a level splits keys that same_bits on every earlier bit.
    [ref_of_hash]: the hash memoized for a tree, lifted through its empty spine, is
    the hash of the full sparse tree over its leaves; so the root hash is the one
    recomputed from the sorted leaves.  [tins] and [tdel] are the updates, on the
    tree, that [update_tree] makes on the rows. *)

From Stdlib.Strings Require Byte.
From S2P Require Import Prelude Bytes Slices Blake2b V2Wire V2Identity Smt SmtSound SmtLedger Overlay Committed.

Local Open Scope nat_scope.

(** ** Bits of keys *)

Definition same_bits (a b : bytes) (n : nat) : Prop := ∀ i, i < n → level_bit a i = level_bit b i.

Lemma same_bits_sym a b n : same_bits a b n → same_bits b a n.
Proof. intros H i Hi. symmetry. auto. Qed.
Lemma same_bits_trans a b c n : same_bits a b n → same_bits b c n → same_bits a c n.
Proof. intros H1 H2 i Hi. by rewrite H1, H2. Qed.
Lemma same_bits_le a b n m : m ≤ n → same_bits a b n → same_bits a b m.
Proof. intros Hm H i Hi. apply H. lia. Qed.
Lemma same_bits_S a b n : same_bits a b n → level_bit a n = level_bit b n → same_bits a b (S n).
Proof. intros H Hn i Hi. destruct (decide (i = n)) as [->|]; [done|apply H; lia]. Qed.

Lemma level_bit_testbit key i :
  level_bit key i = N.testbit (Byte.to_N (key !!! (i / 8))) (7 - N.of_nat (i `mod` 8)).
Proof. unfold level_bit. rewrite key_bit_testbit. by destruct (N.testbit _ _). Qed.

Lemma same_bits_take a b n :
  length a = length b → n ≤ 8 * length a → same_bits a b n ↔ take n (bits a) = take n (bits b).
Proof.
  intros Hlen Hn. split.
  - intros Hag. apply list_eq_same_length with n; [by rewrite length_take, length_bits; lia..|].
    intros i x y Hi. rewrite !lookup_take_lt by done. rewrite !level_bit_lookup by lia.
    intros [= <-] [= <-]. by apply Hag.
  - intros Heq i Hi. apply (f_equal (lookup i)) in Heq. rewrite !lookup_take_lt in Heq by done.
    rewrite !level_bit_lookup in Heq by lia. by injection Heq.
Qed.

Lemma same_bits_eq a b : length a = length b → same_bits a b (8 * length a) → a = b.
Proof.
  intros Hlen Hag. apply same_bits_take in Hag; [|done..]. apply bits_inj.
  rewrite !take_ge in Hag by (rewrite length_bits; lia). done.
Qed.

Lemma diverge_before_Some key prefix limit d :
  diverge_before key prefix limit = Some d ↔
  d < limit ∧ same_bits key prefix d ∧ level_bit key d ≠ level_bit prefix d.
Proof.
  unfold diverge_before. split.
  - destruct (list_find _ _) as [[j x]|] eqn:Hf; [|done]. simpl. intros [= <-].
    apply list_find_Some in Hf as (Hj & Hd & Hmin). apply lookup_seq in Hj as [-> Hj]. simpl in *.
    split_and!; [done| |done]. intros i Hi. apply dec_stable. intros Hne.
    apply (Hmin i i); [|done..]. apply lookup_seq. lia.
  - intros (Hd & Hag & Hne).
    assert (list_find (λ l, level_bit key l ≠ level_bit prefix l) (seq 0 limit) = Some (d, d)) as ->; [|done].
    apply list_find_Some. split_and!; [by apply lookup_seq|done|].
    intros j y Hy Hj. apply lookup_seq in Hy as [-> _]. simpl. intros Hn. by apply Hn, Hag.
Qed.

Lemma diverge_before_None key prefix limit : diverge_before key prefix limit = None ↔ same_bits key prefix limit.
Proof.
  split.
  - intros H i Hi. unfold diverge_before in H. rewrite fmap_None, list_find_None in H.
    rewrite Forall_forall in H. apply dec_stable. apply H, elem_of_seq. lia.
  - intros H. destruct (diverge_before key prefix limit) as [d|] eqn:Hd; [|done].
    apply diverge_before_Some in Hd as (Hd & _ & Hne). by destruct Hne; apply H.
Qed.

Lemma byte_first_diff x y :
  x ≠ y →
  let d := leading_zeros8 (N.lxor (Byte.to_N x) (Byte.to_N y)) in
  d < 8 ∧ (∀ i, i < d → N.testbit (Byte.to_N x) (7 - N.of_nat i) = N.testbit (Byte.to_N y) (7 - N.of_nat i)) ∧
  N.testbit (Byte.to_N x) (7 - N.of_nat d) ≠ N.testbit (Byte.to_N y) (7 - N.of_nat d).
Proof.
  intros Hne. set (z := N.lxor (Byte.to_N x) (Byte.to_N y)). unfold leading_zeros8.
  destruct (N.eqb_spec z 0) as [Hz|Hz].
  { exfalso. apply Hne, byte_to_N_inj. by apply N.lxor_eq. }
  assert (N.log2 z < 8)%N as Hlog.
  { destruct (N.lt_ge_cases (N.log2 z) 8) as [|Hge]; [done|]. exfalso.
    assert (N.testbit z (N.log2 z) = true) as Ht by by apply N.bit_log2.
    unfold z in Ht at 1. rewrite N.lxor_spec, !byte_testbit_high in Ht by done. done. }
  cbv zeta. split; [lia|]. split.
  - intros i Hi. assert (N.testbit z (7 - N.of_nat i) = false) as Ht by (apply N.bits_above_log2; lia).
    unfold z in Ht. rewrite N.lxor_spec in Ht. by apply xorb_eq.
  - replace (7 - N.of_nat (7 - N.to_nat (N.log2 z)))%N with (N.log2 z) by lia.
    assert (N.testbit z (N.log2 z) = true) as Ht by by apply N.bit_log2.
    unfold z in Ht at 1. rewrite N.lxor_spec in Ht. intros Heq. by rewrite Heq, xorb_nilpotent in Ht.
Qed.

Lemma first_diff_from_spec i a b :
  length a = length b → a ≠ b →
  ∃ d, first_diff_from i a b = Some (i * 8 + d) ∧ d < 8 * length a ∧ same_bits a b d ∧ level_bit a d ≠ level_bit b d.
Proof.
  revert i b. induction a as [|x a IH]; intros i [|y b] Hlen Hne; simplify_eq/=.
  case_decide as Hxy.
  - subst. destruct (IH (S i) b) as (d & Hf & Hd & Hag & Hdiff); [done|congruence|].
    assert (∀ c j, level_bit (y :: c) (8 + j) = level_bit c j) as Hsh.
    { intros c j. rewrite !level_bit_testbit. replace (8 + j) with (j + 1 * 8) by lia.
      rewrite Nat.div_add, Nat.Div0.mod_add by lia. rewrite Nat.add_1_r. done. }
    exists (8 + d). split_and!; [rewrite Hf; f_equal; lia|lia| |by rewrite !Hsh].
    intros j Hj. destruct (decide (j < 8)) as [Hj8|Hj8].
    + rewrite !level_bit_testbit. by rewrite Nat.div_small.
    + replace j with (8 + (j - 8)) by lia. rewrite !Hsh. apply Hag. lia.
  - destruct (byte_first_diff x y Hxy) as (Hd & Hag & Hdiff). eexists. split; [done|].
    split; [lia|].
    assert (∀ z c j, j < 8 → level_bit (z :: c) j = N.testbit (Byte.to_N z) (7 - N.of_nat j)) as Hsh.
    { intros z c j Hj. rewrite level_bit_testbit. by rewrite Nat.div_small, Nat.mod_small. }
    split; [intros j Hj; rewrite !Hsh by lia; by apply Hag|]. by rewrite !Hsh by lia.
Qed.

Lemma first_diff_level_spec a b :
  length a = length b → a ≠ b →
  ∃ d, first_diff_level a b = Some d ∧ d < 8 * length a ∧ same_bits a b d ∧ level_bit a d ≠ level_bit b d.
Proof. intros Hlen Hne. destruct (first_diff_from_spec 0 a b Hlen Hne) as (d & H). by exists d. Qed.

Lemma level_bit_prefix_of key level i :
  level ≤ 8 * length key → i < 8 * length key →
  level_bit (prefix_of key level) i = (i <? level) && level_bit key i.
Proof.
  intros Hl Hi. rewrite !level_bit_testbit. by apply (mask_prefix_testbit (length key)).
Qed.

Lemma length_key_prefix key level : level ≤ 8 * length key → length (prefix_of key level) = length key.
Proof. intros Hl. by apply (length_mask_prefix (length key)). Qed.

Lemma prefix_of_ok p key level :
  length key = width p → level ≤ depth p → prefix_ok p level (prefix_of key level) ∧ same_bits key (prefix_of key level) level.
Proof.
  unfold depth. intros Hk Hl. split; [split|].
  - rewrite length_key_prefix; lia.
  - intros i Hi Hd. unfold depth in Hd. rewrite level_bit_lookup by (rewrite length_key_prefix; lia).
    rewrite level_bit_prefix_of by lia. by rewrite (proj2 (Nat.ltb_ge _ _) Hi).
  - intros i Hi. rewrite level_bit_prefix_of by lia. by rewrite (proj2 (Nat.ltb_lt _ _) Hi).
Qed.

(** ** Trees *)

Inductive rtree :=
| Tip (key : bytes) (hash : Hash)
| Bin (level : nat) (prefix : bytes) (l r : rtree).

Fixpoint rleaves (t : rtree) : leaves :=
  match t with
  | Tip k h => [(k, h)]
  | Bin _ _ l r => rleaves l ++ rleaves r
  end.

Definition top_level (p : SmtParams) (t : rtree) : nat :=
  match t with Tip _ _ => depth p | Bin lv _ _ _ => lv end.

(** Where the leaves of one side of a node lie. *)
Definition on_side (lv : nat) (prefix : bytes) (b : bool) (e : bytes * Hash) : Prop :=
  same_bits e.1 prefix lv ∧ level_bit e.1 lv = b.

Fixpoint wf (p : SmtParams) (t : rtree) : Prop :=
  match t with
  | Tip k h => length k = width p ∧ length h = 32
  | Bin lv prefix l r =>
      lv < depth p ∧ prefix_ok p lv prefix ∧
      Forall (on_side lv prefix false) (rleaves l) ∧ Forall (on_side lv prefix true) (rleaves r) ∧
      wf p l ∧ wf p r
  end.

Lemma rleaves_nonempty t : rleaves t ≠ [].
Proof. induction t as [|lv prefix l IHl r IHr]; [done|]. simpl. intros [H _]%app_nil. done. Qed.

Lemma wf_widths p t : wf p t → Forall (λ e, length e.1 = width p) (rleaves t).
Proof.
  induction t as [k h|lv prefix l IHl r IHr]; [intros [Hk _]; by repeat constructor|].
  intros (_ & _ & _ & _ & Hl & Hr). apply Forall_app. auto.
Qed.

Lemma wf_hashes p t : wf p t → hashes_ok (rleaves t).
Proof.
  unfold hashes_ok. induction t as [k h|lv prefix l IHl r IHr]; [intros [_ Hh]; by repeat constructor|].
  intros (_ & _ & _ & _ & Hl & Hr). apply Forall_app. auto.
Qed.

(** All the leaves of a tree agree up to its top level. *)
Lemma wf_same_bits p t a b :
  wf p t → a ∈ rleaves t → b ∈ rleaves t → same_bits a.1 b.1 (top_level p t).
Proof.
  destruct t as [k h|lv prefix l r]; simpl.
  - intros _ ->%list_elem_of_singleton ->%list_elem_of_singleton. by intros i Hi.
  - intros (_ & _ & Hl & Hr & _) Ha Hb. rewrite Forall_forall in Hl, Hr.
    assert (∀ e, e ∈ rleaves l ++ rleaves r → same_bits e.1 prefix lv) as He.
    { intros e [H%Hl|H%Hr]%elem_of_app; apply H. }
    eapply same_bits_trans; [by apply He|]. by apply same_bits_sym, He.
Qed.

(** A tree whose leaves agree on a bit starts below it. *)
Lemma wf_top_level p t n q :
  wf p t → n ≤ depth p → (∀ e, e ∈ rleaves t → same_bits e.1 q n) → n ≤ top_level p t.
Proof.
  destruct t as [k h|lv prefix l r]; simpl; [done|].
  intros (Hlv & _ & Hl & Hr & _) Hn Hq. destruct (decide (n ≤ lv)) as [|Hgt]; [done|]. exfalso.
  destruct (rleaves l) as [|a la] eqn:Hla; [by apply (rleaves_nonempty l)|].
  destruct (rleaves r) as [|b lb] eqn:Hlb; [by apply (rleaves_nonempty r)|].
  apply Forall_cons in Hl as [[_ Ha] _]. apply Forall_cons in Hr as [[_ Hb] _].
  assert (level_bit a.1 lv = level_bit q lv) as H1 by (apply Hq; [by left|lia]).
  assert (level_bit b.1 lv = level_bit q lv) as H2 by (apply Hq; [apply elem_of_app; right; by left|lia]).
  congruence.
Qed.

Lemma wf_child p lv prefix l r (b : bool) :
  wf p (Bin lv prefix l r) → lv < top_level p (if b then r else l).
Proof.
  intros (Hlv & Hp & Hl & Hr & Hwl & Hwr). rewrite Forall_forall in Hl, Hr.
  assert (∀ t, wf p t → (∀ e, e ∈ rleaves t → on_side lv prefix b e) → S lv ≤ top_level p t) as H.
  { intros t Ht Hs. destruct (rleaves t) as [|a la] eqn:Hla; [by apply rleaves_nonempty in Hla|].
    apply (wf_top_level p t (S lv) a.1 Ht); [lia|]. intros e He. rewrite Hla in He.
    destruct (Hs e He) as [H1 H2]. destruct (Hs a) as [H3 H4]; [by left|].
    apply same_bits_S; [|congruence]. eapply same_bits_trans; [done|by apply same_bits_sym]. }
  destruct b; by apply H.
Qed.

(** ** Hashes *)

(** Leaves on both sides of a bit. *)
Lemma smt_two_sides p level d l0 l1 :
  level + S d = depth p →
  Forall (λ e, length e.1 = width p) l0 → Forall (λ e, length e.1 = width p) l1 →
  Forall (λ e, level_bit e.1 level = false) l0 → Forall (λ e, level_bit e.1 level = true) l1 →
  smt p (S d) (over level (l0 ++ l1) no_leaves) =
  node_hash p (smt p d (over (S level) l0 no_leaves)) (smt p d (over (S level) l1 no_leaves)).
Proof.
  intros Hd Hw0 Hw1 Hb0 Hb1. cbn [smt]. assert (level < 8 * width p) as Hl by (unfold depth in Hd; lia).
  assert (∀ k, over level (l0 ++ l1) no_leaves (false :: k) = over (S level) l0 no_leaves k) as H0.
  { intros k. rewrite over_app, (over_same level (width p)) by done. apply over_ext.
    by apply (over_other level (width p)). }
  assert (∀ k, over level (l0 ++ l1) no_leaves (true :: k) = over (S level) l1 no_leaves k) as H1.
  { intros k. rewrite over_app, (over_other level (width p)) by done. by apply (over_same level (width p)). }
  by rewrite (smt_ext p d _ _ (λ k _, H0 k)), (smt_ext p d _ _ (λ k _, H1 k)).
Qed.

(** A slice of leaves on one side: the other side is empty. *)
Lemma smt_one_side p level d l (b : bool) :
  level + S d = depth p → Forall (λ e, length e.1 = width p) l → Forall (λ e, level_bit e.1 level = b) l →
  smt p (S d) (over level l no_leaves) =
  if b then node_hash p (empty_chain p !!! d) (smt p d (over (S level) l no_leaves))
  else node_hash p (smt p d (over (S level) l no_leaves)) (empty_chain p !!! d).
Proof.
  intros Hd Hw Hb. cbn [smt]. rewrite empty_chain_lookup by lia.
  assert (level < 8 * width p) as Hl by (unfold depth in Hd; lia).
  assert (∀ k, over level l no_leaves (b :: k) = over (S level) l no_leaves k) as Hsame
    by (intros k; apply (over_same level (width p)); done).
  assert (∀ k, over level l no_leaves (negb b :: k) = no_leaves k) as Hother.
  { intros k. apply (over_other level (width p)); [done|done|]. by rewrite negb_involutive. }
  destruct b; simpl in Hother; by rewrite (smt_ext p d _ _ (λ k _, Hsame k)), (smt_ext p d _ _ (λ k _, Hother k)).
Qed.

(** Lifting a hash through an empty spine. *)
Lemma spine_smt p l key h from to :
  from ≤ to → to ≤ depth p → length key = width p → Forall (λ e, length e.1 = width p) l →
  Forall (λ e, ∀ i, depth p - to ≤ i < depth p - from → level_bit e.1 i = level_bit key i) l →
  h = smt p from (over (depth p - from) l no_leaves) →
  spine_hash p (empty_chain p) key h from to = smt p to (over (depth p - to) l no_leaves).
Proof.
  intros Hft Htd Hk Hw. induction Hft as [|to Hft IH]; intros Hag Hh.
  { unfold spine_hash. rewrite Nat.sub_diag. done. }
  unfold spine_hash in *. replace (S to - from) with (S (to - from)) by lia.
  rewrite seq_S, foldl_app. cbn [foldl]. replace (from + (to - from)) with to by lia.
  rewrite IH; [|lia| |done].
  2: { eapply Forall_impl; [exact Hag|]. intros e He i Hi. apply He. lia. }
  rewrite bit_at_level_bit. replace (depth p - 1 - to) with (depth p - S to) by lia.
  rewrite (smt_one_side p (depth p - S to) to l (level_bit key (depth p - S to))); [|lia|done|].
  2: { eapply Forall_impl; [exact Hag|]. intros e He. apply He. lia. }
  by replace (S (depth p - S to)) with (depth p - to) by lia.
Qed.

Fixpoint ref_of (p : SmtParams) (t : rtree) : Ref :=
  match t with
  | Tip k h => RLeaf k h
  | Bin lv prefix l r =>
      RBranch (N.of_nat lv) prefix
        (node_hash p (ref_subtree_hash p (empty_chain p) (ref_of p l) (S lv))
                     (ref_subtree_hash p (empty_chain p) (ref_of p r) (S lv)))
  end.

Lemma ref_of_hash p t n :
  wf p t → n ≤ top_level p t →
  ref_subtree_hash p (empty_chain p) (ref_of p t) n = smt p (depth p - n) (over n (rleaves t) no_leaves).
Proof.
  revert n. induction t as [k h|lv prefix l IHl r IHr]; intros n Hwf Hn; cbn [ref_of ref_subtree_hash top_level] in *.
  - destruct Hwf as [Hk Hh]. rewrite (spine_smt p [(k, h)]); [|lia|lia|done|by repeat constructor|by repeat constructor|].
    + by replace (depth p - (depth p - n)) with n by lia.
    + simpl. rewrite decide_True; [done|]. apply suffix_end. unfold depth. lia.
  - pose proof (wf_child p lv prefix l r false Hwf) as Hcl. pose proof (wf_child p lv prefix l r true Hwf) as Hcr.
    pose proof (wf_widths p _ Hwf) as Hw. pose proof (wf_same_bits p (Bin lv prefix l r)) as Hsb.
    destruct Hwf as (Hlv & Hp & Hl & Hr & Hwl & Hwr). simpl in Hcl, Hcr.
    rewrite Nat2N.id, IHl, IHr by (done || lia).
    assert (Forall (λ e : bytes * Hash, level_bit e.1 lv = false) (rleaves l)) as Hl' by (eapply Forall_impl; [exact Hl|by intros e []]).
    assert (Forall (λ e : bytes * Hash, level_bit e.1 lv = true) (rleaves r)) as Hr' by (eapply Forall_impl; [exact Hr|by intros e []]).
    rewrite (spine_smt p (rleaves l ++ rleaves r)); [|lia|lia|apply Hp|done| |].
    + by replace (depth p - (depth p - n)) with n by lia.
    + replace (depth p - (depth p - lv)) with lv by lia. apply Forall_app.
      split; [eapply Forall_impl; [exact Hl|]|eapply Forall_impl; [exact Hr|]];
        intros e [He _] i Hi; apply He; lia.
    + replace (depth p - (depth p - lv)) with lv by lia. replace (depth p - lv) with (S (depth p - S lv)) by lia.
      rewrite smt_two_sides; [done|lia|by apply wf_widths..|done|done].
Qed.

(** ** Leaves in key order *)

Lemma StronglySorted_app_2 {A} (R : relation A) l1 l2 :
  StronglySorted R l1 → StronglySorted R l2 → (∀ x y, x ∈ l1 → y ∈ l2 → R x y) → StronglySorted R (l1 ++ l2).
Proof.
  intros H1 H2 H. induction H1 as [|x l1 Hs IH Hx]; [done|]. simpl. constructor.
  - apply IH. intros y z Hy. apply H. by right.
  - apply Forall_app. split; [done|]. apply Forall_forall. intros y Hy. apply H; [left|done].
Qed.

Lemma bits_lt_split a b n :
  length a = length b → n < 8 * length a → same_bits a b n → level_bit a n = false → level_bit b n = true →
  bits_lt (bits a) (bits b).
Proof.
  intros Hlen Hn Hsb Ha Hb. rewrite <- (take_drop n (bits a)), <- (take_drop n (bits b)).
  rewrite (proj1 (same_bits_take a b n Hlen ltac:(lia)) Hsb). apply bits_lt_app_l.
  change (bits_lt (suffix n a) (suffix n b)). rewrite (suffix_cons n a), (suffix_cons n b), Ha, Hb by lia. by left.
Qed.

Lemma bits_lt_asym a b : bits_lt a b → bits_lt b a → False.
Proof.
  revert b. induction a as [|x a IH]; intros [|y b]; simpl; [done..|].
  intros [[-> ->]|[-> H1]] [[H2 H3]|[H2 H3]]; try congruence. by eapply IH.
Qed.

Lemma bits_lt_bytes a b : length a = length b → bits_lt (bits a) (bits b) → strict bytes_le a b.
Proof.
  intros Hlen Hlt. assert (a ≠ b) as Hne by (intros ->; by eapply bits_lt_asym).
  destruct (bytes_le_total a b) as [Hle|Hle]; [by apply bytes_strict|].
  exfalso. apply (bits_lt_asym (bits a) (bits b)); [done|].
  apply bytes_lt_bits; [done|]. by apply bytes_strict.
Qed.

Lemma rleaves_sorted p t : wf p t → StronglySorted (λ a b, strict bytes_le a.1 b.1) (rleaves t).
Proof.
  induction t as [k h|lv prefix l IHl r IHr]; intros Hwf; [repeat constructor|].
  pose proof (wf_widths p _ Hwf) as Hw. simpl in Hw. rewrite Forall_forall in Hw.
  destruct Hwf as (Hlv & Hp & Hl & Hr & Hwl & Hwr). rewrite Forall_forall in Hl, Hr.
  simpl. apply StronglySorted_app_2; [by apply IHl|by apply IHr|].
  intros a b Ha Hb. destruct (Hl a Ha) as [Ha1 Ha2], (Hr b Hb) as [Hb1 Hb2].
  assert (length a.1 = width p) as Hla by (apply Hw, elem_of_app; by left).
  assert (length b.1 = width p) as Hlb by (apply Hw, elem_of_app; by right).
  apply bits_lt_bytes; [congruence|].
  apply (bits_lt_split _ _ lv); [congruence|unfold depth in Hlv; lia| |done..].
  eapply same_bits_trans; [done|by apply same_bits_sym].
Qed.

(** Leaves in strict key order are those of a map. *)
Lemma sorted_leaves_keyed (l : leaves) :
  StronglySorted (λ a b, strict bytes_le a.1 b.1) l →
  l = keyed (λ k, (list_to_map l : gmap bytes Hash) !!! k) (sorted_keys bytes_le (list_to_map l : gmap bytes Hash)).
Proof.
  intros Hs. assert (StronglySorted (strict bytes_le) l.*1) as Hk by (by eapply StronglySorted_fmap; [|exact Hs]).
  assert (NoDup l.*1) as Hnd by by eapply (NoDup_of_strict bytes_le).
  rewrite (sorted_keys_unique _ l.*1 Hk).
  - unfold keyed. rewrite <- list_fmap_compose. symmetry. transitivity (id <$> l); [|apply list_fmap_id].
    apply list_fmap_ext. intros i [k h] Hi. simpl. f_equal. apply lookup_total_correct.
    apply elem_of_list_to_map_1; [done|]. by eapply list_elem_of_lookup_2.
  - intros k. split.
    + intros (e & -> & He)%list_elem_of_fmap. exists e.2.
      apply elem_of_list_to_map_1; [done|]. by destruct e.
    + intros [h Hh%elem_of_list_to_map_2]. apply list_elem_of_fmap. by exists (k, h).
Qed.

Definition rmap (t : rtree) : gmap bytes Hash := list_to_map (rleaves t).

Lemma rmap_Tip k h : rmap (Tip k h) = {[k := h]}.
Proof. done. Qed.
Lemma rmap_Bin lv prefix l r : rmap (Bin lv prefix l r) = rmap l ∪ rmap r.
Proof. unfold rmap. simpl. apply list_to_map_app. Qed.

Lemma rmap_lookup p t k h : wf p t → rmap t !! k = Some h ↔ (k, h) ∈ rleaves t.
Proof.
  intros Hwf. symmetry. apply elem_of_list_to_map. apply (NoDup_of_strict bytes_le).
  eapply StronglySorted_fmap; [|by eapply rleaves_sorted]. done.
Qed.

Lemma rmap_not_side p lv prefix l r (b : bool) k :
  wf p (Bin lv prefix l r) → level_bit k lv = negb b → rmap (if b then r else l) !! k = None.
Proof.
  intros (_ & _ & Hl & Hr & Hwl & Hwr) Hk. apply eq_None_not_Some. intros [h Hh].
  rewrite Forall_forall in Hl, Hr.
  destruct b; (eapply rmap_lookup in Hh; [|done]); [apply Hr in Hh as [_ Hh]|apply Hl in Hh as [_ Hh]]; simpl in *; congruence.
Qed.

(** ** Updates *)

Definition join (k : bytes) (d : nat) (ours theirs : rtree) : rtree :=
  if level_bit k d then Bin d (prefix_of k d) theirs ours else Bin d (prefix_of k d) ours theirs.

Fixpoint tins (k : bytes) (h : Hash) (t : rtree) : rtree :=
  match t with
  | Tip k2 h2 =>
      if decide (k2 = k) then Tip k h
      else match first_diff_level k k2 with
           | Some d => join k d (Tip k h) t
           | None => t
           end
  | Bin lv prefix l r =>
      match diverge_before k prefix lv with
      | Some d => join k d (Tip k h) t
      | None => if level_bit k lv then Bin lv prefix l (tins k h r) else Bin lv prefix (tins k h l) r
      end
  end.

Fixpoint tdel (k : bytes) (t : rtree) : option rtree :=
  match t with
  | Tip k2 h2 => if decide (k2 = k) then None else Some t
  | Bin lv prefix l r =>
      if level_bit k lv then
        match tdel k r with Some r => Some (Bin lv prefix l r) | None => Some l end
      else
        match tdel k l with Some l => Some (Bin lv prefix l r) | None => Some r end
  end.

Lemma tjoin_wf p k h d t :
  length k = width p → length h = 32 → wf p t → d < depth p →
  (∀ e, e ∈ rleaves t → same_bits e.1 k d ∧ level_bit e.1 d = negb (level_bit k d)) →
  wf p (join k d (Tip k h) t) ∧ rmap (join k d (Tip k h) t) = <[k := h]> (rmap t).
Proof.
  intros Hk Hh Ht Hd Hsplit. destruct (prefix_of_ok p k d Hk ltac:(lia)) as [Hpo Hag].
  assert (rmap t !! k = None) as Hnone.
  { apply eq_None_not_Some. intros [h' Hh'%(rmap_lookup p)]; [|done].
    apply Hsplit in Hh' as [_ Hb]. simpl in Hb. by destruct (level_bit k d). }
  assert (Forall (on_side d (prefix_of k d) (negb (level_bit k d))) (rleaves t)) as Hside.
  { apply Forall_forall. intros e He. destruct (Hsplit e He) as [H1 H2]. split; [|done].
    eapply same_bits_trans; [exact H1|exact Hag]. }
  assert (Forall (on_side d (prefix_of k d) (level_bit k d)) [(k, h)]) as Hours by (by repeat constructor).
  unfold join. destruct (level_bit k d); rewrite rmap_Bin, rmap_Tip; split; [by split_and!| |by split_and!|].
  - by rewrite <- insert_union_singleton_r.
  - by rewrite <- insert_union_singleton_l.
Qed.

Lemma wf_update p lv prefix l r (b : bool) t' :
  wf p (Bin lv prefix l r) → wf p t' → Forall (on_side lv prefix b) (rleaves t') →
  wf p (if b then Bin lv prefix l t' else Bin lv prefix t' r).
Proof. intros (Hlv & Hp & Hl & Hr & Hwl & Hwr) Ht Hs. by destruct b; split_and!. Qed.

Lemma on_side_rmap p lv prefix b t (m : gmap bytes Hash) :
  wf p t → rmap t = m → (∀ k h, m !! k = Some h → same_bits k prefix lv ∧ level_bit k lv = b) →
  Forall (on_side lv prefix b) (rleaves t).
Proof.
  intros Hwf <- Hm. apply Forall_forall. intros [k h] He. apply (rmap_lookup p) in He; [|done]. by apply Hm in He.
Qed.

Lemma tins_spec p k h t :
  wf p t → length k = width p → length h = 32 →
  wf p (tins k h t) ∧ rmap (tins k h t) = <[k := h]> (rmap t).
Proof.
  intros Hwf Hk Hh. induction t as [k2 h2|lv prefix l IHl r IHr]; cbn [tins].
  - destruct (decide (k2 = k)) as [->|Hne]; [split; [done|]; by rewrite !rmap_Tip, insert_singleton_eq|].
    destruct Hwf as [Hk2 Hh2].
    destruct (first_diff_level_spec k k2) as (d & -> & Hd & Hag & Hdiff); [congruence|done|].
    apply tjoin_wf; [done..|unfold depth; lia|]. intros e ->%list_elem_of_singleton. simpl.
    split; [by apply same_bits_sym|]. by destruct (level_bit k d), (level_bit k2 d).
  - pose proof Hwf as (Hlv & Hp & Hl & Hr & Hwl & Hwr).
    destruct (diverge_before k prefix lv) as [d|] eqn:Hdiv.
    + apply diverge_before_Some in Hdiv as (Hd & Hag & Hdiff). apply tjoin_wf; [done..|lia|].
      intros e He. assert (same_bits e.1 prefix lv) as Hsb.
      { rewrite Forall_forall in Hl, Hr. simpl in He. apply elem_of_app in He as [He%Hl|He%Hr]; apply He. }
      split; [eapply same_bits_trans; [by eapply same_bits_le; [|exact Hsb]; lia|by apply same_bits_sym]|].
      rewrite (Hsb d Hd). by destruct (level_bit k d), (level_bit prefix d).
    + apply diverge_before_None in Hdiv.
      assert (∀ b : bool, level_bit k lv = b → ∀ k' h', <[k := h]> (rmap (if b then r else l)) !! k' = Some h' →
        same_bits k' prefix lv ∧ level_bit k' lv = b) as Hside.
      { intros b Hb k' h' [[<- _]|[_ Hin]]%lookup_insert_Some; [done|].
        rewrite Forall_forall in Hl, Hr. destruct b; (eapply rmap_lookup in Hin; [|done]); [by apply Hr in Hin|by apply Hl in Hin]. }
      destruct (level_bit k lv) eqn:Hb; rewrite !rmap_Bin.
      * destruct (IHr Hwr) as [Hw Hm]. split; [|rewrite Hm; symmetry; apply insert_union_r; by apply (rmap_not_side p lv prefix l r false)].
        apply (wf_update p lv prefix l r true); [done..|]. eapply on_side_rmap; [done|exact Hm|by apply (Hside true)].
      * destruct (IHl Hwl) as [Hw Hm]. split; [|by rewrite Hm, insert_union_l].
        apply (wf_update p lv prefix l r false); [done..|]. eapply on_side_rmap; [done|exact Hm|by apply (Hside false)].
Qed.

Definition owf (p : SmtParams) (t : option rtree) : Prop := from_option (wf p) True t.
Definition ormap (t : option rtree) : gmap bytes Hash := from_option rmap ∅ t.

Lemma tdel_spec p k t : wf p t → owf p (tdel k t) ∧ ormap (tdel k t) = delete k (rmap t).
Proof.
  intros Hwf. induction t as [k2 h2|lv prefix l IHl r IHr]; cbn [tdel].
  - destruct (decide (k2 = k)) as [->|Hne]; simpl; rewrite rmap_Tip.
    + split; [done|]. by rewrite delete_singleton_eq.
    + split; [done|]. by rewrite delete_singleton_ne.
  - pose proof Hwf as (Hlv & Hp & Hl & Hr & Hwl & Hwr). rewrite rmap_Bin, delete_union.
    assert (∀ b : bool, ∀ k' h', delete k (rmap (if b then r else l)) !! k' = Some h' →
      same_bits k' prefix lv ∧ level_bit k' lv = b) as Hside.
    { intros b k' h' [_ Hin]%lookup_delete_Some.
      rewrite Forall_forall in Hl, Hr. destruct b; (eapply rmap_lookup in Hin; [|done]); [by apply Hr in Hin|by apply Hl in Hin]. }
    destruct (level_bit k lv) eqn:Hb.
    + rewrite (delete_id (rmap l)) by (by apply (rmap_not_side p lv prefix l r false)).
      destruct (IHr Hwr) as [Hw Hm]. destruct (tdel k r) as [r'|]; simpl in *.
      * split; [|by rewrite rmap_Bin, Hm]. apply (wf_update p lv prefix l r true r' Hwf); [done|].
        eapply on_side_rmap; [done|exact Hm|apply (Hside true)].
      * split; [done|]. by rewrite <- Hm, (right_id_L ∅ (∪)).
    + rewrite (delete_id (rmap r)) by (by apply (rmap_not_side p lv prefix l r true)).
      destruct (IHl Hwl) as [Hw Hm]. destruct (tdel k l) as [l'|]; simpl in *.
      * split; [|by rewrite rmap_Bin, Hm]. apply (wf_update p lv prefix l r false l' Hwf); [done|].
        eapply on_side_rmap; [done|exact Hm|apply (Hside false)].
      * split; [done|]. by rewrite <- Hm, (left_id_L ∅ (∪)).
Qed.
