(* ===== verification/CommittedRows.v ===== *)
(** * The committed map: trees as rows

    [trows p t] are the node rows of a tree, by address.  [walk_ok] is the heart of
    [update_tree]: the descent with its stack, followed by the collapse and the
    rewriting of the stacked nodes, moves the rows from those of a tree to those
    of the updated tree and touches no other row.  A row address lies in the
    [region] of a subtree when it is below its level and on its path, so the other
    side of every node passed is left alone. *)

From Stdlib.Strings Require Byte.
From S2P Require Import Prelude Bytes Slices Blake2b V2Wire V2Identity Smt SmtSound SmtLedger Overlay Committed.
From S2P Require Import CommittedTree.

Local Open Scope nat_scope.

(** ** Reference rows *)

Definition ref_ok (w : nat) (r : Ref) : Prop :=
  match r with
  | REmpty => True
  | RLeaf key hash => length key = w ∧ length hash = 32
  | RBranch level prefix hash => (level < 65536)%N ∧ length prefix = w ∧ length hash = 32
  end.

Lemma decode_encode_ref w x r y :
  ref_ok w r → decode_ref (x ++ encode_ref r ++ y) w (length x) = Some (r, length x + length (encode_ref r)).
Proof.
  intros Hok. unfold decode_ref. destruct r as [|key hash|level prefix hash]; cbn [encode_ref] in *.
  - rewrite lookup_app_r, Nat.sub_diag by lia. simpl. do 2 f_equal. lia.
  - rewrite lookup_app_r, Nat.sub_diag by lia. cbn [app lookup list_lookup mbind option_bind].
    destruct Hok as [Hk Hh].
    replace (x ++ Byte.x01 :: (key ++ hash) ++ y) with ((x ++ [Byte.x01]) ++ key ++ (hash ++ y))
      by by rewrite <- !(assoc_L (++)).
    rewrite (slice_at_app' _ key _ (S (length x)) w) by (rewrite ?length_app; simpl; lia). cbn [mbind option_bind].
    replace ((x ++ [Byte.x01]) ++ key ++ hash ++ y) with (((x ++ [Byte.x01]) ++ key) ++ hash ++ y)
      by by rewrite <- !(assoc_L (++)).
    rewrite (slice_at_app' _ hash _ (S (length x) + w) 32) by (rewrite ?length_app; simpl; lia). cbn [mbind option_bind].
    do 2 f_equal. simpl. rewrite length_app. lia.
  - rewrite lookup_app_r, Nat.sub_diag by lia. cbn [app lookup list_lookup mbind option_bind].
    destruct Hok as (Hl & Hk & Hh). pose proof (length_to_be_bytes 2 level) as H2.
    set (lb := to_be_bytes 2 level) in *.
    replace (x ++ Byte.x02 :: (lb ++ prefix ++ hash) ++ y) with ((x ++ [Byte.x02]) ++ lb ++ (prefix ++ hash ++ y))
      by by rewrite <- !(assoc_L (++)).
    rewrite (slice_at_app' _ lb _ (S (length x)) 2) by (rewrite ?length_app; simpl; lia). cbn [mbind option_bind].
    replace ((x ++ [Byte.x02]) ++ lb ++ prefix ++ hash ++ y) with (((x ++ [Byte.x02]) ++ lb) ++ prefix ++ (hash ++ y))
      by by rewrite <- !(assoc_L (++)).
    rewrite (slice_at_app' _ prefix _ (S (length x) + 2) w) by (rewrite ?length_app; simpl; lia). cbn [mbind option_bind].
    replace (((x ++ [Byte.x02]) ++ lb) ++ prefix ++ hash ++ y) with ((((x ++ [Byte.x02]) ++ lb) ++ prefix) ++ hash ++ y)
      by by rewrite <- !(assoc_L (++)).
    rewrite (slice_at_app' _ hash _ (S (length x) + 2 + w) 32) by (rewrite ?length_app; simpl; lia). cbn [mbind option_bind].
    unfold lb. rewrite from_to_be_bytes by done. do 2 f_equal. cbn [length]. rewrite !length_app, length_to_be_bytes. lia.
Qed.

Lemma length_encode_ref w r : ref_ok w r → length (encode_ref r) ≤ 35 + w.
Proof.
  destruct r; cbn [encode_ref ref_ok length]; rewrite ?length_app, ?length_to_be_bytes; lia.
Qed.

(** ** Row addresses *)

Abbreviation address := (N * bytes)%type.

Fixpoint trows (p : SmtParams) (t : rtree) : gmap address bytes :=
  match t with
  | Tip _ _ => ∅
  | Bin lv prefix l r =>
      <[(N.of_nat lv, prefix) := encode_ref (ref_of p l) ++ encode_ref (ref_of p r)]> (trows p l ∪ trows p r)
  end.

Definition otrows (p : SmtParams) (t : option rtree) : gmap address bytes := from_option (trows p) ∅ t.

Definition region (n : nat) (k : bytes) (a : address) : Prop := n ≤ N.to_nat a.1 ∧ same_bits a.2 k n.

#[export] Instance same_bits_dec a b n : Decision (same_bits a b n).
Proof. refine (cast_if (decide (diverge_before a b n = None))); by rewrite <- diverge_before_None. Defined.

#[export] Instance region_dec n k a : Decision (region n k a).
Proof. unfold region. apply _. Defined.

Lemma region_S n m k a : n ≤ m → region m k a → region n k a.
Proof. intros Hn [H1 H2]. split; [lia|]. by eapply same_bits_le. Qed.

Section rows.
Context (p : SmtParams) (Hlim : (N.of_nat (depth p) < 65536)%N).
Implicit Types (t : rtree) (a : address).

Lemma ref_of_ok t : wf p t → ref_ok (width p) (ref_of p t).
Proof using Hlim.
  destruct t as [k h|lv prefix l r]; simpl; [done|].
  intros (Hlv & Hp & _). split_and!; [lia|apply Hp|apply length_node_hash].
Qed.

Lemma trows_region t n k a x :
  wf p t → n ≤ top_level p t → (∀ e, e ∈ rleaves t → same_bits e.1 k n) →
  trows p t !! a = Some x → region n k a ∧ top_level p t ≤ N.to_nat a.1 ∧ (a.1 < 65536)%N.
Proof using Hlim.
  revert n. induction t as [k2 h|lv prefix l IHl r IHr]; intros n Hwf Hn Hk Ha; [done|].
  pose proof (wf_child p lv prefix l r false Hwf) as Hcl. pose proof (wf_child p lv prefix l r true Hwf) as Hcr.
  destruct Hwf as (Hlv & Hp & Hl & Hr & Hwl & Hwr). cbn [trows top_level rleaves] in *.
  apply lookup_insert_Some in Ha as [[<- _]|[_ Ha]].
  - simpl. rewrite Nat2N.id. split_and!; [|lia|lia]. split; simpl; [lia|].
    destruct (rleaves l) as [|e le] eqn:Hle; [by apply rleaves_nonempty in Hle|].
    apply Forall_cons in Hl as [[He _] _].
    eapply same_bits_trans; [eapply same_bits_le; [|apply same_bits_sym; exact He]; lia|]. apply Hk. left.
  - apply lookup_union_Some_raw in Ha as [Ha|[_ Ha]].
    + destruct (IHl n) as (H1 & H2 & H3); [done|lia| |done|]; [intros e He; apply Hk, elem_of_app; by left|].
      split_and!; [done|lia|done].
    + destruct (IHr n) as (H1 & H2 & H3); [done|lia| |done|]; [intros e He; apply Hk, elem_of_app; by right|].
      split_and!; [done|lia|done].
Qed.

(** The address of a node is that of no row below it. *)
Lemma trows_above t a : wf p t → N.to_nat a.1 < top_level p t → trows p t !! a = None.
Proof using Hlim.
  intros Hwf Ha. apply eq_None_not_Some. intros [x Hx].
  destruct (trows_region t 0 [] a x Hwf) as (_ & H & _); [lia|intros e _ i Hi; lia|done|]. lia.
Qed.

(** The rows of a tree by side of a node passed with [k]. *)
Lemma trows_side lv prefix l r k a (b := level_bit k lv) :
  wf p (Bin lv prefix l r) → same_bits k prefix lv → region (S lv) k a →
  trows p (Bin lv prefix l r) !! a = trows p (if b then r else l) !! a ∧
  trows p (if b then l else r) !! a = None.
Proof using Hlim.
  intros Hwf Hk Ha. pose proof (wf_child p lv prefix l r false Hwf) as Hcl.
  pose proof (wf_child p lv prefix l r true Hwf) as Hcr.
  destruct Hwf as (Hlv & Hp & Hl & Hr & Hwl & Hwr). rewrite Forall_forall in Hl, Hr.
  assert (∀ (c : bool), c ≠ b → trows p (if c then r else l) !! a = None) as Hother.
  { intros c Hc. apply eq_None_not_Some. intros [x Hx].
    set (t := if c then r else l) in *.
    assert (wf p t) as Ht by by destruct c. assert (S lv ≤ top_level p t) as Htop by by destruct c.
    assert (∀ e, e ∈ rleaves t → on_side lv prefix c e) as Hs by (destruct c; [exact Hr|exact Hl]).
    destruct (rleaves t) as [|e0 le] eqn:Hle; [by apply rleaves_nonempty in Hle|].
    destruct (Hs e0) as [H1 H2]; [by left|].
    destruct (trows_region t (S lv) e0.1 a x Ht Htop) as ([_ Hreg] & _); [|done|].
    { intros e He. rewrite Hle in He. destruct (Hs e He) as [H3 H4].
      apply same_bits_S; [|congruence]. eapply same_bits_trans; [exact H3|by apply same_bits_sym]. }
    apply Hc. rewrite <- H2, <- (Hreg lv) by lia. destruct Ha as [_ Ha]. apply Ha. lia. }
  assert (a ≠ (N.of_nat lv, prefix)) as Hne.
  { intros ->. destruct Ha as [Ha _]. simpl in Ha. lia. }
  cbn [trows]. rewrite lookup_insert_ne, lookup_union by done. pose proof (Hother (negb b)) as Ho.
  destruct b; simpl in *; rewrite Ho by done; [by rewrite (left_id_L None _)|by rewrite (right_id_L None _)].
Qed.

Lemma trows_off_side lv prefix l r k a (b := level_bit k lv) :
  wf p (Bin lv prefix l r) → same_bits k prefix lv → a ≠ (N.of_nat lv, prefix) → ¬ region (S lv) k a →
  trows p (Bin lv prefix l r) !! a = trows p (if b then l else r) !! a.
Proof using Hlim.
  intros Hwf Hk Hne Ha. pose proof (wf_child p lv prefix l r b Hwf) as Hc.
  destruct Hwf as (Hlv & Hp & Hl & Hr & Hwl & Hwr). rewrite Forall_forall in Hl, Hr.
  assert (trows p (if b then r else l) !! a = None) as Hnone.
  { apply eq_None_not_Some. intros [x Hx]. apply Ha.
    eapply trows_region; [| | |exact Hx]; [by destruct b|lia|]. intros e He.
    assert (on_side lv prefix b e) as [H1 H2] by (destruct b; [by apply Hr|by apply Hl]).
    apply same_bits_S; [|done]. eapply same_bits_trans; [exact H1|by apply same_bits_sym]. }
  cbn [trows]. rewrite lookup_insert_ne, lookup_union by done.
  destruct b; rewrite Hnone; [by rewrite (right_id_L None _)|by rewrite (left_id_L None _)].
Qed.
End rows.

(** ** Walking and rewriting *)

Lemma node_row_inj cm l1 p1 l2 p2 :
  (l1 < 65536)%N → (l2 < 65536)%N → node_row cm l1 p1 = node_row cm l2 p2 → l1 = l2 ∧ p1 = p2.
Proof.
  intros H1 H2 Heq. apply app_inv_head in Heq. apply (inj2 cons) in Heq as [_ Heq].
  apply app_inj_1 in Heq as [Hl Hp]; [|by rewrite !length_to_be_bytes]. split; [|done].
  apply (f_equal from_be_bytes) in Hl. by rewrite !from_to_be_bytes in Hl.
Qed.

Section update.
Context (host : bytes → option bytes) (Hhost : host_ok host).
Context (cm : CommittedMap) (Hpre : cm_prefix cm ≠ []) (Hlim : (N.of_nat (depth (cm_params cm)) < 65536)%N).
Implicit Types (s : DispatchState) (t : rtree).

Abbreviation P := (cm_params cm).
Abbreviation C := (empty_chain (cm_params cm)).
Abbreviation arow a := (node_row cm (fst a) (snd a)).

Lemma row_load_ok row s :
  dispatch_ok host s →
  ∃ s', row_load host cm row s = Some (rows_at host s row, s') ∧ dispatch_ok host s' ∧ rows_at host s' = rows_at host s.
Proof using Hhost Hpre. intros Hs. by apply core_load_ok. Qed.

Lemma row_store_ok row v s :
  dispatch_ok host s → (∀ b, v = Some b → length b ≤ MAX_VALUE_BYTES) →
  ∃ s', row_store cm row v s = Some (tt, s') ∧ dispatch_ok host s' ∧
    ∀ k, rows_at host s' k = if decide (k = row) then v else rows_at host s k.
Proof using Hpre. intros Hs Hv. by apply core_store_ok. Qed.

(** The rows of a region are those of a tree. *)
Definition rows_match (n : nat) (k : bytes) s (rows : gmap address bytes) : Prop :=
  ∀ a, (a.1 < 65536)%N → region n k a → rows_at host s (arow a) = rows !! a.

(** Nothing outside a region has changed. *)
Definition only_region (n : nat) (k : bytes) s s' : Prop :=
  ∀ row, (∀ a, (a.1 < 65536)%N → region n k a → row ≠ arow a) → rows_at host s' row = rows_at host s row.

Lemma only_region_refl n k s : only_region n k s s.
Proof. done. Qed.

Lemma only_region_trans n m k s1 s2 s3 :
  n ≤ m → only_region m k s1 s2 → only_region n k s2 s3 → only_region n k s1 s3.
Proof.
  intros Hnm H12 H23 row Hrow. rewrite H23 by done. apply H12. intros a Ha Hr. apply Hrow; [done|]. by eapply region_S.
Qed.

Lemma width_small : 80 + 2 * width P ≤ MAX_VALUE_BYTES.
Proof using Hlim.
  assert (N.of_nat (80 + 2 * width P) ≤ N.of_nat MAX_VALUE_BYTES)%N as H; [|lia].
  change (N.of_nat MAX_VALUE_BYTES) with 65536%N. unfold depth in Hlim. lia.
Qed.

(** Writing or deleting a node row. *)
Lemma store_node_ok n k lv prefix v s :
  dispatch_ok host s → lv < depth P → n ≤ lv → same_bits prefix k n → (∀ b, v = Some b → length b ≤ MAX_VALUE_BYTES) →
  ∃ s', row_store cm (node_row cm (N.of_nat lv) prefix) v s = Some (tt, s') ∧ dispatch_ok host s' ∧ only_region n k s s' ∧
    ∀ a, (a.1 < 65536)%N → rows_at host s' (arow a) =
      if decide (a = (N.of_nat lv, prefix)) then v else rows_at host s (arow a).
Proof using Hlim Hpre.
  intros Hs Hlv Hn Hk Hlen.
  destruct (row_store_ok (node_row cm (N.of_nat lv) prefix) v s Hs Hlen) as (s' & Hw & Hs' & Hv).
  exists s'. split_and!; [done|done| |].
  - intros row Hrow. rewrite Hv, decide_False; [done|]. apply (Hrow (N.of_nat lv, prefix)); simpl; [lia|].
    split; simpl; [lia|done].
  - intros a Ha. rewrite Hv. destruct (decide (a = (N.of_nat lv, prefix))) as [->|Hne]; [by rewrite decide_True|].
    rewrite decide_False; [done|]. intros Heq. apply Hne. destruct a as [l0 p0]. simpl in *.
    apply node_row_inj in Heq as [-> ->]; [done..|lia].
Qed.

Lemma encode_pair_small l r b :
  ref_ok (width P) l → ref_ok (width P) r → Some (encode_ref l ++ encode_ref r) = Some b → length b ≤ MAX_VALUE_BYTES.
Proof using Hlim.
  intros Hl Hr [= <-]. pose proof width_small. apply length_encode_ref in Hl, Hr. rewrite length_app. lia.
Qed.

(** Joining a leaf and a tree that part at [d]. *)
Lemma join_refs_ok n k h d t s :
  dispatch_ok host s → wf P t → length k = width P → length h = 32 → n ≤ d → d < depth P →
  (∀ e, e ∈ rleaves t → same_bits e.1 k d ∧ level_bit e.1 d = negb (level_bit k d)) →
  rows_match n k s (trows P t) →
  ∃ s', join_refs cm C k d (RLeaf k h) (ref_of P t) s = Some (ref_of P (join k d (Tip k h) t), s') ∧
    dispatch_ok host s' ∧ only_region n k s s' ∧ rows_match n k s' (trows P (join k d (Tip k h) t)).
Proof using Hlim Hpre.
  intros Hs Ht Hk Hh Hn Hd Hsplit Hrows. destruct (prefix_of_ok P k d Hk ltac:(lia)) as [Hpo Hag].
  set (lr := if level_bit k d then (ref_of P t, RLeaf k h) else (RLeaf k h, ref_of P t)).
  assert (ref_ok (width P) lr.1 ∧ ref_ok (width P) lr.2) as [Hl Hr].
  { unfold lr. destruct (level_bit k d); split; simpl; try (by apply ref_of_ok); done. }
  destruct (store_node_ok n k d (prefix_of k d) (Some (encode_ref lr.1 ++ encode_ref lr.2)) s Hs Hd Hn)
    as (s' & Hw & Hs' & Hout & Hin);
    [apply same_bits_sym; by eapply same_bits_le|intros b; by apply encode_pair_small|].
  exists s'. unfold join_refs. rewrite N.mod_small by lia.
  split_and!; [|done|done|].
  - unfold lr in Hw. unfold join. destruct (level_bit k d); cbn [fst snd] in Hw;
      unfold write_node, mbind, dispatch_bind; rewrite Hw; done.
  - intros a Ha Hreg. rewrite Hin by done. rewrite (Hrows a Ha Hreg).
    assert (trows P (join k d (Tip k h) t) = <[(N.of_nat d, prefix_of k d) := encode_ref lr.1 ++ encode_ref lr.2]> (trows P t)) as ->.
    { unfold join, lr. destruct (level_bit k d); cbn [trows fst snd]; [by rewrite (right_id_L ∅ (∪))|by rewrite (left_id_L ∅ (∪))]. }
    case_decide as Heq; [by subst; rewrite lookup_insert_eq|by rewrite lookup_insert_ne].
Qed.

(** Reading the children of a node. *)
Lemma read_node_ok n k lv prefix l r s :
  dispatch_ok host s → wf P (Bin lv prefix l r) → rows_match n k s (trows P (Bin lv prefix l r)) →
  n ≤ lv → same_bits prefix k n →
  ∃ s', read_node host cm (N.of_nat lv) prefix s = Some ((ref_of P l, ref_of P r), s') ∧ dispatch_ok host s' ∧
    rows_at host s' = rows_at host s.
Proof using Hhost Hlim Hpre.
  intros Hs Hwf Hrows Hn Hk. destruct (row_load_ok (node_row cm (N.of_nat lv) prefix) s Hs) as (s' & Hl & Hs' & Hv).
  exists s'. split_and!; [|done|done]. unfold read_node, mbind, dispatch_bind. rewrite Hl.
  destruct Hwf as (Hlv & Hp & _ & _ & Hwl & Hwr).
  specialize (Hrows (N.of_nat lv, prefix)). simpl in Hrows. rewrite lookup_insert_eq in Hrows.
  rewrite Hrows; [|lia|split; simpl; [lia|done]].
  pose proof (decode_encode_ref (width P) [] (ref_of P l) (encode_ref (ref_of P r)) (ref_of_ok P Hlim l Hwl)) as H1.
  pose proof (decode_encode_ref (width P) (encode_ref (ref_of P l)) (ref_of P r) [] (ref_of_ok P Hlim r Hwr)) as H2.
  rewrite app_nil_r in H2. unfold lift. cbn [mbind option_bind].
  change (cm_width cm) with (width P). cbn [app length Nat.add] in H1. rewrite H1. cbn [mbind option_bind].
  rewrite H2. done.
Qed.

(** ** The update of a tree *)

Section walk.
Context (k : bytes) (leaf : option Hash) (count : N).
Context (Hk : length k = width P) (Hleaf : ∀ h, leaf = Some h → length h = 32).

Definition tupdate t : option rtree := match leaf with Some h => Some (tins k h t) | None => tdel k t end.

Definition update_changed (m : gmap bytes Hash) : bool :=
  match leaf with Some _ => bool_decide (m !! k = None) | None => true end.
Definition update_count (m : gmap bytes Hash) : N :=
  match leaf with
  | Some _ => if update_changed m then count_up count else count
  | None => count_down count
  end.

(** What follows the descent. *)
Definition finish (changed : bool) (count : N) (replacement : option Ref) (stack : list frame) : dispatch (Ref * bool * N) :=
  child ← settle cm C replacement stack;
  mret (child, changed, count).

Definition walked (d : dispatch (option Ref * bool * N * list frame)) : dispatch (Ref * bool * N) :=
  '(replacement, changed, count, stack) ← d;
  finish changed count replacement stack.

(** The descent from [t], then the rest, is the rest from the updated tree. *)
Definition updates (n : nat) t s (d : list frame → dispatch (option Ref * bool * N * list frame)) : Prop :=
  ∃ s', dispatch_ok host s' ∧ only_region n k s s' ∧ rows_match n k s' (otrows P (tupdate t)) ∧
    ∀ stack, walked (d stack) s =
      finish (update_changed (rmap t)) (update_count (rmap t)) (ref_of P <$> tupdate t) stack s'.

Lemma walk_join n t d h s :
  leaf = Some h → dispatch_ok host s → wf P t → n ≤ d → d < depth P → tins k h t = join k d (Tip k h) t →
  (∀ e, e ∈ rleaves t → same_bits e.1 k d ∧ level_bit e.1 d = negb (level_bit k d)) →
  rows_match n k s (trows P t) →
  updates n t s (λ stack, r ← join_refs cm C k d (RLeaf k h) (ref_of P t); mret (Some r, true, count_up count, stack)).
Proof using Hlim Hpre Hk Hleaf.
  intros Hl Hs Ht Hn Hd Htins Hsplit Hrows.
  destruct (join_refs_ok n k h d t s Hs Ht Hk (Hleaf h Hl) Hn Hd Hsplit Hrows) as (s' & Hj & Hs' & Hout & Hin).
  assert (rmap t !! k = None) as Hnone.
  { apply eq_None_not_Some. intros [h' Hh'%(rmap_lookup P)]; [|done].
    apply Hsplit in Hh' as [_ Hb]. simpl in Hb. by destruct (level_bit k d). }
  exists s'. unfold tupdate, update_count, update_changed. rewrite Hl, Htins, bool_decide_eq_true_2 by done.
  split_and!; [done..|]. intros stack. unfold walked, mbind, dispatch_bind. by rewrite Hj.
Qed.

Lemma walk_Tip n fuel k2 h2 s :
  dispatch_ok host s → wf P (Tip k2 h2) → n ≤ depth P → same_bits k2 k n →
  (leaf = None → is_Some (rmap (Tip k2 h2) !! k)) → rows_match n k s (trows P (Tip k2 h2)) →
  updates n (Tip k2 h2) s (walk host (S fuel) cm C k leaf count (RLeaf k2 h2)).
Proof using Hlim Hpre Hk Hleaf.
  intros Hs Ht Hn Hsb Hpres Hrows. cbn [walk]. destruct (decide (k2 = k)) as [->|Hne].
  - exists s. unfold tupdate, update_count, update_changed. rewrite rmap_Tip.
    destruct leaf as [h|]; cbn [tins tdel]; rewrite decide_True by done.
    + rewrite bool_decide_eq_false_2 by (by rewrite lookup_singleton_eq). split_and!; done.
    + split_and!; done.
  - assert (∃ h, leaf = Some h) as [h Hl].
    { destruct leaf as [h|]; [by exists h|]. destruct (Hpres eq_refl) as [h Hh].
      rewrite rmap_Tip, lookup_singleton_ne in Hh by done. done. }
    destruct Ht as [Hk2 Hh2]. destruct (first_diff_level_spec k k2) as (d & Hd & Hdl & Hag & Hdiff); [congruence|done|].
    assert (n ≤ d) as Hnd.
    { destruct (decide (n ≤ d)); [done|]. destruct Hdiff. symmetry. apply Hsb. lia. }
    eassert (updates n (Tip k2 h2) s _) as (s' & Hs' & Hout & Hin & Hrun).
    { eapply (walk_join n (Tip k2 h2) d h s); [done|done|done|done|unfold depth; lia| | |done].
      - cbn [tins]. by rewrite decide_False, Hd by done.
      - intros e ->%list_elem_of_singleton. simpl. split; [by apply same_bits_sym|].
        by destruct (level_bit k d), (level_bit k2 d). }
    exists s'. split_and!; [done..|]. intros stack. rewrite <- Hrun. unfold lift. rewrite Hl, Hd. done.
Qed.

Lemma walk_diverge n fuel lv prefix l r d s (t := Bin lv prefix l r) :
  dispatch_ok host s → wf P t → (∀ e, e ∈ rleaves t → same_bits e.1 k n) →
  (leaf = None → is_Some (rmap t !! k)) → rows_match n k s (trows P t) →
  diverge_before k prefix lv = Some d →
  updates n t s (walk host (S fuel) cm C k leaf count (ref_of P t)).
Proof using Hlim Hpre Hk Hleaf.
  intros Hs Ht Hsb Hpres Hrows Hdiv. pose proof Hdiv as (Hd & Hag & Hdiff)%diverge_before_Some.
  pose proof Ht as (Hlv & Hp & Hl & Hr & _). rewrite Forall_forall in Hl, Hr.
  assert (∀ e, e ∈ rleaves t → same_bits e.1 prefix lv) as Hpf.
  { intros e [He%Hl|He%Hr]%elem_of_app; apply He. }
  assert (∀ e, e ∈ rleaves t → same_bits e.1 k d ∧ level_bit e.1 d = negb (level_bit k d)) as Hsplit.
  { intros e He. pose proof (Hpf e He) as Hep. split.
    - eapply same_bits_trans; [eapply same_bits_le; [|exact Hep]; lia|by apply same_bits_sym].
    - rewrite (Hep d Hd). by destruct (level_bit k d), (level_bit prefix d). }
  assert (n ≤ d) as Hnd.
  { destruct (decide (n ≤ d)); [done|]. destruct (rleaves t) as [|e0 le] eqn:Hle; [by apply rleaves_nonempty in Hle|].
    destruct (Hsplit e0) as [_ Hb]; [by left|]. rewrite (Hsb e0) in Hb by (by left || lia).
    by destruct (level_bit k d). }
  assert (∃ h, leaf = Some h) as [h Hlf].
  { destruct leaf as [h|]; [by exists h|]. destruct (Hpres eq_refl) as [h Hh]. apply (rmap_lookup P) in Hh; [|done].
    apply Hsplit in Hh as [_ Hb]. simpl in Hb. by destruct (level_bit k d). }
  eassert (updates n t s _) as (s' & Hs' & Hout & Hin & Hrun).
  { eapply (walk_join n t d h s); [done|done|done|done|lia| |done|done]. cbn [tins t]. by rewrite Hdiv. }
  exists s'. split_and!; [done..|]. intros stack. rewrite <- Hrun.
  cbn [walk ref_of t]. rewrite Nat2N.id, Hdiv, Hlf. unfold lift. done.
Qed.

(** One node down: the child's update, then the node itself. *)
Definition with_child lv prefix l r (c : option rtree) : option rtree :=
  match c with
  | Some c => Some (if level_bit k lv then Bin lv prefix l c else Bin lv prefix c r)
  | None => Some (if level_bit k lv then l else r)
  end.

Lemma tupdate_Bin lv prefix l r (c := if level_bit k lv then r else l) :
  same_bits k prefix lv → tupdate (Bin lv prefix l r) = with_child lv prefix l r (tupdate c).
Proof using.
  clear Hleaf. intros Hsb. unfold tupdate, with_child, c. apply diverge_before_None in Hsb.
  destruct leaf as [h|]; cbn [tins tdel]; rewrite ?Hsb; destruct (level_bit k lv); [done..| |]; by destruct (tdel k _).
Qed.

Lemma rmap_Bin_side lv prefix l r :
  wf P (Bin lv prefix l r) → rmap (Bin lv prefix l r) !! k = rmap (if level_bit k lv then r else l) !! k.
Proof using.
  intros Hwf. rewrite rmap_Bin, lookup_union. destruct (level_bit k lv) eqn:Hb.
  - rewrite (rmap_not_side P lv prefix l r false k Hwf) by done. by rewrite (left_id_L None _).
  - rewrite (rmap_not_side P lv prefix l r true k Hwf) by done. by rewrite (right_id_L None _).
Qed.

Lemma tupdate_wf t : wf P t → owf P (tupdate t).
Proof using Hk Hleaf.
  intros Ht. unfold tupdate. destruct leaf as [h|]; [by apply tins_spec; [| |apply Hleaf]|by apply tdel_spec].
Qed.

Definition side_frame lv prefix l r : frame :=
  mkFrame (N.of_nat lv) prefix (ref_of P l) (ref_of P r) (level_bit k lv).

(** The rows after the node itself is rewritten or collapsed. *)
Lemma rows_with_child n lv prefix l r c' v s s1 s2 (t := Bin lv prefix l r) :
  wf P t → same_bits k prefix lv → n ≤ lv → rows_match n k s (trows P t) →
  only_region (S lv) k s s1 → rows_match (S lv) k s1 (otrows P c') →
  (∀ a, (a.1 < 65536)%N → rows_at host s2 (arow a) =
    if decide (a = (N.of_nat lv, prefix)) then v else rows_at host s1 (arow a)) →
  owf P (with_child lv prefix l r c') →
  otrows P (with_child lv prefix l r c') !! (N.of_nat lv, prefix) = v →
  rows_match n k s2 (otrows P (with_child lv prefix l r c')).
Proof using Hlim.
  intros Hwf Hsb Hn Hrows Hout Hin Hs2 Hwf' Hnode a Ha Hreg. rewrite Hs2 by done.
  case_decide as Haddr; [by subst|].
  destruct (decide (region (S lv) k a)) as [Hsub|Hoff].
  - rewrite Hin by done. destruct c' as [c'|]; cbn [with_child otrows from_option option_fmap] in *.
    + destruct (level_bit k lv) eqn:Hb.
      * pose proof (trows_side P Hlim lv prefix l c' k a Hwf' Hsb Hsub) as [H _]. rewrite Hb in H. symmetry. exact H.
      * pose proof (trows_side P Hlim lv prefix c' r k a Hwf' Hsb Hsub) as [H _]. rewrite Hb in H. symmetry. exact H.
    + pose proof (trows_side P Hlim lv prefix l r k a Hwf Hsb Hsub) as [_ H].
      destruct (level_bit k lv); symmetry; exact H.
  - assert (rows_at host s1 (arow a) = rows_at host s (arow a)) as ->.
    { apply Hout. intros a' Ha' Hr' Heq. apply Hoff. destruct a as [x1 x2], a' as [y1 y2]. simpl in *.
      apply node_row_inj in Heq as [-> ->]; done. }
    rewrite (Hrows a Ha Hreg). pose proof (trows_off_side P Hlim lv prefix l r k a Hwf Hsb Haddr Hoff) as H.
    unfold t. rewrite H. destruct c' as [c'|]; cbn [with_child otrows from_option option_fmap] in *.
    + destruct (level_bit k lv) eqn:Hb.
      * pose proof (trows_off_side P Hlim lv prefix l c' k a Hwf' Hsb Haddr Hoff) as H'. rewrite Hb in H'. symmetry. exact H'.
      * pose proof (trows_off_side P Hlim lv prefix c' r k a Hwf' Hsb Haddr Hoff) as H'. rewrite Hb in H'. symmetry. exact H'.
    + by destruct (level_bit k lv).
Qed.

Lemma node_finish n lv prefix l r s s1 (t := Bin lv prefix l r) (c := if level_bit k lv then r else l) :
  wf P t → same_bits k prefix lv → n ≤ lv → rows_match n k s (trows P t) →
  dispatch_ok host s1 → only_region (S lv) k s s1 → rows_match (S lv) k s1 (otrows P (tupdate c)) →
  ∃ s2, dispatch_ok host s2 ∧ only_region n k s s2 ∧ rows_match n k s2 (otrows P (tupdate t)) ∧
    ∀ ch cnt stack, finish ch cnt (ref_of P <$> tupdate c) (side_frame lv prefix l r :: stack) s1 =
      finish ch cnt (ref_of P <$> tupdate t) stack s2.
Proof using Hlim Hpre Hk Hleaf.
  intros Hwf Hsb Hn Hrows Hs1 Hout Hin. pose proof (tupdate_wf t Hwf) as Hwf'.
  pose proof Hwf as (Hlv & _ & _ & _ & Hwl & Hwr).
  pose proof (tupdate_Bin lv prefix l r Hsb) as Hupd. fold t c in Hupd. rewrite Hupd in Hwf' |- *.
  assert (owf P (tupdate c)) as Hc by (apply tupdate_wf; unfold c; by destruct (level_bit k lv)).
  set (v := match tupdate c with
            | Some c' => Some (if level_bit k lv then encode_ref (ref_of P l) ++ encode_ref (ref_of P c')
                               else encode_ref (ref_of P c') ++ encode_ref (ref_of P r))
            | None => None end).
  destruct (store_node_ok n k lv prefix v s1 Hs1 Hlv Hn) as (s2 & Hw & Hs2 & Hout2 & Hin2).
  { apply same_bits_sym. by eapply same_bits_le. }
  { intros b. unfold v. destruct (tupdate c) as [c'|]; [|done]. simpl in Hc.
    destruct (level_bit k lv); apply encode_pair_small; by apply ref_of_ok. }
  exists s2. split_and!; [done|by eapply only_region_trans; [|exact Hout|exact Hout2]; lia| |].
  - eapply rows_with_child; [done|done|done|exact Hrows|exact Hout|exact Hin|exact Hin2|done|].
    unfold v. destruct (tupdate c) as [c'|]; cbn [with_child otrows from_option option_fmap].
    + destruct (level_bit k lv); cbn [trows]; apply lookup_insert_eq.
    + pose proof (wf_child P lv prefix l r (negb (level_bit k lv)) Hwf) as Hch.
      destruct (level_bit k lv); simpl in Hch; (apply trows_above; [done|done|simpl; by rewrite Nat2N.id]).
  - intros ch cnt stack. unfold finish, mbind, dispatch_bind, settle. unfold v in Hw.
    destruct (tupdate c) as [c'|]; cbn [fmap option_fmap option_map with_child].
    + cbn [bubble side_frame f_side f_level f_prefix f_left f_right].
      unfold write_node, mbind, dispatch_bind. rewrite Nat2N.id. by destruct (level_bit k lv); rewrite Hw.
    + cbn [side_frame f_side f_level f_prefix f_left f_right]. unfold mbind, dispatch_bind. rewrite Hw.
      by destruct (level_bit k lv).
Qed.

Lemma walk_ok t fuel n s :
  dispatch_ok host s → wf P t → n ≤ depth P → (∀ e, e ∈ rleaves t → same_bits e.1 k n) →
  (leaf = None → is_Some (rmap t !! k)) → rows_match n k s (trows P t) → depth P < fuel + n →
  updates n t s (walk host fuel cm C k leaf count (ref_of P t)).
Proof using Hhost Hlim Hpre Hk Hleaf.
  revert fuel n s. induction t as [k2 h2|lv prefix l IHl r IHr]; intros fuel n s Hs Hwf Hn Hsb Hpres Hrows Hfuel;
    (destruct fuel as [|fuel]; [lia|]).
  { apply walk_Tip; try done. apply (Hsb (k2, h2)). by left. }
  destruct (diverge_before k prefix lv) as [d|] eqn:Hdiv; [by eapply walk_diverge|].
  pose proof Hdiv as Hpf%diverge_before_None. pose proof (wf_top_level P _ n k Hwf Hn Hsb) as Hnlv. simpl in Hnlv.
  destruct (read_node_ok n k lv prefix l r s Hs Hwf Hrows Hnlv) as (s0 & Hread & Hs0 & Hv0);
    [apply same_bits_sym; by eapply same_bits_le|].
  set (c := if level_bit k lv then r else l).
  assert (updates (S lv) c s0 (walk host fuel cm C k leaf count (ref_of P c))) as (s1 & Hs1 & Hout & Hin & Hrun).
  { pose proof (wf_child P lv prefix l r (level_bit k lv) Hwf) as Hch.
    pose proof (rmap_Bin_side lv prefix l r Hwf) as Hside.
    pose proof (λ a, trows_side P Hlim lv prefix l r k a Hwf Hpf) as Hts.
    destruct Hwf as (Hlv & _ & Hl & Hr & Hwl & Hwr). rewrite Forall_forall in Hl, Hr.
    assert (∀ t', t' = c → wf P t' → (∀ fuel n s, dispatch_ok host s → wf P t' → n ≤ depth P →
      (∀ e, e ∈ rleaves t' → same_bits e.1 k n) → (leaf = None → is_Some (rmap t' !! k)) →
      rows_match n k s (trows P t') → depth P < fuel + n →
      updates n t' s (walk host fuel cm C k leaf count (ref_of P t'))) →
      (∀ e, e ∈ rleaves t' → on_side lv prefix (level_bit k lv) e) →
      updates (S lv) t' s0 (walk host fuel cm C k leaf count (ref_of P t'))) as Hgo.
    { intros t' -> Ht' IH Hon. apply IH; [done|done|lia| | | |lia].
      - intros e He. destruct (Hon e He) as [H1 H2]. apply same_bits_S; [|done].
        eapply same_bits_trans; [exact H1|by apply same_bits_sym].
      - intros Hnone. unfold c. rewrite <- Hside. by apply Hpres.
      - intros a Ha Hreg. rewrite Hv0, (Hrows a Ha) by (eapply region_S; [|exact Hreg]; lia). by apply Hts. }
    apply Hgo; [done|..]; unfold c; destruct (level_bit k lv); done. }
  assert (only_region (S lv) k s s1) as Hout' by (intros row Hrow; rewrite Hout by done; by rewrite Hv0).
  destruct (node_finish n lv prefix l r s s1 Hwf Hpf Hnlv Hrows Hs1 Hout' Hin) as (s2 & Hs2 & Hout2 & Hin2 & Hfin).
  exists s2. split_and!; [done..|]. intros stack. rewrite <- Hfin.
  assert (∀ (m m' : gmap bytes Hash), m !! k = m' !! k → update_changed m = update_changed m' ∧ update_count m = update_count m') as Hcc.
  { intros m m' Hm. unfold update_count, update_changed. destruct leaf; [|done]. by rewrite Hm. }
  destruct (Hcc _ _ (rmap_Bin_side lv prefix l r Hwf)) as [-> ->]. fold c. rewrite <- Hrun.
  cbn [walk ref_of]. rewrite Nat2N.id, Hdiv. unfold walked at 1, mbind, dispatch_bind at 1 2. rewrite Hread.
  unfold side_frame, c. by destruct (level_bit k lv).
Qed.
End walk.
End update.
