(* ===== verification/CommittedProof.v ===== *)
(** * The committed map refines a finite map

    [cm_represents host s cm m]: the rows a dispatch sees under the handle are
    those of the map [m] from keys to values and leaf contents.  Mutations and
    reads are characterised on it: [insert_with_leaf_ok], [remove_ok], [read_root_ok].
    [rleaves_map] ties the tree to the sorted leaves, so that the root row holds
    the root recomputed from the whole map. *)

From Stdlib.Strings Require Byte.
From S2P Require Import Prelude Bytes Slices Blake2b V2Wire V2Identity Smt SmtSound SmtLedger Overlay Committed.
From S2P Require Import CommittedTree CommittedRows.

Local Open Scope nat_scope.

Definition oref (p : SmtParams) (t : option rtree) : Ref := from_option (ref_of p) REmpty t.

(** ** Roots *)

Lemma rleaves_map p t (m : gmap bytes bytes) :
  wf p t → rmap t = leaf_hash p <$> m → rleaves t = map_leaves p m.
Proof.
  intros Hwf Hm. rewrite (sorted_leaves_keyed _ (rleaves_sorted p t Hwf)). fold (rmap t). rewrite Hm.
  assert (sorted_keys bytes_le (leaf_hash p <$> m) = sorted_keys bytes_le m) as ->.
  { apply sorted_keys_unique; [apply sorted_keys_strict|]. intros k.
    rewrite (elem_of_sorted_keys bytes_le m), lookup_fmap. by rewrite fmap_is_Some. }
  unfold map_leaves, keyed. apply list_fmap_ext. intros i k Hk. f_equal.
  apply list_elem_of_lookup_2 in Hk. apply (elem_of_sorted_keys bytes_le m) in Hk as [c Hc].
  rewrite (lookup_total_correct m k c Hc). apply lookup_total_correct. by rewrite lookup_fmap, Hc.
Qed.

Lemma oref_root p t (m : gmap bytes bytes) :
  owf p t → keys_ok p m → ormap t = leaf_hash p <$> m →
  ref_subtree_hash p (empty_chain p) (oref p t) 0 = map_root p m.
Proof.
  intros Hwf Hk Hm. rewrite map_root_smt by done. unfold map_tree. destruct t as [t|]; simpl in *.
  - rewrite ref_of_hash by (done || lia). rewrite Nat.sub_0_r. by rewrite (rleaves_map p t m).
  - symmetry in Hm. apply fmap_empty_inv in Hm as ->. rewrite Nat.sub_0_r. by apply empty_chain_lookup.
Qed.

Lemma oref_ok p t : (N.of_nat (depth p) < 65536)%N → owf p t → ref_ok (width p) (oref p t).
Proof. intros Hlim Hwf. destruct t; [by apply ref_of_ok|done]. Qed.

(** ** Rows of the handle *)

Lemma root_not_node cm l prefix : root_row cm ≠ node_row cm l prefix.
Proof. intros Heq. apply app_inv_head in Heq. by apply (inj2 cons) in Heq as [? _]. Qed.
Lemma value_not_node cm k l prefix : value_row cm k ≠ node_row cm l prefix.
Proof. intros Heq. apply app_inv_head in Heq. by apply (inj2 cons) in Heq as [? _]. Qed.
Lemma value_not_root cm k : value_row cm k ≠ root_row cm.
Proof. intros Heq. apply app_inv_head in Heq. by apply (inj2 cons) in Heq as [? _]. Qed.
Lemma value_row_inj cm k1 k2 : value_row cm k1 = value_row cm k2 → k1 = k2.
Proof. intros Heq. apply app_inv_head in Heq. by apply (inj2 cons) in Heq as [_ ?]. Qed.

(** Whether a row belongs to the tree of the handle. *)
Definition tree_row cm (row : bytes) : Prop := row = root_row cm ∨ ∃ l prefix, row = node_row cm l prefix.

Section map.
Context (host : bytes → option bytes) (Hhost : host_ok host).
Context (cm : CommittedMap) (Hpre : cm_prefix cm ≠ []) (Hlim : (N.of_nat (depth (cm_params cm)) < 65536)%N).
Implicit Types (s : DispatchState) (t : option rtree) (M : gmap bytes Hash).

Abbreviation P := (cm_params cm).
Abbreviation C := (empty_chain (cm_params cm)).

Definition root_bytes t M : bytes :=
  to_le_bytes 8 (N.of_nat (size M)) ++ ref_subtree_hash P C (oref P t) 0 ++ encode_ref (oref P t).

(** The tree rows are those of the leaf hashes [M]. *)
Definition tree_state s M : Prop :=
  ∃ t, owf P t ∧ ormap t = M ∧ rows_match host cm 0 [] s (otrows P t) ∧
    ((rows_at host s (root_row cm) = None ∧ t = None) ∨ rows_at host s (root_row cm) = Some (root_bytes t M)).

Lemma rows_match_0 k k' s R : rows_match host cm 0 k s R → rows_match host cm 0 k' s R.
Proof using. clear Hlim Hpre Hhost. intros H a Ha _. apply H; [done|]. split; [lia|]. intros i Hi. lia. Qed.

Lemma length_root_hash t : owf P t → length (ref_subtree_hash P C (oref P t) 0) = 32.
Proof using.
  clear Hlim Hpre Hhost. intros Hwf. destruct t as [t|]; simpl in *.
  - rewrite ref_of_hash by (done || lia). apply length_smt. intros k _.
    pose proof (wf_hashes P t Hwf) as Hh. induction (rleaves t) as [|e l IH]; [done|].
    apply Forall_cons in Hh as [He Hh]. simpl. case_decide; [done|by apply IH].
  - rewrite Nat.sub_0_r, empty_chain_lookup by lia. by apply length_smt.
Qed.

Lemma decode_root_bytes t M :
  owf P t → (N.of_nat (size M) < u64_modulus)%N →
  decode_root (cm_width cm) (root_bytes t M) =
    Some (N.of_nat (size M), ref_subtree_hash P C (oref P t) 0, oref P t).
Proof using Hlim.
  intros Hwf Hsize. pose proof (length_root_hash t Hwf) as Hh. unfold decode_root, root_bytes.
  set (h := ref_subtree_hash P C (oref P t) 0) in *. set (c := to_le_bytes 8 (N.of_nat (size M))).
  assert (length c = 8) as Hc by apply length_to_le_bytes.
  rewrite (slice_at_app' [] c _ 0 8 eq_refl (eq_sym Hc) : slice_at (c ++ _) 0 8 = Some c). cbn [mbind option_bind].
  rewrite (slice_at_app' c h _ 8 32) by done. cbn [mbind option_bind].
  pose proof (decode_encode_ref (width P) (c ++ h) (oref P t) [] (oref_ok P t Hlim Hwf)) as Hd.
  rewrite app_nil_r, length_app, Hc, Hh, <- (assoc_L (++)) in Hd. change (cm_width cm) with (width P).
  cbn [Nat.add] in Hd. rewrite Hd. cbn [mbind option_bind]. unfold c. by rewrite from_to_le_bytes.
Qed.

Lemma read_root_ok s M :
  dispatch_ok host s → tree_state s M → (N.of_nat (size M) < u64_modulus)%N →
  ∃ s' t hash, read_root host cm s = Some ((N.of_nat (size M), hash, oref P t), s') ∧
    dispatch_ok host s' ∧ rows_at host s' = rows_at host s ∧ owf P t ∧ ormap t = M ∧
    rows_match host cm 0 [] s (otrows P t) ∧ (hash = None ∧ t = None ∨ hash = Some (ref_subtree_hash P C (oref P t) 0)).
Proof using Hhost Hpre Hlim.
  intros Hs (t & Hwf & Hm & Hrows & Hroot) Hsize.
  destruct (row_load_ok host Hhost cm Hpre (root_row cm) s Hs) as (s' & Hl & Hs' & Hv).
  unfold read_root, mbind, dispatch_bind. rewrite Hl. destruct Hroot as [[Hnone ->]|Hsome].
  - rewrite Hnone. simpl in Hm. subst M. exists s', None, None. rewrite map_size_empty.
    split_and!; [done..|by left].
  - rewrite Hsome. eexists s', t, _. unfold lift. rewrite decode_root_bytes by done.
    split_and!; [done..|by right].
Qed.

(** ** Updates *)

Lemma write_root_ok t M s (row_ok : owf P t) :
  dispatch_ok host s →
  ∃ s', write_root cm (N.of_nat (size M)) (ref_subtree_hash P C (oref P t) 0) (oref P t) s = Some (tt, s') ∧
    dispatch_ok host s' ∧ ∀ row, rows_at host s' row = if decide (row = root_row cm) then Some (root_bytes t M) else rows_at host s row.
Proof using Hpre Hlim.
  intros Hs. apply row_store_ok; [done..|]. intros b [= <-].
  pose proof (length_root_hash t row_ok). pose proof (width_small cm Hlim).
  pose proof (length_encode_ref _ _ (oref_ok P t Hlim row_ok)).
  unfold root_bytes. rewrite !length_app, length_to_le_bytes. lia.
Qed.

Lemma count_ok M k (leaf : option Hash) :
  (leaf = None → is_Some (M !! k)) → (N.of_nat (size M) + 1 < u64_modulus)%N →
  update_count k leaf (N.of_nat (size M)) M = N.of_nat (size (partial_alter (λ _, leaf) k M)).
Proof using.
  clear Hlim Hpre Hhost. intros Hpres Hsize. unfold update_count, update_changed, count_up, count_down. destruct leaf as [h|].
  - change (partial_alter (λ _, Some h) k M) with (<[k := h]> M). case_bool_decide as Hk.
    + rewrite N.mod_small, map_size_insert_None by done. lia.
    + rewrite map_size_insert_Some; [done|]. by apply not_eq_None_Some.
  - change (partial_alter (λ _, None) k M) with (delete k M). destruct (Hpres eq_refl) as [h Hh].
    rewrite map_size_delete_Some by done. assert (0 < size M).
    { apply Nat.neq_0_lt_0. intros ->%map_size_empty_inv. done. }
    replace (N.of_nat (size M) + (u64_modulus - 1))%N with (N.of_nat (pred (size M)) + 1 * u64_modulus)%N
      by (unfold u64_modulus in *; lia).
    rewrite N.Div0.mod_add, N.mod_small; [done|]. unfold u64_modulus in *. lia.
Qed.

(** [walk] and [settle] from the top. *)
Lemma descend_ok fuel s t k leaf count :
  dispatch_ok host s → owf P t → rows_match host cm 0 [] s (otrows P t) → length k = width P →
  (∀ h, leaf = Some h → length h = 32) → (leaf = None → is_Some (ormap t !! k)) → depth P < fuel →
  ∃ s' t', owf P t' ∧ ormap t' = partial_alter (λ _, leaf) k (ormap t) ∧ dispatch_ok host s' ∧
    rows_match host cm 0 [] s' (otrows P t') ∧
    (∀ row, (∀ l prefix, row ≠ node_row cm l prefix) → rows_at host s' row = rows_at host s row) ∧
    walked cm (walk host fuel cm C k leaf count (oref P t) []) s =
      Some ((oref P t', update_changed k leaf (ormap t), update_count k leaf count (ormap t)), s').
Proof using Hhost Hpre Hlim.
  intros Hs Hwf Hrows Hk Hleaf Hpres Hfuel. destruct t as [t|]; simpl in *.
  - destruct (walk_ok host Hhost cm Hpre Hlim k leaf count Hk Hleaf t fuel 0 s) as (s' & Hs' & Hout & Hin & Hrun);
      [done|done|lia|by intros e _ i Hi; lia|done|by eapply rows_match_0|lia|].
    exists s', (tupdate k leaf t). split_and!; [by eapply (tupdate_wf cm)| |done|by eapply rows_match_0| |].
    + unfold tupdate. destruct leaf as [h|]; [by apply (tins_spec P); [| |apply Hleaf]|by apply (tdel_spec P)].
    + intros row Hrow. apply Hout. intros a _ _. apply Hrow.
    + rewrite Hrun. unfold finish. by destruct (tupdate k leaf t).
  - destruct leaf as [h|]; [|by destruct (Hpres eq_refl)]. destruct fuel as [|fuel]; [lia|].
    exists s, (Some (Tip k h)). split_and!; [split; [done|by apply Hleaf]|apply rmap_Tip|done|done|done|done].
Qed.

Lemma update_tree_ok fuel s M k leaf :
  dispatch_ok host s → tree_state s M → default C (cm_chain cm) = C → length k = width P →
  (∀ h, leaf = Some h → length h = 32) → (leaf = None → is_Some (M !! k)) → depth P < fuel →
  (N.of_nat (size M) + 1 < u64_modulus)%N →
  ∃ s', update_tree host fuel cm k leaf s = Some ((update_changed k leaf M, cm_set_chain cm C), s') ∧
    dispatch_ok host s' ∧ tree_state s' (partial_alter (λ _, leaf) k M) ∧
    ∀ row, ¬ tree_row cm row → rows_at host s' row = rows_at host s row.
Proof using Hhost Hpre Hlim.
  intros Hs HM Hchain Hk Hleaf Hpres Hfuel Hsize.
  destruct (read_root_ok s M Hs HM) as (s1 & t & hash & Hread & Hs1 & Hv1 & Hwf & <- & Hrows & _); [lia|].
  destruct (descend_ok fuel s1 t k leaf (N.of_nat (size (ormap t)))) as (s2 & t' & Hwf' & Hm' & Hs2 & Hrows2 & Hv2 & Hrun);
    [done|done|by intros a Ha Hr; rewrite Hv1; apply Hrows|done..|].
  destruct (write_root_ok t' (ormap t') s2 Hwf' Hs2) as (s3 & Hwrite & Hs3 & Hv3).
  exists s3. split_and!; [|done| |].
  - unfold update_tree, mbind, dispatch_bind. rewrite Hread, Hchain.
    unfold walked, finish, mbind, dispatch_bind in Hrun.
    destruct (walk host fuel cm C k leaf _ (oref P t) [] s1) as [[[[[repl ch] cnt] stack] s1']|]; [|done].
    destruct (settle cm C repl stack s1') as [[child s2']|]; [|done].
    apply (inj Some) in Hrun. apply pair_eq in Hrun as [Hc ->]. apply pair_eq in Hc as [Hc ->].
    apply pair_eq in Hc as [-> ->]. rewrite count_ok, <- Hm' by done. by rewrite Hwrite.
  - exists t'. rewrite <- Hm'. split_and!; [done..| |].
    + intros a Ha Hr. rewrite Hv3, decide_False; [by apply Hrows2|]. apply not_eq_sym, root_not_node.
    + right. by rewrite Hv3, decide_True.
  - intros row Hrow. rewrite Hv3, decide_False by (intros ->; apply Hrow; by left).
    rewrite Hv2, Hv1; [done|]. intros l prefix ->. apply Hrow. right. by exists l, prefix.
Qed.
End map.

(** ** Representation *)

Definition cm_ok (cm : CommittedMap) : Prop :=
  cm_prefix cm ≠ [] ∧ (N.of_nat (depth (cm_params cm)) < 65536)%N ∧
  default (empty_chain (cm_params cm)) (cm_chain cm) = empty_chain (cm_params cm).

Section represent.
Context (host : bytes → option bytes) (Hhost : host_ok host).
Context {V : Type} `{RowCodecLaws V}.
Implicit Types (s : DispatchState) (m : gmap bytes (V * bytes)).

(** [m] gives each key its value and its leaf content. *)
Record cm_represents s (cm : CommittedMap) m : Prop := {
  rep_ok : cm_ok cm;
  rep_dispatch : dispatch_ok host s;
  rep_keys : keys_ok (cm_params cm) (snd <$> m);
  rep_values k : length k = cm_width cm → rows_at host s (value_row cm k) = row_encode ∘ fst <$> m !! k;
  rep_tree : tree_state host cm s (leaf_hash (cm_params cm) <$> (snd <$> m));
}.

(** A value above the row limit panics before anything is stored. *)
Lemma insert_with_leaf_large fuel s cm k v content :
  MAX_VALUE_BYTES < length (row_encode v) → cm_insert_with_leaf host fuel cm k v content s = None.
Proof using Type.
  intros Hlen. unfold cm_insert_with_leaf, insert_encoded, row_store, core_store, mbind, dispatch_bind.
  destruct (decide _); [done|]. by rewrite overlay_store_large.
Qed.

Lemma value_not_tree cm k : ¬ tree_row cm (value_row cm k).
Proof. intros [Heq|(l & prefix & Heq)]; [by apply value_not_root in Heq|by apply value_not_node in Heq]. Qed.

Lemma rep_size cm m : size (leaf_hash (cm_params cm) <$> (snd <$> m)) = size m.
Proof. by rewrite !map_size_fmap. Qed.

Lemma store_value_tree cm s s' k v M :
  (∀ row, rows_at host s' row = if decide (row = value_row cm k) then v else rows_at host s row) →
  tree_state host cm s M → tree_state host cm s' M.
Proof.
  intros Hv (t & Hwf & Hm & Hrows & Hroot). exists t. split_and!; [done..| |].
  - intros a Ha Hr. rewrite Hv, decide_False; [by apply Hrows|]. apply not_eq_sym, value_not_node.
  - rewrite Hv, decide_False; [done|]. apply not_eq_sym, value_not_root.
Qed.

(** The representation depends on the visible rows only. *)
Lemma rep_rows s s' cm m :
  cm_represents s cm m → dispatch_ok host s' → rows_at host s' = rows_at host s → cm_represents s' cm m.
Proof.
  intros [Hok Hs Hkeys Hvals (t & Hwf & Hm & Hrows & Hroot)] Hs' Hv. constructor; [done..| |].
  - intros k Hk. rewrite Hv. by apply Hvals.
  - exists t. rewrite Hv. split_and!; [done..| |done]. intros a Ha Hr. rewrite Hv. by apply Hrows.
Qed.

(** One mutation: the value row and the tree. *)
Lemma mutate_ok fuel s cm m k (e : option (V * bytes)) s1 :
  cm_represents s cm m → length k = cm_width cm → depth (cm_params cm) < fuel →
  (N.of_nat (size m) + 1 < u64_modulus)%N → (e = None → is_Some (m !! k)) → dispatch_ok host s1 →
  (∀ row, rows_at host s1 row = if decide (row = value_row cm k) then row_encode ∘ fst <$> e else rows_at host s row) →
  ∃ s' cm', update_tree host fuel cm k (leaf_hash (cm_params cm) ∘ snd <$> e) s1 =
      Some ((if e is Some _ then bool_decide (m !! k = None) else true, cm'), s') ∧
    cm_represents s' cm' (partial_alter (λ _, e) k m) ∧ cm_prefix cm' = cm_prefix cm ∧ cm_params cm' = cm_params cm.
Proof using Hhost.
  intros [(Hpre & Hlim & Hchain) Hs Hkeys Hvals Htree] Hk Hfuel Hsize Hpres Hs1 Hv1.
  set (M := leaf_hash (cm_params cm) <$> (snd <$> m)) in *.
  destruct (update_tree_ok host Hhost cm Hpre Hlim fuel s1 M k (leaf_hash (cm_params cm) ∘ snd <$> e))
    as (s' & Hrun & Hs' & Htree' & Hout); [done|by eapply store_value_tree|done|done| | |done|by unfold M; rewrite rep_size|].
  { intros h Hh. destruct e as [e|]; [|done]. apply (inj Some) in Hh as <-. apply length_digest. }
  { intros He. unfold M. rewrite !lookup_fmap, !fmap_is_Some. apply Hpres. by destruct e. }
  assert (leaf_hash (cm_params cm) <$> (snd <$> partial_alter (λ _, e) k m) =
    partial_alter (λ _, leaf_hash (cm_params cm) ∘ snd <$> e) k M) as HM.
  { apply map_eq. intros k'. unfold M. rewrite !lookup_fmap. destruct (decide (k = k')) as [<-|Hne].
    - rewrite !lookup_partial_alter_eq. by destruct e.
    - by rewrite !lookup_partial_alter_ne, !lookup_fmap. }
  exists s', (cm_set_chain cm (empty_chain (cm_params cm))). split_and!; [|constructor|done|done].
  - rewrite Hrun. unfold update_changed. destruct e as [e|]; [|done]. simpl. unfold M.
    do 3 f_equal. apply bool_decide_ext. rewrite !lookup_fmap, !fmap_None. done.
  - split_and!; done.
  - done.
  - intros k' x. rewrite lookup_fmap. destruct (decide (k = k')) as [<-|Hne]; [by intros|].
    rewrite lookup_partial_alter_ne by done. rewrite <- lookup_fmap. apply Hkeys.
  - intros k' Hk'. change (value_row (cm_set_chain cm _) k') with (value_row cm k').
    rewrite Hout by apply value_not_tree. rewrite Hv1. case_decide as Heq.
    + apply value_row_inj in Heq as ->. by rewrite lookup_partial_alter_eq.
    + rewrite lookup_partial_alter_ne by congruence. by apply Hvals.
  - rewrite <- HM in Htree'. exact Htree'.
Qed.

Lemma insert_with_leaf_ok fuel s cm m k v content :
  cm_represents s cm m → length k = cm_width cm → depth (cm_params cm) < fuel →
  (N.of_nat (size m) + 1 < u64_modulus)%N → length (row_encode v) ≤ MAX_VALUE_BYTES →
  ∃ s' cm', cm_insert_with_leaf host fuel cm k v content s = Some ((bool_decide (m !! k = None), cm'), s') ∧
    cm_represents s' cm' (<[k := (v, content)]> m) ∧ cm_prefix cm' = cm_prefix cm ∧ cm_params cm' = cm_params cm.
Proof using Hhost.
  intros Hrep Hk Hfuel Hsize Hlen. pose proof Hrep as [(Hpre & _ & _) Hs _ _ _].
  destruct (row_store_ok host cm Hpre (value_row cm k) (Some (row_encode v)) s Hs) as (s1 & Hst & Hs1 & Hv1);
    [by intros b [= <-]|].
  destruct (mutate_ok fuel s cm m k (Some (v, content)) s1) as (s' & cm' & Hrun & Hrep' & Hcm'); [done..|].
  exists s', cm'. split; [|done]. unfold cm_insert_with_leaf, insert_encoded, mbind, dispatch_bind. by rewrite Hst.
Qed.

Lemma remove_ok fuel s cm m k :
  cm_represents s cm m → length k = cm_width cm → depth (cm_params cm) < fuel →
  (N.of_nat (size m) + 1 < u64_modulus)%N →
  ∃ s' cm', cm_remove host fuel cm k s = Some ((bool_decide (is_Some (m !! k)), cm'), s') ∧
    cm_represents s' cm' (delete k m) ∧ cm_prefix cm' = cm_prefix cm ∧ cm_params cm' = cm_params cm.
Proof using Hhost.
  intros Hrep Hk Hfuel Hsize. pose proof Hrep as [(Hpre & _ & _) Hs _ Hvals _].
  destruct (row_load_ok host Hhost cm Hpre (value_row cm k) s Hs) as (s0 & Hload & Hs0 & Hv0).
  unfold cm_remove, mbind, dispatch_bind. rewrite Hload, Hvals by done.
  destruct (m !! k) as [e|] eqn:Hmk; simpl.
  - destruct (row_store_ok host cm Hpre (value_row cm k) None s0 Hs0) as (s1 & Hst & Hs1 & Hv1); [done|].
    destruct (mutate_ok fuel s cm m k None s1) as (s' & cm' & Hrun & Hrep' & Hcm');
      [done..|by rewrite Hmk|done|by intros row; rewrite Hv1, Hv0|].
    exists s', cm'. split; [|done]. by rewrite Hst.
  - exists s0, cm. rewrite delete_id by done. split_and!; [done| |done|done]. by eapply rep_rows.
Qed.
End represent.

(** * The committed map: extraction walk and iteration

    [collect_ok]: the worklist over the stored references emits, cell by cell, what
    [build_frontier_rec] computes from all the leaves; each touched key costs two
    items per level.  [iter_entries_ok]: the iterator visits the leaves of the tree in
    order. *)

Definition orleaves (t : option rtree) : leaves := from_option rleaves [] t.

Lemma rleaves_pos t : 0 < length (rleaves t).
Proof. pose proof (rleaves_nonempty t). destruct (rleaves t); [done|simpl; lia]. Qed.

Lemma parts_app (level : nat) (l0 l1 : leaves) :
  Forall (λ e, level_bit e.1 level = false) l0 → Forall (λ e, level_bit e.1 level = true) l1 →
  left_part fst level (l0 ++ l1) = l0 ∧ right_part fst level (l0 ++ l1) = l1.
Proof.
  intros H0 H1. unfold left_part, right_part. rewrite partition_point_app.
  - by rewrite take_app_length, drop_app_length.
  - eapply Forall_impl; [exact H0|]. intros e He. by rewrite goes_left_level_bit, He.
  - eapply Forall_impl; [exact H1|]. intros e He. by rewrite goes_left_level_bit, He.
Qed.

Lemma parts_side (level : nat) (l : leaves) (b : bool) :
  Forall (λ e, level_bit e.1 level = b) l →
  left_part fst level l = (if b then [] else l) ∧ right_part fst level l = (if b then l else []).
Proof.
  intros Hb. destruct b; [by apply (parts_app level [] l)|].
  pose proof (parts_app level l [] Hb (Forall_nil_2 _)) as H. by rewrite app_nil_r in H.
Qed.

(** A part of the tree without stored leaves emits nothing. *)
Lemma build_no_leaves p t prefix level d chain : build_frontier_rec p t [] prefix level d chain [] = [].
Proof.
  revert t prefix level. induction d as [|d IH]; intros t prefix level; [by destruct t|].
  destruct (decide (t = [])) as [->|Hne]; [done|]. rewrite build_split by done.
  assert (left_part fst level ([] : leaves) = [] ∧ right_part fst level ([] : leaves) = []) as [-> ->]
    by (by apply (parts_app level [] [])).
  by rewrite !IH.
Qed.

Section extract.
Context (host : bytes → option bytes) (Hhost : host_ok host).
Context (cm : CommittedMap) (Hpre : cm_prefix cm ≠ []) (Hlim : (N.of_nat (depth (cm_params cm)) < 65536)%N).
Implicit Types (s : DispatchState) (t : rtree).

Abbreviation P := (cm_params cm).
Abbreviation C := (empty_chain (cm_params cm)).

(** A stored subtree that occupies a cell of level [n]. *)
Record occupies (n : nat) s t : Prop := {
  oc_wf : wf P t;
  oc_top : n ≤ top_level P t;
  oc_rows e : e ∈ rleaves t → rows_match host cm n e.1 s (trows P t);
}.
Definition ooccupies (n : nat) s (t : option rtree) : Prop := from_option (occupies n s) True t.

Lemma occupies_rows n s s' t : rows_at host s' = rows_at host s → occupies n s t → occupies n s' t.
Proof. intros Hv [H1 H2 H3]. split; [done..|]. intros e He a Ha Hr. rewrite Hv. by eapply H3. Qed.

Lemma ooccupies_rows n s s' (t : option rtree) : rows_at host s' = rows_at host s → ooccupies n s t → ooccupies n s' t.
Proof. intros Hv. destruct t; [by apply occupies_rows|done]. Qed.

(** Below its top level a subtree stays on one side. *)
Lemma occupies_down n s t : occupies n s t → n < top_level P t → occupies (S n) s t.
Proof.
  intros [H1 _ H3] Hn. split; [done..|]. intros e He a Ha Hr. eapply H3; [done|done|]. eapply region_S; [|done]. lia.
Qed.

Lemma occupies_child s lv prefix l r (b : bool) :
  occupies lv s (Bin lv prefix l r) → occupies (S lv) s (if b then r else l).
Proof using Hlim.
  intros [Hwf _ Hrows]. pose proof (wf_child P lv prefix l r b Hwf) as Htop.
  split; [by destruct Hwf as (_ & _ & _ & _ & ? & ?), b|done|].
  intros e He a Ha Hr. assert (e ∈ rleaves (Bin lv prefix l r) ∧ on_side lv prefix b e) as [Hin [Hpe Hb]].
  { destruct Hwf as (_ & _ & Hl & Hr' & _). rewrite Forall_forall in Hl, Hr'.
    destruct b; (split; [apply elem_of_app; by (left + right)|by (apply Hl || apply Hr')]). }
  rewrite (Hrows e Hin a Ha) by (eapply region_S; [|done]; lia).
  destruct (trows_side P Hlim lv prefix l r e.1 a Hwf Hpe Hr) as [-> _]. by rewrite Hb.
Qed.

(** The side of a level on which all the leaves lie. *)
Lemma leaves_side n s t k :
  occupies n s t → n < top_level P t → (∃ e, e ∈ rleaves t ∧ level_bit e.1 n = level_bit k n) →
  Forall (λ e, level_bit e.1 n = level_bit k n) (rleaves t).
Proof.
  intros [Hwf _ _] Hn (e0 & He0 & Hb). apply Forall_forall. intros e He. rewrite <- Hb.
  by apply (wf_same_bits P t e e0).
Qed.

Lemma cell_sides_ok n s t :
  dispatch_ok host s → occupies n s t → n < depth P →
  ∃ tl tr s', cell_sides host cm (ref_of P t) n s = Some ((oref P tl, oref P tr), s') ∧
    dispatch_ok host s' ∧ rows_at host s' = rows_at host s ∧
    ooccupies (S n) s' tl ∧ ooccupies (S n) s' tr ∧
    orleaves tl = left_part fst n (rleaves t) ∧ orleaves tr = right_part fst n (rleaves t).
Proof using Hhost Hlim Hpre.
  intros Hs Ht Hn.
  assert (∀ k, n < top_level P t → (∃ e, e ∈ rleaves t ∧ level_bit e.1 n = level_bit k n) →
    ∃ tl tr, (if level_bit k n then (REmpty, ref_of P t) else (ref_of P t, REmpty)) = (oref P tl, oref P tr) ∧
    ooccupies (S n) s tl ∧ ooccupies (S n) s tr ∧
    orleaves tl = left_part fst n (rleaves t) ∧ orleaves tr = right_part fst n (rleaves t)) as Hdown.
  { intros k Hlt Hk. destruct (parts_side n (rleaves t) _ (leaves_side n s t k Ht Hlt Hk)) as [-> ->].
    pose proof (occupies_down n s t Ht Hlt). destruct (level_bit k n); [exists None, (Some t)|exists (Some t), None]; done. }
  destruct t as [k h|lv prefix l r].
  - destruct (Hdown k) as (tl & tr & Href & H); [done|exists (k, h); split; [by left|done]|].
    exists tl, tr, s. cbn [ref_of cell_sides]. rewrite <- Href. split_and!; (done || apply H).
  - cbn [ref_of cell_sides]. rewrite Nat2N.id. destruct (Nat.ltb_spec n lv) as [Hlt|Hge].
    + destruct (Hdown prefix) as (tl & tr & Href & H); [done| |].
      { pose proof (oc_wf _ _ _ Ht) as (_ & _ & Hl & _).
        destruct (rleaves l) as [|e le] eqn:Hle; [by apply rleaves_nonempty in Hle|].
        apply Forall_cons in Hl as [[He _] _]. exists e. split; [cbn [rleaves]; rewrite Hle; by left|]. by apply He. }
      exists tl, tr, s. rewrite <- Href. split_and!; (done || apply H).
    + assert (n = lv) as -> by (pose proof (oc_top _ _ _ Ht) as H; simpl in H; lia).
      pose proof (oc_wf _ _ _ Ht) as Hwf. pose proof Hwf as (_ & _ & Hl & Hr & _).
      destruct (rleaves l) as [|e le] eqn:Hle; [by apply rleaves_nonempty in Hle|].
      assert (e ∈ rleaves (Bin lv prefix l r)) as Hin by (cbn [rleaves]; rewrite Hle; by left).
      destruct (read_node_ok host Hhost cm Hpre Hlim lv e.1 lv prefix l r s Hs Hwf (oc_rows _ _ _ Ht e Hin))
        as (s' & Hread & Hs' & Hv'); [done| |].
      { apply Forall_cons in Hl as [[He _] _]. by apply same_bits_sym. }
      exists (Some l), (Some r), s'. rewrite <- Hle in Hl.
      destruct (parts_app lv (rleaves l) (rleaves r)) as [Hl' Hr'];
        [eapply Forall_impl; [exact Hl|by intros ? []]|eapply Forall_impl; [exact Hr|by intros ? []]|].
      cbn [rleaves]. rewrite Hl', Hr'. split_and!; try done; (eapply occupies_rows; [exact Hv'|]).
      * by apply (occupies_child s lv prefix l r false).
      * by apply (occupies_child s lv prefix l r true).
Qed.

(** The keys of an item. *)
Definition range (touched : list bytes) (start end_ : nat) : list bytes := take (end_ - start) (drop start touched).

Lemma range_split touched start end_ m :
  m ≤ end_ - start →
  range touched start (start + m) = take m (range touched start end_) ∧
  range touched (start + m) end_ = drop m (range touched start end_).
Proof.
  intros Hm. unfold range. split.
  - rewrite take_take. f_equal. lia.
  - rewrite skipn_firstn_comm, drop_drop. f_equal. lia.
Qed.

Lemma collect_here n s t prefix d :
  occupies n s t → slice fst (width P) n (rleaves t) → n + d = depth P →
  build_frontier_rec P [] (rleaves t) prefix n d C [] =
    [mkFrontierNode (N.of_nat n `mod` 65536) prefix (ref_subtree_hash P C (ref_of P t) n)].
Proof using Hlim.
  intros [Hwf Htop _] Hsl Hd. rewrite build_here by (done || apply rleaves_nonempty).
  rewrite N.mod_small by lia. rewrite ref_of_hash, sparse_root_smt by done.
  by replace (depth P - n) with d by lia.
Qed.

Lemma collect_ok touched d n (t : option rtree) prefix start end_ s :
  dispatch_ok host s → ooccupies n s t → slice fst (width P) n (orleaves t) → n + d = depth P →
  start ≤ end_ → end_ ≤ length touched →
  ∃ cost s', cost ≤ 1 + 2 * d * (end_ - start) ∧ dispatch_ok host s' ∧ rows_at host s' = rows_at host s ∧
    ∀ fuel work out, collect_loop host (cost + fuel) cm P C touched ((oref P t, n, prefix, start, end_) :: work) out s =
      collect_loop host fuel cm P C touched work
        (out ++ build_frontier_rec P (range touched start end_) (orleaves t) prefix n d C []) s'.
Proof using Hhost Hlim Hpre.
  revert n t prefix start end_ s. induction d as [|d IH]; intros n t prefix start end_ s Hs Ht Hsl Hd Hse Hen;
    (destruct (decide (start = end_)) as [->|Hne];
     [exists 1, s; split_and!; [apply Nat.le_add_r|done|done|]; intros fuel work out; cbn [Nat.add collect_loop];
      rewrite Nat.eqb_refl; unfold range; rewrite Nat.sub_diag; cbn [take];
      (destruct t as [t|]; [|by rewrite build_no_leaves, app_nil_r]);
      cbn [orleaves from_option]; rewrite (collect_here n s t) by done; by destruct t|]);
    (destruct t as [t|]; [|exists 1, s; split_and!; [apply Nat.le_add_r|done|done|]; intros fuel work out; cbn [Nat.add collect_loop];
      rewrite (proj2 (Nat.eqb_neq _ _)) by done; by rewrite build_no_leaves, app_nil_r]).
  all: assert (length (range touched start end_) = end_ - start) as Hlen
    by (unfold range; rewrite length_take, length_drop; lia).
  all: assert (range touched start end_ ≠ []) as Hr by (intros Hr; rewrite Hr in Hlen; simpl in Hlen; lia).
  - exists 1, s. split_and!; [lia|done|done|]. intros fuel work out. cbn [Nat.add collect_loop].
    rewrite (proj2 (Nat.eqb_neq _ _)) by done. rewrite (proj2 (Nat.eqb_eq (depth P) n)), orb_true_r by lia.
    destruct (range touched start end_); [done|]. by rewrite app_nil_r.
  - destruct (cell_sides_ok n s t Hs Ht) as (tl & tr & s1 & Hsides & Hs1 & Hv1 & Htl & Htr & Hll & Hlr); [lia|].
    destruct (split_slice fst (width P) n (rleaves t)) as (_ & _ & _ & Hsl0 & Hsl1); [unfold depth in Hd; lia|done|].
    set (m := partition_point (goes_left n) (range touched start end_)).
    assert (m ≤ end_ - start) as Hm by (rewrite <- Hlen; apply partition_point_le).
    destruct (range_split touched start end_ m Hm) as [Hr0 Hr1].
    destruct (IH (S n) tl prefix start (start + m) s1) as (c1 & s2 & Hc1 & Hs2 & Hv2 & Hrun1);
      [done|done|by rewrite Hll|lia|lia|lia|].
    destruct (IH (S n) tr (set_bit n prefix) (start + m) end_ s2) as (c2 & s3 & Hc2 & Hs3 & Hv3 & Hrun2);
      [done|by eapply ooccupies_rows|by rewrite Hlr|lia|lia|lia|].
    exists (1 + c1 + c2), s3. split_and!; [nia|done|by rewrite Hv3, Hv2|]. intros fuel work out.
    change (orleaves (Some t)) with (rleaves t).
    rewrite build_split by done. change (left_part id n ?l) with (take m l). change (right_part id n ?l) with (drop m l).
    rewrite <- Hr0, <- Hr1, <- Hll, <- Hlr, (assoc_L (++)), <- Hrun2, <- Hrun1.
    rewrite <- Nat.add_assoc. cbn [Nat.add collect_loop]. rewrite (proj2 (Nat.eqb_neq _ _)) by done.
    assert (ref_is_empty (oref P (Some t)) || (depth P =? n) = false) as ->.
    { rewrite (proj2 (Nat.eqb_neq _ _)) by lia. by destruct t. }
    unfold mbind, dispatch_bind. cbn [oref from_option]. rewrite Hsides. done.
Qed.
End extract.

(** ** Iteration *)

Section iterate.
Context (host : bytes → option bytes) (Hhost : host_ok host).
Context (cm : CommittedMap) (Hpre : cm_prefix cm ≠ []) (Hlim : (N.of_nat (depth (cm_params cm)) < 65536)%N).
Context {V : Type} `{RowCodecLaws V}.
Implicit Types (s : DispatchState) (ts : list (option rtree)) (m : gmap bytes (V * bytes)).

Abbreviation P := (cm_params cm).

Definition pending_leaves ts : leaves := ts ≫= orleaves.

(** Items popped before the stack is empty. *)
Definition pops ts : nat := sum_list_with (λ t, match t with None => 1 | Some t => 2 * length (rleaves t) - 1 end) ts.

(** What the stack of the iterator stands for. *)
Definition stacked s ts : Prop := Forall (from_option (λ t, ∃ n, occupies host cm n s t) True) ts.

Lemma stacked_rows s s' ts : rows_at host s' = rows_at host s → stacked s ts → stacked s' ts.
Proof.
  intros Hv Hst. eapply Forall_impl; [exact Hst|]. intros [t|]; [|done]. intros [n Hn]. exists n. by eapply occupies_rows.
Qed.

Lemma occupies_le n k s t : occupies host cm n s t → n ≤ k → k ≤ top_level P t → occupies host cm k s t.
Proof.
  intros [Hwf _ Hrows] Hk Htop. split; [done..|]. intros e He a Ha Hr. eapply Hrows; [done|done|]. by eapply region_S.
Qed.

Lemma iter_next_ok (f : bytes → option V) fuel s ts :
  dispatch_ok host s → stacked s ts → pops ts < fuel →
  Forall (λ e, ∃ v, f e.1 = Some v ∧ rows_at host s (value_row cm e.1) = Some (row_encode v)) (pending_leaves ts) →
  ∃ s' ts', dispatch_ok host s' ∧ rows_at host s' = rows_at host s ∧ stacked s' ts' ∧ pops ts' ≤ pops ts ∧
    match pending_leaves ts with
    | [] => iter_next host fuel cm (oref P <$> ts) s = Some (None, s')
    | (k, _) :: rest => ∃ v, f k = Some v ∧ pending_leaves ts' = rest ∧
        iter_next host fuel cm (oref P <$> ts) s = Some (Some (k, v, oref P <$> ts'), s')
    end.
Proof using All.
  revert s ts. induction fuel as [|fuel IH]; intros s ts Hs Hst Hfuel Hvals; [lia|].
  destruct ts as [|[[k h|lv prefix l r]|] ts]; cbn [fmap list_fmap oref from_option ref_of iter_next] in *.
  - exists s, []. split_and!; done.
  - apply Forall_cons in Hvals as [(v & Hf & Hrow) Hvals]. simpl in Hf, Hrow.
    destruct (row_load_ok host Hhost cm Hpre (value_row cm k) s Hs) as (s' & Hload & Hs' & Hv').
    apply Forall_cons in Hst as [_ Hst]. exists s', ts.
    split_and!; [done|done|by eapply stacked_rows|unfold pops; simpl; lia|]. exists v. split_and!; [done|done|].
    unfold mbind, dispatch_bind. rewrite Hload, Hrow. unfold lift. cbn [mbind option_bind]. by rewrite try_decode_encode.
  - apply Forall_cons in Hst as [[n Hn] Hst]. cbn [from_option] in Hn.
    pose proof (oc_wf _ _ _ _ _ Hn) as Hwf. pose proof (oc_top _ _ _ _ _ Hn) as Htop. cbn [top_level] in Htop.
    assert (occupies host cm lv s (Bin lv prefix l r)) as Hlv by (by eapply occupies_le).
    destruct (rleaves l) as [|e le] eqn:Hle; [by apply rleaves_nonempty in Hle|].
    destruct (read_node_ok host Hhost cm Hpre Hlim lv e.1 lv prefix l r s Hs Hwf) as (s1 & Hread & Hs1 & Hv1); [|done| |].
    { apply (oc_rows _ _ _ _ _ Hlv). cbn [rleaves]. rewrite Hle. by left. }
    { destruct Hwf as (_ & _ & Hl & _). rewrite Hle in Hl. apply Forall_cons in Hl as [[He _] _]. by apply same_bits_sym. }
    pose proof (rleaves_pos l) as Hpl. pose proof (rleaves_pos r) as Hpr.
    assert (pops (Some l :: Some r :: ts) < pops (Some (Bin lv prefix l r) :: ts)) as Hpops.
    { unfold pops. cbn [sum_list_with rleaves]. rewrite length_app. lia. }
    assert (pending_leaves (Some l :: Some r :: ts) = pending_leaves (Some (Bin lv prefix l r) :: ts)) as Hpend.
    { unfold pending_leaves. cbn [mbind list_bind orleaves from_option rleaves]. by rewrite <- (assoc_L (++)). }
    destruct (IH s1 (Some l :: Some r :: ts)) as (s' & ts' & Hs' & Hv' & Hst' & Hp' & Hres).
    + done.
    + apply (stacked_rows s); [done|]. constructor; [exists (S lv); by apply (occupies_child host cm Hlim s lv prefix l r false)|].
      constructor; [exists (S lv); by apply (occupies_child host cm Hlim s lv prefix l r true)|done].
    + lia.
    + rewrite Hpend. eapply Forall_impl; [exact Hvals|]. intros x. by rewrite Hv1.
    + exists s', ts'. split_and!; [done|by rewrite Hv', Hv1|done|lia|]. rewrite Hpend in Hres.
      unfold mbind, dispatch_bind. rewrite Hread. exact Hres.
  - apply Forall_cons in Hst as [_ Hst]. change (pops (None :: ts)) with (S (pops ts)) in *.
    destruct (IH s ts) as (s' & ts' & Hs' & Hv' & Hst' & Hp' & Hres); [done|done|lia|done|].
    exists s', ts'. split_and!; [done..|lia|exact Hres].
Qed.

(** [for (k, v) in map.iter()]. *)
Fixpoint iter_entries (n fuel : nat) (stack : list Ref) : dispatch (list (bytes * V)) :=
  match n with
  | O => panic
  | S n =>
      e ← iter_next host fuel cm stack;
      match e with
      | None => mret []
      | Some (k, v, stack) => rest ← iter_entries n fuel stack; mret ((k, v) :: rest)
      end
  end.

Lemma iter_entries_ok (f : bytes → option V) n fuel s ts :
  dispatch_ok host s → stacked s ts → pops ts < fuel → length (pending_leaves ts) < n →
  Forall (λ e, ∃ v, f e.1 = Some v ∧ rows_at host s (value_row cm e.1) = Some (row_encode v)) (pending_leaves ts) →
  ∃ s' entries, iter_entries n fuel (oref P <$> ts) s = Some (entries, s') ∧
    dispatch_ok host s' ∧ rows_at host s' = rows_at host s ∧
    entries.*1 = (pending_leaves ts).*1 ∧ Forall (λ e, f e.1 = Some e.2) entries.
Proof using All.
  revert s ts. induction n as [|n IH]; intros s ts Hs Hst Hfuel Hn Hvals; [lia|].
  destruct (iter_next_ok f fuel s ts) as (s1 & ts1 & Hs1 & Hv1 & Hst1 & Hp1 & Hres); [done..|].
  cbn [iter_entries]. unfold mbind, dispatch_bind. destruct (pending_leaves ts) as [|[k h] rest].
  - rewrite Hres. by exists s1, [].
  - destruct Hres as (v & Hf & Hrest & Hres). rewrite Hres. apply Forall_cons in Hvals as [_ Hvals]. simpl in Hn.
    destruct (IH s1 ts1) as (s' & entries & Hrun & Hs' & Hv' & Hk & Hall);
      [done|done|lia|rewrite Hrest; lia|rewrite Hrest; eapply Forall_impl; [exact Hvals|]; intros x; by rewrite Hv1|].
    rewrite Hrun. exists s', ((k, v) :: entries). split_and!; [done|done|by rewrite Hv', Hv1|by rewrite !fmap_cons, Hk, Hrest|by constructor].
Qed.
End iterate.

(** ** One tree per map *)

Lemma same_prefix p n a b : prefix_ok p n a → prefix_ok p n b → same_bits a b n → a = b.
Proof.
  intros [Ha Hza] [Hb Hzb] Hsame. apply same_bits_eq; [congruence|]. intros i Hi.
  destruct (decide (i < n)) as [Hlt|Hge]; [by apply Hsame|].
  assert (i < depth p) as Hid by (unfold depth; lia).
  specialize (Hza i ltac:(lia) Hid). specialize (Hzb i ltac:(lia) Hid).
  rewrite level_bit_lookup in Hza, Hzb by lia. congruence.
Qed.

Lemma Bin_sides p lv prefix l r :
  wf p (Bin lv prefix l r) →
  left_part fst lv (rleaves (Bin lv prefix l r)) = rleaves l ∧ right_part fst lv (rleaves (Bin lv prefix l r)) = rleaves r.
Proof.
  intros (_ & _ & Hl & Hr & _). apply parts_app;
    [eapply Forall_impl; [exact Hl|by intros ? []]|eapply Forall_impl; [exact Hr|by intros ? []]].
Qed.

Lemma Bin_prefix p lv prefix l r e :
  wf p (Bin lv prefix l r) → e ∈ rleaves (Bin lv prefix l r) → same_bits e.1 prefix lv.
Proof.
  intros (_ & _ & Hl & Hr & _) He. rewrite Forall_forall in Hl, Hr. apply elem_of_app in He as [He%Hl|He%Hr]; apply He.
Qed.

(** A node's level is the first on which its leaves differ. *)
Lemma wf_unique p t1 t2 : wf p t1 → wf p t2 → rleaves t1 = rleaves t2 → t1 = t2.
Proof.
  revert t2. induction t1 as [k1 h1|lv1 p1 l1 IHl r1 IHr]; intros t2 H1 H2 Heq; destruct t2 as [k2 h2|lv2 p2 l2 r2].
  - by injection Heq as -> ->.
  - apply (f_equal length) in Heq. cbn [rleaves length] in Heq. rewrite length_app in Heq.
    pose proof (rleaves_pos l2). pose proof (rleaves_pos r2). lia.
  - apply (f_equal length) in Heq. cbn [rleaves length] in Heq. rewrite length_app in Heq.
    pose proof (rleaves_pos l1). pose proof (rleaves_pos r1). lia.
  - assert (lv1 = lv2) as <-.
    { pose proof H1 as (Hlv1 & _). pose proof H2 as (Hlv2 & _).
      pose proof (wf_top_level p _ lv2 p2 H1 ltac:(lia)) as Ha. pose proof (wf_top_level p _ lv1 p1 H2 ltac:(lia)) as Hb.
      cbn [top_level] in Ha, Hb. apply Nat.le_antisymm.
      - apply Hb. intros e He. rewrite <- Heq in He. by eapply Bin_prefix.
      - apply Ha. intros e He. rewrite Heq in He. by eapply Bin_prefix. }
    assert (p1 = p2) as <-.
    { destruct (rleaves (Bin lv1 p1 l1 r1)) as [|e le] eqn:Hle; [by apply rleaves_nonempty in Hle|].
      apply (same_prefix p lv1); [apply H1|apply H2|].
      eapply same_bits_trans; [apply same_bits_sym; eapply (Bin_prefix p lv1 p1 l1 r1 e); [done|rewrite Hle; by left]|].
      eapply Bin_prefix; [exact H2|]. rewrite <- Heq. by left. }
    destruct (Bin_sides p lv1 p1 l1 r1 H1) as [Hl1 Hr1]. destruct (Bin_sides p lv1 p1 l2 r2 H2) as [Hl2 Hr2].
    rewrite Heq in Hl1, Hr1. f_equal; [apply IHl|apply IHr]; (apply H1 || apply H2 || congruence).
Qed.

Lemma rmap_nonempty t : rmap t ≠ ∅.
Proof.
  unfold rmap. pose proof (rleaves_nonempty t). destruct (rleaves t) as [|[k h] l]; [done|]. apply insert_non_empty.
Qed.

Lemma owf_unique p t1 t2 : owf p t1 → owf p t2 → ormap t1 = ormap t2 → t1 = t2.
Proof.
  intros H1 H2 Hm. destruct t1 as [t1|], t2 as [t2|]; simpl in *; [| | |done].
  - f_equal. apply (wf_unique p); [done..|].
    rewrite (sorted_leaves_keyed _ (rleaves_sorted p t1 H1)), (sorted_leaves_keyed _ (rleaves_sorted p t2 H2)).
    unfold rmap in Hm. by rewrite Hm.
  - by apply rmap_nonempty in Hm.
  - by symmetry in Hm; apply rmap_nonempty in Hm.
Qed.
