(* ===== verification/CommittedProps.v ===== *)
(** * The committed map: properties

    A handle over the rows of a dispatch behaves as a finite map from keys to
    values, its root is the root recomputed from all the leaves, its rows are a
    function of that map alone, and the witnesses it extracts feed the witnessed
    ledger of the proving side. *)

From Stdlib.Strings Require Byte.
From stdpp Require Import strings.
From S2P Require Import Prelude Bytes Slices Blake2b V2Wire V2Identity Smt SmtSound SmtLedger SmtProps Overlay.
From S2P Require Import Committed CommittedTree CommittedRows CommittedProof.

Local Open Scope nat_scope.

Section represented.
Context (host : bytes → option bytes) (Hhost : host_ok host).
Context {V : Type} `{RowCodecLaws V}.
Implicit Types (s : DispatchState) (cm : CommittedMap) (m : gmap bytes (V * bytes)).

(** A handle over fresh storage. *)
Lemma rep_fresh cm :
  cm_ok cm → (∀ tag suffix, host (core_row (cm_prefix cm) tag suffix) = None) →
  cm_represents host dispatch_new cm (∅ : gmap bytes (V * bytes)).
Proof.
  intros Hok Hfresh. constructor; [done|apply dispatch_new_ok| |intros k _; apply Hfresh|].
  - rewrite fmap_empty. apply map_Forall_empty.
  - exists None. rewrite !fmap_empty. split_and!; [done..| |left; split; [apply Hfresh|done]].
    intros a _ _. apply Hfresh.
Qed.

(** The tree of a represented map. *)
Lemma rep_root s cm m :
  cm_represents host s cm m → (N.of_nat (size m) < u64_modulus)%N →
  ∃ s' t hash, read_root host cm s = Some ((N.of_nat (size m), hash, oref (cm_params cm) t), s') ∧
    cm_represents host s' cm m ∧ rows_at host s' = rows_at host s ∧ owf (cm_params cm) t ∧
    orleaves t = map_leaves (cm_params cm) (snd <$> m) ∧ ooccupies host cm 0 s' t ∧
    default (map_root (cm_params cm) ∅) hash = map_root (cm_params cm) (snd <$> m).
Proof using Hhost.
  intros Hrep Hsize. pose proof Hrep as [(Hpre & Hlim & _) Hs Hkeys _ Htree].
  destruct (read_root_ok host Hhost cm Hpre Hlim s _ Hs Htree) as (s' & t & hash & Hread & Hs' & Hv & Hwf & Hm & Hrows & Hhash);
    [by rewrite rep_size|].
  rewrite rep_size in Hread. exists s', t, hash.
  pose proof (oref_root (cm_params cm) t _ Hwf Hkeys Hm) as Hroot.
  split_and!; [done|by eapply rep_rows|done|done| | |].
  - destruct t as [t|]; [by apply rleaves_map|]. simpl in Hm |- *.
    symmetry in Hm. apply fmap_empty_inv in Hm. by rewrite Hm.
  - destruct t as [t|]; [|done]. split; [done|lia|]. intros e _ a Ha Hr. rewrite Hv. apply Hrows; [done|].
    split; [lia|]. intros i Hi. lia.
  - destruct Hhash as [[-> ->]| ->]; simpl in *; [|done]. symmetry in Hm. apply fmap_empty_inv in Hm. by rewrite Hm.
Qed.

Lemma load_values_ok s cm m keys :
  cm_represents host s cm m → Forall (λ k, length k = cm_width cm) keys →
  ∃ s', mapM (load_value host cm) keys s =
      Some ((λ k, (k, row_encode ∘ fst <$> m !! k)) <$> keys, s') ∧ cm_represents host s' cm m.
Proof using Hhost.
  intros Hrep Hk. revert s Hrep. induction Hk as [|k keys Hk _ IH]; intros s Hrep; [by exists s|].
  pose proof Hrep as [(Hpre & _ & _) Hs _ Hvals _].
  destruct (row_load_ok host Hhost cm Hpre (value_row cm k) s Hs) as (s1 & Hload & Hs1 & Hv1).
  destruct (IH s1) as (s' & Hrun & Hrep'); [by eapply rep_rows|]. exists s'. split; [|done].
  transitivity ((y ← load_value host cm k; ys ← mapM (load_value host cm) keys; mret (y :: ys)) s); [done|].
  assert (load_value host cm k s = Some ((k, row_encode ∘ fst <$> m !! k), s1)) as Hone.
  { unfold load_value, mbind, dispatch_bind. by rewrite Hload, Hvals. }
  by rewrite (bind_run _ _ _ _ _ Hone), (bind_run _ _ _ _ _ Hrun).
Qed.

Lemma root_ok s cm m :
  cm_represents host s cm m → (N.of_nat (size m) < u64_modulus)%N →
  ∃ s', cm_root host cm s = Some (map_root (cm_params cm) (snd <$> m), s') ∧ cm_represents host s' cm m.
Proof using Hhost.
  intros Hrep Hsize.
  destruct (rep_root s cm m Hrep Hsize) as (s2 & t & hash & Hread & Hrep2 & _ & _ & _ & _ & Hroot).
  exists s2. split; [|done]. unfold cm_root. rewrite (bind_run _ _ _ _ _ Hread).
  destruct hash as [h|]; cbn [from_option id] in Hroot; [by rewrite Hroot|]. rewrite <- Hroot.
  unfold lift. rewrite last_empty_chain, map_root_smt by apply map_Forall_empty. done.
Qed.

(** The extraction from the stored tree is the construction from all the leaves. *)
Lemma batch_proof_ok fuel s cm m touched :
  cm_represents host s cm m → (N.of_nat (size m) < u64_modulus)%N → Forall (λ k, length k = cm_width cm) touched →
  1 + 2 * depth (cm_params cm) * length touched < fuel →
  ∃ s', batch_proof host fuel cm touched s =
      Some ((build (cm_params cm) (map_leaves (cm_params cm) (snd <$> m)) touched,
             (λ k, (k, row_encode ∘ fst <$> m !! k)) <$> sort_dedup bytes_le touched), s') ∧
    cm_represents host s' cm m.
Proof using Hhost.
  intros Hrep Hsize Hk Hfuel. set (keys := sort_dedup bytes_le touched).
  assert (Forall (λ k, length k = cm_width cm) keys) as Hkeys.
  { rewrite Forall_forall in *. intros k Hin. apply Hk. by apply elem_of_sort_dedup in Hin. }
  destruct (load_values_ok s cm m keys Hrep Hkeys) as (s1 & Hvalues & Hrep1).
  destruct (rep_root s1 cm m Hrep1 Hsize) as (s2 & t & hash & Hread & Hrep2 & _ & Hwf & Hleaves & Hocc & _).
  pose proof Hrep2 as [(Hpre & Hlim & _) Hs2 Hmk _ _].
  destruct (collect_ok host Hhost cm Hpre Hlim keys (depth (cm_params cm)) 0 t (zeros (width (cm_params cm))) 0 (length keys) s2)
    as (cost & s3 & Hcost & Hs3 & Hv3 & Hrun); [done|done|rewrite Hleaves; by apply (keyed_slice (cm_params cm))|lia|lia|lia|].
  assert (cost < fuel) as Hcf.
  { pose proof (length_sort_dedup bytes_le touched) as Hl. fold keys in Hl. nia. }
  exists s3. split; [|by eapply rep_rows].
  unfold batch_proof, collect_frontier. fold keys. rewrite (bind_run _ _ _ _ _ Hvalues), (bind_run _ _ _ _ _ Hread).
  replace fuel with (cost + S (fuel - cost - 1)) by lia. specialize (Hrun (S (fuel - cost - 1)) [] []).
  unfold range in Hrun. rewrite Nat.sub_0_r, drop_0, firstn_all, Hleaves in Hrun. by rewrite (bind_run _ _ _ _ _ Hrun).
Qed.
End represented.

(** ** A concrete handle *)

(** Values stored as their own bytes. *)
#[local] Instance raw_codec : RowCodec bytes := {| row_encode := id; try_decode := Some |}.
#[local] Instance raw_codec_laws : RowCodecLaws bytes.
Proof. by constructor. Qed.

Definition no_rows : bytes → option bytes := λ _, None.
Definition sample_handle : CommittedMap := cm_new 2 (b# "m/").

Lemma no_rows_ok : host_ok no_rows.
Proof. by intros k v. Qed.
Lemma sample_handle_ok : cm_ok sample_handle.
Proof. done. Qed.

Lemma sample_fresh : cm_represents no_rows dispatch_new sample_handle (∅ : gmap bytes (bytes * bytes)).
Proof. by apply rep_fresh. Qed.

Definition sample_reached (m : gmap bytes (bytes * bytes)) : Prop :=
  ∃ s cm, cm_params cm = vos 2 ∧ cm_prefix cm = b# "m/" ∧ cm_represents no_rows s cm m.

Lemma sample_start : sample_reached ∅.
Proof. exists dispatch_new, sample_handle. split_and!; [reflexivity..|apply sample_fresh]. Qed.

Lemma sample_insert m k v :
  sample_reached m → length k = 2 → size m < 10 → length v ≤ 10 → sample_reached (<[k := (v, v)]> m).
Proof.
  intros (s & cm & Hp & Hpre & Hrep) Hk Hm Hv.
  destruct (insert_with_leaf_ok no_rows no_rows_ok 17 s cm m k v v Hrep) as (s' & cm' & _ & Hrep' & Hpre' & Hp').
  - change (cm_width cm) with (width (cm_params cm)). by rewrite Hp.
  - rewrite Hp. by apply Nat.ltb_lt.
  - unfold u64_modulus. lia.
  - etrans; [exact Hv|]. by apply Nat.leb_le.
  - exists s', cm'. by rewrite Hp', Hpre'.
Qed.

Definition sample_entries : gmap bytes (bytes * bytes) :=
  {[ b# "ab" := (b# "one", b# "one"); b# "zz" := (b# "two", b# "two") ]}.

Lemma sample_rep : sample_reached sample_entries.
Proof.
  apply sample_insert; [|done|by apply Nat.ltb_lt|by apply Nat.leb_le].
  apply (sample_insert ∅); [|done|by apply Nat.ltb_lt|by apply Nat.leb_le].
  apply sample_start.
Qed.

(** ** Properties *)

(** C14: the committed map's mutations are those of a map.  Outside a task, from
    rows that represent [m], for keys of the map's width (below 8192 bytes) and
    fewer than 2^64 - 1 entries: [insert_with_leaf] ([insert] is the case where the
    leaf content is the encoded value) panics exactly when the encoded value is
    longer than [MAX_VALUE_BYTES]; otherwise it, and [remove] always, report whether
    the key was absent, or present, and leave rows that represent the updated map:
    value rows, branch nodes, count and root row together.  Every hash on the path
    is recomputed, so the root row is again the root of all the leaves. *)
Theorem committed_mutations host {V} `{RowCodecLaws V} fuel s cm (m : gmap bytes (V * bytes)) k :
  host_ok host → cm_represents host s cm m → length k = cm_width cm → depth (cm_params cm) < fuel →
  (N.of_nat (size m) + 1 < u64_modulus)%N →
  (∀ v content,
    match cm_insert_with_leaf host fuel cm k v content s with
    | Some ((new, cm'), s') =>
        length (row_encode v) ≤ MAX_VALUE_BYTES ∧ new = bool_decide (m !! k = None) ∧
        cm_represents host s' cm' (<[k := (v, content)]> m)
    | None => MAX_VALUE_BYTES < length (row_encode v)
    end) ∧
  (∃ s' cm', cm_remove host fuel cm k s = Some ((bool_decide (is_Some (m !! k)), cm'), s') ∧
     cm_represents host s' cm' (delete k m)).
Proof.
  intros Hhost Hrep Hk Hfuel Hsize. split.
  - intros v content. destruct (Nat.le_gt_cases (length (row_encode v)) MAX_VALUE_BYTES) as [Hlen|Hlen].
    + by destruct (insert_with_leaf_ok host Hhost fuel s cm m k v content) as (s' & cm' & -> & Hrep' & _).
    + by rewrite (insert_with_leaf_large host fuel s cm k v content Hlen).
  - destruct (remove_ok host Hhost fuel s cm m k) as (s' & cm' & Hrun & Hrep' & _); [done..|]. by exists s', cm'.
Qed.

Lemma committed_mutations_witness :
  ∃ s' cm', cm_insert_with_leaf no_rows 17 sample_handle (b# "ab") (b# "value") (b# "leaf") dispatch_new = Some ((true, cm'), s') ∧
    cm_represents no_rows s' cm' {[ b# "ab" := (b# "value", b# "leaf") ]}.
Proof.
  destruct (committed_mutations (V := bytes) no_rows 17 dispatch_new sample_handle ∅ (b# "ab") no_rows_ok sample_fresh) as [Hi _];
    [done|by apply Nat.ltb_lt|done|].
  specialize (Hi (b# "value") (b# "leaf")). destruct (cm_insert_with_leaf _ _ _ _ _ _ _) as [[[new cm'] s']|].
  - destruct Hi as (_ & -> & Hr). exists s', cm'. split; [reflexivity|exact Hr].
  - apply Nat.ltb_lt in Hi. vm_compute in Hi. discriminate Hi.
Defined.

(** the committed map's reads are those of a map, and its root is the root of
    its leaves.  [get], [contains], [len], [is_empty] and [root] return what the
    represented map gives, without disturbing it; [root] is the sparse Merkle root
    recomputed from every leaf content, also on storage that holds no root row. *)
Theorem committed_reads host {V} `{RowCodecLaws V} s cm (m : gmap bytes (V * bytes)) k :
  host_ok host → cm_represents host s cm m → length k = cm_width cm → (N.of_nat (size m) < u64_modulus)%N →
  let reads {A} (d : dispatch A) (a : A) := ∃ s', d s = Some (a, s') ∧ cm_represents host s' cm m in
  reads (cm_get host cm k) (fst <$> m !! k) ∧
  reads (cm_contains host cm k) (bool_decide (is_Some (m !! k))) ∧
  reads (cm_len host cm) (N.of_nat (size m)) ∧
  reads (cm_is_empty host cm) (bool_decide (m = ∅)) ∧
  reads (cm_root host cm) (map_root (cm_params cm) (snd <$> m)).
Proof.
  intros Hhost Hrep Hk Hsize reads. pose proof Hrep as [(Hpre & _ & _) Hs _ Hvals _].
  destruct (row_load_ok host Hhost cm Hpre (value_row cm k) s Hs) as (s1 & Hload & Hs1 & Hv1).
  pose proof (rep_rows host s s1 cm m Hrep Hs1 Hv1) as Hrep1. rewrite Hvals in Hload by done.
  destruct (rep_root host Hhost s cm m Hrep Hsize) as (s2 & t & hash & Hread & Hrep2 & _).
  split_and!.
  - exists s1. split; [|done]. unfold cm_get. rewrite (bind_run _ _ _ _ _ Hload). destruct (m !! k) as [[v c]|]; [|done].
    simpl. unfold lift. by rewrite try_decode_encode.
  - exists s1. split; [|done]. unfold cm_contains. rewrite (bind_run _ _ _ _ _ Hload). by destruct (m !! k).
  - exists s2. split; [|done]. unfold cm_len. by rewrite (bind_run _ _ _ _ _ Hread).
  - exists s2. split; [|done]. unfold cm_is_empty, cm_len. unfold mbind, dispatch_bind. rewrite Hread. cbn.
    unfold mret, dispatch_ret. do 2 f_equal. destruct (decide (m = ∅)) as [->|Hne]; [by rewrite map_size_empty|].
    rewrite bool_decide_eq_false_2 by done. apply N.eqb_neq. intros Hz. by apply Hne, map_size_empty_inv, Nat2N.inj.
  - by apply root_ok.
Qed.

Lemma committed_reads_witness :
  ∃ s cm s', cm_params cm = vos 2 ∧ cm_get no_rows cm (b# "zz") s = Some (Some (b# "two"), s').
Proof.
  destruct sample_rep as (s & cm & Hp & _ & Hrep).
  destruct (committed_reads no_rows s cm _ (b# "zz") no_rows_ok Hrep) as ((s' & Hget & _) & _).
  - change (cm_width cm) with (width (cm_params cm)). by rewrite Hp.
  - done.
  - by exists s, cm, s'.
Defined.

Lemma sort_dedup_idemp (l : list bytes) : sort_dedup bytes_le (sort_dedup bytes_le l) = sort_dedup bytes_le l.
Proof.
  apply (StronglySorted_unique bytes_le); [apply StronglySorted_of_strict, sort_dedup_strict; apply _..|].
  apply NoDup_Permutation; [apply (NoDup_of_strict bytes_le), sort_dedup_strict; apply _..|].
  intros x. apply elem_of_sort_dedup.
Qed.

(** the multiproof extracted from the stored tree is the one built from all
    the leaves.  [batch_proof] reads only the rows along the touched keys, yet
    returns exactly [BatchProof::build] over the full sorted leaves, with the
    touched keys' value rows in key order, absent keys included. *)
Theorem committed_batch_proof host {V} `{RowCodecLaws V} fuel s cm (m : gmap bytes (V * bytes)) touched :
  host_ok host → cm_represents host s cm m → (N.of_nat (size m) < u64_modulus)%N →
  Forall (λ k, length k = cm_width cm) touched → 1 + 2 * depth (cm_params cm) * length touched < fuel →
  ∃ s', batch_proof host fuel cm touched s =
      Some ((build (cm_params cm) (map_leaves (cm_params cm) (snd <$> m)) touched,
             (λ k, (k, row_encode ∘ fst <$> m !! k)) <$> sort_dedup bytes_le touched), s') ∧
    cm_represents host s' cm m.
Proof. intros Hhost. by apply batch_proof_ok. Qed.

Lemma committed_batch_proof_witness :
  ∃ s cm proof s', batch_proof no_rows 66 cm [b# "zz"; b# "qq"] s =
    Some ((proof, [(b# "qq", None); (b# "zz", Some (b# "two"))]), s').
Proof.
  destruct sample_rep as (s & cm & Hp & _ & Hrep).
  destruct (committed_batch_proof no_rows 66 s cm _ [b# "zz"; b# "qq"] no_rows_ok Hrep) as (s' & Hrun & _).
  - done.
  - change (cm_width cm) with (width (cm_params cm)). rewrite Hp. by repeat constructor.
  - rewrite Hp. by apply Nat.ltb_lt.
  - eexists s, cm, _, s'. rewrite Hrun. apply (f_equal (λ v, Some ((_, v), s'))). vm_compute. reflexivity.
Defined.

(** The caller's map of value rows to leaf contents. *)
Definition leaf_contents (leaf_of : bytes → bytes) (values : list (bytes * option bytes)) : list (bytes * option bytes) :=
  (λ e : bytes * option bytes, (e.1, leaf_of <$> e.2)) <$> values.

(** C35: a witness extracted from the committed map is accepted by the proving
    side and stands for the map.  [root] and [batch_proof], with the values mapped
    to their leaf contents, make a [LedgerWitness] that [into_ledger] accepts; the
    ledger answers exactly the touched keys, as the stored map does, and after any
    writes to them its root is the root of the map with those writes. *)
Theorem extracted_witness_accepted host {V} `{RowCodecLaws V} fuel s cm (m : gmap bytes (V * bytes)) touched leaf_of :
  host_ok host → cm_represents host s cm m → (N.of_nat (size m) < u64_modulus)%N →
  Forall (λ k, length k = cm_width cm) touched → 1 + 2 * depth (cm_params cm) * length touched < fuel →
  map_Forall (λ _ e, leaf_of (row_encode e.1) = e.2) m →
  ∃ s' root s'' proof values l,
    cm_root host cm s = Some (root, s') ∧ batch_proof host fuel cm touched s' = Some ((proof, values), s'') ∧
    into_ledger (mkWitness root proof (leaf_contents leaf_of values)) (cm_params cm) = Some l ∧
    (∀ k, is_Some (ledger_get l k) ↔ k ∈ touched) ∧ ledger_refines (snd <$> m) l.
Proof.
  intros Hhost Hrep Hsize Hk Hfuel Hleaf.
  destruct (root_ok host Hhost s cm m Hrep Hsize) as (s' & Hroot & Hrep').
  destruct (batch_proof_ok host Hhost fuel s' cm m touched Hrep' Hsize Hk Hfuel) as (s'' & Hproof & Hrep'').
  pose proof Hrep as [(_ & Hlim & _) _ Hmk _ _]. set (keys := sort_dedup bytes_le touched).
  destruct (build_accepted (cm_params cm) (snd <$> m) keys) as (l & Hl & Hdom & Href); [done|done| |].
  { rewrite Forall_forall in *. intros k Hin. apply Hk. by apply elem_of_sort_dedup in Hin. }
  eexists s', _, s'', _, _, l. split_and!; [exact Hroot|exact Hproof| | |done].
  - unfold into_ledger. cbn [lw_proof lw_touched lw_root_before].
    assert (build (cm_params cm) (map_leaves (cm_params cm) (snd <$> m)) keys =
      build (cm_params cm) (map_leaves (cm_params cm) (snd <$> m)) touched) as <-.
    { unfold build, keys. by rewrite sort_dedup_idemp. }
    unfold leaf_contents. rewrite <- list_fmap_compose. fold keys.
    assert ((λ e : bytes * option bytes, (e.1, leaf_of <$> e.2)) ∘ (λ k, (k, row_encode ∘ fst <$> m !! k)) <$> keys =
      (λ k, (k, (snd <$> m) !! k)) <$> keys) as ->; [|exact Hl].
    apply list_fmap_ext. intros i k _. apply (f_equal (pair k)). rewrite lookup_fmap.
    cbn [compose snd]. destruct (m !! k) as [e|] eqn:He; [|done]. simpl. f_equal. by apply (Hleaf k e).
  - intros k. rewrite Hdom. apply elem_of_sort_dedup.
Qed.

Lemma extracted_witness_accepted_witness :
  ∃ s cm s' root s'' proof values l, cm_params cm = vos 2 ∧ cm_root no_rows cm s = Some (root, s') ∧
    batch_proof no_rows 66 cm [b# "zz"; b# "qq"] s' = Some ((proof, values), s'') ∧
    into_ledger (mkWitness root proof (leaf_contents id values)) (cm_params cm) = Some l.
Proof.
  destruct sample_rep as (s & cm & Hp & _ & Hrep).
  destruct (extracted_witness_accepted no_rows 66 s cm _ [b# "zz"; b# "qq"] id no_rows_ok Hrep)
    as (s' & root & s'' & proof & values & l & H1 & H2 & H3 & _).
  - done.
  - change (cm_width cm) with (width (cm_params cm)). rewrite Hp. by repeat constructor.
  - rewrite Hp. by apply Nat.ltb_lt.
  - unfold sample_entries. intros k e [[<- <-]|[_ [<- <-]%lookup_singleton_Some]]%lookup_insert_Some; done.
  - by exists s, cm, s', root, s'', proof, values, l.
Defined.

Lemma sorted_keys_fmap {A B} (f : A → B) (m : gmap bytes A) : sorted_keys bytes_le (f <$> m) = sorted_keys bytes_le m.
Proof.
  apply sorted_keys_unique; [apply sorted_keys_strict|]. intros k.
  by rewrite (elem_of_sorted_keys bytes_le m), lookup_fmap, fmap_is_Some.
Qed.

(** iteration visits each entry once, in ascending key order.  From [iter],
    repeated [next] yields exactly the keys of the map, sorted by their bytes, each
    with its value, and then stops; neither panics. *)
Theorem committed_iteration host {V} `{RowCodecLaws V} n fuel s cm (m : gmap bytes (V * bytes)) :
  host_ok host → cm_represents host s cm m → (N.of_nat (size m) < u64_modulus)%N →
  size m < n → 2 * size m + 1 < fuel →
  ∃ s' stack s'' entries, cm_iter host cm s = Some (stack, s') ∧
    iter_entries host cm n fuel stack s' = Some (entries, s'') ∧ cm_represents host s'' cm m ∧
    entries.*1 = sorted_keys bytes_le m ∧ Forall (λ e, fst <$> m !! e.1 = Some e.2) entries.
Proof.
  intros Hhost Hrep Hsize Hn Hfuel.
  destruct (rep_root host Hhost s cm m Hrep Hsize) as (s' & t & hash & Hread & Hrep' & Hv & Hwf & Hleaves & Hocc & _).
  pose proof Hrep' as [(Hpre & Hlim & _) Hs' Hmk Hvals _].
  assert (length (orleaves t) = size m) as Hlen.
  { rewrite Hleaves. unfold map_leaves, keyed. rewrite length_fmap, sorted_keys_fmap.
    rewrite (Permutation_length (sorted_keys_perm bytes_le m)), length_fmap. apply length_map_to_list. }
  assert (pending_leaves [t] = orleaves t) as Hpend by (unfold pending_leaves; cbn; by rewrite app_nil_r).
  destruct (iter_entries_ok host Hhost cm Hpre Hlim (λ k, fst <$> m !! k) n fuel s' [t])
    as (s'' & entries & Hrun & Hs'' & Hv'' & Hkeys & Hall).
  - done.
  - constructor; [|done]. destruct t as [t|]; [by exists 0|done].
  - unfold pops. destruct t as [t|]; simpl in *; lia.
  - rewrite Hpend. lia.
  - rewrite Hpend, Hleaves. apply Forall_forall. intros e (k & -> & Hk)%list_elem_of_fmap. cbn [fst].
    apply elem_of_sorted_keys in Hk as [c Hc]. pose proof (Hmk k c Hc) as Hkw.
    rewrite lookup_fmap in Hc. destruct (m !! k) as [[v c']|] eqn:Hmv; [|done].
    exists v. split; [reflexivity|]. rewrite Hvals by done. by rewrite Hmv.
  - exists s', [oref (cm_params cm) t], s'', entries. split_and!; [|exact Hrun|by eapply rep_rows| |done].
    + unfold cm_iter. by rewrite (bind_run _ _ _ _ _ Hread).
    + rewrite Hkeys, Hpend, Hleaves. unfold map_leaves. rewrite keyed_fst. apply sorted_keys_fmap.
Qed.

Lemma committed_iteration_witness :
  ∃ s cm s' stack s'' entries, cm_iter no_rows cm s = Some (stack, s') ∧
    iter_entries no_rows cm 3 6 stack s' = Some (entries, s'') ∧ entries.*1 = [b# "ab"; b# "zz"].
Proof.
  destruct sample_rep as (s & cm & Hp & _ & Hrep).
  destruct (committed_iteration no_rows 3 6 s cm _ no_rows_ok Hrep) as (s' & stack & s'' & entries & H1 & H2 & _ & H3 & _).
  - done.
  - by apply Nat.ltb_lt.
  - by apply Nat.ltb_lt.
  - exists s, cm, s', stack, s'', entries. split_and!; [done|done|]. rewrite H3. vm_compute. reflexivity.
Defined.

(** the rows are a function of the map.  Two dispatches whose rows represent
    one map under handles of the same prefix and parameters hold the same value
    and node rows, whatever the order of the insertions, overwrites and removals
    that led there, and the same root row once it has been written. *)
Theorem committed_rows_canonical host host' {V} `{RowCodecLaws V} s s' cm cm' (m : gmap bytes (V * bytes)) :
  cm_represents host s cm m → cm_represents host' s' cm' m →
  cm_prefix cm = cm_prefix cm' → cm_params cm = cm_params cm' →
  (∀ k, length k = cm_width cm → rows_at host s (value_row cm k) = rows_at host' s' (value_row cm k)) ∧
  (∀ level prefix, (level < 65536)%N → rows_at host s (node_row cm level prefix) = rows_at host' s' (node_row cm level prefix)) ∧
  (is_Some (rows_at host s (root_row cm)) → is_Some (rows_at host' s' (root_row cm)) →
   rows_at host s (root_row cm) = rows_at host' s' (root_row cm)).
Proof.
  intros [_ _ _ Hv (t & Hwf & Hm & Hrows & Hroot)] [_ _ _ Hv' (t' & Hwf' & Hm' & Hrows' & Hroot')] Hpre Hpar.
  assert (t = t') as <-.
  { rewrite <- Hpar in Hm', Hwf'. rewrite <- Hm in Hm'. clear -Hwf Hwf' Hm'. by eapply owf_unique. }
  unfold node_row, root_row, value_row in *. rewrite <- Hpre in *.
  assert (cm_width cm' = cm_width cm) as Hw by (by apply (f_equal width) in Hpar). rewrite Hw in Hv'.
  split_and!.
  - intros k Hk. by rewrite Hv, Hv'.
  - intros level prefix Hl. specialize (Hrows (level, prefix) Hl). specialize (Hrows' (level, prefix) Hl).
    unfold node_row in Hrows, Hrows'. rewrite <- Hpre in Hrows'. cbn [fst snd] in Hrows, Hrows'.
    rewrite Hrows, Hrows', Hpar; [done|..]; (split; [lia|]; intros i Hi; lia).
  - intros [b Hb] [b' Hb']. destruct Hroot as [[Hn _]|Hr]; [congruence|]. destruct Hroot' as [[Hn _]|Hr']; [congruence|].
    rewrite Hr, Hr'. unfold root_bytes. by rewrite Hpar.
Qed.

Lemma committed_rows_canonical_witness :
  ∃ s s' cm cm' row, cm_represents no_rows s cm sample_entries ∧ cm_represents no_rows s' cm' sample_entries ∧
    rows_at no_rows s (node_row cm 3 (b# "``")) = row ∧ rows_at no_rows s' (node_row cm 3 (b# "``")) = row.
Proof.
  destruct sample_rep as (s & cm & Hp & Hpre & Hrep).
  assert (sample_reached sample_entries) as (s' & cm' & Hp' & Hpre' & Hrep').
  { unfold sample_entries. rewrite <- (insert_empty (b# "zz")), insert_insert_ne by done.
    apply sample_insert; [|done|by apply Nat.ltb_lt|by apply Nat.leb_le].
    apply sample_insert; [apply sample_start|done|by apply Nat.ltb_lt|by apply Nat.leb_le]. }
  destruct (committed_rows_canonical no_rows no_rows s s' cm cm' _ Hrep Hrep') as (_ & Hnode & _); [congruence..|].
  exists s, s', cm, cm', (rows_at no_rows s' (node_row cm 3 (b# "``"))). split_and!; [done|done|by apply Hnode|done].
Defined.
