(* ===== verification/Handles.v ===== *)
(** * vos: the typed storage handles

    [vos/src/actors/storage.rs], what an actor's storage fields offer on top of the
    dispatch overlay: [StorageValue], [StorageVec], and [StorageMap] with its set.
    A map keeps one row per value, index pages of sorted fixed-width keys, and a
    meta row with the count, the next page number and the directory of pages.

    A handle is its row prefix.  The index works on the bytes of keys, [w] of them;
    [FixedKey] is the interface of the key types.  Functions on the bytes of a row
    are partial: [None] is the panic of an out-of-range slice.  Loops of binary
    searches take fuel, one more than the number of slots they search.  Page
    numbers, directory lengths and element counts wrap at their width. *)

From Stdlib.Strings Require Byte.
From S2P Require Import Prelude Bytes Slices Overlay.

Local Open Scope nat_scope.

Definition PAGE_BYTES : nat := 3072.

(** ** Fixed-width keys

    [FixedKey]: the interface between a map and its key type.  The laws are what
    the maps rely on: keys have one width, are read back from their bytes, and
    order by their bytes. *)

Class FixedKey (K : Type) := {
  WIDTH : nat;
  write_to : K → bytes;
  read_from : bytes → option K;
}.
Arguments WIDTH K {_} : assert.

Class FixedKeyLaws (K : Type) `{FixedKey K} (key_le : relation K) := {
  length_write_to k : length (write_to k) = WIDTH K;
  read_write k : read_from (write_to k) = Some k;
  write_read b : length b = WIDTH K → ∃ k, read_from b = Some k ∧ write_to k = b;
  write_to_le k1 k2 : bytes_le (write_to k1) (write_to k2) ↔ key_le k1 k2;
}.

Definition refine {A} (P : A → Prop) `{∀ x, Decision (P x)} (x : A) : option (dsig P) :=
  match decide (P x) with left Hx => Some (dexist x Hx) | right _ => None end.

(** The unsigned integers of [w] bytes, written big-endian. *)
Definition uint (w : nat) : Type := dsig (λ v : N, (v < int_modulus w)%N).

#[export] Instance int_fixed_key w : FixedKey (uint w) := {
  WIDTH := w;
  write_to n := to_be_bytes w (`n);
  read_from b := slice_at b 0 w ≫= λ s, refine (λ v, (v < int_modulus w)%N) (from_be_bytes s);
}.

(** Byte arrays [[u8; n]]. *)
Definition array (n : nat) : Type := dsig (λ b : bytes, length b = n).

#[export] Instance array_fixed_key n : FixedKey (array n) := {
  WIDTH := n;
  write_to a := `a;
  read_from b := slice_at b 0 n ≫= refine (λ b, length b = n);
}.

(** ** [StorageValue] *)

Section value.
Context (host : bytes → option bytes) {T : Type} `{RowCodec T}.

Definition sv_key (prefix : bytes) : bytes := core_row prefix Byte.x78 [].

Definition sv_get (prefix : bytes) : dispatch (option T) :=
  row ← core_load host prefix (sv_key prefix);
  match row with
  | None => mret None
  | Some b => v ← lift (try_decode b); mret (Some v)
  end.

Definition sv_set (prefix : bytes) (value : T) : dispatch unit :=
  core_store prefix (sv_key prefix) (Some (row_encode value)).

Definition sv_take (prefix : bytes) : dispatch (option T) :=
  out ← sv_get prefix;
  match out with
  | Some _ => core_store prefix (sv_key prefix) None;; mret out
  | None => mret out
  end.
End value.

(** ** [StorageVec] *)

Section vec.
Context (host : bytes → option bytes) {T : Type} `{RowCodec T}.

Definition len_row (prefix : bytes) : bytes := core_row prefix Byte.x6c [].
Definition elem_row (prefix : bytes) (idx : N) : bytes := core_row prefix Byte.x65 (to_be_bytes 8 idx).

Definition vec_len (prefix : bytes) : dispatch N :=
  row ← core_load host prefix (len_row prefix);
  match row with
  | None => mret 0%N
  | Some b => lift (from_le_bytes <$> slice_at b 0 8)
  end.

Definition vec_is_empty (prefix : bytes) : dispatch bool := n ← vec_len prefix; mret (n =? 0)%N.

Definition set_len (prefix : bytes) (len : N) : dispatch unit :=
  core_store prefix (len_row prefix) (Some (to_le_bytes 8 len)).

Definition vec_get (prefix : bytes) (idx : N) : dispatch (option T) :=
  len ← vec_len prefix;
  if (len <=? idx)%N then mret None
  else
    row ← core_load host prefix (elem_row prefix idx);
    match row with
    | None => mret None
    | Some b => v ← lift (try_decode b); mret (Some v)
    end.

Definition vec_set (prefix : bytes) (idx : N) (value : T) : dispatch unit :=
  len ← vec_len prefix;
  if (idx <? len)%N then core_store prefix (elem_row prefix idx) (Some (row_encode value)) else panic.

Definition vec_push (prefix : bytes) (value : T) : dispatch unit :=
  len ← vec_len prefix;
  core_store prefix (elem_row prefix len) (Some (row_encode value));;
  set_len prefix ((len + 1) `mod` u64_modulus)%N.

Definition swap_remove (prefix : bytes) (idx : N) : dispatch (option T) :=
  len ← vec_len prefix;
  if (len <=? idx)%N then mret None
  else
    out ← vec_get prefix idx;
    let last := (len - 1)%N in
    (if (idx =? last)%N then mret tt
     else
       row ← core_load host prefix (elem_row prefix last);
       tail ← lift row;
       core_store prefix (elem_row prefix idx) (Some tail));;
    core_store prefix (elem_row prefix last) None;;
    set_len prefix last;;
    mret out.

(** [iter]: the elements in index order. *)
Definition vec_elem (prefix : bytes) (idx : N) : dispatch T :=
  v ← vec_get prefix idx; lift v.

Definition vec_iter (prefix : bytes) : dispatch (list T) :=
  len ← vec_len prefix;
  mapM (vec_elem prefix) (N.of_nat <$> seq 0 (N.to_nat len)).
End vec.

(** ** The meta row *)

(** The binary search both [slot_for] and [page_lower_bound] run: [below mid] is
    the condition under which [lo] moves past [mid]. *)
Fixpoint bisect (fuel : nat) (below : nat → option bool) (lo hi : nat) : option nat :=
  match fuel with
  | O => None
  | S fuel =>
      if (lo <? hi) then
        let mid := (lo + hi) / 2 in
        c ← below mid;
        if c : bool then bisect fuel below (S mid) hi else bisect fuel below lo mid
      else Some lo
  end.

Definition META_HEADER : nat := 16.

Definition meta_empty (w : nat) : bytes :=
  to_le_bytes 8 0 ++ to_le_bytes 4 1 ++ to_le_bytes 4 1 ++ replicate w Byte.x00 ++ to_le_bytes 4 0.

Definition meta_count (b : bytes) : option N := from_le_bytes <$> slice_at b 0 8.

(** [(count as i64 + delta) as u64]. *)
Definition add_count (b : bytes) (delta : Z) : option bytes :=
  c ← meta_count b;
  Some (to_le_bytes 8 (Z.to_N ((Z.of_N c + delta) mod Z.of_N u64_modulus)) ++ drop 8 b).

Definition dir_len (b : bytes) : option nat := (λ s, N.to_nat (from_le_bytes s)) <$> slice_at b 12 4.

Definition entry_key (b : bytes) (slot w : nat) : option bytes := slice_at b (META_HEADER + slot * (w + 4)) w.

Definition entry_page (b : bytes) (slot w : nat) : option N :=
  from_le_bytes <$> slice_at b (META_HEADER + slot * (w + 4) + w) 4.

Definition slot_for (b kb : bytes) (w : nat) : option nat :=
  hi ← dir_len b;
  lo ← bisect (S hi) (λ mid, k ← entry_key b mid w; Some (bool_decide (bytes_le k kb))) 0 hi;
  Some (lo - 1).

Definition u32_modulus : N := 4294967296.

Definition split_insert (b : bytes) (slot : nat) (split_key : bytes) (w : nat) : option (N * bytes) :=
  page ← from_le_bytes <$> slice_at b 8 4;
  len ← dir_len b;
  let b' := take 8 b ++ to_le_bytes 4 ((page + 1) `mod` u32_modulus)%N
              ++ to_le_bytes 4 ((N.of_nat len + 1) `mod` u32_modulus)%N ++ drop 16 b in
  let at_ := META_HEADER + S slot * (w + 4) in
  if (at_ <=? length b') then
    Some (page, take at_ b' ++ split_key ++ to_le_bytes 4 page ++ drop at_ b')
  else None.

Definition meta_dir (b : bytes) (w : nat) : option (list (bytes * N)) :=
  len ← dir_len b;
  mapM (λ slot, k ← entry_key b slot w; p ← entry_page b slot w; Some (k, p)) (seq 0 len).

(** ** Pages of keys *)

(** A division by a zero width panics. *)
Definition page_lower_bound (page kb : bytes) (w : nat) : option nat :=
  if decide (w = 0) then None
  else
    let n := length page / w in
    lo ← bisect (S n) (λ mid, k ← slice_at page (mid * w) w; Some (bool_decide (strict bytes_le k kb))) 0 n;
    Some (lo * w).

Definition page_find (page kb : bytes) (w : nat) : option (option nat) :=
  at_ ← page_lower_bound page kb w;
  Some (if decide (slice_at page at_ w = Some kb) then Some at_ else None).

(** ** [StorageMap] *)

Section map.
Context (host : bytes → option bytes) (prefix : bytes).

Definition sm_value_row (kb : bytes) : bytes := core_row prefix Byte.x76 kb.
Definition page_row (page : N) : bytes := core_row prefix Byte.x69 (to_be_bytes 4 page).
Definition meta_row : bytes := core_row prefix Byte.x6d [].

Section index.
Context (w : nat).

Definition with_meta {R} (f : bytes → option (R * bytes)) : dispatch R :=
  core_mutate host prefix meta_row (λ slot,
    '(out, b) ← f (default (meta_empty w) slot); Some (out, Some b)).

Definition load_dir : dispatch (list (bytes * N)) :=
  row ← core_load host prefix meta_row;
  match row with
  | Some b => lift (meta_dir b w)
  | None => mret [(replicate w Byte.x00, 0%N)]
  end.

Definition load_page (page : N) : dispatch bytes :=
  row ← core_load host prefix (page_row page);
  mret (default [] row).

Definition max_page_keys : option nat := if decide (w = 0) then None else Some (PAGE_BYTES / w).

(** The closure of [with_meta] that finds the slot of a key and its page. *)
Definition find_slot (kb m : bytes) : option ((nat * N) * bytes) :=
  slot ← slot_for m kb w;
  page_id ← entry_page m slot w;
  Some ((slot, page_id), m).

(** The closure that puts a key on its page: whether it is fresh, and the split
    key and upper half of a page that has grown too large. *)
Definition page_insert (kb : bytes) (slot_value : option bytes)
    : option ((bool * option (bytes * bytes)) * option bytes) :=
  let page := default [] slot_value in
  at_ ← page_lower_bound page kb w;
  let fresh := bool_decide (slice_at page at_ w ≠ Some kb) in
  let page := if fresh then take at_ page ++ kb ++ drop at_ page else page in
  max ← max_page_keys;
  if (max <? length page / w) then
    let mid := (length page / w / 2) * w in
    let upper := drop mid page in
    split_key ← slice_at upper 0 w;
    Some ((fresh, Some (split_key, upper)), Some (take mid page))
  else Some ((fresh, None), Some page).

(** The new page of a split, entered in the directory after [slot]. *)
Definition place_upper (slot : nat) (split : option (bytes * bytes)) : dispatch unit :=
  match split with
  | Some (split_key, upper) =>
      new_page ← with_meta (λ m, split_insert m slot split_key w);
      core_store prefix (page_row new_page) (Some upper)
  | None => mret tt
  end.

Definition bump_count (delta : Z) : dispatch unit :=
  with_meta (λ m, b ← add_count m delta; Some (tt, b)).

Definition index_insert (kb : bytes) : dispatch bool :=
  '(slot, page_id) ← with_meta (find_slot kb);
  '(fresh, split) ← core_mutate host prefix (page_row page_id) (page_insert kb);
  place_upper slot split;;
  (if fresh : bool then bump_count 1 else mret tt);;
  mret fresh.

(** The closure that takes a key off its page. *)
Definition page_remove (kb : bytes) (slot_value : option bytes) : option (bool * option bytes) :=
  match slot_value with
  | Some page =>
      found ← page_find page kb w;
      match found with
      | Some at_ => Some (true, Some (take at_ page ++ drop (at_ + w) page))
      | None => Some (false, slot_value)
      end
  | None => Some (false, slot_value)
  end.

(** [remove], from the bytes of the key on. *)
Definition remove_bytes (kb : bytes) : dispatch bool :=
  '(_, page_id) ← with_meta (find_slot kb);
  present ← core_mutate host prefix (page_row page_id) (page_remove kb);
  if negb present then mret false
  else
    core_store prefix (sm_value_row kb) None;;
    bump_count (-1);;
    mret true.
End index.

Definition sm_len : dispatch N :=
  row ← core_load host prefix meta_row;
  match row with
  | Some b => lift (meta_count b)
  | None => mret 0%N
  end.

Definition sm_is_empty : dispatch bool := n ← sm_len; mret (n =? 0)%N.

(** ** Iterators *)

Record StorageMapIter := mkIter {
  it_dir : list (bytes * N);
  it_slot : nat;
  it_page : bytes;
  it_off : nat;
}.

Section keys.
Context {K : Type} `{FixedKey K}.

Definition sm_contains (key : K) : dispatch bool :=
  row ← core_load host prefix (sm_value_row (write_to key));
  mret (bool_decide (is_Some row)).

Definition sm_remove (key : K) : dispatch bool := remove_bytes (WIDTH K) (write_to key).

Definition iter_from (start : K) : dispatch StorageMapIter :=
  dir ← load_dir (WIDTH K);
  let kb := write_to start in
  let slot := partition_point (λ e, bool_decide (bytes_le e.1 kb)) dir - 1 in
  '(_, page_id) ← lift (dir !! slot);
  page ← load_page page_id;
  off ← lift (page_lower_bound page kb (WIDTH K));
  mret (mkIter dir slot page off).

Definition iter : dispatch StorageMapIter :=
  dir ← load_dir (WIDTH K);
  '(_, page_id) ← lift (dir !! 0);
  page ← load_page page_id;
  mret (mkIter dir 0 page 0).

(** [SetIter::next], also the part of [StorageMapIter::next] before the value is
    fetched: the key the iterator stands on, past the pages that are used up. *)
Fixpoint next_key (fuel : nat) (it : StorageMapIter) : dispatch (option (K * StorageMapIter)) :=
  match fuel with
  | O => panic
  | S fuel =>
      if (it_off it + WIDTH K <=? length (it_page it)) then
        key ← lift (slice_at (it_page it) (it_off it) (WIDTH K) ≫= read_from);
        mret (Some (key, mkIter (it_dir it) (it_slot it) (it_page it) (it_off it + WIDTH K)))
      else
        match it_dir it !! S (it_slot it) with
        | None => mret None
        | Some (_, page_id) =>
            page ← load_page page_id;
            next_key fuel (mkIter (it_dir it) (S (it_slot it)) page 0)
        end
  end.

Section values.
Context {V : Type} `{RowCodec V}.

Definition sm_get (key : K) : dispatch (option V) :=
  row ← core_load host prefix (sm_value_row (write_to key));
  match row with
  | None => mret None
  | Some b => v ← lift (try_decode b); mret (Some v)
  end.

Definition sm_insert (key : K) (value : V) : dispatch bool :=
  fresh ← index_insert (WIDTH K) (write_to key);
  core_store prefix (sm_value_row (write_to key)) (Some (row_encode value));;
  mret fresh.

(** [StorageMapIter::next]: an iterator over [d] directory entries takes at most
    [d] turns of its loop. *)
Definition sm_next (it : StorageMapIter) : dispatch (option (K * V * StorageMapIter)) :=
  e ← next_key (S (length (it_dir it))) it;
  match e with
  | None => mret None
  | Some (key, it) =>
      value ← sm_get key;
      v ← lift value;
      mret (Some (key, v, it))
  end.
End values.

(** ** [StorageSet]: a map of marker rows *)

Definition ss_contains (key : K) : dispatch bool := sm_contains key.

Definition ss_insert (key : K) : dispatch bool :=
  fresh ← index_insert (WIDTH K) (write_to key);
  (if fresh : bool then core_store prefix (sm_value_row (write_to key)) (Some [Byte.x01]) else mret tt);;
  mret fresh.

Definition ss_remove (key : K) : dispatch bool := sm_remove key.
Definition ss_len : dispatch N := sm_len.
Definition ss_is_empty : dispatch bool := sm_is_empty.
Definition ss_next (it : StorageMapIter) : dispatch (option (K * StorageMapIter)) :=
  next_key (S (length (it_dir it))) it.
End keys.
End map.

(** ** Paged replies *)

Fixpoint fill_loop {T} (size : T → nat) (max_rows byte_budget : nat) (iter : list T) (out : list T) (n : nat)
    : list T * bool :=
  match iter with
  | [] => (out, false)
  | item :: iter =>
      let n := n + size item in
      if bool_decide (out ≠ []) && ((max_rows <=? length out) || (byte_budget <? n)) then (out, true)
      else
        let out := out ++ [item] in
        if (max_rows <=? length out) || (byte_budget <? n) then (out, true)
        else fill_loop size max_rows byte_budget iter out n
  end.

Definition fill_page {T} `{RowCodec T} (iter : list T) (max_rows byte_budget : nat) : list T * bool :=
  fill_loop (λ item, length (row_encode item)) max_rows byte_budget iter [] 0.
