(* ===== verification/HandleBytes.v ===== *)
(** * vos: the rows of a map's index as bytes

    A page is the concatenation of its keys; the meta row is a header and the
    directory.  Given that layout the byte-level routines of [Handles] are list
    operations: [lower_bound_keys], [page_insert_keys], [page_remove_keys] on pages,
    [slot_for_entries], [add_count_meta], [split_insert_meta], [meta_dir_entries] on
    the meta row. *)

From Stdlib.Strings Require Byte.
From S2P Require Import Prelude Bytes Slices Overlay Handles.

Local Open Scope nat_scope.

Notation bytes_lt := (strict bytes_le).

Lemma bytes_lt_nle a b : bytes_lt a b ↔ ¬ bytes_le b a.
Proof. split; [by intros []|]. intros Hn. split; [|done]. destruct (bytes_le_total a b); naive_solver. Qed.

Lemma bytes_le_lt_eq a b : bytes_le a b → a = b ∨ bytes_lt a b.
Proof. intros Hab. destruct (decide (a = b)) as [|Hne]; [by left|right]. split; [done|]. intros Hba. by apply Hne, bytes_le_antisymm. Qed.

Lemma bytes_lt_irrefl a : ¬ bytes_lt a a.
Proof. by intros []. Qed.

Lemma bytes_le_lt_trans a b c : bytes_le a b → bytes_lt b c → bytes_lt a c.
Proof. rewrite !bytes_lt_nle. intros Hab Hcb Hca. apply Hcb. by eapply bytes_le_trans. Qed.

Lemma bytes_lt_le_trans a b c : bytes_lt a b → bytes_le b c → bytes_lt a c.
Proof. rewrite !bytes_lt_nle. intros Hba Hbc Hca. apply Hba. by eapply bytes_le_trans. Qed.

Lemma bytes_zeros_le w b : length b = w → bytes_le (replicate w Byte.x00) b.
Proof.
  revert w. induction b as [|y b IH]; intros w <-; [done|]. cbn [replicate length]. apply bytes_le_cons.
  pose proof (byte_to_N_inj Byte.x00 y). change (Byte.to_N Byte.x00) with 0%N in *.
  destruct (decide (Byte.to_N y = 0%N)); [right; naive_solver|left; lia].
Qed.

(** ** Binary search *)

Lemma bisect_spec fuel below lo hi n :
  lo ≤ n ≤ hi → hi - lo < fuel →
  (∀ i, lo ≤ i < n → below i = Some true) → (∀ i, n ≤ i < hi → below i = Some false) →
  bisect fuel below lo hi = Some n.
Proof.
  revert lo hi. induction fuel as [|fuel IH]; intros lo hi Hn Hf Hlo Hhi; [lia|]. cbn [bisect].
  destruct (Nat.ltb_spec lo hi) as [Hlt|Hge]; [|f_equal; lia].
  assert (lo ≤ (lo + hi) / 2 < hi) as Hmid.
  { split; [apply Nat.div_le_lower_bound; lia|apply Nat.Div0.div_lt_upper_bound; lia]. }
  set (mid := (lo + hi) / 2) in *. clearbody mid. destruct (decide (mid < n)) as [Hm|Hm].
  - rewrite (Hlo mid) by lia. cbn [mbind option_bind]. apply IH; intros; try lia; [apply Hlo|apply Hhi]; lia.
  - rewrite (Hhi mid) by lia. cbn [mbind option_bind]. apply IH; intros; try lia; [apply Hlo|apply Hhi]; lia.
Qed.

(** ** Pages *)

Section pages.
Context (w : nat) (Hw : 0 < w).

Notation keys_ok := (Forall (λ k : bytes, length k = w)).

Lemma length_concat_keys ks : keys_ok ks → length (concat ks) = length ks * w.
Proof using. clear Hw. induction 1 as [|k ks Hk _ IH]; [done|]. cbn [concat length]. rewrite length_app, Hk, IH. lia. Qed.

Lemma concat_keys_div ks : keys_ok ks → length (concat ks) / w = length ks.
Proof using Hw. intros Hks. rewrite length_concat_keys by done. by apply Nat.div_mul, Nat.neq_sym, Nat.lt_neq. Qed.

Lemma take_concat_keys ks i : keys_ok ks → take (i * w) (concat ks) = concat (take i ks).
Proof using.
  clear Hw. intros Hks. revert i. induction Hks as [|k ks Hk Hks IH]; intros [|i]; [done|cbn [concat]; by rewrite !take_nil|done|].
  cbn [concat take]. rewrite take_app_ge by lia. f_equal. rewrite <- IH. f_equal. lia.
Qed.

Lemma drop_concat_keys ks i : keys_ok ks → drop (i * w) (concat ks) = concat (drop i ks).
Proof using.
  clear Hw. intros Hks. revert i. induction Hks as [|k ks Hk Hks IH]; intros [|i]; [done|cbn [concat]; by rewrite !drop_nil|done|].
  cbn [concat drop]. rewrite drop_app_ge by lia. rewrite <- IH. f_equal. lia.
Qed.

Lemma slice_concat_keys ks i : keys_ok ks → slice_at (concat ks) (i * w) w = ks !! i.
Proof using Hw.
  intros Hks. unfold slice_at. rewrite length_concat_keys, drop_concat_keys by done.
  destruct (ks !! i) as [k|] eqn:Hk.
  - pose proof (lookup_lt_Some _ _ _ Hk). rewrite (proj2 (Nat.leb_le _ _)) by nia.
    rewrite (drop_S _ _ _ Hk). cbn [concat]. rewrite Forall_lookup in Hks.
    by rewrite take_app_length' by by rewrite (Hks i).
  - apply lookup_ge_None in Hk. by rewrite (proj2 (Nat.leb_gt _ _)) by nia.
Qed.

Lemma lower_bound_keys k1 k2 kb :
  keys_ok (k1 ++ k2) → Forall (λ k, bytes_lt k kb) k1 → Forall (bytes_le kb) k2 →
  page_lower_bound (concat (k1 ++ k2)) kb w = Some (length k1 * w).
Proof using Hw.
  intros Hks H1 H2. unfold page_lower_bound. rewrite decide_False, concat_keys_div by (done || lia).
  rewrite (bisect_spec _ _ _ _ (length k1)); [done|rewrite length_app; lia|lia|..]; intros i Hi;
    rewrite slice_concat_keys by done.
  - destruct (lookup_lt_is_Some_2 k1 i) as [k Hk]; [lia|]. rewrite (lookup_app_l_Some _ _ _ _ Hk).
    cbn. rewrite bool_decide_true; [done|]. by apply (proj1 (Forall_lookup _ _) H1 i).
  - rewrite length_app in Hi. rewrite lookup_app_r by lia.
    destruct (lookup_lt_is_Some_2 k2 (i - length k1)) as [k Hk]; [lia|]. rewrite Hk.
    cbn. rewrite bool_decide_false; [done|]. rewrite bytes_lt_nle. intros Hn. apply Hn.
    by apply (proj1 (Forall_lookup _ _) H2 (i - length k1)).
Qed.

(** Where a key belongs on a sorted page. *)
Lemma page_cut ks kb :
  StronglySorted bytes_lt ks →
  ∃ k1 k2, ks = k1 ++ k2 ∧ Forall (λ k, bytes_lt k kb) k1 ∧ Forall (bytes_le kb) k2 ∧
    (kb ∈ ks → ∃ k3, k2 = kb :: k3) ∧ (kb ∉ ks → Forall (bytes_lt kb) k2).
Proof using.
  clear Hw w.
  induction 1 as [|k ks Hs IH Hk]; [exists [], []; split_and!; [done..|set_solver|done]|].
  destruct (decide (bytes_lt k kb)) as [Hlt|Hge].
  - destruct IH as (k1 & k2 & -> & H1 & H2 & Hin & Hout). exists (k :: k1), k2. split_and!; [done|by constructor|done|..].
    + intros [->|?]%elem_of_cons; [by apply bytes_lt_irrefl in Hlt|auto].
    + intros Hn. apply Hout. set_solver.
  - assert (bytes_le kb k) as Hle by (apply dec_stable; by rewrite <- bytes_lt_nle).
    assert (Forall (bytes_lt kb) ks) as Hks.
    { eapply Forall_impl; [done|]. intros x Hx. by eapply bytes_le_lt_trans. }
    exists [], (k :: ks). split_and!; [done|done|constructor; [done|]|..].
    + eapply Forall_impl; [done|]. by intros x [].
    + intros [->|Hin]%elem_of_cons; [by eexists|]. rewrite Forall_forall in Hks. by apply Hks, bytes_lt_irrefl in Hin.
    + intros Hn. constructor; [|done]. destruct (bytes_le_lt_eq _ _ Hle) as [->|]; [set_solver|done].
Qed.

Lemma slice_lower k1 k2 : keys_ok (k1 ++ k2) → slice_at (concat (k1 ++ k2)) (length k1 * w) w = head k2.
Proof using Hw.
  intros Hks. rewrite slice_concat_keys by done. rewrite lookup_app_r, Nat.sub_diag by done. by destruct k2.
Qed.

Lemma page_insert_known row ks k1 k2 kb :
  default [] row = concat ks → keys_ok ks → length ks ≤ PAGE_BYTES / w →
  ks = k1 ++ kb :: k2 → Forall (λ k, bytes_lt k kb) k1 → Forall (bytes_le kb) (kb :: k2) →
  page_insert w kb row = Some ((false, None), Some (concat ks)).
Proof using Hw.
  intros Hrow Hks Hmax -> H1 H2. unfold page_insert. rewrite Hrow, lower_bound_keys by done.
  cbn [mbind option_bind]. rewrite slice_lower by done. cbn [head]. rewrite bool_decide_false by naive_solver.
  unfold max_page_keys. rewrite decide_False by lia. cbn [mbind option_bind]. rewrite concat_keys_div by done.
  by rewrite (proj2 (Nat.ltb_ge _ _)).
Qed.

Lemma page_insert_fresh row k1 k2 kb :
  default [] row = concat (k1 ++ k2) → keys_ok (k1 ++ kb :: k2) →
  Forall (λ k, bytes_lt k kb) k1 → Forall (bytes_lt kb) k2 →
  let ks := k1 ++ kb :: k2 in let mid := length ks / 2 in
  page_insert w kb row =
    Some (if (PAGE_BYTES / w <? length ks)
          then ((true, Some (ks !!! mid, concat (drop mid ks))), Some (concat (take mid ks)))
          else ((true, None), Some (concat ks))).
Proof using Hw.
  intros Hrow Hks H1 H2 ks mid.
  assert (keys_ok (k1 ++ k2)) as Hks'.
  { apply Forall_app in Hks as [? Hk2]. apply Forall_cons in Hk2 as [_ ?]. by apply Forall_app. }
  unfold page_insert. rewrite Hrow, lower_bound_keys; [|done|done|by eapply Forall_impl; [done|]; intros ? []].
  cbn [mbind option_bind]. rewrite slice_lower, bool_decide_true; [|..|done].
  2:{ destruct k2 as [|k k2]; [done|]. intros [= ->]. apply Forall_cons in H2 as [H2 _]. by apply bytes_lt_irrefl in H2. }
  rewrite take_concat_keys, drop_concat_keys, take_app_length, drop_app_length by done.
  replace (concat k1 ++ kb ++ concat k2) with (concat ks) by (unfold ks; by rewrite concat_app).
  unfold max_page_keys. rewrite decide_False by lia. cbn [mbind option_bind].
  rewrite concat_keys_div by done. destruct (Nat.ltb_spec (PAGE_BYTES / w) (length ks)) as [Hlt|]; [|done].
  rewrite drop_concat_keys, take_concat_keys by done.
  assert (mid < length ks) as Hmid by (apply Nat.div_lt; lia).
  destruct (lookup_lt_is_Some_2 ks mid Hmid) as [k Hk].
  rewrite (slice_concat_keys _ 0) by by apply Forall_drop. rewrite lookup_drop, Nat.add_0_r.
  fold mid. rewrite Hk. by rewrite (list_lookup_total_correct _ _ _ Hk).
Qed.

Lemma page_remove_known ks k1 k2 kb :
  keys_ok ks → ks = k1 ++ kb :: k2 → Forall (λ k, bytes_lt k kb) k1 → Forall (bytes_le kb) (kb :: k2) →
  page_remove w kb (Some (concat ks)) = Some (true, Some (concat (k1 ++ k2))).
Proof using Hw.
  intros Hks -> H1 H2. unfold page_remove, page_find. rewrite lower_bound_keys by done.
  cbn [mbind option_bind]. rewrite slice_lower by done. rewrite decide_True by done. cbn [mbind option_bind].
  replace (length k1 * w + w) with (S (length k1) * w) by lia.
  rewrite take_concat_keys, drop_concat_keys by done. rewrite take_app_length.
  by rewrite (drop_app_ge _ _ (S (length k1))), Nat.sub_succ_l, Nat.sub_diag, concat_app by lia.
Qed.

Lemma page_remove_absent row ks kb :
  default [] row = concat ks → keys_ok ks → StronglySorted bytes_lt ks → kb ∉ ks →
  page_remove w kb row = Some (false, row).
Proof using Hw.
  intros Hrow Hks Hs Hn. destruct row as [page|]; [|done]. cbn in Hrow. subst page.
  destruct (page_cut ks kb Hs) as (k1 & k2 & -> & H1 & H2 & _ & Hout). unfold page_remove, page_find.
  rewrite lower_bound_keys by done. cbn [mbind option_bind]. rewrite slice_lower by done.
  rewrite decide_False; [done|]. specialize (Hout Hn). destruct k2 as [|k k2]; [done|]. intros [= ->].
  apply Forall_cons in Hout as [Hk _]. by apply bytes_lt_irrefl in Hk.
Qed.
End pages.

(** ** The meta row *)

(** A directory entry with the keys of its page. *)
Record ientry := mkEntry { ie_first : bytes; ie_page : N; ie_keys : list bytes }.

Definition encode_entry (e : ientry) : bytes := ie_first e ++ to_le_bytes 4 (ie_page e).

Definition encode_header (count : N) (len : nat) : bytes :=
  to_le_bytes 8 count ++ to_le_bytes 4 (N.of_nat len) ++ to_le_bytes 4 (N.of_nat len).

(** Pages are numbered from zero and never freed, so that the next page number is
    the number of pages. *)
Definition encode_meta (count : N) (es : list ientry) : bytes :=
  encode_header count (length es) ++ concat (encode_entry <$> es).

Lemma length_encode_header c n : length (encode_header c n) = META_HEADER.
Proof. unfold encode_header. by rewrite !length_app, !length_to_le_bytes. Qed.

Lemma slice_at_skip x y n m : slice_at (x ++ y) (length x + n) m = slice_at y n m.
Proof.
  unfold slice_at. rewrite length_app, drop_app_add. destruct (Nat.leb_spec (n + m) (length y)) as [|].
  - by rewrite (proj2 (Nat.leb_le _ _)) by lia.
  - by rewrite (proj2 (Nat.leb_gt _ _)) by lia.
Qed.

Lemma slice_at_first x y n : n = length x → slice_at (x ++ y) 0 n = Some x.
Proof. intros ->. apply (slice_at_app [] x y). Qed.

Section meta.
Context (w : nat).

Notation entry_ok := (λ e, length (ie_first e) = w ∧ (ie_page e < int_modulus 4)%N).
Notation entries_ok := (Forall entry_ok).

Lemma entries_width es : entries_ok es → Forall (λ b, length b = w + 4) (encode_entry <$> es).
Proof.
  intros Hes. apply Forall_fmap. eapply Forall_impl; [done|]. intros e [He _]. simpl.
  unfold encode_entry. by rewrite length_app, length_to_le_bytes, He.
Qed.

Lemma length_encode_meta c es : entries_ok es → length (encode_meta c es) = META_HEADER + length es * (w + 4).
Proof.
  intros Hes. unfold encode_meta. rewrite length_app, length_encode_header.
  rewrite (length_concat_keys (w + 4)) by by apply entries_width. by rewrite length_fmap.
Qed.

Lemma meta_empty_encode : meta_empty w = encode_meta 0 [mkEntry (replicate w Byte.x00) 0 []].
Proof. unfold meta_empty, encode_meta, encode_header. cbn. by rewrite app_nil_r, <- !app_assoc. Qed.

Lemma meta_count_encode c es : (c < int_modulus 8)%N → meta_count (encode_meta c es) = Some c.
Proof.
  intros Hc. unfold meta_count, encode_meta, encode_header. rewrite <- !app_assoc.
  rewrite slice_at_first by by rewrite length_to_le_bytes. cbn [fmap option_fmap option_map]. by rewrite from_to_le_bytes.
Qed.

Lemma dir_len_encode c es : (N.of_nat (length es) < int_modulus 4)%N → dir_len (encode_meta c es) = Some (length es).
Proof.
  intros Hn. unfold dir_len, encode_meta, encode_header. rewrite <- !app_assoc.
  rewrite app_assoc. rewrite (slice_at_app' _ (to_le_bytes 4 _)) by by rewrite ?length_app, !length_to_le_bytes.
  cbn [fmap option_fmap option_map]. by rewrite from_to_le_bytes, Nat2N.id.
Qed.


Lemma entry_slice c l1 e l2 n m :
  entries_ok (l1 ++ e :: l2) →
  slice_at (encode_meta c (l1 ++ e :: l2)) (META_HEADER + length l1 * (w + 4) + n) m =
  slice_at (encode_entry e ++ concat (encode_entry <$> l2)) n m.
Proof.
  intros [H1 _]%Forall_app. unfold encode_meta. rewrite fmap_app, concat_app, <- Nat.add_assoc.
  rewrite <- (length_encode_header c (length (l1 ++ e :: l2))), slice_at_skip.
  replace (length l1 * (w + 4)) with (length (concat (encode_entry <$> l1))); [by rewrite slice_at_skip|].
  by rewrite (length_concat_keys (w + 4)), length_fmap by by apply entries_width.
Qed.

Lemma entry_key_encode c l1 e l2 :
  entries_ok (l1 ++ e :: l2) → entry_key (encode_meta c (l1 ++ e :: l2)) (length l1) w = Some (ie_first e).
Proof.
  intros Hes. unfold entry_key. rewrite <- (Nat.add_0_r (META_HEADER + _)), entry_slice by done.
  apply Forall_app in Hes as [_ [[He _] _]%Forall_cons]. unfold encode_entry. rewrite <- app_assoc.
  by apply slice_at_first.
Qed.

Lemma entry_page_encode c l1 e l2 :
  entries_ok (l1 ++ e :: l2) → entry_page (encode_meta c (l1 ++ e :: l2)) (length l1) w = Some (ie_page e).
Proof.
  intros Hes. unfold entry_page. rewrite entry_slice by done.
  apply Forall_app in Hes as [_ [[He Hp] _]%Forall_cons]. unfold encode_entry. rewrite <- app_assoc.
  rewrite slice_at_app' by by rewrite ?length_to_le_bytes. cbn [fmap option_fmap option_map]. by rewrite from_to_le_bytes.
Qed.

Lemma entry_lookup c es slot e :
  entries_ok es → es !! slot = Some e →
  entry_key (encode_meta c es) slot w = Some (ie_first e) ∧ entry_page (encode_meta c es) slot w = Some (ie_page e).
Proof.
  intros Hes He. pose proof (lookup_lt_Some _ _ _ He) as Hlt.
  pose proof (length_take_le es slot ltac:(lia)) as Hlen. pose proof (take_drop_middle _ _ _ He) as Hmid.
  set (l1 := take slot es) in *. clearbody l1. subst slot. rewrite <- Hmid in Hes |- *.
  by rewrite entry_key_encode, entry_page_encode.
Qed.

Lemma slot_for_entries c l1 e l2 kb :
  entries_ok (l1 ++ e :: l2) → (N.of_nat (length (l1 ++ e :: l2)) < int_modulus 4)%N →
  Forall (λ e, bytes_le (ie_first e) kb) (l1 ++ [e]) → Forall (λ e, ¬ bytes_le (ie_first e) kb) l2 →
  slot_for (encode_meta c (l1 ++ e :: l2)) kb w = Some (length l1).
Proof.
  intros Hes Hn H1 H2. unfold slot_for. rewrite dir_len_encode by done. cbn [mbind option_bind].
  rewrite (bisect_spec _ _ _ _ (S (length l1))); [cbn; f_equal; lia|rewrite length_app; cbn; lia|lia|..]; intros i Hi.
  - destruct (lookup_lt_is_Some_2 (l1 ++ [e]) i) as [e' He']; [rewrite length_app; cbn; lia|].
    destruct (entry_lookup c (l1 ++ e :: l2) i e' Hes) as [-> _].
    { rewrite (cons_middle e l1 l2), (app_assoc l1 [e] l2). by apply lookup_app_l_Some. }
    cbn. rewrite bool_decide_true; [done|]. by apply (proj1 (Forall_lookup _ _) H1 i).
  - destruct (lookup_lt_is_Some_2 (l1 ++ e :: l2) i) as [e' He']; [lia|].
    destruct (entry_lookup c (l1 ++ e :: l2) i e' Hes He') as [-> _].
    cbn. rewrite bool_decide_false; [done|]. rewrite lookup_app_r in He' by lia.
    destruct (i - length l1) as [|j] eqn:Hj; [lia|]. by apply (proj1 (Forall_lookup _ _) H2 j).
Qed.

Lemma meta_dir_entries c es :
  entries_ok es → (N.of_nat (length es) < int_modulus 4)%N →
  meta_dir (encode_meta c es) w = Some ((λ e, (ie_first e, ie_page e)) <$> es).
Proof.
  intros Hes Hn. unfold meta_dir. rewrite dir_len_encode by done. cbn [mbind option_bind].
  apply mapM_Some, Forall2_lookup. intros i. rewrite list_lookup_fmap.
  destruct (es !! i) as [e|] eqn:He.
  - rewrite lookup_seq_lt by (by eapply lookup_lt_Some). constructor. cbn [plus].
    by destruct (entry_lookup c es i e Hes He) as [-> ->].
  - rewrite lookup_seq_ge by (by apply lookup_ge_None). constructor.
Qed.

Lemma add_count_meta c es (delta : Z) c' :
  (c < int_modulus 8)%N → (Z.of_N c + delta = Z.of_N c')%Z → (c' < int_modulus 8)%N →
  add_count (encode_meta c es) delta = Some (encode_meta c' es).
Proof.
  intros Hc Hd Hc'. unfold add_count. rewrite meta_count_encode by done. cbn [mbind option_bind].
  rewrite Hd. rewrite Z.mod_small; [|split; [lia|]; change u64_modulus with (int_modulus 8); lia].
  rewrite N2Z.id. unfold encode_meta, encode_header. rewrite <- !app_assoc.
  by rewrite drop_app_length' by by rewrite length_to_le_bytes.
Qed.

Lemma meta_parts c es :
  slice_at (encode_meta c es) 8 4 = Some (to_le_bytes 4 (N.of_nat (length es))) ∧
  take 8 (encode_meta c es) = to_le_bytes 8 c ∧ drop 16 (encode_meta c es) = concat (encode_entry <$> es).
Proof.
  split_and!.
  - unfold encode_meta, encode_header. rewrite <- !app_assoc.
    apply slice_at_app'; by rewrite length_to_le_bytes.
  - unfold encode_meta, encode_header. rewrite <- !app_assoc. apply take_app_length'. by rewrite length_to_le_bytes.
  - unfold encode_meta. apply drop_app_length'. by rewrite length_encode_header.
Qed.

Lemma split_insert_meta c l1 e l2 split_key ks :
  let es := l1 ++ e :: l2 in let page := N.of_nat (length es) in
  entries_ok es → (page + 1 < int_modulus 4)%N →
  split_insert (encode_meta c es) (length l1) split_key w =
    Some (page, encode_meta c (l1 ++ e :: mkEntry split_key page ks :: l2)).
Proof.
  intros es page Hes Hn. unfold split_insert. destruct (meta_parts c es) as (-> & -> & ->).
  rewrite dir_len_encode by (fold page; lia). cbn [fmap option_fmap option_map mbind option_bind].
  rewrite from_to_le_bytes by (fold page; lia). fold page.
  change u32_modulus with (int_modulus 4). rewrite N.mod_small by lia.
  assert (concat (encode_entry <$> es) = concat (encode_entry <$> l1 ++ [e]) ++ concat (encode_entry <$> l2)) as ->.
  { unfold es. by rewrite <- concat_app, <- fmap_app, <- app_assoc. }
  assert (length (concat (encode_entry <$> l1 ++ [e])) = S (length l1) * (w + 4)) as Hlen.
  { rewrite (length_concat_keys (w + 4)); [by rewrite length_fmap, length_app, Nat.add_comm|].
    apply entries_width. unfold es in Hes. rewrite (cons_middle e l1 l2), app_assoc in Hes. by apply Forall_app in Hes as [? _]. }
  set (hdr := to_le_bytes 8 c ++ to_le_bytes 4 (page + 1) ++ to_le_bytes 4 (page + 1)).
  assert (hdr = encode_header c (length (l1 ++ e :: mkEntry split_key page ks :: l2))) as Hhdr.
  { unfold hdr, encode_header. replace (page + 1)%N with (N.of_nat (length (l1 ++ e :: mkEntry split_key page ks :: l2))); [done|].
    unfold page, es. rewrite !length_app. cbn [length]. lia. }
  assert (length hdr = META_HEADER) as Hh by (rewrite Hhdr; apply length_encode_header).
  rewrite (app_assoc (to_le_bytes 4 (page + 1))), (app_assoc (to_le_bytes 8 c)). fold hdr.
  rewrite (app_assoc hdr), length_app, (length_app hdr), Hh, Hlen.
  rewrite (proj2 (Nat.leb_le _ _)) by lia. do 2 f_equal. rewrite take_app_length', drop_app_length' by by rewrite length_app, Hh, Hlen.
  unfold encode_meta. rewrite <- Hhdr.
  replace (l1 ++ e :: mkEntry split_key page ks :: l2) with ((l1 ++ [e]) ++ mkEntry split_key page ks :: l2)
    by by rewrite <- app_assoc.
  rewrite (fmap_app _ (l1 ++ [e])), (concat_app (encode_entry <$> l1 ++ [e])).
  cbn [fmap list_fmap concat]. change (encode_entry (mkEntry split_key page ks)) with (split_key ++ to_le_bytes 4 page).
  by rewrite <- !app_assoc.
Qed.
End meta.
