(* ===== verification/HandleIndex.v ===== *)
(** * vos: the index of a storage map

    [index_wf]: the directory of a map covers the keys from the all-zeros floor up,
    page after page, each page sorted and within its range and its size.
    [index_at s es]: a dispatch sees the index [es] under a handle.
    [index_insert_ok] and [remove_key_ok] show what putting a key on its page and
    taking it off do to the index, [index_insert_full] when an insertion panics. *)

From Stdlib.Strings Require Byte.
From S2P Require Import Prelude Bytes Slices Overlay Handles HandleBytes.

Local Open Scope nat_scope.

Definition all_keys (es : list ientry) : list bytes := es ≫= ie_keys.

Lemma elem_of_all_keys es k : k ∈ all_keys es ↔ ∃ e, e ∈ es ∧ k ∈ ie_keys e.
Proof. unfold all_keys. rewrite list_elem_of_bind. naive_solver. Qed.

Lemma all_keys_middle l1 e l2 : all_keys (l1 ++ e :: l2) = all_keys l1 ++ ie_keys e ++ all_keys l2.
Proof. unfold all_keys. by rewrite bind_app. Qed.

(** The page of a key: the last one whose first key does not exceed it. *)
Definition page_of (es : list ientry) (kb : bytes) : option ientry :=
  last (filter (λ e, bytes_le (ie_first e) kb) es).

Section wf.
Context (w : nat).

Record entry_wf (n : nat) (e : ientry) : Prop := {
  ew_first : length (ie_first e) = w;
  ew_page : (ie_page e < N.of_nat n)%N;
  ew_keys : Forall (λ k, length k = w) (ie_keys e);
  ew_sorted : StronglySorted bytes_lt (ie_keys e);
  ew_from : Forall (bytes_le (ie_first e)) (ie_keys e);
  ew_small : length (ie_keys e) ≤ PAGE_BYTES / w;
}.

Definition before (e1 e2 : ientry) : Prop :=
  bytes_lt (ie_first e1) (ie_first e2) ∧ Forall (λ k, bytes_lt k (ie_first e2)) (ie_keys e1).

Record index_wf (es : list ientry) : Prop := {
  iw_entries : Forall (entry_wf (length es)) es;
  iw_sorted : StronglySorted before es;
  iw_floor : ie_first <$> head es = Some (replicate w Byte.x00);
  iw_pages : NoDup (ie_page <$> es);
}.

Definition empty_index : list ientry := [mkEntry (replicate w Byte.x00) 0 []].

Lemma empty_index_wf : index_wf empty_index.
Proof.
  unfold empty_index. split; [|repeat constructor|done|apply NoDup_singleton].
  apply Forall_singleton. split; cbn; [apply length_replicate|lia|constructor..|lia].
Qed.

Lemma entry_wf_mono n n' e : n ≤ n' → entry_wf n e → entry_wf n' e.
Proof. intros Hn []. split; [done|lia|done..]. Qed.

Lemma all_keys_sorted n es :
  Forall (entry_wf n) es → StronglySorted before es → StronglySorted bytes_lt (all_keys es).
Proof.
  intros Hes Hs. induction Hs as [|e es Hs IH Hb]; [constructor|]. apply Forall_cons in Hes as [He Hes].
  unfold all_keys. cbn [mbind list_bind]. apply StronglySorted_app_2; [|apply He|by apply IH].
  intros k k' Hk (e' & He' & Hk')%elem_of_all_keys. rewrite Forall_forall in Hb, Hes.
  destruct (Hb e' He') as [_ Hb']. rewrite Forall_forall in Hb'. eapply bytes_lt_le_trans; [by apply Hb'|].
  by apply (proj1 (Forall_forall _ _) (ew_from _ _ (Hes e' He'))).
Qed.

Lemma all_keys_width n es : Forall (entry_wf n) es → Forall (λ k, length k = w) (all_keys es).
Proof.
  rewrite !Forall_forall. intros Hes k (e & He & Hk)%elem_of_all_keys.
  by apply (proj1 (Forall_forall _ _) (ew_keys _ _ (Hes e He))).
Qed.

Lemma length_all_keys n es : Forall (entry_wf n) es → length (all_keys es) ≤ length es * (PAGE_BYTES / w).
Proof.
  induction 1 as [|e es He _ IH]; [done|]. unfold all_keys in *. cbn [mbind list_bind length].
  rewrite length_app. pose proof (ew_small _ _ He). lia.
Qed.

(** ** Finding the page of a key *)

Lemma first_cut es kb :
  StronglySorted before es →
  ∃ a b, es = a ++ b ∧ Forall (λ e, bytes_le (ie_first e) kb) a ∧ Forall (λ e, ¬ bytes_le (ie_first e) kb) b.
Proof.
  induction 1 as [|e es Hs IH Hb]; [by exists [], []|].
  destruct (decide (bytes_le (ie_first e) kb)) as [Hle|Hgt].
  - destruct IH as (a & b & -> & Ha & Hb'). exists (e :: a), b. by repeat constructor.
  - exists [], (e :: es). split_and!; [done|done|constructor; [done|]]. eapply Forall_impl; [exact Hb|].
    intros e' [[Hlt _] _] Hle. apply Hgt. by eapply bytes_le_trans.
Qed.

Lemma locate es kb :
  index_wf es → length kb = w →
  ∃ l1 e l2, es = l1 ++ e :: l2 ∧ page_of es kb = Some e ∧
    Forall (λ e, bytes_le (ie_first e) kb) (l1 ++ [e]) ∧ Forall (λ e, ¬ bytes_le (ie_first e) kb) l2.
Proof.
  intros Hwf Hk. destruct (first_cut es kb (iw_sorted _ Hwf)) as (a & b & -> & Ha & Hb).
  pose proof (iw_floor _ Hwf) as Hfloor. destruct a as [|e a _] using rev_ind.
  - destruct b as [|e b]; [done|]. cbn in Hfloor. injection Hfloor as He. apply Forall_cons in Hb as [Hb _].
    destruct Hb. rewrite He. by apply bytes_zeros_le.
  - exists a, e, b. rewrite <- app_assoc. split_and!; [done| |done|done]. unfold page_of.
    rewrite app_assoc, filter_app, list_filter_all, list_filter_none, app_nil_r, last_snoc; [done| |done].
    by apply Forall_forall.
Qed.

Lemma located_keys l1 e l2 kb :
  index_wf (l1 ++ e :: l2) → bytes_le (ie_first e) kb → Forall (λ e, ¬ bytes_le (ie_first e) kb) l2 →
  kb ∈ all_keys (l1 ++ e :: l2) ↔ kb ∈ ie_keys e.
Proof.
  intros Hwf He Hl2. rewrite elem_of_all_keys. split; [|intros; exists e; split; [set_solver|done]].
  intros (e' & [Hin|[->|Hin]%elem_of_cons]%elem_of_app & Hk); [|done|].
  - pose proof (StronglySorted_app_1_elem_of _ _ _ e' e (iw_sorted _ Hwf) Hin ltac:(left)) as [_ Hb].
    rewrite Forall_forall in Hb. specialize (Hb kb Hk). rewrite bytes_lt_nle in Hb. done.
  - rewrite Forall_forall in Hl2. destruct (Hl2 e' Hin). pose proof (iw_entries _ Hwf) as Hes.
    rewrite Forall_forall in Hes. specialize (Hes e' ltac:(set_solver)).
    by apply (proj1 (Forall_forall _ _) (ew_from _ _ Hes)).
Qed.

(** Keys from the page's first up to its key to place stay below the next page. *)
Lemma below_next l1 e l2 ks kb :
  index_wf (l1 ++ e :: l2) → Forall (λ e, ¬ bytes_le (ie_first e) kb) l2 →
  (∀ k, k ∈ ks → k = kb ∨ k ∈ ie_keys e) → Forall (λ e2, Forall (λ k, bytes_lt k (ie_first e2)) ks) l2.
Proof.
  intros Hwf Hl2 Hks. rewrite Forall_forall in Hl2. apply Forall_forall. intros e2 He2. apply Forall_forall.
  intros k [->|Hk]%Hks; [by apply bytes_lt_nle, Hl2|].
  pose proof (iw_sorted _ Hwf) as Hs. apply StronglySorted_app in Hs as (_ & _ & Hs).
  apply StronglySorted_cons in Hs as [Hb _]. rewrite Forall_forall in Hb. destruct (Hb e2 He2) as [_ Hb'].
  by apply (proj1 (Forall_forall _ _) Hb').
Qed.

(** ** Changing a page *)

Lemma index_replace l1 e l2 ks :
  index_wf (l1 ++ e :: l2) → let e' := mkEntry (ie_first e) (ie_page e) ks in
  entry_wf (length (l1 ++ e :: l2)) e' → Forall (λ e2, Forall (λ k, bytes_lt k (ie_first e2)) ks) l2 →
  index_wf (l1 ++ e' :: l2).
Proof.
  intros [Hes Hs Hf Hp] e' He' Hks. apply StronglySorted_app in Hs as (H12 & Hs1 & Hs2).
  apply StronglySorted_cons in Hs2 as [Hb Hs2]. apply Forall_app in Hes as [He1 [He He2]%Forall_cons].
  assert (length (l1 ++ e' :: l2) = length (l1 ++ e :: l2)) as Hlen by by rewrite !length_app.
  split.
  - rewrite Hlen. by rewrite Forall_app, !Forall_cons.
  - apply StronglySorted_app_2; [|done|].
    + intros x y Hx [->|Hy]%elem_of_cons; [|apply H12; set_solver]. by destruct (H12 x e Hx ltac:(left)).
    + apply StronglySorted_cons. split; [|done]. rewrite Forall_forall in Hb, Hks |- *.
      intros e2 Hin. split; [apply (Hb e2 Hin)|by apply Hks].
  - by destruct l1.
  - by rewrite fmap_app in Hp |- *.
Qed.

Lemma index_split l1 e l2 lo k hi :
  index_wf (l1 ++ e :: l2) → let n := length (l1 ++ e :: l2) in
  let e1 := mkEntry (ie_first e) (ie_page e) lo in let e2 := mkEntry k (N.of_nat n) (k :: hi) in
  entry_wf n e1 → entry_wf (S n) e2 → Forall (λ x, bytes_lt x k) lo → bytes_lt (ie_first e) k →
  Forall (λ e, Forall (λ x, bytes_lt x (ie_first e)) (lo ++ k :: hi)) l2 →
  index_wf (l1 ++ e1 :: e2 :: l2).
Proof.
  intros Hwf n e1 e2 He1 He2 Hlo Hk Hks.
  assert (Forall (λ e2, Forall (λ k, bytes_lt k (ie_first e2)) lo) l2 ∧
          Forall (λ e2, Forall (λ k, bytes_lt k (ie_first e2)) (k :: hi)) l2) as [Hks1 Hks2].
  { apply Forall_and. eapply Forall_impl; [done|]. intros x Hx. by apply Forall_app in Hx. }
  pose proof (index_replace l1 e l2 lo Hwf He1 Hks1) as [Hes Hs Hf Hp]. fold e1 in Hes, Hs, Hf, Hp.
  apply StronglySorted_app in Hs as (H12 & Hs1 & Hs2). apply StronglySorted_cons in Hs2 as [Hb Hs2].
  assert (length (l1 ++ e1 :: l2) = n) as Hn by (unfold n; by rewrite !length_app). rewrite Hn in Hes.
  assert (length (l1 ++ e1 :: e2 :: l2) = S n) as Hlen by (rewrite <- Hn, !length_app; cbn; lia).
  split.
  - rewrite Hlen. assert (Forall (entry_wf (S n)) (l1 ++ e1 :: l2)) as Hes'.
    { eapply Forall_impl; [done|]. intros x. apply entry_wf_mono. lia. }
    apply Forall_app in Hes' as [? [? ?]%Forall_cons]. by rewrite Forall_app, !Forall_cons.
  - apply StronglySorted_app_2; [|done|apply StronglySorted_cons; split; [constructor; [by split|done]|apply StronglySorted_cons; split; [|done]]].
    + intros x y Hx [->|[->|Hy]%elem_of_cons]%elem_of_cons; [apply H12; set_solver| |apply H12; set_solver].
      destruct (H12 x e1 Hx ltac:(left)) as [Hxe Hxk]. cbn [ie_first e1] in Hxe, Hxk. split.
      * eapply bytes_lt_le_trans; [exact Hxe|]. by destruct Hk.
      * eapply Forall_impl; [exact Hxk|]. intros b Hbx. eapply bytes_lt_le_trans; [exact Hbx|]. by destruct Hk.
    + rewrite Forall_forall in Hks2 |- *. intros x Hx. specialize (Hks2 x Hx). split; [|done].
      by apply Forall_cons in Hks2 as [? _].
  - by destruct l1.
  - rewrite fmap_app in Hp |- *. cbn [fmap list_fmap] in Hp |- *.
    assert (N.of_nat n ∉ (ie_page <$> l1) ++ ie_page e1 :: (ie_page <$> l2)) as Hnew.
    { change (ie_page e1 :: (ie_page <$> l2)) with (ie_page <$> (e1 :: l2)). rewrite <- fmap_app, list_elem_of_fmap.
      intros (x & Hx & Hin). rewrite Forall_forall in Hes. pose proof (ew_page _ _ (Hes x Hin)). lia. }
    rewrite (Permutation_swap (ie_page e2)), <- Permutation_middle. by apply NoDup_cons.
Qed.
(** A fresh key on its page. *)
Section fresh_key.
Context (l1 l2 : list ientry) (e : ientry) (kb : bytes) (k1 k2 : list bytes).
Context (Hwf : index_wf (l1 ++ e :: l2)) (Hkb : length kb = w) (Hle : bytes_le (ie_first e) kb).
Context (Hl2 : Forall (λ e, ¬ bytes_le (ie_first e) kb) l2).
Context (Hk : ie_keys e = k1 ++ k2).
Context (Hk1 : Forall (λ k, bytes_lt k kb) k1) (Hk2 : Forall (bytes_lt kb) k2).

Lemma fresh_entry : entry_wf (length (l1 ++ e :: l2)) e.
Proof using Hwf. apply (proj1 (Forall_forall _ _) (iw_entries _ Hwf)). apply elem_of_app. right. left. Qed.

Lemma fresh_keys :
  StronglySorted bytes_lt (k1 ++ kb :: k2) ∧ Forall (λ k, length k = w) (k1 ++ kb :: k2) ∧
  Forall (bytes_le (ie_first e)) (k1 ++ kb :: k2) ∧
  Forall (λ e2, Forall (λ k, bytes_lt k (ie_first e2)) (k1 ++ kb :: k2)) l2.
Proof using Hwf Hkb Hle Hl2 Hk Hk1 Hk2.
  destruct fresh_entry as [_ _ Hwd Hs Hf _]. rewrite Hk in Hwd, Hs, Hf.
  apply StronglySorted_app in Hs as (H12 & Hs1 & Hs2). apply Forall_app in Hwd as [? ?], Hf as [? ?].
  split_and!; [|by rewrite Forall_app, Forall_cons|by rewrite Forall_app, Forall_cons|].
  - apply StronglySorted_app_2; [|done|by apply StronglySorted_cons].
    intros x y Hx [->|Hy]%elem_of_cons; [|auto]. by apply (proj1 (Forall_forall _ _) Hk1).
  - apply (below_next l1 e l2 _ kb Hwf Hl2). intros k. rewrite Hk. set_solver.
Qed.

Lemma fresh_fits :
  length (k1 ++ kb :: k2) ≤ PAGE_BYTES / w →
  index_wf (l1 ++ mkEntry (ie_first e) (ie_page e) (k1 ++ kb :: k2) :: l2).
Proof using Hwf Hkb Hle Hl2 Hk Hk1 Hk2.
  intros Hlen. destruct fresh_keys as (Hs & Hwd & Hf & Hb). destruct fresh_entry.
  by apply index_replace.
Qed.

Lemma fresh_splits :
  0 < w ≤ PAGE_BYTES → PAGE_BYTES / w < length (k1 ++ kb :: k2) →
  let ks := k1 ++ kb :: k2 in let mid := length ks / 2 in
  index_wf (l1 ++ mkEntry (ie_first e) (ie_page e) (take mid ks)
               :: mkEntry (ks !!! mid) (N.of_nat (length (l1 ++ e :: l2))) (drop mid ks) :: l2).
Proof using Hwf Hkb Hle Hl2 Hk Hk1 Hk2.
  intros Hw Hlen ks mid. destruct fresh_keys as (Hs & Hwd & Hf & Hb). fold ks in Hs, Hwd, Hf, Hb, Hlen.
  destruct fresh_entry as [Hfw Hpg _ _ _ Hsm].
  assert (length ks = S (length (ie_keys e))) as Hks by (unfold ks; rewrite Hk, !length_app; cbn; lia).
  assert (1 ≤ PAGE_BYTES / w) as Hmax by (apply Nat.div_le_lower_bound; lia).
  assert (0 < mid < length ks ∧ length ks - mid ≤ PAGE_BYTES / w) as [Hmid Hup].
  { pose proof (Nat.div_mod_eq (length ks) 2). pose proof (Nat.mod_upper_bound (length ks) 2). unfold mid. lia. }
  destruct (lookup_lt_is_Some_2 ks mid) as [k Hkm]; [lia|]. rewrite (list_lookup_total_correct _ _ _ Hkm).
  rewrite <- (take_drop mid ks) in Hs, Hwd, Hf, Hb. rewrite (drop_S _ _ _ Hkm) in Hs, Hwd, Hf, Hb |- *.
  apply StronglySorted_app in Hs as (H12 & Hs1 & Hs2). apply Forall_app in Hwd as [Hwd1 Hwd2], Hf as [Hf1 Hf2].
  apply index_split; [done|..|done].
  - split; [done|done|done|done|done|]. cbn [ie_keys]. rewrite length_take_le by lia. lia.
  - split; cbn [ie_first ie_page ie_keys]; [by apply Forall_cons in Hwd2 as [? _]|lia|done|done| |].
    + constructor; [apply bytes_le_refl|]. apply StronglySorted_cons in Hs2 as [Hs2 _].
      eapply Forall_impl; [done|]. by intros ? [].
    + cbn [length]. rewrite length_drop. lia.
  - apply Forall_forall. intros x Hx. apply H12; [done|left].
  - destruct (take mid ks) as [|x t] eqn:Ht; [by apply (f_equal length) in Ht; rewrite length_take in Ht; change (min mid (length ks) = 0) in Ht; lia|].
    apply Forall_cons in Hf1 as [Hfx _]. eapply bytes_le_lt_trans; [done|]. apply H12; left.
Qed.
End fresh_key.

Lemma removed_wf l1 e l2 k1 kb k2 :
  index_wf (l1 ++ e :: l2) → ie_keys e = k1 ++ kb :: k2 →
  index_wf (l1 ++ mkEntry (ie_first e) (ie_page e) (k1 ++ k2) :: l2).
Proof.
  intros Hwf Hk. assert (entry_wf (length (l1 ++ e :: l2)) e) as [Hfw Hpg Hwd Hs Hf Hsm].
  { apply (proj1 (Forall_forall _ _) (iw_entries _ Hwf)). apply elem_of_app. right. left. }
  rewrite Hk in Hwd, Hs, Hf, Hsm. apply StronglySorted_app in Hs as (H12 & Hs1 & Hs2).
  apply StronglySorted_cons in Hs2 as [_ Hs2]. rewrite Forall_app, Forall_cons in Hwd, Hf.
  apply index_replace; [done|split; cbn [ie_first ie_page ie_keys]; [done|done| | | |]|].
  - rewrite Forall_app. tauto.
  - apply StronglySorted_app_2; [|done|done]. intros x y Hx Hy. apply H12; [done|by right].
  - rewrite Forall_app. tauto.
  - rewrite length_app in *. cbn in Hsm. lia.
  - pose proof (iw_sorted _ Hwf) as Hso. apply StronglySorted_app in Hso as (_ & _ & Hso).
    apply StronglySorted_cons in Hso as [Hb _]. eapply Forall_impl; [exact Hb|]. intros e2 [_ Hb2].
    rewrite Hk in Hb2. rewrite Forall_app, Forall_cons in Hb2. rewrite Forall_app. tauto.
Qed.
End wf.

(** ** The rows of an index *)

Lemma encode_meta_keys c l1 e l2 ks :
  encode_meta c (l1 ++ mkEntry (ie_first e) (ie_page e) ks :: l2) = encode_meta c (l1 ++ e :: l2).
Proof. unfold encode_meta. by rewrite !length_app, !fmap_app. Qed.

Lemma core_row_ne_tag prefix t1 t2 s1 s2 : t1 ≠ t2 → core_row prefix t1 s1 ≠ core_row prefix t2 s2.
Proof. intros Hne Heq. by apply (inj (app prefix)) in Heq as [= ? _]. Qed.

Lemma core_row_inj prefix t s1 s2 : core_row prefix t s1 = core_row prefix t s2 → s1 = s2.
Proof. by intros [= ?]%(inj (app prefix)). Qed.

Lemma to_be_bytes_inj w a b :
  (a < int_modulus w)%N → (b < int_modulus w)%N → to_be_bytes w a = to_be_bytes w b → a = b.
Proof. intros Ha Hb Hab. by rewrite <- (from_to_be_bytes w a), Hab, from_to_be_bytes. Qed.

(** Room for a fresh key: in the directory, or on its page. *)
Definition has_room (w : nat) (es : list ientry) (kb : bytes) : Prop :=
  META_HEADER + S (length es) * (w + 4) ≤ MAX_VALUE_BYTES ∨
  ∀ e, page_of es kb = Some e → length (ie_keys e) < PAGE_BYTES / w.

#[export] Instance has_room_dec w es kb : Decision (has_room w es kb).
Proof.
  unfold has_room. apply or_dec; [apply _|]. destruct (page_of es kb) as [e|].
  - destruct (decide (length (ie_keys e) < PAGE_BYTES / w)); [left|right]; naive_solver.
  - left. naive_solver.
Defined.

Section rows.
Context (host : bytes → option bytes) (Hhost : host_ok host) (prefix : bytes) (Hpre : prefix ≠ []).
Context (w : nat) (Hw : 0 < w ≤ PAGE_BYTES).

Notation rows := (rows_at host).

Record index_at (s : DispatchState) (es : list ientry) : Prop := {
  ia_wf : index_wf w es;
  ia_meta : default (meta_empty w) (rows s (meta_row prefix)) = encode_meta (N.of_nat (length (all_keys es))) es;
  ia_pages : Forall (λ e, default [] (rows s (page_row prefix (ie_page e))) = concat (ie_keys e)) es;
  ia_size : META_HEADER + length es * (w + 4) ≤ MAX_VALUE_BYTES;
}.

(** What the operations of the index leave alone. *)
Definition off_index (k : bytes) : Prop := k ≠ meta_row prefix ∧ ∀ p, k ≠ page_row prefix p.
Definition same_off_index (s s' : DispatchState) : Prop := ∀ k, off_index k → rows s' k = rows s k.

Lemma index_small s es : index_at s es → length es ≤ 16 * 1024.
Proof using Hw.
  intros [_ _ _ Hsize]. unfold MAX_VALUE_BYTES, META_HEADER in Hsize.
  assert (length es * 4 ≤ length es * (w + 4)) by (apply Nat.mul_le_mono_l; lia). lia.
Qed.

Lemma index_entries s es :
  index_at s es →
  Forall (λ e, length (ie_first e) = w ∧ (ie_page e < int_modulus 4)%N) es ∧
  (N.of_nat (length es) + 1 < int_modulus 4)%N.
Proof using Hw.
  intros Hat. pose proof (index_small _ _ Hat). change (int_modulus 4) with 4294967296%N. split; [|lia].
  eapply Forall_impl; [apply (iw_entries _ _ (ia_wf _ _ Hat))|].
  intros e He. split; [apply He|]. pose proof (ew_page _ _ _ He). lia.
Qed.

Lemma index_count s es : index_at s es → (N.of_nat (length (all_keys es)) + 1 < int_modulus 8)%N.
Proof using Hw.
  intros Hat. pose proof (length_all_keys w _ _ (iw_entries _ _ (ia_wf _ _ Hat))) as Hl.
  pose proof (index_small _ _ Hat). assert (PAGE_BYTES / w ≤ PAGE_BYTES) by (apply Nat.Div0.div_le_upper_bound; nia).
  change (int_modulus 8) with 18446744073709551616%N. unfold PAGE_BYTES in *. nia.
Qed.

Lemma page_row_inj p q : (p < int_modulus 4)%N → (q < int_modulus 4)%N → page_row prefix p = page_row prefix q → p = q.
Proof using. intros Hp Hq Heq%core_row_inj. by apply (to_be_bytes_inj 4). Qed.

Lemma with_meta_ok {R} (f : bytes → option (R * bytes)) s out b :
  dispatch_ok host s → f (default (meta_empty w) (rows s (meta_row prefix))) = Some (out, b) →
  length b ≤ MAX_VALUE_BYTES →
  ∃ s', with_meta host prefix w f s = Some (out, s') ∧ dispatch_ok host s' ∧
    ∀ k, rows s' k = if decide (k = meta_row prefix) then Some b else rows s k.
Proof using Hhost Hpre.
  intros Hs Hf Hb. apply core_mutate_ok; [done..| |by intros ? [= <-]]. rewrite Hf. done.
Qed.

(** Rewriting the meta row, which may be absent, and looking at the others. *)
Lemma find_slot_ok s l1 e l2 kb :
  index_at s (l1 ++ e :: l2) → Forall (λ e, bytes_le (ie_first e) kb) (l1 ++ [e]) →
  Forall (λ e, ¬ bytes_le (ie_first e) kb) l2 → dispatch_ok host s →
  ∃ s', with_meta host prefix w (find_slot w kb) s = Some ((length l1, ie_page e), s') ∧ dispatch_ok host s' ∧
    index_at s' (l1 ++ e :: l2) ∧ same_off_index s s' ∧
    rows s' (meta_row prefix) = Some (encode_meta (N.of_nat (length (all_keys (l1 ++ e :: l2)))) (l1 ++ e :: l2)) ∧
    ∀ p, rows s' (page_row prefix p) = rows s (page_row prefix p).
Proof using Hhost Hpre Hw.
  intros Hat H1 H2 Hs. set (es := l1 ++ e :: l2) in *. set (m := encode_meta (N.of_nat (length (all_keys es))) es).
  destruct (index_entries _ _ Hat) as [Hes Hlen].
  assert (find_slot w kb m = Some ((length l1, ie_page e), m)) as Hfind.
  { unfold find_slot, m, es. rewrite slot_for_entries; [|done|fold es; lia|done|done].
    cbn [mbind option_bind]. by rewrite entry_page_encode. }
  destruct (with_meta_ok (find_slot w kb) s (length l1, ie_page e) m) as (s' & Hrun & Hs' & Hrow); [done|..].
  { by rewrite (ia_meta _ _ Hat). }
  { unfold m. rewrite (length_encode_meta w) by done. apply Hat. }
  assert (∀ p, rows s' (page_row prefix p) = rows s (page_row prefix p)) as Hpages.
  { intros p. rewrite Hrow, decide_False; [done|]. by apply core_row_ne_tag. }
  assert (rows s' (meta_row prefix) = Some m) as Hm by by rewrite Hrow, decide_True.
  exists s'. split_and!; [done|done| |intros k [Hk _]; by rewrite Hrow, decide_False|done|done].
  destruct Hat as [Hwf Hmeta Hpg Hsize]. split; [done|by rewrite Hm|by setoid_rewrite Hpages|done].
Qed.
Lemma page_mutate_ok {R} p (f : option bytes → option (R * option bytes)) s out b :
  dispatch_ok host s → f (rows s (page_row prefix p)) = Some (out, b) →
  (∀ v, b = Some v → length v ≤ MAX_VALUE_BYTES) →
  ∃ s', core_mutate host prefix (page_row prefix p) f s = Some (out, s') ∧ dispatch_ok host s' ∧
    (∀ k, rows s' k = if decide (k = page_row prefix p) then b else rows s k) ∧
    rows s' (meta_row prefix) = rows s (meta_row prefix).
Proof using Hhost Hpre.
  intros Hs Hf Hb. destruct (core_mutate_ok host Hhost prefix Hpre _ f s out b Hs Hf Hb) as (s' & Hrun & Hs' & Hrow).
  exists s'. split_and!; [done..|]. rewrite Hrow, decide_False; [done|]. by apply core_row_ne_tag.
Qed.

Lemma bump_count_ok s c es delta c' :
  dispatch_ok host s → rows s (meta_row prefix) = Some (encode_meta c es) →
  (c < int_modulus 8)%N → (Z.of_N c + delta = Z.of_N c')%Z → (c' < int_modulus 8)%N →
  length (encode_meta c' es) ≤ MAX_VALUE_BYTES →
  ∃ s', bump_count host prefix w delta s = Some (tt, s') ∧ dispatch_ok host s' ∧
    ∀ k, rows s' k = if decide (k = meta_row prefix) then Some (encode_meta c' es) else rows s k.
Proof using Hhost Hpre.
  intros Hs Hm Hc Hd Hc' Hlen. apply with_meta_ok; [done| |done]. rewrite Hm. cbn [from_option id].
  by rewrite (add_count_meta c es delta c').
Qed.

Lemma page_size (ks : list bytes) : Forall (λ k, length k = w) ks → length ks ≤ PAGE_BYTES / w → length (concat ks) ≤ MAX_VALUE_BYTES.
Proof using Hw.
  intros Hks Hlen. rewrite (length_concat_keys w) by done. unfold MAX_VALUE_BYTES.
  pose proof (Nat.Div0.mul_div_le PAGE_BYTES w). unfold PAGE_BYTES in *. nia.
Qed.

(** The pages other than the one changed keep their rows. *)
Lemma other_pages s s' l1 e l2 :
  index_at s (l1 ++ e :: l2) →
  (∀ p, p ≠ ie_page e → (p < N.of_nat (length (l1 ++ e :: l2)))%N → rows s' (page_row prefix p) = rows s (page_row prefix p)) →
  Forall (λ e, default [] (rows s' (page_row prefix (ie_page e))) = concat (ie_keys e)) l1 ∧
  Forall (λ e, default [] (rows s' (page_row prefix (ie_page e))) = concat (ie_keys e)) l2.
Proof using.
  clear Hhost Hpre Hw. intros [Hwf _ Hpages _] Hsame. apply Forall_app in Hpages as [Hp1 [_ Hp2]%Forall_cons].
  pose proof (iw_pages _ _ Hwf) as Hnd. rewrite fmap_app in Hnd. cbn [fmap list_fmap] in Hnd.
  rewrite <- Permutation_middle in Hnd. apply NoDup_cons in Hnd as [Hnd _].
  pose proof (iw_entries _ _ Hwf) as Hes. rewrite Forall_forall in Hes.
  assert (∀ x, x ∈ l1 ++ l2 → rows s' (page_row prefix (ie_page x)) = rows s (page_row prefix (ie_page x))) as Heq.
  { intros x Hx. apply Hsame; [|apply (ew_page _ _ _ (Hes x ltac:(set_solver)))].
    intros Hxe. apply Hnd. rewrite <- Hxe, <- fmap_app. apply list_elem_of_fmap. eauto. }
  rewrite !Forall_forall in *. split; intros x Hx; rewrite Heq by set_solver; auto.
Qed.

(** A page rewritten in place, with the count that goes with it. *)
Lemma index_repaged s s' l1 e l2 ks :
  index_at s (l1 ++ e :: l2) → let es' := l1 ++ mkEntry (ie_first e) (ie_page e) ks :: l2 in
  index_wf w es' → rows s' (meta_row prefix) = Some (encode_meta (N.of_nat (length (all_keys es'))) es') →
  default [] (rows s' (page_row prefix (ie_page e))) = concat ks →
  (∀ p, page_row prefix p ≠ page_row prefix (ie_page e) → rows s' (page_row prefix p) = rows s (page_row prefix p)) →
  index_at s' es'.
Proof using Hw.
  intros Hat es' Hwf' Hm Hks Hsame. destruct (index_entries _ _ Hat) as [Hent Hlen].
  destruct (other_pages s s' l1 e l2 Hat) as [Hp1 Hp2].
  { intros p Hne Hp. apply Hsame. intros Heq. apply Hne, page_row_inj; [lia| |done].
    by apply Forall_app in Hent as [_ [[_ ?] _]%Forall_cons]. }
  split; [done|by rewrite Hm| |destruct Hat as [_ _ _ Hsize]; unfold es'; by rewrite !length_app in *].
  unfold es'. by rewrite Forall_app, Forall_cons.
Qed.

Lemma index_rewrite s s' l1 e l2 ks row :
  index_at s (l1 ++ e :: l2) → let es' := l1 ++ mkEntry (ie_first e) (ie_page e) ks :: l2 in
  index_wf w es' → default [] row = concat ks →
  (∀ k, rows s' k = if decide (k = meta_row prefix) then Some (encode_meta (N.of_nat (length (all_keys es'))) es')
                    else if decide (k = page_row prefix (ie_page e)) then row else rows s k) →
  index_at s' es' ∧ same_off_index s s'.
Proof using Hw.
  intros Hat es' Hwf' Hks Hrow. split.
  - apply (index_repaged s s'); [done|done|by rewrite Hrow, decide_True|..].
    + by rewrite Hrow, decide_False, decide_True by (done || by apply core_row_ne_tag).
    + intros p Hne. by rewrite Hrow, decide_False, decide_False by (done || by apply core_row_ne_tag).
  - intros k [Hk Hkp]. by rewrite Hrow, decide_False, decide_False.
Qed.

(** Putting a key on its page, in the three cases. *)
Section insert.
Context (s : DispatchState) (l1 l2 : list ientry) (e : ientry) (kb : bytes).
Context (Hs : dispatch_ok host s) (Hat : index_at s (l1 ++ e :: l2)) (Hkb : length kb = w).
Context (Hl1 : Forall (λ e, bytes_le (ie_first e) kb) (l1 ++ [e])) (Hl2 : Forall (λ e, ¬ bytes_le (ie_first e) kb) l2).

Notation es := (l1 ++ e :: l2).
Notation count := (N.of_nat (length (all_keys es))).

Lemma insert_page : entry_wf w (length es) e.
Proof using Hat. apply (proj1 (Forall_forall _ _) (iw_entries _ _ (ia_wf _ _ Hat))). apply elem_of_app. right. left. Qed.

Lemma insert_page_row : default [] (rows s (page_row prefix (ie_page e))) = concat (ie_keys e).
Proof using Hat. destruct Hat as [_ _ Hpg _]. by apply Forall_app in Hpg as [_ [? _]%Forall_cons]. Qed.

Lemma insert_le : bytes_le (ie_first e) kb.
Proof using Hl1. apply (proj1 (Forall_forall _ _) Hl1). apply elem_of_app. right. left. Qed.

Lemma insert_known k1 k2 :
  ie_keys e = k1 ++ kb :: k2 → Forall (λ k, bytes_lt k kb) k1 → Forall (bytes_le kb) (kb :: k2) →
  ∃ s', index_insert host prefix w kb s = Some (false, s') ∧ dispatch_ok host s' ∧ index_at s' es ∧ same_off_index s s'.
Proof using Hhost Hpre Hw Hs Hat Hkb Hl1 Hl2.
  intros Hk H1 H2. pose proof insert_page as Hew. pose proof insert_page_row as Hrow0.
  destruct (find_slot_ok s l1 e l2 kb Hat Hl1 Hl2 Hs) as (s1 & Hr1 & Hs1 & Hat1 & Hoff & Hm & Hp).
  destruct (page_mutate_ok (ie_page e) (page_insert w kb) s1 (false, None) (Some (concat (ie_keys e))))
    as (s2 & Hr2 & Hs2 & Hrow & Hm2); [done| |intros ? [= <-]; apply page_size; apply Hew|].
  { rewrite Hp. apply (page_insert_known w ltac:(lia) _ _ k1 k2); [done|apply Hew|apply Hew|done..]. }
  exists s2. unfold index_insert. rewrite (bind_run _ _ _ _ _ Hr1). cbv iota beta. rewrite (bind_run _ _ _ _ _ Hr2).
  split; [done|]. split; [done|].
  destruct (index_rewrite s1 s2 l1 e l2 (ie_keys e) (Some (concat (ie_keys e)))) as [Hat2 Hoff2]; [done| |done| |].
  - destruct e. apply Hat.
  - intros k. rewrite Hrow. case_decide as Hd; [by rewrite decide_False by (rewrite Hd; by apply core_row_ne_tag)|].
    case_decide as Hd'; [|done]. rewrite Hd', Hm. by destruct e.
  - split; [by destruct e|]. intros k Hk'. rewrite (Hoff2 k Hk'). by apply Hoff.
Qed.

Lemma insert_fits k1 k2 :
  ie_keys e = k1 ++ k2 → Forall (λ k, bytes_lt k kb) k1 → Forall (bytes_lt kb) k2 →
  length (ie_keys e) < PAGE_BYTES / w →
  let es' := l1 ++ mkEntry (ie_first e) (ie_page e) (k1 ++ kb :: k2) :: l2 in
  ∃ s', index_insert host prefix w kb s = Some (true, s') ∧ dispatch_ok host s' ∧ index_at s' es' ∧ same_off_index s s'.
Proof using Hhost Hpre Hw Hs Hat Hkb Hl1 Hl2.
  intros Hk H1 H2 Hlen es'. pose proof insert_page_row as Hrow0.
  pose proof insert_le as Hle.
  destruct (fresh_keys w l1 l2 e kb k1 k2 (ia_wf _ _ Hat) Hkb Hle Hl2 Hk H1 H2) as (_ & Hwd & _).
  assert (length (k1 ++ kb :: k2) ≤ PAGE_BYTES / w) as Hlen'.
  { rewrite Hk, length_app in Hlen. rewrite length_app. cbn. lia. }
  pose proof (fresh_fits w l1 l2 e kb k1 k2 (ia_wf _ _ Hat) Hkb Hle Hl2 Hk H1 H2 Hlen') as Hwf'. fold es' in Hwf'.
  destruct (find_slot_ok s l1 e l2 kb Hat Hl1 Hl2 Hs) as (s1 & Hr1 & Hs1 & Hat1 & Hoff & Hm & Hp).
  destruct (page_mutate_ok (ie_page e) (page_insert w kb) s1 (true, None) (Some (concat (k1 ++ kb :: k2))))
    as (s2 & Hr2 & Hs2 & Hrow & Hm2); [done| |intros ? [= <-]; by apply page_size|].
  { rewrite Hp, (page_insert_fresh w ltac:(lia) _ k1 k2); [|by rewrite Hrow0, Hk|done..].
    by rewrite (proj2 (Nat.ltb_ge _ _)). }
  destruct (index_entries _ _ Hat) as [Hent Hel]. pose proof (index_count _ _ Hat) as Hcount.
  destruct (bump_count_ok s2 count es 1 (count + 1)) as (s3 & Hr3 & Hs3 & Hrow3); [done|by rewrite Hm2|lia|lia|lia|..].
  { rewrite (length_encode_meta w) by done. apply Hat. }
  exists s3. unfold index_insert. rewrite (bind_run _ _ _ _ _ Hr1). cbv iota beta. rewrite (bind_run _ _ _ _ _ Hr2).
  cbv iota beta. rewrite (bind_run _ _ _ tt s2) by done. rewrite (bind_run _ _ _ _ _ Hr3). split; [done|]. split; [done|].
  destruct (index_rewrite s1 s3 l1 e l2 (k1 ++ kb :: k2) (Some (concat (k1 ++ kb :: k2)))) as [Hat2 Hoff2]; [done..| |].
  - intros k. rewrite Hrow3. case_decide; [|apply Hrow]. f_equal. fold es'.
    unfold es' at 2. rewrite encode_meta_keys. f_equal. unfold es'. rewrite !all_keys_middle, Hk, !length_app. cbn [ie_keys]. rewrite length_app. cbn [length]. lia.
  - split; [done|]. intros k Hk'. rewrite (Hoff2 k Hk'). by apply Hoff.
Qed.
(** The new page of a split: its directory entry, its row, and the new count. *)
Lemma place_ok s1 s2 ks mid hi :
  let n := N.of_nat (length es) in
  let es' := l1 ++ mkEntry (ie_first e) (ie_page e) (take mid ks) :: mkEntry (ks !!! mid) n hi :: l2 in
  index_at s1 es → rows s1 (meta_row prefix) = Some (encode_meta count es) → dispatch_ok host s2 →
  (∀ k, rows s2 k = if decide (k = page_row prefix (ie_page e)) then Some (concat (take mid ks)) else rows s1 k) →
  META_HEADER + S (length es) * (w + 4) ≤ MAX_VALUE_BYTES → length (concat hi) ≤ MAX_VALUE_BYTES →
  length (ks !!! mid) = w → length (all_keys es') = S (length (all_keys es)) →
  ∃ s' s'', place_upper host prefix w (length l1) (Some (ks !!! mid, concat hi)) s2 = Some (tt, s') ∧
    bump_count host prefix w 1 s' = Some (tt, s'') ∧ dispatch_ok host s'' ∧
    ∀ k, rows s'' k = if decide (k = meta_row prefix) then Some (encode_meta (N.of_nat (length (all_keys es'))) es')
                      else if decide (k = page_row prefix n) then Some (concat hi) else rows s2 k.
Proof using Hhost Hpre Hw Hat Hkb.
  intros n es' Hat1 Hm Hs2 Hrow Hsize Hhi Hkl Hkeys. destruct (index_entries _ _ Hat1) as [Hent Hel].
  pose proof (index_count _ _ Hat1) as Hcount.
  assert (rows s2 (meta_row prefix) = Some (encode_meta count es)) as Hm2.
  { rewrite Hrow, decide_False; [done|]. by apply core_row_ne_tag. }
  assert (Forall (λ e, length (ie_first e) = w ∧ (ie_page e < int_modulus 4)%N) es') as Hent'.
  { unfold es'. apply Forall_app in Hent as [? [? ?]%Forall_cons]. rewrite Forall_app, !Forall_cons.
    split_and!; [done|naive_solver|naive_solver|done|unfold n; cbn [ie_page]; lia|done]. }
  assert (length es' = S (length es)) as Hlen by (unfold es'; rewrite !length_app; cbn [length]; lia).
  assert (∀ c, length (encode_meta c es') ≤ MAX_VALUE_BYTES) as Hfit.
  { intros c. rewrite (length_encode_meta w), Hlen by done. done. }
  destruct (with_meta_ok (λ m, split_insert m (length l1) (ks !!! mid) w) s2 n (encode_meta count es'))
    as (s3 & Hr3 & Hs3 & Hrow3); [done| |apply Hfit|].
  { rewrite Hm2. cbn [from_option id]. rewrite (split_insert_meta w _ l1 e l2 (ks !!! mid) hi) by (done || lia).
    unfold es'. by rewrite encode_meta_keys. }
  destruct (core_store_ok host prefix Hpre (page_row prefix n) (Some (concat hi)) s3) as (s4 & Hr4 & Hs4 & Hrow4);
    [done|by intros ? [= <-]|].
  assert (∀ p, meta_row prefix ≠ page_row prefix p) as Hne by (intros p; by apply core_row_ne_tag).
  destruct (bump_count_ok s4 count es' 1 (count + 1)) as (s5 & Hr5 & Hs5 & Hrow5);
    [done| |lia|lia|lia|apply Hfit|].
  { rewrite Hrow4, decide_False by done. by rewrite Hrow3, decide_True. }
  exists s4, s5. split_and!; [|done|done|].
  - unfold place_upper. rewrite (bind_run _ _ _ _ _ Hr3). done.
  - intros k. rewrite Hrow5, Hrow4, Hrow3. case_decide; [do 2 f_equal; lia|]. by repeat case_decide.
Qed.

Lemma index_extended s1 s2 s4 ks mid :
  let n := N.of_nat (length es) in
  let es' := l1 ++ mkEntry (ie_first e) (ie_page e) (take mid ks) :: mkEntry (ks !!! mid) n (drop mid ks) :: l2 in
  index_at s1 es → same_off_index s s1 → index_wf w es' → META_HEADER + S (length es) * (w + 4) ≤ MAX_VALUE_BYTES →
  (∀ k, rows s2 k = if decide (k = page_row prefix (ie_page e)) then Some (concat (take mid ks)) else rows s1 k) →
  (∀ k, rows s4 k = if decide (k = meta_row prefix) then Some (encode_meta (N.of_nat (length (all_keys es'))) es')
                    else if decide (k = page_row prefix n) then Some (concat (drop mid ks)) else rows s2 k) →
  index_at s4 es' ∧ same_off_index s s4.
Proof using Hw Hat.
  clear Hl1 Hl2 Hkb Hs. intros n es' Hat1 Hoff Hwf' Hroom Hrow Hrow4. destruct (index_entries _ _ Hat1) as [Hent Hel].
  assert (ie_page e < N.of_nat (length es))%N as Hpe by apply insert_page.
  assert (∀ p, page_row prefix p ≠ meta_row prefix) as Hnm by (intros p; by apply core_row_ne_tag).
  assert (∀ p q, (p < int_modulus 4)%N → (q < int_modulus 4)%N → p ≠ q → page_row prefix p ≠ page_row prefix q) as Hnp.
  { intros p q Hp Hq Hne Heq. by apply Hne, page_row_inj. }
  destruct (other_pages s1 s4 l1 e l2 Hat1) as [Hp1 Hp2].
  { intros p Hne Hp. rewrite Hrow4, decide_False, decide_False, Hrow, decide_False; [done|apply Hnp..|done]; unfold n; lia. }
  split; [split; [done|by rewrite Hrow4, decide_True| |]|].
  - unfold es'. rewrite Forall_app, !Forall_cons. cbn [ie_page ie_keys]. split_and!; [done|..|done].
    + rewrite Hrow4, decide_False, decide_False, Hrow, decide_True; [done|done|apply Hnp; unfold n; lia|done].
    + by rewrite Hrow4, decide_False, decide_True.
  - replace (length es') with (S (length es)); [done|]. unfold es'. rewrite !length_app. cbn [length]. lia.
  - intros k Hk. pose proof Hk as [Hk1 Hk2]. rewrite Hrow4, decide_False, decide_False, Hrow, decide_False by done. by apply Hoff.
Qed.

Lemma insert_splits k1 k2 :
  ie_keys e = k1 ++ k2 → Forall (λ k, bytes_lt k kb) k1 → Forall (bytes_lt kb) k2 →
  length (ie_keys e) = PAGE_BYTES / w → META_HEADER + S (length es) * (w + 4) ≤ MAX_VALUE_BYTES →
  let ks := k1 ++ kb :: k2 in let mid := length ks / 2 in
  let es' := l1 ++ mkEntry (ie_first e) (ie_page e) (take mid ks)
               :: mkEntry (ks !!! mid) (N.of_nat (length es)) (drop mid ks) :: l2 in
  ∃ s', index_insert host prefix w kb s = Some (true, s') ∧ dispatch_ok host s' ∧ index_at s' es' ∧ same_off_index s s'.
Proof using Hhost Hpre Hw Hs Hat Hkb Hl1 Hl2.
  intros Hk H1 H2 Hlen Hroom ks mid es'. pose proof insert_page_row as Hrow0. pose proof insert_le as Hle.
  destruct (fresh_keys w l1 l2 e kb k1 k2 (ia_wf _ _ Hat) Hkb Hle Hl2 Hk H1 H2) as (_ & Hwd & _). fold ks in Hwd.
  assert (PAGE_BYTES / w < length ks) as Hfull.
  { rewrite <- Hlen, Hk. unfold ks. rewrite !length_app. cbn [length]. lia. }
  pose proof (fresh_splits w l1 l2 e kb k1 k2 (ia_wf _ _ Hat) Hkb Hle Hl2 Hk H1 H2 Hw Hfull) as Hwf'.
  cbv zeta in Hwf'. fold ks mid es' in Hwf'.
  assert (mid < length ks) as Hmid by (apply Nat.div_lt; lia).
  destruct (find_slot_ok s l1 e l2 kb Hat Hl1 Hl2 Hs) as (s1 & Hr1 & Hs1 & Hat1 & Hoff & Hm & Hp).
  pose proof (iw_entries _ _ Hwf') as Hents. unfold es' in Hents.
  apply Forall_app in Hents as [_ [Hlo [Hhi _]%Forall_cons]%Forall_cons].
  pose proof (page_size _ (ew_keys _ _ _ Hlo) (ew_small _ _ _ Hlo)) as Hlow.
  pose proof (page_size _ (ew_keys _ _ _ Hhi) (ew_small _ _ _ Hhi)) as Hupp.
  cbn [ie_keys] in Hlow, Hupp.
  destruct (page_mutate_ok (ie_page e) (page_insert w kb) s1 (true, Some (ks !!! mid, concat (drop mid ks)))
    (Some (concat (take mid ks)))) as (s2 & Hr2 & Hs2 & Hrow & Hm2); [done| |by intros ? [= <-]|].
  { rewrite Hp, (page_insert_fresh w ltac:(lia) _ k1 k2); [|by rewrite Hrow0, Hk|done..].
    fold ks mid. by rewrite (proj2 (Nat.ltb_lt _ _)). }
  destruct (place_ok s1 s2 ks mid (drop mid ks)) as (s3 & s4 & Hr3 & Hr4 & Hs4 & Hrow4);
    [done..|apply (ew_first _ _ _ Hhi)| |].
  { rewrite !all_keys_middle. cbn [ie_keys]. change (all_keys (?x :: l2)) with (ie_keys x ++ all_keys l2).
    cbn [ie_keys]. rewrite (app_assoc (take mid ks)), take_drop, Hk. unfold ks. rewrite !length_app. cbn [length]. lia. }
  fold es' in Hrow4. exists s4. unfold index_insert. rewrite (bind_run _ _ _ _ _ Hr1). cbv iota beta.
  rewrite (bind_run _ _ _ _ _ Hr2). cbv iota beta. rewrite (bind_run _ _ _ _ _ Hr3), (bind_run _ _ _ _ _ Hr4).
  split; [done|]. split; [done|]. by apply (index_extended s1 s2 s4 ks mid).
Qed.
(** A full page in a full directory. *)
Lemma insert_full k1 k2 :
  ie_keys e = k1 ++ k2 → Forall (λ k, bytes_lt k kb) k1 → Forall (bytes_lt kb) k2 →
  length (ie_keys e) = PAGE_BYTES / w → MAX_VALUE_BYTES < META_HEADER + S (length es) * (w + 4) →
  index_insert host prefix w kb s = None.
Proof using Hhost Hpre Hw Hs Hat Hkb Hl1 Hl2.
  intros Hk H1 H2 Hlen Hroom. pose proof insert_page_row as Hrow0. pose proof insert_le as Hle.
  destruct (fresh_keys w l1 l2 e kb k1 k2 (ia_wf _ _ Hat) Hkb Hle Hl2 Hk H1 H2) as (_ & Hwd & _).
  set (ks := k1 ++ kb :: k2) in *. set (mid := length ks / 2).
  assert (length ks = S (PAGE_BYTES / w)) as Hfull.
  { rewrite <- Hlen, Hk. unfold ks. rewrite !length_app. cbn [length]. lia. }
  assert (mid < length ks) as Hmid by (apply Nat.div_lt; lia).
  destruct (find_slot_ok s l1 e l2 kb Hat Hl1 Hl2 Hs) as (s1 & Hr1 & Hs1 & Hat1 & Hoff & Hm & Hp).
  destruct (page_mutate_ok (ie_page e) (page_insert w kb) s1 (true, Some (ks !!! mid, concat (drop mid ks)))
    (Some (concat (take mid ks)))) as (s2 & Hr2 & Hs2 & Hrow & Hm2); [done| |intros ? [= <-]|].
  { rewrite Hp, (page_insert_fresh w ltac:(lia) _ k1 k2); [|by rewrite Hrow0, Hk|done..].
    fold ks mid. by rewrite (proj2 (Nat.ltb_lt _ _)) by lia. }
  { apply page_size; [by apply Forall_take|]. rewrite length_take_le; lia. }
  unfold index_insert. rewrite (bind_run _ _ _ _ _ Hr1). cbv iota beta. rewrite (bind_run _ _ _ _ _ Hr2). cbv iota beta.
  apply bind_panic. unfold place_upper. apply bind_panic. unfold with_meta, core_mutate. rewrite decide_False by done.
  destruct (index_entries _ _ Hat) as [Hent Hel].
  eapply overlay_mutate_large; [done|done|rewrite Hm2, Hm; cbn [from_option id]|].
  - rewrite (split_insert_meta w _ l1 e l2 (ks !!! mid) []) by (done || lia). reflexivity.
  - rewrite (length_encode_meta w).
    + replace (length (l1 ++ e :: _ :: l2)) with (S (length es)); [done|]. rewrite !length_app. cbn [length]. lia.
    + destruct (lookup_lt_is_Some_2 ks mid Hmid) as [k Hkm].
      apply Forall_app in Hent as [? [? ?]%Forall_cons]. rewrite Forall_app, !Forall_cons. cbn [ie_first ie_page].
      split_and!; [done|naive_solver|naive_solver| |lia|done].
      rewrite (list_lookup_total_correct _ _ _ Hkm). by apply (proj1 (Forall_lookup _ _) Hwd mid).
Qed.

Lemma remove_absent :
  kb ∉ ie_keys e →
  ∃ s', remove_bytes host prefix w kb s = Some (false, s') ∧ dispatch_ok host s' ∧ index_at s' es ∧ same_off_index s s'.
Proof using Hhost Hpre Hw Hs Hat Hkb Hl1 Hl2.
  intros Hn. pose proof insert_page as Hew. pose proof insert_page_row as Hrow0.
  destruct (find_slot_ok s l1 e l2 kb Hat Hl1 Hl2 Hs) as (s1 & Hr1 & Hs1 & Hat1 & Hoff & Hm & Hp).
  destruct (page_mutate_ok (ie_page e) (page_remove w kb) s1 false (rows s1 (page_row prefix (ie_page e))))
    as (s2 & Hr2 & Hs2 & Hrow & Hm2); [done| |rewrite Hp; intros v Hv|].
  { rewrite Hp. apply (page_remove_absent w ltac:(lia) _ (ie_keys e)); [done|apply Hew|apply Hew|done]. }
  { rewrite Hv in Hrow0. cbn [from_option id] in Hrow0. subst v. apply page_size; apply Hew. }
  assert (∀ k, rows s2 k = rows s1 k) as Hsame by (intros k; rewrite Hrow; case_decide; by subst).
  exists s2. unfold remove_bytes. rewrite (bind_run _ _ _ _ _ Hr1). cbv iota beta. rewrite (bind_run _ _ _ _ _ Hr2).
  split; [done|]. split; [done|]. split; [|intros k Hk; rewrite Hsame; by apply Hoff].
  destruct Hat1 as [Hwf Hmeta Hpg Hsize]. split; [done|by rewrite Hsame|by setoid_rewrite Hsame|done].
Qed.

Lemma remove_known k1 k2 :
  ie_keys e = k1 ++ kb :: k2 → Forall (λ k, bytes_lt k kb) k1 → Forall (bytes_le kb) (kb :: k2) →
  let es' := l1 ++ mkEntry (ie_first e) (ie_page e) (k1 ++ k2) :: l2 in
  ∃ s', remove_bytes host prefix w kb s = Some (true, s') ∧ dispatch_ok host s' ∧ index_at s' es' ∧
    ∀ k, off_index k → rows s' k = if decide (k = sm_value_row prefix kb) then None else rows s k.
Proof using Hhost Hpre Hw Hs Hat Hkb Hl1 Hl2.
  intros Hk H1 H2 es'. pose proof insert_page as Hew. pose proof insert_page_row as Hrow0.
  pose proof (removed_wf w l1 e l2 k1 kb k2 (ia_wf _ _ Hat) Hk) as Hwf'. fold es' in Hwf'.
  assert (rows s (page_row prefix (ie_page e)) = Some (concat (ie_keys e))) as Hrow1.
  { destruct (rows s (page_row prefix (ie_page e))) as [b|]; cbn [from_option id] in Hrow0; [by subst b|].
    apply (f_equal length) in Hrow0. rewrite (length_concat_keys w), Hk, length_app in Hrow0 by apply Hew.
    cbn [length] in Hrow0. lia. }
  destruct (find_slot_ok s l1 e l2 kb Hat Hl1 Hl2 Hs) as (s1 & Hr1 & Hs1 & Hat1 & Hoff & Hm & Hp).
  assert (entry_wf w (length es') (mkEntry (ie_first e) (ie_page e) (k1 ++ k2))) as Hew'.
  { apply (proj1 (Forall_forall _ _) (iw_entries _ _ Hwf')). apply elem_of_app. right. left. }
  destruct (page_mutate_ok (ie_page e) (page_remove w kb) s1 true (Some (concat (k1 ++ k2))))
    as (s2 & Hr2 & Hs2 & Hrow & Hm2); [done| |intros ? [= <-]; apply page_size; apply Hew'|].
  { rewrite Hp, Hrow1. apply (page_remove_known w ltac:(lia) _ k1 k2); [apply Hew|done..]. }
  destruct (core_store_ok host prefix Hpre (sm_value_row prefix kb) None s2) as (s3 & Hr3 & Hs3 & Hrow3); [done|done|].
  destruct (index_entries _ _ Hat) as [Hent Hel]. pose proof (index_count _ _ Hat) as Hcount.
  assert (length (all_keys es) = S (length (all_keys es'))) as Hkeys.
  { unfold es'. rewrite !all_keys_middle, Hk, !length_app. cbn [ie_keys]. rewrite length_app. cbn [length]. lia. }
  destruct (bump_count_ok s3 count es (-1) (N.of_nat (length (all_keys es')))) as (s4 & Hr4 & Hs4 & Hrow4);
    [done|rewrite Hrow3, decide_False, Hm2; [done|by apply core_row_ne_tag]|lia|lia|lia|..].
  { rewrite (length_encode_meta w) by done. apply Hat. }
  exists s4. unfold remove_bytes. rewrite (bind_run _ _ _ _ _ Hr1). cbv iota beta. rewrite (bind_run _ _ _ _ _ Hr2).
  cbn [negb]. rewrite (bind_run _ _ _ _ _ Hr3), (bind_run _ _ _ _ _ Hr4). split; [done|]. split; [done|].
  assert (∀ p, page_row prefix p ≠ meta_row prefix ∧ page_row prefix p ≠ sm_value_row prefix kb) as Hne
    by (intros p; split; by apply core_row_ne_tag).
  assert (∀ p, rows s4 (page_row prefix p) = rows s2 (page_row prefix p)) as Hp4.
  { intros p. destruct (Hne p). by rewrite Hrow4, decide_False, Hrow3, decide_False by done. }
  split.
  - apply (index_repaged s1 s4); [done|done| | |]; fold es'.
    + rewrite Hrow4, decide_True by done. unfold es' at 3. by rewrite encode_meta_keys.
    + by rewrite Hp4, Hrow, decide_True by done.
    + intros p Hp'. by rewrite Hp4, Hrow, decide_False.
  - intros k [Hk1 Hk2]. rewrite Hrow4, decide_False, Hrow3 by done. case_decide; [done|].
    rewrite Hrow, decide_False by done. by apply Hoff.
Qed.
End insert.

(** ** The operations of the index *)

Lemma index_insert_ok s es kb :
  dispatch_ok host s → index_at s es → length kb = w → (kb ∉ all_keys es → has_room w es kb) →
  ∃ s' es', index_insert host prefix w kb s = Some (bool_decide (kb ∉ all_keys es), s') ∧ dispatch_ok host s' ∧
    index_at s' es' ∧ (∀ k, k ∈ all_keys es' ↔ k = kb ∨ k ∈ all_keys es) ∧
    length es ≤ length es' ≤ S (length es) ∧ same_off_index s s'.
Proof using Hhost Hpre Hw.
  intros Hs Hat Hkb Hroom. destruct (locate w es kb (ia_wf _ _ Hat) Hkb) as (l1 & e & l2 & -> & Hpage & Hl1 & Hl2).
  pose proof (insert_le l1 e kb Hl1) as Hle. pose proof (insert_page s l1 l2 e Hat) as Hew.
  pose proof (located_keys w l1 e l2 kb (ia_wf _ _ Hat) Hle Hl2) as Hin.
  destruct (page_cut (ie_keys e) kb (ew_sorted _ _ _ Hew)) as (k1 & k2 & Hk & H1 & H2 & Hknown & Hfresh).
  destruct (decide (kb ∈ ie_keys e)) as [Hi|Hn].
  - destruct (Hknown Hi) as [k3 ->]. rewrite bool_decide_false by tauto.
    destruct (insert_known s l1 l2 e kb Hs Hat Hkb Hl1 Hl2 k1 k3 Hk H1 H2) as (s' & Hrun & Hs' & Hat' & Hoff).
    exists s', (l1 ++ e :: l2). split_and!; [done|done|done| |lia|lia|done]. intros k. naive_solver.
  - specialize (Hfresh Hn). rewrite bool_decide_true by tauto. specialize (Hroom ltac:(tauto)).
    destruct (decide (length (ie_keys e) < PAGE_BYTES / w)) as [Hlt|Hge].
    + destruct (insert_fits s l1 l2 e kb Hs Hat Hkb Hl1 Hl2 k1 k2 Hk H1 Hfresh Hlt) as (s' & Hrun & Hs' & Hat' & Hoff).
      eexists s', _. split_and!; [done|done|done| |rewrite !length_app; cbn; lia|rewrite !length_app; cbn; lia|done].
      intros k. rewrite !all_keys_middle, Hk. cbn [ie_keys]. set_solver.
    + assert (length (ie_keys e) = PAGE_BYTES / w) as Hfull by (pose proof (ew_small _ _ _ Hew); lia).
      destruct Hroom as [Hroom|Hroom]; [|by specialize (Hroom e Hpage); lia].
      destruct (insert_splits s l1 l2 e kb Hs Hat Hkb Hl1 Hl2 k1 k2 Hk H1 Hfresh Hfull Hroom) as (s' & Hrun & Hs' & Hat' & Hoff).
      eexists s', _. split_and!; [done|done|done| |rewrite !length_app; cbn; lia|rewrite !length_app; cbn; lia|done].
      intros k. rewrite !all_keys_middle. change (all_keys (?x :: l2)) with (ie_keys x ++ all_keys l2). cbn [ie_keys].
      rewrite (app_assoc (take _ _)), take_drop, Hk. set_solver.
Qed.

Lemma index_insert_full s es kb :
  dispatch_ok host s → index_at s es → length kb = w → kb ∉ all_keys es → ¬ has_room w es kb →
  index_insert host prefix w kb s = None.
Proof using Hhost Hpre Hw.
  intros Hs Hat Hkb Hn Hroom. destruct (locate w es kb (ia_wf _ _ Hat) Hkb) as (l1 & e & l2 & -> & Hpage & Hl1 & Hl2).
  pose proof (insert_page s l1 l2 e Hat) as Hew.
  rewrite (located_keys w l1 e l2 kb (ia_wf _ _ Hat) (insert_le l1 e kb Hl1) Hl2) in Hn.
  destruct (page_cut (ie_keys e) kb (ew_sorted _ _ _ Hew)) as (k1 & k2 & Hk & H1 & H2 & _ & Hfresh).
  apply (insert_full s l1 l2 e kb Hs Hat Hkb Hl1 Hl2 k1 k2 Hk H1 (Hfresh Hn)).
  - pose proof (ew_small _ _ _ Hew). apply dec_stable. intros Hne. apply Hroom. right. rewrite Hpage. intros ? [= <-]. lia.
  - apply dec_stable. intros Hne. apply Hroom. left. lia.
Qed.

Lemma remove_key_ok s es kb :
  dispatch_ok host s → index_at s es → length kb = w →
  ∃ s' es', remove_bytes host prefix w kb s = Some (bool_decide (kb ∈ all_keys es), s') ∧ dispatch_ok host s' ∧
    index_at s' es' ∧ (∀ k, k ∈ all_keys es' ↔ k ≠ kb ∧ k ∈ all_keys es) ∧ length es' = length es ∧
    ∀ k, off_index k → rows s' k = if decide (k = sm_value_row prefix kb ∧ kb ∈ all_keys es) then None else rows s k.
Proof using Hhost Hpre Hw.
  intros Hs Hat Hkb. destruct (locate w es kb (ia_wf _ _ Hat) Hkb) as (l1 & e & l2 & -> & Hpage & Hl1 & Hl2).
  pose proof (insert_page s l1 l2 e Hat) as Hew.
  pose proof (located_keys w l1 e l2 kb (ia_wf _ _ Hat) (insert_le l1 e kb Hl1) Hl2) as Hin.
  pose proof (all_keys_sorted w _ _ (iw_entries _ _ (ia_wf _ _ Hat)) (iw_sorted _ _ (ia_wf _ _ Hat))) as Hsorted.
  destruct (page_cut (ie_keys e) kb (ew_sorted _ _ _ Hew)) as (k1 & k2 & Hk & H1 & H2 & Hknown & _).
  destruct (decide (kb ∈ ie_keys e)) as [Hi|Hn].
  - destruct (Hknown Hi) as [k3 ->]. rewrite bool_decide_true by tauto.
    destruct (remove_known s l1 l2 e kb Hs Hat Hkb Hl1 Hl2 k1 k3 Hk H1 H2) as (s' & Hrun & Hs' & Hat' & Hoff).
    eexists s', _. split_and!; [done|done|done| |by rewrite !length_app|].
    + apply (NoDup_of_strict bytes_le) in Hsorted. intros k. rewrite !all_keys_middle in *. rewrite Hk in Hsorted |- *.
      rewrite <- app_assoc in Hsorted. cbn [app] in Hsorted.
      rewrite (app_assoc (all_keys l1)), <- Permutation_middle in Hsorted.
      apply NoDup_cons in Hsorted as [Hnot _]. cbn [ie_keys]. clear - Hnot. set_solver.
    + intros k Hkoff. rewrite (Hoff k Hkoff). apply decide_ext. tauto.
  - rewrite bool_decide_false by tauto.
    destruct (remove_absent s l1 l2 e kb Hs Hat Hkb Hl1 Hl2 Hn) as (s' & Hrun & Hs' & Hat' & Hoff).
    exists s', (l1 ++ e :: l2). split_and!; [done|done|done|naive_solver|done|].
    intros k Hkoff. rewrite decide_False by tauto. by apply Hoff.
Qed.
End rows.
