(* ===== verification/HandleMap.v ===== *)
(** * vos: storage maps and sets against their models

    The key types obey [FixedKeyLaws].  [map_at s es m]: under a handle, a dispatch
    sees the index [es] and one row per value of [m], a finite map from key bytes.
    The operations of [StorageMap] and [StorageSet] are those of the finite map;
    iterators give its entries in key order, from the start they are given. *)

From Stdlib.Strings Require Byte.
From S2P Require Import Prelude Bytes Slices Overlay Handles HandleBytes HandleIndex.

Local Open Scope nat_scope.

(** ** Keys *)

Lemma bytes_le_snoc x y a b :
  length x = length y →
  bytes_le (x ++ [a]) (y ++ [b]) ↔ bytes_lt x y ∨ (x = y ∧ (Byte.to_N a ≤ Byte.to_N b)%N).
Proof.
  revert y. induction x as [|u x IH]; intros [|v y] Hlen; try done.
  - cbn [app]. rewrite bytes_le_cons. pose proof (byte_to_N_inj a b). split.
    + intros [?|[-> _]]; right; split; (done || lia).
    + intros [[_ Hn]|[_ Hab]]; [by destruct Hn|]. destruct (decide (Byte.to_N a = Byte.to_N b)); [right; naive_solver|left; lia].
  - injection Hlen as Hlen. cbn [app]. rewrite bytes_le_cons, (IH y Hlen), !bytes_lt_nle, !bytes_le_cons.
    destruct (decide (u = v)) as [->|Hne].
    + split.
      * intros [?|[_ [Hn|[-> Hab]]]]; [lia| |by right]. left. intros [?|[_ ?]]; [lia|done].
      * intros [Hn|[[= ->] Hab]]; right; (split; [done|]); [|by right]. left. intros Hyx. apply Hn. by right.
    + assert (Byte.to_N u ≠ Byte.to_N v) by (intros Huv; by apply Hne, byte_to_N_inj). split.
      * intros [?|[-> _]]; [|done]. left. intros [?|[-> _]]; [lia|done].
      * intros [Hn|[[= -> _] _]]; [|done]. left. apply dec_stable. intros Hge. apply Hn. left. lia.
Qed.

Lemma to_be_bytes_S w v : to_be_bytes (S w) v = to_be_bytes w (v / 256) ++ [byte_of v].
Proof. unfold to_be_bytes. change (to_le_bytes (S w) v) with (byte_of v :: to_le_bytes w (v / 256)). by rewrite reverse_cons. Qed.

Lemma to_be_bytes_le w a b :
  (a < int_modulus w)%N → (b < int_modulus w)%N → bytes_le (to_be_bytes w a) (to_be_bytes w b) ↔ (a ≤ b)%N.
Proof.
  revert a b. induction w as [|w IH]; intros a b Ha Hb.
  - change (int_modulus 0) with 1%N in *. split; [lia|done].
  - rewrite int_modulus_S in Ha, Hb. rewrite !to_be_bytes_S, bytes_le_snoc by by rewrite !length_to_be_bytes.
    assert (a / 256 < int_modulus w ∧ b / 256 < int_modulus w)%N as [Ha' Hb'] by (split; by apply N.Div0.div_lt_upper_bound).
    rewrite bytes_lt_nle, (IH (b / 256)%N (a / 256)%N) by done.
    assert (∀ n, Byte.to_N (byte_of n) = n `mod` 256)%N as Hbyte.
    { intros n. rewrite <- byte_of_mod. apply byte_of_to_N. by apply N.mod_lt. }
    rewrite !Hbyte. pose proof (N.div_mod a 256 ltac:(done)). pose proof (N.div_mod b 256 ltac:(done)).
    pose proof (N.mod_lt a 256 ltac:(done)). pose proof (N.mod_lt b 256 ltac:(done)). clear Ha Hb Hbyte IH.
    generalize dependent (a / 256)%N. generalize dependent (b / 256)%N. generalize dependent (a `mod` 256)%N.
    generalize dependent (b `mod` 256)%N. intros rb Hrb ra Hra qb Hqb Hb qa Hqa Ha. split.
    + intros [Hlt|[Heq Hle]]; [lia|]. apply to_be_bytes_inj in Heq; [lia|done..].
    + intros Hab. destruct (decide (qa = qb)) as [->|]; [right; split; [done|lia]|left; lia].
Qed.

Lemma slice_whole b n : length b = n → slice_at b 0 n = Some b.
Proof. intros <-. rewrite <- (app_nil_r b) at 1. by apply slice_at_first. Qed.

Lemma refine_some {A} (P : A → Prop) `{∀ x, Decision (P x)} (x : A) :
  P x → ∃ y, refine P x = Some y ∧ `y = x.
Proof. intros Hx. unfold refine. destruct (decide (P x)) as [Hx'|]; [|done]. by exists (dexist x Hx'). Qed.

Lemma refine_val {A} (P : A → Prop) `{∀ x, Decision (P x)} (y : dsig P) : refine P (`y) = Some y.
Proof.
  destruct (refine_some P (`y) (proj2_dsig y)) as (z & -> & Hz). f_equal. by apply dsig_eq.
Qed.

#[export] Instance int_fixed_key_laws w : FixedKeyLaws (uint w) (λ a b, (`a ≤ `b)%N).
Proof.
  split.
  - intros k. apply length_to_be_bytes.
  - intros k. cbn [read_from int_fixed_key write_to]. rewrite slice_whole by apply length_to_be_bytes.
    cbn [mbind option_bind]. rewrite from_to_be_bytes by apply (proj2_dsig k). apply refine_val.
  - intros b Hb. cbn [WIDTH int_fixed_key] in Hb. subst w. cbn [read_from int_fixed_key write_to]. rewrite slice_whole by done. cbn [mbind option_bind].
    destruct (refine_some (λ v, (v < int_modulus (length b))%N) (from_be_bytes b)) as (k & -> & Hk).
    { unfold from_be_bytes. rewrite <- (length_reverse b). apply from_le_bytes_lt. }
    exists k. split; [done|]. rewrite Hk. unfold to_be_bytes, from_be_bytes.
    rewrite <- (length_reverse b), to_from_le_bytes. apply reverse_involutive.
  - intros k1 k2. apply to_be_bytes_le; [apply (proj2_dsig k1)|apply (proj2_dsig k2)].
Qed.

#[export] Instance array_fixed_key_laws n : FixedKeyLaws (array n) (λ a b, bytes_le (`a) (`b)).
Proof.
  split.
  - intros k. apply (proj2_dsig k).
  - intros k. cbn [read_from array_fixed_key write_to]. rewrite slice_whole by apply (proj2_dsig k).
    cbn [mbind option_bind]. apply refine_val.
  - intros b Hb. cbn [WIDTH array_fixed_key] in Hb. cbn [read_from array_fixed_key write_to].
    rewrite slice_whole by done. cbn [mbind option_bind]. by apply (refine_some (λ b : bytes, length b = n)).
  - done.
Qed.

(** ** Maps *)

Section map.
Context (host : bytes → option bytes) (prefix : bytes).
Context {K : Type} `{FixedKey K} {key_le : relation K} `{!FixedKeyLaws K key_le}.

Notation w := (WIDTH K).
Notation rows := (rows_at host).

(** A dispatch sees the keys [ks] of [value], a function from key bytes to rows. *)
Record keyed_at (s : DispatchState) (es : list ientry) (value : bytes → option bytes) : Prop := {
  ka_index : index_at host prefix w s es;
  ka_keys : ∀ k, k ∈ all_keys es ↔ length k = w ∧ is_Some (value k);
  ka_rows : ∀ k, length k = w → rows s (sm_value_row prefix k) = value k;
}.

(** Rows of other handles. *)
Definition same_outside (s s' : DispatchState) : Prop := ∀ k, ¬ prefix `prefix_of` k → rows s' k = rows s k.

Lemma value_row_off kb : off_index prefix (sm_value_row prefix kb).
Proof. split; [|intros p]; by apply core_row_ne_tag. Qed.

Lemma outside_off k : ¬ prefix `prefix_of` k → off_index prefix k ∧ ∀ kb, k ≠ sm_value_row prefix kb.
Proof. intros Hk. repeat split; [intros ->|intros p ->|intros kb ->]; apply Hk; by eexists. Qed.

Lemma keyed_at_ext s s' es value value' :
  keyed_at s es value → (∀ k, rows s' k = rows s k) → (∀ k, length k = w → value' k = value k) → keyed_at s' es value'.
Proof.
  intros [[Hwf Hm Hp Hsz] Hk Hr] Hrows Hv. split; [split|..]; try done.
  - by rewrite Hrows.
  - by setoid_rewrite Hrows.
  - intros k. rewrite Hk. split; intros [Hl ?]; by rewrite Hv in * by done.
  - intros k Hl. by rewrite Hrows, Hr, Hv.
Qed.

Lemma keyed_width es k s value : keyed_at s es value → k ∈ all_keys es → length k = w.
Proof using. intros [_ Hk _] Hin. by apply Hk. Qed.

(** Insertion on the index, then a row stored for the key or left as it was. *)
Lemma keyed_insert s es value kb s1 es1 row s2 :
  keyed_at s es value → length kb = w → index_at host prefix w s1 es1 →
  (∀ k, k ∈ all_keys es1 ↔ k = kb ∨ k ∈ all_keys es) → same_off_index host prefix s s1 → is_Some row →
  (∀ k, rows s2 k = if decide (k = sm_value_row prefix kb) then row else rows s1 k) →
  keyed_at s2 es1 (λ k, if decide (k = kb) then row else value k) ∧ same_outside s s2.
Proof using.
  intros [Hix Hk Hr] Hkb Hix1 Hk1 Hoff Hrow Hrows. split; [split|].
  - destruct Hix1 as [Hwf Hm Hp Hsz]. split; [done| | |done].
    + rewrite Hrows, decide_False; [done|]. by apply core_row_ne_tag.
    + eapply Forall_impl; [exact Hp|]. intros e He. rewrite Hrows, decide_False; [done|]. by apply core_row_ne_tag.
  - intros k. rewrite Hk1, Hk. case_decide; [subst; naive_solver|]. naive_solver.
  - intros k Hl. rewrite Hrows. case_decide as Hd; [apply core_row_inj in Hd as ->; by rewrite decide_True|].
    rewrite decide_False by (intros ->; done). rewrite (Hoff _ (value_row_off k)). by apply Hr.
  - intros k Hout. destruct (outside_off k Hout) as [Hko Hkv]. rewrite Hrows, decide_False by apply Hkv. by apply Hoff.
Qed.

Lemma keyed_fresh s es value kb : keyed_at s es value → length kb = w → kb ∉ all_keys es ↔ value kb = None.
Proof using. intros [_ Hk _] Hkb. rewrite Hk, eq_None_not_Some. naive_solver. Qed.

Section ops.
Context (Hhost : host_ok host) (Hpre : prefix ≠ []) (Hw : 0 < w ≤ PAGE_BYTES).

Lemma sm_remove_ok s es value (key : K) :
  dispatch_ok host s → keyed_at s es value → let kb := write_to key in
  ∃ s' es', sm_remove host prefix key s = Some (bool_decide (is_Some (value kb)), s') ∧ dispatch_ok host s' ∧
    keyed_at s' es' (λ k, if decide (k = kb) then None else value k) ∧ length es' = length es ∧ same_outside s s'.
Proof using Hhost Hpre Hw FixedKeyLaws0.
  intros Hs Hka kb. pose proof (length_write_to key : length kb = w) as Hkb. pose proof Hka as [Hix Hk Hr].
  destruct (remove_key_ok host Hhost prefix Hpre w Hw s es kb Hs Hix Hkb)
    as (s' & es' & Hrun & Hs' & Hix' & Hk' & Hlen & Hrows).
  exists s', es'. split_and!; [|done| |done|].
  - unfold sm_remove. fold kb. rewrite Hrun. do 2 f_equal. apply bool_decide_ext. rewrite Hk. naive_solver.
  - split; [done| |].
    + intros k. rewrite Hk', Hk. destruct (decide (k = kb)) as [->|Hne]; [|tauto].
      split; [by intros [[] _]|by intros [_ []]].
    + intros k Hl. cbv beta. rewrite Hrows by apply value_row_off. destruct (decide (k = kb)) as [->|Hne].
      * destruct (decide (_ ∧ _)) as [_|Hd]; [reflexivity|]. rewrite Hr by done. apply dec_stable. intros Hsome. apply Hd. split; [done|].
        apply Hk. split; [done|]. by apply not_eq_None_Some.
      * rewrite decide_False; [by apply Hr|]. intros [Heq _]. apply Hne. by apply core_row_inj in Heq.
  - intros k Hout. destruct (outside_off k Hout) as [Hko Hkv]. rewrite Hrows by done. rewrite decide_False; [done|].
    intros [Heq _]. by apply (Hkv kb).
Qed.

Lemma contains_ok s es value (key : K) :
  dispatch_ok host s → keyed_at s es value →
  ∃ s', sm_contains host prefix key s = Some (bool_decide (is_Some (value (write_to key))), s') ∧ dispatch_ok host s' ∧
    rows s' = rows s.
Proof using Hhost Hpre FixedKeyLaws0.
  intros Hs [Hix Hk Hr]. destruct (core_load_ok host Hhost prefix Hpre (sm_value_row prefix (write_to key)) s Hs)
    as (s' & Hrun & Hs' & Hrows).
  exists s'. split_and!; [|done|done]. unfold sm_contains. rewrite (bind_run _ _ _ _ _ Hrun).
  rewrite Hr by apply length_write_to. done.
Qed.

Lemma len_ok s es value :
  dispatch_ok host s → keyed_at s es value →
  ∃ s', sm_len host prefix s = Some (N.of_nat (length (all_keys es)), s') ∧ dispatch_ok host s' ∧ rows s' = rows s.
Proof using Hhost Hpre Hw.
  intros Hs [Hix Hk Hr]. destruct (core_load_ok host Hhost prefix Hpre (meta_row prefix) s Hs) as (s' & Hrun & Hs' & Hrows).
  exists s'. split_and!; [|done|done]. unfold sm_len. rewrite (bind_run _ _ _ _ _ Hrun).
  pose proof (index_count host prefix w Hw s es Hix) as Hcount. pose proof (ia_meta _ _ _ _ _ Hix) as Hm.
  assert (meta_count (default (meta_empty w) (rows s (meta_row prefix))) = Some (N.of_nat (length (all_keys es)))) as Hc.
  { rewrite Hm. apply meta_count_encode. lia. }
  destruct (rows s (meta_row prefix)) as [b|]; cbn [from_option id] in Hc; [unfold lift; by rewrite Hc|].
  rewrite meta_empty_encode, meta_count_encode in Hc by done. by injection Hc as <-.
Qed.

(** *** Iterators *)

(** An iterator that has the keys [rest] left. *)
Definition iter_at (es : list ientry) (it : StorageMapIter) (rest : list bytes) : Prop :=
  ∃ l1 e l2 k1 k2, es = l1 ++ e :: l2 ∧ ie_keys e = k1 ++ k2 ∧ rest = k2 ++ all_keys l2 ∧
    it = mkIter ((λ e, (ie_first e, ie_page e)) <$> es) (length l1) (concat (ie_keys e)) (length k1 * w).

Lemma load_page_ok s es e :
  dispatch_ok host s → index_at host prefix w s es → e ∈ es →
  ∃ s', load_page host prefix (ie_page e) s = Some (concat (ie_keys e), s') ∧ dispatch_ok host s' ∧ rows s' = rows s.
Proof using Hhost Hpre.
  intros Hs Hix He. destruct (core_load_ok host Hhost prefix Hpre (page_row prefix (ie_page e)) s Hs) as (s' & Hrun & Hs' & Hrows).
  exists s'. split_and!; [|done|done]. unfold load_page. rewrite (bind_run _ _ _ _ _ Hrun).
  pose proof (ia_pages _ _ _ _ _ Hix) as Hp. rewrite Forall_forall in Hp. by rewrite <- (Hp e He).
Qed.

Lemma index_at_rows s s' es : index_at host prefix w s es → rows s' = rows s → index_at host prefix w s' es.
Proof using. intros [Hwf Hm Hp Hsz] Hrows. by split; rewrite ?Hrows. Qed.

Lemma load_dir_ok s es :
  dispatch_ok host s → index_at host prefix w s es →
  ∃ s', load_dir host prefix w s = Some ((λ e, (ie_first e, ie_page e)) <$> es, s') ∧ dispatch_ok host s' ∧ rows s' = rows s.
Proof using Hhost Hpre Hw.
  intros Hs Hix. destruct (core_load_ok host Hhost prefix Hpre (meta_row prefix) s Hs) as (s' & Hrun & Hs' & Hrows).
  exists s'. split_and!; [|done|done]. unfold load_dir. rewrite (bind_run _ _ _ _ _ Hrun).
  destruct (index_entries _ _ _ Hw _ _ Hix) as [Hent Hlen].
  pose proof (meta_dir_entries w (N.of_nat (length (all_keys es))) es Hent ltac:(lia)) as Hd.
  rewrite <- (ia_meta _ _ _ _ _ Hix) in Hd.
  destruct (rows s (meta_row prefix)) as [b|]; cbn [from_option id] in Hd; [unfold lift; by rewrite Hd|].
  rewrite meta_empty_encode, meta_dir_entries in Hd; [by injection Hd as <-| |done].
  apply Forall_singleton. split; [apply length_replicate|done].
Qed.

Lemma next_key_here s es l1 e l2 k1 kb k2 fuel :
  index_at host prefix w s es → es = l1 ++ e :: l2 → ie_keys e = k1 ++ kb :: k2 →
  let dir := (λ e, (ie_first e, ie_page e)) <$> es in
  ∃ key it', next_key host prefix (S fuel) (mkIter dir (length l1) (concat (ie_keys e)) (length k1 * w)) s
      = Some (Some (key, it'), s) ∧
    write_to key = kb ∧ iter_at es it' (k2 ++ all_keys l2) ∧ it_dir it' = dir.
Proof using Hw FixedKeyLaws0.
  intros Hix Hes Hk dir. cbn [next_key it_off it_page it_dir it_slot].
  assert (e ∈ es) as He by (rewrite Hes; apply elem_of_app; right; left).
  pose proof (proj1 (Forall_forall _ _) (iw_entries _ _ (ia_wf _ _ _ _ _ Hix)) e He) as Hew.
  pose proof (length_concat_keys w _ (ew_keys _ _ _ Hew)) as Hpl. rewrite Hpl, Hk, length_app, (proj2 (Nat.leb_le _ _)) by (cbn [length]; nia).
  destruct (write_read (K:=K) kb) as (key & Hread & Hwrite).
  { apply (proj1 (Forall_forall _ _) (ew_keys _ _ _ Hew)). rewrite Hk. apply elem_of_app. right. left. }
  exists key. eexists. split_and!; [|done| |].
  - rewrite <- Hk, slice_concat_keys; [|lia|apply Hew]. rewrite Hk, lookup_app_r, Nat.sub_diag by done. cbn [lookup list_lookup].
    cbn [mbind option_bind]. rewrite Hread. by rewrite (bind_run _ _ _ key s).
  - exists l1, e, l2, (k1 ++ [kb]), k2. split_and!; [done|by rewrite <- app_assoc|done|].
    f_equal; [by rewrite Hk|]. rewrite length_app. cbn [length]. lia.
  - done.
Qed.

Lemma next_key_past s es l1 e l2 k1 fuel :
  index_at host prefix w s es → es = l1 ++ e :: l2 → ie_keys e = k1 →
  let dir := (λ e, (ie_first e, ie_page e)) <$> es in
  next_key host prefix (K:=K) (S fuel) (mkIter dir (length l1) (concat (ie_keys e)) (length k1 * w)) s =
    match l2 with
    | [] => Some (None, s)
    | e2 :: _ => (page ← load_page host prefix (ie_page e2);
                  next_key host prefix fuel (mkIter dir (S (length l1)) page 0)) s
    end.
Proof using Hw.
  intros Hix Hes <- dir. cbn [next_key it_off it_page it_dir it_slot].
  assert (e ∈ es) as He by (rewrite Hes; apply elem_of_app; right; left).
  pose proof (proj1 (Forall_forall _ _) (iw_entries _ _ (ia_wf _ _ _ _ _ Hix)) e He) as Hew.
  rewrite (length_concat_keys w _ (ew_keys _ _ _ Hew)), (proj2 (Nat.leb_gt _ _)) by lia.
  assert (dir !! S (length l1) = (λ e, (ie_first e, ie_page e)) <$> head l2) as Hd.
  { unfold dir. rewrite list_lookup_fmap, Hes, lookup_app_r by lia.
    replace (S (length l1) - length l1) with 1 by lia. by destruct l2. }
  rewrite Hd. by destruct l2.
Qed.

Lemma next_key_ok s es it rest fuel :
  dispatch_ok host s → index_at host prefix w s es → iter_at es it rest → length es - it_slot it ≤ fuel →
  ∃ s', dispatch_ok host s' ∧ rows s' = rows s ∧
    match rest with
    | [] => next_key host prefix fuel it s = Some (None (A:=K * _), s')
    | kb :: rest => ∃ key it', next_key host prefix fuel it s = Some (Some (key, it'), s') ∧
        write_to key = kb ∧ iter_at es it' rest ∧ it_dir it' = it_dir it
    end.
Proof using Hhost Hpre Hw FixedKeyLaws0.
  intros Hs Hix (l1 & e & l2 & k1 & k2 & Hes & Hk & -> & ->). cbn [it_slot it_dir].
  set (dir := (λ e, (ie_first e, ie_page e)) <$> es). revert s l1 e k1 k2 fuel Hs Hix Hes Hk.
  induction l2 as [|e2 l2 IH]; intros s l1 e k1 k2 fuel Hs Hix Hes Hk Hfuel;
    (destruct fuel as [|fuel]; [rewrite Hes, length_app in Hfuel; cbn [length] in Hfuel; lia|]);
    (destruct k2 as [|kb k2]; [|exists s; do 2 (split; [done|]); by apply next_key_here]);
    pose proof (next_key_past s es l1 e _ k1 fuel Hix Hes ltac:(by rewrite app_nil_r in Hk)) as Hpast; fold dir in Hpast.
  - exists s. by rewrite Hpast.
  - assert (es = (l1 ++ [e]) ++ e2 :: l2) as Hes2 by (by rewrite <- app_assoc).
    destruct (load_page_ok s es e2 Hs Hix) as (s1 & Hrun & Hs1 & Hrows1); [rewrite Hes2; apply elem_of_app; right; left|].
    destruct (IH s1 (l1 ++ [e]) e2 [] (ie_keys e2) fuel) as (s2 & Hs2 & Hrows2 & Hnext); [done|by eapply index_at_rows|done|done| |].
    { rewrite length_app. cbn [length]. lia. }
    exists s2. split; [done|]. split; [congruence|]. change (all_keys (e2 :: l2)) with (ie_keys e2 ++ all_keys l2).
    rewrite length_app in Hnext. rewrite Hpast, (bind_run _ _ _ _ _ Hrun). cbn [length Nat.mul] in Hnext.
    by rewrite (Nat.add_comm (length l1) 1) in Hnext.
Qed.

(** Running an iterator to its end. *)
Definition rest_of (kb : bytes) (es : list ientry) : list bytes := filter (bytes_le kb) (all_keys es).

Lemma rest_of_located l1 e l2 kb k1 k2 :
  index_wf w (l1 ++ e :: l2) → bytes_le (ie_first e) kb → Forall (λ e, ¬ bytes_le (ie_first e) kb) l2 →
  ie_keys e = k1 ++ k2 → Forall (λ k, bytes_lt k kb) k1 → Forall (bytes_le kb) k2 →
  rest_of kb (l1 ++ e :: l2) = k2 ++ all_keys l2.
Proof using.
  clear Hhost Hpre Hw FixedKeyLaws0 key_le prefix host. intros Hwf Hle Hl2 Hk H1 H2. unfold rest_of. rewrite all_keys_middle, Hk, !filter_app.
  pose proof (iw_entries _ _ Hwf) as Hes. rewrite Forall_forall in Hes. rewrite Forall_forall in Hl2. rewrite Forall_forall in H1.
  rewrite (list_filter_none _ (all_keys l1)), (list_filter_none _ k1), (list_filter_all _ k2), list_filter_all; [done|..|done| |].
  - apply Forall_forall. intros k (e2 & He2 & Hk2)%elem_of_all_keys.
    pose proof (proj1 (Forall_forall _ _) (ew_from _ _ _ (Hes e2 ltac:(set_solver))) k Hk2) as Hfrom.
    eapply bytes_le_trans; [|exact Hfrom]. destruct (bytes_le_total kb (ie_first e2)); [done|]. by destruct (Hl2 e2 He2).
  - intros k Hin Hn. by apply (proj1 (bytes_lt_nle _ _) (H1 k Hin)).
  - intros k (e1 & He1 & Hk1)%elem_of_all_keys Hn.
    pose proof (StronglySorted_app_1_elem_of _ _ _ e1 e (iw_sorted _ _ Hwf) He1 ltac:(left)) as [_ Hb].
    pose proof (proj1 (Forall_forall _ _) Hb k Hk1) as Hlt. apply bytes_lt_nle in Hlt. apply Hlt. by eapply bytes_le_trans.
Qed.

Lemma iter_ok s es :
  dispatch_ok host s → index_at host prefix w s es →
  ∃ s' it, iter host prefix (K:=K) s = Some (it, s') ∧ dispatch_ok host s' ∧ rows s' = rows s ∧ iter_at es it (all_keys es).
Proof using Hhost Hpre Hw.
  intros Hs Hix. destruct (load_dir_ok s es Hs Hix) as (s1 & Hr1 & Hs1 & Hrows1).
  pose proof (iw_floor _ _ (ia_wf _ _ _ _ _ Hix)) as Hfl. destruct es as [|e es]; [done|].
  destruct (load_page_ok s1 (e :: es) e Hs1) as (s2 & Hr2 & Hs2 & Hrows2); [by eapply index_at_rows|left|].
  eexists s2, _. split_and!; [|done|congruence|].
  - unfold iter. rewrite (bind_run _ _ _ _ _ Hr1). cbn [fmap list_fmap lookup list_lookup].
    rewrite (bind_run _ _ _ (ie_first e, ie_page e) s1) by done. cbv iota beta. by rewrite (bind_run _ _ _ _ _ Hr2).
  - by exists [], e, es, [], (ie_keys e).
Qed.

Lemma iter_from_ok s es (start : K) :
  dispatch_ok host s → index_at host prefix w s es →
  ∃ s' it, iter_from host prefix start s = Some (it, s') ∧ dispatch_ok host s' ∧ rows s' = rows s ∧
    iter_at es it (rest_of (write_to start) es).
Proof using Hhost Hpre Hw FixedKeyLaws0.
  intros Hs Hix. set (kb := write_to start). pose proof (length_write_to start : length kb = w) as Hkb.
  destruct (load_dir_ok s es Hs Hix) as (s1 & Hr1 & Hs1 & Hrows1). pose proof (ia_wf _ _ _ _ _ Hix) as Hwf.
  destruct (locate w es kb Hwf Hkb) as (l1 & e & l2 & Hes & _ & Hl1 & Hl2).
  assert (e ∈ es) as He by (rewrite Hes; apply elem_of_app; right; left).
  pose proof (proj1 (Forall_forall _ _) (iw_entries _ _ Hwf) e He) as Hew.
  destruct (load_page_ok s1 es e Hs1) as (s2 & Hr2 & Hs2 & Hrows2); [by eapply index_at_rows|done|].
  destruct (page_cut (ie_keys e) kb (ew_sorted _ _ _ Hew)) as (k1 & k2 & Hk & H1 & H2 & _).
  assert (partition_point (λ e, bool_decide (bytes_le e.1 kb)) ((λ e, (ie_first e, ie_page e)) <$> es) - 1 = length l1) as Hpp.
  { rewrite partition_point_fmap, Hes, (cons_middle e l1 l2), app_assoc, partition_point_app.
    - rewrite length_app. cbn [length]. lia.
    - eapply Forall_impl; [exact Hl1|]. intros x Hx. by apply bool_decide_true.
    - eapply Forall_impl; [exact Hl2|]. intros x Hx. by apply bool_decide_false. }
  eexists s2, _. split_and!; [|done|congruence|].
  - unfold iter_from. rewrite (bind_run _ _ _ _ _ Hr1). cbv zeta. fold kb. rewrite Hpp.
    rewrite (bind_run _ _ _ (ie_first e, ie_page e) s1); [|by rewrite list_lookup_fmap, Hes, list_lookup_middle].
    cbv iota beta. rewrite (bind_run _ _ _ _ _ Hr2). rewrite (bind_run _ _ _ (length k1 * w) s2); [done|].
    unfold lift. rewrite Hk, lower_bound_keys; [done|lia| |done|done]. rewrite <- Hk. apply Hew.
  - exists l1, e, l2, k1, k2. split_and!; [done|done| |done]. rewrite Hes in Hwf |- *.
    apply (rest_of_located l1 e l2 kb k1 k2); try done. by apply (insert_le l1 e kb).
Qed.

(** *** Typed values *)

Section values.
Context {V : Type} `{RowCodec V} `{!RowCodecLaws V}.

Record map_at (s : DispatchState) (es : list ientry) (m : gmap bytes V) : Prop := {
  ma_keyed : keyed_at s es (λ k, row_encode <$> m !! k);
  ma_width : ∀ k, is_Some (m !! k) → length k = w;
}.

Lemma map_keys s es m : map_at s es m → all_keys es = sorted_keys bytes_le m.
Proof using.
  clear Hhost Hpre Hw. intros [[Hix Hk _] Hwd]. symmetry. apply sorted_keys_unique.
  - destruct (ia_wf _ _ _ _ _ Hix). by eapply all_keys_sorted.
  - intros k. rewrite Hk, fmap_is_Some. split; [by intros []|]. intros Hs. split; [by apply Hwd|done].
Qed.

Lemma map_size s es m : map_at s es m → length (all_keys es) = size m.
Proof using.
  clear Hhost Hpre Hw. intros Hm. rewrite (map_keys s es m Hm), sorted_keys_perm, length_fmap. apply length_map_to_list.
Qed.

Lemma get_ok s es m (key : K) :
  dispatch_ok host s → map_at s es m →
  ∃ s', sm_get host prefix key s = Some (m !! write_to key, s') ∧ dispatch_ok host s' ∧ rows s' = rows s.
Proof using Hhost Hpre FixedKeyLaws0 RowCodecLaws0.
  intros Hs [[Hix Hk Hr] _]. destruct (core_load_ok host Hhost prefix Hpre (sm_value_row prefix (write_to key)) s Hs)
    as (s' & Hrun & Hs' & Hrows).
  exists s'. split_and!; [|done|done]. unfold sm_get. rewrite (bind_run _ _ _ _ _ Hrun).
  rewrite Hr by apply length_write_to. destruct (m !! write_to key) as [v|]; [|done]. cbn [fmap option_fmap option_map].
  by rewrite (bind_run _ _ _ v s') by (unfold lift; by rewrite try_decode_encode).
Qed.

Lemma insert_ok s es m (key : K) (v : V) :
  dispatch_ok host s → map_at s es m → let kb := write_to key in
  length (row_encode v) ≤ MAX_VALUE_BYTES → (m !! kb = None → has_room w es kb) →
  ∃ s' es', sm_insert host prefix key v s = Some (bool_decide (m !! kb = None), s') ∧ dispatch_ok host s' ∧
    map_at s' es' (<[kb := v]> m) ∧ length es ≤ length es' ≤ S (length es) ∧ same_outside s s'.
Proof using Hhost Hpre Hw FixedKeyLaws0.
  intros Hs [Hka Hwd] kb Hv Hroom. pose proof (length_write_to key : length kb = w) as Hkb.
  pose proof (keyed_fresh _ _ _ _ Hka Hkb) as Hfresh. cbv beta in Hfresh. rewrite fmap_None in Hfresh.
  destruct (index_insert_ok host Hhost prefix Hpre w Hw s es kb Hs (ka_index _ _ _ Hka) Hkb)
    as (s1 & es1 & Hr1 & Hs1 & Hix1 & Hk1 & Hlen & Hoff); [by intros ?%Hfresh%Hroom|].
  destruct (core_store_ok host prefix Hpre (sm_value_row prefix kb) (Some (row_encode v)) s1) as (s2 & Hr2 & Hs2 & Hrows2);
    [done|by intros ? [= <-]|].
  destruct (keyed_insert s es _ kb s1 es1 _ s2 Hka Hkb Hix1 Hk1 Hoff ltac:(by eexists) Hrows2) as [Hka2 Hout].
  exists s2, es1. split_and!; [|done| |lia|lia|done].
  - unfold sm_insert. fold kb. rewrite (bind_run _ _ _ _ _ Hr1), (bind_run _ _ _ _ _ Hr2).
    unfold mret, dispatch_ret. do 2 f_equal. by apply bool_decide_ext.
  - split.
    + eapply keyed_at_ext; [exact Hka2|done|]. intros k _. cbv beta. destruct (decide (k = kb)) as [->|Hne]; [by rewrite lookup_insert_eq|].
      by rewrite lookup_insert_ne.
    + intros k. destruct (decide (k = kb)) as [->|Hne]; [done|]. rewrite lookup_insert_ne by done. apply Hwd.
Qed.

Lemma insert_panics s es m (key : K) (v : V) :
  dispatch_ok host s → map_at s es m → let kb := write_to key in
  (m !! kb = None ∧ ¬ has_room w es kb) ∨ MAX_VALUE_BYTES < length (row_encode v) →
  sm_insert host prefix key v s = None.
Proof using Hhost Hpre Hw FixedKeyLaws0.
  intros Hs [Hka Hwd] kb Hbad. pose proof (length_write_to key : length kb = w) as Hkb.
  pose proof (keyed_fresh _ _ _ _ Hka Hkb) as Hfresh. cbv beta in Hfresh. rewrite fmap_None in Hfresh.
  pose proof (ka_index _ _ _ Hka) as Hix. unfold sm_insert. fold kb.
  destruct (decide (kb ∉ all_keys es ∧ ¬ has_room w es kb)) as [[Hn Hr]|Hok].
  { apply bind_panic. by apply (index_insert_full host Hhost prefix Hpre w Hw s es kb). }
  destruct Hbad as [[Hn Hr]|Hbig]; [tauto|].
  destruct (index_insert_ok host Hhost prefix Hpre w Hw s es kb Hs Hix Hkb) as (s1 & es1 & Hr1 & _).
  { intros Hn. apply dec_stable. tauto. }
  rewrite (bind_run _ _ _ _ _ Hr1). apply bind_panic. unfold core_store. rewrite decide_False by done.
  by apply overlay_store_large.
Qed.

Lemma remove_map_ok s es m (key : K) :
  dispatch_ok host s → map_at s es m → let kb := write_to key in
  ∃ s' es', sm_remove host prefix key s = Some (bool_decide (is_Some (m !! kb)), s') ∧ dispatch_ok host s' ∧
    map_at s' es' (delete kb m) ∧ length es' = length es ∧ same_outside s s'.
Proof using Hhost Hpre Hw FixedKeyLaws0.
  intros Hs [Hka Hwd] kb. destruct (sm_remove_ok s es _ key Hs Hka) as (s' & es' & Hrun & Hs' & Hka' & Hlen & Hout). fold kb in Hrun, Hka'.
  exists s', es'. split_and!; [|done| |done|done].
  - rewrite Hrun. do 2 f_equal. apply bool_decide_ext. by rewrite fmap_is_Some.
  - split.
    + eapply keyed_at_ext; [exact Hka'|done|]. intros k _. cbv beta. destruct (decide (k = kb)) as [->|Hne]; [by rewrite lookup_delete_eq|].
      by rewrite lookup_delete_ne.
    + intros k. destruct (decide (k = kb)) as [->|Hne]; [by rewrite lookup_delete_eq; intros []|].
      rewrite lookup_delete_ne by done. apply Hwd.
Qed.

Lemma map_at_rows s s' es m : map_at s es m → rows s' = rows s → map_at s' es m.
Proof using. intros [Hka Hwd] Hrows. split; [|done]. eapply keyed_at_ext; [done|by rewrite Hrows|done]. Qed.

(** A [for] loop over an iterator. *)
Fixpoint drain (fuel : nat) (it : StorageMapIter) : dispatch (list (K * V)) :=
  match fuel with
  | O => panic
  | S fuel =>
      e ← sm_next host prefix it;
      match e with
      | None => mret []
      | Some (key, v, it) => rest ← drain fuel it; mret ((key, v) :: rest)
      end
  end.

Lemma drain_ok s es m it rest fuel :
  dispatch_ok host s → map_at s es m → iter_at es it rest → rest ⊆ all_keys es → length rest < fuel →
  ∃ s' out, drain fuel it s = Some (out, s') ∧ dispatch_ok host s' ∧ rows s' = rows s ∧
    (λ e, (write_to e.1, Some e.2)) <$> out = (λ k, (k, m !! k)) <$> rest.
Proof using Hhost Hpre Hw FixedKeyLaws0 RowCodecLaws0.
  revert s it fuel. induction rest as [|kb rest IH]; intros s it fuel Hs Hm Hit Hsub Hfuel;
    (destruct fuel as [|fuel]; [cbn [length] in Hfuel; lia|]); cbn [drain]; unfold sm_next;
    pose proof (ka_index _ _ _ (ma_keyed _ _ _ Hm)) as Hix;
    assert (it_dir it = (λ e, (ie_first e, ie_page e)) <$> es) as Hdir by (by destruct Hit as (?&?&?&?&?&?&?&?&->));
    destruct (next_key_ok s es it _ (S (length (it_dir it))) Hs Hix Hit) as (s1 & Hs1 & Hrows1 & Hnext);
    [rewrite Hdir, length_fmap; lia| |rewrite Hdir, length_fmap; lia|].
  - exists s1, []. split_and!; [|done|done|done].
    rewrite (bind_run _ _ _ None s1); [done|]. by rewrite (bind_run _ _ _ _ _ Hnext).
  - destruct Hnext as (key & it' & Hrun & Hkb & Hit' & Hdir').
    destruct (get_ok s1 es m key Hs1) as (s2 & Hget & Hs2 & Hrows2); [by eapply map_at_rows|].
    assert (is_Some (m !! kb)) as [v Hv].
    { eapply (fmap_is_Some row_encode), (ka_keys _ _ _ (ma_keyed _ _ _ Hm)), Hsub. left. }
    destruct (IH s2 it' fuel) as (s3 & out & Hdrain & Hs3 & Hrows3 & Hout);
      [done|eapply map_at_rows; [done|congruence]|done|intros k Hk; apply Hsub; by right|cbn [length] in Hfuel; lia|].
    exists s3, ((key, v) :: out). split_and!; [|done|congruence|cbn [fmap list_fmap fst snd]; by rewrite Hout, Hkb, Hv].
    rewrite (bind_run _ _ _ (Some (key, v, it')) s2); [by rewrite (bind_run _ _ _ _ _ Hdrain)|].
    rewrite (bind_run _ _ _ _ _ Hrun), (bind_run _ _ _ _ _ Hget), Hkb, Hv. by rewrite (bind_run _ _ _ v s2).
Qed.
End values.

(** *** Sets *)

Record set_at (s : DispatchState) (es : list ientry) (X : gset bytes) : Prop := {
  sa_keyed : keyed_at s es (λ k, if decide (k ∈ X) then Some [Byte.x01] else None);
  sa_width : ∀ k, k ∈ X → length k = w;
}.

Lemma set_keys s es X k : set_at s es X → k ∈ all_keys es ↔ k ∈ X.
Proof using.
  clear Hhost Hpre Hw. intros [[_ Hk _] Hwd]. rewrite Hk. case_decide as Hd; [|split; [by intros [_ []]|done]].
  split; [done|]. intros _. split; [by apply Hwd|by eexists].
Qed.

Lemma set_size s es X : set_at s es X → length (all_keys es) = size X.
Proof using.
  clear Hhost Hpre Hw. intros HX. transitivity (size (list_to_set (all_keys es) : gset bytes)).
  - symmetry. apply size_list_to_set. destruct HX as [[Hix _ _] _]. destruct (ia_wf _ _ _ _ _ Hix).
    by eapply (NoDup_of_strict bytes_le), all_keys_sorted.
  - f_equal. apply set_eq. intros k. rewrite elem_of_list_to_set. by eapply set_keys.
Qed.

Lemma set_insert_ok s es X (key : K) :
  dispatch_ok host s → set_at s es X → let kb := write_to key in (kb ∉ X → has_room w es kb) →
  ∃ s' es', ss_insert host prefix key s = Some (bool_decide (kb ∉ X), s') ∧ dispatch_ok host s' ∧
    set_at s' es' ({[ kb ]} ∪ X) ∧ length es ≤ length es' ≤ S (length es) ∧ same_outside s s'.
Proof using Hhost Hpre Hw FixedKeyLaws0.
  intros Hs HX kb Hroom. pose proof (length_write_to key : length kb = w) as Hkb.
  pose proof HX as [Hka Hwd]. pose proof (set_keys s es X kb HX) as Hin.
  destruct (index_insert_ok host Hhost prefix Hpre w Hw s es kb Hs (ka_index _ _ _ Hka) Hkb)
    as (s1 & es1 & Hr1 & Hs1 & Hix1 & Hk1 & Hlen & Hoff); [intros Hn; apply Hroom; tauto|].
  assert (∃ s2, (if bool_decide (kb ∉ all_keys es) then core_store prefix (sm_value_row prefix kb) (Some [Byte.x01]) else mret tt) s1
      = Some (tt, s2) ∧ dispatch_ok host s2 ∧
      ∀ k, rows s2 k = if decide (k = sm_value_row prefix kb) then Some [Byte.x01] else rows s1 k) as (s2 & Hr2 & Hs2 & Hrows2).
  { case_bool_decide as Hd.
    - apply core_store_ok; [done|done|]. intros ? [= <-]. unfold MAX_VALUE_BYTES. cbn [length]. lia.
    - exists s1. split_and!; [done|done|]. intros k. case_decide as Hkk; [subst k|done].
      rewrite (Hoff _ (value_row_off kb)), (ka_rows _ _ _ Hka) by done. rewrite decide_True; [done|].
      tauto. }
  destruct (keyed_insert s es _ kb s1 es1 _ s2 Hka Hkb Hix1 Hk1 Hoff ltac:(by eexists) Hrows2) as [Hka2 Hout].
  exists s2, es1. split_and!; [|done| |lia|lia|done].
  - unfold ss_insert. fold kb. rewrite (bind_run _ _ _ _ _ Hr1), (bind_run _ _ _ _ _ Hr2).
    unfold mret, dispatch_ret. do 2 f_equal. apply bool_decide_ext. tauto.
  - split; [|set_solver]. eapply keyed_at_ext; [exact Hka2|done|]. intros k _. cbv beta.
    destruct (decide (k = kb)) as [->|Hne]; [by rewrite decide_True by set_solver|]. apply decide_ext. set_solver.
Qed.

Lemma set_remove_ok s es X (key : K) :
  dispatch_ok host s → set_at s es X → let kb := write_to key in
  ∃ s' es', ss_remove host prefix key s = Some (bool_decide (kb ∈ X), s') ∧ dispatch_ok host s' ∧
    set_at s' es' (X ∖ {[ kb ]}) ∧ length es' = length es ∧ same_outside s s'.
Proof using Hhost Hpre Hw FixedKeyLaws0.
  intros Hs [Hka Hwd] kb. destruct (sm_remove_ok s es _ key Hs Hka) as (s' & es' & Hrun & Hs' & Hka' & Hlen & Hout).
  cbv beta in Hrun. fold kb in Hrun, Hka'. exists s', es'. split_and!; [|done| |done|done].
  - unfold ss_remove. rewrite Hrun. do 2 f_equal. apply bool_decide_ext. case_decide; [|split; [by intros []|done]].
    by split; [|intros _; eexists].
  - split; [|set_solver]. eapply keyed_at_ext; [exact Hka'|done|]. intros k _. cbv beta.
    destruct (decide (k = kb)) as [->|Hne]; [by rewrite decide_False by set_solver|]. apply decide_ext. set_solver.
Qed.
End ops.
End map.
