(* ===== verification/HandleVec.v ===== *)
(** * vos: storage vectors and values, and paged replies

    [vec_at s l]: a dispatch sees the list [l] under a [StorageVec], one row per
    element and none past the end.  [fill_loop_spec] is what a reply page holds. *)

From Stdlib.Strings Require Byte.
From S2P Require Import Prelude Bytes Overlay Handles HandleBytes HandleIndex.

Local Open Scope nat_scope.

Section vec.
Context (host : bytes → option bytes) (Hhost : host_ok host) (prefix : bytes) (Hpre : prefix ≠ []).
Context {T : Type} `{RowCodec T} `{!RowCodecLaws T}.

Notation rows := (rows_at host).

Record vec_at (s : DispatchState) (l : list T) : Prop := {
  va_len : rows s (len_row prefix) = Some (to_le_bytes 8 (N.of_nat (length l))) ∨
           rows s (len_row prefix) = None ∧ l = [];
  va_elems : ∀ i, (i < u64_modulus)%N → rows s (elem_row prefix i) = row_encode <$> l !! N.to_nat i;
  va_bound : (N.of_nat (length l) < u64_modulus)%N;
}.

Lemma vec_at_rows s s' l : vec_at s l → rows s' = rows s → vec_at s' l.
Proof using. intros [Hl He Hb] Hrows. split; by rewrite ?Hrows. Qed.

Lemma elem_ne_len i : elem_row prefix i ≠ len_row prefix.
Proof using. by apply core_row_ne_tag. Qed.

Lemma elem_row_inj i j : (i < u64_modulus)%N → (j < u64_modulus)%N → elem_row prefix i = elem_row prefix j → i = j.
Proof using. intros Hi Hj Heq%core_row_inj. by apply (to_be_bytes_inj 8). Qed.

Lemma vec_len_ok s l :
  dispatch_ok host s → vec_at s l →
  ∃ s', vec_len host prefix s = Some (N.of_nat (length l), s') ∧ dispatch_ok host s' ∧ rows s' = rows s.
Proof using Hhost Hpre.
  intros Hs [Hl _ Hb]. destruct (core_load_ok host Hhost prefix Hpre (len_row prefix) s Hs) as (s' & Hrun & Hs' & Hrows).
  exists s'. split_and!; [|done|done]. unfold vec_len. rewrite (bind_run _ _ _ _ _ Hrun).
  destruct Hl as [->|[-> ->]]; [|done].
  assert (slice_at (to_le_bytes 8 (N.of_nat (length l))) 0 8 = Some (to_le_bytes 8 (N.of_nat (length l)))) as Hsl.
  { rewrite <- (app_nil_r (to_le_bytes 8 _)) at 1. apply slice_at_first. by rewrite length_to_le_bytes. }
  rewrite Hsl. unfold lift. cbn [fmap option_fmap option_map]. by rewrite from_to_le_bytes.
Qed.

Lemma set_len_ok s n :
  dispatch_ok host s →
  ∃ s', set_len prefix n s = Some (tt, s') ∧ dispatch_ok host s' ∧
    ∀ k, rows s' k = if decide (k = len_row prefix) then Some (to_le_bytes 8 n) else rows s k.
Proof using Hpre.
  intros Hs. apply core_store_ok; [done|done|]. intros ? [= <-]. rewrite length_to_le_bytes. unfold MAX_VALUE_BYTES. lia.
Qed.

Lemma vec_get_ok s l idx :
  dispatch_ok host s → vec_at s l → (idx < u64_modulus)%N →
  ∃ s', vec_get host prefix idx s = Some (l !! N.to_nat idx, s') ∧ dispatch_ok host s' ∧ rows s' = rows s.
Proof using Hhost Hpre RowCodecLaws0.
  intros Hs Hv Hi. destruct (vec_len_ok s l Hs Hv) as (s1 & Hr1 & Hs1 & Hrows1). unfold vec_get.
  rewrite (bind_run _ _ _ _ _ Hr1). destruct (N.leb_spec (N.of_nat (length l)) idx) as [Hge|Hlt].
  - exists s1. rewrite lookup_ge_None_2 by lia. done.
  - destruct (core_load_ok host Hhost prefix Hpre (elem_row prefix idx) s1 Hs1) as (s2 & Hr2 & Hs2 & Hrows2).
    exists s2. split_and!; [|done|congruence]. rewrite (bind_run _ _ _ _ _ Hr2), Hrows1, (va_elems _ _ Hv) by done.
    destruct (l !! N.to_nat idx) as [x|]; [|done]. cbn [fmap option_fmap option_map].
    by rewrite (bind_run _ _ _ x s2) by (unfold lift; by rewrite try_decode_encode).
Qed.

Lemma vec_set_ok s l idx x :
  dispatch_ok host s → vec_at s l → (idx < N.of_nat (length l))%N → length (row_encode x) ≤ MAX_VALUE_BYTES →
  ∃ s', vec_set host prefix idx x s = Some (tt, s') ∧ dispatch_ok host s' ∧ vec_at s' (<[N.to_nat idx := x]> l).
Proof using Hhost Hpre.
  intros Hs Hv Hi Hx. destruct (vec_len_ok s l Hs Hv) as (s1 & Hr1 & Hs1 & Hrows1). unfold vec_set.
  destruct (core_store_ok host prefix Hpre (elem_row prefix idx) (Some (row_encode x)) s1) as (s2 & Hr2 & Hs2 & Hrows2);
    [done|by intros ? [= <-]|].
  exists s2. rewrite (bind_run _ _ _ _ _ Hr1), (proj2 (N.ltb_lt _ _)) by done. split_and!; [done|done|].
  destruct Hv as [Hl He Hb]. split; [| |by rewrite length_insert].
  - rewrite length_insert, Hrows2, decide_False, Hrows1 by (apply not_eq_sym, elem_ne_len).
    destruct Hl as [?|[_ ->]]; [by left|cbn in Hi; lia].
  - intros i Hi'. rewrite Hrows2. case_decide as Hd.
    + apply elem_row_inj in Hd as ->; [|done|lia]. by rewrite list_lookup_insert_eq by lia.
    + rewrite Hrows1, He by done. rewrite list_lookup_insert_ne; [done|]. intros Heq. apply Hd. f_equal. lia.
Qed.

Lemma vec_set_panics s l idx x :
  dispatch_ok host s → vec_at s l → (N.of_nat (length l) ≤ idx)%N → vec_set host prefix idx x s = None.
Proof using Hhost Hpre.
  intros Hs Hv Hi. destruct (vec_len_ok s l Hs Hv) as (s1 & Hr1 & _). unfold vec_set.
  by rewrite (bind_run _ _ _ _ _ Hr1), (proj2 (N.ltb_ge _ _)).
Qed.

Lemma vec_push_ok s l x :
  dispatch_ok host s → vec_at s l → (N.of_nat (length l) + 1 < u64_modulus)%N → length (row_encode x) ≤ MAX_VALUE_BYTES →
  ∃ s', vec_push host prefix x s = Some (tt, s') ∧ dispatch_ok host s' ∧ vec_at s' (l ++ [x]).
Proof using Hhost Hpre.
  intros Hs Hv Hb Hx. destruct (vec_len_ok s l Hs Hv) as (s1 & Hr1 & Hs1 & Hrows1). set (n := N.of_nat (length l)) in *.
  destruct (core_store_ok host prefix Hpre (elem_row prefix n) (Some (row_encode x)) s1) as (s2 & Hr2 & Hs2 & Hrows2);
    [done|by intros ? [= <-]|].
  destruct (set_len_ok s2 (n + 1)%N Hs2) as (s3 & Hr3 & Hs3 & Hrows3).
  exists s3. split_and!; [|done|].
  { unfold vec_push. rewrite (bind_run _ _ _ _ _ Hr1), (bind_run _ _ _ _ _ Hr2), N.mod_small by done. done. }
  assert (N.of_nat (length (l ++ [x])) = (n + 1)%N) as Hn by (rewrite length_app; cbn [length]; unfold n; lia).
  split; [left; by rewrite Hrows3, decide_True, Hn| |by rewrite Hn].
  intros i Hi. rewrite Hrows3, decide_False, Hrows2 by apply elem_ne_len. case_decide as Hd.
  - apply elem_row_inj in Hd as ->; [|done|lia]. unfold n. by rewrite Nat2N.id, list_lookup_middle.
  - rewrite Hrows1, (va_elems _ _ Hv) by done. assert (i ≠ n) as Hne by (intros ->; done).
    destruct (decide (N.to_nat i < length l)) as [Hlt|Hge]; [by rewrite lookup_app_l|].
    rewrite !lookup_ge_None_2; [done|rewrite length_app; cbn [length]; unfold n in Hne; lia|lia].
Qed.

(** The last element moves into the hole. *)
Definition swap_removed (i : nat) (l : list T) : list T :=
  match last l with Some x => take (length l - 1) (<[i := x]> l) | None => l end.

Lemma swap_removed_lookup l0 x i j :
  i ≤ length l0 →
  swap_removed i (l0 ++ [x]) !! j =
    if decide (j < length l0) then if decide (j = i) then Some x else (l0 ++ [x]) !! j else None.
Proof using.
  intros Hi. unfold swap_removed. rewrite last_snoc, length_app. cbn [length]. rewrite Nat.add_sub. case_decide as Hj.
  - rewrite lookup_take_lt by done. case_decide as Hji; [subst j|].
    + rewrite list_lookup_insert_eq; [done|]. rewrite length_app. cbn [length]. lia.
    + by rewrite list_lookup_insert_ne.
  - apply lookup_ge_None_2. rewrite length_take. lia.
Qed.

Lemma length_swap_removed l0 x i : length (swap_removed i (l0 ++ [x])) = length l0.
Proof using.
  unfold swap_removed. rewrite last_snoc, length_take, length_insert, length_app. cbn [length]. lia.
Qed.

(** The row of the last element moved to the hole, when it is not the hole. *)
Lemma move_tail_ok s l0 x idx :
  dispatch_ok host s → vec_at s (l0 ++ [x]) → (idx ≤ N.of_nat (length l0))%N →
  let n := N.of_nat (length l0) in
  ∃ s', (if (idx =? n)%N then mret tt
         else
           row ← core_load host prefix (elem_row prefix n);
           tail ← lift row;
           core_store prefix (elem_row prefix idx) (Some tail)) s = Some (tt, s') ∧ dispatch_ok host s' ∧
    ∀ k, rows s' k = if decide (k = elem_row prefix idx ∧ idx ≠ n) then Some (row_encode x) else rows s k.
Proof using Hhost Hpre.
  intros Hs [Hl He Hb] Hi n. rewrite length_app in Hb. cbn [length] in Hb.
  assert (rows s (elem_row prefix n) = Some (row_encode x)) as Hrow.
  { rewrite He by (unfold n; lia). unfold n. by rewrite Nat2N.id, list_lookup_middle. }
  destruct (N.eqb_spec idx n) as [->|Hne].
  { exists s. split_and!; [done|done|]. intros k. by rewrite decide_False by (by intros []). }
  destruct (core_load_ok host Hhost prefix Hpre (elem_row prefix n) s Hs) as (s1 & Hr1 & Hs1 & Hrows1).
  destruct (core_store_ok host prefix Hpre (elem_row prefix idx) (Some (row_encode x)) s1) as (s2 & Hr2 & Hs2 & Hrows2);
    [done|intros ? [= <-]; apply (rows_at_small host s (elem_row prefix n)); done|].
  exists s2. split_and!; [|done|].
  - rewrite (bind_run _ _ _ _ _ Hr1), Hrow. by rewrite (bind_run _ _ _ (row_encode x) s1).
  - intros k. rewrite Hrows2, Hrows1. apply decide_ext. tauto.
Qed.

Lemma swap_remove_ok s l idx :
  dispatch_ok host s → vec_at s l → (idx < N.of_nat (length l))%N →
  ∃ s', swap_remove host prefix idx s = Some (l !! N.to_nat idx, s') ∧ dispatch_ok host s' ∧
    vec_at s' (swap_removed (N.to_nat idx) l).
Proof using Hhost Hpre RowCodecLaws0.
  intros Hs Hv Hi. destruct l as [|x l0 _] using rev_ind; [cbn in Hi; lia|]. set (n := N.of_nat (length l0)).
  assert (N.of_nat (length (l0 ++ [x])) = (n + 1)%N) as Hn by (rewrite length_app; cbn [length]; unfold n; lia).
  rewrite Hn in Hi. pose proof (va_bound _ _ Hv) as Hb. rewrite Hn in Hb.
  destruct (vec_len_ok s _ Hs Hv) as (s1 & Hr1 & Hs1 & Hrows1). rewrite Hn in Hr1.
  pose proof (vec_at_rows s s1 _ Hv Hrows1) as Hv1.
  destruct (vec_get_ok s1 _ idx Hs1 Hv1 ltac:(lia)) as (s2 & Hr2 & Hs2 & Hrows2).
  pose proof (vec_at_rows s1 s2 _ Hv1 Hrows2) as Hv2.
  destruct (move_tail_ok s2 l0 x idx Hs2 Hv2 ltac:(fold n; lia)) as (s3 & Hr3 & Hs3 & Hrows3). fold n in Hr3, Hrows3.
  destruct (core_store_ok host prefix Hpre (elem_row prefix n) None s3) as (s4 & Hr4 & Hs4 & Hrows4); [done|done|].
  destruct (set_len_ok s4 n Hs4) as (s5 & Hr5 & Hs5 & Hrows5).
  exists s5. split_and!; [|done|].
  - unfold swap_remove. rewrite (bind_run _ _ _ _ _ Hr1), (proj2 (N.leb_gt _ _)) by done.
    rewrite (bind_run _ _ _ _ _ Hr2). cbv zeta. replace (n + 1 - 1)%N with n by lia.
    by rewrite (bind_run _ _ _ _ _ Hr3), (bind_run _ _ _ _ _ Hr4), (bind_run _ _ _ _ _ Hr5).
  - split; rewrite ?length_swap_removed; fold n; [left; by rewrite Hrows5, decide_True| |lia].
    intros i Hi'. rewrite Hrows5, decide_False, Hrows4 by apply elem_ne_len. rewrite swap_removed_lookup by lia.
    destruct (decide (elem_row prefix i = elem_row prefix n)) as [Heq|Hne].
    { apply elem_row_inj in Heq as ->; [|lia|lia]. by rewrite decide_False by lia. }
    rewrite Hrows3. destruct (decide (i = idx)) as [->|Hii].
    + rewrite !decide_True; [done|lia|assert (idx ≠ n) by (by intros ->); lia|split; [done|by intros ->]].
    + rewrite decide_False by (intros [Heq _]; by apply elem_row_inj in Heq; [|lia|lia]).
      rewrite (va_elems _ _ Hv2) by done. rewrite (decide_False (P := N.to_nat i = N.to_nat idx)) by lia.
      destruct (decide (N.to_nat i < length l0)) as [Hlt|Hge]; [done|].
      rewrite lookup_ge_None_2; [done|]. rewrite length_app. cbn [length].
      assert (i ≠ n) by (by intros ->). lia.
Qed.

Lemma swap_remove_none s l idx :
  dispatch_ok host s → vec_at s l → (N.of_nat (length l) ≤ idx)%N →
  ∃ s', swap_remove host prefix idx s = Some (None, s') ∧ dispatch_ok host s' ∧ rows s' = rows s.
Proof using Hhost Hpre.
  intros Hs Hv Hi. destruct (vec_len_ok s l Hs Hv) as (s1 & Hr1 & Hs1 & Hrows1). exists s1. split; [|done].
  unfold swap_remove. by rewrite (bind_run _ _ _ _ _ Hr1), (proj2 (N.leb_le _ _)).
Qed.

Lemma vec_elems_ok s l is_ :
  dispatch_ok host s → vec_at s l → Forall (λ i, i < length l) is_ →
  ∃ s' out, mapM (vec_elem host prefix) (N.of_nat <$> is_) s = Some (out, s') ∧ dispatch_ok host s' ∧ rows s' = rows s ∧
    Some <$> out = (λ i, l !! i) <$> is_.
Proof using Hhost Hpre RowCodecLaws0.
  intros Hs Hv His. revert s Hs Hv. induction His as [|i is_ Hi _ IH]; intros s Hs Hv; [by exists s, []|].
  pose proof (va_bound _ _ Hv) as Hb. destruct (vec_get_ok s l (N.of_nat i) Hs Hv ltac:(lia)) as (s1 & Hr1 & Hs1 & Hrows1).
  rewrite Nat2N.id in Hr1. destruct (lookup_lt_is_Some_2 l i Hi) as [x Hx]. rewrite Hx in Hr1.
  destruct (IH s1 Hs1 (vec_at_rows _ _ _ Hv Hrows1)) as (s2 & out & Hr2 & Hs2 & Hrows2 & Hout).
  exists s2, (x :: out). split_and!; [|done|congruence|cbn; by rewrite Hx, Hout].
  cbn [fmap list_fmap mapM]. rewrite (bind_run _ _ _ x s1); [by rewrite (bind_run _ _ _ _ _ Hr2)|].
  unfold vec_elem. by rewrite (bind_run _ _ _ _ _ Hr1).
Qed.

Lemma vec_iter_ok s l :
  dispatch_ok host s → vec_at s l →
  ∃ s', vec_iter host prefix s = Some (l, s') ∧ dispatch_ok host s' ∧ rows s' = rows s.
Proof using Hhost Hpre RowCodecLaws0.
  intros Hs Hv. destruct (vec_len_ok s l Hs Hv) as (s1 & Hr1 & Hs1 & Hrows1).
  destruct (vec_elems_ok s1 l (seq 0 (length l)) Hs1 (vec_at_rows _ _ _ Hv Hrows1)) as (s2 & out & Hr2 & Hs2 & Hrows2 & Hout).
  { apply Forall_seq. lia. }
  exists s2. split_and!; [|done|congruence]. unfold vec_iter. rewrite (bind_run _ _ _ _ _ Hr1), Nat2N.id, Hr2.
  do 2 f_equal. apply (inj (fmap Some)). rewrite Hout. apply list_eq. intros i. rewrite !list_lookup_fmap.
  destruct (decide (i < length l)) as [Hi|Hi].
  - rewrite lookup_seq_lt by done. cbn [fmap option_fmap option_map plus].
    destruct (lookup_lt_is_Some_2 l i Hi) as [x Hx]. by rewrite Hx.
  - rewrite lookup_seq_ge, lookup_ge_None_2 by lia. done.
Qed.
End vec.

(** ** Values *)

Section value.
Context (host : bytes → option bytes) (Hhost : host_ok host) (prefix : bytes) (Hpre : prefix ≠ []).
Context {T : Type} `{RowCodec T} `{!RowCodecLaws T}.

Notation value_at s o := (rows_at host s (sv_key prefix) = row_encode <$> (o : option T)).

Lemma sv_get_ok s o :
  dispatch_ok host s → value_at s o →
  ∃ s', sv_get host prefix s = Some (o, s') ∧ dispatch_ok host s' ∧ rows_at host s' = rows_at host s.
Proof using Hhost Hpre RowCodecLaws0.
  intros Hs Ho. destruct (core_load_ok host Hhost prefix Hpre (sv_key prefix) s Hs) as (s' & Hrun & Hs' & Hrows).
  exists s'. split; [|done]. unfold sv_get. rewrite (bind_run _ _ _ _ _ Hrun), Ho. destruct o as [x|]; [|done].
  cbn [fmap option_fmap option_map]. by rewrite (bind_run _ _ _ x s') by (unfold lift; by rewrite try_decode_encode).
Qed.

Lemma sv_set_ok s x :
  dispatch_ok host s → length (row_encode x) ≤ MAX_VALUE_BYTES →
  ∃ s', sv_set prefix x s = Some (tt, s') ∧ dispatch_ok host s' ∧ value_at s' (Some x).
Proof using Hpre.
  intros Hs Hx. destruct (core_store_ok host prefix Hpre (sv_key prefix) (Some (row_encode x)) s Hs) as (s' & Hrun & Hs' & Hrows);
    [by intros ? [= <-]|].
  exists s'. split_and!; [done|done|by rewrite Hrows, decide_True].
Qed.

Lemma sv_take_ok s o :
  dispatch_ok host s → value_at s o → ∃ s', sv_take host prefix s = Some (o, s') ∧ dispatch_ok host s' ∧ value_at s' None.
Proof using Hhost Hpre RowCodecLaws0.
  intros Hs Ho. destruct (sv_get_ok s o Hs Ho) as (s1 & Hr1 & Hs1 & Hrows1). unfold sv_take.
  rewrite (bind_run _ _ _ _ _ Hr1). destruct o as [x|]; [|by exists s1; rewrite Hrows1].
  destruct (core_store_ok host prefix Hpre (sv_key prefix) None s1 Hs1) as (s2 & Hr2 & Hs2 & Hrows2); [done|].
  exists s2. rewrite (bind_run _ _ _ _ _ Hr2). split_and!; [done|done|by rewrite Hrows2, decide_True].
Qed.
End value.

(** ** Reply pages *)

Section fill.
Context {T : Type} (size : T → nat) (max_rows byte_budget : nat).

Definition total (l : list T) : nat := sum_list (size <$> l).

Lemma total_snoc l x : total (l ++ [x]) = total l + size x.
Proof. unfold total. rewrite fmap_app, sum_list_with_app. cbn. lia. Qed.

(** A page that may still grow. *)
Definition open_page (out : list T) : Prop := out = [] ∨ length out < max_rows ∧ total out ≤ byte_budget.

Definition page_within (out : list T) : Prop :=
  length out ≤ max 1 max_rows ∧ (length out = 1 ∨ total out ≤ byte_budget).

(** Why a page was closed before its items ran out. *)
Definition page_closed (out rest : list T) : Prop :=
  max_rows ≤ length out ∨ byte_budget < total out ∨ ∃ x, head rest = Some x ∧ byte_budget < total out + size x.

Lemma open_within out : open_page out → page_within out.
Proof. intros [->|[Hl Ht]]; split; cbn; try lia. Qed.

Lemma fill_loop_spec items out :
  open_page out →
  ∃ taken rest more, fill_loop size max_rows byte_budget items out (total out) = (out ++ taken, more) ∧
    items = taken ++ rest ∧ (items ≠ [] → out ++ taken ≠ []) ∧ page_within (out ++ taken) ∧
    if more : bool then page_closed (out ++ taken) rest else rest = [].
Proof.
  revert out. induction items as [|x items IH]; intros out Hopen; cbn [fill_loop].
  { exists [], [], false. rewrite app_nil_r. split_and!; [done|done|done|by apply open_within|done]. }
  destruct (decide (out ≠ [] ∧ byte_budget < total out + size x)) as [[Hne Hbig]|Hadd].
  { rewrite bool_decide_true, (proj2 (Nat.ltb_lt _ _) Hbig), orb_true_r by done. exists [], (x :: items), true.
    rewrite app_nil_r. split_and!; [done|done|done|by apply open_within|]. right. right. by exists x. }
  assert ((bool_decide (out ≠ []) && ((max_rows <=? length out) || (byte_budget <? total out + size x))) = false) as ->.
  { destruct Hopen as [->|[Hl Ht]]; [done|]. rewrite (proj2 (Nat.leb_gt _ _) Hl). cbn [orb].
    destruct (Nat.ltb_spec byte_budget (total out + size x)); [|by rewrite andb_false_r].
    rewrite bool_decide_false; [done|]. intros Hne. by apply Hadd. }
  rewrite <- total_snoc. assert (length (out ++ [x]) = S (length out)) as Hlen by (rewrite length_app; cbn; lia).
  assert (page_within (out ++ [x])) as Hwithin.
  { destruct Hopen as [->|[Hl Ht]]; [split; [cbn; lia|by left]|]. split; [lia|]. destruct out as [|y out]; [by left|]. right.
    rewrite total_snoc. apply dec_stable. intros Hgt. apply Hadd. split; [done|lia]. }
  destruct ((max_rows <=? length (out ++ [x])) || (byte_budget <? total (out ++ [x]))) eqn:Hfull.
  - exists [x], items, true. split_and!; [done|done|by destruct out|done|].
    apply orb_true_iff in Hfull as [?%Nat.leb_le|?%Nat.ltb_lt]; [by left|by right; left].
  - apply orb_false_iff in Hfull as [Hl%Nat.leb_gt Ht%Nat.ltb_ge].
    destruct (IH (out ++ [x])) as (taken & rest & more & -> & -> & Hne & Hin & Hmore); [by right|].
    rewrite <- !app_assoc in *. exists (x :: taken), rest, more. split_and!; [done|done|by destruct out|done|done].
Qed.
End fill.
