(* ===== verification/HandleProps.v ===== *)
(** * vos: properties of the typed storage handles

    Sessions of a [StorageMap] across dispatches behave as a finite map, an
    insertion panics exactly when a row would exceed the size limit, iterators
    visit the entries in key order; [StorageSet] behaves as a finite set and
    [StorageVec] as a list; reply pages respect their bounds. *)

From Stdlib.Strings Require Byte.
From S2P Require Import Prelude Bytes Slices Overlay Handles HandleBytes HandleIndex HandleMap HandleVec.

Local Open Scope nat_scope.

(** ** Sessions *)

Inductive map_op (K V : Type) := OpInsert (key : K) (v : V) | OpRemove (key : K) | OpCommit.
Arguments OpInsert {K V}.
Arguments OpRemove {K V}.
Arguments OpCommit {K V}.

Section session.
Context {K : Type} `{FixedKey K} {key_le : relation K} `{!FixedKeyLaws K key_le}.
Context {V : Type} `{RowCodec V} `{!RowCodecLaws V}.
Context (prefix : bytes).

Notation w := (WIDTH K).
Notation host_of rows := (λ k, (rows : gmap bytes bytes) !! k).

(** The host's rows and the dispatch that runs on them; [OpCommit] ends a dispatch,
    lets the host apply its effects and starts the next. *)
Definition run_op (st : gmap bytes bytes * DispatchState) (op : map_op K V) : option (bool * (gmap bytes bytes * DispatchState)) :=
  let '(rows, s) := st in
  match op with
  | OpInsert key v => '(fresh, s) ← sm_insert (host_of rows) prefix key v s; Some (fresh, (rows, s))
  | OpRemove key => '(present, s) ← sm_remove (host_of rows) prefix key s; Some (present, (rows, s))
  | OpCommit => '(effects, s) ← end_dispatch s; Some (true, (commit_rows rows effects, s))
  end.

Fixpoint run_ops (st : gmap bytes bytes * DispatchState) (ops : list (map_op K V))
    : option (list bool * (gmap bytes bytes * DispatchState)) :=
  match ops with
  | [] => Some ([], st)
  | op :: ops => '(b, st) ← run_op st op; '(bs, st) ← run_ops st ops; Some (b :: bs, st)
  end.

(** The same operations on a finite map. *)
Definition model_op (m : gmap bytes V) (op : map_op K V) : bool * gmap bytes V :=
  match op with
  | OpInsert key v => (bool_decide (m !! write_to key = None), <[write_to key := v]> m)
  | OpRemove key => (bool_decide (is_Some (m !! write_to key)), delete (write_to key) m)
  | OpCommit => (true, m)
  end.

Fixpoint model_ops (m : gmap bytes V) (ops : list (map_op K V)) : list bool * gmap bytes V :=
  match ops with
  | [] => ([], m)
  | op :: ops => let '(b, m) := model_op m op in let '(bs, m) := model_ops m ops in (b :: bs, m)
  end.

Definition is_insert (op : map_op K V) : bool := match op with OpInsert _ _ => true | _ => false end.

Definition op_fits (op : map_op K V) : Prop :=
  match op with OpInsert _ v => length (row_encode v) ≤ MAX_VALUE_BYTES | _ => True end.

(** What holds between operations. *)
Record session_at (st : gmap bytes bytes * DispatchState) (es : list ientry) (m : gmap bytes V) : Prop := {
  se_host : host_ok (host_of st.1);
  se_ok : dispatch_ok (host_of st.1) st.2;
  se_map : map_at (host_of st.1) prefix (K:=K) st.2 es m;
}.

Context (Hpre : prefix ≠ []) (Hw : 0 < w ≤ PAGE_BYTES).

Lemma fresh_session (rows : gmap bytes bytes) :
  host_ok (host_of rows) → (∀ k, prefix `prefix_of` k → rows !! k = None) →
  session_at (rows, dispatch_new) (empty_index w) ∅.
Proof using Hw.
  intros Hh Hnone. split; [done|apply dispatch_new_ok|]. cbn [fst snd].
  assert (∀ t x, rows_at (host_of rows) dispatch_new (core_row prefix t x) = None) as Hrow.
  { intros t x. apply Hnone. by eexists. }
  split; [split; [split| |]|].
  - apply empty_index_wf.
  - unfold meta_row. rewrite Hrow. cbn [from_option id]. rewrite meta_empty_encode. done.
  - apply Forall_singleton. unfold page_row. by rewrite Hrow.
  - unfold MAX_VALUE_BYTES, META_HEADER, PAGE_BYTES in *. cbn [length empty_index]. lia.
  - intros k. rewrite lookup_empty. split; [by intros []%not_elem_of_nil|by intros [_ []]].
  - intros k _. unfold sm_value_row. by rewrite Hrow, lookup_empty.
  - intros k. rewrite lookup_empty. by intros [].
Qed.

Lemma run_op_ok st es m op :
  session_at st es m → op_fits op →
  (is_insert op = true → META_HEADER + S (length es) * (w + 4) ≤ MAX_VALUE_BYTES) →
  ∃ st' es', run_op st op = Some ((model_op m op).1, st') ∧ session_at st' es' (model_op m op).2 ∧
    length es' ≤ length es + (if is_insert op then 1 else 0).
Proof using Hpre Hw FixedKeyLaws0.
  destruct st as [rows s]. intros [Hh Hs Hm] Hfit Hroom. cbn [fst snd] in Hh, Hs, Hm.
  destruct op as [key v|key|]; cbn [run_op model_op fst snd is_insert].
  - destruct (insert_ok _ prefix Hh Hpre Hw s es m key v Hs Hm Hfit) as (s' & es' & Hrun & Hs' & Hm' & Hlen & _).
    { intros _. left. by apply Hroom. }
    exists (rows, s'), es'. split_and!; [by rewrite Hrun|by split|lia].
  - destruct (remove_map_ok _ prefix Hh Hpre Hw s es m key Hs Hm) as (s' & es' & Hrun & Hs' & Hm' & Hlen & _).
    exists (rows, s'), es'. split_and!; [by rewrite Hrun|by split|lia].
  - destruct (end_dispatch s) as [[effects s']|] eqn:Hend; [|done].
    destruct (commit_dispatch_ok rows s effects s' Hh Hs Hend) as (Hh' & Hs' & Hrows).
    eexists _, es. split_and!; [done|split; [done|done|]|lia]. cbn [fst snd].
    destruct Hm as [[[Hwf Hmeta Hpg Hsz] Hk Hr] Hwd]. split; [split; [split; [done| | |done]|done|]|done].
    + by rewrite Hrows.
    + by setoid_rewrite Hrows.
    + intros k Hl. by rewrite Hrows, Hr.
Qed.

Lemma run_ops_ok st es m ops :
  session_at st es m → Forall op_fits ops →
  META_HEADER + (length es + length (filter (λ op, is_insert op = true) ops)) * (w + 4) ≤ MAX_VALUE_BYTES →
  ∃ st' es', run_ops st ops = Some ((model_ops m ops).1, st') ∧ session_at st' es' (model_ops m ops).2.
Proof using Hpre Hw FixedKeyLaws0.
  intros Hse Hfit. revert st es m Hse. induction Hfit as [|op ops Hop _ IH]; intros st es m Hse Hroom; [by exists st, es|].
  rewrite filter_cons in Hroom. destruct (run_op_ok st es m op Hse Hop) as (st1 & es1 & Hr1 & Hse1 & Hlen).
  { intros Hi. rewrite decide_True in Hroom by done. cbn [length] in Hroom. etrans; [|exact Hroom].
    apply Nat.add_le_mono_l, Nat.mul_le_mono_r. lia. }
  destruct (IH st1 es1 _ Hse1) as (st2 & es2 & Hr2 & Hse2).
  { etrans; [|exact Hroom]. apply Nat.add_le_mono_l, Nat.mul_le_mono_r.
    destruct (is_insert op); [rewrite decide_True by done|rewrite decide_False by done]; cbn [length]; lia. }
  exists st2, es2. cbn [run_ops model_ops]. destruct (model_op m op) as [b m1] eqn:Hmo. cbn [fst snd] in Hr1, Hr2, Hse2.
  rewrite Hr1. cbn [mbind option_bind]. rewrite Hr2. cbn [mbind option_bind]. by destruct (model_ops m1 ops).
Qed.
End session.

(** Whether an iteration reaches a key. *)
Definition from_start {K} `{FixedKey K} (start : option K) (k : bytes) : bool :=
  match start with Some key => bool_decide (bytes_le (write_to key) k) | None => true end.

(** [iter] and [iter_from]. *)
Definition open_iter {K} `{FixedKey K} host prefix (start : option K) : dispatch StorageMapIter :=
  match start with Some key => iter_from host prefix key | None => iter host prefix (K:=K) end.

Lemma open_iter_ok {K} `{FixedKey K} {key_le} `{!FixedKeyLaws K key_le} host prefix s es (start : option K) :
  host_ok host → prefix ≠ [] → 0 < WIDTH K ≤ PAGE_BYTES → dispatch_ok host s → index_at host prefix (WIDTH K) s es →
  ∃ s' it, open_iter host prefix start s = Some (it, s') ∧ dispatch_ok host s' ∧ rows_at host s' = rows_at host s ∧
    iter_at (K:=K) es it (filter (λ k, from_start start k = true) (all_keys es)).
Proof.
  intros Hh Hpre Hw Hs Hix. unfold open_iter. destruct start as [key|].
  - destruct (iter_from_ok host prefix Hh Hpre Hw s es key Hs Hix) as (s' & it & Hrun & Hs' & Hrows & Hit).
    exists s', it. split_and!; [done..|]. unfold rest_of in Hit. erewrite list_filter_iff; [exact Hit|].
    intros k. cbn [from_start]. by rewrite bool_decide_eq_true.
  - destruct (iter_ok host prefix Hh Hpre Hw s es Hs Hix) as (s' & it & Hrun & Hs' & Hrows & Hit).
    exists s', it. split_and!; [done..|]. rewrite list_filter_all; [done|]. by apply Forall_true.
Qed.

Lemma StronglySorted_fmap_inv {A B} (R : relation B) (f : A → B) l :
  StronglySorted R (f <$> l) → StronglySorted (λ a b, R (f a) (f b)) l.
Proof.
  induction l as [|x l IH]; [constructor|]. cbn [fmap list_fmap]. rewrite !StronglySorted_cons, Forall_fmap. naive_solver.
Qed.

(** ** Properties *)

(** C22: any sequence of insertions, removals and dispatch boundaries on a fresh
    [StorageMap] runs without a panic, as long as values fit in a row and there
    are no more insertions than directory entries fit in the meta row; it returns
    what the same operations on a finite map return, and afterwards [get],
    [contains], [len] and [is_empty] read that finite map. *)
Theorem storage_map_sessions {K V} `{FixedKey K} {key_le} `{!FixedKeyLaws K key_le} `{RowCodec V} `{!RowCodecLaws V}
    prefix (rows : gmap bytes bytes) (ops : list (map_op K V)) :
  prefix ≠ [] → 0 < WIDTH K ≤ PAGE_BYTES → host_ok (λ k, rows !! k) → (∀ k, prefix `prefix_of` k → rows !! k = None) →
  Forall op_fits ops →
  META_HEADER + S (length (filter (λ op, is_insert op = true) ops)) * (WIDTH K + 4) ≤ MAX_VALUE_BYTES →
  let '(results, m) := model_ops ∅ ops in
  ∃ rows' s, run_ops prefix (rows, dispatch_new) ops = Some (results, (rows', s)) ∧
    (∀ key : K,
      fst <$> sm_get (λ k, rows' !! k) prefix (V:=V) key s = Some (m !! write_to key) ∧
      fst <$> sm_contains (λ k, rows' !! k) prefix key s = Some (bool_decide (is_Some (m !! write_to key)))) ∧
    fst <$> sm_len (λ k, rows' !! k) prefix s = Some (N.of_nat (size m)) ∧
    fst <$> sm_is_empty (λ k, rows' !! k) prefix s = Some (bool_decide (m = ∅)).
Proof.
  intros Hpre Hw Hh Hnone Hfit Hroom.
  destruct (run_ops_ok prefix Hpre Hw _ _ _ ops (fresh_session prefix Hw rows Hh Hnone) Hfit Hroom) as ([rows' s] & es & Hrun & [Hh' Hs Hm]).
  destruct (model_ops ∅ ops) as [results m]. cbn [fst snd] in *. exists rows', s. split; [done|].
  destruct (len_ok _ prefix Hh' Hpre Hw s es _ Hs (ma_keyed _ _ _ _ _ Hm)) as (s' & Hlen & _).
  rewrite (map_size _ _ _ _ _ Hm) in Hlen. split_and!.
  - intros key. destruct (get_ok _ prefix Hh' Hpre s es m key Hs Hm) as (s1 & -> & _).
    destruct (contains_ok _ prefix Hh' Hpre s es _ key Hs (ma_keyed _ _ _ _ _ Hm)) as (s2 & -> & _).
    split; [done|]. cbn. f_equal. apply bool_decide_ext. by rewrite fmap_is_Some.
  - by rewrite Hlen.
  - unfold sm_is_empty. rewrite (bind_run _ _ _ _ _ Hlen).
    cbn [fmap option_fmap option_map fst mret dispatch_ret]. f_equal. pose proof (map_size_empty_iff m) as Hz.
    destruct (N.eqb_spec (N.of_nat (size m)) 0); case_bool_decide as Hb; [done|destruct Hb; apply Hz; lia|apply Hz in Hb; lia|done].
Qed.

(** from a well-formed map, an insertion panics exactly when the value exceeds
    the row limit, or the key is new, its page is full and the directory row has
    no room for another page; pages are never merged, so the last case depends on
    the history of the map and not on its size. *)
Theorem storage_map_insert_panics {K V} `{FixedKey K} {key_le} `{!FixedKeyLaws K key_le} `{RowCodec V} `{!RowCodecLaws V}
    host prefix s es (m : gmap bytes V) (key : K) (v : V) :
  host_ok host → prefix ≠ [] → 0 < WIDTH K ≤ PAGE_BYTES → dispatch_ok host s → map_at host prefix (K:=K) s es m →
  let kb := write_to key in
  sm_insert host prefix key v s = None ↔
    MAX_VALUE_BYTES < length (row_encode v) ∨
    (m !! kb = None ∧ MAX_VALUE_BYTES < META_HEADER + S (length es) * (WIDTH K + 4) ∧
     ∃ e, page_of es kb = Some e ∧ PAGE_BYTES / WIDTH K ≤ length (ie_keys e)).
Proof.
  intros Hh Hpre Hw Hs Hm kb.
  assert (¬ has_room (WIDTH K) es kb ↔ MAX_VALUE_BYTES < META_HEADER + S (length es) * (WIDTH K + 4) ∧
          ∃ e, page_of es kb = Some e ∧ PAGE_BYTES / WIDTH K ≤ length (ie_keys e)) as Hiff.
  { unfold has_room. destruct (page_of es kb) as [e|]; split.
    - intros Hn. split; [apply Nat.nle_gt; tauto|]. exists e. split; [done|]. apply Nat.nlt_ge. intros Hlt.
      apply Hn. right. by intros ? [= <-].
    - intros [Hd (? & [= <-] & He)] [?|Hp]; [lia|]. specialize (Hp e eq_refl). lia.
    - intros Hn. destruct Hn. by right.
    - intros [_ (? & ? & _)]. done. }
  rewrite <- Hiff. split.
  - intros Hnone. apply dec_stable. intros Hok.
    destruct (insert_ok host prefix Hh Hpre Hw s es m key v Hs Hm) as (s' & es' & Hrun & _); [apply Nat.nlt_ge; tauto| |].
    + intros Hf. apply dec_stable. fold kb in Hf |- *. tauto.
    + congruence.
  - intros Hbad. apply (insert_panics host prefix Hh Hpre Hw s es m key v Hs Hm). fold kb. tauto.
Qed.

(** iterating over a [StorageMap] visits each entry of the map once, in the
    order of the keys, starting at the first key that is not below the start for
    [iter_from]; it changes nothing. *)
Theorem storage_map_iteration {K V} `{FixedKey K} {key_le} `{!FixedKeyLaws K key_le} `{RowCodec V} `{!RowCodecLaws V}
    host prefix s es (m : gmap bytes V) (start : option K) :
  host_ok host → prefix ≠ [] → 0 < WIDTH K ≤ PAGE_BYTES → dispatch_ok host s → map_at host prefix (K:=K) s es m →
  ∃ it s1 out s2, open_iter host prefix start s = Some (it, s1) ∧
    drain host prefix (S (size m)) it s1 = Some (out, s2) ∧ rows_at host s2 = rows_at host s ∧
    (λ e, (write_to e.1, Some e.2)) <$> out =
      (λ k, (k, m !! k)) <$> filter (λ k, from_start start k = true) (sorted_keys bytes_le m) ∧
    StronglySorted (λ a b, key_le a.1 b.1 ∧ ¬ key_le b.1 a.1) out.
Proof.
  intros Hh Hpre Hw Hs Hm. pose proof (ka_index _ _ _ _ _ (ma_keyed _ _ _ _ _ Hm)) as Hix.
  destruct (open_iter_ok host prefix s es start Hh Hpre Hw Hs Hix) as (s1 & it & Hopen & Hs1 & Hrows1 & Hit).
  rewrite <- (map_keys _ _ _ _ _ Hm). set (rest := filter _ (all_keys es)) in *.
  destruct (drain_ok host prefix Hh Hpre Hw s1 es m it rest (S (size m))) as (s2 & out & Hdrain & Hs2 & Hrows2 & Hout).
  { done. } { by eapply map_at_rows. } { done. } { intros k Hk. by apply list_elem_of_filter in Hk as [_ ?]. }
  { rewrite <- (map_size _ _ _ _ _ Hm). pose proof (length_filter (λ k, from_start start k = true) (all_keys es)). unfold rest. lia. }
  exists it, s1, out, s2. split_and!; [done|done|congruence|done|].
  assert (StronglySorted bytes_lt rest) as Hsorted.
  { apply StronglySorted_filter. destruct (ia_wf _ _ _ _ _ Hix). by eapply all_keys_sorted. }
  replace rest with ((λ e : K * V, write_to e.1) <$> out) in Hsorted.
  2:{ apply (f_equal (fmap fst)) in Hout. rewrite <- !list_fmap_compose in Hout. cbn in Hout.
      etrans; [exact Hout|]. by apply list_fmap_id. }
  apply StronglySorted_fmap_inv in Hsorted. eapply StronglySorted_impl_in; [|exact Hsorted].
  intros a b _ _ [Hab Hba]. by rewrite !write_to_le in Hab, Hba.
Qed.

(** a [StorageSet] behaves as a finite set of keys: [contains] and [len] read
    it, [insert] and [remove] change it and report whether they did; insertion of
    a new key needs room in the directory or on its page. *)
Theorem storage_set_operations {K} `{FixedKey K} {key_le} `{!FixedKeyLaws K key_le} host prefix s es (X : gset bytes) (key : K) :
  host_ok host → prefix ≠ [] → 0 < WIDTH K ≤ PAGE_BYTES → dispatch_ok host s → set_at host prefix (K:=K) s es X →
  let kb := write_to key in
  fst <$> ss_contains host prefix key s = Some (bool_decide (kb ∈ X)) ∧
  fst <$> ss_len host prefix s = Some (N.of_nat (size X)) ∧
  ((kb ∉ X → has_room (WIDTH K) es kb) →
   ∃ s' es', ss_insert host prefix key s = Some (bool_decide (kb ∉ X), s') ∧ dispatch_ok host s' ∧
     set_at host prefix (K:=K) s' es' ({[ kb ]} ∪ X) ∧ length es' ≤ S (length es)) ∧
  ∃ s' es', ss_remove host prefix key s = Some (bool_decide (kb ∈ X), s') ∧ dispatch_ok host s' ∧
    set_at host prefix (K:=K) s' es' (X ∖ {[ kb ]}) ∧ length es' = length es.
Proof.
  intros Hh Hpre Hw Hs HX kb. split_and!.
  - destruct (contains_ok host prefix Hh Hpre s es _ key Hs (sa_keyed _ _ _ _ _ HX)) as (s' & Hrun & _).
    unfold ss_contains. rewrite Hrun. cbn [fmap option_fmap option_map fst]. f_equal. apply bool_decide_ext. cbv beta. fold kb.
    destruct (decide (kb ∈ X)); [split; [done|by intros _; eexists]|split; [by intros []|done]].
  - destruct (len_ok host prefix Hh Hpre Hw s es _ Hs (sa_keyed _ _ _ _ _ HX)) as (s' & Hrun & _).
    unfold ss_len. by rewrite Hrun, (set_size _ _ _ _ _ HX).
  - intros Hroom. destruct (set_insert_ok host prefix Hh Hpre Hw s es X key Hs HX Hroom) as (s' & es' & Hrun & Hs' & HX' & Hlen & _).
    exists s', es'. split_and!; [done|done|done|lia].
  - destruct (set_remove_ok host prefix Hh Hpre Hw s es X key Hs HX) as (s' & es' & Hrun & Hs' & HX' & Hlen & _).
    by exists s', es'.
Qed.

(** a [StorageVec] behaves as a list: [get] reads an index, [iter] reads it
    all, [set] replaces an element and panics past the end, [push] appends,
    [swap_remove] returns an element and moves the last one into its place. *)
Theorem storage_vec_operations {T} `{RowCodec T} `{!RowCodecLaws T} host prefix s (l : list T) (idx : N) (x : T) :
  host_ok host → prefix ≠ [] → dispatch_ok host s → vec_at host prefix s l →
  (idx < u64_modulus)%N → length (row_encode x) ≤ MAX_VALUE_BYTES → (N.of_nat (length l) + 1 < u64_modulus)%N →
  fst <$> vec_get host prefix idx s = Some (l !! N.to_nat idx) ∧
  fst <$> vec_iter host prefix s = Some l ∧
  (if decide (idx < N.of_nat (length l))%N
   then ∃ s', vec_set host prefix idx x s = Some (tt, s') ∧ dispatch_ok host s' ∧ vec_at host prefix s' (<[N.to_nat idx := x]> l)
   else vec_set host prefix idx x s = None) ∧
  (∃ s', vec_push host prefix x s = Some (tt, s') ∧ dispatch_ok host s' ∧ vec_at host prefix s' (l ++ [x])) ∧
  ∃ s', swap_remove host prefix idx s = Some (l !! N.to_nat idx, s') ∧ dispatch_ok host s' ∧
    vec_at host prefix s' (if decide (idx < N.of_nat (length l))%N then swap_removed (N.to_nat idx) l else l).
Proof.
  intros Hh Hpre Hs Hv Hi Hx Hlen. split_and!.
  - by destruct (vec_get_ok host Hh prefix Hpre s l idx Hs Hv Hi) as (s' & -> & _).
  - by destruct (vec_iter_ok host Hh prefix Hpre s l Hs Hv) as (s' & -> & _).
  - case_decide; [by apply vec_set_ok|]. eapply vec_set_panics; [done|done|done|done|lia].
  - by apply vec_push_ok.
  - case_decide; [by apply swap_remove_ok|].
    destruct (swap_remove_none host Hh prefix Hpre s l idx Hs Hv ltac:(lia)) as (s' & Hrun & Hs' & Hrows).
    exists s'. rewrite lookup_ge_None_2 by lia. split_and!; [done|done|by eapply vec_at_rows].
Qed.

(** a reply page is a prefix of the items it is filled from, not empty when
    there are any, of at most [max_rows] rows and [byte_budget] encoded bytes,
    except that a first row is always taken; a page that reports no more items
    holds them all, and one that reports more was closed by one of its bounds. *)
Theorem fill_page_bounds {T} `{RowCodec T} (items : list T) (max_rows byte_budget : nat) :
  let size := λ item : T, length (row_encode item) in
  let '(out, more) := fill_page items max_rows byte_budget in
  ∃ rest, items = out ++ rest ∧ (items ≠ [] → out ≠ []) ∧
    length out ≤ max 1 max_rows ∧ (length out = 1 ∨ total size out ≤ byte_budget) ∧
    if more then page_closed size max_rows byte_budget out rest else rest = [].
Proof.
  intros size. unfold fill_page. fold size.
  destruct (fill_loop_spec size max_rows byte_budget items []) as (taken & rest & more & Hrun & Hitems & Hne & [Hrows Hbytes] & Hmore);
    [by left|].
  change (total size []) with 0 in Hrun. rewrite Hrun. cbn [app] in *. by exists rest.
Qed.

(** ** Witnesses *)

#[local] Instance raw_codec : RowCodec bytes := {| row_encode b := b; try_decode := Some |}.
#[local] Instance raw_codec_laws : RowCodecLaws bytes.
Proof. by split. Qed.

Ltac by_size := apply Nat.leb_le; vm_compute; reflexivity.

Definition sample_key (n : N) : uint 2 := default (dexist 0%N eq_refl) (refine (λ v, (v < int_modulus 2)%N) n).
Definition sample_prefix : bytes := [Byte.x73].
Definition sample_ops : list (map_op (uint 2) bytes) :=
  [OpInsert (sample_key 300) [Byte.x01]; OpCommit; OpInsert (sample_key 7) [Byte.x02]; OpRemove (sample_key 300); OpRemove (sample_key 9)].

Lemma sample_width : 0 < WIDTH (uint 2) ≤ PAGE_BYTES.
Proof. unfold PAGE_BYTES. cbn. lia. Qed.

Lemma sample_host : host_ok (λ k, (∅ : gmap bytes bytes) !! k).
Proof. intros k v. by rewrite lookup_empty. Qed.

Lemma sample_session : session_at (K:=uint 2) (V:=bytes) sample_prefix (∅, dispatch_new) (empty_index 2) ∅.
Proof.
  apply (fresh_session (K:=uint 2) (V:=bytes) sample_prefix sample_width ∅ sample_host). intros k _. apply lookup_empty.
Qed.

Lemma sample_inserted :
  ∃ s es, session_at (K:=uint 2) sample_prefix (∅, s) es {[ write_to (sample_key 300) := [Byte.x01] ]}.
Proof.
  destruct (run_op_ok (K:=uint 2) sample_prefix ltac:(done) sample_width _ _ _ (OpInsert (sample_key 300) [Byte.x01]) sample_session)
    as ([rows s] & es & Hrun & Hse & _).
  - change (length [Byte.x01] ≤ MAX_VALUE_BYTES). by_size.
  - intros _. by_size.
  - exists s, es. cbn [run_op model_op fst snd] in Hrun, Hse. destruct (sm_insert _ _ _ _ _) as [[b s']|]; [|done].
    cbn in Hrun. injection Hrun as _ <- <-. exact Hse.
Qed.

Lemma sample_fits : Forall op_fits sample_ops.
Proof. unfold sample_ops. repeat (apply Forall_cons; split; [done || (unfold op_fits; by_size)|]). apply Forall_nil_2. Qed.

Lemma storage_map_sessions_witness :
  ∃ rows' s, run_ops sample_prefix (∅, dispatch_new) sample_ops = Some ([true; true; true; true; false], (rows', s)) ∧
    fst <$> sm_len (λ k, rows' !! k) sample_prefix s = Some 1%N.
Proof.
  pose proof (storage_map_sessions sample_prefix ∅ sample_ops ltac:(done) sample_width sample_host
    ltac:(intros k _; apply lookup_empty) sample_fits
    ltac:(by_size)) as Hrun.
  destruct (model_ops ∅ sample_ops) as [results m] eqn:Hm. destruct Hrun as (rows' & s & Hrun & _ & Hlen & _).
  assert (results = [true; true; true; true; false]) as ->.
  { transitivity (fst (model_ops ∅ sample_ops)); [by rewrite Hm|]. vm_compute. reflexivity. }
  assert (size m = 1) as Hsize.
  { transitivity (size (snd (model_ops ∅ sample_ops))); [by rewrite Hm|]. vm_compute. reflexivity. }
  exists rows', s. rewrite Hsize in Hlen. split; [exact Hrun|exact Hlen].
Defined.

Lemma storage_map_insert_panics_witness :
  sm_insert (λ k, (∅ : gmap bytes bytes) !! k) sample_prefix (sample_key 7) (replicate (S MAX_VALUE_BYTES) Byte.x00) dispatch_new = None.
Proof.
  destruct sample_session as [Hh Hs Hm].
  apply (storage_map_insert_panics _ sample_prefix dispatch_new (empty_index 2) ∅ (sample_key 7) _ Hh ltac:(done) sample_width Hs Hm).
  left. cbn [row_encode raw_codec]. rewrite length_replicate. lia.
Defined.

Lemma storage_map_iteration_witness :
  ∃ s it s1 (out : list (uint 2 * bytes)) s2, open_iter (λ k, (∅ : gmap bytes bytes) !! k) sample_prefix (Some (sample_key 7)) s = Some (it, s1) ∧
    drain (λ k, (∅ : gmap bytes bytes) !! k) sample_prefix 2 it s1 = Some (out, s2) ∧
    (λ e, (write_to e.1, Some e.2)) <$> out = [(write_to (sample_key 300), Some [Byte.x01])].
Proof.
  destruct sample_inserted as (s & es & [Hh Hs Hm]).
  destruct (storage_map_iteration _ sample_prefix s es _ (Some (sample_key 7)) Hh ltac:(done) sample_width Hs Hm)
    as (it & s1 & out & s2 & Hopen & Hdrain & _ & Hout & _).
  exists s, it, s1, out, s2. split; [done|]. split; [by rewrite map_size_singleton in Hdrain|].
  etrans; [exact Hout|]. vm_compute. reflexivity.
Defined.

Lemma storage_set_operations_witness :
  fst <$> ss_len (λ k, (∅ : gmap bytes bytes) !! k) sample_prefix dispatch_new = Some 0%N ∧
  ∃ s', ss_insert (λ k, (∅ : gmap bytes bytes) !! k) sample_prefix (sample_key 7) dispatch_new = Some (true, s').
Proof.
  destruct sample_session as [Hh Hs [[Hix Hk Hr] _]].
  destruct (storage_set_operations _ sample_prefix dispatch_new (empty_index 2) ∅ (sample_key 7) Hh ltac:(done) sample_width Hs)
    as (_ & Hlen & Hins & _).
  - split; [split; [done|intros k; rewrite Hk, lookup_empty; by rewrite decide_False by set_solver|]|set_solver].
    intros k Hl. rewrite Hr, lookup_empty by done. by rewrite decide_False by set_solver.
  - split; [exact Hlen|]. destruct Hins as (s' & _ & Hrun & _); [|by exists s'].
    intros _. left. by_size.
Defined.

Lemma storage_vec_operations_witness :
  vec_set (λ k, (∅ : gmap bytes bytes) !! k) sample_prefix 0 [Byte.x01] dispatch_new = None ∧
  ∃ s', vec_push (λ k, (∅ : gmap bytes bytes) !! k) sample_prefix [Byte.x01] dispatch_new = Some (tt, s').
Proof.
  destruct (storage_vec_operations _ sample_prefix dispatch_new [] 0%N [Byte.x01] sample_host ltac:(done) (dispatch_new_ok _))
    as (_ & _ & Hset & (s' & Hpush & _) & _).
  - split; [by right|intros i _; by rewrite lookup_nil|done].
  - done.
  - by_size.
  - done.
  - rewrite decide_False in Hset by (cbn; lia). split; [exact Hset|by exists s'].
Defined.
