(* ===== verification/Parser.v ===== *)
(** * Cursor parsers

    Code that reads a buffer through a position ([take(buf, &mut pos, n)],
    [read_u64(buf, &mut pos)]) is a function from what is left of the buffer to a
    value and what is left after it; [None] is a refusal.

    [exactly p P]: [p] accepts exactly the byte strings [w] with [P w x], consuming
    [w] and returning [x].  [exactly_bind] composes it; [encodes p ok enc] is the
    case of one encoding per value, as [encodes_items] and the codecs use it. *)

From Stdlib.Strings Require Byte.
From S2P Require Import Prelude Bytes.

Local Open Scope nat_scope.

Definition parser (A : Type) : Type := bytes → option (A * bytes).

#[export] Instance parser_ret : MRet parser := λ _ x b, Some (x, b).
#[export] Instance parser_bind : MBind parser := λ _ _ k p b,
  match p b with Some (x, r) => k x r | None => None end.

Definition refuse {A} : parser A := λ _, None.

(** [take]: the next [n] bytes. *)
Definition p_take (n : N) : parser bytes := λ b,
  if (n <=? blen b)%N then Some (take (N.to_nat n) b, drop (N.to_nat n) b) else None.

Definition p_uint (w : nat) : parser N := b ← p_take (N.of_nat w); mret (from_le_bytes b).
Definition p_byte : parser Byte.byte := λ b, match b with x :: r => Some (x, r) | [] => None end.

(** What is left, without consuming it. *)
Definition p_left : parser N := λ b, Some (blen b, b).

Fixpoint p_items {A} (p : parser A) (n : nat) : parser (list A) :=
  match n with
  | O => mret []
  | S n => x ← p; xs ← p_items p n; mret (x :: xs)
  end.

(** A whole buffer. *)
Definition p_all {A} (p : parser A) (b : bytes) : option A :=
  match p b with Some (x, []) => Some x | _ => None end.

(** ** What a parser accepts *)

Definition exactly {A} (p : parser A) (P : bytes → A → Prop) : Prop :=
  ∀ b x r, p b = Some (x, r) ↔ ∃ w, b = w ++ r ∧ P w x.

Definition encodes {A} (p : parser A) (ok : A → Prop) (enc : A → bytes) : Prop :=
  exactly p (λ w x, ok x ∧ w = enc x).

Lemma exactly_ext {A} (p : parser A) P Q : (∀ w x, P w x ↔ Q w x) → exactly p P → exactly p Q.
Proof. intros HPQ Hp b x r. rewrite (Hp b x r). by setoid_rewrite HPQ. Qed.

Lemma exactly_ret {A} (x : A) : exactly (mret x) (λ w y, w = [] ∧ y = x).
Proof.
  intros b y r. unfold mret, parser_ret. split; [intros [= -> ->]; by exists []|]. by intros (w & -> & -> & ->).
Qed.

Lemma exactly_refuse {A} (P : bytes → A → Prop) : (∀ w x, ¬ P w x) → exactly refuse P.
Proof. intros HP b x r. split; [done|]. intros (w & _ & Hw). by destruct (HP w x). Qed.

Lemma exactly_bind {A B} (p : parser A) (k : A → parser B) P Q :
  exactly p P → (∀ w x, P w x → exactly (k x) (Q x)) →
  exactly (p ≫= k) (λ w y, ∃ w1 w2 x, w = w1 ++ w2 ∧ P w1 x ∧ Q x w2 y).
Proof.
  intros Hp Hk b y r. unfold mbind, parser_bind. split.
  - destruct (p b) as [[x r1]|] eqn:Hb; [|done]. apply Hp in Hb as (w1 & -> & Hw1). intros Hy.
    apply (Hk w1 x Hw1) in Hy as (w2 & -> & Hw2). exists (w1 ++ w2). split; [by rewrite app_assoc|]. eauto 6.
  - intros (w & -> & w1 & w2 & x & -> & HP & HQ). rewrite <- app_assoc.
    assert (p (w1 ++ w2 ++ r) = Some (x, w2 ++ r)) as -> by (apply Hp; eauto). apply (Hk w1 x HP). eauto.
Qed.

(** A field with one encoding per value, then the rest. *)
Lemma encodes_bind {A B} (p : parser A) (k : A → parser B) ok enc Q :
  encodes p ok enc → (∀ x, ok x → exactly (k x) (Q x)) →
  exactly (p ≫= k) (λ w y, ∃ x w2, ok x ∧ w = enc x ++ w2 ∧ Q x w2 y).
Proof.
  intros Hp Hk. eapply exactly_ext; [|eapply exactly_bind; [exact Hp|]; by intros w x [Hx _]; apply Hk].
  intros w y. split.
  - intros (w1 & w2 & x & -> & [Hx ->] & HQ). eauto 6.
  - intros (x & w2 & Hx & -> & HQ). eauto 7.
Qed.

Lemma exactly_take n : exactly (p_take n) (λ w x, blen w = n ∧ x = w).
Proof.
  intros b x r. unfold p_take. split.
  - destruct (N.leb_spec n (blen b)) as [Hn|]; [|done]. intros [= <- <-]. exists (take (N.to_nat n) b).
    rewrite take_drop. split_and!; [done| |done]. unfold blen in *. rewrite length_take. lia.
  - intros (w & -> & Hn & ->). rewrite blen_app, (proj2 (N.leb_le _ _)) by lia. unfold blen in Hn.
    by rewrite take_app_length', drop_app_length' by lia.
Qed.

Lemma encodes_take n : encodes (p_take n) (λ w, blen w = n) id.
Proof. eapply exactly_ext; [|apply exactly_take]. intros w x. split; intros [Hx ->]; (split; [|done]); by subst. Qed.

Lemma encodes_uint w : encodes (p_uint w) (λ v, (v < int_modulus w)%N) (to_le_bytes w).
Proof.
  eapply exactly_ext; [|eapply exactly_bind; [apply exactly_take|]; intros b x _; apply exactly_ret]. intros b v. split.
  - intros (w1 & w2 & x & -> & [Hw ->] & -> & ->). rewrite app_nil_r. unfold blen in Hw.
    assert (length w1 = w) as <- by lia. split; [apply from_le_bytes_lt|by rewrite to_from_le_bytes].
  - intros [Hv ->]. exists (to_le_bytes w v), [], (to_le_bytes w v). rewrite app_nil_r.
    split_and!; [done|unfold blen; by rewrite length_to_le_bytes|done|done|by rewrite from_to_le_bytes].
Qed.

Lemma encodes_byte : encodes p_byte (λ _, True) (λ x, [x]).
Proof.
  intros b x r. unfold p_byte. split.
  - destruct b as [|y b]; [done|]. intros [= -> ->]. exists [x]. done.
  - by intros (w & -> & _ & ->).
Qed.

Lemma encodes_items {A} (p : parser A) ok enc n :
  encodes p ok enc → encodes (p_items p n) (λ xs, length xs = n ∧ Forall ok xs) (mbind enc).
Proof.
  intros Hp. induction n as [|n IH]; cbn [p_items].
  - eapply exactly_ext; [|apply exactly_ret]. intros w xs. split; [by intros [-> ->]|].
    intros [[Hn _] ->]. by apply length_zero_iff_nil in Hn as ->.
  - eapply exactly_ext; [|eapply encodes_bind; [exact Hp|]; intros x _; eapply encodes_bind; [exact IH|]; intros xs _; apply exactly_ret].
    intros w ys. split.
    + intros (x & w2 & Hx & -> & xs & w3 & [Hn Hxs] & -> & -> & ->). rewrite app_nil_r. split; [|done].
      split; [by rewrite <- Hn|by constructor].
    + intros [[Hn Hall] ->]. destruct Hall as [|x xs Hx Hxs]; [done|]. injection Hn as Hn.
      exists x, (xs ≫= enc). split_and!; [done|done|]. exists xs, []. rewrite app_nil_r. done.
Qed.

(** A bound on a count that every input with that many items meets does not
    change what is accepted. *)
Lemma exactly_guard {A} (p : parser A) P (c : N → bool) :
  exactly p P → (∀ w x r, P w x → c (blen (w ++ r)) = false) →
  exactly (n ← p_left; if c n then refuse else p) P.
Proof.
  intros Hp Hc b x r. unfold mbind, parser_bind, p_left. split.
  - destruct (c (blen b)) eqn:Hcb; [done|]. apply Hp.
  - intros Hw. pose proof Hw as (w & -> & HP). rewrite (Hc w x r HP). by apply Hp.
Qed.

Lemma p_all_spec {A} (p : parser A) P b x : exactly p P → p_all p b = Some x ↔ P b x.
Proof.
  intros Hp. unfold p_all. split.
  - destruct (p b) as [[y [|? ?]]|] eqn:Hb; [|done|done]. intros [= ->]. apply Hp in Hb as (w & -> & HP). by rewrite app_nil_r.
  - intros HP. assert (p b = Some (x, [])) as -> by (apply Hp; exists b; by rewrite app_nil_r). done.
Qed.
