(* ===== verification/EffectLog.v ===== *)
(** * vos: effect logs and CRDT events

    [vos/src/effect_log.rs].  An [EffectLog] is the message of a dispatch, the
    replies its handler saw, and what replay needs to reproduce it; a [CrdtEvent]
    tags it with its producer and a sequence number.  Recording sessions build a
    log, replays walk it.

    [from_bytes_spec] says which byte strings decode to a log: its encoding, and
    for the zero invocation identity also the encoding with an explicit zero
    extension.  Fixed arrays are byte strings of their length ([log_ok]); [usize] is
    taken as 64 bits wide. *)

From Stdlib.Strings Require Byte.
From stdpp Require Import strings.
From S2P Require Import Prelude Bytes Blake2b V2Wire V2Identity Parser.

Local Open Scope nat_scope.

Definition ANCHOR_UNRECORDED : Byte.byte := Byte.xff.
Definition CALLER_SYSTEM : bytes := [Byte.x01; Byte.x00; Byte.x00; Byte.x00; Byte.x00].
Definition INVOCATION_ID_EXTENSION : Byte.byte := Byte.x01.
Definition DEFAULT_REPLY_CAP : nat := 16 * 1024.

Record InvokeEffects := mkInvokeEffects {
  ife_reply_idx : N;
  ife_svc_id : N;
  ife_effects : bytes;
}.

Record EffectLog := mkEffectLog {
  el_msg : bytes;
  el_replies : list bytes;
  el_anchor_kind : Byte.byte;
  el_anchor : bytes;
  el_caller_prefix : bytes;
  el_invoke_effects : list InvokeEffects;
  el_invocation_id : InvocationId;
}.

Definition for_msg (msg : bytes) : EffectLog :=
  mkEffectLog msg [] ANCHOR_UNRECORDED (zeros 32) CALLER_SYSTEM [] ZERO.

Definition set_anchor (kind : Byte.byte) (anchor : bytes) (l : EffectLog) : EffectLog :=
  mkEffectLog (el_msg l) (el_replies l) kind anchor (el_caller_prefix l) (el_invoke_effects l) (el_invocation_id l).
Definition set_caller_prefix (prefix : bytes) (l : EffectLog) : EffectLog :=
  mkEffectLog (el_msg l) (el_replies l) (el_anchor_kind l) (el_anchor l) prefix (el_invoke_effects l) (el_invocation_id l).
Definition set_invocation_id (id : InvocationId) (l : EffectLog) : EffectLog :=
  mkEffectLog (el_msg l) (el_replies l) (el_anchor_kind l) (el_anchor l) (el_caller_prefix l) (el_invoke_effects l) id.
Definition record_reply (reply : bytes) (l : EffectLog) : EffectLog :=
  mkEffectLog (el_msg l) (el_replies l ++ [reply]) (el_anchor_kind l) (el_anchor l) (el_caller_prefix l)
    (el_invoke_effects l) (el_invocation_id l).
Definition push_invoke_effects (e : InvokeEffects) (l : EffectLog) : EffectLog :=
  mkEffectLog (el_msg l) (el_replies l) (el_anchor_kind l) (el_anchor l) (el_caller_prefix l)
    (el_invoke_effects l ++ [e]) (el_invocation_id l).

Definition is_effectful (l : EffectLog) : bool := negb (length (el_replies l) =? 0).
Definition reply_count (l : EffectLog) : nat := length (el_replies l).

(** ** The byte format *)

Definition enc_len (n : nat) : bytes := to_le_bytes 8 (N.of_nat n).
Definition enc_reply (r : bytes) : bytes := enc_len (length r) ++ r.
Definition enc_invoke (e : InvokeEffects) : bytes :=
  to_le_bytes 8 (ife_reply_idx e) ++ to_le_bytes 4 (ife_svc_id e) ++ enc_len (length (ife_effects e)) ++ ife_effects e.
Definition enc_counted {A} (enc : A → bytes) (xs : list A) : bytes := enc_len (length xs) ++ (xs ≫= enc).

Definition head_bytes (l : EffectLog) : bytes :=
  enc_reply (el_msg l) ++ enc_counted enc_reply (el_replies l) ++ el_anchor_kind l :: el_anchor l ++ el_caller_prefix l
    ++ enc_counted enc_invoke (el_invoke_effects l).

Definition log_to_bytes (l : EffectLog) : bytes :=
  head_bytes l ++
  (if decide (el_invocation_id l = ZERO) then [] else INVOCATION_ID_EXTENSION :: el_invocation_id l).

Definition p_counted {A} (p : parser A) (per : N) : parser (list A) :=
  n ← p_uint 8;
  left ← p_left;
  if (left / per <? n)%N then refuse else p_items p (N.to_nat n).

Definition p_reply : parser bytes := len ← p_uint 8; p_take len.
Definition p_invoke : parser InvokeEffects :=
  reply_idx ← p_uint 8;
  svc_id ← p_uint 4;
  len ← p_uint 8;
  effects ← p_take len;
  mret (mkInvokeEffects reply_idx svc_id effects).

Definition p_head : parser EffectLog :=
  msg ← p_reply;
  replies ← p_counted p_reply 8;
  anchor_kind ← p_byte;
  anchor ← p_take 32;
  caller_prefix ← p_take 5;
  invoke_effects ← p_counted p_invoke 20;
  mret (mkEffectLog msg replies anchor_kind anchor caller_prefix invoke_effects ZERO).

(** The trailing extension, to the end of the buffer. *)
Definition parse_invocation (rest : bytes) : option InvocationId :=
  match rest with
  | [] => Some ZERO
  | tag :: rest =>
      if decide (tag = INVOCATION_ID_EXTENSION)
      then match p_take 32 rest with Some (id, []) => Some id | _ => None end
      else None
  end.

Definition log_from_bytes (b : bytes) : option EffectLog :=
  '(l, rest) ← p_head b;
  id ← parse_invocation rest;
  Some (set_invocation_id id l).

(** ** CRDT events *)

Record CrdtEvent := mkCrdtEvent {
  ce_origin : bytes;
  ce_seq : N;
  ce_log : EffectLog;
}.

Definition CRDT_EVENT_VERSION : Byte.byte := Byte.x01.

Definition invocation_id_for (origin : bytes) (seq : N) : InvocationId :=
  derive (b# "vos/crdt-event/v2") (origin ++ to_le_bytes 8 seq).

Definition crdt_event_new (origin : bytes) (seq : N) (log : EffectLog) : CrdtEvent :=
  mkCrdtEvent origin seq (set_invocation_id (invocation_id_for origin seq) log).

Definition event_to_bytes (e : CrdtEvent) : bytes :=
  CRDT_EVENT_VERSION :: ce_origin e ++ to_le_bytes 8 (ce_seq e) ++ log_to_bytes (ce_log e).

Definition event_from_bytes (b : bytes) : option CrdtEvent :=
  if (length b <? 1 + 32 + 8) then None
  else
    match b with
    | version :: b =>
        if decide (version = CRDT_EVENT_VERSION) then
          let origin := take 32 b in
          let seq := from_le_bytes (take 8 (drop 32 b)) in
          log ← log_from_bytes (drop 40 b);
          let expected := invocation_id_for origin seq in
          if decide (el_invocation_id log ≠ ZERO ∧ el_invocation_id log ≠ expected) then None
          else Some (crdt_event_new origin seq log)
        else None
    | [] => None
    end.

(** ** Recording and replaying *)

Record EffectSession := mkSession {
  es_log : EffectLog;
  es_cap : nat;
  es_private_record_rejected : bool;
}.

Definition session_new (msg : bytes) : EffectSession := mkSession (for_msg msg) DEFAULT_REPLY_CAP false.
Definition with_cap (cap : nat) (s : EffectSession) : EffectSession :=
  mkSession (es_log s) cap (es_private_record_rejected s).
Definition record (reply : bytes) (s : EffectSession) : EffectSession :=
  mkSession (record_reply reply (es_log s)) (es_cap s) (es_private_record_rejected s).
Definition record_invoke_effects (svc_id : N) (effects : bytes) (s : EffectSession) : EffectSession :=
  mkSession (push_invoke_effects (mkInvokeEffects (N.of_nat (length (el_replies (es_log s)))) svc_id effects) (es_log s))
    (es_cap s) (es_private_record_rejected s).
Definition session_into_log (s : EffectSession) : EffectLog := es_log s.

Record EffectReplay := mkReplay {
  er_log : EffectLog;
  er_pos : nat;
  er_exhausted : bool;
  er_private_record_rejected : bool;
}.

Definition replay_new (log : EffectLog) : EffectReplay := mkReplay log 0 false false.

Definition next_reply (r : EffectReplay) : option bytes * EffectReplay :=
  match el_replies (er_log r) !! er_pos r with
  | None => (None, mkReplay (er_log r) (er_pos r) true (er_private_record_rejected r))
  | Some reply => (Some reply, mkReplay (er_log r) (S (er_pos r)) (er_exhausted r) (er_private_record_rejected r))
  end.

Definition effects_for (r : EffectReplay) (idx : nat) : list InvokeEffects :=
  filter (λ e, N.to_nat (ife_reply_idx e) = idx) (el_invoke_effects (er_log r)).

Definition is_complete (r : EffectReplay) : bool :=
  negb (er_exhausted r) && negb (er_private_record_rejected r) && (er_pos r =? length (el_replies (er_log r))).

Inductive EffectMode :=
| Inactive
| Recording (s : EffectSession)
| Replaying (r : EffectReplay).

Definition has_replication_context (m : EffectMode) : bool := match m with Inactive => false | _ => true end.

Definition reject_private_record (m : EffectMode) : EffectMode :=
  match m with
  | Recording s => Recording (mkSession (es_log s) (es_cap s) true)
  | Replaying r => Replaying (mkReplay (er_log r) (er_pos r) (er_exhausted r) true)
  | Inactive => Inactive
  end.

Definition private_record_rejected (m : EffectMode) : bool :=
  match m with
  | Recording s => es_private_record_rejected s
  | Replaying r => er_private_record_rejected r
  | Inactive => false
  end.

(** The cursor of [EffectLog::replay]. *)
Record EffectCursor := mkCursor { ec_replies : list bytes; ec_pos : nat }.
Definition log_replay (l : EffectLog) : EffectCursor := mkCursor (el_replies l) 0.
Definition cursor_next (c : EffectCursor) : option bytes * EffectCursor :=
  match ec_replies c !! ec_pos c with
  | Some r => (Some r, mkCursor (ec_replies c) (S (ec_pos c)))
  | None => (None, c)
  end.
Definition cursor_is_exhausted (c : EffectCursor) : bool := (length (ec_replies c) <=? ec_pos c).
