(* ===== verification/EffectProps.v ===== *)
(** * vos: properties of effect logs

    The codec of [EffectLog] and [CrdtEvent], and record-then-replay: a replay hands
    back the recorded replies in order, each with the effects recorded with it. *)

From Stdlib.Strings Require Byte.
From S2P Require Import Prelude Bytes Blake2b V2Wire V2Identity Parser EffectLog.

Local Open Scope nat_scope.

(** ** The codec *)

Definition len_ok (b : bytes) : Prop := (blen b < u64_modulus)%N.
Definition count_fits {A} (xs : list A) : Prop := (N.of_nat (length xs) < u64_modulus)%N.

Definition invoke_ok (e : InvokeEffects) : Prop :=
  (ife_reply_idx e < u64_modulus)%N ∧ (ife_svc_id e < int_modulus 4)%N ∧ len_ok (ife_effects e).

(** The widths of the fields: those of the Rust types. *)
Record log_ok (l : EffectLog) : Prop := {
  lo_msg : len_ok (el_msg l);
  lo_replies : count_fits (el_replies l) ∧ Forall len_ok (el_replies l);
  lo_anchor : length (el_anchor l) = 32;
  lo_prefix : length (el_caller_prefix l) = 5;
  lo_effects : count_fits (el_invoke_effects l) ∧ Forall invoke_ok (el_invoke_effects l);
  lo_id : length (el_invocation_id l) = 32;
}.

Lemma encodes_reply : encodes p_reply len_ok enc_reply.
Proof.
  eapply exactly_ext; [|eapply encodes_bind; [apply (encodes_uint 8)|]; intros n _; apply exactly_take]. intros w r. split.
  - intros (n & w2 & Hn & -> & Hw & ->). subst n. done.
  - intros [Hr ->]. exists (blen r), r. done.
Qed.

Lemma encodes_invoke : encodes p_invoke invoke_ok enc_invoke.
Proof.
  eapply exactly_ext; [|eapply encodes_bind; [apply (encodes_uint 8)|]; intros idx _;
    eapply encodes_bind; [apply (encodes_uint 4)|]; intros svc _; eapply encodes_bind; [apply (encodes_uint 8)|]; intros n _;
    eapply encodes_bind; [apply encodes_take|]; intros fx _; apply exactly_ret].
  intros w e. unfold enc_invoke, invoke_ok. split.
  - intros (idx & ? & Hidx & -> & svc & ? & Hsvc & -> & n & ? & Hn & -> & fx & ? & <- & -> & -> & ->).
    cbn [ife_reply_idx ife_svc_id ife_effects id]. rewrite app_nil_r. done.
  - intros [(Hidx & Hsvc & Hfx) ->]. destruct e as [idx svc fx]. cbn [ife_reply_idx ife_svc_id ife_effects] in *.
    eexists idx, _. split_and!; [done..|]. eexists svc, _. split_and!; [done..|].
    eexists (blen fx), _. split_and!; [done..|]. exists fx, []. by rewrite app_nil_r.
Qed.

Lemma length_bind_ge {A} (enc : A → bytes) per xs : (∀ x, per ≤ length (enc x)) → length xs * per ≤ length (xs ≫= enc).
Proof.
  intros Henc. induction xs as [|x xs IH]; [done|]. cbn [mbind list_bind length]. rewrite length_app. specialize (Henc x).
  cbn [mbind] in IH. lia.
Qed.

Lemma encodes_counted {A} (p : parser A) ok enc (per : nat) :
  0 < per → encodes p ok enc → (∀ x, per ≤ length (enc x)) →
  encodes (p_counted p (N.of_nat per)) (λ xs, count_fits xs ∧ Forall ok xs) (enc_counted enc).
Proof.
  intros Hper Hp Henc. eapply exactly_ext; [|eapply encodes_bind; [apply (encodes_uint 8)|]; intros n Hn;
    apply exactly_guard; [apply (encodes_items _ _ _ _ Hp)|]].
  - intros w xs. split.
    + intros (n & w2 & Hn & -> & [Hlen Hxs] & ->). unfold enc_counted, enc_len, count_fits. rewrite Hlen, N2Nat.id. done.
    + intros [[Hn Hxs] ->]. exists (N.of_nat (length xs)), (xs ≫= enc). rewrite Nat2N.id. done.
  - intros w xs r [[Hlen _] ->]. apply N.ltb_ge. pose proof (length_bind_ge enc per xs Henc).
    apply N.div_le_lower_bound; [lia|]. rewrite blen_app. unfold blen. lia.
Qed.

Lemma length_enc_reply r : 8 ≤ length (enc_reply r).
Proof. unfold enc_reply, enc_len. rewrite length_app, length_to_le_bytes. lia. Qed.

Lemma length_enc_invoke e : 20 ≤ length (enc_invoke e).
Proof. unfold enc_invoke, enc_len. rewrite !length_app, !length_to_le_bytes. lia. Qed.

(** The log without its identity. *)
Definition head_ok (l : EffectLog) : Prop := log_ok (set_invocation_id ZERO l).

Lemma encodes_head : exactly p_head (λ w l, head_ok l ∧ el_invocation_id l = ZERO ∧ w = head_bytes l).
Proof.
  eapply exactly_ext; [|eapply encodes_bind; [apply encodes_reply|]; intros msg _;
    eapply encodes_bind; [apply (encodes_counted _ _ _ 8 ltac:(lia) encodes_reply length_enc_reply)|]; intros replies _;
    eapply encodes_bind; [apply encodes_byte|]; intros kind _; eapply encodes_bind; [apply encodes_take|]; intros anchor _;
    eapply encodes_bind; [apply encodes_take|]; intros prefix _;
    eapply encodes_bind; [apply (encodes_counted _ _ _ 20 ltac:(lia) encodes_invoke length_enc_invoke)|]; intros fx _;
    apply exactly_ret].
  intros w l. split.
  - intros (msg & ? & Hmsg & -> & replies & ? & Hrep & -> & kind & ? & _ & -> & anchor & ? & Hanchor & -> &
      prefix & ? & Hprefix & -> & fx & ? & Hfx & -> & -> & ->).
    unfold blen in Hanchor, Hprefix. split_and!; [|done|unfold head_bytes; cbn; by rewrite app_nil_r].
    split; cbn; [done|done|lia|lia|done|done].
  - intros ([Hmsg [Hrep1 Hrep2] Hanchor Hprefix [Hfx1 Hfx2] _] & Hid & ->). destruct l as [msg replies kind anchor prefix fx id].
    cbn [el_msg el_replies el_anchor_kind el_anchor el_caller_prefix el_invoke_effects el_invocation_id set_invocation_id] in *.
    subst id. unfold head_bytes. cbn [el_msg el_replies el_anchor_kind el_anchor el_caller_prefix el_invoke_effects].
    eexists msg, _. split_and!; [done..|]. eexists replies, _. split_and!; [done..|]. eexists kind, _. split_and!; [done|reflexivity|].
    eexists anchor, _. split_and!; [unfold blen; lia|done|]. eexists prefix, _. split_and!; [unfold blen; lia|done|].
    exists fx, []. by rewrite app_nil_r.
Qed.

Lemma parse_invocation_spec rest id :
  parse_invocation rest = Some id ↔
    length id = 32 ∧ (rest = INVOCATION_ID_EXTENSION :: id ∨ rest = [] ∧ id = ZERO).
Proof.
  unfold parse_invocation. destruct rest as [|tag rest]; [split; [by intros [= <-]; auto|]; by intros [_ [?|[_ ->]]]|].
  case_decide as Ht; [subst tag|split; [done|]; by intros [_ [[= -> _]|[? _]]]].
  split.
  - destruct (p_take 32 rest) as [[x [|? ?]]|] eqn:Hp; [|done|done]. intros [= ->].
    apply exactly_take in Hp as (w & -> & Hw & ->). rewrite app_nil_r. unfold blen in Hw. split; [lia|by left].
  - intros [Hid [[= ->]|[? _]]]; [|done].
    assert (p_take 32 id = Some (id, [])) as ->; [|done]. apply exactly_take. exists id. rewrite app_nil_r. unfold blen.
    split_and!; [done|lia|done].
Qed.

Lemma from_bytes_spec b l :
  log_from_bytes b = Some l ↔
    log_ok l ∧ (b = log_to_bytes l ∨
                el_invocation_id l = ZERO ∧ b = log_to_bytes l ++ INVOCATION_ID_EXTENSION :: ZERO).
Proof.
  unfold log_from_bytes, log_to_bytes. split.
  - destruct (p_head b) as [[h rest]|] eqn:Hb; [|done]. cbn [mbind option_bind].
    destruct (parse_invocation rest) as [id|] eqn:Hid; [|done]. intros [= <-].
    apply encodes_head in Hb as (w & -> & [Hmsg Hrep Han Hpf Hfx _] & _ & ->).
    apply parse_invocation_spec in Hid as [Hlen Hrest].
    split; [by destruct h; split|]. change (head_bytes (set_invocation_id id h)) with (head_bytes h).
    change (el_invocation_id (set_invocation_id id h)) with id.
    case_decide as Hz.
    + subst id. rewrite app_nil_r. destruct Hrest as [->|[-> _]]; [by right|left; by rewrite app_nil_r].
    + destruct Hrest as [->|[_ ?]]; [by left|done].
  - intros [[Hmsg Hrep Han Hpf Hfx Hid] Hb].
    assert (∃ rest, b = head_bytes l ++ rest ∧ parse_invocation rest = Some (el_invocation_id l)) as (rest & -> & Hrest).
    { destruct Hb as [->|[Hz ->]]; [eexists; split; [done|]|].
      - apply parse_invocation_spec. split; [done|]. case_decide; auto.
      - rewrite decide_True by done. rewrite app_nil_r. eexists. split; [done|]. apply parse_invocation_spec. rewrite Hz. auto. }
    assert (p_head (head_bytes l ++ rest) = Some (set_invocation_id ZERO l, rest)) as ->.
    { apply encodes_head. exists (head_bytes l). split_and!; [done| |done|done]. by split. }
    cbn [mbind option_bind]. rewrite Hrest. cbn [mbind option_bind]. by destruct l.
Qed.

(** ** Events *)

Lemma length_derive ns nonce : length (derive ns nonce) = 32.
Proof. apply length_digest. Qed.

Lemma event_parts e b :
  event_from_bytes b = Some e ↔
  ∃ origin seq l, b = CRDT_EVENT_VERSION :: origin ++ to_le_bytes 8 seq ++ l ∧ length origin = 32 ∧ (seq < u64_modulus)%N ∧
    ∃ log, log_from_bytes l = Some log ∧ (el_invocation_id log = ZERO ∨ el_invocation_id log = invocation_id_for origin seq) ∧
      e = crdt_event_new origin seq log.
Proof.
  unfold event_from_bytes. split.
  - destruct (Nat.ltb_spec (length b) (1 + 32 + 8)) as [|Hlen]; [done|]. destruct b as [|v b]; [done|]. cbn [length] in Hlen.
    case_decide as Hv; [subst v|done]. destruct (log_from_bytes (drop 40 b)) as [log|] eqn:Hl; [|done]. cbn [mbind option_bind].
    case_decide as Hid; [done|]. intros [= <-].
    assert (length (take 8 (drop 32 b)) = 8) as H8 by (rewrite length_take, length_drop; lia).
    exists (take 32 b), (from_le_bytes (take 8 (drop 32 b))), (drop 40 b). split_and!.
    + pose proof (to_from_le_bytes (take 8 (drop 32 b))) as He. rewrite H8 in He. rewrite He.
      replace (drop 40 b) with (drop 8 (drop 32 b)) by by rewrite drop_drop. by rewrite !take_drop.
    + rewrite length_take. lia.
    + pose proof (from_le_bytes_lt (take 8 (drop 32 b))) as Hlt. by rewrite H8 in Hlt.
    + exists log. split_and!; [done| |done]. destruct (decide (el_invocation_id log = ZERO)); [by left|right].
      apply dec_stable. tauto.
  - intros (origin & seq & l & -> & Ho & Hs & log & Hl & Hid & ->).
    assert (length (to_le_bytes 8 seq) = 8) as H8 by apply length_to_le_bytes.
    rewrite (proj2 (Nat.ltb_ge _ _)) by (cbn [length]; rewrite !length_app; lia). rewrite decide_True by done.
    rewrite take_app_length' by done. rewrite drop_app_length', take_app_length' by done.
    replace (drop 40 (origin ++ to_le_bytes 8 seq ++ l)) with l
      by (rewrite (app_assoc origin); symmetry; apply drop_app_length'; rewrite length_app; lia).
    rewrite Hl. cbn [mbind option_bind]. rewrite from_to_le_bytes by done. rewrite decide_False; [done|]. tauto.
Qed.

(** ** Record and replay *)

(** What a handler observed: for each reply, the effects that came with it. *)
Definition observed : Type := list (list (N * bytes) * bytes).

Definition record_group (s : EffectSession) (g : list (N * bytes) * bytes) : EffectSession :=
  record g.2 (foldl (λ s e, record_invoke_effects e.1 e.2 s) s g.1).

Definition record_all (s : EffectSession) (gs : observed) : EffectSession := foldl record_group s gs.

(** A handler that asks [n] times. *)
Fixpoint replay_all (n : nat) (r : EffectReplay) : observed * EffectReplay :=
  match n with
  | O => ([], r)
  | S n =>
      match next_reply r with
      | (Some reply, r') =>
          let fx := (λ e, (ife_svc_id e, ife_effects e)) <$> effects_for r' (er_pos r' - 1) in
          let '(gs, r'') := replay_all n r' in ((fx, reply) :: gs, r'')
      | (None, r') => ([], r')
      end
  end.

Definition tag_effects (i : nat) (fx : list (N * bytes)) : list InvokeEffects :=
  (λ e, mkInvokeEffects (N.of_nat i) e.1 e.2) <$> fx.

Fixpoint tag_groups (i : nat) (gs : observed) : list InvokeEffects :=
  match gs with
  | [] => []
  | g :: gs => tag_effects i g.1 ++ tag_groups (S i) gs
  end.

Lemma record_effects_log fx s :
  es_log (foldl (λ s e, record_invoke_effects e.1 e.2 s) s fx) =
    let l := es_log s in
    mkEffectLog (el_msg l) (el_replies l) (el_anchor_kind l) (el_anchor l) (el_caller_prefix l)
      (el_invoke_effects l ++ tag_effects (length (el_replies l)) fx) (el_invocation_id l).
Proof.
  revert s. induction fx as [|e fx IH]; intros s; cbn [foldl].
  - cbn. rewrite app_nil_r. by destruct (es_log s).
  - rewrite IH. cbn. by rewrite <- app_assoc.
Qed.

Lemma record_all_log gs s :
  el_replies (es_log (record_all s gs)) = el_replies (es_log s) ++ gs.*2 ∧
  el_invoke_effects (es_log (record_all s gs)) =
    el_invoke_effects (es_log s) ++ tag_groups (length (el_replies (es_log s))) gs.
Proof.
  revert s. induction gs as [|g gs IH]; intros s; [cbn; by rewrite !app_nil_r|].
  cbn [record_all foldl]. destruct (IH (record_group s g)) as [Hr Hf]. unfold record_all in Hr, Hf. rewrite Hr, Hf.
  unfold record_group, record. cbn [es_log record_reply el_replies el_invoke_effects]. rewrite record_effects_log.
  cbn [el_replies el_invoke_effects]. rewrite <- !app_assoc. split; [done|].
  cbn [tag_groups]. rewrite length_app. cbn [length]. by rewrite Nat.add_1_r.
Qed.

Lemma filter_tag_effects i j fx : filter (λ e, N.to_nat (ife_reply_idx e) = j) (tag_effects i fx) = if decide (i = j) then tag_effects i fx else [].
Proof.
  unfold tag_effects. case_decide as Hij.
  - apply list_filter_all, Forall_fmap, Forall_true. intros e. cbn. lia.
  - apply list_filter_none. intros e (x & -> & _)%list_elem_of_fmap. cbn. lia.
Qed.

Lemma filter_tag_groups i k gs :
  filter (λ e, N.to_nat (ife_reply_idx e) = i + k) (tag_groups i gs) =
    match gs !! k with Some g => tag_effects (i + k) g.1 | None => [] end.
Proof.
  revert i k. induction gs as [|g gs IH]; intros i k; [done|]. cbn [tag_groups]. rewrite filter_app, filter_tag_effects.
  destruct k as [|k]; cbn [lookup list_lookup].
  - rewrite decide_True, Nat.add_0_r by lia. rewrite list_filter_none; [apply app_nil_r|].
    clear IH. assert (∀ j gs e, e ∈ tag_groups j gs → j ≤ N.to_nat (ife_reply_idx e)) as Hge.
    { intros j gs'. revert j. induction gs' as [|g' gs' IH]; intros j e; [by intros ?%not_elem_of_nil|].
      cbn [tag_groups]. intros [(x & -> & _)%list_elem_of_fmap|He]%elem_of_app; [cbn; lia|]. specialize (IH _ _ He). lia. }
    intros e He. specialize (Hge _ _ _ He). lia.
  - rewrite decide_False by lia. cbn [app]. rewrite <- Nat.add_succ_comm. apply IH.
Qed.

Lemma replay_all_spec pre gs r :
  el_replies (er_log r) = pre ++ gs.*2 → er_pos r = length pre →
  (∀ k, effects_for r (length pre + k) = match gs !! k with Some g => tag_effects (length pre + k) g.1 | None => [] end) →
  replay_all (length gs) r = (gs, mkReplay (er_log r) (length (el_replies (er_log r))) (er_exhausted r) (er_private_record_rejected r)).
Proof.
  revert pre r. induction gs as [|g gs IH]; intros pre r Hrep Hpos Hfx.
  - cbn in Hrep. rewrite app_nil_r in Hrep. cbn. rewrite Hrep, <- Hpos. by destruct r.
  - cbn [length replay_all]. unfold next_reply. rewrite Hrep, Hpos. cbn [fmap list_fmap]. rewrite list_lookup_middle by done.
    cbn [er_pos]. rewrite Nat.sub_succ, Nat.sub_0_r.
    pose proof (Hfx 0) as H0. rewrite Nat.add_0_r in H0. cbn [lookup list_lookup] in H0.
    unfold effects_for in H0 |- *. cbn [er_log]. rewrite H0. unfold tag_effects. rewrite <- list_fmap_compose.
    rewrite (IH (pre ++ [g.2])); cbn [er_log er_pos er_exhausted er_private_record_rejected].
    + rewrite Hrep. do 2 f_equal. destruct g as [fx reply]. cbn [fst snd]. do 2 f_equal.
      rewrite <- (list_fmap_id fx) at 2. apply list_fmap_ext. by intros ? [].
    + by rewrite Hrep, <- app_assoc.
    + rewrite length_app. cbn. lia.
    + intros k. rewrite length_app. cbn [length]. specialize (Hfx (S k)). unfold effects_for in Hfx |- *. cbn [er_log].
      by rewrite <- Nat.add_assoc, Nat.add_1_l.
Qed.

Lemma for_msg_ok msg : len_ok msg → log_ok (for_msg msg).
Proof. intros Hm. by repeat constructor. Qed.

(** ** Properties *)

(** a byte string decodes to an effect log exactly when it is the log's
    encoding, or the log has the zero identity and the string is its encoding
    followed by an explicit zero extension; so every log round-trips, and logs
    with an identity have one encoding. *)
Theorem effect_log_codec b l :
  log_from_bytes b = Some l ↔
    log_ok l ∧ (b = log_to_bytes l ∨
                el_invocation_id l = ZERO ∧ b = log_to_bytes l ++ INVOCATION_ID_EXTENSION :: ZERO).
Proof. apply from_bytes_spec. Qed.

(** a CRDT event decodes from its encoding, and whatever decodes carries the
    invocation identity derived from its origin and sequence number and decodes
    again from its own encoding. *)
Theorem crdt_event_codec :
  (∀ origin seq log, length origin = 32 → (seq < u64_modulus)%N → log_ok log →
     event_from_bytes (event_to_bytes (crdt_event_new origin seq log)) = Some (crdt_event_new origin seq log)) ∧
  (∀ b e, event_from_bytes b = Some e →
     el_invocation_id (ce_log e) = invocation_id_for (ce_origin e) (ce_seq e) ∧
     event_from_bytes (event_to_bytes e) = Some e).
Proof.
  assert (∀ origin seq log, length origin = 32 → (seq < u64_modulus)%N → log_ok log →
    event_from_bytes (event_to_bytes (crdt_event_new origin seq log)) = Some (crdt_event_new origin seq log)) as Hround.
  { intros origin seq log Ho Hs [Hmsg Hrep Han Hpf Hfx Hid]. apply event_parts.
    exists origin, seq, (log_to_bytes (set_invocation_id (invocation_id_for origin seq) log)). split_and!; [done..|].
    exists (set_invocation_id (invocation_id_for origin seq) log). split_and!; [|by right|done].
    apply from_bytes_spec. split; [|by left]. destruct log. split; [done..|apply length_derive]. }
  split; [exact Hround|]. intros b e He. apply event_parts in He as (origin & seq & l & -> & Ho & Hs & log & Hl & Hid & ->).
  split; [done|]. apply Hround; [done|done|]. by apply from_bytes_spec in Hl as [? _].
Qed.

(** C32: replaying the log a session recorded hands back its replies in order, each
    with exactly the effects recorded since the previous one, and is then
    complete; one more ask finds nothing and leaves the replay incomplete. *)
Theorem recorded_dispatch_replays msg (gs : observed) :
  let log := session_into_log (record_all (session_new msg) gs) in
  let '(out, r) := replay_all (length gs) (replay_new log) in
  out = gs ∧ is_complete r = true ∧ fst (next_reply r) = None ∧ is_complete (snd (next_reply r)) = false.
Proof.
  cbv zeta. unfold session_into_log. destruct (record_all_log gs (session_new msg)) as [Hr Hf].
  set (log := es_log (record_all (session_new msg) gs)) in *. cbn in Hr, Hf.
  rewrite (replay_all_spec [] gs (replay_new log)); [|done|done|].
  - split_and!; [done|unfold is_complete; cbn; by rewrite Nat.eqb_refl| |].
    + unfold next_reply. cbn [er_log er_pos]. by rewrite lookup_ge_None_2.
    + unfold next_reply. cbn [er_log er_pos]. by rewrite lookup_ge_None_2.
  - intros k. unfold effects_for. cbn [er_log replay_new length plus]. rewrite Hf. apply (filter_tag_groups 0 k gs).
Qed.
