(* ===== verification/Redb.v ===== *)
(** * The redb interface

    The embedded database the host keeps an agent in.  [Redb] is what vos calls of
    it: transactions and the reads and writes of its tables, each of which may
    fail; [RedbLaws] states what is documented of the calls that succeed.  A read
    transaction sees a snapshot, a write transaction sees its own writes, and
    committing makes all of them visible at once; a transaction that is dropped
    has no effect, which is how code that gets an error from [commit] goes on with
    the database it had.

    A call stands for [open_table] and the access.  Reading a table that does not
    exist finds no row: callers map the error to the answer of an empty table.

    [RedbReliable] adds that no call fails.  [MemRedb] meets all of it; [CappedRedb],
    which refuses rows past a capacity, meets the laws. *)

From Stdlib.Strings Require Byte.
From stdpp Require Export strings.
From S2P Require Import Prelude Bytes.

Local Open Scope N_scope.

(** Rows by table: ["raft_log"] and ["raft_applied_state_v2"] are keyed by index,
    ["raft_meta"] and ["state"] by name, ["agent_kv"] and ["dag"] by bytes. *)
Inductive row :=
| LogRow (index : N)
| MetaRow (name : string)
| StateRow (name : string)
| AppliedRow (index : N)
| KvRow (key : bytes)
| DagRow (cid : bytes).

#[export] Instance row_eq_dec : EqDecision row.
Proof. solve_decision. Defined.

Definition row_code (r : row) : (N + N) + ((string + string) + (bytes + bytes)) :=
  match r with
  | LogRow i => inl (inl i)
  | AppliedRow i => inl (inr i)
  | MetaRow n => inr (inl (inl n))
  | StateRow n => inr (inl (inr n))
  | KvRow k => inr (inr (inl k))
  | DagRow c => inr (inr (inr c))
  end.
Definition row_of_code (x : (N + N) + ((string + string) + (bytes + bytes))) : row :=
  match x with
  | inl (inl i) => LogRow i
  | inl (inr i) => AppliedRow i
  | inr (inl (inl n)) => MetaRow n
  | inr (inl (inr n)) => StateRow n
  | inr (inr (inl k)) => KvRow k
  | inr (inr (inr c)) => DagRow c
  end.

#[export] Instance row_countable : Countable row.
Proof. apply (inj_countable' row_code row_of_code). by intros []. Defined.

(** The tables whose emptiness is asked for. *)
Inductive table := StateTable | KvTable | DagTable.

#[export] Instance table_eq_dec : EqDecision table.
Proof. solve_decision. Defined.

Definition row_table (r : row) : option table :=
  match r with StateRow _ => Some StateTable | KvRow _ => Some KvTable | DagRow _ => Some DagTable | _ => None end.

Class Redb (D R W E : Type) := {
  begin_read : D → result E R;
  begin_write : D → result E W;
  r_get : R → row → result E (option bytes);
  r_last_log : R → result E (option (N * bytes));
  r_range_log : R → N → N → result E (list (N * bytes));
  r_kv_rows : R → result E (list (bytes * bytes));
  r_has_rows : R → table → result E bool;
  w_get : W → row → result E (option bytes);
  w_insert : W → row → bytes → result E W;
  w_remove : W → row → result E W;
  w_applied_keys : W → N → N → result E (list N);
  w_delete_kv : W → result E W;
  w_commit : W → result E D;
}.

(** What a database, a read and a write transaction hold. *)
Abbreviation tables := (gmap row bytes).

Definition log_key (r : row) : option N := match r with LogRow i => Some i | _ => None end.
Definition applied_key (r : row) : option N := match r with AppliedRow i => Some i | _ => None end.
Definition kv_key (r : row) : option bytes := match r with KvRow k => Some k | _ => None end.

Class RedbLaws (D R W E : Type) `{!Redb D R W E} := {
  view : D → tables;
  rview : R → tables;
  wview : W → tables;
  begin_read_view d r : begin_read d = Ok r → rview r = view d;
  begin_write_view d w : begin_write d = Ok w → wview w = view d;
  r_get_view r k x : r_get r k = Ok x → x = rview r !! k;
  r_last_log_view r x : r_last_log r = Ok x →
    match x with
    | Some (i, b) => rview r !! LogRow i = Some b ∧ ∀ j, is_Some (rview r !! LogRow j) → j ≤ i
    | None => ∀ j, rview r !! LogRow j = None
    end;
  r_range_log_view r lo hi l : r_range_log r lo hi = Ok l →
    StronglySorted (λ a b, a.1 < b.1) l ∧ ∀ i b, (i, b) ∈ l ↔ lo ≤ i ≤ hi ∧ rview r !! LogRow i = Some b;
  r_kv_rows_view r l : r_kv_rows r = Ok l → NoDup l.*1 ∧ ∀ k b, (k, b) ∈ l ↔ rview r !! KvRow k = Some b;
  r_has_rows_view r t b : r_has_rows r t = Ok b → b = true ↔ ∃ k, row_table k = Some t ∧ is_Some (rview r !! k);
  w_get_view w k x : w_get w k = Ok x → x = wview w !! k;
  w_insert_view w k b w' : w_insert w k b = Ok w' → wview w' = <[k := b]> (wview w);
  w_remove_view w k w' : w_remove w k = Ok w' → wview w' = delete k (wview w);
  w_applied_keys_view w lo hi l : w_applied_keys w lo hi = Ok l →
    ∀ i, i ∈ l ↔ lo ≤ i ≤ hi ∧ is_Some (wview w !! AppliedRow i);
  w_delete_kv_view w w' : w_delete_kv w = Ok w' → wview w' = filter (λ e, kv_key e.1 = None) (wview w);
  w_commit_view w d : w_commit w = Ok d → view d = wview w;
}.

Class RedbReliable (D R W E : Type) `{!Redb D R W E} := {
  begin_read_ok d : ∃ r, begin_read d = Ok r;
  begin_write_ok d : ∃ w, begin_write d = Ok w;
  r_get_ok r k : ∃ x, r_get r k = Ok x;
  r_last_log_ok r : ∃ x, r_last_log r = Ok x;
  r_range_log_ok r lo hi : ∃ l, r_range_log r lo hi = Ok l;
  r_has_rows_ok r t : ∃ b, r_has_rows r t = Ok b;
  w_get_ok w k : ∃ x, w_get w k = Ok x;
  w_insert_ok w k b : ∃ w', w_insert w k b = Ok w';
  w_remove_ok w k : ∃ w', w_remove w k = Ok w';
  w_applied_keys_ok w lo hi : ∃ l, w_applied_keys w lo hi = Ok l;
  w_delete_kv_ok w : ∃ w', w_delete_kv w = Ok w';
  w_commit_ok w : ∃ d, w_commit w = Ok d;
}.

(** ** Tables in memory *)

Section table.
Context {K : Type} `{Countable K} (key : K → row) (unkey : row → option K).
Context (Hkey : ∀ r k, unkey r = Some k ↔ r = key k).

Definition table_of (t : tables) : gmap K bytes :=
  list_to_map (omap (λ e, (λ k, (k, e.2)) <$> unkey e.1) (map_to_list t)).

Lemma NoDup_table_keys (l : list (row * bytes)) :
  NoDup l.*1 → NoDup (omap (λ e, (λ k, (k, e.2)) <$> unkey e.1) l).*1.
Proof using Hkey.
  induction l as [|[r b'] l IH]; intros Hnd; [constructor|].
  cbn in Hnd |- *. apply NoDup_cons in Hnd as [Hr Hnd]. destruct (unkey r) as [k'|] eqn:Hu; cbn; [|by apply IH].
  apply NoDup_cons. split; [|by apply IH]. intros (e & He & Hin)%list_elem_of_fmap. apply Hr.
  apply list_elem_of_omap in Hin as ([r2 b2] & Hin2 & Hu2). apply fmap_Some in Hu2 as (k2 & Hk2 & ->). cbn in He, Hk2. subst k2.
  apply Hkey in Hu as ->. apply Hkey in Hk2 as ->. apply list_elem_of_fmap. by eexists (_, _).
Qed.

Lemma lookup_table (t : tables) k : table_of t !! k = t !! key k.
Proof using Hkey.
  unfold table_of. apply option_eq. intros b. rewrite <- elem_of_list_to_map by apply NoDup_table_keys, NoDup_fst_map_to_list.
  rewrite list_elem_of_omap. setoid_rewrite fmap_Some. split.
  - intros ([r b'] & Hin & k' & Hu & [= -> ->]). apply Hkey in Hu. cbn in Hu. subst r. by apply elem_of_map_to_list.
  - intros Hb. exists (key k, b). split; [by apply elem_of_map_to_list|]. exists k. split; [by apply Hkey|done].
Qed.
End table.

Definition log_of : tables → gmap N bytes := table_of log_key.
Definition applied_of : tables → gmap N bytes := table_of applied_key.
Definition kv_of : tables → gmap bytes bytes := table_of kv_key.

Lemma lookup_log_of t i : log_of t !! i = t !! LogRow i.
Proof. apply lookup_table. intros [] k; cbn; naive_solver. Qed.
Lemma lookup_applied_of t i : applied_of t !! i = t !! AppliedRow i.
Proof. apply lookup_table. intros [] k; cbn; naive_solver. Qed.
Lemma lookup_kv_of t k : kv_of t !! k = t !! KvRow k.
Proof. apply lookup_table. intros [] j; cbn; naive_solver. Qed.

(** The entries of a table in key order, between two keys. *)
Definition range_of (m : gmap N bytes) (lo hi : N) : list (N * bytes) :=
  omap (λ i, (λ b, (i, b)) <$> (if (lo <=? i) && (i <=? hi) then m !! i else None)) (sorted_keys N.le m).

Lemma elem_of_range_of m lo hi i b : (i, b) ∈ range_of m lo hi ↔ lo ≤ i ≤ hi ∧ m !! i = Some b.
Proof.
  unfold range_of. rewrite list_elem_of_omap. split.
  - intros (j & _ & Hj). apply fmap_Some in Hj as (b' & Hb & [= -> ->]).
    destruct (N.leb_spec lo j), (N.leb_spec j hi); cbn in Hb; done.
  - intros [Hi Hb]. exists i. split; [apply (elem_of_sorted_keys N.le); by eexists|].
    rewrite (proj2 (N.leb_le _ _)), (proj2 (N.leb_le _ _)) by lia. cbn. by rewrite Hb.
Qed.

Lemma range_of_sorted m lo hi : StronglySorted (λ a b, a.1 < b.1) (range_of m lo hi).
Proof.
  unfold range_of. pose proof (StronglySorted_sorted_keys N.le m) as Hs. pose proof (NoDup_sorted_keys N.le m) as Hnd.
  induction Hs as [|i l Hs IH Hi]; [constructor|]. apply NoDup_cons in Hnd as [Hin Hnd]. cbn.
  destruct (if _ && _ then m !! i else None) as [b|]; cbn; [|by apply IH]. constructor; [by apply IH|].
  apply Forall_forall. intros [j b'] (j' & Hj & Hb)%list_elem_of_omap. apply fmap_Some in Hb as (? & _ & [= -> ->]).
  rewrite Forall_forall in Hi. specialize (Hi j' Hj). cbn. destruct (decide (i = j')) as [->|]; [done|lia].
Qed.

Definition has_rows (m : tables) (t : table) : bool :=
  bool_decide (filter (λ e, row_table e.1 = Some t) m ≠ ∅).

Lemma has_rows_true m t : has_rows m t = true ↔ ∃ k, row_table k = Some t ∧ is_Some (m !! k).
Proof.
  unfold has_rows. rewrite bool_decide_eq_true. split.
  - intros (k & b & Hk)%map_choose. apply map_lookup_filter_Some in Hk as [Hb Hk]. exists k. by rewrite Hb.
  - intros (k & Hk & b & Hb) He. assert (filter (λ e, row_table e.1 = Some t) m !! k = Some b) as Hf
      by by apply map_lookup_filter_Some. rewrite He in Hf. by apply lookup_empty_Some in Hf.
Qed.

#[export] Instance MemRedb : Redb tables tables tables Empty_set := {|
  begin_read := Ok;
  begin_write := Ok;
  r_get := λ t k, Ok (t !! k);
  r_last_log := λ t, Ok (i ← last_key N.le (log_of t); b ← log_of t !! i; Some (i, b));
  r_range_log := λ t lo hi, Ok (range_of (log_of t) lo hi);
  r_kv_rows := λ t, Ok (map_to_list (kv_of t));
  r_has_rows := λ m t, Ok (has_rows m t);
  w_get := λ t k, Ok (t !! k);
  w_insert := λ t k b, Ok (<[k := b]> t);
  w_remove := λ t k, Ok (delete k t);
  w_applied_keys := λ t lo hi, Ok (range_of (applied_of t) lo hi).*1;
  w_delete_kv := λ t, Ok (filter (λ e, kv_key e.1 = None) t);
  w_commit := Ok;
|}.

Lemma last_log_of (t : tables) :
  match (i ← last_key N.le (log_of t); b ← log_of t !! i; Some (i, b)) with
  | Some (i, b) => t !! LogRow i = Some b ∧ ∀ j, is_Some (t !! LogRow j) → j ≤ i
  | None => ∀ j, t !! LogRow j = None
  end.
Proof.
  destruct (last_key N.le (log_of t)) as [i|] eqn:Hl; cbn [mbind option_bind].
  - apply (last_key_Some N.le) in Hl as [[b Hb] Hmax]. rewrite Hb. cbn. rewrite <- lookup_log_of. split; [done|].
    intros j. rewrite <- lookup_log_of. apply Hmax.
  - intros j. apply (last_key_None N.le) in Hl. by rewrite <- lookup_log_of, Hl, lookup_empty.
Qed.

Lemma elem_of_applied_keys (t : tables) lo hi i :
  i ∈ (range_of (applied_of t) lo hi).*1 ↔ lo ≤ i ≤ hi ∧ is_Some (t !! AppliedRow i).
Proof.
  rewrite list_elem_of_fmap. split.
  - intros ([j b] & -> & [Hj Hb]%elem_of_range_of). cbn. rewrite <- lookup_applied_of, Hb. done.
  - intros [Hi [b Hb]]. exists (i, b). split; [done|]. apply elem_of_range_of. by rewrite lookup_applied_of.
Qed.

#[export] Instance MemRedb_laws : RedbLaws tables tables tables Empty_set.
Proof.
  refine {| view := λ t : tables, t; rview := λ t : tables, t; wview := λ t : tables, t |}; cbn; try congruence.
  - intros r x [= <-]. apply last_log_of.
  - intros r lo hi l [= <-]. split; [apply range_of_sorted|]. intros i b. rewrite elem_of_range_of. by rewrite lookup_log_of.
  - intros r l [= <-]. split; [apply NoDup_fst_map_to_list|]. intros k b. by rewrite elem_of_map_to_list, lookup_kv_of.
  - intros r t b [= <-]. apply has_rows_true.
  - intros w lo hi l [= <-]. intros i. apply elem_of_applied_keys.
Defined.

#[export] Instance MemRedb_reliable : RedbReliable tables tables tables Empty_set.
Proof. split; intros; by eexists. Qed.

(** ** Tables with a capacity *)

Record capped := mkCapped { cap_rows : N; cap_tables : tables }.

Inductive capacity_error := OutOfSpace.

Definition capped_insert (c : capped) (k : row) (b : bytes) : result capacity_error capped :=
  let t := <[k := b]> (cap_tables c) in
  if N.of_nat (size t) <=? cap_rows c then Ok (mkCapped (cap_rows c) t) else Err OutOfSpace.

#[export] Instance CappedRedb : Redb capped tables capped capacity_error := {|
  begin_read := λ c, Ok (cap_tables c);
  begin_write := Ok;
  r_get := λ t k, Ok (t !! k);
  r_last_log := λ t, Ok (i ← last_key N.le (log_of t); b ← log_of t !! i; Some (i, b));
  r_range_log := λ t lo hi, Ok (range_of (log_of t) lo hi);
  r_kv_rows := λ t, Ok (map_to_list (kv_of t));
  r_has_rows := λ m t, Ok (has_rows m t);
  w_get := λ c k, Ok (cap_tables c !! k);
  w_insert := capped_insert;
  w_remove := λ c k, Ok (mkCapped (cap_rows c) (delete k (cap_tables c)));
  w_applied_keys := λ c lo hi, Ok (range_of (applied_of (cap_tables c)) lo hi).*1;
  w_delete_kv := λ c, Ok (mkCapped (cap_rows c) (filter (λ e, kv_key e.1 = None) (cap_tables c)));
  w_commit := Ok;
|}.

#[export] Instance CappedRedb_laws : RedbLaws capped tables capped capacity_error.
Proof.
  refine {| view := cap_tables; rview := λ t : tables, t; wview := cap_tables |}; cbn; try congruence.
  - intros r x [= <-]. apply last_log_of.
  - intros r lo hi l [= <-]. split; [apply range_of_sorted|]. intros i b. rewrite elem_of_range_of. by rewrite lookup_log_of.
  - intros r l [= <-]. split; [apply NoDup_fst_map_to_list|]. intros k b. by rewrite elem_of_map_to_list, lookup_kv_of.
  - intros r t b [= <-]. apply has_rows_true.
  - intros w k b w'. unfold capped_insert. destruct (_ <=? _); [|done]. by intros [= <-].
  - by intros w k w' [= <-].
  - intros w lo hi l [= <-]. intros i. apply elem_of_applied_keys.
  - by intros w w' [= <-].
Defined.
