(* ===== verification/RaftRedb.v ===== *)
(** * vos: the Raft log on redb

    [vos/src/raft/log.rs] and [vos/src/raft/redb_storage.rs]: the rows of a replica
    ([raft_log], [raft_meta], the state row and the applied images), the caches kept
    of them, and [RedbStorage], the [Storage] backend of the consensus worker.
    Node identifiers are [u16], here numbers; indices and terms are [u64].

    [tx] is the monad of a write transaction under way: the log's cached fields
    change in place, also when a later call fails, and the writes are those of the
    transaction.  [commit_batch] puts the cache back when anything fails. *)

From Stdlib.Strings Require Byte.
From S2P Require Import Prelude RaftTypes RaftStorage Bytes Parser Redb.

Local Open Scope N_scope.

(** [CommitError]: the code's own errors, without their text, and the backend's. *)
Inductive CommitError (E : Type) := Config | Backend (e : E).
Arguments Config {E}.
Arguments Backend {E} e.

#[export] Instance result_ret {E} : MRet (result E) := λ _, Ok.
#[export] Instance result_bind {E} : MBind (result E) := λ _ _ k r, match r with Ok x => k x | Err e => Err e end.

Definition backend {E A} (r : result E A) : result (CommitError E) A :=
  match r with Ok x => Ok x | Err e => Err (Backend e) end.
Definition or_config {E A} (o : option A) : result (CommitError E) A :=
  match o with Some x => Ok x | None => Err Config end.

(** ** Names of rows *)

Definition META_TERM : row := MetaRow "current_term".
Definition META_VOTED_FOR : row := MetaRow "voted_for".
Definition META_COMMIT_INDEX : row := MetaRow "commit_index".
Definition META_LAST_APPLIED : row := MetaRow "last_applied".
Definition META_SNAP_INDEX : row := MetaRow "snap_last_index".
Definition META_SNAP_TERM : row := MetaRow "snap_last_term".
Definition META_ACTIVE_CONFIG : row := MetaRow "active_config".
Definition STATE_KEY : row := StateRow "actor".

(** ** Byte formats *)

Definition le64 (v : N) : bytes := to_le_bytes 8 v.

(** [u64_le]: short rows are extended with zeros, long ones cut. *)
Definition u64_le (b : bytes) : N := from_le_bytes (take 8 b).

(** [log::LogEntry]: the term, then the payload. *)
Definition row_encode (term : N) (payload : bytes) : bytes := le64 term ++ payload.
Definition row_decode (b : bytes) : option (N * bytes) :=
  if (length b <? 8)%nat then None else Some (from_le_bytes (take 8 b), drop 8 b).

Definition ENTRY_KIND_DATA : Byte.byte := Byte.x00.
Definition ENTRY_KIND_CONFIG_CHANGE : Byte.byte := Byte.x01.

(** [(list.len() as u16)] and the members. *)
Definition encode_prefix_list (l : list N) : bytes :=
  to_le_bytes 2 (N.of_nat (length l)) ++ (l ≫= to_le_bytes 2).

Definition encode_joint (joint_old : option (list N)) : bytes :=
  match joint_old with Some prev => Byte.x01 :: encode_prefix_list prev | None => [Byte.x00] end.

Definition encode_entry_kind (k : EntryKind N) : bytes :=
  match k with
  | Data payload => ENTRY_KIND_DATA :: payload
  | ConfigChange joint_old members => ENTRY_KIND_CONFIG_CHANGE :: encode_joint joint_old ++ encode_prefix_list members
  end.

Definition decode_prefix_list : parser (list N) :=
  len ← p_uint 2; p_items (p_uint 2) (N.to_nat len).

(** The flag, and the old list when it is set. *)
Definition decode_joint : parser (option (list N)) :=
  flag ← p_byte;
  if decide (flag = Byte.x00) then mret None
  else if decide (flag = Byte.x01) then prev ← decode_prefix_list; mret (Some prev)
  else refuse.

Definition decode_config_body : parser (option (list N) * list N) :=
  joint_old ← decode_joint; members ← decode_prefix_list; mret (joint_old, members).

Definition decode_entry_kind {E} (b : bytes) : result (CommitError E) (EntryKind N) :=
  match b with
  | [] => Err Config
  | tag :: rest =>
      if decide (tag = ENTRY_KIND_DATA) then Ok (Data rest)
      else if decide (tag = ENTRY_KIND_CONFIG_CHANGE) then
        '(joint_old, members) ← or_config (p_all decode_config_body rest); Ok (ConfigChange joint_old members)
      else Err Config
  end.

(** ["VAC2"] *)
Definition ACTIVE_CONFIG_V2_MAGIC : bytes := [Byte.x56; Byte.x41; Byte.x43; Byte.x32].

Definition encode_active_config (r : ActiveConfigRecord N) : bytes :=
  ACTIVE_CONFIG_V2_MAGIC ++ le64 (default u64_max (acr_log_index r)) ++ encode_joint (acr_joint_old r)
    ++ encode_prefix_list (acr_current r).

Definition decode_active_body (log_index : option N) (b : bytes) : option (ActiveConfigRecord N) :=
  '(joint_old, current) ← p_all decode_config_body b; Some (mkActiveRecord log_index current joint_old).

(** Rows without the magic are of the old format, which has no index. *)
Definition decode_active_config (b : bytes) : option (ActiveConfigRecord N) :=
  if decide (ACTIVE_CONFIG_V2_MAGIC `prefix_of` b) then
    match p_uint 8 (drop 4 b) with
    | Some (index, rest) => decode_active_body (if index =? u64_max then None else Some index) rest
    | None => None
    end
  else decode_active_body None b.

(** ** The caches *)

Record RaftLog := mkRaftLog {
  rl_last_index : N;
  rl_last_term : N;
  rl_snap_last_index : N;
  rl_snap_last_term : N;
}.

Record RaftMeta := mkRaftMeta {
  rm_current_term : N;
  rm_voted_for : option N;
  rm_commit_index : N;
  rm_last_applied : N;
  rm_snap_last_index : N;
  rm_snap_last_term : N;
}.

Definition meta_from_raft (m : RaftMeta) : Meta N :=
  mkMeta (rm_current_term m) (rm_voted_for m) (rm_commit_index m) (rm_snap_last_index m) (rm_snap_last_term m).

Definition raft_from_meta (prev : RaftMeta) (m : Meta N) : RaftMeta :=
  mkRaftMeta (current_term m) (voted_for m) (commit_index m) (rm_last_applied prev) (m_snap_last_index m) (m_snap_last_term m).

(** [for k in lo..=hi] *)
Definition range_incl (lo hi : N) : list N := (λ i, lo + N.of_nat i) <$> seq 0 (N.to_nat (hi + 1 - lo)).

Section redb.
Context {D R W E : Type} `{!Redb D R W E}.

Notation CE := (CommitError E).

(** ** Opening *)

Definition get_u64 (r : R) (k : row) : result CE N :=
  v ← backend (r_get r k); Ok (default 0 (u64_le <$> v)).

Definition log_open (db : D) : result CE RaftLog :=
  r ← backend (begin_read db);
  tail ← backend (r_last_log r);
  '(last_index_raw, last_term_raw) ←
    match tail with
    | Some (k, v) => '(term, _) ← or_config (row_decode v); Ok (k, term)
    | None => Ok (0, 0)
    end;
  snap_index ← get_u64 r META_SNAP_INDEX;
  snap_term ← get_u64 r META_SNAP_TERM;
  let '(last_index, last_term) :=
    if (last_index_raw =? 0) && (0 <? snap_index) then (snap_index, snap_term) else (last_index_raw, last_term_raw) in
  Ok (mkRaftLog last_index last_term snap_index snap_term).

Definition meta_load (db : D) : result CE RaftMeta :=
  r ← backend (begin_read db);
  term ← get_u64 r META_TERM;
  vote ← backend (r_get r META_VOTED_FOR);
  commit ← get_u64 r META_COMMIT_INDEX;
  applied ← get_u64 r META_LAST_APPLIED;
  snap_index ← get_u64 r META_SNAP_INDEX;
  snap_term ← get_u64 r META_SNAP_TERM;
  let voted_for := b ← vote; if (length b =? 2)%nat then Some (from_le_bytes b) else None in
  Ok (mkRaftMeta term voted_for commit applied snap_index snap_term).

Definition load_active_config (db : D) : result CE (option (ActiveConfigRecord N)) :=
  r ← backend (begin_read db);
  v ← backend (r_get r META_ACTIVE_CONFIG);
  match v with
  | None => Ok None
  | Some b => c ← or_config (decode_active_config b); Ok (Some c)
  end.

(** ** A write transaction *)

Definition tx (A : Type) : Type := RaftLog → W → RaftLog * result CE (A * W).

#[export] Instance tx_ret : MRet tx := λ _ x lg w, (lg, Ok (x, w)).
#[export] Instance tx_bind : MBind tx := λ _ _ k t lg w,
  match t lg w with
  | (lg, Ok (x, w)) => k x lg w
  | (lg, Err e) => (lg, Err e)
  end.

Definition tx_log : tx RaftLog := λ lg w, (lg, Ok (lg, w)).
Definition tx_set_log (lg' : RaftLog) : tx unit := λ _ w, (lg', Ok (tt, w)).
Definition tx_config {A} : tx A := λ lg _, (lg, Err Config).
Definition tx_get (k : row) : tx (option bytes) := λ lg w, (lg, v ← backend (w_get w k); Ok (v, w)).
Definition tx_write (f : W → result E W) : tx unit := λ lg w, (lg, w' ← backend (f w); Ok (tt, w')).
Definition tx_insert (k : row) (b : bytes) : tx unit := tx_write (λ w, w_insert w k b).
Definition tx_remove (k : row) : tx unit := tx_write (λ w, w_remove w k).
Definition tx_applied_keys (lo hi : N) : tx (list N) := λ lg w, (lg, l ← backend (w_applied_keys w lo hi); Ok (l, w)).

Fixpoint tx_each {A} (f : A → tx unit) (l : list A) : tx unit :=
  match l with
  | [] => mret tt
  | x :: l => f x;; tx_each f l
  end.

Definition append_in_txn (term : N) (payload : bytes) : tx N :=
  lg ← tx_log;
  let index := rl_last_index lg ⊞ 1 in
  tx_insert (LogRow index) (row_encode term payload);;
  tx_set_log (mkRaftLog index term (rl_snap_last_index lg) (rl_snap_last_term lg));;
  mret index.

Definition compact_to_in_txn (up_to_index up_to_term : N) : tx unit :=
  lg ← tx_log;
  if up_to_index <=? rl_snap_last_index lg then mret tt
  else
    let drop_to := N.min up_to_index (rl_last_index lg) in
    tx_each (λ k, tx_remove (LogRow k)) (range_incl (rl_snap_last_index lg ⊞ 1) drop_to);;
    tx_insert META_SNAP_INDEX (le64 up_to_index);;
    tx_insert META_SNAP_TERM (le64 up_to_term);;
    tx_set_log (if rl_last_index lg <? up_to_index
                then mkRaftLog up_to_index up_to_term up_to_index up_to_term
                else mkRaftLog (rl_last_index lg) (rl_last_term lg) up_to_index up_to_term).

(** The term of the entry that becomes the last one. *)
Definition truncated_term (lg : RaftLog) (from_index : N) : tx N :=
  if from_index =? 0 then mret 0
  else if from_index =? rl_snap_last_index lg then mret (rl_snap_last_term lg)
  else
    v ← tx_get (LogRow from_index);
    match v ≫= row_decode with
    | Some (term, _) => mret term
    | None => tx_config
    end.

Definition truncate_after_in_txn (from_index : N) : tx unit :=
  lg ← tx_log;
  if rl_last_index lg <=? from_index then mret tt
  else if from_index <? rl_snap_last_index lg then tx_config
  else
    new_last_term ← truncated_term lg from_index;
    tx_each (λ k, tx_remove (LogRow k)) (range_incl (from_index ⊞ 1) (rl_last_index lg));;
    tx_set_log (mkRaftLog from_index new_last_term (rl_snap_last_index lg) (rl_snap_last_term lg)).

Definition write_vote (vote : option N) : tx unit :=
  match vote with
  | Some p => tx_insert META_VOTED_FOR (to_le_bytes 2 p)
  | None => tx_remove META_VOTED_FOR
  end.

Definition write_worker_fields_in_txn (m : RaftMeta) : tx unit :=
  tx_insert META_TERM (le64 (rm_current_term m));;
  write_vote (rm_voted_for m);;
  tx_insert META_COMMIT_INDEX (le64 (rm_commit_index m));;
  tx_insert META_SNAP_INDEX (le64 (rm_snap_last_index m));;
  tx_insert META_SNAP_TERM (le64 (rm_snap_last_term m)).

Definition write_in_txn (m : RaftMeta) : tx unit :=
  tx_insert META_TERM (le64 (rm_current_term m));;
  write_vote (rm_voted_for m);;
  tx_insert META_COMMIT_INDEX (le64 (rm_commit_index m));;
  tx_insert META_LAST_APPLIED (le64 (rm_last_applied m));;
  tx_insert META_SNAP_INDEX (le64 (rm_snap_last_index m));;
  tx_insert META_SNAP_TERM (le64 (rm_snap_last_term m)).

Definition write_host_fields_in_txn (m : RaftMeta) : tx unit :=
  tx_insert META_LAST_APPLIED (le64 (rm_last_applied m)).

Definition last_applied_in_txn : tx N :=
  v ← tx_get META_LAST_APPLIED; mret (default 0 (u64_le <$> v)).

Definition write_active_config_in_txn (r : ActiveConfigRecord N) : tx unit :=
  tx_insert META_ACTIVE_CONFIG (encode_active_config r).

(** ** Applied images *)

Definition RAFT_APPLIED_STATE_V2_MARKER_INDEX : N := 0.
Definition RAFT_APPLIED_STATE_V2_MARKER : bytes := String.list_byte_of_string "VOS_RAFT_APPLIED_STATE_V2".
Definition RAFT_APPLIED_STATE_V2_RETENTION : N := 16.

Definition prune_applied (through : N) : tx unit :=
  keys ← tx_applied_keys 1 through;
  tx_each (λ k, tx_remove (AppliedRow k)) keys.

Definition write_applied_state_v2_in_txn (index : N) (state : bytes) : tx unit :=
  tx_insert (AppliedRow RAFT_APPLIED_STATE_V2_MARKER_INDEX) RAFT_APPLIED_STATE_V2_MARKER;;
  tx_insert (AppliedRow index) state;;
  let prune_through := index - RAFT_APPLIED_STATE_V2_RETENTION in
  if 0 <? prune_through then prune_applied prune_through else mret tt.

(** ** Reading the log *)

Fixpoint each_row {A B} (f : A → result CE B) (l : list A) : result CE (list B) :=
  match l with
  | [] => Ok []
  | x :: l => y ← f x; ys ← each_row f l; Ok (y :: ys)
  end.

(** [RaftLog::entries], rows decoded by [RedbStorage::entries]. *)
Definition log_rows (db : D) (lg : RaftLog) (start stop : N) : result CE (list (N * bytes)) :=
  if stop <? start then Ok []
  else
    let effective_start := N.max start (rl_snap_last_index lg ⊞ 1) in
    if stop <? effective_start then Ok []
    else
      r ← backend (begin_read db);
      backend (r_range_log r effective_start stop).

Definition log_entries (db : D) (lg : RaftLog) (start stop : N) : result CE (list (N * (N * bytes))) :=
  rows ← log_rows db lg start stop;
  each_row (λ e, p ← or_config (row_decode e.2); Ok (e.1, p)) rows.

Definition log_term_at (db : D) (lg : RaftLog) (index : N) : result CE (option N) :=
  if index =? 0 then Ok (Some 0)
  else if index <? rl_snap_last_index lg then Ok None
  else if (index =? rl_snap_last_index lg) && (0 <? rl_snap_last_index lg) then Ok (Some (rl_snap_last_term lg))
  else if rl_last_index lg <? index then Ok None
  else
    r ← backend (begin_read db);
    v ← backend (r_get r (LogRow index));
    Ok (v ≫= λ b, fst <$> row_decode b).

Definition read_state_bytes (db : D) : result CE bytes :=
  r ← backend (begin_read db);
  v ← backend (r_get r STATE_KEY);
  Ok (default [] v).

(** A transaction that writes through [t] alone. *)
Definition run_tx {A} (lg : RaftLog) (db : D) (t : tx A) : RaftLog * result CE (A * D) :=
  match backend (begin_write db) with
  | Err e => (lg, Err e)
  | Ok w =>
      match t lg w with
      | (lg, Ok (x, w)) => (lg, d ← backend (w_commit w); Ok (x, d))
      | (lg, Err e) => (lg, Err e)
      end
  end.

Definition seed_active_config (db : D) (members : list N) : result CE (bool * D) :=
  existing ← load_active_config db;
  match existing with
  | Some _ => Ok (false, db)
  | None =>
      '(_, db) ← snd (run_tx (mkRaftLog 0 0 0 0) db (write_active_config_in_txn (mkActiveRecord (Some 0) members None)));
      Ok (true, db)
  end.

(** ** [RedbStorage] *)

Record RedbStorage := mkRedbStorage {
  rs_db : D;
  rs_log : RaftLog;
  rs_meta : RaftMeta;
}.

Definition storage_open (db : D) : result CE RedbStorage :=
  lg ← log_open db;
  m ← meta_load db;
  Ok (mkRedbStorage db lg m).

Definition storage_entries (s : RedbStorage) (start stop : N) : result CE (list (LogEntry N)) :=
  raw ← log_entries (rs_db s) (rs_log s) start stop;
  each_row (λ e, kind ← decode_entry_kind e.2.2; Ok (mkEntry e.1 e.2.1 kind)) raw.

Definition storage_applied_index (s : RedbStorage) : result CE (option N) :=
  m ← meta_load (rs_db s); Ok (Some (rm_last_applied m)).

Definition batch_is_empty (b : WriteBatch N) : bool :=
  bool_decide (wb_truncate_after b = None) && bool_decide (wb_compact_to b = None) && (length (wb_appends b) =? 0)%nat
  && bool_decide (wb_state b = None) && bool_decide (wb_meta b = None) && bool_decide (wb_active_config b = None).

Definition append_entry (e : LogEntry N) : tx unit :=
  append_in_txn (e_term e) (encode_entry_kind (e_kind e));; mret tt.

(** The state row a batch writes, and whether applied images are pruned: the
    batch's own state; or at a compaction the image applied at exactly that index,
    or the single image of the old format when it is at that index. *)
Definition snapshot_state (b : WriteBatch N) : tx (option bytes * bool) :=
  match wb_state b, wb_compact_to b with
  | Some state, _ => mret (Some state, bool_decide (is_Some (wb_compact_to b)))
  | None, None => mret (None, false)
  | None, Some (index, _) =>
      exact_ ← tx_get (AppliedRow index);
      marker ← tx_get (AppliedRow RAFT_APPLIED_STATE_V2_MARKER_INDEX);
      match exact_, bool_decide (marker = Some RAFT_APPLIED_STATE_V2_MARKER) with
      | Some value, _ => mret (Some value, true)
      | None, true => tx_config
      | None, false =>
          last_applied ← last_applied_in_txn;
          if index =? last_applied then
            state ← tx_get STATE_KEY;
            match state with
            | Some state => mret (Some state, false)
            | None => tx_config
            end
          else tx_config
      end
  end.

(** 1) truncate, 2) compact, 3) append *)
Definition log_steps (b : WriteBatch N) : tx unit :=
  (match wb_truncate_after b with Some after => truncate_after_in_txn after | None => mret tt end);;
  (match wb_compact_to b with Some (idx, term) => compact_to_in_txn idx term | None => mret tt end);;
  tx_each append_entry (wb_appends b).

(** 4) the state row, and the images that a compaction makes useless *)
Definition state_steps (b : WriteBatch N) : tx unit :=
  '(state, prune) ← snapshot_state b;
  (match state with Some bytes_ => tx_insert STATE_KEY bytes_ | None => mret tt end);;
  match prune, wb_compact_to b with
  | true, Some (compacted, _) => prune_applied compacted
  | _, _ => mret tt
  end.

(** 5) the scalars, 6) the adopted configuration *)
Definition meta_steps (meta : RaftMeta) (b : WriteBatch N) : tx unit :=
  (match wb_meta b with Some m => write_worker_fields_in_txn (raft_from_meta meta m) | None => mret tt end);;
  match wb_active_config b with Some c => write_active_config_in_txn c | None => mret tt end.

Definition do_txn (meta : RaftMeta) (b : WriteBatch N) : tx unit :=
  log_steps b;; state_steps b;; meta_steps meta b.

Definition redb_commit_batch (s : RedbStorage) (b : WriteBatch N) : RedbStorage * result CE unit :=
  if batch_is_empty b then (s, Ok tt)
  else
    match run_tx (rs_log s) (rs_db s) (do_txn (rs_meta s) b) with
    | (_, Err e) => (s, Err e)
    | (lg, Ok (_, db)) =>
        let meta := match wb_meta b with Some m => raft_from_meta (rs_meta s) m | None => rs_meta s end in
        (mkRedbStorage db lg meta, Ok tt)
    end.
End redb.
