(* ===== verification/RaftRedbLog.v ===== *)
(** * vos: the rows of a Raft replica

    Which bytes the formats of [RaftRedb] accept, and what the steps of a write
    transaction do to the rows: [runs t lg v C Q] says that [t], started with the
    cache [lg] on the rows [v], ends in [Q], or fails with an error of its own only
    if [C], or with one of the database. *)

From Stdlib.Strings Require Byte.
From S2P Require Import Prelude RaftTypes RaftStorage RaftConfig RaftState RaftWorker RaftNode RaftWrites RaftLog Bytes.
From S2P Require Import Parser Redb RaftRedb.

Local Open Scope N_scope.

(** ** Formats *)

Definition u16_list (l : list N) : Prop :=
  N.of_nat (length l) < int_modulus 2 ∧ Forall (λ n, n < int_modulus 2) l.
Definition joint_ok (j : option (list N)) : Prop := match j with Some l => u16_list l | None => True end.

Definition kind_ok (k : EntryKind N) : Prop :=
  match k with Data _ => True | ConfigChange j m => joint_ok j ∧ u16_list m end.

Lemma encodes_prefix_list : encodes decode_prefix_list u16_list encode_prefix_list.
Proof.
  eapply exactly_ext; [|eapply encodes_bind; [apply (encodes_uint 2)|]; intros n _; apply (encodes_items _ _ _ _ (encodes_uint 2))].
  intros w l. unfold encode_prefix_list. split.
  - intros (n & w2 & Hn & -> & [Hlen Hl] & ->). split; [split; [|done]|]; rewrite Hlen, N2Nat.id; done.
  - intros [[Hn Hl] ->]. exists (N.of_nat (length l)), (l ≫= to_le_bytes 2). rewrite Nat2N.id. done.
Qed.

Lemma encodes_joint : encodes decode_joint joint_ok encode_joint.
Proof.
  eapply exactly_ext; [|eapply encodes_bind; [apply encodes_byte|]; intros flag _;
    instantiate (1 := λ flag w j, if decide (flag = Byte.x00) then w = [] ∧ j = None
                        else if decide (flag = Byte.x01) then ∃ l w2, u16_list l ∧ w = encode_prefix_list l ++ w2 ∧ w2 = [] ∧ j = Some l
                        else False)].
  - intros w j. unfold encode_joint. split.
    + intros (flag & w2 & _ & -> & Hj). case_decide as H0; [destruct Hj as [-> ->]; by subst|].
      case_decide as H1; [|done]. destruct Hj as (l & w3 & Hl & -> & -> & ->). rewrite app_nil_r. by subst.
    + intros [Hj ->]. destruct j as [l|].
      * exists Byte.x01, (encode_prefix_list l). split_and!; [done|done|]. exists l, []. by rewrite app_nil_r.
      * exists Byte.x00, []. done.
  - cbv beta. case_decide as H0; [apply exactly_ret|]. case_decide as H1; [|apply exactly_refuse; by intros w x []].
    eapply encodes_bind; [apply encodes_prefix_list|]. intros l _. apply exactly_ret.
Qed.

Lemma encodes_config_body :
  encodes decode_config_body (λ c, joint_ok c.1 ∧ u16_list c.2) (λ c, encode_joint c.1 ++ encode_prefix_list c.2).
Proof.
  eapply exactly_ext; [|eapply encodes_bind; [apply encodes_joint|]; intros j _;
    eapply encodes_bind; [apply encodes_prefix_list|]; intros m _; apply exactly_ret].
  intros w c. split.
  - intros (j & ? & Hj & -> & m & ? & Hm & -> & -> & ->). rewrite app_nil_r. done.
  - intros [[Hj Hm] ->]. destruct c as [j m]. exists j, (encode_prefix_list m). split_and!; [done|done|].
    exists m, []. by rewrite app_nil_r.
Qed.

Lemma decode_entry_kind_spec {E} b k :
  decode_entry_kind (E:=E) b = Ok k ↔ kind_ok k ∧ b = encode_entry_kind k.
Proof.
  unfold decode_entry_kind. destruct b as [|tag rest]; [split; [done|]; by intros [_ ?]; destruct k|].
  case_decide as H0; [|case_decide as H1].
  - subst tag. split; [by intros [= <-]|]. intros [_ Hb]. destruct k; [by injection Hb as ->|done].
  - subst tag. pose proof (λ c, p_all_spec _ _ rest c encodes_config_body) as Hspec. split.
    + destruct (p_all decode_config_body rest) as [[j m]|]; [|done]. intros [= <-].
      destruct (proj1 (Hspec (j, m)) eq_refl) as [Hok ->]. done.
    + intros [Hok Hb]. destruct k as [|j m]; [by injection Hb|]. injection Hb as ->.
      assert (p_all decode_config_body (encode_joint j ++ encode_prefix_list m) = Some (j, m)) as ->; [|done].
      by apply (Hspec (j, m)).
  - split; [done|]. intros [_ Hb]. destruct k; injection Hb as ->; done.
Qed.

Definition config_ok (c : ActiveConfigRecord N) : Prop :=
  joint_ok (acr_joint_old c) ∧ u16_list (acr_current c) ∧ match acr_log_index c with Some i => i < u64_max | None => True end.

Lemma decode_encode_active_config c : config_ok c → decode_active_config (encode_active_config c) = Some c.
Proof.
  intros (Hj & Hc & Hi). unfold decode_active_config, encode_active_config. rewrite decide_True by by eexists.
  rewrite drop_app_length' by done. set (i := default u64_max (acr_log_index c)).
  assert (i < int_modulus 8) as Hlt by (unfold i; change (int_modulus 8) with (u64_max + 1); destruct (acr_log_index c); cbn; lia).
  assert (p_uint 8 (le64 i ++ encode_joint (acr_joint_old c) ++ encode_prefix_list (acr_current c)) =
    Some (i, encode_joint (acr_joint_old c) ++ encode_prefix_list (acr_current c))) as ->.
  { apply (encodes_uint 8). by exists (le64 i). }
  unfold decode_active_body.
  assert (p_all decode_config_body (encode_joint (acr_joint_old c) ++ encode_prefix_list (acr_current c)) =
    Some (acr_joint_old c, acr_current c)) as ->.
  { apply (p_all_spec _ _ _ _ encodes_config_body). done. }
  cbn [mbind option_bind]. destruct c as [[j|] cur jo]; cbn in *; [|done].
  unfold i. by rewrite (proj2 (N.eqb_neq _ _)) by lia.
Qed.

Lemma u64_le_le64 v : v < u64_modulus → u64_le (le64 v) = v.
Proof. intros Hv. unfold u64_le, le64. rewrite take_ge by by rewrite length_to_le_bytes. by apply from_to_le_bytes. Qed.

Lemma row_decode_encode t p : t < u64_modulus → row_decode (row_encode t p) = Some (t, p).
Proof.
  intros Ht. unfold row_decode, row_encode, le64.
  rewrite (proj2 (Nat.ltb_ge _ _)) by (rewrite length_app, length_to_le_bytes; lia).
  rewrite take_app_length', drop_app_length' by by rewrite length_to_le_bytes. by rewrite from_to_le_bytes.
Qed.

(** ** Transactions *)

Section runs.
Context {D R W E : Type} `{!Redb D R W E} `{!RedbLaws D R W E}.
Implicit Types (lg : RaftLog) (v : tables) (C : Prop).

Local Notation tx := (RaftRedb.tx (W:=W) (E:=E)).

Definition runs {A} (t : tx A) lg v C (Q : RaftLog → A → tables → Prop) : Prop :=
  ∀ w, wview w = v →
  match t lg w with
  | (lg', Ok (x, w')) => Q lg' x (wview w')
  | (_, Err Config) => C
  | (_, Err (Backend _)) => True
  end.

Lemma tx_runs_ret {A} (x : A) lg v C Q : Q lg x v → runs (mret x) lg v C Q.
Proof. by intros HQ w <-. Qed.

Lemma tx_runs_bind {A B} (t : tx A) (k : A → tx B) lg v C Q :
  runs t lg v C (λ lg' x v', runs (k x) lg' v' C Q) → runs (t ≫= k) lg v C Q.
Proof.
  intros Ht w Hw. specialize (Ht w Hw). unfold mbind, tx_bind.
  destruct (t lg w) as [lg' [[x w']|[|e]]]; [|done..]. by apply Ht.
Qed.

Lemma tx_runs_mono {A} (t : tx A) lg v C (Q Q' : RaftLog → A → tables → Prop) :
  (∀ lg' x v', Q lg' x v' → Q' lg' x v') → runs t lg v C Q → runs t lg v C Q'.
Proof.
  intros HQ Ht w Hw. specialize (Ht w Hw). destruct (t lg w) as [lg' [[x w']|[|e]]]; [|done..]. by apply HQ.
Qed.

Lemma runs_log lg v C (Q : RaftLog → RaftLog → tables → Prop) : Q lg lg v → runs tx_log lg v C Q.
Proof. by intros HQ w <-. Qed.

Lemma runs_set_log lg' lg v C (Q : RaftLog → unit → tables → Prop) : Q lg' tt v → runs (tx_set_log lg') lg v C Q.
Proof. by intros HQ w <-. Qed.

Lemma runs_config {A} lg v (C : Prop) (Q : RaftLog → A → tables → Prop) : C → runs tx_config lg v C Q.
Proof. by intros HC w <-. Qed.

Lemma runs_get k lg v C (Q : RaftLog → option bytes → tables → Prop) : Q lg (v !! k) v → runs (tx_get k) lg v C Q.
Proof.
  intros HQ w <-. unfold tx_get. destruct (w_get w k) as [x|e] eqn:Hg; cbn; [|done]. by rewrite (w_get_view _ _ _ Hg).
Qed.

Lemma runs_insert k b lg v C (Q : RaftLog → unit → tables → Prop) : Q lg tt (<[k := b]> v) → runs (tx_insert k b) lg v C Q.
Proof.
  intros HQ w <-. unfold tx_insert, tx_write. destruct (w_insert w k b) as [x|e] eqn:Hi; cbn; [|done].
  by rewrite (w_insert_view _ _ _ _ Hi).
Qed.

Lemma runs_remove k lg v C (Q : RaftLog → unit → tables → Prop) : Q lg tt (delete k v) → runs (tx_remove k) lg v C Q.
Proof.
  intros HQ w <-. unfold tx_remove, tx_write. destruct (w_remove w k) as [x|e] eqn:Hi; cbn; [|done].
  by rewrite (w_remove_view _ _ _ Hi).
Qed.

(** Removing a list of rows. *)
Definition without (ks : list row) v : tables := filter (λ e, e.1 ∉ ks) v.

Lemma lookup_without ks v k : without ks v !! k = if decide (k ∈ ks) then None else v !! k.
Proof using.
  unfold without. case_decide as Hk.
  - apply map_lookup_filter_None. right. intros b _ Hn. by apply Hn.
  - destruct (v !! k) as [b|] eqn:Hb; [by apply map_lookup_filter_Some|]. apply map_lookup_filter_None. by left.
Qed.

Lemma runs_remove_all {K} (key : K → row) ks lg v C (Q : RaftLog → unit → tables → Prop) :
  Q lg tt (without (key <$> ks) v) → runs (tx_each (λ k, tx_remove (key k)) ks) lg v C Q.
Proof.
  revert v. induction ks as [|k ks IH]; intros v HQ; cbn [tx_each].
  - apply tx_runs_ret. replace v with (without (key <$> []) v); [done|]. apply map_eq. intros j. by rewrite lookup_without.
  - apply tx_runs_bind, runs_remove, IH. replace (without (key <$> ks) (delete (key k) v)) with (without (key <$> k :: ks) v); [done|].
    apply map_eq. intros j. rewrite !lookup_without, fmap_cons, lookup_delete.
    repeat case_decide; try done; set_solver.
Qed.

(** Rows that pruning up to an index leaves: the marker and later images stay. *)
Definition keeps_row (through : N) (r : row) : bool :=
  match r with AppliedRow i => (i =? 0) || (through <? i) | _ => true end.
Definition pruned (through : N) v : tables := filter (λ e, keeps_row through e.1 = true) v.

Lemma lookup_pruned through v k : pruned through v !! k = if keeps_row through k then v !! k else None.
Proof using.
  unfold pruned. destruct (keeps_row through k) eqn:Hk.
  - destruct (v !! k) as [b|] eqn:Hb; [by apply map_lookup_filter_Some|]. apply map_lookup_filter_None. by left.
  - apply map_lookup_filter_None. right. cbn. congruence.
Qed.

Lemma runs_prune through lg v C (Q : RaftLog → unit → tables → Prop) :
  Q lg tt (pruned through v) → runs (prune_applied through) lg v C Q.
Proof.
  intros HQ. unfold prune_applied. apply tx_runs_bind. intros w <-. unfold tx_applied_keys.
  destruct (w_applied_keys w 1 through) as [ks|e] eqn:Hk; cbn; [|done]. apply runs_remove_all.
  pose proof (w_applied_keys_view _ _ _ _ Hk) as Hks.
  replace (without (AppliedRow <$> ks) (wview w)) with (pruned through (wview w)); [done|].
  apply map_eq. intros k. rewrite lookup_pruned, lookup_without. destruct (keeps_row through k) eqn:Hkept.
  - rewrite decide_False; [done|]. intros (i & -> & [Hi _]%Hks)%list_elem_of_fmap. unfold keeps_row in Hkept.
    destruct (N.eqb_spec i 0), (N.ltb_spec through i); cbn in Hkept; done || lia.
  - case_decide as Hin; [done|]. destruct k as [| | |i| |]; try done. unfold keeps_row in Hkept.
    destruct (N.eqb_spec i 0), (N.ltb_spec through i); cbn in Hkept; try done.
    destruct (wview w !! AppliedRow i) as [b|] eqn:Hb; [|done]. destruct Hin. apply list_elem_of_fmap_2, Hks.
    rewrite Hb. split; [lia|done].
Qed.
End runs.

(** * vos: the log rows of a Raft replica

    [log_at v lg l]: the rows [v] hold the log [l] of [RaftStorage]'s in-memory
    backend, between the snapshot pointer and the last index that the cache [lg]
    names, and the cached term is that of the last entry.  The steps of a batch on
    [RaftRedb]'s rows are those of [mem_commit_batch] on [l]. *)

Implicit Types (v : tables) (l : gmap N (LogEntry N)).

Definition entry_row (e : LogEntry N) : bytes := row_encode (e_term e) (encode_entry_kind (e_kind e)).
Definition entry_ok (e : LogEntry N) : Prop :=
  e_index e < u64_modulus ∧ e_term e < u64_modulus ∧ kind_ok (e_kind e).

Record log_at v (lg : RaftRedb.RaftLog) l : Prop := {
  la_rows k : v !! LogRow k = entry_row <$> l !! k;
  la_keys k : is_Some (l !! k) ↔ rl_snap_last_index lg < k ≤ rl_last_index lg;
  la_entry k e : l !! k = Some e → e_index e = k ∧ entry_ok e;
  la_order : rl_snap_last_index lg ≤ rl_last_index lg;
  la_width : rl_last_index lg < u64_modulus;
  la_term : rl_last_term lg = default (rl_snap_last_term lg) (e_term <$> l !! rl_last_index lg);
  la_zero : rl_snap_last_index lg = 0 → rl_snap_last_term lg = 0;
}.

(** Rows outside the log stay. *)
Definition log_only v v' : Prop := ∀ k, log_key k = None → v' !! k = v !! k.

Lemma elem_of_range_incl lo hi k : k ∈ range_incl lo hi ↔ lo ≤ k ≤ hi.
Proof.
  unfold range_incl. rewrite list_elem_of_fmap. setoid_rewrite elem_of_seq. split; [intros (i & -> & Hi); lia|].
  intros Hk. exists (N.to_nat (k - lo)). lia.
Qed.

Lemma lookup_without_log lo hi v k :
  without (LogRow <$> range_incl lo hi) v !! LogRow k = if decide (lo ≤ k ≤ hi) then None else v !! LogRow k.
Proof.
  rewrite lookup_without. apply decide_ext. rewrite list_elem_of_fmap. setoid_rewrite elem_of_range_incl.
  split; [by intros (? & [= ->] & ?)|]. eauto.
Qed.

Lemma without_log_only ks v : log_only v (without (LogRow <$> ks) v).
Proof. intros k Hk. rewrite lookup_without, decide_False; [done|]. by intros (i & -> & _)%list_elem_of_fmap. Qed.

Lemma lookup_mem_truncate l after k : mem_truncate after l !! k = if decide (k ≤ after) then l !! k else None.
Proof.
  unfold mem_truncate. case_decide.
  - destruct (l !! k) as [e|] eqn:He; [by apply map_lookup_filter_Some|]. apply map_lookup_filter_None. by left.
  - apply map_lookup_filter_None. by right.
Qed.

Lemma lookup_mem_compact l idx k : mem_compact idx l !! k = if decide (idx < k) then l !! k else None.
Proof.
  unfold mem_compact. case_decide.
  - destruct (l !! k) as [e|] eqn:He; [by apply map_lookup_filter_Some|]. apply map_lookup_filter_None. by left.
  - apply map_lookup_filter_None. by right.
Qed.

Lemma log_at_ext v v' lg l : log_at v lg l → (∀ k, v' !! LogRow k = v !! LogRow k) → log_at v' lg l.
Proof. intros [] Hv. split; [intros k; by rewrite Hv|done..]. Qed.

Lemma log_at_none v lg l k : log_at v lg l → ¬ rl_snap_last_index lg < k ≤ rl_last_index lg → l !! k = None.
Proof. intros Hl Hk. destruct (l !! k) eqn:He; [|done]. destruct Hk. apply (la_keys _ _ _ Hl). by rewrite He. Qed.

Section steps.
Context {D R W E : Type} `{!Redb D R W E} `{!RedbLaws D R W E}.
Implicit Types (lg : RaftRedb.RaftLog) (C : Prop) (Q : RaftRedb.RaftLog → unit → tables → Prop).

(** ** Truncation *)

Lemma log_at_truncate v lg l after t :
  log_at v lg l → rl_snap_last_index lg ≤ after < rl_last_index lg →
  t = default (rl_snap_last_term lg) (e_term <$> l !! after) →
  log_at (without (LogRow <$> range_incl (after + 1) (rl_last_index lg)) v)
    (mkRaftLog after t (rl_snap_last_index lg) (rl_snap_last_term lg)) (mem_truncate after l).
Proof using.
  intros Hl Ha Ht. pose proof (la_width _ _ _ Hl).
  split; cbn; [|intros k|intros k e|lia|lia| |apply Hl].
  - intros k. rewrite lookup_without_log, lookup_mem_truncate, (la_rows _ _ _ Hl).
    repeat case_decide; try done; try lia. by rewrite (log_at_none _ _ _ _ Hl) by lia.
  - rewrite lookup_mem_truncate. case_decide.
    + rewrite (la_keys _ _ _ Hl). lia.
    + split; [by intros []|lia].
  - rewrite lookup_mem_truncate. case_decide; [|done]. apply Hl.
  - by rewrite lookup_mem_truncate, decide_True by done.
Qed.

Lemma runs_truncate after lg v l C Q :
  log_at v lg l → (after < rl_snap_last_index lg → C) →
  (∀ lg' v', rl_snap_last_index lg ≤ after → log_at v' lg' (mem_truncate after l) → log_only v v' →
     rl_snap_last_index lg' = rl_snap_last_index lg → rl_snap_last_term lg' = rl_snap_last_term lg →
     rl_last_index lg' = N.min after (rl_last_index lg) → Q lg' tt v') →
  runs (truncate_after_in_txn after) lg v C Q.
Proof.
  intros Hl HC HQ. unfold truncate_after_in_txn. apply tx_runs_bind, runs_log. pose proof (la_order _ _ _ Hl) as Hord.
  destruct (N.leb_spec (rl_last_index lg) after) as [Hge|Hlt].
  { apply tx_runs_ret, HQ; [lia| |done..|lia]. replace (mem_truncate after l) with l; [done|]. symmetry.
    apply map_filter_id. intros k e He. assert (is_Some (l !! k)) as Hk%(la_keys _ _ _ Hl) by by rewrite He. lia. }
  destruct (N.ltb_spec after (rl_snap_last_index lg)); [by apply runs_config, HC|].
  apply tx_runs_bind. eapply (tx_runs_mono _ _ _ _ (λ lg' t v', lg' = lg ∧ v' = v ∧
    t = default (rl_snap_last_term lg) (e_term <$> l !! after))).
  - intros lg' t v' (-> & -> & Ht). pose proof (la_width _ _ _ Hl).
    rewrite wrapping_add64_small by (unfold u64_max, u64_modulus in *; lia). apply tx_runs_bind, runs_remove_all, runs_set_log.
    apply HQ; [lia|by apply log_at_truncate|apply without_log_only|done|done|cbn; lia].
  - unfold truncated_term. destruct (N.eqb_spec after 0) as [->|].
    { apply tx_runs_ret. split_and!; [done..|]. rewrite (log_at_none _ _ _ _ Hl) by lia. cbn. symmetry. apply (la_zero _ _ _ Hl). lia. }
    destruct (N.eqb_spec after (rl_snap_last_index lg)) as [->|].
    { apply tx_runs_ret. split_and!; [done..|]. by rewrite (log_at_none _ _ _ _ Hl) by lia. }
    apply tx_runs_bind, runs_get. rewrite (la_rows _ _ _ Hl). destruct (proj2 (la_keys _ _ _ Hl after)) as [e He]; [lia|].
    rewrite He. destruct (la_entry _ _ _ Hl _ _ He) as (_ & _ & Ht & _). cbn. unfold entry_row. rewrite row_decode_encode by done. by apply tx_runs_ret.
Qed.

(** ** Compaction *)

Definition snap_pointed (idx term : N) v v' : Prop :=
  v' !! META_SNAP_INDEX = Some (le64 idx) ∧ v' !! META_SNAP_TERM = Some (le64 term) ∧
  ∀ k, log_key k = None → k ≠ META_SNAP_INDEX → k ≠ META_SNAP_TERM → v' !! k = v !! k.

Lemma log_at_compact v v' lg l idx term :
  log_at v lg l → rl_snap_last_index lg < idx < u64_modulus → (idx = rl_last_index lg → term = rl_last_term lg) →
  (∀ k, v' !! LogRow k = if decide (rl_snap_last_index lg + 1 ≤ k ≤ N.min idx (rl_last_index lg)) then None else v !! LogRow k) →
  log_at v' (if rl_last_index lg <? idx then mkRaftLog idx term idx term
             else mkRaftLog (rl_last_index lg) (rl_last_term lg) idx term) (mem_compact idx l).
Proof using.
  intros Hl Hidx Hterm Hv. pose proof (la_width _ _ _ Hl). assert (∀ k, is_Some (mem_compact idx l !! k) ↔ idx < k ≤ rl_last_index lg) as Hkeys.
  { intros k. rewrite lookup_mem_compact. case_decide; [rewrite (la_keys _ _ _ Hl); lia|]. split; [by intros []|lia]. }
  assert (∀ k, v' !! LogRow k = entry_row <$> mem_compact idx l !! k) as Hrows.
  { intros k. rewrite Hv, lookup_mem_compact, (la_rows _ _ _ Hl).
    repeat case_decide; try done; try lia. by rewrite (log_at_none _ _ _ _ Hl) by lia. }
  assert (∀ k e, mem_compact idx l !! k = Some e → e_index e = k ∧ entry_ok e) as Hent.
  { intros k e. rewrite lookup_mem_compact. case_decide; [|done]. apply Hl. }
  destruct (N.ltb_spec (rl_last_index lg) idx); split; cbn; try done; try lia.
  - intros k. rewrite Hkeys. lia.
  - by rewrite lookup_mem_compact, decide_False by lia.
  - rewrite lookup_mem_compact. case_decide; [|cbn; symmetry; apply Hterm; lia].
    rewrite (la_term _ _ _ Hl). by destruct (proj2 (la_keys _ _ _ Hl (rl_last_index lg))) as [e ->]; [lia|].
Qed.

Lemma runs_compact idx term lg v l C Q :
  log_at v lg l → rl_snap_last_index lg < idx < u64_modulus → (idx = rl_last_index lg → term = rl_last_term lg) →
  (∀ lg' v', log_at v' lg' (mem_compact idx l) → snap_pointed idx term v v' →
     rl_snap_last_index lg' = idx → rl_snap_last_term lg' = term →
     rl_last_index lg' = N.max idx (rl_last_index lg) → Q lg' tt v') →
  runs (compact_to_in_txn idx term) lg v C Q.
Proof.
  intros Hl Hidx Hterm HQ. unfold compact_to_in_txn. apply tx_runs_bind, runs_log.
  destruct (N.leb_spec idx (rl_snap_last_index lg)); [lia|]. rewrite wrapping_add64_small by (unfold u64_max, u64_modulus in *; lia).
  apply tx_runs_bind, runs_remove_all, tx_runs_bind, runs_insert, tx_runs_bind, runs_insert, runs_set_log. apply HQ.
  - apply (log_at_compact v); [done..|]. intros k. rewrite !lookup_insert_ne by done. apply lookup_without_log.
  - split_and!.
    + by rewrite lookup_insert_ne, lookup_insert_eq.
    + by rewrite lookup_insert_eq.
    + intros k Hk H1 H2. rewrite !lookup_insert_ne by done. by apply without_log_only.
  - by destruct (_ <? _).
  - by destruct (_ <? _).
  - destruct (N.ltb_spec (rl_last_index lg) idx); cbn; lia.
Qed.

(** ** Appending *)

Lemma log_at_append v lg l e :
  log_at v lg l → e_index e = rl_last_index lg + 1 → entry_ok e →
  log_at (<[LogRow (rl_last_index lg + 1) := entry_row e]> v)
    (mkRaftLog (rl_last_index lg + 1) (e_term e) (rl_snap_last_index lg) (rl_snap_last_term lg)) (<[e_index e := e]> l).
Proof using.
  intros Hl Hi Hok. pose proof (la_order _ _ _ Hl) as Hord. rewrite Hi. split; cbn; [|intros k|intros k e'|lia|rewrite <- Hi; apply Hok| |apply Hl].
  - intros k. destruct (decide (k = rl_last_index lg + 1)) as [->|]; [by rewrite !lookup_insert_eq|].
    rewrite !lookup_insert_ne by congruence. apply Hl.
  - destruct (decide (k = rl_last_index lg + 1)) as [->|].
    + rewrite lookup_insert_eq. split; [lia|done].
    + rewrite lookup_insert_ne by done. rewrite (la_keys _ _ _ Hl). lia.
  - destruct (decide (k = rl_last_index lg + 1)) as [->|].
    + rewrite lookup_insert_eq. by intros [= <-].
    + rewrite lookup_insert_ne by done. apply Hl.
  - by rewrite lookup_insert_eq.
Qed.

Lemma runs_append es lg v l C Q :
  log_at v lg l → consecutive (rl_last_index lg + 1) es → Forall entry_ok es →
  (∀ lg' v', log_at v' lg' (mem_append l es) → log_only v v' →
     rl_snap_last_index lg' = rl_snap_last_index lg → rl_snap_last_term lg' = rl_snap_last_term lg →
     rl_last_index lg' = rl_last_index lg + N.of_nat (length es) → Q lg' tt v') →
  runs (tx_each append_entry es) lg v C Q.
Proof.
  revert lg v l. induction es as [|e es IH]; intros lg v l Hl Hcons Hok HQ; cbn [tx_each].
  { apply tx_runs_ret, HQ; [done..|cbn; lia]. }
  inversion Hok as [|?? He Hes]; subst. pose proof (Hcons 0%nat e eq_refl) as Hi. rewrite N.add_0_r in Hi.
  apply tx_runs_bind. unfold append_entry, append_in_txn. pose proof (proj1 He).
  apply tx_runs_bind, tx_runs_bind, runs_log, tx_runs_bind, runs_insert, tx_runs_bind, runs_set_log, tx_runs_ret, tx_runs_ret.
  rewrite wrapping_add64_small by (unfold u64_max, u64_modulus in *; lia).
  eapply IH; [by apply log_at_append| |done|].
  - intros i e' Hi'. rewrite (Hcons (Datatypes.S i) e' Hi'). cbn. lia.
  - intros lg' v' Hl' Hv' Hs Ht Hlast. apply HQ; [done| |done|done|cbn in *; lia].
    intros k Hk. rewrite (Hv' k Hk). apply lookup_insert_ne. by intros <-.
Qed.
End steps.
