(* ===== verification/RaftRedbCommit.v ===== *)
(** * vos: batches on the redb backend

    [rows_at v lg d]: the rows [v] and the log cache [lg] hold the store [d] of
    [RaftStorage].  [fits d b] is the shape of the batches the worker writes and
    [batch_ok b] the width of their numbers; [run_batch] shows what the transaction
    of such a batch does, [refused] when it fails by itself. *)

From Stdlib.Strings Require Byte.
From S2P Require Import Prelude RaftTypes RaftStorage RaftConfig RaftState RaftWorker RaftNode RaftWrites RaftLog Bytes.
From S2P Require Import Redb RaftRedb RaftRedbLog.

Local Open Scope N_scope.

Implicit Types (v : tables) (d : MemStorage N) (b : WriteBatch N).

Definition row_u64 v (k : row) : N := default 0 (u64_le <$> v !! k).
Definition row_vote v : option N :=
  x ← v !! META_VOTED_FOR; if (length x =? 2)%nat then Some (from_le_bytes x) else None.

(** The scalars that [RaftMeta::load] finds. *)
Definition loaded v : RaftMeta :=
  mkRaftMeta (row_u64 v META_TERM) (row_vote v) (row_u64 v META_COMMIT_INDEX) (row_u64 v META_LAST_APPLIED)
    (row_u64 v META_SNAP_INDEX) (row_u64 v META_SNAP_TERM).

Definition config_at v (c : option (ActiveConfigRecord N)) : Prop :=
  match v !! META_ACTIVE_CONFIG with
  | Some x => ∃ r, decode_active_config x = Some r ∧ c = Some r
  | None => c = None
  end.

Record rows_at v (lg : RaftRedb.RaftLog) d : Prop := {
  ra_log : log_at v lg (mem_log d);
  ra_snap : rl_snap_last_index lg = mem_snap_last_index d;
  ra_snap_term : rl_snap_last_term lg = mem_snap_last_term d;
  ra_meta : meta_from_raft (loaded v) = mem_meta d;
  ra_config : config_at v (mem_active_config_ d);
  ra_state : mem_state d = default [] (v !! STATE_KEY);
  ra_applied : mem_applied_index_ d = Some (rm_last_applied (loaded v));
}.

Lemma rows_at_covers v lg d : rows_at v lg d → covers d (rl_last_index lg).
Proof.
  intros H. destruct (ra_log _ _ _ H) as [_ Hk _ Ho _ _ _]. rewrite (ra_snap _ _ _ H) in *. by split.
Qed.

Lemma rows_at_wf v lg d : rows_at v lg d → log_wf d.
Proof.
  intros H. apply (log_wf_intro _ _ (rows_at_covers _ _ _ H)). intros k e He. by apply (la_entry _ _ _ (ra_log _ _ _ H)).
Qed.

Lemma rows_at_last v lg d : rows_at v lg d → rl_last_index lg = mem_last_index d.
Proof. intros H. symmetry. by eapply covers_last, rows_at_covers. Qed.

Lemma rows_at_last_term v lg d : rows_at v lg d → rl_last_term lg = mem_last_term d.
Proof.
  intros H. pose proof (ra_log _ _ _ H) as Hl. pose proof (rows_at_last _ _ _ H) as Hlast.
  rewrite (la_term _ _ _ Hl), (ra_snap_term _ _ _ H), Hlast. unfold mem_last_term, mem_last_index.
  destruct (last_key N.le (mem_log d)) as [k|] eqn:Hk; cbn; [done|].
  apply (last_key_None N.le) in Hk. by rewrite Hk, lookup_empty.
Qed.

(** ** Batches *)

(** The last index that truncation and compaction leave. *)
Definition batch_tail d b : N :=
  let last := match wb_truncate_after b with
              | Some after => N.min after (mem_last_index d)
              | None => mem_last_index d
              end in
  match wb_compact_to b with Some (idx, _) => N.max idx last | None => last end.

(** A batch that compacts writes the snapshot pointer, keeps the tail's term if it
    ends there, and does not truncate; other batches leave the pointer; entries
    follow the tail. *)
Record fits d b : Prop := {
  ft_snap :
    match wb_compact_to b with
    | Some (idx, term) =>
        mem_snap_last_index d < idx ∧ wb_truncate_after b = None ∧ (idx = mem_last_index d → term = mem_last_term d) ∧
        ∃ m, wb_meta b = Some m ∧ m_snap_last_index m = idx ∧ m_snap_last_term m = term
    | None => ∀ m, wb_meta b = Some m → same_snap (mem_meta d) m
    end;
  ft_appends : consecutive (batch_tail d b + 1) (wb_appends b);
}.

Definition meta_ok (m : Meta N) : Prop :=
  current_term m < u64_modulus ∧ match voted_for m with Some p => p < int_modulus 2 | None => True end ∧
  commit_index m < u64_modulus ∧ m_snap_last_index m < u64_modulus ∧ m_snap_last_term m < u64_modulus.

Definition batch_ok b : Prop :=
  Forall entry_ok (wb_appends b) ∧ (∀ m, wb_meta b = Some m → meta_ok m) ∧ (∀ c, wb_active_config b = Some c → config_ok c).

(** The state row that a compaction finds: the image applied at its index, or the
    only image of a replica without the marker if it is the one applied last. *)
Definition image_at v (index : N) : option bytes :=
  match v !! AppliedRow index with
  | Some value => Some value
  | None =>
      if bool_decide (v !! AppliedRow RAFT_APPLIED_STATE_V2_MARKER_INDEX = Some RAFT_APPLIED_STATE_V2_MARKER) then None
      else if index =? row_u64 v META_LAST_APPLIED then v !! STATE_KEY else None
  end.

Definition refused v d b : bool :=
  match wb_truncate_after b with Some after => after <? mem_snap_last_index d | None => false end
  || match wb_state b, wb_compact_to b with
     | None, Some (index, _) => bool_decide (image_at v index = None)
     | _, _ => false
     end.

Definition state_after v d b : bytes :=
  match wb_state b, wb_compact_to b with
  | Some state, _ => state
  | None, Some (index, _) => default (mem_state d) (image_at v index)
  | None, None => mem_state d
  end.

(** [mem_commit_batch], with the state row of the replica; the applied index is the
    host's. *)
Definition committed v d b : MemStorage N :=
  let d' := mem_commit_batch d b in
  mkMem (mem_log d') (state_after v d b) (mem_meta d') (mem_applied_index_ d) (mem_active_config_ d').

Lemma commit_snap d b :
  fits d b →
  match wb_compact_to b with
  | Some (idx, term) => mem_snap_last_index (mem_commit_batch d b) = idx ∧ mem_snap_last_term (mem_commit_batch d b) = term
  | None => mem_snap_last_index (mem_commit_batch d b) = mem_snap_last_index d ∧
            mem_snap_last_term (mem_commit_batch d b) = mem_snap_last_term d
  end.
Proof.
  intros [Hs _]. unfold mem_snap_last_index, mem_snap_last_term. rewrite mem_commit_meta.
  destruct (wb_compact_to b) as [[idx term]|]; [by destruct Hs as (_ & _ & _ & m & -> & <- & <-)|].
  destruct (wb_meta b) as [m|]; [|done]. by apply Hs.
Qed.

Definition set_vote (vote : option N) v : tables :=
  match vote with Some p => <[META_VOTED_FOR := to_le_bytes 2 p]> v | None => delete META_VOTED_FOR v end.

Lemma lookup_set_vote_ne vote v k : META_VOTED_FOR ≠ k → set_vote vote v !! k = v !! k.
Proof. intros Hk. destruct vote; cbn; [by rewrite lookup_insert_ne|by rewrite lookup_delete_ne]. Qed.

Lemma lookup_set_vote vote v : set_vote vote v !! META_VOTED_FOR = to_le_bytes 2 <$> vote.
Proof. destruct vote; cbn; [by rewrite lookup_insert_eq|by rewrite lookup_delete_eq]. Qed.

Lemma decode_vote vote :
  match vote with Some p => p < int_modulus 2 | None => True end →
  (x ← to_le_bytes 2 <$> vote; if (length x =? 2)%nat then Some (from_le_bytes x) else None) = vote.
Proof.
  destruct vote as [p|]; [|done]. intros Hp. cbn [fmap option_fmap option_map mbind option_bind].
  rewrite length_to_le_bytes. cbn [Nat.eqb]. by rewrite from_to_le_bytes.
Qed.

(** Lookups of scalars after a sequence of writes. *)
Ltac meta_lookups :=
  repeat first [rewrite lookup_insert_eq | rewrite lookup_insert_ne by done | rewrite lookup_set_vote
               | rewrite lookup_set_vote_ne by done].

Section batch.
Context {D R W E : Type} `{!Redb D R W E} `{!RedbLaws D R W E}.
Implicit Types (lg : RaftRedb.RaftLog).

(** Rows that the log steps of a batch leave alone. *)
Definition log_frame b v v' : Prop :=
  (∀ k, log_key k = None → k ≠ META_SNAP_INDEX → k ≠ META_SNAP_TERM → v' !! k = v !! k) ∧
  (wb_compact_to b = None → log_only v v').

Lemma runs_log_steps v lg d b C (Q : RaftRedb.RaftLog → unit → tables → Prop) :
  rows_at v lg d → fits d b → Forall entry_ok (wb_appends b) → (∀ m, wb_meta b = Some m → meta_ok m) →
  (match wb_truncate_after b with Some after => after < mem_snap_last_index d → C | None => True end) →
  (∀ lg' v', log_at v' lg' (mem_log (mem_commit_batch d b)) →
     (match wb_truncate_after b with Some after => mem_snap_last_index d ≤ after | None => True end) →
     rl_snap_last_index lg' = mem_snap_last_index (mem_commit_batch d b) →
     rl_snap_last_term lg' = mem_snap_last_term (mem_commit_batch d b) →
     log_frame b v v' → Q lg' tt v') →
  runs (log_steps b) lg v C Q.
Proof.
  intros Hr Hf Hok Hmok HC HQ. pose proof (ra_log _ _ _ Hr) as Hl. pose proof (commit_snap d b Hf) as Hs.
  pose proof (rows_at_last _ _ _ Hr) as Hlast. rewrite mem_commit_log in HQ. unfold batch_base in HQ.
  destruct Hf as [Hsnap Happ]. unfold batch_tail in Happ. unfold log_frame in HQ. unfold log_steps. apply tx_runs_bind.
  destruct (wb_compact_to b) as [[idx term]|].
  - destruct Hsnap as (Hidx & Htr & Hterm & m & Hm & Hmi & _), Hs as [Hs Ht]. destruct (Hmok m Hm) as (_ & _ & _ & Hw & _). rewrite Htr in *. apply tx_runs_ret, tx_runs_bind.
    eapply runs_compact; [done|rewrite (ra_snap _ _ _ Hr); lia|by rewrite Hlast, (rows_at_last_term _ _ _ Hr)|].
    intros lg1 v1 Hl1 (_ & _ & Hv1) Hs1 Ht1 Hlast1.
    eapply runs_append; [done|by rewrite Hlast1, Hlast|done|]. intros lg2 v2 Hl2 Hv2 Hs2 Ht2 _.
    apply HQ; [done|done|congruence|congruence|]. split; [|done]. intros k Hk H1 H2. rewrite (Hv2 k Hk). by apply Hv1.
  - destruct Hs as [Hs Ht]. destruct (wb_truncate_after b) as [after|].
    + eapply runs_truncate; [done|by rewrite (ra_snap _ _ _ Hr)|]. intros lg1 v1 Hge Hl1 Hv1 Hs1 Ht1 Hlast1.
      apply tx_runs_bind, tx_runs_ret. eapply runs_append; [done|by rewrite Hlast1, Hlast|done|].
      intros lg2 v2 Hl2 Hv2 Hs2 Ht2 _. rewrite (ra_snap _ _ _ Hr), (ra_snap_term _ _ _ Hr) in *.
      assert (log_only v v2) by (intros k Hk; by rewrite (Hv2 k Hk), (Hv1 k Hk)).
      apply HQ; [done|lia|congruence|congruence|]. split; [|done]. auto.
    + apply tx_runs_ret, tx_runs_bind, tx_runs_ret. eapply runs_append; [done|by rewrite Hlast|done|].
      intros lg2 v2 Hl2 Hv2 Hs2 Ht2 _. rewrite (ra_snap _ _ _ Hr), (ra_snap_term _ _ _ Hr) in *.
      apply HQ; [done|done|congruence|congruence|]. split; [|done]. auto.
Qed.

Lemma pruned_rows v index state :
  let v' := pruned index (<[STATE_KEY := state]> v) in
  v' !! STATE_KEY = Some state ∧ (∀ k, k ≠ STATE_KEY → applied_key k = None → v' !! k = v !! k) ∧
  ∀ i, i = 0 ∨ index < i → v' !! AppliedRow i = v !! AppliedRow i.
Proof using.
  cbv zeta. split_and!.
  - by rewrite lookup_pruned, lookup_insert_eq.
  - intros k Hk Ha. rewrite lookup_pruned, lookup_insert_ne by done. by destruct k.
  - intros i Hi. rewrite lookup_pruned, lookup_insert_ne by done. unfold keeps_row.
    destruct (N.eqb_spec i 0), (N.ltb_spec index i); cbn; done || lia.
Qed.

(** The state row a batch leaves, other tables but the applied images untouched. *)
Lemma runs_state_steps v lg b C (Q : RaftRedb.RaftLog → unit → tables → Prop) :
  (match wb_state b, wb_compact_to b with None, Some (index, _) => image_at v index = None → C | _, _ => True end) →
  (∀ v', (match wb_state b, wb_compact_to b with
          | Some state, _ => v' !! STATE_KEY = Some state
          | None, Some (index, _) => is_Some (image_at v index) ∧ v' !! STATE_KEY = image_at v index
          | None, None => v' !! STATE_KEY = v !! STATE_KEY
          end) →
     (∀ k, k ≠ STATE_KEY → applied_key k = None → v' !! k = v !! k) →
     (∀ i, match wb_compact_to b with Some (idx, _) => i = 0 ∨ idx < i | None => True end → v' !! AppliedRow i = v !! AppliedRow i) →
     Q lg tt v') →
  runs (state_steps b) lg v C Q.
Proof.
  intros HC HQ. unfold state_steps, snapshot_state. apply tx_runs_bind.
  destruct (wb_state b) as [state|], (wb_compact_to b) as [[index term]|]; cbn [is_Some bool_decide].
  - apply tx_runs_ret. cbn. apply tx_runs_bind, runs_insert, runs_prune. apply HQ; apply (pruned_rows v index state).
  - apply tx_runs_ret. cbn. apply tx_runs_bind, runs_insert, tx_runs_ret, HQ; [by rewrite lookup_insert_eq| |].
    + intros k Hk _. by rewrite lookup_insert_ne.
    + intros i _. by rewrite lookup_insert_ne.
  - apply tx_runs_bind, runs_get, tx_runs_bind, runs_get. unfold image_at in HC, HQ.
    destruct (v !! AppliedRow index) as [value|] eqn:He.
    { apply tx_runs_ret. cbn. apply tx_runs_bind, runs_insert, runs_prune.
      apply HQ; [split; [done|]|..]; apply (pruned_rows v index value). }
    case_bool_decide; [by apply runs_config, HC|]. apply tx_runs_bind. unfold last_applied_in_txn.
    apply tx_runs_bind, runs_get, tx_runs_ret. fold (row_u64 v META_LAST_APPLIED).
    destruct (index =? row_u64 v META_LAST_APPLIED); [|by apply runs_config, HC].
    apply tx_runs_bind, runs_get. destruct (v !! STATE_KEY) as [state|] eqn:Hs; [|by apply runs_config, HC].
    apply tx_runs_ret. cbn. apply tx_runs_bind, runs_insert, tx_runs_ret, HQ; [by rewrite lookup_insert_eq| |].
    + intros k Hk _. by rewrite lookup_insert_ne.
    + intros i _. by rewrite lookup_insert_ne.
  - apply tx_runs_ret. cbn. apply tx_runs_bind, tx_runs_ret, tx_runs_ret. by apply HQ.
Qed.

Lemma runs_vote vote lg v C (Q : RaftRedb.RaftLog → unit → tables → Prop) :
  Q lg tt (set_vote vote v) → runs (write_vote vote) lg v C Q.
Proof. intros HQ. unfold write_vote. destruct vote; [by apply runs_insert|by apply runs_remove]. Qed.

(** The scalars and the configuration. *)
Lemma runs_meta_steps meta v lg b C (Q : RaftRedb.RaftLog → unit → tables → Prop) :
  (∀ m, wb_meta b = Some m → meta_ok m) → (∀ c, wb_active_config b = Some c → config_ok c) →
  (∀ v', meta_from_raft (loaded v') = default (meta_from_raft (loaded v)) (wb_meta b) →
     (∀ c, config_at v c → config_at v' (match wb_active_config b with Some c => Some c | None => c end)) →
     (∀ k, match k with MetaRow _ => False | _ => True end ∨ k = META_LAST_APPLIED → v' !! k = v !! k) →
     Q lg tt v') →
  runs (meta_steps meta b) lg v C Q.
Proof.
  intros Hm Hc HQ. unfold meta_steps. apply tx_runs_bind.
  eapply (tx_runs_mono _ _ _ _ (λ lg' _ v', lg' = lg ∧ meta_from_raft (loaded v') = default (meta_from_raft (loaded v)) (wb_meta b) ∧
    v' !! META_ACTIVE_CONFIG = v !! META_ACTIVE_CONFIG ∧
    ∀ k, match k with MetaRow _ => False | _ => True end ∨ k = META_LAST_APPLIED → v' !! k = v !! k)).
  - intros lg' _ v' (-> & Hmeta & Hcfg & Hframe). destruct (wb_active_config b) as [c|].
    + apply runs_insert, HQ; [|intros ? _|].
      * rewrite <- Hmeta. unfold loaded, row_u64, row_vote. by rewrite !lookup_insert_ne by done.
      * unfold config_at. rewrite lookup_insert_eq. exists c. split; [|done]. by apply decode_encode_active_config, Hc.
      * intros k Hk. rewrite lookup_insert_ne; [by apply Hframe|]. intros <-. by destruct Hk as [[]|?].
    + apply tx_runs_ret, HQ; [done| |done]. intros c. unfold config_at. by rewrite Hcfg.
  - destruct (wb_meta b) as [m|]; [|by apply tx_runs_ret]. specialize (Hm m eq_refl). unfold write_worker_fields_in_txn.
    apply tx_runs_bind, runs_insert, tx_runs_bind, runs_vote, tx_runs_bind, runs_insert, tx_runs_bind, runs_insert, runs_insert.
    destruct Hm as (Ht & Hv & Hci & Hsi & Hst). split_and!; [done| | |].
    + unfold meta_from_raft, loaded, row_u64, row_vote. cbn [rm_current_term rm_voted_for rm_commit_index rm_snap_last_index rm_snap_last_term].
      meta_lookups. cbn [fmap option_fmap option_map default]. rewrite !u64_le_le64 by done. cbn.
      destruct m as [t vote ci si st]; cbn in *. f_equal. by apply decode_vote.
    + by meta_lookups.
    + intros k Hk. assert (∀ name, k = MetaRow name → k = META_LAST_APPLIED) as Hne by (intros name ->; by destruct Hk).
      assert (∀ j, j ≠ META_LAST_APPLIED → (∃ name, j = MetaRow name) → j ≠ k) as Hj.
      { intros j Hj1 [name ->] <-. by apply Hj1, (Hne name). }
      rewrite !lookup_insert_ne by (apply Hj; [done|by eexists]). rewrite lookup_set_vote_ne by (apply Hj; [done|by eexists]).
      by rewrite lookup_insert_ne by (apply Hj; [done|by eexists]).
Qed.

Lemma not_refused v d b :
  match wb_truncate_after b with Some after => mem_snap_last_index d ≤ after | None => True end →
  match wb_state b, wb_compact_to b with None, Some (index, _) => is_Some (image_at v index) | _, _ => True end →
  refused v d b = false.
Proof using.
  intros Ht Hs. unfold refused. apply orb_false_iff. split.
  - destruct (wb_truncate_after b); [by apply N.ltb_ge|done].
  - destruct (wb_state b), (wb_compact_to b) as [[index term]|]; try done. apply bool_decide_eq_false. by destruct Hs as [? ->].
Qed.

(** The whole transaction. *)
Lemma run_batch meta v lg d b :
  rows_at v lg d → fits d b → batch_ok b →
  runs (do_txn meta b) lg v (refused v d b = true) (λ lg' _ v',
    refused v d b = false ∧ rows_at v' lg' (committed v d b) ∧
    (∀ i, match wb_compact_to b with Some (idx, _) => i = 0 ∨ idx < i | None => True end → v' !! AppliedRow i = v !! AppliedRow i) ∧
    (∀ k, v' !! KvRow k = v !! KvRow k)).
Proof.
  intros Hr Hf (Hes & Hm & Hc). unfold do_txn. apply tx_runs_bind.
  eapply runs_log_steps; [done..| |].
  { unfold refused. destruct (wb_truncate_after b) as [after|]; [|done]. intros Hlt. by rewrite (proj2 (N.ltb_lt _ _)). }
  intros lg1 v1 Hl1 Htr Hs1 Ht1 [Hf1 Hf1']. 
  assert (∀ i, v1 !! AppliedRow i = v !! AppliedRow i) as Happ1 by (intros i; by apply Hf1).
  assert (∀ i, image_at v1 i = image_at v i) as Himg.
  { intros i. unfold image_at, row_u64. by rewrite !Happ1, !Hf1 by done. }
  apply tx_runs_bind, runs_state_steps.
  { unfold refused. destruct (wb_state b), (wb_compact_to b) as [[index term]|]; try done. rewrite Himg. intros ->.
    rewrite bool_decide_true by done. apply orb_true_r. }
  intros v2 Hst2 Hf2 Happ2. apply runs_meta_steps; [done..|]. intros v3 Hm3 Hc3 Hf3.
  assert (∀ k, log_key k = None → applied_key k = None → k ≠ META_SNAP_INDEX → k ≠ META_SNAP_TERM → k ≠ STATE_KEY →
    v2 !! k = v !! k) as Hv2 by (intros k ?????; by rewrite Hf2, Hf1).
  split_and!.
  - apply not_refused; [done|]. destruct (wb_state b), (wb_compact_to b) as [[index term]|]; try done. rewrite <- Himg. apply Hst2.
  - split.
    + apply (log_at_ext v1); [done|]. intros k. rewrite Hf3 by by left. by apply Hf2.
    + done.
    + done.
    + cbn [committed mem_meta]. rewrite Hm3, mem_commit_meta. destruct (wb_meta b) as [m|] eqn:Hbm; [done|].
      destruct (wb_compact_to b) as [[idx term]|] eqn:Hbc.
      { destruct Hf as [Hsn _]. rewrite Hbc in Hsn. destruct Hsn as (_ & _ & _ & m & ? & _). congruence. }
      cbn. rewrite <- (ra_meta _ _ _ Hr). unfold loaded, row_u64, row_vote. by rewrite !Hf2, !(Hf1' eq_refl) by done.
    + cbn [committed mem_active_config_]. rewrite mem_commit_active. apply Hc3. unfold config_at. rewrite Hv2 by done. apply Hr.
    + cbn [committed mem_state]. rewrite Hf3 by by left. unfold state_after. rewrite (ra_state _ _ _ Hr).
      destruct (wb_state b), (wb_compact_to b) as [[index term]|]; rewrite ?Himg in Hst2; cbn.
      * by rewrite Hst2.
      * by rewrite Hst2.
      * destruct Hst2 as [[x Hx] ->]. by rewrite Hx.
      * by rewrite Hst2, Hf1.
    + cbn [committed mem_applied_index_]. rewrite (ra_applied _ _ _ Hr). unfold loaded, row_u64. cbn.
      rewrite Hf3 by by right. by rewrite Hv2.
  - intros i Hi. rewrite Hf3, Happ2 by (done || by left). apply Happ1.
  - intros k. rewrite Hf3 by by left. by rewrite Hv2.
Qed.
End batch.

(** * vos: reading and reopening the redb backend

    The reads of [RedbStorage] return what the in-memory backend returns of the
    store that the rows hold, [storage_open] rebuilds the caches, and on a database
    none of whose calls fail a transaction fails only by itself ([sound]). *)

(** A read that returns [x] unless the database fails. *)
Definition answers {E A} (r : result (CommitError E) A) (x : A) : Prop :=
  match r with Ok y => y = x | Err Config => False | Err (Backend _) => True end.

Lemma answers_bind {E A B} (r : result (CommitError E) A) (k : A → result (CommitError E) B) x y :
  answers r x → answers (k x) y → answers (r ≫= k) y.
Proof. destruct r as [z|[|e]]; cbn; [by intros ->|done|done]. Qed.

(** ** Entries in index order *)

Lemma elem_of_log_range (l : gmap N (LogEntry N)) lo hi e :
  e ∈ log_range l lo hi ↔ ∃ k, lo ≤ k ≤ hi ∧ l !! k = Some e.
Proof.
  unfold log_range. rewrite list_elem_of_omap. split.
  - intros (k & _ & Hk). exists k. destruct (N.leb_spec lo k), (N.leb_spec k hi); cbn in Hk; done.
  - intros (k & Hk & He). exists k. split; [apply (elem_of_sorted_keys N.le); by rewrite He|].
    by rewrite (proj2 (N.leb_le _ _)), (proj2 (N.leb_le _ _)) by lia.
Qed.

Lemma log_range_sorted (l : gmap N (LogEntry N)) lo hi :
  (∀ k e, l !! k = Some e → e_index e = k) → StronglySorted (λ x y, e_index x < e_index y) (log_range l lo hi).
Proof.
  intros Hidx. unfold log_range. pose proof (StronglySorted_sorted_keys N.le l) as Hs. pose proof (NoDup_sorted_keys N.le l) as Hnd.
  induction Hs as [|i ks Hs IH Hi]; [constructor|]. apply NoDup_cons in Hnd as [Hin Hnd]. cbn.
  destruct (if _ && _ then l !! i else None) as [e|] eqn:He; [|by apply IH]. constructor; [by apply IH|].
  apply Forall_forall. intros e' (j & Hj & He')%list_elem_of_omap. rewrite Forall_forall in Hi. specialize (Hi j Hj).
  destruct (_ && _) in He; [|done]. destruct (_ && _) in He'; [|done]. rewrite (Hidx _ _ He), (Hidx _ _ He').
  destruct (decide (i = j)) as [->|]; [done|lia].
Qed.

Lemma StronglySorted_fmap {A B} (RA : relation A) (RB : relation B) (f : A → B) l :
  (∀ x y, RA x y → RB (f x) (f y)) → StronglySorted RA l → StronglySorted RB (f <$> l).
Proof.
  intros Hf Hs. induction Hs as [|x l Hs IH Hx]; cbn; constructor; [done|]. apply Forall_fmap.
  eapply Forall_impl; [exact Hx|]. intros y. apply Hf.
Qed.

(** Lists sorted by distinct keys are determined by their elements. *)
Lemma keyed_unique {A} (key : A → N) (l1 l2 : list A) :
  StronglySorted (λ x y, key x < key y) l1 → StronglySorted (λ x y, key x < key y) l2 → (∀ x, x ∈ l1 ↔ x ∈ l2) → l1 = l2.
Proof.
  assert (∀ l : list A, StronglySorted (λ x y, key x < key y) l → NoDup l) as Hnd.
  { intros l Hs. induction Hs as [|x l Hs IH Hx]; constructor; [|done]. intros Hin. rewrite Forall_forall in Hx.
    specialize (Hx x Hin). cbn in Hx. lia. }
  intros H1 H2 Heq. apply (StronglySorted_unique_strong (λ x y, key x < key y)); [|done|done|].
  - intros x y _ _ Hxy Hyx. cbn in *. lia.
  - apply NoDup_Permutation; auto.
Qed.

Lemma log_range_snoc (l : gmap N (LogEntry N)) lo hi e :
  (∀ k e, l !! k = Some e → e_index e = k) → l !! (hi + 1) = None → e_index e = hi + 1 → lo ≤ hi + 1 →
  log_range (<[hi + 1 := e]> l) lo (hi + 1) = log_range l lo hi ++ [e].
Proof.
  intros Hidx Hnone He Hlo. apply (keyed_unique e_index).
  - apply log_range_sorted. intros k e' Hk. destruct (decide (k = hi + 1)) as [->|].
    + rewrite lookup_insert_eq in Hk. by injection Hk as <-.
    + rewrite lookup_insert_ne in Hk by done. by apply Hidx.
  - apply StronglySorted_app. split_and!; [|by apply log_range_sorted|by repeat constructor].
    intros x y (k & Hk & Hx)%elem_of_log_range ->%list_elem_of_singleton. rewrite (Hidx _ _ Hx). lia.
  - intros x. rewrite elem_of_app, list_elem_of_singleton, !elem_of_log_range. split.
    + intros (k & Hk & Hx). destruct (decide (k = hi + 1)) as [->|].
      * rewrite lookup_insert_eq in Hx. injection Hx as <-. by right.
      * rewrite lookup_insert_ne in Hx by done. left. exists k. split; [lia|done].
    + intros [(k & Hk & Hx)| ->].
      * exists k. split; [lia|]. by rewrite lookup_insert_ne by lia.
      * exists (hi + 1). split; [lia|]. by rewrite lookup_insert_eq.
Qed.

Section reads.
Context {D R W E : Type} `{!Redb D R W E} `{!RedbLaws D R W E}.
Implicit Types (s : RedbStorage (D := D)) (lg : RaftRedb.RaftLog).

Definition redb_at s d : Prop :=
  rows_at (view (rs_db s)) (rs_log s) d ∧ meta_from_raft (rs_meta s) = mem_meta d.

Lemma read_answers {A} (db : D) (k : R → result (CommitError E) A) x :
  (∀ r, rview r = view db → answers (k r) x) → answers (backend (begin_read db) ≫= k) x.
Proof.
  intros Hk. destruct (begin_read db) as [r|e] eqn:Hr; cbn; [|done]. apply Hk. by apply begin_read_view.
Qed.

Lemma get_answers (r : R) k : answers (backend (r_get r k)) (rview r !! k).
Proof. destruct (r_get r k) as [x|e] eqn:Hg; cbn; [|done]. by apply r_get_view. Qed.

Lemma get_u64_answers (r : R) k : answers (get_u64 r k) (row_u64 (rview r) k).
Proof. unfold get_u64. by eapply answers_bind; [apply get_answers|]. Qed.

Lemma meta_load_answers db : answers (meta_load db) (loaded (view db)).
Proof.
  apply read_answers. intros r <-. unfold meta_load.
  do 6 (eapply answers_bind; [apply get_u64_answers || apply get_answers|]). done.
Qed.

Lemma load_active_config_answers db c : config_at (view db) c → answers (load_active_config db) c.
Proof.
  intros Hc. apply read_answers. intros r Hr. eapply answers_bind; [apply get_answers|]. rewrite Hr.
  unfold config_at in Hc. destruct (view db !! META_ACTIVE_CONFIG); [|by subst]. destruct Hc as (c' & -> & ->). done.
Qed.

Lemma read_state_answers db : answers (read_state_bytes db) (default [] (view db !! STATE_KEY)).
Proof. apply read_answers. intros r <-. by eapply answers_bind; [apply get_answers|]. Qed.

Lemma term_at_answers db lg d i :
  rows_at (view db) lg d → answers (log_term_at db lg i) (mem_term_at d i).
Proof.
  intros Hr. pose proof (ra_log _ _ _ Hr) as Hl. unfold log_term_at, mem_term_at.
  rewrite <- (ra_snap _ _ _ Hr), <- (ra_snap_term _ _ _ Hr).
  destruct (i =? 0); [done|]. destruct (N.ltb_spec i (rl_snap_last_index lg)); [done|].
  destruct ((i =? _) && _) eqn:Hsnap; [done|]. destruct (N.ltb_spec (rl_last_index lg) i).
  { cbn. by rewrite (log_at_none _ _ _ _ Hl) by lia. }
  apply read_answers. intros r Hv. eapply answers_bind; [apply get_answers|]. rewrite Hv, (la_rows _ _ _ Hl).
  destruct (mem_log d !! i) as [e|] eqn:He; [|done]. cbn. unfold entry_row.
  rewrite row_decode_encode; [done|]. by apply (la_entry _ _ _ Hl i).
Qed.

(** ** Reopening *)

Lemma log_open_answers db lg d : rows_at (view db) lg d → answers (log_open db) lg.
Proof.
  intros Hr. pose proof (ra_log _ _ _ Hr) as Hl. pose proof (la_order _ _ _ Hl) as Hord. apply read_answers. intros r Hv.
  assert (row_u64 (rview r) META_SNAP_INDEX = rl_snap_last_index lg ∧ row_u64 (rview r) META_SNAP_TERM = rl_snap_last_term lg) as [Hs Ht].
  { rewrite (ra_snap _ _ _ Hr), (ra_snap_term _ _ _ Hr), Hv. unfold mem_snap_last_index, mem_snap_last_term.
    by rewrite <- (ra_meta _ _ _ Hr). }
  destruct (r_last_log r) as [tail|e] eqn:Htail; cbn; [|done]. apply r_last_log_view in Htail. rewrite Hv in Htail.
  destruct lg as [li lt si st]; cbn in Hs, Ht, Hord.
  destruct tail as [[k x]|].
  - destruct Htail as [Hk Hmax]. rewrite (la_rows _ _ _ Hl) in Hk. apply fmap_Some in Hk as (e & He & ->).
    pose proof (proj1 (la_keys _ _ _ Hl k) ltac:(by rewrite He)) as Hkb. cbn in Hkb.
    assert (k = li) as ->.
    { assert (li ≤ k); [|lia]. apply Hmax. rewrite (la_rows _ _ _ Hl), fmap_is_Some. apply (la_keys _ _ _ Hl). cbn. lia. }
    unfold entry_row. rewrite row_decode_encode by by apply (la_entry _ _ _ Hl li). cbn.
    eapply answers_bind; [apply get_u64_answers|]. eapply answers_bind; [apply get_u64_answers|]. rewrite Hs, Ht.
    rewrite (proj2 (N.eqb_neq li 0)) by lia. cbn. pose proof (la_term _ _ _ Hl) as Hlt. cbn in Hlt. rewrite He in Hlt. by rewrite Hlt.
  - assert (si = li) as <-.
    { destruct (decide (si = li)) as [|Hne]; [done|]. destruct (proj2 (la_keys _ _ _ Hl li)) as [e He]; [cbn; lia|].
      specialize (Htail li). rewrite (la_rows _ _ _ Hl), He in Htail. done. }
    eapply (answers_bind _ _ (0, 0)); [done|]. eapply answers_bind; [apply get_u64_answers|]. eapply answers_bind; [apply get_u64_answers|]. rewrite Hs, Ht.
    pose proof (la_term _ _ _ Hl) as Hlt. cbn in Hlt. rewrite (log_at_none _ _ _ _ Hl) in Hlt by (cbn; lia). cbn in Hlt. subst lt.
    cbn. destruct (N.ltb_spec 0 si); cbn; [done|]. assert (si = 0) as -> by lia. by rewrite (la_zero _ _ _ Hl eq_refl : st = 0).
Qed.

Lemma storage_open_answers db lg d :
  rows_at (view db) lg d → answers (storage_open db) (mkRedbStorage db lg (loaded (view db))).
Proof.
  intros Hr. eapply answers_bind; [by eapply log_open_answers|]. by eapply answers_bind; [apply meta_load_answers|].
Qed.

(** ** Ranges of the log *)

Lemma each_row_fmap {A B X} (f : A → result (CommitError E) B) (g : X → A) (h : X → B) (l : list X) :
  (∀ x, x ∈ l → f (g x) = Ok (h x)) → each_row f (g <$> l) = Ok (h <$> l).
Proof using.
  induction l as [|x l IH]; intros Hf; [done|]. cbn. rewrite (Hf x) by left. cbn. rewrite IH; [done|].
  intros y Hy. apply Hf. by right.
Qed.

Definition raw_entry (e : LogEntry N) : N * (N * bytes) := (e_index e, (e_term e, encode_entry_kind (e_kind e))).

Lemma log_entries_answers db lg d start stop :
  rows_at (view db) lg d → answers (log_entries db lg start stop) (raw_entry <$> default [] (mem_entries d start stop)).
Proof.
  intros Hr. pose proof (ra_log _ _ _ Hr) as Hl. unfold log_entries, log_rows, mem_entries.
  rewrite (ra_snap _ _ _ Hr). destruct (stop <? start); [done|].
  set (lo := N.max start _). destruct (stop <? lo); [done|]. cbn [default].
  set (es := log_range (mem_log d) lo stop). eapply (answers_bind _ _ ((λ e, (e_index e, entry_row e)) <$> es)).
  - apply read_answers. intros r Hv. destruct (r_range_log r lo stop) as [l|e] eqn:Hrg; [|done]. cbn.
    apply r_range_log_view in Hrg as [Hs Hin]. rewrite Hv in Hin. apply (keyed_unique fst); [done| |].
    + eapply StronglySorted_fmap; [|apply log_range_sorted; intros k e He; by apply (la_entry _ _ _ Hl)]. done.
    + intros [i x]. rewrite Hin, list_elem_of_fmap, (la_rows _ _ _ Hl), fmap_Some. split.
      * intros (Hi & e & He & ->). exists e. rewrite (proj1 (la_entry _ _ _ Hl _ _ He)). split; [done|].
        apply elem_of_log_range. eauto.
      * intros (e & [= -> ->] & (k & Hk & He)%elem_of_log_range). rewrite (proj1 (la_entry _ _ _ Hl _ _ He)). eauto.
  - rewrite (each_row_fmap _ _ raw_entry); [done|]. intros e (k & _ & He)%elem_of_log_range. cbn. unfold entry_row.
    by rewrite row_decode_encode by by apply (la_entry _ _ _ Hl k).
Qed.

Lemma storage_entries_answers s d start stop :
  rows_at (view (rs_db s)) (rs_log s) d → answers (storage_entries s start stop) (default [] (mem_entries d start stop)).
Proof.
  intros Hr. eapply answers_bind; [by apply log_entries_answers|].
  rewrite (each_row_fmap _ _ (λ e, e)); [cbn; by rewrite list_fmap_id|]. intros e He. cbn.
  assert (kind_ok (e_kind e)) as Hk.
  { unfold mem_entries in He. destruct (stop <? start); [by apply elem_of_nil in He|].
    destruct (stop <? N.max start (mem_snap_last_index d ⊞ 1)); [by apply elem_of_nil in He|].
    apply elem_of_log_range in He as (k & _ & He). by apply (la_entry _ _ _ (ra_log _ _ _ Hr) k). }
  rewrite (proj2 (decode_entry_kind_spec (E:=E) _ (e_kind e))) by done. by destruct e.
Qed.
End reads.

(** ** Databases that do not fail *)

Section sound.
Context {D R W E : Type} `{!Redb D R W E} `{!RedbReliable D R W E}.

Definition sound {A} (t : RaftRedb.tx (W:=W) (E:=E) A) : Prop := ∀ lg w e, (t lg w).2 ≠ Err (Backend e).

Lemma sound_ret {A} (x : A) : sound (mret x).
Proof using. done. Qed.
Lemma sound_config {A} : sound (A:=A) tx_config.
Proof using. done. Qed.
Lemma sound_log : sound tx_log.
Proof using. done. Qed.
Lemma sound_set_log lg : sound (tx_set_log lg).
Proof using. done. Qed.

Lemma sound_bind {A B} (t : RaftRedb.tx A) (k : A → RaftRedb.tx B) : sound t → (∀ x, sound (k x)) → sound (t ≫= k).
Proof using.
  intros Ht Hk lg w e. specialize (Ht lg w e). unfold mbind, tx_bind.
  destruct (t lg w) as [lg' [[x w']|e']]; cbn in *; [apply Hk|congruence].
Qed.

Lemma sound_get k : sound (tx_get k).
Proof. intros lg w e. unfold tx_get. by destruct (w_get_ok w k) as [x ->]. Qed.
Lemma sound_insert k (x : bytes) : sound (tx_insert k x).
Proof. intros lg w e. unfold tx_insert, tx_write. by destruct (w_insert_ok w k x) as [? ->]. Qed.
Lemma sound_remove k : sound (tx_remove k).
Proof. intros lg w e. unfold tx_remove, tx_write. by destruct (w_remove_ok w k) as [x ->]. Qed.
Lemma sound_applied_keys lo hi : sound (tx_applied_keys lo hi).
Proof. intros lg w e. unfold tx_applied_keys. by destruct (w_applied_keys_ok w lo hi) as [x ->]. Qed.
Lemma sound_each {A} (f : A → RaftRedb.tx unit) l : (∀ x, sound (f x)) → sound (tx_each f l).
Proof using. intros Hf. induction l as [|x l IH]; cbn [tx_each]; [apply sound_ret|]. by apply sound_bind. Qed.
End sound.

Create HintDb redb.
#[export] Hint Resolve sound_ret sound_config sound_log sound_set_log sound_get sound_insert sound_remove
  sound_applied_keys sound_each : redb.

(** Through binds and the tests between them. *)
Ltac sound_steps :=
  repeat first [progress eauto with redb | apply sound_bind; [|intros ?] | apply sound_each; intros ?
               | match goal with
                 | |- sound (match ?x with _ => _ end) => destruct x
                 | |- sound (if ?x then _ else _) => destruct x
                 end].

Section progress.
Context {D R W E : Type} `{!Redb D R W E} `{!RedbReliable D R W E}.

Lemma sound_do_txn meta b : sound (do_txn meta b).
Proof.
  unfold do_txn, log_steps, state_steps, meta_steps, snapshot_state, truncate_after_in_txn, truncated_term, compact_to_in_txn,
    append_entry, append_in_txn, last_applied_in_txn, prune_applied, write_worker_fields_in_txn, write_vote,
    write_active_config_in_txn. sound_steps.
Qed.

Lemma run_tx_sound {A} lg (db : D) (t : RaftRedb.tx A) e : sound t → (run_tx lg db t).2 ≠ Err (Backend e).
Proof.
  intros Ht. unfold run_tx. destruct (begin_write_ok db) as [w ->]. cbn. specialize (Ht lg w e).
  destruct (t lg w) as [lg' [[x w']|e']]; cbn in *; [|congruence]. by destruct (w_commit_ok w') as [d ->].
Qed.
End progress.
