(* ===== verification/RaftRedbProps.v ===== *)
(** * vos: the redb backend of the consensus worker

    [RedbStorage] refines the in-memory backend that the worker is proved against:
    batches, reads, reopening, and that what the worker writes is within what the
    backend promises. *)

From Stdlib.Strings Require Byte.
From S2P Require Import Prelude RaftTypes RaftStorage RaftConfig RaftState RaftWorker RaftNode RaftWrites RaftLog Bytes.
From S2P Require Import Redb RaftRedb RaftRedbLog RaftRedbCommit.

Local Open Scope N_scope.

Implicit Types (d : MemStorage N) (b : WriteBatch N).

(** ** Batches of the worker *)

Lemma term_at_last {NID} (d : MemStorage NID) t :
  mem_snap_last_index d < mem_last_index d → mem_term_at d (mem_last_index d) = Some t → t = mem_last_term d.
Proof.
  intros Hlt. rewrite mem_term_at_above by done. unfold mem_last_term, mem_last_index in *.
  destruct (last_key N.le (mem_log d)) as [k|]; cbn in *; [|lia]. by intros ->.
Qed.

(** A snapshot that ends at the last entry ends with its term. *)
Definition install_agrees (ev : WorkerEvent (NID := N)) d : Prop :=
  match ev with
  | EvMsg (MsgInstallSnapshot _ req) =>
      is_last_included_index req = mem_last_index d → is_last_included_term req = mem_last_term d
  | _ => True
  end.

Lemma graft_tail d prev pt es conflict present :
  log_wf d → mem_snap_last_index d ≤ prev → mem_term_at d prev = Some pt →
  prev + N.of_nat (length es) < u64_max → mem_scan d (prev ⊞ 1) es = (conflict, present) →
  consecutive (match (λ idx, idx ⊟ 1) <$> conflict with Some after => N.min after (mem_last_index d) | None => mem_last_index d end + 1)
    (drop present (reindex (prev ⊞ 1) es)).
Proof.
  intros Hwf Hsnap Hprev Hr. rewrite wrapping_add64_small by lia. intros Hscan. apply (log_wf_term_at_le _ _ _ Hwf Hsnap) in Hprev as Hple.
  destruct (mem_scan_spec d (prev + 1) es conflict present) as (Hlen & Hagree & Hc); [lia|done|].
  assert (prev + N.of_nat present ≤ mem_last_index d) as Hle.
  { destruct present as [|p]; [lia|]. destruct (lookup_lt_is_Some_2 es p) as [e He]; [lia|].
    specialize (Hagree p e ltac:(lia) He). apply (log_wf_term_at_le _ _ _ Hwf) in Hagree; lia. }
  assert (consecutive (prev + N.of_nat present + 1) (drop present (reindex (prev + 1) es))) as Hcons.
  { replace (prev + N.of_nat present + 1) with (prev + 1 + N.of_nat present) by lia.
    apply consecutive_drop_reindex. lia. }
  destruct conflict as [c|]; cbn.
  - destruct Hc as (-> & Hlt & Hc). rewrite wrapping_sub64_small by lia.
    replace (N.min _ _) with (prev + N.of_nat present) by lia. done.
  - destruct (decide (present = length es)) as [->|Hne].
    + rewrite drop_ge by by rewrite reindex_length. by intros i e.
    + destruct Hc as [?|Hnone]; [done|]. assert (prev + N.of_nat present = mem_last_index d) as <-; [|done].
      assert (¬ (prev + 1 + N.of_nat present ≤ mem_last_index d)); [|lia].
      rewrite <- (log_wf_term_at d _ Hwf) by lia. rewrite Hnone. by intros [].
Qed.

Lemma dbatch_fits ev d b :
  dbatch ev d b → log_wf d → above_snapshot ev d → install_agrees ev d → index_room 1 ev d → fits d b.
Proof.
  intros Hb Hwf Hab Hin Hroom.
  destruct Hb as [m Hs Hc _|c Hev Hlt Ht|k rec Hev|floor t Hev Hlt Hle _ Ht
    |from req m rec conflict present -> Hs _ Hprev Hscan Hc|from req m buf rec -> Hlt Hs Ht Hc _];
    split; cbn.
  - by intros m' [= <-].
  - by intros i e.
  - by intros m' [= <-].
  - by intros i e.
  - done.
  - apply (index_room_last 0) in Hroom; [|done]. intros [|i] e; cbn; [|done]. intros [= <-]. cbn.
    rewrite wrapping_add64_small; lia.
  - split_and!; [done|done| |by eexists]. intros ->. by apply term_at_last.
  - by intros i e.
  - by intros m' [= <-].
  - by eapply graft_tail.
  - split_and!; [done|done|by apply Hin|by eexists].
  - by intros i e.
Qed.

Section props.
Context {D R W E : Type} `{!Redb D R W E} `{!RedbLaws D R W E}.
Implicit Types (s : RedbStorage (D := D)).

Lemma committed_empty v d b : batch_is_empty b = true → committed v d b = d ∧ refused v d b = false.
Proof using.
  clear. unfold batch_is_empty. rewrite !andb_true_iff, !bool_decide_eq_true, Nat.eqb_eq.
  destruct b as [ta ct es st m ac]. cbn. intros (((((-> & ->) & Hes) & ->) & ->) & ->).
  apply length_zero_iff_nil in Hes as ->. by destruct d.
Qed.

Definition commit_outcome s d b (out : RedbStorage (D := D) * result (CommitError E) unit) : Prop :=
  let v := view (rs_db s) in
  match out with
  | (s', Ok _) =>
      refused v d b = false ∧ redb_at s' (committed v d b) ∧
      (∀ i, match wb_compact_to b with Some (idx, _) => i = 0 ∨ idx < i | None => True end →
         view (rs_db s') !! AppliedRow i = v !! AppliedRow i) ∧
      (∀ k, view (rs_db s') !! KvRow k = v !! KvRow k)
  | (s', Err Config) => s' = s ∧ refused v d b = true
  | (s', Err (Backend _)) => s' = s
  end.

Lemma commit_batch_outcome s d b :
  redb_at s d → fits d b → batch_ok b → commit_outcome s d b (redb_commit_batch s b).
Proof.
  intros [Hr Hm] Hf Hok. unfold redb_commit_batch, commit_outcome. set (v := view (rs_db s)). destruct (batch_is_empty b) eqn:He.
  { destruct (committed_empty v d b He) as [-> ->]. split_and!; [done|by split|done|done]. }
  pose proof (run_batch (rs_meta s) v _ _ _ Hr Hf Hok) as Hrun. unfold run_tx.
  destruct (begin_write (rs_db s)) as [w|e] eqn:Hw; [|done]. cbn.
  specialize (Hrun w (begin_write_view _ _ Hw)). destruct (do_txn (rs_meta s) b (rs_log s) w) as [lg [[[] w']|[|e]]]; [|done..].
  cbn. destruct (w_commit w') as [db|e] eqn:Hc; [|done]. destruct Hrun as (Href & Hr' & Hi & Hk). cbn.
  rewrite (w_commit_view _ _ Hc). split_and!; [done| |done|done].
  split; cbn; [by rewrite (w_commit_view _ _ Hc)|]. rewrite mem_commit_meta. destruct (wb_meta b) as [m|] eqn:Hbm; [by destruct m|].
  destruct Hf as [Hsn _]. destruct (wb_compact_to b) as [[idx term]|]; [|done]. destruct Hsn as (_ & _ & _ & m & ? & _). congruence.
Qed.

Lemma commit_batch_sound s b e : RedbReliable D R W E → (redb_commit_batch s b).2 ≠ Err (Backend e).
Proof.
  intros Hrel. unfold redb_commit_batch. destruct (batch_is_empty b); [done|].
  pose proof (run_tx_sound (rs_log s) (rs_db s) (do_txn (rs_meta s) b) e (sound_do_txn _ _)) as Hs.
  destruct (run_tx _ _ _) as [lg [[[] db]|e']]; cbn in *; congruence.
Qed.

(** C16: Take a replica whose rows and caches hold the store [d], and a batch of its
    widths whose entries follow the tail and whose compaction, if it has one, is
    above the snapshot, comes without a truncation and with the snapshot pointer it
    makes, and keeps the term of the last entry if it ends there.  The batch either
    commits, and then rows and caches hold the log, the scalars and the
    configuration that the in-memory backend makes of [d], with the applied index of
    [d] and with the state of the batch, of the image at the compacted index, or of
    [d]; applied images past the compaction and the agent's rows are kept.  Or it
    fails and leaves the replica as it was, caches included.  The code's own error
    is returned exactly for the batches it must refuse: truncation below the
    snapshot, and compaction to an index whose image is not there.  On a database
    none of whose calls fail every other batch commits. *)
Theorem redb_commit_refines s d b :
  redb_at s d → fits d b → batch_ok b →
  commit_outcome s d b (redb_commit_batch s b) ∧
  (RedbReliable D R W E → refused (view (rs_db s)) d b = false → ∃ s', redb_commit_batch s b = (s', Ok tt)).
Proof.
  intros Hs Hf Hok. pose proof (commit_batch_outcome _ _ _ Hs Hf Hok) as Hout. split; [done|]. intros Hrel Href.
  destruct (redb_commit_batch s b) as [s' [[]|[|e]]] eqn:Hc; [eauto|cbn in Hout; destruct Hout; congruence|].
  destruct (commit_batch_sound s b e Hrel). by rewrite Hc.
Qed.

(** C38: Every read of the backend returns what the in-memory backend returns of the
    store the rows hold, unless the database fails; a range of compacted indices is
    empty instead of a panic.  Reopening the database rebuilds the log's cache and
    the scalars, so that the reopened replica holds the same store. *)
Theorem redb_reads_and_reopens s d :
  redb_at s d →
  rl_last_index (rs_log s) = mem_last_index d ∧ rl_last_term (rs_log s) = mem_last_term d ∧
  rl_snap_last_index (rs_log s) = mem_snap_last_index d ∧ rl_snap_last_term (rs_log s) = mem_snap_last_term d ∧
  (∀ i, answers (log_term_at (rs_db s) (rs_log s) i) (mem_term_at d i)) ∧
  (∀ start stop, answers (storage_entries s start stop) (default [] (mem_entries d start stop))) ∧
  answers (read_state_bytes (rs_db s)) (mem_state d) ∧
  answers (storage_applied_index s) (mem_applied_index_ d) ∧
  answers (load_active_config (rs_db s)) (mem_active_config_ d) ∧
  meta_from_raft (rs_meta s) = mem_meta d ∧
  ∃ s', answers (storage_open (rs_db s)) s' ∧ rs_db s' = rs_db s ∧ rs_log s' = rs_log s ∧ redb_at s' d.
Proof.
  intros [Hr Hm]. split_and!.
  - by eapply rows_at_last.
  - by eapply rows_at_last_term.
  - apply Hr.
  - apply Hr.
  - intros i. by apply term_at_answers.
  - intros start stop. by apply storage_entries_answers.
  - rewrite (ra_state _ _ _ Hr). apply read_state_answers.
  - rewrite (ra_applied _ _ _ Hr). by eapply answers_bind; [apply meta_load_answers|].
  - apply load_active_config_answers, Hr.
  - done.
  - eexists. split; [by eapply storage_open_answers|]. split_and!; [done|done|]. split; [done|apply Hr].
Qed.

(** C26: The worker on the redb backend.  Over any backend with the laws of
    [StorageLaws], an event of the worker changes the storage by at most four
    calls of [commit_batch], each with one of the batches of [dbatch].  Each such
    batch, committed to a redb replica that holds the contents it is for, leaves
    the replica with the log, the scalars and the configuration that the in-memory
    backend reaches, or fails and leaves the replica as it was: when the request
    neither reaches below the snapshot nor installs a snapshot that ends at the
    last entry with another term, its indices stay below [u64::MAX], and the
    batch's numbers are of their width. *)
Theorem worker_on_redb {S E'} `{!Storage N S E'} `{!StorageLaws N S E'} wall ev pending
    (st : WorkerState N S) :
  node_inv st →
  bsteps (scommit ev) 4 (ws_storage st) (ws_storage (worker_step wall ev pending st).1.1) ∧
  ∀ s d b, redb_at s d → dbatch ev d b → above_snapshot ev d → install_agrees ev d →
    index_room 1 ev d → batch_ok b →
    let d' := mem_commit_batch d b in
    match redb_commit_batch s b with
    | (s', Ok _) => ∃ d1, redb_at s' d1 ∧ mem_log d1 = mem_log d' ∧ mem_meta d1 = mem_meta d' ∧
        mem_active_config_ d1 = mem_active_config_ d' ∧ mem_applied_index_ d1 = mem_applied_index_ d
    | (s', Err _) => s' = s
    end.
Proof.
  intros Hi. split; [apply worker_step_writes, Hi|]. intros s d b Hs Hb Hab Hin Hroom Hok.
  pose proof (dbatch_fits _ _ _ Hb (rows_at_wf _ _ _ (proj1 Hs)) Hab Hin Hroom) as Hf.
  pose proof (commit_batch_outcome _ _ _ Hs Hf Hok) as Hout.
  destruct (redb_commit_batch s b) as [s' [[]|[|e]]]; cbn in Hout; [|by destruct Hout|done].
  destruct Hout as (_ & Hs' & _). by eexists.
Qed.
End props.

(** ** Examples *)

Definition empty_replica : RedbStorage (D := tables) :=
  mkRedbStorage ∅ (mkRaftLog 0 0 0 0) (mkRaftMeta 0 None 0 0 0 0).
Definition empty_mem : MemStorage N := mkMem ∅ [] meta_default (Some 0) None.

Lemma empty_replica_at : redb_at empty_replica empty_mem.
Proof.
  split; [|done]. split; [|done..]. split; cbn; [done| |done|done|done|done|done]. intros k.
  rewrite lookup_empty. split; [by intros []|lia].
Qed.

Definition sample_batch : WriteBatch N :=
  mkBatch None None [entry_data 1 5 [Byte.x2a]] None (Some (mkMeta 5 (Some 7) 0 0 0)) (Some (mkActiveRecord (Some 0) [7; 9] None)).

Lemma sample_batch_fits : fits empty_mem sample_batch ∧ batch_ok sample_batch.
Proof.
  split; [split|split_and!].
  - by intros m [= <-].
  - intros [|i] e; [|done]. by intros [= <-].
  - by repeat constructor.
  - by intros m [= <-].
  - intros c [= <-]. by repeat constructor.
Qed.

Lemma redb_commit_refines_witness :
  ∃ s', redb_commit_batch empty_replica sample_batch = (s', Ok tt) ∧
    redb_at s' (committed ∅ empty_mem sample_batch) ∧ rl_last_term (rs_log s') = 5.
Proof.
  destruct sample_batch_fits as [Hf Hok].
  destruct (redb_commit_refines empty_replica empty_mem sample_batch empty_replica_at Hf Hok) as [Hout Hprog].
  destruct (Hprog MemRedb_reliable eq_refl) as [s' Hs']. exists s'. split; [done|].
  rewrite Hs' in Hout. destruct Hout as (_ & Hat & _). split; [done|].
  apply (f_equal (λ x, rl_last_term (rs_log x.1))) in Hs'. cbn [fst] in Hs'. rewrite <- Hs'. vm_compute. reflexivity.
Defined.

Lemma redb_reads_and_reopens_witness :
  ∃ s', answers (storage_open (E := Empty_set) (∅ : tables)) s' ∧ redb_at s' empty_mem.
Proof.
  destruct (redb_reads_and_reopens empty_replica empty_mem empty_replica_at) as (_ & _ & _ & _ & _ & _ & _ & _ & _ & _ & Hopen).
  destruct Hopen as (s' & Ho & _ & _ & Hat). exists s'. split; [exact Ho|exact Hat].
Defined.

(** The batch of a replica alone that runs in term 3: its term and its vote, on the
    empty contents. *)
Definition term_bump : WriteBatch N := batch_meta (mkMeta 3 (Some 7) 0 0 0).

Lemma worker_on_redb_witness :
  bsteps (scommit EvTimer) 4 (mem_new : MemStorage N)
    (ws_storage (worker_step 0 EvTimer [] (sample_worker mem_new (config_new 1 [1]))).1.1) ∧
  batch_ok term_bump ∧
  ∃ d1, redb_at (redb_commit_batch empty_replica term_bump).1 d1 ∧ mem_log d1 = ∅ ∧
    mem_meta d1 = mkMeta 3 (Some 7) 0 0 0.
Proof.
  destruct (worker_on_redb (D := tables) 0 EvTimer [] (sample_worker mem_new (config_new 1 [1]))
    (sample_worker_inv _ _)) as [Hw Hredb].
  assert (batch_ok term_bump) as Hok.
  { split_and!; [constructor|by intros m [= <-]|done]. }
  split; [exact Hw|]. split; [exact Hok|].
  specialize (Hredb empty_replica empty_mem term_bump empty_replica_at). cbv zeta in Hredb.
  assert (match (redb_commit_batch empty_replica term_bump).2 with Ok _ => true | Err _ => false end = true)
    as Hres by (vm_compute; reflexivity).
  destruct (redb_commit_batch empty_replica term_bump) as [s' [[]|e]]; [|discriminate Hres].
  destruct Hredb as (d1 & Hat & Hl & Hm & _); [|exact I|exact I|vm_compute; discriminate|exact Hok|].
  - by apply dw_scalars.
  - exists d1. split; [exact Hat|]. split; [exact Hl|exact Hm].
Defined.

(** Installing a snapshot that ends at the last entry of the log with another
    term (the entry was never committed here) leaves the cached term of the last
    entry as it was: the backend reports the replaced entry's term until it is
    reopened, and the snapshot's term after that. *)
Theorem install_at_tail_keeps_stale_term :
  let s1 := (redb_commit_batch empty_replica sample_batch).1 in
  let s2 := (redb_commit_batch s1 (mkBatch None (Some (1, 4)) [] (Some [Byte.x00]) (Some (mkMeta 6 None 1 1 4)) None)).1 in
  (rl_last_index (rs_log s2), rl_last_term (rs_log s2)) = (1, 5) ∧
  (rl_snap_last_index (rs_log s2), rl_snap_last_term (rs_log s2)) = (1, 4) ∧
  match storage_open (E := Empty_set) (rs_db s2) with
  | Ok s3 => (rl_last_index (rs_log s3), rl_last_term (rs_log s3)) = (1, 4)
  | Err _ => False
  end.
Proof. vm_compute. done. Qed.
