(* ===== verification/Strategy.v ===== *)
(** * vos: commit strategies

    [vos/src/commit.rs] and [vos/src/raft/strategy.rs]: the delta a dispatch leaves
    ([AgentDelta]), the local strategy that keeps it in redb, and the Raft strategy,
    which on a single node appends the dispatch's effect log to the Raft log in the
    transaction that writes the delta.  A receipt is its [node_appended] flag.

    Operations take and return the strategy: fields that the code assigns before a
    call that fails keep their new value.  The strategy of a cluster hands its entry
    to the worker's thread, which writes the shared database on its own: what that
    thread answers, notifies and leaves in the database is an input ([Cluster]). *)

From Stdlib.Strings Require Byte.
From S2P Require Import Prelude RaftTypes RaftStorage Bytes Blake2b EffectLog Redb RaftRedb.

Local Open Scope N_scope.

Definition STATE_KEY_BYTES : bytes := String.list_byte_of_string "__vos_actor_state".

(** A write without a value deletes its row. *)
Record AgentDelta := mkDelta {
  ad_writes : list (bytes * option bytes);
  ad_anchor : Byte.byte * bytes;
  ad_log : option EffectLog;
  ad_effect_bearing : bool;
}.

Definition state_only (writes : list (bytes * option bytes)) : AgentDelta :=
  mkDelta writes (ANCHOR_UNRECORDED, zeros 32) None false.

(** The last value of the state row, and the other rows in order. *)
Definition split_write (acc : option bytes * list (bytes * option bytes)) (w : bytes * option bytes)
    : option bytes * list (bytes * option bytes) :=
  if decide (w.1 = STATE_KEY_BYTES) then
    (match w.2 with Some value => Some value | None => acc.1 end, acc.2)
  else (acc.1, acc.2 ++ [w]).
Definition split_delta (d : AgentDelta) : option bytes * list (bytes * option bytes) :=
  foldl split_write (None, []) (ad_writes d).

Definition changes (state : option bytes) (last : bytes) : bool :=
  match state with Some s => bool_decide (s ≠ last) | None => false end.

Section strategies.
Context {D R W E : Type} `{!Redb D R W E}.

Notation CE := (CommitError E).

Definition write_kv_row (w : bytes * option bytes) : tx (W:=W) (E:=E) unit :=
  match w.2 with
  | Some value => tx_insert (KvRow w.1) value
  | None => tx_remove (KvRow w.1)
  end.
Definition write_state_row (state : option bytes) : tx (W:=W) (E:=E) unit :=
  match state with Some s => tx_insert STATE_KEY s | None => mret tt end.
Definition write_rows (state : option bytes) (rest : list (bytes * option bytes)) : tx (W:=W) (E:=E) unit :=
  write_state_row state;; tx_each write_kv_row rest.

Definition swap_kv_rows (rows : list (bytes * bytes)) : tx (W:=W) (E:=E) unit :=
  tx_write w_delete_kv;; tx_each (λ e, tx_insert (KvRow e.1) e.2) rows.

(** A transaction that does not use the Raft log. *)
Definition write_txn {A} (db : D) (t : tx (W:=W) (E:=E) A) : result CE D :=
  '(_, db) ← snd (run_tx (mkRaftLog 0 0 0 0) db t); Ok db.

Definition read_kv_rows (db : D) : result CE (list (bytes * bytes)) :=
  r ← backend (begin_read db); backend (r_kv_rows r).

Definition strategy_read_state (db : D) : result CE (option bytes) :=
  r ← backend (begin_read db); backend (r_get r STATE_KEY).

(** ** [LocalCommit] *)

Record LocalCommit := mkLocalCommit { lc_db : D; lc_last : bytes }.

Definition local_open (db : D) : LocalCommit := mkLocalCommit db [].

Definition local_restore (s : LocalCommit) : LocalCommit * option bytes :=
  match strategy_read_state (lc_db s) with
  | Ok (Some b) => (mkLocalCommit (lc_db s) b, Some b)
  | _ => (s, None)
  end.

Definition local_commit (s : LocalCommit) (delta : AgentDelta) : LocalCommit * result CE bool :=
  let '(state, rest) := split_delta delta in
  let state_changed := changes state (lc_last s) in
  if negb state_changed && (length rest =? 0)%nat then (s, Ok false)
  else
    match write_txn (lc_db s) (write_rows (if state_changed then state else None) rest) with
    | Ok db => (mkLocalCommit db (default (lc_last s) state), Ok false)
    | Err e => (s, Err e)
    end.

Definition local_commit_rebuilt (s : LocalCommit) (state : bytes) (rows : list (bytes * bytes)) : LocalCommit * result CE bool :=
  match write_txn (lc_db s) (tx_insert STATE_KEY state;; swap_kv_rows rows) with
  | Ok db => (mkLocalCommit db state, Ok false)
  | Err e => (s, Err e)
  end.

(** ** [RaftCommit] of a single node *)

Record RaftCommit := mkRaftCommit {
  rc_db : D;
  rc_log : RaftLog;
  rc_meta : RaftMeta;
  rc_last_state : bytes;
}.

Definition rc_from_db (db : D) : result CE RaftCommit :=
  lg ← log_open db;
  m ← meta_load db;
  state ← strategy_read_state db;
  Ok (mkRaftCommit db lg m (default [] state)).

Definition rc_restore (s : RaftCommit) : option bytes :=
  if (length (rc_last_state s) =? 0)%nat then None else Some (rc_last_state s).

Definition with_rc_log (lg : RaftLog) (s : RaftCommit) : RaftCommit := mkRaftCommit (rc_db s) lg (rc_meta s) (rc_last_state s).
Definition with_rc_meta (m : RaftMeta) (s : RaftCommit) : RaftCommit := mkRaftCommit (rc_db s) (rc_log s) m (rc_last_state s).
Definition with_rc_db (db : D) (s : RaftCommit) : RaftCommit := mkRaftCommit db (rc_log s) (rc_meta s) (rc_last_state s).
Definition with_rc_state (state : bytes) (s : RaftCommit) : RaftCommit := mkRaftCommit (rc_db s) (rc_log s) (rc_meta s) state.

Definition meta_applied (commit applied : N) (m : RaftMeta) : RaftMeta :=
  mkRaftMeta (rm_current_term m) (rm_voted_for m) commit applied (rm_snap_last_index m) (rm_snap_last_term m).

(** The end of a transaction under way on [w]. *)
Definition finish (s : RaftCommit) (r : RaftLog * result CE (unit * W)) : RaftCommit * result CE unit :=
  match r.2 with
  | Err e => (s, Err e)
  | Ok (_, w) =>
      match backend (w_commit w) with
      | Err e => (s, Err e)
      | Ok db => (with_rc_db db s, Ok tt)
      end
  end.

(** The log's cache and the scalars move before the rows are written and before the
    commit, and are not put back. *)
Definition append_and_apply_single_node (s : RaftCommit) (state : option bytes) (rest : list (bytes * option bytes))
    (payload : bytes) : RaftCommit * result CE unit :=
  match backend (begin_write (rc_db s)) with
  | Err e => (s, Err e)
  | Ok w =>
      match append_in_txn (rm_current_term (rc_meta s)) (encode_entry_kind (Data payload)) (rc_log s) w with
      | (lg, Err e) => (with_rc_log lg s, Err e)
      | (lg, Ok (new_index, w)) =>
          let meta := meta_applied new_index new_index (rc_meta s) in
          finish (with_rc_meta meta (with_rc_log lg s)) ((write_in_txn meta;; write_rows state rest) lg w)
      end
  end.

(** The host's progress, written only when it moves. *)
Definition advance_applied (s : RaftCommit) (w : W) : RaftCommit * result CE unit :=
  let m := rc_meta s in
  if rm_last_applied m <? rm_commit_index m then
    let m := meta_applied (rm_commit_index m) (rm_commit_index m) m in
    finish (with_rc_meta m s) (write_host_fields_in_txn m (rc_log s) w)
  else finish s (rc_log s, Ok (tt, w)).

(** A delta without a log: rows and the host's progress, no entry. *)
Definition materialize (s : RaftCommit) (t : tx (W:=W) (E:=E) unit) : RaftCommit * result CE unit :=
  match meta_load (rc_db s) with
  | Err e => (s, Err e)
  | Ok m =>
      let s := with_rc_meta m s in
      match backend (begin_write (rc_db s)) with
      | Err e => (s, Err e)
      | Ok w =>
          match (t (rc_log s) w).2 with
          | Err e => (s, Err e)
          | Ok (_, w) => advance_applied s w
          end
      end
  end.

Definition rc_commit (s : RaftCommit) (delta : AgentDelta) : RaftCommit * result CE bool :=
  let '(state, rest) := split_delta delta in
  let state_changed := changes state (rc_last_state s) in
  let state_write := if state_changed then state else None in
  let keep s := match state_write with Some state => with_rc_state state s | None => s end in
  match ad_log delta with
  | None =>
      if negb state_changed && (length rest =? 0)%nat then (s, Ok false)
      else
        match materialize s (write_rows state_write rest) with
        | (s, Err e) => (s, Err e)
        | (s, Ok _) => (keep s, Ok false)
        end
  | Some log =>
      if negb state_changed && negb (ad_effect_bearing delta) && (length rest =? 0)%nat then (s, Ok false)
      else
        match append_and_apply_single_node s state_write rest (log_to_bytes log) with
        | (s, Err e) => (s, Err e)
        | (s, Ok _) => (keep s, Ok true)
        end
  end.

(** *** Members of a cluster *)

Inductive HostProposeError := NotLeader | StorageFailed (e : CE).

(** What the worker does with a proposal: its answer, the commit indices it notifies
    until the wait times out or the channel closes, and the database it leaves. *)
Record Cluster := mkCluster {
  cl_propose : bytes → result HostProposeError N;
  cl_notified : list N;
  cl_db : D;
}.

Fixpoint wait_commit (idx : N) (notified : list N) : bool :=
  match notified with
  | [] => false
  | committed :: notified => if idx <=? committed then true else wait_commit idx notified
  end.

Definition apply_committed (s : RaftCommit) (idx : N) (t : tx (W:=W) (E:=E) unit) : RaftCommit * result CE unit :=
  match meta_load (rc_db s) with
  | Err e => (s, Err e)
  | Ok m =>
      let m := meta_applied (rm_commit_index m) (N.max (rm_last_applied m) idx) m in
      let s := with_rc_meta m s in
      match backend (begin_write (rc_db s)) with
      | Err e => (s, Err e)
      | Ok w => finish s ((t;; write_host_fields_in_txn m) (rc_log s) w)
      end
  end.

Definition rc_commit_multi (cl : Cluster) (s : RaftCommit) (delta : AgentDelta) : RaftCommit * result CE bool :=
  let '(state, rest) := split_delta delta in
  let state_changed := changes state (rc_last_state s) in
  let state_write := if state_changed then state else None in
  match ad_log delta with
  | None => rc_commit s delta
  | Some log =>
      if negb state_changed && negb (ad_effect_bearing delta) && (length rest =? 0)%nat then (s, Ok false)
      else
        match cl_propose cl (log_to_bytes log) with
        | Err NotLeader => (s, Err Config)
        | Err (StorageFailed e) => (s, Err e)
        | Ok idx =>
            let s := with_rc_db (cl_db cl) s in
            if wait_commit idx (cl_notified cl) then
              match apply_committed s idx (write_rows state_write rest) with
              | (s, Err e) => (s, Err e)
              | (s, Ok _) => (match state_write with Some state => with_rc_state state s | None => s end, Ok true)
              end
            else (s, Err Config)
        end
  end.

Definition rc_commit_rebuilt (s : RaftCommit) (state : bytes) (rows : list (bytes * bytes)) : RaftCommit * result CE bool :=
  match materialize s (tx_insert STATE_KEY state;; swap_kv_rows rows) with
  | (s, Err e) => (s, Err e)
  | (s, Ok _) => (with_rc_state state s, Ok false)
  end.

(** What replay makes of one row: an effect log, or nothing for a configuration
    change and for a leader's first, empty entry. *)
Definition replay_entry (e : N * (N * bytes)) : result CE (option EffectLog) :=
  kind ← decode_entry_kind e.2.2;
  match kind with
  | ConfigChange _ _ => Ok None
  | Data body => if (length body =? 0)%nat then Ok None else log ← or_config (log_from_bytes body); Ok (Some log)
  end.

Definition replay_range (s : RaftCommit) (start stop : N) : result CE (list EffectLog) :=
  rows ← log_entries (rc_db s) (rc_log s) start stop;
  logs ← each_row replay_entry rows;
  Ok (omap (M := list) id logs).

Definition rc_replay_logs (s : RaftCommit) : result CE (list EffectLog) :=
  if rm_commit_index (rc_meta s) =? 0 then Ok []
  else
    let start := N.min (rm_snap_last_index (rc_meta s) + 1) u64_max in
    let stop := rm_commit_index (rc_meta s) in
    if stop <? start then Ok []
    else replay_range s start stop.

Definition rc_reload (s : RaftCommit) : RaftCommit * result CE unit :=
  match meta_load (rc_db s) with
  | Err e => (s, Err e)
  | Ok m =>
      let s := with_rc_meta m s in
      match log_open (rc_db s) with
      | Err e => (s, Err e)
      | Ok lg =>
          let s := with_rc_log lg s in
          match strategy_read_state (rc_db s) with
          | Err e => (s, Err e)
          | Ok state => (with_rc_state (default [] state) s, Ok tt)
          end
      end
  end.

Definition rc_needs_sync_reload (s : RaftCommit) : bool :=
  let commit_index := match meta_load (rc_db s) with Ok m => rm_commit_index m | Err _ => rm_commit_index (rc_meta s) end in
  rm_last_applied (rc_meta s) <? commit_index.
End strategies.
