(* ===== verification/StrategyRaft.v ===== *)
(** * vos: what a commit strategy writes

    [apply_writes a ws]: the agent [a], its state and its rows, after the writes of a
    dispatch in their order.  The transactions of [Strategy] make the rows of the
    database those of that agent ([agent_at]). *)

From Stdlib.Strings Require Byte.
From S2P Require Import Prelude RaftTypes RaftStorage RaftConfig RaftState RaftWorker RaftNode RaftWrites RaftLog Bytes.
From S2P Require Import EffectLog EffectProps Redb RaftRedb RaftRedbLog RaftRedbCommit Strategy.

Local Open Scope N_scope.

Implicit Types (v : tables) (ws : list (bytes * option bytes)) (kv : gmap bytes bytes).

(** ** The agent *)

Definition agent : Type := bytes * gmap bytes bytes.

Definition apply_row kv (w : bytes * option bytes) : gmap bytes bytes :=
  match w.2 with Some value => <[w.1 := value]> kv | None => delete w.1 kv end.

(** A deletion of the state is ignored. *)
Definition apply_write (a : agent) (w : bytes * option bytes) : agent :=
  if decide (w.1 = STATE_KEY_BYTES) then (default a.1 w.2, a.2) else (a.1, apply_row a.2 w).
Definition apply_writes (a : agent) ws : agent := foldl apply_write a ws.

Lemma split_writes_apply acc ws (a : agent) :
  let '(state, rest) := foldl split_write acc ws in
  foldl apply_write (default a.1 acc.1, foldl apply_row a.2 acc.2) ws = (default a.1 state, foldl apply_row a.2 rest).
Proof.
  revert acc. induction ws as [|[k x] ws IH]; intros [state rest]; cbn; [done|].
  specialize (IH (split_write (state, rest) (k, x))). unfold split_write, apply_write in *. cbn in *.
  case_decide; cbn in *; [by destruct x|]. by rewrite foldl_app in IH.
Qed.

Lemma split_delta_apply delta (a : agent) state rest :
  split_delta delta = (state, rest) → apply_writes a (ad_writes delta) = (default a.1 state, foldl apply_row a.2 rest).
Proof.
  intros Hs. pose proof (split_writes_apply (None, []) (ad_writes delta) a) as Ha. unfold split_delta in Hs.
  rewrite Hs in Ha. cbn in Ha. by destruct a.
Qed.

Lemma changes_false state last (x : bytes) : changes state last = false → last = x → default x state = x.
Proof. destruct state as [st|]; [|done]. cbn. rewrite bool_decide_eq_false. intros Hst <-. by apply dec_stable. Qed.

Lemma changes_default state (a : agent) : (if changes state a.1 then default a.1 state else a.1) = default a.1 state.
Proof.
  destruct (changes state a.1) eqn:Hc; [done|]. symmetry. by apply (changes_false _ a.1).
Qed.

(** What the writes come to, and what of them is written. *)
Lemma writes_kept delta (a : agent) state rest :
  split_delta delta = (state, rest) →
  (default a.1 (if changes state a.1 then state else None), foldl apply_row a.2 rest) = apply_writes a (ad_writes delta).
Proof.
  intros Hs. rewrite (split_delta_apply _ a _ _ Hs). f_equal. pose proof (changes_default state a) as Hc.
  by destruct (changes state a.1).
Qed.

Lemma writes_none delta (a : agent) state rest :
  split_delta delta = (state, rest) → changes state a.1 = false → rest = [] → apply_writes a (ad_writes delta) = a.
Proof.
  intros Hs Hc ->. rewrite (split_delta_apply _ a _ _ Hs), (changes_false _ a.1 a.1 Hc eq_refl). by destruct a.
Qed.

Definition agent_at v (a : agent) : Prop := default [] (v !! STATE_KEY) = a.1 ∧ ∀ k, v !! KvRow k = a.2 !! k.

(** Rows that an agent's writes leave alone. *)
Definition host_row (k : row) : Prop := k ≠ STATE_KEY ∧ kv_key k = None.
Definition agent_only v v' : Prop := ∀ k, host_row k → v' !! k = v !! k.

Section rows.
Context {D R W E : Type} `{!Redb D R W E} `{!RedbLaws D R W E}.
Implicit Types (lg : RaftLog) (Q : RaftLog → unit → tables → Prop).

Lemma runs_write_kv ws lg v kv C Q :
  (∀ k, v !! KvRow k = kv !! k) →
  (∀ v', (∀ k, v' !! KvRow k = foldl apply_row kv ws !! k) → (∀ k, kv_key k = None → v' !! k = v !! k) → Q lg tt v') →
  runs (tx_each write_kv_row ws) lg v C Q.
Proof.
  revert v kv. induction ws as [|[k x] ws IH]; intros v kv Hkv HQ; cbn [tx_each]; [by apply tx_runs_ret, HQ|].
  apply tx_runs_bind. unfold write_kv_row. cbn. destruct x as [x|]; [apply runs_insert|apply runs_remove].
  - eapply IH; [|intros v' Hv' Hf; apply HQ; [exact Hv'|]].
    + intros j. cbn. destruct (decide (j = k)) as [->|]; [by rewrite !lookup_insert_eq|]. by rewrite !lookup_insert_ne by congruence.
    + intros j Hj. rewrite (Hf j Hj). apply lookup_insert_ne. by intros <-.
  - eapply IH; [|intros v' Hv' Hf; apply HQ; [exact Hv'|]].
    + intros j. cbn. destruct (decide (j = k)) as [->|]; [by rewrite !lookup_delete_eq|]. by rewrite !lookup_delete_ne by congruence.
    + intros j Hj. rewrite (Hf j Hj). apply lookup_delete_ne. by intros <-.
Qed.

Lemma runs_write_rows state rest lg v (a : agent) C Q :
  agent_at v a →
  (∀ v', agent_at v' (default a.1 state, foldl apply_row a.2 rest) → agent_only v v' → Q lg tt v') →
  runs (write_rows state rest) lg v C Q.
Proof.
  intros [Hst Hkv] HQ. unfold write_rows. apply tx_runs_bind. destruct state as [state|]; [apply runs_insert|apply tx_runs_ret].
  - eapply runs_write_kv; [intros k; rewrite lookup_insert_ne by done; apply Hkv|]. intros v' Hv' Hf. apply HQ.
    + split; [|done]. by rewrite (Hf STATE_KEY) , lookup_insert_eq.
    + intros k [Hk1 Hk2]. by rewrite (Hf k Hk2), lookup_insert_ne.
  - eapply runs_write_kv; [apply Hkv|]. intros v' Hv' Hf. apply HQ.
    + split; [|done]. by rewrite (Hf STATE_KEY).
    + intros k [Hk1 Hk2]. by apply Hf.
Qed.

(** The rows of a rebuilt agent, later ones winning. *)
Definition rebuilt (rows : list (bytes * bytes)) : gmap bytes bytes := foldl (λ kv e, <[e.1 := e.2]> kv) ∅ rows.

Lemma runs_insert_rows rows lg v kv C Q :
  (∀ k, v !! KvRow k = kv !! k) →
  (∀ v', (∀ k, v' !! KvRow k = foldl (λ kv e, <[e.1 := e.2]> kv) kv rows !! k) →
     (∀ k, kv_key k = None → v' !! k = v !! k) → Q lg tt v') →
  runs (tx_each (λ e : bytes * bytes, tx_insert (KvRow e.1) e.2) rows) lg v C Q.
Proof.
  revert v kv. induction rows as [|[k x] rows IH]; intros v kv Hkv HQ; cbn [tx_each]; [by apply tx_runs_ret, HQ|].
  apply tx_runs_bind, runs_insert. eapply IH; [|intros v' Hv' Hf; apply HQ; [exact Hv'|]].
  - intros j. cbn. destruct (decide (j = k)) as [->|]; [by rewrite !lookup_insert_eq|]. by rewrite !lookup_insert_ne by congruence.
  - intros j Hj. rewrite (Hf j Hj). apply lookup_insert_ne. by intros <-.
Qed.

Lemma lookup_without_kv v j : filter (λ e, kv_key e.1 = None) v !! j = match j with KvRow _ => None | _ => v !! j end.
Proof using.
  destruct (decide (kv_key j = None)) as [Hj|Hj].
  - destruct (v !! j) as [x|] eqn:Hx.
    + transitivity (Some x); [by apply map_lookup_filter_Some|by destruct j].
    + transitivity (@None bytes); [apply map_lookup_filter_None; by left|by destruct j].
  - transitivity (@None bytes); [apply map_lookup_filter_None; right; by intros x _|by destruct j].
Qed.

Lemma runs_rebuild state rows lg v C Q :
  (∀ v', agent_at v' (state, rebuilt rows) → agent_only v v' → Q lg tt v') →
  runs (tx_insert STATE_KEY state;; swap_kv_rows rows) lg v C Q.
Proof.
  intros HQ. apply tx_runs_bind, runs_insert. unfold swap_kv_rows. apply tx_runs_bind. intros w Hw. unfold tx_write.
  destruct (w_delete_kv w) as [w'|e] eqn:Hd; cbn; [|done]. apply w_delete_kv_view in Hd. rewrite Hd, Hw.
  eapply runs_insert_rows.
  - intros k. rewrite lookup_without_kv. symmetry. apply lookup_empty.
  - intros v' Hv' Hf. apply HQ.
    + split; [|done]. by rewrite (Hf STATE_KEY), lookup_without_kv by done; cbn; rewrite lookup_insert_eq.
    + intros k [Hk1 Hk2]. rewrite (Hf k Hk2), lookup_without_kv. transitivity (<[STATE_KEY := state]> v !! k); [by destruct k|].
      by rewrite lookup_insert_ne.
Qed.

(** The end of a transaction that has no error of its own. *)
Lemma write_txn_outcome {A} (db : D) (t : RaftRedb.tx A) (P : tables → Prop) :
  runs t (mkRaftLog 0 0 0 0) (view db) False (λ _ _ v', P v') →
  match write_txn db t with Ok db' => P (view db') | Err Config => False | Err (Backend _) => True end.
Proof.
  intros Hrun. unfold write_txn, run_tx. destruct (begin_write db) as [w|e] eqn:Hw; [|done]. cbn.
  specialize (Hrun w (begin_write_view _ _ Hw)). destruct (t _ w) as [lg [[x w']|[|e]]]; [|done|done].
  cbn. destruct (w_commit w') as [db'|e] eqn:Hc; [|done]. cbn. by rewrite (w_commit_view _ _ Hc).
Qed.

Lemma read_state_at db : answers (strategy_read_state db) (view db !! STATE_KEY).
Proof. apply read_answers. intros r <-. apply get_answers. Qed.

Lemma read_rows_at db (a : agent) rows : agent_at (view db) a → read_kv_rows db = Ok rows → list_to_map rows = a.2.
Proof.
  intros [_ Hkv]. unfold read_kv_rows. destruct (begin_read db) as [r|e] eqn:Hr; [|done]. cbn.
  destruct (r_kv_rows r) as [l|e] eqn:Hl; [|done]. intros [= <-]. apply r_kv_rows_view in Hl as [Hnd Hin].
  rewrite (begin_read_view _ _ Hr) in Hin. apply map_eq. intros k. apply option_eq. intros x.
  rewrite <- elem_of_list_to_map by done. by rewrite Hin, Hkv.
Qed.
End rows.

(** * vos: the Raft strategy of a single node

    [single_at s logs a]: the database of [s] holds the agent [a], and a Raft log
    that is, from the snapshot pointer on, the effect logs [logs], all of them
    committed and applied; the strategy's caches are those of the database. *)

Implicit Types (logs : list EffectLog) (a : agent).

(** ** Scalars *)

Lemma row_u64_lt v k : row_u64 v k < u64_modulus.
Proof.
  unfold row_u64. destruct (v !! k) as [x|]; [|done]. cbn. unfold u64_le.
  pose proof (from_le_bytes_lt (take 8 x)) as Hlt. eapply N.lt_le_trans; [exact Hlt|].
  unfold int_modulus. change u64_modulus with (256 ^ N.of_nat 8). apply N.pow_le_mono_r; [done|].
  rewrite length_take. lia.
Qed.

Lemma row_vote_lt v : match row_vote v with Some p => p < int_modulus 2 | None => True end.
Proof.
  unfold row_vote. destruct (v !! META_VOTED_FOR) as [x|]; [|done]. cbn. destruct (Nat.eqb_spec (length x) 2) as [Hx|]; [|done].
  rewrite <- Hx. apply from_le_bytes_lt.
Qed.

Definition meta_widths (m : RaftMeta) : Prop := meta_ok (meta_from_raft m) ∧ rm_last_applied m < u64_modulus.

Lemma loaded_widths v : meta_widths (loaded v).
Proof. split; [split_and!|]; cbn; try apply row_u64_lt. apply row_vote_lt. Qed.

Definition not_meta (k : row) : Prop := match k with MetaRow _ => False | _ => True end.

Section single.
Context {D R W E : Type} `{!Redb D R W E} `{!RedbLaws D R W E}.
Implicit Types (s : RaftCommit (D := D)) (lg : RaftRedb.RaftLog) (Q : RaftRedb.RaftLog → unit → tables → Prop).

Lemma runs_write_meta m lg v C Q :
  meta_widths m →
  (∀ v', loaded v' = m → (∀ k, not_meta k ∨ k = META_ACTIVE_CONFIG → v' !! k = v !! k) → Q lg tt v') →
  runs (write_in_txn m) lg v C Q.
Proof.
  intros [(Ht & Hv & Hci & Hsi & Hst) Hla] HQ. unfold write_in_txn.
  apply tx_runs_bind, runs_insert, tx_runs_bind, runs_vote, tx_runs_bind, runs_insert, tx_runs_bind, runs_insert, tx_runs_bind, runs_insert, runs_insert.
  cbn in Ht, Hv, Hci, Hsi, Hst. apply HQ.
  - unfold loaded, row_u64, row_vote. meta_lookups. cbn [fmap option_fmap option_map default].
    rewrite !u64_le_le64 by done. rewrite decode_vote by done. by destruct m.
  - intros k Hk. assert (∀ j, j ≠ META_ACTIVE_CONFIG → (∃ name, j = MetaRow name) → j ≠ k) as Hj.
    { intros j Hj1 [name ->] <-. by destruct Hk. }
    rewrite !lookup_insert_ne by (apply Hj; [done|by eexists]). rewrite lookup_set_vote_ne by (apply Hj; [done|by eexists]).
    by rewrite lookup_insert_ne by (apply Hj; [done|by eexists]).
Qed.

(** ** The log of a single node *)

(** The entries from the snapshot on carry the logs. *)
Definition holds_logs (lg : RaftRedb.RaftLog) (d : MemStorage N) logs : Prop :=
  Forall2 (λ e l, log_ok l ∧ e_kind e = Data (log_to_bytes l))
    (log_range (mem_log d) (rl_snap_last_index lg + 1) (rl_last_index lg)) logs.

Record single_at s logs a : Prop := {
  sg_rows : ∃ d, rows_at (view (rc_db s)) (rc_log s) d ∧ holds_logs (rc_log s) d logs;
  sg_agent : agent_at (view (rc_db s)) a;
  sg_meta : rc_meta s = loaded (view (rc_db s));
  sg_state : rc_last_state s = a.1;
  sg_commit : rm_commit_index (rc_meta s) = rl_last_index (rc_log s);
  sg_applied : rm_last_applied (rc_meta s) = rl_last_index (rc_log s);
}.

Lemma log_to_bytes_nonempty l : log_to_bytes l ≠ [].
Proof using.
  unfold log_to_bytes, head_bytes, enc_reply, enc_len. intros H%(f_equal length).
  rewrite !length_app, length_to_le_bytes in H. cbn in H. lia.
Qed.

Lemma replay_data e l : log_ok l → e_kind e = Data (log_to_bytes l) → replay_entry (E:=E) (raw_entry e) = Ok (Some l).
Proof using.
  intros Hl He. unfold replay_entry, raw_entry. cbn [snd]. rewrite He.
  rewrite (proj2 (decode_entry_kind_spec _ (Data (log_to_bytes l)))) by done. cbn [mbind result_bind].
  destruct (Nat.eqb_spec (length (log_to_bytes l)) 0) as [H0|_].
  { by apply length_zero_iff_nil, log_to_bytes_nonempty in H0. }
  by rewrite (proj2 (from_bytes_spec _ l)) by auto.
Qed.

(** Reopening finds the same strategy. *)
Lemma single_reopens s logs a : single_at s logs a → answers (rc_from_db (rc_db s)) s.
Proof.
  intros [(d & Hr & _) [Hst _] Hm Hs _ _]. eapply answers_bind; [by eapply log_open_answers|].
  eapply answers_bind; [apply meta_load_answers|]. eapply answers_bind; [apply read_state_at|]. cbn.
  rewrite Hst, <- Hm, <- Hs. by destruct s.
Qed.

(** Replay returns the logs. *)
Lemma replay_rows es logs :
  Forall2 (λ e l, log_ok l ∧ e_kind e = Data (log_to_bytes l)) es logs →
  each_row (replay_entry (E:=E)) (raw_entry <$> es) = Ok (Some <$> logs).
Proof using.
  induction 1 as [|e l es logs [Hl He] _ IH]; [done|]. cbn [fmap list_fmap each_row]. by rewrite (replay_data _ _ Hl He), IH.
Qed.

Lemma log_range_empty (l : gmap N (LogEntry N)) lo hi : hi < lo → log_range l lo hi = [].
Proof using. intros Hlt. apply elem_of_nil_inv. intros e (k & Hk & _)%elem_of_log_range. lia. Qed.

Lemma single_replays s logs a : single_at s logs a → answers (rc_replay_logs s) logs.
Proof.
  intros [(d & Hr & Hlogs) _ Hm _ Hc _]. unfold holds_logs in Hlogs.
  assert (rm_snap_last_index (rc_meta s) = rl_snap_last_index (rc_log s)) as Hsnap.
  { rewrite Hm, (ra_snap _ _ _ Hr). unfold mem_snap_last_index. by rewrite <- (ra_meta _ _ _ Hr). }
  assert (∀ lo hi, hi < lo → lo = rl_snap_last_index (rc_log s) + 1 → hi = rl_last_index (rc_log s) → logs = []) as Hnil.
  { intros lo hi Hlt -> ->. rewrite log_range_empty in Hlogs by done. by apply Forall2_nil_inv_l in Hlogs. }
  unfold rc_replay_logs. rewrite Hc, Hsnap. destruct (N.eqb_spec (rl_last_index (rc_log s)) 0) as [H0|].
  { cbn. symmetry. eapply Hnil; [|done|done]. lia. }
  set (start := N.min _ _). destruct (N.ltb_spec (rl_last_index (rc_log s)) start).
  { cbn. symmetry. eapply Hnil; [|done|done]. lia. }
  eapply answers_bind; [by apply log_entries_answers|].
  assert (default [] (mem_entries d start (rl_last_index (rc_log s))) =
    log_range (mem_log d) (rl_snap_last_index (rc_log s) + 1) (rl_last_index (rc_log s))) as ->.
  { unfold mem_entries. rewrite (proj2 (N.ltb_ge _ _)) by done. rewrite <- (ra_snap _ _ _ Hr).
    pose proof (la_width _ _ _ (ra_log _ _ _ Hr)). pose proof (la_order _ _ _ (ra_log _ _ _ Hr)).
    destruct (decide (rl_snap_last_index (rc_log s) = u64_max)) as [Hmax|].
    { rewrite log_range_empty with (lo := rl_snap_last_index (rc_log s) + 1)
        by (rewrite Hmax; unfold u64_max, u64_modulus in *; lia).
      destruct (_ <? N.max _ _); [done|]. cbn. apply elem_of_nil_inv. intros e (k & Hk & He)%elem_of_log_range.
      pose proof (proj1 (la_keys _ _ _ (ra_log _ _ _ Hr) k) ltac:(by eexists)). unfold u64_max, u64_modulus in *. lia. }
    rewrite wrapping_add64_small by (unfold u64_max, u64_modulus in *; lia).
    replace (N.max start _) with (rl_snap_last_index (rc_log s) + 1) by (unfold start, u64_max, u64_modulus in *; lia).
    destruct (N.ltb_spec (rl_last_index (rc_log s)) (rl_snap_last_index (rc_log s) + 1)); [|done]. cbn. by rewrite log_range_empty. }
  rewrite (replay_rows _ _ Hlogs). cbn. induction logs as [|l ls IH] in |- *; [done|]. cbn. by rewrite IH.
Qed.

(** ** Committing *)

Lemma finish_outcome s r :
  match finish (E:=E) s r with
  | (s', Ok _) => ∃ x w, r.2 = Ok (x, w) ∧ ∃ db, view db = wview w ∧ s' = with_rc_db db s
  | (s', Err e) => s' = s ∧ (e = Config → r.2 = Err Config)
  end.
Proof.
  unfold finish. destruct r as [lg [[x w]|e]]; cbn; [|naive_solver].
  destruct (w_commit w) as [db|e] eqn:Hc; cbn; [|naive_solver]. apply w_commit_view in Hc. eauto 8.
Qed.

Lemma rows_at_append v lg d t p :
  rows_at v lg d → t < u64_modulus → rl_last_index lg + 1 < u64_modulus →
  rows_at (<[LogRow (rl_last_index lg + 1) := row_encode t (encode_entry_kind (Data p))]> v)
    (mkRaftLog (rl_last_index lg + 1) t (rl_snap_last_index lg) (rl_snap_last_term lg))
    (mkMem (<[rl_last_index lg + 1 := mkEntry (rl_last_index lg + 1) t (Data p)]> (mem_log d)) (mem_state d) (mem_meta d)
       (mem_applied_index_ d) (mem_active_config_ d)).
Proof using.
  intros [Hl Hs Hst Hm Hc Hstate Ha] Ht. split; [|done|done|..].
  - apply (log_at_append _ _ _ (mkEntry (rl_last_index lg + 1) t (Data p)) Hl eq_refl). by split.
  - rewrite <- Hm. unfold loaded, row_u64, row_vote. by rewrite !lookup_insert_ne by done.
  - unfold config_at in *. by rewrite lookup_insert_ne by done.
  - by rewrite lookup_insert_ne by done.
  - rewrite Ha. unfold loaded, row_u64. cbn. by rewrite lookup_insert_ne by done.
Qed.

(** Other scalars and another state under the same log. *)
Lemma rows_at_scalars v v' lg d :
  rows_at v lg d → rm_snap_last_index (loaded v') = rm_snap_last_index (loaded v) →
  rm_snap_last_term (loaded v') = rm_snap_last_term (loaded v) → (∀ i, v' !! LogRow i = v !! LogRow i) →
  v' !! META_ACTIVE_CONFIG = v !! META_ACTIVE_CONFIG →
  rows_at v' lg (mkMem (mem_log d) (default [] (v' !! STATE_KEY)) (meta_from_raft (loaded v'))
    (Some (rm_last_applied (loaded v'))) (mem_active_config_ d)).
Proof using.
  intros [Hl Hs Hst Hm Hc _ _] Hi Ht Hlog Hcfg. split; [by eapply log_at_ext| | |done| |done|done].
  - rewrite Hs. unfold mem_snap_last_index. rewrite <- Hm. cbn in *. congruence.
  - rewrite Hst. unfold mem_snap_last_term. rewrite <- Hm. cbn in *. congruence.
  - unfold config_at in *. by rewrite Hcfg.
Qed.

Lemma agent_only_loaded v v' : agent_only v v' → loaded v' = loaded v.
Proof using. intros Hf. unfold loaded, row_u64, row_vote. by rewrite !Hf by by split. Qed.

Lemma runs_append_one t p lg v C (P : RaftRedb.RaftLog → N → tables → Prop) :
  rl_last_index lg + 1 < u64_modulus →
  P (mkRaftLog (rl_last_index lg + 1) t (rl_snap_last_index lg) (rl_snap_last_term lg)) (rl_last_index lg + 1)
    (<[LogRow (rl_last_index lg + 1) := row_encode t p]> v) →
  runs (append_in_txn t p) lg v C P.
Proof.
  intros Hlt HP. unfold append_in_txn.
  rewrite <- (wrapping_add64_small (rl_last_index lg) 1) in HP by (unfold u64_max, u64_modulus in *; lia). by apply tx_runs_bind, runs_log, tx_runs_bind, runs_insert, tx_runs_bind, runs_set_log, tx_runs_ret.
Qed.

(** The rest of the transaction, after the entry. *)
Lemma runs_apply_entry m state rest lg v a C Q :
  meta_widths m → agent_at v a →
  (∀ v', agent_at v' (default a.1 state, foldl apply_row a.2 rest) → loaded v' = m →
     v' !! META_ACTIVE_CONFIG = v !! META_ACTIVE_CONFIG → (∀ i, v' !! LogRow i = v !! LogRow i) → Q lg tt v') →
  runs (write_in_txn m;; write_rows state rest) lg v C Q.
Proof.
  intros Hm [Hag1 Hag2] HQ. apply tx_runs_bind, runs_write_meta; [done|]. intros v2 Hl2 Hf2. apply (runs_write_rows _ _ _ _ a).
  - split; [|intros k]; by rewrite Hf2 by by left.
  - intros v3 Hag3 Hf3. apply HQ; [done|by rewrite (agent_only_loaded _ _ Hf3)| |].
    + rewrite Hf3 by done. apply Hf2. by right.
    + intros i. rewrite Hf3 by done. apply Hf2. by left.
Qed.

(** The strategy after an entry that carries [log]. *)
Lemma single_at_appended s logs a a' log db :
  let n := rl_last_index (rc_log s) + 1 in
  let t := rm_current_term (rc_meta s) in
  let lg := mkRaftLog n t (rl_snap_last_index (rc_log s)) (rl_snap_last_term (rc_log s)) in
  let v := <[LogRow n := row_encode t (encode_entry_kind (Data (log_to_bytes log)))]> (view (rc_db s)) in
  single_at s logs a → n < u64_modulus → log_ok log → agent_at (view db) a' → loaded (view db) = meta_applied n n (rc_meta s) →
  view db !! META_ACTIVE_CONFIG = v !! META_ACTIVE_CONFIG → (∀ i, view db !! LogRow i = v !! LogRow i) →
  single_at (mkRaftCommit db lg (meta_applied n n (rc_meta s)) a'.1) (logs ++ [log]) a'.
Proof.
  intros n t lg v [(d & Hr & Hlogs) Hag Hm Hst Hc Ha] Hn Hlog Hag2 Hl2 Hcfg2 Hlog2. split; cbn; [|done|done|done|done|done].
  assert (loaded v = loaded (view (rc_db s))) as Hl1.
  { unfold v, loaded, row_u64, row_vote. by rewrite !lookup_insert_ne by done. }
  eexists. split.
  - eapply rows_at_scalars; [apply (rows_at_append _ _ _ t (log_to_bytes log) Hr)| | |done|done].
    + unfold t. rewrite Hm. apply row_u64_lt.
    + exact Hn.
    + fold n v. by rewrite Hl2, Hl1, <- Hm.
    + fold n v. by rewrite Hl2, Hl1, <- Hm.
  - unfold holds_logs. cbn. fold n. pose proof (ra_log _ _ _ Hr) as Hl. unfold n.
    rewrite log_range_snoc; [|intros k e He; by apply (la_entry _ _ _ Hl)|apply (log_at_none _ _ _ _ Hl); lia|done|].
    + apply Forall2_app; [done|]. constructor; [by split|constructor].
    + pose proof (la_order _ _ _ Hl). lia.
Qed.

Lemma append_and_apply_outcome s logs a state rest log :
  single_at s logs a → rl_last_index (rc_log s) + 1 < u64_modulus → log_ok log →
  match append_and_apply_single_node s state rest (log_to_bytes log) with
  | (s', Ok _) => rc_last_state s' = rc_last_state s ∧
      single_at (with_rc_state (default a.1 state) s') (logs ++ [log]) (default a.1 state, foldl apply_row a.2 rest)
  | (s', Err e) => rc_db s' = rc_db s ∧ e ≠ Config
  end.
Proof.
  intros Hs Hlt Hlog. pose proof (sg_agent _ _ _ Hs) as [Hag1 Hag2]. pose proof (sg_meta _ _ _ Hs) as Hm.
  unfold append_and_apply_single_node. destruct (begin_write (rc_db s)) as [w|e] eqn:Hw; [|done]. cbn. apply begin_write_view in Hw.
  set (t := rm_current_term (rc_meta s)). set (n := rl_last_index (rc_log s) + 1) in *.
  pose proof (runs_append_one t (encode_entry_kind (Data (log_to_bytes log))) (rc_log s) (view (rc_db s)) False
    (λ lg' i v', lg' = mkRaftLog n t (rl_snap_last_index (rc_log s)) (rl_snap_last_term (rc_log s)) ∧ i = n ∧
       v' = <[LogRow n := row_encode t (encode_entry_kind (Data (log_to_bytes log)))]> (view (rc_db s)))
    Hlt (conj eq_refl (conj eq_refl eq_refl)) w Hw) as Happ.
  destruct (append_in_txn _ _ _ w) as [lg' [[i w1]|[|e]]]; [|done|done]. destruct Happ as (-> & -> & Hw1).
  set (lg1 := mkRaftLog _ _ _ _) in *. set (meta := meta_applied n n (rc_meta s)).
  assert (meta_widths meta) as Hwid.
  { destruct (loaded_widths (view (rc_db s))) as [(? & ? & ? & ? & ?) ?]. unfold meta. rewrite Hm. by repeat split. }
  pose proof (runs_apply_entry meta state rest lg1 (wview w1) a False (λ _ _ v',
    agent_at v' (default a.1 state, foldl apply_row a.2 rest) ∧ loaded v' = meta ∧
    v' !! META_ACTIVE_CONFIG = wview w1 !! META_ACTIVE_CONFIG ∧ ∀ i, v' !! LogRow i = wview w1 !! LogRow i) Hwid) as Hrun.
  specialize (Hrun ltac:(rewrite Hw1; split; [|intros k]; by rewrite lookup_insert_ne) ltac:(done) w1 eq_refl).
  set (out := (write_in_txn meta;; write_rows state rest) lg1 w1) in *. clearbody out.
  pose proof (finish_outcome (with_rc_meta meta (with_rc_log lg1 s)) out) as Hfin. destruct (finish _ _) as [s' [u|e]].
  - destruct Hfin as (x & w2 & Hx & db & Hdb & ->). destruct out as [lg2 r2]. cbn in Hx. subst r2.
    destruct Hrun as (Hag' & Hl & Hcfg & Hlog'). rewrite <- Hdb in *. rewrite Hw1 in *.
    split; [done|]. by apply (single_at_appended s logs a (default a.1 state, foldl apply_row a.2 rest) log db Hs).
  - destruct Hfin as [-> He]. split; [done|]. intros ->. specialize (He eq_refl).
    destruct out as [lg2 r2]. cbn in He. by subst r2.
Qed.

(** Rows without an entry: everything is applied, so the host's progress stays. *)
Lemma single_at_materialized s logs a a' db :
  single_at s logs a → agent_at (view db) a' → agent_only (view (rc_db s)) (view db) →
  single_at (mkRaftCommit db (rc_log s) (rc_meta s) a'.1) logs a'.
Proof.
  intros [(d & Hr & Hlogs) Hag Hm Hst Hc Ha] Hag' Hf. pose proof (agent_only_loaded _ _ Hf) as Hl.
  split; cbn; [|done|by rewrite Hl|done|done|done]. eexists. split.
  - eapply rows_at_scalars; [exact Hr|by rewrite Hl|by rewrite Hl|intros i|]; by apply Hf.
  - exact Hlogs.
Qed.

Lemma materialize_outcome s logs a a' (t : RaftRedb.tx unit) :
  single_at s logs a →
  runs t (rc_log s) (view (rc_db s)) False (λ _ _ v', agent_at v' a' ∧ agent_only (view (rc_db s)) v') →
  match materialize s t with
  | (s', Ok _) => rc_last_state s' = rc_last_state s ∧ single_at (with_rc_state a'.1 s') logs a'
  | (s', Err e) => rc_db s' = rc_db s ∧ e ≠ Config
  end.
Proof.
  intros Hs Hrun. unfold materialize. pose proof (meta_load_answers (rc_db s)) as Hload.
  destruct (meta_load (rc_db s)) as [m|[|e]]; [|done|done]. cbn in Hload. rewrite <- (sg_meta _ _ _ Hs) in Hload. subst m. cbn.
  destruct (begin_write (rc_db s)) as [w|e] eqn:Hw; [|done]. apply begin_write_view in Hw. cbn. specialize (Hrun w Hw).
  destruct (t (rc_log s) w) as [lg [[[] w']|[|e]]]; [|done|done]. cbn [snd].
  unfold advance_applied. cbn [rc_meta with_rc_meta rc_log].
  rewrite (sg_commit _ _ _ Hs), (sg_applied _ _ _ Hs), N.ltb_irrefl. set (s0 := with_rc_meta (rc_meta s) s).
  pose proof (finish_outcome s0 (rc_log s, Ok (tt, w'))) as Hfin. destruct (finish _ _) as [s' [u|e]].
  - destruct Hfin as (x & w2 & [= <- <-] & db & Hdb & ->). rewrite <- Hdb in Hrun. destruct Hrun as [Hag Hf].
    split; [done|]. by apply (single_at_materialized s logs a a' db).
  - destruct Hfin as [-> He]. split; [done|]. intros ->. by specialize (He eq_refl).
Qed.

Lemma reload_outcome s s' logs a :
  single_at s logs a → rc_db s' = rc_db s →
  match rc_reload s' with (s'', Ok _) => s'' = s | (s'', Err e) => rc_db s'' = rc_db s ∧ e ≠ Config end.
Proof.
  intros [(d & Hr & _) [Hst _] Hm Hs _ _] Hdb. unfold rc_reload. rewrite Hdb.
  pose proof (meta_load_answers (rc_db s)) as Hload. destruct (meta_load (rc_db s)) as [m|[|e]]; [|done|done]. cbn in Hload. cbn.
  rewrite Hdb. pose proof (log_open_answers (rc_db s) _ _ Hr) as Hopen. destruct (log_open (rc_db s)) as [lg|[|e]]; [|done|done]. cbn in Hopen. cbn.
  pose proof (read_state_at (rc_db s)) as Hread. destruct (strategy_read_state (rc_db s)) as [st|[|e]]; [|done|done]. cbn in Hread. cbn.
  unfold with_rc_state, with_rc_log, with_rc_meta. cbn. rewrite Hdb, Hload, Hopen, Hread, Hst, <- Hm, <- Hs. by destruct s.
Qed.
End single.
