(* ===== verification/StrategyProps.v ===== *)
(** * vos: commit strategies, properties

    The local strategy and the Raft strategy of a single node keep the agent that
    the dispatches' writes describe, through commits, rebuilds, failures and
    restarts; the Raft strategy replays the effect logs of the dispatches it
    appended. *)

From Stdlib.Strings Require Byte.
From S2P Require Import Prelude RaftTypes RaftStorage Bytes EffectLog EffectProps Redb RaftRedb RaftRedbLog.
From S2P Require Import RaftRedbCommit Strategy StrategyRaft.

Local Open Scope N_scope.

Section props.
Context {D R W E : Type} `{!Redb D R W E} `{!RedbLaws D R W E}.
Implicit Types (a : agent).

Definition local_at (s : LocalCommit (D := D)) a : Prop := lc_last s = a.1 ∧ agent_at (view (lc_db s)) a.

Lemma local_commit_outcome s a delta :
  local_at s a →
  match local_commit s delta with
  | (s', Ok appended) => appended = false ∧ local_at s' (apply_writes a (ad_writes delta))
  | (s', Err e) => s' = s ∧ e ≠ Config
  end.
Proof.
  intros [Hlast Hag]. unfold local_commit. destruct (split_delta delta) as [state rest] eqn:Hsplit. rewrite Hlast.
  destruct (negb (changes state a.1) && (length rest =? 0)%nat) eqn:Hskip.
  { apply andb_true_iff in Hskip as [Hc Hr]. apply negb_true_iff in Hc. apply Nat.eqb_eq, length_zero_iff_nil in Hr.
    rewrite (writes_none _ a _ _ Hsplit Hc Hr). split; [done|by split]. }
  pose proof (write_txn_outcome (lc_db s) (write_rows (if changes state a.1 then state else None) rest)
    (λ v, agent_at v (apply_writes a (ad_writes delta)))) as Hout.
  rewrite <- (writes_kept _ a _ _ Hsplit) in *. specialize (Hout ltac:(by eapply runs_write_rows)).
  destruct (write_txn _ _) as [db|[|e]]; [|done|done]. split; [done|]. split; [|done]. cbn [lc_last fst].
  pose proof (changes_default state a) as Hd. destruct (changes state a.1); [done|]. by symmetry.
Qed.

(** On a database that does not fail, only the code's own error is left. *)
Lemma write_txn_reliable {A} `{!RedbReliable D R W E} (db : D) (t : tx (W:=W) (E:=E) A) :
  sound t → (∃ db', write_txn db t = Ok db') ∨ write_txn db t = Err Config.
Proof.
  intros Ht. pose proof (λ e, run_tx_sound (mkRaftLog 0 0 0 0) db t e Ht) as Hs. unfold write_txn.
  destruct (run_tx _ _ _) as [lg [[x db']|[|e]]]; cbn in *; [left; by eexists|by right|by destruct (Hs e)].
Qed.

Lemma sound_write_rows `{!RedbReliable D R W E} state rest : sound (write_rows state rest).
Proof. unfold write_rows, write_state_row, write_kv_row. sound_steps. Qed.

Lemma sound_rebuild `{!RedbReliable D R W E} state rows : sound (tx_insert STATE_KEY state;; swap_kv_rows rows).
Proof.
  unfold swap_kv_rows. sound_steps. intros lg w e. unfold tx_write. by destruct (w_delete_kv_ok w) as [? ->].
Qed.

(** C39: The local strategy.  A commit either makes database and cache those of the
    agent after the dispatch's writes, applied in their order, or fails with the
    database's error and changes nothing; it never appends a log node.  A rebuild
    replaces state and rows, so that no row of the old agent stays.  Reopening and
    restoring finds the same agent, and the rows read back are its rows.  On a
    database that does not fail, commits and rebuilds succeed. *)
Theorem local_commit_durable s a :
  local_at s a →
  (∀ delta, match local_commit s delta with
            | (s', Ok appended) => appended = false ∧ local_at s' (apply_writes a (ad_writes delta))
            | (s', Err e) => s' = s ∧ e ≠ Config
            end) ∧
  (∀ state rows, match local_commit_rebuilt s state rows with
                 | (s', Ok _) => local_at s' (state, rebuilt rows)
                 | (s', Err e) => s' = s ∧ e ≠ Config
                 end) ∧
  (∀ st, strategy_read_state (lc_db s) = Ok st →
     local_at (local_restore (local_open (lc_db s))).1 a ∧ default [] (local_restore (local_open (lc_db s))).2 = a.1) ∧
  (∀ rows, read_kv_rows (lc_db s) = Ok rows → list_to_map rows = a.2) ∧
  (RedbReliable D R W E →
     (∀ delta, ∃ s', local_commit s delta = (s', Ok false)) ∧
     ∀ state rows, ∃ s', local_commit_rebuilt s state rows = (s', Ok false)).
Proof.
  intros Hs. split_and!.
  - intros delta. by apply local_commit_outcome.
  - intros state rows. unfold local_commit_rebuilt.
    pose proof (write_txn_outcome (lc_db s) (tx_insert STATE_KEY state;; swap_kv_rows rows) (λ v, agent_at v (state, rebuilt rows))) as Hout.
    specialize (Hout ltac:(by apply runs_rebuild)). destruct (write_txn _ _) as [db|[|e]]; [|done|done]. by split.
  - intros st Hst. destruct Hs as [Hlast Hag]. pose proof (read_state_at (lc_db s)) as Hread. rewrite Hst in Hread. cbn in Hread.
    pose proof (proj1 Hag) as Hag1. rewrite <- Hread in Hag1. unfold local_restore. cbn. rewrite Hst.
    by destruct st as [st|]; cbn in *.
  - intros rows. apply read_rows_at, Hs.
  - intros Hrel. split.
    + intros delta. pose proof (local_commit_outcome s a delta Hs) as Hout. unfold local_commit in *.
      destruct (split_delta delta) as [state rest]. destruct (_ && _); [by eexists|]. revert Hout.
      destruct (write_txn_reliable (lc_db s) (write_rows (if changes state (lc_last s) then state else None) rest)) as [[db ->]| ->];
        [apply sound_write_rows|by eexists|by intros []].
    + intros state rows. unfold local_commit_rebuilt.
      pose proof (write_txn_outcome (lc_db s) (tx_insert STATE_KEY state;; swap_kv_rows rows) (λ v, agent_at v (state, rebuilt rows)))
        as Hout. specialize (Hout ltac:(by apply runs_rebuild)). revert Hout.
      destruct (write_txn_reliable (lc_db s) (tx_insert STATE_KEY state;; swap_kv_rows rows)) as [[db ->]| ->];
        [apply sound_rebuild|by eexists|done].
Qed.

(** C25: The Raft strategy of a single node, for a dispatch with an effect log.  A
    commit that reports an appended entry leaves the log of appended dispatches
    longer by this one and the agent with its writes; a commit that reports none
    was a pure read and changed nothing; a failed one leaves the database alone.
    Replaying returns the appended dispatches in order, and reopening, or reloading
    after a failure, finds the strategy of the last commit that succeeded. *)
Theorem raft_commit_replays s logs a :
  single_at s logs a →
  answers (rc_replay_logs s) logs ∧ answers (rc_from_db (rc_db s)) s ∧
  ∀ delta log, rl_last_index (rc_log s) + 1 < u64_modulus → ad_log delta = Some log → log_ok log →
    match rc_commit s delta with
    | (s', Ok true) => single_at s' (logs ++ [log]) (apply_writes a (ad_writes delta))
    | (s', Ok false) => s' = s ∧ ad_effect_bearing delta = false ∧ apply_writes a (ad_writes delta) = a
    | (s', Err e) =>
        rc_db s' = rc_db s ∧ e ≠ Config ∧
        match rc_reload s' with (s'', Ok _) => s'' = s | (s'', Err e) => rc_db s'' = rc_db s ∧ e ≠ Config end
    end.
Proof.
  intros Hs. split; [by eapply single_replays|]. split; [by eapply single_reopens|]. intros delta log Hlt Hlog Hok.
  unfold rc_commit. destruct (split_delta delta) as [state rest] eqn:Hsplit. rewrite Hlog, (sg_state _ _ _ Hs).
  destruct (negb (changes state a.1) && negb (ad_effect_bearing delta) && (length rest =? 0)%nat) eqn:Hskip.
  { rewrite !andb_true_iff, !negb_true_iff, Nat.eqb_eq in Hskip. destruct Hskip as [[Hc He] Hr%length_zero_iff_nil].
    split_and!; [done|done|by eapply writes_none]. }
  pose proof (append_and_apply_outcome s logs a (if changes state a.1 then state else None) rest log Hs Hlt Hok) as Hout.
  rewrite (writes_kept _ a _ _ Hsplit) in Hout.
  destruct (append_and_apply_single_node _ _ _ _) as [s' [u|e]].
  - destruct Hout as [Hkeep Hout]. rewrite (sg_state _ _ _ Hs) in Hkeep. destruct (if changes state a.1 then state else None).
    + exact Hout.
    + destruct s'. cbn in *. by subst.
  - destruct Hout as [Hdb He]. split_and!; [done|done|]. by eapply reload_outcome.
Qed.

(** The Raft strategy of a single node, without an effect log: writing the rows
    of a replayed or rebuilt agent appends nothing, and the log that replay returns
    stays. *)
Theorem raft_materialize_keeps_log s logs a :
  single_at s logs a →
  (∀ delta, ad_log delta = None →
     match rc_commit s delta with
     | (s', Ok appended) => appended = false ∧ single_at s' logs (apply_writes a (ad_writes delta))
     | (s', Err e) => rc_db s' = rc_db s ∧ e ≠ Config
     end) ∧
  (∀ state rows,
     match rc_commit_rebuilt s state rows with
     | (s', Ok appended) => appended = false ∧ single_at s' logs (state, rebuilt rows)
     | (s', Err e) => rc_db s' = rc_db s ∧ e ≠ Config
     end).
Proof.
  intros Hs. split.
  - intros delta Hlog. unfold rc_commit. destruct (split_delta delta) as [state rest] eqn:Hsplit. rewrite Hlog, (sg_state _ _ _ Hs).
    destruct (negb (changes state a.1) && (length rest =? 0)%nat) eqn:Hskip.
    { rewrite andb_true_iff, negb_true_iff, Nat.eqb_eq in Hskip. destruct Hskip as [Hc Hr%length_zero_iff_nil].
      by rewrite (writes_none _ a _ _ Hsplit Hc Hr). }
    pose proof (materialize_outcome s logs a (apply_writes a (ad_writes delta))
      (write_rows (if changes state a.1 then state else None) rest) Hs) as Hout.
    rewrite <- (writes_kept _ a _ _ Hsplit) in *. specialize (Hout ltac:(eapply runs_write_rows; [apply Hs|done])).
    destruct (materialize _ _) as [s' [u|e]]; [|exact Hout]. destruct Hout as [Hkeep Hout]. rewrite (sg_state _ _ _ Hs) in Hkeep.
    split; [done|]. destruct (if changes state a.1 then state else None); [exact Hout|]. destruct s'. cbn in *. by subst.
  - intros state rows. unfold rc_commit_rebuilt.
    pose proof (materialize_outcome s logs a (state, rebuilt rows) (tx_insert STATE_KEY state;; swap_kv_rows rows) Hs) as Hout.
    specialize (Hout ltac:(by apply runs_rebuild)). destruct (materialize _ _) as [s' [u|e]]; [|exact Hout]. by destruct Hout.
Qed.

Lemma wait_commit_true idx ns : wait_commit idx ns = true → ∃ n, n ∈ ns ∧ idx ≤ n.
Proof using.
  induction ns as [|n ns IH]; [done|]. cbn. destruct (N.leb_spec idx n) as [Hn|_].
  - intros _. exists n. split; [left|done].
  - intros (m & Hm & Hle)%IH. exists m. split; [by right|done].
Qed.

Lemma runs_host_fields m lg v C (Q : RaftLog → unit → tables → Prop) :
  Q lg tt (<[META_LAST_APPLIED := le64 (rm_last_applied m)]> v) → runs (write_host_fields_in_txn m) lg v C Q.
Proof. apply runs_insert. Qed.

Lemma apply_committed_outcome s idx state rest a :
  agent_at (view (rc_db s)) a → idx < u64_modulus →
  match apply_committed s idx (write_rows state rest) with
  | (s', Ok _) =>
      rc_last_state s' = rc_last_state s ∧ agent_at (view (rc_db s')) (default a.1 state, foldl apply_row a.2 rest) ∧
      rc_meta s' = loaded (view (rc_db s')) ∧
      rm_last_applied (loaded (view (rc_db s'))) = N.max (rm_last_applied (loaded (view (rc_db s)))) idx ∧
      (∀ k, host_row k → k ≠ META_LAST_APPLIED → view (rc_db s') !! k = view (rc_db s) !! k)
  | (s', Err e) => rc_db s' = rc_db s ∧ e ≠ Config
  end.
Proof.
  intros Hag Hidx. unfold apply_committed. pose proof (meta_load_answers (rc_db s)) as Hload.
  destruct (meta_load (rc_db s)) as [m|[|e]]; [|done|done]. cbn in Hload. subst m. set (m := meta_applied _ _ _). cbn.
  destruct (begin_write (rc_db s)) as [w|e] eqn:Hw; [|done]. apply begin_write_view in Hw. cbn.
  assert (rm_last_applied m < u64_modulus) as Hlt.
  { cbn. pose proof (row_u64_lt (view (rc_db s)) META_LAST_APPLIED). lia. }
  assert (runs (write_rows state rest;; write_host_fields_in_txn m) (rc_log s) (view (rc_db s)) False (λ _ _ v',
    agent_at v' (default a.1 state, foldl apply_row a.2 rest) ∧ loaded v' = m ∧
    ∀ k, host_row k → k ≠ META_LAST_APPLIED → v' !! k = view (rc_db s) !! k)) as Hrun.
  { apply tx_runs_bind, (runs_write_rows _ _ _ _ a); [done|]. intros v1 [Hag1 Hag2] Hf1. apply runs_host_fields. split_and!.
    - split; [|intros k]; by rewrite lookup_insert_ne.
    - transitivity (meta_applied (rm_commit_index (loaded v1)) (rm_last_applied m) (loaded v1)).
      + unfold loaded, meta_applied, row_u64, row_vote. cbn. rewrite lookup_insert_eq. cbn. rewrite u64_le_le64 by done.
        by rewrite !lookup_insert_ne by done.
      + by rewrite (agent_only_loaded _ _ Hf1).
    - intros k Hk Hne. rewrite lookup_insert_ne by done. by apply Hf1. }
  specialize (Hrun w Hw). set (out := (write_rows state rest;; write_host_fields_in_txn m) (rc_log s) w) in *. clearbody out.
  pose proof (finish_outcome (with_rc_meta m s) out) as Hfin. destruct (finish _ _) as [s' [u|e]].
  - destruct Hfin as (x & w2 & Hx & db & Hdb & ->). destruct out as [lg2 r2]. cbn in Hx. subst r2.
    destruct Hrun as (Hag' & Hl & Hf). rewrite <- Hdb in *.
    cbn [rc_db rc_meta rc_last_state with_rc_db with_rc_meta]. do 3 (split; [done|]). split; [by apply (f_equal rm_last_applied) in Hl|done].
  - destruct Hfin as [-> He]. split; [done|]. intros ->. specialize (He eq_refl). destruct out as [lg2 r2]. cbn in He. by subst r2.
Qed.

(** C33: The Raft strategy of a cluster member, for a dispatch with an effect log.  A
    commit is reported only after the worker took the proposal and notified a
    commit index at or past it; the agent's rows then are those after the
    dispatch's writes, the applied index has reached the proposal, and every other
    row the worker owns is as the worker left it.  Without that the database is the
    one the worker left, and nothing is written. *)
Theorem cluster_commit_applies cl s a delta log :
  agent_at (view (cl_db cl)) a → rc_last_state s = a.1 → ad_log delta = Some log →
  (∀ payload idx, cl_propose cl payload = Ok idx → idx < u64_modulus) →
  match rc_commit_multi cl s delta with
  | (s', Ok true) =>
      rc_last_state s' = (apply_writes a (ad_writes delta)).1 ∧ agent_at (view (rc_db s')) (apply_writes a (ad_writes delta)) ∧
      ∃ idx, cl_propose cl (log_to_bytes log) = Ok idx ∧ (∃ n, n ∈ cl_notified cl ∧ idx ≤ n) ∧
        idx ≤ rm_last_applied (loaded (view (rc_db s'))) ∧
        ∀ k, host_row k → k ≠ META_LAST_APPLIED → view (rc_db s') !! k = view (cl_db cl) !! k
  | (s', Ok false) => s' = s ∧ ad_effect_bearing delta = false ∧ apply_writes a (ad_writes delta) = a
  | (s', Err _) => rc_db s' = rc_db s ∨ rc_db s' = cl_db cl
  end.
Proof.
  intros Hag Hst Hlog Hlt. unfold rc_commit_multi. destruct (split_delta delta) as [state rest] eqn:Hsplit. rewrite Hlog, Hst.
  destruct (negb (changes state a.1) && negb (ad_effect_bearing delta) && (length rest =? 0)%nat) eqn:Hskip.
  { rewrite !andb_true_iff, !negb_true_iff, Nat.eqb_eq in Hskip. destruct Hskip as [[Hc He] Hr%length_zero_iff_nil].
    split_and!; [done|done|by eapply writes_none]. }
  destruct (cl_propose cl (log_to_bytes log)) as [idx|[|e]] eqn:Hp; [|by left|by left].
  destruct (wait_commit idx (cl_notified cl)) eqn:Hwait; [|by right].
  pose proof (apply_committed_outcome (with_rc_db (cl_db cl) s) idx (if changes state a.1 then state else None) rest a Hag (Hlt _ _ Hp)) as Hout.
  rewrite (writes_kept _ a _ _ Hsplit) in Hout. destruct (apply_committed _ _ _) as [s' [u|e]]; [|right; apply Hout].
  destruct Hout as (Hkeep & Hag' & _ & Hla & Hf). cbn in Hkeep. rewrite Hst in Hkeep.
  set (s'' := match _ with Some state => with_rc_state state s' | None => s' end).
  assert (rc_db s'' = rc_db s' ∧ rc_last_state s'' = (apply_writes a (ad_writes delta)).1) as [Hdb Hst'].
  { rewrite <- (writes_kept _ a _ _ Hsplit). unfold s''. by destruct (if changes state a.1 then state else None). }
  rewrite Hdb. split; [done|]. split; [done|]. exists idx. split_and!; [done|by apply wait_commit_true|lia|done].
Qed.
End props.

(** ** Examples *)

Definition no_agent : agent := ([], ∅).
Definition fresh_single {D} (db : D) : RaftCommit (D := D) :=
  mkRaftCommit db (mkRaftLog 0 0 0 0) (mkRaftMeta 0 None 0 0 0 0) [].

Definition state_write (x : Byte.byte) : bytes * option bytes := (STATE_KEY_BYTES, Some [x]).
Definition sample_delta (writes : list (bytes * option bytes)) : AgentDelta :=
  mkDelta writes (ANCHOR_UNRECORDED, []) (Some (for_msg [Byte.x6d])) true.

Lemma fresh_single_at : single_at (fresh_single (∅ : tables)) [] no_agent.
Proof.
  split; [|by repeat split|done|done|done|done].
  exists (mkMem ∅ [] meta_default (Some 0) None). split; [|by constructor].
  split; [|done..]. split; cbn; [done| |done|done|done|done|done]. intros k. rewrite lookup_empty. split; [by intros []|lia].
Qed.

Definition receipt {A Er} (out : A * result Er bool) : option bool := match out.2 with Ok r => Some r | Err _ => None end.

Definition sample_cluster (db : tables) : Cluster (D := tables) (E := Empty_set) := mkCluster (λ _, Ok 1) [1] db.

Lemma local_commit_durable_witness :
  ∃ s', local_commit (local_open (∅ : tables)) (sample_delta [state_write Byte.x01; ([Byte.x6b], Some [Byte.x76])]) = (s', Ok false) ∧
    local_at s' (apply_writes no_agent [state_write Byte.x01; ([Byte.x6b], Some [Byte.x76])]).
Proof.
  assert (local_at (local_open (∅ : tables)) no_agent) as H0 by (by repeat split).
  destruct (local_commit_durable _ _ H0) as [Hc _]. specialize (Hc (sample_delta [state_write Byte.x01; ([Byte.x6b], Some [Byte.x76])])).
  assert (receipt (local_commit (local_open (∅ : tables)) (sample_delta [state_write Byte.x01; ([Byte.x6b], Some [Byte.x76])])) = Some false)
    as Hr by (vm_compute; reflexivity).
  destruct (local_commit _ _) as [s' [[]|e]]; [done| |done]. exists s'. split; [reflexivity|]. apply Hc.
Defined.

Lemma raft_commit_replays_witness :
  ∃ s', rc_commit (fresh_single (∅ : tables)) (sample_delta [state_write Byte.x01]) = (s', Ok true) ∧
    single_at s' [for_msg [Byte.x6d]] (apply_writes no_agent [state_write Byte.x01]).
Proof.
  destruct (raft_commit_replays _ _ _ fresh_single_at) as (_ & _ & Hc).
  specialize (Hc (sample_delta [state_write Byte.x01]) (for_msg [Byte.x6d]) ltac:(done) ltac:(done) ltac:(by apply for_msg_ok)).
  assert (receipt (rc_commit (fresh_single (∅ : tables)) (sample_delta [state_write Byte.x01])) = Some true) as Hr by (vm_compute; reflexivity).
  destruct (rc_commit _ _) as [s' [[]|e]]; [|done|done]. exists s'. split; [reflexivity|]. exact Hc.
Defined.

Lemma raft_materialize_keeps_log_witness :
  ∃ s', rc_commit_rebuilt (fresh_single (∅ : tables)) [Byte.x01] [([Byte.x6b], [Byte.x76])] = (s', Ok false) ∧
    single_at s' [] ([Byte.x01], rebuilt [([Byte.x6b], [Byte.x76])]).
Proof.
  destruct (raft_materialize_keeps_log _ _ _ fresh_single_at) as [_ Hc].
  specialize (Hc [Byte.x01] [([Byte.x6b], [Byte.x76])]).
  assert (receipt (rc_commit_rebuilt (fresh_single (∅ : tables)) [Byte.x01] [([Byte.x6b], [Byte.x76])]) = Some false) as Hr
    by (vm_compute; reflexivity).
  destruct (rc_commit_rebuilt _ _ _) as [s' [[]|e]]; [done| |done]. exists s'. split; [reflexivity|]. apply Hc.
Defined.

Lemma cluster_commit_applies_witness :
  ∃ s', rc_commit_multi (sample_cluster ∅) (fresh_single ∅) (sample_delta [state_write Byte.x01]) = (s', Ok true) ∧
    agent_at (view (rc_db s')) (apply_writes no_agent [state_write Byte.x01]).
Proof.
  pose proof (cluster_commit_applies (sample_cluster ∅) (fresh_single ∅) no_agent (sample_delta [state_write Byte.x01])
    (for_msg [Byte.x6d]) ltac:(by repeat split) ltac:(done) ltac:(done) ltac:(by intros payload idx [= <-])) as Hc.
  assert (receipt (rc_commit_multi (sample_cluster ∅) (fresh_single ∅) (sample_delta [state_write Byte.x01])) = Some true) as Hr
    by (vm_compute; reflexivity).
  destruct (rc_commit_multi _ _ _) as [s' [[]|e]]; [|done|done]. exists s'. split; [reflexivity|]. apply Hc.
Defined.

(** A failed commit of a single node leaves the log's cache one entry ahead of
    the database.  On a database with room for eight rows: the second commit runs
    out of room and fails, and the next one that succeeds is stored at index three,
    so that the log has a gap. *)
Theorem failed_commit_leaves_gap :
  let s0 := fresh_single (mkCapped 8 ∅) in
  let '(s1, r1) := rc_commit s0 (sample_delta [state_write Byte.x01]) in
  let '(s2, r2) := rc_commit s1 (sample_delta [([Byte.x6b], Some [Byte.x76])]) in
  let '(s3, r3) := rc_commit s2 (sample_delta [state_write Byte.x02]) in
  (r1, r2, r3) = (Ok true, Err (Backend OutOfSpace), Ok true) ∧
  rl_last_index (rc_log s3) = 3 ∧
  log_term_at (rc_db s3) (rc_log s3) 1 = Ok (Some 0) ∧
  log_term_at (rc_db s3) (rc_log s3) 2 = Ok None ∧
  log_term_at (rc_db s3) (rc_log s3) 3 = Ok (Some 0).
Proof. vm_compute. done. Qed.

(** The database after another leader's entry has taken index one. *)
Definition overtaken : tables :=
  <[META_COMMIT_INDEX := le64 1]> (<[LogRow 1 := row_encode 2 (encode_entry_kind (Data (log_to_bytes (for_msg [Byte.x6f]))))]> ∅).

(** A cluster member waits for a commit index, not for its entry.  When it loses
    the lead and another leader's entry is committed at the proposed index, the
    commit is reported, the rows of the dispatch are written over the agent of the
    other entry, no reload is asked for, and replay returns the other entry. *)
Theorem overtaken_proposal_is_reported :
  let '(s, r) := rc_commit_multi (sample_cluster overtaken) (fresh_single overtaken) (sample_delta [state_write Byte.x01]) in
  r = Ok true ∧ rc_db s !! STATE_KEY = Some [Byte.x01] ∧ rc_needs_sync_reload (E := Empty_set) s = false ∧
  rc_replay_logs (E := Empty_set) (rc_reload (E := Empty_set) s).1 = Ok [for_msg [Byte.x6f]].
Proof. vm_compute. done. Qed.
