(* ===== verification/CrdtStrategy.v ===== *)
(** * vos: the CRDT commit strategy

    The [crdt] module of [vos/src/commit.rs] and [sync_with_peer] of
    [vos/src/node.rs]: an agent's effect logs as the nodes of a Merkle-DAG in redb.
    [write_atomic] appends a dispatch on top of the roots, [insert_node] and
    [cc_compact_roots] merge what peers send, and [cc_replay_logs] orders what the
    roots reach for replay.

    The agent and the synchronisation thread have a [CrdtCommit] each over one
    database, so operations take and return the database next to the strategy.
    Strategies of one database share a lock that is held from the first read that
    an operation's writes depend on; operations are atomic here.  Peers are an input
    of [sync_with_peer]: their answers to a request for heads and for each node.

    The hash is any [Hasher]; the code's is [Blake2b_hasher], with [hash_size] the
    32 of the source.  Loops take fuel and are [None] without it; the length of an
    encoded root list is not taken modulo 2^64, so rows with a count of 2^59 or
    more, which the code fails on with a panic, decode to [None] here. *)

From Stdlib.Strings Require Byte.
From S2P Require Import Prelude Worklist Bytes CrdtCodec CrdtDag CrdtOrder CrdtSync Blake2b V2Wire V2Identity EffectLog.
From S2P Require Import Redb RaftRedb Strategy.

Local Open Scope N_scope.

(** ** The hash *)

(** [[u8; 32]] *)
Definition hash32 : Type := dsig (λ b : bytes, length b = 32%nat).

Definition hash32_le (a b : hash32) : Prop := bytes_le (`a) (`b).

#[export] Instance hash32_le_dec : RelDecision hash32_le.
Proof. intros a b. unfold hash32_le. apply _. Defined.

#[export] Instance hash32_le_total : TotalOrder hash32_le.
Proof.
  split; [split; [split|]|]; unfold Reflexive, Transitive, Trichotomy, strict, hash32_le.
  - intros x. apply bytes_le_refl.
  - intros x y z. apply bytes_le_trans.
  - intros x y Hxy Hyx. apply dsig_eq. by apply bytes_le_antisymm.
  - intros x y. destruct (trichotomy (strict bytes_le) (`x) (`y)) as [?|[?|?]]; [by left| |by right; right].
    right; left. by apply dsig_eq.
Qed.

#[export] Instance hash32_ord : RustOrd hash32 := {| ord_le := hash32_le |}.

Definition to_hash32 (b : bytes) : option hash32 :=
  match decide (length b = 32%nat) with left H => Some (dexist b H) | right _ => None end.

Lemma length_blake2b_32 (data : bytes) : length (Rfc.blake2b 32 data) = 32%nat.
Proof. apply length_blake2b. lia. Qed.

(** [impl Hasher for Blake2b]: the digest has 32 bytes, so its conversion to an
    array cannot fail. *)
Definition blake2b_hash32 (data : bytes) : hash32 := dexist (Rfc.blake2b 32 data) (length_blake2b_32 data).

#[export] Instance Blake2b_hasher : Hasher hash32 := {|
  output_decode buf pos := '(b, pos) ← take_bytes buf pos 32; h ← to_hash32 b; Some (h, pos);
  as_ref h := `h;
  hash_size := 32;
  hash := blake2b_hash32;
|}.

#[export] Instance Blake2b_laws : HasherLaws hash32.
Proof.
  split; [cbn; lia|done|intros d; exact (proj2_dsig d)|]. intros d pre post Hfit.
  unfold decode_from, output_decode, Blake2b_hasher, as_ref. pose proof (proj2_dsig d) as Hd.
  rewrite take_bytes_app by (done || (unfold blen; by rewrite Hd)). option_step. unfold to_hash32.
  destruct (decide (length (`d) = 32%nat)) as [H|H]; [|done]. option_step. do 2 f_equal. by apply dsig_eq.
Qed.

(** The payload of a node takes its whole slot. *)
#[export] Instance CrdtEvent_encode : Encode CrdtEvent := λ e buf, buf ++ event_to_bytes e.
#[export] Instance CrdtEvent_decode : Decode CrdtEvent := λ buf pos,
  e ← event_from_bytes (drop (N.to_nat pos) buf); Some (e, blen buf).

(** ** Rows *)

Definition ROOTS_KEY : row := StateRow "crdt_roots".
Definition NEXT_SEQ_KEY : row := StateRow "crdt_next_seq".
Definition REPLAY_FORMAT_KEY : row := StateRow "crdt_replay_format".
Definition REPLAY_FORMAT : bytes := String.list_byte_of_string "VCR2".

Definition ok {E A} (r : result E A) : option A := match r with Ok x => Some x | Err _ => None end.

Section crdt.
Context {C : Type} `{!Hasher C}.
Context {D R W E : Type} `{!Redb D R W E}.

Notation CE := (CommitError E).
Abbreviation Node := (DagNode C CrdtEvent).
Implicit Types (db : D) (r : R) (k : MerkleClock C).

Definition dag_row (c : C) : row := DagRow (as_ref c).

Definition encode_roots (rs : gset C) : bytes :=
  le64 (N.of_nat (size rs)) ++ (sorted_elements ord_le rs ≫= as_ref).

Definition decode_roots (b : bytes) : option (gset C) :=
  if (length b <? 8)%nat then None
  else
    let count := from_le_bytes (take 8 b) in
    if negb (blen b =? 8 + count * N.of_nat hash_size) then None
    else '(rs, _) ← read_children (N.to_nat count) b 8 ∅; Some rs.

(** Errors and absent rows are [None] alike. *)
Definition load_row db (k : row) : option bytes :=
  r ← ok (begin_read db); v ← ok (r_get r k); v.
Definition load_state db : option bytes := load_row db STATE_KEY.
Definition load_clock db : option (MerkleClock C) :=
  b ← load_row db ROOTS_KEY; rs ← decode_roots b; Some (mkClock rs).
Definition load_next_seq db : option N :=
  b ← load_row db NEXT_SEQ_KEY; if (length b =? 8)%nat then Some (from_le_bytes b) else None.

Definition ensure_replay_format db : result CE D :=
  r ← backend (begin_read db);
  marker ← backend (r_get r REPLAY_FORMAT_KEY);
  state_has_rows ← backend (r_has_rows r StateTable);
  match marker with
  | Some marker => if decide (marker = REPLAY_FORMAT) then Ok db else Err Config
  | None =>
      dag_has_rows ← backend (r_has_rows r DagTable);
      kv_has_rows ← backend (r_has_rows r KvTable);
      if state_has_rows || dag_has_rows || kv_has_rows then Err Config
      else write_txn db (tx_insert REPLAY_FORMAT_KEY REPLAY_FORMAT)
  end.

Definition read_dag_node db (c : C) : result CE (option bytes) :=
  r ← backend (begin_read db); backend (r_get r (dag_row c)).

Definition read_roots db : result CE (list C) :=
  r ← backend (begin_read db);
  v ← backend (r_get r ROOTS_KEY);
  Ok (match v ≫= decode_roots with Some rs => sorted_elements ord_le rs | None => [] end).

(** ** The strategy *)

Record CrdtCommit := mkCrdtCommit {
  cc_clock : MerkleClock C;
  cc_last_state : bytes;
  cc_replica_origin : bytes;
  cc_next_seq : N;
  cc_node_validator : option (C → bytes → bool);
}.

Definition with_clock k (s : CrdtCommit) : CrdtCommit :=
  mkCrdtCommit k (cc_last_state s) (cc_replica_origin s) (cc_next_seq s) (cc_node_validator s).
Definition with_last_state (state : bytes) (s : CrdtCommit) : CrdtCommit :=
  mkCrdtCommit (cc_clock s) state (cc_replica_origin s) (cc_next_seq s) (cc_node_validator s).
Definition with_next_seq (seq : N) (s : CrdtCommit) : CrdtCommit :=
  mkCrdtCommit (cc_clock s) (cc_last_state s) (cc_replica_origin s) seq (cc_node_validator s).
Definition set_node_validator (validator : option (C → bytes → bool)) (s : CrdtCommit) : CrdtCommit :=
  mkCrdtCommit (cc_clock s) (cc_last_state s) (cc_replica_origin s) (cc_next_seq s) validator.

Definition with_state db (replica_origin : bytes) : result CE (D * CrdtCommit) :=
  db ← ensure_replay_format db;
  Ok (db, mkCrdtCommit (default clock_new (load_clock db)) (default [] (load_state db)) replica_origin
            (default 0 (load_next_seq db)) None).

Definition root_bytes (s : CrdtCommit) : list C := sorted_elements ord_le (roots (cc_clock s)).
Definition cc_pending_invocation_id (s : CrdtCommit) : InvocationId :=
  invocation_id_for (cc_replica_origin s) (cc_next_seq s).
Definition cc_restore (s : CrdtCommit) : option bytes :=
  if (length (cc_last_state s) =? 0)%nat then None else Some (cc_last_state s).
Definition refresh_last_state : bytes → CrdtCommit → CrdtCommit := with_last_state.

Definition cc_reload db (s : CrdtCommit) : CrdtCommit :=
  with_last_state (default [] (load_state db)) (with_clock (default clock_new (load_clock db)) s).
Definition cc_needs_sync_reload db (s : CrdtCommit) : bool :=
  bool_decide (roots (cc_clock s) ≠ roots (default clock_new (load_clock db))).

(** *** Merging *)

Definition insert_node db (s : CrdtCommit) (c : C) (node_bytes : bytes) : D * CrdtCommit * result CE bool :=
  if decide (hash node_bytes ≠ c) then (db, s, Err Config) else
  match from_bytes (P := CrdtEvent) (D := C) node_bytes with
  | None => (db, s, Ok false)
  | Some _ =>
      if match cc_node_validator s with Some validator => negb (validator c node_bytes) | None => false end
      then (db, s, Ok false) else
      match read_dag_node db c with
      | Err e => (db, s, Err e)
      | Ok (Some _) => (db, s, Ok false)
      | Ok None =>
          match write_txn db (tx_insert (dag_row c) node_bytes) with
          | Err e => (db, s, Err e)
          | Ok db => (db, with_clock (add_roots (cc_clock s) [c]) s, Ok true)
          end
      end
  end.

Definition persist_roots db (s : CrdtCommit) : D * CrdtCommit * result CE unit :=
  match write_txn db (tx_insert ROOTS_KEY (encode_roots (roots (cc_clock s)))) with
  | Err e => (db, s, Err e)
  | Ok db => (db, s, Ok tt)
  end.

(** The loop over the children of a node. *)
Definition compact_child (candidates visited : gset C) (acc : list C * gset C) (child : C) : list C * gset C :=
  let '(stack, subsumed) := acc in
  let subsumed := if decide (child ∈ candidates) then {[child]} ∪ subsumed else subsumed in
  (if decide (child ∈ visited) then stack else child :: stack, subsumed).

Definition cc_compact_body r (candidates : gset C) (c : C) (visited : gset C) (stack : list C) (subsumed : gset C)
    : flow (list C * gset C) CE :=
  match backend (r_get r (dag_row c)) with
  | Err e => Return e
  | Ok None => Continue (stack, subsumed)
  | Ok (Some val) =>
      match from_bytes (P := CrdtEvent) (D := C) val with
      | None => Return Config
      | Some node => Continue (foldl (compact_child candidates visited) (stack, subsumed) (children_list node))
      end
  end.

Definition cc_compact_roots (fuel : nat) db (s : CrdtCommit) : option (D * CrdtCommit * result CE unit) :=
  let persisted := default clock_new (load_clock db) in
  let candidates := roots (cc_clock s) ∪ roots persisted in
  let s := with_clock (mkClock candidates) s in
  if (size candidates <=? 1)%nat then Some (persist_roots db s) else
  match backend (begin_read db) with
  | Err e => Some (db, s, Err e)
  | Ok r =>
      match worklist (cc_compact_body r candidates) fuel (stack_of candidates) ∅ ∅ with
      | None => None
      | Some (Return e) => Some (db, s, Err e)
      | Some (Continue (_, subsumed)) => Some (persist_roots db (with_clock (mkClock (candidates ∖ subsumed)) s))
      end
  end.

(** *** Committing *)

(** The node of a dispatch: its log stamped with the replica's origin and the next
    sequence number, on top of the roots. *)
Definition new_node (s : CrdtCommit) (log : EffectLog) : Node :=
  mkNode (crdt_event_new (cc_replica_origin s) (cc_next_seq s) log) (roots (cc_clock s)).

Definition write_dag_node (node : option Node) : tx (W:=W) (E:=E) unit :=
  match node with Some n => tx_insert (dag_row (cid n)) (to_bytes n) | None => mret tt end.

Definition write_txn_rows (state : option bytes) (roots_ : gset C) (next_seq : N)
    (rest : list (bytes * option bytes)) (node : option Node) : tx (W:=W) (E:=E) unit :=
  write_state_row state;;
  tx_insert ROOTS_KEY (encode_roots roots_);;
  tx_insert NEXT_SEQ_KEY (le64 next_seq);;
  tx_each write_kv_row rest;;
  write_dag_node node.

(** [delta.log] when a node is to be appended. *)
Definition appended_log (delta : AgentDelta) (state_changed : bool) (rest : list (bytes * option bytes)) : option EffectLog :=
  if state_changed || ad_effect_bearing delta || negb (length rest =? 0)%nat then ad_log delta else None.

(** The refreshed clock and counter stay in the strategy when a later step fails. *)
Definition write_atomic db (s : CrdtCommit) (delta : AgentDelta) : D * CrdtCommit * result CE bool :=
  let '(state, rest) := split_delta delta in
  let state_changed := changes state (cc_last_state s) in
  let log := appended_log delta state_changed rest in
  if negb state_changed && (length rest =? 0)%nat && bool_decide (log = None) then (db, s, Ok false) else
  let s := with_clock (default clock_new (load_clock db)) s in
  let s := with_next_seq (default (cc_next_seq s) (load_next_seq db)) s in
  let expected := invocation_id_for (cc_replica_origin s) (cc_next_seq s) in
  if match log with
     | Some log => bool_decide (el_invocation_id log ≠ ZERO ∧ el_invocation_id log ≠ expected)
     | None => false
     end then (db, s, Err Config) else
  let node := new_node s <$> log in
  let roots_ := match node with Some n => {[cid n]} | None => roots (cc_clock s) end in
  let next_seq := match node with Some _ => (cc_next_seq s + 1) `mod` u64_modulus | None => cc_next_seq s end in
  let state_write := if state_changed then state else None in
  match write_txn db (write_txn_rows state_write roots_ next_seq rest node) with
  | Err e => (db, s, Err e)
  | Ok db =>
      let s := with_next_seq next_seq (with_clock (mkClock roots_) s) in
      (db, match state_write with Some state => with_last_state state s | None => s end, Ok (bool_decide (is_Some node)))
  end.

Definition cc_commit_rebuilt db (s : CrdtCommit) (state : bytes) (rows : list (bytes * bytes)) : D * CrdtCommit * result CE bool :=
  match write_txn db (tx_insert STATE_KEY state;; swap_kv_rows rows) with
  | Err e => (db, s, Err e)
  | Ok db => (db, with_last_state state s, Ok false)
  end.

(** *** Replaying *)

(** Nodes that are not stored, or do not decode, are passed over. *)
Fixpoint replay_walk (fuel : nat) r (stack : list C) (nodes : gmap C Node) : option (result CE (gmap C Node)) :=
  match fuel with
  | O => None
  | Datatypes.S fuel =>
      match stack with
      | [] => Some (Ok nodes)
      | c :: stack =>
          if decide (is_Some (nodes !! c)) then replay_walk fuel r stack nodes else
          match backend (r_get r (dag_row c)) with
          | Err e => Some (Err e)
          | Ok val =>
              match val ≫= from_bytes with
              | None => replay_walk fuel r stack nodes
              | Some node =>
                  let stack := foldl (λ stack child, if decide (is_Some (nodes !! child)) then stack else child :: stack)
                                 stack (children_list node) in
                  replay_walk fuel r stack (<[c := node]> nodes)
              end
          end
      end
  end.

(** Counters of all children, stored or not, and the nodes above each child. *)
Definition indegree_step (acc : gmap C nat * gmap C (list C)) (entry : C * Node) : gmap C nat * gmap C (list C) :=
  let '(indegree, reverse_) := acc in
  let '(c, node) := entry in
  (<[c := size (children node)]> indegree,
   foldl (λ m child, <[child := default [] (m !! child) ++ [c]]> m) reverse_ (children_list node)).

Definition lower (acc : gmap C nat * list C) (succ : C) : gmap C nat * list C :=
  let '(indegree, queue) := acc in
  match indegree !! succ with
  | None => acc
  | Some d => (<[succ := pred d]> indegree, if decide (pred d = 0%nat) then queue ++ [succ] else queue)
  end.

Fixpoint order_loop (fuel : nat) (reverse_ : gmap C (list C)) (queue : list C) (indegree : gmap C nat)
    (nodes : gmap C Node) (sorted : list EffectLog) : option (list EffectLog) :=
  match fuel with
  | O => None
  | Datatypes.S fuel =>
      match queue with
      | [] => Some sorted
      | c :: queue =>
          let '(nodes, sorted) := match nodes !! c with
                                  | Some node => (delete c nodes, sorted ++ [ce_log (payload node)])
                                  | None => (nodes, sorted)
                                  end in
          let '(indegree, queue) := foldl lower (indegree, queue) (default [] (reverse_ !! c)) in
          order_loop fuel reverse_ queue indegree nodes sorted
      end
  end.

Definition topological_order (nodes : gmap C Node) : option (list EffectLog) :=
  let '(indegree, reverse_) := foldl indegree_step (∅, ∅) (btree_iter nodes) in
  let queue := filter (λ c, indegree !! c = Some 0%nat) (sorted_keys ord_le indegree) in
  order_loop (Datatypes.S (size nodes)) reverse_ queue indegree nodes [].

Definition cc_replay_logs (fuel : nat) db (s : CrdtCommit) : option (result CE (list EffectLog)) :=
  match backend (begin_read db) with
  | Err e => Some (Err e)
  | Ok r =>
      match replay_walk fuel r (stack_of (roots (cc_clock s))) ∅ with
      | None => None
      | Some (Err e) => Some (Err e)
      | Some (Ok nodes) => Ok <$> topological_order nodes
      end
  end.

(** ** Synchronisation *)

Inductive SyncOutcome := PeerEmpty | PeerHasGroup (inserted : bool).

(** What a peer answers before the timeouts. *)
Record Peer := mkPeer {
  peer_heads : option (list C);
  peer_node : C → option bytes;
}.

Definition sync_body (peer : Peer) (c : C) (_ : gset C) (frontier : list C) (acc : D * CrdtCommit * bool)
    : flow (list C * (D * CrdtCommit * bool)) (D * result CE SyncOutcome) :=
  let '(db, cc, inserted_any) := acc in
  match read_dag_node db c with
  | Err e => Return (db, Err e)
  | Ok (Some _) => Continue (frontier, acc)
  | Ok None =>
      match peer_node peer c with
      | None => Continue (frontier, acc)
      | Some node_bytes =>
          match insert_node db cc c node_bytes with
          | (db, cc, Err _) => Continue (frontier, (db, cc, inserted_any))
          | (db, cc, Ok inserted) =>
              let frontier := match from_bytes (P := CrdtEvent) node_bytes with
                              | Some node => reverse (children_list node) ++ frontier
                              | None => frontier
                              end in
              Continue (frontier, (db, cc, inserted || inserted_any))
          end
      end
  end.

Definition sync_with_peer (fuel : nat) (peer : Peer) db (replica_origin : bytes)
    (validator : option (C → bytes → bool)) : option (D * result CE SyncOutcome) :=
  match peer_heads peer with
  | None | Some [] => Some (db, Ok PeerEmpty)
  | Some heads =>
      match with_state db replica_origin with
      | Err e => Some (db, Err e)
      | Ok (db, cc) =>
          match worklist (sync_body peer) fuel (reverse heads) ∅ (db, set_node_validator validator cc, false) with
          | None => None
          | Some (Return res) => Some res
          | Some (Continue (_, (db, cc, inserted_any))) =>
              if inserted_any then
                '(db, _, res) ← cc_compact_roots fuel db cc;
                Some (db, match res with Ok _ => Ok (PeerHasGroup true) | Err e => Err e end)
              else Some (db, Ok (PeerHasGroup false))
          end
      end
  end.
End crdt.
