(* ===== verification/CrdtRows.v ===== *)
(** * vos: the order in which a DAG is replayed

    [topological_order] of [vos/src/commit.rs] counts all children of a node, also
    those that are not there, so what depends on a missing node is never released.
    A node is [settled] when it and everything below it is there.  On any map, cyclic
    or not, [topological_order] is [topological_sort] of the settled part
    ([topological_order_sort]), which gives its order and, for a node on top of all
    others, where it goes ([topological_order_top]). *)

From Stdlib.Strings Require Byte.
From S2P Require Import Prelude Worklist Bytes CrdtCodec CrdtDag CrdtOrder CrdtSync EffectLog Redb RaftRedb RaftRedbLog.
From S2P Require Import RaftRedbCommit Strategy StrategyRaft CrdtStrategy.

Section settle.
Context {C : Type} `{!Hasher C}.
Abbreviation Node := (DagNode C CrdtEvent).
Implicit Types (N M : gmap C Node) (queue : list C) (result : list (C * Node)).

Inductive settled N : C → Prop :=
| settled_intro c n : N !! c = Some n → (∀ x, x ∈ children n → settled N x) → settled N c.

Lemma settled_stored N c : settled N c → is_Some (N !! c).
Proof. destruct 1 as [c n Hn _]. eauto. Qed.

Lemma settled_child N c n x : settled N c → N !! c = Some n → x ∈ children n → settled N x.
Proof. intros [c' n' Hn' Hall] Hn. simplify_eq. apply Hall. Qed.

(** A larger map settles no less. *)
Lemma settled_mono N N' c : (∀ x n, settled N x → N !! x = Some n → N' !! x = Some n) → settled N c → settled N' c.
Proof.
  intros Hsub. induction 1 as [c n Hn Hall IH]. apply (settled_intro _ _ n); [|done].
  apply Hsub; [|done]. by apply (settled_intro _ _ n).
Qed.

Definition settled_part N M : Prop := ∀ c n, M !! c = Some n ↔ N !! c = Some n ∧ settled N c.

(** The settled nodes, found by adding one after another. *)
Record settling N (X : gset C) (rank : C → nat) (k : nat) : Prop := {
  se_settled c : c ∈ X → settled N c;
  se_bound c : c ∈ X → rank c < k;
  se_below c n x : c ∈ X → N !! c = Some n → x ∈ children n → x ∈ X ∧ rank x < rank c;
}.

Lemma settling_step N X rank k c n :
  settling N X rank k → c ∉ X → N !! c = Some n → children n ⊆ X →
  settling N ({[c]} ∪ X) (λ x, if decide (x = c) then k else rank x) (S k).
Proof.
  intros [Hs Hb Hbe] Hc Hn Hch. split.
  - intros x [->%elem_of_singleton|Hx]%elem_of_union; [|by apply Hs].
    apply (settled_intro _ _ n); [done|]. intros y Hy. by apply Hs, Hch.
  - intros x Hx. case_decide as Heq; [lia|]. assert (x ∈ X) as HX by set_solver. specialize (Hb x HX). lia.
  - intros x m y Hx Hm Hy. destruct (decide (x = c)) as [->|Hne].
    + simplify_eq. assert (y ∈ X) as HyX by set_solver. split; [set_solver|].
      rewrite decide_False by (by intros ->). by apply Hb.
    + assert (x ∈ X) as HxX by set_solver. destruct (Hbe x m y HxX Hm Hy) as [HyX Hlt]. split; [set_solver|].
      by rewrite decide_False by (by intros ->).
Qed.

Lemma settling_complete N X rank k :
  settling N X rank k →
  ∃ X' rank' k', settling N X' rank' k' ∧ ∀ c n, N !! c = Some n → children n ⊆ X' → c ∈ X'.
Proof.
  remember (size (dom N ∖ X)) as m eqn:Hm. revert X rank k Hm.
  induction (lt_wf m) as [m _ IH]. intros X rank k -> HX.
  destruct (decide (filter (λ e, e.1 ∉ X ∧ children e.2 ⊆ X) N = ∅)) as [He|(c & n & Hc)%map_choose].
  - exists X, rank, k. split; [done|]. intros c n Hn Hch. destruct (decide (c ∈ X)) as [|Hc]; [done|].
    assert (filter (λ e, e.1 ∉ X ∧ children e.2 ⊆ X) N !! c = Some n) as HY by by apply map_lookup_filter_Some.
    rewrite He in HY. by apply lookup_empty_Some in HY.
  - apply map_lookup_filter_Some in Hc as [Hn [Hc Hch]]. cbn in Hc, Hch.
    assert (c ∈ dom N) as Hd by (apply elem_of_dom; eauto).
    eapply (IH (size (dom N ∖ ({[c]} ∪ X)))); [|done|by eapply settling_step].
    apply subset_size. set_solver.
Qed.

Lemma settled_part_exists N : ∃ M, settled_part N M ∧ acyclic M.
Proof.
  destruct (settling_complete N ∅ (λ _, 0) 0) as (X & rank & k & [Hs _ Hbe] & Hmax);
    [split; intros ??; set_solver|].
  assert (∀ c, settled N c → c ∈ X) as HX.
  { induction 1 as [c n Hn _ IH]. by eapply Hmax. }
  exists (filter (λ e, e.1 ∈ X) N). split.
  - intros c n. rewrite map_lookup_filter_Some. cbn. naive_solver.
  - exists rank. intros c n x [Hn Hc]%map_lookup_filter_Some Hx _. by eapply Hbe.
Qed.

(** ** Counters *)

Definition entry_log (e : C * Node) : EffectLog := ce_log (payload e.2).

Lemma indegree_fold_degree (U : gset C) (l : list (C * Node)) acc :
  (∀ c n, (c, n) ∈ l → children n ⊆ U) → foldl indegree_step acc l = foldl (degree_step U) acc l.
Proof.
  revert acc. induction l as [|[c n] l IH]; intros [deg po] HU; [done|]. cbn [foldl].
  assert (children n ⊆ U) as Hn by (eapply HU; left). rewrite IH by (intros ???; eapply HU; by right). f_equal.
  unfold indegree_step, degree_step. f_equal.
  - f_equal. rewrite count_if_size by apply NoDup_children_list. rewrite list_to_set_children.
    f_equal. set_solver.
  - assert (∀ x, x ∈ children_list n → x ∈ U) as Hin by (intros x; rewrite elem_of_children_list; set_solver).
    revert po. induction (children_list n) as [|x ks IHk]; intros po; [done|]. cbn [foldl].
    rewrite <- IHk by (intros y Hy; apply Hin; by right). f_equal. unfold add_parent. rewrite decide_True; [done|].
    apply Hin. left.
Qed.

Lemma indegree_spec N :
  let acc := foldl indegree_step (∅, ∅) (btree_iter N) in
  (∀ c, acc.1 !! c = (λ n, size (children n)) <$> N !! c) ∧
  (∀ x, default [] (acc.2 !! x) = (filter (λ e : C * Node, x ∈ children e.2) (btree_iter N)).*1).
Proof.
  set (U := ⋃ ((λ e : C * Node, children e.2) <$> btree_iter N)).
  assert (∀ c n, (c, n) ∈ btree_iter N → children n ⊆ U) as HU.
  { intros c n Hn x Hx. apply elem_of_union_list. exists (children n). split; [|done].
    apply list_elem_of_fmap. by exists (c, n). }
  rewrite (indegree_fold_degree U) by done.
  destruct (degree_fold U (btree_iter N) ∅ ∅ (NoDup_btree_iter N)) as (H1 & H2 & H3). split.
  - intros c. destruct (N !! c) as [n|] eqn:Hc; cbn.
    + apply elem_of_btree_iter in Hc. rewrite (H1 _ _ Hc). do 2 f_equal. specialize (HU _ _ Hc). set_solver.
    + rewrite H2; [apply lookup_empty|]. rewrite fst_btree_iter, elem_of_sorted_keys, Hc. by intros [? ?].
  - intros x. rewrite H3, lookup_empty. cbn. f_equal. apply Prelude.filter_ext_in. intros [c n] Hn. cbn.
    specialize (HU _ _ Hn). set_solver.
Qed.

Lemma lower_release ps acc acc' : foldl release (Some acc) ps = Some acc' → foldl lower acc ps = acc'.
Proof.
  revert acc. induction ps as [|p ps IH]; intros [deg queue]; cbn [foldl]; [by intros [= <-]|].
  unfold release at 2. cbn [mbind option_bind]. unfold lower at 2. destruct (deg !! p) as [[|d]|]; [|by apply IH|by apply IH].
  intros Hf. exfalso. revert Hf. clear. induction ps as [|q ps IH]; cbn; [done|exact IH].
Qed.

(** ** Two runs *)

Section sim.
Context (N M : gmap C Node) (HM : settled_part N M).

Lemma part_stored c : c ∈ dom M ↔ settled N c.
Proof using HM.
  rewrite elem_of_dom. split; [intros [n Hn%HM]; tauto|]. intros Hc. destruct (settled_stored _ _ Hc) as [n Hn].
  exists n. by apply HM.
Qed.

Lemma part_children c n : M !! c = Some n → children n ⊆ dom M.
Proof using HM. intros [Hn Hc]%HM x Hx. apply part_stored. by eapply settled_child. Qed.

Lemma part_iter : btree_iter M = filter (λ e, e.1 ∈ dom M) (btree_iter N).
Proof using HM.
  rewrite (btree_iter_filter (λ x, x ∈ dom M) M N); [done|]. intros c n. rewrite part_stored, (HM c n). tauto.
Qed.

(** The counter of a node: its children that are not out yet. *)
Definition left_in result (n : Node) : gset C := children n ∖ list_to_set result.*1.

Lemma left_waiting result c n : M !! c = Some n → left_in result n = waiting M result.*1 n.
Proof using HM. intros Hn%part_children. unfold left_in, waiting. set_solver. Qed.

Context (po rev_ : gmap C (list C)).
Hypothesis Hpo : ∀ x, default [] (po !! x) = (filter (λ e : C * Node, x ∈ children e.2 ∧ x ∈ dom M) (btree_iter M)).*1.
Hypothesis Hrev : ∀ x, default [] (rev_ !! x) = (filter (λ e : C * Node, x ∈ children e.2) (btree_iter N)).*1.

Lemma elem_of_above x p : p ∈ default [] (rev_ !! x) ↔ ∃ n, N !! p = Some n ∧ x ∈ children n.
Proof using Hrev.
  rewrite Hrev, list_elem_of_fmap. split.
  - intros ([p' n] & -> & [Hx Hin%elem_of_btree_iter]%list_elem_of_filter). eauto.
  - intros (n & Hp & Hx). exists (p, n). split; [done|]. apply list_elem_of_filter. by rewrite elem_of_btree_iter.
Qed.

Lemma NoDup_above x : NoDup (default [] (rev_ !! x)).
Proof using Hrev.
  rewrite Hrev. eapply (sublist_NoDup _ (btree_iter N).*1); [apply NoDup_btree_iter|]. apply fmap_sublist, sublist_filter.
Qed.

Lemma above_part x : x ∈ dom M → default [] (po !! x) = filter (λ p, p ∈ dom M) (default [] (rev_ !! x)).
Proof using Hpo Hrev HM.
  intros Hx. rewrite Hpo, Hrev, part_iter, list_filter_filter.
  clear Hpo Hrev. induction (btree_iter N) as [|[p n] l IH]; [done|]. rewrite !filter_cons. cbn.
  destruct (decide (x ∈ children n)) as [Hc|Hc].
  - rewrite fmap_cons, filter_cons. cbn. destruct (decide (p ∈ dom M)).
    + rewrite decide_True by tauto. cbn. by rewrite IH.
    + rewrite decide_False by tauto. by rewrite IH.
  - rewrite decide_False by tauto. by rewrite IH.
Qed.

Definition counts (deg : gmap C nat) result : Prop := ∀ c, deg !! c = (λ n, size (left_in result n)) <$> N !! c.

Section step.
Context (c : C) (queue : list C) (degM degN : gmap C nat) (M' : gmap C Node) (result : list (C * Node)).
Hypothesis Hinv : kahn_inv M (c :: queue) degM M' result.
Hypothesis Hdeg : counts degN result.

Lemma popped : ∃ n, M !! c = Some n ∧ N !! c = Some n ∧ c ∉ result.*1.
Proof using Hinv HM.
  destruct (kahn_head M c queue degM M' result Hinv) as (n & Hn & _ & Hc & _). exists n. split_and!; [done| |done].
  by apply HM in Hn as [? _].
Qed.

(** What is released was waiting for [c] alone, so it is settled too. *)
Lemma released_iff p :
  p ∈ default [] (rev_ !! c) → (degM !! p = Some 1 ∧ p ∈ dom M) ↔ degN !! p = Some 1.
Proof using Hinv Hdeg HM Hrev.
  clear Hpo.
  destruct popped as (n & Hn & HNn & Hc). intros (m & Hp & Hcm)%elem_of_above. rewrite Hdeg, Hp. cbn. split.
  - intros [H1 Hd]. apply part_stored in Hd. assert (M !! p = Some m) as HMp by by apply HM.
    rewrite (ki_deg _ _ _ _ _ Hinv), HMp in H1. cbn in H1. by rewrite (left_waiting result p m HMp).
  - intros [= Hsz]. assert (settled N p) as Hs.
    { apply (settled_intro _ _ m); [done|]. intros x Hx. apply part_stored. destruct (decide (x ∈ result.*1)) as [Hr|Hr].
      - apply list_elem_of_fmap in Hr as ([x' m'] & -> & Hin). apply (ki_result _ _ _ _ _ Hinv) in Hin. by apply elem_of_dom.
      - replace x with c; [by apply elem_of_dom|]. apply (size_singleton_inv _ c x Hsz); unfold left_in; set_solver. }
    assert (M !! p = Some m) as HMp by by apply HM. split; [|by apply part_stored].
    rewrite (ki_deg _ _ _ _ _ Hinv), HMp. cbn. by rewrite <- (left_waiting result p m HMp), Hsz.
Qed.

Lemma lower_step :
  ∃ degN' n, N !! c = Some n ∧ counts degN' (result ++ [(c, n)]) ∧
    foldl lower (degN, queue) (default [] (rev_ !! c)) =
      (degN', queue ++ filter (λ p, degM !! p = Some 1) (default [] (po !! c))).
Proof using Hinv Hdeg HM Hrev Hpo.
  destruct popped as (n & Hn & HNn & Hc).
  destruct (release_fold (default [] (rev_ !! c)) degN queue (NoDup_above c)) as (degN' & Hrel & Hdeg').
  { intros p (m & Hp & Hcm)%elem_of_above. rewrite Hdeg, Hp. cbn. destruct (size (left_in result m)) as [|d] eqn:Hsz; [|eauto].
    apply size_empty_inv in Hsz. specialize (Hsz c). unfold left_in in Hsz. set_solver. }
  exists degN', n. split_and!; [done| |].
  - intros x. rewrite Hdeg', Hdeg. destruct (N !! x) as [m|] eqn:Hx; cbn; [|by case_decide].
    assert (left_in (result ++ [(c, n)]) m = left_in result m ∖ {[c]}) as ->.
    { unfold left_in. rewrite fmap_app, list_to_set_app_L. cbn. set_solver. }
    case_decide as Hin; rewrite elem_of_above in Hin.
    + destruct Hin as (m' & Hm' & Hcm). simplify_eq. rewrite size_difference, size_singleton, Nat.sub_1_r; [done|].
      unfold left_in. set_solver.
    + do 2 f_equal. symmetry. apply difference_disjoint_L. unfold left_in. set_solver.
  - apply lower_release in Hrel. rewrite Hrel. do 2 f_equal. rewrite above_part by (apply elem_of_dom; eauto).
    rewrite list_filter_filter. apply Prelude.filter_ext_in. intros p Hp. symmetry. by apply released_iff.
Qed.
End step.

Lemma order_loop_sim fuel queue degM degN M' N' result l :
  parents_ok M po → kahn_inv M queue degM M' result → counts degN result →
  (∀ c, N' !! c = if decide (c ∈ result.*1) then None else N !! c) →
  kahn fuel po queue degM M' result = Some l →
  order_loop fuel rev_ queue degN N' (entry_log <$> result) = Some (entry_log <$> l).
Proof using HM Hrev Hpo.
  intros Hpar. revert queue degM degN M' N' result. induction fuel as [|fuel IH]; intros queue degM degN M' N' result Hinv Hdeg HN'; [done|].
  destruct queue as [|c queue]; [by intros [= <-]|].
  destruct (kahn_step M po Hpar c queue degM M' result Hinv) as (degM' & queue' & n & Hrel & -> & Hm & Hinv').
  destruct (lower_step c queue degM degN M' result Hinv Hdeg) as (degN' & n' & Hn' & Hdeg' & Hlow).
  destruct (popped c queue degM M' result Hinv) as (n'' & HMc & HNc & Hc).
  assert (n' = n'') as -> by congruence.
  rewrite kahn_cons, Hrel. option_step. rewrite Hm. option_step. intros Hk.
  assert (n = n'') as ->.
  { rewrite (ki_rest _ _ _ _ _ Hinv), decide_False in Hm by done. congruence. }
  cbn [order_loop]. rewrite HN', decide_False, HNc by done. rewrite Hlow.
  replace ((entry_log <$> result) ++ [ce_log (payload n'')]) with (entry_log <$> (result ++ [(c, n'')])) by by rewrite fmap_app.
  eapply IH; [exact Hinv'|done| |exact Hk].
  intros x. rewrite fmap_app. cbn. destruct (decide (x = c)) as [->|Hne].
  - rewrite lookup_delete_eq, decide_True; [done|]. apply elem_of_app. right. left.
  - rewrite lookup_delete_ne, HN' by done. apply decide_ext. set_solver.
Qed.
End sim.
Lemma kahn_more fuel k po queue deg (M' : gmap C Node) result l :
  kahn fuel po queue deg M' result = Some l → kahn (fuel + k) po queue deg M' result = Some l.
Proof.
  revert queue deg M' result. induction fuel as [|fuel IH]; intros queue deg M' result; [done|].
  destruct queue as [|c queue]; [done|]. change (S fuel + k) with (S (fuel + k)). rewrite !kahn_cons.
  destruct (foldl release _ _) as [[deg' queue']|]; [|done]. option_step. destruct (M' !! c); [|done]. option_step. apply IH.
Qed.

(** Whatever the map, [topological_order] is [topological_sort] of its settled part. *)
Lemma topological_order_sort N M :
  settled_part N M → ∃ l, topological_sort M = Some l ∧ topological_order N = Some (entry_log <$> l).
Proof.
  intros HM. destruct (topological_sort_inv M) as (l & _ & _ & Hl & _). exists l. split; [done|].
  unfold topological_sort in Hl. unfold topological_order.
  destruct (foldl (degree_step (dom M)) (∅, ∅) (btree_iter M)) as [degM po] eqn:HfM.
  destruct (foldl indegree_step (∅, ∅) (btree_iter N)) as [degN rev_] eqn:HfN.
  pose proof (degrees_spec M) as [HdM HpM]. pose proof (indegree_spec N) as [HdN HpN].
  rewrite HfM in HdM, HpM. rewrite HfN in HdN, HpN. cbn in HdM, HpM, HdN, HpN.
  apply kahn_inv_init in HfM as [Hpar Hinv].
  assert (∀ c n, M !! c = Some n → N !! c = Some n) as Hsub by (intros c n [? _]%HM; done).
  assert (filter (λ c, degM !! c = Some 0) (sorted_keys ord_le degM) =
          filter (λ c, degN !! c = Some 0) (sorted_keys ord_le degN)) as Hq.
  { rewrite (sorted_keys_filter (λ x, x ∈ dom M) degM degN), list_filter_filter.
    - apply Prelude.filter_ext_in. intros x _. rewrite HdM, HdN. split.
      + intros [H0 [n Hn]%elem_of_dom]. rewrite Hn in H0. rewrite (Hsub _ _ Hn). cbn in *.
        by rewrite <- (subseteq_intersection_1_L (children n) (dom M)) by by eapply part_children.
      + intros H0. destruct (N !! x) as [n|] eqn:Hn; [|done]. cbn in H0. injection H0 as H0%size_empty_inv.
        assert (M !! x = Some n) as HMx by (apply HM; split; [done|]; apply (settled_intro _ _ n); set_solver).
        split; [|by apply elem_of_dom]. rewrite HMx. cbn. f_equal. apply size_empty_iff. set_solver.
    - intros x. rewrite HdM, HdN, !fmap_is_Some, <- elem_of_dom. split; [|tauto].
      intros Hx. split; [done|]. apply elem_of_dom in Hx as [n Hn]. eauto. }
  rewrite Hq in Hinv, Hl. change [] with (entry_log <$> ([] : list (C * Node))).
  eapply (order_loop_sim N M HM po rev_ HpM HpN _ _ degM degN M N []); [done|done| | |].
  - intros c. rewrite HdN. unfold left_in. destruct (N !! c); cbn; [|done]. do 2 f_equal. set_solver.
  - intros c. by rewrite decide_False by apply not_elem_of_nil.
  - assert (size M ≤ size N) as Hle by by apply map_subseteq_size, map_subseteq_spec.
    replace (S (size N)) with (S (size M) + (size N - size M)) by lia. by apply kahn_more.
Qed.

(** The nodes that are ordered: each settled one once, after its children. *)
Lemma topological_order_spec N :
  ∃ l, topological_order N = Some (entry_log <$> l) ∧ NoDup l.*1 ∧
    (∀ c n, (c, n) ∈ l ↔ N !! c = Some n ∧ settled N c) ∧
    ∀ l1 c n l2, l = l1 ++ (c, n) :: l2 → ∀ x, x ∈ children n → x ∈ l1.*1.
Proof.
  destruct (settled_part_exists N) as (M & HM & Hac). destruct (topological_order_sort N M HM) as (l & Hl & Ho).
  destruct (topological_sort_inv M) as (l' & deg & M' & Hl' & Hinv). simplify_eq.
  pose proof (kahn_permutation M deg M' l Hac Hinv) as Hperm. exists l. split_and!; [done| | |].
  - rewrite <- (app_nil_r l.*1). apply Hinv.
  - intros c n. rewrite Hperm, elem_of_map_to_list. apply HM.
  - intros l1 c n l2 Heq x Hx. eapply (ki_causal _ _ _ _ _ Hinv); [done|done|].
    apply (part_children N M HM c n); [|done]. eapply (ki_result _ _ _ _ _ Hinv). rewrite Heq. apply elem_of_app. right. left.
Qed.

(** ** A node on top *)

Section top.
Context (N : gmap C Node) (c : C) (n : Node).
Hypothesis Hfresh : N !! c = None.
Hypothesis Hreach : ∀ x, x ∈ dom N → reach (λ y, children <$> N !! y) (children n) x.

(** On a complete history it comes last. *)
Lemma topological_order_top logs :
  (∀ x, x ∈ children n → settled N x) → topological_order N = Some logs →
  topological_order (<[c := n]> N) = Some (logs ++ [ce_log (payload n)]).
Proof using Hfresh Hreach.
  intros Hall Hlogs.
  assert (∀ x, reach (λ y, children <$> N !! y) (children n) x → settled N x) as Hset.
  { induction 1 as [x Hx|x ks y _ IH Hks Hy]; [by apply Hall|]. apply fmap_Some in Hks as (m & Hm & ->). by eapply settled_child. }
  assert (settled_part N N) as HN.
  { intros x m. split; [|tauto]. intros Hm. split; [done|]. apply Hset, Hreach, elem_of_dom. eauto. }
  assert (settled_part (<[c := n]> N) (<[c := n]> N)) as HN1.
  { intros x m. split; [|tauto]. intros Hm. split; [done|].
    assert (∀ y, settled N y → settled (<[c := n]> N) y) as Hup.
    { intros y. apply settled_mono. intros z k _ Hk. by rewrite lookup_insert_ne by (intros ->; congruence). }
    destruct (decide (x = c)) as [->|Hne].
    - apply (settled_intro _ _ n); [apply lookup_insert_eq|]. intros y Hy. by apply Hup, Hall.
    - apply Hup, Hset, Hreach, elem_of_dom. rewrite lookup_insert_ne in Hm by done. eauto. }
  destruct (topological_order_sort N N HN) as (l & Hl & Ho).
  destruct (topological_order_sort _ _ HN1) as (l1 & Hl1 & Ho1).
  assert (acyclic N) as Hac.
  { destruct (settled_part_exists N) as (M & HM & HacM). replace N with M; [done|]. apply map_eq. intros x.
    apply option_eq. intros m. rewrite (HM x m). symmetry. apply HN. }
  assert (topological_sort (<[c := n]> N) = Some (l ++ [(c, n)])) as Hsnoc.
  { apply topological_sort_snoc; [done| | | |done|done].
    - intros x Hx. apply (part_stored N N HN). by apply Hall.
    - intros x Hd. destruct (Hreach x Hd) as [x Hx|y ks x Hy Hks Hx]; [by left|right]. apply fmap_Some in Hks as (m & Hm & ->). eauto.
    - intros y m Hm Hc. apply (part_children N N HN y m Hm) in Hc. apply elem_of_dom in Hc as [? ?]. congruence. }
  simplify_eq. rewrite Ho1, fmap_app. done.
Qed.

(** Otherwise it is held back, and the rest is ordered as before. *)
Lemma topological_order_held :
  ¬ (∀ x, x ∈ children n → settled N x) → topological_order (<[c := n]> N) = topological_order N.
Proof using Hfresh.
  clear Hreach. intros Hnot. destruct (settled_part_exists N) as (M & HM & _).
  assert (settled_part (<[c := n]> N) M) as HM1.
  { assert (∀ x, settled (<[c := n]> N) x → settled N x) as Hdown.
    { induction 1 as [x m Hm _ IH]. destruct (decide (x = c)) as [->|Hne].
      - rewrite lookup_insert_eq in Hm. simplify_eq. by destruct Hnot.
      - rewrite lookup_insert_ne in Hm by done. by apply (settled_intro _ _ m). }
    intros x m. rewrite (HM x m). split.
    - intros [Hm Hx]. assert (x ≠ c) as Hne by (intros ->; congruence). rewrite lookup_insert_ne by done. split; [done|].
      eapply settled_mono; [|exact Hx]. intros z k _ Hk. by rewrite lookup_insert_ne by (intros ->; congruence).
    - intros [Hm Hx%Hdown]. split; [|done]. destruct (decide (x = c)) as [->|Hne].
      + destruct (settled_stored _ _ Hx). congruence.
      + by rewrite lookup_insert_ne in Hm by done. }
  destruct (topological_order_sort N M HM) as (l & Hl & ->). destruct (topological_order_sort _ M HM1) as (l1 & Hl1 & ->).
  by simplify_eq.
Qed.
End top.
End settle.

(** * vos: the rows of the CRDT strategy, and replay

    [dag_of v] is the DAG that the rows [v] hold: the stored nodes that decode, by
    identifier.  Replay collects what the roots reach ([collected]) and orders it;
    [replay_of v R logs] is its answer for the roots [R], which the walk returns once
    it has fuel for every stored edge ([replays_of]). *)

Local Open Scope N_scope.

(** ** Formats *)

Section formats.
Context {C : Type} `{!Hasher C, !HasherLaws C}.
Implicit Types (rs : gset C).

Definition roots_fit rs : Prop := 8 + N.of_nat (size rs) * N.of_nat hash_size ≤ u64_max.

Lemma roots_fit_singleton (c : C) : roots_fit {[c]}.
Proof using HasherLaws0. unfold roots_fit. rewrite size_singleton. pose proof hash_size_fits. unfold u64_max. lia. Qed.

Lemma length_digests_eq (l : list C) : length (l ≫= as_ref) = (length l * hash_size)%nat.
Proof using HasherLaws0. induction l as [|x l IH]; csimpl; [done|]. rewrite length_app, as_ref_size, IH. lia. Qed.

Lemma decode_encode_roots rs : roots_fit rs → decode_roots (encode_roots rs) = Some rs.
Proof using HasherLaws0.
  intros Hfit. unfold roots_fit in Hfit. unfold decode_roots, encode_roots. set (l := sorted_elements ord_le rs).
  assert (length l = size rs) as Hl by (unfold l; by rewrite sorted_elements_perm).
  assert (blen (le64 (N.of_nat (size rs))) = 8) as H8 by (unfold blen, le64; by rewrite length_to_le_bytes).
  assert (blen (l ≫= as_ref) = N.of_nat (size rs) * N.of_nat hash_size) as Hb
    by (unfold blen; rewrite length_digests_eq, Hl; lia).
  assert (N.of_nat (size rs) < u64_modulus) as Hsz by (pose proof hash_size_pos; unfold u64_max, u64_modulus in *; nia).
  destruct (Nat.ltb_spec (length (le64 (N.of_nat (size rs)) ++ (l ≫= as_ref))) 8) as [Hlt|_].
  { rewrite length_app in Hlt. unfold blen in H8. lia. }
  rewrite take_app_length' by (unfold le64; by rewrite length_to_le_bytes).
  assert (from_le_bytes (le64 (N.of_nat (size rs))) = N.of_nat (size rs)) as ->.
  { apply from_to_le_bytes. unfold int_modulus. change (N.of_nat 8) with 8. unfold u64_modulus in *. lia. }
  rewrite blen_app, H8, Hb, N.eqb_refl. cbn [negb]. rewrite Nat2N.id, <- Hl.
  pose proof (read_children_app l (le64 (N.of_nat (length l))) [] ∅) as Hr. rewrite app_nil_r, Hl, H8 in Hr.
  rewrite Hl, Hr by (rewrite blen_app, H8, Hb; lia). option_step. f_equal. unfold l. apply set_eq. intros x.
  rewrite elem_of_union, elem_of_list_to_set, elem_of_sorted_elements. set_solver.
Qed.

(** ** The stored DAG *)

Definition dag_key (k : row) : option C :=
  match k with
  | DagRow b => '(c, _) ← decode_from b 0; if decide (as_ref c = b) then Some c else None
  | _ => None
  end.

Lemma dag_key_row k (c : C) : dag_key k = Some c ↔ k = dag_row c.
Proof using HasherLaws0.
  split.
  - destruct k; try done. cbn. destruct (decode_from cid 0) as [[c' ?]|]; [|done]. option_step.
    case_decide as Hc; [|done]. intros [= ->]. unfold dag_row. by rewrite Hc.
  - intros ->. unfold dag_row. cbn [dag_key]. rewrite decode_as_ref. option_step. by rewrite decide_True.
Qed.

Lemma dag_row_inj (c c' : C) : dag_row c = dag_row c' → c = c'.
Proof using HasherLaws0. intros [= ?%as_ref_inj]. done. Qed.

Definition dag_of (v : tables) : gmap C (DagNode C CrdtEvent) := omap from_bytes (table_of dag_key v).

Lemma lookup_dag_of v c : dag_of v !! c = v !! dag_row c ≫= from_bytes.
Proof using HasherLaws0. unfold dag_of. rewrite lookup_omap. by rewrite (lookup_table dag_row dag_key dag_key_row). Qed.

Lemma dag_of_same v v' : (∀ c : C, v' !! dag_row c = v !! dag_row c) → dag_of v' = dag_of v.
Proof using HasherLaws0. intros Hv. apply map_eq. intros c. by rewrite !lookup_dag_of, Hv. Qed.

Lemma dag_of_insert v c b n : from_bytes b = Some n → dag_of (<[dag_row c := b]> v) = <[c := n]> (dag_of v).
Proof using HasherLaws0.
  intros Hb. apply map_eq. intros x. rewrite lookup_dag_of. destruct (decide (x = c)) as [->|Hne].
  - by rewrite !lookup_insert_eq.
  - rewrite !lookup_insert_ne; [by rewrite lookup_dag_of|done|]. by intros ->%dag_row_inj.
Qed.
End formats.

(** ** What the roots reach *)

Section reach.
Context {C : Type} `{!Hasher C}.
Abbreviation Node := (DagNode C CrdtEvent).
Implicit Types (σ : gmap C Node) (R : gset C).

Definition links σ (c : C) : option (gset C) := children <$> σ !! c.

Lemma links_Some σ c ks : links σ c = Some ks ↔ ∃ n, σ !! c = Some n ∧ ks = children n.
Proof. unfold links. rewrite fmap_Some. done. Qed.

Lemma reach_child σ R c n x : reach (links σ) R c → σ !! c = Some n → x ∈ children n → reach (links σ) R x.
Proof. intros Hc Hn Hx. eapply reach_next; [done| |done]. apply links_Some. eauto. Qed.

Lemma reach_trans σ R R' c : (∀ r, r ∈ R → reach (links σ) R' r) → reach (links σ) R c → reach (links σ) R' c.
Proof. intros HR. induction 1; [auto|by eapply reach_next]. Qed.

Lemma reach_subset σ R R' c : R ⊆ R' → reach (links σ) R c → reach (links σ) R' c.
Proof. intros HR. apply reach_trans. intros r Hr. apply reach_root. set_solver. Qed.

Lemma reach_grow σ σ' R c : σ ⊆ σ' → reach (links σ) R c → reach (links σ') R c.
Proof.
  intros Hs. induction 1 as [c Hc|c ks x _ IH Hk Hx]; [by apply reach_root|].
  apply links_Some in Hk as (n & Hn & ->). eapply reach_child; [done| |done]. by eapply lookup_weaken.
Qed.

(** The nodes a replay visits. *)
Definition collected σ R (nodes : gmap C Node) : Prop :=
  ∀ c n, nodes !! c = Some n ↔ σ !! c = Some n ∧ reach (links σ) R c.

Lemma collected_unique σ R nodes nodes' : collected σ R nodes → collected σ R nodes' → nodes = nodes'.
Proof. intros H1 H2. apply map_eq. intros c. apply option_eq. intros n. rewrite (H1 c n). symmetry. apply H2. Qed.

Lemma collected_settled σ R nodes c :
  collected σ R nodes → settled nodes c ↔ settled σ c ∧ reach (links σ) R c.
Proof.
  intros Hcol. split.
  - induction 1 as [c n [Hn Hc]%Hcol _ IH]. split; [|done]. apply (settled_intro _ _ n); [done|]. intros x Hx. by apply IH.
  - intros [Hs Hr]. induction Hs as [c n Hn _ IH]. apply (settled_intro _ _ n); [by apply Hcol|].
    intros x Hx. apply IH; [done|]. by eapply reach_child.
Qed.

Definition link_count σ (c : C) : nat := match σ !! c with Some n => size (children n) | None => 0 end.
Definition link_total σ : nat := cost_sum (link_count σ) (dom σ).

Definition replay_of (v : tables) R (logs : list EffectLog) : Prop :=
  ∃ nodes, collected (dag_of v) R nodes ∧ topological_order nodes = Some logs.

(** What a replay returns of a history: each event whose whole ancestry is stored,
    once, after its children. *)
Lemma replay_of_spec v R logs :
  replay_of v R logs →
  ∃ l, logs = entry_log <$> l ∧ NoDup l.*1 ∧
    (∀ c n, (c, n) ∈ l ↔ dag_of v !! c = Some n ∧ reach (links (dag_of v)) R c ∧ settled (dag_of v) c) ∧
    ∀ l1 c n l2, l = l1 ++ (c, n) :: l2 → ∀ x, x ∈ children n → x ∈ l1.*1.
Proof.
  intros (nodes & Hcol & Hlogs). destruct (topological_order_spec nodes) as (l & Ho & Hnd & Hin & Hca). simplify_eq.
  exists l. split_and!; [done|done| |done]. intros c n. rewrite Hin, (collected_settled _ _ _ _ Hcol), (Hcol c n). tauto.
Qed.
End reach.

(** ** The walk *)

Section walk.
Context {C : Type} `{!Hasher C, !HasherLaws C}.
Context {D R W E : Type} `{!Redb D R W E} `{!RedbLaws D R W E}.
Abbreviation Node := (DagNode C CrdtEvent).
Implicit Types (σ nodes : gmap C Node).

(** Passed over: collected, still to visit, or not stored. *)
Definition handled σ (stack : list C) nodes (c : C) : Prop := is_Some (nodes !! c) ∨ c ∈ stack ∨ σ !! c = None.

Record walk_ok σ (R0 : gset C) (stack : list C) nodes : Prop := {
  wo_nodes c n : nodes !! c = Some n → σ !! c = Some n ∧ reach (links σ) R0 c;
  wo_stack c : c ∈ stack → reach (links σ) R0 c;
  wo_roots c : c ∈ R0 → handled σ stack nodes c;
  wo_children c n x : nodes !! c = Some n → x ∈ children n → handled σ stack nodes x;
}.

Definition push_children nodes (stack ks : list C) : list C :=
  foldl (λ stack child, if decide (is_Some (nodes !! child)) then stack else child :: stack) stack ks.

Lemma elem_of_push nodes stack ks x : x ∈ push_children nodes stack ks ↔ x ∈ stack ∨ x ∈ ks ∧ nodes !! x = None.
Proof.
  unfold push_children. revert stack. induction ks as [|y ks IH]; intros stack; cbn [foldl]; [set_solver|]. rewrite IH.
  rewrite (elem_of_cons ks). case_decide as Hy.
  - split; [tauto|]. intros [?|[[->|?] ?]]; [tauto| |tauto]. destruct Hy. congruence.
  - apply eq_None_not_Some in Hy. rewrite elem_of_cons. naive_solver.
Qed.

Lemma length_push nodes stack ks : (length (push_children nodes stack ks) ≤ length stack + length ks)%nat.
Proof.
  unfold push_children. revert stack. induction ks as [|y ks IH]; intros stack; cbn [foldl length]; [lia|].
  etransitivity; [apply IH|]. case_decide; cbn; lia.
Qed.

Lemma walk_ok_skip σ R0 c stack nodes :
  walk_ok σ R0 (c :: stack) nodes → is_Some (nodes !! c) ∨ σ !! c = None → walk_ok σ R0 stack nodes.
Proof.
  intros [Hn Hs Hr Hc] Hskip.
  assert (∀ x, handled σ (c :: stack) nodes x → handled σ stack nodes x) as Hh.
  { unfold handled. intros x. rewrite elem_of_cons. naive_solver. }
  split; [done| |auto|eauto]. intros x Hx. apply Hs. by right.
Qed.

Lemma walk_ok_visit σ R0 c n stack nodes :
  walk_ok σ R0 (c :: stack) nodes → σ !! c = Some n → walk_ok σ R0 (push_children nodes stack (children_list n)) (<[c := n]> nodes).
Proof.
  intros [Hn Hs Hr Hc] Hcn.
  assert (reach (links σ) R0 c) as Hreach by (apply Hs; left).
  assert (∀ x, handled σ (c :: stack) nodes x → handled σ (push_children nodes stack (children_list n)) (<[c := n]> nodes) x) as Hh.
  { unfold handled. intros x Hx. destruct (decide (x = c)) as [->|Hne]; [left; rewrite lookup_insert_eq; eauto|].
    rewrite lookup_insert_ne, elem_of_push by done. rewrite elem_of_cons in Hx. naive_solver. }
  split.
  - intros x m Hx. destruct (decide (x = c)) as [->|Hne].
    + rewrite lookup_insert_eq in Hx. by simplify_eq.
    + rewrite lookup_insert_ne in Hx by done. by apply Hn.
  - intros x [Hx|[Hx%elem_of_children_list _]]%elem_of_push; [apply Hs; by right|]. by eapply reach_child.
  - intros x Hx. by apply Hh, Hr.
  - intros x m y Hx Hy. destruct (decide (x = c)) as [->|Hne].
    + rewrite lookup_insert_eq in Hx. simplify_eq. unfold handled. rewrite elem_of_push, elem_of_children_list.
      destruct (nodes !! y) as [k|] eqn:Hk; [left|tauto]. destruct (decide (y = c)) as [->|]; [rewrite lookup_insert_eq; eauto|].
      rewrite lookup_insert_ne by done. eauto.
    + rewrite lookup_insert_ne in Hx by done. by eapply Hh, Hc.
Qed.

Lemma walk_ok_done σ R0 nodes : walk_ok σ R0 [] nodes → collected σ R0 nodes.
Proof.
  intros [Hn _ Hr Hc] c n. split; [apply Hn|]. intros [Hcn Hreach].
  assert (handled σ [] nodes c) as Hh.
  { clear n Hcn. induction Hreach as [c Hroot|c ks x Hreach IH Hk Hx]; [by apply Hr|].
    apply links_Some in Hk as (m & Hm & ->). destruct IH as [[k Hk]|[?%elem_of_nil|?]]; [|done|congruence].
    pose proof (Hn _ _ Hk) as [? _]. simplify_eq. by eapply Hc. }
  destruct Hh as [[m Hm]|[?%elem_of_nil|?]]; [|done|congruence]. pose proof (Hn _ _ Hm) as [? _]. congruence.
Qed.

(** What a walk ends with. *)
Definition walked σ R0 (res : option (result (CommitError E) (gmap C Node))) : Prop :=
  match res with
  | Some (Ok nodes) => collected σ R0 nodes
  | Some (Err (Backend _)) => True
  | _ => False
  end.

Lemma replay_walk_spec fuel (r : R) R0 stack nodes :
  let σ := dag_of (rview r) in
  walk_ok σ R0 stack nodes → (length stack + cost_sum (link_count σ) (dom σ ∖ dom nodes) < fuel)%nat →
  walked σ R0 (replay_walk fuel r stack nodes).
Proof using RedbLaws0 HasherLaws0.
  intros σ. revert stack nodes. induction fuel as [|fuel IH]; intros stack nodes Hok Hfuel; [lia|]. cbn [replay_walk].
  destruct stack as [|c stack]; [by apply walk_ok_done|]. cbn in Hfuel.
  case_decide as Hin; [apply IH; [by eapply walk_ok_skip; [|left]|lia]|].
  destruct (r_get r (dag_row c)) as [val|e] eqn:Hg; cbn [backend]; [|done]. apply r_get_view in Hg.
  assert (val ≫= from_bytes = σ !! c) as -> by (unfold σ; by rewrite lookup_dag_of, <- Hg).
  destruct (σ !! c) as [n|] eqn:Hc; [|apply IH; [by eapply walk_ok_skip; [|right]|lia]].
  apply IH; [by apply walk_ok_visit|]. fold (push_children nodes stack (children_list n)).
  pose proof (length_push nodes stack (children_list n)) as Hlen. rewrite length_children_list in Hlen.
  assert (c ∈ dom σ ∖ dom nodes) as Hcd by (apply elem_of_difference; rewrite !elem_of_dom; rewrite Hc; split; [eauto|done]).
  rewrite (cost_sum_remove (link_count σ) (dom σ ∖ dom nodes) c Hcd) in Hfuel. unfold link_count at 1 in Hfuel. rewrite Hc in Hfuel.
  rewrite dom_insert_L. replace (dom σ ∖ ({[c]} ∪ dom nodes)) with (dom σ ∖ dom nodes ∖ {[c]}) by set_solver. lia.
Qed.

Lemma replay_walk_roots fuel (r : R) R0 :
  let σ := dag_of (rview r) in
  (size R0 + link_total σ < fuel)%nat → walked σ R0 (replay_walk fuel r (stack_of R0) ∅).
Proof using RedbLaws0 HasherLaws0.
  intros σ Hfuel. apply replay_walk_spec.
  - split; [by intros c n; rewrite lookup_empty|intros c Hc%elem_of_stack_of; by apply reach_root| |by intros c n x; rewrite lookup_empty].
    intros c Hc. right; left. by apply elem_of_stack_of.
  - rewrite length_stack_of, dom_empty_L, difference_empty_L. done.
Qed.

(** [cc_replay_logs] answers [logs] unless the database fails. *)
Definition replays (fuel : nat) (db : D) (s : CrdtCommit) (logs : list EffectLog) : Prop :=
  ∃ res, cc_replay_logs fuel db s = Some res ∧ answers res logs.

Lemma replays_of fuel (db : D) (s : CrdtCommit) logs :
  replay_of (view db) (roots (cc_clock s)) logs →
  (size (roots (cc_clock s)) + link_total (dag_of (view db)) < fuel)%nat → replays fuel db s logs.
Proof using RedbLaws0 HasherLaws0.
  intros (nodes & Hcol & Hlogs) Hfuel. unfold replays, cc_replay_logs.
  destruct (begin_read db) as [r|e] eqn:Hr; cbn [backend]; [|by eexists]. apply begin_read_view in Hr.
  pose proof (replay_walk_roots fuel r (roots (cc_clock s))) as Hw. cbn zeta in Hw. rewrite Hr in Hw. specialize (Hw Hfuel).
  destruct (replay_walk _ _ _ _) as [[nodes'|[|e]]|]; cbn in Hw; [|done|by eexists|done].
  rewrite (collected_unique _ _ _ _ Hw Hcol), Hlogs. by eexists.
Qed.
End walk.

(** Every history has a replay. *)
Lemma replay_of_total {C} `{!Hasher C, !HasherLaws C} (v : tables) (R : gset C) : ∃ logs, replay_of v R logs.
Proof.
  pose proof (replay_walk_roots (D:=tables) (W:=tables) (E:=Empty_set) (S (size R + link_total (dag_of v))) (v : tables) R) as Hw. cbn zeta in Hw.
  specialize (Hw ltac:(cbn; lia)). destruct (replay_walk _ _ _ _) as [[nodes|[|[]]]|]; cbn in Hw; [|done..].
  destruct (topological_order_spec nodes) as (l & Ho & _). exists (entry_log <$> l), nodes. done.
Qed.

Lemma replay_of_unique {C} `{!Hasher C} (v : tables) (R : gset C) logs logs' :
  replay_of v R logs → replay_of v R logs' → logs = logs'.
Proof. intros (n1 & H1 & Ho1) (n2 & H2 & Ho2). rewrite (collected_unique _ _ _ _ H1 H2) in Ho1. congruence. Qed.
