(* ===== verification/CrdtCommits.v ===== *)
(** * vos: what the operations of the CRDT strategy do

    The outcome of each operation on the rows and on the strategy: committing
    ([write_atomic_outcome]), merging ([insert_node_outcome], [compact_outcome]) and
    opening ([with_state_outcome]).

    [Grounded genuine] is what content addressing gives for the node bytes that ever
    occur: two with the same identifier are equal, and identifiers are not
    circular.  [store_ok] says that the stored nodes are such bytes, under their
    identifiers, and decode. *)

From Stdlib.Strings Require Byte.
From S2P Require Import Prelude Worklist Bytes CrdtCodec CrdtDag CrdtOrder CrdtSync V2Identity EffectLog EffectProps.
From S2P Require Import Redb RaftRedb RaftRedbLog RaftRedbCommit Strategy StrategyRaft CrdtStrategy CrdtRows.

Local Open Scope N_scope.

Class Grounded {C : Type} `{!Hasher C} (genuine : bytes → Prop) := {
  gr_inj a b : genuine a → genuine b → hash a = hash b → a = b;
  gr_rank : C → nat;
  gr_rank_lt b (n : DagNode C CrdtEvent) x :
    genuine b → from_bytes b = Some n → x ∈ children n → (gr_rank x < gr_rank (hash b))%nat;
}.

Lemma event_bytes_round_trip origin seq log :
  length origin = 32%nat → seq < u64_modulus → log_ok log →
  decode_from (encode (crdt_event_new origin seq log)) 0 =
    Some (crdt_event_new origin seq log, blen (encode (crdt_event_new origin seq log))).
Proof.
  intros Ho Hs Hl. unfold encode, encode_to, CrdtEvent_encode, decode_from, CrdtEvent_decode. change (N.to_nat 0) with 0%nat. rewrite drop_0, !app_nil_l.
  by rewrite (proj1 crdt_event_codec).
Qed.

Section store.
Context {C : Type} `{!Hasher C, !HasherLaws C} (genuine : bytes → Prop) `{!Grounded genuine}.
Implicit Types (v : tables).

Definition store_ok v : Prop :=
  ∀ (c : C) b, v !! dag_row c = Some b → genuine b ∧ hash b = c ∧ is_Some (from_bytes (D := C) (P := CrdtEvent) b).

Lemma store_rank v c (n : DagNode C CrdtEvent) x :
  store_ok v → dag_of v !! c = Some n → x ∈ children n → (gr_rank x < gr_rank c)%nat.
Proof using All.
  intros Hok Hn Hx. rewrite lookup_dag_of in Hn. apply bind_Some in Hn as (b & Hb & Hn).
  destruct (Hok c b Hb) as (Hg & <- & _). by eapply gr_rank_lt.
Qed.

Lemma store_reach_rank v (R : gset C) c :
  store_ok v → reach (links (dag_of v)) R c → ∃ r, r ∈ R ∧ reach (links (dag_of v)) {[r]} c ∧ (gr_rank c ≤ gr_rank r)%nat.
Proof using All.
  intros Hok. induction 1 as [c Hc|c ks x _ (r & Hr & Hrc & Hle) Hk Hx].
  - exists c. split_and!; [done|apply reach_root; set_solver|done].
  - apply links_Some in Hk as (n & Hn & ->). exists r. split_and!; [done|by eapply reach_child|].
    pose proof (store_rank v c n x Hok Hn Hx). lia.
Qed.

Lemma store_ok_insert v c b :
  store_ok v → genuine b → hash b = c → is_Some (from_bytes (D := C) (P := CrdtEvent) b) → store_ok (<[dag_row c := b]> v).
Proof using HasherLaws0.
  intros Hok Hg Hc Hd c' b'. destruct (decide (c' = c)) as [->|Hne].
  - rewrite lookup_insert_eq. by intros [= <-].
  - rewrite lookup_insert_ne by (by intros ?%dag_row_inj). apply Hok.
Qed.

Lemma store_ok_same v v' : (∀ c : C, v' !! dag_row c = v !! dag_row c) → store_ok v → store_ok v'.
Proof. intros Hv Hok c b. rewrite Hv. apply Hok. Qed.
End store.

(** ** Reads *)

(** What the strategy's rows say. *)
Definition disk_roots {C} `{!Hasher C} (v : tables) : gset C := default ∅ (v !! ROOTS_KEY ≫= decode_roots).
Definition disk_seq (v : tables) : option N :=
  b ← v !! NEXT_SEQ_KEY; if (length b =? 8)%nat then Some (from_le_bytes b) else None.

Section reads.
Context {C : Type} `{!Hasher C, !HasherLaws C}.
Context {D R W E : Type} `{!Redb D R W E} `{!RedbLaws D R W E}.
Implicit Types (db : D) (s : CrdtCommit (C := C)).

(** Reading does not fail. *)
Definition readable db : Prop := ∃ r, begin_read db = Ok r ∧ ∀ k, ∃ x, r_get r k = Ok x.

Lemma load_row_readable db k : readable db → load_row db k = view db !! k.
Proof using RedbLaws0.
  intros (r & Hr & Hg). unfold load_row. rewrite Hr. cbn. destruct (Hg k) as [x Hx]. rewrite Hx. cbn.
  rewrite <- (begin_read_view _ _ Hr). by rewrite <- (r_get_view _ _ _ Hx).
Qed.

Lemma load_clock_readable db : readable db → roots (default clock_new (load_clock (C := C) db)) = disk_roots (view db).
Proof using RedbLaws0.
  intros Hr. unfold load_clock, disk_roots. rewrite load_row_readable by done.
  destruct (view db !! ROOTS_KEY) as [b|]; [|done]. option_step. by destruct (decode_roots b).
Qed.

Lemma load_next_seq_readable db : readable db → load_next_seq db = disk_seq (view db).
Proof using RedbLaws0. intros Hr. unfold load_next_seq, disk_seq. by rewrite load_row_readable. Qed.

Lemma load_state_readable db : readable db → load_state db = view db !! STATE_KEY.
Proof using RedbLaws0. apply load_row_readable. Qed.

Lemma read_dag_node_answers db (c : C) : answers (read_dag_node db c) (view db !! dag_row c).
Proof using RedbLaws0. apply read_answers. intros r <-. apply get_answers. Qed.
End reads.

(** ** Committing *)

Section commit.
Context {C : Type} `{!Hasher C, !HasherLaws C}.
Context {D R W E : Type} `{!Redb D R W E} `{!RedbLaws D R W E}.
Abbreviation Node := (DagNode C CrdtEvent).
Implicit Types (db : D) (s : CrdtCommit (C := C)) (v : tables) (a : agent).

(** The rows after a commit. *)
Record written v v' a (rs : gset C) (seq : N) (node : option Node) : Prop := {
  wr_agent : agent_at v' a;
  wr_roots : v' !! ROOTS_KEY = Some (encode_roots rs);
  wr_seq : v' !! NEXT_SEQ_KEY = Some (le64 seq);
  wr_node n : node = Some n → v' !! dag_row (cid n) = Some (to_bytes n);
  wr_rest k : host_row k → k ≠ ROOTS_KEY → k ≠ NEXT_SEQ_KEY → (∀ n, node = Some n → k ≠ dag_row (cid n)) → v' !! k = v !! k;
}.

Lemma runs_write_state_row state lg v a Cf (Q : RaftLog → unit → tables → Prop) :
  agent_at v a →
  (∀ v', agent_at v' (default a.1 state, a.2) → agent_only v v' → Q lg tt v') →
  runs (write_state_row state) lg v Cf Q.
Proof using RedbLaws0.
  intros [Hst Hkv] HQ. destruct state as [state|]; [apply runs_insert|apply tx_runs_ret]; apply HQ.
  - split; [by rewrite lookup_insert_eq|]. intros k. by rewrite lookup_insert_ne.
  - intros k [Hk _]. by rewrite lookup_insert_ne.
  - by split.
  - by intros k _.
Qed.

Lemma runs_write_txn_rows state rs seq rest node lg v a Cf (Q : RaftLog → unit → tables → Prop) :
  agent_at v a →
  (∀ v', written v v' (default a.1 state, foldl apply_row a.2 rest) rs seq node → Q lg tt v') →
  runs (write_txn_rows state rs seq rest node) lg v Cf Q.
Proof using RedbLaws0 HasherLaws0.
  intros Ha HQ. unfold write_txn_rows. apply tx_runs_bind. eapply runs_write_state_row; [exact Ha|]. intros v1 [Hst1 Hkv1] H1.
  apply tx_runs_bind, runs_insert, tx_runs_bind, runs_insert, tx_runs_bind.
  eapply runs_write_kv; [intros k; rewrite !lookup_insert_ne by done; apply Hkv1|]. intros v2 Hkv2 H2.
  assert (v2 !! STATE_KEY = v1 !! STATE_KEY) as Hst2 by (by rewrite (H2 STATE_KEY), !lookup_insert_ne).
  assert (∀ k, host_row k → k ≠ ROOTS_KEY → k ≠ NEXT_SEQ_KEY → v2 !! k = v !! k) as Hrest2.
  { intros k Hk Hne1 Hne2. rewrite (H2 k (proj2 Hk)), !lookup_insert_ne by done. by apply H1. }
  destruct node as [n|]; [apply runs_insert|apply tx_runs_ret]; apply HQ; split.
  - split; [by rewrite lookup_insert_ne, Hst2|]. intros k. by rewrite lookup_insert_ne.
  - by rewrite lookup_insert_ne, (H2 ROOTS_KEY), lookup_insert_ne, lookup_insert_eq.
  - by rewrite lookup_insert_ne, (H2 NEXT_SEQ_KEY), lookup_insert_eq.
  - intros m [= <-]. by rewrite lookup_insert_eq.
  - intros k Hk Hne1 Hne2 Hne3. rewrite lookup_insert_ne by (intros <-; by eapply Hne3). by apply Hrest2.
  - split; [by rewrite Hst2|done].
  - by rewrite (H2 ROOTS_KEY), lookup_insert_ne, lookup_insert_eq.
  - by rewrite (H2 NEXT_SEQ_KEY), lookup_insert_eq.
  - done.
  - intros k Hk Hne1 Hne2 _. by apply Hrest2.
Qed.

(** The clock and the counter a commit goes by. *)
Definition refreshed db s : CrdtCommit :=
  with_next_seq (default (cc_next_seq s) (load_next_seq db)) (with_clock (default clock_new (load_clock db)) s).

Definition next_clock db s (log : option EffectLog) : gset C :=
  match log with Some l => {[cid (new_node (refreshed db s) l)]} | None => roots (cc_clock (refreshed db s)) end.
Definition seq_after db s (log : option EffectLog) : N :=
  match log with Some _ => (cc_next_seq (refreshed db s) + 1) `mod` u64_modulus | None => cc_next_seq (refreshed db s) end.

(** The agent after the writes that a commit makes, given the state it last wrote. *)
Definition delta_agent s delta a : agent :=
  let '(state, rest) := split_delta delta in
  (default a.1 (if changes state (cc_last_state s) then state else None), foldl apply_row a.2 rest).

Lemma delta_agent_writes s delta a : cc_last_state s = a.1 → delta_agent s delta a = apply_writes a (ad_writes delta).
Proof.
  intros Hs. unfold delta_agent. destruct (split_delta delta) as [state rest] eqn:Hd. rewrite Hs. by apply writes_kept.
Qed.

Record commit_done db s delta a (log : option EffectLog) db' s' : Prop := {
  cd_log l : log = Some l → ad_log delta = Some l ∧
    (el_invocation_id l = ZERO ∨ el_invocation_id l = invocation_id_for (cc_replica_origin s) (cc_next_seq (refreshed db s)));
  cd_rows : written (view db) (view db') (delta_agent s delta a) (next_clock db s log) (seq_after db s log)
              (new_node (refreshed db s) <$> log);
  cd_clock : roots (cc_clock s') = next_clock db s log;
  cd_seq : cc_next_seq s' = seq_after db s log;
  cd_state : cc_last_state s = a.1 → cc_last_state s' = (delta_agent s delta a).1;
  cd_origin : cc_replica_origin s' = cc_replica_origin s;
}.

Definition commit_outcome db s delta a (res : D * CrdtCommit (C := C) * result (CommitError E) bool) : Prop :=
  match res with
  | (db', s', Ok appended) =>
      (db' = db ∧ s' = s ∧ appended = false ∧ (cc_last_state s = a.1 → apply_writes a (ad_writes delta) = a))
      ∨ ∃ log, appended = bool_decide (is_Some log) ∧ commit_done db s delta a log db' s'
  | (db', s', Err _) => db' = db ∧ s' = refreshed db s
  end.

Lemma write_atomic_outcome db s delta a : agent_at (view db) a → commit_outcome db s delta a (write_atomic db s delta).
Proof using RedbLaws0 HasherLaws0.
  intros Ha. unfold write_atomic. destruct (split_delta delta) as [state rest] eqn:Hsplit.
  set (changed := changes state (cc_last_state s)). set (log := appended_log delta changed rest).
  destruct (negb changed && (length rest =? 0)%nat && bool_decide (log = None)) eqn:Hskip.
  { apply andb_true_iff in Hskip as [[Hc Hr]%andb_true_iff _]. apply negb_true_iff in Hc.
    apply Nat.eqb_eq, length_zero_iff_nil in Hr. left. split_and!; try done. intros Hlast. unfold changed in Hc. rewrite Hlast in Hc.
    by eapply writes_none. }
  fold (refreshed db s).
  match goal with |- context [if ?b then _ else _] => destruct b eqn:Hid end; [by split|].
  assert (delta_agent s delta a = (default a.1 (if changed then state else None), foldl apply_row a.2 rest)) as Hda
    by (unfold delta_agent; by rewrite Hsplit).
  pose proof (write_txn_outcome db
    (write_txn_rows (if changed then state else None) (next_clock db s log) (seq_after db s log) rest (new_node (refreshed db s) <$> log))
    (λ v, written (view db) v (delta_agent s delta a) (next_clock db s log) (seq_after db s log) (new_node (refreshed db s) <$> log)))
    as Hout.
  specialize (Hout ltac:(eapply runs_write_txn_rows; [exact Ha|]; intros v'; by rewrite Hda)).
  replace (match new_node (refreshed db s) <$> log with Some n => {[cid n]} | None => roots (cc_clock (refreshed db s)) end)
    with (next_clock db s log) by by destruct log.
  replace (match new_node (refreshed db s) <$> log with
           | Some _ => (cc_next_seq (refreshed db s) + 1) `mod` u64_modulus | None => cc_next_seq (refreshed db s) end)
    with (seq_after db s log) by by destruct log.
  destruct (write_txn _ _) as [db'|e]; [|by split]. right. exists log. split; [by destruct log|]. split.
  - intros l Hl. split; [unfold log, appended_log in Hl; by destruct (_ || _)|]. rewrite Hl in Hid.
    apply bool_decide_eq_false in Hid. destruct (decide (el_invocation_id l = ZERO)); [by left|]. right. apply dec_stable. tauto.
  - done.
  - by destruct (if changed then state else None).
  - by destruct (if changed then state else None).
  - intros Hlast. rewrite Hda. by destruct (if changed then state else None).
  - by destruct (if changed then state else None).
Qed.
End commit.

(** ** Merging *)

Section merge.
Context {C : Type} `{!Hasher C, !HasherLaws C} (genuine : bytes → Prop) `{!Grounded genuine}.
Context {D R W E : Type} `{!Redb D R W E} `{!RedbLaws D R W E}.
Abbreviation Node := (DagNode C CrdtEvent).
Implicit Types (db : D) (s : CrdtCommit (C := C)) (v : tables) (σ : gmap C Node) (cand sub : gset C).

Lemma insert_row_outcome db k b :
  match write_txn db (tx_insert k b) with
  | Ok db' => view db' = <[k := b]> (view db)
  | Err Config => False
  | Err (Backend _) => True
  end.
Proof using RedbLaws0.
  apply (write_txn_outcome db (tx_insert k b) (λ v, v = <[k := b]> (view db))). by apply runs_insert.
Qed.

Lemma insert_node_outcome db s c b :
  match insert_node db s c b with
  | (db', s', Ok true) =>
      hash b = c ∧ is_Some (from_bytes (D := C) (P := CrdtEvent) b) ∧ view db !! dag_row c = None ∧
      view db' = <[dag_row c := b]> (view db) ∧ s' = with_clock (add_roots (cc_clock s) [c]) s
  | (db', s', _) => db' = db ∧ s' = s
  end.
Proof using RedbLaws0.
  unfold insert_node. case_decide as Hc; [done|].
  destruct (from_bytes b) as [n|] eqn:Hn; [|done]. destruct (match cc_node_validator s with Some _ => _ | None => _ end); [done|].
  pose proof (read_dag_node_answers db c) as Hr. destruct (read_dag_node db c) as [[b'|]|e]; [done| |done].
  pose proof (insert_row_outcome db (dag_row c) b) as Hw. destruct (write_txn _ _) as [db'|e]; [|done]. split_and!; try done.
Qed.

Lemma compact_children_fold cand vis ks st sub st' sub' :
  foldl (compact_child cand vis) (st, sub) ks = (st', sub') →
  (∀ x, x ∈ st' ↔ x ∈ st ∨ x ∈ ks ∧ x ∉ vis) ∧ (∀ x, x ∈ sub' ↔ x ∈ sub ∨ x ∈ ks ∧ x ∈ cand) ∧
  (length st' ≤ length st + length ks)%nat.
Proof.
  revert st sub. induction ks as [|y ks IH]; intros st sub; cbn [foldl length].
  { intros [= <- <-]. split_and!; [set_solver..|lia]. }
  unfold compact_child at 2. intros (H1 & H2 & H3)%IH. split_and!.
  - intros x. rewrite H1, (elem_of_cons ks). clear. case_decide; rewrite ?elem_of_cons; naive_solver.
  - intros x. rewrite H2, (elem_of_cons ks). clear. case_decide; rewrite ?elem_of_union, ?elem_of_singleton; naive_solver.
  - case_decide; cbn in H3; lia.
Qed.

(** A compaction ends where nothing is stored. *)
Definition links_or_none σ (c : C) : option (gset C) := Some (default ∅ (links σ c)).

Lemma reach_links_or_none σ R0 c : reach (links_or_none σ) R0 c ↔ reach (links σ) R0 c.
Proof.
  split; induction 1 as [c Hc|c ks x _ IH Hk Hx]; try (by apply reach_root).
  - unfold links_or_none in Hk. injection Hk as <-. destruct (links σ c) as [ks|] eqn:Hl; [by eapply reach_next|set_solver].
  - eapply reach_next; [done| |done]. unfold links_or_none. by rewrite Hk.
Qed.

(** The roots that are children of something the roots reach. *)
Definition subsumed_by σ cand sub : Prop :=
  ∀ x, x ∈ sub ↔ x ∈ cand ∧ ∃ c n, reach (links σ) cand c ∧ σ !! c = Some n ∧ x ∈ children n.

(** Compaction keeps the history and leaves its heads. *)
Definition compacted σ cand (R' : gset C) : Prop :=
  R' ⊆ cand ∧ (∀ c, reach (links σ) R' c ↔ reach (links σ) cand c) ∧
  ∀ x c n, x ∈ R' → reach (links σ) R' c → σ !! c = Some n → x ∉ children n.

Lemma subsumed_compacted v cand sub :
  store_ok genuine v → subsumed_by (dag_of v) cand sub → compacted (dag_of v) cand (cand ∖ sub).
Proof using All.
  intros Hok Hsub. set (σ := dag_of v) in *.
  assert (∀ c, reach (links σ) (cand ∖ sub) c → reach (links σ) cand c) as Hdown by (intros c; apply reach_subset; set_solver).
  split_and!; [set_solver| |].
  - intros c. split; [apply Hdown|]. apply reach_trans.
    destruct (decide (cand = ∅)) as [->|Hne]; [set_solver|].
    destruct (max_rank_exists gr_rank cand Hne) as (top & _ & Hmax).
    intros r. remember (gr_rank top - gr_rank r)%nat as d eqn:Hd. revert r Hd.
    induction (lt_wf d) as [d _ IH]. intros r -> Hr. destruct (decide (r ∈ sub)) as [Hs|Hs]; [|apply reach_root; set_solver].
    apply Hsub in Hs as (_ & c' & n & Hc' & Hn & Hx).
    destruct (store_reach_rank genuine v cand c' Hok Hc') as (r0 & Hr0 & Hrc & Hle).
    pose proof (store_rank genuine v c' n r Hok Hn Hx) as Hlt. pose proof (Hmax r0 Hr0). pose proof (Hmax r Hr).
    eapply reach_child; [|exact Hn|exact Hx]. eapply reach_trans; [|exact Hrc]. intros ? ->%elem_of_singleton.
    eapply IH; [|done|done]. lia.
  - intros x c n Hx Hc Hn Hxn. apply elem_of_difference in Hx as [Hx Hns]. apply Hns, Hsub. split; [done|].
    exists c, n. split_and!; [by apply Hdown|done|done].
Qed.

(** One root, or none, has nothing to lose. *)
Lemma small_compacted v cand : store_ok genuine v → (size cand ≤ 1)%nat → compacted (dag_of v) cand cand.
Proof using All.
  intros Hok Hsz. split_and!; [done|done|]. intros x c n Hx Hc Hn Hxn.
  destruct (store_reach_rank genuine v cand c Hok Hc) as (r & Hr & _ & Hle).
  pose proof (store_rank genuine v c n x Hok Hn Hxn) as Hlt.
  assert (x = r) as ->; [|lia]. assert (size cand = 1%nat) as H1.
  { assert (size cand ≠ 0%nat) as Hne; [|lia]. intros H0%size_empty_inv. set_solver. }
  by apply (size_singleton_inv _ _ _ H1).
Qed.
End merge.

(** ** Compacting *)

Section compact.
Context {C : Type} `{!Hasher C, !HasherLaws C} (genuine : bytes → Prop) `{!Grounded genuine}.
Context {D R W E : Type} `{!Redb D R W E} `{!RedbLaws D R W E}.
Abbreviation Node := (DagNode C CrdtEvent).
Implicit Types (db : D) (s : CrdtCommit (C := C)) (v : tables) (σ : gmap C Node) (cand sub : gset C).

(** The cases of the loop's body. *)
Lemma cc_compact_body_cases (r : R) cand c vis st sub :
  match cc_compact_body r cand c vis st sub with
  | Continue (st', sub') =>
      ∃ ks, links_or_none (dag_of (rview r)) c = Some ks ∧
        (∀ x, x ∈ st' ↔ x ∈ st ∨ x ∈ ks ∧ x ∉ vis) ∧ (∀ x, x ∈ sub' ↔ x ∈ sub ∨ x ∈ ks ∧ x ∈ cand) ∧
        (length st' ≤ length st + link_count (dag_of (rview r)) c)%nat
  | Return e => (∀ val, rview r !! dag_row c = Some val → is_Some (from_bytes (D := C) (P := CrdtEvent) val)) → e ≠ Config
  end.
Proof using HasherLaws0 RedbLaws0.
  unfold cc_compact_body, links_or_none, links, link_count. rewrite lookup_dag_of.
  destruct (r_get r (dag_row c)) as [val|e] eqn:Hg; cbn [backend]; [|done]. apply r_get_view in Hg. rewrite <- Hg.
  destruct val as [val|]; cbn [mbind option_bind fmap option_fmap option_map].
  - destruct (from_bytes val) as [n|] eqn:Hn; cbn [default from_option id].
    + destruct (foldl _ _ _) as [st' sub'] eqn:Hf. apply compact_children_fold in Hf as (H1 & H2 & H3).
      exists (children n). split; [done|]. rewrite length_children_list in H3.
      split_and!; [intros x; by rewrite H1, elem_of_children_list|intros x; by rewrite H2, elem_of_children_list|done].
    + intros Hok. destruct (Hok val eq_refl) as [n ?]. congruence.
  - exists ∅. split; [done|]. split_and!; [set_solver|set_solver|lia].
Qed.

Lemma cc_compact_explores (r : R) cand : explores (cc_compact_body r cand) (links_or_none (dag_of (rview r))).
Proof using HasherLaws0 RedbLaws0.
  intros c vis st sub st' sub' _ Hb. pose proof (cc_compact_body_cases r cand c vis st sub) as Hc. rewrite Hb in Hc.
  destruct Hc as (ks & Hk & H1 & _ & _). exists ks. split; [done|]. split_and!; intros x; rewrite H1; [tauto|tauto|].
  destruct (decide (x ∈ vis)); tauto.
Qed.

(** Everything a compaction can visit. *)
Definition span σ cand : gset C := cand ∪ (dom σ ∪ ⋃ ((λ e : C * Node, children e.2) <$> map_to_list σ)).

Lemma span_child σ cand c n x : σ !! c = Some n → x ∈ children n → x ∈ span σ cand.
Proof.
  intros Hn Hx. unfold span. rewrite !elem_of_union. right; right. apply elem_of_union_list. exists (children n). split; [|done].
  apply list_elem_of_fmap. exists (c, n). by rewrite elem_of_map_to_list.
Qed.

Lemma cost_span σ cand : cost_sum (link_count σ) (span σ cand) = link_total σ.
Proof.
  apply cost_sum_zero; [|unfold span; set_solver]. intros c _ Hc. unfold link_count. destruct (σ !! c) eqn:Hn; [|done].
  destruct Hc. apply elem_of_dom. eauto.
Qed.

Lemma cc_compact_total fuel (r : R) cand :
  (size cand + link_total (dag_of (rview r)) < fuel)%nat →
  ∃ res, worklist (cc_compact_body r cand) fuel (stack_of cand) ∅ ∅ = Some res.
Proof using HasherLaws0 RedbLaws0.
  set (σ := dag_of (rview r)). intros Hfuel. apply (worklist_total_within _ (link_count σ) (span σ cand)).
  - intros c vis st sub st' sub' _ Hb. pose proof (cc_compact_body_cases r cand c vis st sub) as Hc. rewrite Hb in Hc.
    destruct Hc as (ks & Hk & H1 & _ & Hlen). split; [done|]. intros x [Hx|[Hx _]]%H1; [by left|right].
    unfold links_or_none, links in Hk. injection Hk as <-. fold σ in Hx. destruct (σ !! c) as [n|] eqn:Hn; [|set_solver].
    by eapply span_child.
  - intros x Hx%elem_of_stack_of. unfold span. set_solver.
  - by rewrite length_stack_of, difference_empty_L, cost_span.
Qed.

Lemma cc_compact_walk fuel (r : R) cand res :
  store_ok genuine (rview r) → worklist (cc_compact_body r cand) fuel (stack_of cand) ∅ ∅ = Some res →
  match res with
  | Continue (_, sub) => subsumed_by (dag_of (rview r)) cand sub
  | Return e => e ≠ Config
  end.
Proof using HasherLaws0 RedbLaws0.
  intros Hok Hw. set (σ := dag_of (rview r)).
  eapply (worklist_explores _ (links_or_none σ)
    (λ vis sub, ∀ x, x ∈ sub ↔ x ∈ cand ∧ ∃ c ks, c ∈ vis ∧ links_or_none σ c = Some ks ∧ x ∈ ks) (λ e, e ≠ Config)) in Hw;
    [|apply cc_compact_explores| | |set_solver].
  - destruct res as [[vis sub]|e]; [|done]. destruct Hw as (HJ & Hvis & _). rewrite list_to_set_stack_of in Hvis.
    intros x. rewrite HJ. apply and_iff_compat_l. split.
    + intros (c & ks & Hc & Hk & Hx). unfold links_or_none, links in Hk. injection Hk as <-.
      destruct (σ !! c) as [n|] eqn:Hn; [|set_solver]. exists c, n. by rewrite <- reach_links_or_none, <- Hvis.
    + intros (c & n & Hc & Hn & Hx). exists c, (children n). rewrite Hvis, reach_links_or_none.
      split_and!; [done| |done]. unfold links_or_none, links. by rewrite Hn.
  - intros vis c st sub st' sub' HJ _ Hc Hb. pose proof (cc_compact_body_cases r cand c ({[c]} ∪ vis) st sub) as Hcs.
    rewrite Hb in Hcs. destruct Hcs as (ks & Hk & _ & H2 & _). intros x. rewrite H2, HJ. fold σ in Hk. split.
    + intros [(Hx & c' & ks' & Hc' & Hk' & Hxk)|[Hx Hxc]]; (split; [done|]); [exists c', ks'|exists c, ks]; set_solver.
    + intros (Hx & c' & ks' & [->%elem_of_singleton|Hc']%elem_of_union & Hk' & Hxk); [right; by simplify_eq|left].
      split; [done|]. by exists c', ks'.
  - intros vis c st sub e _ _ _ _ Hb. pose proof (cc_compact_body_cases r cand c ({[c]} ∪ vis) st sub) as Hcs.
    rewrite Hb in Hcs. apply Hcs. intros val Hval. by apply (Hok c val).
Qed.

Lemma persist_roots_outcome db s :
  match persist_roots db s with
  | (db', s', Ok _) => s' = s ∧ view db' = <[ROOTS_KEY := encode_roots (roots (cc_clock s))]> (view db)
  | (db', s', Err e) => db' = db ∧ s' = s ∧ e ≠ Config
  end.
Proof using RedbLaws0.
  unfold persist_roots. pose proof (insert_row_outcome db ROOTS_KEY (encode_roots (roots (cc_clock s)))) as Hw.
  destruct (write_txn _ _) as [db'|[|e]]; done.
Qed.

(** The roots a compaction starts from. *)
Definition candidates_of db s : gset C := roots (cc_clock s) ∪ roots (default clock_new (load_clock db)).

Lemma compact_outcome fuel db s :
  let cand := candidates_of db s in
  store_ok genuine (view db) → (size cand + link_total (dag_of (view db)) < fuel)%nat →
  ∃ db' s' res, cc_compact_roots fuel db s = Some (db', s', res) ∧ (∃ k, s' = with_clock k s) ∧
    match res with
    | Ok _ => compacted (dag_of (view db)) cand (roots (cc_clock s')) ∧
              view db' = <[ROOTS_KEY := encode_roots (roots (cc_clock s'))]> (view db)
    | Err e => db' = db ∧ e ≠ Config
    end.
Proof using All.
  intros cand Hok Hfuel. unfold cc_compact_roots. fold (candidates_of db s). fold cand.
  assert (∀ R', compacted (dag_of (view db)) cand R' → let s1 := with_clock (mkClock R') s in
    ∃ db' s' res, persist_roots db s1 = (db', s', res) ∧ (∃ k, s' = with_clock k s) ∧
    match res with
    | Ok _ => compacted (dag_of (view db)) cand (roots (cc_clock s')) ∧
              view db' = <[ROOTS_KEY := encode_roots (roots (cc_clock s'))]> (view db)
    | Err e => db' = db ∧ e ≠ Config
    end) as Hpersist.
  { intros R' HR' s1. pose proof (persist_roots_outcome db s1) as Hp. destruct (persist_roots db s1) as [[db' s'] [u|e]].
    - destruct Hp as [-> Hv]. exists db', s1, (Ok u). split; [done|]. split; [by eexists|]. done.
    - destruct Hp as (-> & -> & He). exists db, s1, (Err e). split; [done|]. split; [by eexists|]. done. }
  destruct (Nat.leb_spec (size cand) 1) as [Hsz|_].
  { destruct (Hpersist cand) as (db' & s' & res & Hp & Hrest); [by eapply small_compacted|]. exists db', s', res. by rewrite Hp. }
  destruct (begin_read db) as [r|e] eqn:Hr; cbn [backend].
  2: { exists db, (with_clock (mkClock cand) s), (Err (Backend e)). split; [done|]. split; [by eexists|]. done. }
  apply begin_read_view in Hr. rewrite <- Hr in Hok, Hfuel. destruct (cc_compact_total fuel r cand Hfuel) as [res Hw]. rewrite Hw.
  pose proof (cc_compact_walk fuel r cand res Hok Hw) as Hres. destruct res as [[vis sub]|e].
  - rewrite Hr in Hres, Hok. destruct (Hpersist (cand ∖ sub)) as (db' & s' & res & Hp & Hrest); [by eapply subsumed_compacted|].
    exists db', s', res. change (with_clock (mkClock (cand ∖ sub)) (with_clock (mkClock cand) s)) with (with_clock (mkClock (cand ∖ sub)) s).
    by rewrite Hp.
  - exists db, (with_clock (mkClock cand) s), (Err e). split; [done|]. split; [by eexists|]. done.
Qed.
End compact.

(** ** Opening and rebuilding *)

Section opening.
Context {C : Type} `{!Hasher C, !HasherLaws C}.
Context {D R W E : Type} `{!Redb D R W E} `{!RedbLaws D R W E}.
Implicit Types (db : D) (s : CrdtCommit (C := C)) (v : tables).

(** A database that no actor has used. *)
Definition unused v : Prop := ∀ k, is_Some (row_table k) → v !! k = None.
Definition marked v : Prop := v !! REPLAY_FORMAT_KEY = Some REPLAY_FORMAT.

Lemma has_rows_false (r : R) t : r_has_rows r t = Ok false → ∀ k, row_table k = Some t → rview r !! k = None.
Proof using RedbLaws0.
  intros Hr k Hk. apply r_has_rows_view in Hr. apply eq_None_not_Some. intros Hs.
  assert (false = true) as ?; [|done]. apply Hr. by exists k.
Qed.

Lemma has_rows_used (r : R) t : r_has_rows r t = Ok true → ¬ unused (rview r).
Proof using RedbLaws0.
  intros Hr Hun. apply r_has_rows_view in Hr. destruct (proj1 Hr eq_refl) as (k & Hk & b & Hb).
  rewrite Hun in Hb by (by rewrite Hk). done.
Qed.

Lemma ensure_replay_format_outcome db :
  match ensure_replay_format db with
  | Ok db' => (db' = db ∧ marked (view db)) ∨ (unused (view db) ∧ view db' = <[REPLAY_FORMAT_KEY := REPLAY_FORMAT]> (view db))
  | Err Config => ¬ marked (view db) ∧ ¬ unused (view db)
  | Err (Backend _) => True
  end.
Proof using RedbLaws0.
  unfold ensure_replay_format, marked. destruct (begin_read db) as [r|e] eqn:Hr; [cbn|done]. rewrite <- (begin_read_view _ _ Hr).
  destruct (r_get r REPLAY_FORMAT_KEY) as [marker|e] eqn:Hm; [cbn|done]. apply r_get_view in Hm. rewrite <- Hm.
  destruct (r_has_rows r StateTable) as [st|e] eqn:Hst; [cbn|done]. destruct marker as [m|].
  { case_decide as Hme; [subst m; by left|]. split; [congruence|]. intros Hun. by rewrite Hun in Hm. }
  destruct (r_has_rows r DagTable) as [dg|e] eqn:Hdg; [cbn|done]. destruct (r_has_rows r KvTable) as [kv|e] eqn:Hkv; [cbn|done].
  destruct st; [split; [done|by eapply has_rows_used]|]. destruct dg; [split; [done|by eapply has_rows_used]|].
  destruct kv; [split; [done|by eapply has_rows_used]|]. cbn [orb].
  pose proof (insert_row_outcome db REPLAY_FORMAT_KEY REPLAY_FORMAT) as Hw. rewrite (begin_read_view _ _ Hr).
  destruct (write_txn _ _) as [db'|[|e]]; [|done|done]. right. split; [|done]. intros k [t Ht]. rewrite <- (begin_read_view _ _ Hr).
  destruct t; [exact (has_rows_false r _ Hst k Ht)|exact (has_rows_false r _ Hkv k Ht)|exact (has_rows_false r _ Hdg k Ht)].
Qed.

(** Opening reads the strategy off the rows, and leaves those of its own history. *)
Lemma with_state_outcome db origin db' s :
  with_state db origin = Ok (db', s) →
  (∀ k, k ≠ REPLAY_FORMAT_KEY → view db' !! k = view db !! k) ∧
  s = mkCrdtCommit (default clock_new (load_clock db')) (default [] (load_state db')) origin (default 0 (load_next_seq db')) None.
Proof using RedbLaws0.
  unfold with_state. pose proof (ensure_replay_format_outcome db) as He.
  destruct (ensure_replay_format db) as [db1|e]; [|done]. cbn. intros [= -> <-]. split; [|done]. intros k Hk.
  destruct He as [[-> _]|[_ ->]]; [done|]. by rewrite lookup_insert_ne.
Qed.

Lemma rebuilt_outcome db s state rows :
  match cc_commit_rebuilt db s state rows with
  | (db', s', Ok appended) => appended = false ∧ s' = with_last_state state s ∧
      agent_at (view db') (state, rebuilt rows) ∧ agent_only (view db) (view db')
  | (db', s', Err e) => db' = db ∧ s' = s ∧ e ≠ Config
  end.
Proof using RedbLaws0.
  unfold cc_commit_rebuilt. pose proof (write_txn_outcome db (tx_insert STATE_KEY state;; swap_kv_rows rows)
    (λ v, agent_at v (state, rebuilt rows) ∧ agent_only (view db) v)) as Hout.
  specialize (Hout ltac:(by eapply runs_rebuild; intros v'; split)).
  destruct (write_txn _ _) as [db'|[|e]]; [|done|done]. destruct Hout. split_and!; done.
Qed.
End opening.
