(* ===== verification/CrdtPull.v ===== *)
(** * vos: the agent and the synchronisation thread over one database

    A commit puts its event on top of what replay returned before, or, on top of a
    root that misses an ancestor, where replay does not get to it ([replay_of_top]).

    [step] interleaves the operations of the agent's strategy and of the
    synchronisation thread's on the database they share, failing writes and
    restarts included.  No step loses a stored node, a history that the stored roots
    reach, or a sequence number ([step_kept]). *)

From Stdlib.Strings Require Byte.
From S2P Require Import Prelude Worklist Bytes CrdtCodec CrdtDag CrdtOrder CrdtSync V2Identity EffectLog EffectProps.
From S2P Require Import Redb RaftRedb RaftRedbLog RaftRedbCommit Strategy StrategyRaft CrdtStrategy CrdtRows.
From S2P Require Import CrdtCommits.

Local Open Scope N_scope.

(** ** A node on top of the roots *)

Section top.
Context {C : Type} `{!Hasher C}.
Abbreviation Node := (DagNode C CrdtEvent).
Implicit Types (σ nodes : gmap C Node) (R : gset C).

Lemma collected_links σ R nodes x : collected σ R nodes → reach (links σ) R x → reach (links nodes) R x.
Proof.
  intros Hcol. induction 1 as [x Hx|y ks x Hy IH Hk Hx]; [by apply reach_root|]. apply links_Some in Hk as (n & Hn & ->).
  eapply reach_child; [exact IH| |done]. by apply Hcol.
Qed.

Section on_top.
Context σ R (c : C) (n : Node) (Hkids : children n = R) (Hfresh : ¬ reach (links σ) R c).

Lemma reach_top x : reach (links (<[c := n]> σ)) {[c]} x ↔ x = c ∨ reach (links σ) R x.
Proof using Hkids Hfresh.
  split.
  - induction 1 as [x ->%elem_of_singleton|y ks x _ IH Hk Hx]; [by left|right]. apply links_Some in Hk as (m & Hm & ->).
    destruct (decide (y = c)) as [->|Hne].
    + rewrite lookup_insert_eq in Hm. simplify_eq. by apply reach_root.
    + rewrite lookup_insert_ne in Hm by done. destruct IH as [?|IH]; [done|]. by eapply reach_child.
  - assert (reach (links (<[c := n]> σ)) {[c]} c) as Hc by (apply reach_root; set_solver). intros [->|Hx]; [done|].
    induction Hx as [x Hx|y ks x Hy IH Hk Hx].
    + eapply reach_child; [exact Hc|apply lookup_insert_eq|]. by rewrite Hkids.
    + apply links_Some in Hk as (m & Hm & ->). eapply reach_child; [exact IH| |done].
      rewrite lookup_insert_ne; [done|]. by intros <-.
Qed.

Lemma collected_top nodes : collected σ R nodes → collected (<[c := n]> σ) {[c]} (<[c := n]> nodes).
Proof using Hkids Hfresh.
  intros Hcol x m. rewrite reach_top. destruct (decide (x = c)) as [->|Hne].
  - rewrite !lookup_insert_eq. tauto.
  - rewrite !lookup_insert_ne by done. rewrite (Hcol x m). tauto.
Qed.
End on_top.

Lemma replay_of_top v v' R c n logs :
  replay_of v R logs → dag_of v' = <[c := n]> (dag_of v) → children n = R → ¬ reach (links (dag_of v)) R c →
  ((∀ x, x ∈ R → settled (dag_of v) x) → replay_of v' {[c]} (logs ++ [ce_log (payload n)])) ∧
  (¬ (∀ x, x ∈ R → settled (dag_of v) x) → replay_of v' {[c]} logs).
Proof.
  intros (nodes & Hcol & Hlogs) Hdag Hkids Hfresh.
  assert (nodes !! c = None) as Hc.
  { destruct (nodes !! c) as [m|] eqn:Hm; [|done]. by apply Hcol in Hm as [_ ?]. }
  assert (∀ x, x ∈ R → settled nodes x ↔ settled (dag_of v) x) as Hset.
  { intros x Hx. rewrite (collected_settled _ _ _ _ Hcol). split; [tauto|]. intros ?. split; [done|by apply reach_root]. }
  pose proof (collected_top _ _ c n Hkids Hfresh nodes Hcol) as Htop. rewrite <- Hdag in Htop. split; intros Hall.
  - exists (<[c := n]> nodes). split; [done|]. apply topological_order_top; [done| | |done].
    + intros x [m Hm]%elem_of_dom. rewrite Hkids. eapply collected_links; [exact Hcol|]. by apply Hcol in Hm as [_ ?].
    + intros x Hx. rewrite Hkids in Hx. apply Hset; auto.
  - exists (<[c := n]> nodes). split; [done|]. rewrite topological_order_held; [done|done|]. intros Hn. apply Hall.
    intros x Hx. apply Hset; [done|]. apply Hn. by rewrite Hkids.
Qed.
End top.

(** ** Committing an event *)

Section event.
Context {C : Type} `{!Hasher C, !HasherLaws C} (genuine : bytes → Prop) `{!Grounded genuine}.
Context {D R W E : Type} `{!Redb D R W E} `{!RedbLaws D R W E}.
Implicit Types (db : D) (s : CrdtCommit (C := C)) (v : tables) (a : agent) (l : EffectLog).

(** The widths of what a node is made of. *)
Record node_ok s l : Prop := {
  no_origin : length (cc_replica_origin s) = 32%nat;
  no_seq : cc_next_seq s < u64_modulus;
  no_log : log_ok l;
  no_fits : blen (to_bytes (new_node s l)) ≤ u64_max;
}.

Lemma new_node_decodes s l : node_ok s l → from_bytes (to_bytes (new_node s l)) = Some (new_node s l).
Proof using HasherLaws0. intros [Ho Hs Hl Hf]. apply from_to_bytes_payload; [|done]. by apply event_bytes_round_trip. Qed.

Lemma written_dag v v' a rs seq n :
  written v v' a rs seq (Some n) → from_bytes (to_bytes n) = Some n → dag_of v' = <[cid n := n]> (dag_of v).
Proof using HasherLaws0.
  intros Hw Hn. apply map_eq. intros x. rewrite lookup_dag_of. destruct (decide (x = cid n)) as [->|Hne].
  - by rewrite (wr_node _ _ _ _ _ _ Hw n eq_refl), lookup_insert_eq.
  - rewrite lookup_insert_ne, lookup_dag_of by done. f_equal. apply (wr_rest _ _ _ _ _ _ Hw); [done|done|done|].
    intros m [= <-] ?%dag_row_inj. done.
Qed.

Lemma written_dag_none v v' a rs seq : written v v' a rs seq None → ∀ c : C, v' !! dag_row c = v !! dag_row c.
Proof. intros Hw c. by apply (wr_rest _ _ _ _ _ _ Hw). Qed.

(** Nothing below the roots is the node on top of them. *)
Lemma new_node_fresh v s l :
  store_ok genuine v → node_ok s l → genuine (to_bytes (new_node s l)) →
  ¬ reach (links (dag_of v)) (roots (cc_clock s)) (cid (new_node s l)).
Proof using All.
  intros Hok Hn Hg Hr. destruct (store_reach_rank genuine v _ _ Hok Hr) as (r & Hroot & _ & Hle).
  pose proof (gr_rank_lt _ _ r Hg (new_node_decodes s l Hn) Hroot) as Hlt. unfold cid in Hle. lia.
Qed.

Lemma disk_roots_encoded v rs : v !! ROOTS_KEY = Some (encode_roots rs) → roots_fit rs → disk_roots v = rs.
Proof using HasherLaws0. intros Hv Hf. unfold disk_roots. rewrite Hv. cbn. by rewrite decode_encode_roots. Qed.

Lemma disk_seq_encoded v seq : v !! NEXT_SEQ_KEY = Some (le64 seq) → seq < u64_modulus → disk_seq v = Some seq.
Proof.
  intros Hv Hs. unfold disk_seq. rewrite Hv. cbn [mbind option_bind]. unfold le64. rewrite length_to_le_bytes. cbn [Nat.eqb].
  by rewrite from_to_le_bytes.
Qed.

Lemma seq_after_lt db s log : cc_next_seq (refreshed db s) < u64_modulus → seq_after db s log < u64_modulus.
Proof using. intros Hs. destruct log; [|done]. cbn. apply N.mod_lt. done. Qed.
End event.

(** ** Interleavings *)

Record sys {C : Type} `{!Hasher C} {D : Type} := mkSys {
  sy_db : D;
  sy_agent : CrdtCommit (C := C);
  sy_ticker : CrdtCommit (C := C);
}.
Arguments sys C {_} D.

Section system.
Context {C : Type} `{!Hasher C, !HasherLaws C} (genuine : bytes → Prop) `{!Grounded genuine}.
Context {D R W E : Type} `{!Redb D R W E} `{!RedbLaws D R W E}.
Implicit Types (db : D) (s t : CrdtCommit (C := C)) (v : tables) (x y : sys C D) (l : EffectLog).

(** A dispatch that the strategy can record: its node has the widths of its type, is
    among the genuine ones, and the sequence numbers are not used up. *)
Definition recordable db s (delta : AgentDelta) : Prop :=
  ∀ l, ad_log delta = Some l →
    node_ok (refreshed db s) l ∧ genuine (to_bytes (new_node (refreshed db s) l)) ∧ cc_next_seq (refreshed db s) < u64_max.

Inductive step : sys C D → sys C D → Prop :=
| step_commit db s t delta db' s' res :
    readable db → recordable db s delta → write_atomic db s delta = (db', s', res) →
    step (mkSys _ _ _ db s t) (mkSys _ _ _ db' s' t)
| step_rebuild db s t state rows db' s' res :
    cc_commit_rebuilt db s state rows = (db', s', res) → step (mkSys _ _ _ db s t) (mkSys _ _ _ db' s' t)
| step_reload db s t : step (mkSys _ _ _ db s t) (mkSys _ _ _ db (cc_reload db s) t)
| step_restart db s t db' s' :
    with_state db (cc_replica_origin s) = Ok (db', s') → step (mkSys _ _ _ db s t) (mkSys _ _ _ db' s' t)
| step_sync db s t origin validator db' t' :
    with_state db origin = Ok (db', t') → step (mkSys _ _ _ db s t) (mkSys _ _ _ db' s (set_node_validator validator t'))
| step_insert db s t c b db' t' res :
    genuine b → insert_node db t c b = (db', t', res) → step (mkSys _ _ _ db s t) (mkSys _ _ _ db' s t')
| step_compact fuel db s t db' t' res :
    readable db → roots_fit (candidates_of db t) →
    (size (candidates_of db t) + link_total (dag_of (view db)) < fuel)%nat →
    cc_compact_roots fuel db t = Some (db', t', res) → step (mkSys _ _ _ db s t) (mkSys _ _ _ db' s t').

Definition seq_of v : N := default 0 (disk_seq v).

Record sys_ok x : Prop := {
  so_store : store_ok genuine (view (sy_db x));
  so_roots : roots_fit (C := C) (disk_roots (view (sy_db x)));
  so_agent_seq : disk_seq (view (sy_db x)) = None → cc_next_seq (sy_agent x) = 0;
}.

Record kept v v' : Prop := {
  kp_nodes (c : C) b : v !! dag_row c = Some b → v' !! dag_row c = Some b;
  kp_reach (c : C) : reach (links (dag_of v)) (disk_roots v) c → reach (links (dag_of v')) (disk_roots v') c;
  kp_seq : seq_of v ≤ seq_of v';
}.

#[export] Instance kept_preorder : PreOrder kept.
Proof.
  split; [by split|]. intros v1 v2 v3 [H1 H2 H3] [H4 H5 H6]. split; [auto|auto|lia].
Qed.

(** Rows that only concern the agent, or the format, are not of the history. *)
Lemma kept_same v v' :
  (∀ c : C, v' !! dag_row c = v !! dag_row c) → v' !! ROOTS_KEY = v !! ROOTS_KEY → v' !! NEXT_SEQ_KEY = v !! NEXT_SEQ_KEY →
  kept v v' ∧ disk_roots (C := C) v' = disk_roots v ∧ disk_seq v' = disk_seq v.
Proof using HasherLaws0.
  intros Hd Hr Hs. assert (disk_roots (C := C) v' = disk_roots v) as Hroots by (unfold disk_roots; by rewrite Hr).
  assert (disk_seq v' = disk_seq v) as Hseq by (unfold disk_seq; by rewrite Hs).
  split_and!; [|done|done]. split; [intros c b; by rewrite Hd| |unfold seq_of; by rewrite Hseq].
  intros c. by rewrite Hroots, (dag_of_same v v' Hd).
Qed.

Lemma dag_of_kept v v' : (∀ (c : C) b, v !! dag_row c = Some b → v' !! dag_row c = Some b) → dag_of v ⊆ dag_of v'.
Proof using HasherLaws0.
  intros Hk. apply map_subseteq_spec. intros c n. rewrite !lookup_dag_of, !bind_Some. intros (b & Hb & Hn). exists b. auto.
Qed.

Lemma sys_ok_same x y :
  sys_ok x → (∀ c : C, view (sy_db y) !! dag_row c = view (sy_db x) !! dag_row c) →
  view (sy_db y) !! ROOTS_KEY = view (sy_db x) !! ROOTS_KEY → view (sy_db y) !! NEXT_SEQ_KEY = view (sy_db x) !! NEXT_SEQ_KEY →
  (disk_seq (view (sy_db x)) = None → cc_next_seq (sy_agent y) = 0) →
  sys_ok y ∧ kept (view (sy_db x)) (view (sy_db y)).
Proof using HasherLaws0.
  intros [Hst Hro Hsq] Hd Hr Hs Ha. destruct (kept_same _ _ Hd Hr Hs) as (Hk & Hroots & Hseq). split; [|done].
  split; [by eapply store_ok_same|by rewrite Hroots|by rewrite Hseq].
Qed.

Lemma agent_at_exists v : ∃ a, agent_at v a.
Proof. exists (default [] (v !! STATE_KEY), kv_of v). split; [done|]. intros k. cbn [snd]. by rewrite lookup_kv_of. Qed.

Lemma refreshed_readable db s :
  readable db → roots (cc_clock (refreshed db s)) = disk_roots (view db) ∧
    cc_next_seq (refreshed db s) = default (cc_next_seq s) (disk_seq (view db)).
Proof using RedbLaws0.
  intros Hr. split; [by apply load_clock_readable|]. cbn. by rewrite load_next_seq_readable.
Qed.

Lemma refreshed_seq x :
  sys_ok x → readable (sy_db x) → cc_next_seq (refreshed (sy_db x) (sy_agent x)) = seq_of (view (sy_db x)).
Proof using RedbLaws0.
  intros Hok Hr. destruct (refreshed_readable _ (sy_agent x) Hr) as [_ ->]. unfold seq_of.
  destruct (disk_seq (view (sy_db x))) eqn:Hd; [done|]. cbn. by apply (so_agent_seq _ Hok).
Qed.

Lemma seq_of_lt v : seq_of v < u64_modulus.
Proof.
  unfold seq_of, disk_seq. destruct (v !! NEXT_SEQ_KEY) as [b|]; [|done]. cbn [mbind option_bind].
  destruct (Nat.eqb_spec (length b) 8) as [Hb|]; [|done]. cbn. pose proof (from_le_bytes_lt b) as Hlt. by rewrite Hb in Hlt.
Qed.

(** What the rows say after a commit. *)
Lemma commit_disk x delta a log db' s' :
  sys_ok x → readable (sy_db x) → commit_done (sy_db x) (sy_agent x) delta a log db' s' →
  disk_roots (view db') = next_clock (sy_db x) (sy_agent x) log ∧
  disk_seq (view db') = Some (seq_after (sy_db x) (sy_agent x) log).
Proof using RedbLaws0 HasherLaws0.
  intros Hok Hr [_ Hw _ _ _ _]. split.
  - apply disk_roots_encoded; [apply Hw|]. destruct log; [apply roots_fit_singleton|].
    unfold next_clock. rewrite (proj1 (refreshed_readable _ (sy_agent x) Hr)). apply Hok.
  - apply disk_seq_encoded; [apply Hw|]. apply seq_after_lt. rewrite (refreshed_seq x Hok Hr). apply seq_of_lt.
Qed.

(** A commit without an event leaves the history as it is. *)
Lemma commit_quiet_kept x delta a db' s' :
  sys_ok x → readable (sy_db x) → commit_done (sy_db x) (sy_agent x) delta a None db' s' →
  sys_ok (mkSys _ _ _ db' s' (sy_ticker x)) ∧ kept (view (sy_db x)) (view db').
Proof using RedbLaws0 HasherLaws0.
  intros Hok Hr Hc. destruct (commit_disk x delta a None db' s' Hok Hr Hc) as [Hroots Hseq]. unfold next_clock, seq_after in Hroots, Hseq.
  destruct (refreshed_readable _ (sy_agent x) Hr) as [Hclock _]. rewrite (refreshed_seq x Hok Hr) in Hseq.
  pose proof (written_dag_none _ _ _ _ _ (cd_rows _ _ _ _ _ _ _ Hc)) as Hd. rewrite Hclock in Hroots. split.
  - split; cbn; [eapply store_ok_same; [exact Hd|apply Hok]|rewrite Hroots; apply Hok|by rewrite Hseq].
  - split; [intros c b; by rewrite Hd| |unfold seq_of; by rewrite Hseq].
    intros c. by rewrite Hroots, (dag_of_same _ _ Hd).
Qed.

(** A commit with an event puts it on top of the stored roots. *)
Lemma commit_event_kept x delta a l db' s' :
  sys_ok x → readable (sy_db x) → recordable (sy_db x) (sy_agent x) delta →
  commit_done (sy_db x) (sy_agent x) delta a (Some l) db' s' →
  sys_ok (mkSys _ _ _ db' s' (sy_ticker x)) ∧ kept (view (sy_db x)) (view db').
Proof using RedbLaws0 HasherLaws0 Grounded0.
  intros Hok Hr Hrec Hc. destruct (commit_disk x delta a (Some l) db' s' Hok Hr Hc) as [Hroots Hseq].
  destruct (Hrec l) as (Hn & Hg & Hlt); [by apply (cd_log _ _ _ _ _ _ _ Hc)|].
  destruct (refreshed_readable _ (sy_agent x) Hr) as [Hclock _]. set (s := refreshed (sy_db x) (sy_agent x)) in *.
  pose proof (cd_rows _ _ _ _ _ _ _ Hc) as Hw. cbn [fmap option_fmap option_map] in Hw. fold s in Hw.
  pose proof (new_node_decodes s l Hn) as Hdec. pose proof (written_dag _ _ _ _ _ _ Hw Hdec) as Hdag.
  set (n := new_node s l) in *.
  assert (∀ (c : C) b, view (sy_db x) !! dag_row c = Some b → view db' !! dag_row c = Some b) as Hnodes.
  { intros c b Hb. destruct (decide (c = cid n)) as [->|Hne].
    - destruct (so_store _ Hok _ _ Hb) as (Hgb & Hh & _). rewrite (wr_node _ _ _ _ _ _ Hw n eq_refl). f_equal.
      symmetry. by apply gr_inj.
    - rewrite (wr_rest _ _ _ _ _ _ Hw); [done..|]. intros m [= <-] ?%dag_row_inj. done. }
  split.
  - split; cbn; [|rewrite Hroots; apply roots_fit_singleton|by rewrite Hseq].
    intros c b Hb. destruct (decide (c = cid n)) as [->|Hne].
    + rewrite (wr_node _ _ _ _ _ _ Hw n eq_refl) in Hb. injection Hb as <-. by rewrite Hdec.
    + rewrite (wr_rest _ _ _ _ _ _ Hw) in Hb; [by apply (so_store _ Hok)|done..|]. intros m [= <-] ?%dag_row_inj. done.
  - split; [exact Hnodes| |].
    + intros c Hreach. rewrite Hroots, Hdag. cbn [next_clock]. fold s n.
      apply (reach_top _ _ (cid n) n eq_refl); [apply (new_node_fresh genuine); [apply Hok|done|done]|].
      right. by rewrite <- Hclock in Hreach.
    + unfold seq_of at 2. rewrite Hseq. cbn [default from_option id seq_after]. fold s.
      pose proof (refreshed_seq x Hok Hr) as Hs. fold s in Hs. rewrite Hs in Hlt |- *.
      rewrite N.mod_small by (unfold u64_max, u64_modulus in *; lia). lia.
Qed.

Lemma insert_kept x c b db' t' res :
  sys_ok x → genuine b → insert_node (sy_db x) (sy_ticker x) c b = (db', t', res) →
  sys_ok (mkSys _ _ _ db' (sy_agent x) t') ∧ kept (view (sy_db x)) (view db').
Proof using RedbLaws0 HasherLaws0.
  intros Hok Hg Hi. pose proof (insert_node_outcome (sy_db x) (sy_ticker x) c b) as Ho. rewrite Hi in Ho.
  assert (db' = sy_db x → sys_ok (mkSys _ _ _ db' (sy_agent x) t') ∧ kept (view (sy_db x)) (view db')) as Hsame.
  { intros ->. apply (sys_ok_same x (mkSys _ _ _ (sy_db x) (sy_agent x) t') Hok); [done..|apply Hok]. }
  destruct res as [[]|e]; [|tauto..]. destruct Ho as (Hc & Hd & Hnone & Hv & _).
  assert (∀ (c' : C) b', view (sy_db x) !! dag_row c' = Some b' → view db' !! dag_row c' = Some b') as Hnodes.
  { intros c' b' Hb. rewrite Hv, lookup_insert_ne; [done|]. intros ?%dag_row_inj. congruence. }
  destruct Hok as [Hst Hro Hsq].
  assert (view db' !! ROOTS_KEY = view (sy_db x) !! ROOTS_KEY) as Hr by by rewrite Hv, lookup_insert_ne.
  assert (view db' !! NEXT_SEQ_KEY = view (sy_db x) !! NEXT_SEQ_KEY) as Hs by by rewrite Hv, lookup_insert_ne.
  assert (disk_roots (C := C) (view db') = disk_roots (view (sy_db x))) as Hroots by (unfold disk_roots; by rewrite Hr).
  assert (disk_seq (view db') = disk_seq (view (sy_db x))) as Hseq by (unfold disk_seq; by rewrite Hs).
  split; [split; cbn; [rewrite Hv; by apply store_ok_insert|by rewrite Hroots|by rewrite Hseq]|].
  split; [done| |unfold seq_of; by rewrite Hseq]. intros c'. rewrite Hroots. apply reach_grow. by apply dag_of_kept.
Qed.

Lemma roots_fit_subset (R1 R2 : gset C) : R1 ⊆ R2 → roots_fit R2 → roots_fit R1.
Proof. intros Hs%subseteq_size. unfold roots_fit. nia. Qed.

Lemma compact_kept fuel x db' t' res :
  sys_ok x → readable (sy_db x) → roots_fit (candidates_of (sy_db x) (sy_ticker x)) →
  (size (candidates_of (sy_db x) (sy_ticker x)) + link_total (dag_of (view (sy_db x))) < fuel)%nat →
  cc_compact_roots fuel (sy_db x) (sy_ticker x) = Some (db', t', res) →
  sys_ok (mkSys _ _ _ db' (sy_agent x) t') ∧ kept (view (sy_db x)) (view db').
Proof using RedbLaws0 HasherLaws0 Grounded0.
  intros Hok Hr Hfit Hfuel Hc.
  destruct (compact_outcome genuine fuel (sy_db x) (sy_ticker x) (so_store _ Hok) Hfuel) as (db1 & t1 & res1 & Hc1 & _ & Hres).
  rewrite Hc1 in Hc. injection Hc as -> -> ->. destruct res as [u|e].
  2: { destruct Hres as [-> _]. apply (sys_ok_same x (mkSys _ _ _ (sy_db x) (sy_agent x) t') Hok); [done..|apply Hok]. }
  destruct Hres as [(Hsub & Hsame & _) Hv].
  assert (disk_roots (view db') = roots (cc_clock t')) as Hroots.
  { apply disk_roots_encoded; [by rewrite Hv, lookup_insert_eq|]. by eapply roots_fit_subset. }
  assert (∀ c : C, view db' !! dag_row c = view (sy_db x) !! dag_row c) as Hd by (intros c; by rewrite Hv, lookup_insert_ne).
  assert (disk_seq (view db') = disk_seq (view (sy_db x))) as Hseq by (unfold disk_seq; by rewrite Hv, lookup_insert_ne).
  destruct Hok as [Hst Hro Hsq]. split.
  - split; cbn; [by eapply store_ok_same|rewrite Hroots; by eapply roots_fit_subset|by rewrite Hseq].
  - split; [intros c b; by rewrite Hd| |unfold seq_of; by rewrite Hseq].
    intros c Hreach. rewrite Hroots, (dag_of_same _ _ Hd), Hsame. revert Hreach. apply reach_subset.
    unfold candidates_of. rewrite (load_clock_readable (sy_db x) Hr). set_solver.
Qed.

Lemma with_state_kept x origin db' s' t' :
  sys_ok x → with_state (sy_db x) origin = Ok (db', s') →
  (∀ s1, s1 = sy_agent x ∨ s1 = s' → sys_ok (mkSys _ _ _ db' s1 t') ∧ kept (view (sy_db x)) (view db')).
Proof using RedbLaws0 HasherLaws0.
  intros Hok [Hv ->]%with_state_outcome s1 Hs1.
  apply (sys_ok_same x (mkSys _ _ _ db' s1 t') Hok); [intros c; by apply Hv|by apply Hv|by apply Hv|]. cbn. intros Hnone.
  destruct Hs1 as [-> | ->]; [by apply Hok|]. cbn. unfold load_next_seq, load_row.
  destruct (begin_read db') as [r|e] eqn:Hr; [|done]. cbn. destruct (r_get r NEXT_SEQ_KEY) as [b|e] eqn:Hb; [|done]. cbn.
  apply r_get_view in Hb. rewrite (begin_read_view _ _ Hr), Hv in Hb by done. unfold disk_seq in Hnone. rewrite <- Hb in Hnone.
  destruct b as [b|]; [|done]. cbn in *. by rewrite Hnone.
Qed.

(** The invariant, and what every step keeps. *)
Lemma step_kept x y : sys_ok x → step x y → sys_ok y ∧ kept (view (sy_db x)) (view (sy_db y)).
Proof using RedbLaws0 HasherLaws0 Grounded0.
  intros Hok Hst. destruct Hst as [db s t delta db' s' res Hr Hrec Hw|db s t state rows db' s' res Hw|db s t|db s t db' s' Hw
    |db s t origin validator db' t' Hw|db s t c b db' t' res Hg Hi|fuel db s t db' t' res Hr Hf Hfuel Hc].
  - destruct (agent_at_exists (view db)) as [a Ha]. pose proof (write_atomic_outcome db s delta a Ha) as Ho. rewrite Hw in Ho.
    destruct res as [appended|e].
    + destruct Ho as [(-> & -> & _)|([l|] & _ & Hc)]; [by split|by apply (commit_event_kept _ _ _ _ _ _ Hok Hr Hrec Hc)|].
      by apply (commit_quiet_kept _ _ _ _ _ Hok Hr Hc).
    + destruct Ho as [-> ->]. apply (sys_ok_same _ _ Hok); [done..|]. cbn. intros Hnone.
      rewrite load_next_seq_readable, Hnone by done. by apply (so_agent_seq _ Hok).
  - pose proof (rebuilt_outcome db s state rows) as Ho. rewrite Hw in Ho. destruct res as [appended|e].
    + destruct Ho as (_ & -> & _ & Hrest). apply (sys_ok_same _ _ Hok); [intros c|..|apply Hok]; by apply Hrest.
    + destruct Ho as (-> & -> & _). by split.
  - apply (sys_ok_same _ _ Hok); [done..|]. apply Hok.
  - apply (with_state_kept _ _ _ _ t Hok Hw). by right.
  - apply (with_state_kept _ _ _ _ (set_node_validator validator t') Hok Hw). by left.
  - by apply (insert_kept _ _ _ _ _ _ Hok Hg Hi).
  - by apply (compact_kept _ _ _ _ _ Hok Hr Hf Hfuel Hc).
Qed.
End system.

(** * vos: pulling a peer's history

    [sync_with_peer] of [vos/src/node.rs].  The search starts at the peer's heads and
    stops at nodes that are stored, so what is stored must be complete for it to find
    what is missing.  From such a store, and a peer that serves the whole history of
    its heads, one pull makes all of it replayable and leaves a complete store
    ([sync_completes]). *)

(** ** A database that does not fail *)

Section reliable.
Context {C : Type} `{!Hasher C, !HasherLaws C}.
Context {D R W E : Type} `{!Redb D R W E} `{!RedbLaws D R W E, !RedbReliable D R W E}.
Implicit Types (db : D) (s : CrdtCommit (C := C)).

Lemma reliable_readable db : readable db.
Proof using RedbReliable0. destruct (begin_read_ok db) as [r Hr]. exists r. split; [done|]. apply r_get_ok. Qed.

Lemma insert_row_ok db k b : ∃ db', write_txn db (tx_insert k b) = Ok db' ∧ view db' = <[k := b]> (view db).
Proof using RedbReliable0 RedbLaws0.
  pose proof (insert_row_outcome db k b) as Ho. unfold write_txn, run_tx in *. destruct (begin_write_ok db) as [w Hw]. rewrite Hw in *.
  cbn in *. unfold tx_write in *. destruct (w_insert_ok w k b) as [w' Hw']. rewrite Hw' in *. cbn in *.
  destruct (w_commit_ok w') as [db' Hdb]. rewrite Hdb in *. cbn in *. by exists db'.
Qed.

Lemma read_dag_node_ok db (c : C) : read_dag_node db c = Ok (view db !! dag_row c).
Proof using RedbReliable0 RedbLaws0.
  pose proof (read_dag_node_answers db c) as Ha. unfold read_dag_node in *. destruct (begin_read_ok db) as [r Hr]. rewrite Hr in *.
  cbn in *. destruct (r_get_ok r (dag_row c)) as [x Hx]. rewrite Hx in *. cbn in *. by rewrite Ha.
Qed.

Lemma with_state_marked db origin :
  marked (view db) → with_state db origin =
    Ok (db, mkCrdtCommit (default (clock_new (D := C)) (load_clock db)) (default [] (load_state db)) origin (default 0 (load_next_seq db)) None).
Proof using RedbReliable0 RedbLaws0.
  intros Hm. unfold with_state. assert (ensure_replay_format db = Ok db) as ->; [|done].
  unfold ensure_replay_format. destruct (begin_read_ok db) as [r Hr]. rewrite Hr. cbn.
  destruct (r_get_ok r REPLAY_FORMAT_KEY) as [m Hg]. rewrite Hg. cbn. destruct (r_has_rows_ok r StateTable) as [b Hb]. rewrite Hb. cbn.
  apply r_get_view in Hg. rewrite (begin_read_view _ _ Hr), Hm in Hg. subst m. by rewrite decide_True.
Qed.

Lemma insert_node_new db s c b n :
  cc_node_validator s = None → hash b = c → from_bytes (D := C) (P := CrdtEvent) b = Some n → view db !! dag_row c = None →
  ∃ db', insert_node db s c b = (db', with_clock (add_roots (cc_clock s) [c]) s, Ok true) ∧ view db' = <[dag_row c := b]> (view db).
Proof using RedbReliable0 RedbLaws0.
  intros Hval Hc Hn Hnone. unfold insert_node. rewrite decide_False by tauto. rewrite Hn, Hval, read_dag_node_ok, Hnone.
  destruct (insert_row_ok db (dag_row c) b) as (db' & -> & Hv). by exists db'.
Qed.

Lemma compact_reliable (genuine : bytes → Prop) `{!Grounded genuine} fuel db s :
  store_ok genuine (view db) → (size (candidates_of db s) + link_total (dag_of (view db)) < fuel)%nat →
  ∃ db' s' u, cc_compact_roots fuel db s = Some (db', s', Ok u).
Proof using RedbReliable0 RedbLaws0 HasherLaws0.
  intros Hok Hfuel. assert (∀ s1 : CrdtCommit (C := C), ∃ db' s' u, persist_roots db s1 = (db', s', Ok u)) as Hp.
  { intros s1. unfold persist_roots. destruct (insert_row_ok db ROOTS_KEY (encode_roots (roots (cc_clock s1)))) as (db' & -> & _).
    by exists db', s1, tt. }
  unfold cc_compact_roots. fold (candidates_of db s). destruct (_ <=? 1)%nat.
  { destruct (Hp (with_clock (mkClock (candidates_of db s)) s)) as (db' & s' & u & ->). by exists db', s', u. }
  destruct (begin_read_ok db) as [r Hr]. rewrite Hr. cbn [backend]. apply begin_read_view in Hr. rewrite <- Hr in Hok, Hfuel.
  destruct (cc_compact_total fuel r (candidates_of db s) Hfuel) as [res Hw]. rewrite Hw.
  apply (worklist_ind _ (λ _ _ _, True) (λ _, False)) in Hw; [|done|done| |done].
  - destruct res as [[vis sub]|e]; [|done].
    destruct (Hp (with_clock (mkClock (candidates_of db s ∖ sub)) (with_clock (mkClock (candidates_of db s)) s))) as (db' & s' & u & ->).
    by exists db', s', u.
  - intros vis c w a e _ _. unfold cc_compact_body. destruct (r_get_ok r (dag_row c)) as [x Hx]. rewrite Hx. cbn [backend].
    apply r_get_view in Hx. destruct x as [b|]; [|done]. destruct (Hok c b (eq_sym Hx)) as (_ & _ & n & Hn). by rewrite Hn.
Qed.
End reliable.

(** ** The pull *)

Section pull.
Context {C : Type} `{!Hasher C, !HasherLaws C} (genuine : bytes → Prop) `{!Grounded genuine}.
Context {D R W E : Type} `{!Redb D R W E} `{!RedbLaws D R W E, !RedbReliable D R W E}.
Abbreviation Node := (DagNode C CrdtEvent).
Implicit Types (db : D) (s : CrdtCommit (C := C)) (v : tables).

(** The peer answers for every node of [P], a set that is closed under children. *)
Definition serves (peer : Peer (C := C)) (P : gset C) : Prop :=
  ∀ c, c ∈ P → ∃ b (n : Node), peer_node peer c = Some b ∧ genuine b ∧ hash b = c ∧ from_bytes b = Some n ∧ children n ⊆ P.

(** Everything stored has its whole history, and the roots reach it. *)
Record whole v : Prop := {
  wh_store : store_ok genuine v;
  wh_settled (c : C) : is_Some (v !! dag_row c) → settled (dag_of v) c;
  wh_rooted (c : C) : is_Some (v !! dag_row c) → reach (links (dag_of v)) (disk_roots v) c;
}.

Section loop.
Context (peer : Peer (C := C)) (P : gset C) (Hserves : serves peer P).
Context (heads : list C) (Hheads : ∀ c, c ∈ heads → c ∈ P).
Context (db0 : D) (s0 : CrdtCommit (C := C)) (Hvalid0 : cc_node_validator s0 = None).
Context (Hwhole : whole (view db0)).

Record pull_inv (vis : gset C) (work : list C) (acc : D * CrdtCommit (C := C) * bool) : Prop := {
  pi_store : store_ok genuine (view acc.1.1);
  pi_other k : (∀ c : C, k ≠ dag_row c) → view acc.1.1 !! k = view db0 !! k;
  pi_old (c : C) b : view db0 !! dag_row c = Some b → view acc.1.1 !! dag_row c = Some b;
  pi_new (c : C) b : view acc.1.1 !! dag_row c = Some b → view db0 !! dag_row c = None → c ∈ vis ∧ c ∈ roots (cc_clock acc.1.2);
  pi_clock : roots (cc_clock s0) ⊆ roots (cc_clock acc.1.2) ∧ roots (cc_clock acc.1.2) ⊆ roots (cc_clock s0) ∪ P;
  pi_vis c : c ∈ vis → c ∈ P ∧ is_Some (view acc.1.1 !! dag_row c);
  pi_work c : c ∈ work → c ∈ P;
  pi_heads c : c ∈ heads → c ∈ vis ∨ c ∈ work;
  pi_closed c n x : c ∈ vis → view db0 !! dag_row c = None → dag_of (view acc.1.1) !! c = Some n → x ∈ children n → x ∈ vis ∨ x ∈ work;
  pi_validator : cc_node_validator acc.1.2 = None;
  pi_quiet : acc.2 = false → acc.1 = (db0, s0);
}.

Lemma pull_init : pull_inv ∅ (reverse heads) (db0, s0, false).
Proof using All.
  split; cbn; try done.
  - apply Hwhole.
  - intros c b Hb Hnone. congruence.
  - set_solver.
  - set_solver.
  - intros c Hc. right. by apply elem_of_reverse.
Qed.

(** One more visit: stored from the start, or fetched and stored now. *)
Lemma pull_visit_stored vis c work acc :
  pull_inv vis (c :: work) acc → c ∉ vis → is_Some (view acc.1.1 !! dag_row c) → pull_inv ({[c]} ∪ vis) work acc.
Proof using All.
  intros [Hst Hot Hold Hnew Hcl Hvis Hwork Hh Hclosed Hval Hq] Hc [b Hb].
  assert (view db0 !! dag_row c ≠ None) as Hc0 by (intros Hnone; by destruct (Hnew c b Hb Hnone)).
  assert (∀ x, x ∈ vis ∨ x ∈ c :: work → x ∈ {[c]} ∪ vis ∨ x ∈ work) as Hmove by (intros x; rewrite elem_of_cons; set_solver).
  split; try done.
  - intros x b' Hx Hx0. destruct (Hnew x b' Hx Hx0). set_solver.
  - intros x [->%elem_of_singleton|Hx]%elem_of_union; [|by apply Hvis]. split; [apply Hwork; left|by rewrite Hb].
  - intros x Hx. apply Hwork. by right.
  - intros x Hx. by apply Hmove, Hh.
  - intros x n y [->%elem_of_singleton|Hx]%elem_of_union Hx0 Hn Hy; [done|]. by eapply Hmove, Hclosed.
Qed.

Lemma pull_visit_new vis c work db s ins b n db' :
  pull_inv vis (c :: work) (db, s, ins) → c ∉ vis → view db !! dag_row c = None →
  genuine b → hash b = c → from_bytes b = Some n → children n ⊆ P → view db' = <[dag_row c := b]> (view db) →
  pull_inv ({[c]} ∪ vis) (reverse (children_list n) ++ work) (db', with_clock (add_roots (cc_clock s) [c]) s, true).
Proof using All.
  intros [Hst Hot Hold Hnew Hcl Hvis Hwork Hh Hclosed Hval Hq] Hc Hnone Hg Hhash Hn Hkids Hv. cbn in *.
  assert (view db0 !! dag_row c = None) as Hc0.
  { destruct (view db0 !! dag_row c) as [b'|] eqn:Hb; [|done]. by rewrite (Hold c b' Hb) in Hnone. }
  assert (∀ x, x ∈ vis ∨ x ∈ c :: work → x ∈ {[c]} ∪ vis ∨ x ∈ reverse (children_list n) ++ work) as Hmove.
  { intros x. rewrite elem_of_cons, elem_of_app. set_solver. }
  split; cbn; rewrite ?Hv.
  - by apply store_ok_insert.
  - intros k Hk. rewrite lookup_insert_ne by (intros <-; by eapply Hk). by apply Hot.
  - intros x b' Hx. rewrite lookup_insert_ne; [by apply Hold|]. intros ?%dag_row_inj. congruence.
  - intros x b' Hx Hx0. destruct (decide (x = c)) as [->|Hne]; [set_solver|].
    rewrite lookup_insert_ne in Hx by (by intros ?%dag_row_inj). destruct (Hnew x b' Hx Hx0). set_solver.
  - assert (c ∈ P) by (apply Hwork; left). set_solver.
  - intros x [->%elem_of_singleton|Hx]%elem_of_union.
    + rewrite lookup_insert_eq. split; [apply Hwork; left|eauto].
    + destruct (Hvis x Hx) as [HP Hs]. split; [done|]. rewrite lookup_insert_ne; [done|]. by intros ->%dag_row_inj.
  - intros x [Hx|Hx]%elem_of_app; [rewrite elem_of_reverse, elem_of_children_list in Hx; set_solver|]. apply Hwork. by right.
  - intros x Hx. by apply Hmove, Hh.
  - intros x m y Hx Hx0 Hm Hy. rewrite (dag_of_insert _ _ _ _ Hn) in Hm. destruct (decide (x = c)) as [->|Hne].
    + rewrite lookup_insert_eq in Hm. simplify_eq. right. apply elem_of_app. left. by rewrite elem_of_reverse, elem_of_children_list.
    + rewrite lookup_insert_ne in Hm by done. eapply Hmove, Hclosed; [|exact Hx0|exact Hm|exact Hy]. set_solver.
  - done.
  - done.
Qed.

Lemma sync_body_visit vis c work acc :
  pull_inv vis (c :: work) acc → c ∉ vis →
  ∃ work' acc', sync_body peer c ({[c]} ∪ vis) work acc = Continue (work', acc') ∧ pull_inv ({[c]} ∪ vis) work' acc'.
Proof using All.
  intros Hinv Hc. destruct acc as [[db s] ins]. unfold sync_body. rewrite read_dag_node_ok.
  destruct (view db !! dag_row c) as [b|] eqn:Hb.
  { exists work, (db, s, ins). split; [done|]. apply pull_visit_stored; [done|done|]. cbn. rewrite Hb. eauto. }
  destruct (Hserves c) as (b & n & Hp & Hg & Hh & Hn & Hk); [apply (pi_work _ _ _ Hinv); left|]. rewrite Hp, Hn.
  destruct (insert_node_new db s c b n) as (db' & -> & Hv); [apply Hinv|done|done|done|].
  eexists _, _. split; [done|]. by eapply pull_visit_new.
Qed.

Lemma sync_loop_ends :
  ∃ fuel vis db s ins, worklist (sync_body peer) fuel (reverse heads) ∅ (db0, s0, false) = Some (Continue (vis, (db, s, ins))) ∧
    pull_inv vis [] (db, s, ins).
Proof using All.
  set (cost c := match peer_node peer c ≫= from_bytes (D := C) (P := CrdtEvent) with Some n => size (children n) | None => 0%nat end).
  destruct (worklist_total_within (sync_body peer) cost P (S (length (reverse heads) + cost_sum cost (P ∖ ∅))) (reverse heads) ∅ (db0, s0, false))
    as [res Hw].
  - intros c vis w [[db s] ins] w' a' HcP. unfold sync_body. destruct (Hserves c HcP) as (b & n & Hp & _ & _ & Hn & Hk).
    assert (cost c = size (children n)) as Hcost by (unfold cost; rewrite Hp; cbn; by rewrite Hn).
    destruct (read_dag_node db c) as [[b'|]|e]; [intros [= <- <-]; split; [lia|by left]| |done]. rewrite Hp.
    destruct (insert_node db s c b) as [[db' s'] [i|e]]; [|intros [= <- <-]; split; [lia|by left]].
    rewrite Hn. intros [= <- <-]. rewrite length_app, length_reverse, length_children_list. split; [lia|].
    intros x [Hx|Hx]%elem_of_app; [rewrite elem_of_reverse, elem_of_children_list in Hx; right; set_solver|by left].
  - intros x Hx. rewrite elem_of_reverse in Hx. by apply Hheads.
  - lia.
  - pose proof Hw as Hres. apply (worklist_ind _ pull_inv (λ _, False)) in Hres.
    + destruct res as [[vis [[db s] ins]]|]; [|done]. by eexists _, vis, db, s, ins.
    + intros vis c w a Hinv Hc. assert (∀ x, x ∈ vis ∨ x ∈ c :: w → x ∈ vis ∨ x ∈ w) as Hmove
        by (intros x; rewrite elem_of_cons; naive_solver).
      destruct Hinv. split; try done; [intros x Hx; apply pi_work0; by right|intros x Hx; auto|eauto].
    + intros vis c w a w' a' Hinv Hc Hb. destruct (sync_body_visit vis c w a Hinv Hc) as (w1 & a1 & Hb1 & Hinv1).
      rewrite Hb in Hb1. by simplify_eq.
    + intros vis c w a x Hinv Hc Hb. destruct (sync_body_visit vis c w a Hinv Hc) as (w1 & a1 & Hb1 & _). by rewrite Hb in Hb1.
    + apply pull_init.
Qed.

Lemma pull_settled vis db s ins (c : C) :
  pull_inv vis [] (db, s, ins) → is_Some (view db !! dag_row c) → settled (dag_of (view db)) c.
Proof using All.
  intros Hinv [b Hb].
  assert (∀ c : C, view db0 !! dag_row c ≠ None → settled (dag_of (view db)) c) as Hold.
  { intros c' Hc'. apply (settled_mono (dag_of (view db0))).
    - intros x n _ Hn. eapply lookup_weaken; [exact Hn|]. apply dag_of_kept. apply (pi_old _ _ _ Hinv).
    - apply (wh_settled _ Hwhole). by apply not_eq_None_Some. }
  destruct (view db0 !! dag_row c) as [b0|] eqn:Hb0; [apply Hold; by rewrite Hb0|].
  destruct (pi_new _ _ _ Hinv c b Hb Hb0) as [Hvis _]. clear b Hb Hb0. remember (gr_rank c) as r eqn:Hr. revert c Hr Hvis.
  induction (lt_wf r) as [r _ IH]. intros c -> Hvis. destruct (view db0 !! dag_row c) as [b0|] eqn:Hb0; [apply Hold; by rewrite Hb0|].
  destruct (pi_vis _ _ _ Hinv c Hvis) as [_ [b Hb]]. cbn in Hb. destruct (pi_store _ _ _ Hinv c b Hb) as (_ & _ & n & Hn).
  assert (dag_of (view db) !! c = Some n) as Hdag by (rewrite lookup_dag_of, Hb; done).
  apply (settled_intro _ _ n); [done|]. intros x Hx. eapply IH; [|done|].
  - eapply store_rank; [apply (pi_store _ _ _ Hinv)|exact Hdag|done].
  - destruct (pi_closed _ _ _ Hinv c n x Hvis Hb0 Hdag Hx) as [|?%elem_of_nil]; done.
Qed.

Lemma pull_heads vis db s ins c : pull_inv vis [] (db, s, ins) → c ∈ heads → is_Some (view db !! dag_row c).
Proof using All.
  intros Hinv Hc. destruct (pi_heads _ _ _ Hinv c Hc) as [Hv|?%elem_of_nil]; [|done]. by apply (pi_vis _ _ _ Hinv c Hv).
Qed.

(** What the final compaction leaves. *)
Lemma pull_compacted vis db s db' (R' : gset C) :
  roots (cc_clock s0) = disk_roots (view db0) → roots_fit (disk_roots (view db0) ∪ P) →
  pull_inv vis [] (db, s, true) → compacted (dag_of (view db)) (candidates_of db s) R' →
  view db' = <[ROOTS_KEY := encode_roots R']> (view db) →
  whole (view db') ∧ kept (C := C) (view db0) (view db').
Proof using All.
  intros Hroot0 Hfit Hinv (Hsub & Hsame & _) Hv. pose proof (pi_clock _ _ _ Hinv) as [Hc1 Hc2]. cbn in Hc1, Hc2.
  assert (∀ k, (∀ c : C, k ≠ dag_row c) → view db !! k = view db0 !! k) as Hother by apply (pi_other _ _ _ Hinv).
  assert (∀ c : C, view db' !! dag_row c = view db !! dag_row c) as Hd by (intros c; by rewrite Hv, lookup_insert_ne).
  assert (disk_roots (C := C) (view db) = disk_roots (view db0)) as Hr0
    by (unfold disk_roots; by rewrite (Hother ROOTS_KEY)).
  assert (candidates_of db s = roots (cc_clock s)) as Hcand.
  { unfold candidates_of. rewrite (load_clock_readable db (reliable_readable db)), Hr0. set_solver. }
  assert (disk_roots (view db') = R') as Hroots.
  { apply disk_roots_encoded; [by rewrite Hv, lookup_insert_eq|]. eapply roots_fit_subset; [|exact Hfit]. set_solver. }
  assert (∀ c, reach (links (dag_of (view db0))) (disk_roots (view db0)) c → reach (links (dag_of (view db))) R' c) as Hreach0.
  { intros c Hc. apply Hsame. rewrite Hcand. eapply reach_subset; [|eapply reach_grow; [|exact Hc]]; [set_solver|].
    apply dag_of_kept. apply (pi_old _ _ _ Hinv). }
  split; split.
  - eapply store_ok_same; [exact Hd|apply (pi_store _ _ _ Hinv)].
  - intros c Hc. rewrite (dag_of_same _ _ Hd). rewrite Hd in Hc. by eapply pull_settled.
  - intros c Hc. rewrite (dag_of_same _ _ Hd), Hroots. rewrite Hd in Hc. destruct (view db0 !! dag_row c) as [b0|] eqn:Hb0.
    + apply Hreach0, (wh_rooted _ Hwhole). by rewrite Hb0.
    + destruct Hc as [b Hb]. destruct (pi_new _ _ _ Hinv c b Hb Hb0) as [_ Hclock]. apply Hsame, reach_root. by rewrite Hcand.
  - intros c b Hb. rewrite Hd. by apply (pi_old _ _ _ Hinv).
  - intros c Hc. rewrite (dag_of_same _ _ Hd), Hroots. by apply Hreach0.
  - unfold seq_of, disk_seq. rewrite Hv, lookup_insert_ne by done. by rewrite (Hother NEXT_SEQ_KEY).
Qed.
End loop.

Lemma sync_outcome peer P heads db origin :
  marked (view db) → whole (view db) → serves peer P → peer_heads peer = Some heads → heads ≠ [] → (∀ c, c ∈ heads → c ∈ P) →
  roots_fit (disk_roots (view db) ∪ P) →
  ∃ fuel0, ∀ fuel, (fuel0 ≤ fuel)%nat → ∃ db' inserted,
    sync_with_peer fuel peer db origin None = Some (db', Ok (PeerHasGroup inserted)) ∧
    whole (view db') ∧ kept (C := C) (view db) (view db') ∧ ∀ c, c ∈ heads → is_Some (view db' !! dag_row c).
Proof using All.
  intros Hm Hwh Hs Hpeer Hne Hheads Hfit. set (s0 := mkCrdtCommit (C := C) (default clock_new (load_clock db)) (default [] (load_state db))
    origin (default 0 (load_next_seq db)) None).
  assert (roots (cc_clock s0) = disk_roots (view db)) as Hroot0 by apply load_clock_readable, reliable_readable.
  destruct (sync_loop_ends peer P Hs heads Hheads db s0 eq_refl Hwh) as (fuel1 & vis & db1 & s1 & ins & Hw & Hinv).
  exists (fuel1 + S (size (candidates_of db1 s1) + link_total (dag_of (view db1))))%nat. intros fuel Hfuel.
  unfold sync_with_peer. rewrite Hpeer, (with_state_marked db origin Hm). fold s0. destruct heads as [|h heads]; [done|].
  change (set_node_validator None s0) with s0. rewrite (worklist_more _ fuel1 fuel _ _ _ _ Hw) by lia.
  destruct ins.
  - destruct (compact_reliable genuine fuel db1 s1) as (db2 & s2 & u & Hc); [apply Hinv|lia|].
    destruct (compact_outcome genuine fuel db1 s1) as (db3 & s3 & res & Hc' & _ & Hres); [apply Hinv|lia|].
    rewrite Hc in Hc'. injection Hc' as <- <- <-. destruct Hres as [Hcomp Hv]. rewrite Hc. option_step.
    exists db2, true. split; [done|].
    destruct (pull_compacted peer P Hs (h :: heads) Hheads db s0 eq_refl Hwh vis db1 s1 db2 _ Hroot0 Hfit Hinv Hcomp Hv) as [Hw2 Hk2].
    split_and!; [done|done|]. intros c Hc2. rewrite Hv, lookup_insert_ne by done.
    exact (pull_heads peer P Hs (h :: heads) Hheads db s0 eq_refl Hwh _ _ _ _ c Hinv Hc2).
  - destruct Hinv as [? ? ? ? ? ? ? ? ? ? Hq] eqn:Heq. clear Heq. specialize (Hq eq_refl). cbn in Hq. injection Hq as -> ->.
    exists db, false. split_and!; [done|done|done|]. intros c Hc. exact (pull_heads peer P Hs (h :: heads) Hheads db s0 eq_refl Hwh _ _ _ _ c Hinv Hc).
Qed.
End pull.
