(* ===== verification/CrdtStrategyProps.v ===== *)
(** * vos: properties of the CRDT strategy

    What replay returns, what a commit adds to it, what no interleaving of the agent
    with the synchronisation thread loses, and what a pull completes; and three runs
    in which an event that was committed, or could have been fetched, is not
    replayed. *)

From Stdlib.Strings Require Byte.
From S2P Require Import Prelude Worklist Bytes CrdtCodec CrdtDag CrdtOrder CrdtSync Blake2b V2Identity EffectLog.
From S2P Require Import EffectProps Redb RaftRedb RaftRedbLog RaftRedbCommit Strategy StrategyRaft CrdtStrategy.
From S2P Require Import CrdtRows CrdtCommits CrdtPull.

Local Open Scope N_scope.

Section properties.
Context {C : Type} `{!Hasher C, !HasherLaws C}.
Context {D R W E : Type} `{!Redb D R W E} `{!RedbLaws D R W E}.
Implicit Types (db : D) (s : CrdtCommit (C := C)) (v : tables) (a : agent).

(** Fuel for every root and every stored edge. *)
Definition replay_fuel db s : nat := S (size (roots (cc_clock s)) + link_total (dag_of (view db))).

(** Replay returns [logs] unless the database fails. *)
Definition replays_to db s (logs : list EffectLog) : Prop :=
  ∀ fuel, (replay_fuel db s ≤ fuel)%nat → replays fuel db s logs.

Lemma replays_to_of db s logs : replay_of (view db) (roots (cc_clock s)) logs → replays_to db s logs.
Proof using RedbLaws0 HasherLaws0. intros Hl fuel Hf. apply replays_of; [done|]. unfold replay_fuel in Hf. lia. Qed.

(** C24: Replay returns, for any stored rows, whatever peers have sent, the events that
    the roots reach and whose whole ancestry is stored, each exactly once and after
    its causal predecessors, and fails only when the database does. *)
Theorem crdt_replay_exact db s :
  ∃ l, replays_to db s (entry_log <$> l) ∧ NoDup l.*1 ∧
    (∀ c n, (c, n) ∈ l ↔ dag_of (view db) !! c = Some n ∧
       reach (links (dag_of (view db))) (roots (cc_clock s)) c ∧ settled (dag_of (view db)) c) ∧
    ∀ l1 c n l2, l = l1 ++ (c, n) :: l2 → ∀ x, x ∈ children n → x ∈ l1.*1.
Proof.
  destruct (replay_of_total (view db) (roots (cc_clock s))) as [logs Hlogs].
  destruct (replay_of_spec _ _ _ Hlogs) as (l & -> & Hrest). exists l. split; [by apply replays_to_of|done].
Qed.

Section with_hash.
Context (genuine : bytes → Prop) `{!Grounded genuine}.

(** C23: A commit makes rows and cache those of the agent after the dispatch's writes,
    or leaves the database as it was.  When it appends an event, that event is the
    only root; replay then returns what it returned for the stored roots before,
    followed by the event, if those roots miss no ancestor, and otherwise just what
    it returned before. *)
Theorem crdt_commit_replays db s delta a :
  agent_at (view db) a → cc_last_state s = a.1 → store_ok genuine (view db) → recordable genuine db s delta →
  match write_atomic db s delta with
  | (db', s', Ok appended) =>
      agent_at (view db') (apply_writes a (ad_writes delta)) ∧ cc_last_state s' = (apply_writes a (ad_writes delta)).1 ∧
      (appended = true → ∃ l logs, ad_log delta = Some l ∧
         let n := new_node (refreshed db s) l in
         roots (cc_clock s') = {[cid n]} ∧ replays_to db (refreshed db s) logs ∧
         ((∀ x, x ∈ roots (cc_clock (refreshed db s)) → settled (dag_of (view db)) x) →
            replays_to db' s' (logs ++ [ce_log (payload n)])) ∧
         (¬ (∀ x, x ∈ roots (cc_clock (refreshed db s)) → settled (dag_of (view db)) x) → replays_to db' s' logs))
  | (db', s', Err _) => db' = db
  end.
Proof.
  intros Ha Hlast Hok Hrec. pose proof (write_atomic_outcome db s delta a Ha) as Ho.
  destruct (write_atomic db s delta) as [[db' s'] [appended|e]]; [|by destruct Ho].
  destruct Ho as [(-> & -> & -> & Hnone)|(log & -> & Hc)]; [rewrite (Hnone Hlast); by split_and!|].
  rewrite <- (delta_agent_writes s delta a Hlast). split; [apply Hc|]. split; [by apply (cd_state _ _ _ _ _ _ _ Hc)|].
  destruct log as [l|]; [intros _|done]. destruct (cd_log _ _ _ _ _ _ _ Hc l eq_refl) as [Hl _].
  destruct (Hrec l Hl) as (Hn & Hg & _). destruct (replay_of_total (view db) (roots (cc_clock (refreshed db s)))) as [logs Hlogs].
  exists l, logs. split; [done|]. intros n. split; [apply Hc|]. split; [by apply replays_to_of|].
  pose proof (cd_rows _ _ _ _ _ _ _ Hc) as Hw. cbn [fmap option_fmap option_map] in Hw.
  pose proof (written_dag _ _ _ _ _ _ Hw (new_node_decodes _ _ Hn)) as Hdag.
  destruct (replay_of_top _ _ _ (cid n) n logs Hlogs Hdag eq_refl (new_node_fresh genuine _ _ _ Hok Hn Hg)) as [Htop Hheld].
  split; intros Hset; apply replays_to_of; rewrite (cd_clock _ _ _ _ _ _ _ Hc); auto.
Qed.

(** C8: Whatever the agent and the synchronisation thread do on their database, in any
    order, with failing writes and restarts: no stored node is lost or changed, an
    event that a restart would replay stays one, and the sequence counter never
    goes back.  Assumed are that the reads of a commit and of a compaction succeed
    ([unread_roots_are_dropped] is what happens otherwise), that the nodes come from
    a set without collisions and cycles, that recorded events have their widths and
    sequence numbers below [u64::MAX], and that compacted roots fit their row. *)
Theorem crdt_history_kept (x y : sys C D) :
  sys_ok genuine x → rtc (step genuine) x y →
  sys_ok genuine y ∧
  (∀ (c : C) b, view (sy_db x) !! dag_row c = Some b → view (sy_db y) !! dag_row c = Some b) ∧
  (∀ c n, dag_of (view (sy_db x)) !! c = Some n → reach (links (dag_of (view (sy_db x)))) (disk_roots (view (sy_db x))) c →
     settled (dag_of (view (sy_db x))) c →
     dag_of (view (sy_db y)) !! c = Some n ∧ reach (links (dag_of (view (sy_db y)))) (disk_roots (view (sy_db y))) c ∧
     settled (dag_of (view (sy_db y))) c) ∧
  seq_of (view (sy_db x)) ≤ seq_of (view (sy_db y)).
Proof.
  intros Hok Hrun. assert (sys_ok genuine y ∧ kept (C := C) (view (sy_db x)) (view (sy_db y))) as [Hok' [Hn Hr Hs]].
  { induction Hrun as [x|x y z Hst Hrun IH]; [split; [done|reflexivity]|]. destruct (step_kept genuine x y Hok Hst) as [Hy Hk].
    destruct (IH Hy) as [Hz Hk']. split; [done|]. by etransitivity. }
  pose proof (dag_of_kept _ _ Hn) as Hsub. split_and!; [done|done| |done]. intros c n Hc Hre Hset.
  split_and!; [by eapply lookup_weaken|by apply Hr|]. eapply settled_mono; [|exact Hset]. intros z m _ Hm. by eapply lookup_weaken.
Qed.

(** C29: Pulling completes.  On a database that does not fail and in which everything
    stored is complete and reached by the roots, one pull from a peer that serves
    the whole history of its heads ends with the heads stored, everything stored
    complete and reached by the stored roots, and nothing lost. *)
Theorem crdt_sync_completes `{!RedbReliable D R W E} peer P heads db origin :
  marked (view db) → whole genuine (view db) → serves genuine peer P → peer_heads peer = Some heads → heads ≠ [] →
  (∀ c, c ∈ heads → c ∈ P) → roots_fit (disk_roots (view db) ∪ P) →
  ∃ fuel0, ∀ fuel, (fuel0 ≤ fuel)%nat → ∃ db' inserted,
    sync_with_peer fuel peer db origin None = Some (db', Ok (PeerHasGroup inserted)) ∧
    whole genuine (view db') ∧ kept (C := C) (view db) (view db') ∧ ∀ c, c ∈ heads → is_Some (view db' !! dag_row c).
Proof. by apply (sync_outcome genuine). Qed.
End with_hash.

(** Opening marks an unused database, accepts a marked one, and refuses any other
    before it is written to; the strategy then is what the rows say. *)
Theorem crdt_open_format db origin :
  match with_state (C := C) db origin with
  | Ok (db', s) =>
      (marked (view db) ∧ db' = db ∨ unused (view db) ∧ view db' = <[REPLAY_FORMAT_KEY := REPLAY_FORMAT]> (view db)) ∧
      (readable db' → s = mkCrdtCommit (mkClock (disk_roots (view db'))) (default [] (view db' !! STATE_KEY)) origin (seq_of (view db')) None)
  | Err Config => ¬ marked (view db) ∧ ¬ unused (view db)
  | Err (Backend _) => True
  end.
Proof.
  pose proof (ensure_replay_format_outcome db) as He. unfold with_state. destruct (ensure_replay_format db) as [db'|[|e]]; [cbn|done|done].
  split; [tauto|]. intros Hr. rewrite (load_state_readable db' Hr), (load_next_seq_readable db' Hr).
  rewrite <- (load_clock_readable db' Hr). by destruct (default clock_new (load_clock db')).
Qed.
End properties.

(** ** Runs *)

Definition demo_origin : bytes := zeros 32.

Definition demo_delta (x : Byte.byte) : AgentDelta :=
  mkDelta [(STATE_KEY_BYTES, Some [x])] (ANCHOR_UNRECORDED, zeros 32) (Some (for_msg [x])) false.

(** What opening an unused database leaves. *)
Definition fresh : tables := <[REPLAY_FORMAT_KEY := REPLAY_FORMAT]> ∅.
Definition fresh_agent : CrdtCommit (C := hash32) := mkCrdtCommit clock_new [] demo_origin 0 None.

Definition first_node : DagNode hash32 CrdtEvent := new_node fresh_agent (for_msg [Byte.x01]).
Definition first_only (b : bytes) : Prop := b = to_bytes first_node.

Lemma first_node_ok : node_ok fresh_agent (for_msg [Byte.x01]).
Proof. split; [done|done|by apply for_msg_ok|]. apply N.leb_le. vm_compute. reflexivity. Qed.

Lemma first_children : children first_node = ∅.
Proof. reflexivity. Qed.

#[local] Instance first_grounded : Grounded (C := hash32) first_only.
Proof.
  refine {| gr_rank := λ _, 0%nat |}.
  - by intros b1 b2 -> ->.
  - intros b n x -> Hn Hx. exfalso. unfold first_node in Hn. rewrite (new_node_decodes _ _ first_node_ok) in Hn. injection Hn as <-.
    fold first_node in Hx. rewrite first_children in Hx. by apply not_elem_of_empty in Hx.
Defined.

Lemma fresh_row k : k ≠ REPLAY_FORMAT_KEY → fresh !! k = None.
Proof. intros Hk. unfold fresh. rewrite lookup_insert_ne by done. apply lookup_empty. Qed.

Lemma fresh_roots : disk_roots (C := hash32) fresh = ∅.
Proof. unfold disk_roots. by rewrite fresh_row. Qed.

Lemma fresh_seq : disk_seq fresh = None.
Proof. unfold disk_seq. by rewrite fresh_row. Qed.

Lemma fresh_store : store_ok (C := hash32) first_only fresh.
Proof. intros c b. by rewrite fresh_row. Qed.

Lemma fresh_agent_at : agent_at fresh ([], ∅).
Proof. split; [by rewrite fresh_row|]. intros k. cbn [snd]. by rewrite fresh_row. Qed.

Lemma fresh_refreshed : refreshed (D := tables) fresh fresh_agent = fresh_agent.
Proof.
  unfold refreshed, load_clock, load_next_seq. by rewrite !load_row_readable, !fresh_row by apply reliable_readable || done.
Qed.

Lemma fresh_recordable : recordable (D := tables) first_only fresh fresh_agent (demo_delta Byte.x01).
Proof. intros l [= <-]. rewrite fresh_refreshed. split_and!; [apply first_node_ok|done|done]. Qed.

Lemma fresh_sys_ok : sys_ok first_only (mkSys _ _ _ fresh fresh_agent fresh_agent).
Proof.
  split; [apply fresh_store| |done]. cbn [sy_db view MemRedb_laws]. rewrite fresh_roots. unfold roots_fit. rewrite size_empty. done.
Qed.

Lemma fresh_whole : whole (C := hash32) first_only fresh.
Proof. split; [apply fresh_store|..]; intros c; rewrite fresh_row by done; by intros []. Qed.

Definition first_peer : Peer (C := hash32) :=
  mkPeer (Some [cid first_node]) (λ c, if decide (c = cid first_node) then Some (to_bytes first_node) else None).

Lemma first_peer_serves : serves first_only first_peer {[cid first_node]}.
Proof.
  intros c ->%elem_of_singleton. exists (to_bytes first_node), first_node. cbn [peer_node first_peer]. rewrite decide_True by done.
  split_and!; [done|done|done|apply new_node_decodes, first_node_ok|]. rewrite first_children. apply empty_subseteq.
Qed.

Definition receipt_of {A B Er} (out : A * B * result Er bool) : option bool := match out.2 with Ok r => Some r | Err _ => None end.

Lemma first_receipt : receipt_of (write_atomic (E := Empty_set) fresh fresh_agent (demo_delta Byte.x01)) = Some true.
Proof. vm_compute. reflexivity. Qed.

Lemma crdt_replay_exact_witness :
  ∃ l, replays_to (D := tables) (E := Empty_set) fresh fresh_agent (entry_log <$> l) ∧ NoDup l.*1.
Proof. destruct (crdt_replay_exact (D := tables) (E := Empty_set) fresh fresh_agent) as (l & Hl & Hnd & _). exists l. split; [exact Hl|exact Hnd]. Defined.

Lemma crdt_open_format_witness :
  match with_state (C := hash32) (D := tables) (E := Empty_set) fresh demo_origin with
  | Ok (db', _) => marked fresh ∧ db' = fresh ∨ unused fresh
  | Err Config => ¬ marked fresh
  | Err (Backend _) => True
  end.
Proof.
  pose proof (crdt_open_format (C := hash32) (D := tables) (E := Empty_set) fresh demo_origin) as H.
  destruct (with_state _ _) as [[db' s]|[|e]]; [|exact (proj1 H)|exact I]. destruct H as [[H|[H _]] _]; [left; exact H|right; exact H].
Defined.

Lemma crdt_commit_replays_witness :
  ∃ db' s', write_atomic (E := Empty_set) fresh fresh_agent (demo_delta Byte.x01) = (db', s', Ok true) ∧
    ∃ logs, replays_to db' s' (logs ++ [ce_log (payload first_node)]).
Proof.
  pose proof (crdt_commit_replays first_only fresh fresh_agent (demo_delta Byte.x01) _ fresh_agent_at eq_refl fresh_store fresh_recordable) as Hc.
  pose proof first_receipt as Hr. destruct (write_atomic _ _ _) as [[db' s'] [[]|e]]; [|done|done]. exists db', s'. split; [reflexivity|].
  destruct Hc as (_ & _ & Hc). destruct (Hc eq_refl) as (l & logs & [= <-] & Hn). rewrite fresh_refreshed in Hn.
  destruct Hn as (_ & _ & Hset & _). exists logs. apply Hset. intros x Hx. by apply not_elem_of_empty in Hx.
Defined.

Lemma crdt_history_kept_witness :
  ∃ db' s', rtc (step (D := tables) first_only) (mkSys _ _ _ fresh fresh_agent fresh_agent) (mkSys _ _ _ db' s' fresh_agent) ∧
    receipt_of (write_atomic (E := Empty_set) fresh fresh_agent (demo_delta Byte.x01)) = Some true ∧
    sys_ok first_only (mkSys _ _ _ db' s' fresh_agent) ∧ seq_of fresh ≤ seq_of db'.
Proof.
  destruct (write_atomic (E := Empty_set) fresh fresh_agent (demo_delta Byte.x01)) as [[db' s'] res] eqn:Hw. exists db', s'.
  assert (rtc (step (D := tables) first_only) (mkSys _ _ _ fresh fresh_agent fresh_agent) (mkSys _ _ _ db' s' fresh_agent)) as Hrun.
  { eapply rtc_once, step_commit; [apply reliable_readable|exact fresh_recordable|exact Hw]. }
  destruct (crdt_history_kept first_only _ _ fresh_sys_ok Hrun) as (Hok & _ & _ & Hs). split; [exact Hrun|].
  split; [rewrite <- Hw; exact first_receipt|]. split; [exact Hok|exact Hs].
Defined.

Lemma crdt_sync_completes_witness :
  ∃ fuel db' inserted, sync_with_peer (E := Empty_set) fuel first_peer fresh demo_origin None = Some (db', Ok (PeerHasGroup inserted)) ∧
    is_Some (db' !! dag_row (cid first_node)).
Proof.
  destruct (crdt_sync_completes first_only first_peer {[cid first_node]} [cid first_node] fresh demo_origin) as [fuel0 Hf].
  - unfold marked, fresh. apply lookup_insert_eq.
  - exact fresh_whole.
  - exact first_peer_serves.
  - done.
  - done.
  - intros c Hc. apply elem_of_singleton. by apply list_elem_of_singleton in Hc.
  - cbn [view MemRedb_laws]. rewrite fresh_roots, (left_id_L ∅ (∪)). apply roots_fit_singleton.
  - destruct (Hf fuel0 (Nat.le_refl _)) as (db' & inserted & Hs & _ & _ & Hh). exists fuel0, db', inserted. split; [exact Hs|].
    apply Hh. left.
Defined.

(** ** Events that are not replayed *)

(** The messages of the events a replay returns. *)
Definition messages {Er} (res : option (result Er (list EffectLog))) : option (list bytes) :=
  match res with Some (Ok logs) => Some (el_msg <$> logs) | _ => None end.

(** A replay after a restart. *)
Definition restart_messages (db : tables) : option (list bytes) :=
  match with_state (C := hash32) (E := Empty_set) db demo_origin with
  | Ok (db, s) => messages (cc_replay_logs (E := Empty_set) 20 db s)
  | Err _ => None
  end.

(** A peer's event whose parent nobody has. *)
Definition forged_node : DagNode hash32 CrdtEvent :=
  mkNode (crdt_event_new (replicate 32 Byte.x07) 0 (for_msg [Byte.x66])) {[blake2b_hash32 []]}.

Definition serving (nodes : list (DagNode hash32 CrdtEvent)) (c : hash32) : option bytes :=
  to_bytes <$> list_find (λ n, cid n = c) nodes ≫= λ e, Some e.2.

(** One forged event of a peer makes an agent's later events vanish from replay.
    The event cites a parent that nobody has; it is accepted and becomes a root, the
    agent's next commit goes on top of it and is acknowledged, and replay, which
    holds the forged event back, holds back that commit too. *)
Theorem forged_parent_holds_back_commits :
  let '(db1, s1, r1) := write_atomic (E := Empty_set) fresh fresh_agent (demo_delta Byte.x01) in
  match sync_with_peer (E := Empty_set) 20 (mkPeer (Some [cid forged_node]) (serving [forged_node])) db1 demo_origin None with
  | Some (db2, r2) =>
      let '(db3, s3, r3) := write_atomic (E := Empty_set) db2 s1 (demo_delta Byte.x02) in
      (r1, r2, r3) = (Ok true, Ok (PeerHasGroup true), Ok true) ∧
      db3 !! STATE_KEY = Some [Byte.x02] ∧ restart_messages db3 = Some [[Byte.x01]]
  | None => False
  end.
Proof. vm_compute. done. Qed.

(** A peer's history of three events, each on top of the one before. *)
Definition event_on (x : Byte.byte) (seq : N) (below : gset hash32) : DagNode hash32 CrdtEvent :=
  mkNode (crdt_event_new (replicate 32 Byte.x07) seq (for_msg [x])) below.
Definition event1 : DagNode hash32 CrdtEvent := event_on Byte.x01 0 ∅.
Definition event2 : DagNode hash32 CrdtEvent := event_on Byte.x02 1 {[cid event1]}.
Definition event3 : DagNode hash32 CrdtEvent := event_on Byte.x03 2 {[cid event2]}.

(** A pull that was cut short is never made up for.  The peer's head is fetched
    and stored, the request for its parent times out.  Later pulls, with a peer that
    answers everything, stop at the stored head and fetch nothing; when the peer has
    a new event, they fetch that one alone.  The events are never replayed. *)
Theorem interrupted_pull_never_resumes :
  let pull heads nodes db := sync_with_peer (E := Empty_set) 20 (mkPeer (Some heads) (serving nodes)) db demo_origin None in
  match pull [cid event2] [event2] fresh with
  | Some (db1, r1) =>
      match pull [cid event2] [event1; event2] db1 with
      | Some (db2, r2) =>
          match pull [cid event3] [event1; event2; event3] db2 with
          | Some (db3, r3) =>
              (r1, r2, r3) = (Ok (PeerHasGroup true), Ok (PeerHasGroup false), Ok (PeerHasGroup true)) ∧
              restart_messages db2 = Some [] ∧ restart_messages db3 = Some []
          | None => False
          end
      | None => False
      end
  | None => False
  end.
Proof. vm_compute. done. Qed.

(** A fetched event that was stored before a crash, but not made a root, is never
    replayed: a later pull finds it stored and leaves the roots as they are. *)
Theorem crashed_pull_is_not_rooted :
  let '(db1, _, r1) := insert_node (E := Empty_set) fresh fresh_agent (cid event1) (to_bytes event1) in
  match sync_with_peer (E := Empty_set) 20 (mkPeer (Some [cid event1]) (serving [event1])) db1 demo_origin None with
  | Some (db2, r2) => (r1, r2) = (Ok true, Ok (PeerHasGroup false)) ∧ restart_messages db2 = Some []
  | None => False
  end.
Proof. vm_compute. done. Qed.

(** A database whose reads fail until something is written. *)
Record flaky := mkFlaky { fl_failing : bool; fl_tables : tables }.

Definition flaky_read (d : flaky) : result unit tables := if fl_failing d then Err tt else Ok (fl_tables d).

#[local] Instance FlakyRedb : Redb flaky tables tables unit := {|
  begin_read := flaky_read;
  begin_write := λ d, Ok (fl_tables d);
  r_get := λ t k, Ok (t !! k);
  r_last_log := λ t, Ok (i ← last_key N.le (log_of t); b ← log_of t !! i; Some (i, b));
  r_range_log := λ t lo hi, Ok (range_of (log_of t) lo hi);
  r_kv_rows := λ t, Ok (map_to_list (kv_of t));
  r_has_rows := λ m t, Ok (has_rows m t);
  w_get := λ t k, Ok (t !! k);
  w_insert := λ t k b, Ok (<[k := b]> t);
  w_remove := λ t k, Ok (delete k t);
  w_applied_keys := λ t lo hi, Ok (range_of (applied_of t) lo hi).*1;
  w_delete_kv := λ t, Ok (filter (λ e, kv_key e.1 = None) t);
  w_commit := λ t, Ok (mkFlaky false t);
|}.

#[local] Instance FlakyRedb_laws : RedbLaws flaky tables tables unit.
Proof.
  refine {| view := fl_tables; rview := λ t : tables, t; wview := λ t : tables, t |}; cbn; try congruence.
  - intros d r. unfold flaky_read. destruct (fl_failing d); [done|]. by intros [= <-].
  - intros r x [= <-]. apply last_log_of.
  - intros r lo hi l [= <-]. split; [apply range_of_sorted|]. intros i b. rewrite elem_of_range_of. by rewrite lookup_log_of.
  - intros r l [= <-]. split; [apply NoDup_fst_map_to_list|]. intros k b. by rewrite elem_of_map_to_list, lookup_kv_of.
  - intros r t b [= <-]. apply has_rows_true.
  - intros w lo hi l [= <-]. intros i. apply elem_of_applied_keys.
  - by intros w d [= <-].
Defined.

(** A commit that cannot read the roots takes them for none.  The read fails, the
    commit goes on, is acknowledged and overwrites the roots with its event, and the
    history below the old roots is no longer replayed. *)
Theorem unread_roots_are_dropped :
  let '(db1, s1, r1) := write_atomic (E := unit) (mkFlaky false fresh) fresh_agent (demo_delta Byte.x01) in
  let '(db2, s2, r2) := write_atomic (E := unit) (mkFlaky true (fl_tables db1)) s1 (demo_delta Byte.x02) in
  (r1, r2) = (Ok true, Ok true) ∧ restart_messages (fl_tables db1) = Some [[Byte.x01]] ∧
  restart_messages (fl_tables db2) = Some [[Byte.x02]].
Proof. vm_compute. done. Qed.
