(* ===== verification/CrdtFields.v ===== *)
(** * vos: the CRDT field types

    [vos/src/crdt.rs]: the replicated fields of an actor.  [Value] is a multi-value
    register, [Map] and [CSet] are observed-remove, [CList] is an RGA list, [Text] a
    list of characters and [Counter] a sum.  A mutation takes its operation
    identifier from the change scope of the running actor slice and records there
    what it did; replicas exchange whole fields and [merge] them.

    [Slice] is the thread-local state, [op] a method call: a method that returns an
    error keeps what it has changed so far.  Indices are [nat]; a sum of [usize]
    that overflows is out of range here as there.  [crate::Encode] is rkyv's codec,
    the class [RowCodec].  [ordered_ids] takes its fuel from the number of elements
    and [None] stands for no fuel. *)

From Stdlib.Strings Require Byte.
From stdpp Require Import strings.
From S2P Require Import Prelude Worklist Bytes V2Wire V2Identity Overlay.

Local Open Scope N_scope.

(** ** Identifiers *)

Abbreviation ChangeId := bytes.

Record OpId := mkOpId { oi_change : ChangeId; oi_ordinal : N }.

#[export] Instance OpId_eq_dec : EqDecision OpId.
Proof. solve_decision. Defined.
#[export] Program Instance OpId_countable : Countable OpId :=
  inj_countable' (λ i, (oi_change i, oi_ordinal i)) (λ p, mkOpId p.1 p.2) _.
Next Obligation. by intros []. Qed.

(** The derived order: by change, then by ordinal. *)
Definition OpId_le (a b : OpId) : Prop :=
  oi_change a ≠ oi_change b ∧ bytes_le (oi_change a) (oi_change b) ∨
  oi_change a = oi_change b ∧ oi_ordinal a ≤ oi_ordinal b.

#[export] Instance OpId_le_dec : RelDecision OpId_le.
Proof. intros a b. unfold OpId_le. apply _. Defined.
#[export] Instance OpId_le_total : TotalOrder OpId_le.
Proof.
  assert (∀ a b, bytes_le a b → bytes_le b a → a = b) as Hanti by apply bytes_le_antisymm.
  split; [split; [split|]|]; unfold Reflexive, Transitive, Trichotomy, strict, OpId_le.
  - intros [a n]. right. simpl. split; [done|lia].
  - intros [a n] [b m] [c k]; simpl. intros [[Hab Ha]|[-> Hnm]] [[Hbc Hb]|[-> Hmk]]; [|by left|by left|right; split; [done|lia]].
    left. split; [|by eapply bytes_le_trans]. intros ->. naive_solver.
  - intros [a n] [b m]; simpl. intros [[Hab Ha]|[-> Hnm]] [[Hba Hb]|[Heq Hmn]]; subst; try naive_solver. f_equal. lia.
  - intros [a n] [b m]; simpl. destruct (decide (a = b)) as [->|Hab].
    { destruct (N.lt_trichotomy n m) as [?|[-> |?]]; [left|right; by left|right; right]; (split; [right; split; [done|lia]|intros [[]|[_ ?]]; [done|lia]]). }
    destruct (trichotomy (strict bytes_le) a b) as [[H1 H2]|[?|[H1 H2]]]; [left|done|right; right]; naive_solver.
Qed.
#[export] Instance OpId_ord : RustOrd OpId := {| ord_le := OpId_le |}.

Definition ChangeId_derive (namespace nonce : bytes) : ChangeId :=
  digest (b# "vos/crdt-change/v2") [len_u64 namespace; namespace; len_u64 nonce; nonce].
Definition ChangeId_operation (c : ChangeId) (ordinal : N) : OpId := mkOpId c ordinal.
Definition for_dispatch (change : bytes) (actor : ActorId) (dispatch_ordinal : N) : ChangeId :=
  digest (b# "vos/crdt-actor-dispatch/v2") [change; actor; to_le_bytes 4 dispatch_ordinal].
Definition field_tag (actor field : bytes) : Hash := digest (b# "vos/crdt-field-tag/v2") [actor; field].

Inductive Error :=
| DivergentOperation (id : OpId)
| LogicalClockOverflow
| ConstMismatch
| IndexOutOfBounds
| NoChangeScope
| NestedChangeScope
| OperationOverflow
| NoCompletedChange
| ChangeMismatch.

(** ** The change scope *)

Record PendingOperation := mkPending { po_field : Hash; po_id : OpId; po_payload : bytes }.
Record ChangeScope := mkScope { cs_change : ChangeId; cs_next_ordinal : N; cs_operations : list PendingOperation }.
Record CompletedChange := mkCompleted { cc_change : ChangeId; cc_operations : list PendingOperation }.
Record Slice := mkSlice { active : option ChangeScope; completed : option CompletedChange }.

Definition reset_actor_slice : Slice := mkSlice None None.

Definition begin_change (change : ChangeId) (sl : Slice) : Slice * result Error () :=
  match active sl with
  | Some _ => (sl, Err NestedChangeScope)
  | None => (mkSlice (Some (mkScope change 0 [])) None, Ok ())
  end.

Definition complete_change (sl : Slice) : Slice :=
  match active sl with
  | None => sl
  | Some scope => mkSlice None (Some (mkCompleted (cs_change scope) (cs_operations scope)))
  end.

Definition end_change (sl : Slice) : Slice := mkSlice None (completed sl).

Definition rebind_change (change : ChangeId) (sl : Slice) : Slice * result Error () :=
  match active sl with
  | None => (sl, Err NoChangeScope)
  | Some _ => (mkSlice (Some (mkScope change 0 [])) None, Ok ())
  end.

Definition next_operation (sl : Slice) : Slice * result Error OpId :=
  match active sl with
  | None => (sl, Err NoChangeScope)
  | Some scope =>
      let ordinal := cs_next_ordinal scope in
      if u32_max <? ordinal + 1 then (sl, Err OperationOverflow)
      else (mkSlice (Some (mkScope (cs_change scope) (ordinal + 1) (cs_operations scope))) (completed sl),
            Ok (ChangeId_operation (cs_change scope) ordinal))
  end.

Definition record_operation (field : Hash) (id : OpId) (payload : bytes) (sl : Slice) : Slice * result Error () :=
  match active sl with
  | None => (sl, Err NoChangeScope)
  | Some scope =>
      if decide (oi_change id ≠ cs_change scope) then (sl, Err ChangeMismatch)
      else (mkSlice (Some (mkScope (cs_change scope) (cs_next_ordinal scope)
                             (cs_operations scope ++ [mkPending field id payload]))) (completed sl), Ok ())
  end.

Record CrdtDispatchV2 := mkDispatch { cd_change : bytes; cd_ordinal : N }.
Record CrdtOperationV2 := mkCrdtOperation {
  co_actor : ActorId;
  co_dispatch_ordinal : N;
  co_field : Hash;
  co_ordinal : N;
  co_id : bytes;
  co_payload : bytes;
}.

Definition reported (actor : ActorId) (dispatch : CrdtDispatchV2) (o : PendingOperation) : CrdtOperationV2 :=
  mkCrdtOperation actor (cd_ordinal dispatch) (po_field o) (oi_ordinal (po_id o))
    (operation (cd_change dispatch) actor (cd_ordinal dispatch) (po_field o) (oi_ordinal (po_id o))) (po_payload o).

Definition take_operations (actor : ActorId) (dispatch : CrdtDispatchV2) (sl : Slice)
    : Slice * result Error (list CrdtOperationV2) :=
  let sl' := mkSlice (active sl) None in
  match completed sl with
  | None => (sl', Err NoCompletedChange)
  | Some done =>
      if decide (cc_change done ≠ for_dispatch (cd_change dispatch) actor (cd_ordinal dispatch)) then (sl', Err ChangeMismatch)
      else
        let operations := reported actor dispatch <$> cc_operations done in
        if decide (N.of_nat <$> seq 0 (length operations) = co_ordinal <$> operations) then (sl', Ok operations)
        else (sl', Err ChangeMismatch)
  end.

(** ** Methods *)

Definition op (F A : Type) : Type := Slice → F → Slice * F * result Error A.

#[export] Instance op_ret F : MRet (op F) := λ _ x sl f, (sl, f, Ok x).
#[export] Instance op_bind F : MBind (op F) := λ _ _ k o sl f,
  let '(sl, f, r) := o sl f in match r with Ok x => k x sl f | Err e => (sl, f, Err e) end.

Definition scoped {F A} (g : Slice → Slice * result Error A) : op F A := λ sl f, let '(sl, r) := g sl in (sl, f, r).
Definition update {F A} (g : F → F * result Error A) : op F A := λ sl f, let '(f, r) := g f in (sl, f, r).
Definition self {F} : op F F := λ sl f, (sl, f, Ok f).
Definition fail {F A} (e : Error) : op F A := λ sl f, (sl, f, Err e).

(** [let mut staged = self.clone(); …; *self = staged;] on a part of the field. *)
Definition staged {F G A} (get : F → G) (put : G → F → F) (o : op G A) : op F A := λ sl f,
  let '(sl, g, r) := o sl (get f) in match r with Ok x => (sl, put g f, Ok x) | Err e => (sl, f, Err e) end.

(** The scope ends when the closure has returned, whatever it returned. *)
Definition with_change {F A} (change : ChangeId) (f : op F A) : op F A := λ sl s,
  match begin_change change sl with
  | (sl, Err e) => (sl, s, Err e)
  | (sl, Ok _) =>
      let '(sl, s, r) := f sl s in
      (end_change (match r with Ok _ => complete_change sl | Err _ => sl end), s, r)
  end.

(** ** Payloads of operations *)

Definition operation_payload (tag : N) (parts : list bytes) : bytes :=
  byte_of tag :: to_le_bytes 4 (N.of_nat (length parts)) ++ (parts ≫= λ part, to_le_bytes 8 (blen part) ++ part).

Definition op_id_bytes (id : OpId) : bytes := oi_change id ++ to_le_bytes 4 (oi_ordinal id).
Definition encode_op_ids (ids : list OpId) : bytes := to_le_bytes 4 (N.of_nat (length ids)) ++ (ids ≫= op_id_bytes).
Definition encode_optional_op_id (id : option OpId) : bytes :=
  match id with Some id => Byte.x01 :: op_id_bytes id | None => [Byte.x00] end.

(** [i128::to_le_bytes] *)
Definition i128_bytes (z : Z) : bytes := to_le_bytes 16 (Z.to_N (z `mod` 2 ^ 128)).

(** [char::encode_utf8] *)
Definition encode_utf8 (c : N) : bytes :=
  let tail n := byte_of (0x80 + n `mod` 64) in
  if c <? 0x80 then [byte_of c]
  else if c <? 0x800 then [byte_of (0xC0 + c / 64); tail c]
  else if c <? 0x10000 then [byte_of (0xE0 + c / 4096); tail (c / 64); tail c]
  else [byte_of (0xF0 + c / 262144); tail (c / 4096); tail (c / 64); tail c].

(** ** Merging

    [merge] of every type first looks for an identifier that both sides have with
    different contents, in the order of identifiers, and then takes the union. *)

Definition divergent {A} `{!EqDecision A} (mine other : gmap OpId A) : option OpId :=
  head (filter (λ id, is_Some (mine !! id) ∧ mine !! id ≠ other !! id) (sorted_keys ord_le other)).

(** [BTreeMap::extend] *)
Definition extend {A} (mine other : gmap OpId A) : gmap OpId A := other ∪ mine.

(** ** Registers *)

Record Value (T : Type) := mkValue { v_values : gmap OpId T; v_removed : gset OpId; v_field : Hash }.
Arguments mkValue {T} _ _ _.
Arguments v_values {T} _.
Arguments v_removed {T} _.
Arguments v_field {T} _.

Section value.
Context {T : Type} `{!EqDecision T}.
Implicit Types (v : Value T) (id : OpId) (value : T).

Definition Value_default : Value T := mkValue ∅ ∅ ZERO.
Definition Value_init (actor field : bytes) v : Value T := mkValue (v_values v) (v_removed v) (field_tag actor field).
Definition Value_new_with_id id value : Value T := mkValue {[id := value]} ∅ ZERO.

(** The identifiers that are not removed, in order. *)
Definition Value_observed v : list OpId := filter (λ id, id ∉ v_removed v) (sorted_keys ord_le (v_values v)).
Definition Value_visible_id v : option OpId :=
  head (filter (λ id, id ∉ v_removed v) (reverse (sorted_keys ord_le (v_values v)))).
Definition Value_get v : option T := Value_visible_id v ≫= λ id, v_values v !! id.
Definition Value_versions v : list (OpId * T) := omap (λ id, (id,.) <$> v_values v !! id) (Value_observed v).
Definition Value_conflicts v : list T :=
  omap (λ id, if decide (Some id ≠ Value_visible_id v) then v_values v !! id else None) (Value_observed v).
Definition Value_is_empty v : bool := bool_decide (Value_visible_id v = None).
Definition Value_remove_observed v : Value T := mkValue (v_values v) (v_removed v ∪ dom (v_values v)) (v_field v).

Definition Value_set_with_id id value v : Value T * result Error () :=
  match v_values v !! id with
  | Some existing => (v, if decide (existing = value) then Ok () else Err (DivergentOperation id))
  | None =>
      let removed := if decide (id ∉ v_removed v) then v_removed v ∪ list_to_set (Value_observed v) else v_removed v in
      (mkValue (<[id := value]> (v_values v)) removed (v_field v), Ok ())
  end.

Definition Value_set `{!RowCodec T} value : op (Value T) () :=
  id ← scoped next_operation;
  v ← self;
  update (Value_set_with_id id value);;
  scoped (record_operation (v_field v) id (operation_payload 0 [encode_op_ids (Value_observed v); row_encode value])).

Definition Value_merge v (other : Value T) : Value T * result Error () :=
  match divergent (v_values v) (v_values other) with
  | Some id => (v, Err (DivergentOperation id))
  | None => (mkValue (v_values v ∪ v_values other) (v_removed v ∪ v_removed other) (v_field v), Ok ())
  end.
End value.

(** ** Maps *)

Record Map (K V : Type) `{!RustOrd K} := mkMap {
  m_entries : gmap K (Value V);
  m_operation_keys : gmap OpId K;
  m_field : Hash;
}.
Arguments mkMap {K V _} _ _ _.
Arguments m_entries {K V _} _.
Arguments m_operation_keys {K V _} _.
Arguments m_field {K V _} _.

Section map.
Context {K V : Type} `{!RustOrd K} `{!EqDecision V}.
Implicit Types (m : Map K V) (id : OpId) (key : K) (value : V).

Definition Map_default : Map K V := mkMap ∅ ∅ ZERO.
Definition Map_init (actor field : bytes) m : Map K V := mkMap (m_entries m) (m_operation_keys m) (field_tag actor field).

Definition Map_insert_with_id id key value m : Map K V * result Error () :=
  if match m_operation_keys m !! id with Some existing_key => bool_decide (existing_key ≠ key) | None => false end
  then (m, Err (DivergentOperation id)) else
  match m_entries m !! key with
  | Some entry =>
      match Value_set_with_id id value entry with
      | (entry, Ok _) => (mkMap (<[key := entry]> (m_entries m)) (<[id := key]> (m_operation_keys m)) (m_field m), Ok ())
      | (entry, Err e) => (mkMap (<[key := entry]> (m_entries m)) (m_operation_keys m) (m_field m), Err e)
      end
  | None => (mkMap (<[key := Value_new_with_id id value]> (m_entries m)) (<[id := key]> (m_operation_keys m)) (m_field m), Ok ())
  end.

Definition Map_insert `{!RowCodec K, !RowCodec V} key value : op (Map K V) () :=
  id ← scoped next_operation;
  m ← self;
  let observed := encode_op_ids (match m_entries m !! key with Some entry => (Value_versions entry).*1 | None => [] end) in
  update (Map_insert_with_id id key value);;
  scoped (record_operation (m_field m) id (operation_payload 1 [observed; row_encode key; row_encode value])).

Definition Map_get m key : option V := m_entries m !! key ≫= Value_get.
Definition Map_conflicts m key : list V := match m_entries m !! key with Some entry => Value_conflicts entry | None => [] end.

Definition Map_remove `{!RowCodec K} key : op (Map K V) bool :=
  m ← self;
  match m_entries m !! key with
  | None => mret false
  | Some value =>
      let observed_ids := (Value_versions value).*1 in
      if (length observed_ids =? 0)%nat then mret false else
      id ← scoped next_operation;
      update (λ m, (mkMap (<[key := Value_remove_observed value]> (m_entries m)) (m_operation_keys m) (m_field m), Ok ()));;
      scoped (record_operation (m_field m) id (operation_payload 2 [encode_op_ids observed_ids; row_encode key]));;
      mret true
  end.

Definition Map_iter m : list (K * V) :=
  omap (λ key, (key,.) <$> Map_get m key) (sorted_keys ord_le (m_entries m)).
Definition Map_len m : nat := length (Map_iter m).
Definition Map_is_empty m : bool := (Map_len m =? 0)%nat.

(** The loop over the other side's entries. *)
Fixpoint merge_entries (others : list (K * Value V)) (entries : gmap K (Value V)) : result Error (gmap K (Value V)) :=
  match others with
  | [] => Ok entries
  | (key, value) :: others =>
      match entries !! key with
      | None => merge_entries others (<[key := value]> entries)
      | Some entry =>
          match Value_merge entry value with
          | (entry, Ok _) => merge_entries others (<[key := entry]> entries)
          | (_, Err e) => Err e
          end
      end
  end.

Definition Map_merge m (other : Map K V) : Map K V * result Error () :=
  match divergent (m_operation_keys m) (m_operation_keys other) with
  | Some id => (m, Err (DivergentOperation id))
  | None =>
      let others := omap (λ key, (key,.) <$> m_entries other !! key) (sorted_keys ord_le (m_entries other)) in
      match merge_entries others (m_entries m) with
      | Err e => (m, Err e)
      | Ok entries => (mkMap entries (extend (m_operation_keys m) (m_operation_keys other)) (m_field m), Ok ())
      end
  end.
End map.

(** ** Sets *)

Record CSet (T : Type) := mkCSet { s_operations : gmap OpId T; s_removed : gset OpId; s_field : Hash }.
Arguments mkCSet {T} _ _ _.
Arguments s_operations {T} _.
Arguments s_removed {T} _.
Arguments s_field {T} _.

Section set.
Context {T : Type} `{!RustOrd T}.
Implicit Types (s : CSet T) (id : OpId) (value : T).

Definition Set_default : CSet T := mkCSet ∅ ∅ ZERO.
Definition Set_init (actor field : bytes) s : CSet T := mkCSet (s_operations s) (s_removed s) (field_tag actor field).

Definition Set_insert_with_id id value s : CSet T * result Error bool :=
  match s_operations s !! id with
  | Some existing => (s, if decide (existing = value) then Ok false else Err (DivergentOperation id))
  | None => (mkCSet (<[id := value]> (s_operations s)) (s_removed s) (s_field s), Ok true)
  end.

Definition Set_insert `{!RowCodec T} value : op (CSet T) bool :=
  id ← scoped next_operation;
  inserted ← update (Set_insert_with_id id value);
  s ← self;
  scoped (record_operation (s_field s) id (operation_payload 3 [row_encode value]));;
  mret inserted.

(** The identifiers under which a value is in the set. *)
Definition Set_observed s value : list OpId :=
  filter (λ id, id ∉ s_removed s ∧ s_operations s !! id = Some value) (sorted_keys ord_le (s_operations s)).

Definition Set_remove_observed value s : CSet T * bool :=
  let observed := Set_observed s value in
  (mkCSet (s_operations s) (s_removed s ∪ list_to_set observed) (s_field s), negb (length observed =? 0)%nat).

Definition Set_remove `{!RowCodec T} value : op (CSet T) bool :=
  s ← self;
  let observed := Set_observed s value in
  if (length observed =? 0)%nat then mret false else
  id ← scoped next_operation;
  update (λ s, (mkCSet (s_operations s) (s_removed s ∪ list_to_set observed) (s_field s), Ok ()));;
  scoped (record_operation (s_field s) id (operation_payload 4 [encode_op_ids observed; row_encode value]));;
  mret true.

Definition Set_contains s value : bool := negb (length (Set_observed s value) =? 0)%nat.
Definition Set_iter s : list T :=
  sorted_elements ord_le (list_to_set
    (omap (λ id, s_operations s !! id) (filter (λ id, id ∉ s_removed s) (sorted_keys ord_le (s_operations s)))) : gset T).
Definition Set_len s : nat := length (Set_iter s).
Definition Set_is_empty s : bool := (Set_len s =? 0)%nat.

Definition Set_merge s (other : CSet T) : CSet T * result Error () :=
  match divergent (s_operations s) (s_operations other) with
  | Some id => (s, Err (DivergentOperation id))
  | None => (mkCSet (extend (s_operations s) (s_operations other)) (s_removed s ∪ s_removed other) (s_field s), Ok ())
  end.
End set.

(** ** Lists *)

Record ListElement (T : Type) := mkElement { le_after : option OpId; le_logical_time : N; le_value : T }.
Arguments mkElement {T} _ _ _.
Arguments le_after {T} _.
Arguments le_logical_time {T} _.
Arguments le_value {T} _.

#[export] Instance ListElement_eq_dec {T} `{!EqDecision T} : EqDecision (ListElement T).
Proof. solve_decision. Defined.

Record CList (T : Type) := mkCList { l_elements : gmap OpId (ListElement T); l_removed : gset OpId; l_field : Hash }.
Arguments mkCList {T} _ _ _.
Arguments l_elements {T} _.
Arguments l_removed {T} _.
Arguments l_field {T} _.

Section list.
Context {T : Type} `{!EqDecision T}.
Implicit Types (l : CList T) (id : OpId) (value : T) (es : gmap OpId (ListElement T)).

Definition List_default : CList T := mkCList ∅ ∅ ZERO.
Definition List_init (actor field : bytes) l : CList T := mkCList (l_elements l) (l_removed l) (field_tag actor field).

(** *** The order of the elements *)

Definition time_of es id : N := default 0 (le_logical_time <$> es !! id).

(** Later insertions at an anchor come first. *)
Definition sibling_le es (left right : OpId) : Prop :=
  time_of es right < time_of es left ∨ time_of es right = time_of es left ∧ OpId_le left right.

#[export] Instance sibling_le_dec es : RelDecision (sibling_le es).
Proof. intros a b. unfold sibling_le. apply _. Defined.

Definition children_of es (parent : option OpId) : list OpId :=
  merge_sort (sibling_le es) (filter (λ id, (le_after <$> es !! id) = Some parent) (sorted_keys ord_le es)).

Definition descend es (id : OpId) (_ : gset OpId) (pending result : list OpId) : flow (list OpId * list OpId) Empty_set :=
  Continue (children_of es (Some id) ++ pending, result ++ [id]).

Definition append_descendants es (parent : option OpId) (visited : gset OpId) (result : list OpId)
    : option (gset OpId * list OpId) :=
  match worklist (descend es) (S (length (children_of es parent) + size es)) (children_of es parent) visited result with
  | Some (Continue acc) => Some acc
  | _ => None
  end.

(** Elements whose anchors are missing or circular come last. *)
Fixpoint append_detached es (ids : list OpId) (visited : gset OpId) (result : list OpId) : option (list OpId) :=
  match ids with
  | [] => Some result
  | id :: ids =>
      if decide (id ∈ visited) then append_detached es ids visited result else
      '(visited, result) ← append_descendants es (Some id) ({[id]} ∪ visited) (result ++ [id]);
      append_detached es ids visited result
  end.

Definition ordered_ids es : option (list OpId) :=
  '(visited, result) ← append_descendants es None ∅ [];
  append_detached es (sorted_keys ord_le es) visited result.

Definition List_ordered_ids l : list OpId := default [] (ordered_ids (l_elements l)).
Definition List_visible_ids l : list OpId := filter (λ id, id ∉ l_removed l) (List_ordered_ids l).

(** *** Editing *)

Definition max_time es : N := map_fold (λ _ e t, N.max (le_logical_time e) t) 0 es.

Definition List_insert_after_with_id id (after : option OpId) value l : CList T * result Error () :=
  match l_elements l !! id with
  | Some existing =>
      (l, if decide (le_after existing = after ∧ le_value existing = value) then Ok () else Err (DivergentOperation id))
  | None =>
      match checked_add (max_time (l_elements l)) 1 with
      | None => (l, Err LogicalClockOverflow)
      | Some logical_time => (mkCList (<[id := mkElement after logical_time value]> (l_elements l)) (l_removed l) (l_field l), Ok ())
      end
  end.

Definition List_push_with_id id value l : CList T * result Error () :=
  List_insert_after_with_id id (last (List_ordered_ids l)) value l.

Definition List_push `{!RowCodec T} value : op (CList T) () :=
  id ← scoped next_operation;
  l ← self;
  let after := last (List_ordered_ids l) in
  update (List_insert_after_with_id id after value);;
  scoped (record_operation (l_field l) id (operation_payload 5 [encode_optional_op_id after; row_encode value])).

(** [index.checked_sub(1).and_then(|i| visible.get(i).copied())] *)
Definition before (visible : list OpId) (index : nat) : option OpId :=
  match index with O => None | Datatypes.S i => visible !! i end.

Definition List_insert_with_id (index : nat) id value l : CList T * result Error () :=
  let visible := List_visible_ids l in
  if (length visible <? index)%nat then (l, Err IndexOutOfBounds)
  else List_insert_after_with_id id (before visible index) value l.

Definition List_insert `{!RowCodec T} (index : nat) value : op (CList T) () :=
  l ← self;
  let visible := List_visible_ids l in
  if (length visible <? index)%nat then fail IndexOutOfBounds else
  id ← scoped next_operation;
  let after := before visible index in
  update (List_insert_after_with_id id after value);;
  scoped (record_operation (l_field l) id (operation_payload 5 [encode_optional_op_id after; row_encode value])).

Definition List_remove (index : nat) : op (CList T) T :=
  l ← self;
  match List_visible_ids l !! index with
  | None => fail IndexOutOfBounds
  | Some id =>
      removal ← scoped next_operation;
      match l_elements l !! id with
      | None => fail IndexOutOfBounds
      | Some element =>
          scoped (record_operation (l_field l) removal (operation_payload 6 [encode_op_ids [id]]));;
          update (λ l, (mkCList (l_elements l) ({[id]} ∪ l_removed l) (l_field l), Ok ()));;
          mret (le_value element)
      end
  end.

Definition List_get l (index : nat) : option T := List_visible_ids l !! index ≫= λ id, le_value <$> l_elements l !! id.
Definition List_iter l : list T := omap (λ id, le_value <$> l_elements l !! id) (List_visible_ids l).
Definition List_len l : nat := length (List_visible_ids l).
Definition List_is_empty l : bool := (List_len l =? 0)%nat.

Definition List_merge l (other : CList T) : CList T * result Error () :=
  match divergent (l_elements l) (l_elements other) with
  | Some id => (l, Err (DivergentOperation id))
  | None => (mkCList (extend (l_elements l) (l_elements other)) (l_removed l ∪ l_removed other) (l_field l), Ok ())
  end.
End list.

(** ** Text *)

Record Text := mkText { t_chars : CList N; t_field : Hash }.

Definition Text_default : Text := mkText List_default ZERO.
Definition Text_init (actor field : bytes) (t : Text) : Text := mkText (t_chars t) (field_tag actor field).
Definition with_chars (chars : CList N) (t : Text) : Text := mkText chars (t_field t).

Definition Text_len (t : Text) : nat := List_len (t_chars t).
Definition Text_is_empty (t : Text) : bool := List_is_empty (t_chars t).
Definition Text_as_string (t : Text) : list N := List_iter (t_chars t).

(** The loop over the characters; [index] is [index + offset]. *)
Fixpoint insert_chars (field : Hash) (index : nat) (text : list N) : op (CList N) () :=
  match text with
  | [] => mret ()
  | ch :: text =>
      l ← self;
      let after := before (List_visible_ids l) index in
      id ← scoped next_operation;
      update (List_insert_after_with_id id after ch);;
      scoped (record_operation field id (operation_payload 7 [encode_optional_op_id after; encode_utf8 ch]));;
      insert_chars field (S index) text
  end.

Definition Text_insert (index : nat) (text : list N) : op Text () :=
  t ← self;
  if (Text_len t <? index)%nat then fail IndexOutOfBounds
  else staged t_chars with_chars (insert_chars (t_field t) index text).

Fixpoint insert_chars_with_change (change : ChangeId) (index offset : nat) (text : list N) (l : CList N) : result Error (CList N) :=
  match text with
  | [] => Ok l
  | ch :: text =>
      match List_insert_with_id (index + offset) (ChangeId_operation change (N.of_nat offset `mod` 2 ^ 32)) ch l with
      | (l, Ok _) => insert_chars_with_change change index (S offset) text l
      | (_, Err e) => Err e
      end
  end.

Definition Text_insert_with_change (index : nat) (change : ChangeId) (text : list N) (t : Text) : Text * result Error () :=
  if (Text_len t <? index)%nat then (t, Err IndexOutOfBounds) else
  match insert_chars_with_change change index 0 text (t_chars t) with
  | Ok chars => (with_chars chars t, Ok ())
  | Err e => (t, Err e)
  end.

Fixpoint delete_chars (field : Hash) (index count : nat) : op (CList N) () :=
  match count with
  | O => mret ()
  | S count =>
      l ← self;
      match List_visible_ids l !! index with
      | None => fail IndexOutOfBounds
      | Some target =>
          removal ← scoped next_operation;
          update (λ l, (mkCList (l_elements l) ({[target]} ∪ l_removed l) (l_field l), Ok ()));;
          scoped (record_operation field removal (operation_payload 8 [encode_op_ids [target]]));;
          delete_chars field index count
      end
  end.

Definition Text_delete (index count : nat) : op Text () :=
  t ← self;
  if (Text_len t <? index + count)%nat then fail IndexOutOfBounds
  else staged t_chars with_chars (delete_chars (t_field t) index count).

Definition Text_merge (t other : Text) : Text * result Error () :=
  let '(chars, r) := List_merge (t_chars t) (t_chars other) in (with_chars chars t, r).

(** ** Counters *)

Record Counter := mkCounter { c_operations : gmap OpId Z; c_field : Hash }.

Definition Counter_default : Counter := mkCounter ∅ ZERO.
Definition Counter_init (actor field : bytes) (c : Counter) : Counter := mkCounter (c_operations c) (field_tag actor field).

Definition Counter_apply (id : OpId) (amount : Z) (c : Counter) : Counter * result Error () :=
  match c_operations c !! id with
  | Some existing => (c, if decide (existing = amount) then Ok () else Err (DivergentOperation id))
  | None => (mkCounter (<[id := amount]> (c_operations c)) (c_field c), Ok ())
  end.

Definition increment_with_id (id : OpId) (amount : N) : Counter → Counter * result Error () := Counter_apply id (Z.of_N amount).
Definition decrement_with_id (id : OpId) (amount : N) : Counter → Counter * result Error () := Counter_apply id (- Z.of_N amount).
Definition add_with_id (id : OpId) (delta : Z) : Counter → Counter * result Error () := Counter_apply id delta.

(** What [increment], [decrement] and [add] share. *)
Definition counted (change : OpId → Counter → Counter * result Error ()) (amount : Z) : op Counter () :=
  id ← scoped next_operation;
  update (change id);;
  c ← self;
  scoped (record_operation (c_field c) id (operation_payload 9 [i128_bytes amount])).

Definition Counter_increment (amount : N) : op Counter () := counted (λ id, increment_with_id id amount) (Z.of_N amount).
Definition Counter_decrement (amount : N) : op Counter () := counted (λ id, decrement_with_id id amount) (- Z.of_N amount).
Definition Counter_add (delta : Z) : op Counter () := counted (λ id, add_with_id id delta) delta.

Definition u128_max : N := 2 ^ 128 - 1.
Definition i64_max : Z := 2 ^ 63 - 1.

Definition tally (acc : N * N) (amount : Z) : N * N :=
  let '(positive, negative) := acc in
  if bool_decide (0 ≤ amount)%Z then (saturating_add u128_max positive (Z.to_N amount), negative)
  else (positive, saturating_add u128_max negative (Z.abs_N amount)).

Definition Counter_value (c : Counter) : Z :=
  let '(positive, negative) :=
    foldl tally (0, 0) (omap (λ id, c_operations c !! id) (sorted_keys ord_le (c_operations c))) in
  if negative <=? positive then Z.min (Z.of_N (positive - negative)) i64_max
  else let magnitude := Z.of_N (negative - positive) in
       if bool_decide (i64_max + 1 ≤ magnitude)%Z then (- 2 ^ 63)%Z else (- magnitude)%Z.

Definition Counter_merge (c other : Counter) : Counter * result Error () :=
  match divergent (c_operations c) (c_operations other) with
  | Some id => (c, Err (DivergentOperation id))
  | None => (mkCounter (extend (c_operations c) (c_operations other)) (c_field c), Ok ())
  end.
