(* ===== verification/CrdtFieldLaws.v ===== *)
(** * vos: replicated fields against their history

    The operations of all replicas form a history: each identifier has the operation
    it stands for and the identifiers its replica had seen.  A type of field is an
    instance of [Replicated]: [rp_denote tag h X] is the field of a replica that has
    seen [X], read off the history alone, and [ReplicatedLaws] says that the methods
    and [merge] compute it.

    [reachable] are the states that ever exist: a method may be called on any of
    them, in any slice whose identifiers are unused, and any two may be merged, which
    covers delayed and repeated messages and replicas restored from old states.
    [reachable_denote]: each of them is what the history says, so that states that
    have seen the same operations are equal. *)

From stdpp Require Import strings.
From S2P Require Import Prelude Bytes V2Wire V2Identity Overlay CrdtFields.

Local Open Scope N_scope.

Record event (EV : Type) := mkEvent { ev_kind : EV; ev_past : gset OpId }.
Arguments mkEvent {EV} _ _.
Arguments ev_kind {EV} _.
Arguments ev_past {EV} _.
Abbreviation history EV := (gmap OpId (event EV)).

(** ** Divergence *)

Lemma divergent_None {A} `{!EqDecision A} (m o : gmap OpId A) :
  divergent m o = None ↔ ∀ i a b, m !! i = Some a → o !! i = Some b → a = b.
Proof.
  unfold divergent. set (P := λ i, _). split.
  - intros Hn i a b Ha Hb. destruct (decide (a = b)) as [|Hne]; [done|].
    assert (i ∈ filter P (sorted_keys ord_le o)) as Hin.
    { apply list_elem_of_filter. split; [split; [by eexists|congruence]|]. apply elem_of_sorted_keys. eauto. }
    destruct (filter P _); [by apply not_elem_of_nil in Hin|done].
  - intros Hag. destruct (filter P _) as [|i l] eqn:Hf; [done|]. assert (i ∈ filter P (sorted_keys ord_le o)) as Hin by (rewrite Hf; left).
    apply list_elem_of_filter in Hin as [[[a Ha] Hne] [b Hb]%elem_of_sorted_keys]. destruct Hne. rewrite Ha, Hb. f_equal. by eapply Hag.
Qed.

Section history.
Context {EV : Type}.
Implicit Types (h : history EV) (X Y : gset OpId) (i : OpId) (e : event EV).

(** What a replica can have seen. *)
Definition closed h X : Prop := X ⊆ dom h ∧ ∀ i e, i ∈ X → h !! i = Some e → ev_past e ⊆ X.

Lemma seen_nothing h : closed h ∅.
Proof. split; set_solver. Qed.
Lemma seen_both h X Y : closed h X → closed h Y → closed h (X ∪ Y).
Proof. intros [HX1 HX2] [HY1 HY2]. split; [set_solver|]. intros i e [Hi|Hi]%elem_of_union He; [apply HX2 in He|apply HY2 in He]; set_solver. Qed.
Lemma seen_mono h h' X : h ⊆ h' → closed h X → closed h' X.
Proof.
  intros Hh [H1 H2]. split; [by trans (dom h); [|apply subseteq_dom]|]. intros i e Hi He. apply (H2 i); [done|].
  destruct (elem_of_dom h i) as [Hd _]. destruct Hd as [e' He']; [set_solver|]. by simplify_map_eq.
Qed.

(** The contents that the operations in [X] have under [g]. *)
Definition picked {A} (g : EV → option A) h X : gmap OpId A :=
  omap (λ e, g (ev_kind e)) (filter (λ p, p.1 ∈ X) h).

(** The identifiers that the operations in [X] take out; [past_only]: what an
    operation takes out depends on what it had seen. *)
Definition gathered (g : history EV → event EV → gset OpId) h X : gset OpId :=
  ⋃ (g h <$> (map_to_list (filter (λ p, p.1 ∈ X) h)).*2).

Definition past_only (g : history EV → event EV → gset OpId) : Prop :=
  ∀ h h' e, h ⊆ h' → ev_past e ⊆ dom h → g h' e = g h e.

Lemma lookup_picked {A} (g : EV → option A) h X i :
  picked g h X !! i = if decide (i ∈ X) then e ← h !! i; g (ev_kind e) else None.
Proof.
  unfold picked. rewrite lookup_omap. destruct (decide (i ∈ X)) as [Hi|Hi].
  - destruct (h !! i) as [e|] eqn:He.
    + by erewrite map_lookup_filter_Some_2.
    + rewrite map_lookup_filter_None_2; [done|by left].
  - rewrite map_lookup_filter_None_2; [done|right; naive_solver].
Qed.

Lemma picked_Some {A} (g : EV → option A) h X i a :
  picked g h X !! i = Some a ↔ ∃ e, i ∈ X ∧ h !! i = Some e ∧ g (ev_kind e) = Some a.
Proof. rewrite lookup_picked. destruct (decide (i ∈ X)); [rewrite bind_Some|]; naive_solver. Qed.

Lemma elem_of_gathered g h X x : x ∈ gathered g h X ↔ ∃ i e, i ∈ X ∧ h !! i = Some e ∧ x ∈ g h e.
Proof.
  unfold gathered. rewrite elem_of_union_list. split.
  - intros (Y & (e & -> & He)%list_elem_of_fmap & Hx). apply list_elem_of_fmap in He as ([i e'] & -> & Hin).
    apply elem_of_map_to_list, map_lookup_filter_Some in Hin. naive_solver.
  - intros (i & e & Hi & He & Hx). exists (g h e). split; [|done]. apply list_elem_of_fmap. exists e. split; [done|].
    apply list_elem_of_fmap. exists (i, e). split; [done|]. by apply elem_of_map_to_list, map_lookup_filter_Some.
Qed.

Lemma picked_mono {A} (g : EV → option A) h h' X : h ⊆ h' → X ⊆ dom h → picked g h' X = picked g h X.
Proof.
  intros Hh HX. apply map_eq. intros i. rewrite !lookup_picked. destruct (decide (i ∈ X)) as [Hi|]; [|done].
  assert (i ∈ dom h) as [e He]%elem_of_dom by set_solver. by rewrite He, (lookup_weaken _ _ _ _ He Hh).
Qed.

Lemma gathered_mono g h h' X : past_only g → h ⊆ h' → closed h X → gathered g h' X = gathered g h X.
Proof.
  intros Hg Hh [HX HXp]. apply set_eq. intros x. rewrite !elem_of_gathered.
  assert (∀ i e, i ∈ X → h !! i = Some e → g h' e = g h e) as Heq.
  { intros i e Hi He. apply Hg; [done|]. etrans; [by eapply HXp|done]. }
  split; intros (i & e & Hi & He & Hx); exists i, e.
  - assert (i ∈ dom h) as [e' He']%elem_of_dom by set_solver. pose proof (lookup_weaken _ _ _ _ He' Hh). simplify_eq.
    split_and!; [done|done|]. by rewrite <- (Heq i).
  - split_and!; [done|by eapply lookup_weaken|]. by rewrite (Heq i).
Qed.

Lemma picked_union {A} (g : EV → option A) h X Y : picked g h X ∪ picked g h Y = picked g h (X ∪ Y).
Proof.
  apply map_eq. intros i. rewrite lookup_union, !lookup_picked.
  destruct (decide (i ∈ X)) as [HX|HX], (decide (i ∈ Y)) as [HY|HY], (decide (i ∈ X ∪ Y)) as [H|H]; try set_solver;
    destruct (e ← h !! i; g (ev_kind e)); done.
Qed.
Lemma gathered_union g h X Y : gathered g h X ∪ gathered g h Y = gathered g h (X ∪ Y).
Proof. apply set_eq. intros x. rewrite elem_of_union, !elem_of_gathered. set_solver. Qed.

(** One more operation. *)
Lemma picked_grow {A} (g : EV → option A) h X i e :
  h !! i = None → X ⊆ dom h →
  picked g (<[i := e]> h) ({[i]} ∪ X) = match g (ev_kind e) with Some a => <[i := a]> (picked g h X) | None => picked g h X end.
Proof.
  intros Hi HX. assert (i ∉ X) as HiX by (intros H; apply HX, elem_of_dom in H as [? ?]; congruence).
  apply map_eq. intros j. rewrite lookup_picked. destruct (decide (j = i)) as [->|Hj].
  - rewrite decide_True by set_solver. rewrite lookup_insert_eq. simpl.
    destruct (g (ev_kind e)) as [a|]; [by rewrite lookup_insert_eq|]. by rewrite lookup_picked, decide_False.
  - rewrite lookup_insert_ne by done. trans (picked g h X !! j); [|by destruct (g (ev_kind e)); [rewrite lookup_insert_ne|]].
    rewrite lookup_picked. destruct (decide (j ∈ X)), (decide (j ∈ {[i]} ∪ X)); try set_solver; done.
Qed.
Lemma gathered_grow g h X i e :
  past_only g → h !! i = None → closed h X → ev_past e ⊆ dom h →
  gathered g (<[i := e]> h) ({[i]} ∪ X) = g h e ∪ gathered g h X.
Proof.
  intros Hg Hi HX He. assert (i ∉ X) as HiX by (intros Hin; apply HX, elem_of_dom in Hin as [? ?]; congruence).
  assert (h ⊆ <[i := e]> h) as Hsub by by apply insert_subseteq.
  rewrite <- gathered_union, (gathered_mono g h _ X) by done. f_equal. rewrite <- (Hg h (<[i := e]> h)) by done.
  apply set_eq. intros x. rewrite elem_of_gathered. split.
  - intros (j & e' & ->%elem_of_singleton & He' & Hx). rewrite lookup_insert_eq in He'. by simplify_eq.
  - intros Hx. exists i, e. rewrite lookup_insert_eq. set_solver.
Qed.

(** An unused identifier is nowhere. *)
Lemma picked_fresh {A} (g : EV → option A) h X i : h !! i = None → picked g h X !! i = None.
Proof. intros Hi. rewrite lookup_picked, Hi. by destruct (decide (i ∈ X)). Qed.
Lemma dom_picked {A} (g : EV → option A) h X : dom (picked g h X) ⊆ dom h.
Proof. intros i. rewrite !elem_of_dom. intros [a (e & _ & He & _)%picked_Some]. eauto. Qed.
Lemma gathered_fresh g h X i : (∀ j e, h !! j = Some e → g h e ⊆ dom h) → h !! i = None → i ∉ gathered g h X.
Proof. intros Hg Hi (j & e & _ & He & Hx)%elem_of_gathered. apply (Hg j e He), elem_of_dom in Hx as [? ?]. congruence. Qed.

(** Contents of one history never diverge. *)
Lemma divergent_picked {A} `{!EqDecision A} (g : EV → option A) h X Y : divergent (picked g h X) (picked g h Y) = None.
Proof. apply divergent_None. intros i a b. rewrite !picked_Some. naive_solver. Qed.
Lemma extend_picked {A} (g : EV → option A) h X Y : extend (picked g h X) (picked g h Y) = picked g h (X ∪ Y).
Proof. unfold extend. rewrite picked_union. f_equal. set_solver. Qed.

(** *** Growing *)

(** The operations [evs] of one slice, each having seen the ones before. *)
Fixpoint grow h X (change : ChangeId) (n : N) (evs : list EV) : history EV * gset OpId :=
  match evs with
  | [] => (h, X)
  | ev :: evs => let i := mkOpId change n in grow (<[i := mkEvent ev X]> h) ({[i]} ∪ X) change (n + 1) evs
  end.

(** Consecutive identifiers. *)
Definition op_ids (change : ChangeId) (n : N) (k : nat) : list OpId := (λ j, mkOpId change (n + N.of_nat j)) <$> seq 0 k.

Lemma op_ids_cons change n k : op_ids change n (S k) = mkOpId change n :: op_ids change (n + 1) k.
Proof.
  unfold op_ids. simpl. f_equal; [f_equal; lia|]. rewrite <- seq_shift, <- list_fmap_compose. apply list_fmap_ext. intros i j _. simpl. f_equal. lia.
Qed.

(** The identifiers that the slice still has to give out are unused. *)
Definition unused_from h (change : ChangeId) (n : N) : Prop := ∀ k, n ≤ k → h !! mkOpId change k = None.
Definition unused h (sl : Slice) : Prop :=
  match active sl with Some sc => unused_from h (cs_change sc) (cs_next_ordinal sc) | None => True end.

Lemma unused_from_insert h change n e : unused_from h change n → unused_from (<[mkOpId change n := e]> h) change (n + 1).
Proof. intros Hu k Hk. rewrite lookup_insert_ne; [apply Hu; lia|]. intros [=]. lia. Qed.

Lemma seen_one_more h X i ev : closed h X → h !! i = None → closed (<[i := mkEvent ev X]> h) ({[i]} ∪ X).
Proof.
  intros [H1 H2] Hi. split; [rewrite dom_insert; set_solver|].
  intros j e Hj. destruct (decide (j = i)) as [->|Hne]; [rewrite lookup_insert_eq; intros [= <-]; simpl; set_solver|].
  rewrite lookup_insert_ne by done. intros He. apply (H2 j) in He; set_solver.
Qed.

Lemma grow_spec h X change n evs :
  closed h X → unused_from h change n →
  let '(h', X') := grow h X change n evs in
  h ⊆ h' ∧ closed h' X' ∧ X' = X ∪ list_to_set (op_ids change n (length evs)) ∧ unused_from h' change (n + N.of_nat (length evs)).
Proof.
  revert h X n. induction evs as [|ev evs IH]; intros h X n HX Hu; cbn [grow length].
  { split_and!; [done|done|set_solver|by rewrite N.add_0_r]. }
  assert (h !! mkOpId change n = None) as Hi by (apply Hu; lia).
  specialize (IH _ _ (n + 1) (seen_one_more h X _ ev HX Hi) (unused_from_insert _ _ _ _ Hu)).
  destruct (grow _ _ _ _ _) as [h' X']. destruct IH as (H1 & H2 & -> & H4). rewrite op_ids_cons. split_and!; [|done|set_solver|].
  - by trans (<[mkOpId change n := mkEvent ev X]> h); [apply insert_subseteq|].
  - intros k Hk. apply H4. lia.
Qed.
End history.

(** ** Replicated fields *)

Class Replicated (F EV Call : Type) := {
  rp_init : Hash → F;
  rp_invoke : Call → op F ();
  rp_merge : F → F → F * result Error ();
  (** The operations that a successful call performs, given the next identifier. *)
  rp_effects : Call → F → ChangeId → N → list EV;
  rp_denote : Hash → history EV → gset OpId → F;
  (** The operations that make sense on a field. *)
  rp_ok : F → EV → Prop;
}.

Section replicated.
Context {F EV Call : Type} `{!Replicated F EV Call}.
Implicit Types (h : history EV) (X Y : gset OpId) (f g : F) (tag : Hash) (c : Call).

Definition wf tag h : Prop :=
  ∀ i e, h !! i = Some e → i ∉ ev_past e ∧ closed h (ev_past e) ∧ rp_ok (rp_denote tag h (ev_past e)) (ev_kind e).

(** Operations that make sense one after the other. *)
Fixpoint grows_ok tag h X (change : ChangeId) (n : N) (evs : list EV) : Prop :=
  match evs with
  | [] => True
  | ev :: evs =>
      let i := mkOpId change n in
      rp_ok (rp_denote tag h X) ev ∧ grows_ok tag (<[i := mkEvent ev X]> h) ({[i]} ∪ X) change (n + 1) evs
  end.

(** The history after a call. *)
Definition performed h X c f (sl : Slice) : history EV * gset OpId :=
  match active sl with
  | Some sc => grow h X (cs_change sc) (cs_next_ordinal sc) (rp_effects c f (cs_change sc) (cs_next_ordinal sc))
  | None => (h, X)
  end.

(** What a successful call leaves in the slice: the records of its operations. *)
Definition recorded tag c f (sl sl' : Slice) : Prop :=
  match active sl with
  | Some sc =>
      let k := length (rp_effects c f (cs_change sc) (cs_next_ordinal sc)) in
      ∃ new, sl' = mkSlice (Some (mkScope (cs_change sc) (cs_next_ordinal sc + N.of_nat k) (cs_operations sc ++ new))) (completed sl) ∧
        po_field <$> new = replicate k tag ∧ po_id <$> new = op_ids (cs_change sc) (cs_next_ordinal sc) k
  | None => sl' = sl
  end.

(** A call on the field that the history describes. *)
Definition invoke_ok tag h X c sl : Prop :=
  let f := rp_denote tag h X in
  match rp_invoke c sl f with
  | (sl', f', Ok _) =>
      let '(h', X') := performed h X c f sl in
      f' = rp_denote tag h' X' ∧ recorded tag c f sl sl' ∧
      match active sl with
      | Some sc => grows_ok tag h X (cs_change sc) (cs_next_ordinal sc) (rp_effects c f (cs_change sc) (cs_next_ordinal sc))
      | None => True
      end
  | (_, f', Err _) => f' = f
  end.

Class ReplicatedLaws := {
  denote_init tag : rp_denote tag ∅ ∅ = rp_init tag;
  denote_mono tag h h' X : h ⊆ h' → X ⊆ dom h → closed h X → rp_denote tag h' X = rp_denote tag h X;
  denote_merge tag h X Y :
    wf tag h → closed h X → closed h Y →
    rp_merge (rp_denote tag h X) (rp_denote tag h Y) = (rp_denote tag h (X ∪ Y), Ok ());
  denote_invoke tag h X c sl : wf tag h → closed h X → unused h sl → invoke_ok tag h X c sl;
}.

Inductive reachable tag : history EV → list (F * gset OpId) → Prop :=
| reach_init : reachable tag ∅ [(rp_init tag, ∅)]
| reach_invoke h S f X c sl sl' f' r h' X' :
    reachable tag h S → (f, X) ∈ S → unused h sl → rp_invoke c sl f = (sl', f', r) →
    (h', X') = match r with Ok _ => performed h X c f sl | Err _ => (h, X) end →
    reachable tag h' ((f', X') :: S)
| reach_merge h S f X g Y f' r :
    reachable tag h S → (f, X) ∈ S → (g, Y) ∈ S → rp_merge f g = (f', r) →
    reachable tag h ((f', match r with Ok _ => X ∪ Y | Err _ => X end) :: S).

Context `{!ReplicatedLaws}.

Lemma wf_insert tag h X i ev :
  wf tag h → closed h X → h !! i = None → rp_ok (rp_denote tag h X) ev → wf tag (<[i := mkEvent ev X]> h).
Proof.
  intros Hwf HX Hi Hok j e. assert (h ⊆ <[i := mkEvent ev X]> h) as Hsub by by apply insert_subseteq.
  destruct (decide (j = i)) as [->|Hne].
  - rewrite lookup_insert_eq. intros [= <-]. simpl. split_and!; [|by eapply seen_mono|].
    + intros HiX. destruct HX as [HX _]. apply HX, elem_of_dom in HiX as [? ?]. congruence.
    + erewrite denote_mono; [done|done|apply HX|done].
  - rewrite lookup_insert_ne by done. intros (H1 & H2 & H3)%Hwf. split_and!; [done|by eapply seen_mono|].
    erewrite denote_mono; [done|done|apply H2|done].
Qed.

Lemma grow_wf tag h X change n evs :
  wf tag h → closed h X → unused_from h change n → grows_ok tag h X change n evs → wf tag (grow h X change n evs).1.
Proof.
  revert h X n. induction evs as [|ev evs IH]; intros h X n Hwf HX Hu; simpl; [done|]. intros [Hok Hoks].
  assert (h !! mkOpId change n = None) as Hi by (apply Hu; lia).
  apply IH; [by apply wf_insert|by apply seen_one_more|by apply unused_from_insert|done].
Qed.

(** Every state that exists is what the history says. *)
Lemma reachable_denote tag h S :
  reachable tag h S → wf tag h ∧ ∀ f X, (f, X) ∈ S → f = rp_denote tag h X ∧ closed h X.
Proof.
  induction 1 as [|h S f X c sl sl' f' r h' X' Hr [Hwf IH] Hin Hu Hi Hg|h S f X g Y f' r Hr [Hwf IH] Hf Hg Hm].
  - split; [done|]. intros f X [= -> ->]%list_elem_of_singleton. split; [by rewrite denote_init|apply seen_nothing].
  - destruct (IH _ _ Hin) as [-> HX]. pose proof (denote_invoke tag h X c sl Hwf HX Hu) as Hl. unfold invoke_ok in Hl. cbv zeta in Hl. rewrite Hi in Hl.
    destruct r as [[]|err]; [|simplify_eq; split; [done|]; intros f X2 [[= -> ->]|]%elem_of_cons; auto].
    rewrite <- Hg in Hl. destruct Hl as (-> & _ & Hoks).
    assert (h ⊆ h' ∧ closed h' X' ∧ wf tag h') as (Hsub & HX' & Hwf').
    { unfold performed, unused in *. destruct (active sl) as [sc|]; [|by simplify_eq].
      pose proof (grow_spec h X _ _ (rp_effects c (rp_denote tag h X) (cs_change sc) (cs_next_ordinal sc)) HX Hu) as Hs.
      pose proof (grow_wf tag h X _ _ _ Hwf HX Hu Hoks) as Hw. rewrite <- Hg in Hs, Hw. by destruct Hs as (?&?&_). }
    split; [done|]. intros f X2 [[= -> ->]|Hin2]%elem_of_cons; [done|]. destruct (IH _ _ Hin2) as [-> HX2].
    split; [|by eapply seen_mono]. symmetry. apply denote_mono; [done|apply HX2|done].
  - destruct (IH _ _ Hf) as [-> HX], (IH _ _ Hg) as [-> HY]. rewrite denote_merge in Hm by done. simplify_eq.
    split; [done|]. intros f Z [[= -> ->]|]%elem_of_cons; [split; [done|by apply seen_both]|auto].
Qed.
End replicated.
Arguments ReplicatedLaws _ _ _ {_}.

(** * vos: registers, sets, maps and counters are replicated fields

    The instances of [Replicated] for [Value], [CSet], [Counter] and [Map]. *)

(** ** Calls *)

(** A method that starts by taking an identifier. *)
Lemma run_next {F A} (k : OpId → op F A) sl f :
  (id ← scoped next_operation; k id) sl f =
  match active sl with
  | None => (sl, f, Err NoChangeScope)
  | Some sc =>
      if u32_max <? cs_next_ordinal sc + 1 then (sl, f, Err OperationOverflow)
      else k (mkOpId (cs_change sc) (cs_next_ordinal sc))
             (mkSlice (Some (mkScope (cs_change sc) (cs_next_ordinal sc + 1) (cs_operations sc))) (completed sl)) f
  end.
Proof.
  unfold mbind, op_bind, scoped, next_operation, ChangeId_operation. destruct (active sl) as [sc|]; [|done]. by destruct (u32_max <? _).
Qed.

Lemma run_self {F A} (k : F → op F A) sl f : (x ← self; k x) sl f = k f sl f.
Proof. done. Qed.

Lemma run_update {F A B} (g : F → F * result Error A) (k : A → op F B) sl f f' x :
  g f = (f', Ok x) → (x ← update g; k x) sl f = k x sl f'.
Proof. intros Hg. unfold mbind, op_bind, update. by rewrite Hg. Qed.

(** Recording in the scope an identifier is from. *)
Lemma run_record {F A} field change k ordinal payload (cont : () → op F A) n ops done f :
  k = mkOpId change ordinal →
  (x ← scoped (record_operation field k payload); cont x) (mkSlice (Some (mkScope change n ops)) done) f =
  cont () (mkSlice (Some (mkScope change n (ops ++ [mkPending field k payload]))) done) f.
Proof. intros ->. unfold mbind, op_bind, scoped, record_operation. simpl. by rewrite decide_False by naive_solver. Qed.

Lemma run_record_last {F} field change k ordinal payload n ops done (f : F) :
  k = mkOpId change ordinal →
  scoped (record_operation field k payload) (mkSlice (Some (mkScope change n ops)) done) f =
  (mkSlice (Some (mkScope change n (ops ++ [mkPending field k payload]))) done, f, Ok ()).
Proof. intros ->. unfold scoped, record_operation. simpl. by rewrite decide_False by naive_solver. Qed.

Lemma run_ret {F A} (x : A) sl (f : F) : (mret x : op F A) sl f = (sl, f, Ok x).
Proof. done. Qed.

(** Dropping the answer of a method. *)
Definition void {F A} (o : op F A) : op F () := o ≫= λ _, mret ().

Section single.
Context {F EV Call : Type} `{!Replicated F EV Call}.
Implicit Types (h : history EV) (X : gset OpId) (f : F).

(** A call that performs one operation: [g id] is the field afterwards. *)
Lemma invoke_single tag h X c sl (ev : EV) (k : OpId → op F ()) (g : OpId → F) :
  let f := rp_denote tag h X in
  unused h sl → (∀ change n, rp_effects c f change n = [ev]) → rp_ok f ev →
  rp_invoke c sl f = (id ← scoped next_operation; k id) sl f →
  (∀ change n ops done, let i := mkOpId change n in let sl := mkSlice (Some (mkScope change (n + 1) ops)) done in
     h !! i = None →
     (∃ payload, k i sl f = (mkSlice (Some (mkScope change (n + 1) (ops ++ [mkPending tag i payload]))) done, g i, Ok ())) ∨
     (∃ e sl', k i sl f = (sl', f, Err e))) →
  (∀ i, h !! i = None → g i = rp_denote tag (<[i := mkEvent ev X]> h) ({[i]} ∪ X)) →
  invoke_ok tag h X c sl.
Proof.
  intros f Hu Hev Hok Hi Hk Hg. unfold invoke_ok, performed, recorded, unused in *. cbv zeta. fold f. rewrite Hi, run_next.
  destruct (active sl) as [sc|]; [|done]. destruct (u32_max <? _); [done|]. rewrite !Hev.
  assert (h !! mkOpId (cs_change sc) (cs_next_ordinal sc) = None) as Hfresh by (apply Hu; lia).
  destruct (Hk _ _ (cs_operations sc) (completed sl) Hfresh) as [[payload ->]|(e & sl' & ->)]; [|done]. simpl.
  split_and!; [by apply Hg| |done|done]. eexists [_]. split_and!; [done|done|]. by rewrite op_ids_cons.
Qed.

Lemma invoke_none tag h X c sl :
  (∀ change n, rp_effects c (rp_denote tag h X) change n = []) → rp_invoke c sl (rp_denote tag h X) = (sl, rp_denote tag h X, Ok ()) →
  invoke_ok tag h X c sl.
Proof.
  intros Hev Hi. unfold invoke_ok, performed, recorded. cbv zeta. rewrite Hi. destruct sl as [[sc|] cc]; simpl; [|done].
  rewrite !Hev. split_and!; [done| |done]. exists []. rewrite app_nil_r. destruct sc. split_and!; [do 3 f_equal; simpl; lia|done|done].
Qed.
End single.

(** ** Registers *)

Section value.
Context {T : Type} `{!EqDecision T} `{!RowCodec T}.

(** An operation is the value that was set. *)
Definition superseded (h : history T) (e : event T) : gset OpId := dom (picked Some h (ev_past e)).

#[export] Instance Value_replicated : Replicated (Value T) T T := {|
  rp_init tag := mkValue ∅ ∅ tag;
  rp_invoke value := Value_set value;
  rp_merge := Value_merge;
  rp_effects value _ _ _ := [value];
  rp_denote tag h X := mkValue (picked Some h X) (gathered superseded h X) tag;
  rp_ok _ _ := True;
|}.

Lemma superseded_past : past_only superseded.
Proof. intros h h' e Hh He. unfold superseded. by rewrite (picked_mono _ h). Qed.

Lemma list_to_set_observed (v : Value T) :
  v_removed v ∪ list_to_set (Value_observed v) = v_removed v ∪ dom (v_values v).
Proof.
  apply set_eq. intros i. rewrite !elem_of_union, elem_of_list_to_set. unfold Value_observed.
  rewrite list_elem_of_filter, elem_of_sorted_keys, elem_of_dom. destruct (decide (i ∈ v_removed v)); naive_solver.
Qed.

Lemma Value_set_fresh id value (v : Value T) :
  v_values v !! id = None → id ∉ v_removed v →
  Value_set_with_id id value v = (mkValue (<[id := value]> (v_values v)) (v_removed v ∪ dom (v_values v)) (v_field v), Ok ()).
Proof. intros Hv Hr. unfold Value_set_with_id. by rewrite Hv, decide_True, list_to_set_observed. Qed.

#[export] Instance Value_laws : ReplicatedLaws (Value T) T T.
Proof.
  split.
  - done.
  - intros tag h h' X Hh HX Hc. simpl. by rewrite (picked_mono _ h), (gathered_mono _ h) by (done || apply superseded_past).
  - intros tag h X Y _ _ _. simpl. unfold Value_merge. simpl. by rewrite divergent_picked, picked_union, gathered_union.
  - intros tag h X value sl _ HX Hu. set (f := rp_denote tag h X).
    assert (∀ i, h !! i = None → v_values f !! i = None ∧ i ∉ v_removed f) as Hfresh.
    { intros i Hi. simpl. split; [by apply picked_fresh|apply gathered_fresh; [|done]]. intros j e _. apply dom_picked. }
    apply invoke_single with (ev := value) (g := λ i, mkValue (<[i := value]> (v_values f)) (v_removed f ∪ dom (v_values f)) tag)
      (k := λ i, v ← self; update (Value_set_with_id i value);;
              scoped (record_operation (v_field v) i (operation_payload 0 [encode_op_ids (Value_observed v); row_encode value]))); [done..| |].
    + intros change n ops done i sl' Hi. subst sl'. destruct (Hfresh i Hi). left. eexists. rewrite run_self. erewrite run_update by by apply Value_set_fresh.
      by eapply run_record_last.
    + intros i Hi. simpl. rewrite picked_grow, gathered_grow by (done || apply superseded_past || apply HX).
      f_equal. set_solver.
Qed.
End value.

(** ** Sets *)

Inductive set_event (T : Type) := SInsert (value : T) | SRemove (value : T).
Arguments SInsert {T} _.
Arguments SRemove {T} _.

Section set.
Context {T : Type} `{!RustOrd T} `{!RowCodec T}.

Definition set_inserted (ev : set_event T) : option T := match ev with SInsert v => Some v | SRemove _ => None end.

(** A removal takes out the insertions of the value that it had seen. *)
Definition set_removes (h : history (set_event T)) (e : event (set_event T)) : gset OpId :=
  match ev_kind e with
  | SInsert _ => ∅
  | SRemove v => dom (filter (λ p, p.2 = v) (picked set_inserted h (ev_past e)))
  end.

#[export] Instance CSet_replicated : Replicated (CSet T) (set_event T) (set_event T) := {|
  rp_init tag := mkCSet ∅ ∅ tag;
  rp_invoke c := match c with SInsert v => void (Set_insert v) | SRemove v => void (Set_remove v) end;
  rp_merge := Set_merge;
  rp_effects c s _ _ := match c with SInsert v => [SInsert v] | SRemove v => if Set_contains s v then [SRemove v] else [] end;
  rp_denote tag h X := mkCSet (picked set_inserted h X) (gathered set_removes h X) tag;
  rp_ok _ _ := True;
|}.

Lemma set_removes_past : past_only set_removes.
Proof. intros h h' e Hh He. unfold set_removes. destruct (ev_kind e); [done|]. by rewrite (picked_mono _ h). Qed.

Lemma list_to_set_set_observed (s : CSet T) v :
  s_removed s ∪ list_to_set (Set_observed s v) = dom (filter (λ p, p.2 = v) (s_operations s)) ∪ s_removed s.
Proof.
  apply set_eq. intros i. rewrite !elem_of_union, elem_of_list_to_set. unfold Set_observed.
  rewrite list_elem_of_filter, elem_of_sorted_keys, elem_of_dom. unfold is_Some. setoid_rewrite map_lookup_filter_Some. simpl.
  destruct (decide (i ∈ s_removed s)); naive_solver.
Qed.

#[export] Instance CSet_laws : ReplicatedLaws (CSet T) (set_event T) (set_event T).
Proof.
  split.
  - done.
  - intros tag h h' X Hh HX Hc. simpl. by rewrite (picked_mono _ h), (gathered_mono _ h) by (done || apply set_removes_past).
  - intros tag h X Y _ _ _. simpl. unfold Set_merge. simpl. by rewrite divergent_picked, extend_picked, gathered_union.
  - intros tag h X c sl _ HX Hu. set (f := rp_denote tag h X).
    assert (∀ i ev, h !! i = None → rp_denote tag (<[i := mkEvent ev X]> h) ({[i]} ∪ X) =
      mkCSet (match set_inserted ev with Some v => <[i := v]> (s_operations f) | None => s_operations f end)
             (set_removes h (mkEvent ev X) ∪ s_removed f) tag) as Hgrow.
    { intros i ev Hi. simpl. by rewrite picked_grow, gathered_grow by (done || apply set_removes_past || apply HX). }
    destruct c as [v|v].
    + apply invoke_single with (ev := SInsert v) (g := λ i, mkCSet (<[i := v]> (s_operations f)) (s_removed f) tag)
        (k := λ i, void (inserted ← update (Set_insert_with_id i v); s ← self;
           scoped (record_operation (s_field s) i (operation_payload 3 [row_encode v]));; mret inserted)); [done..| | |].
      * simpl. unfold void, Set_insert. rewrite run_next. unfold mbind at 1, op_bind at 1. rewrite run_next.
        destruct (active sl); [|done]. by destruct (u32_max <? _).
      * intros change n ops done i sl' Hi. subst sl'. left. eexists. unfold void, mbind at 1, op_bind at 1.
        erewrite run_update by (unfold Set_insert_with_id; simpl; rewrite picked_fresh; done). rewrite run_self.
        by erewrite run_record.
      * intros i Hi. rewrite Hgrow by done. unfold set_removes at 1. simpl. by rewrite (left_id_L ∅ (∪)).
    + destruct (Set_contains f v) eqn:Hin.
      * apply invoke_single with (ev := SRemove v)
          (g := λ i, mkCSet (s_operations f) (s_removed f ∪ list_to_set (Set_observed f v)) tag)
          (k := λ i, void (update (λ s, (mkCSet (s_operations s) (s_removed s ∪ list_to_set (Set_observed f v)) (s_field s), Ok ()));;
             scoped (record_operation (s_field f) i (operation_payload 4 [encode_op_ids (Set_observed f v); row_encode v]));; mret true));
          [done| |done| | |]; fold f.
        -- simpl. by rewrite Hin.
        -- simpl. unfold void, Set_remove. rewrite run_next. unfold mbind at 1, op_bind at 1. rewrite run_self.
           unfold Set_contains in Hin. destruct (length (Set_observed f v) =? 0)%nat; [done|]. rewrite run_next.
           destruct (active sl); [|done]. by destruct (u32_max <? _).
        -- intros change n ops done i sl' Hi. subst sl'. left. eexists. unfold void, mbind at 1, op_bind at 1. erewrite run_update by done.
           by erewrite run_record.
        -- intros i Hi. rewrite Hgrow by done. rewrite list_to_set_set_observed. done.
      * apply invoke_none; fold f; simpl; [by rewrite Hin|]. unfold void, Set_remove, mbind at 1, op_bind at 1. rewrite run_self.
        unfold Set_contains in Hin. by destruct (length (Set_observed f v) =? 0)%nat.
Qed.
End set.

(** ** Counters *)

Inductive counter_call := Increment (amount : N) | Decrement (amount : N) | Add (delta : Z).

Definition call_amount (c : counter_call) : Z :=
  match c with Increment n => Z.of_N n | Decrement n => - Z.of_N n | Add z => z end.

(** An operation is its amount. *)
#[export] Instance Counter_replicated : Replicated Counter Z counter_call := {|
  rp_init tag := mkCounter ∅ tag;
  rp_invoke c := match c with Increment n => Counter_increment n | Decrement n => Counter_decrement n | Add z => Counter_add z end;
  rp_merge := Counter_merge;
  rp_effects c _ _ _ := [call_amount c];
  rp_denote tag h X := mkCounter (picked Some h X) tag;
  rp_ok _ _ := True;
|}.

Lemma Counter_invoke c : rp_invoke c = counted (λ id, Counter_apply id (call_amount c)) (call_amount c).
Proof. by destruct c. Qed.

#[export] Instance Counter_laws : ReplicatedLaws Counter Z counter_call.
Proof.
  split.
  - done.
  - intros tag h h' X Hh HX Hc. simpl. by rewrite (picked_mono _ h).
  - intros tag h X Y _ _ _. simpl. unfold Counter_merge. simpl. by rewrite divergent_picked, extend_picked.
  - intros tag h X c sl _ HX Hu. set (f := rp_denote tag h X).
    apply invoke_single with (ev := call_amount c) (g := λ i, mkCounter (<[i := call_amount c]> (c_operations f)) tag)
      (k := λ i, update (Counter_apply i (call_amount c));; s ← self;
              scoped (record_operation (c_field s) i (operation_payload 9 [i128_bytes (call_amount c)]))); [done..| | |].
    + by rewrite Counter_invoke.
    + intros change n ops done i sl' Hi. subst sl'. left. eexists. erewrite run_update by (unfold Counter_apply; simpl; rewrite picked_fresh; done).
      rewrite run_self. by eapply run_record_last.
    + intros i Hi. simpl. by rewrite picked_grow by (done || apply HX).
Qed.

(** ** Maps *)

Inductive map_event (K V : Type) := MInsert (key : K) (value : V) | MRemove (key : K).
Arguments MInsert {K V} _ _.
Arguments MRemove {K V} _.

Section map.
Context {K V : Type} `{!RustOrd K} `{!EqDecision V} `{!RowCodec K} `{!RowCodec V}.
Abbreviation EV := (map_event K V).

Definition key_of (ev : EV) : option K := match ev with MInsert k _ => Some k | MRemove _ => None end.
Definition inserted_at (key : K) (ev : EV) : option V :=
  match ev with MInsert k v => if decide (k = key) then Some v else None | MRemove _ => None end.
Definition touches (key : K) (ev : EV) : Prop := match ev with MInsert k _ | MRemove k => k = key end.
#[export] Instance touches_dec key ev : Decision (touches key ev).
Proof. unfold touches. destruct ev; apply _. Defined.

(** An operation on a key takes out the insertions under it that it had seen. *)
Definition removes_at (key : K) (h : history EV) (e : event EV) : gset OpId :=
  if decide (touches key (ev_kind e)) then dom (picked (inserted_at key) h (ev_past e)) else ∅.

Definition entry_at (h : history EV) (X : gset OpId) (key : K) : Value V :=
  mkValue (picked (inserted_at key) h X) (gathered (removes_at key) h X) ZERO.
Definition entries_at (h : history EV) (X : gset OpId) : gmap K (Value V) :=
  map_imap (λ key _, Some (entry_at h X key)) (gset_to_gmap () (map_img (picked key_of h X))).

#[export] Instance Map_replicated : Replicated (Map K V) EV EV := {|
  rp_init tag := mkMap ∅ ∅ tag;
  rp_invoke c := match c with MInsert k v => Map_insert k v | MRemove k => void (Map_remove k) end;
  rp_merge := Map_merge;
  rp_effects c m _ _ :=
    match c with
    | MInsert k v => [c]
    | MRemove k => match m_entries m !! k with Some entry => if decide (Value_versions entry = []) then [] else [c] | None => [] end
    end;
  rp_denote tag h X := mkMap (entries_at h X) (picked key_of h X) tag;
  rp_ok _ _ := True;
|}.

Lemma removes_at_past key : past_only (removes_at key).
Proof. intros h h' e Hh He. unfold removes_at. destruct (decide _); [|done]. by rewrite (picked_mono _ h). Qed.

Lemma lookup_entries_at h X key :
  entries_at h X !! key = if decide (key ∈ (map_img (picked key_of h X) : gset K)) then Some (entry_at h X key) else None.
Proof.
  unfold entries_at. rewrite map_lookup_imap. destruct (decide _) as [Hk|Hk].
  - by rewrite lookup_gset_to_gmap, option_guard_True.
  - by rewrite lookup_gset_to_gmap, option_guard_False.
Qed.

Lemma inserted_key key ev v : inserted_at key ev = Some v → key_of ev = Some key.
Proof. destruct ev; simpl; [|done]. destruct (decide _); naive_solver. Qed.

(** Nothing is under a key that was never inserted. *)
Lemma picked_unkeyed h X key : key ∉ (map_img (picked key_of h X) : gset K) → picked (inserted_at key) h X = ∅.
Proof.
  intros Hk. apply map_eq. intros i. rewrite lookup_empty. destruct (picked _ _ _ !! i) as [v|] eqn:Hp; [|done].
  apply picked_Some in Hp as (e & Hi & He & Hv). destruct Hk. apply elem_of_map_img. exists i. apply picked_Some.
  eauto using inserted_key.
Qed.
Lemma gathered_unkeyed h X key :
  closed h X → key ∉ (map_img (picked key_of h X) : gset K) → gathered (removes_at key) h X = ∅.
Proof.
  intros HX Hk. apply set_eq. intros x. split; [|set_solver]. intros (i & e & Hi & He & Hx)%elem_of_gathered.
  unfold removes_at in Hx. destruct (decide _); [|done]. apply elem_of_dom in Hx as [v (e' & Hx & He' & Hv)%picked_Some].
  destruct Hk. apply elem_of_map_img. exists x. apply picked_Some. exists e'. split_and!; [|done|by eapply inserted_key].
  destruct HX as [_ HX]. by eapply HX.
Qed.
Lemma entry_unkeyed h X Y key :
  closed h X → key ∉ (map_img (picked key_of h X) : gset K) → entry_at h (X ∪ Y) key = entry_at h Y key.
Proof.
  intros HX Hk. unfold entry_at. by rewrite <- picked_union, <- gathered_union, picked_unkeyed, gathered_unkeyed, !(left_id_L ∅ (∪)).
Qed.

Lemma entries_mono h h' X : h ⊆ h' → closed h X → entries_at h' X = entries_at h X.
Proof.
  intros Hh HX. apply map_eq. intros key. rewrite !lookup_entries_at. unfold entry_at.
  by rewrite !(picked_mono _ h h' X), (gathered_mono _ h h') by (done || apply removes_at_past || apply HX).
Qed.

(** *** Merging *)

Lemma entry_merge h X Y key : Value_merge (entry_at h X key) (entry_at h Y key) = (entry_at h (X ∪ Y) key, Ok ()).
Proof. unfold Value_merge, entry_at. simpl. by rewrite divergent_picked, picked_union, gathered_union. Qed.

Lemma merge_entries_ok (target : K → Value V) others entries :
  NoDup others.*1 →
  (∀ key value, (key, value) ∈ others →
     match entries !! key with None => value = target key | Some entry => Value_merge entry value = (target key, Ok ()) end) →
  ∃ es, merge_entries others entries = Ok es ∧
    ∀ key, es !! key = if decide (key ∈ others.*1) then Some (target key) else entries !! key.
Proof.
  revert entries. induction others as [|[k v] others IH]; intros entries Hnd Hall; simpl.
  { by exists entries. }
  apply NoDup_cons in Hnd as [Hk Hnd]. pose proof (Hall k v (list_elem_of_here _ _)) as Hkv.
  destruct (IH (<[k := target k]> entries)) as (es & Hes & Hlook); [done| |].
  { intros key value Hin. rewrite lookup_insert_ne; [apply Hall; by right|]. intros <-. destruct Hk.
    apply list_elem_of_fmap. by exists (k, value). }
  exists es. split.
  - destruct (entries !! k); [by rewrite Hkv|by rewrite Hkv].
  - intros key. rewrite Hlook. destruct (decide (key ∈ others.*1)) as [Hin|Hin].
    + by rewrite decide_True by by right.
    + destruct (decide (key = k)) as [->|Hne]; [by rewrite lookup_insert_eq, decide_True by left|].
      rewrite lookup_insert_ne, decide_False by (set_solver || done). done.
Qed.

Lemma Map_merge_denote tag h X Y :
  closed h X → closed h Y →
  Map_merge (rp_denote tag h X) (rp_denote tag h Y) = (rp_denote tag h (X ∪ Y), Ok ()).
Proof.
  intros HX HY. unfold Map_merge. simpl. rewrite divergent_picked.
  set (others := omap _ _).
  assert (others = (λ key, (key, entry_at h Y key)) <$> sorted_keys ord_le (entries_at h Y)) as Hothers.
  { unfold others. assert (∀ key, key ∈ sorted_keys ord_le (entries_at h Y) → entries_at h Y !! key = Some (entry_at h Y key)) as Hl.
    { intros key [? Hk]%elem_of_sorted_keys. rewrite lookup_entries_at in *. by destruct (decide _). }
    induction (sorted_keys ord_le (entries_at h Y)) as [|key l IH]; simpl; [done|].
    rewrite (Hl key) by left. simpl. f_equal. apply IH. intros k Hk. apply Hl. by right. }
  assert (∀ key, key ∈ others.*1 ↔ key ∈ (map_img (picked key_of h Y) : gset K)) as Hkeys.
  { intros key. rewrite Hothers, <- list_fmap_compose. simpl. rewrite list_fmap_id, elem_of_sorted_keys, lookup_entries_at.
    destruct (decide _); [naive_solver|]. split; [by intros [? ?]|done]. }
  destruct (merge_entries_ok (entry_at h (X ∪ Y)) others (entries_at h X)) as (es & -> & Hes).
  - rewrite Hothers, <- list_fmap_compose. simpl. rewrite list_fmap_id. apply NoDup_sorted_keys.
  - intros key value Hin. rewrite Hothers in Hin. apply list_elem_of_fmap in Hin as (? & [= <- ->] & _).
    rewrite lookup_entries_at. destruct (decide _); [apply entry_merge|]. by rewrite entry_unkeyed.
  - f_equal. f_equal; [|apply extend_picked]. apply map_eq. intros key. rewrite Hes, !lookup_entries_at, <- picked_union.
    assert (key ∈ (map_img (picked key_of h X ∪ picked key_of h Y) : gset K) ↔
      key ∈ (map_img (picked key_of h X) : gset K) ∨ key ∈ (map_img (picked key_of h Y) : gset K)) as Himg.
    { rewrite picked_union, !elem_of_map_img. setoid_rewrite picked_Some. set_solver. }
    destruct (decide (key ∈ others.*1)) as [Hin|Hin]; rewrite Hkeys in Hin; [by rewrite decide_True by tauto|].
    destruct (decide (key ∈ (map_img (picked key_of h X) : gset K))); [rewrite decide_True by tauto|by rewrite decide_False by tauto].
    f_equal. rewrite (union_comm_L X Y). symmetry. by apply entry_unkeyed.
Qed.

(** *** Calls *)

Lemma entry_grow h X i ev key :
  closed h X → h !! i = None →
  entry_at (<[i := mkEvent ev X]> h) ({[i]} ∪ X) key =
  let v := entry_at h X key in
  mkValue (match inserted_at key ev with Some value => <[i := value]> (v_values v) | None => v_values v end)
    (if decide (touches key ev) then v_removed v ∪ dom (v_values v) else v_removed v) ZERO.
Proof.
  intros HX Hi. unfold entry_at. simpl. rewrite picked_grow, gathered_grow by (done || apply removes_at_past || apply HX).
  f_equal. unfold removes_at at 1. simpl. destruct (decide _); set_solver.
Qed.

Lemma entries_grow_insert h X i key value :
  closed h X → h !! i = None →
  entries_at (<[i := mkEvent (MInsert key value) X]> h) ({[i]} ∪ X) =
  <[key := mkValue (<[i := value]> (v_values (entry_at h X key)))
             (v_removed (entry_at h X key) ∪ dom (v_values (entry_at h X key))) ZERO]> (entries_at h X).
Proof.
  intros HX Hi. apply map_eq. intros k. rewrite lookup_entries_at, entry_grow, picked_grow by (done || apply HX). simpl.
  assert (∀ k : K, k ∈ (map_img (<[i := key]> (picked key_of h X)) : gset K) ↔
    k = key ∨ k ∈ (map_img (picked key_of h X) : gset K)) as Himg.
  { intros k'. rewrite map_img_insert_notin by by apply picked_fresh. set_solver. }
  destruct (decide (k = key)) as [->|Hne].
  - rewrite lookup_insert_eq, !decide_True by (rewrite ?Himg; naive_solver). done.
  - rewrite lookup_insert_ne, lookup_entries_at by done. rewrite !(decide_False (P := key = k)) by naive_solver.
    destruct (decide (k ∈ (map_img (picked key_of h X) : gset K))); [by rewrite decide_True by naive_solver|].
    by rewrite decide_False by naive_solver.
Qed.

Lemma entries_grow_remove h X i key :
  closed h X → h !! i = None → key ∈ (map_img (picked key_of h X) : gset K) →
  entries_at (<[i := mkEvent (MRemove key) X]> h) ({[i]} ∪ X) =
  <[key := Value_remove_observed (entry_at h X key)]> (entries_at h X).
Proof.
  intros HX Hi Hkey. apply map_eq. intros k. rewrite lookup_entries_at, entry_grow, picked_grow by (done || apply HX). simpl.
  destruct (decide (k = key)) as [->|Hne].
  - rewrite lookup_insert_eq, !decide_True by done. done.
  - rewrite lookup_insert_ne, lookup_entries_at by done. rewrite (decide_False (P := key = k)) by naive_solver. done.
Qed.

Lemma Map_insert_fresh tag h X i key value :
  closed h X → h !! i = None →
  Map_insert_with_id i key value (rp_denote tag h X) =
  (rp_denote tag (<[i := mkEvent (MInsert key value) X]> h) ({[i]} ∪ X), Ok ()).
Proof.
  intros HX Hi. unfold Map_insert_with_id. simpl. rewrite picked_fresh, entries_grow_insert, picked_grow by (done || apply HX). simpl.
  rewrite lookup_entries_at. destruct (decide _) as [Hk|Hk].
  - rewrite Value_set_fresh; [done|by apply picked_fresh|]. apply gathered_fresh; [|done]. intros j e _. unfold removes_at.
    destruct (decide _); [apply dom_picked|set_solver].
  - simpl. rewrite picked_unkeyed, gathered_unkeyed by done. unfold Value_new_with_id. by rewrite dom_empty_L, (left_id_L ∅ (∪)).
Qed.

#[export] Instance Map_laws : ReplicatedLaws (Map K V) EV EV.
Proof.
  split.
  - done.
  - intros tag h h' X Hh HX Hc. simpl. by rewrite (picked_mono _ h), (entries_mono h).
  - intros tag h X Y _ HX HY. by apply Map_merge_denote.
  - intros tag h X c sl _ HX Hu. set (f := rp_denote tag h X). destruct c as [key value|key].
    + apply invoke_single with (ev := MInsert key value)
        (g := λ i, rp_denote tag (<[i := mkEvent (MInsert key value) X]> h) ({[i]} ∪ X))
        (k := λ i, m ← self;
           let observed := encode_op_ids (match m_entries m !! key with Some entry => (Value_versions entry).*1 | None => [] end) in
           update (Map_insert_with_id i key value);;
           scoped (record_operation (m_field m) i (operation_payload 1 [observed; row_encode key; row_encode value]))); [done..| |done].
      intros change n ops done i sl' Hi. subst sl'. left. eexists. rewrite run_self. cbv zeta. erewrite run_update by by apply Map_insert_fresh.
      by eapply run_record_last.
    + set (ids entry := (Value_versions (T := V) entry).*1).
      destruct (m_entries f !! key) as [entry|] eqn:Hk;
        [destruct (decide (Value_versions entry = [])) as [Hnil|Hnil]|].
      * apply invoke_none; fold f; [simpl in *; by rewrite Hk, decide_True|].
        simpl. unfold void, Map_remove, mbind at 1, op_bind at 1. rewrite run_self, Hk. by rewrite Hnil.
      * apply invoke_single with (ev := MRemove key)
          (g := λ i, rp_denote tag (<[i := mkEvent (MRemove key) X]> h) ({[i]} ∪ X))
          (k := λ i, void (update (λ m, (mkMap (<[key := Value_remove_observed entry]> (m_entries m)) (m_operation_keys m) (m_field m), Ok ()));;
             scoped (record_operation (m_field f) i (operation_payload 2 [encode_op_ids (ids entry); row_encode key]));; mret true));
          [done| |done| | |done]; fold f.
        -- simpl in *. rewrite Hk. by rewrite decide_False.
        -- simpl. unfold void, Map_remove. rewrite run_next. unfold mbind at 1, op_bind at 1. rewrite run_self, Hk.
           rewrite length_fmap. destruct (length (Value_versions entry) =? 0)%nat eqn:Hl.
           { by apply Nat.eqb_eq, nil_length_inv in Hl. }
           rewrite run_next. destruct (active sl); [|done]. by destruct (u32_max <? _).
        -- intros change n ops done i sl' Hi. subst sl'. left. eexists. unfold void, mbind at 1, op_bind at 1. erewrite run_update by done.
           erewrite run_record by done. rewrite run_ret. do 2 f_equal. simpl in Hk. rewrite lookup_entries_at in Hk.
           destruct (decide _) as [Hin|]; [|done]. injection Hk as <-. simpl. rewrite entries_grow_remove by done.
           by rewrite picked_grow by (done || apply HX).
      * apply invoke_none; fold f; [simpl in *; by rewrite Hk|].
        simpl. unfold void, Map_remove, mbind at 1, op_bind at 1. by rewrite run_self, Hk.
Qed.
End map.
