(* ===== verification/CrdtList.v ===== *)
(** * vos: the order of a replicated list

    [forest es cs l]: walking down from the siblings [cs] in the elements [es] visits
    [l].  When every element is anchored at an older one ([anchored]), [ordered_ids]
    is that walk from the top and lists every element once; an element inserted with
    the greatest time comes right after its anchor ([forest_insert]); and elements
    never change their relative order as others are added ([forest_sublist]). *)

From S2P Require Import Prelude Worklist Bytes CrdtFields.

Local Open Scope N_scope.

Lemma StronglySorted_weaken {A} (R R' : relation A) (k : list A) :
  (∀ x y, x ∈ k → y ∈ k → R x y → R' x y) → StronglySorted R k → StronglySorted R' k.
Proof.
  intros HR. induction 1 as [|x k Hs IH Hall]; constructor.
  - apply IH. intros a b Ha Hb. apply HR; by right.
  - rewrite Forall_forall in *. intros y Hy. apply HR; [left|by right|auto].
Qed.

Section order.
Context {T : Type}.
Implicit Types (es : gmap OpId (ListElement T)) (id c x : OpId) (cs l : list OpId) (p : option OpId).

#[local] Instance sibling_le_trans es : Transitive (sibling_le es).
Proof.
  intros a b c. unfold sibling_le. intros [?|[Hab ?]] [?|[Hbc ?]]; [left; lia|left; lia|left; lia|right].
  split; [congruence|]. by etrans.
Qed.
#[local] Instance sibling_le_anti es : AntiSymm (=) (sibling_le es).
Proof. intros a b. unfold sibling_le. intros [?|[Hab ?]] [?|[Hba ?]]; [lia|lia|lia|]. by apply (anti_symm OpId_le). Qed.
#[local] Instance sibling_le_total es : Total (sibling_le es).
Proof.
  intros a b. unfold sibling_le. destruct (N.lt_trichotomy (time_of es a) (time_of es b)) as [?|[->|?]]; [right; by left| |left; by left].
  destruct (total OpId_le a b); [left|right]; by right.
Qed.

(** ** Siblings *)

Lemma elem_of_children es p id : id ∈ children_of es p ↔ ∃ e, es !! id = Some e ∧ le_after e = p.
Proof.
  unfold children_of. rewrite merge_sort_Permutation, list_elem_of_filter, elem_of_sorted_keys. split.
  - intros [H [e He]]. rewrite He in H. simplify_eq/=. eauto.
  - intros (e & He & <-). rewrite He. eauto.
Qed.
Lemma NoDup_children es p : NoDup (children_of es p).
Proof. unfold children_of. rewrite merge_sort_Permutation. apply NoDup_filter, NoDup_sorted_keys. Qed.
Lemma sorted_children es p : StronglySorted (sibling_le es) (children_of es p).
Proof. apply (StronglySorted_merge_sort _). Qed.

(** A sorted list of the same siblings is the list of siblings. *)
Lemma children_unique es p l :
  NoDup l → (∀ id, id ∈ l ↔ ∃ e, es !! id = Some e ∧ le_after e = p) → StronglySorted (sibling_le es) l → children_of es p = l.
Proof.
  intros Hnd Hl Hs. apply (StronglySorted_unique (sibling_le es)); [apply sorted_children|done|].
  apply NoDup_Permutation; [apply NoDup_children|done|]. intros id. by rewrite elem_of_children, Hl.
Qed.

Lemma time_of_mono es es' id : es ⊆ es' → is_Some (es !! id) → time_of es' id = time_of es id.
Proof. intros Hsub [e He]. unfold time_of. by rewrite He, (lookup_weaken _ _ _ _ He Hsub). Qed.

Lemma children_sublist es es' p : es ⊆ es' → children_of es p `sublist_of` children_of es' p.
Proof.
  intros Hsub. rewrite (children_unique es p (filter (λ id, is_Some (es !! id)) (children_of es' p))).
  - apply sublist_filter.
  - apply NoDup_filter, NoDup_children.
  - intros id. rewrite list_elem_of_filter, elem_of_children. split.
    + intros [[e He] (e' & He' & Hp)]. pose proof (lookup_weaken _ _ _ _ He Hsub). simplify_eq. eauto.
    + intros (e & He & Hp). split; [by eexists|]. exists e. split; [by eapply lookup_weaken|done].
  - apply (StronglySorted_weaken (sibling_le es')); [|apply StronglySorted_filter, sorted_children].
    intros x y [Hx _]%list_elem_of_filter [Hy _]%list_elem_of_filter. unfold sibling_le. by rewrite !(time_of_mono es es').
Qed.

(** ** Walks *)

Inductive forest es : list OpId → list OpId → Prop :=
| forest_nil : forest es [] []
| forest_cons c cs below rest :
    forest es (children_of es (Some c)) below → forest es cs rest → forest es (c :: cs) (c :: below ++ rest).

Definition anchored es : Prop :=
  ∀ id e, es !! id = Some e →
    match le_after e with Some a => ∃ ea, es !! a = Some ea ∧ le_logical_time ea < le_logical_time e | None => True end.

Lemma max_time_spec es id e : es !! id = Some e → le_logical_time e ≤ max_time es.
Proof.
  unfold max_time. revert id e. apply (map_fold_weak_ind (λ t m, ∀ id e, m !! id = Some e → le_logical_time e ≤ t)).
  - intros id e. by rewrite lookup_empty.
  - intros i x m t Hi IH id e. destruct (decide (id = i)) as [->|Hne].
    + rewrite lookup_insert_eq. intros [= ->]. lia.
    + rewrite lookup_insert_ne by done. intros He%IH. lia.
Qed.

Lemma time_of_Some es id e : es !! id = Some e → time_of es id = le_logical_time e.
Proof. intros He. unfold time_of. by rewrite He. Qed.

Lemma forest_exists es cs :
  anchored es → (∀ c, c ∈ cs → is_Some (es !! c)) → ∃ l, forest es cs l.
Proof.
  intros Ha. assert (∀ (n : nat) cs, (∀ c, c ∈ cs → is_Some (es !! c) ∧ (N.to_nat (max_time es - time_of es c) < n)%nat) → ∃ l, forest es cs l) as Hn.
  { induction n as [|n IHn]; intros cs'; induction cs' as [|c cs' IH]; intros Hcs; try (exists []; constructor).
    - destruct (Hcs c) as [_ ?]; [left|lia].
    - destruct IH as [rest Hrest]; [intros x Hx; apply Hcs; by right|].
      destruct (IHn (children_of es (Some c))) as [below Hbelow]; [|exists (c :: below ++ rest); by constructor].
      intros x (e & He & Hp)%elem_of_children. split; [by eexists|]. destruct (Hcs c) as [_ Hc]; [left|].
      pose proof (Ha x e He) as Hax. rewrite Hp in Hax. destruct Hax as (ec & Hec & Hlt). pose proof (max_time_spec es x e He).
      rewrite (time_of_Some es x e He). rewrite (time_of_Some es c ec Hec) in Hc. lia. }
  intros Hcs. apply (Hn (S (N.to_nat (max_time es)))). intros c Hc. split; [auto|lia].
Qed.

Lemma forest_det es cs l l' : forest es cs l → forest es cs l' → l = l'.
Proof.
  intros Hf. revert l'. induction Hf as [|c cs below rest H1 IH1 H2 IH2]; intros l' Hl'; inversion Hl'; subst; [done|].
  f_equal. f_equal; auto.
Qed.

(** *** What a walk visits *)

Definition up es x a : Prop := ∃ e, es !! x = Some e ∧ le_after e = Some a.

Lemma elem_of_forest es cs l x : forest es cs l → x ∈ l ↔ ∃ c, c ∈ cs ∧ rtc (up es) x c.
Proof.
  intros Hf. revert x. induction Hf as [|c cs below rest H1 IH1 H2 IH2]; intros x; [set_solver|].
  rewrite elem_of_cons, elem_of_app, IH1, IH2. split.
  - intros [->|[(c' & Hc' & Hup)|(c' & Hc' & Hup)]]; [exists c; split; [left|done]| |exists c'; split; [by right|done]].
    exists c. split; [left|]. eapply rtc_r; [done|]. by apply elem_of_children in Hc'.
  - intros (c' & [->|Hc']%elem_of_cons & Hup); [|right; right; eauto].
    apply rtc_inv_r in Hup as [->|(y & Hxy & Hyc)]; [by left|]. right. left. exists y. split; [by apply elem_of_children|done].
Qed.

Lemma up_time es x y : anchored es → rtc (up es) x y → is_Some (es !! x) → time_of es y ≤ time_of es x ∧ is_Some (es !! y).
Proof.
  intros Ha. induction 1 as [x|x y z (e & He & Hp) Hyz IH]; intros Hx; [split; [lia|done]|].
  pose proof (Ha x e He) as Hax. rewrite Hp in Hax. destruct Hax as (ey & Hey & Hlt).
  destruct IH as [Hle Hz]; [by eexists|]. split; [|done]. rewrite (time_of_Some es x e He). rewrite (time_of_Some es y ey Hey) in Hle. lia.
Qed.

Lemma up_linear es x a b : rtc (up es) x a → rtc (up es) x b → rtc (up es) a b ∨ rtc (up es) b a.
Proof.
  induction 1 as [x|x y a (e & He & Hp) Hya IH]; [by left|]. intros Hb. apply rtc_inv in Hb as [->|(y' & (e' & He' & Hp') & Hb)].
  - right. eapply rtc_l; [|done]. by exists e.
  - simplify_eq. auto.
Qed.

Lemma siblings_apart es p a b :
  anchored es → a ∈ children_of es p → b ∈ children_of es p → rtc (up es) a b → a = b.
Proof.
  intros Ha (ea & Hea & Hpa)%elem_of_children (eb & Heb & Hpb)%elem_of_children Hab.
  apply rtc_inv in Hab as [|(y & (e' & He' & Hy) & Hyb)]; [done|]. exfalso. simplify_eq.
  pose proof (Ha b eb Heb) as Hb. rewrite Hpb, Hy in Hb. destruct Hb as (ey & Hey & Hlt).
  destruct (up_time es y b Ha Hyb) as [Hle _]; [by eexists|]. rewrite (time_of_Some es b eb Heb), (time_of_Some es y ey Hey) in Hle. lia.
Qed.

Lemma NoDup_forest es cs l p :
  anchored es → NoDup cs → (∀ c, c ∈ cs → c ∈ children_of es p) → forest es cs l → NoDup l.
Proof.
  intros Ha Hnd Hcs Hf. revert p Hnd Hcs. induction Hf as [|c cs below rest H1 IH1 H2 IH2]; intros p Hnd Hcs; [constructor|].
  apply NoDup_cons in Hnd as [Hc Hnd]. pose proof (Hcs c (list_elem_of_here _ _)) as Hcp.
  assert (is_Some (es !! c)) as Hic by (apply elem_of_children in Hcp as (e & He & _); by eexists).
  assert (c ∉ below) as Hcb.
  { intros (c' & Hc' & Hup)%(elem_of_forest es _ _ _ H1). apply elem_of_children in Hc' as (e' & He' & Hp').
    pose proof (Ha c' e' He') as Hac. rewrite Hp' in Hac. destruct Hac as (ec & Hec & Hlt).
    destruct (up_time es c c' Ha Hup Hic) as [Hle _]. rewrite (time_of_Some es c' e' He'), (time_of_Some es c ec Hec) in Hle. lia. }
  assert (∀ x, rtc (up es) x c → x ∉ rest) as Hsep.
  { intros x Hx (c' & Hc' & Hup)%(elem_of_forest es _ _ _ H2). assert (c' ∈ children_of es p) by (apply Hcs; by right).
    assert (c = c') as <-; [|done]. destruct (up_linear es x c c' Hx Hup); [|symmetry]; by eapply siblings_apart. }
  constructor.
  - rewrite elem_of_app. intros [?|?]; [done|]. by apply (Hsep c).
  - apply NoDup_app. split_and!.
    + apply (IH1 (Some c)); [apply NoDup_children|done].
    + intros x (c' & Hc' & Hup)%(elem_of_forest es _ _ _ H1). apply Hsep. eapply rtc_r; [done|]. by apply elem_of_children in Hc'.
    + apply (IH2 p); [done|]. intros c' ?. apply Hcs. by right.
Qed.

(** Every anchored element hangs from the top. *)
Lemma up_top es x : anchored es → is_Some (es !! x) → ∃ c, c ∈ children_of es None ∧ rtc (up es) x c.
Proof.
  intros Ha. remember (N.to_nat (time_of es x)) as n eqn:Hn. revert x Hn.
  induction (lt_wf n) as [n _ IH]. intros x Hn [e He]. destruct (le_after e) as [a|] eqn:Hp.
  - pose proof (Ha x e He) as Hax. rewrite Hp in Hax. destruct Hax as (ea & Hea & Hlt).
    destruct (IH (N.to_nat (time_of es a))) with (x := a) as (c & Hc & Hup); [|done|by eexists|].
    + rewrite Hn, (time_of_Some es x e He), (time_of_Some es a ea Hea). lia.
    + exists c. split; [done|]. eapply rtc_l; [|done]. by exists e.
  - exists x. split; [|done]. apply elem_of_children. eauto.
Qed.

(** ** The walk of the code *)

Lemma forest_worklist es cs l rest visited result fuel :
  forest es cs l → NoDup l → (∀ x, x ∈ l → x ∉ visited) →
  worklist (descend es) (length l + fuel) (cs ++ rest) visited result =
  worklist (descend es) fuel rest (list_to_set l ∪ visited) (result ++ l).
Proof.
  intros Hf. revert rest visited result fuel. induction Hf as [|c cs below more H1 IH1 H2 IH2]; intros rest visited result fuel Hnd Hvis.
  { simpl. by rewrite app_nil_r, (left_id_L ∅ (∪)). }
  apply NoDup_cons in Hnd as [Hc Hnd]. apply NoDup_app in Hnd as (Hnd1 & Hsep & Hnd2). rewrite elem_of_app in Hc.
  simpl. rewrite decide_False by (apply Hvis; left). unfold descend at 1. rewrite length_app, <- Nat.add_assoc.
  rewrite IH1; [|done|]. 2:{ intros x Hx. assert (x ≠ c) by naive_solver. specialize (Hvis x). set_solver. }
  rewrite IH2; [|done|]. 2:{ intros x Hx. assert (x ≠ c) by naive_solver. assert (x ∉ below) by naive_solver. specialize (Hvis x). set_solver. }
  f_equal; [set_solver|]. by rewrite <- !app_assoc.
Qed.

Lemma append_detached_visited es ids visited result :
  (∀ id, id ∈ ids → id ∈ visited) → append_detached es ids visited result = Some result.
Proof.
  induction ids as [|id ids IH]; intros Hv; simpl; [done|]. rewrite decide_True by (apply Hv; left). apply IH. intros x ?. apply Hv. by right.
Qed.

(** The elements in order, once each. *)
Lemma ordered_complete es l : anchored es → forest es (children_of es None) l → NoDup l ∧ ∀ x, x ∈ l ↔ is_Some (es !! x).
Proof.
  intros Ha Hl. split; [eapply NoDup_forest; [done|apply NoDup_children|done|done]|].
  intros x. rewrite (elem_of_forest es _ _ _ Hl). split; [|by apply up_top].
  intros (c & Hc & Hup). apply rtc_inv in Hup as [->|(y & (e & He & _) & _)]; [|by eexists].
  apply elem_of_children in Hc as (e & He & _). by eexists.
Qed.

Lemma ordered_forest es : anchored es → ∃ l, forest es (children_of es None) l ∧ ordered_ids es = Some l.
Proof.
  intros Ha. destruct (forest_exists es (children_of es None) Ha) as [l Hl].
  { intros c (e & He & _)%elem_of_children. by eexists. }
  exists l. split; [done|]. destruct (ordered_complete es l Ha Hl) as [Hnd Hmem].
  assert (length l ≤ size es)%nat as Hlen.
  { rewrite <- size_dom, <- (size_list_to_set (C := gset OpId) l) by done. apply subseteq_size. intros x.
    rewrite elem_of_list_to_set, Hmem. apply elem_of_dom. }
  unfold ordered_ids, append_descendants.
  assert (worklist (descend es) (S (length (children_of es None) + size es)) (children_of es None) ∅ [] =
    Some (Continue (list_to_set l ∪ ∅, l))) as ->.
  { pose proof (forest_worklist es _ l [] ∅ [] (S (length (children_of es None) + size es - length l)) Hl Hnd) as Hw.
    rewrite app_nil_r in Hw. replace (length l + _)%nat with (S (length (children_of es None) + size es)) in Hw by lia.
    rewrite Hw by set_solver. done. }
  simpl. apply append_detached_visited. intros id Hid%elem_of_sorted_keys. apply elem_of_union_l, elem_of_list_to_set, Hmem, Hid.
Qed.

(** ** Adding elements *)

(** Elements keep their order. *)
Lemma forest_sublist es es' cs cs' l l' :
  es ⊆ es' → forest es cs l → forest es' cs' l' → cs `sublist_of` cs' → l `sublist_of` l'.
Proof.
  intros Hsub Hf Hf'. revert cs l Hf. induction Hf' as [|c cs' below' rest' H1 IH1 H2 IH2]; intros cs l Hf Hcs.
  - apply sublist_nil_r in Hcs as ->. by inversion Hf.
  - apply sublist_cons_r in Hcs as [Hcs|(k & -> & Hk)].
    + apply sublist_cons. eapply (sublist_inserts_l below'). by eapply IH2.
    + inversion Hf as [|? ? below rest Hb Hr]; subst. apply sublist_skip, sublist_app; [|by eapply IH2].
      eapply IH1; [done|]. by apply children_sublist.
Qed.

(** Where an element goes that is newer than all others. *)
Definition spread (after : option OpId) (id z : OpId) : list OpId := if decide (after = Some z) then [z; id] else [z].

Section insert.
Context es (id : OpId) (e : ListElement T).
Hypothesis (Ha : anchored es) (Hid : es !! id = None) (Ht : max_time es < le_logical_time e).
Hypothesis (Hafter : match le_after e with Some a => is_Some (es !! a) | None => True end).
Let es' := <[id := e]> es.

Lemma children_insert p :
  p ≠ Some id → children_of es' p = if decide (p = le_after e) then id :: children_of es p else children_of es p.
Proof using Ha Hid Ht Hafter.
  intros Hp. assert (∀ x, is_Some (es !! x) → time_of es' x = time_of es x) as Htime.
  { intros x Hx. apply time_of_mono; [by apply insert_subseteq|done]. }
  assert (∀ x, x ∈ children_of es p → is_Some (es !! x)) as Hch by (intros x (ex & Hex & _)%elem_of_children; by eexists).
  assert (StronglySorted (sibling_le es') (children_of es p)) as Hsort.
  { eapply StronglySorted_weaken; [|apply (sorted_children es p)]. intros x y Hx%Hch Hy%Hch. unfold sibling_le. by rewrite !Htime. }
  assert (id ∉ children_of es p) as Hnin by (intros [? ?]%Hch; congruence).
  destruct (decide (p = le_after e)) as [->|Hne].
  - apply children_unique.
    + constructor; [done|apply NoDup_children].
    + intros x. rewrite elem_of_cons, elem_of_children. unfold es'. destruct (decide (x = id)) as [->|Hx].
      * rewrite lookup_insert_eq. naive_solver.
      * rewrite lookup_insert_ne by done. naive_solver.
    + constructor; [done|]. rewrite Forall_forall. intros x Hx%Hch. left. rewrite (Htime x Hx). destruct Hx as [ex Hex].
      rewrite (time_of_Some es x ex Hex), (time_of_Some es' id e) by apply lookup_insert_eq.
      pose proof (max_time_spec es x ex Hex). lia.
  - apply children_unique; [apply NoDup_children| |done].
    intros x. rewrite elem_of_children. unfold es'. destruct (decide (x = id)) as [->|Hx].
    + rewrite lookup_insert_eq. naive_solver.
    + by rewrite lookup_insert_ne by done.
Qed.

Lemma children_new : children_of es' (Some id) = [].
Proof using Ha Hid Ht Hafter.
  destruct (children_of es' (Some id)) as [|x l] eqn:Hc; [done|].
  assert (x ∈ children_of es' (Some id)) as (ex & Hex & Hp)%elem_of_children by (rewrite Hc; left). exfalso.
  unfold es' in Hex. destruct (decide (x = id)) as [->|Hne].
  - rewrite lookup_insert_eq in Hex. simplify_eq. rewrite Hp in Hafter. destruct Hafter. congruence.
  - rewrite lookup_insert_ne in Hex by done. pose proof (Ha x ex Hex) as Hax. rewrite Hp in Hax. destruct Hax as (? & ? & _). congruence.
Qed.

Lemma forest_new cs l : forest es' cs l → forest es' (id :: cs) (id :: l).
Proof using Ha Hid Ht Hafter. intros Hl. apply (forest_cons es' id cs [] l); [rewrite children_new; constructor|done]. Qed.

Lemma forest_spread cs l : forest es cs l → id ∉ cs → forest es' cs (l ≫= spread (le_after e) id).
Proof using Ha Hid Ht Hafter.
  induction 1 as [|c cs below rest H1 IH1 H2 IH2]; intros Hcs; [constructor|]. rewrite not_elem_of_cons in Hcs. destruct Hcs as [Hc Hcs].
  assert (id ∉ children_of es (Some c)) as Hnin by (intros (ex & Hex & _)%elem_of_children; congruence).
  assert (∀ x (g : OpId → list OpId) k1 k2, (x :: k1 ++ k2) ≫= g = g x ++ (k1 ≫= g) ++ (k2 ≫= g)) as Hbind.
  { intros. rewrite bind_cons, bind_app. done. }
  rewrite Hbind. unfold spread at 1. destruct (decide (le_after e = Some c)) as [Hd|Hd].
  - apply (forest_cons es' c cs (id :: below ≫= spread (le_after e) id)); [|auto].
    rewrite children_insert, decide_True by congruence. by apply forest_new, IH1.
  - apply (forest_cons es' c cs (below ≫= spread (le_after e) id)); [|auto].
    rewrite children_insert, decide_False by congruence. by apply IH1.
Qed.

Lemma anchored_insert : anchored es'.
Proof using Ha Hid Ht Hafter.
  intros x ex. unfold es'. destruct (decide (x = id)) as [->|Hne].
  - rewrite lookup_insert_eq. intros [= <-]. destruct (le_after e) as [a|]; [|done]. destruct Hafter as [ea Hea]. exists ea.
    rewrite lookup_insert_ne by congruence. split; [done|]. pose proof (max_time_spec es a ea Hea). lia.
  - rewrite lookup_insert_ne by done. intros Hex%Ha. destruct (le_after ex) as [a|]; [|done]. destruct Hex as (ea & Hea & Hlt).
    exists ea. rewrite lookup_insert_ne by congruence. done.
Qed.

Lemma forest_insert l :
  forest es (children_of es None) l →
  forest es' (children_of es' None) ((if decide (le_after e = None) then [id] else []) ++ (l ≫= spread (le_after e) id)).
Proof using Ha Hid Ht Hafter.
  intros Hl. assert (id ∉ children_of es None) as Hnin by (intros (ex & Hex & _)%elem_of_children; congruence).
  rewrite children_insert by done. destruct (decide (le_after e = None)) as [Hn|Hn].
  - rewrite decide_True by done. simpl. by apply forest_new, forest_spread.
  - rewrite decide_False by congruence. by apply forest_spread.
Qed.
End insert.

Lemma spread_none id l : l ≫= spread None id = l.
Proof. induction l as [|x l IH]; [done|]. rewrite bind_cons, IH. done. Qed.
Lemma spread_at id l1 a l2 : a ∉ l1 → a ∉ l2 → (l1 ++ a :: l2) ≫= spread (Some a) id = l1 ++ a :: id :: l2.
Proof.
  assert (∀ l, a ∉ l → l ≫= spread (Some a) id = l) as Hs.
  { induction l as [|x l IH]; [done|]. rewrite not_elem_of_cons. intros [Hx Hl]. rewrite bind_cons, IH by done. unfold spread.
    by rewrite decide_False by congruence. }
  intros H1 H2. rewrite bind_app, bind_cons, !Hs by done. unfold spread. by rewrite decide_True.
Qed.

(** ** Any state

    Also when anchors are missing or circular, every element is listed once. *)

Lemma NoDup_children_bind es (ps : list OpId) : NoDup ps → NoDup (ps ≫= λ c, children_of es (Some c)).
Proof.
  induction 1 as [|c ps Hc Hnd IH]; [constructor|]. rewrite bind_cons. apply NoDup_app. split_and!; [apply NoDup_children| |done].
  intros x (e & He & Hp)%elem_of_children (c' & Hx & Hc')%list_elem_of_bind.
  apply elem_of_children in Hx as (e' & He' & Hp'). simplify_eq. congruence.
Qed.

Lemma children_cost es (X : gset OpId) : (cost_sum (λ c, length (children_of es (Some c))) X ≤ size es)%nat.
Proof.
  unfold cost_sum. assert (∀ ps, sum_list_with (λ c, length (children_of es (Some c))) ps = length (ps ≫= λ c, children_of es (Some c))) as ->.
  { induction ps as [|c ps IH]; [done|]. rewrite bind_cons, length_app, <- IH. done. }
  rewrite <- size_dom, <- (size_list_to_set (C := gset OpId)) by apply NoDup_children_bind, NoDup_elements.
  apply subseteq_size. intros x. rewrite elem_of_list_to_set. intros (c & Hx & _)%list_elem_of_bind.
  apply elem_of_children in Hx as (e & He & _). apply elem_of_dom. eauto.
Qed.

(** The elements visited so far are the ones listed so far. *)
Definition listing es (visited : gset OpId) (result : list OpId) : Prop :=
  NoDup result ∧ visited = list_to_set result ∧ visited ⊆ dom es.

Lemma append_descendants_total es p visited result :
  listing es visited result →
  ∃ visited' result', append_descendants es p visited result = Some (visited', result') ∧ listing es visited' result' ∧ visited ⊆ visited'.
Proof.
  intros Hl. unfold append_descendants.
  destruct (worklist_total_within (descend es) (λ c, length (children_of es (Some c))) (dom es)
    (S (length (children_of es p) + size es)) (children_of es p) visited result) as [r Hr].
  - intros c vis w a w' a' _ [= <- <-]. rewrite length_app. split; [lia|]. intros x [Hx|Hx]%elem_of_app; [right|by left].
    apply elem_of_children in Hx as (e & He & _). apply elem_of_dom. eauto.
  - intros x (e & He & _)%elem_of_children. apply elem_of_dom. eauto.
  - pose proof (children_cost es (dom es ∖ visited)). lia.
  - rewrite Hr. apply (worklist_ind (descend es)
      (λ vis w a, (∀ x, x ∈ w → x ∈ dom es) ∧ listing es vis a ∧ visited ⊆ vis) (λ _, False)) in Hr;
      [destruct r as [[vis a]|[]]; destruct Hr as (_ & ? & ?); by exists vis, a|..].
    + intros vis' c w a' (Hw & Hrest) _. split; [|done]. intros x Hx. apply Hw. by right.
    + intros vis' c w a' w' a'' (Hw & (Hnd & Hvis & Hdom) & Hsub) Hc [= <- <-]. split_and!; [|split_and!|set_solver].
      * intros x [(e & He & _)%elem_of_children|Hx]%elem_of_app; [apply elem_of_dom; eauto|apply Hw; by right].
      * apply NoDup_app. split_and!; [done| |apply NoDup_singleton]. intros x Hx ->%list_elem_of_singleton. set_solver.
      * rewrite list_to_set_app_L. set_solver.
      * assert (c ∈ dom es) by (apply Hw; left). set_solver.
    + by intros.
    + split_and!; [|done|done]. intros x (e & He & _)%elem_of_children. apply elem_of_dom. eauto.
Qed.

Lemma append_detached_total es ids visited result :
  listing es visited result → (∀ id, id ∈ ids → id ∈ dom es) →
  ∃ l, append_detached es ids visited result = Some l ∧ ∃ visited', listing es visited' l ∧ visited ⊆ visited' ∧ ∀ id, id ∈ ids → id ∈ visited'.
Proof.
  revert visited result. induction ids as [|id ids IH]; intros visited result Hl Hids; simpl.
  { exists result. split; [done|]. exists visited. split_and!; [done|done|]. intros id Hid. by apply elem_of_nil in Hid. }
  assert (∀ x, x ∈ ids → x ∈ dom es) as Hids' by (intros x Hx; apply Hids; by right).
  destruct (decide (id ∈ visited)) as [Hin|Hin].
  - destruct (IH _ _ Hl Hids') as (l & -> & vis & H1 & H2 & H3). exists l. split; [done|]. exists vis. split_and!; [done|done|].
    intros x [->|Hx]%elem_of_cons; [set_solver|auto].
  - destruct Hl as (Hnd & Hvis & Hdom).
    assert (listing es ({[id]} ∪ visited) (result ++ [id])) as Hl.
    { split_and!.
      - apply NoDup_app. split_and!; [done| |apply NoDup_singleton]. intros x Hx ->%list_elem_of_singleton. set_solver.
      - rewrite list_to_set_app_L. set_solver.
      - assert (id ∈ dom es) by (apply Hids; left). set_solver. }
    destruct (append_descendants_total es (Some id) _ _ Hl) as (vis & res & -> & Hl' & Hsub). simpl.
    destruct (IH _ _ Hl' Hids') as (l & -> & vis' & H1 & H2 & H3). exists l. split; [done|]. exists vis'. split_and!; [done|set_solver|].
    intros x [->|Hx]%elem_of_cons; [set_solver|auto].
Qed.

Lemma ordered_ids_total es : ∃ l, ordered_ids es = Some l ∧ NoDup l ∧ ∀ id, id ∈ l ↔ is_Some (es !! id).
Proof.
  assert (listing es ∅ []) as Hl by (split_and!; [constructor|done|set_solver]).
  destruct (append_descendants_total es None _ _ Hl) as (vis & res & Hres & Hl' & _). unfold ordered_ids. rewrite Hres. simpl.
  destruct (append_detached_total es (sorted_keys ord_le es) vis res Hl') as (l & Hd & vis' & (Hnd & Hvis & Hdom) & _ & Hall).
  { intros id Hid%elem_of_sorted_keys. by apply elem_of_dom. }
  simpl in Hd. rewrite Hd.
  exists l. split_and!; [done|done|]. intros id. rewrite <- elem_of_dom. split.
  - intros Hid. apply Hdom. rewrite Hvis. by apply elem_of_list_to_set.
  - intros Hid. apply (elem_of_list_to_set (C := gset OpId)). rewrite <- Hvis. apply Hall, elem_of_sorted_keys. by apply elem_of_dom.
Qed.
End order.
