(* ===== verification/CrdtListLaws.v ===== *)
(** * vos: replicated lists and text

    What inserting and removing do to the visible list, and the instances of
    [Replicated] for [CList] and [Text]. *)

From stdpp Require Import strings.
From S2P Require Import Prelude Worklist Bytes V2Wire V2Identity Overlay CrdtFields CrdtFieldLaws CrdtList.

Local Open Scope N_scope.

Section edit.
Context {T : Type} `{!EqDecision T}.
Implicit Types (l : CList T) (id : OpId) (v : T) (es : gmap OpId (ListElement T)).

Definition inserted l id (after : option OpId) (t : N) v : CList T :=
  mkCList (<[id := mkElement after t v]> (l_elements l)) (l_removed l) (l_field l).
Definition with_removed l id : CList T := mkCList (l_elements l) ({[id]} ∪ l_removed l) (l_field l).

(** An element may be put after [after]. *)
Definition anchor_ok es (after : option OpId) : Prop := match after with Some a => is_Some (es !! a) | None => True end.

Lemma ordered_ids_forest l :
  anchored (l_elements l) → forest (l_elements l) (children_of (l_elements l) None) (List_ordered_ids l).
Proof. intros Ha. unfold List_ordered_ids. by destruct (ordered_forest _ Ha) as (k & Hk & ->). Qed.

Lemma List_ordered_ids_spec l : NoDup (List_ordered_ids l) ∧ ∀ id, id ∈ List_ordered_ids l ↔ is_Some (l_elements l !! id).
Proof. unfold List_ordered_ids. by destruct (ordered_ids_total (l_elements l)) as (k & -> & Hk). Qed.

Lemma visible_ids_spec l :
  NoDup (List_visible_ids l) ∧ ∀ id, id ∈ List_visible_ids l ↔ is_Some (l_elements l !! id) ∧ id ∉ l_removed l.
Proof.
  destruct (List_ordered_ids_spec l) as [Hnd Hin]. split; [by apply NoDup_filter|]. intros id. unfold List_visible_ids.
  rewrite list_elem_of_filter, Hin. tauto.
Qed.

Lemma before_ok l index : anchor_ok (l_elements l) (before (List_visible_ids l) index).
Proof.
  destruct index as [|i]; simpl; [done|]. destruct (List_visible_ids l !! i) as [a|] eqn:Ha; [|done].
  simpl. apply (visible_ids_spec l). by eapply list_elem_of_lookup_2.
Qed.
Lemma last_ok l : anchor_ok (l_elements l) (last (List_ordered_ids l)).
Proof.
  destruct (last (List_ordered_ids l)) as [a|] eqn:Ha; [|done]. simpl. apply (List_ordered_ids_spec l). by apply last_Some_elem_of.
Qed.

(** ** Inserting *)

Section inserting.
Context l (id : OpId) (t : N) (v : T).
Hypothesis (Ha : anchored (l_elements l)) (Hid : l_elements l !! id = None) (Hr : id ∉ l_removed l) (Ht : max_time (l_elements l) < t).

Lemma ordered_insert after :
  anchor_ok (l_elements l) after →
  List_ordered_ids (inserted l id after t v) =
  (if decide (after = None) then [id] else []) ++ (List_ordered_ids l ≫= spread after id).
Proof using Ha Hid Hr Ht.
  intros Hok. set (e := mkElement after t v).
  assert (anchored (<[id := e]> (l_elements l))) as Ha' by by apply anchored_insert.
  eapply forest_det; [apply (ordered_ids_forest (inserted l id after t v)), Ha'|].
  apply (forest_insert (l_elements l) id e); [done..|]. by apply ordered_ids_forest.
Qed.

Lemma visible_insert index :
  (index ≤ length (List_visible_ids l))%nat →
  List_visible_ids (inserted l id (before (List_visible_ids l) index) t v) =
  take index (List_visible_ids l) ++ id :: drop index (List_visible_ids l).
Proof using Ha Hid Hr Ht.
  intros Hi. unfold List_visible_ids at 1. rewrite ordered_insert by apply before_ok. simpl. destruct index as [|i]; simpl.
  - rewrite spread_none, filter_cons, decide_True by done. done.
  - destruct (List_visible_ids l !! i) as [a|] eqn:Hla; [|apply lookup_ge_None in Hla; lia]. simpl.
    destruct (visible_ids_spec l) as [Hvnd Hvin]. destruct (List_ordered_ids_spec l) as [Hnd Hin].
    assert (is_Some (l_elements l !! a) ∧ a ∉ l_removed l) as [Hae Har] by (apply Hvin; by eapply list_elem_of_lookup_2).
    destruct (list_elem_of_split (List_ordered_ids l) a) as (k1 & k2 & Hk); [by apply Hin|].
    assert (List_visible_ids l = filter (λ x, x ∉ l_removed l) k1 ++ a :: filter (λ x, x ∉ l_removed l) k2) as Hv.
    { unfold List_visible_ids. by rewrite Hk, filter_app, filter_cons, decide_True. }
    rewrite Hk in Hnd. apply NoDup_app in Hnd as (_ & Hsep & Hnd2). apply NoDup_cons in Hnd2 as [Ha2 _].
    rewrite Hk, spread_at; [|intros Hx; apply (Hsep a Hx); left|done].
    rewrite filter_app, !filter_cons, !decide_True by done.
    assert (i = length (filter (λ x, x ∉ l_removed l) k1)) as ->.
    { eapply (NoDup_lookup (List_visible_ids l)); [done|done|]. rewrite Hv. by rewrite list_lookup_middle. }
    rewrite Hv. set (v1 := filter _ k1). set (v2 := filter _ k2).
    replace (v1 ++ a :: v2) with ((v1 ++ [a]) ++ v2) by by rewrite <- (assoc_L (++)).
    rewrite take_app_length', drop_app_length' by (rewrite length_app; simpl; lia). by rewrite <- (assoc_L (++)).
Qed.

Lemma visible_push :
  List_visible_ids (inserted l id (last (List_ordered_ids l)) t v) = List_visible_ids l ++ [id].
Proof using Ha Hid Hr Ht.
  unfold List_visible_ids at 1. rewrite ordered_insert by apply last_ok. unfold List_visible_ids. simpl.
  destruct (List_ordered_ids_spec l) as [Hnd _]. destruct (List_ordered_ids l) as [|x k _] eqn:Hk using rev_ind.
  - cbn [last mbind list_bind app]. rewrite decide_True by done. simpl. rewrite filter_cons, decide_True by done. done.
  - rewrite last_snoc. simpl. apply NoDup_app in Hnd as (_ & Hsep & _).
    rewrite spread_at; [|intros Hx; by apply (Hsep x Hx), list_elem_of_singleton|apply not_elem_of_nil].
    rewrite !filter_app, !filter_cons, (decide_True (P := id ∉ _)) by done. destruct (decide (x ∉ l_removed l)); [|by rewrite app_nil_r].
    by rewrite <- (assoc_L (++)).
Qed.
End inserting.

(** ** Removing *)

Lemma filter_ne_delete {A} `{!EqDecision A} (k : list A) i (x : A) : NoDup k → k !! i = Some x → filter (λ y, y ≠ x) k = delete i k.
Proof.
  intros Hnd. revert i. induction Hnd as [|y k Hy Hnd IH]; intros i; [done|]. rewrite filter_cons. destruct i as [|i]; simpl.
  - intros [= ->]. rewrite decide_False by naive_solver. apply list_filter_all, Forall_forall. intros z Hz ->. done.
  - intros Hx. rewrite decide_True; [by rewrite (IH i)|]. intros ->. by apply list_elem_of_lookup_2 in Hx.
Qed.

Lemma visible_remove l i id :
  List_visible_ids l !! i = Some id → List_visible_ids (with_removed l id) = delete i (List_visible_ids l).
Proof.
  intros Hi. rewrite <- (filter_ne_delete _ _ id) by (apply visible_ids_spec || done). unfold List_visible_ids.
  change (List_ordered_ids (with_removed l id)) with (List_ordered_ids l). rewrite list_filter_filter. apply list_filter_iff. intros x. simpl. set_solver.
Qed.

(** ** Values *)

Lemma omap_take_drop {A B} (g : A → option B) (k : list A) n :
  (∀ x, x ∈ k → is_Some (g x)) → omap g (take n k) = take n (omap g k) ∧ omap g (drop n k) = drop n (omap g k).
Proof.
  revert n. induction k as [|x k IH]; intros n Hk; [by destruct n|]. destruct (Hk x (list_elem_of_here _ _)) as [y Hy].
  destruct n as [|n]; [done|]. destruct (IH n) as [H1 H2]; [intros z ?; apply Hk; by right|]. simpl. rewrite Hy. split; [|done]. simpl. f_equal. exact H1.
Qed.
Lemma length_omap_all {A B} (g : A → option B) (k : list A) : (∀ x, x ∈ k → is_Some (g x)) → length (omap g k) = length k.
Proof.
  induction k as [|x k IH]; intros Hk; [done|]. destruct (Hk x (list_elem_of_here _ _)) as [y Hy]. simpl. rewrite Hy. simpl. f_equal.
  apply IH. intros z ?. apply Hk. by right.
Qed.

Definition value_of es id : option T := le_value <$> es !! id.

Lemma visible_values l id : id ∈ List_visible_ids l → is_Some (value_of (l_elements l) id).
Proof. intros [[e He] _]%(visible_ids_spec l). unfold value_of. rewrite He. by eexists. Qed.

Lemma length_List_iter l : length (List_iter l) = List_len l.
Proof. apply length_omap_all. intros id. apply visible_values. Qed.

Lemma List_get_iter l index : List_get l index = List_iter l !! index.
Proof.
  unfold List_get, List_iter. fold (value_of (l_elements l)).
  assert (∀ k : list OpId, (∀ x, x ∈ k → is_Some (value_of (l_elements l) x)) → ∀ i, (k !! i ≫= value_of (l_elements l)) = omap (value_of (l_elements l)) k !! i) as Hk.
  { induction k as [|x k IH]; intros Hk i; [done|]. destruct (Hk x (list_elem_of_here _ _)) as [y Hy]. simpl. rewrite Hy.
    destruct i as [|i]; simpl; [done|]. apply IH. intros z ?. apply Hk. by right. }
  apply Hk. intros id. apply visible_values.
Qed.

Section inserting.
Context l (id : OpId) (t : N) (v : T).
Hypothesis (Ha : anchored (l_elements l)) (Hid : l_elements l !! id = None) (Hr : id ∉ l_removed l) (Ht : max_time (l_elements l) < t).

Lemma iter_put after k1 k2 :
  List_visible_ids (inserted l id after t v) = k1 ++ id :: k2 → id ∉ k1 ++ k2 →
  List_iter (inserted l id after t v) = omap (value_of (l_elements l)) k1 ++ v :: omap (value_of (l_elements l)) k2.
Proof using Ha Hid Hr Ht.
  intros Hv Hk. unfold List_iter. rewrite Hv. fold (value_of (l_elements (inserted l id after t v))). rewrite omap_app.
  assert (∀ k : list OpId, id ∉ k → omap (value_of (l_elements (inserted l id after t v))) k = omap (value_of (l_elements l)) k) as Heq.
  { intros k Hnin. apply list_omap_ext. apply Forall2_same_length_lookup_2; [done|]. intros i x y Hx Hy. simplify_eq.
    unfold value_of, inserted. simpl. rewrite lookup_insert_ne; [done|]. intros ->. by apply list_elem_of_lookup_2 in Hx. }
  rewrite not_elem_of_app in Hk. destruct Hk as [Hk1 Hk2]. rewrite Heq by done. f_equal.
  assert (value_of (l_elements (inserted l id after t v)) id = Some v) as Hnew by (unfold value_of; simpl; by rewrite lookup_insert_eq).
  cbn [omap list_omap]. rewrite Hnew. f_equal. by apply Heq.
Qed.

Lemma fresh_visible : id ∉ List_visible_ids l.
Proof using Hid. intros [[? ?] _]%(visible_ids_spec l). congruence. Qed.

Lemma iter_insert index :
  (index ≤ List_len l)%nat →
  List_iter (inserted l id (before (List_visible_ids l) index) t v) = take index (List_iter l) ++ v :: drop index (List_iter l).
Proof using Ha Hid Hr Ht.
  intros Hi. destruct (omap_take_drop (value_of (l_elements l)) (List_visible_ids l) index) as [Htake Hdrop]; [apply visible_values|].
  erewrite iter_put; [|by apply visible_insert|].
  - by rewrite Htake, Hdrop.
  - rewrite take_drop. apply fresh_visible.
Qed.

Lemma iter_push : List_iter (inserted l id (last (List_ordered_ids l)) t v) = List_iter l ++ [v].
Proof using Ha Hid Hr Ht.
  erewrite iter_put; [|by apply visible_push|]; [done|]. rewrite app_nil_r. apply fresh_visible.
Qed.
End inserting.

Lemma iter_remove l i id :
  List_visible_ids l !! i = Some id → List_iter (with_removed l id) = delete i (List_iter l).
Proof.
  intros Hi. unfold List_iter at 1. rewrite (visible_remove l i id Hi). fold (value_of (l_elements (with_removed l id))).
  change (l_elements (with_removed l id)) with (l_elements l). rewrite !delete_take_drop, omap_app.
  destruct (omap_take_drop (value_of (l_elements l)) (List_visible_ids l) i) as [-> _]; [apply visible_values|].
  destruct (omap_take_drop (value_of (l_elements l)) (List_visible_ids l) (S i)) as [_ ->]; [apply visible_values|]. done.
Qed.
End edit.

(** ** Lists as replicated fields *)

Inductive list_event (T : Type) := LInsert (after : option OpId) (time : N) (value : T) | LRemove (target : OpId).
Arguments LInsert {T} _ _ _.
Arguments LRemove {T} _.

Inductive list_call (T : Type) := LPush (value : T) | LInsertAt (index : nat) (value : T) | LRemoveAt (index : nat).
Arguments LPush {T} _.
Arguments LInsertAt {T} _ _.
Arguments LRemoveAt {T} _.

Section list.
Context {T : Type} `{!EqDecision T}.
Abbreviation EV := (list_event T).
Implicit Types (l : CList T) (id : OpId) (ev : EV) (h : history EV) (X : gset OpId).

Definition list_element ev : option (ListElement T) := match ev with LInsert a t v => Some (mkElement a t v) | LRemove _ => None end.
Definition list_removes (_ : history EV) (e : event EV) : gset OpId := match ev_kind e with LInsert _ _ _ => ∅ | LRemove id => {[id]} end.
Definition list_denote (tag : Hash) h X : CList T := mkCList (picked list_element h X) (gathered list_removes h X) tag.

(** An insertion is after an element that was there, with the next time; a removal is
    of an element that was there. *)
Definition list_ok l ev : Prop :=
  match ev with
  | LInsert after t _ => anchor_ok (l_elements l) after ∧ t = max_time (l_elements l) + 1
  | LRemove id => is_Some (l_elements l !! id)
  end.

Definition list_apply id ev l : CList T :=
  match ev with LInsert after t v => inserted l id after t v | LRemove target => with_removed l target end.

Definition put l (after : option OpId) (v : T) : EV := LInsert after (max_time (l_elements l) + 1) v.

Lemma list_denote_grow tag h X i ev :
  closed h X → h !! i = None → list_denote tag (<[i := mkEvent ev X]> h) ({[i]} ∪ X) = list_apply i ev (list_denote tag h X).
Proof.
  intros HX Hi. unfold list_denote. rewrite picked_grow, gathered_grow by (done || apply HX). unfold list_removes at 1. simpl.
  destruct ev; simpl; [|done]. by rewrite (left_id_L ∅ (∪)).
Qed.

Lemma list_denote_mono tag h h' X : h ⊆ h' → closed h X → list_denote tag h' X = list_denote tag h X.
Proof. intros Hh HX. unfold list_denote. by rewrite (picked_mono _ h), (gathered_mono _ h) by (done || apply HX). Qed.

Lemma list_denote_merge tag h X Y : List_merge (list_denote tag h X) (list_denote tag h Y) = (list_denote tag h (X ∪ Y), Ok ()).
Proof. unfold List_merge. simpl. by rewrite divergent_picked, extend_picked, gathered_union. Qed.

(** Histories of lists: [wf] without a tag. *)
Definition list_wf h : Prop :=
  ∀ i e, h !! i = Some e → closed h (ev_past e) ∧ list_ok (list_denote ZERO h (ev_past e)) (ev_kind e).

Lemma list_denote_anchored h X : list_wf h → closed h X → anchored (picked list_element h X).
Proof.
  intros Hwf [HX1 HX2] i el (e & Hi & He & Hel)%picked_Some. destruct (Hwf i e He) as [_ Hok]. pose proof (HX2 i e Hi He) as Hpast.
  destruct (ev_kind e) as [after t v|]; [|done]. simpl in Hel. injection Hel as <-. simpl in *. destruct Hok as [Hok ->].
  destruct after as [a|]; [|done]. simpl in Hok. destruct Hok as [ea Hea]. exists ea. split.
  - apply picked_Some in Hea as (e' & Ha & He' & Hel'). apply picked_Some. exists e'. split; [set_solver|done].
  - pose proof (max_time_spec _ a ea Hea). lia.
Qed.

Lemma list_fresh h X i : list_wf h → h !! i = None → picked list_element h X !! i = None ∧ i ∉ gathered list_removes h X.
Proof.
  intros Hwf Hi. split; [by apply picked_fresh|]. apply gathered_fresh; [|done]. intros j e He. unfold list_removes.
  destruct (Hwf j e He) as [_ Hok]. destruct (ev_kind e) as [|id]; [set_solver|]. simpl in Hok. destruct Hok as [x Hx].
  intros y ->%elem_of_singleton. apply (dom_picked list_element h (ev_past e)). apply elem_of_dom. eauto.
Qed.

Lemma List_insert_fresh id after v l :
  l_elements l !! id = None →
  List_insert_after_with_id id after v l =
  if max_time (l_elements l) + 1 <=? u64_max then (list_apply id (put l after v) l, Ok ()) else (l, Err LogicalClockOverflow).
Proof. intros Hid. unfold List_insert_after_with_id, checked_add. rewrite Hid. by destruct (_ <=? _). Qed.
End list.
Arguments put {T} _ _ _.

Section list_instance.
Context {T : Type} `{!EqDecision T} `{!RowCodec T}.

#[export] Instance CList_replicated : Replicated (CList T) (list_event T) (list_call T) := {|
  rp_init tag := mkCList ∅ ∅ tag;
  rp_invoke c := match c with LPush v => List_push v | LInsertAt i v => List_insert i v | LRemoveAt i => void (List_remove i) end;
  rp_merge := List_merge;
  rp_effects c l _ _ :=
    match c with
    | LPush v => [put l (last (List_ordered_ids l)) v]
    | LInsertAt i v => [put l (before (List_visible_ids l) i) v]
    | LRemoveAt i => match List_visible_ids l !! i with Some id => [LRemove id] | None => [] end
    end;
  rp_denote := list_denote;
  rp_ok := list_ok;
|}.

Lemma wf_list_wf tag (h : history (list_event T)) : wf tag h → list_wf h.
Proof. intros Hwf i e He. by destruct (Hwf i e He) as (_ & H1 & H2). Qed.

(** What [push] and [insert] do once they have an identifier. *)
Lemma List_put_run tag h X change n ops done after v :
  let l := list_denote (T := T) tag h X in let i := mkOpId change n in let sl := mkSlice (Some (mkScope change (n + 1) ops)) done in
  let k := update (List_insert_after_with_id i after v);;
           scoped (record_operation (l_field l) i (operation_payload 5 [encode_optional_op_id after; row_encode v])) in
  h !! i = None →
  (∃ payload, k sl l = (mkSlice (Some (mkScope change (n + 1) (ops ++ [mkPending tag i payload]))) done, list_apply i (put l after v) l, Ok ())) ∨
  (∃ e sl', k sl l = (sl', l, Err e)).
Proof.
  intros l i sl k Hi. pose proof (List_insert_fresh i after v l (picked_fresh _ h X i Hi)) as Hins. destruct (_ <=? _).
  - left. eexists. unfold k, sl. erewrite run_update by exact Hins. by eapply run_record_last.
  - right. unfold k, mbind, op_bind, update. rewrite Hins. by eexists _, _.
Qed.

#[export] Instance CList_laws : ReplicatedLaws (CList T) (list_event T) (list_call T).
Proof.
  split.
  - done.
  - intros tag h h' X Hh HX Hc. by apply list_denote_mono.
  - intros tag h X Y _ _ _. apply list_denote_merge.
  - intros tag h X c sl Hwf HX Hu. set (f := list_denote tag h X). destruct c as [v|index v|index].
    + eapply invoke_single with (g := λ i, list_apply i (put f (last (List_ordered_ids f)) v) f); [done|done| | | |].
      * split; [apply last_ok|done].
      * done.
      * intros change n ops done i sl' Hi. by apply List_put_run.
      * intros i Hi. symmetry. by apply list_denote_grow.
    + destruct (length (List_visible_ids f) <? index)%nat eqn:Hlen.
      { unfold invoke_ok. simpl. unfold List_insert. rewrite run_self. fold f. by rewrite Hlen. }
      eapply invoke_single with (g := λ i, list_apply i (put f (before (List_visible_ids f) index) v) f); [done|done| | | |].
      * split; [apply before_ok|done].
      * simpl. unfold List_insert. rewrite run_self. fold f. rewrite Hlen. done.
      * intros change n ops done i sl' Hi. by apply List_put_run.
      * intros i Hi. symmetry. by apply list_denote_grow.
    + destruct (List_visible_ids f !! index) as [id|] eqn:Hid.
      2:{ unfold invoke_ok. simpl. unfold void, List_remove, mbind at 1, op_bind at 1. rewrite run_self. fold f. by rewrite Hid. }
      assert (is_Some (l_elements f !! id)) as [el Hel].
      { apply (visible_ids_spec f). by eapply list_elem_of_lookup_2. }
      eapply invoke_single with (ev := LRemove id) (g := λ i, list_apply i (LRemove id) f)
        (k := λ removal, void (scoped (record_operation (l_field f) removal (operation_payload 6 [encode_op_ids [id]]));;
           update (λ l, (mkCList (l_elements l) ({[id]} ∪ l_removed l) (l_field l), Ok ()));; mret (le_value el))); fold f; [done| | | | |].
      * intros. simpl. fold f. by rewrite Hid.
      * by eexists.
      * simpl. unfold void, List_remove. rewrite run_next. unfold mbind at 1, op_bind at 1. rewrite run_self. fold f. rewrite Hid, run_next.
        destruct (active sl); [|done]. rewrite Hel. by destruct (u32_max <? _).
      * intros change n ops done i sl' Hi. subst sl'. left. eexists. unfold void, mbind at 1, op_bind at 1. by erewrite run_record.
      * intros i Hi. symmetry. by apply list_denote_grow.
Qed.
End list_instance.

(** ** Text *)

Inductive text_call := TInsert (index : nat) (text : list N) | TDelete (index count : nat).

Fixpoint insert_events (change : ChangeId) (n : N) (index : nat) (text : list N) (l : CList N) : list (list_event N) :=
  match text with
  | [] => []
  | ch :: text =>
      let ev := put l (before (List_visible_ids l) index) ch in
      ev :: insert_events change (n + 1) (S index) text (list_apply (mkOpId change n) ev l)
  end.

Fixpoint delete_events (change : ChangeId) (n : N) (index count : nat) (l : CList N) : list (list_event N) :=
  match count with
  | O => []
  | S count =>
      match List_visible_ids l !! index with
      | None => []
      | Some target => LRemove target :: delete_events change (n + 1) index count (with_removed l target)
      end
  end.

#[export] Instance Text_replicated : Replicated Text (list_event N) text_call := {|
  rp_init tag := mkText List_default tag;
  rp_invoke c := match c with TInsert index text => Text_insert index text | TDelete index count => Text_delete index count end;
  rp_merge := Text_merge;
  rp_effects c t change n :=
    match c with
    | TInsert index text => insert_events change n index text (t_chars t)
    | TDelete index count => delete_events change n index count (t_chars t)
    end;
  rp_denote tag h X := mkText (list_denote ZERO h X) tag;
  rp_ok t := list_ok (t_chars t);
|}.

Lemma wf_text_wf tag (h : history (list_event N)) : wf tag h → list_wf h.
Proof. intros Hwf i e He. by destruct (Hwf i e He) as (_ & H1 & H2). Qed.

Lemma list_wf_insert {T} (h : history (list_event T)) X i ev :
  list_wf h → closed h X → h !! i = None → list_ok (list_denote ZERO h X) ev → list_wf (<[i := mkEvent ev X]> h).
Proof.
  intros Hwf HX Hi Hok j e. assert (h ⊆ <[i := mkEvent ev X]> h) as Hsub by by apply insert_subseteq.
  destruct (decide (j = i)) as [->|Hne].
  - rewrite lookup_insert_eq. intros [= <-]. simpl. split; [by eapply seen_mono|]. by rewrite (list_denote_mono _ h).
  - rewrite lookup_insert_ne by done. intros [H1 H2]%Hwf. split; [by eapply seen_mono|]. by rewrite (list_denote_mono _ h).
Qed.

(** A run of a loop of [Text]: the operations [evs] are performed and recorded. *)
Definition text_run (tag : Hash) (change : ChangeId) (h : history (list_event N)) (X : gset OpId) (n : N)
    (ops : list PendingOperation) (cc : option CompletedChange) (evs : list (list_event N)) (sl' : Slice) (l' : CList N) : Prop :=
  l' = list_denote ZERO (grow h X change n evs).1 (grow h X change n evs).2 ∧
  (∃ new, sl' = mkSlice (Some (mkScope change (n + N.of_nat (length evs)) (ops ++ new))) cc ∧
     po_field <$> new = replicate (length evs) tag ∧ po_id <$> new = op_ids change n (length evs)) ∧
  grows_ok tag h X change n evs.

Lemma text_run_nil tag change h X n ops cc :
  text_run tag change h X n ops cc [] (mkSlice (Some (mkScope change n ops)) cc) (list_denote ZERO h X).
Proof. split_and!; [done| |done]. exists []. rewrite app_nil_r. split_and!; [do 3 f_equal; simpl; lia|done|done]. Qed.

Lemma text_run_cons tag change h X n ops cc ev evs payload sl' l' :
  list_ok (list_denote ZERO h X) ev →
  let i := mkOpId change n in
  text_run tag change (<[i := mkEvent ev X]> h) ({[i]} ∪ X) (n + 1) (ops ++ [mkPending tag i payload]) cc evs sl' l' →
  text_run tag change h X n ops cc (ev :: evs) sl' l'.
Proof.
  intros Hok i (Hl & (new & Hsl & Hf & Hids) & Hoks). split_and!; [done| |by split].
  exists (mkPending tag i payload :: new). split_and!.
  - rewrite Hsl, <- (assoc_L (++)). do 3 f_equal. simpl. lia.
  - rewrite fmap_cons, Hf. done.
  - rewrite fmap_cons, Hids. cbn [length]. by rewrite op_ids_cons.
Qed.

Section text.
Context (tag : Hash) (change : ChangeId).

Lemma insert_chars_run text : ∀ index h X n ops cc,
  list_wf h → closed h X → unused_from h change n →
  match insert_chars tag index text (mkSlice (Some (mkScope change n ops)) cc) (list_denote ZERO h X) with
  | (sl', l', Ok _) => text_run tag change h X n ops cc (insert_events change n index text (list_denote ZERO h X)) sl' l'
  | (_, _, Err _) => True
  end.
Proof.
  induction text as [|ch text IH]; intros index h X n ops cc Hwf HX Hu; [apply text_run_nil|].
  cbn [insert_chars insert_events]. rewrite run_self. cbv zeta. set (l := list_denote ZERO h X). set (after := before _ _). rewrite run_next.
  cbn [active cs_change cs_next_ordinal cs_operations completed].
  destruct (u32_max <? n + 1); [done|]. set (i := mkOpId change n). assert (h !! i = None) as Hi by (apply Hu; lia).
  assert (list_ok l (put l after ch)) as Hok by (split; [apply before_ok|done]).
  pose proof (List_insert_fresh i after ch l (picked_fresh _ h X i Hi)) as Hins. destruct (_ <=? _).
  - erewrite run_update by exact Hins. erewrite run_record by done. unfold l. rewrite <- list_denote_grow by done.
    specialize (IH (S index) (<[i := mkEvent (put l after ch) X]> h) ({[i]} ∪ X) (n + 1) (ops ++ [mkPending tag i (operation_payload 7 [encode_optional_op_id after; encode_utf8 ch])]) cc).
    destruct (insert_chars _ _ _ _ _) as [[sl' l'] [[]|e]]; [|done].
    eapply text_run_cons; [done|]. apply IH; [by apply list_wf_insert|by apply seen_one_more|by apply unused_from_insert].
  - unfold mbind at 1, op_bind at 1, update. by rewrite Hins.
Qed.

Lemma delete_chars_run index count : ∀ h X n ops cc,
  list_wf h → closed h X → unused_from h change n →
  match delete_chars tag index count (mkSlice (Some (mkScope change n ops)) cc) (list_denote ZERO h X) with
  | (sl', l', Ok _) => text_run tag change h X n ops cc (delete_events change n index count (list_denote ZERO h X)) sl' l'
  | (_, _, Err _) => True
  end.
Proof.
  induction count as [|count IH]; intros h X n ops cc Hwf HX Hu; [apply text_run_nil|].
  cbn [delete_chars delete_events]. rewrite run_self. set (l := list_denote ZERO h X).
  destruct (List_visible_ids l !! index) as [target|] eqn:Ht; [|done]. rewrite run_next.
  cbn [active cs_change cs_next_ordinal cs_operations completed].
  destruct (u32_max <? n + 1); [done|]. set (i := mkOpId change n). assert (h !! i = None) as Hi by (apply Hu; lia).
  assert (list_ok l (LRemove target)) as Hok by (apply (visible_ids_spec l); by eapply list_elem_of_lookup_2).
  erewrite run_update by done. erewrite run_record by done. change (mkCList _ _ _) with (list_apply i (LRemove target) l).
  change (with_removed l target) with (list_apply i (LRemove target) l). unfold l. rewrite <- list_denote_grow by done.
  specialize (IH (<[i := mkEvent (LRemove target) X]> h) ({[i]} ∪ X) (n + 1) (ops ++ [mkPending tag i (operation_payload 8 [encode_op_ids [target]])]) cc).
  destruct (delete_chars _ _ _ _ _) as [[sl' l'] [[]|e]]; [|done].
  eapply text_run_cons; [done|]. apply IH; [by apply list_wf_insert|by apply seen_one_more|by apply unused_from_insert].
Qed.
End text.

(** A call of [Text] that stages a loop. *)
Lemma invoke_staged tag h X c sl (o : op (CList N) ()) :
  let f := rp_denote (Replicated := Text_replicated) tag h X in
  rp_invoke c sl f = staged t_chars with_chars o sl f →
  (active sl = None → match o sl (t_chars f) with (sl', l', Ok _) => sl' = sl ∧ l' = t_chars f | (_, _, Err _) => True end) →
  (∀ sc, active sl = Some sc →
     match o sl (t_chars f) with
     | (sl', l', Ok _) =>
         text_run tag (cs_change sc) h X (cs_next_ordinal sc) (cs_operations sc) (completed sl)
           (rp_effects c f (cs_change sc) (cs_next_ordinal sc)) sl' l'
     | (_, _, Err _) => True
     end) →
  invoke_ok tag h X c sl.
Proof.
  intros f Hi Hnone Hsome. unfold invoke_ok, performed, recorded. cbv zeta. fold f. rewrite Hi. unfold staged.
  destruct (o sl (t_chars f)) as [[sl' l'] [[]|e]]; [|done]. destruct (active sl) as [sc|].
  - destruct (Hsome sc eq_refl) as (-> & Hrec & Hoks). destruct (grow _ _ _ _ _) as [h' X']. split_and!; [done|done|done].
  - by destruct (Hnone eq_refl) as [-> ->].
Qed.

#[export] Instance Text_laws : ReplicatedLaws Text (list_event N) text_call.
Proof.
  split.
  - done.
  - intros tag h h' X Hh HX Hc. simpl. f_equal. by apply list_denote_mono.
  - intros tag h X Y _ _ _. simpl. unfold Text_merge. simpl. by rewrite list_denote_merge.
  - intros tag h X c sl Hwf%wf_text_wf HX Hu. destruct c as [index text|index count].
    + destruct (Text_len (mkText (list_denote ZERO h X) tag) <? index)%nat eqn:Hlen.
      { unfold invoke_ok. simpl. unfold Text_insert. rewrite run_self. by rewrite Hlen. }
      apply invoke_staged with (o := insert_chars tag index text).
      * simpl. unfold Text_insert. rewrite run_self. by rewrite Hlen.
      * intros Hn. destruct text as [|ch text]; [done|]. simpl. rewrite run_self, run_next. by rewrite Hn.
      * intros sc Hsc. unfold unused in Hu. rewrite Hsc in Hu. destruct sl as [? cc]. simpl in Hsc. subst. destruct sc as [ch n ops].
        by apply insert_chars_run.
    + destruct (Text_len (mkText (list_denote ZERO h X) tag) <? index + count)%nat eqn:Hlen.
      { unfold invoke_ok. simpl. unfold Text_delete. rewrite run_self. by rewrite Hlen. }
      apply invoke_staged with (o := delete_chars tag index count).
      * simpl. unfold Text_delete. rewrite run_self. by rewrite Hlen.
      * intros Hn. destruct count as [|count]; [done|]. simpl. rewrite run_self.
        destruct (List_visible_ids _ !! index); [|done]. rewrite run_next. by rewrite Hn.
      * intros sc Hsc. unfold unused in Hu. rewrite Hsc in Hu. destruct sl as [? cc]. simpl in Hsc. subst. destruct sc as [ch n ops].
        by apply delete_chars_run.
Qed.
