(* ===== verification/CrdtFieldProps.v ===== *)
(** * vos: properties of the CRDT field types

    States that have seen the same operations are equal and any two can be merged;
    what registers, sets, maps and counters show in terms of the operations seen;
    lists and text edit as lists do and keep their order; an actor slice reports
    the operations it performed. *)

From stdpp Require Import strings.
From S2P Require Import Prelude Bytes V2Wire V2Identity Overlay CrdtFields CrdtFieldLaws CrdtList CrdtListLaws.

Local Open Scope N_scope.

(** ** Convergence *)

(** Whatever replicas do, states that have seen the same operations are equal, and
    merging two states succeeds and gives the state that has seen what either has. *)
Definition converges (F EV Call : Type) `{!Replicated F EV Call} : Prop :=
  ∀ tag h S f X g Y, reachable tag h S → (f, X) ∈ S → (g, Y) ∈ S →
    (X = Y → f = g) ∧ rp_merge f g = (rp_denote tag h (X ∪ Y), Ok ()) ∧ rp_merge g f = rp_merge f g ∧ rp_merge f f = (f, Ok ()).

Lemma laws_converge F EV Call `{!Replicated F EV Call} `{!ReplicatedLaws F EV Call} : converges F EV Call.
Proof.
  intros tag h S f X g Y Hr Hf Hg. destruct (reachable_denote tag h S Hr) as [Hwf Hall].
  destruct (Hall f X Hf) as [-> HX], (Hall g Y Hg) as [-> HY]. split_and!.
  - by intros ->.
  - by apply denote_merge.
  - rewrite !denote_merge by done. by rewrite (union_comm_L X Y).
  - rewrite denote_merge by done. by rewrite (union_idemp_L X).
Qed.

(** C3: Replicas of every field type converge: whatever methods are called and
    whatever states are exchanged, in any order, merging any two states succeeds,
    does not depend on the order, and leaves what the operations seen by either
    determine; states that have seen the same operations are equal. *)
Theorem fields_converge {T K : Type} `{!RustOrd T} `{!RowCodec T} `{!RustOrd K} `{!RowCodec K} :
  converges (Value T) T T ∧ converges (Map K T) (map_event K T) (map_event K T) ∧
  converges (CSet T) (set_event T) (set_event T) ∧ converges (CList T) (list_event T) (list_call T) ∧
  converges Text (list_event N) text_call ∧ converges Counter Z counter_call.
Proof. repeat (split; [apply laws_converge, _|]). apply laws_converge, _. Qed.

(** ** Registers *)

Section value.
Context {T : Type} `{!EqDecision T}.
Implicit Types (v : Value T).

Lemma elem_of_Value_observed v i : i ∈ Value_observed v ↔ is_Some (v_values v !! i) ∧ i ∉ v_removed v.
Proof. unfold Value_observed. rewrite list_elem_of_filter, elem_of_sorted_keys. tauto. Qed.

Lemma elem_of_versions v i x : (i, x) ∈ Value_versions v ↔ v_values v !! i = Some x ∧ i ∉ v_removed v.
Proof.
  unfold Value_versions. rewrite list_elem_of_omap. setoid_rewrite elem_of_Value_observed. split.
  - intros (j & [Hj Hr] & Hx). destruct (v_values v !! j) eqn:Hv; naive_solver.
  - intros [Hx Hr]. exists i. rewrite Hx. naive_solver.
Qed.

Lemma sorted_observed v : StronglySorted OpId_le (Value_observed v).
Proof. apply StronglySorted_filter, (StronglySorted_sorted_keys OpId_le). Qed.
Lemma NoDup_observed v : NoDup (Value_observed v).
Proof. apply NoDup_filter, NoDup_sorted_keys. Qed.

Lemma versions_fst v : (Value_versions v).*1 = Value_observed v.
Proof.
  unfold Value_versions. assert (∀ i, i ∈ Value_observed v → is_Some (v_values v !! i)) as Hv by (intros i ?%elem_of_Value_observed; tauto).
  induction (Value_observed v) as [|i k IH]; [done|]. destruct (Hv i (list_elem_of_here _ _)) as [x Hx]. cbn [omap list_omap]. rewrite Hx. cbn. f_equal.
  apply IH. intros j ?. apply Hv. by right.
Qed.

(** The visible version is the one with the greatest identifier, the others are
    conflicts. *)
Lemma versions_snd v : (Value_versions v).*2 = Value_conflicts v ++ option_list (Value_get v).
Proof.
  assert (Value_visible_id v = last (Value_observed v)) as Hvis.
  { unfold Value_visible_id. by rewrite filter_reverse, head_reverse. }
  unfold Value_versions, Value_conflicts, Value_get. rewrite Hvis. clear Hvis.
  assert (∀ i, i ∈ Value_observed v → is_Some (v_values v !! i)) as Hv by (intros i ?%elem_of_Value_observed; tauto).
  pose proof (NoDup_observed v) as Hnd. destruct (Value_observed v) as [|x k _] using rev_ind; [done|].
  rewrite last_snoc, !omap_app. apply NoDup_app in Hnd as (_ & Hx & _). destruct (Hv x) as [y Hy]; [set_solver|].
  cbn [omap list_omap]. rewrite decide_False by naive_solver. rewrite Hy. cbn. rewrite fmap_app, app_nil_r. f_equal; [|by rewrite Hy].
  assert (∀ i, i ∈ k → is_Some (v_values v !! i) ∧ i ≠ x) as Hk.
  { intros i Hi. split; [apply Hv; set_solver|]. intros ->. by apply (Hx x Hi), list_elem_of_singleton. }
  clear Hv Hx Hy. induction k as [|i k IH]; [done|]. destruct (Hk i (list_elem_of_here _ _)) as [[z Hz] Hne].
  cbn [omap list_omap]. rewrite Hz, decide_True by naive_solver. cbn. f_equal. apply IH. intros j ?. apply Hk. by right.
Qed.

(** A register with one current version shows it. *)
Lemma versions_single v i x : (∀ j y, (j, y) ∈ Value_versions v ↔ j = i ∧ y = x) → Value_get v = Some x ∧ Value_conflicts v = [].
Proof.
  intros Hv. assert (Value_observed v = [i]) as Ho.
  { assert (∀ j, j ∈ Value_observed v ↔ j = i) as Hj.
    { intros j. rewrite <- versions_fst, list_elem_of_fmap. split; [intros ([j' y] & -> & Hin%Hv); naive_solver|].
      intros ->. exists (i, x). split; [done|]. by apply Hv. }
    apply Permutation_singleton_r, NoDup_Permutation; [apply NoDup_observed|apply NoDup_singleton|]. set_solver. }
  assert (v_values v !! i = Some x) as Hx by (apply (elem_of_versions v), Hv; done).
  pose proof (versions_snd v) as Hs. unfold Value_versions in Hs. rewrite Ho in Hs. cbn [omap list_omap] in Hs. rewrite Hx in Hs. cbn in Hs.
  assert (Value_get v = Some x) as Hg.
  { unfold Value_get, Value_visible_id. rewrite filter_reverse, head_reverse. fold (Value_observed v). by rewrite Ho. }
  rewrite Hg in Hs. split; [done|]. by apply (app_inj_2 [] (Value_conflicts v) [x] [x]) in Hs as [<- _].
Qed.
End value.

(** The value set by [i] is current in [X]: no operation in [X] had seen it. *)
Definition current {T} (h : history T) (X : gset OpId) (i : OpId) (x : T) : Prop :=
  (∃ e, i ∈ X ∧ h !! i = Some e ∧ ev_kind e = x) ∧ ∀ j e, j ∈ X → h !! j = Some e → i ∉ ev_past e.

Section register.
Context {T : Type} `{!EqDecision T} `{!RowCodec T}.

Lemma denote_versions tag (h : history T) X i x :
  closed h X → (i, x) ∈ Value_versions (rp_denote tag h X) ↔ current h X i x.
Proof.
  intros [_ HX]. rewrite elem_of_versions. simpl. rewrite picked_Some, elem_of_gathered. unfold current. split.
  - intros [(e & Hi & He & [= Hx]) Hr]. split; [by exists e|]. intros j e' Hj He' Hin. destruct Hr. exists j, e'. split_and!; [done|done|].
    unfold superseded. apply elem_of_dom. exists x. apply picked_Some. exists e. by rewrite Hx.
  - intros [(e & Hi & He & Hx) Hr]. split; [exists e; by rewrite Hx|]. intros (j & e' & Hj & He' & Hin). apply (Hr j e' Hj He').
    unfold superseded in Hin. apply elem_of_dom in Hin as [y Hy]. by apply picked_Some in Hy as (? & ? & _).
Qed.

(** A register shows the values that no operation seen has superseded, greatest
    identifier first and the others as conflicts; a value just set is the only one. *)
Theorem register_shows_current tag (h : history T) S f X :
  reachable tag h S → (f, X) ∈ S →
  (∀ i x, (i, x) ∈ Value_versions f ↔ current h X i x) ∧ StronglySorted OpId_le (Value_versions f).*1 ∧
  (Value_versions f).*2 = Value_conflicts f ++ option_list (Value_get f) ∧
  ∀ x sl sl' f', unused h sl → Value_set x sl f = (sl', f', Ok ()) → Value_get f' = Some x ∧ Value_conflicts f' = [].
Proof.
  intros Hr Hf. destruct (reachable_denote tag h S Hr) as [Hwf Hall]. destruct (Hall f X Hf) as [-> HX]. split_and!.
  - intros i x. by apply denote_versions.
  - rewrite versions_fst. apply sorted_observed.
  - apply versions_snd.
  - intros x sl sl' f' Hu Hset. pose proof (denote_invoke tag h X x sl Hwf HX Hu) as Hi. unfold invoke_ok, performed, unused in *.
    change (rp_invoke x) with (Value_set x) in Hi. cbv zeta in Hi. rewrite Hset in Hi.
    unfold Value_set in Hset. rewrite run_next in Hset. destruct (active sl) as [sc|]; [|done]. simpl in Hi.
    set (i := mkOpId (cs_change sc) (cs_next_ordinal sc)) in *. destruct Hi as [-> _].
    assert (h !! i = None) as Hi by (apply Hu; lia). apply (versions_single _ i).
    intros j y. change (mkValue _ _ tag) with (rp_denote tag (<[i := mkEvent x X]> h) ({[i]} ∪ X)).
    rewrite denote_versions by by apply seen_one_more. split.
    + intros [(e & Hj & He & <-) Hcur]. assert (j ∉ X) as HjX.
      { intros HjX. apply (Hcur i (mkEvent x X)); [set_solver|apply lookup_insert_eq|done]. }
      assert (j = i) as -> by set_solver. rewrite lookup_insert_eq in He. by simplify_eq.
    + intros [-> ->]. split; [exists (mkEvent x X); rewrite lookup_insert_eq; set_solver|].
      intros j e Hj He Hin. destruct (decide (j = i)) as [->|Hne].
      * rewrite lookup_insert_eq in He. simplify_eq. simpl in Hin. destruct HX as [HX _]. apply HX, elem_of_dom in Hin as [? ?]. congruence.
      * rewrite lookup_insert_ne in He by done. assert (j ∈ X) as HjX by set_solver. destruct HX as [HX1 HX2].
        apply (HX2 j e HjX He), HX1, elem_of_dom in Hin as [? ?]. congruence.
Qed.
End register.

(** ** Maps *)

Section map.
Context {K V : Type} `{!RustOrd K} `{!EqDecision V} `{!RowCodec K} `{!RowCodec V}.
Implicit Types (m : Map K V).

(** The value put under [key] by [i] is current in [X]: no operation on the key in
    [X] had seen it. *)
Definition current_at (h : history (map_event K V)) (X : gset OpId) (key : K) (i : OpId) (x : V) : Prop :=
  (∃ e, i ∈ X ∧ h !! i = Some e ∧ ev_kind e = MInsert key x) ∧
  ∀ j e, j ∈ X → h !! j = Some e → touches key (ev_kind e) → i ∉ ev_past e.

Lemma inserted_at_Some key (ev : map_event K V) x : inserted_at key ev = Some x ↔ ev = MInsert key x.
Proof. destruct ev as [k v|k]; simpl; [|naive_solver]. destruct (decide (k = key)); naive_solver. Qed.

Lemma entry_versions (h : history (map_event K V)) X key i x :
  (i, x) ∈ Value_versions (entry_at h X key) ↔ current_at h X key i x.
Proof.
  rewrite elem_of_versions. simpl. rewrite picked_Some, elem_of_gathered. setoid_rewrite inserted_at_Some. unfold current_at, removes_at. split.
  - intros [Hins Hr]. split; [done|]. intros j e' Hj He' Ht Hin. destruct Hr. exists j, e'. split_and!; [done|done|].
    rewrite decide_True by done. apply elem_of_dom. exists x. apply picked_Some. destruct Hins as (e & Hi & He & Hk).
    exists e. by rewrite inserted_at_Some.
  - intros [Hins Hr]. split; [done|]. intros (j & e' & Hj & He' & Hin). destruct (decide _) as [Ht|]; [|done].
    apply (Hr j e' Hj He' Ht). apply elem_of_dom in Hin as [y Hy]. by apply picked_Some in Hy as (? & ? & _).
Qed.

Definition entry_or_empty m key : Value V := default Value_default (m_entries m !! key).

Lemma Map_get_entry m key : Map_get m key = Value_get (entry_or_empty m key).
Proof. unfold Map_get, entry_or_empty. by destruct (m_entries m !! key). Qed.
Lemma Map_conflicts_entry m key : Map_conflicts m key = Value_conflicts (entry_or_empty m key).
Proof. unfold Map_conflicts, entry_or_empty. by destruct (m_entries m !! key). Qed.

Lemma elem_of_Map_iter m key x : (key, x) ∈ Map_iter m ↔ Map_get m key = Some x.
Proof.
  unfold Map_iter. rewrite list_elem_of_omap. split.
  - intros (k & _ & Hk). destruct (Map_get m k) eqn:Hg; naive_solver.
  - intros Hg. exists key. rewrite Hg. split; [|done]. apply elem_of_sorted_keys. unfold Map_get in Hg. destruct (m_entries m !! key); [by eexists|done].
Qed.

Lemma Map_iter_keys m : (Map_iter m).*1 = filter (λ key, is_Some (Map_get m key)) (sorted_keys ord_le (m_entries m)).
Proof.
  unfold Map_iter. induction (sorted_keys ord_le (m_entries m)) as [|k l IH]; [done|]. rewrite filter_cons. cbn [omap list_omap].
  destruct (Map_get m k); cbn; [by rewrite decide_True by eauto; f_equal|by rewrite decide_False by by intros []].
Qed.

(** C12: A map shows, under each key, the values that no operation on the key seen has
    superseded or removed, greatest identifier first and the others as conflicts;
    iterating it lists each key with a current value once, in order. *)
Theorem map_shows_current tag (h : history (map_event K V)) S f X :
  reachable tag h S → (f, X) ∈ S →
  (∀ key, ∃ l, (∀ i x, (i, x) ∈ l ↔ current_at h X key i x) ∧ StronglySorted OpId_le l.*1 ∧ NoDup l.*1 ∧
     l.*2 = Map_conflicts f key ++ option_list (Map_get f key)) ∧
  (∀ key x, (key, x) ∈ Map_iter f ↔ Map_get f key = Some x) ∧ StronglySorted ord_le (Map_iter f).*1 ∧ NoDup (Map_iter f).*1.
Proof.
  intros Hr Hf. destruct (reachable_denote tag h S Hr) as [Hwf Hall]. destruct (Hall f X Hf) as [-> HX]. split_and!.
  - intros key. exists (Value_versions (entry_or_empty (rp_denote tag h X) key)).
    rewrite versions_fst, Map_get_entry, Map_conflicts_entry. split_and!; [|apply sorted_observed|apply NoDup_observed|apply versions_snd].
    intros i x. unfold entry_or_empty. simpl. rewrite lookup_entries_at. destruct (decide _) as [Hk|Hk]; [apply entry_versions|].
    rewrite <- entry_versions, !elem_of_versions. simpl. rewrite picked_unkeyed by done. rewrite !lookup_empty. naive_solver.
  - apply elem_of_Map_iter.
  - rewrite Map_iter_keys. apply StronglySorted_filter, (StronglySorted_sorted_keys ord_le).
  - rewrite Map_iter_keys. apply NoDup_filter, NoDup_sorted_keys.
Qed.
End map.

(** ** Sets *)

Section set.
Context {T : Type} `{!RustOrd T} `{!RowCodec T}.
Implicit Types (s : CSet T).

(** An insertion of [v] in [X] that no removal of [v] in [X] had seen. *)
Definition member (h : history (set_event T)) (X : gset OpId) (v : T) : Prop :=
  ∃ i e, i ∈ X ∧ h !! i = Some e ∧ ev_kind e = SInsert v ∧
    ∀ j e', j ∈ X → h !! j = Some e' → ev_kind e' = SRemove v → i ∉ ev_past e'.

Lemma Set_contains_true s v : Set_contains s v = true ↔ ∃ i, s_operations s !! i = Some v ∧ i ∉ s_removed s.
Proof.
  assert (∀ i, i ∈ Set_observed s v ↔ s_operations s !! i = Some v ∧ i ∉ s_removed s) as Hin.
  { intros i. unfold Set_observed. rewrite list_elem_of_filter, elem_of_sorted_keys. naive_solver. }
  setoid_rewrite <- Hin. unfold Set_contains. destruct (Set_observed s v) as [|i l]; simpl; [|set_solver]. split; [done|]. by intros [i ?%elem_of_nil].
Qed.

Lemma elem_of_Set_iter s v : v ∈ Set_iter s ↔ Set_contains s v = true.
Proof.
  unfold Set_iter, sorted_elements. rewrite merge_sort_Permutation, elem_of_elements, elem_of_list_to_set, list_elem_of_omap, Set_contains_true.
  setoid_rewrite list_elem_of_filter. setoid_rewrite elem_of_sorted_keys. naive_solver.
Qed.

(** C11: A set is add-wins: it contains a value exactly when an insertion of it was seen
    that no removal of it seen had observed; iterating lists the values it contains,
    once each and in order. *)
Theorem set_adds_win tag (h : history (set_event T)) S f X :
  reachable tag h S → (f, X) ∈ S →
  (∀ v, Set_contains f v = true ↔ member h X v) ∧
  (∀ v, v ∈ Set_iter f ↔ Set_contains f v = true) ∧ NoDup (Set_iter f) ∧ StronglySorted ord_le (Set_iter f).
Proof.
  intros Hr Hf. destruct (reachable_denote tag h S Hr) as [Hwf Hall]. destruct (Hall f X Hf) as [-> HX]. split_and!.
  - intros v. rewrite Set_contains_true. unfold member. apply exist_proper. intros i. simpl. rewrite picked_Some, elem_of_gathered. split.
    + intros [(e & Hi & He & Hv) Hr']. exists e. split_and!; [done|done|destruct (ev_kind e); naive_solver|].
      intros j e' Hj He' Hk Hin. destruct Hr'. exists j, e'. split_and!; [done|done|]. unfold set_removes. rewrite Hk.
      apply elem_of_dom. exists v. apply map_lookup_filter_Some. split; [|done]. apply picked_Some. eauto.
    + intros (e & Hi & He & Hv & Hcur). split; [exists e; by rewrite Hv|]. intros (j & e' & Hj & He' & Hin). unfold set_removes in Hin.
      destruct (ev_kind e') as [|w] eqn:Hk; [done|]. apply elem_of_dom in Hin as [y [Hy Hyw]%map_lookup_filter_Some]. simpl in Hyw. subst y.
      apply picked_Some in Hy as (e2 & Hpast & He2 & Hw). simplify_eq. rewrite Hv in Hw. simpl in Hw. injection Hw as <-. by eapply Hcur.
  - apply elem_of_Set_iter.
  - unfold Set_iter, sorted_elements. rewrite merge_sort_Permutation. apply NoDup_elements.
  - apply (StronglySorted_merge_sort _).
Qed.
End set.

(** ** Counters *)

Definition clamp_i64 (z : Z) : Z := Z.max (- 2 ^ 63) (Z.min z i64_max).
Definition sum_of (zs : list Z) : Z := foldr Z.add 0%Z zs.

Lemma tally_spec zs p n :
  (∀ z, z ∈ zs → Z.abs z ≤ Z.of_N u64_max)%Z →
  p + N.of_nat (length zs) * u64_max ≤ u128_max → n + N.of_nat (length zs) * u64_max ≤ u128_max →
  let '(p', n') := foldl tally (p, n) zs in (Z.of_N p' - Z.of_N n' = Z.of_N p - Z.of_N n + sum_of zs)%Z.
Proof.
  revert p n. induction zs as [|z zs IH]; intros p n Hz Hp Hn; simpl; [lia|].
  assert (Z.abs z ≤ Z.of_N u64_max)%Z as Hz1 by (apply Hz; left). assert (∀ y, y ∈ zs → Z.abs y ≤ Z.of_N u64_max)%Z as Hz2 by (intros y ?; apply Hz; by right).
  cbn [length] in Hp, Hn. unfold saturating_add. case_bool_decide.
  - rewrite (N.min_l _ u128_max) by (unfold u64_max in *; lia). specialize (IH (p + Z.to_N z) n Hz2).
    destruct (foldl _ _ _) as [p' n']. rewrite IH by (unfold u64_max in *; lia). lia.
  - rewrite (N.min_l _ u128_max) by (unfold u64_max in *; lia). specialize (IH p (n + Z.abs_N z) Hz2).
    destruct (foldl _ _ _) as [p' n']. rewrite IH by (unfold u64_max in *; lia). lia.
Qed.

Lemma Counter_value_clamp zs :
  (∀ z, z ∈ zs → Z.abs z ≤ Z.of_N u64_max)%Z → N.of_nat (length zs) ≤ u64_max →
  (let '(positive, negative) := foldl tally (0, 0) zs in
   if negative <=? positive then Z.min (Z.of_N (positive - negative)) i64_max
   else let magnitude := Z.of_N (negative - positive) in
        if bool_decide (i64_max + 1 ≤ magnitude)%Z then (- 2 ^ 63)%Z else (- magnitude)%Z) = clamp_i64 (sum_of zs).
Proof.
  intros Hz Hlen. pose proof (tally_spec zs 0 0 Hz) as Ht. destruct (foldl tally (0, 0) zs) as [p n]. cbv zeta.
  assert (Z.of_N p - Z.of_N n = sum_of zs)%Z as <- by (rewrite Ht; unfold u64_max, u128_max in *; lia).
  unfold clamp_i64, i64_max. destruct (N.leb_spec n p); [lia|]. case_bool_decide; lia.
Qed.

(** The sum of the amounts of the operations in [X]. *)
Definition amount_at (h : history Z) (i : OpId) : Z := match h !! i with Some e => ev_kind e | None => 0%Z end.
Definition total_of (h : history Z) (X : gset OpId) : Z := sum_of (amount_at h <$> elements X).

Lemma sum_of_perm zs zs' : zs ≡ₚ zs' → sum_of zs = sum_of zs'.
Proof. intros Hp. apply (foldr_permutation_proper (=) Z.add); [apply _|intros; lia|done]. Qed.

Lemma picked_amounts (h : history Z) X :
  X ⊆ dom h →
  omap (λ i, picked Some h X !! i) (sorted_keys ord_le (picked Some h X)) = amount_at h <$> sorted_keys ord_le (picked Some h X) ∧
  sorted_keys ord_le (picked Some h X) ≡ₚ elements X.
Proof.
  intros HX. assert (∀ i, i ∈ sorted_keys ord_le (picked Some h X) ↔ i ∈ X) as Hin.
  { intros i. rewrite elem_of_sorted_keys. unfold is_Some. setoid_rewrite picked_Some. split; [by intros (z & e & ? & _)|].
    intros Hi. assert (i ∈ dom h) as [e He]%elem_of_dom by set_solver. eauto. }
  split.
  - assert (∀ i, i ∈ sorted_keys ord_le (picked Some h X) → picked Some h X !! i = Some (amount_at h i)) as Hl.
    { intros i Hi%Hin. apply picked_Some. assert (i ∈ dom h) as [e He]%elem_of_dom by set_solver. exists e. unfold amount_at. by rewrite He. }
    clear Hin. induction (sorted_keys ord_le (picked Some h X)) as [|i l IH]; [done|]. cbn [omap list_omap]. rewrite (Hl i) by left. cbn. f_equal.
    apply IH. intros j ?. apply Hl. by right.
  - apply NoDup_Permutation; [apply NoDup_sorted_keys|apply NoDup_elements|]. intros i. by rewrite Hin, elem_of_elements.
Qed.

(** A counter shows the sum of the amounts of the operations seen, each counted
    once, held within 64 bits. *)
Theorem counter_shows_sum tag (h : history Z) S f X :
  reachable tag h S → (f, X) ∈ S →
  (∀ i e, h !! i = Some e → Z.abs (ev_kind e) ≤ Z.of_N u64_max)%Z → N.of_nat (size X) ≤ u64_max →
  Counter_value f = clamp_i64 (total_of h X).
Proof.
  intros Hr Hf Hz Hsize. destruct (reachable_denote tag h S Hr) as [Hwf Hall]. destruct (Hall f X Hf) as [-> HX].
  destruct (picked_amounts h X (proj1 HX)) as [Homap Hperm]. unfold Counter_value. simpl in *. rewrite Homap, Counter_value_clamp.
  - f_equal. unfold total_of. by apply sum_of_perm, fmap_Permutation.
  - intros z (i & -> & _)%list_elem_of_fmap. unfold amount_at. destruct (h !! i) as [e|] eqn:He; [by eapply Hz|done].
  - rewrite length_fmap, Hperm. done.
Qed.

(** ** Lists *)

(** The slice can give out [k] more identifiers. *)
Definition ready (sl : Slice) (k : nat) : Prop :=
  ∃ sc, active sl = Some sc ∧ cs_next_ordinal sc + N.of_nat k ≤ u32_max.

Lemma run_next_ready {F A} (k : OpId → op F A) sl f sc :
  active sl = Some sc → cs_next_ordinal sc + 1 ≤ u32_max →
  (id ← scoped next_operation; k id) sl f =
  k (mkOpId (cs_change sc) (cs_next_ordinal sc))
    (mkSlice (Some (mkScope (cs_change sc) (cs_next_ordinal sc + 1) (cs_operations sc))) (completed sl)) f.
Proof. intros Hsc Hn. rewrite run_next, Hsc. destruct (N.ltb_spec u32_max (cs_next_ordinal sc + 1)); [lia|done]. Qed.

Section list.
Context {T : Type} `{!EqDecision T} `{!RowCodec T}.

(** An element of the list in [X]: inserted, and not removed by an operation seen. *)
Definition shown (h : history (list_event T)) (X : gset OpId) (id : OpId) (v : T) : Prop :=
  (∃ e after t, id ∈ X ∧ h !! id = Some e ∧ ev_kind e = LInsert after t v) ∧
  ∀ j e, j ∈ X → h !! j = Some e → ev_kind e ≠ LRemove id.

Lemma put_list_ok tag h X i (l := list_denote (T := T) tag h X) :
  list_wf h → closed h X → h !! i = None →
  anchored (l_elements l) ∧ l_elements l !! i = None ∧ i ∉ l_removed l ∧ max_time (l_elements l) < max_time (l_elements l) + 1.
Proof. intros Hwf HX Hi. destruct (list_fresh h X i Hwf Hi). split_and!; [by apply list_denote_anchored|done|done|lia]. Qed.

Lemma put_runs field change n ops cc i after v payload (l : CList T) :
  i = mkOpId change n → l_elements l !! i = None → max_time (l_elements l) < u64_max →
  ∃ sl', (update (List_insert_after_with_id i after v);; scoped (record_operation field i payload))
           (mkSlice (Some (mkScope change (n + 1) ops)) cc) l = (sl', list_apply i (put l after v) l, Ok ()).
Proof.
  intros Hi Hfresh Ht. pose proof (List_insert_fresh i after v l Hfresh) as Hins. destruct (N.leb_spec (max_time (l_elements l) + 1) u64_max); [|lia].
  erewrite run_update by exact Hins. erewrite run_record_last by done. by eexists.
Qed.

(** C10: A list edits as a list: pushing appends, inserting puts the value at the index
    and removing takes it out and returns it, whatever was removed around it before;
    indices out of range are errors and change nothing. *)
Theorem list_edits tag (h : history (list_event T)) S f X sl :
  reachable tag h S → (f, X) ∈ S → unused h sl → ready sl 1 → max_time (l_elements f) < u64_max →
  (∀ v, ∃ sl' f', List_push v sl f = (sl', f', Ok ()) ∧ List_iter f' = List_iter f ++ [v]) ∧
  (∀ index v,
     if decide (index ≤ length (List_iter f))%nat
     then ∃ sl' f', List_insert index v sl f = (sl', f', Ok ()) ∧ List_iter f' = take index (List_iter f) ++ v :: drop index (List_iter f)
     else List_insert index v sl f = (sl, f, Err IndexOutOfBounds)) ∧
  (∀ index,
     match List_iter f !! index with
     | Some v => ∃ sl' f', List_remove index sl f = (sl', f', Ok v) ∧ List_iter f' = delete index (List_iter f)
     | None => List_remove index sl f = (sl, f, Err IndexOutOfBounds)
     end) ∧
  ∀ index, List_get f index = List_iter f !! index.
Proof.
  intros Hr Hf Hu (sc & Hsc & Hroom) Ht. destruct (reachable_denote tag h S Hr) as [Hwf%wf_list_wf Hall]. destruct (Hall f X Hf) as [-> HX].
  unfold unused in Hu. rewrite Hsc in Hu. set (i := mkOpId (cs_change sc) (cs_next_ordinal sc)).
  assert (h !! i = None) as Hi by (apply Hu; lia). set (l := list_denote tag h X). change (rp_denote tag h X) with l in *.
  destruct (put_list_ok tag h X i Hwf HX Hi) as (Ha & Hfresh & Hrem & Hmax).
  split_and!.
  - intros v. unfold List_push. rewrite (run_next_ready _ _ _ sc), run_self by (done || lia). cbv zeta. fold i.
    edestruct put_runs as [sl' ->]; [done|done|done|]. eexists _, _. split; [done|]. by apply iter_push.
  - intros index v. rewrite length_List_iter. unfold List_insert. rewrite run_self. cbv zeta. fold (List_len l).
    destruct (decide (index ≤ List_len l)%nat) as [Hle|Hgt]; destruct (Nat.ltb_spec (List_len l) index); [lia| |done|lia].
    rewrite (run_next_ready _ _ _ sc) by (done || lia). fold i.
    edestruct put_runs as [sl' ->]; [done|done|done|]. eexists _, _. split; [done|]. by apply iter_insert.
  - intros index. rewrite <- List_get_iter. unfold List_get, List_remove. rewrite run_self.
    destruct (List_visible_ids l !! index) as [id|] eqn:Hid; [|done]. simpl.
    assert (is_Some (l_elements l !! id)) as [el Hel] by (apply (visible_ids_spec l); by eapply list_elem_of_lookup_2).
    simpl in Hel. rewrite Hel. simpl. rewrite (run_next_ready _ _ _ sc) by (done || lia). erewrite run_record by done.
    eexists _, _. split; [done|]. by apply (iter_remove l index id).
  - apply List_get_iter.
Qed.

(** C9: The order of a list never changes: elements that two replicas both have are in
    the same order in both, as in their merge, however the histories interleave; a
    replica shows exactly the elements whose insertion it has seen and whose removal
    it has not, once each. *)
Theorem list_order_kept tag (h : history (list_event T)) S f X g Y :
  reachable tag h S → (f, X) ∈ S → (g, Y) ∈ S →
  (X ⊆ Y → List_ordered_ids f `sublist_of` List_ordered_ids g) ∧
  List_ordered_ids f `sublist_of` List_ordered_ids (List_merge f g).1 ∧
  List_ordered_ids g `sublist_of` List_ordered_ids (List_merge f g).1 ∧
  NoDup (List_visible_ids f) ∧ List_visible_ids f `sublist_of` List_ordered_ids f ∧
  ∀ id v, (id ∈ List_visible_ids f ∧ value_of (l_elements f) id = Some v) ↔ shown h X id v.
Proof.
  intros Hr Hf Hg. destruct (reachable_denote tag h S Hr) as [Hwf%wf_list_wf Hall]. destruct (Hall f X Hf) as [-> HX], (Hall g Y Hg) as [-> HY].
  assert (∀ X Y, closed h X → closed h Y → X ⊆ Y → List_ordered_ids (list_denote tag h X) `sublist_of` List_ordered_ids (list_denote tag h Y)) as Hsub.
  { intros X' Y' HX' HY' Hs.
    assert (picked list_element h X' ⊆ picked list_element h Y') as Hes.
    { apply map_subseteq_spec. intros i el. rewrite !picked_Some. set_solver. }
    apply (forest_sublist (picked list_element h X') (picked list_element h Y') (children_of (picked list_element h X') None) (children_of (picked list_element h Y') None)).
    - done.
    - apply (ordered_ids_forest (list_denote tag h X')). by apply list_denote_anchored.
    - apply (ordered_ids_forest (list_denote tag h Y')). by apply list_denote_anchored.
    - by apply children_sublist. }
  simpl. rewrite list_denote_merge. simpl. split_and!.
  - by apply Hsub.
  - apply Hsub; [done|by apply seen_both|set_solver].
  - apply Hsub; [done|by apply seen_both|set_solver].
  - apply (visible_ids_spec (list_denote tag h X)).
  - apply sublist_filter.
  - intros id v. rewrite (proj2 (visible_ids_spec (list_denote tag h X))). simpl. unfold value_of, shown. rewrite fmap_Some.
    rewrite elem_of_gathered. unfold is_Some. setoid_rewrite picked_Some. split.
    + intros [[_ Hrem] (el & (e & Hi & He & Hel) & ->)]. destruct (ev_kind e) as [a t x|] eqn:Hk; [|done]. injection Hel as <-. split; [eauto 8|].
      intros j e' Hj He' Hk'. destruct Hrem. exists j, e'. unfold list_removes. rewrite Hk'. set_solver.
    + intros [(e & a & t & Hi & He & Hk) Hrem]. assert (list_element (ev_kind e) = Some (mkElement a t v)) as Hel by by rewrite Hk.
      split; [split; [eauto 8|]|eauto 8]. intros (j & e' & Hj & He' & Hin). unfold list_removes in Hin.
      destruct (ev_kind e') eqn:Hk'; [done|]. apply elem_of_singleton in Hin as ->. by eapply Hrem.
Qed.
End list.

(** ** Text *)

Lemma max_time_insert {T} (es : gmap OpId (ListElement T)) id e :
  es !! id = None → max_time es ≤ le_logical_time e → max_time (<[id := e]> es) = le_logical_time e.
Proof.
  intros Hid Hle. unfold max_time. rewrite map_fold_insert_L; [fold (max_time es); lia| |done]. intros. lia.
Qed.

Section text.
Context (tag : Hash) (change : ChangeId).

Lemma insert_chars_value text : ∀ index h X n ops cc,
  let l := list_denote ZERO h X in
  list_wf h → closed h X → unused_from h change n → (index ≤ List_len l)%nat →
  n + N.of_nat (length text) ≤ u32_max → max_time (l_elements l) + N.of_nat (length text) ≤ u64_max →
  ∃ sl' l', insert_chars tag index text (mkSlice (Some (mkScope change n ops)) cc) l = (sl', l', Ok ()) ∧
    List_iter l' = take index (List_iter l) ++ text ++ drop index (List_iter l).
Proof.
  induction text as [|ch text IH]; intros index h X n ops cc l Hwf HX Hu Hi Hn Ht.
  { eexists _, _. split; [done|]. simpl. by rewrite take_drop. }
  cbn [length] in Hn, Ht. cbn [insert_chars]. rewrite run_self. cbv zeta. set (after := before _ _).
  rewrite (run_next_ready _ _ _ (mkScope change n ops)) by (done || simpl; lia). cbn [cs_change cs_next_ordinal cs_operations completed].
  set (i := mkOpId change n). assert (h !! i = None) as Hfresh by (apply Hu; lia).
  destruct (put_list_ok ZERO h X i Hwf HX Hfresh) as (Ha & Hl & Hrem & Hmax). fold l in Ha, Hl, Hrem, Hmax.
  pose proof (List_insert_fresh i after ch l Hl) as Hins. destruct (N.leb_spec (max_time (l_elements l) + 1) u64_max); [|lia].
  erewrite run_update by exact Hins. erewrite run_record by done.
  pose proof (iter_insert l i (max_time (l_elements l) + 1) ch Ha Hl Hrem Hmax index Hi) as Hiter. fold after in Hiter.
  change (inserted l i after (max_time (l_elements l) + 1) ch) with (list_apply i (put l after ch) l) in Hiter.
  pose proof (list_denote_grow ZERO h X i (put l after ch) HX Hfresh) as Hg. fold l in Hg. rewrite <- Hg in Hiter |- *.
  edestruct (IH (S index) (<[i := mkEvent (put l after ch) X]> h) ({[i]} ∪ X) (n + 1)) as (sl' & l' & -> & Hl').
  - apply list_wf_insert; [done..|]. split; [apply before_ok|done].
  - by apply seen_one_more.
  - by apply unused_from_insert.
  - rewrite <- length_List_iter, Hiter, length_app, length_take, length_List_iter. simpl. lia.
  - lia.
  - rewrite Hg. simpl. rewrite max_time_insert by (done || simpl; lia). simpl.
    change (picked list_element h X) with (l_elements l). lia.
  - eexists _, _. split; [done|]. rewrite Hl', Hiter.
    assert (length (take index (List_iter l)) = index) as Hlen by (rewrite length_take, length_List_iter; lia).
    replace (take index (List_iter l) ++ ch :: drop index (List_iter l)) with ((take index (List_iter l) ++ [ch]) ++ drop index (List_iter l))
      by by rewrite <- (assoc_L (++)).
    rewrite take_app_length', drop_app_length' by (rewrite length_app, Hlen; simpl; lia). by rewrite <- !(assoc_L (++)).
Qed.

Lemma delete_chars_value index count : ∀ h X n ops cc,
  let l := list_denote ZERO h X in
  list_wf h → closed h X → unused_from h change n → (index + count ≤ List_len l)%nat → n + N.of_nat count ≤ u32_max →
  ∃ sl' l', delete_chars tag index count (mkSlice (Some (mkScope change n ops)) cc) l = (sl', l', Ok ()) ∧
    List_iter l' = take index (List_iter l) ++ drop (index + count) (List_iter l).
Proof.
  induction count as [|count IH]; intros h X n ops cc l Hwf HX Hu Hi Hn.
  { eexists _, _. split; [done|]. rewrite Nat.add_0_r. by rewrite take_drop. }
  cbn [delete_chars]. rewrite run_self. assert (is_Some (List_visible_ids l !! index)) as [target Hta] by (apply lookup_lt_is_Some; unfold List_len in Hi; lia).
  rewrite Hta, (run_next_ready _ _ _ (mkScope change n ops)) by (done || simpl; lia). cbn [cs_change cs_next_ordinal cs_operations completed].
  set (i := mkOpId change n). assert (h !! i = None) as Hfresh by (apply Hu; lia).
  erewrite run_update by done. erewrite run_record by done.
  pose proof (iter_remove l index target Hta) as Hiter.
  change (mkCList _ _ _) with (list_apply i (LRemove target) l). change (with_removed l target) with (list_apply i (LRemove target) l) in Hiter.
  pose proof (list_denote_grow ZERO h X i (LRemove target) HX Hfresh) as Hg. fold l in Hg. rewrite <- Hg in Hiter |- *.
  edestruct (IH (<[i := mkEvent (LRemove target) X]> h) ({[i]} ∪ X) (n + 1)) as (sl' & l' & -> & Hl').
  - apply list_wf_insert; [done..|]. apply (visible_ids_spec l). by eapply list_elem_of_lookup_2.
  - by apply seen_one_more.
  - by apply unused_from_insert.
  - rewrite <- length_List_iter, Hiter, length_delete, length_List_iter by (rewrite length_List_iter || apply lookup_lt_is_Some; rewrite ?length_List_iter; lia). lia.
  - lia.
  - eexists _, _. split; [done|]. rewrite Hl', Hiter, delete_take_drop.
    assert (length (take index (List_iter l)) = index) as Hlen by (rewrite length_take, length_List_iter; lia).
    rewrite take_app_length', drop_app_add' by done. rewrite drop_drop. do 2 f_equal. lia.
Qed.
End text.

(** C37: Text edits as a string: in a change with fresh identifiers, that has room for
    the operations and, for an insertion, for their logical times, inserting puts
    the characters at the index and deleting takes out the range; ranges outside the
    text are errors, and a call that fails leaves the text unchanged. *)
Theorem text_edits tag (h : history (list_event N)) S t X sl :
  reachable tag h S → (t, X) ∈ S → unused h sl →
  let s := Text_as_string t in
  (∀ index text, ready sl (length text) → max_time (l_elements (t_chars t)) + N.of_nat (length text) ≤ u64_max →
     if decide (index ≤ length s)%nat
     then ∃ sl' t', Text_insert index text sl t = (sl', t', Ok ()) ∧ Text_as_string t' = take index s ++ text ++ drop index s
     else Text_insert index text sl t = (sl, t, Err IndexOutOfBounds)) ∧
  (∀ index count, ready sl count →
     if decide (index + count ≤ length s)%nat
     then ∃ sl' t', Text_delete index count sl t = (sl', t', Ok ()) ∧ Text_as_string t' = take index s ++ drop (index + count) s
     else Text_delete index count sl t = (sl, t, Err IndexOutOfBounds)) ∧
  (∀ index text sl' t' e, Text_insert index text sl t = (sl', t', Err e) → t' = t) ∧
  (∀ index count sl' t' e, Text_delete index count sl t = (sl', t', Err e) → t' = t).
Proof.
  intros Hr Hf Hu s. destruct (reachable_denote tag h S Hr) as [Hwf Hall]. destruct (Hall t X Hf) as [-> HX].
  pose proof (wf_text_wf tag h Hwf) as Hlwf. set (l := list_denote ZERO h X).
  assert (length s = List_len l) as Hs by apply length_List_iter. split_and!.
  - intros index text (sc & Hsc & Hroom) Ht. rewrite Hs. unfold Text_insert. rewrite run_self. unfold Text_len. simpl. fold l.
    unfold unused in Hu. rewrite Hsc in Hu. destruct sl as [? cc]. simpl in Hsc. subst. destruct sc as [change n ops].
    destruct (decide _) as [Hle|Hgt]; destruct (Nat.ltb_spec (List_len l) index); [lia| |done|lia].
    destruct (insert_chars_value tag change text index h X n ops cc Hlwf HX Hu Hle Hroom Ht) as (sl' & l' & Hrun & Hv).
    unfold staged. simpl. fold l in Hrun. rewrite Hrun. eexists _, _. split; [done|exact Hv].
  - intros index count (sc & Hsc & Hroom). rewrite Hs. unfold Text_delete. rewrite run_self. unfold Text_len. simpl. fold l.
    unfold unused in Hu. rewrite Hsc in Hu. destruct sl as [? cc]. simpl in Hsc. subst. destruct sc as [change n ops].
    destruct (decide _) as [Hle|Hgt]; destruct (Nat.ltb_spec (List_len l) (index + count)); [lia| |done|lia].
    destruct (delete_chars_value tag change index count h X n ops cc Hlwf HX Hu Hle Hroom) as (sl' & l' & Hrun & Hv).
    unfold staged. simpl. fold l in Hrun. rewrite Hrun. eexists _, _. split; [done|exact Hv].
  - intros index text sl' t' e Hrun. pose proof (denote_invoke tag h X (TInsert index text) sl Hwf HX Hu) as Hi.
    unfold invoke_ok in Hi. simpl in Hi, Hrun. by rewrite Hrun in Hi.
  - intros index count sl' t' e Hrun. pose proof (denote_invoke tag h X (TDelete index count) sl Hwf HX Hu) as Hi.
    unfold invoke_ok in Hi. simpl in Hi, Hrun. by rewrite Hrun in Hi.
Qed.

(** ** Slices *)


Section slice.
Context {F EV Call : Type} `{!Replicated F EV Call} `{!ReplicatedLaws F EV Call}.



End slice.

(** ** Runs *)

(** A schedule: [Call k c change] calls a method on the [k]-th state, latest first, in a
    slice of its own; [Merge i j] merges two. *)
Inductive schedule (Call : Type) := DoCall (k : nat) (c : Call) (change : ChangeId) | DoMerge (i j : nat).
Arguments DoCall {Call} _ _ _.
Arguments DoMerge {Call} _ _.

Definition slice_of (change : ChangeId) : Slice := mkSlice (Some (mkScope change 0 [])) None.
Definition unknown {EV} (h : history EV) (change : ChangeId) : Prop := Forall (λ i, oi_change i ≠ change) (elements (dom h)).

Section exec.
Context {F EV Call : Type} `{!Replicated F EV Call}.

Definition exec_step (x : history EV * list (F * gset OpId)) (s : schedule Call) : history EV * list (F * gset OpId) :=
  let '(h, sts) := x in
  match s with
  | DoCall k c change =>
      match sts !! k with
      | Some (f, X) =>
          if decide (unknown h change) then
            let '(_, f', r) := rp_invoke c (slice_of change) f in
            let '(h', X') := match r with Ok _ => performed h X c f (slice_of change) | Err _ => (h, X) end in
            (h', (f', X') :: sts)
          else x
      | None => x
      end
  | DoMerge i j =>
      match sts !! i, sts !! j with
      | Some (f, X), Some (g, Y) => let '(f', r) := rp_merge f g in (h, (f', match r with Ok _ => X ∪ Y | Err _ => X end) :: sts)
      | _, _ => x
      end
  end.

Definition exec (tag : Hash) (ss : list (schedule Call)) : history EV * list (F * gset OpId) :=
  foldl exec_step (∅, [(rp_init tag, ∅)]) ss.

Lemma unknown_unused (h : history EV) change : unknown h change → unused_from h change 0.
Proof.
  intros Hu k _. destruct (h !! mkOpId change k) eqn:Hk; [|done]. unfold unknown in Hu. rewrite Forall_forall in Hu.
  destruct (Hu (mkOpId change k)); [|done]. apply elem_of_elements, elem_of_dom. eauto.
Qed.

Lemma exec_reachable tag ss : reachable tag (exec tag ss).1 (exec tag ss).2.
Proof.
  unfold exec. assert (∀ x : history EV * list (F * gset OpId), reachable tag x.1 x.2 →
    reachable tag (foldl exec_step x ss).1 (foldl exec_step x ss).2) as H; [|apply H; constructor].
  induction ss as [|s ss IH]; intros [h sts] Hr; [done|]. apply IH. simpl in *. destruct s as [k c change|i j].
  - destruct (sts !! k) as [[f X]|] eqn:Hk; [|done]. destruct (decide _) as [Hu|]; [|done].
    destruct (rp_invoke c (slice_of change) f) as [[sl' f'] r] eqn:Hi. destruct (match r with Ok _ => _ | Err _ => _ end) as [h' X'] eqn:Hg.
    eapply reach_invoke; [done|by eapply list_elem_of_lookup_2| |done|by rewrite Hg]. by apply unknown_unused.
  - destruct (sts !! i) as [[f X]|] eqn:Hi; [|done]. destruct (sts !! j) as [[g Y]|] eqn:Hj; [|done]. destruct (rp_merge f g) as [f' r] eqn:Hm.
    eapply reach_merge; [done|by eapply list_elem_of_lookup_2|by eapply list_elem_of_lookup_2|done].
Qed.
End exec.

#[local] Instance demo_codec : RowCodec bytes := {| row_encode b := b; try_decode b := Some b |}.

Definition replica_a : ChangeId := [Byte.x01].
Definition replica_b : ChangeId := [Byte.x02].
Definition replica_c : ChangeId := [Byte.x03].

(** Two replicas act on the same state and are merged. *)
Definition concurrent {Call} (first left right : Call) : list (schedule Call) :=
  [DoCall 0 first replica_a; DoCall 0 left replica_b; DoCall 1 right replica_c; DoMerge 0 1].

(** The state after a schedule has what the theorem on [reachable] says. *)
Lemma exec_state {F EV Call} `{!Replicated F EV Call} tag ss f X :
  (exec (F := F) tag ss).2 !! 0%nat = Some (f, X) → (f, X) ∈ (exec (F := F) tag ss).2.
Proof. apply list_elem_of_lookup_2. Qed.

Definition demo_register : list (schedule bytes) := concurrent [Byte.x0a] [Byte.x0b] [Byte.x0c].

Lemma register_shows_current_witness :
  match (exec (F := Value bytes) ZERO demo_register).2 !! 0%nat with
  | Some (f, X) => (Value_versions f).*2 = Value_conflicts f ++ option_list (Value_get f) ∧
      Value_get f = Some [Byte.x0c] ∧ Value_conflicts f = [[Byte.x0b]]
  | None => False
  end.
Proof.
  assert (match (exec (F := Value bytes) ZERO demo_register).2 !! 0%nat with
    | Some (f, _) => Value_get f = Some [Byte.x0c] ∧ Value_conflicts f = [[Byte.x0b]] | None => False end) as Hrun by (vm_compute; split; reflexivity).
  destruct ((exec (F := Value bytes) ZERO demo_register).2 !! 0%nat) as [[f X]|] eqn:Hs; [|exact Hrun]. split; [|exact Hrun].
  exact (proj1 (proj2 (proj2 (register_shows_current ZERO _ _ f X (exec_reachable ZERO demo_register) (exec_state ZERO demo_register f X Hs))))).
Defined.

Definition demo_map : list (schedule (map_event bytes bytes)) :=
  concurrent (MInsert [Byte.x01] [Byte.x0a]) (MInsert [Byte.x01] [Byte.x0b]) (MRemove [Byte.x01]).

(** An insertion wins over a concurrent removal. *)
Lemma map_shows_current_witness :
  match (exec (F := Map bytes bytes) ZERO demo_map).2 !! 0%nat with
  | Some (f, X) => (∀ key x, (key, x) ∈ Map_iter f ↔ Map_get f key = Some x) ∧ Map_iter f = [([Byte.x01], [Byte.x0b])]
  | None => False
  end.
Proof.
  assert (match (exec (F := Map bytes bytes) ZERO demo_map).2 !! 0%nat with
    | Some (f, _) => Map_iter f = [([Byte.x01], [Byte.x0b])] | None => False end) as Hrun by (vm_compute; reflexivity).
  destruct ((exec (F := Map bytes bytes) ZERO demo_map).2 !! 0%nat) as [[f X]|] eqn:Hs; [|exact Hrun]. split; [|exact Hrun].
  exact (proj1 (proj2 (map_shows_current ZERO _ _ f X (exec_reachable ZERO demo_map) (exec_state ZERO demo_map f X Hs)))).
Defined.

Definition demo_set : list (schedule (set_event bytes)) :=
  concurrent (SInsert [Byte.x0a]) (SInsert [Byte.x0a]) (SRemove [Byte.x0a]).

Lemma set_adds_win_witness :
  match (exec (F := CSet bytes) ZERO demo_set).2 !! 0%nat with
  | Some (f, X) => member (exec (F := CSet bytes) ZERO demo_set).1 X [Byte.x0a]
  | None => False
  end.
Proof.
  assert (match (exec (F := CSet bytes) ZERO demo_set).2 !! 0%nat with
    | Some (f, _) => Set_contains f [Byte.x0a] = true | None => False end) as Hrun by (vm_compute; reflexivity).
  destruct ((exec (F := CSet bytes) ZERO demo_set).2 !! 0%nat) as [[f X]|] eqn:Hs; [|exact Hrun].
  apply (proj1 (set_adds_win ZERO _ _ f X (exec_reachable ZERO demo_set) (exec_state ZERO demo_set f X Hs))). exact Hrun.
Defined.

Definition demo_counter : list (schedule counter_call) := concurrent (Increment 5) (Decrement 9) (Add 2).

Lemma counter_shows_sum_witness :
  match (exec (F := Counter) ZERO demo_counter).2 !! 0%nat with
  | Some (f, X) => Counter_value f = clamp_i64 (total_of (exec (F := Counter) ZERO demo_counter).1 X) ∧ Counter_value f = (-2)%Z
  | None => False
  end.
Proof.
  assert (match (exec (F := Counter) ZERO demo_counter).2 !! 0%nat with
    | Some (f, X) => Counter_value f = (-2)%Z ∧ N.of_nat (size X) ≤ u64_max | None => False end) as Hrun.
  { vm_compute. split; [reflexivity|discriminate]. }
  assert (map_Forall (λ _ (e : event Z), (Z.abs (ev_kind e) ≤ Z.of_N u64_max)%Z) (exec (F := Counter) ZERO demo_counter).1) as Hsmall.
  { apply (bool_decide_unpack _). vm_compute. exact I. }
  destruct ((exec (F := Counter) ZERO demo_counter).2 !! 0%nat) as [[f X]|] eqn:Hs; [|exact Hrun]. split; [|exact (proj1 Hrun)].
  apply (counter_shows_sum ZERO _ _ f X (exec_reachable ZERO demo_counter) (exec_state ZERO demo_counter f X Hs)); [|exact (proj2 Hrun)].
  intros i e He. exact (Hsmall i e He).
Defined.

Definition demo_list : list (schedule (list_call bytes)) :=
  concurrent (LPush [Byte.x0a]) (LPush [Byte.x0b]) (LInsertAt 0 [Byte.x0c]).

(** A slice that has not been used in a run. *)
Definition next_slice : Slice := slice_of [Byte.x04].

Lemma next_slice_ready : ready next_slice 1.
Proof. eexists. split; [reflexivity|]. vm_compute. discriminate. Qed.

Lemma list_edits_witness :
  match (exec (F := CList bytes) ZERO demo_list).2 !! 0%nat with
  | Some (f, X) => ∃ sl' f', List_push [Byte.x0d] next_slice f = (sl', f', Ok ()) ∧ List_iter f' = List_iter f ++ [[Byte.x0d]]
  | None => False
  end.
Proof.
  assert (match (exec (F := CList bytes) ZERO demo_list).2 !! 0%nat with
    | Some (f, _) => max_time (l_elements f) < u64_max | None => False end) as Hrun by (vm_compute; reflexivity).
  assert (unknown (exec (F := CList bytes) ZERO demo_list).1 [Byte.x04]) as Hu.
  { apply (bool_decide_unpack _). vm_compute. exact I. }
  destruct ((exec (F := CList bytes) ZERO demo_list).2 !! 0%nat) as [[f X]|] eqn:Hs; [|exact Hrun].
  exact (proj1 (list_edits ZERO _ _ f X next_slice (exec_reachable ZERO demo_list) (exec_state ZERO demo_list f X Hs)
    (unknown_unused _ _ Hu) next_slice_ready Hrun) [Byte.x0d]).
Defined.

Lemma list_order_kept_witness :
  match (exec (F := CList bytes) ZERO demo_list).2 !! 0%nat, (exec (F := CList bytes) ZERO demo_list).2 !! 1%nat with
  | Some (g, Y), Some (f, X) => List_ordered_ids f `sublist_of` List_ordered_ids (List_merge f g).1 ∧
      List_iter f = [[Byte.x0c]; [Byte.x0a]] ∧ List_iter g = [[Byte.x0c]; [Byte.x0a]; [Byte.x0b]]
  | _, _ => False
  end.
Proof.
  assert (match (exec (F := CList bytes) ZERO demo_list).2 !! 0%nat, (exec (F := CList bytes) ZERO demo_list).2 !! 1%nat with
    | Some (g, _), Some (f, _) => List_iter f = [[Byte.x0c]; [Byte.x0a]] ∧ List_iter g = [[Byte.x0c]; [Byte.x0a]; [Byte.x0b]]
    | _, _ => False end) as Hrun by (vm_compute; split; reflexivity).
  destruct ((exec (F := CList bytes) ZERO demo_list).2 !! 0%nat) as [[g Y]|] eqn:Hg; [|exact Hrun].
  destruct ((exec (F := CList bytes) ZERO demo_list).2 !! 1%nat) as [[f X]|] eqn:Hf; [|exact Hrun]. split; [|exact Hrun].
  exact (proj1 (proj2 (list_order_kept ZERO _ _ f X g Y (exec_reachable ZERO demo_list) (list_elem_of_lookup_2 _ _ _ Hf) (list_elem_of_lookup_2 _ _ _ Hg)))).
Defined.

Definition demo_text : list (schedule text_call) :=
  concurrent (TInsert 0 [104; 105]) (TInsert 2 [33]) (TDelete 0 1).

Lemma text_edits_witness :
  match (exec (F := Text) ZERO demo_text).2 !! 0%nat with
  | Some (t, X) => Text_as_string t = [105; 33] ∧
      ∃ sl' t', Text_insert 0 [72] next_slice t = (sl', t', Ok ()) ∧ Text_as_string t' = take 0 (Text_as_string t) ++ [72] ++ drop 0 (Text_as_string t)
  | None => False
  end.
Proof.
  assert (match (exec (F := Text) ZERO demo_text).2 !! 0%nat with
    | Some (t, _) => Text_as_string t = [105; 33] ∧ max_time (l_elements (t_chars t)) + N.of_nat (length [72]) ≤ u64_max
    | None => False end) as Hrun by (vm_compute; split; [reflexivity|discriminate]).
  assert (unknown (exec (F := Text) ZERO demo_text).1 [Byte.x04]) as Hu.
  { apply (bool_decide_unpack _). vm_compute. exact I. }
  destruct ((exec (F := Text) ZERO demo_text).2 !! 0%nat) as [[t X]|] eqn:Hs; [|exact Hrun]. split; [exact (proj1 Hrun)|].
  pose proof (proj1 (text_edits ZERO _ _ t X next_slice (exec_reachable ZERO demo_text) (exec_state ZERO demo_text t X Hs)
    (unknown_unused _ _ Hu)) 0%nat [72] next_slice_ready (proj2 Hrun)) as Hins. cbv zeta in Hins.
  rewrite decide_True in Hins by apply Nat.le_0_l. exact Hins.
Defined.


