(* ===== verification/Frames.v ===== *)
(** * The network frames

    [vos/src/network/wire.rs] and [vos/src/network/codec.rs]: the messages nodes
    exchange, their hand-written encoding, and the length-prefixed stream that
    carries one frame each way.

    A fixed array is its bytes, of the length [r_fixed] reads; a [String] is its
    bytes, valid UTF-8; [v.len() as u32] and [as u16] keep the low bytes of the
    length, as [to_le_bytes] does.  The [Reader] is what is left of the buffer:
    its position never passes the end, so [self.pos + n > self.buf.len()] is a
    comparison with what is left.

    The arms of [Frame::encode] and [Frame::decode] that hold loops are
    definitions of their own. *)

From Stdlib.Strings Require Byte.
From S2P Require Import Prelude Bytes.

Local Open Scope N_scope.

(** ** Tags and limits *)

Definition TAG_HELLO : N := 0x10.
Definition TAG_TELL : N := 0x01.
Definition TAG_INVOKE_REQ : N := 0x02.
Definition TAG_INVOKE_REPLY : N := 0x03.
Definition TAG_ACK : N := 0x04.
Definition TAG_INVOKE_REDIRECT : N := 0x05.
Definition TAG_FETCH_HEADS : N := 0x20.
Definition TAG_HEADS : N := 0x21.
Definition TAG_FETCH_NODE : N := 0x22.
Definition TAG_NODE_REPLY : N := 0x23.
Definition TAG_RAFT_APPEND_REQ : N := 0x30.
Definition TAG_RAFT_APPEND_RESP : N := 0x31.
Definition TAG_RAFT_VOTE_REQ : N := 0x32.
Definition TAG_RAFT_VOTE_RESP : N := 0x33.
Definition TAG_RAFT_INSTALL_REQ : N := 0x37.
Definition TAG_RAFT_INSTALL_RESP : N := 0x38.
Definition TAG_RAFT_JOIN_REQ : N := 0x40.
Definition TAG_RAFT_JOIN_RESP : N := 0x41.
Definition TAG_MANIFEST_REQ : N := 0x42.
Definition TAG_MANIFEST_RESP : N := 0x43.
Definition TAG_RAFT_STATUS_REQ : N := 0x44.
Definition TAG_RAFT_STATUS_RESP : N := 0x45.
Definition TAG_FETCH_PROOF_BLOB : N := 0x50.
Definition TAG_PROOF_BLOB_REPLY : N := 0x51.
Definition TAG_FETCH_PROGRAM_BLOB : N := 0x52.
Definition TAG_PROGRAM_BLOB_REPLY : N := 0x53.
Definition TAG_STORE_PRIVATE_INGRESS : N := 0x54.
Definition TAG_PRIVATE_INGRESS_STORED : N := 0x55.

Definition CID_BYTES : N := 32.
Definition REPLICATION_ID_BYTES : N := 32.
Definition MAX_HEADS : N := 256.
Definition MAX_RAFT_ENTRIES : N := 1024.
Definition MAX_RAFT_MEMBERS : N := 256.
Definition RAFT_ENTRY_KIND_DATA : N := 0.
Definition RAFT_ENTRY_KIND_CONFIG_CHANGE : N := 1.
Definition MANIFEST_MAX_BLOBS : N := 256.
Definition MAX_FRAME_BYTES : N := 8 * 1024 * 1024.
Definition MAX_CHAIN_LEN : N := 32.
Definition MAX_PRIVATE_INGRESS_BYTES : N := 64 * 1024.

(** ** Frames *)

Inductive RaftEntryKind :=
| Data (payload : bytes)
| ConfigChange (joint_old : option (list N)) (members : list N).

Record RaftEntry := mkRaftEntry { re_term : N; re_kind : RaftEntryKind }.

Inductive RaftJoinResult :=
| Accepted (joint_index : N)
| NotLeader (leader_hint : option N)
| UnknownGroup
| Busy
| NotAuthorized
| PolicyMismatch.

Record ManifestBlob := mkManifestBlob { mb_name : bytes; mb_blob : bytes }.

Inductive Frame :=
| Hello (node_prefix : N)
| Tell (from to : N) (payload : bytes)
| InvokeRequest (from to : N) (chain : list N) (msg : bytes)
| InvokeReply (payload : bytes)
| InvokeRedirect (leader_prefix : N)
| FetchHeads (replication_id : bytes)
| Heads (replication_id : bytes) (roots : list bytes)
| FetchNode (replication_id cid : bytes)
| NodeReply (node : option bytes)
| Ack
| RaftAppendReq (replication_id : bytes) (term leader_prefix prev_log_index prev_log_term leader_commit : N)
    (entries : list RaftEntry)
| RaftAppendResp (term : N) (success : bool) (match_index : N)
| RaftVoteReq (replication_id : bytes) (term candidate_prefix last_log_index last_log_term : N)
| RaftVoteResp (term : N) (vote_granted : bool)
| RaftInstallSnapshotReq (replication_id : bytes) (term leader_prefix last_included_index last_included_term offset : N)
    (done_ : bool) (snapshot : bytes) (members : list N) (joint_old : option (list N)) (active_config_index : option N)
| RaftInstallSnapshotResp (term bytes_received : N)
| RaftJoinReq (replication_id : bytes) (joiner_prefix : N) (production_trust_policy : option bytes)
| RaftJoinResp (result_ : RaftJoinResult)
| ManifestReq
| ManifestResp (toml_bytes : bytes) (blobs : list ManifestBlob)
| RaftStatusReq (replication_id : bytes)
| RaftStatusResp (present : bool) (role current_term commit_index last_applied last_log_index : N)
    (members : list N) (joint_old : option (list N)) (active_config_index leader_hint : option N)
| FetchProofBlob (hash : bytes)
| ProofBlobReply (blob : option bytes)
| FetchProgramBlob (hash : bytes)
| ProgramBlobReply (blob : option bytes)
| StorePrivateIngress (replication_id invocation content_hash : bytes) (content_len : N) (bytes_ : bytes)
| PrivateIngressStored (accepted : bool).

Inductive FrameError :=
| Truncated
| UnknownTag (tag : N)
| ChainTooLong (n : N)
| PayloadTooLarge (n : N)
| BadPrivateIngressLength (n : N)
| TrailingBytes (n : N)
| HeadsTooMany (n : N)
| BadOption (b : N)
| RaftEntriesTooMany (n : N)
| RaftMembersTooMany (n : N)
| BadRaftEntryKind (b : N)
| ManifestTooManyBlobs (n : N)
| ManifestBadName.

#[export] Instance RaftEntryKind_eq_dec : EqDecision RaftEntryKind.
Proof. solve_decision. Defined.
#[export] Instance RaftEntry_eq_dec : EqDecision RaftEntry.
Proof. solve_decision. Defined.
#[export] Instance RaftJoinResult_eq_dec : EqDecision RaftJoinResult.
Proof. solve_decision. Defined.
#[export] Instance FrameError_eq_dec : EqDecision FrameError.
Proof. solve_decision. Defined.

(** [RaftEntry::data], [RaftEntry::config_change] *)
Definition RaftEntry_data (term : N) (payload : bytes) : RaftEntry := mkRaftEntry term (Data payload).
Definition RaftEntry_config_change (term : N) (joint_old : option (list N)) (members : list N) : RaftEntry :=
  mkRaftEntry term (ConfigChange joint_old members).

(** ** Encoding *)

Definition u8b (v : N) : bytes := to_le_bytes 1 v.
Definition u16b (v : N) : bytes := to_le_bytes 2 v.
Definition u32b (v : N) : bytes := to_le_bytes 4 v.
Definition u64b (v : N) : bytes := to_le_bytes 8 v.
Definition boolb (v : bool) : bytes := u8b (if v then 1 else 0).

Definition len_of {A} (l : list A) : N := N.of_nat (length l).

(** A length-prefixed payload. *)
Definition payloadb (b : bytes) : bytes := u32b (blen b) ++ b.

(** The shape of every optional field: a discriminant, then the value. *)
Definition optionb {A} (enc : A → bytes) (v : option A) : bytes :=
  match v with Some x => u8b 1 ++ enc x | None => u8b 0 end.

(** A voter list. *)
Definition membersb (ms : list N) : bytes := u16b (len_of ms) ++ (ms ≫= u16b).

Definition encode_raft_entry (e : RaftEntry) : bytes :=
  u64b (re_term e) ++
  match re_kind e with
  | Data payload => u8b RAFT_ENTRY_KIND_DATA ++ payloadb payload
  | ConfigChange joint_old members => u8b RAFT_ENTRY_KIND_CONFIG_CHANGE ++ optionb membersb joint_old ++ membersb members
  end.

Definition encode_append_req (replication_id : bytes) (term leader_prefix prev_log_index prev_log_term leader_commit : N)
    (entries : list RaftEntry) : bytes :=
  u8b TAG_RAFT_APPEND_REQ ++ replication_id ++ u64b term ++ u16b leader_prefix ++ u64b prev_log_index ++
  u64b prev_log_term ++ u64b leader_commit ++ u32b (len_of entries) ++ (entries ≫= encode_raft_entry).

Definition encode_install_req (replication_id : bytes) (term leader_prefix last_included_index last_included_term offset : N)
    (done_ : bool) (snapshot : bytes) (members : list N) (joint_old : option (list N)) (active_config_index : option N) : bytes :=
  u8b TAG_RAFT_INSTALL_REQ ++ replication_id ++ u64b term ++ u16b leader_prefix ++ u64b last_included_index ++
  u64b last_included_term ++ u64b offset ++ boolb done_ ++ payloadb snapshot ++ membersb members ++
  optionb membersb joint_old ++ optionb u64b active_config_index.

Definition encode_join_result (r : RaftJoinResult) : bytes :=
  match r with
  | Accepted joint_index => u8b 0 ++ u64b joint_index
  | NotLeader leader_hint => u8b 1 ++ optionb u16b leader_hint
  | UnknownGroup => u8b 2
  | Busy => u8b 3
  | NotAuthorized => u8b 4
  | PolicyMismatch => u8b 5
  end.

Definition encode_manifest_blob (b : ManifestBlob) : bytes := payloadb (mb_name b) ++ payloadb (mb_blob b).

Definition encode_status_resp (present : bool) (role current_term commit_index last_applied last_log_index : N)
    (members : list N) (joint_old : option (list N)) (active_config_index leader_hint : option N) : bytes :=
  u8b TAG_RAFT_STATUS_RESP ++ boolb present ++ u8b role ++ u64b current_term ++ u64b commit_index ++ u64b last_applied ++
  u64b last_log_index ++ membersb members ++ optionb membersb joint_old ++ optionb u64b active_config_index ++
  optionb u16b leader_hint.

(** [Frame::encode] *)
Definition encode (f : Frame) : bytes :=
  match f with
  | Hello node_prefix => u8b TAG_HELLO ++ u16b node_prefix
  | Tell from to payload => u8b TAG_TELL ++ u32b from ++ u32b to ++ payloadb payload
  | InvokeRequest from to chain msg =>
      u8b TAG_INVOKE_REQ ++ u32b from ++ u32b to ++ u32b (len_of chain) ++ (chain ≫= u32b) ++ payloadb msg
  | InvokeReply payload => u8b TAG_INVOKE_REPLY ++ payloadb payload
  | InvokeRedirect leader_prefix => u8b TAG_INVOKE_REDIRECT ++ u16b leader_prefix
  | FetchHeads replication_id => u8b TAG_FETCH_HEADS ++ replication_id
  | Heads replication_id roots => u8b TAG_HEADS ++ replication_id ++ u32b (len_of roots) ++ (roots ≫= id)
  | FetchNode replication_id cid => u8b TAG_FETCH_NODE ++ replication_id ++ cid
  | NodeReply node => u8b TAG_NODE_REPLY ++ optionb payloadb node
  | Ack => u8b TAG_ACK
  | RaftAppendReq replication_id term leader_prefix prev_log_index prev_log_term leader_commit entries =>
      encode_append_req replication_id term leader_prefix prev_log_index prev_log_term leader_commit entries
  | RaftAppendResp term success match_index => u8b TAG_RAFT_APPEND_RESP ++ u64b term ++ boolb success ++ u64b match_index
  | RaftVoteReq replication_id term candidate_prefix last_log_index last_log_term =>
      u8b TAG_RAFT_VOTE_REQ ++ replication_id ++ u64b term ++ u16b candidate_prefix ++ u64b last_log_index ++ u64b last_log_term
  | RaftVoteResp term vote_granted => u8b TAG_RAFT_VOTE_RESP ++ u64b term ++ boolb vote_granted
  | RaftInstallSnapshotReq replication_id term leader_prefix last_included_index last_included_term offset done_ snapshot
      members joint_old active_config_index =>
      encode_install_req replication_id term leader_prefix last_included_index last_included_term offset done_ snapshot
        members joint_old active_config_index
  | RaftInstallSnapshotResp term bytes_received => u8b TAG_RAFT_INSTALL_RESP ++ u64b term ++ u64b bytes_received
  | RaftJoinReq replication_id joiner_prefix production_trust_policy =>
      u8b TAG_RAFT_JOIN_REQ ++ replication_id ++ u16b joiner_prefix ++ optionb id production_trust_policy
  | RaftJoinResp result_ => u8b TAG_RAFT_JOIN_RESP ++ encode_join_result result_
  | ManifestReq => u8b TAG_MANIFEST_REQ
  | ManifestResp toml_bytes blobs =>
      u8b TAG_MANIFEST_RESP ++ payloadb toml_bytes ++ u32b (len_of blobs) ++ (blobs ≫= encode_manifest_blob)
  | RaftStatusReq replication_id => u8b TAG_RAFT_STATUS_REQ ++ replication_id
  | RaftStatusResp present role current_term commit_index last_applied last_log_index members joint_old active_config_index
      leader_hint =>
      encode_status_resp present role current_term commit_index last_applied last_log_index members joint_old
        active_config_index leader_hint
  | FetchProofBlob hash => u8b TAG_FETCH_PROOF_BLOB ++ hash
  | ProofBlobReply blob => u8b TAG_PROOF_BLOB_REPLY ++ optionb payloadb blob
  | FetchProgramBlob hash => u8b TAG_FETCH_PROGRAM_BLOB ++ hash
  | ProgramBlobReply blob => u8b TAG_PROGRAM_BLOB_REPLY ++ optionb payloadb blob
  | StorePrivateIngress replication_id invocation content_hash content_len b =>
      u8b TAG_STORE_PRIVATE_INGRESS ++ replication_id ++ invocation ++ content_hash ++ u64b content_len ++ payloadb b
  | PrivateIngressStored accepted => u8b TAG_PRIVATE_INGRESS_STORED ++ boolb accepted
  end.

(** ** Decoding *)

Definition reader (A : Type) : Type := bytes → result FrameError (A * bytes).

#[export] Instance reader_ret : MRet reader := λ _ x b, Ok (x, b).
#[export] Instance reader_bind : MBind reader := λ _ _ k p b,
  match p b with Ok (x, r) => k x r | Err e => Err e end.

Definition reject {A} (e : FrameError) : reader A := λ _, Err e.

(** [Reader::take] *)
Definition r_take (n : N) : reader bytes := λ b,
  if n <=? blen b then Ok (take (N.to_nat n) b, drop (N.to_nat n) b) else Err Truncated.

Definition r_uint (w : nat) : reader N := b ← r_take (N.of_nat w); mret (from_le_bytes b).
Definition r_u8 : reader N := r_uint 1.
Definition r_u16 : reader N := r_uint 2.
Definition r_u32 : reader N := r_uint 4.
Definition r_u64 : reader N := r_uint 8.

Definition bytes_with_len_prefix : reader bytes :=
  len ← r_u32;
  if MAX_FRAME_BYTES <? len then reject (PayloadTooLarge len) else r_take len.

(** [Reader::fixed] *)
Definition r_fixed (n : N) : reader bytes := r_take n.

Definition r_bool : reader bool :=
  b ← r_u8;
  match b with 0 => mret false | 1 => mret true | other => reject (BadOption other) end.

Definition r_option {A} (r : reader A) : reader (option A) :=
  b ← r_u8;
  match b with 0 => mret None | 1 => x ← r; mret (Some x) | other => reject (BadOption other) end.

Fixpoint r_items {A} (r : reader A) (n : nat) : reader (list A) :=
  match n with
  | O => mret []
  | S n => x ← r; xs ← r_items r n; mret (x :: xs)
  end.

(** A count, its cap, the items. *)
Definition r_counted {A} (count : reader N) (cap : N) (e : N → FrameError) (r : reader A) : reader (list A) :=
  n ← count;
  if cap <? n then reject (e n) else r_items r (N.to_nat n).

Definition r_members : reader (list N) := r_counted r_u16 MAX_RAFT_MEMBERS RaftMembersTooMany r_u16.

Definition decode_raft_entry : reader RaftEntry :=
  entry_term ← r_u64;
  kind_tag ← r_u8;
  kind ← (if kind_tag =? RAFT_ENTRY_KIND_DATA then payload ← bytes_with_len_prefix; mret (Data payload)
          else if kind_tag =? RAFT_ENTRY_KIND_CONFIG_CHANGE then
            joint_old ← r_option r_members;
            members ← r_members;
            mret (ConfigChange joint_old members)
          else reject (BadRaftEntryKind kind_tag));
  mret (mkRaftEntry entry_term kind).

Definition decode_append_req : reader Frame :=
  replication_id ← r_fixed REPLICATION_ID_BYTES;
  term ← r_u64;
  leader_prefix ← r_u16;
  prev_log_index ← r_u64;
  prev_log_term ← r_u64;
  leader_commit ← r_u64;
  entries ← r_counted r_u32 MAX_RAFT_ENTRIES RaftEntriesTooMany decode_raft_entry;
  mret (RaftAppendReq replication_id term leader_prefix prev_log_index prev_log_term leader_commit entries).

Definition decode_install_req : reader Frame :=
  replication_id ← r_fixed REPLICATION_ID_BYTES;
  term ← r_u64;
  leader_prefix ← r_u16;
  last_included_index ← r_u64;
  last_included_term ← r_u64;
  offset ← r_u64;
  done_ ← r_bool;
  snapshot ← bytes_with_len_prefix;
  members ← r_members;
  joint_old ← r_option r_members;
  active_config_index ← r_option r_u64;
  mret (RaftInstallSnapshotReq replication_id term leader_prefix last_included_index last_included_term offset done_
          snapshot members joint_old active_config_index).

Definition decode_join_result : reader RaftJoinResult :=
  variant ← r_u8;
  match variant with
  | 0 => joint_index ← r_u64; mret (Accepted joint_index)
  | 1 => leader_hint ← r_option r_u16; mret (NotLeader leader_hint)
  | 2 => mret UnknownGroup
  | 3 => mret Busy
  | 4 => mret NotAuthorized
  | 5 => mret PolicyMismatch
  | other => reject (BadOption other)
  end.

Definition decode_manifest_blob : reader ManifestBlob :=
  name ← bytes_with_len_prefix;
  if utf8_valid name then blob ← bytes_with_len_prefix; mret (mkManifestBlob name blob) else reject ManifestBadName.

Definition decode_status_resp : reader Frame :=
  present ← r_bool;
  role ← r_u8;
  current_term ← r_u64;
  commit_index ← r_u64;
  last_applied ← r_u64;
  last_log_index ← r_u64;
  members ← r_members;
  joint_old ← r_option r_members;
  active_config_index ← r_option r_u64;
  leader_hint ← r_option r_u16;
  mret (RaftStatusResp present role current_term commit_index last_applied last_log_index members joint_old
          active_config_index leader_hint).

Definition decode_private_ingress : reader Frame :=
  replication_id ← r_fixed REPLICATION_ID_BYTES;
  invocation ← r_fixed 32;
  content_hash ← r_fixed 32;
  content_len ← r_u64;
  b ← bytes_with_len_prefix;
  if (blen b =? 0) || (MAX_PRIVATE_INGRESS_BYTES <? blen b) || negb (content_len =? blen b)
  then reject (BadPrivateIngressLength content_len)
  else mret (StorePrivateIngress replication_id invocation content_hash content_len b).

(** The match of [Frame::decode] on the tag. *)
Definition decode_tagged (tag : N) : reader Frame :=
  if tag =? TAG_HELLO then node_prefix ← r_u16; mret (Hello node_prefix)
  else if tag =? TAG_TELL then from ← r_u32; to ← r_u32; payload ← bytes_with_len_prefix; mret (Tell from to payload)
  else if tag =? TAG_INVOKE_REQ then
    from ← r_u32;
    to ← r_u32;
    chain ← r_counted r_u32 MAX_CHAIN_LEN ChainTooLong r_u32;
    msg ← bytes_with_len_prefix;
    mret (InvokeRequest from to chain msg)
  else if tag =? TAG_INVOKE_REPLY then payload ← bytes_with_len_prefix; mret (InvokeReply payload)
  else if tag =? TAG_INVOKE_REDIRECT then leader_prefix ← r_u16; mret (InvokeRedirect leader_prefix)
  else if tag =? TAG_FETCH_HEADS then replication_id ← r_fixed REPLICATION_ID_BYTES; mret (FetchHeads replication_id)
  else if tag =? TAG_HEADS then
    replication_id ← r_fixed REPLICATION_ID_BYTES;
    roots ← r_counted r_u32 MAX_HEADS HeadsTooMany (r_fixed CID_BYTES);
    mret (Heads replication_id roots)
  else if tag =? TAG_FETCH_NODE then
    replication_id ← r_fixed REPLICATION_ID_BYTES;
    cid ← r_fixed CID_BYTES;
    mret (FetchNode replication_id cid)
  else if tag =? TAG_NODE_REPLY then node ← r_option bytes_with_len_prefix; mret (NodeReply node)
  else if tag =? TAG_ACK then mret Ack
  else if tag =? TAG_RAFT_APPEND_REQ then decode_append_req
  else if tag =? TAG_RAFT_APPEND_RESP then
    term ← r_u64; success ← r_bool; match_index ← r_u64; mret (RaftAppendResp term success match_index)
  else if tag =? TAG_RAFT_VOTE_REQ then
    replication_id ← r_fixed REPLICATION_ID_BYTES;
    term ← r_u64;
    candidate_prefix ← r_u16;
    last_log_index ← r_u64;
    last_log_term ← r_u64;
    mret (RaftVoteReq replication_id term candidate_prefix last_log_index last_log_term)
  else if tag =? TAG_RAFT_VOTE_RESP then term ← r_u64; vote_granted ← r_bool; mret (RaftVoteResp term vote_granted)
  else if tag =? TAG_RAFT_INSTALL_REQ then decode_install_req
  else if tag =? TAG_RAFT_INSTALL_RESP then
    term ← r_u64; bytes_received ← r_u64; mret (RaftInstallSnapshotResp term bytes_received)
  else if tag =? TAG_RAFT_JOIN_REQ then
    replication_id ← r_fixed REPLICATION_ID_BYTES;
    joiner_prefix ← r_u16;
    production_trust_policy ← r_option (r_fixed 32);
    mret (RaftJoinReq replication_id joiner_prefix production_trust_policy)
  else if tag =? TAG_RAFT_JOIN_RESP then result_ ← decode_join_result; mret (RaftJoinResp result_)
  else if tag =? TAG_MANIFEST_REQ then mret ManifestReq
  else if tag =? TAG_MANIFEST_RESP then
    toml_bytes ← bytes_with_len_prefix;
    blobs ← r_counted r_u32 MANIFEST_MAX_BLOBS ManifestTooManyBlobs decode_manifest_blob;
    mret (ManifestResp toml_bytes blobs)
  else if tag =? TAG_RAFT_STATUS_REQ then replication_id ← r_fixed REPLICATION_ID_BYTES; mret (RaftStatusReq replication_id)
  else if tag =? TAG_RAFT_STATUS_RESP then decode_status_resp
  else if tag =? TAG_FETCH_PROOF_BLOB then hash ← r_fixed 32; mret (FetchProofBlob hash)
  else if tag =? TAG_PROOF_BLOB_REPLY then blob ← r_option bytes_with_len_prefix; mret (ProofBlobReply blob)
  else if tag =? TAG_FETCH_PROGRAM_BLOB then hash ← r_fixed 32; mret (FetchProgramBlob hash)
  else if tag =? TAG_PROGRAM_BLOB_REPLY then blob ← r_option bytes_with_len_prefix; mret (ProgramBlobReply blob)
  else if tag =? TAG_STORE_PRIVATE_INGRESS then decode_private_ingress
  else if tag =? TAG_PRIVATE_INGRESS_STORED then accepted ← r_bool; mret (PrivateIngressStored accepted)
  else reject (UnknownTag tag).

(** [Frame::decode] *)
Definition decode (b : bytes) : result FrameError Frame :=
  match (tag ← r_u8; decode_tagged tag) b with
  | Ok (f, []) => Ok f
  | Ok (_, rest) => Err (TrailingBytes (blen rest))
  | Err e => Err e
  end.

(** ** The size of an AppendEntries frame *)

Definition checked_mul (a b : N) : option N := if a * b <=? u64_max then Some (a * b) else None.

Definition RAFT_APPEND_FRAME_BASE_BYTES : N := 71.

Definition raft_entry_encoded_len (e : RaftEntry) : option N :=
  body ←
    match re_kind e with
    | Data payload => a ← checked_add 1 4; checked_add a (blen payload)
    | ConfigChange joint_old members =>
        if (MAX_RAFT_MEMBERS <? len_of members) ||
           match joint_old with Some old => MAX_RAFT_MEMBERS <? len_of old | None => false end
        then None
        else
          old ← match joint_old with
                | None => Some 1
                | Some old => a ← checked_add 1 2; b ← checked_mul (len_of old) 2; checked_add a b
                end;
          a ← checked_add 1 old;
          b ← checked_add a 2;
          c ← checked_mul (len_of members) 2;
          checked_add b c
    end;
  checked_add 8 body.

(** The loop over the leading entries: the bytes and the count so far.  [None]
    is the [?] inside it. *)
Fixpoint prefix_loop (es : list RaftEntry) (encoded count : N) : option N :=
  match es with
  | [] => Some count
  | e :: es =>
      len ← raft_entry_encoded_len e;
      next ← checked_add encoded len;
      if MAX_FRAME_BYTES <? next then Some count else prefix_loop es next (count + 1)
  end.

Definition raft_append_prefix_len (es : list RaftEntry) : option N :=
  count ← prefix_loop (take (N.to_nat MAX_RAFT_ENTRIES) es) RAFT_APPEND_FRAME_BASE_BYTES 0;
  if (len_of es =? 0) || negb (count =? 0) then Some count else None.

(** ** The stream *)

(** [io::Error]: the end of the stream inside [read_exact], and the
    [InvalidData] errors with what they report. *)
Inductive IoError :=
| UnexpectedEof
| FrameTooLarge
| LengthExceedsCap (len : N)
| InvalidFrame (e : FrameError).

(** The bytes [write_frame] writes. *)
Definition write_frame (f : Frame) : result IoError bytes :=
  let b := encode f in
  if MAX_FRAME_BYTES <? blen b then Err FrameTooLarge else Ok (u32b (blen b) ++ b).

(** [read_exact]: the bytes asked for and what the stream holds after them. *)
Definition read_exact (n : N) (s : bytes) : result IoError (bytes * bytes) :=
  if n <=? blen s then Ok (take (N.to_nat n) s, drop (N.to_nat n) s) else Err UnexpectedEof.

Definition read_frame (s : bytes) : result IoError (Frame * bytes) :=
  match read_exact 4 s with
  | Err e => Err e
  | Ok (len_bytes, s) =>
      let len := from_le_bytes len_bytes in
      if MAX_FRAME_BYTES <? len then Err (LengthExceedsCap len)
      else
        match read_exact len s with
        | Err e => Err e
        | Ok (buf, s) => match decode buf with Ok f => Ok (f, s) | Err e => Err (InvalidFrame e) end
        end
  end.
