(* ===== verification/FrameLaws.v ===== *)
(** * What the frame decoder accepts

    [reads r P enc]: reading [r] succeeds exactly on the encodings [enc x] of the
    values with [P x], and returns [x] with the bytes after it.  The primitives of
    the [Reader] and the shapes the frames are built of ([r_option], [r_counted])
    have it; [reads_bind] composes it field by field, and [decode_reads] is the
    whole decoder: [frame_ok] says which frames have an encoding that is
    accepted. *)

From Stdlib.Strings Require Byte.
From S2P Require Import Prelude Bytes Frames.

Local Open Scope N_scope.

Definition reads {A} (r : reader A) (P : A → Prop) (enc : A → bytes) : Prop :=
  ∀ b x rest, r b = Ok (x, rest) ↔ P x ∧ b = enc x ++ rest.

Lemma reader_bind_ok {A B} (p : reader A) (k : A → reader B) b y rest :
  (p ≫= k) b = Ok (y, rest) ↔ ∃ x r, p b = Ok (x, r) ∧ k x r = Ok (y, rest).
Proof.
  unfold mbind, reader_bind. destruct (p b) as [[x r]|e]; [|naive_solver].
  split; [eauto|]. intros (x' & r' & [= <- <-] & Hk). done.
Qed.

Lemma reader_ret_ok {A} (x : A) b y rest : (mret x : reader A) b = Ok (y, rest) ↔ y = x ∧ rest = b.
Proof. unfold mret, reader_ret. split; [by intros [= <- <-]|by intros [-> ->]]. Qed.

(** A field, then the rest of the frame. *)
Lemma reads_bind {A B} (r : reader A) P enc (k : A → reader B) b y rest :
  reads r P enc →
  (r ≫= k) b = Ok (y, rest) ↔ ∃ x b', P x ∧ b = enc x ++ b' ∧ k x b' = Ok (y, rest).
Proof.
  intros Hr. rewrite reader_bind_ok. split.
  - intros (x & b' & Hx & Hk). apply Hr in Hx as [Hx ->]. eauto 6.
  - intros (x & b' & Hx & -> & Hk). exists x, b'. split; [|done]. by apply Hr.
Qed.

Lemma reads_take n : reads (r_take n) (λ w, blen w = n) id.
Proof.
  intros b x rest. unfold r_take, id. split.
  - destruct (N.leb_spec n (blen b)) as [Hn|]; [|done]. intros [= <- <-].
    rewrite take_drop. split; [|done]. unfold blen in *. rewrite length_take. lia.
  - intros [Hn ->]. rewrite blen_app, (proj2 (N.leb_le _ _)) by lia. unfold blen in Hn.
    by rewrite take_app_length', drop_app_length' by lia.
Qed.

Lemma reads_uint w : reads (r_uint w) (λ v, v < int_modulus w) (to_le_bytes w).
Proof.
  intros b v rest. unfold r_uint. rewrite (reads_bind _ _ _ _ _ _ _ (reads_take _)). split.
  - intros (x & b' & Hx & -> & [-> ->]%reader_ret_ok). unfold blen in Hx.
    assert (length x = w) as <- by lia. split; [apply from_le_bytes_lt|by rewrite to_from_le_bytes].
  - intros [Hv ->]. exists (to_le_bytes w v), rest. split_and!; [unfold blen; by rewrite length_to_le_bytes|done|].
    apply reader_ret_ok. by rewrite from_to_le_bytes.
Qed.

Definition u8_ok (v : N) : Prop := v < 256.
Definition u16_ok (v : N) : Prop := v < 65536.
Definition u32_ok (v : N) : Prop := v < 4294967296.
Definition u64_ok (v : N) : Prop := v < u64_modulus.
Definition fixed_ok (b : bytes) : Prop := blen b = 32.
Definition payload_ok (b : bytes) : Prop := blen b ≤ MAX_FRAME_BYTES.

Lemma reads_u8 : reads r_u8 u8_ok u8b.
Proof. apply reads_uint. Qed.
Lemma reads_u16 : reads r_u16 u16_ok u16b.
Proof. apply reads_uint. Qed.
Lemma reads_u32 : reads r_u32 u32_ok u32b.
Proof. apply reads_uint. Qed.
Lemma reads_u64 : reads r_u64 u64_ok u64b.
Proof. apply reads_uint. Qed.
Lemma reads_fixed : reads (r_fixed 32) fixed_ok id.
Proof. apply reads_take. Qed.

Lemma reads_payload : reads bytes_with_len_prefix payload_ok payloadb.
Proof.
  intros b x rest. unfold bytes_with_len_prefix. rewrite (reads_bind _ _ _ _ _ _ _ reads_u32). unfold payloadb. split.
  - intros (n & b' & Hn & -> & Hk). destruct (N.ltb_spec MAX_FRAME_BYTES n) as [|Hc]; [done|].
    apply reads_take in Hk as [<- ->]. unfold id. by rewrite <- app_assoc.
  - intros [Hx ->]. unfold payload_ok in Hx. exists (blen x), (x ++ rest). rewrite <- app_assoc.
    split_and!; [unfold u32_ok, MAX_FRAME_BYTES in *; lia|done|].
    rewrite (proj2 (N.ltb_ge _ _)) by done. by apply reads_take.
Qed.

Lemma reads_bool : reads r_bool (λ _, True) boolb.
Proof.
  intros b x rest. unfold r_bool. rewrite (reads_bind _ _ _ _ _ _ _ reads_u8). split.
  - intros (n & b' & _ & -> & Hk). destruct n as [|[p|p|]]; [| done..|]; apply reader_ret_ok in Hk as [-> ->]; done.
  - intros [_ ->]. exists (if x then 1 else 0), rest. split_and!; [by destruct x|done|]. by destruct x.
Qed.

Definition opt_ok {A} (P : A → Prop) (v : option A) : Prop := match v with Some x => P x | None => True end.

Lemma reads_option {A} (r : reader A) P enc : reads r P enc → reads (r_option r) (opt_ok P) (optionb enc).
Proof.
  intros Hr b x rest. unfold r_option. rewrite (reads_bind _ _ _ _ _ _ _ reads_u8). split.
  - intros (n & b' & _ & -> & Hk). destruct n as [|[p|p|]]; [|done..|].
    + by apply reader_ret_ok in Hk as [-> ->].
    + apply (reads_bind _ _ _ _ _ _ _ Hr) in Hk as (y & b'' & Hy & -> & [-> ->]%reader_ret_ok). cbn. by rewrite <- app_assoc.
  - intros [Hx ->]. destruct x as [y|]; cbn.
    + exists 1, (enc y ++ rest). rewrite <- app_assoc. split_and!; [done|done|].
      apply (reads_bind _ _ _ _ _ _ _ Hr). exists y, rest. by split_and!.
    + by exists 0, rest.
Qed.

Lemma reads_items {A} (r : reader A) P enc n :
  reads r P enc → reads (r_items r n) (λ xs, length xs = n ∧ Forall P xs) (mbind enc).
Proof.
  intros Hr. induction n as [|n IH]; intros b xs rest; cbn [r_items].
  - rewrite reader_ret_ok. split; [by intros [-> ->]|]. intros [[Hn _] ->]. by apply length_zero_iff_nil in Hn as ->.
  - rewrite (reads_bind _ _ _ _ _ _ _ Hr). split.
    + intros (x & b' & Hx & -> & Hk). apply (reads_bind _ _ _ _ _ _ _ IH) in Hk as (ys & b'' & [Hn Hys] & -> & [-> ->]%reader_ret_ok).
      cbn. rewrite <- app_assoc. split; [|done]. split; [by rewrite Hn|by constructor].
    + intros [[Hn Hxs] ->]. destruct Hxs as [|x xs Hx Hxs]; [done|]. injection Hn as Hn.
      exists x, ((xs ≫= enc) ++ rest). cbn. rewrite <- app_assoc. split_and!; [done|done|].
      apply (reads_bind _ _ _ _ _ _ _ IH). exists xs, rest. by split_and!.
Qed.

Definition list_ok {A} (cap : N) (P : A → Prop) (xs : list A) : Prop := len_of xs ≤ cap ∧ Forall P xs.

Lemma reads_counted {A} (count : reader N) Pn encn cap e (r : reader A) P enc :
  reads count Pn encn → (∀ n, n ≤ cap → Pn n) → reads r P enc →
  reads (r_counted count cap e r) (list_ok cap P) (λ xs, encn (len_of xs) ++ (xs ≫= enc)).
Proof.
  intros Hc Hcap Hr b xs rest. unfold r_counted. rewrite (reads_bind _ _ _ _ _ _ _ Hc). unfold list_ok, len_of. split.
  - intros (n & b' & _ & -> & Hk). destruct (N.ltb_spec cap n) as [|Hn]; [done|].
    apply (reads_items _ _ _ _ Hr) in Hk as [[Hl Hxs] ->]. rewrite Hl, N2Nat.id, <- app_assoc. done.
  - intros [[Hl Hxs] ->]. exists (N.of_nat (length xs)), ((xs ≫= enc) ++ rest). rewrite <- app_assoc.
    split_and!; [by apply Hcap|done|]. rewrite (proj2 (N.ltb_ge _ _)), Nat2N.id by done.
    by apply (reads_items _ _ _ _ Hr).
Qed.

Definition members_ok : list N → Prop := list_ok MAX_RAFT_MEMBERS u16_ok.

Lemma reads_members : reads r_members members_ok membersb.
Proof. apply (reads_counted _ _ _ _ _ _ _ _ reads_u16); [|apply reads_u16]. unfold MAX_RAFT_MEMBERS, u16_ok. lia. Qed.

(** ** Structured fields *)

Create HintDb reads.
#[export] Hint Resolve reads_u8 reads_u16 reads_u32 reads_u64 reads_fixed reads_payload reads_bool reads_option reads_members : reads.

(** Reads the fields of the reader in [H] one after the other; each equation
    the reads leave is substituted. *)
Ltac read_fields H :=
  repeat match type of H with
  | (mbind _ _) _ = Ok _ =>
      let x := fresh "x" in let b := fresh "b" in let Hx := fresh "Hx" in let Hb := fresh "Hb" in
      eapply reads_bind in H; [|solve [eauto with reads]]; destruct H as (x & b & Hx & Hb & H)
  | mret _ _ = Ok _ => apply reader_ret_ok in H; destruct H as [-> ->]
  end; subst.

(** The other way: the encoding of the fields is read back field by field. *)
Ltac read_back :=
  repeat match goal with
  | |- mbind _ _ _ = Ok _ =>
      eapply reads_bind; [solve [eauto with reads]|];
      eexists _, _; split; [|split; [reflexivity|]]; [try done|cbn beta iota]
  | |- mret _ _ = Ok _ => by apply reader_ret_ok
  end.

Definition kind_ok (k : RaftEntryKind) : Prop :=
  match k with
  | Data payload => payload_ok payload
  | ConfigChange joint_old members => opt_ok members_ok joint_old ∧ members_ok members
  end.
Definition entry_ok (e : RaftEntry) : Prop := u64_ok (re_term e) ∧ kind_ok (re_kind e).

Lemma reads_entry : reads decode_raft_entry entry_ok encode_raft_entry.
Proof.
  intros b e rest. unfold decode_raft_entry, encode_raft_entry, entry_ok. split.
  - intros H. read_fields H. apply reader_bind_ok in H as (k & r & Hk & H). read_fields H. cbn [re_term re_kind].
    destruct (N.eqb_spec x0 RAFT_ENTRY_KIND_DATA) as [->|_]; [|destruct (N.eqb_spec x0 RAFT_ENTRY_KIND_CONFIG_CHANGE) as [->|_]; [|done]];
      read_fields Hk; cbn [kind_ok]; by rewrite <- ?app_assoc.
  - destruct e as [t k]. cbn [re_term re_kind]. intros [[Ht Hk] ->]. rewrite <- app_assoc. read_back.
    destruct k as [p|j ms]; rewrite <- ?app_assoc; cbn [kind_ok] in Hk; try destruct Hk as [Hj Hms]; read_back;
      apply reader_bind_ok; (eexists _, _; split; [|by apply reader_ret_ok]); cbn [N.eqb]; unfold RAFT_ENTRY_KIND_DATA, RAFT_ENTRY_KIND_CONFIG_CHANGE; cbn [N.eqb Pos.eqb]; read_back.
Qed.

Definition join_ok (r : RaftJoinResult) : Prop :=
  match r with
  | Accepted joint_index => u64_ok joint_index
  | NotLeader leader_hint => opt_ok u16_ok leader_hint
  | _ => True
  end.

Lemma reads_join : reads decode_join_result join_ok encode_join_result.
Proof.
  intros b e rest. unfold decode_join_result. split.
  - intros H. read_fields H.
    destruct x as [|[[[p|p|]|[p|p|]|]|[[p|p|]|[p|p|]|]|]]; try done; read_fields H; cbn; by rewrite <- ?app_assoc.
  - intros [He ->]. destruct e; cbn [encode_join_result]; rewrite <- ?app_assoc; read_back.
Qed.

Definition blob_ok (b : ManifestBlob) : Prop := payload_ok (mb_name b) ∧ payload_ok (mb_blob b) ∧ utf8_valid (mb_name b) = true.

Lemma reads_blob : reads decode_manifest_blob blob_ok encode_manifest_blob.
Proof.
  intros b e rest. unfold decode_manifest_blob, encode_manifest_blob, blob_ok. split.
  - intros H. read_fields H. destruct (utf8_valid x) eqn:Hu; [|done]. read_fields H. cbn. by rewrite <- app_assoc.
  - destruct e as [n c]. cbn [mb_name mb_blob]. intros [(Hn & Hc & Hu) ->]. rewrite <- app_assoc. read_back. rewrite Hu. read_back.
Qed.

#[export] Hint Resolve reads_entry reads_join reads_blob : reads.

Lemma reads_list {A} cap e (r : reader A) P enc :
  cap < 4294967296 → reads r P enc →
  reads (r_counted r_u32 cap e r) (list_ok cap P) (λ xs, u32b (len_of xs) ++ (xs ≫= enc)).
Proof. intros Hcap. apply (reads_counted _ _ _ _ _ _ _ _ reads_u32). unfold u32_ok. lia. Qed.

#[export] Hint Extern 1 (reads (r_counted r_u32 _ _ _) _ _) =>
  apply reads_list; [vm_compute; reflexivity|] : reads.

(** ** Frames *)

(** The frames that have an encoding the decoder accepts: fields at their
    widths, lists and payloads within the caps, UTF-8 names, and a private
    ingress whose length is the one it declares. *)
Definition frame_ok (f : Frame) : Prop :=
  match f with
  | Hello p | InvokeRedirect p => u16_ok p
  | Tell from to payload => u32_ok from ∧ u32_ok to ∧ payload_ok payload
  | InvokeRequest from to chain msg => u32_ok from ∧ u32_ok to ∧ list_ok MAX_CHAIN_LEN u32_ok chain ∧ payload_ok msg
  | InvokeReply payload => payload_ok payload
  | FetchHeads i | RaftStatusReq i | FetchProofBlob i | FetchProgramBlob i => fixed_ok i
  | Heads i roots => fixed_ok i ∧ list_ok MAX_HEADS fixed_ok roots
  | FetchNode i c => fixed_ok i ∧ fixed_ok c
  | NodeReply b | ProofBlobReply b | ProgramBlobReply b => opt_ok payload_ok b
  | Ack | ManifestReq | PrivateIngressStored _ => True
  | RaftAppendReq i term leader prev prev_term commit es =>
      fixed_ok i ∧ u64_ok term ∧ u16_ok leader ∧ u64_ok prev ∧ u64_ok prev_term ∧ u64_ok commit ∧
      list_ok MAX_RAFT_ENTRIES entry_ok es
  | RaftAppendResp term _ match_index => u64_ok term ∧ u64_ok match_index
  | RaftVoteReq i term candidate last last_term =>
      fixed_ok i ∧ u64_ok term ∧ u16_ok candidate ∧ u64_ok last ∧ u64_ok last_term
  | RaftVoteResp term _ => u64_ok term
  | RaftInstallSnapshotReq i term leader last last_term offset _ snapshot members joint config =>
      fixed_ok i ∧ u64_ok term ∧ u16_ok leader ∧ u64_ok last ∧ u64_ok last_term ∧ u64_ok offset ∧ payload_ok snapshot ∧
      members_ok members ∧ opt_ok members_ok joint ∧ opt_ok u64_ok config
  | RaftInstallSnapshotResp term received => u64_ok term ∧ u64_ok received
  | RaftJoinReq i joiner policy => fixed_ok i ∧ u16_ok joiner ∧ opt_ok fixed_ok policy
  | RaftJoinResp r => join_ok r
  | ManifestResp toml blobs => payload_ok toml ∧ list_ok MANIFEST_MAX_BLOBS blob_ok blobs
  | RaftStatusResp _ role term commit applied last members joint config hint =>
      u8_ok role ∧ u64_ok term ∧ u64_ok commit ∧ u64_ok applied ∧ u64_ok last ∧ members_ok members ∧
      opt_ok members_ok joint ∧ opt_ok u64_ok config ∧ opt_ok u16_ok hint
  | StorePrivateIngress i invocation hash len b =>
      fixed_ok i ∧ fixed_ok invocation ∧ fixed_ok hash ∧ blen b ≠ 0 ∧ blen b ≤ MAX_PRIVATE_INGRESS_BYTES ∧ len = blen b
  end.

(** The body of a frame after its tag. *)
Lemma decode_tagged_sound tag b f rest :
  decode_tagged tag b = Ok (f, rest) → frame_ok f ∧ u8b tag ++ b = encode f ++ rest.
Proof.
  unfold decode_tagged, decode_append_req, decode_install_req, decode_status_resp. intros H.
  unfold REPLICATION_ID_BYTES, CID_BYTES in H.
  repeat match type of H with
  | (if ?t =? ?T then _ else _) _ = _ => destruct (N.eqb_spec t T) as [->|_]; [read_fields H|]
  end; try done;
  try (cbn [frame_ok encode]; unfold encode_append_req, encode_install_req, encode_status_resp, id;
       split; [done|by rewrite <- ?app_assoc]).
  (* the private ingress *)
  unfold decode_private_ingress, REPLICATION_ID_BYTES in H. read_fields H.
  destruct (N.eqb_spec (blen x3) 0); [done|]. destruct (N.ltb_spec MAX_PRIVATE_INGRESS_BYTES (blen x3)); [done|].
  destruct (N.eqb_spec x2 (blen x3)); [|done]. cbn [orb negb] in H. read_fields H. cbn [frame_ok encode]. unfold id.
  split; [done|by rewrite <- ?app_assoc].
Qed.

Lemma private_ingress_complete i invocation hash b rest :
  fixed_ok i → fixed_ok invocation → fixed_ok hash → blen b ≠ 0 → blen b ≤ MAX_PRIVATE_INGRESS_BYTES →
  decode_private_ingress (i ++ invocation ++ hash ++ u64b (blen b) ++ payloadb b ++ rest) =
  Ok (StorePrivateIngress i invocation hash (blen b) b, rest).
Proof.
  intros Hi Hv Hh Hb Hc. pose proof Hc as Hc'. unfold MAX_PRIVATE_INGRESS_BYTES in Hc'. unfold decode_private_ingress, REPLICATION_ID_BYTES.
  read_back; [unfold u64_ok, u64_modulus; lia|unfold payload_ok, MAX_FRAME_BYTES; lia|].
  rewrite (proj2 (N.eqb_neq _ _)), (proj2 (N.ltb_ge _ _)), N.eqb_refl by done. cbn [orb negb]. read_back.
Qed.

Lemma decode_tagged_complete f rest :
  frame_ok f → (tag ← r_u8; decode_tagged tag) (encode f ++ rest) = Ok (f, rest).
Proof.
  intros Hf. destruct f; cbn [frame_ok] in Hf; cbn [encode];
    unfold encode_append_req, encode_install_req, encode_status_resp;
    rewrite <- ?app_assoc;
    (eapply reads_bind; [apply reads_u8|]; eexists _, _; split; [|split; [reflexivity|]]; [done|]);
    cbv [decode_tagged TAG_HELLO TAG_TELL TAG_INVOKE_REQ TAG_INVOKE_REPLY TAG_ACK TAG_INVOKE_REDIRECT TAG_FETCH_HEADS
      TAG_HEADS TAG_FETCH_NODE TAG_NODE_REPLY TAG_RAFT_APPEND_REQ TAG_RAFT_APPEND_RESP TAG_RAFT_VOTE_REQ TAG_RAFT_VOTE_RESP
      TAG_RAFT_INSTALL_REQ TAG_RAFT_INSTALL_RESP TAG_RAFT_JOIN_REQ TAG_RAFT_JOIN_RESP TAG_MANIFEST_REQ TAG_MANIFEST_RESP
      TAG_RAFT_STATUS_REQ TAG_RAFT_STATUS_RESP TAG_FETCH_PROOF_BLOB TAG_PROOF_BLOB_REPLY TAG_FETCH_PROGRAM_BLOB
      TAG_PROGRAM_BLOB_REPLY TAG_STORE_PRIVATE_INGRESS TAG_PRIVATE_INGRESS_STORED N.eqb Pos.eqb
      decode_append_req decode_install_req decode_status_resp REPLICATION_ID_BYTES CID_BYTES];
    decompose [and] Hf; try solve [read_back].
  subst. by apply private_ingress_complete.
Qed.

(** The decoder accepts exactly the encodings of the frames within the limits. *)
Lemma decode_reads b f : decode b = Ok f ↔ frame_ok f ∧ b = encode f.
Proof.
  unfold decode. split.
  - destruct ((tag ← r_u8; decode_tagged tag) b) as [[f' [|y l]]|e] eqn:Hd; [|done..]. intros [= ->].
    eapply reads_bind in Hd; [|apply reads_u8]. destruct Hd as (tag & b' & _ & -> & Hd).
    apply decode_tagged_sound in Hd as [Hf He]. by rewrite He, app_nil_r.
  - intros [Hf ->]. pose proof (decode_tagged_complete f [] Hf) as Hd. rewrite app_nil_r in Hd. by rewrite Hd.
Qed.

(** ** The stream *)

Lemma read_exact_ok n s w rest : read_exact n s = Ok (w, rest) ↔ blen w = n ∧ s = w ++ rest.
Proof.
  unfold read_exact. pose proof (reads_take n s w rest) as Ht. unfold r_take, id in Ht.
  destruct (n <=? blen s); [|split; [done|]; intros Hw; by apply Ht in Hw]. split.
  - intros [= <- <-]. by apply Ht.
  - intros Hw. apply Ht in Hw. by injection Hw as -> ->.
Qed.

Lemma u32_stream n : n ≤ MAX_FRAME_BYTES → from_le_bytes (u32b n) = n.
Proof. intros Hn. apply from_to_le_bytes. unfold MAX_FRAME_BYTES in Hn. change (int_modulus 4) with 4294967296. lia. Qed.

Lemma read_frame_ok s f rest :
  read_frame s = Ok (f, rest) ↔ frame_ok f ∧ ∃ w, write_frame f = Ok w ∧ s = w ++ rest.
Proof.
  unfold read_frame, write_frame. cbv zeta. split.
  - destruct (read_exact 4 s) as [[lb s1]|] eqn:H1; [|done]. apply read_exact_ok in H1 as [Hl ->].
    destruct (N.ltb_spec MAX_FRAME_BYTES (from_le_bytes lb)) as [|Hc]; [done|].
    destruct (read_exact _ s1) as [[buf s2]|] eqn:H2; [|done]. apply read_exact_ok in H2 as [Hb ->].
    destruct (decode buf) as [f'|] eqn:Hd; [|done]. intros [= -> ->]. apply decode_reads in Hd as [Hf ->]. split; [done|].
    rewrite (proj2 (N.ltb_ge _ _)) by lia. eexists; split; [done|]. rewrite <- app_assoc, Hb. f_equal.
    unfold u32b. unfold blen in Hl. assert (length lb = 4%nat) as <- by lia. by rewrite to_from_le_bytes.
  - intros (Hf & w & Hw & ->). destruct (N.ltb_spec MAX_FRAME_BYTES (blen (encode f))) as [|Hc]; [done|].
    assert (w = u32b (blen (encode f)) ++ encode f) as -> by congruence. rewrite <- app_assoc. rewrite (proj2 (read_exact_ok _ _ (u32b (blen (encode f))) (encode f ++ rest))).
    2:{ split; [|done]. unfold blen, u32b. by rewrite length_to_le_bytes. }
    rewrite u32_stream, (proj2 (N.ltb_ge _ _)) by done.
    rewrite (proj2 (read_exact_ok _ _ (encode f) rest)) by done. by rewrite (proj2 (decode_reads (encode f) f)).
Qed.

(** ** The size of an AppendEntries frame *)

Lemma blen_u8b v : blen (u8b v) = 1.
Proof. done. Qed.
Lemma blen_u16b v : blen (u16b v) = 2.
Proof. done. Qed.
Lemma blen_u32b v : blen (u32b v) = 4.
Proof. done. Qed.
Lemma blen_u64b v : blen (u64b v) = 8.
Proof. done. Qed.
Lemma blen_membersb ms : blen (membersb ms) = 2 + 2 * len_of ms.
Proof.
  unfold membersb. rewrite blen_app, blen_u16b. f_equal. unfold len_of. induction ms as [|m ms IH]; [done|].
  cbn. rewrite blen_app, blen_u16b, IH. cbn. lia.
Qed.

(** What [raft_entry_encoded_len] computes, and when it refuses. *)
Definition members_fit (e : RaftEntry) : bool :=
  match re_kind e with
  | Data _ => true
  | ConfigChange joint_old members =>
      (len_of members <=? MAX_RAFT_MEMBERS) &&
      match joint_old with Some old => len_of old <=? MAX_RAFT_MEMBERS | None => true end
  end.

Lemma checked_add_ok a b : a + b ≤ u64_max → checked_add a b = Some (a + b).
Proof. intros H. unfold checked_add. by rewrite (proj2 (N.leb_le _ _)). Qed.
Lemma checked_mul_ok a b : a * b ≤ u64_max → checked_mul a b = Some (a * b).
Proof. intros H. unfold checked_mul. by rewrite (proj2 (N.leb_le _ _)). Qed.

Ltac checked :=
  repeat (first [rewrite checked_add_ok by (unfold u64_max; lia) | rewrite checked_mul_ok by (unfold u64_max; lia)];
          cbn [mbind option_bind]).

Lemma raft_entry_encoded_len_spec e :
  raft_entry_encoded_len e =
  if members_fit e && (blen (encode_raft_entry e) <=? u64_max) then Some (blen (encode_raft_entry e)) else None.
Proof.
  unfold raft_entry_encoded_len, members_fit, encode_raft_entry. rewrite blen_app, blen_u64b.
  destruct (re_kind e) as [p|joint ms].
  - rewrite !blen_app, blen_u8b. unfold payloadb. rewrite blen_app, blen_u32b. cbn [andb]. checked. unfold checked_add.
    destruct (N.leb_spec (8 + (1 + (4 + blen p))) u64_max).
    + rewrite (proj2 (N.leb_le (1 + 4 + _) _)) by lia. cbn [mbind option_bind]. rewrite (proj2 (N.leb_le _ _)) by lia. f_equal. lia.
    + destruct (1 + 4 + blen p <=? u64_max); [|done]. cbn [mbind option_bind]. by rewrite (proj2 (N.leb_gt _ _)) by lia.
  - rewrite !blen_app, blen_u8b, blen_membersb, N.ltb_antisym.
    destruct (N.leb_spec (len_of ms) MAX_RAFT_MEMBERS) as [Hm|]; [|done]. cbn [negb orb andb]. unfold MAX_RAFT_MEMBERS in *.
    destruct joint as [old|]; cbn [optionb].
    + rewrite N.ltb_antisym. destruct (N.leb_spec (len_of old) 256) as [Ho|]; [|done]. cbn [negb andb].
      rewrite blen_app, blen_u8b, blen_membersb. checked. rewrite (proj2 (N.leb_le _ _)) by (unfold u64_max; lia). f_equal. lia.
    + rewrite blen_u8b. cbn [mbind option_bind]. checked. rewrite (proj2 (N.leb_le _ _)) by (unfold u64_max; lia). f_equal. lia.
Qed.

Definition entries_len (es : list RaftEntry) : N := blen (es ≫= encode_raft_entry).

Lemma entries_len_app es1 es2 : entries_len (es1 ++ es2) = entries_len es1 + entries_len es2.
Proof. unfold entries_len. by rewrite bind_app, blen_app. Qed.

Lemma append_req_len i term leader prev prev_term commit es :
  fixed_ok i → blen (encode_append_req i term leader prev prev_term commit es) = RAFT_APPEND_FRAME_BASE_BYTES + entries_len es.
Proof.
  intros Hi. unfold fixed_ok in Hi. unfold encode_append_req, entries_len, RAFT_APPEND_FRAME_BASE_BYTES.
  rewrite !blen_app, !blen_u64b, blen_u32b, blen_u16b, blen_u8b. lia.
Qed.

(** The loop takes entries while they fit, and stops at the first that does
    not; it gives up on an entry whose voter lists are over the cap. *)
Lemma prefix_loop_spec es encoded count :
  encoded ≤ MAX_FRAME_BYTES →
  match prefix_loop es encoded count with
  | Some n => ∃ k, n = count + N.of_nat k ∧ (k ≤ length es)%nat ∧
      Forall (λ e, members_fit e = true) (take k es) ∧ encoded + entries_len (take k es) ≤ MAX_FRAME_BYTES ∧
      (∀ e, es !! k = Some e → members_fit e = true ∧ MAX_FRAME_BYTES < encoded + entries_len (take (S k) es))
  | None => ∃ k e, es !! k = Some e ∧ encoded + entries_len (take k es) ≤ MAX_FRAME_BYTES ∧
      (members_fit e = false ∨ u64_max < encoded + entries_len (take (S k) es))
  end.
Proof.
  revert encoded count. induction es as [|e es IH]; intros encoded count Hle; cbn [prefix_loop].
  { exists 0%nat. cbn. split_and!; [lia|lia|done|change (entries_len []) with 0; lia|done]. }
  assert (Hsplit : ∀ k, entries_len (take (S k) (e :: es)) = blen (encode_raft_entry e) + entries_len (take k es)).
  { intros k. unfold entries_len. cbn [firstn mbind list_bind]. by rewrite blen_app. }
  assert (H0 : entries_len (take 0 (e :: es)) = 0) by done.
  rewrite raft_entry_encoded_len_spec. destruct (members_fit e) eqn:Hm; cbn [andb mbind option_bind].
  2:{ exists 0%nat, e. rewrite H0. split_and!; [done|lia|by left]. }
  destruct (N.leb_spec (blen (encode_raft_entry e)) u64_max) as [Hu|Hu]; cbn [mbind option_bind].
  2:{ exists 0%nat, e. rewrite H0, Hsplit. split_and!; [done|lia|right; lia]. }
  unfold checked_add. destruct (N.leb_spec (encoded + blen (encode_raft_entry e)) u64_max) as [Hu'|Hu']; cbn [mbind option_bind].
  2:{ exists 0%nat, e. rewrite H0, Hsplit. split_and!; [done|lia|right; lia]. }
  destruct (N.ltb_spec MAX_FRAME_BYTES (encoded + blen (encode_raft_entry e))) as [Hc|Hc].
  { exists 0%nat. rewrite H0, Hsplit. split_and!; [lia|lia|done|lia|]. intros ? [= <-]. split; [done|]. cbn. lia. }
  specialize (IH _ (count + 1) Hc). destruct (prefix_loop es _ _) as [n|].
  - destruct IH as (k & -> & Hk & Hf & Hl & Hn). exists (S k). rewrite !Hsplit. cbn [length firstn lookup].
    split_and!; [lia|lia|by constructor|lia|]. intros e' He'. destruct (Hn e' He'). split; [done|lia].
  - destruct IH as (k & e' & Hk & Hl & Hr). exists (S k), e'. rewrite !Hsplit. split_and!; [done|lia|].
    destruct Hr; [by left|right; lia].
Qed.
