(* ===== verification/Network.v ===== *)
(** * The network thread

    [vos/src/network/mod.rs]: the state shared by a [Network] handle and its swarm
    thread, the commands the handle sends, the events the swarm delivers, and the
    blocking tasks the thread hands requests to.

    libp2p is outside: its events ([swarm_event]) are the inputs of the thread and
    its calls ([send_request], [send_response], [publish], ...) the outputs
    ([effect]).  A request id is the one [send_request] returns, fresh each time.  A
    [PeerId] is the Noise-authenticated identity of the remote; its two-byte
    blake2b digest, [peer_digest], is a parameter.  The two trait objects the
    network calls, the [NetworkService] and the [RaftRpcHandler]s, act on a world
    [W] of their own.

    A registration is shared: the map of handlers and the tasks that captured it
    point to the same one, whose voter table grows under its lock.  So the
    registrations live in a store, [n_regs], and an [Arc] is an index into it.

    Each lock is taken and released inside one step.  Poisoned locks are not
    modelled. *)

From Stdlib.Strings Require Byte.
From stdpp Require Import gmap strings.
From S2P Require Import Prelude Bytes Frames.

Local Open Scope N_scope.

(** ** Results of the Raft RPCs *)

Record RaftAppendResult := mkAppendResult { ra_term : N; ra_success : bool; ra_match_index : N }.
Record RaftVoteResult := mkVoteResult { rv_term : N; rv_vote_granted : bool }.
Record RaftInstallSnapshotResult := mkInstallResult { ri_term : N; ri_bytes_received : N }.

Inductive RaftRole := Follower | PreCandidate | Candidate | Leader | Unknown (b : N).

Definition to_wire (r : RaftRole) : N :=
  match r with Follower => 0 | PreCandidate => 1 | Candidate => 2 | Leader => 3 | Unknown b => b end.

Definition from_wire (b : N) : RaftRole :=
  match b with 0 => Follower | 1 => PreCandidate | 2 => Candidate | 3 => Leader | other => Unknown other end.

Record RaftStatusReply := mkStatus {
  st_present : bool;
  st_role : RaftRole;
  st_current_term : N;
  st_commit_index : N;
  st_last_applied : N;
  st_last_log_index : N;
  st_members : list N;
  st_joint_old : option (list N);
  st_active_config_index : option N;
  st_leader_hint : option N;
}.

Definition is_active_voter (s : RaftStatusReply) (prefix : N) : bool :=
  bool_decide (prefix ∈ st_members s) ||
  match st_joint_old s with Some old => bool_decide (prefix ∈ old) | None => false end.

Definition absent : RaftStatusReply := mkStatus false Follower 0 0 0 0 [] None None None.

Record ManifestReply := mkManifestReply { mf_toml : bytes; mf_blobs : list ManifestBlob }.

Inductive NetworkInvokeResponse := Reply (payload : bytes) | Redirect (leader_prefix : N).

(** The three RPCs of a Raft frame, without the group they name. *)
Inductive RaftRpc :=
| RpcAppend (term leader_prefix prev_log_index prev_log_term leader_commit : N) (entries : list RaftEntry)
| RpcVote (term candidate_prefix last_log_index last_log_term : N)
| RpcInstall (term leader_prefix last_included_index last_included_term offset : N) (done_ : bool) (snapshot : bytes)
    (members : list N) (joint_old : option (list N)) (active_config_index : option N).

Definition claimed_prefix (r : RaftRpc) : N :=
  match r with
  | RpcAppend _ leader_prefix _ _ _ _ => leader_prefix
  | RpcVote _ candidate_prefix _ _ => candidate_prefix
  | RpcInstall _ leader_prefix _ _ _ _ _ _ _ _ => leader_prefix
  end.

(** Why [authenticated_raft_rpc_handler] refuses. *)
Inductive Refusal := UnknownReplicationGroup | StatusUnavailable | NotAVoter | IdentityUnavailable | PeerMismatch | HandlerChanged.

(** ** Interfaces *)

(** The two low bytes of the digest a prefix is derived from, and [to_bytes]. *)
Class Identity (PeerId : Type) := {
  peer_digest : PeerId → Byte.byte * Byte.byte;
  peer_to_bytes : PeerId → bytes;
}.

(** A row of the space registry's roster ([vos/src/registry.rs]). *)
Record MemberRow := mkMember {
  mr_kind : N;
  mr_key : bytes;
  mr_prefix : N;
  mr_role : N;
  mr_proof_kind : N;
  mr_proof_data : bytes;
}.

(** [NetworkService]: one implementation per node, set once. *)
Class NetworkService (PeerId Svc W : Type) := {
  dispatch_invoke_routed : Svc → option PeerId → N → N → list N → bytes → W → W * NetworkInvokeResponse;
  sync_roots : Svc → option PeerId → bytes → W → option (list bytes);
  sync_get_node : Svc → option PeerId → bytes → bytes → W → option bytes;
  manifest : Svc → W → option ManifestReply;
  get_proof_blob : Svc → bytes → W → option bytes;
  get_program_blob : Svc → option PeerId → bytes → W → option bytes;
  store_private_ingress : Svc → PeerId → bytes → bytes → bytes → N → bytes → W → W * bool;
  service_voter_peer : Svc → bytes → N → W → option PeerId;
  (* what [handle_raft_join] of the node asks: the roster's row at a prefix, and
     whether the root behind an ingress route has no private input pending *)
  lookup_node_member : Svc → N → W → option MemberRow;
  route_quiescent : Svc → N → W → W * bool;
}.

(** [RaftRpcHandler]: the methods of a handler installed for a group.  [handle_join]
    makes two calls of the worker: [h_join_ask] is what it does up to the answer of
    the first, which ends it or leaves the members to propose and the leader hint,
    [h_join_change] the second. *)
Class RaftRpcHandler (PeerId Svc H W : Type) := {
  h_local_status : H → W → option RaftStatusReply;
  h_append_entries : H → bytes → N → N → N → N → N → list RaftEntry → W → W * RaftAppendResult;
  h_request_vote : H → bytes → N → N → N → N → W → W * RaftVoteResult;
  h_install_snapshot : H → bytes → N → N → N → N → N → bool → bytes → list N → option (list N) → option N → W →
    W * RaftInstallSnapshotResult;
  h_handle_status : H → bytes → W → RaftStatusReply;
  h_join_ask : H → bytes → N → W → W * (RaftJoinResult + list N * option N);
  h_join_change : H → list N * option N → W → W * RaftJoinResult;
}.

Section Network.
Context {PeerId Addr Svc H W : Type} `{Countable PeerId} `{EqDecision Addr} `{EqDecision H}.
Context `{Identity PeerId} `{NetworkService PeerId Svc W} `{RaftRpcHandler PeerId Svc H W}.

(** ** Identities *)

Definition normalize_node_prefix (prefix : N) : N := match prefix with 0 => 65535 | prefix => prefix end.

Definition derive_node_prefix (p : PeerId) : N :=
  let '(b0, b1) := peer_digest p in normalize_node_prefix (from_le_bytes [b0; b1]).

(** [record_authenticated_prefix]: the claimed prefix is only logged. *)
Definition record_authenticated_prefix (m : gmap N PeerId) (claimed_prefix : N) (peer : PeerId) : gmap N PeerId :=
  let prefix := derive_node_prefix peer in
  match m !! prefix with
  | Some _ => m
  | None => <[prefix := peer]> m
  end.

Definition forget_authenticated_prefix (m : gmap N PeerId) (peer : PeerId) : gmap N PeerId :=
  filter (λ kv, kv.2 ≠ peer) m.

Definition authenticated_tell_source (m : gmap N PeerId) (peer : PeerId) (from : N) : bool :=
  let claimed_prefix := N.shiftr from 16 in
  negb (claimed_prefix =? 0) && bool_decide (m !! claimed_prefix = Some peer).

(** ** Handlers *)

(** [Arc<dyn RaftRpcHandler>]: the placeholder of a reservation, or a worker's. *)
Inductive handler := ReservedRaftHandler | Live (h : H).

Record RaftHandlerRegistration := mkRegistration { rg_handler : handler; rg_voters : gmap N PeerId }.

Definition local_status (h : handler) (w : W) : option RaftStatusReply :=
  match h with ReservedRaftHandler => None | Live h => h_local_status h w end.

Definition handle_status (h : handler) (replication_id : bytes) (w : W) : RaftStatusReply :=
  match h with ReservedRaftHandler => absent | Live h => h_handle_status h replication_id w end.

Definition append_entries (h : handler) (replication_id : bytes) (from term prev_log_index prev_log_term leader_commit : N)
    (entries : list RaftEntry) (w : W) : W * RaftAppendResult :=
  match h with
  | ReservedRaftHandler => (w, mkAppendResult term false prev_log_index)
  | Live h => h_append_entries h replication_id from term prev_log_index prev_log_term leader_commit entries w
  end.

Definition request_vote (h : handler) (replication_id : bytes) (from term last_log_index last_log_term : N) (w : W) :
    W * RaftVoteResult :=
  match h with
  | ReservedRaftHandler => (w, mkVoteResult term false)
  | Live h => h_request_vote h replication_id from term last_log_index last_log_term w
  end.

Definition install_snapshot (h : handler) (replication_id : bytes) (from term last_included_index last_included_term offset : N)
    (done_ : bool) (snapshot : bytes) (members : list N) (joint_old : option (list N)) (active_config_index : option N) (w : W) :
    W * RaftInstallSnapshotResult :=
  match h with
  | ReservedRaftHandler => (w, mkInstallResult term 0)
  | Live h =>
      h_install_snapshot h replication_id from term last_included_index last_included_term offset done_ snapshot members
        joint_old active_config_index w
  end.

(** ** Joins *)

Definition MEMBER_KIND_NODE : N := 0.
Definition NODE_ROLE_VOTER : N := 0.

Definition node_member_authenticates_voter (member : MemberRow) (expected_prefix : N) (peer : PeerId) : bool :=
  (mr_kind member =? MEMBER_KIND_NODE) && (mr_role member =? NODE_ROLE_VOTER) && (mr_prefix member =? expected_prefix) &&
  (derive_node_prefix peer =? expected_prefix) && bool_decide (mr_key member = peer_to_bytes peer).

(** [V2PrivateIngressRoutes]: the route of a group is an object with a policy and a
    barrier; [ir_held] are the routes whose barrier is taken, [ir_admitting] those
    of them taken by an admission of private input. *)
Record ingress_routes := mkRoutes {
  ir_routes : gmap bytes (N * option bytes);
  ir_next : N;
  ir_held : gset N;
  ir_admitting : gset N;
}.

Definition routes_default : ingress_routes := mkRoutes ∅ 0 ∅ ∅.

Definition insert_route (replication_id : bytes) (policy : option bytes) (rs : ingress_routes) : ingress_routes :=
  mkRoutes (<[replication_id := (ir_next rs, policy)]> (ir_routes rs)) (ir_next rs + 1) (ir_held rs) (ir_admitting rs).

(** [remove_v2_private_ingress_route_if] *)
Definition remove_route_if (replication_id : bytes) (expected : N) (rs : ingress_routes) : ingress_routes :=
  if bool_decide (fst <$> ir_routes rs !! replication_id = Some expected)
  then mkRoutes (delete replication_id (ir_routes rs)) (ir_next rs) (ir_held rs) (ir_admitting rs)
  else rs.

(** [V2PrivateIngressBarrier::try_acquire] and the drop of its guard. *)
Definition try_acquire (r : N) (rs : ingress_routes) : ingress_routes * bool :=
  if decide (r ∈ ir_held rs) then (rs, false)
  else (mkRoutes (ir_routes rs) (ir_next rs) ({[r]} ∪ ir_held rs) (ir_admitting rs), true).
Definition release (r : N) (rs : ingress_routes) : ingress_routes :=
  mkRoutes (ir_routes rs) (ir_next rs) (ir_held rs ∖ {[r]}) (ir_admitting rs).

(** The guard of an admission of private input. *)
Definition admit_private (r : N) (rs : ingress_routes) : ingress_routes :=
  let '(rs, ok) := try_acquire r rs in
  if ok then mkRoutes (ir_routes rs) (ir_next rs) (ir_held rs) ({[r]} ∪ ir_admitting rs) else rs.
Definition admit_done (r : N) (rs : ingress_routes) : ingress_routes :=
  if decide (r ∈ ir_admitting rs) then
    let rs := release r rs in mkRoutes (ir_routes rs) (ir_next rs) (ir_held rs) (ir_admitting rs ∖ {[r]})
  else rs.

(** ** The rate limiter *)

(** An [Instant] is a number of nanoseconds. *)
Definition SYNC_RATE_WINDOW : N := 2000000000.
Definition MAX_SYNC_FETCHES_PER_WINDOW : N := 1024.
Definition MAX_PROGRAM_BLOB_FETCHES_PER_WINDOW : N := 16.
Definition MAX_PRIVATE_INGRESS_STORES_PER_WINDOW : N := 8.
Definition MAX_PRIVATE_INGRESS_STORES_IN_FLIGHT : N := 16.
Definition SYNC_RATE_PRUNE_LEN : N := 1024.

Local Abbreviation windows := (gmap PeerId (N * N)).

Record SyncRateLimiter := mkLimiter {
  sync : windows;
  program_blob : windows;
  private_ingress : windows;
  private_ingress_in_flight : N;
}.

Definition limiter_default : SyncRateLimiter := mkLimiter ∅ ∅ ∅ 0.

(** The count of a window is a [u32]. *)
Definition u32_modulus : N := 4294967296.

(** [duration_since] is zero when the clock has not moved forward. *)
Definition expired (now start : N) : bool := SYNC_RATE_WINDOW <=? now - start.

Definition charge (now : N) (peers : windows) (peer : PeerId) (cap : N) : windows * bool :=
  let peers :=
    if SYNC_RATE_PRUNE_LEN <=? N.of_nat (size peers)
    then filter (λ kv, expired now (fst kv.2) = false) peers
    else peers in
  let entry := default (now, 0) (peers !! peer) in
  let entry := if expired now (fst entry) then (now, 0) else entry in
  let entry := (fst entry, (snd entry + 1) `mod` u32_modulus) in
  (<[peer := entry]> peers, snd entry <=? cap).

Definition allow (now : N) (l : SyncRateLimiter) (peer : PeerId) : SyncRateLimiter * bool :=
  let '(ws, ok) := charge now (sync l) peer MAX_SYNC_FETCHES_PER_WINDOW in
  (mkLimiter ws (program_blob l) (private_ingress l) (private_ingress_in_flight l), ok).

Definition allow_program_blob (now : N) (l : SyncRateLimiter) (peer : PeerId) : SyncRateLimiter * bool :=
  let '(ws, ok) := charge now (program_blob l) peer MAX_PROGRAM_BLOB_FETCHES_PER_WINDOW in
  (mkLimiter (sync l) ws (private_ingress l) (private_ingress_in_flight l), ok).

(** The permit is given back by [release_private_ingress] when its task ends.
    [fetch_add] that finds the counter at the cap is undone by [fetch_sub]. *)
Definition acquire_private_ingress (now : N) (l : SyncRateLimiter) (peer : PeerId) : SyncRateLimiter * bool :=
  let '(ws, ok) := charge now (private_ingress l) peer MAX_PRIVATE_INGRESS_STORES_PER_WINDOW in
  let l := mkLimiter (sync l) (program_blob l) ws (private_ingress_in_flight l) in
  if ok then
    if MAX_PRIVATE_INGRESS_STORES_IN_FLIGHT <=? private_ingress_in_flight l then (l, false)
    else (mkLimiter (sync l) (program_blob l) ws (private_ingress_in_flight l + 1), true)
  else (l, false).

(** [Drop for PrivateIngressPermit] *)
Definition release_private_ingress (l : SyncRateLimiter) : SyncRateLimiter :=
  mkLimiter (sync l) (program_blob l) (private_ingress l) (private_ingress_in_flight l - 1).

(** ** Commands, replies and effects *)

Record InboundTell := mkInboundTell { it_peer : PeerId; it_from : N; it_to : N; it_payload : bytes }.

(** A reply channel is named by a number. *)
Inductive NetworkCmd :=
| Connect (addr : Addr)
| SendTell (target : PeerId) (from to : N) (payload : bytes)
| SendInvoke (target : PeerId) (from to : N) (chain : list N) (msg : bytes) (reply : N)
| SendInvokeExact (target : PeerId) (from to : N) (chain : list N) (msg : bytes) (reply : N)
| SendFetchHeads (target : PeerId) (replication_id : bytes) (reply : N)
| SendFetchNode (target : PeerId) (replication_id cid : bytes) (reply : N)
| SendFetchProofBlob (target : PeerId) (hash : bytes) (reply : N)
| SendFetchProgramBlob (target : PeerId) (hash : bytes) (reply : N)
| SendStorePrivateIngress (target : PeerId) (replication_id invocation content_hash : bytes) (content_len : N)
    (bytes_ : bytes) (reply : N)
| SubscribeRep (replication_id : bytes)
| PublishHeads (replication_id : bytes) (roots : list bytes)
| RegisterHintSender (replication_id : bytes) (sender : N)
| SendRaft (target : PeerId) (replication_id : bytes) (rpc : RaftRpc) (reply : N)
| SendRaftJoin (target : PeerId) (replication_id : bytes) (joiner_prefix : N) (policy : option bytes) (reply : N)
| SendManifestReq (target : PeerId) (reply : N)
| SendRaftStatus (target : PeerId) (replication_id : bytes) (reply : N)
| Shutdown.

Record PendingInvoke := mkPendingInvoke {
  pi_reply : N;
  pi_from : N;
  pi_to : N;
  pi_chain : list N;
  pi_msg : bytes;
  pi_redirects : N;
}.

Inductive OutboundReply :=
| OInvoke (p : PendingInvoke)
| OInvokeExact (reply : N)
| OHeads (reply : N)
| ONode (reply : N)
| ORaftAppend (reply : N)
| ORaftVote (reply : N)
| ORaftInstallSnapshot (reply : N)
| ORaftJoin (reply : N)
| OManifest (reply : N)
| ORaftStatus (reply : N)
| OProofBlob (reply : N)
| OProgramBlob (reply : N)
| OPrivateIngress (reply : N).

(** What a reply channel receives. *)
Inductive Answer :=
| AInvoke (payload : bytes)
| AInvokeExact (r : NetworkInvokeResponse)
| AHeads (roots : list bytes)
| ANode (node : option bytes)
| ARaftAppend (r : RaftAppendResult)
| ARaftVote (r : RaftVoteResult)
| ARaftInstallSnapshot (r : RaftInstallSnapshotResult)
| ARaftJoin (r : RaftJoinResult)
| AManifest (r : ManifestReply)
| ARaftStatus (r : RaftStatusReply)
| AProofBlob (blob : option bytes)
| AProgramBlob (blob : option bytes)
| APrivateIngress (accepted : bool).

Inductive effect :=
| EDial (addr : Addr)
| ERequest (id : N) (target : PeerId) (f : Frame)
| EResponse (channel : N) (f : Frame)
| EAnswer (reply : N) (a : Answer)
| EInbox (t : InboundTell)
| EHint (sender : N) (peer : PeerId)
| ESubscribe (replication_id : bytes)
| EPublish (replication_id : bytes) (data : bytes)
| ECall (h : handler) (peer : PeerId) (replication_id : bytes) (rpc : RaftRpc)
| EPropose (h : H) (peer : PeerId) (replication_id : bytes) (members : list N).

(** ** Tasks *)

(** The blocking tasks.  [service.get().cloned()] is taken when the request
    arrives; the Raft tasks read the service when they authenticate.  A Raft
    task authenticates, then calls the handler it was given.  A join goes through
    the parts of [handle_raft_join] and [handle_join], between which other threads
    run: authenticate, bind, take the route's barrier, check that the root is
    quiescent, ask the worker, propose. *)
Inductive task :=
| TInvoke (channel : N) (svc : option Svc) (caller : PeerId) (from to : N) (chain : list N) (msg : bytes)
| THeads (channel : N) (svc : option Svc) (peer : PeerId) (replication_id : bytes)
| TNode (channel : N) (svc : option Svc) (peer : PeerId) (replication_id cid : bytes)
| TProgramBlob (channel : N) (svc : option Svc) (peer : PeerId) (hash : bytes)
| TPrivateIngress (channel : N) (svc : option Svc) (peer : PeerId) (replication_id invocation content_hash : bytes)
    (content_len : N) (bytes_ : bytes)
| TRaft (channel : N) (peer : PeerId) (replication_id : bytes) (registration : option N) (rpc : RaftRpc)
| TRaftCall (channel : N) (peer : PeerId) (replication_id : bytes) (auth : result (N * Refusal) handler) (rpc : RaftRpc)
| TJoin (channel : N) (svc : option Svc) (peer : PeerId) (replication_id : bytes) (bound_prefix : N) (policy : option bytes)
    (h : option handler)
| TJoinBind (channel : N) (s : Svc) (peer : PeerId) (replication_id : bytes) (joiner_prefix : N) (policy : option bytes) (h : handler)
| TJoinRoute (channel : N) (s : Svc) (peer : PeerId) (replication_id : bytes) (joiner_prefix : N) (policy : option bytes) (h : handler)
| TJoinQuiesce (channel : N) (s : Svc) (peer : PeerId) (replication_id : bytes) (joiner_prefix : N) (route : N) (h : handler)
| TJoinAsk (channel : N) (peer : PeerId) (replication_id : bytes) (joiner_prefix : N) (route : option N) (h : handler)
| TJoinChange (channel : N) (peer : PeerId) (replication_id : bytes) (route : option N) (h : H) (proposal : list N * option N)
| TStatus (channel : N) (replication_id : bytes) (h : option handler).

(** ** The state *)

Record Network := mkNetwork {
  n_peer_id : PeerId;
  n_local_prefix : N;
  n_auto_dial : bool;
  n_prefix_map : gmap N PeerId;
  n_listen_addrs : list Addr;
  n_service : option Svc;
  n_handlers : gmap bytes N;
  n_regs : gmap N RaftHandlerRegistration;
  n_next_reg : N;
  n_outbound : gmap N OutboundReply;
  n_next_request : N;
  n_hints : gmap bytes N;
  n_limiter : SyncRateLimiter;
  n_tasks : list task;
  n_running : bool;
  n_routes : ingress_routes;
  n_world : W;
}.

Definition with_prefix_map m (n : Network) : Network :=
  mkNetwork (n_peer_id n) (n_local_prefix n) (n_auto_dial n) m (n_listen_addrs n) (n_service n) (n_handlers n) (n_regs n)
    (n_next_reg n) (n_outbound n) (n_next_request n) (n_hints n) (n_limiter n) (n_tasks n) (n_running n) (n_routes n) (n_world n).
Definition with_listen_addrs a (n : Network) : Network :=
  mkNetwork (n_peer_id n) (n_local_prefix n) (n_auto_dial n) (n_prefix_map n) a (n_service n) (n_handlers n) (n_regs n)
    (n_next_reg n) (n_outbound n) (n_next_request n) (n_hints n) (n_limiter n) (n_tasks n) (n_running n) (n_routes n) (n_world n).
Definition with_service s (n : Network) : Network :=
  mkNetwork (n_peer_id n) (n_local_prefix n) (n_auto_dial n) (n_prefix_map n) (n_listen_addrs n) s (n_handlers n) (n_regs n)
    (n_next_reg n) (n_outbound n) (n_next_request n) (n_hints n) (n_limiter n) (n_tasks n) (n_running n) (n_routes n) (n_world n).
Definition with_handlers hs (n : Network) : Network :=
  mkNetwork (n_peer_id n) (n_local_prefix n) (n_auto_dial n) (n_prefix_map n) (n_listen_addrs n) (n_service n) hs (n_regs n)
    (n_next_reg n) (n_outbound n) (n_next_request n) (n_hints n) (n_limiter n) (n_tasks n) (n_running n) (n_routes n) (n_world n).
Definition with_regs rs next (n : Network) : Network :=
  mkNetwork (n_peer_id n) (n_local_prefix n) (n_auto_dial n) (n_prefix_map n) (n_listen_addrs n) (n_service n) (n_handlers n) rs
    next (n_outbound n) (n_next_request n) (n_hints n) (n_limiter n) (n_tasks n) (n_running n) (n_routes n) (n_world n).
Definition with_outbound o next (n : Network) : Network :=
  mkNetwork (n_peer_id n) (n_local_prefix n) (n_auto_dial n) (n_prefix_map n) (n_listen_addrs n) (n_service n) (n_handlers n)
    (n_regs n) (n_next_reg n) o next (n_hints n) (n_limiter n) (n_tasks n) (n_running n) (n_routes n) (n_world n).
Definition with_hints h (n : Network) : Network :=
  mkNetwork (n_peer_id n) (n_local_prefix n) (n_auto_dial n) (n_prefix_map n) (n_listen_addrs n) (n_service n) (n_handlers n)
    (n_regs n) (n_next_reg n) (n_outbound n) (n_next_request n) h (n_limiter n) (n_tasks n) (n_running n) (n_routes n) (n_world n).
Definition with_limiter l (n : Network) : Network :=
  mkNetwork (n_peer_id n) (n_local_prefix n) (n_auto_dial n) (n_prefix_map n) (n_listen_addrs n) (n_service n) (n_handlers n)
    (n_regs n) (n_next_reg n) (n_outbound n) (n_next_request n) (n_hints n) l (n_tasks n) (n_running n) (n_routes n) (n_world n).
Definition with_tasks ts (n : Network) : Network :=
  mkNetwork (n_peer_id n) (n_local_prefix n) (n_auto_dial n) (n_prefix_map n) (n_listen_addrs n) (n_service n) (n_handlers n)
    (n_regs n) (n_next_reg n) (n_outbound n) (n_next_request n) (n_hints n) (n_limiter n) ts (n_running n) (n_routes n) (n_world n).
Definition with_running r (n : Network) : Network :=
  mkNetwork (n_peer_id n) (n_local_prefix n) (n_auto_dial n) (n_prefix_map n) (n_listen_addrs n) (n_service n) (n_handlers n)
    (n_regs n) (n_next_reg n) (n_outbound n) (n_next_request n) (n_hints n) (n_limiter n) (n_tasks n) r (n_routes n) (n_world n).
Definition with_world w (n : Network) : Network :=
  mkNetwork (n_peer_id n) (n_local_prefix n) (n_auto_dial n) (n_prefix_map n) (n_listen_addrs n) (n_service n) (n_handlers n)
    (n_regs n) (n_next_reg n) (n_outbound n) (n_next_request n) (n_hints n) (n_limiter n) (n_tasks n) (n_running n) (n_routes n) w.
Definition with_routes rs (n : Network) : Network :=
  mkNetwork (n_peer_id n) (n_local_prefix n) (n_auto_dial n) (n_prefix_map n) (n_listen_addrs n) (n_service n) (n_handlers n)
    (n_regs n) (n_next_reg n) (n_outbound n) (n_next_request n) (n_hints n) (n_limiter n) (n_tasks n) (n_running n) rs (n_world n).

(** [Network::start]; a configured prefix that is not the derived one panics. *)
Definition start (peer_id : PeerId) (local_prefix : N) (auto_dial : bool) (w : W) : option Network :=
  if local_prefix =? derive_node_prefix peer_id then
    Some (mkNetwork peer_id local_prefix auto_dial ∅ [] None ∅ ∅ 0 ∅ 0 ∅ limiter_default [] true routes_default w)
  else None.

(** [set_service]: the first one stays. *)
Definition set_service (s : Svc) (n : Network) : Network :=
  match n_service n with None => with_service (Some s) n | Some _ => n end.

(** ** Registrations *)

(** [Arc::new] *)
Definition new_registration (r : RaftHandlerRegistration) (n : Network) : N * Network :=
  (n_next_reg n, with_regs (<[n_next_reg n := r]> (n_regs n)) (n_next_reg n + 1) n).

Definition registration_new (h : handler) (n : Network) : RaftHandlerRegistration :=
  mkRegistration h {[n_local_prefix n := n_peer_id n]}.

Fixpoint bind_voters (voters : list (N * PeerId)) (m : gmap N PeerId) : option (gmap N PeerId) :=
  match voters with
  | [] => Some m
  | (prefix, peer) :: voters =>
      if negb (derive_node_prefix peer =? prefix) then None
      else
        match m !! prefix with
        | None => bind_voters voters (<[prefix := peer]> m)
        | Some p => if decide (p = peer) then bind_voters voters m else None
        end
  end.

(** [RaftHandlerRegistration::with_voters] *)
Definition registration_with_voters (h : handler) (voters : list (N * PeerId)) (n : Network) : option RaftHandlerRegistration :=
  mkRegistration h <$> bind_voters voters {[n_local_prefix n := n_peer_id n]}.

Definition register_raft_handler (replication_id : bytes) (h : H) (n : Network) : Network :=
  let '(r, n) := new_registration (registration_new (Live h) n) n in
  with_handlers (<[replication_id := r]> (n_handlers n)) n.

Record RaftHandlerReservation := mkReservation { rs_replication_id : bytes; rs_placeholder : N }.

Definition reserve_raft_handler (replication_id : bytes) (n : Network) : Network * option RaftHandlerReservation :=
  match n_handlers n !! replication_id with
  | Some _ => (n, None)
  | None =>
      let '(r, n) := new_registration (registration_new ReservedRaftHandler n) n in
      (with_handlers (<[replication_id := r]> (n_handlers n)) n, Some (mkReservation replication_id r))
  end.

(** [Drop for RaftHandlerReservation] *)
Definition drop_reservation (t : RaftHandlerReservation) (n : Network) : Network :=
  if decide (n_handlers n !! rs_replication_id t = Some (rs_placeholder t))
  then with_handlers (delete (rs_replication_id t) (n_handlers n)) n
  else n.

(** [same_network]: the reservation is one of this network's. *)
Definition activate_raft_handler_with_voters (same_network : bool) (t : RaftHandlerReservation) (h : H)
    (voters : list (N * PeerId)) (n : Network) : Network * bool :=
  if negb same_network then (n, false)
  else
    match registration_with_voters (Live h) voters n with
    | None => (n, false)
    | Some registration =>
        match n_handlers n !! rs_replication_id t with
        | None => (n, false)
        | Some current =>
            if decide (current = rs_placeholder t) then
              let '(r, n) := new_registration registration n in
              (with_handlers (<[rs_replication_id t := r]> (n_handlers n)) n, true)
            else (n, false)
        end
    end.

Definition unregister_raft_handler (replication_id : bytes) (n : Network) : Network :=
  with_handlers (delete replication_id (n_handlers n)) n.

Definition lookup_registration (replication_id : bytes) (n : Network) : option RaftHandlerRegistration :=
  r ← n_handlers n !! replication_id; n_regs n !! r.

Definition unregister_raft_handler_if (replication_id : bytes) (expected : H) (n : Network) : Network * bool :=
  match lookup_registration replication_id n with
  | Some (mkRegistration (Live h) _) =>
      if decide (h = expected) then (unregister_raft_handler replication_id n, true) else (n, false)
  | _ => (n, false)
  end.

Definition local_raft_status (replication_id : bytes) (n : Network) : option RaftStatusReply :=
  reg ← lookup_registration replication_id n;
  let reply := handle_status (rg_handler reg) replication_id (n_world n) in
  if st_present reply then Some reply else None.

Definition local_raft_status_cached (replication_id : bytes) (n : Network) : option RaftStatusReply :=
  reg ← lookup_registration replication_id n; local_status (rg_handler reg) (n_world n).

Definition has_local_raft_handler (replication_id : bytes) (n : Network) : bool :=
  match n_handlers n !! replication_id with Some _ => true | None => false end.

(** [bind_raft_voter_peer_registration] *)
Definition bind_registration (r : N) (prefix : N) (peer : PeerId) (n : Network) : Network * bool :=
  if negb (derive_node_prefix peer =? prefix) then (n, false)
  else
    match n_regs n !! r with
    | None => (n, false)
    | Some reg =>
        match rg_voters reg !! prefix with
        | None =>
            (with_regs (<[r := mkRegistration (rg_handler reg) (<[prefix := peer]> (rg_voters reg))]> (n_regs n)) (n_next_reg n) n,
             true)
        | Some p => (n, bool_decide (p = peer))
        end
    end.

Definition bind_raft_voter_peer (replication_id : bytes) (prefix : N) (peer : PeerId) (n : Network) : Network * bool :=
  match n_handlers n !! replication_id with
  | None => (n, false)
  | Some r => bind_registration r prefix peer n
  end.

(** [resolve_raft_voter_peer] *)
Definition raft_voter_peer (replication_id : bytes) (prefix : N) (n : Network) : Network * option PeerId :=
  match lookup_registration replication_id n with
  | None => (n, None)
  | Some reg =>
      match rg_voters reg !! prefix with
      | Some peer => (n, Some peer)
      | None =>
          match n_service n ≫= λ s, service_voter_peer s replication_id prefix (n_world n) with
          | None => (n, None)
          | Some peer =>
              let '(n, ok) := bind_raft_voter_peer replication_id prefix peer n in
              (n, if ok then Some peer else None)
          end
      end
  end.

(** The binding a claimed slot must have: the one in the table, or the service's
    once it is bound. *)
Definition expected_voter (r : N) (reg : RaftHandlerRegistration) (replication_id : bytes) (claimed : N) (n : Network) :
    Network * option PeerId :=
  match rg_voters reg !! claimed with
  | Some peer => (n, Some peer)
  | None =>
      match n_service n ≫= λ s, service_voter_peer s replication_id claimed (n_world n) with
      | None => (n, None)
      | Some peer =>
          let '(n, ok) := bind_registration r claimed peer n in
          (n, if ok then Some peer else None)
      end
  end.

Definition authenticated_raft_rpc_handler (registration : option N) (replication_id : bytes) (claimed : N) (peer : PeerId)
    (n : Network) : Network * result (N * Refusal) handler :=
  match registration with
  | None => (n, Err (0, UnknownReplicationGroup))
  | Some r =>
      match n_regs n !! r with
      | None => (n, Err (0, UnknownReplicationGroup))
      | Some reg =>
          match local_status (rg_handler reg) (n_world n) with
          | None => (n, Err (0, StatusUnavailable))
          | Some status =>
              if negb (st_present status) || negb (is_active_voter status claimed) then
                (n, Err (st_current_term status, NotAVoter))
              else
                let '(n, expected) := expected_voter r reg replication_id claimed n in
                match expected with
                | None => (n, Err (st_current_term status, IdentityUnavailable))
                | Some expected =>
                    if decide (expected = peer) then
                      if decide (n_handlers n !! replication_id = Some r) then (n, Ok (rg_handler reg))
                      else (n, Err (st_current_term status, HandlerChanged))
                    else (n, Err (st_current_term status, PeerMismatch))
                end
          end
      end
  end.

(** ** Commands *)

(** [swarm.behaviour_mut().req_resp.send_request], and the pending reply. *)
Definition send_request (target : PeerId) (f : Frame) (pending : option OutboundReply) (n : Network) : Network * list effect :=
  let id := n_next_request n in
  let outbound := match pending with Some p => <[id := p]> (n_outbound n) | None => n_outbound n end in
  (with_outbound outbound (id + 1) n, [ERequest id target f]).

Definition raft_frame (replication_id : bytes) (rpc : RaftRpc) : Frame :=
  match rpc with
  | RpcAppend term leader_prefix prev_log_index prev_log_term leader_commit entries =>
      RaftAppendReq replication_id term leader_prefix prev_log_index prev_log_term leader_commit entries
  | RpcVote term candidate_prefix last_log_index last_log_term =>
      RaftVoteReq replication_id term candidate_prefix last_log_index last_log_term
  | RpcInstall term leader_prefix last_included_index last_included_term offset done_ snapshot members joint_old active_config_index =>
      RaftInstallSnapshotReq replication_id term leader_prefix last_included_index last_included_term offset done_ snapshot
        members joint_old active_config_index
  end.

Definition raft_pending (rpc : RaftRpc) (reply : N) : OutboundReply :=
  match rpc with
  | RpcAppend _ _ _ _ _ _ => ORaftAppend reply
  | RpcVote _ _ _ _ => ORaftVote reply
  | RpcInstall _ _ _ _ _ _ _ _ _ _ => ORaftInstallSnapshot reply
  end.

(** The command arm of [network_main]. *)
Definition handle_cmd (c : NetworkCmd) (n : Network) : Network * list effect :=
  match c with
  | Connect addr => (n, [EDial addr])
  | SendTell target from to payload => send_request target (Tell from to payload) None n
  | SendInvoke target from to chain msg reply =>
      send_request target (InvokeRequest from to chain msg) (Some (OInvoke (mkPendingInvoke reply from to chain msg 0))) n
  | SendInvokeExact target from to chain msg reply =>
      send_request target (InvokeRequest from to chain msg) (Some (OInvokeExact reply)) n
  | SendFetchHeads target replication_id reply => send_request target (FetchHeads replication_id) (Some (OHeads reply)) n
  | SendFetchNode target replication_id cid reply => send_request target (FetchNode replication_id cid) (Some (ONode reply)) n
  | SendFetchProofBlob target hash reply => send_request target (FetchProofBlob hash) (Some (OProofBlob reply)) n
  | SendFetchProgramBlob target hash reply => send_request target (FetchProgramBlob hash) (Some (OProgramBlob reply)) n
  | SendStorePrivateIngress target replication_id invocation content_hash content_len b reply =>
      send_request target (StorePrivateIngress replication_id invocation content_hash content_len b) (Some (OPrivateIngress reply)) n
  | SubscribeRep replication_id => (n, [ESubscribe replication_id])
  | PublishHeads replication_id roots => (n, [EPublish replication_id (encode (Heads replication_id roots))])
  | RegisterHintSender replication_id sender => (with_hints (<[replication_id := sender]> (n_hints n)) n, [])
  | SendRaft target replication_id rpc reply =>
      send_request target (raft_frame replication_id rpc) (Some (raft_pending rpc reply)) n
  | SendRaftJoin target replication_id joiner_prefix policy reply =>
      send_request target (RaftJoinReq replication_id joiner_prefix policy) (Some (ORaftJoin reply)) n
  | SendManifestReq target reply => send_request target ManifestReq (Some (OManifest reply)) n
  | SendRaftStatus target replication_id reply => send_request target (RaftStatusReq replication_id) (Some (ORaftStatus reply)) n
  | Shutdown => (with_running false n, [])
  end.

(** ** Requests *)

Definition spawn_blocking (t : task) (n : Network) : Network * list effect := (with_tasks (n_tasks n ++ [t]) n, []).
Definition respond (channel : N) (f : Frame) (n : Network) : Network * list effect := (n, [EResponse channel f]).

(** [b"VRT2"] *)
Definition VRT2 : bytes := [Byte.x56; Byte.x52; Byte.x54; Byte.x32].

Definition handle_tell (peer : PeerId) (channel from to : N) (payload : bytes) (n : Network) : Network * list effect :=
  let claimed_prefix := N.shiftr from 16 in
  let authenticated_source :=
    if bool_decide (take 4 payload = VRT2) then claimed_prefix =? derive_node_prefix peer
    else authenticated_tell_source (n_prefix_map n) peer from in
  (n, (if authenticated_source then [EInbox (mkInboundTell peer from to payload)] else []) ++ [EResponse channel Ack]).

Definition handle_hello (peer : PeerId) (channel node_prefix : N) (n : Network) : Network * list effect :=
  respond channel (Hello (n_local_prefix n))
    (with_prefix_map (record_authenticated_prefix (n_prefix_map n) node_prefix peer) n).

Definition handle_invoke (peer : PeerId) (channel from to : N) (chain : list N) (msg : bytes) (n : Network) :
    Network * list effect :=
  spawn_blocking (TInvoke channel (n_service n) peer from to chain msg) n.

(** A fetch over its budget gets no response. *)
Definition handle_fetch_heads (now : N) (peer : PeerId) (channel : N) (replication_id : bytes) (n : Network) :
    Network * list effect :=
  let '(l, ok) := allow now (n_limiter n) peer in
  let n := with_limiter l n in
  if ok then spawn_blocking (THeads channel (n_service n) peer replication_id) n else (n, []).

Definition handle_fetch_node (now : N) (peer : PeerId) (channel : N) (replication_id cid : bytes) (n : Network) :
    Network * list effect :=
  let '(l, ok) := allow now (n_limiter n) peer in
  let n := with_limiter l n in
  if ok then spawn_blocking (TNode channel (n_service n) peer replication_id cid) n else (n, []).

Definition handle_fetch_program_blob (now : N) (peer : PeerId) (channel : N) (hash : bytes) (n : Network) :
    Network * list effect :=
  let '(l, ok) := allow_program_blob now (n_limiter n) peer in
  let n := with_limiter l n in
  if ok then spawn_blocking (TProgramBlob channel (n_service n) peer hash) n else (n, []).

Definition handle_private_ingress (now : N) (peer : PeerId) (channel : N) (replication_id invocation content_hash : bytes)
    (content_len : N) (b : bytes) (n : Network) : Network * list effect :=
  let '(l, ok) := acquire_private_ingress now (n_limiter n) peer in
  let n := with_limiter l n in
  if ok then
    spawn_blocking (TPrivateIngress channel (n_service n) peer replication_id invocation content_hash content_len b) n
  else respond channel (PrivateIngressStored false) n.

(** A Raft RPC: the registration of its group is captured here. *)
Definition handle_raft (peer : PeerId) (channel : N) (replication_id : bytes) (rpc : RaftRpc) (n : Network) : Network * list effect :=
  spawn_blocking (TRaft channel peer replication_id (n_handlers n !! replication_id) rpc) n.

(** A join: the prefix to enrol is the caller's, not the one it claims. *)
Definition handle_raft_join_req (peer : PeerId) (channel : N) (replication_id : bytes) (joiner_prefix : N) (policy : option bytes)
    (n : Network) : Network * list effect :=
  let bound_prefix := derive_node_prefix peer in
  spawn_blocking
    (TJoin channel (n_service n) peer replication_id bound_prefix policy
       (rg_handler <$> lookup_registration replication_id n)) n.

Definition handle_manifest_req (channel : N) (n : Network) : Network * list effect :=
  let reply := default (mkManifestReply [] []) (n_service n ≫= λ s, manifest s (n_world n)) in
  respond channel (ManifestResp (mf_toml reply) (mf_blobs reply)) n.

Definition handle_raft_status_req (channel : N) (replication_id : bytes) (n : Network) : Network * list effect :=
  spawn_blocking (TStatus channel replication_id (rg_handler <$> lookup_registration replication_id n)) n.

(** [Message::Request] of [handle_req_resp] *)
Definition handle_request (now : N) (peer : PeerId) (channel : N) (f : Frame) (n : Network) : Network * list effect :=
  match f with
  | Hello node_prefix => handle_hello peer channel node_prefix n
  | Tell from to payload => handle_tell peer channel from to payload n
  | InvokeRequest from to chain msg => handle_invoke peer channel from to chain msg n
  | FetchHeads replication_id => handle_fetch_heads now peer channel replication_id n
  | FetchNode replication_id cid => handle_fetch_node now peer channel replication_id cid n
  | FetchProofBlob hash =>
      respond channel (ProofBlobReply (n_service n ≫= λ s, get_proof_blob s hash (n_world n))) n
  | FetchProgramBlob hash => handle_fetch_program_blob now peer channel hash n
  | StorePrivateIngress replication_id invocation content_hash content_len b =>
      handle_private_ingress now peer channel replication_id invocation content_hash content_len b n
  | RaftAppendReq replication_id term leader_prefix prev_log_index prev_log_term leader_commit entries =>
      handle_raft peer channel replication_id (RpcAppend term leader_prefix prev_log_index prev_log_term leader_commit entries) n
  | RaftVoteReq replication_id term candidate_prefix last_log_index last_log_term =>
      handle_raft peer channel replication_id (RpcVote term candidate_prefix last_log_index last_log_term) n
  | RaftInstallSnapshotReq replication_id term leader_prefix last_included_index last_included_term offset done_ snapshot
      members joint_old active_config_index =>
      handle_raft peer channel replication_id
        (RpcInstall term leader_prefix last_included_index last_included_term offset done_ snapshot members joint_old
           active_config_index) n
  | RaftJoinReq replication_id joiner_prefix policy => handle_raft_join_req peer channel replication_id joiner_prefix policy n
  | ManifestReq => handle_manifest_req channel n
  | RaftStatusReq replication_id => handle_raft_status_req channel replication_id n
  | _ => respond channel Ack n
  end.

(** ** Blocking tasks *)

Definition status_frame (reply : RaftStatusReply) : Frame :=
  RaftStatusResp (st_present reply) (to_wire (st_role reply)) (st_current_term reply) (st_commit_index reply)
    (st_last_applied reply) (st_last_log_index reply) (st_members reply) (st_joint_old reply) (st_active_config_index reply)
    (st_leader_hint reply).

(** The call of an authenticated RPC and the frame of its result. *)
Definition call_handler (h : handler) (replication_id : bytes) (rpc : RaftRpc) (w : W) : W * Frame :=
  match rpc with
  | RpcAppend term leader_prefix prev_log_index prev_log_term leader_commit entries =>
      let '(w, r) := append_entries h replication_id leader_prefix term prev_log_index prev_log_term leader_commit entries w in
      (w, RaftAppendResp (ra_term r) (ra_success r) (ra_match_index r))
  | RpcVote term candidate_prefix last_log_index last_log_term =>
      let '(w, r) := request_vote h replication_id candidate_prefix term last_log_index last_log_term w in
      (w, RaftVoteResp (rv_term r) (rv_vote_granted r))
  | RpcInstall term leader_prefix last_included_index last_included_term offset done_ snapshot members joint_old active_config_index =>
      let '(w, r) :=
        install_snapshot h replication_id leader_prefix term last_included_index last_included_term offset done_ snapshot
          members joint_old active_config_index w in
      (w, RaftInstallSnapshotResp (ri_term r) (ri_bytes_received r))
  end.

(** The answer to an RPC that was refused. *)
Definition refused_frame (local_term : N) (rpc : RaftRpc) : Frame :=
  match rpc with
  | RpcAppend _ _ _ _ _ _ => RaftAppendResp local_term false 0
  | RpcVote _ _ _ _ => RaftVoteResp local_term false
  | RpcInstall _ _ _ _ _ _ _ _ _ _ => RaftInstallSnapshotResp local_term 0
  end.

Definition invoke_frame (r : NetworkInvokeResponse) : Frame :=
  match r with Reply payload => InvokeReply payload | Redirect leader_prefix => InvokeRedirect leader_prefix end.

(** *** Joins: [handle_raft_join] of the node *)

(** The end of a join: the guard is dropped, and the result is sent. *)
Definition join_done (channel : N) (route : option N) (r : RaftJoinResult) (n : Network) : Network * list effect :=
  respond channel (RaftJoinResp r)
    (match route with Some r => with_routes (release r (n_routes n)) n | None => n end).

Definition join_admit (channel : N) (s : Svc) (peer : PeerId) (replication_id : bytes) (joiner_prefix : N)
    (policy : option bytes) (h : handler) (n : Network) : Network * list effect :=
  match lookup_node_member s joiner_prefix (n_world n) with
  | None => join_done channel None NotAuthorized n
  | Some member =>
      if node_member_authenticates_voter member joiner_prefix peer
      then spawn_blocking (TJoinBind channel s peer replication_id joiner_prefix policy h) n
      else join_done channel None NotAuthorized n
  end.

Definition join_route (channel : N) (s : Svc) (peer : PeerId) (replication_id : bytes) (joiner_prefix : N)
    (policy : option bytes) (h : handler) (n : Network) : Network * list effect :=
  match ir_routes (n_routes n) !! replication_id with
  | None =>
      (* groups without a route keep the plain join *)
      match policy with
      | None => spawn_blocking (TJoinAsk channel peer replication_id joiner_prefix None h) n
      | Some _ => join_done channel None PolicyMismatch n
      end
  | Some (r, production_trust_policy) =>
      if negb (bool_decide (production_trust_policy = policy)) then join_done channel None PolicyMismatch n
      else
        let '(rs, ok) := try_acquire r (n_routes n) in
        if ok then spawn_blocking (TJoinQuiesce channel s peer replication_id joiner_prefix r h) (with_routes rs n)
        else join_done channel None Busy n
  end.

(** One step of a task: its result, through [response_tx], is a response; the
    authentication of a Raft RPC leaves the call to make, and the parts of a join
    leave the next one. *)
Definition run_task (t : task) (n : Network) : Network * list effect :=
  match t with
  | TInvoke channel svc caller from to chain msg =>
      let '(w, r) :=
        match svc with
        | Some s => dispatch_invoke_routed s (Some caller) from to chain msg (n_world n)
        | None => (n_world n, Reply [])
        end in
      respond channel (invoke_frame r) (with_world w n)
  | THeads channel svc peer replication_id =>
      respond channel (Heads replication_id (default [] (svc ≫= λ s, sync_roots s (Some peer) replication_id (n_world n)))) n
  | TNode channel svc peer replication_id cid =>
      respond channel (NodeReply (svc ≫= λ s, sync_get_node s (Some peer) replication_id cid (n_world n))) n
  | TProgramBlob channel svc peer hash =>
      respond channel (ProgramBlobReply (svc ≫= λ s, get_program_blob s (Some peer) hash (n_world n))) n
  | TPrivateIngress channel svc peer replication_id invocation content_hash content_len b =>
      let '(w, accepted) :=
        match svc with
        | Some s => store_private_ingress s peer replication_id invocation content_hash content_len b (n_world n)
        | None => (n_world n, false)
        end in
      respond channel (PrivateIngressStored accepted) (with_limiter (release_private_ingress (n_limiter n)) (with_world w n))
  | TRaft channel peer replication_id registration rpc =>
      let '(n, auth) := authenticated_raft_rpc_handler registration replication_id (claimed_prefix rpc) peer n in
      spawn_blocking (TRaftCall channel peer replication_id auth rpc) n
  | TRaftCall channel peer replication_id auth rpc =>
      match auth with
      | Ok h =>
          let '(w, f) := call_handler h replication_id rpc (n_world n) in
          (with_world w n, [ECall h peer replication_id rpc; EResponse channel f])
      | Err (local_term, _) => respond channel (refused_frame local_term rpc) n
      end
  | TJoin channel svc peer replication_id bound_prefix policy h =>
      match h, svc with
      | None, _ => join_done channel None UnknownGroup n
      | Some _, None => join_done channel None NotAuthorized n
      | Some h, Some s => join_admit channel s peer replication_id bound_prefix policy h n
      end
  | TJoinBind channel s peer replication_id joiner_prefix policy h =>
      let '(n, bound) := bind_raft_voter_peer replication_id joiner_prefix peer n in
      if bound then spawn_blocking (TJoinRoute channel s peer replication_id joiner_prefix policy h) n
      else join_done channel None NotAuthorized n
  | TJoinRoute channel s peer replication_id joiner_prefix policy h =>
      join_route channel s peer replication_id joiner_prefix policy h n
  | TJoinQuiesce channel s peer replication_id joiner_prefix r h =>
      let '(w, ok) := route_quiescent s r (n_world n) in
      if ok then spawn_blocking (TJoinAsk channel peer replication_id joiner_prefix (Some r) h) (with_world w n)
      else join_done channel (Some r) Busy (with_world w n)
  | TJoinAsk channel peer replication_id joiner_prefix route h =>
      match h with
      | ReservedRaftHandler => join_done channel route (NotLeader None) n
      | Live h =>
          let '(w, answer) := h_join_ask h replication_id joiner_prefix (n_world n) in
          match answer with
          | inl r => join_done channel route r (with_world w n)
          | inr proposal => spawn_blocking (TJoinChange channel peer replication_id route h proposal) (with_world w n)
          end
      end
  | TJoinChange channel peer replication_id route h proposal =>
      let '(w, r) := h_join_change h proposal (n_world n) in
      let '(n, es) := join_done channel route r (with_world w n) in
      (n, EPropose h peer replication_id (fst proposal) :: es)
  | TStatus channel replication_id h =>
      let reply := match h with Some h => handle_status h replication_id (n_world n) | None => absent end in
      respond channel (status_frame reply) n
  end.

(** ** Responses *)

(** A redirected invocation: once, to another node, and to a peer whose prefix
    is known. *)
Definition follow_redirect (leader_prefix : N) (p : PendingInvoke) (n : Network) : Network * list effect :=
  if (1 <=? pi_redirects p) || (leader_prefix =? n_local_prefix n) then (n, [])
  else
    match n_prefix_map n !! leader_prefix with
    | None => (n, [])
    | Some target =>
        let to := N.lor (N.shiftl leader_prefix 16) (N.land (pi_to p) 0xFFFF) in
        let p := mkPendingInvoke (pi_reply p) (pi_from p) to (pi_chain p) (pi_msg p) (pi_redirects p + 1) in
        send_request target (InvokeRequest (pi_from p) (pi_to p) (pi_chain p) (pi_msg p)) (Some (OInvoke p)) n
    end.

(** The answer a response carries for a pending reply, if its shape fits. *)
Definition answer_of (response : Frame) (pending : OutboundReply) : option (N * Answer) :=
  match response, pending with
  | InvokeReply payload, OInvoke p => Some (pi_reply p, AInvoke payload)
  | InvokeReply payload, OInvokeExact reply => Some (reply, AInvokeExact (Reply payload))
  | InvokeRedirect leader_prefix, OInvokeExact reply => Some (reply, AInvokeExact (Redirect leader_prefix))
  | Heads _ roots, OHeads reply => Some (reply, AHeads roots)
  | NodeReply node, ONode reply => Some (reply, ANode node)
  | ProofBlobReply blob, OProofBlob reply => Some (reply, AProofBlob blob)
  | ProgramBlobReply blob, OProgramBlob reply => Some (reply, AProgramBlob blob)
  | PrivateIngressStored accepted, OPrivateIngress reply => Some (reply, APrivateIngress accepted)
  | RaftAppendResp term success match_index, ORaftAppend reply => Some (reply, ARaftAppend (mkAppendResult term success match_index))
  | RaftVoteResp term vote_granted, ORaftVote reply => Some (reply, ARaftVote (mkVoteResult term vote_granted))
  | RaftInstallSnapshotResp term bytes_received, ORaftInstallSnapshot reply =>
      Some (reply, ARaftInstallSnapshot (mkInstallResult term bytes_received))
  | RaftJoinResp r, ORaftJoin reply => Some (reply, ARaftJoin r)
  | ManifestResp toml blobs, OManifest reply => Some (reply, AManifest (mkManifestReply toml blobs))
  | RaftStatusResp present role current_term commit_index last_applied last_log_index members joint_old active_config_index
      leader_hint, ORaftStatus reply =>
      Some (reply, ARaftStatus (mkStatus present (from_wire role) current_term commit_index last_applied last_log_index members
                                  joint_old active_config_index leader_hint))
  | _, _ => None
  end.

(** [Message::Response] of [handle_req_resp] *)
Definition handle_response (peer : PeerId) (request_id : N) (response : Frame) (n : Network) : Network * list effect :=
  let pending := n_outbound n !! request_id in
  let n := with_outbound (delete request_id (n_outbound n)) (n_next_request n) n in
  match response, pending with
  | Hello node_prefix, _ => (with_prefix_map (record_authenticated_prefix (n_prefix_map n) node_prefix peer) n, [])
  | Ack, _ => (n, [])
  | InvokeRedirect leader_prefix, Some (OInvoke p) => follow_redirect leader_prefix p n
  | _, Some pending =>
      match answer_of response pending with Some (reply, a) => (n, [EAnswer reply a]) | None => (n, []) end
  | _, None => (n, [])
  end.

(** ** Events *)

Inductive rr_event :=
| Request (peer : PeerId) (channel : N) (f : Frame)
| Response (peer : PeerId) (request_id : N) (f : Frame)
| OutboundFailure (peer : PeerId) (request_id : N)
| InboundFailure (peer : PeerId)
| ResponseSent.

Definition handle_req_resp (now : N) (e : rr_event) (n : Network) : Network * list effect :=
  match e with
  | Request peer channel f => handle_request now peer channel f n
  | Response peer request_id f => handle_response peer request_id f n
  | OutboundFailure _ request_id => (with_outbound (delete request_id (n_outbound n)) (n_next_request n) n, [])
  | InboundFailure _ | ResponseSent => (n, [])
  end.

(** A published message; anything but the heads of a known group is dropped. *)
Definition handle_gossipsub_event (source : PeerId) (data : bytes) (n : Network) : Network * list effect :=
  match decode data with
  | Ok (Heads replication_id _) =>
      (n, match n_hints n !! replication_id with Some sender => [EHint sender source] | None => [] end)
  | _ => (n, [])
  end.

Inductive swarm_event :=
| NewListenAddr (address : Addr)
| ConnectionEstablished (peer : PeerId) (is_dialer : bool)
| ConnectionClosed (peer : PeerId) (num_established : N)
| MdnsDiscovered (peers : list (PeerId * Addr))
| ReqResp (e : rr_event)
| Gossip (source : PeerId) (data : bytes)
| OtherEvent.

Definition handle_swarm_event (now : N) (e : swarm_event) (n : Network) : Network * list effect :=
  match e with
  | NewListenAddr address =>
      (if bool_decide (address ∈ n_listen_addrs n) then n else with_listen_addrs (n_listen_addrs n ++ [address]) n, [])
  | ConnectionEstablished peer is_dialer =>
      if is_dialer : bool then send_request peer (Hello (n_local_prefix n)) None n else (n, [])
  | ConnectionClosed peer num_established =>
      (if num_established =? 0 then with_prefix_map (forget_authenticated_prefix (n_prefix_map n) peer) n else n, [])
  | MdnsDiscovered peers => (n, if n_auto_dial n then EDial ∘ snd <$> peers else [])
  | ReqResp e => handle_req_resp now e n
  | Gossip source data => handle_gossipsub_event source data n
  | OtherEvent => (n, [])
  end.

(** ** Steps *)

(** What can happen: a command or an event while the thread runs, a step of a
    task, a call on the handle from another thread, a change of the world. *)
Inductive net_input :=
| ICmd (c : NetworkCmd)
| IEvent (now : N) (e : swarm_event)
| ITask (i : nat)
| ISetService (s : Svc)
| IRegister (replication_id : bytes) (h : H)
| IReserve (replication_id : bytes)
| IActivate (same_network : bool) (t : RaftHandlerReservation) (h : H) (voters : list (N * PeerId))
| IDropReservation (t : RaftHandlerReservation)
| IUnregister (replication_id : bytes)
| IUnregisterIf (replication_id : bytes) (expected : H)
| IBind (replication_id : bytes) (prefix : N) (peer : PeerId)
| IResolve (replication_id : bytes) (prefix : N)
| IAddRoute (replication_id : bytes) (policy : option bytes)
| IRemoveRoute (replication_id : bytes) (expected : N)
| IAdmitPrivate (r : N)
| IAdmitDone (r : N)
| IWorld (w : W).

Definition net_step (i : net_input) (n : Network) : Network * list effect :=
  match i with
  | ICmd c => if n_running n then handle_cmd c n else (n, [])
  | IEvent now e => if n_running n then handle_swarm_event now e n else (n, [])
  | ITask i =>
      match n_tasks n !! i with
      | Some t => run_task t (with_tasks (delete i (n_tasks n)) n)
      | None => (n, [])
      end
  | ISetService s => (set_service s n, [])
  | IRegister replication_id h => (register_raft_handler replication_id h n, [])
  | IReserve replication_id => (fst (reserve_raft_handler replication_id n), [])
  | IActivate same t h voters => (fst (activate_raft_handler_with_voters same t h voters n), [])
  | IDropReservation t => (drop_reservation t n, [])
  | IUnregister replication_id => (unregister_raft_handler replication_id n, [])
  | IUnregisterIf replication_id expected => (fst (unregister_raft_handler_if replication_id expected n), [])
  | IBind replication_id prefix peer => (fst (bind_raft_voter_peer replication_id prefix peer n), [])
  | IResolve replication_id prefix => (fst (raft_voter_peer replication_id prefix n), [])
  | IAddRoute replication_id policy => (with_routes (insert_route replication_id policy (n_routes n)) n, [])
  | IRemoveRoute replication_id expected => (with_routes (remove_route_if replication_id expected (n_routes n)) n, [])
  | IAdmitPrivate r => (with_routes (admit_private r (n_routes n)) n, [])
  | IAdmitDone r => (with_routes (admit_done r (n_routes n)) n, [])
  | IWorld w => (with_world w n, [])
  end.

Fixpoint net_run (ins : list net_input) (n : Network) : Network * list effect :=
  match ins with
  | [] => (n, [])
  | i :: ins =>
      let '(n, es) := net_step i n in
      let '(n, es') := net_run ins n in
      (n, es ++ es')
  end.

End Network.
