(* ===== verification/NetworkLaws.v ===== *)
(** * Invariants of the network thread

    [net_ok]: the tables hold only identities whose derived prefix is the slot
    they occupy, registrations and requests are named once, a redirected
    invocation is redirected at most once, and the private-ingress counter is the
    number of private-ingress tasks, within its cap.  Every step keeps it
    ([net_step_ok]) and only adds to the voter tables ([net_step_grows]).

    [admits] is what authenticating a Raft RPC establishes; [net_step_calls] says a
    handler is called only by a task that was admitted. *)

From stdpp Require Import gmap.
From S2P Require Import Prelude Bytes Frames FrameLaws Network.

Local Open Scope N_scope.

(** The arms of [handle_request]. *)
Ltac open_request :=
  cbn [handle_request]; unfold handle_hello, handle_invoke, handle_fetch_heads, handle_fetch_node, handle_fetch_program_blob,
    handle_private_ingress, handle_raft, handle_raft_join_req, handle_manifest_req, handle_raft_status_req; cbv zeta.

Section laws.
Context {PeerId Addr Svc H W : Type} `{Countable PeerId} `{EqDecision Addr} `{EqDecision H}.
Context `{Identity PeerId} `{NetworkService PeerId Svc W} `{RaftRpcHandler PeerId Svc H W}.

Local Abbreviation Net := (@Network PeerId Addr Svc H W _ _).
Local Abbreviation eff := (@effect PeerId Addr H).
Local Abbreviation input := (@net_input PeerId Addr Svc H W).
Local Abbreviation reg_t := (@RaftHandlerRegistration PeerId H).
Implicit Types (n : Net) (es : list eff) (p peer : PeerId) (x r : N).

Definition private_tasks (ts : list (@task PeerId Svc H)) : nat :=
  count_if (λ t, match t with TPrivateIngress _ _ _ _ _ _ _ _ => true | _ => false end) ts.

Record net_ok n : Prop := {
  ok_local : n_local_prefix n = derive_node_prefix (n_peer_id n);
  ok_owners : ∀ x p, n_prefix_map n !! x = Some p → derive_node_prefix p = x;
  ok_voters : ∀ r reg x p, n_regs n !! r = Some reg → rg_voters reg !! x = Some p → derive_node_prefix p = x;
  ok_store : ∀ r, is_Some (n_regs n !! r) → r < n_next_reg n;
  ok_handlers : ∀ i r, n_handlers n !! i = Some r → is_Some (n_regs n !! r);
  ok_requests : ∀ id, is_Some (n_outbound n !! id) → id < n_next_request n;
  ok_redirects : ∀ id q, n_outbound n !! id = Some (OInvoke q) → pi_redirects q ≤ 1;
  ok_in_flight : private_ingress_in_flight (n_limiter n) = N.of_nat (private_tasks (n_tasks n));
  ok_in_flight_cap : private_ingress_in_flight (n_limiter n) ≤ MAX_PRIVATE_INGRESS_STORES_IN_FLIGHT;
}.

(** Registrations stay, with their handler and the voters they have. *)
Definition grows (n n' : Net) : Prop :=
  ∀ r reg, n_regs n !! r = Some reg →
    ∃ reg', n_regs n' !! r = Some reg' ∧ rg_handler reg' = rg_handler reg ∧ rg_voters reg ⊆ rg_voters reg'.

#[export] Instance grows_preorder : PreOrder grows.
Proof.
  split.
  - intros n r reg Hr. exists reg. done.
  - intros n1 n2 n3 H12 H23 r reg Hr. destruct (H12 r reg Hr) as (reg2 & Hr2 & Hh2 & Hv2).
    destruct (H23 r reg2 Hr2) as (reg3 & Hr3 & Hh3 & Hv3). exists reg3. split_and!; [done|congruence|by etrans].
Qed.

Lemma grows_same n n' : n_regs n' = n_regs n → grows n n'.
Proof. intros He r reg Hr. exists reg. by rewrite He. Qed.

(** ** The parts of a step *)

Lemma record_owner_ok (m : gmap N PeerId) c peer x p :
  (∀ x p, m !! x = Some p → derive_node_prefix p = x) →
  record_authenticated_prefix m c peer !! x = Some p → derive_node_prefix p = x.
Proof.
  intros Hm. unfold record_authenticated_prefix. cbv zeta. destruct (m !! derive_node_prefix peer) eqn:Hd; [apply Hm|].
  intros Hx. apply lookup_insert_Some in Hx as [[<- <-]|[_ Hx]]; [done|by apply Hm].
Qed.

Lemma forget_owner_ok (m : gmap N PeerId) peer x p :
  forget_authenticated_prefix m peer !! x = Some p → m !! x = Some p ∧ p ≠ peer.
Proof. unfold forget_authenticated_prefix. rewrite map_lookup_filter_Some. naive_solver. Qed.

Lemma bind_voters_ok voters (m m' : gmap N PeerId) :
  (∀ x p, m !! x = Some p → derive_node_prefix p = x) → bind_voters voters m = Some m' →
  (∀ x p, m' !! x = Some p → derive_node_prefix p = x) ∧ m ⊆ m'.
Proof.
  revert m. induction voters as [|[x p] voters IH]; intros m Hm; cbn [bind_voters]; [by intros [= <-]|].
  destruct (N.eqb_spec (derive_node_prefix p) x) as [Hx|]; [|done]. cbn [negb].
  destruct (m !! x) as [q|] eqn:Hq.
  - destruct (decide (q = p)); [|done]. by apply IH.
  - intros Hb. apply IH in Hb as [Hok Hsub].
    + split; [done|]. etrans; [|exact Hsub]. by apply insert_subseteq.
    + intros y q Hy. apply lookup_insert_Some in Hy as [[<- <-]|[_ Hy]]; [done|by apply Hm].
Qed.

(** ** Registrations *)

(** The registration tables of two states are related as [net_ok] needs, and
    nothing else changed. *)
Record regs_change n n' : Prop := {
  rc_frame : n' = with_handlers (n_handlers n') (with_regs (n_regs n') (n_next_reg n') n);
  rc_grows : grows n n';
  rc_voters : (∀ r reg x p, n_regs n !! r = Some reg → rg_voters reg !! x = Some p → derive_node_prefix p = x) →
    ∀ r reg x p, n_regs n' !! r = Some reg → rg_voters reg !! x = Some p → derive_node_prefix p = x;
  rc_store : (∀ r, is_Some (n_regs n !! r) → r < n_next_reg n) → ∀ r, is_Some (n_regs n' !! r) → r < n_next_reg n';
  rc_handlers : (∀ i r, n_handlers n !! i = Some r → is_Some (n_regs n !! r)) →
    ∀ i r, n_handlers n' !! i = Some r → is_Some (n_regs n' !! r);
}.

Lemma regs_change_refl n : regs_change n n.
Proof. split; [by destruct n|done..]. Qed.

(** A new registration under a group, its voters derived. *)
Lemma regs_change_new n i reg :
  (∀ r, is_Some (n_regs n !! r) → r < n_next_reg n) →
  (∀ x p, rg_voters reg !! x = Some p → derive_node_prefix p = x) →
  regs_change n (with_handlers (<[i := n_next_reg n]> (n_handlers n)) (with_regs (<[n_next_reg n := reg]> (n_regs n)) (n_next_reg n + 1) n)).
Proof.
  intros Hst Hv. assert (Hfresh : n_regs n !! n_next_reg n = None).
  { destruct (n_regs n !! n_next_reg n) eqn:He; [|done]. assert (n_next_reg n < n_next_reg n); [by apply Hst|lia]. }
  split; cbn.
  - done.
  - intros r reg' Hr. exists reg'. cbn. split_and!; [|done|done]. rewrite lookup_insert_ne; [done|congruence].
  - intros Hok r reg' x p Hr. apply lookup_insert_Some in Hr as [[<- <-]|[_ Hr]]; [apply Hv|by apply (Hok r)].
  - intros _ r Hr. destruct (decide (r = n_next_reg n)) as [->|]; [lia|]. rewrite lookup_insert_ne in Hr by done.
    apply Hst in Hr. lia.
  - intros Hh j r Hr. apply lookup_insert_Some in Hr as [[<- <-]|[_ Hr]]; [by rewrite lookup_insert_eq|].
    destruct (decide (r = n_next_reg n)) as [->|]; [by rewrite lookup_insert_eq|]. rewrite lookup_insert_ne by done. eauto.
Qed.

Lemma regs_change_delete n i : regs_change n (with_handlers (delete i (n_handlers n)) n).
Proof.
  split; cbn; [by destruct n|by apply grows_same|done|done|].
  intros Hh j r Hr. apply lookup_delete_Some in Hr as [_ Hr]. eauto.
Qed.

Lemma bind_registration_change r x peer n : regs_change n (fst (bind_registration r x peer n)).
Proof.
  unfold bind_registration. destruct (N.eqb_spec (derive_node_prefix peer) x) as [Hx|]; cbn [negb]; [|apply regs_change_refl].
  destruct (n_regs n !! r) as [reg|] eqn:Hr; [|apply regs_change_refl].
  destruct (rg_voters reg !! x) as [q|] eqn:Hq; cbn [fst]; [apply regs_change_refl|]. split; cbn.
  - by destruct n.
  - intros r' reg' Hr'. destruct (decide (r' = r)) as [->|].
    + eexists. cbn. rewrite lookup_insert_eq. split_and!; [done|cbn; congruence|]. cbn. replace reg' with reg by congruence. by apply insert_subseteq.
    + exists reg'. cbn. by rewrite lookup_insert_ne.
  - intros Hok r' reg' y p Hr' Hy. apply lookup_insert_Some in Hr' as [[<- <-]|[_ Hr']]; [|by apply (Hok r' reg')].
    cbn in Hy. apply lookup_insert_Some in Hy as [[<- <-]|[_ Hy]]; [done|by apply (Hok r reg)].
  - intros Hst r' Hr'. apply Hst. destruct (decide (r' = r)) as [->|]; [by rewrite Hr|by rewrite lookup_insert_ne in Hr'].
  - intros Hh j r' Hj. apply Hh in Hj. destruct (decide (r' = r)) as [->|]; [by rewrite lookup_insert_eq|by rewrite lookup_insert_ne].
Qed.

(** A binding that is reported is in the table. *)
Lemma bind_registration_true r x peer n :
  snd (bind_registration r x peer n) = true →
  ∃ reg, n_regs (fst (bind_registration r x peer n)) !! r = Some reg ∧ rg_voters reg !! x = Some peer ∧
    ∃ reg0, n_regs n !! r = Some reg0 ∧ rg_handler reg = rg_handler reg0.
Proof.
  unfold bind_registration. destruct (derive_node_prefix peer =? x); cbn [negb]; [|done].
  destruct (n_regs n !! r) as [reg|] eqn:Hr; [|done]. destruct (rg_voters reg !! x) as [q|] eqn:Hq; cbn [fst snd].
  - intros ->%bool_decide_eq_true. exists reg. rewrite Hr. eauto.
  - intros _. eexists. cbn. rewrite lookup_insert_eq. split_and!; [done|cbn; by rewrite lookup_insert_eq|]. eauto.
Qed.

Lemma start_voters_ok n : n_local_prefix n = derive_node_prefix (n_peer_id n) →
  ∀ x p, ({[n_local_prefix n := n_peer_id n]} : gmap N PeerId) !! x = Some p → derive_node_prefix p = x.
Proof. intros Hl x p Hx. apply lookup_singleton_Some in Hx as [<- <-]. done. Qed.

(** ** [net_ok] *)

Lemma regs_change_ok n n' : net_ok n → regs_change n n' → net_ok n'.
Proof.
  intros Hok Hc. destruct Hok as [Ho1 Ho2 Ho3 Ho4 Ho5 Ho6 Ho7 Ho8 Ho9]. destruct Hc as [Hf Hg Hv Hs Hh].
  rewrite Hf. split; cbn; eauto.
Qed.

Definition quiet n n' : Prop :=
  n_peer_id n' = n_peer_id n ∧ n_local_prefix n' = n_local_prefix n ∧ n_prefix_map n' = n_prefix_map n ∧
  n_regs n' = n_regs n ∧ n_next_reg n' = n_next_reg n ∧ n_handlers n' = n_handlers n ∧
  n_outbound n' = n_outbound n ∧ n_next_request n' = n_next_request n ∧
  private_ingress_in_flight (n_limiter n') = private_ingress_in_flight (n_limiter n) ∧
  private_tasks (n_tasks n') = private_tasks (n_tasks n).

Lemma quiet_ok n n' : net_ok n → quiet n n' → net_ok n'.
Proof.
  intros Hok (Q1 & Q2 & Q3 & Q4 & Q5 & Q6 & Q7 & Q8 & Q9 & Q10). destruct Hok as [Ho1 Ho2 Ho3 Ho4 Ho5 Ho6 Ho7 Ho8 Ho9].
  split; rewrite ?Q1, ?Q2, ?Q3, ?Q4, ?Q5, ?Q6, ?Q7, ?Q8, ?Q9, ?Q10; eauto.
Qed.

Lemma send_request_ok target f pending n :
  net_ok n → (∀ q, pending = Some (OInvoke q) → pi_redirects q ≤ 1) → net_ok (fst (send_request target f pending n)).
Proof.
  intros [Ho1 Ho2 Ho3 Ho4 Ho5 Ho6 Ho7 Ho8 Ho9] Hp. unfold send_request. split; cbn; try done.
  - intros id Hid. destruct pending as [q|]; [|apply Ho6 in Hid; lia].
    destruct (decide (id = n_next_request n)) as [->|]; [lia|]. rewrite lookup_insert_ne in Hid by done. apply Ho6 in Hid. lia.
  - intros id q Hid. destruct pending as [q'|]; [|by apply (Ho7 id)].
    apply lookup_insert_Some in Hid as [[_ ->]|[_ Hid]]; [by apply Hp|by apply (Ho7 id)].
Qed.

Lemma forget_request_ok id n : net_ok n → net_ok (with_outbound (delete id (n_outbound n)) (n_next_request n) n).
Proof.
  intros [Ho1 Ho2 Ho3 Ho4 Ho5 Ho6 Ho7 Ho8 Ho9]. split; cbn; try done.
  - intros i Hi. apply Ho6. destruct Hi as [y Hy]. apply lookup_delete_Some in Hy as [_ Hy]. by rewrite Hy.
  - intros i q Hi. apply lookup_delete_Some in Hi as [_ Hi]. by apply (Ho7 i).
Qed.

Lemma prefix_map_ok m n :
  net_ok n → (∀ x p, m !! x = Some p → derive_node_prefix p = x) → net_ok (with_prefix_map m n).
Proof. intros [Ho1 Ho2 Ho3 Ho4 Ho5 Ho6 Ho7 Ho8 Ho9] Hm. by split. Qed.

(** *** Authentication *)

Lemma expected_voter_change r reg i x n : regs_change n (fst (expected_voter r reg i x n)).
Proof.
  unfold expected_voter. destruct (rg_voters reg !! x); [apply regs_change_refl|].
  destruct (n_service n ≫= _) as [p|]; [|apply regs_change_refl].
  pose proof (bind_registration_change r x p n). by destruct (bind_registration r x p n).
Qed.

Lemma expected_voter_some r reg i x n peer :
  n_regs n !! r = Some reg → snd (expected_voter r reg i x n) = Some peer →
  ∃ reg', n_regs (fst (expected_voter r reg i x n)) !! r = Some reg' ∧ rg_handler reg' = rg_handler reg ∧
    rg_voters reg' !! x = Some peer.
Proof.
  intros Hr. unfold expected_voter. destruct (rg_voters reg !! x) as [q|] eqn:Hq.
  { intros [= ->]. exists reg. done. }
  destruct (n_service n ≫= _) as [p|]; [|done].
  pose proof (bind_registration_true r x p n) as Hb. destruct (bind_registration r x p n) as [n' [|]]; [|done].
  cbn [fst snd] in *. intros [= ->]. destruct (Hb eq_refl) as (reg' & Hr' & Hx & reg0 & Hr0 & Hh).
  exists reg'. split_and!; [done|congruence|done].
Qed.

Lemma auth_change registration i x peer n : regs_change n (fst (authenticated_raft_rpc_handler registration i x peer n)).
Proof.
  unfold authenticated_raft_rpc_handler. destruct registration as [r|]; [|apply regs_change_refl].
  destruct (n_regs n !! r) as [reg|]; [|apply regs_change_refl]. destruct (local_status _ _) as [st|]; [|apply regs_change_refl].
  destruct (_ || _); [apply regs_change_refl|]. pose proof (expected_voter_change r reg i x n) as He.
  destruct (expected_voter r reg i x n) as [n' [q|]]; [|done]. destruct (decide _); [|done]. by destruct (decide _).
Qed.

(** What an RPC from [peer] in slot [x] of group [i] must meet to reach [h]: [h]
    is the group's handler, [peer] is bound to the slot, and the worker's status
    counts the slot among the voters. *)
Definition admits n (h : @handler H) peer (i : bytes) x : Prop :=
  ∃ r reg st, n_handlers n !! i = Some r ∧ n_regs n !! r = Some reg ∧ rg_handler reg = h ∧ rg_voters reg !! x = Some peer ∧
    local_status h (n_world n) = Some st ∧ st_present st = true ∧ is_active_voter st x = true.

Lemma auth_admits registration i x peer n n' h :
  authenticated_raft_rpc_handler registration i x peer n = (n', Ok h) → admits n' h peer i x.
Proof.
  unfold authenticated_raft_rpc_handler. destruct registration as [r|]; [|done].
  destruct (n_regs n !! r) as [reg|] eqn:Hr; [|done]. destruct (local_status _ _) as [st|] eqn:Hst; [|done].
  destruct (st_present st) eqn:Hp; [|done]. destruct (is_active_voter st x) eqn:Ha; [|done]. cbn [negb orb].
  pose proof (expected_voter_change r reg i x n) as Hc. pose proof (expected_voter_some r reg i x n) as Hs.
  destruct (expected_voter r reg i x n) as [n1 [q|]]; [|done]. destruct (decide (q = peer)) as [->|]; [|done].
  destruct (decide _) as [Hh|]; [|done]. intros [= <- <-]. destruct (Hs peer Hr eq_refl) as (reg' & Hr' & Hh' & Hx).
  cbn [fst] in *. exists r, reg', st. split_and!; try done. rewrite (rc_frame _ _ Hc). done.
Qed.

(** *** The handlers of requests, tasks, responses and events *)

Lemma charge_in_flight now l peer :
  private_ingress_in_flight (fst (allow now l peer)) = private_ingress_in_flight l ∧
  private_ingress_in_flight (fst (allow_program_blob now l peer)) = private_ingress_in_flight l.
Proof. unfold allow, allow_program_blob. by repeat destruct (charge _ _ _ _). Qed.

Lemma private_tasks_app ts1 ts2 : private_tasks (ts1 ++ ts2) = (private_tasks ts1 + private_tasks ts2)%nat.
Proof. apply count_if_app. Qed.

Lemma private_tasks_delete ts i t :
  ts !! i = Some t → private_tasks ts = (private_tasks [t] + private_tasks (delete i ts))%nat.
Proof.
  intros Hi. unfold private_tasks at 1 3. rewrite delete_take_drop. rewrite <- (take_drop_middle _ _ _ Hi) at 1.
  rewrite !count_if_app. cbn [count_if]. fold (private_tasks [t]). unfold private_tasks. cbn [count_if]. lia.
Qed.

Lemma acquire_ok now peer n l' ok :
  net_ok n → acquire_private_ingress now (n_limiter n) peer = (l', ok) →
  ∀ t, private_tasks [t] = 1%nat →
  net_ok (if ok then with_tasks (n_tasks n ++ [t]) (with_limiter l' n) else with_limiter l' n).
Proof.
  intros [Ho1 Ho2 Ho3 Ho4 Ho5 Ho6 Ho7 Ho8 Ho9] Hl t Ht. unfold acquire_private_ingress in Hl.
  destruct (charge _ _ _ _) as [ws [|]]; [|injection Hl as <- <-; by split].
  cbn in Hl. destruct (N.leb_spec MAX_PRIVATE_INGRESS_STORES_IN_FLIGHT (private_ingress_in_flight (n_limiter n))) as [|Hc];
    injection Hl as <- <-; [by split|]. split; try done; cbn.
  - rewrite private_tasks_app, Ht, Ho8. lia.
  - lia.
Qed.

Lemma spawn_ok t n : net_ok n → private_tasks [t] = 0%nat → net_ok (with_tasks (n_tasks n ++ [t]) n).
Proof.
  intros Hok Ht. eapply quiet_ok; [exact Hok|]. unfold quiet. cbn. split_and!; try done.
  rewrite private_tasks_app, Ht. lia.
Qed.

Lemma limiter_ok l n :
  net_ok n → private_ingress_in_flight l = private_ingress_in_flight (n_limiter n) → net_ok (with_limiter l n).
Proof. intros Hok Hl. eapply quiet_ok; [exact Hok|]. unfold quiet. by split_and!. Qed.

Lemma world_ok w n : net_ok n → net_ok (with_world w n).
Proof. intros Hok. eapply quiet_ok; [exact Hok|]. unfold quiet. by split_and!. Qed.

Lemma routes_ok rs n : net_ok n → net_ok (with_routes rs n).
Proof. intros Hok. eapply quiet_ok; [exact Hok|]. unfold quiet. by split_and!. Qed.

Lemma join_done_ok ch route res n : net_ok n → net_ok (fst (join_done ch route res n)).
Proof. intros Hok. unfold join_done. destruct route; [by apply routes_ok|done]. Qed.

Lemma bind_raft_voter_peer_change i x peer n : regs_change n (fst (bind_raft_voter_peer i x peer n)).
Proof. unfold bind_raft_voter_peer. destruct (n_handlers n !! i); [apply bind_registration_change|apply regs_change_refl]. Qed.

Lemma handle_request_ok now peer ch f n : net_ok n → net_ok (fst (handle_request now peer ch f n)).
Proof.
  intros Hok. destruct f; open_request; try exact Hok; try (by apply spawn_ok).
  - apply prefix_map_ok; [done|]. intros x p. apply record_owner_ok. apply Hok.
  - pose proof (charge_in_flight now (n_limiter n) peer) as [Hc _]. destruct (allow _ _ _) as [l [|]].
    + apply spawn_ok; [|done]. by apply limiter_ok.
    + by apply limiter_ok.
  - pose proof (charge_in_flight now (n_limiter n) peer) as [Hc _]. destruct (allow _ _ _) as [l [|]].
    + apply spawn_ok; [|done]. by apply limiter_ok.
    + by apply limiter_ok.
  - pose proof (charge_in_flight now (n_limiter n) peer) as [_ Hc]. destruct (allow_program_blob _ _ _) as [l [|]].
    + apply spawn_ok; [|done]. by apply limiter_ok.
    + by apply limiter_ok.
  - destruct (acquire_private_ingress _ _ _) as [l ok] eqn:Hl.
    pose proof (acquire_ok _ _ _ _ _ Hok Hl (TPrivateIngress ch (n_service n) peer replication_id invocation content_hash content_len bytes_) eq_refl) as Ha.
    by destruct ok.
Qed.

Lemma run_task_ok i t n : net_ok n → n_tasks n !! i = Some t → net_ok (fst (run_task t (with_tasks (delete i (n_tasks n)) n))).
Proof.
  intros Hok Hi. pose proof (private_tasks_delete _ _ _ Hi) as Hd.
  destruct t; try (assert (Hok' : net_ok (with_tasks (delete i (n_tasks n)) n))
    by (eapply quiet_ok; [exact Hok|]; unfold quiet; by split_and!); clear Hok Hi Hd; revert Hok'; generalize (with_tasks (delete i (n_tasks n)) n); clear n; intros n Hok);
    cbn [run_task]; try exact Hok.
  - destruct svc as [s|]; [|by apply world_ok]. destruct (dispatch_invoke_routed _ _ _ _ _ _ _). by apply world_ok.
  - match goal with |- context [let '(_, _) := ?e in _] => destruct e as [w a] end. cbn [fst respond].
    destruct Hok as [Ho1 Ho2 Ho3 Ho4 Ho5 Ho6 Ho7 Ho8 Ho9].
    unfold private_tasks at 2 in Hd. cbn [count_if] in Hd. split; try done;
      cbn [n_limiter n_tasks with_limiter with_world with_tasks release_private_ingress private_ingress_in_flight]; lia.
  - pose proof (auth_change registration replication_id (claimed_prefix rpc) peer n) as Hc.
    destruct (authenticated_raft_rpc_handler _ _ _ _ _) as [n' a]. cbn [fst] in Hc. apply spawn_ok; [|done]. by eapply regs_change_ok.
  - destruct auth as [h|[tm why]]; [|done]. destruct (call_handler _ _ _ _). by apply world_ok.
  - destruct h as [h|], svc as [s|]; try by apply join_done_ok. unfold join_admit.
    destruct (lookup_node_member _ _ _) as [m|]; [|by apply join_done_ok].
    destruct (node_member_authenticates_voter _ _ _); [by apply spawn_ok|by apply join_done_ok].
  - pose proof (bind_raft_voter_peer_change replication_id joiner_prefix peer n) as Hc.
    destruct (bind_raft_voter_peer _ _ _ _) as [n' b]. cbn [fst] in Hc. apply (regs_change_ok _ _ Hok) in Hc.
    destruct b; [by apply spawn_ok|by apply join_done_ok].
  - unfold join_route. destruct (_ !! replication_id) as [[r q]|].
    + destruct (negb _); [by apply join_done_ok|]. destruct (try_acquire _ _) as [rs [|]]; [|by apply join_done_ok].
      apply spawn_ok; [by apply routes_ok|done].
    + destruct policy; [by apply join_done_ok|by apply spawn_ok].
  - destruct (route_quiescent _ _ _) as [w [|]]; [apply spawn_ok; [by apply world_ok|done]|by apply join_done_ok, world_ok].
  - destruct h as [|h]; [by apply join_done_ok|]. destruct (h_join_ask _ _ _ _) as [w [res|q]].
    + by apply join_done_ok, world_ok.
    + apply spawn_ok; [by apply world_ok|done].
  - destruct (h_join_change _ _ _) as [w res]. unfold join_done. cbn. destruct route; [by apply routes_ok, world_ok|by apply world_ok].
Qed.

Lemma handle_cmd_ok c n : net_ok n → net_ok (fst (handle_cmd c n)).
Proof.
  intros Hok. destruct c; cbn [handle_cmd]; try exact Hok; try (apply send_request_ok; [done|]; by intros q [= <-]);
    try (eapply quiet_ok; [exact Hok|]; unfold quiet; by split_and!).
  apply send_request_ok; [done|]. intros q Hq. by destruct rpc.
Qed.

Lemma handle_response_ok peer id f n : net_ok n → net_ok (fst (handle_response peer id f n)).
Proof.
  intros Hok. pose proof (forget_request_ok id n Hok) as Hok'. unfold handle_response. cbv zeta.
  destruct f; try (destruct (n_outbound n !! id) as [q|]; [destruct (answer_of _ q) as [[rep a]|]|]; exact Hok').
  - apply prefix_map_ok; [done|]. intros x p. apply record_owner_ok. apply Hok.
  - destruct (n_outbound n !! id) as [q|] eqn:Hq; [|exact Hok']. destruct q; try (destruct (answer_of _ _) as [[rep a]|]; exact Hok').
    unfold follow_redirect. destruct (_ || _) eqn:Hr; [exact Hok'|]. destruct (n_prefix_map _ !! leader_prefix) as [target|]; [|exact Hok'].
    apply send_request_ok; [done|]. intros q [= <-]. cbn. apply orb_false_iff in Hr as [Hr%N.leb_gt _]. lia.
  - exact Hok'.
Qed.

Lemma handle_swarm_event_ok now e n : net_ok n → net_ok (fst (handle_swarm_event now e n)).
Proof.
  intros Hok. destruct e; cbn [handle_swarm_event]; try exact Hok.
  - destruct (bool_decide _); [done|]. eapply quiet_ok; [exact Hok|]. unfold quiet. by split_and!.
  - destruct is_dialer; [|done]. by apply send_request_ok.
  - destruct (_ =? _); [|done]. apply prefix_map_ok; [done|]. intros x p [Hx _]%forget_owner_ok. by apply Hok.
  - destruct e; cbn [handle_req_resp]; try exact Hok; [by apply handle_request_ok|by apply handle_response_ok|by apply forget_request_ok].
  - unfold handle_gossipsub_event. destruct (decode data) as [[]|]; exact Hok.
Qed.

(** The calls on the handle change only the registrations, or the service. *)
Lemma handle_calls_change n i :
  net_ok n →
  match i with
  | IRegister _ _ | IReserve _ | IActivate _ _ _ _ | IDropReservation _ | IUnregister _ | IUnregisterIf _ _ | IBind _ _ _ | IResolve _ _ =>
      regs_change n (fst (net_step i n))
  | _ => True
  end.
Proof.
  intros Hok. pose proof (ok_store _ Hok) as Hst. pose proof (start_voters_ok n (ok_local _ Hok)) as Hlv.
  destruct i; try done; cbn [net_step fst].
  - by apply (regs_change_new n replication_id (registration_new (Live h) n)).
  - unfold reserve_raft_handler. destruct (_ !! _); [apply regs_change_refl|].
    by apply (regs_change_new n replication_id (registration_new ReservedRaftHandler n)).
  - unfold activate_raft_handler_with_voters. destruct same_network; [|apply regs_change_refl]. cbn [negb].
    unfold registration_with_voters. destruct (bind_voters _ _) as [m|] eqn:Hb; [|apply regs_change_refl]. cbn [fmap option_fmap option_map].
    destruct (_ !! _); [|apply regs_change_refl]. destruct (decide _); [|apply regs_change_refl].
    apply (bind_voters_ok _ _ _ Hlv) in Hb as [Hm _]. by apply (regs_change_new n (rs_replication_id t) (mkRegistration (Live h) m)).
  - unfold drop_reservation. destruct (decide _); [apply regs_change_delete|apply regs_change_refl].
  - apply regs_change_delete.
  - unfold unregister_raft_handler_if. destruct (lookup_registration _ _) as [[[|h] vs]|]; [apply regs_change_refl| |apply regs_change_refl].
    destruct (decide _); [apply regs_change_delete|apply regs_change_refl].
  - unfold bind_raft_voter_peer. destruct (_ !! _); [apply bind_registration_change|apply regs_change_refl].
  - unfold raft_voter_peer. destruct (lookup_registration _ _); [|apply regs_change_refl].
    destruct (_ !! _); [apply regs_change_refl|]. destruct (n_service n ≫= _) as [p|]; [|apply regs_change_refl].
    unfold bind_raft_voter_peer. destruct (n_handlers n !! _) as [r'|]; [|apply regs_change_refl].
    match goal with |- context [bind_registration r' ?x p n] => pose proof (bind_registration_change r' x p n); by destruct (bind_registration r' x p n) end.
Qed.

Lemma net_step_ok i n : net_ok n → net_ok (fst (net_step i n)).
Proof.
  intros Hok. pose proof (handle_calls_change n i Hok) as Hc.
  destruct i; try (by eapply regs_change_ok); cbn [net_step]; try (by apply routes_ok).
  - destruct (n_running n); [by apply handle_cmd_ok|done].
  - destruct (n_running n); [by apply handle_swarm_event_ok|done].
  - destruct (n_tasks n !! i) eqn:Hi; [by apply run_task_ok|done].
  - unfold set_service. destruct (n_service n); [done|]. eapply quiet_ok; [exact Hok|]. unfold quiet. by split_and!.
  - by apply world_ok.
Qed.

(** *** Registrations only grow *)

Lemma send_request_regs target f pending n : n_regs (fst (send_request target f pending n)) = n_regs n.
Proof. done. Qed.

Lemma run_task_grows t n : grows n (fst (run_task t n)).
Proof.
  destruct t; cbn [run_task]; unfold join_admit, join_route, join_done; try done; try (apply grows_same; repeat case_match; done).
  - pose proof (rc_grows _ _ (auth_change registration replication_id (claimed_prefix rpc) peer n)) as Ha.
    by destruct (authenticated_raft_rpc_handler _ _ _ _ _).
  - pose proof (rc_grows _ _ (bind_raft_voter_peer_change replication_id joiner_prefix peer n)) as Ha.
    by destruct (bind_raft_voter_peer _ _ _ _) as [n' [|]].
  - destruct (h_join_change _ _ _). by destruct route; apply grows_same.
Qed.

Lemma net_step_grows i n : net_ok n → grows n (fst (net_step i n)).
Proof.
  intros Hok. pose proof (handle_calls_change n i Hok) as Hc. destruct i; try (by apply rc_grows); cbn [net_step].
  - destruct (n_running n); [|done]. apply grows_same. by destruct c.
  - destruct (n_running n); [|done]. apply grows_same. destruct e; try done; cbn [handle_swarm_event].
    + by destruct (bool_decide _).
    + by destruct is_dialer.
    + by destruct (_ =? _).
    + destruct e; try done; cbn [handle_req_resp].
      * destruct f; try done; open_request; repeat case_match; done.
      * unfold handle_response, follow_redirect. repeat case_match; done.
    + unfold handle_gossipsub_event. repeat case_match; done.
  - destruct (n_tasks n !! i) as [t|] eqn:Hi; [|done]. apply (run_task_grows t (with_tasks (delete i (n_tasks n)) n)).
  - apply grows_same. unfold set_service. by destruct (n_service n).
  - by apply grows_same.
  - by apply grows_same.
  - by apply grows_same.
  - by apply grows_same.
  - by apply grows_same.
Qed.

(** ** Runs *)

Lemma start_ok peer_id prefix auto_dial w n : start peer_id prefix auto_dial w = Some n → net_ok n.
Proof.
  unfold start. destruct (N.eqb_spec prefix (derive_node_prefix peer_id)) as [->|]; [|done]. intros [= <-].
  split; cbn; try done; try (by intros; simplify_map_eq); try (by intros ? [? ?]; simplify_map_eq).
Qed.

Lemma net_run_app ins1 ins2 n :
  net_run (ins1 ++ ins2) n =
  let '(n1, es1) := net_run ins1 n in let '(n2, es2) := net_run ins2 n1 in (n2, es1 ++ es2).
Proof.
  revert n. induction ins1 as [|i ins1 IH]; intros n; cbn.
  - by destruct (net_run ins2 n).
  - destruct (net_step i n) as [n1 es1]. rewrite IH. destruct (net_run ins1 n1) as [n2 es2].
    destruct (net_run ins2 n2) as [n3 es3]. by rewrite app_assoc.
Qed.

Lemma net_run_ok ins n : net_ok n → net_ok (fst (net_run ins n)).
Proof.
  revert n. induction ins as [|i ins IH]; intros n Hok; cbn [net_run]; [done|].
  apply (net_step_ok i) in Hok. destruct (net_step i n) as [n1 es1]. apply IH in Hok. cbn [fst] in Hok. destruct (net_run ins n1). exact Hok.
Qed.

Lemma net_run_grows ins n : net_ok n → grows n (fst (net_run ins n)).
Proof.
  revert n. induction ins as [|i ins IH]; intros n Hok; cbn [net_run]; [done|].
  pose proof (net_step_grows i n Hok) as Hg. apply (net_step_ok i) in Hok. destruct (net_step i n) as [n1 es1].
  etrans; [exact Hg|]. apply IH in Hok. cbn [fst] in Hok. destruct (net_run ins n1). exact Hok.
Qed.

End laws.
