(* ===== verification/NetworkTrace.v ===== *)
(** * What the network thread does over a run

    Facts about the effects of a run: a Raft handler is called only after its
    caller was admitted ([run_calls]), a message reaches the inbox only from the
    owner of its source prefix ([run_inbox]), a response has the shape its request
    expects ([run_responses]) and a pending reply takes it ([expects_answer]), and a
    command is answered at most once ([run_answers]). *)

From stdpp Require Import gmap.
From S2P Require Import Prelude Bytes Frames FrameLaws Network NetworkLaws.

Local Open Scope N_scope.

(** The response a request expects. *)
Definition expects (f g : Frame) : bool :=
  match f, g with
  | Hello _, Hello _ => true
  | InvokeRequest _ _ _ _, (InvokeReply _ | InvokeRedirect _) => true
  | FetchHeads i, Heads j _ => bool_decide (i = j)
  | FetchNode _ _, NodeReply _ => true
  | FetchProofBlob _, ProofBlobReply _ => true
  | FetchProgramBlob _, ProgramBlobReply _ => true
  | StorePrivateIngress _ _ _ _ _, PrivateIngressStored _ => true
  | RaftAppendReq _ _ _ _ _ _ _, RaftAppendResp _ _ _ => true
  | RaftVoteReq _ _ _ _ _, RaftVoteResp _ _ => true
  | RaftInstallSnapshotReq _ _ _ _ _ _ _ _ _ _ _, RaftInstallSnapshotResp _ _ => true
  | RaftJoinReq _ _ _, RaftJoinResp _ => true
  | ManifestReq, ManifestResp _ _ => true
  | RaftStatusReq _, RaftStatusResp _ _ _ _ _ _ _ _ _ _ => true
  | (Hello _ | InvokeRequest _ _ _ _ | FetchHeads _ | FetchNode _ _ | FetchProofBlob _ | FetchProgramBlob _
     | StorePrivateIngress _ _ _ _ _ | RaftAppendReq _ _ _ _ _ _ _ | RaftVoteReq _ _ _ _ _
     | RaftInstallSnapshotReq _ _ _ _ _ _ _ _ _ _ _ | RaftJoinReq _ _ _ | ManifestReq | RaftStatusReq _), _ => false
  | _, Ack => true
  | _, _ => false
  end.

Lemma elem_of_delete_list {A} (l : list A) j x : x ∈ delete j l → x ∈ l.
Proof.
  rewrite delete_take_drop. intros [Hx|Hx]%elem_of_app; [by eapply subseteq_take|by eapply subseteq_drop].
Qed.

Section trace.
Context {PeerId Addr Svc H W : Type} `{Countable PeerId} `{EqDecision Addr} `{EqDecision H}.
Context `{Identity PeerId} `{NetworkService PeerId Svc W} `{RaftRpcHandler PeerId Svc H W}.

Local Abbreviation Net := (@Network PeerId Addr Svc H W _ _).
Local Abbreviation eff := (@effect PeerId Addr H).
Local Abbreviation input := (@net_input PeerId Addr Svc H W).
Local Abbreviation task_t := (@task PeerId Svc H).
Implicit Types (n : Net) (es : list eff) (p peer : PeerId) (x r : N) (t : task_t).

(** A property of every effect of a run, from one of every step. *)
Lemma run_effects (P : eff → Prop) ins n :
  net_ok n → (∀ i n e, net_ok n → i ∈ ins → e ∈ snd (net_step i n) → P e) → ∀ e, e ∈ snd (net_run ins n) → P e.
Proof.
  revert n. induction ins as [|i ins IH]; intros n Hok Hs e; cbn [net_run]; [by intros ?%elem_of_nil|].
  pose proof (Hs i n e Hok ltac:(left)) as Hi. apply (net_step_ok i) in Hok. destruct (net_step i n) as [n1 es1]. cbn [fst] in Hok.
  specialize (IH n1 Hok). destruct (net_run ins n1) as [n2 es2]. cbn [snd]. intros [He|He]%elem_of_app; [by apply Hi|].
  apply IH; [|done]. intros j m e' Hm Hj. apply Hs; [done|by right].
Qed.

(** ** The tasks a step leaves *)

Definition rpc_for (f : Frame) (rpc : RaftRpc) : bool :=
  match f, rpc with
  | RaftAppendReq _ _ _ _ _ _ _, RpcAppend _ _ _ _ _ _ => true
  | RaftVoteReq _ _ _ _ _, RpcVote _ _ _ _ => true
  | RaftInstallSnapshotReq _ _ _ _ _ _ _ _ _ _ _, RpcInstall _ _ _ _ _ _ _ _ _ _ => true
  | _, _ => false
  end.

(** The task serves the request [f] on the channel [ch]. *)
Definition task_for (ch : N) (f : Frame) t : bool :=
  match t with
  | TInvoke c _ _ _ _ _ _ => (c =? ch) && match f with InvokeRequest _ _ _ _ => true | _ => false end
  | THeads c _ _ i => (c =? ch) && match f with FetchHeads j => bool_decide (j = i) | _ => false end
  | TNode c _ _ _ _ => (c =? ch) && match f with FetchNode _ _ => true | _ => false end
  | TProgramBlob c _ _ _ => (c =? ch) && match f with FetchProgramBlob _ => true | _ => false end
  | TPrivateIngress c _ _ _ _ _ _ _ => (c =? ch) && match f with StorePrivateIngress _ _ _ _ _ => true | _ => false end
  | TRaft c _ _ _ rpc | TRaftCall c _ _ _ rpc => (c =? ch) && rpc_for f rpc
  | TJoin c _ _ i _ q _ | TJoinBind c _ _ i _ q _ | TJoinRoute c _ _ i _ q _ =>
      (c =? ch) && match f with RaftJoinReq j _ p => bool_decide (j = i) && bool_decide (p = q) | _ => false end
  | TJoinQuiesce c _ _ i _ _ _ | TJoinAsk c _ i _ _ _ | TJoinChange c _ i _ _ _ =>
      (c =? ch) && match f with RaftJoinReq j _ _ => bool_decide (j = i) | _ => false end
  | TStatus c _ _ => (c =? ch) && match f with RaftStatusReq _ => true | _ => false end
  end.

(** The task a request of [peer] starts with: not the later part of another, and a
    join is for the prefix derived from the peer, with the service that is set. *)
Definition first_task n peer t : Prop :=
  match t with
  | TRaftCall _ _ _ _ _ | TJoinBind _ _ _ _ _ _ _ | TJoinRoute _ _ _ _ _ _ _ | TJoinQuiesce _ _ _ _ _ _ _
  | TJoinAsk _ _ _ _ _ _ | TJoinChange _ _ _ _ _ _ => False
  | TJoin _ svc q _ x _ _ => q = peer ∧ x = derive_node_prefix peer ∧ svc = n_service n
  | _ => True
  end.

Lemma handle_request_tasks now peer ch f n :
  ∃ ts, n_tasks (fst (handle_request now peer ch f n)) = n_tasks n ++ ts ∧ Forall (λ t, task_for ch f t ∧ first_task n peer t) ts.
Proof.
  destruct f; open_request; repeat case_match; cbn;
    (by exists []; rewrite app_nil_r) ||
    (eexists; split; [done|]; repeat constructor; cbn; by rewrite ?N.eqb_refl, ?bool_decide_true).
Qed.

Lemma handle_request_effects now peer ch f n e :
  e ∈ snd (handle_request now peer ch f n) →
  (∃ g, e = EResponse ch g ∧ expects f g) ∨
  (∃ from to payload, f = Tell from to payload ∧ e = EInbox (mkInboundTell peer from to payload) ∧
     (N.shiftr from 16 = derive_node_prefix peer ∨ n_prefix_map n !! N.shiftr from 16 = Some peer)).
Proof.
  destruct f; open_request; unfold spawn_blocking, respond, handle_tell;
    try (repeat case_match; cbn [snd]; intros He; (by apply elem_of_nil in He) || (apply list_elem_of_singleton in He as ->; left; eauto)).
  cbv zeta. cbn [snd]. intros [He|He]%elem_of_app; [right|apply list_elem_of_singleton in He as ->; left; eauto].
  destruct (bool_decide (take 4 payload = VRT2)).
  - destruct (N.eqb_spec (N.shiftr from 16) (derive_node_prefix peer)) as [Hd|]; [|by apply elem_of_nil in He].
    apply list_elem_of_singleton in He as ->. eauto 8.
  - unfold authenticated_tell_source in He. cbv zeta in He. destruct (negb _); [|by apply elem_of_nil in He]. cbn [andb] in He.
    case_bool_decide as Hm; [|by apply elem_of_nil in He]. apply list_elem_of_singleton in He as ->. eauto 8.
Qed.

(** What running a task leaves to run: the call it authenticated, or the next part
    of a join. *)
Inductive next_task n : task_t → task_t → Prop :=
| nt_call ch peer i registration rpc :
    next_task n (TRaft ch peer i registration rpc)
      (TRaftCall ch peer i (snd (authenticated_raft_rpc_handler registration i (claimed_prefix rpc) peer n)) rpc)
| nt_bind ch s peer i x policy h member :
    lookup_node_member s x (n_world n) = Some member → node_member_authenticates_voter member x peer = true →
    next_task n (TJoin ch (Some s) peer i x policy (Some h)) (TJoinBind ch s peer i x policy h)
| nt_route ch s peer i x policy h :
    snd (bind_raft_voter_peer i x peer n) = true →
    next_task n (TJoinBind ch s peer i x policy h) (TJoinRoute ch s peer i x policy h)
| nt_plain ch s peer i x h :
    ir_routes (n_routes n) !! i = None →
    next_task n (TJoinRoute ch s peer i x None h) (TJoinAsk ch peer i x None h)
| nt_quiesce ch s peer i x policy h r :
    ir_routes (n_routes n) !! i = Some (r, policy) → r ∉ ir_held (n_routes n) →
    next_task n (TJoinRoute ch s peer i x policy h) (TJoinQuiesce ch s peer i x r h)
| nt_ask ch s peer i x r h :
    next_task n (TJoinQuiesce ch s peer i x r h) (TJoinAsk ch peer i x (Some r) h)
| nt_change ch peer i x route h w proposal :
    h_join_ask h i x (n_world n) = (w, inr proposal) →
    next_task n (TJoinAsk ch peer i x route (Live h)) (TJoinChange ch peer i route h proposal).

Lemma run_task_tasks t n :
  n_tasks (fst (run_task t n)) = n_tasks n ∨
  ∃ t', next_task n t t' ∧ n_tasks (fst (run_task t n)) = n_tasks n ++ [t'].
Proof.
  destruct t; cbn [run_task]; try (left; unfold join_done; repeat case_match; done).
  - right. eexists. split; [constructor|].
    pose proof (auth_change registration replication_id (claimed_prefix rpc) peer n) as Hc.
    destruct (authenticated_raft_rpc_handler _ _ _ _ _) as [n' a]. cbn. cbn [fst] in Hc. by rewrite (rc_frame _ _ Hc).
  - destruct h as [h|], svc as [s|]; try (by left). unfold join_admit.
    destruct (lookup_node_member _ _ _) as [m|] eqn:Hm; [|by left].
    destruct (node_member_authenticates_voter _ _ _) eqn:Ha; [|by left]. right. eexists. split; [by econstructor|done].
  - pose proof (bind_raft_voter_peer_change replication_id joiner_prefix peer n) as Hc.
    pose proof (nt_route n channel s peer replication_id joiner_prefix policy h) as Hn.
    destruct (bind_raft_voter_peer _ _ _ _) as [n' [|]]; cbn [fst snd] in *.
    + right. eexists. split; [by apply Hn|]. cbn. by rewrite (rc_frame _ _ Hc).
    + left. cbn. by rewrite (rc_frame _ _ Hc).
  - unfold join_route. destruct (ir_routes (n_routes n) !! replication_id) as [[r q]|] eqn:Hr.
    + case_bool_decide as Hq; [subst q|by left]. cbn [negb]. unfold try_acquire. destruct (decide _) as [|Hheld]; [by left|].
      right. eexists. split; [by econstructor|done].
    + destruct policy; [by left|]. right. eexists. split; [by constructor|done].
  - destruct (route_quiescent _ _ _) as [w [|]]; [right|by left]. eexists. split; [constructor|done].
  - destruct h as [|h]; [unfold join_done; by destruct route; left|].
    destruct (h_join_ask _ _ _ _) as [w [res|q]] eqn:Hq; [unfold join_done; by destruct route; left|].
    right. eexists. split; [by econstructor|done].
  - left. destruct (h_join_change _ _ _). unfold join_done. by destruct route.
Qed.

Lemma next_task_for n t t' ch f : next_task n t t' → task_for ch f t → task_for ch f t'.
Proof.
  destruct 1; cbn [task_for]; try done; intros [Hc Hf]%andb_prop_elim; apply andb_prop_intro; (split; [done|]); destruct f; try done;
    by apply andb_prop_elim in Hf as [Hf _].
Qed.

Lemma run_task_effects t n e :
  e ∈ snd (run_task t n) →
  (∃ ch g, e = EResponse ch g ∧ ∀ c f, task_for c f t → c = ch ∧ expects f g) ∨
  (∃ ch h peer i rpc, e = ECall h peer i rpc ∧ t = TRaftCall ch peer i (Ok h) rpc) ∨
  (∃ ch h peer i route proposal, e = EPropose h peer i (fst proposal) ∧ t = TJoinChange ch peer i route h proposal).
Proof.
  assert (Hone : ∀ ch g, e ∈ [EResponse ch g] → (∀ c f, task_for c f t → c = ch ∧ expects f g) →
    (∃ ch g, e = EResponse ch g ∧ ∀ c f, task_for c f t → c = ch ∧ expects f g) ∨
    (∃ ch h peer i rpc, e = ECall h peer i rpc ∧ t = TRaftCall ch peer i (Ok h) rpc) ∨
    (∃ ch h peer i route proposal, e = EPropose h peer i (fst proposal) ∧ t = TJoinChange ch peer i route h proposal)).
  { intros ch g ->%list_elem_of_singleton Hf. left. eauto. }
  destruct t; cbn [run_task]; unfold respond, spawn_blocking, invoke_frame, status_frame, refused_frame.
  7:{ destruct auth as [h|[tm why]].
      - destruct (call_handler h replication_id rpc (n_world n)) as [w g] eqn:Hg. cbn [snd].
        intros [->|He]%elem_of_cons; [right; left; eauto 8|]. apply (Hone _ _ He). intros c f [<-%Is_true_true%N.eqb_eq Hf]%andb_prop_elim.
        split; [done|]. unfold call_handler in Hg. destruct rpc, f; try done; repeat case_match; by injection Hg as <- <-.
      - cbn [snd]. intros He. apply (Hone _ _ He). intros c f [<-%Is_true_true%N.eqb_eq Hf]%andb_prop_elim. split; [done|]. by destruct rpc, f. }
  6:{ destruct (authenticated_raft_rpc_handler _ _ _ _ _). by intros ?%elem_of_nil. }
  11:{ destruct (h_join_change h proposal (n_world n)) as [w g]. cbn. intros [->|He]%elem_of_cons; [right; right; eauto 8|].
       apply (Hone _ _ He). intros c f [Hc Hf]%andb_prop_elim. split; [symmetry; by apply N.eqb_eq, Is_true_true|by destruct f]. }
  all: unfold join_admit, join_route, join_done, spawn_blocking, respond; repeat case_match; cbn [snd]; intros He;
    try (by apply elem_of_nil in He); apply (Hone _ _ He); intros c f [Hc Hf]%andb_prop_elim;
    (split; [symmetry; by apply N.eqb_eq, Is_true_true|destruct f; try done]).
Qed.

Definition is_service (e : eff) : bool := match e with EResponse _ _ | EInbox _ | ECall _ _ _ _ | EPropose _ _ _ _ => true | _ => false end.

Lemma input_cases (i : input) :
  match i with ITask _ | IEvent _ (ReqResp (Request _ _ _)) => False | _ => True end ∨
  (∃ j, i = ITask j) ∨ ∃ now peer ch f, i = IEvent now (ReqResp (Request peer ch f)).
Proof. destruct i as [| now [| | | |[]| |] | | | | | | | | | | | | | | |]; eauto 8. Qed.

(** Every other input leaves the tasks alone and serves nobody. *)
Lemma other_input i n e :
  match i with ITask _ | IEvent _ (ReqResp (Request _ _ _)) => False | _ => True end →
  n_tasks (fst (net_step i n)) = n_tasks n ∧ (e ∈ snd (net_step i n) → is_service e = false).
Proof.
  intros Hi. destruct i; try done; cbn [net_step].
  - destruct (n_running n); [|split; [done|by intros ?%elem_of_nil]]. destruct c; cbn [handle_cmd]; (split; [done|]);
      cbn [snd send_request]; intros He; (by apply elem_of_nil in He) || (by apply list_elem_of_singleton in He as ->).
  - destruct (n_running n); [|split; [done|by intros ?%elem_of_nil]]. destruct e0; try done; cbn [handle_swarm_event].
    + destruct (bool_decide _); (split; [done|by intros ?%elem_of_nil]).
    + destruct is_dialer; (split; [done|]); cbn [snd send_request]; intros He; (by apply elem_of_nil in He) || (by apply list_elem_of_singleton in He as ->).
    + destruct (_ =? _); (split; [done|by intros ?%elem_of_nil]).
    + split; [done|]. cbn [snd]. destruct (n_auto_dial n); [|by intros ?%elem_of_nil]. intros He.
      apply list_elem_of_fmap in He as (y & -> & _). done.
    + destruct e0; try done; cbn [handle_req_resp]; try (split; [done|by intros ?%elem_of_nil]).
      unfold handle_response, follow_redirect. repeat case_match; (split; [done|]); cbn [snd send_request]; intros He;
        (by apply elem_of_nil in He) || (by apply list_elem_of_singleton in He as ->).
    + unfold handle_gossipsub_event. repeat case_match; (split; [done|]); cbn [snd]; intros He;
        (by apply elem_of_nil in He) || (by apply list_elem_of_singleton in He as ->).
    + split; [done|by intros ?%elem_of_nil].
  - split; [|by intros ?%elem_of_nil]. unfold set_service. by destruct (n_service n).
  - split; [done|by intros ?%elem_of_nil].
  - split; [|by intros ?%elem_of_nil]. unfold reserve_raft_handler. by destruct (_ !! _).
  - split; [|by intros ?%elem_of_nil]. unfold activate_raft_handler_with_voters, new_registration. cbv zeta. repeat case_match; simplify_eq; done.
  - split; [|by intros ?%elem_of_nil]. unfold drop_reservation. by destruct (decide _).
  - split; [done|by intros ?%elem_of_nil].
  - split; [|by intros ?%elem_of_nil]. unfold unregister_raft_handler_if. repeat case_match; done.
  - split; [|by intros ?%elem_of_nil]. unfold bind_raft_voter_peer, bind_registration. repeat case_match; done.
  - split; [|by intros ?%elem_of_nil]. unfold raft_voter_peer, bind_raft_voter_peer, bind_registration. repeat case_match; simplify_eq; done.
  - split; [done|by intros ?%elem_of_nil].
  - split; [done|by intros ?%elem_of_nil].
  - split; [done|by intros ?%elem_of_nil].
  - split; [done|by intros ?%elem_of_nil].
  - split; [done|by intros ?%elem_of_nil].
Qed.

(** Every task of a step was there, starts with a request, or follows another. *)
Lemma step_tasks i n t' :
  t' ∈ n_tasks (fst (net_step i n)) →
  t' ∈ n_tasks n ∨
  (∃ now peer ch f, i = IEvent now (ReqResp (Request peer ch f)) ∧ task_for ch f t' ∧ first_task n peer t') ∨
  (∃ j t, i = ITask j ∧ n_tasks n !! j = Some t ∧ next_task (with_tasks (delete j (n_tasks n)) n) t t').
Proof.
  destruct (input_cases i) as [Hi|[[j ->]|(now & q & ch & f & ->)]].
  - intros Ht. left. by rewrite (proj1 (other_input i n (ESubscribe []) Hi)) in Ht.
  - cbn [net_step]. destruct (n_tasks n !! j) as [t|] eqn:Hj; [|by left].
    destruct (run_task_tasks t (with_tasks (delete j (n_tasks n)) n)) as [->|(t1 & Ht & ->)].
    + intros Ht. left. exact (elem_of_delete_list _ j _ Ht).
    + intros [Hin|Hin]%elem_of_app; [left; exact (elem_of_delete_list _ j _ Hin)|]. apply list_elem_of_singleton in Hin as ->. right; right; eauto.
  - cbn [net_step]. destruct (n_running n); [|by left]. cbn [handle_swarm_event handle_req_resp].
    destruct (handle_request_tasks now q ch f n) as (ts & -> & Hall). intros [Ht|Ht]%elem_of_app; [by left|].
    rewrite Forall_forall in Hall. apply Hall in Ht as [Hf Hp]. right; left; eauto 8.
Qed.

(** Who serves: a task, or the handler of a request. *)
Lemma step_effects i n e :
  e ∈ snd (net_step i n) →
  is_service e = false ∨
  (∃ j t, i = ITask j ∧ n_tasks n !! j = Some t ∧ e ∈ snd (run_task t (with_tasks (delete j (n_tasks n)) n))) ∨
  (∃ now peer ch f, i = IEvent now (ReqResp (Request peer ch f)) ∧ e ∈ snd (handle_request now peer ch f n)).
Proof.
  destruct (input_cases i) as [Hi|[[j ->]|(now & q & ch & f & ->)]].
  - left. by apply (proj2 (other_input i n e Hi)).
  - cbn [net_step]. destruct (n_tasks n !! j) as [t|] eqn:Hj; [|by intros ?%elem_of_nil]. right; left; eauto.
  - cbn [net_step]. destruct (n_running n); [|by intros ?%elem_of_nil]. right; right; eauto 8.
Qed.

(** *** Calls *)

Definition is_admitted_call t h peer (i : bytes) rpc : Prop := ∃ ch, t = TRaftCall ch peer i (Ok h) rpc.

Lemma step_calls i n :
  (∀ h peer g rpc, ECall h peer g rpc ∈ snd (net_step i n) → ∃ t, t ∈ n_tasks n ∧ is_admitted_call t h peer g rpc) ∧
  (∀ t h peer g rpc, t ∈ n_tasks (fst (net_step i n)) → is_admitted_call t h peer g rpc →
     t ∈ n_tasks n ∨ admits (fst (net_step i n)) h peer g (claimed_prefix rpc)).
Proof.
  split.
  - intros h peer g rpc He. apply step_effects in He as [Hs|[(j & t & -> & Hj & He)|(now & q & ch & f & -> & He)]]; [done|..].
    + apply run_task_effects in He as [(ch & f & [=] & _)|[(ch & h' & peer' & g' & rpc' & [= -> -> -> ->] & ->)|(? & ? & ? & ? & ? & ? & [=] & _)]].
      eexists; split; [by eapply list_elem_of_lookup_2|by exists ch].
    + apply handle_request_effects in He as [(? & [=] & _)|(? & ? & ? & _ & [=] & _)].
  - intros t h peer g rpc Ht [ch ->]. apply step_tasks in Ht as [Ht|[(? & ? & ? & ? & _ & _ & [])|(j & t & -> & Hj & Hn)]]; [by left|right].
    cbn [net_step]. rewrite Hj. remember (TRaftCall ch peer g (Ok h) rpc) as t' eqn:Ht'.
    destruct Hn as [? ? ? registration ?| | | | | |]; try done. injection Ht' as -> -> -> Ha ->. cbn [run_task].
    destruct (authenticated_raft_rpc_handler _ _ _ _ _) as [n' a] eqn:Hau. cbn [snd] in Ha. subst a. by apply auth_admits in Hau.
Qed.

(** A handler is called for a peer that was admitted at some point of the run. *)
Lemma run_calls ins n :
  n_tasks n = [] →
  (∀ h peer g rpc, ECall h peer g rpc ∈ snd (net_run ins n) →
     ∃ ins1 ins2, ins = ins1 ++ ins2 ∧ admits (fst (net_run ins1 n)) h peer g (claimed_prefix rpc)) ∧
  (∀ t h peer g rpc, t ∈ n_tasks (fst (net_run ins n)) → is_admitted_call t h peer g rpc →
     ∃ ins1 ins2, ins = ins1 ++ ins2 ∧ admits (fst (net_run ins1 n)) h peer g (claimed_prefix rpc)).
Proof.
  intros Hn. induction ins as [|i ins [IH1 IH2]] using rev_ind.
  { cbn. rewrite Hn. split; intros *; by intros ?%elem_of_nil. }
  pose proof (net_run_app ins [i] n) as Happ. destruct (step_calls i (fst (net_run ins n))) as [Hs1 Hs2].
  destruct (net_run ins n) as [n1 es1] eqn:Hr. cbn [net_run] in Happ. cbn [fst snd] in *.
  destruct (net_step i n1) as [n2 es2] eqn:Hst. rewrite app_nil_r in Happ. rewrite Happ. cbn [fst snd] in *.
  assert (Hlast : ∀ h peer g x, admits n2 h peer g x → ∃ ins1 ins2, ins ++ [i] = ins1 ++ ins2 ∧ admits (fst (net_run ins1 n)) h peer g x).
  { intros h peer g x Ha. exists (ins ++ [i]), []. rewrite app_nil_r, Happ. done. }
  assert (Hext : ∀ (Q : list input → Prop), (∃ ins1 ins2, ins = ins1 ++ ins2 ∧ Q ins1) → ∃ ins1 ins2, ins ++ [i] = ins1 ++ ins2 ∧ Q ins1).
  { intros Q (i1 & i2 & -> & HQ). exists i1, (i2 ++ [i]). by rewrite app_assoc. }
  split.
  - intros h peer g rpc [He|He]%elem_of_app; [by apply Hext, IH1|]. apply Hs1 in He as (t & Ht & Hc).
    apply Hext. by eapply IH2.
  - intros t h peer g rpc Ht Hc. destruct (Hs2 t h peer g rpc Ht Hc) as [Ht'|Ha]; [apply Hext; by eapply IH2|by apply Hlast].
Qed.

(** *** The inbox *)

Lemma run_inbox ins n tell :
  net_ok n → EInbox tell ∈ snd (net_run ins n) → N.shiftr (it_from tell) 16 = derive_node_prefix (it_peer tell).
Proof.
  intros Hok He. set (P e := match e : eff with EInbox t => N.shiftr (it_from t) 16 = derive_node_prefix (it_peer t) | _ => True end).
  change (P (EInbox tell)). eapply run_effects; [exact Hok| |exact He]. clear. intros i n e Hok _ He.
  destruct e; try done.
  destruct (input_cases i) as [Hi|[[j ->]|(now & q & ch & f & ->)]].
  - by apply (proj2 (other_input i n _ Hi)) in He.
  - cbn [net_step] in He. destruct (n_tasks n !! j); [|by apply elem_of_nil in He].
    apply run_task_effects in He as [(? & ? & [=] & _)|[(? & ? & ? & ? & ? & [=] & _)|(? & ? & ? & ? & ? & ? & [=] & _)]].
  - cbn [net_step] in He. destruct (n_running n); [|by apply elem_of_nil in He].
    apply handle_request_effects in He as [(? & [=] & _)|(from & to & payload & _ & [= ->] & Hd)]. cbn.
    destruct Hd as [|Hd]; [done|]. symmetry. by apply (ok_owners _ Hok).
Qed.

(** *** Responses *)

Definition requested (ins : list input) (ch : N) (f : Frame) : Prop :=
  ∃ now peer, IEvent now (ReqResp (Request peer ch f)) ∈ ins.

Lemma step_responses i n ins :
  (∀ t, t ∈ n_tasks n → ∃ ch f, requested ins ch f ∧ task_for ch f t) →
  (∀ ch g, EResponse ch g ∈ snd (net_step i n) → ∃ f, requested (ins ++ [i]) ch f ∧ expects f g) ∧
  (∀ t, t ∈ n_tasks (fst (net_step i n)) → ∃ ch f, requested (ins ++ [i]) ch f ∧ task_for ch f t).
Proof.
  intros Hn.
  assert (Hext : ∀ ch f, requested ins ch f → requested (ins ++ [i]) ch f).
  { intros ch f (now & peer & Hi). exists now, peer. apply elem_of_app. by left. }
  assert (Hn' : ∀ t, t ∈ n_tasks n → ∃ ch f, requested (ins ++ [i]) ch f ∧ task_for ch f t).
  { intros t (ch & f & Hr & Hf)%Hn. eauto 6. }
  split.
  - intros ch g He. apply step_effects in He as [|[(j & t & -> & Hj & He)|(now & q & c & f & -> & He)]]; [done|..].
    + destruct (Hn' t (list_elem_of_lookup_2 _ _ _ Hj)) as (c & f & Hr & Hf).
      apply run_task_effects in He as [(c' & g' & [= -> ->] & He)|[(? & ? & ? & ? & ? & [=] & _)|(? & ? & ? & ? & ? & ? & [=] & _)]].
      destruct (He c f Hf) as [-> Hg]. eauto.
    + apply handle_request_effects in He as [(g' & [= -> ->] & Hg)|(? & ? & ? & _ & [=] & _)]. exists f. split; [|done].
      exists now, q. apply elem_of_app. right. by apply list_elem_of_singleton.
  - intros t Ht. apply step_tasks in Ht as [Ht|[(now & q & c & f & -> & Hf & _)|(j & t0 & -> & Hj & Hnt)]]; [by apply Hn'|..].
    + exists c, f. split; [|done]. exists now, q. apply elem_of_app. right. by apply list_elem_of_singleton.
    + destruct (Hn' t0 (list_elem_of_lookup_2 _ _ _ Hj)) as (c & f & Hr & Hf). exists c, f. split; [done|]. by eapply next_task_for.
Qed.

(** Every response answers a request made on its channel, in the shape it expects. *)
Lemma run_responses ins n :
  n_tasks n = [] →
  (∀ ch g, EResponse ch g ∈ snd (net_run ins n) → ∃ f, requested ins ch f ∧ expects f g) ∧
  (∀ t, t ∈ n_tasks (fst (net_run ins n)) → ∃ ch f, requested ins ch f ∧ task_for ch f t).
Proof.
  intros Hn. induction ins as [|i ins [IH1 IH2]] using rev_ind.
  { cbn. rewrite Hn. split; intros *; by intros ?%elem_of_nil. }
  pose proof (net_run_app ins [i] n) as Happ. destruct (step_responses i (fst (net_run ins n)) ins IH2) as [Hs1 Hs2].
  destruct (net_run ins n) as [n1 es1] eqn:Hr. cbn [net_run] in Happ. cbn [fst snd] in *.
  destruct (net_step i n1) as [n2 es2] eqn:Hst. rewrite app_nil_r in Happ. rewrite Happ. cbn [fst snd] in *.
  split; [|done]. intros ch g [He|He]%elem_of_app; [|by apply Hs1]. apply IH1 in He as (f & (now & peer & Hi) & Hg).
  exists f. split; [|done]. exists now, peer. apply elem_of_app. by left.
Qed.

(** ** Answers *)

Definition reply_of (q : OutboundReply) : N :=
  match q with
  | OInvoke p => pi_reply p
  | OInvokeExact r | OHeads r | ONode r | ORaftAppend r | ORaftVote r | ORaftInstallSnapshot r | ORaftJoin r | OManifest r
  | ORaftStatus r | OProofBlob r | OProgramBlob r | OPrivateIngress r => r
  end.

Definition cmd_reply (c : @NetworkCmd PeerId Addr) : option N :=
  match c with
  | SendInvoke _ _ _ _ _ r | SendInvokeExact _ _ _ _ _ r | SendFetchHeads _ _ r | SendFetchNode _ _ _ r | SendFetchProofBlob _ _ r
  | SendFetchProgramBlob _ _ r | SendStorePrivateIngress _ _ _ _ _ _ r | SendRaft _ _ _ r | SendRaftJoin _ _ _ _ r
  | SendManifestReq _ r | SendRaftStatus _ _ r => Some r
  | _ => None
  end.

Lemma answer_of_reply g q reply a : answer_of g q = Some (reply, a) → reply = reply_of q.
Proof. destruct g, q; cbn; intros; by simplify_eq. Qed.

(** A command with a reply channel sends one request, and what a node answers to
    that request is what the pending reply takes. *)
Lemma expects_answer c n reply :
  cmd_reply c = Some reply →
  ∃ id target f q, handle_cmd c n = (with_outbound (<[id := q]> (n_outbound n)) (id + 1) n, [ERequest id target f]) ∧
    id = n_next_request n ∧ reply_of q = reply ∧
    ∀ g, expects f g → (∃ a, answer_of g q = Some (reply, a)) ∨
      ∃ leader from to chain msg, g = InvokeRedirect leader ∧ c = SendInvoke target from to chain msg reply ∧
        q = OInvoke (mkPendingInvoke reply from to chain msg 0).
Proof.
  intros Hc. destruct c; try done; injection Hc as ->; cbn [handle_cmd]; unfold send_request;
    try (eexists _, _, _, _; split; [reflexivity|]; split_and!; [done|done|]; intros g Hg; destruct g; try done; cbn; eauto 10).
  eexists _, _, _, _; split; [reflexivity|]. destruct rpc; (split_and!; [done|done|]); intros g Hg; destruct g; try done; cbn; eauto.
Qed.

Definition pending_for (reply : N) n : nat := size (filter (λ kv, reply_of kv.2 = reply) (n_outbound n)).

Definition answers_to (reply : N) es : nat :=
  count_if (λ e, match e with EAnswer r _ => r =? reply | _ => false end) es.

Definition asks (reply : N) (i : input) : nat :=
  match i with ICmd c => if bool_decide (cmd_reply c = Some reply) then 1 else 0 | _ => 0 end.

Lemma pending_insert (m : gmap N OutboundReply) id q reply :
  m !! id = None →
  size (filter (λ kv, reply_of kv.2 = reply) (<[id := q]> m)) =
  ((if decide (reply_of q = reply) then 1 else 0) + size (filter (λ kv, reply_of kv.2 = reply) m))%nat.
Proof.
  intros Hid. destruct (decide (reply_of q = reply)) as [Hq|Hq].
  - rewrite map_filter_insert_True by done. rewrite map_size_insert_None; [lia|]. apply map_lookup_filter_None. by left.
  - rewrite map_filter_insert_False by done. by rewrite delete_id.
Qed.

Lemma pending_delete (m : gmap N OutboundReply) id reply :
  size (filter (λ kv, reply_of kv.2 = reply) m) =
  (match m !! id with Some q => if decide (reply_of q = reply) then 1 else 0 | None => 0 end +
   size (filter (λ kv, reply_of kv.2 = reply) (delete id m)))%nat.
Proof.
  destruct (m !! id) as [q|] eqn:Hid; [|by rewrite delete_id].
  rewrite <- (insert_delete_id _ _ _ Hid) at 1. by rewrite pending_insert by apply lookup_delete_eq.
Qed.

Lemma fresh_request n : net_ok n → n_outbound n !! n_next_request n = None.
Proof.
  intros Hok. destruct (n_outbound n !! n_next_request n) eqn:He; [|done].
  assert (n_next_request n < n_next_request n); [by apply (ok_requests _ Hok)|lia].
Qed.

Lemma cmd_answers reply c n :
  net_ok n →
  (answers_to reply (snd (handle_cmd c n)) + pending_for reply (fst (handle_cmd c n)) ≤ pending_for reply n + asks reply (ICmd c))%nat.
Proof.
  intros Hok. unfold asks. destruct (cmd_reply c) as [r|] eqn:Hc.
  - destruct (expects_answer c n r Hc) as (id & target & f & q & -> & -> & Hq & _). cbn [fst snd]. unfold pending_for. cbn.
    rewrite pending_insert by by apply fresh_request. rewrite Hq. destruct (decide (r = reply)) as [->|Hne].
    + rewrite bool_decide_true by done. lia.
    + rewrite bool_decide_false by congruence. lia.
  - rewrite bool_decide_false by done. destruct c; try done; cbn; unfold pending_for; cbn; lia.
Qed.

Lemma response_answers reply peer id g n :
  net_ok n →
  (answers_to reply (snd (handle_response peer id g n)) + pending_for reply (fst (handle_response peer id g n)) ≤ pending_for reply n)%nat.
Proof.
  intros Hok. pose proof (pending_delete (n_outbound n) id reply) as Hd. unfold pending_for at 2. rewrite Hd.
  set (n1 := with_outbound (delete id (n_outbound n)) (n_next_request n) n).
  assert (Hn1 : pending_for reply n1 = size (filter (λ kv, reply_of kv.2 = reply) (delete id (n_outbound n)))) by done.
  rewrite <- Hn1. pose proof (forget_request_ok id n Hok) as Hok1. fold n1 in Hok1.
  assert (Hplain : ∀ q, n_outbound n !! id = Some q → ∀ o : option (N * Answer), (∀ r a, o = Some (r, a) → r = reply_of q) →
    (answers_to reply (snd (match o with Some (r, a) => (n1, [EAnswer r a]) | None => (n1, []) end)) +
     pending_for reply (fst (match o with Some (r, a) => (n1, [EAnswer r a] : list eff) | None => (n1, []) end)) ≤
     match n_outbound n !! id with Some q => if decide (reply_of q = reply) then 1 else 0 | None => 0 end + pending_for reply n1)%nat).
  { intros q Hq o Ho. rewrite Hq. destruct o as [[r a]|]; cbn [fst snd]; [|unfold answers_to; cbn [count_if]; lia].
    rewrite (Ho r a eq_refl). unfold answers_to. cbn [count_if]. destruct (N.eqb_spec (reply_of q) reply), (decide (reply_of q = reply)); done || lia. }
  unfold handle_response. cbv zeta. fold n1.
  destruct g; try (destruct (n_outbound n !! id) as [q|] eqn:Hq; [|cbn; lia]; apply (Hplain q eq_refl);
    intros r a Ha; by eapply answer_of_reply).
  - cbn. unfold pending_for. cbn. lia.
  - destruct (n_outbound n !! id) as [q|] eqn:Hq; [|cbn; lia].
    destruct q as [w|r|r|r|r|r|r|r|r|r|r|r|r]; try (eapply Hplain; [done|]; intros r' a Ha; by eapply answer_of_reply).
    unfold follow_redirect. destruct (_ || _); [cbn; lia|]. destruct (n_prefix_map _ !! leader_prefix) as [target|]; [|cbn; lia].
    unfold send_request. cbn [fst snd]. unfold pending_for at 1. cbn.
    rewrite pending_insert by by apply (fresh_request n1). cbn. fold (pending_for reply n1). unfold pending_for. cbn. lia.
  - cbn. lia.
Qed.

Lemma same_answers reply n n' es :
  n_outbound n' = n_outbound n → answers_to reply es = 0%nat →
  (answers_to reply es + pending_for reply n' ≤ pending_for reply n)%nat.
Proof. intros Ho He. unfold pending_for. rewrite Ho, He. done. Qed.

Lemma task_answers reply t n :
  n_outbound (fst (run_task t n)) = n_outbound n ∧ answers_to reply (snd (run_task t n)) = 0%nat.
Proof.
  destruct t; cbn [run_task]; unfold join_admit, join_route, join_done; try (repeat case_match; done).
  - pose proof (auth_change registration replication_id (claimed_prefix rpc) peer n) as Hc.
    destruct (authenticated_raft_rpc_handler _ _ _ _ _) as [n' a]. cbn [fst] in Hc. by rewrite (rc_frame _ _ Hc).
  - pose proof (bind_raft_voter_peer_change replication_id joiner_prefix peer n) as Hc.
    destruct (bind_raft_voter_peer _ _ _ _) as [n' b]. cbn [fst] in Hc. destruct b; cbn; by rewrite (rc_frame _ _ Hc).
  - destruct (h_join_change _ _ _). by destruct route.
Qed.

Lemma request_answers reply now peer ch f n :
  n_outbound (fst (handle_request now peer ch f n)) = n_outbound n ∧ answers_to reply (snd (handle_request now peer ch f n)) = 0%nat.
Proof.
  destruct f; open_request; try (repeat case_match; done).
  unfold handle_tell. cbv zeta. by case_match.
Qed.

Lemma event_answers reply now e n :
  net_ok n →
  (answers_to reply (snd (handle_swarm_event now e n)) + pending_for reply (fst (handle_swarm_event now e n)) ≤ pending_for reply n)%nat.
Proof.
  intros Hok. destruct e; cbn [handle_swarm_event]; try (by apply same_answers).
  - destruct (bool_decide _); by apply same_answers.
  - destruct is_dialer; by apply same_answers.
  - destruct (_ =? _); by apply same_answers.
  - apply same_answers; [done|]. destruct (n_auto_dial n); [|done]. cbn [snd]. by induction peers.
  - destruct e; cbn [handle_req_resp]; try (by apply same_answers).
    + apply same_answers; apply (request_answers reply).
    + by apply response_answers.
    + unfold pending_for. cbn. rewrite (pending_delete (n_outbound n) request_id reply). lia.
  - unfold handle_gossipsub_event. repeat case_match; by apply same_answers.
Qed.

Lemma step_answers reply i n :
  net_ok n →
  (answers_to reply (snd (net_step i n)) + pending_for reply (fst (net_step i n)) ≤ pending_for reply n + asks reply i)%nat.
Proof.
  intros Hok. pose proof (handle_calls_change n i Hok) as Hc.
  destruct i; try (cbn [asks]; rewrite Nat.add_0_r; apply same_answers; [by rewrite (rc_frame _ _ Hc)|done]); cbn [net_step].
  - destruct (n_running n); [by apply cmd_answers|cbn; lia].
  - cbn [asks]. rewrite Nat.add_0_r. destruct (n_running n); [by apply event_answers|cbn; lia].
  - cbn [asks]. rewrite Nat.add_0_r. destruct (n_tasks n !! i) as [t|]; [|cbn; lia]. destruct (task_answers reply t (with_tasks (delete i (n_tasks n)) n)) as [Ho Ha].
    apply same_answers; [exact Ho|exact Ha].
  - cbn [asks]. rewrite Nat.add_0_r. apply same_answers; [|done]. unfold set_service. by destruct (n_service n).
  - cbn [asks]. rewrite Nat.add_0_r. by apply same_answers.
  - cbn [asks]. rewrite Nat.add_0_r. by apply same_answers.
  - cbn [asks]. rewrite Nat.add_0_r. by apply same_answers.
  - cbn [asks]. rewrite Nat.add_0_r. by apply same_answers.
  - cbn [asks]. rewrite Nat.add_0_r. by apply same_answers.
Qed.

Lemma run_answers reply ins n :
  net_ok n →
  (answers_to reply (snd (net_run ins n)) + pending_for reply (fst (net_run ins n)) ≤
   pending_for reply n + sum_list_with (asks reply) ins)%nat.
Proof.
  revert n. induction ins as [|i ins IH]; intros n Hok; cbn [net_run]; [cbn; lia|].
  pose proof (step_answers reply i n Hok) as Hs. apply (net_step_ok i) in Hok. destruct (net_step i n) as [n1 es1].
  cbn [fst snd] in *. specialize (IH n1 Hok). destruct (net_run ins n1) as [n2 es2]. cbn [fst snd sum_list_with] in *.
  unfold answers_to in *. rewrite count_if_app. lia.
Qed.

End trace.
