(* ===== verification/NetworkRate.v ===== *)
(** * The rate limits of the network thread

    Fetches of heads and nodes, fetches of program blobs and stores of private
    input are charged to the requesting peer's window of their kind.  A request is
    served when its handler spawns a task for it; [run_served] bounds how many
    requests of a peer a run serves in an interval of one window's length. *)

From stdpp Require Import gmap.
From S2P Require Import Prelude Bytes Frames FrameLaws Network NetworkLaws NetworkTrace.

Local Open Scope N_scope.

Section windows.
Context {PeerId : Type} `{Countable PeerId}.
Implicit Types (ws : gmap PeerId (N * N)) (peer q : PeerId) (reqs past : list (N * PeerId)).

(** The requests of [peer] in the window that starts at [s]. *)
Definition asked (peer : PeerId) (s : N) (reqs : list (N * PeerId)) : nat :=
  count_if (λ '(now, q), bool_decide (q = peer) && (s <=? now) && (now <? s + SYNC_RATE_WINDOW)) reqs.

Lemma asked_app peer s reqs1 reqs2 : asked peer s (reqs1 ++ reqs2) = (asked peer s reqs1 + asked peer s reqs2)%nat.
Proof. apply count_if_app. Qed.

(** The window of [peer] counts at most what it asked for in it, and accounts for
    the [k] requests served so far in the interval that starts at [t]. *)
Definition window_inv (cap t now k : N) peer past (w : option (N * N)) : Prop :=
  (now < t → k = 0) ∧
  match w with
  | None => k ≤ cap ∨ (t + SYNC_RATE_WINDOW ≤ now ∧ k ≤ 2 * cap)
  | Some (s, c) =>
      s ≤ now ∧ c ≤ N.of_nat (asked peer s past) ∧
      (if s <? t then k ≤ N.min c cap
       else k ≤ cap + N.min c cap ∨ (t + SYNC_RATE_WINDOW ≤ s ∧ k ≤ 2 * cap))
  end.

Lemma window_later cap t prev now k peer past reqs w :
  prev ≤ now → window_inv cap t prev k peer past w → window_inv cap t now k peer (past ++ reqs) w.
Proof.
  intros Hle [Hk Hw]. split; [intros; apply Hk; lia|]. destruct w as [[s c]|]; [|destruct Hw; [by left|right; lia]].
  destruct Hw as (? & ? & ?). rewrite asked_app. split_and!; [lia|lia|done].
Qed.

Definition pruned (now : N) (ws : gmap PeerId (N * N)) : gmap PeerId (N * N) :=
  if SYNC_RATE_PRUNE_LEN <=? N.of_nat (size ws) then filter (λ kv, expired now (fst kv.2) = false) ws else ws.

(** An expired window may be dropped. *)
Lemma window_inv_pruned cap t now k ws peer past :
  window_inv cap t now k peer past (ws !! peer) → window_inv cap t now k peer past (pruned now ws !! peer).
Proof.
  unfold pruned. intros Hsame. destruct (_ <=? _); [|done]. destruct (filter _ ws !! peer) as [w|] eqn:Hf.
  { apply (map_lookup_filter_Some) in Hf as [Hf _]. by rewrite <- Hf. }
  destruct (ws !! peer) as [[s c]|] eqn:Hp; [|done]. apply (map_lookup_filter_None) in Hf as [Hf|Hf]; [congruence|].
  specialize (Hf _ Hp). apply not_false_is_true in Hf. cbn in Hf. unfold expired in Hf. apply N.leb_le in Hf.
  destruct Hsame as [Hk (Hs & _ & Hw)]. split; [done|]. destruct (N.ltb_spec s t); [left; lia|right].
  unfold SYNC_RATE_WINDOW in *. lia.
Qed.

Lemma charge_window cap t now k ws q peer past :
  (∀ s, N.of_nat (asked peer s (past ++ [(now, q)])) < u32_modulus) →
  window_inv cap t now k peer past (ws !! peer) →
  window_inv cap t now
    (k + if snd (charge now ws q cap) && bool_decide (q = peer) && (t <=? now) && (now <? t + SYNC_RATE_WINDOW) then 1 else 0)
    peer (past ++ [(now, q)]) (fst (charge now ws q cap) !! peer).
Proof.
  intros Hrate Hw. apply window_inv_pruned in Hw. unfold charge. cbv zeta. fold (pruned now ws). cbn [fst snd].
  revert Hw. generalize (pruned now ws). clear ws. intros ws Hw.
  destruct (decide (q = peer)) as [->|Hne].
  2:{ rewrite bool_decide_false, andb_false_r by done. cbn [andb]. rewrite N.add_0_r, lookup_insert_ne by done. by eapply window_later. }
  rewrite bool_decide_true, andb_true_r, lookup_insert_eq by done. destruct Hw as [Hk Hw].
  assert (Hself : ∀ s, s ≤ now < s + SYNC_RATE_WINDOW → asked peer s (past ++ [(now, peer)]) = S (asked peer s past)).
  { intros s Hs. rewrite asked_app. unfold asked at 2. cbn [count_if]. rewrite bool_decide_true by done.
    rewrite (proj2 (N.leb_le _ _)), (proj2 (N.ltb_lt _ _)) by lia. cbn [andb]. lia. }
  assert (Hfresh : (ws !! peer = None ∨ ∃ s c, ws !! peer = Some (s, c) ∧ expired now s = true) →
    window_inv cap t now (k + if (1 <=? cap) && (t <=? now) && (now <? t + SYNC_RATE_WINDOW) then 1 else 0)
      peer (past ++ [(now, peer)]) (Some (now, 1))).
  { intros Hold. assert (Hold' : k ≤ cap ∨ (t + SYNC_RATE_WINDOW ≤ now ∧ k ≤ 2 * cap)).
    { destruct Hold as [Hn|(s & c & Hs & Hx)]; rewrite ?Hn, ?Hs in Hw; [done|]. unfold expired in Hx. apply N.leb_le in Hx.
      destruct Hw as (_ & _ & Hw). destruct (N.ltb_spec s t); [left; lia|]. destruct Hw as [Hw|Hw]; unfold SYNC_RATE_WINDOW in *; right; lia. }
    assert (1 ≤ N.of_nat (asked peer now (past ++ [(now, peer)]))) by (rewrite Hself by (unfold SYNC_RATE_WINDOW; lia); lia).
    destruct (N.leb_spec 1 cap), (N.leb_spec t now), (N.ltb_spec now (t + SYNC_RATE_WINDOW)); cbn [andb];
      (split; [intros; try lia; rewrite Hk by lia; done|]); (split_and!; [done|done|]); destruct (N.ltb_spec now t); try lia;
      destruct Hold'; (left; lia) || (right; lia) || lia || (rewrite Hk by lia; lia). }
  destruct (ws !! peer) as [[s c]|] eqn:Hp; cbn [default from_option id fst snd].
  - destruct (expired now s) eqn:Hx; [apply Hfresh; right; eauto|]. cbn [fst snd]. destruct Hw as (Hs & Hc & Hw).
    unfold expired in Hx. apply N.leb_gt in Hx. specialize (Hself s ltac:(lia)). specialize (Hrate s). rewrite Hself in Hrate.
    rewrite N.mod_small by lia.
    destruct (N.leb_spec (c + 1) cap), (N.leb_spec t now), (N.ltb_spec now (t + SYNC_RATE_WINDOW)); cbn [andb];
      (split; [intros; try lia; rewrite Hk by lia; done|]); (split_and!; [done|rewrite Hself; lia|]); destruct (N.ltb_spec s t); try lia;
      destruct Hw; (left; lia) || (right; lia).
  - assert (expired now now = false) as ->; [|apply Hfresh; by left]. unfold expired. by rewrite N.sub_diag.
Qed.
End windows.

(** ** Runs *)

Inductive limit := LSync | LProgramBlob | LPrivateIngress.

(** The requests charged to a limit, and its cap. *)
Definition limited (k : limit) (f : Frame) : bool :=
  match k, f with
  | LSync, (FetchHeads _ | FetchNode _ _) => true
  | LProgramBlob, FetchProgramBlob _ => true
  | LPrivateIngress, StorePrivateIngress _ _ _ _ _ => true
  | _, _ => false
  end.

Definition limit_cap (k : limit) : N :=
  match k with
  | LSync => MAX_SYNC_FETCHES_PER_WINDOW
  | LProgramBlob => MAX_PROGRAM_BLOB_FETCHES_PER_WINDOW
  | LPrivateIngress => MAX_PRIVATE_INGRESS_STORES_PER_WINDOW
  end.

Section runs.
Context {PeerId Addr Svc H W : Type} `{Countable PeerId} `{EqDecision Addr} `{EqDecision H}.
Context `{Identity PeerId} `{NetworkService PeerId Svc W} `{RaftRpcHandler PeerId Svc H W}.

Local Abbreviation Net := (@Network PeerId Addr Svc H W _ _).
Local Abbreviation input := (@net_input PeerId Addr Svc H W).
Implicit Types (n : Net) (i : input) (peer : PeerId).

Definition limit_windows (k : limit) (l : @SyncRateLimiter PeerId _ _) : gmap PeerId (N * N) :=
  match k with LSync => sync l | LProgramBlob => program_blob l | LPrivateIngress => private_ingress l end.

Definition request_of (k : limit) i : option (N * PeerId) :=
  match i with
  | IEvent now (ReqResp (Request q _ f)) => if limited k f then Some (now, q) else None
  | _ => None
  end.

Definition event_time i : option N := match i with IEvent now _ => Some now | _ => None end.

(** The step spawns a task. *)
Definition spawns i n : bool := (length (n_tasks n) <? length (n_tasks (fst (net_step i n))))%nat.

(** How many requests of [peer] the run serves in [[t, t + SYNC_RATE_WINDOW)]. *)
Fixpoint served (k : limit) peer (t : N) (ins : list input) n : nat :=
  match ins with
  | [] => 0
  | i :: ins =>
      Nat.add
        (match request_of k i with
         | Some (now, q) => if spawns i n && bool_decide (q = peer) && (t <=? now) && (now <? t + SYNC_RATE_WINDOW) then 1 else 0
         | None => 0
         end)
        (served k peer t ins (fst (net_step i n)))
  end.

Lemma other_limiter k i n :
  match i with IEvent _ (ReqResp (Request _ _ _)) => False | _ => True end → net_ok n →
  limit_windows k (n_limiter (fst (net_step i n))) = limit_windows k (n_limiter n).
Proof.
  intros Hi Hok. pose proof (handle_calls_change n i Hok) as Hc.
  destruct i; try (by rewrite (rc_frame _ _ Hc)); cbn [net_step]; try done.
  - destruct (n_running n); [|done]. by destruct c.
  - destruct (n_running n); [|done]. destruct e; try done; cbn [handle_swarm_event].
    + by destruct (bool_decide _).
    + by destruct is_dialer.
    + by destruct (_ =? _).
    + destruct e; try done; cbn [handle_req_resp]. unfold handle_response, follow_redirect. repeat case_match; done.
    + unfold handle_gossipsub_event. repeat case_match; done.
  - destruct (n_tasks n !! i) as [t|]; [|done]. destruct t; cbn [run_task]; unfold join_admit, join_route, join_done;
      try (repeat case_match; by destruct k).
    + pose proof (auth_change registration replication_id (claimed_prefix rpc) peer (with_tasks (delete i (n_tasks n)) n)) as Ha.
      destruct (authenticated_raft_rpc_handler _ _ _ _ _) as [n' a]. cbn [fst] in Ha. cbn. by rewrite (rc_frame _ _ Ha).
    + pose proof (bind_raft_voter_peer_change replication_id joiner_prefix peer (with_tasks (delete i (n_tasks n)) n)) as Ha.
      destruct (bind_raft_voter_peer _ _ _ _) as [n' b]. cbn [fst] in Ha. destruct b; cbn; by rewrite (rc_frame _ _ Ha).
    + destruct (h_join_change _ _ _). by destruct route.
  - unfold set_service. by destruct (n_service n).
Qed.

(** A request of a limit is charged to its windows and served only within the cap;
    anything else leaves them. *)
Lemma step_limit k i n :
  net_ok n →
  match request_of k i with
  | Some (now, q) =>
      n_limiter (fst (net_step i n)) = n_limiter n ∧ spawns i n = false ∨
      limit_windows k (n_limiter (fst (net_step i n))) = fst (charge now (limit_windows k (n_limiter n)) q (limit_cap k)) ∧
      (spawns i n = true → snd (charge now (limit_windows k (n_limiter n)) q (limit_cap k)) = true)
  | None => limit_windows k (n_limiter (fst (net_step i n))) = limit_windows k (n_limiter n)
  end.
Proof.
  intros Hok. destruct (input_cases i) as [Hi|[[j ->]|(now & q & ch & f & ->)]].
  - assert (request_of k i = None) as ->; [by destruct i as [|? [| | | |[]| |]| | | | | | | | | | | | | | |]|].
    apply other_limiter; [|done]. by destruct i as [|? [| | | |[]| |]| | | | | | | | | | | | | | |].
  - by apply other_limiter.
  - cbn [request_of]. unfold spawns. cbn [net_step]. destruct (n_running n).
    2:{ rewrite Nat.ltb_irrefl. destruct (limited k f); [by left|done]. }
    cbn [handle_swarm_event handle_req_resp].
    destruct f; open_request; try (by destruct k); unfold handle_tell, allow, allow_program_blob, acquire_private_ingress;
      destruct k; cbn [limited limit_windows limit_cap]; try (destruct (charge _ _ _ _) as [ws ok]; repeat case_match; simplify_eq; done);
      right; destruct (charge _ _ _ _) as [ws ok]; destruct ok; cbn -[Nat.ltb]; rewrite ?Nat.ltb_irrefl; try done.
    destruct (_ <=? _); cbn -[Nat.ltb]; rewrite ?Nat.ltb_irrefl; done.
Qed.

Lemma request_time k i now q : request_of k i = Some (now, q) → event_time i = Some now.
Proof. destruct i as [|m [| | | |[? ? f| | | |]| |]| | | | | | | | | | | | | | |]; try done. cbn. destruct (limited k f); [|done]. by intros [= <- <-]. Qed.

Lemma run_served k peer t ins n prev c past :
  net_ok n → StronglySorted N.le (prev :: omap event_time ins) →
  (∀ s, N.of_nat (asked peer s (past ++ omap (request_of k) ins)) < u32_modulus) →
  window_inv (limit_cap k) t prev c peer past (limit_windows k (n_limiter n) !! peer) →
  c + N.of_nat (served k peer t ins n) ≤ 2 * limit_cap k.
Proof.
  revert n prev c past. induction ins as [|i ins IH]; intros n prev c past Hok Hs Hrate Hw.
  { cbn. destruct Hw as [_ Hw]. destruct (_ !! peer) as [[s m]|]; [destruct Hw as (_ & _ & Hw); destruct (_ <? _)|]; lia. }
  pose proof (step_limit k i n Hok) as Hl. pose proof (net_step_ok i n Hok) as Hok'.
  cbn [served omap list_omap] in *. destruct (request_of k i) as [[now q]|] eqn:Hr.
  - pose proof (request_time _ _ _ _ Hr) as Ht.
    rewrite Ht in Hs. apply StronglySorted_inv in Hs as [Hs Hall]. apply Forall_cons in Hall as [Hle _].
    assert (Hrate' : ∀ s, N.of_nat (asked peer s ((past ++ [(now, q)]) ++ omap (request_of k) ins)) < u32_modulus).
    { intros s. rewrite <- app_assoc. apply Hrate. }
    clear Hrate. rename Hrate' into Hrate.
    apply (window_later _ _ _ now _ _ _ []) in Hw; [|done]. rewrite app_nil_r in Hw.
    destruct Hl as [[Hl Hsp]|[Hl Hsp]].
    + rewrite Hsp. cbn [andb Nat.add]. apply (IH _ now c (past ++ [(now, q)])); [done|done|done|]. rewrite Hl. by apply (window_later _ _ now).
    + set (b := if spawns i n && _ && _ && _ then 1%nat else 0%nat).
      set (b' := if snd (charge now (limit_windows k (n_limiter n)) q (limit_cap k)) && bool_decide (q = peer) && (t <=? now) &&
        (now <? t + SYNC_RATE_WINDOW) then 1 else 0).
      assert (N.of_nat b ≤ b') by (unfold b, b'; destruct (spawns i n); [rewrite (Hsp eq_refl); by destruct (_ && _)|cbn; lia]).
      assert (c + b' + N.of_nat (served k peer t ins (fst (net_step i n))) ≤ 2 * limit_cap k); [|lia].
      apply (IH _ now (c + b') (past ++ [(now, q)])); [done|done|done|]. rewrite Hl. apply charge_window; [|done].
      intros s. specialize (Hrate s). rewrite asked_app in Hrate. lia.
  - cbn [Nat.add]. destruct (event_time i) as [now|].
    + apply StronglySorted_inv in Hs as [Hs Hall]. apply Forall_cons in Hall as [Hle _].
      apply (IH _ now c past); [done|done|done|]. rewrite Hl. rewrite <- (app_nil_r past). by eapply window_later.
    + apply (IH _ prev c past); [done..|]. by rewrite Hl.
Qed.
End runs.
