(* ===== verification/NetworkJoin.v ===== *)
(** * Joins

    A join request runs through the parts of [handle_raft_join] and [handle_join]
    while other threads run.  [run_proposals]: a membership change is proposed for
    a peer that asked to join, that the registry then listed as a voter under its
    full identity, that was bound to its slot, whose request fitted the group's
    route, and that was missing from the worker's members.
    [run_exclusive]: at most one join holds the barrier of a route. *)

From stdpp Require Import gmap.
From S2P Require Import Prelude Bytes Frames FrameLaws Network NetworkLaws NetworkTrace.

Local Open Scope N_scope.

Lemma count_if_delete {A} (f : A → bool) (l : list A) j x :
  l !! j = Some x → count_if f l = ((if f x then 1 else 0) + count_if f (delete j l))%nat.
Proof.
  intros Hj. rewrite delete_take_drop. rewrite <- (take_drop_middle _ _ _ Hj) at 1.
  rewrite !count_if_app. cbn [count_if]. destruct (f x); lia.
Qed.

Section join.
Context {PeerId Addr Svc H W : Type} `{Countable PeerId} `{EqDecision Addr} `{EqDecision H}.
Context `{Identity PeerId} `{NetworkService PeerId Svc W} `{RaftRpcHandler PeerId Svc H W}.

Local Abbreviation Net := (@Network PeerId Addr Svc H W _ _).
Local Abbreviation eff := (@effect PeerId Addr H).
Local Abbreviation input := (@net_input PeerId Addr Svc H W).
Local Abbreviation task_t := (@task PeerId Svc H).
Implicit Types (n : Net) (p peer : PeerId) (t : task_t) (ins : list input).

Lemma step_service i n s : net_ok n → n_service n = Some s → n_service (fst (net_step i n)) = Some s.
Proof.
  intros Hok Hs. pose proof (handle_calls_change n i Hok) as Hc.
  destruct i; try (by rewrite (rc_frame _ _ Hc)); cbn [net_step]; try done.
  - destruct (n_running n); [|done]. by destruct c.
  - destruct (n_running n); [|done]. destruct e; try done; cbn [handle_swarm_event].
    + by destruct (bool_decide _).
    + by destruct is_dialer.
    + by destruct (_ =? _).
    + destruct e; try done; cbn [handle_req_resp].
      * destruct f; open_request; try done; repeat case_match; done.
      * unfold handle_response, follow_redirect. repeat case_match; done.
    + unfold handle_gossipsub_event. repeat case_match; done.
  - destruct (n_tasks n !! i) as [t|]; [|done]. destruct t; cbn [run_task]; unfold join_admit, join_route, join_done;
      try (repeat case_match; done).
    + pose proof (auth_change registration replication_id (claimed_prefix rpc) peer (with_tasks (delete i (n_tasks n)) n)) as Ha.
      destruct (authenticated_raft_rpc_handler _ _ _ _ _) as [n' a]. cbn [fst] in Ha. cbn. by rewrite (rc_frame _ _ Ha).
    + pose proof (bind_raft_voter_peer_change replication_id joiner_prefix peer (with_tasks (delete i (n_tasks n)) n)) as Ha.
      destruct (bind_raft_voter_peer _ _ _ _) as [n' b]. cbn [fst] in Ha. destruct b; cbn; by rewrite (rc_frame _ _ Ha).
    + destruct (h_join_change _ _ _). by destruct route.
  - unfold set_service. by rewrite Hs.
Qed.

(** ** Who may join *)

(** The node's registry lists [peer], by its full identity, as a voter at the
    prefix derived from it. *)
Definition join_admits n peer : Prop :=
  ∃ s member, n_service n = Some s ∧ lookup_node_member s (derive_node_prefix peer) (n_world n) = Some member ∧
    node_member_authenticates_voter member (derive_node_prefix peer) peer = true.

(** [peer] is bound to its slot in the group's voter table. *)
Definition join_bound n peer (i : bytes) : Prop :=
  ∃ r reg, n_handlers n !! i = Some r ∧ n_regs n !! r = Some reg ∧ rg_voters reg !! derive_node_prefix peer = Some peer.

(** The way of a join of the group: plain for a group without a route and a request
    without a policy, else by the route, whose policy is the request's and whose
    barrier is free. *)
Definition join_routed n (i : bytes) (policy : option bytes) (route : option N) : Prop :=
  match route with
  | None => ir_routes (n_routes n) !! i = None ∧ policy = None
  | Some r => ir_routes (n_routes n) !! i = Some (r, policy) ∧ r ∉ ir_held (n_routes n)
  end.

(** The worker [h] answers that [ms] are the members to propose. *)
Definition join_asked n (h : H) peer (i : bytes) (ms : list N) : Prop :=
  ∃ w hint, h_join_ask h i (derive_node_prefix peer) (n_world n) = (w, inr (ms, hint)).

Section history.
Context (n0 : Net).
Local Abbreviation at_ ins := (fst (net_run ins n0)).

Definition earlier (P : list input → Prop) ins : Prop := ∃ ins1 ins2, ins = ins1 ++ ins2 ∧ P ins1.
Definition join_requested peer i policy ins : Prop :=
  ∃ now ch claimed, IEvent now (ReqResp (Request peer ch (RaftJoinReq i claimed policy))) ∈ ins.
Definition was_admitted peer i policy ins : Prop :=
  earlier (λ ins, join_requested peer i policy ins ∧ join_admits (at_ ins) peer) ins.
Definition was_bound peer i policy ins : Prop :=
  earlier (λ ins, was_admitted peer i policy ins ∧ join_bound (at_ ins) peer i) ins.
Definition was_routed peer i route ins : Prop :=
  earlier (λ ins, ∃ policy, was_bound peer i policy ins ∧ join_routed (at_ ins) i policy route) ins.
Definition was_asked h peer i route ms ins : Prop :=
  earlier (λ ins, was_routed peer i route ins ∧ join_asked (at_ ins) h peer i ms) ins.

Lemma earlier_later P ins i : earlier P ins → earlier P (ins ++ [i]).
Proof. intros (ins1 & ins2 & -> & HP). exists ins1, (ins2 ++ [i]). by rewrite app_assoc. Qed.

Lemma earlier_now (P : list input → Prop) ins : P ins → earlier P ins.
Proof. intros HP. exists ins, []. by rewrite app_nil_r. Qed.

(** What a task of a join went through. *)
Definition task_history ins t : Prop :=
  match t with
  | TJoin _ svc peer i x policy _ =>
      x = derive_node_prefix peer ∧ join_requested peer i policy ins ∧ (∀ s, svc = Some s → n_service (at_ ins) = Some s)
  | TJoinBind _ _ peer i x policy _ => x = derive_node_prefix peer ∧ was_admitted peer i policy ins
  | TJoinRoute _ _ peer i x policy _ => x = derive_node_prefix peer ∧ was_bound peer i policy ins
  | TJoinQuiesce _ _ peer i x r _ => x = derive_node_prefix peer ∧ was_routed peer i (Some r) ins
  | TJoinAsk _ peer i x route _ => x = derive_node_prefix peer ∧ was_routed peer i route ins
  | TJoinChange _ peer i route h (ms, _) => was_asked h peer i route ms ins
  | _ => True
  end.

Lemma bind_registration_handlers r x peer n : n_handlers (fst (bind_registration r x peer n)) = n_handlers n.
Proof. unfold bind_registration. by repeat case_match. Qed.

Lemma step_history i ins n :
  n = at_ ins → net_ok n →
  (∀ t, t ∈ n_tasks n → task_history ins t) → ∀ t, t ∈ n_tasks (fst (net_step i n)) → task_history (ins ++ [i]) t.
Proof.
  intros Hn Hok Hall t Ht. pose proof (net_run_app ins [i] n0) as Happ.
  assert (Hat : at_ (ins ++ [i]) = fst (net_step i n)).
  { rewrite Happ. subst n. destruct (net_run ins n0) as [n1 es1]. cbn. by destruct (net_step i n1). }
  clear Happ.
  assert (Hreq : ∀ peer g q, join_requested peer g q ins → join_requested peer g q (ins ++ [i])).
  { intros peer g q (now & ch & claimed & Hin). exists now, ch, claimed. apply elem_of_app. by left. }
  apply step_tasks in Ht as [Ht|[(now & peer & ch & f & -> & Htf & Hf)|(j & t0 & -> & Hj & Hnext)]].
  - apply Hall in Ht. destruct t; cbn [task_history] in *; try done; rewrite ?Hat.
    + destruct Ht as (-> & Hjr & Hs). split_and!; [done|by apply Hreq|]. intros s Hsv. apply step_service; [done|]. subst n. auto.
    + destruct Ht as [-> Ht]. split; [done|]. by apply earlier_later.
    + destruct Ht as [-> Ht]. split; [done|]. by apply earlier_later.
    + destruct Ht as [-> Ht]. split; [done|]. by apply earlier_later.
    + destruct Ht as [-> Ht]. split; [done|]. by apply earlier_later.
    + destruct proposal. by apply earlier_later.
  - destruct t; cbn [task_history first_task] in *; try done. destruct Hf as (-> & -> & ->).
    cbn [task_for] in Htf. apply andb_prop_elim in Htf as [_ Htf]. destruct f; try done.
    apply andb_prop_elim in Htf as [Hi Hq]. apply Is_true_true, bool_decide_eq_true in Hi as ->, Hq as ->.
    split_and!; [done| |intros s Hs; rewrite Hat; by apply step_service].
    eexists _, _, _. apply elem_of_app. right. by apply list_elem_of_singleton.
  - specialize (Hall t0 (list_elem_of_lookup_2 _ _ _ Hj)).
    destruct Hnext as [| ? ? ? ? ? ? ? m Hm Ha|ch s peer g x policy h Hb|? ? ? ? ? ? Hr|? ? ? ? ? ? ? ? Hr Hh| |? ? ? ? ? ? w [ms hint] Hq]; cbn [task_history] in *; try done.
    + destruct Hall as (-> & Hjr & Hs). split; [done|]. apply earlier_later, earlier_now. split; [done|]. exists s, m. rewrite <- Hn. subst n. auto.
    + destruct Hall as [-> Hadm]. split; [done|]. apply earlier_now. split; [by apply earlier_later|]. rewrite Hat. cbn [net_step]. rewrite Hj.
      cbn [run_task]. unfold bind_raft_voter_peer in *. cbn [n_handlers with_tasks] in *.
      destruct (n_handlers n !! g) as [r|] eqn:Hr; [|done]. pose proof (bind_registration_true _ _ _ _ Hb) as (reg & Hreg & Hv & _).
      pose proof (bind_registration_handlers r (derive_node_prefix peer) peer (with_tasks (delete j (n_tasks n)) n)) as Hc.
      destruct (bind_registration _ _ _ _) as [n' b]. cbn in Hb. subst b. cbn in *. exists r, reg. cbn. rewrite Hc. done.
    + destruct Hall as [-> Hbd]. split; [done|]. apply earlier_later, earlier_now. eexists. split; [done|]. by rewrite <- Hn.
    + destruct Hall as [-> Hbd]. split; [done|]. apply earlier_later, earlier_now. eexists. split; [done|]. by rewrite <- Hn.
    + destruct Hall as [-> Hbd]. split; [done|]. by apply earlier_later.
    + destruct Hall as [-> Hbd]. apply earlier_later, earlier_now. split; [done|]. exists w, hint. by rewrite <- Hn.
Qed.

(** A membership change is proposed for a peer that asked for it, was then admitted,
    then bound, let through to the worker, and missing from its members. *)
Lemma run_proposals ins h peer i ms :
  net_ok n0 → n_tasks n0 = [] →
  EPropose h peer i ms ∈ snd (net_run ins n0) → ∃ route, was_asked h peer i route ms ins.
Proof.
  intros Hok Hnil.
  assert ((∀ h peer i ms, EPropose h peer i ms ∈ snd (net_run ins n0) → ∃ route, was_asked h peer i route ms ins) ∧
    (∀ t, t ∈ n_tasks (at_ ins) → task_history ins t)) as [Hres _]; [|by apply Hres].
  induction ins as [|inp ins [IH1 IH2]] using rev_ind.
  { cbn. rewrite Hnil. split; intros *; by intros ?%elem_of_nil. }
  pose proof (net_run_app ins [inp] n0) as Happ. pose proof (net_run_ok ins n0 Hok) as Hok1.
  pose proof (step_history inp ins (at_ ins) eq_refl Hok1 IH2) as Hstep.
  destruct (net_run ins n0) as [n1 es1]. cbn [net_run] in Happ. cbn [fst snd] in *.
  pose proof (step_effects inp n1) as Heff. destruct (net_step inp n1) as [n2 es2]. rewrite app_nil_r in Happ. rewrite Happ.
  cbn [fst snd] in *. split; [|done]. clear h peer i ms. intros h peer i ms [He|He]%elem_of_app.
  { apply IH1 in He as [route He]. exists route. by apply earlier_later. }
  apply Heff in He as [|[(j & t & -> & Hj & He)|(now & q & ch & f & -> & He)]]; [done|..].
  - apply run_task_effects in He as [(? & ? & [=] & _)|[(? & ? & ? & ? & ? & [=] & _)|(ch & h' & p' & g & route & [ms' hint] & [= -> -> -> ->] & ->)]].
    apply list_elem_of_lookup_2, IH2 in Hj. exists route. by apply earlier_later.
  - apply handle_request_effects in He as [(? & [=] & _)|(? & ? & ? & _ & [=] & _)].
Qed.
End history.

(** ** The barrier *)

(** The task holds the barrier of the route [r]. *)
Definition holding (r : N) t : bool :=
  match t with
  | TJoinQuiesce _ _ _ _ _ r' _ | TJoinAsk _ _ _ _ (Some r') _ | TJoinChange _ _ _ (Some r') _ _ => r =? r'
  | _ => false
  end.

(** A barrier that is taken is held by one task or one admission. *)
Definition exclusive (rs : ingress_routes) (ts : list task_t) : Prop :=
  ∀ r, (count_if (holding r) ts + (if decide (r ∈ ir_admitting rs) then 1 else 0) =
        if decide (r ∈ ir_held rs) then 1 else 0)%nat.

Lemma exclusive_plain rs ts ts' : exclusive rs ts → (∀ r, count_if (holding r) ts' = 0%nat) → exclusive rs (ts ++ ts').
Proof. intros Hx Hz r. rewrite count_if_app, Hz, Nat.add_0_r. apply Hx. Qed.

Lemma exclusive_acquire rs rs' ts t r :
  try_acquire r rs = (rs', true) → (∀ r', holding r' t = (r' =? r)) → exclusive rs ts → exclusive rs' (ts ++ [t]).
Proof.
  unfold try_acquire. destruct (decide (r ∈ ir_held rs)) as [|Hr]; [done|]. intros [= <-] Ht Hx r'. specialize (Hx r').
  rewrite count_if_app. cbn [count_if ir_admitting ir_held]. rewrite Ht. destruct (N.eqb_spec r' r) as [->|Hne].
  - rewrite (decide_False (P := r ∈ ir_held rs)) in Hx by done. rewrite (decide_True (P := r ∈ {[r]} ∪ ir_held rs)) by set_solver. lia.
  - rewrite (decide_ext (r' ∈ {[r]} ∪ ir_held rs) (r' ∈ ir_held rs)) by set_solver. lia.
Qed.

Lemma exclusive_release rs ts r t j :
  ts !! j = Some t → (∀ r', holding r' t = (r' =? r)) → exclusive rs ts → exclusive (release r rs) (delete j ts).
Proof.
  intros Hj Ht Hx r0. specialize (Hx r0). rewrite (count_if_delete _ _ _ _ Hj), Ht in Hx.
  unfold release. cbn [ir_admitting ir_held].
  destruct (N.eqb_spec r0 r) as [Heq|Hne].
  - subst r0. rewrite (decide_False (P := r ∈ ir_held rs ∖ {[r]})) by set_solver. destruct (decide (r ∈ ir_held rs)); lia.
  - rewrite (decide_ext (r0 ∈ ir_held rs ∖ {[r]}) (r0 ∈ ir_held rs)) by set_solver. lia.
Qed.

Lemma exclusive_delete rs ts t j : ts !! j = Some t → (∀ r, holding r t = false) → exclusive rs ts → exclusive rs (delete j ts).
Proof. intros Hj Ht Hx r. specialize (Hx r). by rewrite (count_if_delete _ _ _ _ Hj), Ht in Hx. Qed.

(** A task that keeps the barrier it holds. *)
Lemma exclusive_keep rs ts t t' j :
  ts !! j = Some t → (∀ r, holding r t = holding r t') → exclusive rs ts → exclusive rs (delete j ts ++ [t']).
Proof.
  intros Hj Ht Hx r. specialize (Hx r). rewrite (count_if_delete _ _ _ _ Hj), Ht in Hx. rewrite count_if_app. cbn [count_if]. lia.
Qed.

Lemma other_routes i n :
  match i with
  | ITask _ | IEvent _ (ReqResp (Request _ _ _)) | IAddRoute _ _ | IRemoveRoute _ _ | IAdmitPrivate _ | IAdmitDone _ => False
  | _ => True
  end → net_ok n → n_routes (fst (net_step i n)) = n_routes n.
Proof.
  intros Hi Hok. pose proof (handle_calls_change n i Hok) as Hc.
  destruct i; try done; try (by rewrite (rc_frame _ _ Hc)); cbn [net_step].
  - destruct (n_running n); [|done]. by destruct c.
  - destruct (n_running n); [|done]. destruct e; try done; cbn [handle_swarm_event].
    + by destruct (bool_decide _).
    + by destruct is_dialer.
    + by destruct (_ =? _).
    + destruct e; try done; cbn [handle_req_resp]. unfold handle_response, follow_redirect. repeat case_match; done.
    + unfold handle_gossipsub_event. repeat case_match; done.
  - unfold set_service. by destruct (n_service n).
Qed.

Lemma exclusive_admit rs ts r : exclusive rs ts → exclusive (admit_private r rs) ts ∧ exclusive (admit_done r rs) ts.
Proof.
  intros Hx. split; intros r'; specialize (Hx r').
  - unfold admit_private, try_acquire. destruct (decide (r ∈ ir_held rs)) as [|Hr]; [done|]. cbn.
    destruct (decide (r' = r)) as [->|Hne].
    + rewrite (decide_False (P := r ∈ ir_held rs)) in Hx by done. rewrite !decide_True by set_solver. lia.
    + rewrite (decide_ext (r' ∈ {[r]} ∪ ir_held rs) (r' ∈ ir_held rs)), (decide_ext (r' ∈ {[r]} ∪ ir_admitting rs) (r' ∈ ir_admitting rs))
        by set_solver. done.
  - unfold admit_done. destruct (decide (r ∈ ir_admitting rs)) as [Hr|]; [|done]. cbn. destruct (decide (r' = r)) as [->|Hne].
    + rewrite (decide_True (P := r ∈ ir_admitting rs)) in Hx by done. rewrite !decide_False by set_solver.
      destruct (decide (r ∈ ir_held rs)); lia.
    + rewrite (decide_ext (r' ∈ ir_held rs ∖ {[r]}) (r' ∈ ir_held rs)), (decide_ext (r' ∈ ir_admitting rs ∖ {[r]}) (r' ∈ ir_admitting rs))
        by set_solver. done.
Qed.

Lemma task_exclusive j t n :
  n_tasks n !! j = Some t → exclusive (n_routes n) (n_tasks n) →
  let n' := fst (run_task t (with_tasks (delete j (n_tasks n)) n)) in exclusive (n_routes n') (n_tasks n').
Proof.
  intros Hj Hx. cbv zeta. assert (Hdel : (∀ r, holding r t = false) → exclusive (n_routes n) (delete j (n_tasks n)))
    by (intros; by eapply exclusive_delete).
  assert (Hrel : ∀ r, (∀ r', holding r' t = (r' =? r)) → exclusive (release r (n_routes n)) (delete j (n_tasks n)))
    by (intros; by eapply exclusive_release).
  assert (Hkeep : ∀ t', (∀ r, holding r t = holding r t') → exclusive (n_routes n) (delete j (n_tasks n) ++ [t']))
    by (intros; by eapply exclusive_keep).
  destruct t; cbn [run_task]; unfold join_admit, join_route, join_done;
    try (repeat case_match; cbn; (by apply Hdel) || (by apply Hkeep)).
  - pose proof (auth_change registration replication_id (claimed_prefix rpc) peer (with_tasks (delete j (n_tasks n)) n)) as Ha.
    destruct (authenticated_raft_rpc_handler _ _ _ _ _) as [n' a]. cbn [fst] in Ha. cbn. rewrite (rc_frame _ _ Ha). cbn. by apply Hkeep.
  - pose proof (bind_raft_voter_peer_change replication_id joiner_prefix peer (with_tasks (delete j (n_tasks n)) n)) as Ha.
    destruct (bind_raft_voter_peer _ _ _ _) as [n' b]. cbn [fst] in Ha. destruct b; cbn; rewrite (rc_frame _ _ Ha); cbn;
      [by apply Hkeep|by apply Hdel].
  - cbn [n_routes with_tasks]. destruct (ir_routes (n_routes n) !! replication_id) as [[r q]|].
    + destruct (negb _); [by apply Hdel|]. destruct (try_acquire r (n_routes n)) as [rs [|]] eqn:Ha; [|by apply Hdel]. cbn.
      eapply exclusive_acquire; [exact Ha|done|]. by apply Hdel.
    + destruct policy; [by apply Hdel|by apply Hkeep].
  - destruct (route_quiescent _ _ _) as [w [|]]; cbn; [by apply Hkeep|by apply Hrel].
  - destruct h as [|h]; [destruct route; cbn; [by apply Hrel|by apply Hdel]|].
    destruct (h_join_ask _ _ _ _) as [w [res|q]]; [destruct route; cbn; [by apply Hrel|by apply Hdel]|]. cbn. by apply Hkeep.
  - destruct (h_join_change _ _ _) as [w res]. destruct route; cbn; [by apply Hrel|by apply Hdel].
Qed.

Lemma request_holds_nothing now peer ch f n :
  n_routes (fst (handle_request now peer ch f n)) = n_routes n ∧
  ∃ ts, n_tasks (fst (handle_request now peer ch f n)) = n_tasks n ++ ts ∧ ∀ r, count_if (holding r) ts = 0%nat.
Proof.
  split; [destruct f; open_request; try done; repeat case_match; done|].
  destruct (handle_request_tasks now peer ch f n) as (ts & Hts & Hall). exists ts. split; [done|]. intros r. clear Hts.
  induction Hall as [|t ts [_ Ht] _ IH]; [done|]. cbn [count_if]. destruct t; cbn in *; try done.
Qed.

Lemma step_exclusive i n :
  net_ok n → exclusive (n_routes n) (n_tasks n) →
  exclusive (n_routes (fst (net_step i n))) (n_tasks (fst (net_step i n))).
Proof.
  intros Hok Hx. destruct (input_cases i) as [Hi|[[j ->]|(now & q & ch & f & ->)]].
  - pose proof (proj1 (other_input i n (ESubscribe []) Hi)) as Ht. pose proof (other_routes i n) as Hr. rewrite Ht.
    destruct i as [|? [| | | |[]| |]| | | | | | | | | | | | | | |]; try done; try (by rewrite Hr); cbn.
    + unfold remove_route_if. by case_bool_decide.
    + by apply exclusive_admit.
    + by apply exclusive_admit.
  - cbn [net_step]. destruct (n_tasks n !! j) as [t|] eqn:Hj; [|done]. by apply task_exclusive.
  - cbn [net_step]. destruct (n_running n); [|done]. cbn [handle_swarm_event handle_req_resp].
    destruct (request_holds_nothing now q ch f n) as (Hr & ts & Ht & Hz). rewrite Hr, Ht. by apply exclusive_plain.
Qed.

Lemma run_exclusive ins n :
  net_ok n → exclusive (n_routes n) (n_tasks n) →
  exclusive (n_routes (fst (net_run ins n))) (n_tasks (fst (net_run ins n))).
Proof.
  revert n. induction ins as [|i ins IH]; intros n Hok Hx; cbn [net_run]; [done|].
  apply (step_exclusive i) in Hx; [|done]. apply (net_step_ok i) in Hok. destruct (net_step i n) as [n1 es1].
  specialize (IH n1 Hok Hx). by destruct (net_run ins n1).
Qed.

Lemma exclusive_one rs ts r : exclusive rs ts → (count_if (holding r) ts ≤ 1)%nat.
Proof. intros Hx. specialize (Hx r). destruct (decide (r ∈ ir_held rs)); lia. Qed.
End join.
