(* ===== verification/RaftTransport.v ===== *)
(** * Raft over the network

    [vos/src/raft/vos_transport.rs], the transport through which the generic Raft
    worker sends its RPCs, and the facade of [vos/src/raft/worker.rs] behind which
    a node's network handler calls the worker.

    A [send_*] of the transport resolves the voter's peer and posts a command to
    the network thread; what comes back on the reply channel, or the timeout, is
    the outcome.  The facade's methods are the [RaftRpcHandler] of a network whose
    world holds the workers of its groups: each posts one message to a worker and
    waits for its reply.  A worker that is gone drops the reply.

    [InstallSnapshot] and [RequestVote] travel as they are; an [AppendEntries] may
    lose the tail of its entries to the frame limit, and its entries lose their
    indices, which the receiving worker derives again. *)

From Stdlib.Strings Require Byte.
From stdpp Require Import gmap sorting.
From S2P Require Import Prelude Bytes Frames FrameLaws Network.
From S2P Require Import RaftTypes RaftStorage RaftConfig RaftState RaftWorker.

Local Open Scope N_scope.

(** ** [WorkerConfig] *)

Definition INSTALL_SNAPSHOT_CHUNK_BYTES : N := 1024 * 1024.

Record WorkerConfig := mkWorkerConfig {
  wc_me : N;
  wc_members : list N;
  wc_replication_id : bytes;
  wc_election_timeout_ms : N * N;
  wc_heartbeat_interval_ms : N;
}.

(** [into_raft]: the defaults of [Config::new] but for the timers, the pre-vote
    and the chunk size. *)
Definition into_raft (c : WorkerConfig) : Config N :=
  let d := config_new (wc_me c) (wc_members c) in
  mkConfig (cfg_me d) (cfg_members d) (fst (wc_election_timeout_ms c)) (snd (wc_election_timeout_ms c))
    (wc_heartbeat_interval_ms c) (compact_hysteresis d) false INSTALL_SNAPSHOT_CHUNK_BYTES (max_pending_reads d)
    (max_snapshot_bytes d) (pre_candidate_misses_before_revert d).

(** ** The transport *)

Inductive VosTransportError := UnknownPeer (prefix : N) | NoReply | EntryTooLarge.

(** The wire form of a log entry: its index is left out. *)
Definition entry_to_wire (e : LogEntry N) : RaftEntry :=
  match e_kind e with
  | Data payload => mkRaftEntry (e_term e) (Frames.Data payload)
  | ConfigChange joint_old members => mkRaftEntry (e_term e) (Frames.ConfigChange joint_old members)
  end.

Section transport.
Context {PeerId Addr Svc H W : Type} `{Countable PeerId} `{EqDecision Addr} `{EqDecision H}.
Context `{Identity PeerId} `{NetworkService PeerId Svc W} `{RaftRpcHandler PeerId Svc H W}.
Local Abbreviation Net := (@Network PeerId Addr Svc H W _ _).
Local Abbreviation cmd := (@NetworkCmd PeerId Addr).

(** The part before the command is posted. *)
Definition send_append (replication_id : bytes) (peer : N) (req : AppendEntriesReq N) (reply : N) (n : Net) :
    Net * result VosTransportError cmd :=
  let '(n, peer_id) := raft_voter_peer replication_id peer n in
  match peer_id with
  | None => (n, Err (UnknownPeer peer))
  | Some peer_id =>
      let entries := entry_to_wire <$> ae_entries req in
      match raft_append_prefix_len entries with
      | None => (n, Err EntryTooLarge)
      | Some prefix =>
          (n, Ok (SendRaft peer_id replication_id
                    (RpcAppend (ae_term req) (ae_leader req) (ae_prev_log_index req) (ae_prev_log_term req)
                       (ae_leader_commit req) (take (N.to_nat prefix) entries)) reply))
      end
  end.

Definition send_vote (replication_id : bytes) (peer : N) (req : RequestVoteReq N) (reply : N) (n : Net) :
    Net * result VosTransportError cmd :=
  let '(n, peer_id) := raft_voter_peer replication_id peer n in
  match peer_id with
  | None => (n, Err (UnknownPeer peer))
  | Some peer_id =>
      (n, Ok (SendRaft peer_id replication_id
                (RpcVote (rv_term req) (rv_candidate req) (rv_last_log_index req) (rv_last_log_term req)) reply))
  end.

Definition send_install (replication_id : bytes) (peer : N) (req : InstallSnapshotReq N) (reply : N) (n : Net) :
    Net * result VosTransportError cmd :=
  let '(n, peer_id) := raft_voter_peer replication_id peer n in
  match peer_id with
  | None => (n, Err (UnknownPeer peer))
  | Some peer_id =>
      (n, Ok (SendRaft peer_id replication_id
                (RpcInstall (is_term req) (is_leader req) (is_last_included_index req) (is_last_included_term req)
                   (is_offset req) (is_done req) (is_data req) (is_members req) (is_joint_old req)
                   (is_active_config_index req)) reply))
  end.
End transport.

(** What arrived on the reply channel within [RPC_TIMEOUT]; [None] is a timeout
    or a closed channel. *)
Definition append_outcome (r : option RaftAppendResult) : result VosTransportError AppendEntriesResp :=
  match r with Some r => Ok (mkAppendResp (ra_term r) (ra_success r) (ra_match_index r)) | None => Err NoReply end.
Definition vote_outcome (r : option RaftVoteResult) : result VosTransportError RequestVoteResp :=
  match r with Some r => Ok (mkVoteResp (Network.rv_term r) (rv_vote_granted r)) | None => Err NoReply end.
Definition install_outcome (r : option RaftInstallSnapshotResult) : result VosTransportError InstallSnapshotResp :=
  match r with Some r => Ok (mkInstallResp (ri_term r) (ri_bytes_received r)) | None => Err NoReply end.

(** ** The facade *)

Definition entry_of_wire (e : RaftEntry) : LogEntry N :=
  match re_kind e with
  | Frames.Data payload => entry_data 0 (re_term e) payload
  | Frames.ConfigChange joint_old members => entry_config_change 0 (re_term e) joint_old members
  end.

Definition role_of (r : Role) : RaftRole :=
  match r with
  | Follower => Network.Follower
  | PreCandidate => Network.PreCandidate
  | Candidate => Network.Candidate
  | Leader => Network.Leader
  end.

Definition status_from_snapshot (s : WorkerSnapshot N) (last_applied : N) : RaftStatusReply :=
  Network.mkStatus true (role_of (sn_role s)) (sn_current_term s) (sn_commit_index s) last_applied (sn_last_log_index s)
    (sn_members s) (sn_joint_old s) (sn_active_config_index s) (sn_leader_hint s).

(** [Vec::dedup] *)
Fixpoint dedup (l : list N) : list N :=
  match l with
  | x :: (y :: _) as l' => if x =? y then dedup l' else x :: dedup l'
  | l => l
  end.

Section facade.
Context {S E : Type} `{!Storage N S E}.

(** A worker thread, the wall clock its status is read at, and the applied
    cursor of its database: [None] when the database is gone or unreadable. *)
Record worker := mkWorkerThread {
  wk_state : WorkerState N S;
  wk_pending : list (OutRpc N);
  wk_wall : N;
  wk_last_applied : option N;
}.

Definition world : Type := gmap N worker.

(** Posts a message and takes the reply. *)
Definition post (h : N) (msg : RaftMsg N) (w : world) : world * option (RaftReply N) :=
  match w !! h with
  | None => (w, None)
  | Some k =>
      let '(st, pending, reply) := worker_step (wk_wall k) (EvMsg msg) (wk_pending k) (wk_state k) in
      (<[h := mkWorkerThread st pending (wk_wall k) (wk_last_applied k)]> w, reply)
  end.

Definition worker_local_status (h : N) (w : world) : option RaftStatusReply :=
  k ← w !! h;
  snap ← cached_snapshot (wk_wall k) (wk_state k);
  last_applied ← wk_last_applied k;
  Some (status_from_snapshot snap (N.min last_applied (sn_commit_index snap))).

Definition worker_append_entries (h : N) (replication_id : bytes) (from term prev_log_index prev_log_term leader_commit : N)
    (entries : list RaftEntry) (w : world) : world * RaftAppendResult :=
  let req := mkAppendReq from term prev_log_index prev_log_term leader_commit (entry_of_wire <$> entries) in
  let '(w, reply) := post h (MsgAppendEntries from req) w in
  let resp := inbound_append req reply in
  (w, mkAppendResult (aer_term resp) (aer_success resp) (aer_match_index resp)).

Definition worker_request_vote (h : N) (replication_id : bytes) (from term last_log_index last_log_term : N) (w : world) :
    world * RaftVoteResult :=
  let req := mkVoteReq from term last_log_index last_log_term in
  let '(w, reply) := post h (MsgRequestVote from req) w in
  let resp := inbound_vote req reply in
  (w, mkVoteResult (rvr_term resp) (rvr_vote_granted resp)).

Definition worker_install_snapshot (h : N) (replication_id : bytes)
    (from term last_included_index last_included_term offset : N) (done_ : bool) (snapshot : bytes) (members : list N)
    (joint_old : option (list N)) (active_config_index : option N) (w : world) : world * RaftInstallSnapshotResult :=
  let req :=
    mkInstallReq from term last_included_index last_included_term offset done_ snapshot members joint_old active_config_index in
  let '(w, reply) := post h (MsgInstallSnapshot from req) w in
  let resp := inbound_install req reply in
  (w, mkInstallResult (isr_term resp) (isr_bytes_received resp)).

Definition worker_handle_status (h : N) (replication_id : bytes) (w : world) : RaftStatusReply :=
  default absent (worker_local_status h w).

(** [handle_join], up to the answer of [snapshot]: the leader is to propose its
    members with the joiner added. *)
Definition worker_join_ask (h : N) (replication_id : bytes) (joiner_prefix : N) (w : world) :
    world * (RaftJoinResult + list N * option N) :=
  let '(w, reply) := post h MsgQueryState w in
  match reply with
  | Some (RepState snap) =>
      if negb (bool_decide (sn_role snap = Leader)) then (w, inl (NotLeader (sn_leader_hint snap)))
      else if bool_decide (joiner_prefix ∈ sn_members snap) then (w, inl (Accepted 0))
      else (w, inr (dedup (merge_sort N.le (sn_members snap ++ [joiner_prefix])), sn_leader_hint snap))
  | _ => (w, inl (NotLeader None))
  end.

(** The rest of it: [change_membership], whose dropped reply is [NotLeader]. *)
Definition worker_join_change (h : N) (proposal : list N * option N) (w : world) : world * RaftJoinResult :=
  let '(w, reply) := post h (MsgChangeMembership (fst proposal)) w in
  match reply with
  | Some (RepChange (Ok joint_index)) => (w, Accepted joint_index)
  | Some (RepChange (Err (InProgress | EmptyConfig | ChangeStorage))) => (w, Busy)
  | _ => (w, NotLeader (snd proposal))
  end.

(** The workers as handlers of a network. *)
#[export] Instance worker_handlers {PeerId Svc : Type} : RaftRpcHandler PeerId Svc N world := {|
  h_local_status := worker_local_status;
  h_append_entries := worker_append_entries;
  h_request_vote := worker_request_vote;
  h_install_snapshot := worker_install_snapshot;
  h_handle_status := worker_handle_status;
  h_join_ask := worker_join_ask;
  h_join_change := worker_join_change;
|}.
End facade.

(** * What the Raft transport preserves

    The worker derives the indices of the entries it is sent, so an AppendEntries
    whose entries lost theirs is handled as the original
    ([worker_step_unindexed]); the frame of a truncated request fits the limits
    ([append_frame_ok]); the members a join proposes are the old ones and the
    joiner ([join_members]). *)

Definition with_entries (es : list (LogEntry N)) (req : AppendEntriesReq N) : AppendEntriesReq N :=
  mkAppendReq (ae_leader req) (ae_term req) (ae_prev_log_index req) (ae_prev_log_term req) (ae_leader_commit req) es.

Definition unindexed (e : LogEntry N) : LogEntry N := mkEntry 0 (e_term e) (e_kind e).

Lemma entry_of_to_wire e : entry_of_wire (entry_to_wire e) = unindexed e.
Proof. by destruct e as [i t []]. Qed.

(** ** Indices *)

Section worker.
Context {S E : Type} `{!Storage N S E}.
Implicit Types st : WorkerState N S.

Lemma scan_unindexed (s : S) idx es : scan_entries s idx (unindexed <$> es) = scan_entries s idx es.
Proof.
  revert idx. induction es as [|e es IH]; intros idx; [done|]. cbn [fmap list_fmap scan_entries]. rewrite IH. by destruct e.
Qed.

Lemma reindex_unindexed idx es : reindex (NID := N) idx (unindexed <$> es) = reindex idx es.
Proof.
  revert idx. induction es as [|e es IH]; intros idx; [done|]. cbn [fmap list_fmap reindex]. rewrite IH. by destruct e.
Qed.

Lemma append_unindexed from req st :
  handle_append_entries from (with_entries (unindexed <$> ae_entries req) req) st = handle_append_entries from req st.
Proof.
  unfold handle_append_entries, append_to_log, append_active_view.
  cbn [with_entries ae_leader ae_term ae_prev_log_index ae_prev_log_term ae_leader_commit ae_entries].
  cbv zeta. by rewrite !scan_unindexed, !reindex_unindexed, !length_fmap.
Qed.

Lemma worker_step_unindexed wall from req pending st :
  worker_step wall (EvMsg (MsgAppendEntries from (with_entries (unindexed <$> ae_entries req) req))) pending st =
  worker_step wall (EvMsg (MsgAppendEntries from req)) pending st.
Proof. unfold worker_step. cbn [handle_msg]. by rewrite append_unindexed. Qed.
End worker.

(** ** Frames *)

Definition log_entry_ok (e : LogEntry N) : Prop :=
  u64_ok (e_term e) ∧
  match e_kind e with
  | Data payload => True
  | ConfigChange joint_old members => opt_ok (Forall u16_ok) joint_old ∧ Forall u16_ok members
  end.

(** The fields of a request at their widths. *)
Definition append_req_ok (req : AppendEntriesReq N) : Prop :=
  u64_ok (ae_term req) ∧ u16_ok (ae_leader req) ∧ u64_ok (ae_prev_log_index req) ∧ u64_ok (ae_prev_log_term req) ∧
  u64_ok (ae_leader_commit req) ∧ Forall log_entry_ok (ae_entries req).

Lemma payload_fits e es :
  entry_to_wire e ∈ es → entries_len es ≤ MAX_FRAME_BYTES → ∀ payload, e_kind e = Data payload → payload_ok payload.
Proof.
  intros He Hl payload Hk. apply list_elem_of_split in He as (es1 & es2 & ->). rewrite entries_len_app in Hl.
  change (entry_to_wire e :: es2) with ([entry_to_wire e] ++ es2) in Hl. rewrite entries_len_app in Hl.
  unfold entries_len at 2 in Hl. cbn [mbind list_bind] in Hl. rewrite app_nil_r in Hl. unfold encode_raft_entry, entry_to_wire in Hl.
  rewrite Hk in Hl. cbn [re_kind re_term] in Hl. unfold payloadb in Hl. rewrite !blen_app in Hl. unfold payload_ok. lia.
Qed.

(** A prefix the transport chose makes a frame within the limits. *)
Lemma append_frame_ok i req k :
  fixed_ok i → append_req_ok req → raft_append_prefix_len (entry_to_wire <$> ae_entries req) = Some k →
  let f := raft_frame i (RpcAppend (ae_term req) (ae_leader req) (ae_prev_log_index req) (ae_prev_log_term req) (ae_leader_commit req)
             (take (N.to_nat k) (entry_to_wire <$> ae_entries req))) in
  frame_ok f ∧ blen (encode f) ≤ MAX_FRAME_BYTES ∧ (N.to_nat k ≤ length (ae_entries req))%nat ∧ (ae_entries req ≠ [] → 0 < k).
Proof.
  intros Hi (Ht & Hle & Hp & Hpt & Hc & Hes) Hk f. unfold raft_append_prefix_len in Hk.
  set (es := entry_to_wire <$> ae_entries req) in *.
  pose proof (prefix_loop_spec (take (N.to_nat MAX_RAFT_ENTRIES) es) RAFT_APPEND_FRAME_BASE_BYTES 0 ltac:(done)) as Hs.
  destruct (prefix_loop _ _ _) as [n|]; [|done]. cbn [mbind option_bind] in Hk. destruct Hs as (m & -> & Hm & Hfit & Hlen & _).
  destruct (_ || _) eqn:Hz; [|done]. injection Hk as <-. rewrite N.add_0_l, Nat2N.id in *. rewrite length_take in Hm.
  rewrite take_take in Hfit, Hlen. rewrite Nat.min_l in Hfit, Hlen by lia.
  assert (Hmes : (m ≤ length es)%nat) by lia.
  assert (Hall : Forall entry_ok (take m es)).
  { apply Forall_forall. intros we Hwe. pose proof Hwe as Hwe'. apply (subseteq_take m) in Hwe'. unfold es in Hwe'. apply list_elem_of_fmap in Hwe' as (e & -> & He).
    rewrite Forall_forall in Hes. destruct (Hes e He) as [Het Hek]. rewrite Forall_forall in Hfit. specialize (Hfit _ Hwe).
    split; [by destruct e as [? ? []]|]. unfold members_fit in Hfit.
    pose proof (payload_fits e _ Hwe ltac:(lia)) as Hpl. unfold entry_to_wire in *. destruct (e_kind e) as [pl|joint ms]; cbn [re_kind kind_ok] in *.
    - by apply Hpl.
    - destruct Hek as [Hj Hms]. apply andb_prop in Hfit as [Hf1%N.leb_le Hf2]. split; [|by split].
      destruct joint as [old|]; [|done]. split; [by apply N.leb_le|done]. }
  assert (Hl1024 : len_of (take m es) ≤ MAX_RAFT_ENTRIES).
  { unfold len_of. rewrite length_take. unfold MAX_RAFT_ENTRIES in *. lia. }
  split_and!.
  - subst f. rewrite N.add_0_l, Nat2N.id. cbn [raft_frame frame_ok]. split_and!; done.
  - subst f. rewrite N.add_0_l, Nat2N.id. cbn [raft_frame encode]. by rewrite append_req_len.
  - unfold es in Hmes. by rewrite length_fmap in Hmes.
  - intros Hne. apply orb_prop in Hz as [Hz|Hz].
    + apply N.eqb_eq in Hz. unfold len_of, es in Hz. rewrite length_fmap in Hz. destruct (ae_entries req); [done|cbn in Hz; lia].
    + apply negb_true_iff, N.eqb_neq in Hz. lia.
Qed.

(** ** Joins *)

Lemma elem_of_dedup_run l (x : N) : x ∈ dedup l ↔ x ∈ l.
Proof.
  induction l as [|y l IH]; [done|]. cbn [dedup]. destruct l as [|z l]; [done|].
  destruct (N.eqb_spec y z) as [->|Hne].
  - rewrite IH, !elem_of_cons. naive_solver.
  - rewrite elem_of_cons, IH, !elem_of_cons. naive_solver.
Qed.

Lemma dedup_NoDup l : StronglySorted N.le l → NoDup (dedup l).
Proof.
  induction l as [|y l IH]; intros Hs; [constructor|]. apply StronglySorted_inv in Hs as [Hs Hall]. specialize (IH Hs).
  cbn [dedup]. destruct l as [|z l]; [by apply NoDup_singleton|].
  destruct (N.eqb_spec y z) as [->|Hne]; [done|]. apply NoDup_cons. split; [|done]. rewrite elem_of_dedup_run. intros Hy.
  apply StronglySorted_inv in Hs as [_ Hz]. apply Forall_cons in Hall as [Hyz _]. apply elem_of_cons in Hy as [->|Hy]; [done|].
  rewrite Forall_forall in Hz. specialize (Hz y Hy). lia.
Qed.

Lemma join_members ms joiner :
  let l := dedup (merge_sort N.le (ms ++ [joiner])) in NoDup l ∧ ∀ x, x ∈ l ↔ x ∈ ms ∨ x = joiner.
Proof.
  cbv zeta. split; [apply dedup_NoDup, StronglySorted_merge_sort; apply _|].
  intros x. rewrite elem_of_dedup_run, merge_sort_Permutation, elem_of_app, list_elem_of_singleton. done.
Qed.

(** The proposal of a join: the snapshot is a leader's without the joiner, and the
    members are the snapshot's and the joiner. *)
Lemma worker_join_ask_proposal {S E} `{!Storage N S E} h i joiner (w w' : world (S := S)) ms hint :
  worker_join_ask h i joiner w = (w', inr (ms, hint)) →
  ∃ snap, post h MsgQueryState w = (w', Some (RepState snap)) ∧ sn_role snap = Leader ∧ (joiner ∉ sn_members snap) ∧
    NoDup ms ∧ (∀ x, x ∈ ms ↔ x ∈ sn_members snap ∨ x = joiner).
Proof.
  unfold worker_join_ask. destruct (post h MsgQueryState w) as [w1 reply].
  destruct reply as [[| | | | | |snap]|]; try done. case_bool_decide as Hl; [|done]. cbn [negb].
  case_bool_decide as Hm; [done|]. intros [= <- <- <-]. destruct (join_members (sn_members snap) joiner) as [Hnd Hin].
  exists snap. done.
Qed.
