(* ===== verification/NetworkProps.v ===== *)
(** * Properties of the network

    The frame codec, the Raft transport, and the network thread: what reaches a
    Raft worker and from whom, who a message comes from, how requests are
    answered, and how much work a peer can cause.

    The example network at the end is a node with one group and a worker on
    [MemStorage]; a peer is a number, its digest the two low bytes. *)

From Stdlib.Strings Require Byte.
From stdpp Require Import gmap sorting.
From S2P Require Import Prelude Bytes Frames FrameLaws Network NetworkLaws NetworkTrace NetworkRate NetworkJoin.
From S2P Require Import RaftTypes RaftStorage RaftConfig RaftState RaftWorker RaftNode RaftTransport.

Local Open Scope N_scope.

(** C17: The decoder accepts exactly the encodings of the frames whose fields have
    their widths and whose lists and payloads are within the caps, so decoding
    inverts encoding and no two byte strings decode to the same frame; and the
    stream reader accepts exactly what the stream writer writes, leaving the rest
    of the stream. *)
Theorem frame_codec_exact (f : Frame) :
  (∀ b, decode b = Ok f ↔ frame_ok f ∧ b = encode f) ∧
  (∀ s rest, read_frame s = Ok (f, rest) ↔ frame_ok f ∧ ∃ w, write_frame f = Ok w ∧ s = w ++ rest).
Proof. split; [intros b; apply decode_reads|intros s rest; apply read_frame_ok]. Qed.

(** Heads over the cap: the frame is written and its reader refuses it. *)
Example heads_over_cap_refused :
  let f := Heads (replicate 32 Byte.x00) (replicate 257 (replicate 32 Byte.x01)) in
  match write_frame f with Ok w => read_frame w = Err (InvalidFrame (HeadsTooMany 257)) | Err _ => False end.
Proof. vm_compute. reflexivity. Qed.

(** A configuration entry over the cap behind an entry that fits: no prefix is
    sent, although the first entry is transportable. *)
Example prefix_gives_up_behind_a_large_configuration :
  raft_append_prefix_len [mkRaftEntry 1 (Frames.Data [])] = Some 1 ∧
  raft_append_prefix_len [mkRaftEntry 1 (Frames.Data []); mkRaftEntry 1 (Frames.ConfigChange None (replicate 257 1))] = None.
Proof. vm_compute. done. Qed.

Section properties.
Context {PeerId Addr Svc H W : Type} `{Countable PeerId} `{EqDecision Addr} `{EqDecision H}.
Context `{Identity PeerId} `{NetworkService PeerId Svc W} `{RaftRpcHandler PeerId Svc H W}.

Local Abbreviation Net := (@Network PeerId Addr Svc H W _ _).
Local Abbreviation eff := (@effect PeerId Addr H).
Local Abbreviation input := (@net_input PeerId Addr Svc H W).

(** C5: A Raft RPC reaches a group's handler only from the authenticated peer of
    the slot it claims: the slot is the prefix derived from the caller's identity,
    and at some point of the run before the call the handler was the group's, the
    caller was bound to the slot in its voter table, and the worker's status
    counted the slot among its voters. *)
Theorem raft_rpcs_authenticated peer_id local_prefix auto_dial w (n : Net) ins h peer g rpc :
  start peer_id local_prefix auto_dial w = Some n →
  ECall h peer g rpc ∈ snd (net_run ins n) →
  derive_node_prefix peer = claimed_prefix rpc ∧
  ∃ ins1 ins2, ins = ins1 ++ ins2 ∧ admits (fst (net_run ins1 n)) h peer g (claimed_prefix rpc).
Proof.
  intros Hs He. pose proof (start_ok _ _ _ _ _ Hs) as Hok.
  assert (n_tasks n = []) as Hn. { unfold start in Hs. destruct (_ =? _); [|done]. by injection Hs as <-. }
  destruct (proj1 (run_calls ins n Hn) h peer g rpc He) as (ins1 & ins2 & -> & Ha). split; [|eauto].
  pose proof (net_run_ok ins1 n Hok) as Hok1. destruct Ha as (r & reg & st & _ & Hr & _ & Hx & _).
  by apply (ok_voters _ Hok1 r reg).
Qed.

(** The voter table of a registration is append-only: a slot bound to a peer
    stays bound to that peer for as long as the registration exists, whatever
    commands, events, tasks and calls follow, and the peer's derived prefix is the
    slot. *)
Theorem voter_bindings_immutable peer_id local_prefix auto_dial w (n : Net) ins1 ins2 r reg x p :
  start peer_id local_prefix auto_dial w = Some n →
  n_regs (fst (net_run ins1 n)) !! r = Some reg → rg_voters reg !! x = Some p →
  derive_node_prefix p = x ∧
  ∃ reg', n_regs (fst (net_run (ins1 ++ ins2) n)) !! r = Some reg' ∧ rg_handler reg' = rg_handler reg ∧
    rg_voters reg' !! x = Some p.
Proof.
  intros Hs Hr Hx. pose proof (net_run_ok ins1 n (start_ok _ _ _ _ _ Hs)) as Hok.
  split; [by apply (ok_voters _ Hok r reg)|]. rewrite net_run_app. destruct (net_run ins1 n) as [n1 es1]. cbn [fst] in *.
  destruct (net_run_grows ins2 n1 Hok r reg Hr) as (reg' & Hr' & Hh & Hv). destruct (net_run ins2 n1) as [n2 es2].
  exists reg'. split_and!; [done|done|]. by eapply lookup_weaken.
Qed.

(** Every message delivered to the inbox comes from the owner of its source
    route: the high half of the sender's service id is the prefix derived from
    the authenticated peer. *)
Theorem tell_sources_authenticated peer_id local_prefix auto_dial w (n : Net) ins tell :
  start peer_id local_prefix auto_dial w = Some n →
  EInbox tell ∈ snd (net_run ins n) → N.shiftr (it_from tell) 16 = derive_node_prefix (it_peer tell).
Proof. intros Hs. apply run_inbox. by eapply start_ok. Qed.

(** C19: A command that asks for a reply sends one request.  Whatever a node
    responds to a request of that frame has the shape the pending reply takes: when
    the response arrives the caller's channel receives one answer.  The exception is
    a redirect of a plain invocation, which is not answered but sent on, to the
    leader's service on the peer known under the leader's prefix and with the same
    reply channel, unless the leader is this node or no such peer is known. *)
Theorem requests_are_answered (n : Net) c reply :
  net_ok n → n_running n = true → cmd_reply c = Some reply →
  ∃ id target f n1, net_step (ICmd c) n = (n1, [ERequest id target f]) ∧
  ∀ (server : Net) ins ch g now (n2 : Net),
    n_tasks server = [] → EResponse ch g ∈ snd (net_run ins server) → (∀ f', requested ins ch f' → f' = f) →
    n_running n2 = true → n_outbound n2 !! id = n_outbound n1 !! id →
    let '(n3, es) := net_step (IEvent now (ReqResp (Response target id g))) n2 in
    (∃ a, es = [EAnswer reply a]) ∨
    (∃ from to chain msg leader, c = SendInvoke target from to chain msg reply ∧ g = InvokeRedirect leader ∧
      let to' := N.lor (N.shiftl leader 16) (N.land to 0xFFFF) in
      match (if leader =? n_local_prefix n2 then None else n_prefix_map n2 !! leader) with
      | None => es = []
      | Some target' =>
          es = [ERequest (n_next_request n2) target' (InvokeRequest from to' chain msg)] ∧
          n_outbound n3 !! n_next_request n2 = Some (OInvoke (mkPendingInvoke reply from to' chain msg 1))
      end).
Proof.
  intros Hok Hrun Hc. destruct (expects_answer c n reply Hc) as (id & target & f & q & Hh & -> & Hq & Hans).
  exists (n_next_request n), target, f, (fst (handle_cmd c n)). split; [cbn [net_step]; by rewrite Hrun, Hh|].
  intros server ins ch g now n2 Hsrv Hg Hone Hrun2 Hout. rewrite Hh in Hout. cbn in Hout. rewrite lookup_insert_eq in Hout.
  destruct (proj1 (run_responses ins server Hsrv) ch g Hg) as (f' & Hreq & Hexp). apply Hone in Hreq as ->.
  cbn [net_step]. rewrite Hrun2. cbn [handle_swarm_event handle_req_resp]. unfold handle_response. cbv zeta. rewrite Hout.
  destruct (Hans g Hexp) as [[a Ha]|(leader & from & to & chain & msg & -> & -> & ->)].
  - destruct g, q; try done; cbn in Ha |- *; simplify_eq; left; eauto.
  - unfold follow_redirect. cbn [pi_redirects pi_to pi_from pi_chain pi_msg pi_reply]. cbn [N.leb orb N.compare].
    destruct (leader =? n_local_prefix n2) eqn:Hl; cbn [n_local_prefix n_prefix_map with_outbound]; rewrite Hl.
    + right. exists from, to, chain, msg, leader. split_and!; [done|done|]. cbv zeta. by rewrite Hl.
    + destruct (n_prefix_map n2 !! leader) as [target'|] eqn:Hp; right; exists from, to, chain, msg, leader;
        (split_and!; [done|done|]); cbv zeta; rewrite Hl, Hp; [|done]. cbn. by rewrite lookup_insert_eq.
Qed.

(** A reply channel is answered at most as many times as commands named it: a
    command is answered at most once. *)
Theorem answered_at_most_once peer_id local_prefix auto_dial w (n : Net) ins reply :
  start peer_id local_prefix auto_dial w = Some n →
  (answers_to reply (snd (net_run ins n)) ≤ sum_list_with (asks reply) ins)%nat.
Proof.
  intros Hs. pose proof (run_answers reply ins n (start_ok _ _ _ _ _ Hs)) as Ha.
  assert (pending_for reply n = 0%nat) as Hz; [|lia].
  unfold start in Hs. destruct (_ =? _); [|done]. injection Hs as <-. unfold pending_for. cbn. by rewrite map_filter_empty.
Qed.

(** C20: The work a peer can cause is bounded.  Over any run of a node whose clock
    does not go back and in which the peer sends fewer than 2^32 requests of a kind
    in any two seconds, at most twice the cap of a kind's window is served to the
    peer in any interval of two seconds: 2048 fetches of heads and nodes, 32 of
    program blobs, 16 stores of private input.  At most 16 stores of private input
    are in progress at once, whoever asks. *)
Theorem peer_work_bounded peer_id local_prefix auto_dial w (n : Net) ins peer t :
  start peer_id local_prefix auto_dial w = Some n → StronglySorted N.le (omap event_time ins) →
  (∀ k s, N.of_nat (asked peer s (omap (request_of k) ins)) < 2 ^ 32) →
  N.of_nat (served LSync peer t ins n) ≤ 2048 ∧ N.of_nat (served LProgramBlob peer t ins n) ≤ 32 ∧
  N.of_nat (served LPrivateIngress peer t ins n) ≤ 16 ∧
  N.of_nat (private_tasks (n_tasks (fst (net_run ins n)))) ≤ 16.
Proof.
  intros Hs Hsort Hrate. pose proof (start_ok _ _ _ _ _ Hs) as Hok.
  assert (Hall : ∀ k, N.of_nat (served k peer t ins n) ≤ 2 * limit_cap k).
  { intros k. rewrite <- (N.add_0_l (N.of_nat _)). apply (run_served k peer t ins n 0 0 []); [done| |apply Hrate|].
    - constructor; [done|]. apply Forall_forall. intros; lia.
    - unfold start in Hs. destruct (_ =? _); [|done]. injection Hs as <-. split; [done|]. destruct k; cbn; rewrite lookup_empty; left; lia. }
  split_and!; [apply (Hall LSync)|apply (Hall LProgramBlob)|apply (Hall LPrivateIngress)|].
  pose proof (net_run_ok ins n Hok) as Hok'. rewrite <- (ok_in_flight _ Hok'). apply Hok'.
Qed.


(** C6: An AppendEntries the transport accepts to send reaches the worker of the
    other node as the request it was, up to entries cut from its tail by the
    frame limit: the frame it becomes is written and read back unchanged, and
    handling it there is handling the original request with its first [k] entries,
    at least one if there were any. *)
Theorem append_rpc_delivered {S E : Type} `{!Storage N S E} (n n1 : Net) i slot req reply cmd :
  fixed_ok i → append_req_ok req → send_append i slot req reply n = (n1, Ok cmd) →
  ∃ peer k rpc, cmd = SendRaft peer i rpc reply ∧ snd (raft_voter_peer i slot n) = Some peer ∧
    (k ≤ length (ae_entries req))%nat ∧ (ae_entries req ≠ [] → 0 < k)%nat ∧
    (∃ w, write_frame (raft_frame i rpc) = Ok w ∧ ∀ s, read_frame (w ++ s) = Ok (raft_frame i rpc, s)) ∧
    ∀ h (w : world),
      let sent := with_entries (take k (ae_entries req)) req in
      @call_handler PeerId Svc N world worker_handlers (Live h) i rpc w =
      let '(w', r) := post h (MsgAppendEntries (ae_leader req) sent) w in
      (w', RaftAppendResp (aer_term (inbound_append sent r)) (aer_success (inbound_append sent r)) (aer_match_index (inbound_append sent r))).
Proof.
  intros Hi Hreq. unfold send_append. destruct (raft_voter_peer i slot n) as [n' [peer|]]; [|done].
  destruct (raft_append_prefix_len _) as [k|] eqn:Hk; [|done]. intros [= _ <-].
  destruct (append_frame_ok i req k Hi Hreq Hk) as (Hf & Hb & Hlen & Hpos).
  exists peer, (N.to_nat k). eexists. split_and!; [reflexivity|done|done|intros Hne; apply Hpos in Hne; lia|..].
  - unfold write_frame. cbv zeta. rewrite (proj2 (N.ltb_ge _ _)) by exact Hb. eexists. split; [reflexivity|]. intros s.
    apply read_frame_ok. split; [done|]. eexists. split; [|reflexivity]. unfold write_frame. cbv zeta.
    by rewrite (proj2 (N.ltb_ge _ _)) by exact Hb.
  - intros h w. cbv zeta. cbn [call_handler append_entries worker_handlers h_append_entries]. unfold worker_append_entries. cbv zeta.
    rewrite <- fmap_take, <- list_fmap_compose.
    assert (entry_of_wire ∘ entry_to_wire <$> take (N.to_nat k) (ae_entries req) = unindexed <$> take (N.to_nat k) (ae_entries req)) as ->.
    { apply list_fmap_ext. intros _ e _. apply entry_of_to_wire. }
    set (sent := with_entries (take (N.to_nat k) (ae_entries req)) req).
    assert (Hpost : post h (MsgAppendEntries (ae_leader req) (with_entries (unindexed <$> ae_entries sent) sent)) w = post h (MsgAppendEntries (ae_leader req) sent) w).
    { unfold post. destruct (w !! h) as [wk|]; [|done]. by rewrite worker_step_unindexed. }
    change (mkAppendReq (ae_leader req) (ae_term req) (ae_prev_log_index req) (ae_prev_log_term req) (ae_leader_commit req)
      (unindexed <$> take (N.to_nat k) (ae_entries req))) with (with_entries (unindexed <$> ae_entries sent) sent).
    rewrite Hpost. generalize (post h (MsgAppendEntries (ae_leader req) sent) w). intros [w' [[]|]]; reflexivity.
Qed.

End properties.

(** ** Joins *)

Section join.
Context {PeerId Addr Svc S E : Type} `{Countable PeerId} `{EqDecision Addr} `{!Storage N S E}.
Context `{Identity PeerId} `{NetworkService PeerId Svc (world (S := S))}.
Local Abbreviation Net := (@Network PeerId Addr Svc N world _ _).
Local Abbreviation at_ ins n := (fst (net_run ins n)).

(** C18: A join proposes to enrol its caller and nobody else, whatever prefix it
    claims.  Whenever a join hands a worker a membership change, its caller asked to
    join the group before; after that, the registry listed the caller's full
    identity as a voter at the prefix derived from it; after that, the caller was
    bound to that slot in the group's voter table; after that, the request's policy
    was that of the group's route and the route's barrier was free, or neither had
    one; and after that, the worker answered as the leader, without the caller among
    its members.  The proposal is the members of that answer and the caller's
    prefix, which the worker's members may have left behind by then. *)
Theorem join_enrols_caller peer_id local_prefix auto_dial w (n : Net) ins h peer i ms :
  start peer_id local_prefix auto_dial w = Some n → EPropose h peer i ms ∈ snd (net_run ins n) →
  let x := derive_node_prefix peer in
  ∃ ins1 ins2 ins3 ins4 ins5 policy route w' snap,
    ins = ins1 ++ ins2 ++ ins3 ++ ins4 ++ ins5 ∧
    join_requested peer i policy ins1 ∧ join_admits (at_ ins1 n) peer ∧
    join_bound (at_ (ins1 ++ ins2) n) peer i ∧
    join_routed (at_ (ins1 ++ ins2 ++ ins3) n) i policy route ∧
    post h MsgQueryState (n_world (at_ (ins1 ++ ins2 ++ ins3 ++ ins4) n)) = (w', Some (RepState snap)) ∧
    sn_role snap = Leader ∧ (x ∉ sn_members snap) ∧ NoDup ms ∧ ∀ y, y ∈ ms ↔ y ∈ sn_members snap ∨ y = x.
Proof.
  intros Hs He x. pose proof (start_ok _ _ _ _ _ Hs) as Hok.
  assert (Hn : n_tasks n = []). { unfold start in Hs. destruct (_ =? _); [|done]. by injection Hs as <-. }
  destruct (run_proposals n ins h peer i ms Hok Hn He) as
    (route & i4 & ins5 & -> & (i3 & ins4 & -> & policy & (i2 & ins3 & -> & (ins1 & ins2 & -> & Hreq & Hadm) & Hbd) & Hrt) & w' & hint & Hask).
  apply (worker_join_ask_proposal h i) in Hask as (snap & Hpost & Hl & Hx & Hnd & Hms).
  exists ins1, ins2, ins3, ins4, ins5, policy, route, w', snap. rewrite <- !app_assoc in *. done.
Qed.
End join.

(** ** An example network *)

#[local] Instance number_identity : Identity N := {|
  peer_digest p := (byte_of p, byte_of (p `div` 256));
  peer_to_bytes p := to_le_bytes 8 p;
|}.

Abbreviation example_world := (world (S := MemStorage N)).

#[local] Instance silent_service : NetworkService N unit example_world := {|
  dispatch_invoke_routed _ _ _ _ _ _ w := (w, Reply []);
  sync_roots _ _ _ _ := None;
  sync_get_node _ _ _ _ _ := None;
  manifest _ _ := None;
  get_proof_blob _ _ _ := None;
  get_program_blob _ _ _ _ := None;
  store_private_ingress _ _ _ _ _ _ _ w := (w, true);
  service_voter_peer _ _ prefix _ := Some prefix;
  lookup_node_member _ prefix _ := Some (mkMember MEMBER_KIND_NODE (to_le_bytes 8 prefix) prefix NODE_ROLE_VOTER 0 []);
  route_quiescent _ _ w := (w, true);
|}.

Definition example_worker : worker (S := MemStorage N) :=
  mkWorkerThread (publish_status 0 (sample_worker mem_new (config_new 1 [1; 2; 3]))) [] 0 (Some 0).

Definition example_node : @Network N N unit N example_world _ _ :=
  mkNetwork 1 1 true ∅ [] None ∅ ∅ 0 ∅ 0 ∅ limiter_default [] true routes_default {[7 := example_worker]}.

Definition example_group : bytes := replicate 32 Byte.x05.

Definition example_vote : RaftRpc := RpcVote 1 2 0 0.

(** The node serves a group whose voter 2 is resolved by the service. *)
Definition example_run : list (@net_input N N unit N example_world) :=
  [ISetService (); IRegister example_group 7; IEvent 5 (ReqResp (Request 2 0 (raft_frame example_group example_vote)));
   ITask 0; ITask 0].

Lemma example_start : start 1 1 true {[7 := example_worker]} = Some example_node.
Proof. reflexivity. Qed.

Lemma raft_rpcs_authenticated_witness :
  derive_node_prefix 2 = claimed_prefix example_vote ∧
  ∃ ins1 ins2, example_run = ins1 ++ ins2 ∧ admits (fst (net_run ins1 example_node)) (Live 7) 2 example_group 2.
Proof.
  apply (raft_rpcs_authenticated 1 1 true {[7 := example_worker]} example_node example_run (Live 7) 2 example_group example_vote).
  - reflexivity.
  - assert (snd (net_run example_run example_node) = [ECall (Live 7) 2 example_group example_vote; EResponse 0 (RaftVoteResp 1 true)]) as ->
      by (vm_compute; reflexivity).
    left.
Defined.

Lemma voter_bindings_immutable_witness :
  derive_node_prefix 2 = 2 ∧
  ∃ reg', n_regs (fst (net_run (example_run ++ [IUnregister example_group]) example_node)) !! 0 = Some reg' ∧
    rg_handler reg' = Live 7 ∧ rg_voters reg' !! 2 = Some 2.
Proof.
  apply (voter_bindings_immutable 1 1 true {[7 := example_worker]} example_node example_run [IUnregister example_group] 0
    (mkRegistration (Live 7) {[1 := 1; 2 := 2]}) 2 2); vm_compute; reflexivity.
Defined.

Lemma tell_sources_authenticated_witness : N.shiftr 131077 16 = derive_node_prefix 2.
Proof.
  apply (tell_sources_authenticated 1 1 true {[7 := example_worker]} example_node
    [IEvent 1 (ReqResp (Request 2 0 (Hello 9))); IEvent 2 (ReqResp (Request 2 1 (Tell 131077 65536 [])))]
    (mkInboundTell 2 131077 65536 [])).
  - reflexivity.
  - assert (snd (net_run [IEvent 1 (ReqResp (Request 2 0 (Hello 9))); IEvent 2 (ReqResp (Request 2 1 (Tell 131077 65536 [])))] example_node) =
      [EResponse 0 (Hello 1); EInbox (mkInboundTell 2 131077 65536 []); EResponse 1 Ack]) as -> by (vm_compute; reflexivity).
    right; left.
Defined.

(** A fetch answered twice. *)
Definition example_fetch : list (@net_input N N unit N example_world) :=
  [ICmd (SendFetchHeads 2 example_group 3); IEvent 1 (ReqResp (Response 2 0 (Heads example_group [])));
   IEvent 2 (ReqResp (Response 2 0 (Heads example_group [])))].

Lemma answered_at_most_once_witness : (answers_to 3 (snd (net_run example_fetch example_node)) ≤ 1)%nat.
Proof.
  apply (answered_at_most_once 1 1 true {[7 := example_worker]} example_node example_fetch 3). reflexivity.
Defined.

Lemma requests_are_answered_witness :
  ∃ id target f n1, net_step (ICmd (SendFetchHeads 2 example_group 3)) example_node = (n1, [ERequest id target f]) ∧
    (∃ a, snd (net_step (IEvent 6 (ReqResp (Response target id (Heads example_group [])))) n1) = [EAnswer 3 a]) .
Proof.
  destruct (requests_are_answered example_node (SendFetchHeads 2 example_group 3) 3) as (id & target & f & n1 & Hstep & Hans).
  - by apply (start_ok 1 1 true {[7 := example_worker]}).
  - reflexivity.
  - reflexivity.
  - exists id, target, f, n1. split; [done|]. pose proof Hstep as Heq. vm_compute in Heq. injection Heq as <- <- <- <-.
    specialize (Hans example_node [IEvent 5 (ReqResp (Request 1 4 (FetchHeads example_group))); ITask 0] 4 (Heads example_group []) 6
      (fst (net_step (ICmd (SendFetchHeads 2 example_group 3)) example_node)) eq_refl).
    destruct (net_step (IEvent 6 _) _) as [n3 es] eqn:Hev in Hans |- *.
    destruct Hans as [Ha|(from & to & chain & msg & leader & [=] & _)]; [|..].
    + assert (snd (net_run [IEvent 5 (ReqResp (Request 1 4 (FetchHeads example_group))); ITask 0] example_node) =
        [EResponse 4 (Heads example_group [])]) as -> by (vm_compute; reflexivity). left.
    + intros f' (now & peer & Hin). apply elem_of_cons in Hin as [Hin|Hin]; [by injection Hin as _ _ ->|].
      apply list_elem_of_singleton in Hin. done.
    + reflexivity.
    + reflexivity.
    + exact Ha.
Defined.

(** Peer 2 fetches twice. *)
Definition example_fetches : list (@net_input N N unit N example_world) :=
  [IEvent 1 (ReqResp (Request 2 0 (FetchHeads example_group))); ITask 0; IEvent 2 (ReqResp (Request 2 1 (FetchHeads example_group)))].

Lemma peer_work_bounded_witness :
  served LSync 2 0 example_fetches example_node = 2%nat ∧ N.of_nat (served LSync 2 0 example_fetches example_node) ≤ 2048 ∧
  N.of_nat (private_tasks (n_tasks (fst (net_run example_fetches example_node)))) ≤ 16.
Proof.
  split; [vm_compute; reflexivity|].
  destruct (peer_work_bounded 1 1 true {[7 := example_worker]} example_node example_fetches 2 0) as (Hsync & _ & _ & Hp).
  - reflexivity.
  - cbn. repeat first [apply SSorted_nil | apply SSorted_cons | apply Forall_nil_2 | apply Forall_cons_2]; done.
  - intros k s. apply (N.le_lt_trans _ 3); [|reflexivity]. unfold asked.
    apply (N.le_trans _ (N.of_nat (length (omap (request_of k) example_fetches)))).
    + apply N.compare_le_iff. apply N.compare_le_iff. pose proof (count_if_le_length
        (λ '(now, q), bool_decide (q = 2) && (s <=? now) && (now <? s + SYNC_RATE_WINDOW)) (omap (request_of k) example_fetches)). lia.
    + destruct k; vm_compute; discriminate.
  - split; [exact Hsync|exact Hp].
Defined.

(** *** A leader alone in its group, and peers that join it *)

Definition leading_worker : worker (S := MemStorage N) :=
  mkWorkerThread (worker_step 0 EvTimer [] (sample_worker mem_new (config_new 1 [1]))).1.1 [] 0 (Some 0).

Definition join_node : @Network N N unit N example_world _ _ :=
  mkNetwork 1 1 true ∅ [] None ∅ ∅ 0 ∅ 0 ∅ limiter_default [] true routes_default {[7 := leading_worker]}.

Definition example_policy : bytes := replicate 32 Byte.x09.

(** Peer 2 joins a group with a route, claiming the prefix 9. *)
Definition example_join : list (@net_input N N unit N example_world) :=
  [ISetService (); IRegister example_group 7; IAddRoute example_group (Some example_policy);
   IEvent 5 (ReqResp (Request 2 0 (RaftJoinReq example_group 9 (Some example_policy))));
   ITask 0; ITask 0; ITask 0; ITask 0; ITask 0; ITask 0].

Lemma join_enrols_caller_witness :
  ∃ ins1 ins2 policy, join_requested 2 example_group policy ins1 ∧
    join_admits (fst (net_run ins1 join_node)) 2 ∧ join_bound (fst (net_run (ins1 ++ ins2) join_node)) 2 example_group.
Proof.
  destruct (join_enrols_caller 1 1 true {[7 := leading_worker]} join_node example_join 7 2 example_group [1; 2]) as
    (ins1 & ins2 & ins3 & ins4 & ins5 & policy & route & w' & snap & _ & Hreq & Hadm & Hbd & _).
  - reflexivity.
  - assert (snd (net_run example_join join_node) =
      [EPropose 7 2 example_group [1; 2]; EResponse 0 (RaftJoinResp (Accepted 2))]) as -> by (vm_compute; reflexivity).
    left.
  - exists ins1, ins2, policy. split; [exact Hreq|]. split; [exact Hadm|exact Hbd].
Defined.



(** The worker of a world takes an acknowledgement. *)
Definition acknowledged (from match_index : N) (w : example_world) : example_world :=
  match w !! 7 with
  | Some k =>
      let st := (worker_step 0 (EvOutcome (OcAppend from (Some (mkAppendResp 1 true match_index)))) (wk_pending k) (wk_state k)).1.1 in
      <[7 := mkWorkerThread st [] 0 (Some 0)]> w
  | None => w
  end.

(** In a group without a route two joins can be past the worker's answer at once.
    Peers 2 and 3 both read the members [1]; the change to [1; 2] is accepted and
    finalised, and then the change to [1; 3] is accepted too, which drops voter 2. *)
Example concurrent_joins_drop_a_voter :
  let start_both :=
    [ISetService (); IRegister example_group 7;
     IEvent 5 (ReqResp (Request 2 0 (RaftJoinReq example_group 2 None))); IEvent 5 (ReqResp (Request 3 1 (RaftJoinReq example_group 3 None)));
     ITask 0; ITask 0; ITask 0; ITask 0; ITask 0; ITask 0; ITask 0; ITask 0] in
  let '(n1, es1) := net_run (start_both ++ [ITask 0]) join_node in
  let '(n2, es2) := net_run [IWorld (acknowledged 2 2 (n_world n1)); ITask 0] n1 in
  es1 = [EPropose 7 2 example_group [1; 2]; EResponse 0 (RaftJoinResp (Accepted 2))] ∧
  es2 = [EPropose 7 3 example_group [1; 3]; EResponse 1 (RaftJoinResp (Accepted 4))] ∧
  (ws_effective_cfg ∘ wk_state <$> n_world n2 !! 7) = Some (mkActive [1; 3] (Some [1; 2])).
Proof. vm_compute. done. Qed.

Definition example_append : AppendEntriesReq N :=
  mkAppendReq 1 1 0 0 0 [entry_data 1 1 [Byte.x2a]; entry_config_change 2 1 None [1; 2]].

(** The node sending to voter 2. *)
Definition example_sender : @Network N N unit N example_world _ _ :=
  fst (net_run [ISetService (); IRegister example_group 7] example_node).

Lemma append_rpc_delivered_witness :
  ∃ peer k rpc, snd (send_append example_group 2 example_append 3 example_sender) = Ok (SendRaft peer example_group rpc 3) ∧
    (0 < k)%nat ∧ ∃ w, write_frame (raft_frame example_group rpc) = Ok w.
Proof.
  destruct (send_append example_group 2 example_append 3 example_sender) as [n1 r] eqn:Hs.
  assert (Hr : ∃ cmd, r = Ok cmd).
  { assert (r = snd (send_append example_group 2 example_append 3 example_sender)) as -> by by rewrite Hs. eexists. vm_compute. reflexivity. }
  destruct Hr as [cmd ->].
  destruct (append_rpc_delivered (S := MemStorage N) example_sender n1 example_group 2 example_append 3 cmd) as
    (peer & k & rpc & -> & _ & _ & Hk & (w & Hw & _) & _).
  - reflexivity.
  - unfold append_req_ok, u64_ok, u16_ok. cbn. split_and!; try reflexivity. repeat constructor.
  - exact Hs.
  - exists peer, k, rpc. split; [reflexivity|]. split; [by apply Hk|]. by exists w.
Defined.
